(* ===== verification/_CoqProject ===== *)
-Q . S2P
Prelude.v
Float64.v
FixedPoint.v
RingBuffer.v
SnapBuf.v
Priority.v
Heap.v
JobQueue.v
Relationship.v
Group.v
Party.v
Wallet.v
Effects.v
Saga.v
Tcc.v
Txn.v
IdGen.v
Rollback.v
Fsm.v
Versus.v
Dag.v
Bitmap.v
NodeBreaker.v
Timeline.v
BehaviorTree.v
Energy.v
Gcra.v
Tally.v
CmdLog.v
Storage.v
DelayQueue.v
TimerQueue.v
Leaderboard.v
Replicate.v
Pathfind.v
KeyedMutex.v
Semaphore.v
LoadBalance.v
Shard.v
Mail.v
Kvstore.v
Cooldown.v
Counter.v
Idempotency.v
AntiReplay.v
Matchmaker.v
Questlog.v
Breaker.v
Presence.v
Signin.v
Reddot.v
Ability.v
Box.v
Inbox.v
Chat.v
Notification.v
Handoff.v
Lru.v
TinyLfu.v
Loader.v
Leveling.v
Gameroom.v
Scheduler.v
Broadcast.v
Lagcomp.v
Match.v
Eventbus.v
Loot.v
Hyperloglog.v
Countmin.v
Reservoir.v
Tournament.v
Syncx.v
Selector.v
Route.v
Resume.v
Token.v
Authz.v
Dlock.v
Fieldmask.v
