(* ===== verification/Prelude.v ===== *)
(** A verification library for the in-process core of beauty, a Go framework for
    game and application servers (sources under [src/pkg/]).

    * The program

    The framework is a set of small packages. Those with logic of their own fall
    into five groups, and each group is modelled by several files:

    - foundations: fixed-point arithmetic, rings, a binary heap, delay and timer
      queues, a state machine, a layered DAG executor, bitmaps and field masks, batched
      counters, sketches, a grid path finder, keyed locks, semaphores, identifiers, label
      selectors, bounded caches and their loader;
    - domain objects: the social graph and the groups built on it, parties, ledger
      wallets, regenerating energy, mail, message boxes, sign-in calendars,
      leaderboards and their seasons, versioned storage, presence;
    - orchestration and messaging: the job queue, the worker pool, sagas, TCC
      transactions, two-phase commit, locks and elections, the event bus, the
      broadcaster, batching, routing and resumption of sessions, the hand-over of
      entities between processes;
    - protection of handlers: circuit breakers, load balancers, consistent hashing, the
      GCRA limiter, tokens and authorization, and, on a key-value store, cooldowns,
      counters and quotas, idempotency guards, anti-replay;
    - game: rollback sessions, snapshot rings, command logs, contests, timelines,
      behaviour trees, replication, lag compensation, matchmaking, rooms and session
      actors, quests, levels, draws, abilities, unread trees.

    The rest of the repository is adapters (Consul, etcd, Kubernetes, SQL, Redis,
    HTTP, gRPC, QUIC, WebRTC), middleware, and the packages named at the end.

    * The files

    - [Prelude] (this file): machine integers, Go's panics ([go]) and error returns
      ([result]), slices, histories of timed operations ([timely], [play_simulates]),
      sharded maps ([shard_get]), counting and sorting lemmas, the hint databases.
    - [Float64]: the [float64] operations the code uses, on [SpecFloat].
    - [FixedPoint]: [foundation/fixedpoint]. A [Fixed] is an [int64] with 32
      fractional bits; every operation writes out the wrap-around.
    - [RingBuffer]: [foundation/ringbuffer], with the abstract contents of a ring
      (the latest elements, oldest first). [SnapBuf]: [game/snapbuf], on it.
    - [Priority]: [foundation/priority], the binary heap on a slice, over abstract
      items. [Heap]: Go's [container/heap], which [DelayQueue] and [TimerQueue] use.
    - [JobQueue]: [orchestration/jobqueue], on the heap of [Priority]: the store of
      shared jobs, the delayed list, the bounded wake-up channel, and a system whose
      submitters, signals, scheduler, cancellations, pauses, [Stop] and workers
      ([JobQueue.worker], a phase per place of the loop) take steps in any order.
    - [DelayQueue], [TimerQueue]: [orchestration/delayqueue] and [timerqueue], on
      [Heap], with their timers and the goroutine or loop that fires them.
    - [Relationship]: [domain/relationship], the directed graph. [Group]:
      [domain/group] on it: roles are the states of the edges that leave the group.
    - [Party], [Wallet], [Energy], [Mail], [Storage]: the packages of that name under
      [domain/] ([Mail] generic in its store, [Storage] versioned objects with
      permissions). [Leaderboard]: [game/leaderboard], the ranking and its index.
    - [Effects]: callbacks on an outside world, contexts, and [foundation/safe], which
      [Saga], [Tcc], [Txn] ([orchestration/]), [Dag] ([foundation/dag]) and
      [Idempotency] share.
    - [IdGen]: [idgen]. [Rollback]: [rollback]. [CmdLog]: [cmdlog], with recovery from
      a checkpoint. [Replicate]: [game/replicate], snapshots and deltas to viewers.
    - [Fsm]: [foundation/fsm]; [Versus]: [game/versus], whose life cycle is a machine
      of [Fsm].
    - [Bitmap], [KeyedMutex], [Semaphore]: [foundation/]. [Pathfind]:
      [game/pathfind], A* on a grid. [Tally]: [store/tally].
    - [NodeBreaker]: [governance/circuitbreaker]. [LoadBalance]: [store/loadbalance].
      [Shard]: [store/shard], rendezvous and jump owners, routing.
    - [Timeline]: [timeline]. [BehaviorTree]: [behaviortree].
    - [Gcra]: [resilience/ratelimit/gcra.go].
    - [Kvstore]: [store/kvstore], the interface [Store] of a key-value store with expiry
      (a [Class]), what it promises ([StoreLaws]), and the sharded memory store that
      keeps the promise (an [Instance]). Its clients are proved against the promise:
      [Cooldown] ([resilience/cooldown]), [Counter] ([resilience/counter]),
      [Idempotency] ([store/idempotency]), [AntiReplay] ([middleware/antireplay]).
    - [Matchmaker]: [game/matchmaker]. [Matchmaker.tick_matches] is about its turns.
    - [Breaker]: [resilience/circuitbreaker], the breaker of one client. [Presence]:
      [transport/presence], two indexes of who is in which stream and the queue of
      join and leave events.
    - [Questlog], [Reddot]: [game/questlog], quests and rewards, and [game/reddot], the
      tree of unread counts. [Ability]: [ability], casts in phases with cooldowns.
      [Signin]: [domain/signin], a calendar of bitmaps on the bits of [Bitmap].
    - [Box]: lists of numbered messages, cut to a capacity and read in pages, which
      [Inbox], [Chat] and [Notification] ([domain/]) are stores of, [Notification] with
      the memory its callers' pointers lead to.
    - [Handoff]: [handoff], source, target and the protocol between them as a relation.
    - [Lru]: [store/cache]'s interface [Lru.Cache] with its promise [Lru.CacheLaws], and
      the least-recently-used cache that keeps it; [TinyLfu]: the other cache, by
      frequency, that keeps it too; [Loader]: the loader, proved against the promise.
    - [Leveling]: [game/leveling], with the interface [Leveling.Curve] and its laws.
      [Gameroom]: [game/gameroom], on [Fsm] and [DelayQueue]. [Lagcomp]:
      [game/inputclock] and [game/lagcomp], on [SnapBuf]. [Loot]: [game/loot], over an
      interface of numbers with [float64] and the rationals as instances.
    - [Scheduler]: [orchestration/scheduler]. [Broadcast]: [messaging/stream]; [Match]:
      [game/match], on it. [Eventbus]: [messaging/eventbus], whose handlers are code
      that calls the bus. [Syncx]: [foundation/syncx].
    - [Hyperloglog], [Countmin], [Reservoir]: [foundation/sketch]. [Tournament]:
      [domain/tournament], on [Leaderboard]. [Selector]: [utils/selector]. [Fieldmask]:
      [fieldmask], on [Bitmap]. [Route], [Resume]: [transport/router] and [resume], on
      [Presence].
    - [Token]: [api/token], over the interface of a signed format. [Authz]: [api/authz],
      the interface [Authz.Enforcer], its instance by roles, and the guards proved against
      it. [Dlock]: [store/dlock], locks and elections in memory.
    The exact files and lines are those of the map beside this library; a definition
    carries the name of what it translates.

    * How the code is modelled

    A struct is a [Record], a sentinel error a constructor, a method a function from
    the state and its arguments to the new state and its results; names are the
    source's, with a suffix where Rocq has the name already ([Set_], [run_layers]).
    Integers are [Z] with [wrap64], [wrapu64] and [wrapu32] where Go wraps. A slice
    index out of range and a [panic] are [Panic], an [error] is a value. A map is a
    [gmap]; where the order of a Go [range] matters, the order is an argument. A
    method that holds its lock from start to end is one step; [JobQueue], [Semaphore],
    [KeyedMutex], [Idempotency], [Breaker], [Inbox], [Scheduler], [Broadcast], [Match],
    [Gameroom], [Syncx], [Dlock] and the store mode of [Counter] split their methods at
    the locks and the channels and interleave the parts; a history in another file, of
    [Mail] too, is of calls that do not overlap. [Dag] takes the order in which the goroutines of a layer take
    effect, [NodeBreaker] the order in which its clients take the locks. The clock is
    outside: the readings a call makes are its arguments. A callback is a function on
    an abstract world that may return an error or panic.

    Loops that are not structural have fuel, and a theorem or lemma that the fuel is
    enough: one more than the index for the heap's [up], one more than the size for
    [down] (indices halve or double), one more than the size for the loops that drain
    a timer heap, the number of queued jobs for [dequeue], the number of nodes for
    Kahn's layers ([Dag.topoSort_correct] is total), 65 turns for the bits of a word
    ([Bitmap.bits_loop_ones]), [8 n + 2] pops for the path finder on [n] cells and
    [n + 1] steps for the way back ([Pathfind.find_path_shortest] is total), one more
    than the length for a binary search, the number of tickets for the groups of a
    matchmaker, the frames between two frame numbers for the replay of [Rollback], the
    iterations bounded by the code itself in [FixedPoint.Sqrt], the days since the first
    month kept for the streak of [Signin], one more than the length for the paths of
    [Reddot] and the pages of [Box], the levels of a
    behaviour tree and the turns of its repeaters ([BehaviorTree.bound], enough by
    [BehaviorTree.tree_ticks_return]), 64 turns for the search of a level, one turn per
    bucket for the alias table of [Loot]. The depth of the publications within
    publications of [Eventbus] has no bound ([Eventbus.self_publish_spins]), and the
    resets [Tournament] looks back for have one that depends on the schedule
    ([Tournament.tournament_seasons] gives it). [IdGen.Next] consumes the readings of the clock
    it is given: [IdGen.Next_returns] says when they suffice.

    * What is proved

    - Invariants of every reachable state: the balance of a wallet is the sum of its
      ledger ([Wallet.balance_is_ledger]); one owner per group, and no banned member
      ([Group.owner_unique], [Group.banned_stays_out]); capacity, seats and leader of
      a party ([Party.party_invariant]); no waiting job without a token or a worker
      ([JobQueue.no_lost_wakeup], which also says that one is brought to a worker); the history of a contest ([Versus.versus_history]);
      the range of the energy ([Energy.energy_bounds]); permits of a semaphore
      ([Semaphore.semaphore_bounded]); one holder per key ([KeyedMutex.lock_per_key]);
      what a batched counter has not written ([Tally.tally_conserves]); well-typed
      objects ([Storage.storage_typed]); progress and rewards of quests
      ([Questlog.quest_progress], [Questlog.quest_rewards]); rooms
      ([Gameroom.room_invariant], [Gameroom.rooms_go_forward]); what a worker pool has
      accepted and run ([Scheduler.scheduler_conserves], [Scheduler.pause_bound]); what a
      batcher holds ([Syncx.batcher_conserves]).
    - Functional correctness and refinement: the heap ([Priority.queue_Push_Pop],
      [Priority.queue_Remove_Update]) and the queue on it ([JobQueue.dequeue_min]);
      the rings ([RingBuffer.Ring_keeps_latest], [SnapBuf.snapshots_kept]); bitmaps as
      sets ([Bitmap.bitmap_is_set]); the session against an abstract timeline
      ([Rollback.rollback_refines]); recovery against the state at the crash
      ([CmdLog.recover_catches_up], and [CmdLog.recover_starts] for the checkpoint
      taken); the viewer against the world
      ([Replicate.viewer_synchronized]); compare-and-swap objects
      ([Storage.storage_is_cas]); the delay and timer queues against a list of
      deadlines ([DelayQueue.delayqueue_refines], [TimerQueue.timerqueue_refines]);
      the ranking against a sorted list ([Leaderboard.leaderboard_refines]); shortest
      paths ([Pathfind.find_path_shortest]); the timeline and its player
      ([Timeline.timeline_plays]); the memory nodes and De Morgan's law of behaviour
      trees ([BehaviorTree.memory_resumes], [BehaviorTree.tree_de_morgan]); each node
      of the breaker as an automaton of its own ([NodeBreaker.breaker_trips]); the
      two modes of a cooldown ([Cooldown.modes_agree]); the counter against a window
      of hits ([Counter.counter_refines]); who is in a stream against one map
      ([Presence.presence_refines], [Presence.events_replay]); unread counts against a
      map from paths ([Reddot.reddot_refines]); the pages of the message boxes
      ([Inbox.inbox_pages], [Chat.chat_pages], [Notification.notification_pages]); the
      phases of a cast ([Ability.phases_in_order]); the streak of a calendar
      ([Signin.streak_counts]); claiming all as claiming each
      ([Questlog.claim_all_is_claims]); the caches against the list of their uses and
      their admissions ([Lru.lru_refines], [TinyLfu.tinylfu_admission],
      [TinyLfu.sketch_never_under]) and the loader on any cache ([Loader.loader_serves],
      [Loader.loader_caches]); sketches against the streams they were given
      ([Hyperloglog.hll_is_set], [Countmin.countmin_over], [Reservoir.reservoir_fair]);
      levels on any curve ([Leveling.gain_levels], [Leveling.linear_level]); draws
      ([Loot.alias_exact], [Loot.draws_in_table], [Loot.distinct_draws],
      [Loot.pity_bound]); seasons ([Tournament.tournament_seasons]); selectors
      ([Selector.matches_means], [Selector.builders_narrow]); field masks
      ([Fieldmask.fieldmask_refines]); the session actor as the handler on its batches
      ([Match.match_replays], [Match.subscribers_follow]); the order of broadcasts
      ([Broadcast.broadcast_order], [Broadcast.publish_alone]); the handlers of a
      publication ([Eventbus.publish_calls_each], [Eventbus.unsubscribe_one],
      [Eventbus.plain_handlers]); routing and resumption ([Route.send_reaches],
      [Route.flush_fifo], [Route.stream_reaches], [Resume.resume_finds]); the world of a
      shot ([Lagcomp.rtt_follows], [Lagcomp.world_at_compensates]).
    - Termination and progress: Kahn's layering, total, and complete on the well-named
      graphs that have a ranking, every other graph being reported with its reason
      ([Dag.topoSort_correct]); every tick
      of a behaviour tree returns ([BehaviorTree.tree_ticks_return]); a due task fires
      ([DelayQueue.due_task_fires]); no waiter of an idempotency key is stranded
      ([Idempotency.nobody_stranded]); a pool that stops and a batcher that closes leave
      nothing behind ([Scheduler.stop_completes], [Syncx.close_flushes]); a hand-over
      completes ([Handoff.handoff_completes], [Handoff.source_keeps]).
    - Transactions and races: all or nothing for changesets ([Wallet.Apply_atomic]);
      once per transaction ([Wallet.ApplyTx_once]), per key
      ([Idempotency.once_per_key]), per nonce ([AntiReplay.nonce_once]), per
      attachment ([Mail.claimed_once]); the outcomes of sagas, TCC and two-phase
      commit ([Saga.saga_outcome], [Saga.saga_restores], [Tcc.tcc_outcome],
      [Txn.run_outcome]); one owner of an entity handed over ([Handoff.handoff_once]);
      one holder of a lock and one leader ([Dlock.locks_exclude], [Dlock.one_leader]).
    - Access: grants by role ([Authz.rbac_decides], [Authz.guards_reach]), tokens and
      their revocation ([Token.out_stays_out], [Token.token_refines],
      [Token.pair_works]).
    - Bounds and balance: products, quotients and roots of fixed-point numbers
      ([FixedPoint]), the order of identifiers and their round trip
      ([IdGen.ids_increasing], [IdGen.Parse_Next]), the rate of a limiter over every
      window ([Gcra.gcra_limits]), quotas, the clock of the caller and that of the store
      apart ([Counter.store_quota_kept]), throttling ([Syncx.throttle_spaces],
      [Syncx.debounce_quiet]), days signed
      afterwards ([Signin.retro_limited]), cooldowns ([Ability.cooldown_respected]), when
      a breaker opens, refuses and closes ([Breaker.breaker_trips_on_rate],
      [Breaker.open_rejects], [Breaker.breaker_recovers]), the fairness of
      weighted round robin ([LoadBalance.wrr_fair]), how few keys move when the members
      of a sharder change, under one seed ([Shard.sharder_moves_few]).
    - Boundaries of the guarantees, as theorems about concrete runs: a full wake-up
      channel ([JobQueue.full_channel_strands]), a resumption before a worker sleeps
      ([JobQueue.resume_strands]), promotion of a pending user
      ([Group.promote_pending_overflows]), transfer to oneself
      ([Group.self_transfer_orphans]), a panic in a two-phase commit
      ([Txn.run_panic_leaks]), a stalled clock ([IdGen.stall_duplicates]), a
      confirmation that agrees with the prediction ([Rollback.correct_prediction_rolls]),
      a report that is not the probe's ([NodeBreaker.late_report_closes]), a read that
      delays the energy ([Energy.read_delays_regeneration]), a repeater that does not
      return ([BehaviorTree.negative_repeater_spins]), the events a jump skips
      ([Timeline.jump_skips_start]), two claims of one mail ([Mail.claim_race]), a
      deadline that overflows ([Kvstore.deadline_overflow]), a burst over two windows
      ([Counter.double_burst]), a call that reaches the store after its window
      ([Counter.late_call_exceeds]), a release during a run
      ([Idempotency.release_breaks_do]), probes without a bound
      ([Breaker.probes_unbounded]), a leave before its join
      ([Presence.event_order_race]), a day signed afterwards before today's
      ([Signin.retro_before_signin]), a separator trimmed as a set
      ([Reddot.separator_trimmed_as_set]), a pointer sent twice
      ([Notification.resent_pointer]), a negative capacity
      ([Inbox.negative_capacity_panics]), progress and cooldowns that wrap
      ([Questlog.big_advance_resets], [Ability.cooldown_wraps]), teams that are never matched
      ([Matchmaker.large_teams_starve]), a hand-over given up or accepted too early
      ([Handoff.abort_after_export], [Handoff.release_drops], [Handoff.accepts_nothing]),
      a load that outlives a forget ([Loader.stale_after_forget]), levels that wrap or are
      free ([Leveling.gain_wraps], [Leveling.linear_overflow], [Leveling.free_levels]),
      rooms ([Gameroom.stale_start], [Gameroom.drain_waiting],
      [Gameroom.running_hook_again], [Gameroom.stranger_closes]), pools
      ([Scheduler.lost_wakeup], [Scheduler.pause_takes_one],
      [Scheduler.stop_without_workers]), a full subscriber
      ([Broadcast.race_drops_newest]), session actors ([Match.init_error_lost],
      [Match.late_subscriber], [Match.frame_after_error],
      [Match.stop_before_start_waits], [Match.rate_panics]), a handler that publishes to
      itself ([Eventbus.self_publish_spins]), round trips and weights that overflow
      ([Lagcomp.rtt_overflow], [Loot.overflow_draws_evenly]), counters that wrap
      ([Countmin.countmin_wraps]), tournaments outside their period
      ([Tournament.after_the_period], [Tournament.start_delay_ignored]), selectors
      ([Selector.empty_matches_missing], [Selector.other_types_lost]), two flushes
      ([Route.flush_race]), tokens ([Token.long_session_revives], [Token.refresh_race],
      [Token.same_second], [Token.one_key]), paths and methods ([Authz.dots_lead_out],
      [Authz.mapped_methods]), locks ([Dlock.cancelled_still_locks], [Dlock.tick_wins],
      [Dlock.panic_locks_out]), fields of negative number
      ([Fieldmask.negative_fields]).

    * What is not modelled

    Transcendental functions of floating point (easing, ratings), printing, logging,
    the start and stop of goroutines, the delivery of published events, a job queue whose
    wake-up channel has no buffer, running out of memory, and concurrency finer than a
    critical section or, where they are split, an access to what is shared. Packages that
    wrap a network service or a third-party library have no logic to model without it, and
    the generated code (GraphQL, protobuf) and the project generator under [tools/] have
    none of the framework's. Of the packages with logic in process, those of geometry,
    easing, momentum and adaptive control in floating point are left out because it needs
    functions [SpecFloat] does not have or only bounds of errors would say anything; the
    glue of requests (errors, metadata, audit, feature flags) because it keeps little
    state; the tick loop, the Bloom filter, pipelines, hedging, back-off, the window
    limiters and the expiring values of [store/ephemeral] for size alone. *)
From Stdlib Require Import ZArith Lia Bool Sorted.
From stdpp Require Import base numbers strings list gmap fin_maps sorting.

Open Scope Z_scope.

(** * Machine integers *)

(** Go's [int64] (and [int] on a 64-bit platform) keeps the low 64 bits of a
    result, read in two's complement; [uint64] keeps them as they are. *)
Definition wrap64 (z : Z) : Z := (z + 2 ^ 63) mod 2 ^ 64 - 2 ^ 63.
Definition wrapu64 (z : Z) : Z := z mod 2 ^ 64.
Definition wrapu32 (z : Z) : Z := z mod 2 ^ 32.

Definition int64 (z : Z) : Prop := - 2 ^ 63 <= z < 2 ^ 63.
Definition uint64 (z : Z) : Prop := 0 <= z < 2 ^ 64.

Definition maxInt64 : Z := 2 ^ 63 - 1.
Definition minInt64 : Z := - 2 ^ 63.

#[global] Instance int64_dec z : Decision (int64 z).
Proof. unfold int64. apply _. Defined.
#[global] Instance uint64_dec z : Decision (uint64 z).
Proof. unfold uint64. apply _. Defined.

Lemma wrap64_id z : int64 z -> wrap64 z = z.
Proof. unfold wrap64, int64. intros. rewrite Z.mod_small; lia. Qed.

Lemma wrap64_range z : int64 (wrap64 z).
Proof.
  unfold wrap64, int64.
  pose proof (Z.mod_pos_bound (z + 2 ^ 63) (2 ^ 64) ltac:(lia)). lia.
Qed.

Lemma wrapu64_id z : uint64 z -> wrapu64 z = z.
Proof. unfold wrapu64, uint64. intros. apply Z.mod_small. lia. Qed.

Lemma wrapu64_range z : uint64 (wrapu64 z).
Proof. unfold wrapu64, uint64. apply Z.mod_pos_bound. lia. Qed.

Lemma wrapu64_le z : 0 <= z -> wrapu64 z <= z.
Proof. intros. unfold wrapu64. apply Z.mod_le; lia. Qed.

(** Two results that agree modulo [2^64] are the same [int64]. *)
Lemma wrap64_congr x y : (x - y) mod 2 ^ 64 = 0 -> wrap64 x = wrap64 y.
Proof.
  intros H. unfold wrap64. f_equal.
  apply Z.mod_divide in H as [k Hk]; [|lia].
  replace (x + 2 ^ 63) with (y + 2 ^ 63 + k * 2 ^ 64) by lia.
  apply Z_mod_plus_full.
Qed.

Lemma wrap64_wrapu64 z : wrap64 (wrapu64 z) = wrap64 z.
Proof.
  apply wrap64_congr. unfold wrapu64.
  rewrite Zminus_mod_idemp_l, Z.sub_diag. reflexivity.
Qed.

Lemma wrap64_add_l x y : wrap64 (wrap64 x + y) = wrap64 (x + y).
Proof.
  apply wrap64_congr. unfold wrap64. replace ((x + 2 ^ 63) mod 2 ^ 64 - 2 ^ 63 + y - (x + y)) with ((x + 2 ^ 63) mod 2 ^ 64 - (x + 2 ^ 63)) by lia.
  rewrite Zminus_mod_idemp_l, Z.sub_diag. reflexivity.
Qed.
Lemma wrap64_add_r x y : wrap64 (x + wrap64 y) = wrap64 (x + y).
Proof. by rewrite Z.add_comm, wrap64_add_l, Z.add_comm. Qed.

Lemma wrap64_opp_wrap64 z : wrap64 (- wrap64 z) = wrap64 (- z).
Proof.
  apply wrap64_congr. unfold wrap64.
  replace (- ((z + 2 ^ 63) mod 2 ^ 64 - 2 ^ 63) - - z)
    with (z + 2 ^ 63 - (z + 2 ^ 63) mod 2 ^ 64) by lia.
  rewrite Zminus_mod_idemp_r, Z.sub_diag. reflexivity.
Qed.

Lemma wrapu64_wrap64 z : wrapu64 (wrap64 z) = wrapu64 z.
Proof.
  unfold wrapu64, wrap64.
  rewrite Zminus_mod_idemp_l. f_equal. lia.
Qed.

(** The magnitude of an [int64] negated in place, read back as [uint64]: right
    even for the most negative value, whose negation is itself. *)
Lemma wrapu64_neg_abs a : int64 a -> a < 0 -> wrapu64 (wrap64 (- a)) = - a.
Proof.
  intros Ha Hn. rewrite wrapu64_wrap64.
  apply wrapu64_id. unfold uint64, int64 in *. lia.
Qed.

(** A left-shifted value and a low field do not overlap, so [or] is addition. *)
Lemma lor_shiftl_add x y n : 0 <= n -> 0 <= y < 2 ^ n ->
  Z.lor (Z.shiftl x n) y = x * 2 ^ n + y.
Proof.
  intros Hn Hy. rewrite Z.shiftl_mul_pow2 by done.
  assert (Z.land (x * 2 ^ n) y = 0) as Hz.
  { apply Z.bits_inj'. intros i Hi. rewrite Z.land_spec, Z.bits_0.
    destruct (Z.lt_ge_cases i n).
    - by rewrite Z.mul_pow2_bits_low.
    - replace y with (y mod 2 ^ n) by (apply Z.mod_small; lia).
      rewrite Z.mod_pow2_bits_high by lia. apply andb_false_r. }
  pose proof (Z.add_lor_land (x * 2 ^ n) y). lia.
Qed.

(** Go's [%] on nonnegative operands ignores whole multiples of the divisor. *)
Lemma rem_add_multiple a k n : 0 <= a -> 0 <= k -> 0 < n ->
  Z.rem (a + k * n) n = Z.rem a n.
Proof.
  intros. rewrite !Z.rem_mod_nonneg by nia. by rewrite Z_mod_plus_full.
Qed.

(** * Panics and errors *)

(** Go code either returns a value or panics; an [error] result is an ordinary
    value of the returned tuple. *)
Inductive go (A : Type) : Type :=
| Ret (a : A)
| Panic (msg : string).
Arguments Ret {_} _.
Arguments Panic {_} _.

#[global] Instance go_ret : MRet go := @Ret.
#[global] Instance go_bind : MBind go := fun A B f m =>
  match m with Ret a => f a | Panic msg => Panic msg end.
#[global] Instance go_fmap : FMap go := fun A B f m =>
  match m with Ret a => Ret (f a) | Panic msg => Panic msg end.

#[global] Instance go_eq_dec `{EqDecision A} : EqDecision (go A).
Proof. solve_decision. Defined.

(** A two-valued return [(v, nil)] or [(_, err)]. *)
Inductive result (E A : Type) : Type :=
| Ok (a : A)
| Err (e : E).
Arguments Ok {_ _} _.
Arguments Err {_ _} _.

#[global] Instance result_eq_dec `{EqDecision E, EqDecision A} : EqDecision (result E A).
Proof. solve_decision. Defined.

Definition is_ok {E A} (r : result E A) : bool :=
  match r with Ok _ => true | Err _ => false end.

(** Slice indexing [s[i]] and assignment [s[i] = v]: out of range panics. *)
Definition index_panic : string := "runtime error: index out of range".

Definition index {A} (s : list A) (i : Z) : go A :=
  if decide (i < 0) then Panic index_panic else
  match s !! Z.to_nat i with
  | Some v => Ret v
  | None => Panic index_panic
  end.

Definition set_index {A} (s : list A) (i : Z) (v : A) : go (list A) :=
  if decide (0 <= i < Z.of_nat (length s)) then Ret (<[Z.to_nat i := v]> s)
  else Panic index_panic.

Lemma index_lookup {A} (s : list A) (n : nat) v :
  s !! n = Some v -> index s (Z.of_nat n) = Ret v.
Proof.
  intros H. unfold index. rewrite decide_False by lia.
  by rewrite Nat2Z.id, H.
Qed.

Lemma set_index_lt {A} (s : list A) (n : nat) v :
  (n < length s)%nat -> set_index s (Z.of_nat n) v = Ret (<[n := v]> s).
Proof.
  intros H. unfold set_index. rewrite decide_True by lia. by rewrite Nat2Z.id.
Qed.

(** Evaluate a loop body that may panic over the elements of a list. *)
Fixpoint mapG {A B} (f : A -> go B) (l : list A) : go (list B) :=
  match l with
  | [] => Ret []
  | x :: l' => y ← f x; ys ← mapG f l'; Ret (y :: ys)
  end.

Lemma mapG_ret {A B} (f : A -> go B) (g : A -> B) l :
  (forall x, x ∈ l -> f x = Ret (g x)) -> mapG f l = Ret (g <$> l).
Proof.
  induction l as [|x l IH]; intros Hf; [done|].
  simpl. rewrite (Hf x) by set_solver. simpl.
  rewrite IH by (intros; apply Hf; set_solver). done.
Qed.

Lemma StronglySorted_lookup {A} (R : A -> A -> Prop) l i j x y : StronglySorted R l ->
  l !! i = Some x -> l !! j = Some y -> (i < j)%nat -> R x y.
Proof.
  intros Hs. revert i j. induction Hs as [|z l Hs IH Hz]; intros i j Hx Hy Hij; [by rewrite lookup_nil in Hx|].
  destruct j as [|j]; [lia|]. destruct i as [|i]; simpl in *.
  - injection Hx as ->. rewrite Forall_forall in Hz. apply Hz. by eapply list_elem_of_lookup_2.
  - eapply IH; [done|done|lia].
Qed.

(** [sort.Search]: the least index at which a condition that stays true holds. *)
Fixpoint search_loop (fuel : nat) (f : Z -> go bool) (i j : Z) : go Z :=
  match fuel with
  | O => Ret i
  | S fuel =>
      if negb (i <? j) then Ret i
      else
        let h := (i + j) / 2 in
        b ← f h;
        if negb b : bool then search_loop fuel f (h + 1) j else search_loop fuel f i h
  end.

Definition sort_Search (n : Z) (f : Z -> go bool) : go Z := search_loop (S (Z.to_nat n)) f 0 n.

Lemma search_loop_spec (p : Z -> bool) f fuel : forall i j, 0 <= i <= j -> j - i < Z.of_nat fuel ->
  (forall k, i <= k < j -> f k = Ret (p k)) -> (forall k k', i <= k <= k' -> k' < j -> p k = true -> p k' = true) ->
  exists r, search_loop fuel f i j = Ret r /\ i <= r <= j /\
    (forall k, i <= k < r -> p k = false) /\ (forall k, r <= k < j -> p k = true).
Proof.
  induction fuel as [|fuel IH]; intros i j Hij Hf Hp Hm; [lia|]. cbn [search_loop].
  destruct (Z.ltb_spec i j) as [E|E]; cbn [negb].
  2:{ exists i. split; [done|]. split; [lia|]. split; intros; lia. }
  pose proof (Z.div_mod (i + j) 2 ltac:(lia)). pose proof (Z.mod_pos_bound (i + j) 2 ltac:(lia)).
  set (h := (i + j) / 2) in *. rewrite Hp by lia. cbn [mbind go_bind]. destruct (p h) eqn:Eh; cbn [negb].
  - destruct (IH i h) as (r & -> & Hr & H1 & H2); [lia|lia|intros; apply Hp; lia|intros; eapply Hm; [|lia|eassumption]; lia|].
    exists r. split_and!; try done; try lia. intros k Hk. destruct (Z.lt_ge_cases k h); [apply H2; lia|].
    apply (Hm h k); [lia|lia|done].
  - destruct (IH (h + 1) j) as (r & -> & Hr & H1 & H2); [lia|lia|intros; apply Hp; lia|intros; eapply Hm; [|lia|eassumption]; lia|].
    exists r. split_and!; try done; try lia. intros k Hk. destruct (Z.le_gt_cases k h); [|apply H1; lia].
    destruct (p k) eqn:Ek; [|done]. by rewrite (Hm k h) in Eh by (done || lia).
Qed.

Lemma sort_Search_spec (p : Z -> bool) f n : 0 <= n -> (forall k, 0 <= k < n -> f k = Ret (p k)) ->
  (forall k k', 0 <= k <= k' -> k' < n -> p k = true -> p k' = true) ->
  exists r, sort_Search n f = Ret r /\ 0 <= r <= n /\
    (forall k, 0 <= k < r -> p k = false) /\ (forall k, r <= k < n -> p k = true).
Proof. intros. apply search_loop_spec; done || lia. Qed.

(** A Go loop that keeps the elements passing a test. *)
Lemma filter_every {A} (P : A -> Prop) `{!forall x, Decision (P x)} (l : list A) :
  (forall x, x ∈ l -> P x) -> filter P l = l.
Proof.
  induction l as [|x l IH]; intros Hl; [done|]. rewrite filter_cons, decide_True by (apply Hl; set_solver).
  f_equal. apply IH. intros y Hy. apply Hl. set_solver.
Qed.

Lemma filter_none {A} (P : A -> Prop) `{!forall x, Decision (P x)} (l : list A) :
  (forall x, x ∈ l -> ~ P x) -> filter P l = [].
Proof.
  induction l as [|x l IH]; intros Hl; [done|]. rewrite filter_cons, decide_False by (apply Hl; set_solver).
  apply IH. intros y Hy. apply Hl. set_solver.
Qed.

Lemma Permutation_bfilter {A} (f : A -> bool) l l' :
  l ≡ₚ l' -> List.filter f l ≡ₚ List.filter f l'.
Proof.
  induction 1 as [| x | x y | ]; simpl; [done| | |by etrans].
  - case_match; [by apply Permutation_skip|done].
  - repeat case_match; try done. apply Permutation_swap.
Qed.

(** * Time *)

(** A [time.Time] is a count of nanoseconds, a [time.Duration] an [int64] one;
    [Time.Sub] saturates, [time.Since t] is [now.Sub(t)]. *)
Definition time_sub (t u : Z) : Z :=
  if t - u <? minInt64 then minInt64
  else if maxInt64 <? t - u then maxInt64 else t - u.

Lemma time_sub_id t u : int64 (t - u) -> time_sub t u = t - u.
Proof.
  unfold time_sub, int64, minInt64, maxInt64. intros.
  repeat case_match; lia.
Qed.

Lemma time_sub_mono t t' u : t <= t' -> time_sub t u <= time_sub t' u.
Proof.
  unfold time_sub, minInt64, maxInt64. intros.
  repeat case_match; lia.
Qed.

(** * Histories *)

(** Calls of a component at the times they are made, with their answers; two components whose steps
    keep a relation answer a history alike. Times are those of a clock that does not step back and is
    below [2 ^ 62] nanoseconds (the year 2116); [fits] is what the calls must keep to. *)
Section histories.
Context {O A : Type} (fits : O -> Prop).

Fixpoint play {S : Type} (step : Z -> O -> S -> S * A) (ops : list (Z * O)) (s : S) : list A :=
  match ops with
  | [] => []
  | (now, o) :: ops => let '(s, a) := step now o s in a :: play step ops s
  end.

Fixpoint timely (t : Z) (ops : list (Z * O)) : Prop :=
  match ops with [] => True | (now, o) :: ops => t <= now < 2 ^ 62 /\ fits o /\ timely now ops end.

Lemma play_simulates {S S'} (step : Z -> O -> S -> S * A) (step' : Z -> O -> S' -> S' * A) (R : Z -> S -> S' -> Prop) :
  (forall t now o s s', 0 <= t <= now -> now < 2 ^ 62 -> fits o -> R t s s' ->
     (step now o s).2 = (step' now o s').2 /\ R now (step now o s).1 (step' now o s').1) ->
  forall ops t s s', 0 <= t -> timely t ops -> R t s s' -> play step ops s = play step' ops s'.
Proof.
  intros Hstep. induction ops as [|[now o] ops IH]; intros t s s' Ht Hops HR; [done|]. cbn [play timely] in *.
  destruct Hops as (? & ? & ?). destruct (Hstep t now o s s') as [Ha HR']; [lia|lia|done|done|].
  destruct (step now o s) as [s1 a], (step' now o s') as [s1' a']. cbn in *. rewrite Ha. f_equal. eapply IH; [|done|done]. lia.
Qed.
End histories.

(** * Sharded maps *)

(** A map split in sixteen by the low bits of a hash of the key. *)
Section shards.
Context {V : Type} (hash : string -> Z).

Definition shard_of (k : string) : nat := Z.to_nat (Z.land (hash k) (16 - 1)).
Definition shard_get (k : string) (sh : list (gmap string V)) : option V := m ← sh !! shard_of k; m !! k.

Lemma shard_of_lt k : (shard_of k < 16)%nat.
Proof.
  unfold shard_of. replace (16 - 1) with (Z.ones 4) by done. rewrite Z.land_ones by lia.
  pose proof (Z.mod_pos_bound (hash k) (2 ^ 4) ltac:(lia)). lia.
Qed.

Lemma shard_get_alter (f : gmap string V -> gmap string V) k k' sh : length sh = 16%nat ->
  (forall m, k' <> k -> f m !! k' = m !! k') ->
  shard_get k' (alter f (shard_of k) sh) =
  if decide (k' = k) then f (default ∅ (sh !! shard_of k)) !! k else shard_get k' sh.
Proof.
  intros Hlen Hf. unfold shard_get. pose proof (shard_of_lt k) as Hlt. rewrite <- Hlen in Hlt. apply lookup_lt_is_Some in Hlt as [m Hm].
  destruct (decide (k' = k)) as [->|Hd]; [by rewrite list_lookup_alter_eq, Hm|].
  destruct (decide (shard_of k' = shard_of k)) as [E|E].
  - rewrite E, list_lookup_alter_eq, Hm. cbn. by rewrite Hf.
  - by rewrite list_lookup_alter_ne.
Qed.

Lemma shard_get_insert k k' v sh : length sh = 16%nat ->
  shard_get k' (alter <[k := v]> (shard_of k) sh) = if decide (k' = k) then Some v else shard_get k' sh.
Proof. intros. rewrite shard_get_alter; [|done|intros; by rewrite lookup_insert_ne]. by rewrite lookup_insert_eq. Qed.

Lemma shard_get_delete k k' sh : length sh = 16%nat ->
  shard_get k' (alter (delete k) (shard_of k) sh) = if decide (k' = k) then None else shard_get k' sh.
Proof. intros. rewrite shard_get_alter; [|done|intros; by rewrite lookup_delete_ne]. by rewrite lookup_delete_eq. Qed.

Lemma shard_get_filter (P : V -> bool) k sh :
  shard_get k (filter (fun '(_, v) => P v = false) <$> sh) = v ← shard_get k sh; if P v then None else Some v.
Proof.
  unfold shard_get. rewrite list_lookup_fmap. destruct (sh !! shard_of k) as [m|]; cbn; [|done].
  rewrite map_lookup_filter. destruct (m !! k) as [v|]; cbn; [|done]. unfold guard. destruct (decide _) as [E|E].
  - by rewrite E.
  - apply not_false_is_true in E. by rewrite E.
Qed.

Lemma shard_get_empty k : shard_get k (replicate 16 ∅) = None.
Proof. unfold shard_get. rewrite lookup_replicate_2 by apply shard_of_lt. apply lookup_empty. Qed.
End shards.

(** * Automation shared by the components *)

Create HintDb beauty.
Create Rewrite HintDb beauty.
#[export] Hint Resolve wrap64_range wrapu64_range : beauty.
#[export] Hint Rewrite @length_insert @length_app @length_fmap @length_replicate
  @length_drop @length_take @length_seq : beauty.

(** Split the boolean tests of the code's conditions into propositions. *)
Ltac bool_prop :=
  repeat match goal with
  | H : (_ <? _) = true |- _ => apply Z.ltb_lt in H
  | H : (_ <? _) = false |- _ => apply Z.ltb_ge in H
  | H : (_ <=? _) = true |- _ => apply Z.leb_le in H
  | H : (_ <=? _) = false |- _ => apply Z.leb_gt in H
  | H : (_ =? _) = true |- _ => apply Z.eqb_eq in H
  | H : (_ =? _) = false |- _ => apply Z.eqb_neq in H
  | H : _ && _ = true |- _ => apply andb_true_iff in H as [? ?]
  | H : _ || _ = false |- _ => apply orb_false_iff in H as [? ?]
  | H : negb _ = true |- _ => apply negb_true_iff in H
  | H : negb _ = false |- _ => apply negb_false_iff in H
  end.

(** Case analysis on every match of the goal, closing the arithmetic cases. *)
Ltac case_all := repeat (case_match; simplify_eq/=; bool_prop); try lia.
