(* ===== verification/Float64.v ===== *)
(** Go's [float64], as far as the components use it: the IEEE 754 double of the Standard Library's
    [SpecFloat], with rounding to the nearest even. No axiom on primitive floats is used. *)
From Stdlib Require Import ZArith Lia Floats.SpecFloat.
From stdpp Require Import base numbers.
From S2P Require Import Prelude.

Open Scope Z_scope.

Definition float64 := spec_float.

(** [float64(n)] for an integer, and the quotient of two, which is how a decimal literal is read. *)
Definition of_int (n : Z) : float64 := binary_normalize 53 1024 n 0 false.
Definition fmul (a b : float64) : float64 := SFmul 53 1024 a b.
Definition fadd (a b : float64) : float64 := SFadd 53 1024 a b.
Definition fsub (a b : float64) : float64 := SFsub 53 1024 a b.
Definition fdiv (a b : float64) : float64 := SFdiv 53 1024 a b.
Definition fleb (a b : float64) : bool := SFleb a b.
Definition fltb (a b : float64) : bool := SFltb a b.
Definition decimal (n d : Z) : float64 := fdiv (of_int n) (of_int d).

(** [int(x)] of a value in range: the fraction is discarded. *)
Definition to_int (x : float64) : Z :=
  match x with
  | S754_finite s m e =>
      let v := if 0 <=? e then Z.pos m * 2 ^ e else Z.pos m / 2 ^ (- e) in
      if s then - v else v
  | _ => 0
  end.

(** ** Integers are exact *)

(** [math.Abs] and the positive infinity. *)
Definition fabs (x : float64) : float64 := SFabs x.
Definition infinity : float64 := S754_infinity false.

(** An integer below [2^53] in normal form: a mantissa of 53 digits and the exponent it needs. *)
Definition scale (k : nat) (p : positive) : positive := Nat.iter k xO p.
Definition room (p : positive) : nat := 53 - Pos.to_nat (digits2_pos p).
Definition normal (s : bool) (p : positive) : float64 := S754_finite s (scale (room p) p) (- Z.of_nat (room p)).

Lemma scale_Z k p : Zpos (scale k p) = Zpos p * 2 ^ Z.of_nat k.
Proof.
  unfold scale. induction k as [|k IH]; [simpl; lia|]. rewrite Nat.iter_succ, Pos2Z.inj_xO, IH.
  rewrite Nat2Z.inj_succ, Z.pow_succ_r by lia. lia.
Qed.

Lemma scale_digits k p : Zpos (digits2_pos (scale k p)) = Zpos (digits2_pos p) + Z.of_nat k.
Proof. unfold scale. induction k as [|k IH]; [simpl; lia|]. rewrite Nat.iter_succ. cbn [digits2_pos]. lia. Qed.

Lemma iter_scale d k p : Pos.iter xO (scale k p) d = scale (Pos.to_nat d + k) p.
Proof. unfold scale. rewrite Pos2Nat.inj_iter, Nat.iter_add. done. Qed.

Lemma digits_bounds p : 2 ^ (Zpos (digits2_pos p) - 1) <= Zpos p < 2 ^ Zpos (digits2_pos p).
Proof.
  induction p as [p IH|p IH|]; cbn [digits2_pos]; [| |simpl; lia];
    rewrite Pos2Z.inj_succ; replace (Z.succ (Zpos (digits2_pos p)) - 1) with (Z.succ (Zpos (digits2_pos p) - 1)) by lia;
    rewrite !Z.pow_succ_r by lia; lia.
Qed.

Lemma digits_small p : Zpos p < 2 ^ 53 -> Zpos (digits2_pos p) <= 53.
Proof.
  intros Hp. destruct (Z.le_gt_cases (Zpos (digits2_pos p)) 53) as [H|H]; [done|].
  pose proof (digits_bounds p) as [Hl _]. assert (2 ^ 53 <= 2 ^ (Zpos (digits2_pos p) - 1)) by (apply Z.pow_le_mono_r; lia). lia.
Qed.

Lemma room_digits p : Zpos p < 2 ^ 53 -> Zpos (digits2_pos p) + Z.of_nat (room p) = 53.
Proof. intros Hp. apply digits_small in Hp. unfold room. lia. Qed.

Lemma iter_pos_nat {A} (f : A -> A) n x : SpecFloat.iter_pos f n x = Nat.iter (Pos.to_nat n) f x.
Proof.
  revert x. induction n as [n IH|n IH|]; intros x; cbn [SpecFloat.iter_pos]; [| |done].
  - rewrite !IH, Pos2Nat.inj_xI, <- Nat.iter_add, Nat.iter_succ_r. f_equal. lia.
  - rewrite !IH, Pos2Nat.inj_xO, <- Nat.iter_add. f_equal. lia.
Qed.

Lemma shr_exact j k p : (j <= k)%nat ->
  Nat.iter j shr_1 (Build_shr_record (Zpos (scale k p)) false false) = Build_shr_record (Zpos (scale (k - j) p)) false false.
Proof.
  intros Hj. induction j as [|j IH]; [by rewrite Nat.sub_0_r|]. rewrite Nat.iter_succ, IH by lia.
  replace (k - j)%nat with (S (k - S j)) by lia. unfold scale. by rewrite Nat.iter_succ.
Qed.

Lemma fexp_double d : -1000 <= d -> fexp 53 1024 d = d - 53.
Proof. intros Hd. unfold fexp, emin. lia. Qed.

(** A mantissa of 53 digits is left alone; a longer one is shifted back. *)
Lemma shr_fexp_scaled k p e : Zpos p < 2 ^ 53 -> (room p <= k)%nat -> -900 <= e <= 900 ->
  shr_fexp 53 1024 (Zpos (scale k p)) e loc_Exact =
  (Build_shr_record (Zpos (scale (room p) p)) false false, e + Z.of_nat (k - room p)).
Proof.
  intros Hp Hk He. pose proof (room_digits p Hp) as Hr. unfold shr_fexp, Zdigits2.
  rewrite scale_digits, fexp_double by lia. cbn [shr_record_of_loc].
  replace (_ - 53 - e) with (Z.of_nat (k - room p)) by lia.
  destruct (k - room p)%nat as [|n] eqn:E.
  - replace k with (room p) by lia. by rewrite Z.add_0_r.
  - rewrite <- E. unfold shr. destruct (Z.of_nat (k - room p)) as [|q|] eqn:Eq; [lia| |lia].
    rewrite iter_pos_nat. replace (Pos.to_nat q) with (k - room p)%nat by lia. rewrite shr_exact by lia.
    by replace (k - (k - room p))%nat with (room p) by lia.
Qed.

Lemma round_aux_scaled s k p e : Zpos p < 2 ^ 53 -> (room p <= k)%nat -> -900 <= e <= 0 ->
  e + Z.of_nat (k - room p) <= 0 ->
  binary_round_aux 53 1024 s (Zpos (scale k p)) e loc_Exact = S754_finite s (scale (room p) p) (e + Z.of_nat (k - room p)).
Proof.
  intros Hp Hk He He'. unfold binary_round_aux. rewrite shr_fexp_scaled by lia.
  cbn [shr_m loc_of_shr_record round_nearest_even]. rewrite shr_fexp_scaled by lia.
  cbn [shr_m]. rewrite Nat.sub_diag, Z.add_0_r. rewrite (proj2 (Z.leb_le _ _)) by lia. done.
Qed.

(** Rounding an integer that was scaled up gives it back in normal form. *)
Lemma round_scaled s k p : Zpos p < 2 ^ 53 -> (k <= 900)%nat ->
  binary_round 53 1024 s (scale k p) (- Z.of_nat k) = normal s p.
Proof.
  intros Hp Hk. pose proof (room_digits p Hp) as Hr. unfold binary_round, shl_align.
  rewrite scale_digits, fexp_double by lia. replace (_ - 53 - - Z.of_nat k) with (Z.of_nat k - Z.of_nat (room p)) by lia.
  destruct (Z.of_nat k - Z.of_nat (room p)) as [|d|d] eqn:E.
  1,2: rewrite round_aux_scaled by lia; unfold normal; f_equal; lia.
  replace (Pos.iter xO (scale k p) d) with (scale (room p) p).
  - rewrite round_aux_scaled by lia. unfold normal. f_equal. lia.
  - rewrite iter_scale. f_equal. lia.
Qed.

Definition int_normal (n : Z) : float64 :=
  match n with Z0 => S754_zero false | Zpos p => normal false p | Zneg p => normal true p end.

Definition exact (n : Z) : Prop := Z.abs n < 2 ^ 53.

Lemma of_int_normal n : exact n -> of_int n = int_normal n.
Proof.
  unfold exact, of_int, binary_normalize, int_normal. destruct n as [|p|p]; intros Hn; [done|..];
    [pose proof (round_scaled false 0 p)|pose proof (round_scaled true 0 p)]; apply H; lia.
Qed.

Lemma normalize_scaled n k : exact n -> (k <= 900)%nat ->
  binary_normalize 53 1024 (n * 2 ^ Z.of_nat k) (- Z.of_nat k) false = of_int n.
Proof.
  intros Hn Hk. rewrite of_int_normal by done. unfold exact in Hn. destruct n as [|p|p]; [done|..].
  - rewrite <- scale_Z. cbn [binary_normalize int_normal]. apply round_scaled; lia.
  - replace (Zneg p * 2 ^ Z.of_nat k) with (Zneg (scale k p)) by (pose proof (scale_Z k p); lia).
    cbn [binary_normalize int_normal]. apply round_scaled; lia.
Qed.

(** Two normal forms brought to a common exponent. *)
Lemma align_scaled p (k : nat) : (room p <= k)%nat ->
  fst (shl_align (scale (room p) p) (- Z.of_nat (room p)) (- Z.of_nat k)) = scale k p.
Proof.
  intros Hk. unfold shl_align. destruct (- Z.of_nat k - - Z.of_nat (room p)) as [|d|d] eqn:E; [|lia|]; cbn [fst].
  - f_equal. lia.
  - rewrite iter_scale. f_equal. lia.
Qed.

Lemma room_le p : (room p <= 53)%nat.
Proof. unfold room. lia. Qed.

Definition signed (s : bool) (p : positive) : Z := if s then Zneg p else Zpos p.

Lemma add_normal s p t q : exact (signed s p) -> exact (signed t q) -> exact (signed s p + signed t q) ->
  fadd (normal s p) (normal t q) = of_int (signed s p + signed t q).
Proof.
  intros Hp Hq Hs. unfold fadd, SFadd, normal. pose proof (room_le p). pose proof (room_le q).
  set (k := Nat.max (room p) (room q)).
  replace (Z.min _ _) with (- Z.of_nat k) by (unfold k; lia). rewrite !align_scaled by (unfold k; lia).
  rewrite <- (normalize_scaled _ k) by (done || (unfold k; lia)). f_equal.
  pose proof (scale_Z k p). pose proof (scale_Z k q). unfold signed, cond_Zopp. destruct s, t; lia.
Qed.

Lemma int_signed n : n <> 0 -> exists s p, n = signed s p /\ int_normal n = normal s p.
Proof. destruct n as [|p|p]; [done|exists false, p|exists true, p]; done. Qed.

(** [+], [-], [<], [<=] and [math.Abs] on integers below [2^53] are those of the integers. *)
Lemma fadd_int a b : exact a -> exact b -> exact (a + b) -> fadd (of_int a) (of_int b) = of_int (a + b).
Proof.
  intros Ha Hb Hs. rewrite (of_int_normal a), (of_int_normal b) by done.
  destruct (Z.eq_dec a 0) as [->|Hna].
  { rewrite Z.add_0_l, of_int_normal by done. destruct (Z.eq_dec b 0) as [->|Hnb]; [done|].
    destruct (int_signed b Hnb) as (t & q & -> & ->). done. }
  destruct (int_signed a Hna) as (s & p & -> & ->). destruct (Z.eq_dec b 0) as [->|Hnb].
  { rewrite Z.add_0_r, of_int_normal by done. by destruct s. }
  destruct (int_signed b Hnb) as (t & q & -> & ->). by apply add_normal.
Qed.

Lemma fabs_int a : exact a -> fabs (of_int a) = of_int (Z.abs a).
Proof.
  intros Ha. rewrite !of_int_normal by (done || (unfold exact in *; lia)). by destruct a.
Qed.

Lemma digits_mono p q : Zpos (digits2_pos p) < Zpos (digits2_pos q) -> Zpos p < Zpos q.
Proof.
  intros Hd. pose proof (digits_bounds p) as [_ H1]. pose proof (digits_bounds q) as [H2 _].
  assert (2 ^ Zpos (digits2_pos p) <= 2 ^ (Zpos (digits2_pos q) - 1)) by (apply Z.pow_le_mono_r; lia). lia.
Qed.

Lemma compare_scale k p q : Pos.compare_cont Eq (scale k p) (scale k q) = (Zpos p ?= Zpos q).
Proof.
  change (Pos.compare_cont Eq (scale k p) (scale k q)) with (Zpos (scale k p) ?= Zpos (scale k q)).
  rewrite !scale_Z. symmetry. apply Zmult_compare_compat_r. lia.
Qed.

Lemma compare_normal p q : Zpos p < 2 ^ 53 -> Zpos q < 2 ^ 53 ->
  match (- Z.of_nat (room p) ?= - Z.of_nat (room q)) with
  | Lt => Lt | Gt => Gt
  | Eq => Pos.compare_cont Eq (scale (room p) p) (scale (room q) q)
  end = (Zpos p ?= Zpos q).
Proof.
  intros Hp Hq. pose proof (room_digits p Hp). pose proof (room_digits q Hq). pose proof (digits_mono p q). pose proof (digits_mono q p).
  destruct (Z.compare_spec (- Z.of_nat (room p)) (- Z.of_nat (room q))) as [E|E|E]; symmetry.
  - replace (room q) with (room p) by lia. symmetry. apply compare_scale.
  - apply Z.compare_lt_iff. lia.
  - apply Z.compare_gt_iff. lia.
Qed.

Lemma fcompare_int a b : exact a -> exact b -> SFcompare (of_int a) (of_int b) = Some (a ?= b).
Proof.
  intros Ha Hb. rewrite !of_int_normal by done. unfold exact in *.
  destruct a as [|p|p], b as [|q|q]; try done; cbn [int_normal normal]; unfold normal, SFcompare; f_equal;
    pose proof (compare_normal p q ltac:(lia) ltac:(lia)) as Hc.
  - exact Hc.
  - change (Zneg p ?= Zneg q) with (CompOpp (Zpos p ?= Zpos q)). rewrite <- Hc. by destruct (_ ?= _).
Qed.

Lemma fltb_int a b : exact a -> exact b -> fltb (of_int a) (of_int b) = (a <? b).
Proof. intros Ha Hb. unfold fltb, SFltb. rewrite fcompare_int by done. unfold Z.ltb. by destruct (a ?= b). Qed.
Lemma fleb_int a b : exact a -> exact b -> fleb (of_int a) (of_int b) = (a <=? b).
Proof. intros Ha Hb. unfold fleb, SFleb. rewrite fcompare_int by done. unfold Z.leb. by destruct (a ?= b). Qed.

Lemma fltb_infinity a : exact a -> fltb (of_int a) infinity = true.
Proof. intros Ha. rewrite of_int_normal by done. by destruct a. Qed.

(** [math.Min]. *)
Definition fmin (x y : float64) : float64 :=
  match x, y with
  | S754_infinity true, _ | _, S754_infinity true => S754_infinity true
  | S754_nan, _ | _, S754_nan => S754_nan
  | S754_zero s, S754_zero _ => if s then x else y
  | _, _ => if fltb x y then x else y
  end.

Lemma to_int_of_int z : exact z -> to_int (of_int z) = z.
Proof.
  intros Hz. rewrite of_int_normal by done.
  assert (forall p, (if 0 <=? - Z.of_nat (room p) then Z.pos (scale (room p) p) * 2 ^ (- Z.of_nat (room p))
    else Z.pos (scale (room p) p) / 2 ^ (- - Z.of_nat (room p))) = Zpos p) as H.
  { intros p. rewrite scale_Z, Z.opp_involutive. destruct (Z.leb_spec 0 (- Z.of_nat (room p))) as [H|H].
    - replace (Z.of_nat (room p)) with 0 by lia. lia.
    - apply Z.div_mul. lia. }
  destruct z as [|p|p]; [done|..]; cbn [int_normal]; unfold normal, to_int; rewrite H; done.
Qed.

(** ** The order of the doubles *)

(** [<] on values other than NaN is the lexicographic order of their kind, exponent and mantissa. *)
Definition rank (x : float64) : Z * Z * Z :=
  match x with
  | S754_infinity true => (-2, 0, 0)
  | S754_finite true m e => (-1, - e, - Zpos m)
  | S754_zero _ => (0, 0, 0)
  | S754_finite false m e => (1, e, Zpos m)
  | S754_infinity false => (2, 0, 0)
  | S754_nan => (3, 0, 0)
  end.

Definition lex (a b : Z * Z * Z) : Prop :=
  a.1.1 < b.1.1 \/ a.1.1 = b.1.1 /\ (a.1.2 < b.1.2 \/ a.1.2 = b.1.2 /\ a.2 < b.2).

Definition number (x : float64) : Prop := x <> S754_nan.

Lemma fltb_rank a b : number a -> number b -> fltb a b = true <-> lex (rank a) (rank b).
Proof.
  unfold number, fltb, SFltb, lex. intros Ha Hb.
  destruct a as [[]|[]| |[] m e], b as [[]|[]| |[] m' e']; try done; cbn; try (split; [done|lia]); try (split; [lia|done]).
  all: change (Pos.compare_cont Eq m m') with (m ?= m')%positive; destruct (Z.compare_spec e e') as [E|E|E]; cbn;
    try (split; [done|lia]); try (split; [lia|done]);
    destruct (Pos.compare_spec m m') as [M|M|M]; cbn; split; done || lia.
Qed.

Lemma fltb_irrefl a : fltb a a = false.
Proof.
  assert (a = S754_nan \/ number a) as [->|Ha] by (unfold number; destruct a; auto); [done|]. apply not_true_iff_false. rewrite fltb_rank by done. unfold lex. lia.
Qed.

Lemma fltb_trans a b c : number a -> number b -> number c -> fltb a b = true -> fltb b c = true -> fltb a c = true.
Proof. intros Ha Hb Hc. rewrite !fltb_rank by done. unfold lex. lia. Qed.

Lemma fltb_notless_trans a b c : number a -> number b -> number c -> fltb b a = false -> fltb c b = false -> fltb c a = false.
Proof. intros Ha Hb Hc. rewrite <- !not_true_iff_false, !fltb_rank by done. unfold lex. lia. Qed.
