(* ===== verification/FixedPoint.v ===== *)
(** Q32.32 fixed-point numbers ([pkg/foundation/fixedpoint/fixedpoint.go]): a
    value is an [int64] whose low 32 bits are the fraction. *)
From Stdlib Require Import ZArith Lia Bool.
From stdpp Require Import base numbers strings list.
From S2P Require Import Prelude.

Open Scope Z_scope.

Definition shift : Z := 32.
Definition one : Z := wrap64 (Z.shiftl 1 shift).

(** ** Construction and conversion *)

Definition FromInt (n : Z) : Z := wrap64 (Z.shiftl n shift).
Definition FromInt64 (n : Z) : Z := wrap64 (Z.shiftl n shift).

Definition FromFrac (num denom : Z) : go Z :=
  if denom =? 0 then Panic "fixedpoint: division by zero in FromFrac"
  else Ret (wrap64 (Z.quot (wrap64 (Z.shiftl num shift)) denom)).

Definition Int (a : Z) : Z := Z.shiftr a shift.
Definition Int64 (a : Z) : Z := Z.shiftr a shift.

(** ** 128-bit helpers: [math/bits] *)

(** [bits.Mul64] returns the high and low halves of the product;
    [bits.Div64] panics on a zero divisor and on a quotient over 64 bits. *)
Definition bits_Mul64 (x y : Z) : Z * Z := (x * y / 2 ^ 64, x * y mod 2 ^ 64).

Definition bits_Div64 (hi lo y : Z) : go (Z * Z) :=
  if y =? 0 then Panic "runtime error: integer divide by zero"
  else if y <=? hi then Panic "runtime error: integer overflow"
  else Ret ((hi * 2 ^ 64 + lo) / y, (hi * 2 ^ 64 + lo) mod y).

Definition mul64 (a b : Z) : Z :=
  let '(a, neg) := if a <? 0 then (wrap64 (- a), true) else (a, false) in
  let '(b, neg) := if b <? 0 then (wrap64 (- b), negb neg) else (b, neg) in
  let '(hi, lo) := bits_Mul64 (wrapu64 a) (wrapu64 b) in
  let result := Z.lor (wrapu64 (Z.shiftl hi 32)) (Z.shiftr lo 32) in
  if neg : bool then wrap64 (- wrap64 result) else wrap64 result.

Definition div64 (a b : Z) : go Z :=
  let ua := if a <? 0 then wrapu64 (wrap64 (- a)) else wrapu64 a in
  let ub := if b <? 0 then wrapu64 (wrap64 (- b)) else wrapu64 b in
  let neg := xorb (a <? 0) (b <? 0) in
  let hi := Z.shiftr ua 32 in
  let lo := wrapu64 (Z.shiftl ua 32) in
  '(q, _) ← bits_Div64 hi lo ub;
  Ret (if neg then wrap64 (- wrap64 q) else wrap64 q).

(** ** Arithmetic *)

Definition Add (a b : Z) : Z := wrap64 (a + b).
Definition Sub (a b : Z) : Z := wrap64 (a - b).
Definition Mul (a b : Z) : Z := mul64 a b.

Definition Div (a b : Z) : go Z :=
  if b =? 0 then Panic "fixedpoint: division by zero" else div64 a b.

Definition Neg (a : Z) : Z := wrap64 (- a).
Definition Abs (a : Z) : Z := if a <? 0 then wrap64 (- a) else a.

Definition Floor (a : Z) : Z := Z.ldiff a (one - 1).
Definition Ceil (a : Z) : Z := Z.ldiff (wrap64 (wrap64 (a + one) - 1)) (one - 1).
Definition Round (a : Z) : Z := Z.ldiff (wrap64 (a + Z.quot one 2)) (one - 1).

(** ** Comparison *)

Definition Min (a b : Z) : Z := if a <? b then a else b.
Definition Max (a b : Z) : Z := if b <? a then a else b.
Definition Clamp (v lo hi : Z) : Z :=
  if v <? lo then lo else if hi <? v then hi else v.
Definition Sign (a : Z) : Z :=
  if 0 <? a then one else if a <? 0 then - one else 0.
Definition Lerp (a b t : Z) : Z := Add a (Mul (Sub b a) t).

(** ** Square root *)

(** The 64 iterations of the Newton loop; [break] returns the current guess. *)
Fixpoint sqrt_loop (n : nat) (a x : Z) : go Z :=
  match n with
  | O => Ret x
  | S n' =>
      d ← Div a x;
      let nx := Z.shiftr (wrap64 (x + d)) 1 in
      if x <=? nx then Ret x else sqrt_loop n' a nx
  end.

Definition Sqrt (a : Z) : go Z :=
  if a <? 0 then Panic "fixedpoint: sqrt of negative number"
  else if a =? 0 then Ret 0
  else sqrt_loop 64 a (if a <? one then one else a).

(** ** Vectors *)

Record Vec2 := V2 { X : Z; Y : Z }.

Definition vAdd (v o : Vec2) : Vec2 := V2 (wrap64 (X v + X o)) (wrap64 (Y v + Y o)).
Definition vSub (v o : Vec2) : Vec2 := V2 (wrap64 (X v - X o)) (wrap64 (Y v - Y o)).
Definition Scale (v : Vec2) (s : Z) : Vec2 := V2 (Mul (X v) s) (Mul (Y v) s).
Definition Dot (v o : Vec2) : Z := Add (Mul (X v) (X o)) (Mul (Y v) (Y o)).
Definition Cross (v o : Vec2) : Z := Sub (Mul (X v) (Y o)) (Mul (Y v) (X o)).
Definition LenSq (v : Vec2) : Z := Dot v v.
Definition Len (v : Vec2) : go Z := Sqrt (LenSq v).
Definition Normalize (v : Vec2) : go Vec2 :=
  l ← Len v;
  if l =? 0 then Ret (V2 0 0)
  else x ← Div (X v) l; y ← Div (Y v) l; Ret (V2 x y).
Definition DistSq (a b : Vec2) : Z := LenSq (vSub a b).
Definition Dist (a b : Vec2) : go Z := Sqrt (DistSq a b).

(** * Arithmetic is exact up to the width *)

Lemma one_eq : one = 2 ^ 32.
Proof. reflexivity. Qed.

(** The sign-and-magnitude split both helpers start from. *)
Lemma magnitude a : int64 a ->
  (if a <? 0 then wrapu64 (wrap64 (- a)) else wrapu64 a) = Z.abs a.
Proof.
  intros Ha. destruct (a <? 0) eqn:E; bool_prop.
  - rewrite wrapu64_neg_abs by done. lia.
  - rewrite wrapu64_id; unfold uint64, int64 in *; lia.
Qed.

Lemma quot_abs a b : b <> 0 ->
  (if xorb (a <? 0) (b <? 0) then - (Z.abs a / Z.abs b) else Z.abs a / Z.abs b)
  = Z.quot a b.
Proof.
  intros Hb. rewrite Z.quot_div by done.
  destruct (Z.ltb_spec a 0), (Z.ltb_spec b 0); simpl;
    rewrite ?(Z.sgn_neg a), ?(Z.sgn_neg b), ?(Z.sgn_pos b) by lia;
    destruct (Z.eq_dec a 0) as [->|]; rewrite ?(Z.sgn_pos a) by lia;
    rewrite ?Zdiv_0_l; lia.
Qed.

(** The two shifted halves put the middle 64 bits of the product together. *)
Lemma middle_bits P : 0 <= P ->
  Z.lor (wrapu64 (Z.shiftl (P / 2 ^ 64) 32)) (Z.shiftr (P mod 2 ^ 64) 32)
  = wrapu64 (P / 2 ^ 32).
Proof.
  intros HP.
  assert (wrapu64 (Z.shiftl (P / 2 ^ 64) 32)
    = Z.shiftl ((P / 2 ^ 64) mod 2 ^ 32) 32) as ->.
  { unfold wrapu64. rewrite !Z.shiftl_mul_pow2 by lia.
    change (2 ^ 64) with (2 ^ 32 * 2 ^ 32). by rewrite Zmult_mod_distr_r. }
  rewrite Z.shiftr_div_pow2 by lia.
  pose proof (Z.mod_pos_bound P (2 ^ 64) ltac:(lia)).
  rewrite lor_shiftl_add; [|lia|].
  2: { split; [apply Z.div_pos; lia|apply Z.div_lt_upper_bound; lia]. }
  unfold wrapu64.
  assert (P mod 2 ^ 64 / 2 ^ 32 = (P / 2 ^ 32) mod 2 ^ 32) as ->.
  { change (2 ^ 64) with (2 ^ 32 * 2 ^ 32). rewrite Z.rem_mul_r by lia.
    rewrite Z.mul_comm, Z_div_plus by lia. rewrite (Z.div_small (P mod _)); [lia|].
    apply Z.mod_pos_bound. lia. }
  change (2 ^ 64) with (2 ^ 32 * 2 ^ 32) at 2. rewrite Z.rem_mul_r by lia.
  rewrite Z.div_div by lia. change (2 ^ 32 * 2 ^ 32) with (2 ^ 64). lia.
Qed.

(** [Mul] is the exact product scaled back, truncated toward zero, and then
    reduced to 64 bits: the 128-bit intermediate loses nothing. *)
Theorem Mul_exact a b : int64 a -> int64 b ->
  Mul a b = wrap64 (Z.quot (a * b) (2 ^ 32)).
Proof.
  intros Ha Hb. unfold Mul, mul64.
  pose proof (magnitude a Ha) as Ma. pose proof (magnitude b Hb) as Mb.
  assert (forall P, 0 <= P ->
    wrap64 (- wrap64 (wrapu64 (P / 2 ^ 32))) = wrap64 (- (P / 2 ^ 32))) as Hneg.
  { intros. by rewrite wrap64_opp_wrap64, <- wrap64_opp_wrap64, wrap64_wrapu64,
      wrap64_opp_wrap64. }
  rewrite <- (quot_abs (a * b) (2 ^ 32)) by lia.
  rewrite Z.abs_mul, (Z.abs_eq (2 ^ 32)) by lia.
  destruct (a <? 0) eqn:Ea, (b <? 0) eqn:Eb; simpl negb; cbv [bits_Mul64];
    rewrite Ma, Mb, middle_bits by lia; bool_prop;
    rewrite ?Hneg by lia; rewrite ?wrap64_wrapu64;
    destruct (Z.ltb_spec (a * b) 0); simpl; try (f_equal; nia).
  all: replace (Z.abs a * Z.abs b) with 0 by nia; reflexivity.
Qed.

Lemma div64_split u : 0 <= u ->
  Z.shiftr u 32 * 2 ^ 64 + wrapu64 (Z.shiftl u 32) = u * 2 ^ 32.
Proof.
  intros Hu. unfold wrapu64. rewrite Z.shiftl_mul_pow2, Z.shiftr_div_pow2 by lia.
  change (2 ^ 64) with (2 ^ 32 * 2 ^ 32). rewrite Zmult_mod_distr_r.
  pose proof (Z.div_mod u (2 ^ 32) ltac:(lia)). nia.
Qed.

(** [Div] has three outcomes: it panics on a zero divisor, it panics when the
    divisor's magnitude does not exceed the integer part of the dividend's
    (the quotient would need more than 64 bits), and otherwise it is the exact
    quotient truncated toward zero and reduced to 64 bits. *)
Theorem Div_exact a b : int64 a -> int64 b ->
  Div a b =
    if b =? 0 then Panic "fixedpoint: division by zero"
    else if Z.abs b <=? Z.abs a / 2 ^ 32 then Panic "runtime error: integer overflow"
    else Ret (wrap64 (Z.quot (a * 2 ^ 32) b)).
Proof.
  intros Ha Hb. unfold Div, div64. destruct (b =? 0) eqn:Eb; [done|]. bool_prop.
  rewrite !magnitude by done. unfold bits_Div64.
  destruct (Z.eqb_spec (Z.abs b) 0); [lia|].
  rewrite Z.shiftr_div_pow2 by lia.
  destruct (Z.abs b <=? Z.abs a / 2 ^ 32) eqn:E; [done|]. simpl. bool_prop.
  rewrite <- (Z.shiftr_div_pow2 _ 32), div64_split by lia.
  rewrite <- quot_abs by done.
  rewrite Z.abs_mul, (Z.abs_eq (2 ^ 32)) by lia.
  assert ((a * 2 ^ 32 <? 0) = (a <? 0)) as -> by
    (destruct (Z.ltb_spec (a * 2 ^ 32) 0), (Z.ltb_spec a 0); lia).
  destruct (xorb _ _); by rewrite ?wrap64_opp_wrap64.
Qed.

Lemma Div_exact_witness : int64 (3 * one) /\ int64 (- 2 * one) /\
  Div (3 * one) (- 2 * one) = Ret (- (one + one / 2)).
Proof.
  split; [vm_compute; split; congruence|]. split; [vm_compute; split; congruence|].
  rewrite Div_exact by (vm_compute; split; congruence). reflexivity.
Defined.

Lemma Mul_exact_witness : int64 (- one / 2) /\ int64 3 /\ Mul (- one / 2) 3 = -1.
Proof.
  split; [vm_compute; split; congruence|]. split; [vm_compute; split; congruence|].
  rewrite Mul_exact by (vm_compute; split; congruence). reflexivity.
Defined.

(** * Conversions *)

(** [Int] is an arithmetic shift, so it rounds toward minus infinity: it undoes
    [FromInt] on every integer of the 32-bit range, whatever fraction has been
    added, and on negative values with a fraction it is one less than the
    truncation toward zero the comment announces. *)
Theorem Int_floor n f : - 2 ^ 31 <= n < 2 ^ 31 -> 0 <= f < 2 ^ 32 ->
  Int (Add (FromInt n) f) = n /\
  (n < 0 -> 0 < f -> Z.quot (Add (FromInt n) f) one = Int (Add (FromInt n) f) + 1).
Proof.
  intros Hn Hf. unfold Int, Add, FromInt, shift.
  rewrite Z.shiftl_mul_pow2, Z.shiftr_div_pow2 by lia.
  rewrite (wrap64_id (n * 2 ^ 32)) by (unfold int64; lia).
  rewrite wrap64_id by (unfold int64; lia). split.
  - rewrite Z.add_comm, Z.div_add, (Z.div_small f) by lia. lia.
  - intros. rewrite one_eq, Z.add_comm, Z.div_add, (Z.div_small f) by lia.
    symmetry. rewrite <- (Z.opp_involutive (f + n * 2 ^ 32)), Z.quot_opp_l by lia.
    rewrite Z.quot_div_nonneg by lia.
    assert (- (f + n * 2 ^ 32) / 2 ^ 32 = - n - 1) as ->; [|lia].
    symmetry. apply (Z.div_unique _ _ _ (2 ^ 32 - f)); lia.
Qed.

Lemma Int_floor_witness :
  Int (Add (FromInt (-1)) (2 ^ 31)) = -1 /\
  Z.quot (Add (FromInt (-1)) (2 ^ 31)) one = 0.
Proof.
  pose proof (Int_floor (-1) (2 ^ 31) ltac:(lia) ltac:(lia)) as [H1 H2].
  split; [exact H1|]. rewrite H2 by lia. rewrite H1. reflexivity.
Defined.

(** * The Newton iteration *)

(** One step from a guess above the root stays at or above it and at least
    halves the distance. *)
Lemma newton_step N x : 0 <= N -> 0 < x -> Z.sqrt N <= x ->
  Z.sqrt N <= (x + N / x) / 2 /\
  (Z.sqrt N < x -> (x + N / x) / 2 <= Z.sqrt N + (x - Z.sqrt N) / 2).
Proof.
  intros HN Hx Hs. pose proof (Z.sqrt_spec N HN) as [Hlo Hhi].
  set (s := Z.sqrt N) in *. pose proof (Z.sqrt_nonneg N).
  pose proof (Z.div_mod N x ltac:(lia)). pose proof (Z.mod_pos_bound N x Hx).
  set (q := N / x) in *. split.
  - apply Z.div_le_lower_bound; [lia|].
    destruct (Z.le_gt_cases (2 * s) (x + q)) as [|Hlt]; [lia|exfalso].
    assert (q + 1 <= 2 * s - x) by lia.
    assert (x * (q + 1) <= x * (2 * s - x)) by nia. nia.
  - intros. assert (q <= s) by (unfold q; apply Z.lt_succ_r, Z.div_lt_upper_bound; nia).
    assert ((x + q) / 2 <= (x + s) / 2) by (apply Z.div_le_mono; lia).
    replace (x + s) with (x - s + s * 2) in * by lia.
    rewrite Z.div_add in * by lia. lia.
Qed.

(** A guess above the root whose sum with the quotient fits makes [Div] exact. *)
Lemma Div_guess a x : 0 < a < 2 ^ 63 -> 2 ^ 16 <= x < 2 ^ 63 -> Z.sqrt (a * 2 ^ 32) <= x ->
  Div a x = Ret (a * 2 ^ 32 / x).
Proof.
  intros Ha Hx Hs.
  pose proof (Z.sqrt_spec (a * 2 ^ 32) ltac:(lia)) as [_ Hhi].
  assert (a < 2 ^ 32 * x) as Hax.
  { assert (x * x <= (2 ^ 63 - 1) * x) by nia.
    assert ((Z.sqrt (a * 2 ^ 32) + 1) * (Z.sqrt (a * 2 ^ 32) + 1) <= (x + 1) * (x + 1))
      by (pose proof (Z.sqrt_nonneg (a * 2 ^ 32)); nia). lia. }
  rewrite Div_exact by (unfold int64; lia).
  destruct (Z.eqb_spec x 0); [lia|].
  assert (Z.abs a / 2 ^ 32 < Z.abs x) by (apply Z.div_lt_upper_bound; lia).
  destruct (Z.leb_spec (Z.abs x) (Z.abs a / 2 ^ 32)); [lia|].
  rewrite Z.quot_div_nonneg by lia. f_equal. apply wrap64_id.
  assert (0 <= a * 2 ^ 32 / x) by (apply Z.div_pos; lia).
  assert (a * 2 ^ 32 / x < 2 ^ 63); [|unfold int64; lia].
  apply Z.div_lt_upper_bound; [lia|].
  destruct (Z.le_gt_cases (2 ^ 32) x); [lia|].
  pose proof (Z.sqrt_nonneg (a * 2 ^ 32)). nia.
Qed.

Lemma sqrt_loop_correct n a x : 0 < a < 2 ^ 63 ->
  Z.sqrt (a * 2 ^ 32) <= x < 2 ^ 63 ->
  x + a * 2 ^ 32 / x < 2 ^ 63 ->
  x - Z.sqrt (a * 2 ^ 32) < 2 ^ Z.of_nat n ->
  sqrt_loop (S n) a x = Ret (Z.sqrt (a * 2 ^ 32)).
Proof.
  intros Ha. revert x. induction n as [|n IH]; intros x Hx Hsum Hn.
  all: set (s := Z.sqrt (a * 2 ^ 32)) in *.
  all: assert (2 ^ 16 <= s) by
    (unfold s; change (2 ^ 16) with (Z.sqrt (2 ^ 32)); apply Z.sqrt_le_mono; lia).
  all: assert (Hs: 0 <= a * 2 ^ 32 / x) by (apply Z.div_pos; lia).
  all: pose proof (newton_step (a * 2 ^ 32) x ltac:(lia) ltac:(lia) ltac:(lia)) as [Hlo Hup].
  all: fold s in Hlo, Hup.
  all: cbn [sqrt_loop]; rewrite Div_guess by (fold s; lia); cbn [mbind go_bind].
  all: rewrite wrap64_id by (unfold int64; lia).
  all: rewrite Z.shiftr_div_pow2 by lia; change (2 ^ 1) with 2.
  all: destruct (Z.leb_spec x ((x + a * 2 ^ 32 / x) / 2)) as [Hle|Hgt].
  - f_equal. lia.
  - exfalso. assert (x = s) by lia. lia.
  - f_equal. destruct (Z.eq_dec x s) as [|Hne]; [done|].
    assert (s < x) as Hlt by lia. specialize (Hup Hlt).
    assert ((x - s) / 2 < x - s) by (apply Z.div_lt; lia). lia.
  - assert (s < x) as Hlt by lia. specialize (Hup Hlt). apply IH.
    + lia.
    + assert (a * 2 ^ 32 / ((x + a * 2 ^ 32 / x) / 2) <= a * 2 ^ 32 / s)
        by (apply Z.div_le_compat_l; lia).
      pose proof (Z.sqrt_spec (a * 2 ^ 32) ltac:(lia)) as [_ Hhi]. fold s in Hhi.
      assert (a * 2 ^ 32 / s <= s + 2)
        by (apply Z.lt_succ_r, Z.div_lt_upper_bound; nia).
      assert (s < 2 ^ 48).
      { unfold s. apply Z.sqrt_lt_square; lia. }
      assert ((x + a * 2 ^ 32 / x) / 2 < 2 ^ 62) by (apply Z.div_lt_upper_bound; lia).
      lia.
    + rewrite Nat2Z.inj_succ, Z.pow_succ_r in Hn by lia.
      assert ((x - s) / 2 < 2 ^ Z.of_nat n) by (apply Z.div_lt_upper_bound; lia). lia.
Qed.

(** The 64 Newton iterations reach the square root: for every value up to
    [2^63 - 2^32] the result is the floor of the exact root of the Q32.32
    number, and no step overflows or panics. *)
Theorem Sqrt_correct a : 0 <= a < 2 ^ 63 - 2 ^ 32 ->
  Sqrt a = Ret (Z.sqrt (a * 2 ^ 32)).
Proof.
  intros Ha. unfold Sqrt.
  destruct (Z.ltb_spec a 0); [lia|]. destruct (Z.eqb_spec a 0) as [->|]; [done|].
  pose proof (Z.sqrt_spec (a * 2 ^ 32) ltac:(lia)) as [Hlo _].
  pose proof (Z.sqrt_nonneg (a * 2 ^ 32)).
  rewrite one_eq. destruct (Z.ltb_spec a (2 ^ 32)).
  - apply (sqrt_loop_correct 63); rewrite ?Z.div_mul by lia; try lia.
    all: nia.
  - apply (sqrt_loop_correct 63); try lia.
    + nia.
    + rewrite Z.mul_comm, Z.div_mul by lia. lia.
Qed.

Lemma Sqrt_correct_witness : 0 <= 2 * one < 2 ^ 63 - 2 ^ 32 /\ Sqrt (2 * one) = Ret 6074000999.
Proof. split; [vm_compute; split; congruence|]. rewrite Sqrt_correct by (vm_compute; split; congruence). reflexivity. Defined.

(** Above that range the first step overflows: the sum of the guess and the
    quotient wraps, and the largest values get a wrong, even negative, root. *)
Theorem Sqrt_overflow : exists a r, 0 <= a < 2 ^ 63 /\ Sqrt a = Ret r /\ r < 0.
Proof. exists (2 ^ 63 - 1). eexists. vm_compute. repeat split; congruence. Qed.
