(* ===== verification/RingBuffer.v ===== *)
(** The fixed-size ring ([pkg/foundation/ringbuffer/ringbuffer.go]) and its
    abstract contents: the most recent elements, oldest first. *)
From Stdlib Require Import ZArith Lia Bool Sorted.
From stdpp Require Import base numbers strings list sets.
From S2P Require Import Prelude.

Open Scope Z_scope.

Section ring.
Context {A : Type} (zero : A).

Record Ring := MkRing { buf : list A; head : Z; count : Z }.

Definition len (r : Ring) : Z := Z.of_nat (length (buf r)).

Definition New (capacity : Z) : Ring :=
  let capacity := if capacity <=? 0 then 1 else capacity in
  MkRing (replicate (Z.to_nat capacity) zero) 0 0.

Definition Push (r : Ring) (v : A) : go Ring :=
  b ← set_index (buf r) (head r) v;
  Ret (MkRing b (Z.rem (head r + 1) (len r))
    (if count r <? len r then count r + 1 else count r)).

Definition Len (r : Ring) : Z := count r.
Definition Cap (r : Ring) : Z := len r.
Definition Full (r : Ring) : bool := count r =? len r.

Definition oldest (r : Ring) : Z := if count r <? len r then 0 else head r.

Definition Slice (r : Ring) : go (list A) :=
  let start := oldest r in
  mapG (fun i => index (buf r) (Z.rem (start + i) (len r))) (seqZ 0 (count r)).

Definition Recent (r : Ring) (n : Z) : go (list A) :=
  if n <=? 0 then Ret [] else
  let n := if count r <? n then count r else n in
  mapG (fun i => index (buf r) (Z.rem (head r - 1 - i + len r * 2) (len r))) (seqZ 0 n).

Definition Newest (r : Ring) : go (A * bool) :=
  if count r =? 0 then Ret (zero, false)
  else v ← index (buf r) (Z.rem (head r - 1 + len r) (len r)); Ret (v, true).

Definition Oldest (r : Ring) : go (A * bool) :=
  if count r =? 0 then Ret (zero, false)
  else v ← index (buf r) (oldest r); Ret (v, true).

Definition Clear (r : Ring) : Ring := MkRing (replicate (length (buf r)) zero) 0 0.

(** * Well-formed rings and their contents *)

Definition wf (r : Ring) : Prop :=
  0 <= head r < len r /\ 0 <= count r <= len r /\ (count r < len r -> head r = count r).

(** The elements a reader sees, oldest first. *)
Definition contents (r : Ring) : list A :=
  if count r <? len r then take (Z.to_nat (count r)) (buf r)
  else drop (Z.to_nat (head r)) (buf r) ++ take (Z.to_nat (head r)) (buf r).

(** The last [k] elements of a history. *)
Definition lastn (k : nat) (l : list A) : list A := drop (length l - k) l.

Lemma New_wf capacity : wf (New capacity).
Proof.
  unfold wf, New, len; simpl. rewrite length_replicate.
  destruct (Z.leb_spec capacity 0); lia.
Qed.

Lemma length_contents r : wf r -> Z.of_nat (length (contents r)) = count r.
Proof.
  unfold wf, contents, len. intros (?&?&?).
  destruct (Z.ltb_spec (count r) (Z.of_nat (length (buf r))));
    autorewrite with beauty; lia.
Qed.

(** The physical index both read loops compute. *)
Lemma contents_lookup r i : wf r -> 0 <= i < count r ->
  contents r !! Z.to_nat i = buf r !! Z.to_nat (Z.rem (oldest r + i) (len r)).
Proof.
  unfold wf, contents, oldest, len. intros (Hh&Hc&He) Hi.
  destruct (Z.ltb_spec (count r) (Z.of_nat (length (buf r)))).
  - rewrite lookup_take_lt by lia. do 2 f_equal. rewrite Z.rem_small; lia.
  - destruct (Z.lt_ge_cases (head r + i) (Z.of_nat (length (buf r)))).
    + rewrite lookup_app_l, lookup_drop by (rewrite length_drop; lia).
      f_equal. rewrite Z.rem_small by lia. lia.
    + rewrite lookup_app_r, lookup_take_lt by (rewrite length_drop; lia).
      f_equal. rewrite length_drop.
      replace (head r + i) with (head r + i - Z.of_nat (length (buf r)) + 1 * Z.of_nat (length (buf r))) by lia.
      rewrite rem_add_multiple, Z.rem_small by lia. lia.
Qed.

Lemma index_contents r i v : wf r -> 0 <= i < count r ->
  contents r !! Z.to_nat i = Some v ->
  index (buf r) (Z.rem (oldest r + i) (len r)) = Ret v.
Proof.
  intros Hwf Hi Hv. rewrite contents_lookup in Hv by done.
  pose proof Hwf as (?&?&?). unfold index.
  rewrite decide_False, Hv; [done|].
  assert (0 <= oldest r) by (unfold oldest; case_match; lia).
  pose proof (Z.rem_nonneg (oldest r + i) (len r)). lia.
Qed.

(** Walking back from the newest slot reads the contents in reverse. *)
Lemma back_index r i k : wf r -> 0 <= i < count r -> 1 <= k ->
  Z.rem (head r - 1 - i + len r * k) (len r)
  = Z.rem (oldest r + (count r - 1 - i)) (len r).
Proof.
  unfold wf, oldest. intros (?&?&Hlt) ? ?.
  destruct (Z.ltb_spec (count r) (len r)).
  - rewrite (Hlt ltac:(lia)).
    replace (count r - 1 - i + len r * k) with (count r - 1 - i + k * len r) by lia.
    rewrite rem_add_multiple by lia. f_equal; lia.
  - assert (count r = len r) as -> by lia.
    replace (head r - 1 - i + len r * k)
      with (head r + (len r - 1 - i) + (k - 1) * len r) by lia.
    apply rem_add_multiple; lia.
Qed.

Lemma mapG_index_list (f : Z -> go A) (n : nat) (l : list A) :
  (n <= length l)%nat ->
  (forall i v, (i < n)%nat -> l !! i = Some v -> f (Z.of_nat i) = Ret v) ->
  mapG f (seqZ 0 (Z.of_nat n)) = Ret (take n l).
Proof.
  intros Hn Hf. destruct l as [|d l0] eqn:El.
  { simpl in Hn. assert (n = 0)%nat as -> by lia. done. }
  rewrite <- El in *.
  rewrite (mapG_ret _ (fun z => nth (Z.to_nat z) l d)).
  - f_equal. apply list_eq. intros i.
    rewrite list_lookup_fmap. destruct (Nat.lt_ge_cases i n).
    + rewrite lookup_seqZ_lt, lookup_take_lt by lia. simpl.
      destruct (lookup_lt_is_Some_2 l i ltac:(lia)) as [v Hv].
      rewrite Hv. f_equal. rewrite Z2Nat.inj_add, Nat2Z.id by lia. simpl.
      by apply nth_lookup_Some.
    + rewrite lookup_seqZ_ge, lookup_take_ge by lia. done.
  - intros x [Hx0 Hx]%elem_of_seqZ.
    destruct (lookup_lt_is_Some_2 l (Z.to_nat x) ltac:(lia)) as [v Hv].
    rewrite <- (Z2Nat.id x) at 1 by lia. rewrite (Hf _ v) by (done || lia).
    f_equal. symmetry. by apply nth_lookup_Some.
Qed.

Lemma Slice_contents r : wf r -> Slice r = Ret (contents r).
Proof.
  intros Hwf. unfold Slice. pose proof (length_contents r Hwf) as Hl.
  rewrite <- Hl. rewrite (mapG_index_list _ _ (contents r)); [by rewrite take_ge|lia|].
  intros i v Hi Hv. apply index_contents; [done|lia|]. by rewrite Nat2Z.id.
Qed.

Lemma Recent_contents r n : wf r ->
  Recent r n = Ret (take (Z.to_nat n) (reverse (contents r))).
Proof.
  intros Hwf. unfold Recent. destruct (Z.leb_spec n 0).
  { replace (Z.to_nat n) with O by lia. done. }
  pose proof (length_contents r Hwf) as Hl. pose proof Hwf as (?&?&?).
  set (m := if count r <? n then count r else n).
  assert (0 <= m <= count r) by (unfold m; case_match; bool_prop; lia).
  rewrite <- (Z2Nat.id m), (mapG_index_list _ _ (reverse (contents r))) by
    (rewrite ?length_reverse; lia || (intros i v Hi Hv;
     rewrite reverse_lookup in Hv by lia;
     rewrite back_index by (done || lia);
     apply index_contents; [done|lia|rewrite <- Hv; f_equal; lia])).
  f_equal. unfold m. destruct (Z.ltb_spec (count r) n); [|done].
  rewrite !take_ge by (rewrite length_reverse; lia). done.
Qed.

(** One push appends and drops the oldest when the ring was full. *)
Lemma Push_contents r v : wf r -> exists r', Push r v = Ret r' /\ wf r' /\
  length (buf r') = length (buf r) /\
  contents r' = lastn (length (buf r)) (contents r ++ [v]).
Proof.
  intros Hwf. pose proof (length_contents r Hwf) as Hl.
  pose proof Hwf as (Hh&Hc&He). unfold Push.
  rewrite <- (Z2Nat.id (head r)), set_index_lt by (unfold len in *; lia). simpl.
  rewrite Z2Nat.id by lia. eexists. split; [done|].
  assert (Hrem: Z.rem (head r + 1) (len r) = if head r + 1 =? len r then 0 else head r + 1).
  { destruct (Z.eqb_spec (head r + 1) (len r)) as [->|]; [by apply Z.rem_same; lia|].
    apply Z.rem_small; lia. }
  rewrite Hrem. unfold wf, contents, len, lastn in *; simpl.
  rewrite length_insert, length_app; simpl.
  destruct (Z.ltb_spec (count r) (Z.of_nat (length (buf r)))) as [Hlt|Hge].
  - rewrite (He Hlt) in *.
    destruct (Z.eqb_spec (count r + 1) (Z.of_nat (length (buf r)))) as [E|E].
    + destruct (Z.ltb_spec (count r + 1) (Z.of_nat (length (buf r)))); [lia|].
      split; [lia|]. split; [done|]. rewrite drop_0, take_0, app_nil_r. simpl.
      rewrite length_take, Nat.min_l by lia.
      replace (_ + 1 - _)%nat with O by lia. rewrite drop_0.
      rewrite insert_take_drop by lia. f_equal. f_equal. apply drop_ge. lia.
    + destruct (Z.ltb_spec (count r + 1) (Z.of_nat (length (buf r)))); [|lia].
      split; [lia|]. split; [done|]. rewrite length_take, Nat.min_l by lia.
      replace (_ + 1 - _)%nat with O by lia. rewrite drop_0.
      rewrite Z2Nat.inj_add by lia. change (Z.to_nat 1) with 1%nat.
      rewrite Nat.add_1_r, (take_S_r _ _ v) by (rewrite list_lookup_insert_eq; lia || done).
      by rewrite take_insert_ge by lia.
  - destruct (Z.ltb_spec (count r) (Z.of_nat (length (buf r)))); [lia|].
    split; [case_match; bool_prop; lia|]. split; [done|].
    autorewrite with beauty. simpl.
    replace (_ - _ + _ `min` _ + 1 - _)%nat with 1%nat by lia.
    destruct (drop (Z.to_nat (head r)) (buf r)) as [|x d] eqn:Ed.
    { apply (f_equal length) in Ed. rewrite length_drop in Ed. simpl in Ed. lia. }
    simpl. rewrite drop_0.
    assert (d = drop (S (Z.to_nat (head r))) (buf r)) as ->.
    { rewrite <- Nat.add_1_r, <- drop_drop, Ed. done. }
    destruct (Z.eqb_spec (head r + 1) (Z.of_nat (length (buf r)))) as [E|E].
    + rewrite drop_0, take_0, app_nil_r. rewrite insert_take_drop by lia.
      rewrite !(drop_ge _ (S _)) by lia. done.
    + rewrite drop_insert_lt by lia.
      replace (Z.to_nat (head r + 1)) with (S (Z.to_nat (head r))) by lia.
      rewrite (take_S_r _ _ v) by (rewrite list_lookup_insert_eq; lia || done).
      rewrite take_insert_ge by lia. by rewrite app_assoc.
Qed.

Fixpoint PushAll (r : Ring) (vs : list A) : go Ring :=
  match vs with [] => Ret r | v :: vs' => r' ← Push r v; PushAll r' vs' end.

Lemma lastn_app_lastn k (l l' : list A) : lastn k (lastn k l ++ l') = lastn k (l ++ l').
Proof.
  unfold lastn. rewrite !length_app, length_drop.
  destruct (Nat.le_gt_cases (length l) k).
  - replace (length l - k)%nat with O by lia. rewrite drop_0. f_equal. lia.
  - rewrite <- (drop_app_le l l' (length l - k)) by lia. rewrite drop_drop. f_equal. lia.
Qed.

Lemma PushAll_contents vs : forall r, wf r -> exists r', PushAll r vs = Ret r' /\ wf r' /\
  length (buf r') = length (buf r) /\
  contents r' = lastn (length (buf r)) (contents r ++ vs).
Proof.
  induction vs as [|v vs IH]; intros r Hwf; simpl.
  - exists r. repeat split; try apply Hwf. rewrite app_nil_r.
    pose proof (length_contents r Hwf). unfold wf, len in *. unfold lastn.
    replace (_ - _)%nat with O by lia. done.
  - destruct (Push_contents r v Hwf) as (r1&->&Hwf1&Hb1&Hc1). simpl.
    destruct (IH r1 Hwf1) as (r2&->&Hwf2&Hb2&Hc2). exists r2.
    split; [done|]. split; [done|]. split; [congruence|].
    rewrite Hc2, Hc1, Hb1, lastn_app_lastn, <- app_assoc. done.
Qed.

(** ** Rings whose fields are those of another structure *)

Lemma raw_push b h c v : wf (MkRing b h c) -> exists b', set_index b h v = Ret b' /\
  length b' = length b /\
  let r' := MkRing b' (Z.rem (h + 1) (Z.of_nat (length b)))
              (if c <? Z.of_nat (length b) then c + 1 else c) in
  wf r' /\ contents r' = lastn (length b) (contents (MkRing b h c) ++ [v]).
Proof.
  intros Hw. destruct (Push_contents _ v Hw) as (r'&Hp&Hw'&Hl&Hc). unfold Push in Hp. simpl in Hp.
  destruct (set_index b h v) as [b'|]; [|done]. simpl in Hp. injection Hp as <-.
  exists b'. split; [done|]. split; [exact Hl|]. by split.
Qed.

(** The [i]-th element from the oldest, and from the newest. *)
Lemma raw_oldest b h c i v : wf (MkRing b h c) -> contents (MkRing b h c) !! i = Some v ->
  index b (Z.rem (h - c + Z.of_nat i + Z.of_nat (length b)) (Z.of_nat (length b))) = Ret v.
Proof.
  intros Hw Hv. pose proof (lookup_lt_Some _ _ _ Hv) as Hi. pose proof (length_contents _ Hw) as Hl.
  simpl in Hl. rewrite <- (index_contents (MkRing b h c) (Z.of_nat i) v Hw);
    [|simpl; lia|by rewrite Nat2Z.id].
  simpl. f_equal. destruct Hw as (?&?&He). unfold oldest, len in *. simpl in *.
  destruct (Z.ltb_spec c (Z.of_nat (length b))) as [Hlt|Hge].
  - rewrite He by done. replace (c - c + Z.of_nat i + Z.of_nat (length b))
      with (0 + Z.of_nat i + 1 * Z.of_nat (length b)) by lia. apply rem_add_multiple; lia.
  - f_equal. lia.
Qed.

Lemma raw_newest b h c i v : wf (MkRing b h c) -> reverse (contents (MkRing b h c)) !! i = Some v ->
  index b (Z.rem (h - 1 - Z.of_nat i + Z.of_nat (length b)) (Z.of_nat (length b))) = Ret v.
Proof.
  intros Hw Hv. pose proof (lookup_lt_Some _ _ _ Hv) as Hi. rewrite length_reverse in Hi.
  pose proof (length_contents _ Hw) as Hl. simpl in Hl.
  apply reverse_lookup_Some in Hv as [Hv _].
  pose proof (back_index (MkRing b h c) (Z.of_nat i) 1 Hw ltac:(simpl; lia) ltac:(lia)) as Hb.
  unfold len in Hb. simpl in Hb. rewrite Z.mul_1_r in Hb. rewrite Hb.
  apply (index_contents (MkRing b h c)); [done|simpl; lia|]. rewrite <- Hv. f_equal. lia.
Qed.

(** Whatever is pushed into a new ring, no operation panics and the readers
    see exactly the last [capacity] elements (capacity at least 1): [Slice] from
    oldest to newest, [Recent n] the newest [n] in reverse order. *)
Theorem Ring_keeps_latest capacity vs :
  let k := Z.to_nat (Z.max 1 capacity) in
  exists r, PushAll (New capacity) vs = Ret r /\
    Slice r = Ret (lastn k vs) /\
    Len r = Z.min (Z.of_nat (length vs)) (Z.of_nat k) /\
    forall n, Recent r n = Ret (take (Z.to_nat n) (reverse (lastn k vs))).
Proof.
  intros k. destruct (PushAll_contents vs _ (New_wf capacity)) as (r&Hr&Hwf&_&Hc).
  exists r. split; [done|].
  assert (length (buf (New capacity)) = k) as Hk.
  { unfold New, k; simpl. rewrite length_replicate. destruct (Z.leb_spec capacity 0); lia. }
  assert (contents (New capacity) = []) as Hn.
  { unfold contents, len. rewrite Hk. unfold New; simpl.
    destruct (Z.ltb_spec 0 (Z.of_nat k)); [done|lia]. }
  rewrite Hk, Hn in Hc. simpl in Hc. rewrite <- Hc.
  split; [by apply Slice_contents|].
  split; [|by intros; apply Recent_contents].
  unfold Len. rewrite <- length_contents, Hc by done. unfold lastn.
  rewrite length_drop. lia.
Qed.

Lemma Newest_contents r : wf r ->
  Newest r = Ret (match last (contents r) with Some v => (v, true) | None => (zero, false) end).
Proof.
  intros Hwf. unfold Newest. pose proof (length_contents r Hwf) as Hl.
  pose proof Hwf as (?&?&?). rewrite last_lookup.
  destruct (Z.eqb_spec (count r) 0) as [E|E].
  - replace (length (contents r)) with O by lia. by rewrite (nil_length_inv (contents r)) by lia.
  - destruct (lookup_lt_is_Some_2 (contents r) (Init.Nat.pred (length (contents r)))) as [v Hv]; [lia|].
    rewrite Hv. replace (head r - 1 + len r) with (head r - 1 - 0 + len r * 1) by lia.
    rewrite back_index by (done || lia).
    rewrite (index_contents _ _ v); [done|done|lia|]. rewrite <- Hv. f_equal. lia.
Qed.

Lemma Oldest_contents r : wf r ->
  Oldest r = Ret (match contents r with v :: _ => (v, true) | [] => (zero, false) end).
Proof.
  intros Hwf. unfold Oldest. pose proof (length_contents r Hwf) as Hl.
  pose proof Hwf as (?&?&?).
  destruct (Z.eqb_spec (count r) 0) as [E|E].
  - by rewrite (nil_length_inv (contents r)) by lia.
  - destruct (contents r) as [|v l] eqn:Ec; [simpl in *; lia|].
    replace (oldest r) with (Z.rem (oldest r + 0) (len r)).
    + rewrite (index_contents _ _ v); [done|done|lia|]. by rewrite Ec.
    + rewrite Z.add_0_r. apply Z.rem_small. unfold oldest; case_match; lia.
Qed.

(** The two ends and [Clear] agree with the contents: [Newest] and [Oldest]
    return the last and first element, with [false] on an empty ring only, and
    [Clear] empties the ring, keeping its capacity. *)
Theorem Ring_ends r : wf r ->
  Newest r = Ret (match last (contents r) with Some v => (v, true) | None => (zero, false) end) /\
  Oldest r = Ret (match contents r with v :: _ => (v, true) | [] => (zero, false) end) /\
  wf (Clear r) /\ Slice (Clear r) = Ret [] /\ Cap (Clear r) = Cap r.
Proof.
  intros Hwf. split; [by apply Newest_contents|]. split; [by apply Oldest_contents|].
  pose proof Hwf as (?&?&?). unfold Clear, wf, Cap, len in *. simpl.
  rewrite length_replicate. repeat split; lia.
Qed.

End ring.

(** ** Ends of a history *)

Lemma lastn_nil_iff {A} k (l : list A) : (0 < k)%nat -> lastn k l = [] <-> l = [].
Proof.
  intros Hk. unfold lastn. split; [|by intros ->].
  intros H%(f_equal length). rewrite length_drop in H. apply nil_length_inv. simpl in H. lia.
Qed.

(** What [lastn] drops of a sorted history is before what it keeps. *)
Lemma lastn_older {A} (f : A -> Z) (h : list A) k o e : StronglySorted (fun a b => f a < f b) h ->
  hd_error (lastn k h) = Some o -> e ∈ take (length h - k) h -> f e < f o.
Proof.
  unfold lastn. intros Hs Ho He. rewrite <- (take_drop (length h - k) h) in Hs.
  destruct (drop _ h) as [|o' d]; [done|]. injection Ho as <-.
  revert Hs He. induction (take (length h - k) h) as [|x t IH]; intros Hs He.
  { by apply not_elem_of_nil in He. }
  simpl in Hs. apply StronglySorted_inv in Hs as [Hs Hx]. apply elem_of_cons in He as [->|He].
  - rewrite Forall_forall in Hx. apply Hx. set_solver.
  - by apply IH.
Qed.

Lemma lastn_subset {A} k (l : list A) : lastn k l ⊆ l.
Proof. intros x Hx. unfold lastn in Hx. rewrite <- (take_drop (length l - k) l). set_solver. Qed.

Lemma last_lastn {A} k (h : list A) : (0 < k)%nat -> last (lastn k h) = last h.
Proof.
  intros Hk. unfold lastn. destruct (decide (h = [])) as [->|Hne]; [done|].
  destruct (last h) as [e|] eqn:E; [|by apply last_None in E].
  apply last_Some in E as [h0 ->]. rewrite drop_app_le by (rewrite length_app; simpl; lia). by rewrite last_snoc.
Qed.

Lemma sorted_snoc {A} (R : A -> A -> Prop) (l : list A) x : Transitive R -> StronglySorted R l ->
  (forall e, last l = Some e -> R e x) -> StronglySorted R (l ++ [x]).
Proof.
  intros HT Hl. induction Hl as [|y l Hl IH Hy]; intros Hx; simpl; [by repeat constructor|].
  assert (R y x) as Hyx.
  { destruct (last l) as [e|] eqn:E.
    - transitivity e.
      + rewrite Forall_forall in Hy. apply Hy. apply last_Some in E as [l' ->]. set_solver.
      + apply Hx. by rewrite last_cons, E.
    - apply Hx. by rewrite last_cons, E. }
  constructor.
  - apply IH. intros e E. apply Hx. by rewrite last_cons, E.
  - apply Forall_app. by split; [|constructor].
Qed.

Lemma Ring_ends_witness : exists r,
  PushAll (New 0 2) [1; 2; 3] = Ret r /\ wf r /\ Newest 0 r = Ret (3, true).
Proof.
  exists (MkRing [3; 2] 1 2). split; [reflexivity|].
  assert (wf (MkRing [3; 2] 1 2)) as H by (vm_compute; repeat split; congruence).
  split; [exact H|]. destruct (Ring_ends 0 _ H) as [-> _]. reflexivity.
Defined.
