(* ===== verification/SnapBuf.v ===== *)
(** The ring of world snapshots for lag compensation ([pkg/game/snapbuf/snapbuf.go]).
    Its slots are those of the generic ring, so its contents are the ring's. *)
From Stdlib Require Import ZArith Lia Bool.
From stdpp Require Import base numbers strings list.
From S2P Require Import Prelude RingBuffer.

Open Scope Z_scope.

Section snapbuf.
Context {S : Type} (zero : S).

Record entry := MkEntry { frame : Z; snap : S }.

Definition zero_entry : entry := MkEntry 0 zero.

Record Ring := MkRing { depth : Z; buf : list entry; head : Z; count : Z; latest : Z }.

Definition New (d : Z) : Ring :=
  let d := if d <=? 0 then 64 else d in
  MkRing d (replicate (Z.to_nat d) zero_entry) 0 0 0.

Definition Push (f : Z) (s : S) (r : Ring) : go Ring :=
  let lt := if latest r <? f then f else latest r in
  b ← set_index (buf r) (head r) (MkEntry f s);
  Ret (MkRing (depth r) b (Z.rem (head r + 1) (depth r))
    (if count r <? depth r then count r + 1 else count r) lt).

(** The slot [i] steps back from the newest one. *)
Definition back (r : Ring) (i : Z) : go entry :=
  index (buf r) (Z.rem (head r - 1 - i + depth r) (depth r)).

Fixpoint At_loop (n : nat) (r : Ring) (f i : Z) : go (S * bool) :=
  match n with
  | O => Ret (zero, false)
  | Datatypes.S n =>
      e ← back r i;
      if frame e =? f then Ret (snap e, true) else At_loop n r f (i + 1)
  end.

Definition At (f : Z) (r : Ring) : go (S * bool) := At_loop (Z.to_nat (count r)) r f 0.

(** [gap] is a difference of [uint64], here without wrap. *)
Fixpoint Nearest_loop (n : nat) (r : Ring) (f i : Z) (best : option entry) (bestGap : Z)
    : go (option entry) :=
  match n with
  | O => Ret best
  | Datatypes.S n =>
      e ← back r i;
      if f <? frame e then Nearest_loop n r f (i + 1) best bestGap
      else
        let gap := wrapu64 (f - frame e) in
        match best with
        | Some _ =>
            if gap <? bestGap then Nearest_loop n r f (i + 1) (Some e) gap
            else Nearest_loop n r f (i + 1) best bestGap
        | None => Nearest_loop n r f (i + 1) (Some e) gap
        end
  end.

Definition Nearest (f : Z) (r : Ring) : go (S * Z * bool) :=
  best ← Nearest_loop (Z.to_nat (count r)) r f 0 None 0;
  Ret match best with
      | None => (zero, 0, false)
      | Some e => (snap e, frame e, true)
      end.

Definition Latest (r : Ring) : go (Z * S * bool) :=
  if count r =? 0 then Ret (0, zero, false)
  else e ← index (buf r) (Z.rem (head r - 1 + depth r) (depth r)); Ret (frame e, snap e, true).

Definition Len (r : Ring) : Z := count r.

(** * Contents, through the generic ring *)

Definition ring (r : Ring) : RingBuffer.Ring := RingBuffer.MkRing (buf r) (head r) (count r).

Definition wf (r : Ring) : Prop := RingBuffer.wf (ring r) /\ depth r = Z.of_nat (length (buf r)).

(** The entries held, newest first. *)
Definition newest_first (r : Ring) : list entry := reverse (RingBuffer.contents (ring r)).

Lemma New_snap_wf d : wf (New d).
Proof.
  unfold wf, RingBuffer.wf, ring, RingBuffer.len, New. simpl. rewrite length_replicate.
  destruct (Z.leb_spec d 0); simpl; lia.
Qed.

Lemma back_spec r n e : wf r -> newest_first r !! n = Some e -> back r (Z.of_nat n) = Ret e.
Proof.
  intros [Hw Hd] Hn. unfold newest_first in Hn.
  pose proof (RingBuffer.length_contents (ring r) Hw) as Hl.
  pose proof (lookup_lt_Some _ _ _ Hn) as Hlt. rewrite length_reverse in Hlt.
  apply reverse_lookup_Some in Hn as [Hn _]. unfold back.
  assert (depth r = RingBuffer.len (ring r)) as -> by exact Hd.
  change (buf r) with (RingBuffer.buf (ring r)).
  replace (head r - 1 - Z.of_nat n + RingBuffer.len (ring r))
    with (RingBuffer.head (ring r) - 1 - Z.of_nat n + RingBuffer.len (ring r) * 1) by (simpl; lia).
  rewrite RingBuffer.back_index by (done || lia).
  apply RingBuffer.index_contents; [done|lia|]. rewrite <- Hn. f_equal. lia.
Qed.

Lemma newest_first_length r : wf r -> length (newest_first r) = Z.to_nat (count r).
Proof.
  intros [Hw _]. unfold newest_first. rewrite length_reverse.
  pose proof (RingBuffer.length_contents (ring r) Hw) as Hl. simpl in Hl. lia.
Qed.

Lemma Push_spec f s r : wf r -> exists r', Push f s r = Ret r' /\ wf r' /\ depth r' = depth r /\
  RingBuffer.contents (ring r') =
    lastn (Z.to_nat (depth r)) (RingBuffer.contents (ring r) ++ [MkEntry f s]).
Proof.
  intros [Hw Hd]. destruct (RingBuffer.Push_contents (ring r) (MkEntry f s) Hw) as (r0&Hp&Hw0&Hl&Hc).
  unfold RingBuffer.Push in Hp. simpl in Hp. unfold Push.
  destruct (set_index (buf r) (head r) (MkEntry f s)) as [b|]; [|done]. simpl in *.
  injection Hp as <-. eexists. split; [done|]. unfold RingBuffer.len in *. simpl in *. rewrite Hd.
  split; [split; [done|simpl; lia]|]. split; [done|]. rewrite Nat2Z.id. exact Hc.
Qed.

Fixpoint PushAll (r : Ring) (es : list entry) : go Ring :=
  match es with
  | [] => Ret r
  | e :: es => r ← Push (frame e) (snap e) r; PushAll r es
  end.

Lemma PushAll_spec es : forall r, wf r -> exists r', PushAll r es = Ret r' /\ wf r' /\
  depth r' = depth r /\
  RingBuffer.contents (ring r') =
    lastn (Z.to_nat (depth r)) (RingBuffer.contents (ring r) ++ es).
Proof.
  induction es as [|[f s] es IH]; intros r Hw; simpl.
  - exists r. repeat split; try done; [apply Hw..|]. rewrite app_nil_r. unfold lastn.
    destruct Hw as [Hw Hd]. pose proof (RingBuffer.length_contents (ring r) Hw) as Hl.
    destruct Hw as (_&Hc&_). unfold RingBuffer.len in Hc. simpl in *.
    replace (length _ - _)%nat with 0%nat by lia. done.
  - destruct (Push_spec f s r Hw) as (r1&->&Hw1&Hd1&Hc1). simpl.
    destruct (IH r1 Hw1) as (r2&->&Hw2&Hd2&Hc2). exists r2. split; [done|]. split; [done|].
    split; [congruence|]. rewrite Hc2, Hc1, Hd1, lastn_app_lastn, <- app_assoc. done.
Qed.

(** The loops read the entries from the newest back. *)
Lemma At_loop_find r f : wf r -> forall n k, (k + n = length (newest_first r))%nat ->
  At_loop n r f (Z.of_nat k) = Ret
    match List.find (fun e => frame e =? f) (drop k (newest_first r)) with
    | Some e => (snap e, true)
    | None => (zero, false)
    end.
Proof.
  intros Hw. induction n as [|n IH]; intros k Hk; simpl.
  - rewrite drop_ge by lia. done.
  - destruct (lookup_lt_is_Some_2 (newest_first r) k ltac:(lia)) as [e He].
    rewrite (back_spec r k e Hw He), (drop_S _ e k He). simpl.
    destruct (frame e =? f); [done|].
    replace (Z.of_nat k + 1) with (Z.of_nat (Datatypes.S k)) by lia. apply IH. lia.
Qed.

(** [e] is a nearest entry at or before [f] in [l]. *)
Definition nearest_in (l : list entry) (f : Z) (best : option entry) : Prop :=
  match best with
  | Some e => e ∈ l /\ frame e <= f /\ (forall e', e' ∈ l -> frame e' <= f -> frame e' <= frame e)
  | None => forall e', e' ∈ l -> f < frame e'
  end.

Lemma Nearest_loop_spec r f : wf r -> uint64 f ->
  Forall (fun e => 0 <= frame e) (newest_first r) ->
  forall n k best gap, (k + n = length (newest_first r))%nat ->
  nearest_in (take k (newest_first r)) f best ->
  match best with Some e => gap = f - frame e | None => True end ->
  exists best', Nearest_loop n r f (Z.of_nat k) best gap = Ret best' /\
    nearest_in (newest_first r) f best'.
Proof.
  intros Hw Hf Hall. induction n as [|n IH]; intros k best gap Hk Hb Hg; simpl.
  - exists best. split; [done|]. by rewrite take_ge in Hb by lia.
  - destruct (lookup_lt_is_Some_2 (newest_first r) k ltac:(lia)) as [e He].
    rewrite (back_spec r k e Hw He). simpl.
    replace (Z.of_nat k + 1) with (Z.of_nat (Datatypes.S k)) by lia.
    assert (0 <= frame e) by (by eapply (Forall_lookup_1 _ _ k) in Hall).
    pose proof (take_S_r _ _ _ He) as Ht.
    assert (Hin : forall e', e' ∈ take (Datatypes.S k) (newest_first r) <->
      e' ∈ take k (newest_first r) \/ e' = e).
    { intros e'. rewrite Ht, elem_of_app, list_elem_of_singleton. done. }
    assert (Hnew : (forall e', e' ∈ take k (newest_first r) -> frame e' <= f -> frame e' <= frame e) ->
      frame e <= f -> nearest_in (take (Datatypes.S k) (newest_first r)) f (Some e)).
    { intros Hle Hfe. split; [apply Hin; by right|]. split; [done|].
      intros e' [Hin'| ->]%Hin ?; [by apply Hle|lia]. }
    destruct (Z.ltb_spec f (frame e)) as [Hlt|Hge].
    + apply IH; [lia| |done]. destruct best as [b|].
      * destruct Hb as (?&?&Hmax). split; [apply Hin; by left|]. split; [done|].
        intros e' [?| ->]%Hin ?; [by apply Hmax|lia].
      * intros e' [?| ->]%Hin; [by apply Hb|done].
    + rewrite wrapu64_id by (unfold uint64 in *; lia). destruct best as [b|].
      * destruct Hb as (Hbin&Hbf&Hmax). subst gap.
        destruct (Z.ltb_spec (f - frame e) (f - frame b)); apply IH; try done; try lia.
        -- apply Hnew; [|done]. intros e' He' Hfe'. specialize (Hmax e' He' Hfe'). lia.
        -- split; [apply Hin; by left|]. split; [done|].
           intros e' [?| ->]%Hin ?; [by apply Hmax|lia].
      * apply IH; [lia| |done]. apply Hnew; [|done]. intros e' He' Hfe'.
        specialize (Hb e' He'). lia.
Qed.

(** After any pushes, lookups answer from exactly the last [depth] of them:
    [At] gives the latest push for a frame, [Nearest] a push with the greatest
    frame not after the one asked, [Latest] the last push; each reports absence
    exactly when there is none. No index is ever out of range. *)
Theorem snapshots_kept d es f : Forall (fun e => 0 <= frame e) es -> uint64 f ->
  let k := Z.to_nat (if d <=? 0 then 64 else d) in let kept := lastn k es in
  exists r, PushAll (New d) es = Ret r /\
  At f r = Ret match List.find (fun e => frame e =? f) (reverse kept) with
               | Some e => (snap e, true) | None => (zero, false) end /\
  (exists best, nearest_in kept f best /\ Nearest f r = Ret match best with
               | Some e => (snap e, frame e, true) | None => (zero, 0, false) end) /\
  Latest r = Ret match last kept with
               | Some e => (frame e, snap e, true) | None => (0, zero, false) end.
Proof.
  intros Hes Hf k kept.
  destruct (PushAll_spec es (New d) (New_snap_wf d)) as (r&Hr&Hw&Hd&Hc). exists r. split; [done|].
  assert (RingBuffer.contents (ring (New d)) = []) as Hnil.
  { unfold RingBuffer.contents, ring, RingBuffer.len, New. simpl. rewrite length_replicate.
    rewrite (proj2 (Z.ltb_lt 0 _)); [done|]. destruct (Z.leb_spec d 0); lia. }
  rewrite Hnil in Hc. change (Z.to_nat (depth (New d))) with k in Hc. simpl in Hc. fold kept in Hc.
  assert (newest_first r = reverse kept) as Hnf by (unfold newest_first; by rewrite Hc).
  pose proof (newest_first_length r Hw) as Hlen. rewrite Hnf, length_reverse in Hlen.
  split; [|split].
  - unfold At. change 0 with (Z.of_nat 0). rewrite (At_loop_find r f Hw) by (by rewrite Hnf, length_reverse).
    rewrite drop_0. by rewrite Hnf.
  - destruct (Nearest_loop_spec r f Hw Hf) with (n := Z.to_nat (count r)) (k := 0%nat)
      (best := @None entry) (gap := 0) as (best&Hl&Hb).
    + rewrite Hnf. apply Forall_reverse, Forall_drop, Hes.
    + by rewrite Hnf, length_reverse.
    + intros e He. by apply not_elem_of_nil in He.
    + done.
    + exists best. split.
      * rewrite Hnf in Hb. unfold nearest_in in *. destruct best; setoid_rewrite elem_of_reverse in Hb; done.
      * unfold Nearest. change (Z.of_nat 0) with 0 in Hl. rewrite Hl. done.
  - unfold Latest. destruct (Z.eqb_spec (count r) 0) as [E|E].
    + rewrite E in Hlen. apply nil_length_inv in Hlen. by rewrite Hlen.
    + destruct (last kept) as [e|] eqn:Hlast.
      * assert (newest_first r !! 0%nat = Some e) as H0.
        { rewrite Hnf, <- head_lookup, head_reverse. done. }
        pose proof (back_spec r 0 e Hw H0) as Hb. unfold back in Hb.
        replace (head r - 1 - Z.of_nat 0) with (head r - 1) in Hb by lia. by rewrite Hb.
      * apply last_None in Hlast. rewrite Hlast in Hlen. simpl in Hlen.
        destruct Hw as [(_&[? _]&_) _]. simpl in *. lia.
Qed.

End snapbuf.

Lemma snapshots_kept_witness : exists r,
  PushAll (New "" 2) [MkEntry 1 "a"; MkEntry 4 "b"; MkEntry 6 "c"] = Ret r /\
  At "" 1 r = Ret (""%string, false) /\ Latest "" r = Ret (6, "c"%string, true).
Proof.
  destruct (snapshots_kept "" 2 [MkEntry 1 "a"; MkEntry 4 "b"; MkEntry 6 "c"] 1)
    as (r&Hr&Ha&_&Hl); [repeat constructor; simpl; lia|unfold uint64; lia|].
  exists r. split; [exact Hr|]. split; [exact Ha|exact Hl].
Defined.
