(* ===== verification/Priority.v ===== *)
(** The binary-heap priority queue ([pkg/foundation/priority/priority.go]): sift
    up, sift down, and the queue operations over a slice. *)
From Stdlib Require Import ZArith Lia Bool.
From stdpp Require Import base numbers strings list.
From S2P Require Import Prelude.

Open Scope Z_scope.

Section queue.
Context {T : Type} (less : T -> T -> bool).

(** ** Sifting *)

(** [q.items[i]] for an index the callers keep in range. *)
Definition lessAt (items : list T) (i j : Z) : go bool :=
  a ← index items i; b ← index items j; Ret (less a b).

Definition swap (items : list T) (i j : Z) : go (list T) :=
  a ← index items i; b ← index items j;
  items ← set_index items i b; set_index items j a.

(** [up]: the loop index at least halves, so its own value bounds the turns. *)
Fixpoint up_loop (fuel : nat) (items : list T) (j : Z) : go (list T) :=
  match fuel with
  | O => Ret items
  | S fuel =>
      let i := Z.quot (j - 1) 2 in
      if i =? j then Ret items
      else
        l ← lessAt items j i;
        if negb l : bool then Ret items
        else items ← swap items i j; up_loop fuel items i
  end.

Definition up (items : list T) (j : Z) : go (list T) := up_loop (S (Z.to_nat j)) items j.

(** [down] also reports whether the element moved; the index at least doubles. *)
Fixpoint down_loop (fuel : nat) (items : list T) (i n : Z) : go (list T * Z) :=
  match fuel with
  | O => Ret (items, i)
  | S fuel =>
      let j1 := 2 * i + 1 in
      if (n <=? j1) || (j1 <? 0) then Ret (items, i)
      else
        let j2 := j1 + 1 in
        l2 ← (if j2 <? n then lessAt items j2 j1 else Ret false);
        let j := if l2 : bool then j2 else j1 in
        l ← lessAt items j i;
        if negb l : bool then Ret (items, i)
        else items ← swap items i j; down_loop fuel items j n
  end.

Definition down (items : list T) (i0 n : Z) : go (list T * bool) :=
  '(items, i) ← down_loop (S (Z.to_nat n)) items i0 n;
  Ret (items, i0 <? i).

(** ** Queue operations *)

Definition Len (items : list T) : Z := Z.of_nat (length items).

Definition Push (items : list T) (item : T) : go (list T) :=
  let items := items ++ [item] in
  up items (Len items - 1).

(** [q.items[:n-1]], after the slot is cleared. *)
Definition truncate (items : list T) (n : Z) : list T := take (Z.to_nat n) items.

Definition Pop (items : list T) : go (list T * T) :=
  let n := Len items in
  items ← swap items 0 (n - 1);
  '(items, _) ← down items 0 (n - 1);
  item ← index items (n - 1);
  Ret (truncate items (n - 1), item).

Definition Peek (items : list T) : go T := index items 0.

Definition PushPop (items : list T) (item : T) : go (list T * T) :=
  if Len items <=? 0 then Ret (items, item)
  else
    top ← index items 0;
    if less top item then
      items ← set_index items 0 item;
      '(items, _) ← down items 0 (Len items);
      Ret (items, top)
    else Ret (items, item).

Definition Remove (items : list T) (i : Z) : go (list T * T) :=
  let n := Len items in
  items ← (if i =? n - 1 then Ret items
           else items ← swap items i (n - 1);
                '(items, _) ← down items i (n - 1);
                up items i);
  item ← index items (n - 1);
  Ret (truncate items (n - 1), item).

Definition Update (items : list T) (i : Z) : go (list T) :=
  '(items, moved) ← down items i (Len items);
  if moved : bool then Ret items else up items i.

Definition At (items : list T) (i : Z) : go T := index items i.
Definition Items (items : list T) : list T := items.

(** [SyncQueue] guards the panicking operations with the length. *)
Definition SyncPop (items : list T) : go (list T * option T) :=
  if Len items =? 0 then Ret (items, None)
  else '(items, x) ← Pop items; Ret (items, Some x).

Definition SyncPeek (items : list T) : go (option T) :=
  if Len items =? 0 then Ret None else x ← Peek items; Ret (Some x).

End queue.

(** * Heap order *)

(** The comparator is a strict weak order: irreflexive, transitive, and with
    transitive incomparability ([a.Priority < b.Priority] is one). *)
Class StrictWeak {T} (less : T -> T -> bool) : Prop := {
  less_irrefl a : less a a = false;
  less_trans a b c : less a b = true -> less b c = true -> less a c = true;
  notless_trans a b c : less b a = false -> less c b = false -> less c a = false
}.

Section heap.
Context {T : Type} (less : T -> T -> bool) `{!StrictWeak less}.

(** [leq a b]: [b] does not come strictly before [a]. *)
Definition leq (a b : T) : Prop := less b a = false.

Lemma leq_refl a : leq a a.
Proof. apply less_irrefl. Qed.
Lemma leq_trans a b c : leq a b -> leq b c -> leq a c.
Proof. unfold leq. apply notless_trans. Qed.
Lemma less_leq a b : less a b = true -> leq a b.
Proof.
  unfold leq. intros H. destruct (less b a) eqn:E; [|done].
  pose proof (less_trans a b a H E) as Haa. by rewrite less_irrefl in Haa.
Qed.

(** Parent of a position other than the root. *)
Definition parent (i : nat) : nat := ((i - 1) / 2)%nat.

Lemma parent_lt i : (0 < i)%nat -> (parent i < i)%nat.
Proof. unfold parent. intros. apply Nat.Div0.div_lt_upper_bound; lia. Qed.

Lemma parent_quot i : (0 < i)%nat -> Z.quot (Z.of_nat i - 1) 2 = Z.of_nat (parent i).
Proof.
  intros. unfold parent. rewrite Z.quot_div_nonneg by lia.
  rewrite Nat2Z.inj_div, Nat2Z.inj_sub by lia. done.
Qed.

Lemma parent_children i c : (0 < c)%nat ->
  parent c = i <-> c = (2 * i + 1)%nat \/ c = (2 * i + 2)%nat.
Proof.
  unfold parent. intros. pose proof (Nat.div_mod_eq (c - 1) 2).
  pose proof (Nat.mod_upper_bound (c - 1) 2). lia.
Qed.

(** The order between a slot and its parent. *)
Definition edge_ok (l : list T) (i : nat) : Prop :=
  forall a b, l !! parent i = Some a -> l !! i = Some b -> leq a b.

(** Heap order on the first [n] slots. *)
Definition heapN (n : nat) (l : list T) : Prop := forall i, (0 < i < n)%nat -> edge_ok l i.
Definition heap (l : list T) : Prop := heapN (length l) l.

(** The root of a heap is minimal. *)
Lemma heap_root l i a b : heap l -> l !! 0%nat = Some a -> l !! i = Some b -> leq a b.
Proof.
  intros Hh Ha. revert b. induction (lt_wf i) as [i _ IH]. intros b Hb.
  destruct i as [|i]; [rewrite Ha in Hb; injection Hb as ->; apply leq_refl|].
  pose proof (lookup_lt_Some _ _ _ Hb). pose proof (parent_lt (S i) ltac:(lia)).
  destruct (lookup_lt_is_Some_2 l (parent (S i))) as [p Hp]; [lia|].
  apply (leq_trans _ p).
  - by eapply IH.
  - by apply (Hh (S i) ltac:(lia)).
Qed.

(** ** Swapping *)

Definition swapN (l : list T) (i j : nat) : list T :=
  match l !! i, l !! j with
  | Some a, Some b => <[j := a]> (<[i := b]> l)
  | _, _ => l
  end.

Lemma swap_swapN l i j : (i < length l)%nat -> (j < length l)%nat ->
  swap l (Z.of_nat i) (Z.of_nat j) = Ret (swapN l i j).
Proof.
  intros Hi Hj. unfold swap, swapN.
  destruct (lookup_lt_is_Some_2 l i Hi) as [a Ha].
  destruct (lookup_lt_is_Some_2 l j Hj) as [b Hb].
  rewrite (index_lookup l i a Ha), (index_lookup l j b Hb), Ha, Hb. simpl.
  rewrite set_index_lt by done. simpl. rewrite set_index_lt by (by rewrite length_insert). done.
Qed.

Lemma length_swapN l i j : length (swapN l i j) = length l.
Proof. unfold swapN. repeat case_match; by rewrite ?length_insert. Qed.

Lemma swapN_perm l i j : swapN l i j ≡ₚ l.
Proof.
  unfold swapN. destruct (l !! i) as [a|] eqn:Ha; [|done].
  destruct (l !! j) as [b|] eqn:Hb; [|done]. by apply Permutation_insert_swap.
Qed.

Lemma lookup_swapN l i j k : (i < length l)%nat -> (j < length l)%nat ->
  swapN l i j !! k = if decide (k = i) then l !! j else if decide (k = j) then l !! i else l !! k.
Proof.
  intros Hi Hj. unfold swapN.
  destruct (lookup_lt_is_Some_2 l i Hi) as [a Ha].
  destruct (lookup_lt_is_Some_2 l j Hj) as [b Hb]. rewrite Ha, Hb.
  destruct (decide (k = j)) as [->|].
  - rewrite list_lookup_insert_eq by (by rewrite length_insert).
    case_decide; [|done]. subst. congruence.
  - rewrite list_lookup_insert_ne by done. case_decide; [subst; by apply list_lookup_insert_eq|].
    by rewrite list_lookup_insert_ne.
Qed.

(** ** The hole invariant *)

(** Heap order everywhere except on the edges at slot [i], whose children are
    already in order with its parent. *)
Definition hole (n : nat) (l : list T) (i : nat) : Prop :=
  (forall k, (0 < k < n)%nat -> k <> i -> parent k <> i -> edge_ok l k) /\
  ((0 < i)%nat -> forall c a b, (0 < c < n)%nat -> parent c = i ->
     l !! parent i = Some a -> l !! c = Some b -> leq a b).

Definition children_ok (n : nat) (l : list T) (i : nat) : Prop :=
  forall c, (0 < c < n)%nat -> parent c = i -> edge_ok l c.
Definition parent_ok (l : list T) (i : nat) : Prop := (0 < i)%nat -> edge_ok l i.

Lemma hole_heap n l i : hole n l i -> children_ok n l i -> parent_ok l i -> heapN n l.
Proof.
  intros [Hk _] Hc Hp k Hkn. destruct (decide (k = i)) as [->|]; [apply Hp; lia|].
  destruct (decide (parent k = i)) as [E|]; [by apply Hc|by apply Hk].
Qed.

(** [less] as read by the loops at valid slots. *)
Lemma lessAt_lookup l i j a b : l !! i = Some a -> l !! j = Some b ->
  lessAt less l (Z.of_nat i) (Z.of_nat j) = Ret (less a b).
Proof.
  intros Ha Hb. unfold lessAt. by rewrite (index_lookup _ _ _ Ha), (index_lookup _ _ _ Hb).
Qed.

Lemma up_step n l j a b : (0 < j < n)%nat -> (n <= length l)%nat ->
  hole n l j -> children_ok n l j ->
  l !! parent j = Some a -> l !! j = Some b -> less b a = true ->
  hole n (swapN l (parent j) j) (parent j) /\ children_ok n (swapN l (parent j) j) (parent j).
Proof.
  intros Hj Hn [Hk Hg] Hc Ha Hb Hlt. pose proof (parent_lt j ltac:(lia)) as Hpj.
  assert (Hl: forall k, swapN l (parent j) j !! k =
    if decide (k = parent j) then Some b else if decide (k = j) then Some a else l !! k).
  { intros. rewrite lookup_swapN by lia. by rewrite Ha, Hb. }
  assert (Hsib: forall c v, (0 < c < n)%nat -> c <> j -> parent c = parent j -> l !! c = Some v -> leq a v).
  { intros c v Hcn Hne Hpc Hv. refine (Hk c Hcn Hne _ a v _ Hv); [lia|]. by rewrite Hpc. }
  split; [split|].
  - intros k Hkn Hne Hpk x y. rewrite !Hl.
    rewrite (decide_False (P := k = parent j)), (decide_False (P := parent k = parent j)) by done.
    pose proof (parent_lt k ltac:(lia)).
    destruct (decide (k = j)) as [->|Hkj]; [congruence|].
    destruct (decide (parent k = j)) as [Hpk'|Hpk'].
    + intros [= <-] Hy. by apply (Hg ltac:(lia) k).
    + intros. by apply (Hk k).
  - intros Hp c x y Hcn Hpc. rewrite !Hl. pose proof (parent_lt (parent j) Hp).
    pose proof (parent_lt c ltac:(lia)).
    rewrite (decide_False (P := parent (parent j) = parent j)),
      (decide_False (P := parent (parent j) = j)), (decide_False (P := c = parent j)) by lia.
    intros Hx Hy. assert (leq x a) as Hxa
      by (refine (Hk (parent j) _ _ _ x a Hx Ha); lia).
    destruct (decide (c = j)); [congruence|]. apply (leq_trans _ a); [done|].
    by apply (Hsib c).
  - intros c Hcn Hpc x y. rewrite !Hl, Hpc. pose proof (parent_lt c ltac:(lia)).
    rewrite decide_True, (decide_False (P := c = parent j)) by lia.
    intros [= <-] Hy. destruct (decide (c = j)).
    + injection Hy as <-. by apply less_leq.
    + apply (leq_trans _ a); [by apply less_leq|]. by apply (Hsib c).
Qed.

(** [up] restores the heap order and permutes the slots up to [j]. *)
Lemma up_correct n fuel : forall l j, (j < fuel)%nat -> (j < n)%nat -> (n <= length l)%nat ->
  hole n l j -> children_ok n l j ->
  exists l', up_loop less fuel l (Z.of_nat j) = Ret l' /\ heapN n l' /\ l' ≡ₚ l /\
    (forall k, (n <= k)%nat -> l' !! k = l !! k).
Proof.
  induction fuel as [|fuel IH]; intros l j Hf Hj Hn Hh Hc; [lia|]. simpl.
  destruct j as [|j0].
  { simpl. exists l. split; [done|]. split; [|done].
    apply (hole_heap n l 0); [done..|]. intros ?. lia. }
  set (j := S j0) in *. rewrite parent_quot by lia.
  pose proof (parent_lt j ltac:(lia)) as Hpj.
  destruct (Z.eqb_spec (Z.of_nat (parent j)) (Z.of_nat j)); [lia|].
  destruct (lookup_lt_is_Some_2 l (parent j)) as [a Ha]; [lia|].
  destruct (lookup_lt_is_Some_2 l j) as [b Hb]; [lia|].
  rewrite (lessAt_lookup l j (parent j) b a) by done. simpl.
  destruct (less b a) eqn:Hlt; simpl.
  - rewrite swap_swapN by lia. simpl.
    destruct (up_step n l j a b) as [Hh' Hc']; try done; [lia|].
    destruct (IH (swapN l (parent j) j) (parent j)) as (l'&->&?&Hp&Hk);
      rewrite ?length_swapN; try done; try lia.
    exists l'. split; [done|]. split; [done|]. split.
    + etrans; [done|]. apply swapN_perm.
    + intros k Hnk. rewrite Hk, lookup_swapN by lia. by rewrite !decide_False by lia.
  - exists l. split; [done|]. split; [|done]. apply (hole_heap n l j); try done.
    intros _ x y Hx Hy. rewrite Ha in Hx. rewrite Hb in Hy. by simplify_eq.
Qed.

Lemma down_step n l i c x y : (n <= length l)%nat -> (0 < c < n)%nat -> parent c = i ->
  hole n l i -> l !! i = Some x -> l !! c = Some y -> less y x = true ->
  (forall c' z, (0 < c' < n)%nat -> parent c' = i -> l !! c' = Some z -> leq y z) ->
  hole n (swapN l i c) c /\ parent_ok (swapN l i c) c.
Proof.
  intros Hn Hc Hpc [Hk Hg] Hx Hy Hlt Hmin. pose proof (parent_lt c ltac:(lia)) as Hic.
  assert (Hl: forall k, swapN l i c !! k =
    if decide (k = i) then Some y else if decide (k = c) then Some x else l !! k).
  { intros. rewrite lookup_swapN by lia. by rewrite Hx, Hy. }
  split; [split|].
  - intros k Hkn Hne Hpk u v. rewrite !Hl. rewrite (decide_False (P := k = c)) by done.
    rewrite (decide_False (P := parent k = c)) by done. pose proof (parent_lt k ltac:(lia)).
    destruct (decide (parent k = i)) as [Hpi|Hpi], (decide (k = i)) as [->|Hki].
    + lia.
    + intros [= <-] Hv. by apply (Hmin k).
    + intros Hu [= <-]. by apply (Hg ltac:(lia) c).
    + intros. by apply (Hk k).
  - intros _ c' u v Hc' Hpc'. rewrite !Hl, Hpc. pose proof (parent_lt c' ltac:(lia)).
    rewrite decide_True by done. rewrite !decide_False by lia. intros [= <-] Hv.
    assert (leq y v); [|done]. refine (Hk c' Hc' _ _ y v _ Hv); [lia|lia|by rewrite Hpc'].
  - intros _ u v. rewrite !Hl, Hpc. rewrite (decide_True (P := i = i)) by done.
    rewrite (decide_False (P := c = i)), decide_True by lia. intros [= <-] [= <-].
    by apply less_leq.
Qed.

(** [down] moves the element to where its children follow it; if it moved, the
    slot it left is in order with its parent too. *)
Lemma down_correct n fuel : forall l i, (n - i < fuel)%nat -> (i < n)%nat -> (n <= length l)%nat ->
  hole n l i ->
  exists l' i', down_loop less fuel l (Z.of_nat i) (Z.of_nat n) = Ret (l', Z.of_nat i') /\
    (i <= i')%nat /\ l' ≡ₚ l /\ (forall k, (n <= k)%nat -> l' !! k = l !! k) /\
    (i' = i -> l' = l /\ children_ok n l i) /\
    ((i < i')%nat \/ parent_ok l i -> heapN n l').
Proof.
  induction fuel as [|fuel IH]; intros l i Hf Hi Hn Hh; [lia|]. simpl.
  assert (Hstop: children_ok n l i -> exists l' i', Ret (l, Z.of_nat i) = Ret (l', Z.of_nat i') /\
    (i <= i')%nat /\ l' ≡ₚ l /\ (forall k, (n <= k)%nat -> l' !! k = l !! k) /\
    (i' = i -> l' = l /\ children_ok n l i) /\ ((i < i')%nat \/ parent_ok l i -> heapN n l')).
  { intros Hc. exists l, i. repeat split; try done. intros [?|Hp]; [lia|].
    by apply (hole_heap n l i). }
  destruct ((Z.of_nat n <=? 2 * Z.of_nat i + 1) || (2 * Z.of_nat i + 1 <? 0)) eqn:Eb.
  { apply Hstop. apply orb_true_iff in Eb. rewrite Z.leb_le, Z.ltb_lt in Eb.
    intros c Hc Hpc%parent_children; [|lia]. lia. }
  bool_prop. set (j1 := (2 * i + 1)%nat).
  replace (2 * Z.of_nat i + 1) with (Z.of_nat j1) by lia.
  replace (Z.of_nat j1 + 1) with (Z.of_nat (j1 + 1)) by lia.
  destruct (lookup_lt_is_Some_2 l i) as [x Hx]; [lia|].
  destruct (lookup_lt_is_Some_2 l j1) as [y1 Hy1]; [lia|].
  (* the smaller child *)
  assert (exists c y l2,
    (if Z.of_nat (j1 + 1) <? Z.of_nat n
     then lessAt less l (Z.of_nat (j1 + 1)) (Z.of_nat j1) else Ret false) = Ret l2 /\
    (if l2 : bool then Z.of_nat (j1 + 1) else Z.of_nat j1) = Z.of_nat c /\
    (0 < c < n)%nat /\ parent c = i /\ l !! c = Some y /\
    forall c' z, (0 < c' < n)%nat -> parent c' = i -> l !! c' = Some z -> leq y z)
    as (c&y&l2&E1&E2&Hc&Hpc&Hy&Hmin).
  { destruct (Z.ltb_spec (Z.of_nat (j1 + 1)) (Z.of_nat n)).
    - destruct (lookup_lt_is_Some_2 l (j1 + 1)) as [y2 Hy2]; [lia|].
      rewrite (lessAt_lookup l (j1 + 1) j1 y2 y1) by done.
      destruct (less y2 y1) eqn:Hlt.
      + exists (j1 + 1)%nat, y2, true. do 3 (split; [done || lia|]).
        split; [apply parent_children; lia|]. split; [done|].
        intros c' z Hc' [->| ->]%parent_children Hz; [| |lia].
        * fold j1 in Hz. rewrite Hy1 in Hz. injection Hz as <-. by apply less_leq.
        * replace (2 * i + 2)%nat with (j1 + 1)%nat in Hz by lia. rewrite Hy2 in Hz.
          injection Hz as <-. apply leq_refl.
      + exists j1, y1, false. do 3 (split; [done || lia|]).
        split; [apply parent_children; lia|]. split; [done|].
        intros c' z Hc' [->| ->]%parent_children Hz; [| |lia].
        * fold j1 in Hz. rewrite Hy1 in Hz. injection Hz as <-. apply leq_refl.
        * replace (2 * i + 2)%nat with (j1 + 1)%nat in Hz by lia. rewrite Hy2 in Hz.
          by injection Hz as <-.
    - exists j1, y1, false. do 3 (split; [done || lia|]).
      split; [apply parent_children; lia|]. split; [done|].
      intros c' z Hc' [->| ->]%parent_children Hz; [|lia|lia].
      fold j1 in Hz. rewrite Hy1 in Hz. injection Hz as <-. apply leq_refl. }
  rewrite E1. simpl. rewrite E2, (lessAt_lookup l c i y x) by done. simpl.
  pose proof (parent_lt c ltac:(lia)).
  destruct (less y x) eqn:Hlt; simpl.
  - rewrite swap_swapN by lia. simpl.
    destruct (down_step n l i c x y) as [Hh' Hp']; try done.
    destruct (IH (swapN l i c) c) as (l'&i'&->&Hle&Hperm&Hk&_&Hheap);
      rewrite ?length_swapN; try done; try lia.
    exists l', i'. split; [done|]. split; [lia|]. split; [etrans; [done|]; apply swapN_perm|].
    split; [|split; [lia|intros _; apply Hheap; by right]].
    intros k Hnk. rewrite Hk, lookup_swapN by lia. by rewrite !decide_False by lia.
  - apply Hstop. intros c' Hc' Hpc' u v Hu Hv. rewrite Hpc' in Hu.
    assert (u = x) as -> by congruence. apply (leq_trans _ y); [done|]. by apply (Hmin c').
Qed.

(** ** Queue operations *)

Lemma down_spec n l i : (i < n)%nat -> (n <= length l)%nat -> hole n l i ->
  exists l' moved, down less l (Z.of_nat i) (Z.of_nat n) = Ret (l', moved) /\
    l' ≡ₚ l /\ (forall k, (n <= k)%nat -> l' !! k = l !! k) /\
    (moved = false -> l' = l /\ children_ok n l i) /\
    (moved = true \/ parent_ok l i -> heapN n l').
Proof.
  intros Hi Hn Hh. unfold down. rewrite Nat2Z.id.
  destruct (down_correct n (S n) l i ltac:(lia) Hi Hn Hh) as (l'&i'&->&?&?&?&Hs&Hheap).
  simpl. eexists l', _. split; [done|]. split; [done|]. split; [done|].
  destruct (Z.ltb_spec (Z.of_nat i) (Z.of_nat i')); split; try done.
  - intros _. apply Hheap. left. lia.
  - intros _. apply Hs. lia.
  - intros [?|?]; [done|]. apply Hheap. by right.
Qed.

Lemma heapN_take n l l' : (forall k, (k < n)%nat -> l !! k = l' !! k) -> heapN n l -> heapN n l'.
Proof.
  intros Heq Hh i Hi a b. pose proof (parent_lt i ltac:(lia)).
  rewrite <- !Heq by lia. by apply Hh.
Qed.

Lemma heap_take n l : heapN n l -> (n <= length l)%nat -> heap (take n l).
Proof.
  intros Hh Hn. unfold heap. rewrite length_take, Nat.min_l by done.
  eapply heapN_take; [|done]. intros. by rewrite lookup_take_lt.
Qed.

Lemma heap_perm l l' : l' ≡ₚ l -> heapN (length l) l' -> heap l'.
Proof. intros Hp. unfold heap. by rewrite (Permutation_length Hp). Qed.

Lemma heap_hole_insert l i v : heap l -> hole (length l) (<[i := v]> l) i.
Proof.
  intros Hh. split.
  - intros k Hk Hne Hpk a b. rewrite !list_lookup_insert_ne by done. by apply Hh.
  - intros Hi c a b Hc Hpc. pose proof (parent_lt i Hi). pose proof (parent_lt c ltac:(lia)).
    rewrite !list_lookup_insert_ne by lia. intros Ha Hb.
    destruct (lookup_lt_is_Some_2 l i) as [m Hm]; [lia|].
    apply (leq_trans _ m); [by apply (Hh i ltac:(lia))|].
    apply (Hh c Hc); [by rewrite Hpc|done].
Qed.

(** Taking the last slot off a list that ends in [x]. *)
Lemma take_last_perm (l l0 : list T) n x : l ≡ₚ l0 -> length l0 = S n -> l !! n = Some x ->
  x :: take n l ≡ₚ l0.
Proof.
  intros Hp Hlen Hx. rewrite <- Hp. apply Permutation_length in Hp.
  rewrite <- (take_drop n l) at 2. rewrite (drop_S l x n) by done.
  rewrite (drop_ge l (S n)) by lia. by rewrite <- Permutation_cons_append.
Qed.

Lemma Push_heap l x : heap l -> exists l', Push less l x = Ret l' /\ heap l' /\ l' ≡ₚ x :: l.
Proof.
  intros Hh. unfold Push, Len, up.
  replace (Z.of_nat (length (l ++ [x])) - 1) with (Z.of_nat (length l)) by
    (rewrite length_app; simpl; lia).
  rewrite Nat2Z.id.
  assert (hole (S (length l)) (l ++ [x]) (length l)) as Hhole.
  { split.
    - intros k Hk Hne Hpk a b. pose proof (parent_lt k ltac:(lia)).
      rewrite !lookup_app_l by lia. apply Hh; lia.
    - intros _ c a b Hc Hpc. pose proof (parent_lt c ltac:(lia)). lia. }
  assert (children_ok (S (length l)) (l ++ [x]) (length l)) as Hc.
  { intros c Hc Hpc. pose proof (parent_lt c ltac:(lia)). lia. }
  destruct (up_correct (S (length l)) (S (length l)) (l ++ [x]) (length l))
    as (l'&->&Hh'&Hp&_); try done; rewrite ?length_app; simpl; try lia.
  exists l'. split; [done|]. split.
  - apply (heap_perm (l ++ [x])); [done|]. rewrite length_app. simpl. by rewrite Nat.add_1_r.
  - by rewrite Hp, <- Permutation_cons_append.
Qed.

Lemma Pop_heap l : heap l -> l <> [] ->
  exists l' x, Pop less l = Ret (l', x) /\ heap l' /\ x :: l' ≡ₚ l /\ l !! 0%nat = Some x.
Proof.
  intros Hh Hne. destruct l as [|x l0]; [done|]. set (l := x :: l0) in *. set (n := length l0).
  unfold Pop, Len. replace (Z.of_nat (length l) - 1) with (Z.of_nat n) by (simpl; lia).
  change 0 with (Z.of_nat 0). rewrite swap_swapN by (simpl; lia). simpl mbind.
  assert (Hl: swapN l 0 n !! n = Some x).
  { rewrite lookup_swapN by (simpl; lia). destruct (decide (n = 0%nat)) as [E|E].
    - by rewrite E.
    - by rewrite (decide_True (P := n = n)). }
  assert (Hmid: forall k, (0 < k < n)%nat -> swapN l 0 n !! k = l !! k).
  { intros. rewrite lookup_swapN by (simpl; lia). by rewrite !decide_False by lia. }
  assert (exists l' moved, down less (swapN l 0 n) (Z.of_nat 0) (Z.of_nat n) = Ret (l', moved) /\
    l' ≡ₚ l /\ l' !! n = Some x /\ heapN n l') as (l'&moved&->&Hp&Hx&Hh').
  { assert (length (swapN l 0 n) = S n) as Hlen by apply length_swapN.
    destruct (decide (n = 0%nat)) as [E|E].
    - exists (swapN l 0 n), false. split; [by rewrite E|]. split; [apply swapN_perm|].
      split; [done|]. intros k Hk. lia.
    - destruct (down_spec n (swapN l 0 n) 0) as (l'&moved&->&Hp&Hk&_&Hheap); [lia|lia|..].
      + split; [|lia]. intros k Hk Hne' Hpk a b. pose proof (parent_lt k ltac:(lia)).
        rewrite !Hmid by lia. apply Hh. simpl. lia.
      + exists l', moved. split; [done|]. split; [by rewrite Hp, swapN_perm|].
        split; [by rewrite Hk by lia|]. apply Hheap. right. intros ?; lia. }
  simpl. rewrite (index_lookup l' n x Hx). simpl.
  exists (take n l'), x. unfold truncate. rewrite Nat2Z.id. split; [done|]. split.
  - apply heap_take; [done|]. rewrite Hp. simpl. lia.
  - split; [|done]. by apply take_last_perm.
Qed.

(** C5: on a heap, [Push] inserts and keeps the heap order; [Pop] panics when the
    queue is empty and otherwise returns an element that no other element comes
    before, leaving exactly the others, in heap order. *)
Theorem queue_Push_Pop l x : heap l ->
  (exists l', Push less l x = Ret l' /\ heap l' /\ l' ≡ₚ x :: l) /\
  match l with
  | [] => exists msg, Pop less l = Panic msg
  | _ => exists l' m, Pop less l = Ret (l', m) /\ heap l' /\ m :: l' ≡ₚ l /\
      forall y, y ∈ l -> less y m = false
  end.
Proof.
  intros Hh. split; [by apply Push_heap|].
  destruct l as [|y l0]; [by eexists|].
  destruct (Pop_heap (y :: l0) Hh) as (l'&m&Hpop&Hh'&Hp&Hm); [done|].
  exists l', m. split; [done|]. split; [done|]. split; [done|].
  intros z [i Hi]%list_elem_of_lookup. by apply (heap_root (y :: l0) i m z).
Qed.

(** [PushPop] is [Push] followed by [Pop]: it returns a least element of the
    queue together with the new item and leaves the rest in heap order. *)
Theorem queue_PushPop l x : heap l -> exists l' m, PushPop less l x = Ret (l', m) /\
  heap l' /\ m :: l' ≡ₚ x :: l /\ (forall y, y ∈ x :: l -> less y m = false).
Proof.
  intros Hh. unfold PushPop, Len. destruct l as [|t l0].
  { exists [], x. repeat split; [done..|]. intros y ->%list_elem_of_singleton. apply less_irrefl. }
  set (l := t :: l0) in *.
  destruct (Z.leb_spec (Z.of_nat (length l)) 0) as [Hz|_]; [simpl in Hz; lia|].
  change (index l 0) with (Ret t). cbn [mbind go_bind].
  assert (Hroot: forall y, y ∈ l -> leq t y).
  { intros y [i Hi]%list_elem_of_lookup. by apply (heap_root l i t y). }
  destruct (less t x) eqn:Hlt.
  - change (set_index l 0 x) with (set_index l (Z.of_nat 0) x).
    rewrite set_index_lt by (simpl; lia). cbn [mbind go_bind].
    destruct (down_spec (length l) (<[0%nat := x]> l) 0) as (l'&moved&Hd&Hp&_&_&Hheap);
      rewrite ?length_insert; [simpl; lia|lia|by apply heap_hole_insert|].
    change (Z.of_nat 0) with 0 in Hd. rewrite Hd. cbn [mbind go_bind].
    exists l', t. split; [done|]. split; [|split].
    + apply (heap_perm (<[0%nat := x]> l)); [done|]. rewrite length_insert.
      apply Hheap. right. intros ?; lia.
    + rewrite Hp. simpl. apply Permutation_swap.
    + intros y [->|Hy]%elem_of_cons; [by apply less_leq|by apply Hroot].
  - exists l, x. split; [done|]. split; [done|]. split; [done|].
    intros y [->|Hy]%elem_of_cons; [apply less_irrefl|].
    apply (leq_trans _ t); [done|by apply Hroot].
Qed.

(** Taking the last element into place [i] opens a hole there. *)
Lemma swapN_hole l i n x : heap l -> l !! i = Some x -> (i < n)%nat -> n = (length l - 1)%nat ->
  hole n (swapN l i n) i.
Proof.
  intros Hh Hx Hi Hlen.
  assert (Hl: forall k, (k < n)%nat -> k <> i -> swapN l i n !! k = l !! k).
  { intros. rewrite lookup_swapN by lia. by rewrite !decide_False by lia. }
  split.
  - intros k Hk Hne Hpk a b. pose proof (parent_lt k ltac:(lia)).
    rewrite !Hl by lia. apply Hh. lia.
  - intros Hpos c a b Hc Hpc. pose proof (parent_lt i Hpos).
    pose proof (parent_lt c ltac:(lia)). rewrite !Hl by lia. intros Ha Hb.
    apply (leq_trans _ x); [by apply (Hh i ltac:(lia))|].
    apply (Hh c ltac:(lia)); [by rewrite Hpc|done].
Qed.

Lemma heapN_hole n l i : heapN n l -> (i < n <= length l)%nat -> hole n l i /\ children_ok n l i.
Proof.
  intros Hheap Hi. split; [split|].
  - intros k Hk _ _. by apply Hheap.
  - intros Hpos c a b Hc Hpc Ha Hb. destruct (lookup_lt_is_Some_2 l i) as [m Hm]; [lia|].
    apply (leq_trans _ m); [by apply (Hheap i ltac:(lia))|].
    apply (Hheap c Hc); [by rewrite Hpc|done].
  - intros c Hc _. by apply Hheap.
Qed.

(** Sifting both ways after the swap of [Remove]. *)
Lemma remove_sift l i n x : heap l -> l !! i = Some x -> (i < n)%nat -> n = (length l - 1)%nat ->
  exists l', ('(items, _) ← down less (swapN l i n) (Z.of_nat i) (Z.of_nat n);
              up less items (Z.of_nat i)) = Ret l' /\ l' ≡ₚ l /\ l' !! n = Some x /\ heapN n l'.
Proof.
  intros Hh Hx Hi Hlen. pose proof (swapN_hole l i n x Hh Hx Hi Hlen) as Hhole.
  assert (swapN l i n !! n = Some x) as Hsn.
  { rewrite lookup_swapN by lia. rewrite decide_False, decide_True by lia. done. }
  destruct (down_spec n (swapN l i n) i) as (l1&moved&->&Hp1&Hk1&Hs1&Hh1);
    rewrite ?length_swapN; try done; try lia. simpl. unfold up. rewrite Nat2Z.id.
  assert (length l1 = length l) as Hlen1 by (by rewrite Hp1, length_swapN).
  assert (hole n l1 i /\ children_ok n l1 i) as [Hho1 Hc1].
  { destruct moved; [apply heapN_hole; [apply Hh1; by left|lia]|].
    destruct (Hs1 eq_refl) as [-> ?]. done. }
  destruct (up_correct n (S i) l1 i) as (l2&->&Hh2&Hp2&Hk2); try done; try lia.
  exists l2. split; [done|]. split; [by rewrite Hp2, Hp1, swapN_perm|].
  split; [|done]. by rewrite Hk2, Hk1 by lia.
Qed.

Lemma Remove_heap l i x : heap l -> l !! i = Some x ->
  exists l', Remove less l (Z.of_nat i) = Ret (l', x) /\ heap l' /\ x :: l' ≡ₚ l.
Proof.
  intros Hh Hx. pose proof (lookup_lt_Some _ _ _ Hx) as Hi.
  unfold Remove, Len. set (n := (length l - 1)%nat).
  replace (Z.of_nat (length l) - 1) with (Z.of_nat n) by lia.
  assert (exists l', (if Z.of_nat i =? Z.of_nat n then Ret l
    else items ← swap l (Z.of_nat i) (Z.of_nat n);
         '(items, _) ← down less items (Z.of_nat i) (Z.of_nat n);
         up less items (Z.of_nat i)) = Ret l' /\ l' ≡ₚ l /\ l' !! n = Some x /\ heapN n l')
    as (l'&->&Hp&Hn&Hh').
  { destruct (Z.eqb_spec (Z.of_nat i) (Z.of_nat n)) as [E|E].
    - exists l. assert (i = n) as -> by lia. repeat split; try done.
      intros k Hk. apply Hh. lia.
    - rewrite swap_swapN by lia. apply (remove_sift l i n x); try done; lia. }
  simpl. rewrite (index_lookup l' n x Hn). simpl. unfold truncate. rewrite Nat2Z.id.
  exists (take n l'). split; [done|]. split.
  - apply heap_take; [done|]. rewrite Hp. lia.
  - apply take_last_perm; [done|lia|done].
Qed.

Lemma Update_heap l i v : heap l -> (i < length l)%nat ->
  exists l', Update less (<[i := v]> l) (Z.of_nat i) = Ret l' /\ heap l' /\ l' ≡ₚ <[i := v]> l.
Proof.
  intros Hh Hi. unfold Update, Len. set (l1 := <[i := v]> l).
  assert (length l1 = length l) as Hlen by apply length_insert. rewrite Hlen.
  destruct (down_spec (length l) l1 i) as (l2&moved&->&Hp&_&Hs&Hheap);
    [lia|lia|by apply heap_hole_insert|]. simpl.
  destruct moved.
  - exists l2. split; [done|]. split; [|done]. apply (heap_perm l1); [done|]. rewrite Hlen.
    apply Hheap. by left.
  - destruct (Hs eq_refl) as [-> Hc]. unfold up. rewrite Nat2Z.id.
    destruct (up_correct (length l) (S i) l1 i) as (l3&->&Hh3&Hp3&_);
      try done; try lia; [by apply heap_hole_insert|].
    exists l3. split; [done|]. split; [|done]. apply (heap_perm l1); [done|]. by rewrite Hlen.
Qed.

(** [Remove i] takes out exactly the element at [i], and [Update i], after the
    element at [i] has been changed in any way, restores the heap order without
    losing an element. *)
Theorem queue_Remove_Update l i v x : heap l -> l !! i = Some x ->
  (exists l', Remove less l (Z.of_nat i) = Ret (l', x) /\ heap l' /\ x :: l' ≡ₚ l) /\
  (exists l', Update less (<[i := v]> l) (Z.of_nat i) = Ret l' /\ heap l' /\ l' ≡ₚ <[i := v]> l).
Proof.
  intros Hh Hx. split; [by apply Remove_heap|].
  apply Update_heap; [done|by apply (lookup_lt_Some _ _ x)].
Qed.

End heap.

#[export] Instance Zltb_strict_weak {A} (f : A -> Z) : StrictWeak (fun a b => f a <? f b).
Proof. split; intros *; rewrite ?Z.ltb_lt, ?Z.ltb_ge; lia. Qed.

Lemma queue_Push_Pop_witness :
  heap Z.ltb [1; 3; 2] /\ exists l', Pop Z.ltb [1; 3; 2] = Ret (l', 1).
Proof.
  assert (heap Z.ltb [1; 3; 2]) as H.
  { intros [|[|[|i]]] Hi; simpl in Hi; try lia; intros a b; simpl; intros [= <-] [= <-]; reflexivity. }
  split; [exact H|].
  destruct (@queue_Push_Pop Z Z.ltb (Zltb_strict_weak id) [1; 3; 2] 0 H) as [_ (l'&m&Hp&_)].
  exists l'. vm_compute in Hp |- *. congruence.
Defined.

Lemma queue_PushPop_witness :
  heap Z.ltb [1; 3; 2] /\ exists l', PushPop Z.ltb [1; 3; 2] 5 = Ret (l', 1).
Proof.
  assert (heap Z.ltb [1; 3; 2]) as H.
  { intros [|[|[|i]]] Hi; simpl in Hi; try lia; intros a b; simpl; intros [= <-] [= <-]; reflexivity. }
  split; [exact H|].
  destruct (@queue_PushPop Z Z.ltb (Zltb_strict_weak id) [1; 3; 2] 5 H) as (l'&m&Hp&_).
  exists l'. vm_compute in Hp |- *. congruence.
Defined.

Lemma queue_Remove_Update_witness :
  heap Z.ltb [1; 3; 2] /\ exists l', Remove Z.ltb [1; 3; 2] 1 = Ret (l', 3) /\ heap Z.ltb l'.
Proof.
  assert (heap Z.ltb [1; 3; 2]) as H.
  { intros [|[|[|i]]] Hi; simpl in Hi; try lia; intros a b; simpl; intros [= <-] [= <-]; reflexivity. }
  split; [exact H|].
  destruct (@queue_Remove_Update Z Z.ltb (Zltb_strict_weak id) [1; 3; 2] 1 7 3 H eq_refl)
    as [(l'&Hr&Hh&_) _].
  exists l'. split; [exact Hr|exact Hh].
Defined.
