(* ===== verification/Heap.v ===== *)
(** The binary heap of Go's [container/heap] over its interface, as the queues and the ranking
    use it. The loops are compared with those of [Priority] on the slice an implementation
    stands for, so an implementation has only to keep its own invariant under single swaps. *)
From Stdlib Require Import ZArith Lia Bool.
From stdpp Require Import base numbers strings list gmap.
From S2P Require Import Prelude Priority.

Open Scope Z_scope.

(** [heap.Interface]: the methods the algorithms call. *)
Class Interface (S X : Type) := {
  iLen : S -> Z;
  iLess : S -> Z -> Z -> go bool;
  iSwap : S -> Z -> Z -> go S;
  iPush : S -> X -> S;
  iPop : S -> go (S * X)
}.

Section algorithms.
Context {S X : Type} `{!Interface S X}.

Fixpoint hup_loop (fuel : nat) (h : S) (j : Z) : go S :=
  match fuel with
  | O => Ret h
  | Datatypes.S fuel =>
      let i := Z.quot (j - 1) 2 in
      if i =? j then Ret h
      else
        l ← iLess h j i;
        if negb l : bool then Ret h
        else h ← iSwap h i j; hup_loop fuel h i
  end.

Definition hup (h : S) (j : Z) : go S := hup_loop (Datatypes.S (Z.to_nat j)) h j.

Fixpoint hdown_loop (fuel : nat) (h : S) (i n : Z) : go (S * Z) :=
  match fuel with
  | O => Ret (h, i)
  | Datatypes.S fuel =>
      let j1 := 2 * i + 1 in
      if (n <=? j1) || (j1 <? 0) then Ret (h, i)
      else
        let j2 := j1 + 1 in
        l2 ← (if j2 <? n then iLess h j2 j1 else Ret false);
        let j := if l2 : bool then j2 else j1 in
        l ← iLess h j i;
        if negb l : bool then Ret (h, i)
        else h ← iSwap h i j; hdown_loop fuel h j n
  end.

Definition hdown (h : S) (i0 n : Z) : go (S * bool) :=
  '(h, i) ← hdown_loop (Datatypes.S (Z.to_nat n)) h i0 n; Ret (h, i0 <? i).

Fixpoint init_loop (k : nat) (h : S) (n : Z) : go S :=
  match k with
  | O => Ret h
  | Datatypes.S k => '(h, _) ← hdown h (Z.of_nat k) n; init_loop k h n
  end.

Definition hInit (h : S) : go S := init_loop (Z.to_nat (iLen h / 2)) h (iLen h).

Definition hPush (h : S) (x : X) : go S := let h := iPush h x in hup h (iLen h - 1).

Definition hPop (h : S) : go (S * X) :=
  let n := iLen h - 1 in
  h ← iSwap h 0 n;
  '(h, _) ← hdown h 0 n;
  iPop h.

Definition hRemove (h : S) (i : Z) : go (S * X) :=
  let n := iLen h - 1 in
  h ← (if n =? i then Ret h
       else h ← iSwap h i n;
            '(h, moved) ← hdown h i n;
            if moved : bool then Ret h else hup h i);
  iPop h.

Definition hFix (h : S) (i : Z) : go S :=
  '(h, moved) ← hdown h i (iLen h);
  if moved : bool then Ret h else hup h i.
End algorithms.

(** What an implementation owes: it stands for a slice, and its methods act on it. *)
Class Lawful {S X : Type} (less : X -> X -> bool) (I : Interface S X) := {
  elems : S -> list X;
  inv : S -> Prop;
  fresh : S -> X -> Prop;
  law_len h : iLen h = Z.of_nat (length (elems h));
  law_less h i j : inv h -> iLess h i j = lessAt less (elems h) i j;
  law_swap h i j : inv h -> (i < length (elems h))%nat -> (j < length (elems h))%nat ->
    exists h', iSwap h (Z.of_nat i) (Z.of_nat j) = Ret h' /\ inv h' /\ elems h' = swapN (elems h) i j;
  law_push h x : inv h -> fresh h x -> inv (iPush h x) /\ elems (iPush h x) = elems h ++ [x];
  law_pop h l x : inv h -> elems h = l ++ [x] ->
    exists h', iPop h = Ret (h', x) /\ inv h' /\ elems h' = l
}.

Section correctness.
Context {S X : Type} {less : X -> X -> bool} `{!StrictWeak less} {I : Interface S X} `{!Lawful less I}.
Implicit Types h : S.

Lemma swap_steps h i j l : inv h -> (i < length (elems h))%nat -> (j < length (elems h))%nat ->
  swap (elems h) (Z.of_nat i) (Z.of_nat j) = Ret l ->
  exists h', iSwap h (Z.of_nat i) (Z.of_nat j) = Ret h' /\ inv h' /\ elems h' = l.
Proof.
  intros Hi Hx Hy Hs. rewrite swap_swapN in Hs by done. injection Hs as <-. by apply law_swap.
Qed.

Lemma up_simulates fuel : forall h j l, inv h -> (j < length (elems h))%nat ->
  up_loop less fuel (elems h) (Z.of_nat j) = Ret l ->
  exists h', hup_loop fuel h (Z.of_nat j) = Ret h' /\ inv h' /\ elems h' = l.
Proof.
  induction fuel as [|fuel IH]; intros h j l Hi Hj Hu; cbn [up_loop hup_loop] in *.
  { injection Hu as <-. by exists h. }
  destruct (Z.eqb_spec (Z.quot (Z.of_nat j - 1) 2) (Z.of_nat j)) as [E|E].
  { injection Hu as <-. by exists h. }
  rewrite law_less by done. destruct (lessAt less (elems h) _ _) as [b|]; [|done]. cbn [mbind go_bind] in *.
  destruct (negb b). { injection Hu as <-. by exists h. }
  destruct j as [|j].
  { exfalso. change (Z.quot (Z.of_nat 0 - 1) 2) with 0 in E. by apply E. }
  rewrite parent_quot in Hu |- * by lia. pose proof (parent_lt (Datatypes.S j) ltac:(lia)).
  destruct (swap (elems h) _ _) as [l1|] eqn:Es; [|done]. cbn [mbind go_bind] in Hu.
  destruct (swap_steps h (parent (Datatypes.S j)) (Datatypes.S j) l1 Hi ltac:(lia) Hj Es) as (h1 & -> & Hi1 & <-). cbn [mbind go_bind].
  apply IH; [done| |done]. rewrite swap_swapN in Es by lia. injection Es as Es. rewrite <- Es, length_swapN. lia.
Qed.

Lemma down_simulates fuel : forall h i n l k, inv h -> (i < n)%nat -> (n <= length (elems h))%nat ->
  down_loop less fuel (elems h) (Z.of_nat i) (Z.of_nat n) = Ret (l, k) ->
  exists h', hdown_loop fuel h (Z.of_nat i) (Z.of_nat n) = Ret (h', k) /\ inv h' /\ elems h' = l.
Proof.
  induction fuel as [|fuel IH]; intros h i n l k Hi Hin Hn Hu; cbn [down_loop hdown_loop] in *.
  { injection Hu as <- <-. by exists h. }
  destruct ((_ <=? _) || _) eqn:E. { injection Hu as <- <-. by exists h. }
  rewrite !law_less by done. apply orb_false_iff in E as [E1 E2]. apply Z.leb_gt in E1.
  destruct (if 2 * Z.of_nat i + 1 + 1 <? Z.of_nat n then _ else _) as [b2|] eqn:E3; [|done].
  cbn [mbind go_bind] in *. rewrite law_less by done.
  set (j := if b2 then 2 * Z.of_nat i + 1 + 1 else 2 * Z.of_nat i + 1) in *.
  assert (exists j' : nat, j = Z.of_nat j' /\ (j' < n)%nat) as (j' & Ej & Hj).
  { unfold j. destruct b2.
    - destruct (Z.ltb_spec (2 * Z.of_nat i + 1 + 1) (Z.of_nat n)); [|by injection E3].
      exists (2 * i + 2)%nat. lia.
    - exists (2 * i + 1)%nat. lia. }
  rewrite Ej in *. clearbody j. subst j.
  destruct (lessAt less (elems h) _ (Z.of_nat i)) as [b|]; [|done]. cbn [mbind go_bind] in *.
  destruct (negb b). { injection Hu as <- <-. by exists h. }
  destruct (swap (elems h) _ _) as [l1|] eqn:Es; [|done]. cbn [mbind go_bind] in Hu.
  destruct (swap_steps h i j' l1 Hi ltac:(lia) ltac:(lia) Es) as (h1 & -> & Hi1 & <-). cbn [mbind go_bind].
  apply IH; try done. rewrite swap_swapN in Es by lia. injection Es as Es. rewrite <- Es, length_swapN. lia.
Qed.

(** [down] and [up] with what [Priority] proves about them. *)
Lemma hdown_spec h n i : inv h -> (i < n)%nat -> (n <= length (elems h))%nat -> hole less n (elems h) i ->
  exists h' moved, hdown h (Z.of_nat i) (Z.of_nat n) = Ret (h', moved) /\ inv h' /\
    elems h' ≡ₚ elems h /\ (forall k, (n <= k)%nat -> elems h' !! k = elems h !! k) /\
    (moved = false -> elems h' = elems h /\ children_ok less n (elems h) i) /\
    (moved = true \/ parent_ok less (elems h) i -> heapN less n (elems h')).
Proof.
  intros Hi Hin Hn Hh. destruct (down_spec less n (elems h) i Hin Hn Hh) as (l & moved & Hd & H).
  unfold down in Hd. unfold hdown. destruct (down_loop _ _ _ _ _) as [[l0 k]|] eqn:E; [|done].
  cbn in Hd. injection Hd as -> <-. destruct (down_simulates _ _ _ _ _ _ Hi Hin Hn E) as (h' & -> & Hi' & <-).
  cbn. exists h', (Z.of_nat i <? k). done.
Qed.

Lemma hup_spec h n j : inv h -> (j < n)%nat -> (n <= length (elems h))%nat ->
  hole less n (elems h) j -> children_ok less n (elems h) j ->
  exists h', hup h (Z.of_nat j) = Ret h' /\ inv h' /\ heapN less n (elems h') /\ elems h' ≡ₚ elems h /\
    (forall k, (n <= k)%nat -> elems h' !! k = elems h !! k).
Proof.
  intros Hi Hj Hn Hh Hc. unfold hup. rewrite Nat2Z.id.
  destruct (up_correct less n (Datatypes.S j) (elems h) j ltac:(lia) Hj Hn Hh Hc) as (l & Hu & H).
  destruct (up_simulates (Datatypes.S j) h j l Hi ltac:(lia) Hu) as (h' & -> & Hi' & <-). by exists h'.
Qed.

(** Whatever the order, [up] and [down] return, permute the first [n] slots and leave the others. *)
Lemma less_total h i j : inv h -> (i < length (elems h))%nat -> (j < length (elems h))%nat ->
  exists b, iLess h (Z.of_nat i) (Z.of_nat j) = Ret b.
Proof.
  intros Hi Hx Hy. rewrite law_less by done.
  destruct (lookup_lt_is_Some_2 _ _ Hx) as [a Ha], (lookup_lt_is_Some_2 _ _ Hy) as [b Hb].
  rewrite (lessAt_lookup _ _ _ _ a b Ha Hb). by eexists.
Qed.

Definition shuffles (n : nat) h h' : Prop :=
  inv h' /\ elems h' ≡ₚ elems h /\ forall k, (n <= k)%nat -> elems h' !! k = elems h !! k.

Lemma shuffles_swap n h i j : inv h -> (i < n)%nat -> (j < n)%nat -> (n <= length (elems h))%nat ->
  exists h', iSwap h (Z.of_nat i) (Z.of_nat j) = Ret h' /\ shuffles n h h'.
Proof.
  intros Hi Hx Hy Hn. destruct (law_swap h i j Hi ltac:(lia) ltac:(lia)) as (h' & -> & Hi' & He).
  exists h'. split; [done|]. split; [done|]. rewrite He. split; [apply swapN_perm|].
  intros k Hk. rewrite lookup_swapN by lia. by rewrite !decide_False by lia.
Qed.

Lemma shuffles_trans n h1 h2 h3 : shuffles n h1 h2 -> shuffles n h2 h3 -> shuffles n h1 h3.
Proof.
  intros (_&Hp&Hk) (Hi&Hp'&Hk'). split; [done|]. split; [by rewrite Hp'|]. intros k H. by rewrite Hk', Hk.
Qed.

Lemma shuffles_length n h h' : shuffles n h h' -> length (elems h') = length (elems h).
Proof. intros (_&Hp&_). by apply Permutation_length. Qed.

Lemma hup_shuffles fuel n : forall h j, inv h -> (j < n)%nat -> (n <= length (elems h))%nat ->
  exists h', hup_loop fuel h (Z.of_nat j) = Ret h' /\ shuffles n h h'.
Proof.
  induction fuel as [|fuel IH]; intros h j Hi Hj Hn; cbn [hup_loop]; [by exists h|].
  destruct (Z.eqb_spec (Z.quot (Z.of_nat j - 1) 2) (Z.of_nat j)) as [E|E]; [by exists h|].
  destruct j as [|j]; [exfalso; by apply E|].
  pose proof (parent_lt (Datatypes.S j) ltac:(lia)). rewrite parent_quot by lia.
  destruct (less_total h (Datatypes.S j) (parent (Datatypes.S j)) Hi) as [b ->]; [lia..|]. cbn [mbind go_bind].
  destruct (negb b); [by exists h|].
  destruct (shuffles_swap n h (parent (Datatypes.S j)) (Datatypes.S j) Hi) as (h1 & -> & H1); [lia..|].
  cbn [mbind go_bind]. pose proof (shuffles_length _ _ _ H1).
  destruct (IH h1 (parent (Datatypes.S j))) as (h2 & -> & H2); [apply H1|lia|lia|].
  exists h2. split; [done|]. by eapply shuffles_trans.
Qed.

Lemma hdown_shuffles fuel n : forall h i, inv h -> (i < n)%nat -> (n <= length (elems h))%nat ->
  exists h' k, hdown_loop fuel h (Z.of_nat i) (Z.of_nat n) = Ret (h', k) /\ shuffles n h h'.
Proof.
  induction fuel as [|fuel IH]; intros h i Hi Hin Hn; cbn [hdown_loop]; [by exists h, (Z.of_nat i)|].
  destruct ((_ <=? _) || _) eqn:E; [by exists h, (Z.of_nat i)|].
  apply orb_false_iff in E as [E1 _]. apply Z.leb_gt in E1.
  replace (2 * Z.of_nat i + 1) with (Z.of_nat (2 * i + 1)) in * by lia.
  replace (Z.of_nat (2 * i + 1) + 1) with (Z.of_nat (2 * i + 2)) in * by lia.
  assert (exists b, (if Z.of_nat (2 * i + 2) <? Z.of_nat n
    then iLess h (Z.of_nat (2 * i + 2)) (Z.of_nat (2 * i + 1)) else Ret false) = Ret b /\
    ((if b then Z.of_nat (2 * i + 2) else Z.of_nat (2 * i + 1)) < Z.of_nat n)) as (b2 & -> & Hb2).
  { destruct (Z.ltb_spec (Z.of_nat (2 * i + 2)) (Z.of_nat n)).
    - destruct (less_total h (2 * i + 2) (2 * i + 1) Hi) as [b ->]; [lia..|]. exists b. split; [done|]. by destruct b.
    - by exists false. }
  cbn [mbind go_bind].
  assert (exists j : nat, (if b2 then Z.of_nat (2 * i + 2) else Z.of_nat (2 * i + 1)) = Z.of_nat j) as (j & Ej)
    by (destruct b2; by eexists).
  rewrite Ej in *. destruct (less_total h j i Hi) as [b ->]; [lia..|]. cbn [mbind go_bind].
  destruct (negb b); [by exists h, (Z.of_nat i)|].
  destruct (shuffles_swap n h i j Hi) as (h1 & -> & H1); [lia..|]. cbn [mbind go_bind].
  pose proof (shuffles_length _ _ _ H1).
  destruct (IH h1 j) as (h2 & k & -> & H2); [apply H1|lia|lia|].
  exists h2, k. split; [done|]. by eapply shuffles_trans.
Qed.

Lemma hdown_returns h n i : inv h -> (i < n)%nat -> (n <= length (elems h))%nat ->
  exists h' moved, hdown h (Z.of_nat i) (Z.of_nat n) = Ret (h', moved) /\ shuffles n h h'.
Proof.
  intros Hi Hin Hn. unfold hdown.
  destruct (hdown_shuffles (Datatypes.S (Z.to_nat (Z.of_nat n))) n h i Hi Hin Hn) as (h' & k & -> & H).
  cbn. by eexists _, _.
Qed.

(** ** The operations, whatever the order *)

Lemma hInit_perm h : inv h -> exists h', hInit h = Ret h' /\ inv h' /\ elems h' ≡ₚ elems h.
Proof.
  intros Hi. unfold hInit. rewrite law_len.
  assert (forall k h0, inv h0 -> (k <= length (elems h))%nat -> elems h0 ≡ₚ elems h ->
    exists h', init_loop k h0 (Z.of_nat (length (elems h))) = Ret h' /\ inv h' /\ elems h' ≡ₚ elems h) as H.
  { induction k as [|k IH]; intros h0 H0 Hk Hp; cbn [init_loop]; [by exists h0|].
    pose proof (Permutation_length Hp).
    destruct (hdown_returns h0 (length (elems h)) k H0 ltac:(lia) ltac:(lia)) as (h1 & mv & -> & H1 & Hp1 & _).
    cbn [mbind go_bind]. apply IH; [done|lia|by rewrite Hp1]. }
  apply H; [done| |done]. pose proof (Z.div_le_upper_bound (Z.of_nat (length (elems h))) 2 (Z.of_nat (length (elems h)))). lia.
Qed.

Lemma hPush_perm h x : inv h -> fresh h x ->
  exists h', hPush h x = Ret h' /\ inv h' /\ elems h' ≡ₚ x :: elems h.
Proof.
  intros Hi Hf. destruct (law_push h x Hi Hf) as [Hi' He]. unfold hPush. rewrite law_len, He, length_app.
  cbn [length]. replace (Z.of_nat (length (elems h) + 1) - 1) with (Z.of_nat (length (elems h))) by lia. unfold hup.
  destruct (hup_shuffles (Datatypes.S (Z.to_nat (Z.of_nat (length (elems h))))) (Datatypes.S (length (elems h)))
    (iPush h x) (length (elems h)) Hi') as (h' & -> & H & Hp & _); [lia|rewrite He, length_app; simpl; lia|].
  exists h'. split; [done|]. split; [done|]. rewrite Hp, He. by rewrite <- Permutation_cons_append.
Qed.

Lemma hFix_perm h i : inv h -> (i < length (elems h))%nat ->
  exists h', hFix h (Z.of_nat i) = Ret h' /\ inv h' /\ elems h' ≡ₚ elems h.
Proof.
  intros Hi Hl. unfold hFix. rewrite law_len.
  destruct (hdown_returns h (length (elems h)) i Hi Hl ltac:(lia)) as (h1 & mv & -> & H1). cbn [mbind go_bind].
  pose proof (shuffles_length _ _ _ H1). destruct mv; [exists h1; by destruct H1 as (?&?&_)|]. unfold hup.
  destruct (hup_shuffles (Datatypes.S (Z.to_nat (Z.of_nat i))) (length (elems h)) h1 i) as (h2 & -> & H2);
    [apply H1|lia|lia|].
  destruct (shuffles_trans _ _ _ _ H1 H2) as (?&?&_). by exists h2.
Qed.

(** What [Pop] of the interface gives when the last slot is known. *)
Lemma iPop_last h n x l : inv h -> elems h ≡ₚ l -> length l = Datatypes.S n -> elems h !! n = Some x ->
  exists h', iPop h = Ret (h', x) /\ inv h' /\ elems h' = take n (elems h) /\ x :: elems h' ≡ₚ l.
Proof.
  intros Hi Hp Hl Hx. pose proof (Permutation_length Hp) as Hlen.
  assert (elems h = take n (elems h) ++ [x]) as He.
  { rewrite <- (take_drop n (elems h)) at 1. rewrite (drop_S _ _ _ Hx). by rewrite (drop_ge _ (Datatypes.S n)) by lia. }
  destruct (law_pop h _ _ Hi He) as (h' & -> & Hi' & He'). exists h'. split; [done|]. split; [done|]. split; [done|].
  rewrite He'. by apply take_last_perm.
Qed.

Lemma hRemove_perm h i x : inv h -> elems h !! i = Some x ->
  exists h', hRemove h (Z.of_nat i) = Ret (h', x) /\ inv h' /\ x :: elems h' ≡ₚ elems h.
Proof.
  intros Hi Hx. pose proof (lookup_lt_Some _ _ _ Hx) as Hl. unfold hRemove. rewrite law_len.
  set (n := (length (elems h) - 1)%nat). replace (Z.of_nat (length (elems h)) - 1) with (Z.of_nat n) by lia.
  assert (exists h', (if Z.of_nat n =? Z.of_nat i then Ret h
    else h ← iSwap h (Z.of_nat i) (Z.of_nat n);
         '(h, moved) ← hdown h (Z.of_nat i) (Z.of_nat n);
         if moved : bool then Ret h else hup h (Z.of_nat i)) = Ret h' /\ inv h' /\ elems h' ≡ₚ elems h /\
    elems h' !! n = Some x) as (h' & -> & Hi' & Hp & Hn).
  { destruct (Z.eqb_spec (Z.of_nat n) (Z.of_nat i)) as [E|E].
    { exists h. assert (n = i) as -> by lia. done. }
    destruct (law_swap h i n Hi Hl ltac:(lia)) as (h1 & -> & Hi1 & He1). cbn [mbind go_bind].
    assert (elems h1 !! n = Some x) as Hn1.
    { rewrite He1, lookup_swapN by lia. rewrite decide_False, decide_True by lia. done. }
    assert (length (elems h1) = length (elems h)) as Hl1 by (by rewrite He1, length_swapN).
    assert (elems h1 ≡ₚ elems h) as Hp1 by (rewrite He1; apply swapN_perm).
    destruct (hdown_returns h1 n i Hi1) as (h2 & mv & -> & H2); [lia..|]. cbn [mbind go_bind].
    pose proof (shuffles_length _ _ _ H2). destruct mv.
    - exists h2. split; [done|]. destruct H2 as (?&Hp2&Hk). split; [done|]. rewrite Hk, Hp2 by lia. done.
    - unfold hup. destruct (hup_shuffles (Datatypes.S (Z.to_nat (Z.of_nat i))) n h2 i) as (h3 & -> & H3);
        [apply H2|lia|lia|].
      destruct (shuffles_trans _ _ _ _ H2 H3) as (?&Hp3&Hk). exists h3. rewrite Hk, Hp3 by lia. done. }
  cbn [mbind go_bind]. destruct (iPop_last h' n x (elems h) Hi' Hp ltac:(lia) Hn) as (h2 & -> & ? & _ & ?).
  by exists h2.
Qed.

Lemma hPop_perm h : inv h -> elems h <> [] ->
  exists h' x, hPop h = Ret (h', x) /\ inv h' /\ x :: elems h' ≡ₚ elems h.
Proof.
  intros Hi Hne. assert (0 < length (elems h))%nat as Hl by (destruct (elems h); [done|simpl; lia]).
  unfold hPop. rewrite law_len. set (n := (length (elems h) - 1)%nat).
  replace (Z.of_nat (length (elems h)) - 1) with (Z.of_nat n) by lia.
  change 0 with (Z.of_nat 0). destruct (law_swap h 0 n Hi Hl ltac:(lia)) as (h1 & -> & Hi1 & He1). cbn [mbind go_bind].
  assert (elems h1 ≡ₚ elems h) as Hp1 by (rewrite He1; apply swapN_perm). pose proof (Permutation_length Hp1).
  assert (exists h2 mv, hdown h1 (Z.of_nat 0) (Z.of_nat n) = Ret (h2, mv) /\ inv h2 /\ elems h2 ≡ₚ elems h)
    as (h2 & mv & -> & Hi2 & Hp2).
  { destruct (decide (n = 0%nat)) as [->|].
    - unfold hdown. cbn [Z.to_nat Z.of_nat hdown_loop]. by exists h1, false.
    - destruct (hdown_returns h1 n 0 Hi1) as (h2 & mv & E & H2); [lia..|]. exists h2, mv. split; [done|].
      destruct H2 as (? & Hp2 & _). split; [done|]. by rewrite Hp2. }
  cbn [mbind go_bind]. pose proof (Permutation_length Hp2).
  destruct (lookup_lt_is_Some_2 (elems h2) n ltac:(lia)) as [x Hx].
  destruct (iPop_last h2 n x (elems h) Hi2 Hp2 ltac:(lia) Hx) as (h3 & -> & ? & _ & ?). by exists h3, x.
Qed.

(** ** The operations on a heap *)

Lemma hPush_spec h x : inv h -> fresh h x -> heap less (elems h) ->
  exists h', hPush h x = Ret h' /\ inv h' /\ heap less (elems h') /\ elems h' ≡ₚ x :: elems h.
Proof.
  intros Hi Hf Hh. destruct (law_push h x Hi Hf) as [Hi' He]. unfold hPush. rewrite law_len, He, length_app.
  cbn [length]. replace (Z.of_nat (length (elems h) + 1) - 1) with (Z.of_nat (length (elems h))) by lia.
  destruct (Push_heap less (elems h) x Hh) as (l & Hp & Hheap & Hperm).
  unfold Push, Len, up in Hp. rewrite length_app in Hp. cbn [length] in Hp.
  replace (Z.of_nat (length (elems h) + 1) - 1) with (Z.of_nat (length (elems h))) in Hp by lia.
  rewrite <- He in Hp. unfold hup. assert (length (elems h) < length (elems (iPush h x)))%nat as Hlt by (rewrite He, length_app; simpl; lia).
  destruct (up_simulates _ _ _ _ Hi' Hlt Hp) as (h' & -> & ? & <-).
  by exists h'.
Qed.

Lemma hPop_spec h : inv h -> heap less (elems h) -> elems h <> [] ->
  exists h' x, hPop h = Ret (h', x) /\ inv h' /\ heap less (elems h') /\ x :: elems h' ≡ₚ elems h /\
    elems h !! 0%nat = Some x.
Proof.
  intros Hi Hh Hne. destruct (elems h !! 0%nat) as [x|] eqn:Hx; [|destruct (elems h); done].
  pose proof (lookup_lt_Some _ _ _ Hx) as Hl. unfold hPop. rewrite law_len.
  set (n := (length (elems h) - 1)%nat). replace (Z.of_nat (length (elems h)) - 1) with (Z.of_nat n) by lia.
  change 0 with (Z.of_nat 0). destruct (law_swap h 0 n Hi Hl ltac:(lia)) as (h1 & -> & Hi1 & He1). cbn [mbind go_bind].
  assert (exists h' moved, hdown h1 (Z.of_nat 0) (Z.of_nat n) = Ret (h', moved) /\ inv h' /\
    elems h' ≡ₚ elems h /\ elems h' !! n = Some x /\ heapN less n (elems h')) as (h2 & mv & -> & Hi2 & Hp & Hn & Hh2).
  { assert (elems h1 !! n = Some x) as Hn1.
    { rewrite He1, lookup_swapN by lia. repeat case_decide; by subst || congruence. }
    assert (elems h1 ≡ₚ elems h) as Hp1 by (rewrite He1; apply swapN_perm).
    pose proof (Permutation_length Hp1). destruct (decide (n = 0%nat)) as [E|E].
    - exists h1, false. rewrite E at 1. split; [done|]. repeat split; try done. intros k Hk. lia.
    - destruct (hdown_spec h1 n 0 Hi1 ltac:(lia) ltac:(lia)) as (h2 & mv & -> & Hi2 & Hp2 & Hk & _ & Hheap).
      + rewrite He1. by apply (swapN_hole less _ 0 n x); try done; lia.
      + exists h2, mv. split; [done|]. split; [done|]. split; [by rewrite Hp2|]. split; [by rewrite Hk by lia|].
        apply Hheap. right. intros ?; lia. }
  cbn [mbind go_bind]. destruct (iPop_last h2 n x (elems h) Hi2 Hp ltac:(lia) Hn) as (h3 & -> & ? & He3 & ?).
  exists h3, x. repeat split; try done. rewrite He3. apply heap_take; [done|].
  rewrite (Permutation_length Hp). lia.
Qed.

Lemma hRemove_spec h i x : inv h -> heap less (elems h) -> elems h !! i = Some x ->
  exists h', hRemove h (Z.of_nat i) = Ret (h', x) /\ inv h' /\ heap less (elems h') /\ x :: elems h' ≡ₚ elems h.
Proof.
  intros Hi Hh Hx. pose proof (lookup_lt_Some _ _ _ Hx) as Hl. unfold hRemove. rewrite law_len.
  set (n := (length (elems h) - 1)%nat). replace (Z.of_nat (length (elems h)) - 1) with (Z.of_nat n) by lia.
  assert (exists h', (if Z.of_nat n =? Z.of_nat i then Ret h
    else h ← iSwap h (Z.of_nat i) (Z.of_nat n);
         '(h, moved) ← hdown h (Z.of_nat i) (Z.of_nat n);
         if moved : bool then Ret h else hup h (Z.of_nat i)) = Ret h' /\ inv h' /\ elems h' ≡ₚ elems h /\
    elems h' !! n = Some x /\ heapN less n (elems h')) as (h' & -> & Hi' & Hp & Hn & Hh').
  { destruct (Z.eqb_spec (Z.of_nat n) (Z.of_nat i)) as [E|E].
    { exists h. assert (n = i) as -> by lia. repeat split; try done. intros k Hk. apply Hh. lia. }
    destruct (law_swap h i n Hi Hl ltac:(lia)) as (h1 & -> & Hi1 & He1). cbn [mbind go_bind].
    assert (elems h1 !! n = Some x) as Hn1.
    { rewrite He1, lookup_swapN by lia. rewrite decide_False, decide_True by lia. done. }
    assert (length (elems h1) = length (elems h)) as Hl1 by (by rewrite He1, length_swapN).
    assert (elems h1 ≡ₚ elems h) as Hp1 by (rewrite He1; apply swapN_perm).
    destruct (hdown_spec h1 n i Hi1 ltac:(lia) ltac:(lia)) as (h2 & mv & -> & Hi2 & Hp2 & Hk & Hs & Hheap).
    { rewrite He1. apply (swapN_hole less _ i n x); try done; lia. }
    cbn [mbind go_bind]. pose proof (Permutation_length Hp2). destruct mv.
    - exists h2. split; [done|]. split; [done|]. split; [by rewrite Hp2|]. split; [by rewrite Hk by lia|]. apply Hheap. by left.
    - destruct (Hs eq_refl) as [He2 Hc].
      assert (hole less n (elems h2) i) as Hho by (rewrite He2, He1; apply (swapN_hole less _ i n x); try done; lia).
      rewrite <- He2 in Hc. destruct (hup_spec h2 n i Hi2 ltac:(lia) ltac:(lia) Hho Hc) as (h3 & -> & Hi3 & Hh3 & Hp3 & Hk3).
      exists h3. split; [done|]. split; [done|]. split; [by rewrite Hp3, Hp2|]. split; [by rewrite Hk3, Hk by lia|done]. }
  cbn [mbind go_bind]. destruct (iPop_last h' n x (elems h) Hi' Hp ltac:(lia) Hn) as (h2 & -> & ? & He2 & ?).
  exists h2. repeat split; try done. rewrite He2. apply heap_take; [done|]. rewrite (Permutation_length Hp). lia.
Qed.
End correctness.

(** ** A plain slice *)

Section slice.
Context {X : Type} (less : X -> X -> bool).

#[export] Instance slice_interface : Interface (list X) X := {|
  iLen l := Z.of_nat (length l);
  iLess l i j := lessAt less l i j;
  iSwap l i j := swap l i j;
  iPush l x := l ++ [x];
  iPop l := let n := Z.of_nat (length l) in x ← index l (n - 1); Ret (truncate l (n - 1), x)
|}.

#[export] Instance slice_lawful : Lawful less slice_interface.
Proof.
  refine {| elems := fun l => l; inv := fun _ => True; fresh := fun _ _ => True |}; try done.
  - intros l i j _ Hi Hj. exists (swapN l i j). split; [by apply swap_swapN|done].
  - intros l l0 x _ ->. cbn [iPop slice_interface]. exists l0. rewrite length_app. cbn [length].
    replace (Z.of_nat (length l0 + 1) - 1) with (Z.of_nat (length l0)) by lia.
    rewrite (index_lookup _ _ x) by (by rewrite lookup_app_r, Nat.sub_diag by lia). cbn [mbind go_bind].
    unfold truncate. by rewrite Nat2Z.id, take_app_length.
Defined.
End slice.

(** ** Comparisons that agree on a slice *)

Lemma index_elem {A} (l : list A) i x : index l i = Ret x -> x ∈ l.
Proof.
  unfold index. case_decide; [done|]. destruct (l !! Z.to_nat i) as [y|] eqn:E; [|done]. intros [= <-].
  by eapply list_elem_of_lookup_2.
Qed.

Lemma set_index_elem {A} (l : list A) i v l' x : set_index l i v = Ret l' -> x ∈ l' -> x = v \/ x ∈ l.
Proof.
  unfold set_index. case_decide; [|done]. intros [= <-] Hx.
  apply list_elem_of_lookup in Hx as [k Hk]. rewrite list_lookup_insert in Hk.
  case_decide; [injection Hk as <-; by left|]. right. by eapply list_elem_of_lookup_2.
Qed.

Section agree.
Context {X : Type} (f g : X -> X -> bool).

Definition agree (l : list X) : Prop := forall x y, x ∈ l -> y ∈ l -> f x y = g x y.

Lemma agree_perm l l' : l ≡ₚ l' -> agree l -> agree l'.
Proof. intros Hp H x y Hx Hy. apply H; by rewrite Hp. Qed.

Lemma agree_lessAt l i j : agree l -> lessAt f l i j = lessAt g l i j.
Proof.
  intros H. unfold lessAt. destruct (index l i) as [x|] eqn:Ex; [|done]. cbn [mbind go_bind].
  destruct (index l j) as [y|] eqn:Ey; [|done]. cbn [mbind go_bind]. by rewrite (H x y) by by eapply index_elem.
Qed.

Lemma agree_swap l i j l' : swap l i j = Ret l' -> agree l -> agree l'.
Proof.
  unfold swap. intros E H. destruct (index l i) as [x|] eqn:Ex; [|done]. cbn [mbind go_bind] in E.
  destruct (index l j) as [y|] eqn:Ey; [|done]. cbn [mbind go_bind] in E.
  destruct (set_index l i y) as [l1|] eqn:E1; [|done]. cbn [mbind go_bind] in E.
  apply index_elem in Ex, Ey. assert (forall z, z ∈ l' -> z ∈ l) as Hs; [|intros a b Ha Hb; apply H; by apply Hs].
  intros z Hz. apply (set_index_elem _ _ _ _ z E) in Hz as [->|Hz]; [done|].
  by apply (set_index_elem _ _ _ _ z E1) in Hz as [->|Hz].
Qed.

Lemma agree_up fuel : forall l j, agree l ->
  @hup_loop _ _ (slice_interface f) fuel l j = @hup_loop _ _ (slice_interface g) fuel l j.
Proof.
  induction fuel as [|fuel IH]; intros l j H; [done|]. cbn [hup_loop iLess iSwap slice_interface].
  destruct (_ =? _); [done|]. rewrite (agree_lessAt l) by done.
  destruct (lessAt g l _ _) as [b|]; [|done]. cbn [mbind go_bind]. destruct (negb b); [done|].
  destruct (swap l _ _) as [l'|] eqn:E; [|done]. cbn [mbind go_bind]. apply IH. by eapply agree_swap.
Qed.

Lemma agree_down fuel : forall l i n, agree l ->
  @hdown_loop _ _ (slice_interface f) fuel l i n = @hdown_loop _ _ (slice_interface g) fuel l i n.
Proof.
  induction fuel as [|fuel IH]; intros l i n H; [done|]. cbn [hdown_loop iLess iSwap slice_interface].
  destruct (_ || _); [done|]. rewrite !(agree_lessAt l) by done.
  destruct (if _ <? _ then _ else _) as [b2|]; [|done]. cbn [mbind go_bind]. rewrite (agree_lessAt l) by done.
  destruct (lessAt g l _ _) as [b|]; [|done]. cbn [mbind go_bind]. destruct (negb b); [done|].
  destruct (swap l _ _) as [l'|] eqn:E; [|done]. cbn [mbind go_bind]. apply IH. by eapply agree_swap.
Qed.

(** Insertion and extraction see the comparison only through the elements there. *)
Lemma agree_push l x : agree (x :: l) -> @hPush _ _ (slice_interface f) l x = @hPush _ _ (slice_interface g) l x.
Proof. intros H. apply agree_up. revert H. apply agree_perm, Permutation_cons_append. Qed.

Lemma agree_pop l : agree l -> @hPop _ _ (slice_interface f) l = @hPop _ _ (slice_interface g) l.
Proof.
  intros H. unfold hPop, hdown. cbn [iLen iSwap iPop slice_interface].
  destruct (swap l 0 _) as [l'|] eqn:E; [|done]. cbn [mbind go_bind].
  rewrite agree_down; [done|]. by eapply agree_swap.
Qed.
End agree.

(** ** Elements that know their position *)

(** A slice of pointers, each with an [index] field that the methods keep. *)
Record IHeap (X : Type) := MkIHeap { slots : list X; pos : gmap nat Z }.
Arguments MkIHeap {_} _ _.
Arguments slots {_} _.
Arguments pos {_} _.

Section indexed.
Context {X : Type} (ptr : X -> nat) (less : X -> X -> bool).

#[export] Instance indexed_interface : Interface (IHeap X) X := {|
  iLen h := Z.of_nat (length (slots h));
  iLess h i j := lessAt less (slots h) i j;
  iSwap h i j :=
    l ← swap (slots h) i j;
    a ← index l i; b ← index l j;
    Ret (MkIHeap l (<[ptr b := j]> (<[ptr a := i]> (pos h))));
  iPush h x := MkIHeap (slots h ++ [x]) (<[ptr x := Z.of_nat (length (slots h))]> (pos h));
  iPop h :=
    let n := Z.of_nat (length (slots h)) in
    x ← index (slots h) (n - 1);
    Ret (MkIHeap (truncate (slots h) (n - 1)) (<[ptr x := -1]> (pos h)), x)
|}.

(** Each element's field is its slot. *)
Definition placed (h : IHeap X) : Prop := forall i x, slots h !! i = Some x -> pos h !! ptr x = Some (Z.of_nat i).

Lemma placed_inj h i j x y : placed h -> slots h !! i = Some x -> slots h !! j = Some y -> ptr x = ptr y -> i = j.
Proof. intros Hp Hx Hy E. apply Hp in Hx, Hy. rewrite E in Hx. rewrite Hx in Hy. injection Hy. lia. Qed.

#[export] Instance indexed_lawful : Lawful less indexed_interface.
Proof.
  refine {| elems := slots; inv := placed; fresh := fun h x => ptr x ∉ map ptr (slots h) |}; try done.
  - intros h i j Hp Hi Hj. cbn [iSwap indexed_interface]. rewrite swap_swapN by done. cbn [mbind go_bind].
    destruct (lookup_lt_is_Some_2 _ _ Hi) as [a Ha], (lookup_lt_is_Some_2 _ _ Hj) as [b Hb].
    assert (swapN (slots h) i j !! i = Some b) as Hsi by (rewrite lookup_swapN by done; by rewrite decide_True).
    assert (swapN (slots h) i j !! j = Some a) as Hsj.
    { rewrite lookup_swapN by done. destruct (decide (j = i)) as [->|]; [congruence|]. by rewrite decide_True. }
    rewrite (index_lookup _ _ _ Hsi), (index_lookup _ _ _ Hsj). cbn [mbind go_bind].
    eexists. split; [done|]. split; [|done]. intros k x. cbn [slots pos]. rewrite lookup_swapN by done. intros Hx.
    destruct (decide (k = i)) as [->|]; [|destruct (decide (k = j)) as [->|]].
    + assert (x = b) as -> by congruence. destruct (decide (ptr a = ptr b)) as [E|E].
      * assert (i = j) as -> by (by eapply placed_inj). rewrite E. apply lookup_insert_eq.
      * rewrite lookup_insert_ne by done. apply lookup_insert_eq.
    + assert (x = a) as -> by congruence. apply lookup_insert_eq.
    + rewrite !lookup_insert_ne; [by apply Hp| |]; intros E;
        [by apply (placed_inj h _ _ _ _ Hp Hb Hx) in E|by apply (placed_inj h _ _ _ _ Hp Ha Hx) in E].
  - intros h x Hp Hf. split; [|done]. intros i y Hy. cbn [slots pos iPush indexed_interface] in *.
    apply lookup_app_Some in Hy as [Hy|[Hl Hy]].
    + rewrite lookup_insert_ne; [by apply Hp|]. intros E. apply Hf. rewrite E. apply list_elem_of_fmap.
      exists y. split; [done|]. by eapply list_elem_of_lookup_2.
    + apply list_lookup_singleton_Some in Hy as [Hl' <-]. rewrite lookup_insert_eq. f_equal. lia.
  - intros h l x Hp E. cbn [iPop indexed_interface]. rewrite E, length_app. cbn [length].
    replace (Z.of_nat (length l + 1) - 1) with (Z.of_nat (length l)) by lia.
    rewrite (index_lookup _ _ x) by (by rewrite lookup_app_r, Nat.sub_diag by lia). cbn [mbind go_bind].
    eexists. split; [done|]. unfold truncate. rewrite Nat2Z.id, take_app_length. split; [|done].
    intros i y Hy. cbn [slots pos] in *. pose proof (lookup_lt_Some _ _ _ Hy).
    assert (slots h !! i = Some y) as Hy' by (by rewrite E, lookup_app_l by lia).
    assert (slots h !! length l = Some x) as Hx by (by rewrite E, lookup_app_r, Nat.sub_diag by lia).
    rewrite lookup_insert_ne; [by apply Hp|]. intros E'. eapply placed_inj in E'; eauto. lia.
Defined.

(** The slots hold different pointers. *)
Lemma same_ptr h x y : placed h -> x ∈ slots h -> y ∈ slots h -> ptr x = ptr y -> x = y.
Proof.
  intros Hp [i Hi]%list_elem_of_lookup_1 [j Hj]%list_elem_of_lookup_1 E.
  pose proof (placed_inj h i j x y Hp Hi Hj E). congruence.
Qed.

Lemma placed_NoDup h : placed h -> NoDup (map ptr (slots h)).
Proof.
  intros Hp. apply NoDup_fmap_2_strong.
  - intros x y. by apply same_ptr.
  - apply NoDup_alt. intros i j x Hi Hj. by apply (placed_inj h i j x x).
Qed.

(** What is left when one pointer is taken out. *)
Lemma placed_rest h x l y : placed h -> x :: l ≡ₚ slots h -> y ∈ l <-> y ∈ slots h /\ ptr y <> ptr x.
Proof.
  intros Hp Hperm. pose proof (placed_NoDup h Hp) as Hnd. rewrite <- Hperm in Hnd. cbn [map] in Hnd.
  apply NoDup_cons in Hnd as [Hn _]. rewrite <- Hperm, elem_of_cons. split.
  - intros Hy. split; [by right|]. intros E. apply Hn. apply list_elem_of_fmap. by exists y.
  - intros [[->|Hy] Hne]; done.
Qed.

(** The operations, with the laws unfolded. *)
Context `{!StrictWeak less}.

Lemma ipush h x : placed h -> ptr x ∉ map ptr (slots h) -> heap less (slots h) ->
  exists h', hPush (Interface0 := indexed_interface) h x = Ret h' /\ placed h' /\ heap less (slots h') /\
    slots h' ≡ₚ x :: slots h.
Proof. apply (hPush_spec (I := indexed_interface) (Lawful0 := indexed_lawful)). Qed.

Lemma ipop h : placed h -> heap less (slots h) -> slots h <> [] ->
  exists h' x, hPop (Interface0 := indexed_interface) h = Ret (h', x) /\ placed h' /\ heap less (slots h') /\
    x :: slots h' ≡ₚ slots h /\ slots h !! 0%nat = Some x.
Proof. apply (hPop_spec (I := indexed_interface) (Lawful0 := indexed_lawful)). Qed.

Lemma iremove h i x : placed h -> heap less (slots h) -> slots h !! i = Some x ->
  exists h', hRemove (Interface0 := indexed_interface) h (Z.of_nat i) = Ret (h', x) /\ placed h' /\
    heap less (slots h') /\ x :: slots h' ≡ₚ slots h.
Proof. apply (hRemove_spec (I := indexed_interface) (Lawful0 := indexed_lawful)). Qed.
End indexed.
