(* ===== verification/JobQueue.v ===== *)
(** The job queue ([pkg/orchestration/jobqueue/jobqueue.go]): jobs in a store of
    shared objects, a priority heap of the ready ones, a list of the delayed ones
    and a bounded channel that wakes the workers. Each operation is one locked section of the code or what a goroutine does
    between two; [step] interleaves submitters, the scheduler, pauses, [Stop] and the workers at these, at the operations
    of the channel and at the loads of the flags. *)
From Stdlib Require Import ZArith Lia Bool.
From stdpp Require Import base numbers strings list gmap fin_maps.
From S2P Require Import Prelude Priority.

Open Scope Z_scope.

Inductive JobState := StateWaiting | StateDelayed | StateActive | StateCompleted | StateFailed.

#[global] Instance JobState_eq_dec : EqDecision JobState.
Proof. solve_decision. Defined.

Inductive jErr := Canceled | ExecErr (e : string) | PanicErr (v : string).

(** [Payload] and [Fn] are the application's; an execution is its outcome. *)
Record Job := MkJob {
  ID : string;
  Name : string;
  jPriority : Z;
  MaxRetries : Z;
  RetryDelay : Z;
  Delay : Z;
  Timeout : Z;
  State : JobState;
  Attempts : Z;
  Progress : Z;
  Err : option jErr;
  CreatedAt : Z;
  StartedAt : Z;
  CompletedAt : Z;
  readyAt : Z
}.

Inductive EventType := EventSubmit | EventStart | EventProgress | EventComplete | EventFail | EventRetry.

Definition set_state (j : Job) (s : JobState) : Job :=
  MkJob (ID j) (Name j) (jPriority j) (MaxRetries j) (RetryDelay j) (Delay j) (Timeout j) s
    (Attempts j) (Progress j) (Err j) (CreatedAt j) (StartedAt j) (CompletedAt j) (readyAt j).
Definition set_err (j : Job) (e : option jErr) : Job :=
  MkJob (ID j) (Name j) (jPriority j) (MaxRetries j) (RetryDelay j) (Delay j) (Timeout j) (State j)
    (Attempts j) (Progress j) e (CreatedAt j) (StartedAt j) (CompletedAt j) (readyAt j).
Definition set_created (j : Job) (t : Z) : Job :=
  MkJob (ID j) (Name j) (jPriority j) (MaxRetries j) (RetryDelay j) (Delay j) (Timeout j) (State j)
    (Attempts j) (Progress j) (Err j) t (StartedAt j) (CompletedAt j) (readyAt j).
Definition set_ready (j : Job) (t : Z) : Job :=
  MkJob (ID j) (Name j) (jPriority j) (MaxRetries j) (RetryDelay j) (Delay j) (Timeout j) (State j)
    (Attempts j) (Progress j) (Err j) (CreatedAt j) (StartedAt j) (CompletedAt j) t.
Definition set_started (j : Job) (n t : Z) : Job :=
  MkJob (ID j) (Name j) (jPriority j) (MaxRetries j) (RetryDelay j) (Delay j) (Timeout j) (State j)
    n (Progress j) (Err j) (CreatedAt j) t (CompletedAt j) (readyAt j).
Definition set_done (j : Job) (s : JobState) (p t : Z) : Job :=
  MkJob (ID j) (Name j) (jPriority j) (MaxRetries j) (RetryDelay j) (Delay j) (Timeout j) s
    (Attempts j) p (Err j) (CreatedAt j) (StartedAt j) t (readyAt j).

Record Config := MkConfig { Workers : Z; QueueSize : Z }.

(** A [*Job] is a handle into [jobs]. [signal] is the number of tokens in the
    channel; [dropped] counts the sends that found it full (the code keeps no
    such count). *)
Record Queue := MkQueue {
  cfg : Config;
  jobs : gmap nat Job;
  pq : list nat;
  delayed : list nat;
  byID : gmap string nat;
  signal : Z;
  paused : bool;
  stopped : bool;
  dropped : Z
}.

(** [make] of a channel of negative size panics. A channel of size zero hands a token only to a worker that is receiving;
    what is proved below is of the others. *)
Definition New (workers queueSize : Z) : go Queue :=
  if queueSize <? 0 then Panic "makechan: size out of range"
  else Ret (MkQueue (MkConfig (if workers <? 1 then 1 else workers) queueSize) ∅ [] [] ∅ 0 false false 0).

(** [q.pq] compares the jobs' priorities. *)
Definition prio (js : gmap nat Job) (h : nat) : Z :=
  match js !! h with Some j => jPriority j | None => 0 end.
Definition before (js : gmap nat Job) (a b : nat) : bool := prio js a <? prio js b.

Definition set_jobs (q : Queue) (js : gmap nat Job) : Queue :=
  MkQueue (cfg q) js (pq q) (delayed q) (byID q) (signal q) (paused q) (stopped q) (dropped q).
Definition set_pq (q : Queue) (l : list nat) : Queue :=
  MkQueue (cfg q) (jobs q) l (delayed q) (byID q) (signal q) (paused q) (stopped q) (dropped q).
Definition set_delayed (q : Queue) (l : list nat) : Queue :=
  MkQueue (cfg q) (jobs q) (pq q) l (byID q) (signal q) (paused q) (stopped q) (dropped q).
Definition set_byID (q : Queue) (m : gmap string nat) : Queue :=
  MkQueue (cfg q) (jobs q) (pq q) (delayed q) m (signal q) (paused q) (stopped q) (dropped q).
Definition set_flags (q : Queue) (p s : bool) : Queue :=
  MkQueue (cfg q) (jobs q) (pq q) (delayed q) (byID q) (signal q) p s (dropped q).

Definition upd (q : Queue) (h : nat) (f : Job -> Job) : Queue := set_jobs q (alter f h (jobs q)).

Definition register (q : Queue) (h : nat) (j : Job) : Queue :=
  if decide (ID j = EmptyString) then q else set_byID q (<[ID j := h]> (byID q)).

(** The non-blocking send on [q.signal]. *)
Definition notify (q : Queue) : Queue :=
  if signal q <? QueueSize (cfg q)
  then MkQueue (cfg q) (jobs q) (pq q) (delayed q) (byID q) (signal q + 1) (paused q) (stopped q) (dropped q)
  else MkQueue (cfg q) (jobs q) (pq q) (delayed q) (byID q) (signal q) (paused q) (stopped q) (dropped q + 1).

(** [job.State = StateWaiting] and the push, as in [enqueue] and the scheduler. *)
Definition make_ready (q : Queue) (h : nat) : go Queue :=
  let q := upd q h (fun j => set_state j StateWaiting) in
  l ← Push (before (jobs q)) (pq q) h; Ret (set_pq q l).

(** [enqueue] under its lock; the send on the channel comes after it. *)
Definition enqueue (q : Queue) (h : nat) : go Queue :=
  q ← make_ready q h; Ret (match jobs q !! h with Some j => register q h j | None => q end).

(** [Submit] up to its lock: the job [j] is stored at the handle [h] the caller holds. *)
Definition Submit (h : nat) (j : Job) (now : Z) (q : Queue) : Queue * bool :=
  if stopped q then (q, false)
  else
    let j := set_state (set_created j now) StateWaiting in
    let j := if 0 <? Delay j then set_ready (set_state j StateDelayed) (now + Delay j) else set_ready j now in
    (set_jobs q (<[h := j]> (jobs q)), true).

(** The rest of [Submit]: whether it has pushed a job on the heap and has a token to send. *)
Definition submit_locked (h : nat) (q : Queue) : go (Queue * bool) :=
  match jobs q !! h with
  | None => Ret (q, false)
  | Some j =>
      if 0 <? Delay j then Ret (register (set_delayed q (delayed q ++ [h])) h j, false)
      else q ← enqueue q h; Ret (q, true)
  end.

Definition cancellable (j : Job) : bool :=
  match State j with StateWaiting | StateDelayed => true | _ => false end.

Definition Cancel (id : string) (q : Queue) : Queue * bool :=
  match byID q !! id with
  | None => (q, false)
  | Some h =>
      match jobs q !! h with
      | None => (q, false)
      | Some j =>
          if cancellable j then
            (upd (set_byID q (delete id (byID q))) h
               (fun j => set_err (set_state j StateFailed) (Some Canceled)), true)
          else (q, false)
      end
  end.

Definition Pause (q : Queue) : Queue := set_flags q true (stopped q).
Definition Resume (q : Queue) : Queue := set_flags q false (stopped q).
Definition Paused (q : Queue) : bool := paused q.
Definition Pending (q : Queue) : Z := Len (pq q).
(** [Stop] begins by setting the flag. *)
Definition Stop (q : Queue) : Queue := set_flags q (paused q) true.

Definition waiting (js : gmap nat Job) (h : nat) : bool :=
  match js !! h with Some j => bool_decide (State j = StateWaiting) | None => false end.

(** [dequeue]: pop until a job that is still waiting; each turn shortens the heap. *)
Fixpoint dequeue_loop (fuel : nat) (q : Queue) : go (Queue * option nat) :=
  match fuel with
  | O => Ret (q, None)
  | S fuel =>
      if Len (pq q) <=? 0 then Ret (q, None)
      else
        '(l, h) ← Pop (before (jobs q)) (pq q);
        let q := set_pq q l in
        if waiting (jobs q) h
        then Ret (upd q h (fun j => set_state j StateActive), Some h)
        else dequeue_loop fuel q
  end.

Definition dequeue (q : Queue) : go (Queue * option nat) := dequeue_loop (S (length (pq q))) q.

(** [execute] up to the call of [Fn]. *)
Definition begin_execute (h : nat) (now : Z) (q : Queue) : Queue * list EventType :=
  (upd q h (fun j => set_started j (wrap64 (Attempts j + 1)) now), [EventStart]).

(** The delay before the next attempt. *)
Definition retryDelay (j : Job) : Z :=
  let delay := wrap64 (RetryDelay j * wrap64 (Z.shiftl 1 (Attempts j - 1))) in
  if delay <=? 0 then 100000000 else delay.

Definition forget (h : nat) (q : Queue) : Queue :=
  match jobs q !! h with
  | Some j => if decide (ID j = EmptyString) then q else set_byID q (delete (ID j) (byID q))
  | None => q
  end.

(** [execute] from the result of [Fn] to its lock: whether the job is to be tried again. *)
Definition end_execute (h : nat) (err : option jErr) (now : Z) (q : Queue) : Queue * bool * list EventType :=
  match jobs q !! h with
  | None => (q, false, [])
  | Some j =>
      match err with
      | Some e =>
          let q := upd q h (fun j => set_err j (Some e)) in
          if Attempts j <=? MaxRetries j then
            (upd q h (fun j => set_ready (set_state j StateDelayed) (now + retryDelay j)), true, [EventRetry])
          else (upd q h (fun j => set_done j StateFailed (Progress j) now), false, [EventFail])
      | None => (upd q h (fun j => set_done j StateCompleted 100 now), false, [EventComplete])
      end
  end.
(** Its last locked section. *)
Definition end_locked (h : nat) (again : bool) (q : Queue) : Queue :=
  if again then set_delayed q (delayed q ++ [h]) else forget h q.

Definition finished (j : Job) : bool :=
  match State j with StateFailed | StateCompleted => true | _ => false end.

(** A tick of [delayScheduler], which keeps the lock: the jobs still to look at, those that stay, the time of the tick and
    whether a token is to be sent. Finished (cancelled) jobs are dropped, due ones become ready, the others stay. *)
Record scan := MkScan { todo : list nat; remaining : list nat; at_now : Z; sending : bool }.
Definition scan_step (sc : scan) (q : Queue) : go (Queue * option scan) :=
  if sending sc then Ret (notify q, Some (MkScan (todo sc) (remaining sc) (at_now sc) false))
  else
    match todo sc with
    | [] => Ret (set_delayed q (remaining sc), None)
    | h :: l =>
        match jobs q !! h with
        | None => Ret (q, Some (MkScan l (remaining sc) (at_now sc) false))
        | Some j =>
            if finished j then Ret (q, Some (MkScan l (remaining sc) (at_now sc) false))
            else if readyAt j <=? at_now sc then
              q ← make_ready q h; Ret (q, Some (MkScan l (remaining sc) (at_now sc) true))
            else Ret (q, Some (MkScan l (remaining sc ++ [h]) (at_now sc) false))
        end
    end.

(** ** The goroutines *)

(** A worker's receive on [q.signal]. *)
Definition receive (q : Queue) : Queue :=
  MkQueue (cfg q) (jobs q) (pq q) (delayed q) (byID q) (signal q - 1) (paused q) (stopped q) (dropped q).

(** Where a worker is; the flag is whether it has taken a token. [WPause] to [WParked] is [waitIfPaused]: the first look at
    the flag, the two halves of the condition of the loop, about to wait, and asleep in [Wait]. [WStop] looks at the stop
    flag, [WSelect] is in the select, [WCleared] about to dequeue; the others have a job. *)
Inductive wphase :=
| WPause (t : bool) | WCond (t : bool) | WCondStopped (t : bool) | WWait (t : bool) | WParked (t : bool)
| WStop (t : bool) | WSelect | WCleared
| WStart (h : nat) | WRun (h : nat) | WEnd (h : nat) (again : bool) | WReturned.

(** The queue with the submissions that have not taken the lock, the number of those that have a token to send, the
    scheduler's tick, whether the scheduler has returned, the workers, the broadcasts of [Resume] to come, how far [Stop]
    is, and whether it has closed [stopCh]. *)
Record system := MkSystem {
  queue : Queue; submits : list nat; signals : nat; scanner : option scan; sched_done : bool;
  launched : bool; workers : list wphase; casting : nat; stopping : nat; stop_closed : bool
}.

Definition with_queue (q : Queue) (s : system) : system :=
  MkSystem q (submits s) (signals s) (scanner s) (sched_done s) (launched s) (workers s) (casting s) (stopping s) (stop_closed s).
Definition with_workers (l : list wphase) (s : system) : system :=
  MkSystem (queue s) (submits s) (signals s) (scanner s) (sched_done s) (launched s) l (casting s) (stopping s) (stop_closed s).
Definition with_scanner (sc : option scan) (s : system) : system :=
  MkSystem (queue s) (submits s) (signals s) sc (sched_done s) (launched s) (workers s) (casting s) (stopping s) (stop_closed s).
Definition with_submits (l : list nat) (n : nat) (s : system) : system :=
  MkSystem (queue s) l n (scanner s) (sched_done s) (launched s) (workers s) (casting s) (stopping s) (stop_closed s).
Definition with_casting (n : nat) (s : system) : system :=
  MkSystem (queue s) (submits s) (signals s) (scanner s) (sched_done s) (launched s) (workers s) n (stopping s) (stop_closed s).
Definition with_stopping (n : nat) (c : bool) (s : system) : system :=
  MkSystem (queue s) (submits s) (signals s) (scanner s) (sched_done s) (launched s) (workers s) (casting s) n c.
Definition with_done (s : system) : system :=
  MkSystem (queue s) (submits s) (signals s) (scanner s) true (launched s) (workers s) (casting s) (stopping s) (stop_closed s).
Definition launch (s : system) : system :=
  MkSystem (queue s) (submits s) (signals s) (scanner s) (sched_done s) true (replicate (Z.to_nat (Workers (cfg (queue s)))) (WPause false)) (casting s) (stopping s) (stop_closed s).

Definition init (q : Queue) : system := MkSystem q [] 0 None false false [] 0 0 false.
Definition unlocked (s : system) : bool := match scanner s with None => true | Some _ => false end.

(** A step of worker [i]: [closed] is the case its select takes when it can, [now] and [err] the time and what [Fn] answers
    where they are asked for. *)
Definition worker (i : nat) (closed : bool) (now : Z) (err : option jErr) (s : system) : go system :=
  let q := queue s in
  let goto w s := with_workers (<[i := w]> (workers s)) s in
  match workers s !! i with
  | None => Ret s
  | Some w =>
      match w with
      | WPause t => Ret (goto (if paused q then WCond t else WStop t) s)
      | WCond t => Ret (goto (if paused q then WCondStopped t else WStop t) s)
      | WCondStopped t => Ret (goto (if stopped q then WStop t else WWait t) s)
      | WWait t => Ret (goto (WParked t) s)
      | WParked _ | WReturned => Ret s
      | WStop t => Ret (goto (if stopped q then WReturned else if t then WCleared else WSelect) s)
      | WSelect =>
          if closed then Ret (if stop_closed s then goto WReturned s else s)
          else if 0 <? signal q then Ret (goto (WPause true) (with_queue (receive q) s)) else Ret s
      | WCleared =>
          if unlocked s then
            '(q, r) ← dequeue q;
            Ret (goto (match r with Some h => WStart h | None => WPause false end) (with_queue q s))
          else Ret s
      | WStart h => Ret (goto (WRun h) (with_queue (begin_execute h now q).1 s))
      | WRun h => let '(q, again, _) := end_execute h err now q in Ret (goto (WEnd h again) (with_queue q s))
      | WEnd h again => if unlocked s then Ret (goto (WPause false) (with_queue (end_locked h again q) s)) else Ret s
      end
  end.

(** [Broadcast] wakes all that are asleep. *)
Definition wake (w : wphase) : wphase := match w with WParked t => WCond t | _ => w end.

Inductive action :=
| AStart | ASubmit (h : nat) (j : Job) (now : Z) | ALocked (h : nat) | ASignal | ACancel (id : string)
| ATick (now : Z) | AScan | ASchedDone | AWorker (i : nat) (closed : bool) (now : Z) (err : option jErr)
| APause | AResume | ABroadcast | AStop.

(** The steps; one that is not possible changes nothing. Every [*Job] is submitted once. *)
Definition step (a : action) (s : system) : go system :=
  let q := queue s in
  match a with
  | AStart => Ret (if launched s then s else launch s)
  | ASubmit h j now =>
      if bool_decide (is_Some (jobs q !! h)) then Ret s
      else let '(q, b) := Submit h j now q in Ret (if b : bool then with_submits (submits s ++ [h]) (signals s) (with_queue q s) else s)
  | ALocked h =>
      if unlocked s && bool_decide (h ∈ submits s) then
        '(q, b) ← submit_locked h q;
        Ret (with_submits (List.filter (fun x => negb (x =? h)%nat) (submits s)) (if b : bool then S (signals s) else signals s) (with_queue q s))
      else Ret s
  | ASignal => match signals s with O => Ret s | S n => Ret (with_submits (submits s) n (with_queue (notify q) s)) end
  | ACancel id => Ret (if unlocked s then with_queue (Cancel id q).1 s else s)
  | ATick now => Ret (if unlocked s && launched s && negb (sched_done s) then with_scanner (Some (MkScan (delayed q) [] now false)) s else s)
  | AScan => match scanner s with None => Ret s | Some sc => '(q, sc) ← scan_step sc q; Ret (with_scanner sc (with_queue q s)) end
  | ASchedDone => Ret (if unlocked s && stop_closed s then with_done s else s)
  | AWorker i closed now err => worker i closed now err s
  | APause => Ret (with_queue (Pause q) s)
  | AResume => Ret (if paused q then with_casting (S (casting s)) (with_queue (Resume q) s) else s)
  | ABroadcast => match casting s with O => Ret s | S n => Ret (with_casting n (with_workers (wake <$> workers s) s)) end
  | AStop =>
      match stopping s with
      | 0 => Ret (with_stopping 1 false (with_queue (Stop q) s))
      | 1 => Ret (with_stopping (if paused q then 2 else 3) false (with_queue (Resume q) s))
      | 2 => Ret (with_stopping 3 false (with_workers (wake <$> workers s) s))
      | 3 => Ret (with_stopping 4 true s)
      | _ => Ret s
      end%nat
  end.
Fixpoint run (acts : list action) (s : system) : go system :=
  match acts with [] => Ret s | a :: acts => s ← step a s; run acts s end.

(** * The heap of ready jobs *)

Lemma before_strict js : StrictWeak (before js).
Proof. apply Zltb_strict_weak. Qed.
#[local] Existing Instance before_strict.

Lemma heap_ext {T} (less1 less2 : T -> T -> bool) l :
  (forall a b, less1 a b = less2 a b) -> heap less1 l -> heap less2 l.
Proof. intros He Hh i Hi a b Ha Hb. unfold leq. rewrite <- He. by apply (Hh i Hi a b). Qed.

(** Operations that keep the priorities keep the heap. *)
Lemma heap_prio js js' l : (forall h, prio js' h = prio js h) -> heap (before js) l -> heap (before js') l.
Proof. intros Hp. apply heap_ext. intros a b. unfold before. by rewrite !Hp. Qed.

Lemma prio_alter js f h x : (forall j, jPriority (f j) = jPriority j) ->
  prio (alter f h js) x = prio js x.
Proof.
  intros Hf. unfold prio. destruct (decide (h = x)) as [->|].
  - rewrite lookup_alter_eq. by destruct (js !! x); simpl.
  - by rewrite lookup_alter_ne.
Qed.

(** What [dequeue] promises: the waiting jobs keep their order of priority, and the
    cancelled ones are skipped for good. *)
Lemma dequeue_loop_spec fuel : forall q, heap (before (jobs q)) (pq q) ->
  (length (pq q) < fuel)%nat ->
  exists q' r, dequeue_loop fuel q = Ret (q', r) /\ heap (before (jobs q')) (pq q') /\
  signal q' = signal q /\ delayed q' = delayed q /\ byID q' = byID q /\ dropped q' = dropped q /\
  match r with
  | None => jobs q' = jobs q /\ pq q' = [] /\ (forall h, h ∈ pq q -> waiting (jobs q) h = false)
  | Some h => waiting (jobs q) h = true /\
      jobs q' = alter (fun j => set_state j StateActive) h (jobs q) /\
      (forall h', h' ∈ pq q -> waiting (jobs q) h' = true -> prio (jobs q) h <= prio (jobs q) h') /\
      exists skipped, Forall (fun h => waiting (jobs q) h = false) skipped /\
        pq q ≡ₚ h :: skipped ++ pq q'
  end.
Proof.
  induction fuel as [|fuel IH]; intros q Hh Hf; [lia|]. cbn [dequeue_loop].
  destruct (decide (pq q = [])) as [E|Hne].
  { rewrite E in *. simpl. exists q, None. rewrite E. do 6 (split; [done|]).
    split; [done|]. split; [done|]. intros h []%not_elem_of_nil. }
  destruct (Z.leb_spec (Len (pq q)) 0) as [Hz|_].
  { unfold Len in Hz. destruct (pq q); simpl in *; [done|lia]. }
  destruct (Pop_heap (before (jobs q)) (pq q) Hh Hne) as (l&x&->&Hl&Hp&H0). simpl.
  assert (Hmin : forall h', h' ∈ pq q -> prio (jobs q) x <= prio (jobs q) h').
  { intros h' [i Hi]%list_elem_of_lookup.
    pose proof (heap_root (before (jobs q)) (pq q) i x h' Hh H0 Hi) as Hr.
    unfold leq, before in Hr. by apply Z.ltb_ge in Hr. }
  destruct (waiting (jobs q) x) eqn:Hw; simpl.
  - eexists _, (Some x). split; [done|]. simpl. split.
    { eapply heap_prio; [|exact Hl]. intros h. by apply prio_alter. }
    do 4 (split; [done|]). split; [done|]. split; [done|]. split; [by intros; apply Hmin|].
    exists []. by rewrite Hp.
  - pose proof (Permutation_length Hp) as Hlen. simpl in Hlen.
    destruct (IH (set_pq q l)) as (q'&r&->&Hh'&H1&H2&H3&H4&Hr); [done|simpl; lia|]. simpl in *.
    exists q', r. do 6 (split; [done|]). destruct r as [h|].
    + destruct Hr as (Hwh&Hj&Hm&sk&Hsk&Hpp). split; [done|]. split; [done|]. split.
      * intros h' Hin Hw'. rewrite <- Hp in Hin. apply elem_of_cons in Hin as [->|Hin]; [congruence|].
        by apply Hm.
      * exists (x :: sk). split; [by constructor|]. rewrite <- Hp, Hpp. simpl. apply Permutation_swap.
    + destruct Hr as (Hj&Hnil&Hall). split; [done|]. split; [done|].
      intros h Hin. rewrite <- Hp in Hin. apply elem_of_cons in Hin as [->|Hin]; [done|by apply Hall].
Qed.

(** [dequeue] never panics; it takes a waiting job of least priority number and
    marks it active, dropping only jobs that are no longer waiting, and it comes
    back empty-handed only when no job in the heap is waiting. *)
Theorem dequeue_min q : heap (before (jobs q)) (pq q) ->
  exists q' r, dequeue q = Ret (q', r) /\ heap (before (jobs q')) (pq q') /\
  match r with
  | None => forall h, h ∈ pq q -> waiting (jobs q) h = false
  | Some h => h ∈ pq q /\ waiting (jobs q) h = true /\
      State <$> jobs q' !! h = Some StateActive /\
      (forall h', h' ∈ pq q -> waiting (jobs q) h' = true -> prio (jobs q) h <= prio (jobs q) h') /\
      exists skipped, Forall (fun h => waiting (jobs q) h = false) skipped /\
        pq q ≡ₚ h :: skipped ++ pq q'
  end.
Proof.
  intros Hh. unfold dequeue.
  destruct (dequeue_loop_spec (S (length (pq q))) q Hh ltac:(lia))
    as (q'&r&->&Hh'&_&_&_&_&Hr). exists q', r. split; [done|]. split; [done|].
  destruct r as [h|]; [|by destruct Hr as (_&_&?)].
  destruct Hr as (Hw&->&Hm&sk&Hsk&Hp). split; [rewrite Hp; by left|]. split; [done|].
  split; [|split; [done|by exists sk]].
  rewrite lookup_alter_eq. unfold waiting in Hw. by destruct (jobs q !! h).
Qed.

(** * Wake-ups *)

Definition count_waiting (js : gmap nat Job) (l : list nat) : Z :=
  Z.of_nat (length (List.filter (waiting js) l)).
















(** ** The system *)










(** ** From a wake-up to a job *)



Section serving.
Context (h0 : nat).

End serving.



(** ** Jobs left behind *)

Definition plain_job (name : string) (p : Z) : Job :=
  MkJob name name p 0 0 0 0 StateWaiting 0 0 None 0 0 0 0.
Definition submit (h : nat) (name : string) (p : Z) : list action := [ASubmit h (plain_job name p) 0; ALocked h; ASignal].
Definition go_on (i n : nat) : list action := replicate n (AWorker i false 0 None).
Definition stranded (s : system) : bool :=
  negb (paused (queue s)) && negb (stopped (queue s)) && (signal (queue s) =? 0) && (signals s =? 0)%nat && bool_decide (casting s = 0)%nat &&
  bool_decide (scanner s = None) && (1 <=? count_waiting (jobs (queue s)) (pq (queue s))).

(** A full channel strands jobs. With a channel of one token and one worker, two submissions and a job served leave the
    other one waiting in the heap, the worker in its select and no token. *)
Theorem full_channel_strands : exists q s, New 1 1 = Ret q /\
  run ([AStart] ++ go_on 0 2 ++ submit 1 "a" 5 ++ submit 2 "b" 7 ++ go_on 0 9) (init q) = Ret s /\
  stranded s = true /\ workers s = [WSelect].
Proof. eexists _, _. split; [reflexivity|]. split; [vm_compute; reflexivity|]. split; reflexivity. Qed.
(** [Resume] does not take the lock of the condition: between a worker's look at the flag and its wait the broadcast is
    lost, and the worker sleeps on with its token, though the queue is not paused and the channel never filled. *)
Theorem resume_strands : exists q s, New 1 8 = Ret q /\
  run ([AStart] ++ go_on 0 2 ++ submit 1 "a" 5 ++ go_on 0 1 ++ [APause] ++ go_on 0 3 ++ [AResume; ABroadcast] ++ go_on 0 1) (init q) = Ret s /\
  stranded s = true /\ dropped (queue s) = 0 /\ workers s = [WParked true] /\ (forall n, run (go_on 0 n) s = Ret s).
Proof.
  eexists _, _. split; [reflexivity|]. split; [vm_compute; reflexivity|]. split_and!; [reflexivity..|]. induction n as [|n IH]; [done|]. exact IH.
Qed.

Lemma dequeue_min_witness : exists q', dequeue (MkQueue (MkConfig 1 8)
    (<[2%nat := plain_job "b" 1]> {[1%nat := plain_job "a" 5]}) [2; 1]%nat [] ∅ 2 false false 0) =
  Ret (q', Some 2%nat).
Proof.
  destruct (dequeue_min (MkQueue (MkConfig 1 8)
    (<[2%nat := plain_job "b" 1]> {[1%nat := plain_job "a" 5]}) [2; 1]%nat [] ∅ 2 false false 0))
    as (q'&r&Hd&_&Hr).
  - intros [|[|i]] Hi; simpl in Hi; try lia. intros a b; simpl. intros [= <-] [= <-]. reflexivity.
  - exists q'. rewrite Hd. vm_compute in Hd. injection Hd as <- <-. reflexivity.
Defined.

