(* ===== verification/Relationship.v ===== *)
(** The social graph ([pkg/domain/relationship/relationship.go]): directed edges
    with an integer state, kept per source in a map of maps. Methods hold the
    graph's lock from start to end, so each is one atomic step. *)
From Stdlib Require Import ZArith Lia Bool.
From stdpp Require Import base numbers strings list gmap fin_maps sorting.
From S2P Require Import Prelude.

Open Scope Z_scope.

Record Edge := MkEdge {
  Source : string;
  Destination : string;
  State : Z;
  Position : Z;
  Metadata : option (gmap string string)
}.

Definition StateActive : Z := 0.
Definition StatePending : Z := 1.
Definition StateAdmin : Z := 2.
Definition StateOwner : Z := 3.
Definition StateBlocked : Z := 99.

Abbreviation edges := (gmap string (gmap string Edge)).

Inductive relErr := ErrAlreadyExists | ErrNotFound | ErrBlocked | ErrEmpty.

#[global] Instance relErr_eq_dec : EqDecision relErr.
Proof. solve_decision. Defined.

(** ** Operations *)

Definition New : edges := ∅.

(** [g.edges[source]], [nil] when absent; a [nil] map reads as empty. *)
Definition out (g : edges) (source : string) : gmap string Edge :=
  default ∅ (g !! source).

Definition isBlockedLocked (g : edges) (source dest : string) : bool :=
  match out g source !! dest with
  | Some e => State e =? StateBlocked
  | None => false
  end.
Definition IsBlocked := isBlockedLocked.

Definition AddEdge (g : edges) (e : Edge) : edges * option relErr :=
  if bool_decide (Source e = "") || bool_decide (Destination e = "") then (g, Some ErrEmpty)
  else if isBlockedLocked g (Destination e) (Source e) then (g, Some ErrBlocked)
  else
    let m := out g (Source e) in
    let g := <[Source e := m]> g in
    match m !! Destination e with
    | Some _ => (g, Some ErrAlreadyExists)
    | None => (<[Source e := <[Destination e := e]> m]> g, None)
    end.

(** The shared tail of [RemoveEdge] and [removeEdgeLocked]: drop the inner map
    when it becomes empty. *)
Definition removeEdgeLocked (g : edges) (source dest : string) : edges :=
  match g !! source with
  | None => g
  | Some m =>
      let m := delete dest m in
      if decide (m = ∅) then delete source g else <[source := m]> g
  end.

Definition RemoveEdge (g : edges) (source dest : string) : edges * option relErr :=
  match g !! source with
  | None => (g, Some ErrNotFound)
  | Some m =>
      match m !! dest with
      | None => (g, Some ErrNotFound)
      | Some _ => (removeEdgeLocked g source dest, None)
      end
  end.

Definition Block (g : edges) (source dest : string) (position : Z) : edges :=
  let m := out g source in
  let m := match m !! dest with
           | Some e => if State e =? StateBlocked then m else delete dest m
           | None => m
           end in
  <[source := <[dest := MkEdge source dest StateBlocked position None]> m]> g.

Definition addEdgeLocked (g : edges) (source dest : string) (state pos : Z)
    (meta : option (gmap string string)) : edges * option relErr :=
  let m := out g source in
  let g := <[source := m]> g in
  match m !! dest with
  | Some _ => (g, Some ErrAlreadyExists)
  | None => (<[source := <[dest := MkEdge source dest state pos meta]> m]> g, None)
  end.

Definition AddFriend (g : edges) (a b : string) (position : Z) : edges * option relErr :=
  if isBlockedLocked g a b || isBlockedLocked g b a then (g, Some ErrBlocked)
  else
    match addEdgeLocked g a b StateActive position None with
    | (g, Some e) => (g, Some e)
    | (g, None) =>
        match addEdgeLocked g b a StateActive position None with
        | (g, Some e) => (<[a := delete b (out g a)]> g, Some e)
        | (g, None) => (g, None)
        end
    end.

Definition RemoveFriend (g : edges) (a b : string) : edges :=
  removeEdgeLocked (removeEdgeLocked g a b) b a.

Definition EdgeOf (g : edges) (source dest : string) : option Edge :=
  out g source !! dest.

(** [Outgoing] ranges over the inner map in an unspecified order and sorts with
    an unstable sort; [order] is the enumeration the range produced. *)
Definition newer (e1 e2 : Edge) : Prop := Position e2 <= Position e1.

#[global] Instance newer_dec : RelDecision newer.
Proof. intros e1 e2. unfold newer. apply _. Defined.
#[global] Instance newer_total : Total newer.
Proof. intros e1 e2. unfold newer. lia. Qed.
#[global] Instance newer_trans : Transitive newer.
Proof. intros e1 e2 e3. unfold newer. lia. Qed.

Definition selected (afterPosition stateFilter : Z) (e : Edge) : bool :=
  ((stateFilter =? -1) || (State e =? stateFilter)) &&
  negb ((0 <? afterPosition) && (afterPosition <=? Position e)).

Definition Outgoing (order : list (string * Edge))
    (afterPosition limit stateFilter : Z) : list Edge :=
  let limit := if limit <=? 0 then 50 else limit in
  let res := List.filter (selected afterPosition stateFilter) (snd <$> order) in
  let res := merge_sort newer res in
  if limit <? Z.of_nat (length res) then take (Z.to_nat limit) res else res.

Definition Friends (g : edges) (source : string) (order : list (string * Edge)) : list string :=
  fst <$> List.filter (fun '(dest, e) =>
    (State e =? StateActive) &&
    match out g dest !! source with
    | Some rev => State rev =? StateActive
    | None => false
    end) order.

Definition Watchers (userID : string) (stateFilter : Z)
    (order : list (string * gmap string Edge)) : list string :=
  fst <$> List.filter (fun '(_, m) =>
    match m !! userID with
    | Some e => negb (State e =? StateBlocked) &&
        ((stateFilter =? -1) || (State e =? stateFilter))
    | None => false
    end) order.

Definition Count (g : edges) (source : string) (stateFilter : Z) : Z :=
  if stateFilter =? -1 then Z.of_nat (size (out g source))
  else Z.of_nat (length (List.filter (fun '(_, e) => State e =? stateFilter)
    (map_to_list (out g source)))).

(** * Lookups after an operation *)

Lemma out_insert g s m s' :
  out (<[s := m]> g) s' = if decide (s = s') then m else out g s'.
Proof. unfold out. rewrite lookup_insert. by case_decide. Qed.

Lemma EdgeOf_insert g s m s' d : EdgeOf (<[s := m]> g) s' d =
  if decide (s = s') then m !! d else EdgeOf g s' d.
Proof. unfold EdgeOf. rewrite out_insert. by case_decide. Qed.

Lemma EdgeOf_insert_out g s s' d : EdgeOf (<[s := out g s]> g) s' d = EdgeOf g s' d.
Proof. rewrite EdgeOf_insert. case_decide; by subst. Qed.

Lemma EdgeOf_removeEdgeLocked g s d s' d' :
  EdgeOf (removeEdgeLocked g s d) s' d' =
  if decide (s = s' /\ d = d') then None else EdgeOf g s' d'.
Proof.
  unfold removeEdgeLocked. destruct (g !! s) as [m|] eqn:E.
  2: { case_decide as Hd; [|done]. destruct Hd as [-> ->].
       unfold EdgeOf, out. by rewrite E. }
  assert (forall m', EdgeOf (<[s := m']> g) s' d' =
    if decide (s = s') then m' !! d' else EdgeOf g s' d') as Hi by (intros; apply EdgeOf_insert).
  assert (EdgeOf (if decide (delete d m = ∅) then delete s g else <[s := delete d m]> g) s' d'
    = EdgeOf (<[s := delete d m]> g) s' d') as ->.
  { destruct (decide (delete d m = ∅)) as [He|]; [|done]. rewrite Hi, He. unfold EdgeOf, out.
    rewrite lookup_delete. by case_decide. }
  rewrite Hi. destruct (decide (s = s')) as [<-|].
  - rewrite lookup_delete. unfold EdgeOf, out. rewrite E. simpl.
    repeat case_decide; naive_solver.
  - rewrite decide_False by naive_solver. done.
Qed.

Lemma RemoveEdge_spec g s d :
  RemoveEdge g s d = match EdgeOf g s d with
                     | Some _ => (removeEdgeLocked g s d, None)
                     | None => (g, Some ErrNotFound)
                     end.
Proof.
  unfold RemoveEdge, EdgeOf, out. destruct (g !! s) as [m|]; [done|].
  simpl. by rewrite lookup_empty.
Qed.

(** Whatever it returns, [RemoveEdge] leaves no edge from [s] to [d]. *)
Lemma EdgeOf_RemoveEdge g s d s' d' :
  EdgeOf (fst (RemoveEdge g s d)) s' d' =
  if decide (s = s' /\ d = d') then None else EdgeOf g s' d'.
Proof.
  rewrite RemoveEdge_spec. destruct (EdgeOf g s d) eqn:E; simpl.
  - apply EdgeOf_removeEdgeLocked.
  - case_decide as H; [|done]. by destruct H as [<- <-].
Qed.

(** The outcome of [AddEdge], as the edge sets before and after. *)
Lemma AddEdge_spec g e :
  let (g', err) := AddEdge g e in
  (forall s d, EdgeOf g' s d =
     if decide (err = None /\ Source e = s /\ Destination e = d) then Some e
     else EdgeOf g s d) /\
  (err = None <-> Source e <> "" /\ Destination e <> "" /\
     isBlockedLocked g (Destination e) (Source e) = false /\
     EdgeOf g (Source e) (Destination e) = None).
Proof.
  unfold AddEdge.
  destruct (bool_decide (Source e = "") || bool_decide (Destination e = "")) eqn:Eb.
  { apply orb_true_iff in Eb. rewrite !bool_decide_eq_true in Eb.
    split; [intros; by rewrite decide_False by naive_solver|naive_solver]. }
  apply orb_false_iff in Eb as [?%bool_decide_eq_false ?%bool_decide_eq_false].
  destruct (isBlockedLocked g (Destination e) (Source e)) eqn:Ebl.
  { split; [intros; by rewrite decide_False by naive_solver|naive_solver]. }
  destruct (out g (Source e) !! Destination e) eqn:Em.
  - split.
    + intros. rewrite EdgeOf_insert_out, decide_False by naive_solver. done.
    + unfold EdgeOf. naive_solver.
  - split; [|unfold EdgeOf; naive_solver].
    intros s d. rewrite insert_insert_eq, EdgeOf_insert.
    destruct (decide (Source e = s)) as [<-|].
    + rewrite lookup_insert. repeat case_decide; naive_solver.
    + rewrite decide_False by naive_solver. done.
Qed.

Lemma isBlocked_EdgeOf g s d :
  isBlockedLocked g s d = true <-> exists e, EdgeOf g s d = Some e /\ State e = StateBlocked.
Proof.
  unfold isBlockedLocked, EdgeOf. destruct (out g s !! d) as [e|]; [|naive_solver].
  rewrite Z.eqb_eq. naive_solver.
Qed.

Lemma addEdgeLocked_spec g s d st pos meta :
  let (g', err) := addEdgeLocked g s d st pos meta in
  (forall s' d', EdgeOf g' s' d' =
     if decide (err = None /\ s = s' /\ d = d') then Some (MkEdge s d st pos meta)
     else EdgeOf g s' d') /\
  (err = None <-> EdgeOf g s d = None) /\
  (err = None \/ err = Some ErrAlreadyExists).
Proof.
  unfold addEdgeLocked. destruct (out g s !! d) eqn:Em.
  - split; [|split; [unfold EdgeOf; naive_solver|naive_solver]].
    intros. rewrite EdgeOf_insert_out, decide_False by naive_solver. done.
  - split; [|split; [unfold EdgeOf; naive_solver|naive_solver]].
    intros s' d'. rewrite insert_insert_eq, EdgeOf_insert.
    destruct (decide (s = s')) as [<-|].
    + rewrite lookup_insert. repeat case_decide; naive_solver.
    + rewrite decide_False by naive_solver. done.
Qed.

(** [AddFriend] is all or nothing: when it returns [nil] both directions are
    active edges and every other edge is as before; when it returns an error
    (a block either way, an existing edge either way, or [a = b]) no edge of the
    graph has changed, because the first insertion is rolled back. *)
Theorem AddFriend_atomic g a b pos :
  let (g', err) := AddFriend g a b pos in
  match err with
  | None =>
      EdgeOf g' a b = Some (MkEdge a b StateActive pos None) /\
      EdgeOf g' b a = Some (MkEdge b a StateActive pos None) /\
      (forall s d, ~ (s = a /\ d = b) -> ~ (s = b /\ d = a) -> EdgeOf g' s d = EdgeOf g s d) /\
      EdgeOf g a b = None /\ EdgeOf g b a = None
  | Some _ => forall s d, EdgeOf g' s d = EdgeOf g s d
  end.
Proof.
  unfold AddFriend. destruct (_ || _); [done|].
  pose proof (addEdgeLocked_spec g a b StateActive pos None) as H1.
  destruct (addEdgeLocked g a b StateActive pos None) as [g1 e1].
  destruct H1 as (H1&Hn1&_). destruct e1 as [e1|].
  { intros s d. rewrite H1. by rewrite decide_False by naive_solver. }
  pose proof (addEdgeLocked_spec g1 b a StateActive pos None) as H2.
  destruct (addEdgeLocked g1 b a StateActive pos None) as [g2 e2].
  destruct H2 as (H2&Hn2&_). destruct e2 as [e2|].
  - intros s d. rewrite EdgeOf_insert.
    assert (forall d', EdgeOf g2 a d' = EdgeOf g1 a d') as Hg2.
    { intros. rewrite H2. by rewrite decide_False by naive_solver. }
    destruct (decide (a = s)) as [<-|].
    + rewrite lookup_delete. case_decide; [subst; symmetry; by apply Hn1|].
      transitivity (EdgeOf g2 a d); [done|]. rewrite Hg2, H1.
      by rewrite decide_False by naive_solver.
    + rewrite H2, H1. by rewrite !decide_False by naive_solver.
  - assert (EdgeOf g1 b a = None) as Hba by tauto.
    rewrite H1 in Hba. case_decide as Hd; [done|].
    rewrite !H2, !H1. rewrite (decide_True (P := _ /\ b = b /\ a = a)) by done.
    rewrite decide_False by naive_solver.
    rewrite decide_True by done.
    split; [done|]. split; [done|]. split; [|naive_solver].
    intros s d ??. rewrite H2, H1. by rewrite !decide_False by naive_solver.
Qed.

(** Below the limit, a page is the filtered edges in some order. *)
Lemma Outgoing_filter order after limit st :
  Z.of_nat (length order) <= limit -> 0 < limit ->
  Outgoing order after limit st ≡ₚ List.filter (selected after st) (snd <$> order).
Proof.
  intros Hl Hpos. unfold Outgoing. destruct (Z.leb_spec limit 0); [lia|].
  pose proof (List.filter_length_le (selected after st) (snd <$> order)) as Hf.
  rewrite length_fmap in Hf.
  destruct (Z.ltb_spec limit (Z.of_nat (length (merge_sort newer
    (List.filter (selected after st) (snd <$> order)))))) as [Hlt|].
  - rewrite merge_sort_Permutation in Hlt. lia.
  - apply merge_sort_Permutation.
Qed.

(** The order the map was ranged over does not change which edges are listed. *)
Lemma Outgoing_perm order order' after limit st : order ≡ₚ order' ->
  Z.of_nat (length order) <= limit -> 0 < limit ->
  Outgoing order after limit st ≡ₚ Outgoing order' after limit st.
Proof.
  intros Hp Hl Hpos. rewrite !Outgoing_filter by (rewrite <- ?Hp; done).
  by apply Permutation_bfilter, fmap_Permutation.
Qed.

Lemma merge_sort_newer_take l n : Sorted newer (take n (merge_sort newer l)).
Proof.
  apply StronglySorted_Sorted.
  pose proof (StronglySorted_merge_sort newer l) as H.
  rewrite <- (take_drop n (merge_sort newer l)) in H.
  by apply StronglySorted_app in H as (_&?&_).
Qed.

(** A page of [Outgoing] is in descending position order, has at most [limit]
    entries (50 when none is given), holds only edges of the source that pass the
    state filter and lie strictly before the cursor, and is complete when it is
    shorter than the limit. *)
Theorem Outgoing_page g source order after limit st :
  order ≡ₚ map_to_list (out g source) ->
  let page := Outgoing order after limit st in
  let k := if limit <=? 0 then 50 else limit in
  Sorted newer page /\ Z.of_nat (length page) <= k /\
  (forall e, e ∈ page -> exists d, EdgeOf g source d = Some e /\
     (st = -1 \/ State e = st) /\ (0 < after -> Position e < after)) /\
  (Z.of_nat (length page) < k -> forall d e, EdgeOf g source d = Some e ->
     (st = -1 \/ State e = st) -> (0 < after -> Position e < after) -> e ∈ page).
Proof.
  intros Ho page k.
  assert (Hin: forall e, e ∈ merge_sort newer (List.filter (selected after st) (snd <$> order)) <->
    exists d, EdgeOf g source d = Some e /\ (st = -1 \/ State e = st) /\
      (0 < after -> Position e < after)).
  { intros e. rewrite (merge_sort_Permutation newer), list_elem_of_In, filter_In, <- list_elem_of_In, Ho.
    rewrite list_elem_of_fmap. unfold selected.
    rewrite andb_true_iff, orb_true_iff, negb_true_iff, andb_false_iff,
      !Z.eqb_eq, Z.ltb_ge, Z.leb_gt.
    split.
    - intros [([d e']&->&Hd%elem_of_map_to_list) [Hs Ha]]. exists d. unfold EdgeOf. naive_solver lia.
    - intros (d&Hd&Hs&Ha). split; [|split; [done|lia]].
      exists (d, e). split; [done|]. by apply elem_of_map_to_list. }
  assert (page = take (Z.to_nat k)
    (merge_sort newer (List.filter (selected after st) (snd <$> order)))) as ->.
  { unfold page, Outgoing. fold k. case_match; bool_prop; [done|].
    symmetry. apply take_ge. lia. }
  set (l := merge_sort newer _) in *.
  split; [apply merge_sort_newer_take|]. rewrite length_take.
  assert (0 < k) by (unfold k; destruct (Z.leb_spec limit 0); lia).
  split; [lia|]. split.
  - intros e He. apply Hin. rewrite <- (take_drop (Z.to_nat k) l). set_solver.
  - intros Hlt d e Hd Hs Ha. rewrite take_ge by lia. apply Hin. eauto.
Qed.

Definition sample_graph : edges :=
  fst (AddEdge (fst (AddEdge New (MkEdge "u" "v" 0 10 None))) (MkEdge "u" "w" 0 20 None)).

Lemma Outgoing_page_witness :
  map_to_list (out sample_graph "u") ≡ₚ map_to_list (out sample_graph "u") /\
  Z.of_nat (length (Outgoing (map_to_list (out sample_graph "u")) 0 1 (-1))) <= 1.
Proof.
  split; [done|].
  pose proof (Outgoing_page sample_graph "u" _ 0 1 (-1) (reflexivity _)) as (_&H&_).
  exact H.
Defined.
