(* ===== verification/Group.v ===== *)
(** Groups ([pkg/domain/group/group.go]): an owner, roles, join requests, a ban
    list and a member limit, kept as edges of a [Relationship] graph whose
    sources are the group and whose states are the roles.

    Every operation takes the group's lock for its whole body, so a group's
    history is a sequence of the steps below; [now] is the reading of
    [time.Now] the operation makes. *)
From Stdlib Require Import ZArith Lia Bool.
From stdpp Require Import base numbers strings list gmap fin_maps sorting.
From S2P Require Import Prelude Relationship.

Open Scope Z_scope.

Definition RoleMember : Z := StateActive.
Definition RoleAdmin : Z := StateAdmin.
Definition RoleOwner : Z := StateOwner.
Definition RolePending : Z := StatePending.

Record Group := MkGroup {
  ID : string;
  Name : string;
  OwnerID : string;
  Announcement : string;
  MaxMembers : Z;
  CreatedAt : Z
}.

Record groupState := MkState {
  info : Group;
  graph : gmap string (gmap string Edge);
  banned : gmap string Z
}.

Abbreviation store := (gmap string groupState).

Inductive gErr :=
| ErrRequired | ErrExists | ErrGroupNotFound | ErrAlreadyMember | ErrNotMember
| ErrNotPending | ErrFull | ErrBanned | ErrNotBanned | ErrOwnerCannotLeave
| ErrNoPermission | ErrCannotKickPeer | ErrGraph (e : relErr).

#[global] Instance gErr_eq_dec : EqDecision gErr.
Proof. solve_decision. Defined.

(** ** Helpers over a locked group *)

Definition set_graph (gs : groupState) (g : gmap string (gmap string Edge)) : groupState :=
  MkState (info gs) g (banned gs).
Definition set_banned (gs : groupState) (b : gmap string Z) : groupState :=
  MkState (info gs) (graph gs) b.
Definition set_info (gs : groupState) (i : Group) : groupState :=
  MkState i (graph gs) (banned gs).

Definition roleLocked (gs : groupState) (userID : string) : option (Z * Z) :=
  (fun e => (State e, Position e)) <$> EdgeOf (graph gs) (ID (info gs)) userID.

Definition isBannedLocked (gs : groupState) (userID : string) : bool :=
  match banned gs !! userID with Some _ => true | None => false end.

Definition isMemberState (e : Edge) : bool :=
  (State e =? RoleOwner) || (State e =? RoleAdmin) || (State e =? RoleMember).

(** [MemberCount]'s loop, also run by [isFullLocked]. *)
Definition countMembers (gs : groupState) (source : string) : Z :=
  Z.of_nat (length (List.filter isMemberState
    (Outgoing (map_to_list (out (graph gs) source)) 0 (2 ^ 30) (-1)))).

Definition isFullLocked (gs : groupState) : bool :=
  if MaxMembers (info gs) <=? 0 then false
  else MaxMembers (info gs) <=? countMembers gs (ID (info gs)).

Definition checkPrivilegeLocked (gs : groupState) (actor : string) (required : Z) : option gErr :=
  match roleLocked gs actor with
  | None => Some ErrNotMember
  | Some (role, _) => if role <? required then Some ErrNoPermission else None
  end.

Definition gAdd (gs : groupState) (source dest : string) (st pos : Z) : groupState * option gErr :=
  let '(g, err) := AddEdge (graph gs) (MkEdge source dest st pos None) in
  (set_graph gs g, ErrGraph <$> err).

Definition gRemove (gs : groupState) (source dest : string) : groupState :=
  set_graph gs (fst (RemoveEdge (graph gs) source dest)).

Definition addMemberLocked (gs : groupState) (userID : string) (role now : Z)
    : groupState * option gErr :=
  if isBannedLocked gs userID then (gs, Some ErrBanned)
  else match roleLocked gs userID with
  | Some _ => (gs, Some ErrAlreadyMember)
  | None =>
      if isFullLocked gs then (gs, Some ErrFull)
      else gAdd gs (ID (info gs)) userID role now
  end.

(** ** Store operations *)

(** [get] followed by the group's lock around the rest of the method. *)
Definition with_group (s : store) (groupID : string)
    (f : groupState -> groupState * option gErr) : store * option gErr :=
  match s !! groupID with
  | None => (s, Some ErrGroupNotFound)
  | Some gs => let '(gs', err) := f gs in (<[groupID := gs']> s, err)
  end.

Definition Create (s : store) (g : Group) (now : Z) : store * option gErr :=
  if bool_decide (ID g = "") || bool_decide (OwnerID g = "") then (s, Some ErrRequired)
  else match s !! ID g with
  | Some _ => (s, Some ErrExists)
  | None =>
      let g := if CreatedAt g =? 0
               then MkGroup (ID g) (Name g) (OwnerID g) (Announcement g) (MaxMembers g) now
               else g in
      let gr := fst (AddEdge New (MkEdge (ID g) (OwnerID g) RoleOwner (CreatedAt g) None)) in
      (<[ID g := MkState g gr ∅]> s, None)
  end.

Definition Join (groupID userID : string) (now : Z) (gs : groupState) :=
  addMemberLocked gs userID RoleMember now.

Definition Request (groupID userID : string) (now : Z) (gs : groupState) :=
  if isBannedLocked gs userID then (gs, Some ErrBanned)
  else match roleLocked gs userID with
  | Some _ => (gs, Some ErrAlreadyMember)
  | None =>
      if isFullLocked gs then (gs, Some ErrFull)
      else gAdd gs groupID userID RolePending now
  end.

Definition isPending (gs : groupState) (userID : string) : bool :=
  match roleLocked gs userID with
  | Some (role, _) => role =? RolePending
  | None => false
  end.

Definition Approve (groupID approver userID : string) (now : Z) (gs : groupState) :=
  match checkPrivilegeLocked gs approver RoleAdmin with
  | Some err => (gs, Some err)
  | None =>
      if negb (isPending gs userID) then (gs, Some ErrNotPending)
      else if isFullLocked gs then (gs, Some ErrFull)
      else gAdd (gRemove gs groupID userID) groupID userID RoleMember now
  end.

Definition Reject (groupID approver userID : string) (gs : groupState) :=
  match checkPrivilegeLocked gs approver RoleAdmin with
  | Some err => (gs, Some err)
  | None =>
      if negb (isPending gs userID) then (gs, Some ErrNotPending)
      else (gRemove gs groupID userID, None)
  end.

Definition Leave (groupID userID : string) (gs : groupState) :=
  match roleLocked gs userID with
  | None => (gs, Some ErrNotMember)
  | Some (role, _) =>
      if role =? RoleOwner then (gs, Some ErrOwnerCannotLeave)
      else (gRemove gs groupID userID, None)
  end.

Definition Kick (groupID actor userID : string) (gs : groupState) :=
  match roleLocked gs actor with
  | None => (gs, Some ErrNotMember)
  | Some (actorRole, _) =>
      if actorRole <? RoleAdmin then (gs, Some ErrNoPermission)
      else match roleLocked gs userID with
      | None => (gs, Some ErrNotMember)
      | Some (targetRole, _) =>
          if actorRole <=? targetRole then (gs, Some ErrCannotKickPeer)
          else (gRemove gs groupID userID, None)
      end
  end.

Definition setRole (groupID actor userID : string) (newRole now : Z) (gs : groupState) :=
  match checkPrivilegeLocked gs actor RoleOwner with
  | Some err => (gs, Some err)
  | None =>
      match roleLocked gs userID with
      | None => (gs, Some ErrNotMember)
      | Some _ => gAdd (gRemove gs groupID userID) groupID userID newRole now
      end
  end.

Definition Promote (groupID owner userID : string) (now : Z) :=
  setRole groupID owner userID RoleAdmin now.
Definition Demote (groupID owner userID : string) (now : Z) :=
  setRole groupID owner userID RoleMember now.

Definition TransferOwner (groupID owner newOwner : string) (now : Z) (gs : groupState) :=
  match checkPrivilegeLocked gs owner RoleOwner with
  | Some err => (gs, Some err)
  | None =>
      match roleLocked gs newOwner with
      | None => (gs, Some ErrNotMember)
      | Some _ =>
          let gs := gRemove (gRemove gs groupID owner) groupID newOwner in
          let gs := fst (gAdd gs groupID owner RoleAdmin now) in
          let gs := fst (gAdd gs groupID newOwner RoleOwner (wrap64 (now + 1))) in
          let i := info gs in
          (set_info gs (MkGroup (ID i) (Name i) newOwner (Announcement i)
             (MaxMembers i) (CreatedAt i)), None)
      end
  end.

Definition Ban (groupID actor userID : string) (now : Z) (gs : groupState) :=
  match roleLocked gs actor with
  | None => (gs, Some ErrNotMember)
  | Some (actorRole, _) =>
      if actorRole <? RoleAdmin then (gs, Some ErrNoPermission)
      else
        let peer := match roleLocked gs userID with
                    | Some (targetRole, _) => actorRole <=? targetRole
                    | None => false
                    end in
        if peer : bool then (gs, Some ErrCannotKickPeer)
        else
          let gs := gRemove gs groupID userID in
          (set_banned gs (<[userID := now]> (banned gs)), None)
  end.

Definition Unban (groupID actor userID : string) (gs : groupState) :=
  match checkPrivilegeLocked gs actor RoleAdmin with
  | Some err => (gs, Some err)
  | None =>
      match banned gs !! userID with
      | None => (gs, Some ErrNotBanned)
      | Some _ => (set_banned gs (delete userID (banned gs)), None)
      end
  end.

Definition SetAnnouncement (groupID actor text : string) (gs : groupState) :=
  match checkPrivilegeLocked gs actor RoleAdmin with
  | Some err => (gs, Some err)
  | None =>
      let i := info gs in
      (set_info gs (MkGroup (ID i) (Name i) (OwnerID i) text (MaxMembers i) (CreatedAt i)), None)
  end.

Definition SetMaxMembers (groupID owner : string) (max : Z) (gs : groupState) :=
  match checkPrivilegeLocked gs owner RoleOwner with
  | Some err => (gs, Some err)
  | None =>
      let i := info gs in
      (set_info gs (MkGroup (ID i) (Name i) (OwnerID i) (Announcement i) max (CreatedAt i)), None)
  end.

(** ** Queries *)

Definition Members (groupID : string) (gs : groupState)
    : list string * list string * list string :=
  let l := Outgoing (map_to_list (out (graph gs) groupID)) 0 (2 ^ 30) (-1) in
  let role r := Destination <$> List.filter (fun e => State e =? r) l in
  (role RoleOwner, role RoleAdmin, role RoleMember).

Definition Pending (groupID : string) (gs : groupState) : list string :=
  Destination <$> Outgoing (map_to_list (out (graph gs) groupID)) 0 (2 ^ 30) RolePending.

Definition Role (s : store) (groupID userID : string) : result gErr (Z * Z) :=
  match s !! groupID with
  | None => Err ErrGroupNotFound
  | Some gs => match roleLocked gs userID with
               | Some r => Ok r
               | None => Err (ErrGraph ErrNotFound)
               end
  end.

Definition Banned (gs : groupState) : list string := fst <$> map_to_list (banned gs).
Definition Info (s : store) (groupID : string) : result gErr Group :=
  match s !! groupID with None => Err ErrGroupNotFound | Some gs => Ok (info gs) end.
Definition MemberCount (groupID : string) (gs : groupState) : Z := countMembers gs groupID.

(** * Histories of one group *)

Inductive gop :=
| OJoin (u : string) (now : Z)
| ORequest (u : string) (now : Z)
| OApprove (a u : string) (now : Z)
| OReject (a u : string)
| OLeave (u : string)
| OKick (a u : string)
| OPromote (o u : string) (now : Z)
| ODemote (o u : string) (now : Z)
| OTransfer (o n : string) (now : Z)
| OBan (a u : string) (now : Z)
| OUnban (a u : string)
| OAnnounce (a text : string)
| OMax (o : string) (max : Z).

Definition run_op (gid : string) (op : gop) : groupState -> groupState * option gErr :=
  match op with
  | OJoin u now => Join gid u now
  | ORequest u now => Request gid u now
  | OApprove a u now => Approve gid a u now
  | OReject a u => Reject gid a u
  | OLeave u => Leave gid u
  | OKick a u => Kick gid a u
  | OPromote o u now => Promote gid o u now
  | ODemote o u now => Demote gid o u now
  | OTransfer o n now => TransferOwner gid o n now
  | OBan a u now => Ban gid a u now
  | OUnban a u => Unban gid a u
  | OAnnounce a t => SetAnnouncement gid a t
  | OMax o m => SetMaxMembers gid o m
  end.

Definition run_ops (gid : string) (ops : list gop) (gs : groupState) : groupState :=
  fold_left (fun gs op => fst (run_op gid op gs)) ops gs.

(** The role of a user, the view every operation is about. *)
Definition role (gs : groupState) (u : string) : option Z :=
  State <$> EdgeOf (graph gs) (ID (info gs)) u.

Record wfg (gid : string) (gs : groupState) : Prop := {
  wf_id : ID (info gs) = gid;
  wf_gid : gid <> "";
  wf_edges : forall s d e, EdgeOf (graph gs) s d = Some e ->
    s = gid /\ d <> "" /\ State e <= RoleOwner;
  wf_banned : forall u, is_Some (banned gs !! u) -> role gs u = None
}.

Lemma roleLocked_role gs u : fst <$> roleLocked gs u = role gs u.
Proof. unfold roleLocked, role. by destruct (EdgeOf _ _ _). Qed.

Lemma roleLocked_cases gs u :
  match roleLocked gs u with
  | Some (r, _) => role gs u = Some r
  | None => role gs u = None
  end.
Proof. rewrite <- roleLocked_role. by destruct (roleLocked gs u) as [[]|]. Qed.

Lemma role_gRemove gid gs u v : ID (info gs) = gid ->
  role (gRemove gs gid u) v = if decide (u = v) then None else role gs v.
Proof.
  intros <-. unfold role, gRemove. simpl. rewrite EdgeOf_RemoveEdge.
  repeat case_decide; naive_solver.
Qed.

Lemma gRemove_wf gid gs u : wfg gid gs -> wfg gid (gRemove gs gid u).
Proof.
  intros [Hid Hg He Hb]. constructor; [done|done| |].
  - intros s d e. simpl. rewrite EdgeOf_RemoveEdge. case_decide; [done|apply He].
  - intros v Hv. rewrite role_gRemove by done. case_decide; [done|by apply Hb].
Qed.

Lemma unblocked gid gs u : wfg gid gs -> isBlockedLocked (graph gs) u gid = false.
Proof.
  intros [_ _ He _]. apply not_true_iff_false.
  rewrite isBlocked_EdgeOf. intros (e&Hed&Hs). apply He in Hed as (?&?&?).
  unfold RoleOwner, StateOwner, StateBlocked in *. lia.
Qed.

Lemma role_gAdd gid gs u st pos v : wfg gid gs ->
  role (fst (gAdd gs gid u st pos)) v =
    (if decide (u = v /\ u <> "" /\ role gs u = None) then Some st else role gs v) /\
  (snd (gAdd gs gid u st pos) = None <-> u <> "" /\ role gs u = None).
Proof.
  intros Hwf. pose proof (unblocked _ _ u Hwf) as Hub. destruct Hwf as [Hid Hg He Hb].
  unfold gAdd. pose proof (AddEdge_spec (graph gs) (MkEdge gid u st pos None)) as Hs.
  destruct (AddEdge _ _) as [g' err]. destruct Hs as [Hs Hn]. unfold role; simpl in *.
  rewrite Hid, Hs, Hub in *. split.
  - destruct (EdgeOf (graph gs) gid u) eqn:E; simpl; repeat case_decide; naive_solver.
  - destruct err; simpl; destruct (EdgeOf (graph gs) gid u) eqn:E; naive_solver.
Qed.

Lemma gAdd_wf gid gs u st pos : wfg gid gs -> banned gs !! u = None -> st <= RoleOwner ->
  wfg gid (fst (gAdd gs gid u st pos)).
Proof.
  intros Hwf Hu Hst. pose proof (role_gAdd gid gs u st pos) as Hr.
  pose proof Hwf as [Hid Hg He Hb]. constructor.
  - unfold gAdd. by destruct (AddEdge _ _).
  - done.
  - intros s d e. unfold gAdd.
    pose proof (AddEdge_spec (graph gs) (MkEdge gid u st pos None)) as Hs.
    destruct (AddEdge _ _) as [g' err]. destruct Hs as [Hs Hn]. simpl in *.
    rewrite Hs. destruct (decide (err = None /\ gid = s /\ u = d)) as [Hd|]; [|apply He].
    intros [= <-]. destruct Hd as (Herr&<-&<-). apply Hn in Herr. naive_solver.
  - intros v Hv. destruct (Hr v Hwf) as [-> _]. clear Hr.
    assert (banned (fst (gAdd gs gid u st pos)) = banned gs) as Hbb
      by (unfold gAdd; by destruct (AddEdge _ _)).
    rewrite Hbb in Hv. case_decide as Hd; [|by apply Hb].
    destruct Hd as (->&_). rewrite Hu in Hv. by destruct Hv.
Qed.

Lemma isBannedLocked_false gs u : isBannedLocked gs u = false -> banned gs !! u = None.
Proof. unfold isBannedLocked. by destruct (banned gs !! u). Qed.

Lemma role_not_banned gid gs u r : wfg gid gs -> role gs u = Some r -> banned gs !! u = None.
Proof.
  intros Hwf Hr. destruct (banned gs !! u) eqn:E; [|done].
  rewrite (wf_banned _ _ Hwf u) in Hr by (by eexists). done.
Qed.

Lemma info_gAdd gs s d st pos : info (fst (gAdd gs s d st pos)) = info gs.
Proof. unfold gAdd. by destruct (AddEdge _ _). Qed.
Lemma banned_gAdd gs s d st pos : banned (fst (gAdd gs s d st pos)) = banned gs.
Proof. unfold gAdd. by destruct (AddEdge _ _). Qed.

#[local] Hint Resolve gRemove_wf gAdd_wf isBannedLocked_false : beauty.

Lemma set_info_wf gid gs i : wfg gid gs -> ID i = gid -> wfg gid (set_info gs i).
Proof.
  intros [Hid Hg He Hb] Hi. constructor; [done|done|done|].
  intros u Hu. unfold role. simpl. rewrite Hi, <- Hid. by apply Hb.
Qed.

Lemma role_set_info gs i u : ID i = ID (info gs) -> role (set_info gs i) u = role gs u.
Proof. unfold role. simpl. by intros ->. Qed.

Lemma check_role gs a r : checkPrivilegeLocked gs a r = None ->
  exists ra, role gs a = Some ra /\ r <= ra.
Proof.
  unfold checkPrivilegeLocked. pose proof (roleLocked_cases gs a) as H.
  destruct (roleLocked gs a) as [[ra ?]|]; [|done].
  destruct (ra <? r) eqn:E; [done|]. bool_prop. eauto.
Qed.

Lemma isPending_role gs u : isPending gs u = true <-> role gs u = Some RolePending.
Proof.
  unfold isPending. pose proof (roleLocked_cases gs u) as H.
  destruct (roleLocked gs u) as [[r ?]|]; rewrite H; [|naive_solver].
  rewrite Z.eqb_eq. naive_solver.
Qed.

(** Every guard of an operation, turned into a fact about roles and bans. *)
Ltac guards :=
  repeat match goal with
  | |- context [match checkPrivilegeLocked ?gs ?a ?r with _ => _ end] =>
      let E := fresh "Echk" in destruct (checkPrivilegeLocked gs a r) eqn:E;
      [|apply check_role in E as (?&?&?)]
  | |- context [match roleLocked ?gs ?u with _ => _ end] =>
      let H := fresh "Hrole" in pose proof (roleLocked_cases gs u) as H;
      destruct (roleLocked gs u) as [[? ?]|]
  | |- context [if isBannedLocked ?gs ?u then _ else _] =>
      let E := fresh "Eban" in destruct (isBannedLocked gs u) eqn:E;
      [|apply isBannedLocked_false in E]
  | |- context [if isFullLocked ?gs then _ else _] =>
      let E := fresh "Efull" in destruct (isFullLocked gs) eqn:E
  | |- context [if negb (isPending ?gs ?u) then _ else _] =>
      let E := fresh "Epend" in destruct (isPending gs u) eqn:E; simpl negb; cbv iota;
      [apply isPending_role in E|]
  | |- context [if ?a <? ?b then _ else _] => destruct (Z.ltb_spec a b)
  | |- context [if ?a <=? ?b then _ else _] => destruct (Z.leb_spec a b)
  | |- context [if ?a =? ?b then _ else _] => destruct (Z.eqb_spec a b)
  end; simpl fst; simpl snd.

(** Banning removes the membership first, so the invariant holds for the user. *)
Lemma ban_wf gid gs u now : wfg gid gs ->
  wfg gid (set_banned (gRemove gs gid u) (<[u := now]> (banned gs))).
Proof.
  intros Hwf. pose proof (gRemove_wf _ _ u Hwf) as [Hid Hg He Hb].
  constructor; [done|done|done|]. intros v Hv.
  change (role (set_banned ?x _) v) with (role x v).
  rewrite role_gRemove by apply Hwf. case_decide as Huv; [done|].
  apply (wf_banned _ _ Hwf). simpl in Hv. by rewrite lookup_insert_ne in Hv.
Qed.

Lemma unban_wf gid gs u : wfg gid gs -> wfg gid (set_banned gs (delete u (banned gs))).
Proof.
  intros [Hid Hg He Hb]. constructor; [done|done|done|]. intros v [x Hv].
  simpl in Hv. rewrite lookup_delete in Hv. case_decide; [done|]. apply Hb. by exists x.
Qed.

Lemma run_op_wf gid op gs : wfg gid gs -> wfg gid (fst (run_op gid op gs)).
Proof.
  intros Hwf. pose proof (wf_id _ _ Hwf) as Hid.
  destruct op; simpl;
    unfold Join, addMemberLocked, Request, Approve, Reject, Leave, Kick, Promote, Demote,
      setRole, TransferOwner, Ban, Unban, SetAnnouncement, SetMaxMembers; guards; auto with beauty.
  all: rewrite ?Hid.
  all: try (apply gAdd_wf; [auto with beauty| |done]; first
    [done | by eapply role_not_banned | simpl; by eapply role_not_banned]).
  all: try (apply set_info_wf; [done|done]).
  - apply set_info_wf; [|by rewrite !info_gAdd].
    apply gAdd_wf; [|rewrite banned_gAdd; simpl; by eapply role_not_banned|done].
    apply gAdd_wf; [by do 2 apply gRemove_wf|simpl; by eapply role_not_banned|done].
  - by apply ban_wf.
  - by apply ban_wf.
  - case_match; [by apply unban_wf|done].
Qed.

(** The group has one owner, and it is the one its entity names. *)
Definition owner_ok (gs : groupState) : Prop :=
  role gs (OwnerID (info gs)) = Some RoleOwner /\
  forall u, role gs u = Some RoleOwner -> u = OwnerID (info gs).

(** The calls the code does not guard: an owner changing its own role, or
    transferring the group to itself. *)
Definition guarded (gs : groupState) (op : gop) : bool :=
  match op with
  | OPromote _ u _ | ODemote _ u _ => bool_decide (u <> OwnerID (info gs))
  | OTransfer o n _ => bool_decide (n <> o)
  | _ => true
  end.

Lemma owner_ok_remove gid gs u : wfg gid gs -> owner_ok gs -> u <> OwnerID (info gs) ->
  owner_ok (gRemove gs gid u).
Proof.
  intros Hwf [Ho Hu] Hne. split; simpl.
  - rewrite role_gRemove by apply Hwf. by rewrite decide_False.
  - intros v. rewrite role_gRemove by apply Hwf. case_decide; [done|apply Hu].
Qed.

Lemma owner_ok_add gid gs u st pos : wfg gid gs -> owner_ok gs -> st <> RoleOwner ->
  owner_ok (fst (gAdd gs gid u st pos)).
Proof.
  intros Hwf [Ho Hu] Hne. unfold owner_ok. rewrite info_gAdd. split.
  - destruct (role_gAdd gid gs u st pos (OwnerID (info gs)) Hwf) as [-> _].
    case_decide; naive_solver.
  - intros v. destruct (role_gAdd gid gs u st pos v Hwf) as [-> _].
    case_decide; naive_solver.
Qed.

Lemma role_le_owner gid gs u r : wfg gid gs -> role gs u = Some r -> u <> "" /\ r <= RoleOwner.
Proof.
  intros Hwf. unfold role. destruct (EdgeOf _ _ _) eqn:E; [|done]. intros [= <-].
  apply (wf_edges _ _ Hwf) in E as (_&?&?). done.
Qed.

Lemma transfer_owner gid gs o n now : wfg gid gs -> owner_ok gs ->
  n <> o -> owner_ok (fst (TransferOwner gid o n now gs)).
Proof.
  intros Hwf [Ho Hu] Hne. unfold TransferOwner. guards; try done.
  destruct (role_le_owner _ _ _ _ Hwf Hrole) as [Hn _].
  pose proof (role_le_owner _ _ _ _ Hwf H) as [Hoe _].
  set (g1 := gRemove (gRemove gs gid o) gid n).
  assert (Hw1: wfg gid g1) by (do 2 apply gRemove_wf; done).
  set (g2 := fst (gAdd g1 gid o RoleAdmin now)).
  assert (Hw2: wfg gid g2) by
    (apply gAdd_wf; [done|simpl; by eapply role_not_banned|done]).
  assert (Hr1: forall v, role g1 v = if decide (n = v) then None else
    if decide (o = v) then None else role gs v).
  { intros v. unfold g1. rewrite !role_gRemove by (simpl; apply Hwf). done. }
  assert (Hr2: forall v, role g2 v = if decide (o = v) then Some RoleAdmin else role g1 v).
  { intros v. destruct (role_gAdd gid g1 o RoleAdmin now v Hw1) as [E _]. fold g2 in E. rewrite E, !Hr1.
    repeat case_decide; naive_solver. }
  assert (Hr3: forall v, role (fst (gAdd g2 gid n RoleOwner (wrap64 (now + 1)))) v =
    if decide (n = v) then Some RoleOwner else role g2 v).
  { intros v. destruct (role_gAdd gid g2 n RoleOwner (wrap64 (now + 1)) v Hw2) as [-> _].
    rewrite !Hr2, !Hr1. repeat case_decide; naive_solver. }
  assert (o = OwnerID (info gs)) as Hoo.
  { apply Hu. rewrite H. f_equal. pose proof (role_le_owner _ _ _ _ Hwf H). lia. }
  unfold owner_ok. simpl. split.
  - rewrite role_set_info by (by rewrite !info_gAdd). rewrite Hr3. by rewrite decide_True.
  - intros v. rewrite role_set_info by (by rewrite !info_gAdd). rewrite Hr3, Hr2, Hr1.
    repeat case_decide; try done. intros Hv%Hu. congruence.
Qed.

Lemma run_op_owner gid op gs : wfg gid gs -> owner_ok gs -> guarded gs op = true ->
  owner_ok (fst (run_op gid op gs)).
Proof.
  intros Hwf Hok Hg. pose proof (wf_id _ _ Hwf) as Hid.
  destruct op; simpl in *; try (apply bool_decide_eq_true in Hg);
    try (by apply transfer_owner);
    unfold Join, addMemberLocked, Request, Approve, Reject, Leave, Kick, Promote, Demote,
      setRole, Ban, Unban, SetAnnouncement, SetMaxMembers; guards; auto;
    rewrite ?Hid; try (by apply owner_ok_add); try (by case_match).
  all: pose proof (proj1 Hok) as Hor.
  all: try (apply owner_ok_add; [by apply gRemove_wf| |done]).
  all: try (apply owner_ok_remove; [done|done|]).
  all: try (intros ->; rewrite Hor in *; simplify_eq).
  all: try done.
  all: try (match goal with H : role _ ?a = Some ?r |- _ =>
    pose proof (proj2 (role_le_owner _ _ _ _ Hwf H)); lia end).
Qed.

(** * Histories of the store *)

Section histories.
Variable allowed : groupState -> gop -> bool.

Inductive reachable : store -> Prop :=
| reach_new : reachable ∅
| reach_create s g now : reachable s -> reachable (fst (Create s g now))
| reach_op s gid op : reachable s ->
    (forall gs, s !! gid = Some gs -> allowed gs op = true) ->
    reachable (fst (with_group s gid (run_op gid op))).

Lemma created_ok s g now gid gs :
  fst (Create s g now) !! gid = Some gs ->
  s !! gid = Some gs \/ (wfg gid gs /\ owner_ok gs).
Proof.
  unfold Create. destruct (bool_decide _ || bool_decide _) eqn:E; [by left|].
  apply orb_false_iff in E as [E1%bool_decide_eq_false E2%bool_decide_eq_false].
  destruct (s !! ID g) eqn:Es; [by left|]. simpl.
  set (g' := if CreatedAt g =? 0 then _ else g).
  assert (ID g' = ID g /\ OwnerID g' = OwnerID g) as [HID HO]
    by (unfold g'; by case_match).
  rewrite lookup_insert. case_decide as Hd; [|by left]. intros [= <-]. right.
  pose proof (AddEdge_spec New (MkEdge (ID g') (OwnerID g') RoleOwner (CreatedAt g') None)) as H.
  destruct (AddEdge _ _) as [gr err]. destruct H as [H Hn]. cbn [Source Destination] in H, Hn.
  assert (forall s d, EdgeOf New s d = None) as H0
    by (intros; unfold EdgeOf, out, New; by rewrite lookup_empty).
  assert (err = None) as ->.
  { apply Hn. rewrite HID, HO, H0. done. }
  assert (H1: forall s d, EdgeOf gr s d = if decide (ID g' = s /\ OwnerID g' = d)
    then Some (MkEdge (ID g') (OwnerID g') RoleOwner (CreatedAt g') None) else None).
  { intros s' d. rewrite H, H0. repeat case_decide; naive_solver. }
  clear H Hn H0. rename H1 into H. rewrite <- HID in *. subst gid.
  assert (forall u, role (MkState g' gr ∅) u =
    if decide (OwnerID g' = u) then Some RoleOwner else None) as Hr.
  { intros u. unfold role. simpl. rewrite H. repeat case_decide; naive_solver. }
  split.
  - constructor; [done|done| |].
    + intros s' d e. simpl. rewrite H. case_decide as Hd; [|done].
      intros [= <-]. destruct Hd as (<-&<-). simpl. split; [done|].
      split; [by rewrite HO|done].
    + intros u [x Hx]. simpl in Hx. by rewrite lookup_empty in Hx.
  - split; simpl.
    + rewrite Hr. by rewrite decide_True.
    + intros u. rewrite Hr. by case_decide.
Qed.

Lemma with_group_lookup s gid f gid' gs' :
  fst (with_group s gid f) !! gid' = Some gs' ->
  s !! gid' = Some gs' \/
  (gid = gid' /\ exists gs, s !! gid = Some gs /\ gs' = fst (f gs)).
Proof.
  unfold with_group. destruct (s !! gid) as [gs|] eqn:E; [|by left].
  destruct (f gs) as [g1 err] eqn:Ef. simpl. rewrite lookup_insert.
  case_decide; [|by left]. intros [= <-]. right. split; [done|].
  exists gs. by rewrite Ef.
Qed.

Lemma reachable_wf s : reachable s -> forall gid gs, s !! gid = Some gs -> wfg gid gs.
Proof.
  induction 1 as [|s g now _ IH|s gid op _ IH _]; intros gid' gs' H.
  - by rewrite lookup_empty in H.
  - apply created_ok in H as [H|[H _]]; [by apply IH|done].
  - apply with_group_lookup in H as [H|(<-&gs&H&->)]; [by apply IH|].
    by apply run_op_wf, IH.
Qed.

End histories.

Definition any_op (gs : groupState) (op : gop) : bool := true.

(** C7: in every reachable store, a user on a group's ban list holds no role in it,
    not even a pending request, and both ways of coming back in are refused:
    [Join] and [Request] return [ErrBanned] and leave the group unchanged. *)
Theorem banned_stays_out s gid gs u t now : reachable any_op s ->
  s !! gid = Some gs -> banned gs !! u = Some t ->
  role gs u = None /\
  Join gid u now gs = (gs, Some ErrBanned) /\ Request gid u now gs = (gs, Some ErrBanned).
Proof.
  intros Hr Hs Hb. pose proof (reachable_wf _ _ Hr _ _ Hs) as Hwf.
  split; [apply (wf_banned _ _ Hwf); by eexists|].
  unfold Join, addMemberLocked, Request, isBannedLocked. by rewrite Hb.
Qed.

(** C6: as long as no owner changes its own role or transfers to itself, every
    reachable group has exactly one owner, and it is the user its entity names. *)
Theorem owner_unique s gid gs : reachable guarded s -> s !! gid = Some gs -> owner_ok gs.
Proof.
  intros Hr. revert gid gs. induction Hr as [|s g now Hr IH|s gid op Hr IH Hal]; intros gid' gs' H.
  - by rewrite lookup_empty in H.
  - apply created_ok in H as [H|[_ H]]; [by eapply IH|done].
  - apply with_group_lookup in H as [H|(<-&gs&H&->)]; [by eapply IH|].
    apply run_op_owner; [by eapply reachable_wf|by eapply IH|by apply Hal].
Qed.

Lemma role_replace gid gs u r r0 now v : wfg gid gs -> role gs u = Some r0 -> 
  role (fst (gAdd (gRemove gs gid u) gid u r now)) v =
  if decide (u = v) then Some r else role gs v.
Proof.
  intros Hwf Hu. destruct (role_le_owner _ _ _ _ Hwf Hu) as [Hne _].
  destruct (role_gAdd gid (gRemove gs gid u) u r now v (gRemove_wf _ _ _ Hwf)) as [-> _].
  rewrite !role_gRemove by apply Hwf. repeat case_decide; naive_solver.
Qed.

Lemma owner_check gs : owner_ok gs -> checkPrivilegeLocked gs (OwnerID (info gs)) RoleOwner = None.
Proof.
  intros [Ho _]. unfold checkPrivilegeLocked.
  pose proof (roleLocked_cases gs (OwnerID (info gs))) as H.
  destruct (roleLocked _ _) as [[r ?]|]; [|congruence].
  rewrite Ho in H. injection H as <-. done.
Qed.

(** The two unguarded calls break that: an owner that demotes itself, or
    transfers the group to itself, gets [nil] and leaves a group with no owner at
    all, whose entity still names it. *)
Theorem self_transfer_orphans gid gs now : wfg gid gs -> owner_ok gs ->
  let o := OwnerID (info gs) in
  forall op, op = ODemote o o now \/ op = OTransfer o o now ->
  snd (run_op gid op gs) = None /\
  OwnerID (info (fst (run_op gid op gs))) = o /\
  forall u, role (fst (run_op gid op gs)) u <> Some RoleOwner.
Proof.
  intros Hwf Hok o op Hop. pose proof (owner_check gs Hok) as Hc. fold o in Hc.
  destruct Hok as [Ho Hu]. fold o in Ho.
  destruct (role_le_owner _ _ _ _ Hwf Ho) as [Hne _].
  pose proof (roleLocked_cases gs o) as Hrl.
  destruct Hop as [-> | ->]; simpl;
    unfold Demote, setRole, TransferOwner; rewrite Hc;
    destruct (roleLocked gs o) as [[r ?]|]; try congruence.
  - split; [|split; [by rewrite info_gAdd|]].
    + apply (role_gAdd gid (gRemove gs gid o) o RoleMember now o (gRemove_wf _ _ _ Hwf)).
      split; [done|]. rewrite role_gRemove by apply Hwf. by rewrite decide_True.
    + intros u. rewrite (role_replace _ _ _ _ RoleOwner) by done.
      case_decide as Hd; [done|]. intros ?%Hu. by apply Hd.
  - split; [done|]. split; [done|]. intros u. simpl.
    rewrite role_set_info by (by rewrite !info_gAdd).
    set (g1 := gRemove (gRemove gs gid o) gid o).
    assert (Hg1: forall v, role g1 v = if decide (o = v) then None else role gs v).
    { intros v. unfold g1. rewrite !role_gRemove by (simpl; apply Hwf). by case_decide. }
    assert (wfg gid g1) as Hw1 by (do 2 apply gRemove_wf; done).
    assert (wfg gid (fst (gAdd g1 gid o RoleAdmin now))) as Hw2
      by (apply gAdd_wf; [done|simpl; by eapply role_not_banned|done]).
    destruct (role_gAdd gid _ o RoleOwner (wrap64 (now + 1)) u Hw2) as [-> _].
    destruct (role_gAdd gid g1 o RoleAdmin now o Hw1) as [Hro _].
    destruct (role_gAdd gid g1 o RoleAdmin now u Hw1) as [-> _].
    assert (role g1 o = None) as Hg1o by (rewrite Hg1; by rewrite decide_True).
    rewrite Hg1o, decide_True in Hro by done.
    rewrite Hg1o, Hro, Hg1, decide_False by (intros (_&_&[=])).
    clear Hro Hg1 Hg1o. repeat case_decide; try done; intros ?%Hu; naive_solver.
Qed.

(** * The member limit *)

Definition cnt (m : gmap string Edge) : Z :=
  Z.of_nat (length (List.filter isMemberState (map_to_list m).*2)).

Lemma filter_all {A} (f : A -> bool) l : (forall x, f x = true) -> List.filter f l = l.
Proof. intros H. induction l as [|x l IH]; simpl; [done|]. by rewrite H, IH. Qed.

Lemma countMembers_cnt gs gid : Z.of_nat (size (out (graph gs) gid)) <= 2 ^ 30 ->
  countMembers gs gid = cnt (out (graph gs) gid).
Proof.
  intros Hs. unfold countMembers, cnt. f_equal. apply Permutation_length, Permutation_bfilter.
  rewrite Outgoing_filter; [|by rewrite length_map_to_list|lia].
  rewrite filter_all; [done|]. intros e. unfold selected. by rewrite andb_true_r.
Qed.

Lemma cnt_insert m u e : m !! u = None ->
  cnt (<[u := e]> m) = cnt m + (if isMemberState e then 1 else 0).
Proof.
  intros H. unfold cnt.
  rewrite (Permutation_length (Permutation_bfilter _ _ _
    (fmap_Permutation snd _ _ (map_to_list_insert m u e H)))).
  rewrite fmap_cons. cbn [snd List.filter].
  destruct (isMemberState e); cbn [length]; lia.
Qed.

Lemma cnt_delete m u e : m !! u = Some e ->
  cnt (delete u m) = cnt m - (if isMemberState e then 1 else 0).
Proof.
  intros H. rewrite <- (insert_delete_id m u e H) at 2.
  rewrite cnt_insert by apply lookup_delete_eq. lia.
Qed.

Lemma out_gRemove gid gs u : out (graph (gRemove gs gid u)) gid = delete u (out (graph gs) gid).
Proof.
  apply map_eq. intros v. pose proof (EdgeOf_RemoveEdge (graph gs) gid u gid v) as H.
  unfold EdgeOf in H. simpl. rewrite H, lookup_delete. repeat case_decide; naive_solver.
Qed.

Lemma out_gAdd gid gs u st pos : snd (gAdd gs gid u st pos) = None ->
  out (graph gs) gid !! u = None /\
  out (graph (fst (gAdd gs gid u st pos))) gid = <[u := MkEdge gid u st pos None]> (out (graph gs) gid).
Proof.
  unfold gAdd. pose proof (AddEdge_spec (graph gs) (MkEdge gid u st pos None)) as H.
  destruct (AddEdge _ _) as [g' err]. destruct H as [H Hn]. simpl.
  destruct err; [done|]. intros _.
  destruct (proj1 Hn eq_refl) as (_&_&_&He). split; [done|].
  apply map_eq. intros v. specialize (H gid v). unfold EdgeOf in H. simpl in H.
  rewrite H, lookup_insert. repeat case_decide; naive_solver.
Qed.

(** Admission respects the limit: when [Join] or [Approve] returns [nil] the
    group has exactly one more member and, if it has a limit, still no more than
    the limit; a request never adds a member. *)
Theorem admission_capacity gid gs op : wfg gid gs ->
  Z.of_nat (size (out (graph gs) gid)) < 2 ^ 30 ->
  snd (run_op gid op gs) = None ->
  let gs' := fst (run_op gid op gs) in
  let limit := MaxMembers (info gs) in
  match op with
  | OJoin _ _ | OApprove _ _ _ =>
      MemberCount gid gs' = MemberCount gid gs + 1 /\
      (0 < limit -> MemberCount gid gs' <= limit)
  | ORequest _ _ => MemberCount gid gs' = MemberCount gid gs
  | _ => True
  end.
Proof.
  intros Hwf Hsz Hret gs' limit. pose proof (wf_id _ _ Hwf) as Hid.
  assert (Hc: MemberCount gid gs = cnt (out (graph gs) gid)) by (apply countMembers_cnt; lia).
  assert (Hfull: isFullLocked gs = false -> 0 < limit -> MemberCount gid gs < limit).
  { unfold isFullLocked, limit, MemberCount. rewrite Hid. intros. case_all. }
  destruct op; try done; subst gs'; simpl in *; revert Hret;
    unfold Join, addMemberLocked, Request, Approve; guards; try done; intros Hret.
  all: rewrite ?Hid in *; apply out_gAdd in Hret as [Hn Ho].
  - unfold MemberCount. rewrite countMembers_cnt; rewrite Ho.
    + rewrite cnt_insert by done. fold (MemberCount gid gs). rewrite Hc.
      split; [done|]. intros. specialize (Hfull eq_refl ltac:(lia)). rewrite Hc in Hfull.
      simpl. lia.
    + rewrite map_size_insert_None by done. lia.
  - unfold MemberCount. rewrite countMembers_cnt; rewrite Ho.
    + rewrite cnt_insert by done. fold (MemberCount gid gs). rewrite Hc. simpl. lia.
    + rewrite map_size_insert_None by done. lia.
  - rewrite out_gRemove in Hn, Ho. unfold role, EdgeOf in Epend. rewrite Hid in Epend.
    destruct (out (graph gs) gid !! u) as [e|] eqn:Eu; [|done].
    injection Epend as He.
    assert (isMemberState e = false) as Hme by (unfold isMemberState; by rewrite He).
    unfold MemberCount. rewrite countMembers_cnt; rewrite Ho.
    + rewrite cnt_insert, (cnt_delete _ _ e) by done. rewrite Hme.
      fold (MemberCount gid gs). rewrite Hc. simpl. split; [lia|].
      intros. specialize (Hfull eq_refl ltac:(lia)). rewrite Hc in Hfull. lia.
    + rewrite insert_delete_eq, map_size_insert_Some by (rewrite Eu; done). lia.
Qed.

(** [Promote] does not ask whether its target is a member: it admits a pending
    request directly, past the approval flow and past the member limit. *)
Theorem promote_pending_overflows : exists s gs,
  reachable guarded s /\ s !! "g" = Some gs /\ MaxMembers (info gs) = 2 /\
  MemberCount "g" gs = 2 /\ role gs "p" = Some RolePending /\
  snd (run_op "g" (OPromote "o" "p" 4) gs) = None /\
  MemberCount "g" (fst (run_op "g" (OPromote "o" "p" 4) gs)) = 3.
Proof.
  set (s0 := fst (Create ∅ (MkGroup "g" "" "o" "" 2 1) 1)).
  set (s1 := fst (with_group s0 "g" (run_op "g" (ORequest "p" 2)))).
  set (s2 := fst (with_group s1 "g" (run_op "g" (OJoin "q" 3)))).
  exists s2. destruct (s2 !! "g") as [gs|] eqn:E; [|by vm_compute in E].
  exists gs. split.
  - unfold s2, s1. do 2 (apply reach_op; [|done]). apply reach_create, reach_new.
  - split; [done|]. vm_compute in E. injection E as <-. by vm_compute.
Qed.

(** ** Witnesses *)

Definition sample : groupState :=
  match fst (Create ∅ (MkGroup "g" "n" "o" "" 3 1) 1) !! "g" with
  | Some gs => gs
  | None => MkState (MkGroup "" "" "" "" 0 0) ∅ ∅
  end.

Lemma sample_ok : wfg "g" sample /\ owner_ok sample.
Proof.
  assert (Hs : fst (Create (∅ : store) (MkGroup "g" "n" "o" "" 3 1) 1) !! "g" = Some sample)
    by (vm_compute; reflexivity).
  apply created_ok in Hs as [H|H]; [|done]. by rewrite lookup_empty in H.
Qed.

Lemma self_transfer_orphans_witness :
  wfg "g" sample /\ owner_ok sample /\
  snd (run_op "g" (OTransfer "o" "o" 5) sample) = None.
Proof.
  destruct sample_ok as [H1 H2]. split; [done|]. split; [done|].
  apply (self_transfer_orphans "g" sample 5 H1 H2 (OTransfer "o" "o" 5)). by right.
Defined.

Lemma admission_capacity_witness :
  wfg "g" sample /\ snd (run_op "g" (OJoin "q" 2) sample) = None /\
  MemberCount "g" (fst (run_op "g" (OJoin "q" 2) sample)) = MemberCount "g" sample + 1.
Proof.
  destruct sample_ok as [H1 _]. split; [done|]. split; [vm_compute; reflexivity|].
  refine (proj1 (admission_capacity "g" sample (OJoin "q" 2) H1 _ _)); by vm_compute.
Defined.

Lemma owner_unique_witness : exists s gs,
  reachable guarded s /\ s !! "g" = Some gs /\ owner_ok gs.
Proof.
  set (s := fst (Create ∅ (MkGroup "g" "n" "o" "" 3 1) 1)).
  assert (reachable guarded s) as Hr by apply reach_create, reach_new.
  exists s, sample. split; [done|]. split; [vm_compute; reflexivity|].
  apply (owner_unique s "g" sample Hr). vm_compute. reflexivity.
Defined.

Lemma banned_stays_out_witness : exists s gs,
  reachable any_op s /\ s !! "g" = Some gs /\ banned gs !! "x" = Some 7 /\
  role gs "x" = None.
Proof.
  set (s := fst (with_group (fst (Create ∅ (MkGroup "g" "n" "o" "" 3 1) 1)) "g"
    (run_op "g" (OBan "o" "x" 7)))).
  assert (reachable any_op s) as Hr
    by (apply reach_op; [apply reach_create, reach_new|done]).
  exists s, (fst (run_op "g" (OBan "o" "x" 7) sample)).
  split; [done|]. split; [vm_compute; reflexivity|]. split; [vm_compute; reflexivity|].
  apply (banned_stays_out s "g" _ "x" 7 0 Hr); vm_compute; reflexivity.
Defined.
