(* ===== verification/Party.v ===== *)
(** The party of players ([pkg/domain/party/party.go]): a leader, members in join
    order, a queue of join requests with reserved seats. *)
From Stdlib Require Import ZArith Lia Bool.
From stdpp Require Import base numbers strings list gmap fin_maps.
From S2P Require Import Prelude.

Open Scope Z_scope.

Record Member := MkMember { UserID : string; SessionID : string; Username : string }.

Record JoinRequest := MkRequest { rMember : Member; Reserved : bool }.

(** The members are listed in the order of a map range, which is any. *)
Record Snapshot := MkSnap {
  sID : string;
  LeaderID : string;
  sMembers : list Member;
  JoinRequests : list JoinRequest;
  Open : bool;
  MaxSize : Z
}.

Record Party := MkParty {
  id : string;
  leader : Member;
  members : gmap string Member;
  joinOrder : list string;
  requests : list JoinRequest;
  open : bool;
  maxSize : Z;
  reserved : Z;
  hasOnChange : bool;
  stopped : bool
}.

Inductive pErr :=
| ErrPartyFull | ErrNotLeader | ErrAlreadyMember
| ErrStopped | ErrAlreadyRequested | ErrNoRequest | ErrNoMember.

#[global] Instance pErr_eq_dec : EqDecision pErr.
Proof. solve_decision. Defined.

Definition New (i : string) (l : Member) (onChange isOpen : bool) (max : Z) : Party :=
  MkParty i l {[UserID l := l]} [UserID l] [] isOpen max 0 onChange false.

Definition snapshotLocked (p : Party) : Snapshot :=
  MkSnap (id p) (UserID (leader p)) (snd <$> map_to_list (members p)) (requests p)
    (open p) (maxSize p).

(** The snapshots handed to [onChange] by an operation. *)
Definition notifyLocked (p : Party) : list Snapshot :=
  if hasOnChange p then [snapshotLocked p] else [].

Definition canAddLocked (p : Party) : option pErr :=
  if maxSize p <=? 0 then None
  else if maxSize p <=? Z.of_nat (size (members p)) + reserved p then Some ErrPartyFull
  else None.

(** Remove the first occurrence. *)
Fixpoint remove_first (u : string) (l : list string) : list string :=
  match l with
  | [] => []
  | x :: l => if decide (x = u) then l else x :: remove_first u l
  end.

Definition removeJoinOrderLocked (p : Party) (u : string) : Party :=
  MkParty (id p) (leader p) (members p) (remove_first u (joinOrder p)) (requests p)
    (open p) (maxSize p) (reserved p) (hasOnChange p) (stopped p).

Definition set_members (p : Party) (m : gmap string Member) (o : list string) : Party :=
  MkParty (id p) (leader p) m o (requests p) (open p) (maxSize p) (reserved p)
    (hasOnChange p) (stopped p).
Definition set_requests (p : Party) (r : list JoinRequest) (n : Z) : Party :=
  MkParty (id p) (leader p) (members p) (joinOrder p) r (open p) (maxSize p) n
    (hasOnChange p) (stopped p).
Definition set_leader (p : Party) (l : Member) : Party :=
  MkParty (id p) l (members p) (joinOrder p) (requests p) (open p) (maxSize p) (reserved p)
    (hasOnChange p) (stopped p).
Definition set_stopped (p : Party) (b : bool) : Party :=
  MkParty (id p) (leader p) (members p) (joinOrder p) (requests p) (open p) (maxSize p)
    (reserved p) (hasOnChange p) b.

(** The result of an operation: the party, the error, the snapshots sent. *)
Definition outcome : Type := Party * option pErr * list Snapshot.
Definition refuse (p : Party) (e : pErr) : outcome := (p, Some e, []).
Definition done_with (p : Party) : outcome := (p, None, notifyLocked p).

Definition has_request (u : string) (l : list JoinRequest) : bool :=
  existsb (fun r => bool_decide (UserID (rMember r) = u)) l.

Definition RequestJoin (m : Member) (p : Party) : outcome :=
  if stopped p then refuse p ErrStopped
  else match members p !! UserID m with
  | Some _ => refuse p ErrAlreadyMember
  | None =>
      match canAddLocked p with
      | Some e => refuse p e
      | None =>
          if open p
          then done_with (set_members p (<[UserID m := m]> (members p)) (joinOrder p ++ [UserID m]))
          else if has_request (UserID m) (requests p) then refuse p ErrAlreadyRequested
          else done_with (set_requests p (requests p ++ [MkRequest m true]) (reserved p + 1))
      end
  end.

(** The first request of a user: the ones before it, itself, the ones after. *)
Fixpoint split_request (u : string) (l : list JoinRequest)
    : option (list JoinRequest * JoinRequest * list JoinRequest) :=
  match l with
  | [] => None
  | r :: l =>
      if decide (UserID (rMember r) = u) then Some ([], r, l)
      else match split_request u l with
      | None => None
      | Some (a, x, b) => Some (r :: a, x, b)
      end
  end.

Definition Accept (leaderID userID : string) (p : Party) : outcome :=
  if negb (bool_decide (leaderID = UserID (leader p))) then refuse p ErrNotLeader
  else match split_request userID (requests p) with
  | None => refuse p ErrNoRequest
  | Some (a, r, b) =>
      let p := set_requests p (a ++ b) (if Reserved r then reserved p - 1 else reserved p) in
      let m := rMember r in
      done_with (set_members p (<[UserID m := m]> (members p)) (joinOrder p ++ [UserID m]))
  end.

(** The first user of the join order who is still a member. *)
Fixpoint next_leader (m : gmap string Member) (l : list string) : option Member :=
  match l with
  | [] => None
  | u :: l => match m !! u with Some x => Some x | None => next_leader m l end
  end.

Definition Remove (leaderID userID : string) (p : Party) : outcome :=
  if negb (bool_decide (leaderID = userID)) && negb (bool_decide (leaderID = UserID (leader p)))
  then refuse p ErrNotLeader
  else match members p !! userID with
  | None => refuse p ErrNoMember
  | Some _ =>
      let p := set_members p (delete userID (members p)) (joinOrder p) in
      let p := removeJoinOrderLocked p userID in
      let p :=
        if bool_decide (userID = UserID (leader p)) then
          let p := match next_leader (members p) (joinOrder p) with
            | Some m => set_leader p m
            | None => p
            end in
          if decide (size (members p) = 0%nat) then set_stopped p true else p
        else p in
      done_with p
  end.

Definition Promote (leaderID newLeaderID : string) (p : Party) : outcome :=
  if negb (bool_decide (leaderID = UserID (leader p))) then refuse p ErrNotLeader
  else match members p !! newLeaderID with
  | None => refuse p ErrNoMember
  | Some m => done_with (set_leader p m)
  end.

Definition Members (p : Party) : list Member := snd <$> map_to_list (members p).
Definition Leader (p : Party) : string := UserID (leader p).
Definition Stopped (p : Party) : bool := stopped p.
Definition Count (p : Party) : Z := Z.of_nat (size (members p)).

(** * Histories *)

Inductive pop :=
| OJoin (m : Member) | OAccept (leaderID userID : string)
| ORemove (leaderID userID : string) | OPromote (leaderID newLeaderID : string).

Definition run_op (o : pop) (p : Party) : Party :=
  match o with
  | OJoin m => (RequestJoin m p).1.1
  | OAccept l u => (Accept l u p).1.1
  | ORemove l u => (Remove l u p).1.1
  | OPromote l n => (Promote l n p).1.1
  end.

Definition run_ops (ops : list pop) (p : Party) : Party := foldl (fun p o => run_op o p) p ops.

Record wfp (p : Party) : Prop := {
  wf_keys : map_Forall (fun u m => UserID m = u) (members p);
  wf_order : joinOrder p ≡ₚ (map_to_list (members p)).*1;
  wf_reserved : reserved p = Z.of_nat (length (requests p));
  wf_flags : Forall (fun r => Reserved r = true) (requests p);
  wf_unique : NoDup ((fun r => UserID (rMember r)) <$> requests p);
  wf_open : open p = true -> requests p = [];
  wf_pending : Forall (fun r => members p !! UserID (rMember r) = None) (requests p);
  wf_leader : stopped p = false -> members p !! UserID (leader p) = Some (leader p);
  wf_capacity : 0 < maxSize p -> Count p + reserved p <= maxSize p
}.

Lemma New_wfp i l oc op max : wfp (New i l oc op max).
Proof.
  split; simpl; try done.
  - intros u m [<- <-]%lookup_singleton_Some. done.
  - by rewrite map_to_list_singleton.
  - constructor.
  - intros _. apply lookup_singleton_eq.
  - intros. unfold Count. simpl. rewrite map_size_singleton. lia.
Qed.

Lemma order_insert (m : gmap string Member) o (x : Member) : m !! UserID x = None ->
  o ≡ₚ (map_to_list m).*1 -> o ++ [UserID x] ≡ₚ (map_to_list (<[UserID x := x]> m)).*1.
Proof.
  intros Hn Ho. rewrite map_to_list_insert by done. rewrite fmap_cons, Ho. simpl.
  by rewrite <- Permutation_cons_append.
Qed.

Lemma remove_first_perm u l : u ∈ l -> l ≡ₚ u :: remove_first u l.
Proof.
  induction l as [|x l IH]; intros Hin; [by apply not_elem_of_nil in Hin|]. simpl.
  destruct (decide (x = u)) as [->|Hne]; [done|].
  apply elem_of_cons in Hin as [->|Hin]; [done|].
  rewrite Permutation_swap. by apply Permutation_skip, IH.
Qed.

Lemma split_request_spec u l a r b : split_request u l = Some (a, r, b) ->
  l = a ++ r :: b /\ UserID (rMember r) = u.
Proof.
  revert a r b. induction l as [|x l IH]; intros a r b; simpl; [done|].
  destruct (decide (UserID (rMember x) = u)) as [E|]; [by intros [= <- <- <-]|].
  destruct (split_request u l) as [[[a' r'] b']|]; [|done]. intros [= <- <- <-].
  by destruct (IH a' r' b') as [-> ?].
Qed.

Lemma has_request_false u l : has_request u l = false ->
  u ∉ ((fun r => UserID (rMember r)) <$> l).
Proof.
  intros H [r [-> Hr]]%list_elem_of_fmap. unfold has_request in H.
  apply not_true_iff_false in H. apply H, existsb_exists. exists r.
  split; [by apply list_elem_of_In|by apply bool_decide_eq_true].
Qed.

Lemma canAdd_room p : wfp p -> canAddLocked p = None ->
  0 < maxSize p -> Count p + reserved p + 1 <= maxSize p.
Proof. unfold canAddLocked, Count. intros Hw H Hm. case_all. Qed.

Lemma Count_insert (m : gmap string Member) (x : Member) : m !! UserID x = None ->
  Z.of_nat (size (<[UserID x := x]> m)) = Z.of_nat (size m) + 1.
Proof. intros. rewrite map_size_insert_None by done. lia. Qed.

Lemma RequestJoin_wfp m p : wfp p -> wfp (RequestJoin m p).1.1.
Proof.
  intros Hw. unfold RequestJoin. destruct (stopped p) eqn:Hst; [done|].
  destruct (members p !! UserID m) eqn:Hm; [done|].
  destruct (canAddLocked p) eqn:Hc; [done|]. pose proof (canAdd_room p Hw Hc) as Hroom.
  pose proof Hw as Hw0. destruct Hw as [Hk Ho Hr Hf Hu Hop Hp Hl Hcap]. destruct (open p) eqn:Hopen; simpl.
  - split; simpl; try done.
    + by apply map_Forall_insert_2.
    + by apply order_insert.
    + intros _. by apply Hop.
    + by rewrite Hop.
    + intros _. rewrite lookup_insert_ne; [by apply Hl|]. intros E. rewrite E in Hm.
      by rewrite Hl in Hm.
    + intros Hmax. specialize (Hroom Hmax). unfold Count in *. simpl.
      rewrite Count_insert by done. lia.
  - destruct (has_request (UserID m) (requests p)) eqn:Hreq; [done|].
    apply has_request_false in Hreq. split; simpl; try done.
    + rewrite length_app, Hr. simpl. lia.
    + apply Forall_app. split; [done|by apply Forall_singleton].
    + rewrite fmap_app. apply NoDup_app. split; [done|]. split; [|apply NoDup_singleton].
      intros u Hin ->%list_elem_of_singleton. done.
    + congruence.
    + apply Forall_app. split; [done|by apply Forall_singleton].
    + intros Hmax. specialize (Hroom Hmax). unfold Count in *. simpl. lia.
Qed.

Lemma Accept_wfp l u p : wfp p -> wfp (Accept l u p).1.1.
Proof.
  intros Hw. unfold Accept. case_match; [done|].
  destruct (split_request u (requests p)) as [[[a r] b]|] eqn:Hs; [|done].
  apply split_request_spec in Hs as [Hreq <-].
  destruct Hw as [Hk Ho Hr Hf Hu Hop Hp Hl Hcap]. rewrite Hreq in *.
  apply Forall_app in Hf as [Hfa [Hfr Hfb]%Forall_cons].
  apply Forall_app in Hp as [Hpa [Hpr Hpb]%Forall_cons].
  rewrite fmap_app, fmap_cons in Hu.
  set (user := fun r => UserID (rMember r)) in *.
  assert ((user r ∉ (user <$> (a ++ b))) /\ NoDup (user <$> (a ++ b))) as [Hnin Hnd].
  { rewrite fmap_app. rewrite <- Permutation_middle in Hu. by apply NoDup_cons in Hu. }
  rewrite length_app in Hr. cbn [length] in Hr. simpl. rewrite Hfr. split; simpl; try done.
  - by apply map_Forall_insert_2.
  - by apply order_insert.
  - rewrite length_app. lia.
  - by apply Forall_app.
  - intros E. specialize (Hop E). by destruct a.
  - apply Forall_forall. intros x Hx. rewrite lookup_insert_ne.
    + assert (Forall (fun r => members p !! UserID (rMember r) = None) (a ++ b)) as Hall
        by (by apply Forall_app). rewrite Forall_forall in Hall. by apply Hall.
    + intros E. destruct Hnin. change (user r = user x) in E. rewrite E.
      by apply (list_elem_of_fmap_2 user).
  - intros E. specialize (Hl E). rewrite lookup_insert_ne; [done|]. congruence.
  - intros Hmax. specialize (Hcap Hmax). unfold Count in *. simpl. rewrite Count_insert by done. lia.
Qed.

Lemma next_leader_spec (m : gmap string Member) o : o ≡ₚ (map_to_list m).*1 -> m <> ∅ ->
  exists u l x, o = u :: l /\ m !! u = Some x /\ next_leader m o = Some x.
Proof.
  intros Ho Hne. destruct o as [|u l].
  { symmetry in Ho. apply Permutation_nil_r in Ho. apply fmap_nil_inv in Ho.
    by apply map_to_list_empty_iff in Ho. }
  assert (u ∈ (map_to_list m).*1) as [[v x] [-> Hin]]%list_elem_of_fmap by (rewrite <- Ho; by left).
  apply elem_of_map_to_list in Hin. exists v, l, x. simpl. by rewrite Hin.
Qed.

(** The party after its leader or another member is taken out. *)
Lemma Remove_state l u p x : members p !! u = Some x ->
  l = u \/ l = UserID (leader p) ->
  let m := delete u (members p) in let o := remove_first u (joinOrder p) in
  (Remove l u p).1.1 =
    MkParty (id p)
      (if bool_decide (u = UserID (leader p)) then default (leader p) (next_leader m o) else leader p)
      m o (requests p) (open p) (maxSize p) (reserved p) (hasOnChange p)
      (if bool_decide (u = UserID (leader p)) && bool_decide (size m = 0%nat) then true else stopped p).
Proof.
  intros Hx Hl m o. unfold Remove.
  replace (negb (bool_decide (l = u)) && negb (bool_decide (l = UserID (leader p)))) with false
    by (destruct (bool_decide_reflect (l = u)), (bool_decide_reflect (l = UserID (leader p)));
        simpl; tauto).
  rewrite Hx. unfold removeJoinOrderLocked, set_members. simpl. fold m o.
  destruct (bool_decide (u = UserID (leader p))); [|done]. simpl. destruct (next_leader m o); simpl; unfold set_stopped, set_leader; simpl;
    destruct (decide (size m = 0%nat)) as [E|E]; simpl;
    [rewrite bool_decide_true by done|rewrite bool_decide_false by done|
     rewrite bool_decide_true by done|rewrite bool_decide_false by done]; done.
Qed.

Lemma Remove_wfp l u p : wfp p -> wfp (Remove l u p).1.1.
Proof.
  intros Hw. destruct (decide (l = u \/ l = UserID (leader p))) as [Hl|Hl].
  2: { unfold Remove. rewrite !bool_decide_false by tauto. done. }
  destruct (members p !! u) as [x|] eqn:Hx.
  2: { unfold Remove. case_match; [done|]. by rewrite Hx. }
  rewrite (Remove_state l u p x Hx Hl).
  destruct Hw as [Hk Ho Hr Hf Hu Hop Hp Hld Hcap].
  set (m := delete u (members p)). set (o := remove_first u (joinOrder p)).
  assert (o ≡ₚ (map_to_list m).*1) as Ho'.
  { assert (u ∈ joinOrder p) as Hin%remove_first_perm.
    { rewrite Ho. apply list_elem_of_fmap. exists (u, x). by rewrite elem_of_map_to_list. }
    apply (Permutation_cons_inv (a := u)). fold o in Hin. rewrite <- Hin, Ho.
    rewrite <- (map_to_list_delete (members p) u x) by done. done. }
  split; simpl; try done.
  - by apply map_Forall_delete.
  - eapply Forall_impl; [exact Hp|]. intros r E. simpl in E. unfold m.
    by rewrite lookup_delete_None; right.
  - destruct (bool_decide_reflect (u = UserID (leader p))) as [E|E]; simpl.
    + destruct (bool_decide_reflect (size m = 0%nat)) as [Hz|Hz]; [done|]. intros Hst.
      destruct (next_leader_spec m o Ho') as (v&r&y&_&Hy&->).
      { intros E'. by rewrite E', map_size_empty in Hz. }
      simpl. rewrite (map_Forall_lookup_1 _ _ v y (map_Forall_delete _ _ u Hk) Hy). done.
    + intros Hst. unfold m. rewrite lookup_delete_ne by done. by apply Hld.
  - intros Hmax. specialize (Hcap Hmax). unfold Count in *. simpl. unfold m.
    rewrite (map_size_delete_Some (M := gmap string)) by (by exists x). lia.
Qed.

Lemma Promote_wfp l n p : wfp p -> wfp (Promote l n p).1.1.
Proof.
  intros Hw. unfold Promote. case_match; [done|]. destruct (members p !! n) as [m|] eqn:Hm; [|done].
  destruct Hw as [Hk Ho Hr Hf Hu Hop Hp Hl Hcap]. split; simpl; try done.
  intros _. by rewrite (map_Forall_lookup_1 _ _ n m Hk Hm).
Qed.

Lemma run_op_wfp o p : wfp p -> wfp (run_op o p).
Proof.
  destruct o; simpl; auto using RequestJoin_wfp, Accept_wfp, Remove_wfp, Promote_wfp.
Qed.

Lemma run_ops_wfp ops : forall p, wfp p -> wfp (run_ops ops p).
Proof.
  induction ops as [|o ops IH]; intros p Hw; [done|]. simpl. by apply IH, run_op_wfp.
Qed.

(** C28: in every state a new party can reach, members and reserved seats together
    stay within the limit, each pending request holds one seat and comes from a
    user who is not a member, the join order lists the members once each, and as
    long as the party has not stopped its leader is one of its members. *)
Theorem party_invariant i l oc op max ops : wfp (run_ops ops (New i l oc op max)).
Proof. apply run_ops_wfp, New_wfp. Qed.

(** When the leader leaves a party with other members, the member who joined
    first among them becomes the leader and the party goes on; when the last
    member leaves, the party stops. *)
Theorem leader_succession p : wfp p -> stopped p = false ->
  let p' := (Remove (Leader p) (Leader p) p).1.1 in
  match remove_first (Leader p) (joinOrder p) with
  | [] => stopped p' = true /\ members p' = ∅
  | u :: _ => stopped p' = false /\ Leader p' = u /\ members p' = delete (Leader p) (members p) /\
      is_Some (members p' !! u)
  end.
Proof.
  intros Hw Hst p'. pose proof (wf_leader p Hw Hst) as Hl. unfold p', Leader in *.
  pose proof (Remove_wfp (UserID (leader p)) (UserID (leader p)) p Hw) as Hw'.
  rewrite (Remove_state _ _ p (leader p) Hl (or_introl eq_refl)) in Hw' |- *. simpl.
  rewrite bool_decide_true in * by done. simpl in *. destruct Hw' as [Hk' Ho' _ _ _ _ _ _ _]. simpl in *.
  set (m := delete (UserID (leader p)) (members p)) in *.
  set (o := remove_first (UserID (leader p)) (joinOrder p)) in *.
  destruct (decide (m = ∅)) as [->|Hne].
  - rewrite map_to_list_empty in Ho'. apply Permutation_nil_r in Ho'. simpl in Ho'. rewrite Ho'.
    by rewrite map_size_empty, bool_decide_true.
  - destruct (next_leader_spec m o Ho' Hne) as (u&r&x&->&Hx&->).
    rewrite bool_decide_false by (by rewrite map_size_empty_iff). simpl.
    split; [done|]. split; [by apply (Hk' u x)|]. done.
Qed.

(** A stopped party still admits: the leader who left can accept the pending
    request of another user, which gives a party marked stopped with a member in
    it and a leader who is not a member. *)
Theorem stopped_party_admits :
  let p := run_ops [OJoin (MkMember "bob" "" ""); ORemove "ann" "ann"]
    (New "p" (MkMember "ann" "" "") false false 0) in
  let p' := run_op (OAccept "ann" "bob") p in
  stopped p = true /\ stopped p' = true /\ Count p' = 1 /\ members p' !! Leader p' = None.
Proof. vm_compute. done. Qed.

Lemma leader_succession_witness :
  Leader (Remove "ann" "ann"
    (run_ops [OJoin (MkMember "bob" "" ""); OJoin (MkMember "cid" "" "")]
       (New "p" (MkMember "ann" "" "") false true 0))).1.1 = "bob"%string.
Proof.
  assert (wfp (run_ops [OJoin (MkMember "bob" "" ""); OJoin (MkMember "cid" "" "")]
    (New "p" (MkMember "ann" "" "") false true 0))) as Hw by (apply run_ops_wfp, New_wfp).
  destruct (leader_succession _ Hw ltac:(vm_compute; reflexivity)) as (_&H&_). exact H.
Defined.
