(* ===== verification/Wallet.v ===== *)
(** The ledger wallet ([pkg/domain/wallet/wallet.go]): balances changed only by
    atomic changesets, an append-only ledger per account, idempotent transactions
    by [txID]. A Go [range] over a changeset visits it in some order: the
    operations take that order as a list of the entries. *)
From Stdlib Require Import ZArith Lia Bool.
From stdpp Require Import base numbers strings list gmap fin_maps.
From S2P Require Import Prelude.

Open Scope Z_scope.

Abbreviation WalletMap := (gmap string Z).

Record Ledger := MkLedger {
  lID : Z;
  OwnerID : string;
  Changeset : WalletMap;
  Metadata : string;
  CreateTime : Z
}.

Record Account := MkAccount { Balance : WalletMap; ledgers : list Ledger }.

Record txResult := MkTx { affected : WalletMap; ledgerID : Z }.

Record Wallet := MkWallet {
  accounts : gmap string Account;
  seq : Z;
  txIndex : gmap string txResult
}.

(** [ErrInsufficientBalance] is wrapped with the currency, the delta and the
    balance it was tried on. *)
Inductive wErr :=
| ErrInsufficientBalance (cur : string) (delta have : Z)
| ErrEmptyTxID
| ErrEmptyChangeset.

Definition New : Wallet := MkWallet ∅ 0 ∅.

(** Reading an absent map key gives the zero value. *)
Definition get (m : WalletMap) (cur : string) : Z := default 0 (m !! cur).

Definition addBalance (balance delta : Z) : Z * bool :=
  let sum := wrap64 (balance + delta) in
  if ((0 <? delta) && (sum <? balance)) || ((delta <? 0) && (balance <? sum))
  then (0, false) else (sum, true).

(** [w.accounts[ownerID]], an empty account when there is none. *)
Definition account (w : Wallet) (ownerID : string) : Account :=
  default (MkAccount ∅ []) (accounts w !! ownerID).

Definition set_account (w : Wallet) (ownerID : string) (acc : Account) : Wallet :=
  MkWallet (<[ownerID := acc]> (accounts w)) (seq w) (txIndex w).

(** The loop over the changeset: the new balances, or the first entry that
    overflows or overdraws. The loop reads the old balances only; [newBal] and
    [affected] receive the same values. *)
Fixpoint newBalances (bal : WalletMap) (order : list (string * Z)) (newBal : WalletMap)
    : result wErr WalletMap :=
  match order with
  | [] => Ok newBal
  | (cur, delta) :: order =>
      let '(newVal, ok) := addBalance (get bal cur) delta in
      if negb ok || (newVal <? 0)
      then Err (ErrInsufficientBalance cur delta (get bal cur))
      else newBalances bal order (<[cur := newVal]> newBal)
  end.

(** The part [Apply] and [ApplyTx] share, under the lock. *)
Definition applyLocked (w : Wallet) (order : list (string * Z)) (ownerID : string)
    (changeset : WalletMap) (metadata : string) (now : Z)
    : Wallet * result wErr (WalletMap * Ledger) :=
  let acc := account w ownerID in
  let w := set_account w ownerID acc in
  match newBalances (Balance acc) order ∅ with
  | Err e => (w, Err e)
  | Ok newBal =>
      let id := wrap64 (seq w + 1) in
      let l := MkLedger id ownerID changeset metadata now in
      let acc := MkAccount (newBal ∪ Balance acc) (ledgers acc ++ [l]) in
      (MkWallet (<[ownerID := acc]> (accounts w)) id (txIndex w), Ok (newBal, l))
  end.

Definition Apply (w : Wallet) (order : list (string * Z)) (ownerID : string)
    (changeset : WalletMap) (metadata : string) (now : Z)
    : Wallet * result wErr (WalletMap * Ledger) :=
  if decide (size changeset = 0%nat) then (w, Err ErrEmptyChangeset)
  else applyLocked w order ownerID changeset metadata now.

Definition ledgerByIDLocked (w : Wallet) (ownerID : string) (id : Z) : option Ledger :=
  match accounts w !! ownerID with
  | None => None
  | Some acc => List.find (fun l => lID l =? id) (ledgers acc)
  end.

(** [txID + "\x00" + ownerID] *)
Definition txKey (txID ownerID : string) : string :=
  (txID ++ String (Ascii.Ascii false false false false false false false false) ownerID)%string.

Definition ApplyTx (w : Wallet) (order : list (string * Z)) (txID ownerID : string)
    (changeset : WalletMap) (metadata : string) (now : Z)
    : Wallet * result wErr (WalletMap * option Ledger * bool) :=
  if decide (txID = EmptyString) then (w, Err ErrEmptyTxID)
  else if decide (size changeset = 0%nat) then (w, Err ErrEmptyChangeset)
  else match txIndex w !! txKey txID ownerID with
  | Some prev => (w, Ok (affected prev, ledgerByIDLocked w ownerID (ledgerID prev), true))
  | None =>
      match applyLocked w order ownerID changeset metadata now with
      | (w, Err e) => (w, Err e)
      | (w, Ok (aff, l)) =>
          (MkWallet (accounts w) (seq w)
             (<[txKey txID ownerID := MkTx aff (lID l)]> (txIndex w)),
           Ok (aff, Some l, false))
      end
  end.

Definition BalanceOf (w : Wallet) (ownerID : string) : WalletMap :=
  match accounts w !! ownerID with None => ∅ | Some acc => Balance acc end.

Definition Ledgers (w : Wallet) (ownerID : string) : list Ledger :=
  match accounts w !! ownerID with None => [] | Some acc => ledgers acc end.

Definition LedgerByID (w : Wallet) (ownerID : string) (id : Z) : option Ledger :=
  ledgerByIDLocked w ownerID id.

Definition Accounts (w : Wallet) : list string := fst <$> map_to_list (accounts w).

Definition SetBalance (w : Wallet) (ownerID : string) (bal : WalletMap) : Wallet :=
  set_account w ownerID (MkAccount bal (ledgers (account w ownerID))).

(** * Histories of operations *)

Inductive wop :=
| OApply (order : list (string * Z)) (ownerID : string) (changeset : WalletMap)
    (metadata : string) (now : Z)
| OApplyTx (order : list (string * Z)) (txID ownerID : string) (changeset : WalletMap)
    (metadata : string) (now : Z)
| OSetBalance (ownerID : string) (bal : WalletMap).

Definition run_op (op : wop) (w : Wallet) : Wallet :=
  match op with
  | OApply order o cs md now => fst (Apply w order o cs md now)
  | OApplyTx order tx o cs md now => fst (ApplyTx w order tx o cs md now)
  | OSetBalance o bal => SetBalance w o bal
  end.

Definition run_ops (ops : list wop) (w : Wallet) : Wallet := foldl (fun w op => run_op op w) w ops.

(** A changeset of [int64] deltas and one of the orders a [range] may visit. *)
Definition ranged (order : list (string * Z)) (cs : WalletMap) : Prop :=
  order ≡ₚ map_to_list cs /\ map_Forall (fun _ d => int64 d) cs.

(** A posting: an operation that is not the loading of a snapshot. *)
Definition posting (op : wop) : Prop :=
  match op with
  | OApply order _ cs _ _ => ranged order cs
  | OApplyTx order _ _ cs _ _ => ranged order cs
  | OSetBalance _ _ => False
  end.

Definition bal (w : Wallet) (o cur : string) : Z := get (BalanceOf w o) cur.

(** What the ledger says was added to a currency. *)
Definition total (h : list Ledger) (cur : string) : Z :=
  foldr (fun l acc => get (Changeset l) cur + acc) 0 h.

Definition funds (w : Wallet) : Prop := forall o cur, 0 <= bal w o cur < 2 ^ 63.

(** * Lemmas *)

Lemma total_app h1 h2 cur : total (h1 ++ h2) cur = total h1 cur + total h2 cur.
Proof. induction h1 as [|l h1 IH]; simpl; [done|]. rewrite IH. lia. Qed.

Lemma BalanceOf_account w o : BalanceOf w o = Balance (account w o).
Proof. unfold BalanceOf, account. by destruct (accounts w !! o). Qed.

Lemma Ledgers_account w o : Ledgers w o = ledgers (account w o).
Proof. unfold Ledgers, account. by destruct (accounts w !! o). Qed.

Lemma account_insert m o o' acc s t :
  account (MkWallet (<[o := acc]> m) s t) o' = if decide (o' = o) then acc
    else account (MkWallet m s t) o'.
Proof.
  unfold account. simpl. destruct (decide (o' = o)) as [->|].
  - by rewrite lookup_insert_eq.
  - by rewrite lookup_insert_ne.
Qed.

(** The overflow test of [addBalance] is exact on a nonnegative balance. *)
Lemma addBalance_spec b d : 0 <= b < 2 ^ 63 -> int64 d ->
  let '(v, ok) := addBalance b d in
  (negb ok || (v <? 0) = false <-> 0 <= b + d < 2 ^ 63) /\
  (negb ok || (v <? 0) = false -> v = b + d).
Proof.
  intros Hb Hd. unfold int64 in Hd. unfold addBalance.
  destruct (Z_lt_le_dec (b + d) (2 ^ 63)) as [Hs|Hs].
  - rewrite wrap64_id by (unfold int64; lia).
    destruct ((0 <? d) && (b + d <? b) || (d <? 0) && (b <? b + d)) eqn:E; simpl.
    + apply orb_true_iff in E as [E|E]; bool_prop; lia.
    + rewrite Z.ltb_ge. lia.
  - assert (wrap64 (b + d) = b + d - 2 ^ 64) as ->.
    { unfold wrap64. rewrite <- (Z.mod_unique (b + d + 2 ^ 63) (2 ^ 64) 1 (b + d + 2 ^ 63 - 2 ^ 64)); lia. }
    replace (0 <? d) with true by lia. replace (b + d - 2 ^ 64 <? b) with true by lia.
    simpl. split; [split; [done|lia]|done].
Qed.

Lemma newBalances_spec b order : forall nb0, (forall c, 0 <= get b c < 2 ^ 63) ->
  NoDup order.*1 -> Forall (fun e => int64 e.2) order ->
  match newBalances b order nb0 with
  | Ok nb => (forall c d, (c, d) ∈ order -> 0 <= get b c + d < 2 ^ 63 /\
        nb !! c = Some (get b c + d)) /\
      (forall c, c ∉ order.*1 -> nb !! c = nb0 !! c)
  | Err e => exists c d, (c, d) ∈ order /\ e = ErrInsufficientBalance c d (get b c) /\
      ~ (0 <= get b c + d < 2 ^ 63)
  end.
Proof.
  induction order as [|[c d] order IH]; intros nb0 Hb Hnd Hi; simpl.
  { split; [|done]. intros c d []%not_elem_of_nil. }
  apply NoDup_cons in Hnd as [Hc Hnd]. apply Forall_cons in Hi as [Hd Hi]. simpl in Hc, Hd.
  pose proof (addBalance_spec (get b c) d (Hb c) Hd) as Ha.
  destruct (addBalance (get b c) d) as [v ok]. destruct Ha as [Hiff Hv].
  destruct (negb ok || (v <? 0)).
  { exists c, d. split; [by left|]. split; [done|]. intros H. by apply Hiff in H. }
  specialize (IH (<[c := v]> nb0) Hb Hnd Hi). destruct (newBalances b order _) as [nb|e].
  - destruct IH as [H1 H2]. split.
    + intros c' d' [[= -> ->]|Hin]%elem_of_cons; [|by apply H1].
      split; [by apply Hiff|]. rewrite H2 by done. rewrite lookup_insert_eq. by rewrite Hv.
    + intros c' [Hne Hn]%not_elem_of_cons. rewrite H2 by done. by rewrite lookup_insert_ne.
  - destruct IH as (c'&d'&Hin&He). exists c', d'. split; [by right|done].
Qed.

(** The balances a changeset leads to, on the currencies it names. *)
Definition credited (b cs : WalletMap) : WalletMap :=
  map_imap (fun c d => Some (get b c + d)) cs.

Definition fits (b cs : WalletMap) : Prop :=
  forall c d, cs !! c = Some d -> 0 <= get b c + d < 2 ^ 63.

Lemma newBalances_ranged b order cs : (forall c, 0 <= get b c < 2 ^ 63) -> ranged order cs ->
  match newBalances b order ∅ with
  | Ok nb => fits b cs /\ nb = credited b cs
  | Err e => exists c d, cs !! c = Some d /\ e = ErrInsufficientBalance c d (get b c) /\
      ~ (0 <= get b c + d < 2 ^ 63)
  end.
Proof.
  intros Hb [Hp Hi].
  assert (forall c d, (c, d) ∈ order <-> cs !! c = Some d) as Hin.
  { intros c d. rewrite Hp. apply elem_of_map_to_list. }
  assert (NoDup order.*1) as Hnd by (rewrite Hp; apply NoDup_fst_map_to_list).
  assert (Forall (fun e : string * Z => int64 e.2) order) as Hfi.
  { apply Forall_forall. intros [c d] H%Hin. by apply (Hi c d). }
  pose proof (newBalances_spec b order ∅ Hb Hnd Hfi) as H.
  destruct (newBalances b order ∅) as [nb|e].
  - destruct H as [H1 H2]. split; [intros c d Hc%Hin; by apply H1|].
    apply map_eq. intros c. unfold credited. rewrite map_lookup_imap.
    destruct (cs !! c) as [d|] eqn:E; simpl.
    + apply Hin in E. by apply H1.
    + rewrite H2; [done|]. intros [[c' d] [-> E'%Hin]]%list_elem_of_fmap. simpl in E. congruence.
  - destruct H as (c&d&Hc%Hin&He). by exists c, d.
Qed.

Lemma get_credited b cs c : get (credited b cs ∪ b) c = get b c + get cs c.
Proof.
  unfold get, credited. rewrite lookup_union, map_lookup_imap.
  destruct (cs !! c), (b !! c) eqn:E; simpl; unfold get; rewrite ?E; simpl; lia.
Qed.

(** The shared part, on both outcomes. *)
Lemma applyLocked_spec w order o cs md now : funds w -> ranged order cs ->
  let '(w', r) := applyLocked w order o cs md now in
  (forall o', o' <> o -> accounts w' !! o' = accounts w !! o') /\ txIndex w' = txIndex w /\
  match r with
  | Ok (aff, l) => fits (BalanceOf w o) cs /\ aff = credited (BalanceOf w o) cs /\
      l = MkLedger (wrap64 (seq w + 1)) o cs md now /\ seq w' = lID l /\
      (forall c, bal w' o c = bal w o c + get cs c) /\ Ledgers w' o = Ledgers w o ++ [l]
  | Err e => (forall c, bal w' o c = bal w o c) /\ Ledgers w' o = Ledgers w o /\ seq w' = seq w /\
      exists c d, cs !! c = Some d /\ e = ErrInsufficientBalance c d (bal w o c) /\
        ~ (0 <= bal w o c + d < 2 ^ 63)
  end.
Proof.
  intros Hf Hr. unfold applyLocked. rewrite <- BalanceOf_account.
  pose proof (newBalances_ranged (BalanceOf w o) order cs (Hf o) Hr) as H.
  destruct (newBalances _ _ _) as [nb|e].
  - destruct H as [Hfit ->]. simpl. split; [|split; [done|]].
    { intros o' Hne. by rewrite !lookup_insert_ne. }
    do 4 (split; [done|]). unfold bal. rewrite !BalanceOf_account, !Ledgers_account.
    rewrite account_insert, decide_True by done. simpl. split; [|done].
    intros c. apply get_credited.
  - simpl. split; [|split; [done|]].
    { intros o' Hne. by rewrite lookup_insert_ne. }
    unfold bal. rewrite !BalanceOf_account in *. rewrite !Ledgers_account.
    unfold set_account. rewrite account_insert, decide_True by done. done.
Qed.

Lemma applyLocked_step w order o cs md now : funds w -> ranged order cs ->
  let w' := fst (applyLocked w order o cs md now) in
  funds w' /\ forall o', exists h, Ledgers w' o' = Ledgers w o' ++ h /\
    forall c, bal w' o' c = bal w o' c + total h c.
Proof.
  intros Hf Hr. pose proof (applyLocked_spec w order o cs md now Hf Hr) as H.
  destruct (applyLocked w order o cs md now) as [w' r]. destruct H as (Ho&_&H). simpl.
  assert (Hother: forall o', o' <> o -> BalanceOf w' o' = BalanceOf w o' /\ Ledgers w' o' = Ledgers w o').
  { intros o' Hne. unfold BalanceOf, Ledgers. by rewrite Ho. }
  split.
  - intros o' c. destruct (decide (o' = o)) as [->|Hne].
    + destruct r as [[aff l]|e].
      * destruct H as (Hfit&_&_&_&Hb&_). rewrite Hb. destruct (cs !! c) as [d|] eqn:E.
        -- unfold get. rewrite E. simpl. by apply Hfit.
        -- unfold get at 1 2. rewrite E. simpl. specialize (Hf o c). lia.
      * destruct H as [Hb _]. rewrite Hb. apply Hf.
    + unfold bal. destruct (Hother o' Hne) as [-> _]. apply Hf.
  - intros o'. destruct (decide (o' = o)) as [->|Hne].
    + destruct r as [[aff l]|e].
      * destruct H as (_&_&->&_&Hb&Hl). eexists. split; [exact Hl|]. intros c.
        rewrite Hb. simpl. lia.
      * destruct H as (Hb&Hl&_). exists []. rewrite app_nil_r. split; [done|].
        intros c. rewrite Hb. simpl. lia.
    + unfold bal. destruct (Hother o' Hne) as [-> ->]. exists []. rewrite app_nil_r.
      split; [done|]. intros c. simpl. lia.
Qed.

Lemma ApplyTx_fst w order tx o cs md now :
  let w' := fst (ApplyTx w order tx o cs md now) in
  w' = w \/ (accounts w' = accounts (fst (applyLocked w order o cs md now))).
Proof.
  unfold ApplyTx. repeat case_decide; [by left..|]. case_match; [by left|]. right.
  destruct (applyLocked w order o cs md now) as [w' [[aff l]|e]]; done.
Qed.

Lemma posting_step op w : funds w -> posting op ->
  funds (run_op op w) /\ forall o, exists h, Ledgers (run_op op w) o = Ledgers w o ++ h /\
    forall c, bal (run_op op w) o c = bal w o c + total h c.
Proof.
  intros Hf Hp.
  assert (Hsame: funds w /\ forall o, exists h, Ledgers w o = Ledgers w o ++ h /\
    forall c, bal w o c = bal w o c + total h c).
  { split; [done|]. intros o. exists []. rewrite app_nil_r. split; [done|]. intros; simpl; lia. }
  assert (Hacc: forall w1 w2, accounts w1 = accounts w2 ->
    (forall o, BalanceOf w1 o = BalanceOf w2 o) /\ (forall o, Ledgers w1 o = Ledgers w2 o)).
  { intros w1 w2 E. unfold BalanceOf, Ledgers. by rewrite E. }
  destruct op as [order o cs md now|order tx o cs md now|]; simpl in Hp; [| |done].
  - simpl. unfold Apply. case_decide; [done|]. by apply applyLocked_step.
  - simpl. destruct (ApplyTx_fst w order tx o cs md now) as [->|E%Hacc]; [done|].
    destruct E as [EB EL]. destruct (applyLocked_step w order o cs md now Hf Hp) as [Hf' Hs].
    split; [intros o' c; unfold bal; rewrite EB; apply Hf'|].
    intros o'. destruct (Hs o') as (h&Hl&Hb). exists h. rewrite EL. split; [done|].
    intros c. unfold bal at 1. rewrite EB. apply Hb.
Qed.

(** C1: the balance is what the ledger says. From loaded balances with empty
    ledgers, after any sequence of [Apply] and [ApplyTx] calls, failed ones
    included, every balance is the loaded one plus the sum of the account's
    ledger entries, and no balance is negative or has overflowed. *)
Theorem balance_is_ledger w0 ops : funds w0 -> (forall o, Ledgers w0 o = []) ->
  Forall posting ops -> forall o c,
  let w := run_ops ops w0 in
  bal w o c = bal w0 o c + total (Ledgers w o) c /\ 0 <= bal w o c <= maxInt64.
Proof.
  intros Hf Hl Hops.
  assert (forall w, funds w -> (forall o c, bal w o c = bal w0 o c + total (Ledgers w o) c) ->
    funds (run_ops ops w) /\
    forall o c, bal (run_ops ops w) o c = bal w0 o c + total (Ledgers (run_ops ops w) o) c) as H.
  { clear Hf Hl. induction Hops as [|op ops Hop Hops IH]; intros w Hf Hb; [done|].
    destruct (posting_step op w Hf Hop) as [Hf' Hs]. apply IH; [done|].
    intros o c. destruct (Hs o) as (h&->&->). rewrite total_app, Hb. lia. }
  destruct (H w0 Hf) as [Hf' Hb].
  { intros o c. rewrite Hl. simpl. lia. }
  intros o c w. split; [apply Hb|]. specialize (Hf' o c). unfold maxInt64, w. lia.
Qed.

(** C40: [Apply] is atomic: it succeeds exactly when no entry of a nonempty
    changeset overdraws or overflows, whatever the order of the range, and then
    adds the whole changeset and one ledger entry; otherwise no balance, ledger
    or sequence number changes and the error names an offending entry. *)
Theorem Apply_atomic w order o cs md now : funds w -> ranged order cs ->
  let '(w', r) := Apply w order o cs md now in
  (forall o', o' <> o -> accounts w' !! o' = accounts w !! o') /\ txIndex w' = txIndex w /\
  (is_ok r = true <-> cs <> ∅ /\ fits (BalanceOf w o) cs) /\
  match r with
  | Ok (aff, l) => aff = credited (BalanceOf w o) cs /\
      l = MkLedger (wrap64 (seq w + 1)) o cs md now /\
      (forall c, bal w' o c = bal w o c + get cs c) /\ Ledgers w' o = Ledgers w o ++ [l]
  | Err e => (forall c, bal w' o c = bal w o c) /\ Ledgers w' o = Ledgers w o /\ seq w' = seq w /\
      (cs = ∅ \/ exists c d, cs !! c = Some d /\ e = ErrInsufficientBalance c d (bal w o c) /\
        ~ (0 <= bal w o c + d < 2 ^ 63))
  end.
Proof.
  intros Hf Hr. unfold Apply. case_decide as Hz.
  { apply map_size_empty_inv in Hz as ->. split; [done|]. split; [done|].
    split; [by split; [|intros [? _]]|]. split; [done|]. split; [done|]. split; [done|]. by left. }
  assert (cs <> ∅) as Hne by (intros ->; by rewrite map_size_empty in Hz).
  pose proof (applyLocked_spec w order o cs md now Hf Hr) as H.
  destruct (applyLocked w order o cs md now) as [w' r]. destruct H as (Ho&Ht&H).
  split; [done|]. split; [done|]. destruct r as [[aff l]|e].
  - destruct H as (Hfit&Haff&Hl&_&Hb&Hls). split; [done|]. by split; [|split].
  - destruct H as (Hb&Hls&Hs&c&d&Hc&He&Hn).
    split; [|split; [done|split; [done|split; [done|right; by exists c, d]]]].
    split; [done|]. intros [_ Hfit]. destruct Hn. by apply Hfit.
Qed.

(** ** Idempotent transactions *)

(** Ledger IDs are distinct within an account and below the sequence number. *)
Definition ids_ok (w : Wallet) : Prop :=
  0 <= seq w /\ forall o, NoDup (lID <$> Ledgers w o) /\
    Forall (fun l => 1 <= lID l <= seq w) (Ledgers w o).

(** An operation appends at most one entry to one ledger, numbered by the next
    sequence number, and never forgets a transaction. *)
Lemma run_op_shape op w : seq w < 2 ^ 63 - 1 -> 0 <= seq w ->
  (forall k r, txIndex w !! k = Some r -> txIndex (run_op op w) !! k = Some r) /\
  ((seq (run_op op w) = seq w /\ forall o, Ledgers (run_op op w) o = Ledgers w o) \/
   (seq (run_op op w) = seq w + 1 /\ exists o l, lID l = seq w + 1 /\
      Ledgers (run_op op w) o = Ledgers w o ++ [l] /\
      forall o', o' <> o -> Ledgers (run_op op w) o' = Ledgers w o')).
Proof.
  intros Hs Hs0.
  assert (HL: forall order o cs md now, let '(w', r) := applyLocked w order o cs md now in
    txIndex w' = txIndex w /\ (forall o', o' <> o -> Ledgers w' o' = Ledgers w o') /\
    match r with
    | Ok (_, l) => seq w' = seq w + 1 /\ lID l = seq w + 1 /\ Ledgers w' o = Ledgers w o ++ [l]
    | Err _ => seq w' = seq w /\ Ledgers w' o = Ledgers w o
    end).
  { intros order o cs md now. unfold applyLocked.
    destruct (newBalances _ _ _) as [nb|e]; simpl; (split; [done|]);
      unfold set_account, Ledgers; simpl.
    - split; [intros; by rewrite !lookup_insert_ne|]. rewrite wrap64_id by (unfold int64; lia).
      rewrite lookup_insert_eq. by rewrite <- Ledgers_account.
    - split; [intros; by rewrite lookup_insert_ne|]. rewrite lookup_insert_eq.
      by rewrite <- Ledgers_account. }
  destruct op as [order o cs md now|order tx o cs md now|o b]; simpl.
  - unfold Apply. case_decide; [by split; [|left]|]. specialize (HL order o cs md now).
    destruct (applyLocked w order o cs md now) as [w' [[aff l]|e]]; simpl.
    + destruct HL as (->&Ho&?&?&?). split; [done|]. right. split; [done|]. by exists o, l.
    + destruct HL as (->&Ho&?&?). split; [done|]. left. split; [done|].
      intros o'. destruct (decide (o' = o)) as [->|]; [done|by apply Ho].
  - unfold ApplyTx. repeat (case_decide; [by split; [|left]|]).
    destruct (txIndex w !! txKey tx o) as [prev|] eqn:Ek; [by split; [|left]|].
    specialize (HL order o cs md now).
    destruct (applyLocked w order o cs md now) as [w' [[aff l]|e]]; simpl.
    + destruct HL as (->&Ho&?&?&?). split.
      { intros k r Hk. rewrite lookup_insert_ne; [done|congruence]. }
      right. split; [done|]. by exists o, l.
    + destruct HL as (->&Ho&?&?). split; [done|]. left. split; [done|].
      intros o'. destruct (decide (o' = o)) as [->|]; [done|by apply Ho].
  - split; [done|]. left. split; [done|]. intros o'. rewrite Ledgers_account.
    unfold SetBalance, set_account. rewrite account_insert.
    destruct (decide (o' = o)) as [->|]; by rewrite Ledgers_account.
Qed.

Lemma run_ops_keep ops : forall w, ids_ok w -> seq w + Z.of_nat (length ops) < 2 ^ 63 ->
  ids_ok (run_ops ops w) /\
  (forall k r, txIndex w !! k = Some r -> txIndex (run_ops ops w) !! k = Some r) /\
  (forall o, Ledgers w o `prefix_of` Ledgers (run_ops ops w) o).
Proof.
  induction ops as [|op ops IH]; intros w [Hs0 Hw] Hs; [by split; [|split]|]. cbn [length] in Hs.
  destruct (run_op_shape op w ltac:(lia) Hs0) as [Ht Hsh]. simpl.
  assert (Hpre: forall o, Ledgers w o `prefix_of` Ledgers (run_op op w) o).
  { intros o. destruct Hsh as [[_ ->]|(_&o'&l&_&Hl&Ho)]; [done|].
    destruct (decide (o = o')) as [->|Hne]; [rewrite Hl; by apply prefix_app_r|by rewrite Ho]. }
  destruct (IH (run_op op w)) as (Hok&Ht'&Hp').
  - destruct Hsh as [[Es El]|(Es&o'&l&Hid&Hl&Ho)].
    + split; [lia|]. intros o. rewrite El, Es. apply Hw.
    + split; [lia|]. intros o. rewrite Es. destruct (Hw o) as [Hnd Hall].
      destruct (decide (o = o')) as [->|Hne].
      * rewrite Hl, fmap_app. split.
        -- apply NoDup_app. split; [done|]. split; [|apply NoDup_singleton].
           intros i [l' [Ei Hl']]%list_elem_of_fmap Hi%list_elem_of_singleton.
           rewrite Forall_forall in Hall. specialize (Hall l' Hl'). lia.
        -- apply Forall_app. split; [|by apply Forall_singleton; lia].
           eapply Forall_impl; [done|]. simpl. lia.
      * rewrite Ho by done. split; [done|]. eapply Forall_impl; [done|]. simpl. lia.
  - destruct Hsh as [[-> _]|[-> _]]; lia.
  - split; [done|]. split; [by auto|]. intros o. etrans; [apply Hpre|apply Hp'].
Qed.

Lemma find_unique (h : list Ledger) l : NoDup (lID <$> h) -> l ∈ h ->
  List.find (fun x => lID x =? lID l) h = Some l.
Proof.
  induction h as [|x h IH]; intros Hnd Hl; [by apply not_elem_of_nil in Hl|].
  apply NoDup_cons in Hnd as [Hx Hnd]. simpl. apply elem_of_cons in Hl as [->|Hl].
  - by rewrite Z.eqb_refl.
  - destruct (Z.eqb_spec (lID x) (lID l)) as [E|]; [|by apply IH].
    destruct Hx. rewrite E. by apply list_elem_of_fmap_2.
Qed.

(** C9: a transaction applies once. After a first success of [ApplyTx], whatever
    operations follow, the same [txID] and owner with any nonempty changeset
    returns the first result and the first ledger entry, marked as a replay, and
    changes nothing. *)
Theorem ApplyTx_once w order tx o cs md now w1 aff l ops order' cs' md' now' :
  ids_ok w -> seq w + 1 + Z.of_nat (length ops) < 2 ^ 63 ->
  ApplyTx w order tx o cs md now = (w1, Ok (aff, Some l, false)) -> cs' <> ∅ ->
  let w2 := run_ops ops w1 in
  ApplyTx w2 order' tx o cs' md' now' = (w2, Ok (aff, Some l, true)).
Proof.
  intros Hw Hs Ha Hne w2.
  assert (w1 = run_ops [OApplyTx order tx o cs md now] w) as E1 by (simpl; by rewrite Ha).
  destruct (run_ops_keep [OApplyTx order tx o cs md now] w Hw) as [Hw1 _]; [simpl; lia|].
  rewrite <- E1 in Hw1.
  assert (tx <> EmptyString /\ txIndex w1 !! txKey tx o = Some (MkTx aff (lID l)) /\
    l ∈ Ledgers w1 o /\ seq w1 <= seq w + 1) as (Htx&Hk&Hl&Hs1).
  { clear E1. destruct Hw as [Hs0 _]. unfold ApplyTx in Ha.
    case_decide; [done|]. case_decide; [done|].
    destruct (txIndex w !! txKey tx o); [done|]. unfold applyLocked in Ha.
    destruct (newBalances _ _ _) as [nb|e]; [|done]. injection Ha as <- <- <-. simpl.
    split; [done|]. split; [by rewrite lookup_insert_eq|]. split.
    - unfold Ledgers. simpl. rewrite lookup_insert_eq. simpl. set_solver.
    - rewrite wrap64_id by (unfold int64; lia). lia. }
  destruct (run_ops_keep ops w1 Hw1) as (Hw2&Ht&Hp); [lia|]. fold w2 in Hw2, Ht, Hp.
  unfold ApplyTx. rewrite decide_False by done.
  rewrite decide_False by (intros ?%map_size_empty_inv; done).
  rewrite (Ht _ _ Hk). simpl. do 2 f_equal. f_equal. f_equal.
  assert (l ∈ Ledgers w2 o) as Hl2 by (destruct (Hp o) as [k ->]; set_solver).
  destruct Hw2 as [_ Hw2]. unfold ledgerByIDLocked. unfold Ledgers in Hl2, Hw2.
  specialize (Hw2 o). destruct (accounts w2 !! o) as [acc|]; [|by apply not_elem_of_nil in Hl2].
  destruct Hw2 as [Hnd _]. by apply find_unique.
Qed.

(** The key that identifies a transaction is not injective: a [txID] with a
    NUL byte is taken for another owner's transaction, and the call reports a
    replay with no ledger entry while its owner receives nothing. *)
Theorem tx_key_collision :
  let nul := String Ascii.zero EmptyString in
  let gold := fun n : Z => {["gold"%string := n]} : WalletMap in
  let w := fst (ApplyTx New [("gold"%string, 5)] "a" ("b" ++ nul ++ "c") (gold 5) "" 0) in
  ApplyTx w [("gold"%string, 7)] ("a" ++ nul ++ "b") "c" (gold 7) "" 0 =
    (w, Ok (gold 5, None, true)) /\ BalanceOf w "c" = ∅.
Proof. vm_compute. done. Qed.

(** * The theorems on concrete wallets *)

Definition sample_cs : WalletMap := {["gold"%string := 5]}.
Definition sample_order : list (string * Z) := [("gold"%string, 5)].

Lemma sample_ranged : ranged sample_order sample_cs.
Proof.
  split; [done|]. intros c d. unfold sample_cs.
  intros [<- <-]%lookup_singleton_Some. by apply (bool_decide_unpack _).
Qed.

Lemma New_funds : funds New.
Proof. intros o c. unfold bal, BalanceOf, New, get. simpl. rewrite !lookup_empty. simpl. lia. Qed.

Lemma balance_is_ledger_witness :
  bal (run_ops [OApply sample_order "alice" sample_cs "" 0] New) "alice" "gold" = 5.
Proof.
  destruct (balance_is_ledger New [OApply sample_order "alice" sample_cs "" 0]) with
    (o := "alice"%string) (c := "gold"%string) as [-> _].
  - exact New_funds.
  - intros o. unfold Ledgers. simpl. by rewrite lookup_empty.
  - apply Forall_singleton. exact sample_ranged.
  - vm_compute. reflexivity.
Defined.

Lemma Apply_atomic_witness :
  is_ok (snd (Apply New sample_order "alice" sample_cs "" 0)) = true.
Proof.
  pose proof (Apply_atomic New sample_order "alice" sample_cs "" 0 New_funds sample_ranged) as H.
  rewrite (surjective_pairing (Apply _ _ _ _ _ _)) in H. destruct H as (_&_&Hok&_).
  apply Hok. split; [done|]. intros c d. unfold sample_cs.
  intros [<- <-]%lookup_singleton_Some. by apply (bool_decide_unpack _).
Defined.

Lemma ApplyTx_once_witness :
  let w := run_ops [OSetBalance "alice" ∅]
    (fst (ApplyTx New sample_order "t1" "alice" sample_cs "" 0)) in
  ApplyTx w sample_order "t1" "alice" sample_cs "" 9 =
    (w, Ok (sample_cs, Some (MkLedger 1 "alice" sample_cs "" 0), true)).
Proof.
  apply (ApplyTx_once New sample_order "t1" "alice" sample_cs "" 0).
  - split; [done|]. intros o. unfold Ledgers. simpl. rewrite lookup_empty. split; constructor.
  - done.
  - vm_compute. reflexivity.
  - done.
Defined.
