(* ===== verification/Effects.v ===== *)
(** Calls out of the program: callbacks on the state of the outside world, the
    cancellation of a context, and [safe.Run] ([pkg/foundation/safe/safe.go]),
    which turns the panic of a callback into an error. Shared by the saga, TCC
    and two-phase-commit coordinators. *)
From Stdlib Require Import ZArith Lia Bool.
From stdpp Require Import base numbers strings list.
From S2P Require Import Prelude.

Open Scope Z_scope.

Section effects.
(** [W]: everything the callbacks act on. [E]: the errors they return. *)
Context {W E : Type}.

(** [ctx.Err()] at a moment: the reason the context is done, if it is. *)
Definition ctx : Type := W -> option E.

(** [context.WithoutCancel]: never done. *)
Definition WithoutCancel (c : ctx) : ctx := fun _ => None.

(** A [func(ctx context.Context) error] that terminates. *)
Definition callback : Type := ctx -> W -> W * go (option E).

(** An error value as the coordinators see it: the callback's own, or the
    [*PanicError] of [safe.Run]. *)
Inductive cbErr :=
| Plain (e : E)
| PanicError (value : string).

(** [safe.Run], and [safe.Go] for the goroutine it starts. *)
Definition Run (call : W * go (option E)) : W * option cbErr :=
  match call with
  | (w, Ret None) => (w, None)
  | (w, Ret (Some e)) => (w, Some (Plain e))
  | (w, Panic v) => (w, Some (PanicError v))
  end.

(** A call that returned no error and did not panic. *)
Definition succeeds (f : callback) (c : ctx) (w w' : W) : Prop := f c w = (w', Ret None).

Lemma Run_None call w : Run call = (w, None) <-> call = (w, Ret None).
Proof. destruct call as [w' [[e|]|v]]; simpl; split; congruence. Qed.

(** The steps of a list, whose operation is [act], ran in order, each with the
    context alive and without error. *)
Inductive forward {S} (act : S -> callback) (c : ctx) : list S -> W -> W -> Prop :=
| forward_nil w : forward act c [] w w
| forward_cons step l w w1 w2 : c w = None -> succeeds (act step) c w w1 ->
    forward act c l w1 w2 -> forward act c (step :: l) w w2.

Lemma forward_snoc {S} (act : S -> callback) c l : forall step w w1 w2,
  forward act c l w w1 -> c w1 = None -> succeeds (act step) c w1 w2 ->
  forward act c (l ++ [step]) w w2.
Proof.
  induction l as [|x l IH]; intros step w w1 w2 Hf Hc Hs; inversion Hf; subst; simpl.
  - econstructor; [done..|constructor].
  - econstructor; [done..|]. by eapply IH.
Qed.

Lemma forward_app_inv {S} (act : S -> callback) c l step : forall w w2,
  forward act c (l ++ [step]) w w2 ->
  exists w1, forward act c l w w1 /\ succeeds (act step) c w1 w2.
Proof.
  induction l as [|x l IH]; intros w w2 Hf; simpl in Hf; inversion Hf; subst.
  - exists w. split; [constructor|].
    match goal with H : forward _ _ [] _ _ |- _ => inversion H; subst end. done.
  - destruct (IH _ _ ltac:(done)) as (w3&?&?). exists w3. split; [by econstructor|done].
Qed.

Lemma alter_middle {A} (f : A -> A) l x t : alter f (length l) (l ++ x :: t) = l ++ f x :: t.
Proof. induction l as [|y l IH]; [done|]. simpl. f_equal. exact IH. Qed.

End effects.

Arguments ctx : clear implicits.
Arguments callback : clear implicits.
Arguments cbErr : clear implicits.
