(* ===== verification/Saga.v ===== *)
(** The saga coordinator ([pkg/orchestration/saga/saga.go]): actions in order,
    and on a failure the compensations of the completed steps in reverse, each
    tried a bounded number of times. *)
From Stdlib Require Import ZArith Lia Bool.
From stdpp Require Import base numbers strings list.
From S2P Require Import Prelude Effects.

Open Scope Z_scope.

Inductive Status := StatusCommitted | StatusCompensated | StatusCompensationFailed.

#[global] Instance Status_eq_dec : EqDecision Status.
Proof. solve_decision. Defined.

Section saga.
Context {W E : Type}.

(** The errors of a result: the callback's, or one wrapped by [Execute]. *)
Inductive sErr :=
| Raw (e : cbErr E)
| CtxDone (saga step : string) (e : E)
| ActionFailed (saga step : string) (e : cbErr E).

Record Step := MkStep {
  Name : string;
  Action : callback W E;
  Compensate : option (callback W E)
}.

(** [Duration] is not modelled. *)
Record StepResult := MkStepResult {
  sName : string;
  ActionErr : option sErr;
  Compensated : bool;
  CompensateErr : option (cbErr E);
  CompensateTry : Z
}.

Record Result := MkResult {
  rName : string;
  rStatus : Status;
  rErr : option sErr;
  FailedStep : string;
  Steps : list StepResult
}.

(** The compensation callback and the sleep between two attempts act on the
    world; the length of the sleep is the back-off package's. *)
Record config := MkConfig {
  compRetries : Z;
  onCompensate : string -> Z -> option (cbErr E) -> W -> W;
  sleep : Z -> W -> W
}.

Record Saga := MkSaga { name : string; cfg : config; steps : list Step }.

Definition New (n : string) (c : config) : Saga :=
  MkSaga n (MkConfig (if compRetries c <? 0 then 0 else compRetries c)
    (onCompensate c) (sleep c)) [].

Definition AddStep (s : Saga) (step : Step) : Saga :=
  MkSaga (name s) (cfg s) (steps s ++ [step]).

Definition Failed (r : Result) : bool :=
  negb (bool_decide (rStatus r = StatusCommitted)).

Definition set_status (r : Result) (st : Status) : Result :=
  MkResult (rName r) st (rErr r) (FailedStep r) (Steps r).
Definition set_steps (r : Result) (l : list StepResult) : Result :=
  MkResult (rName r) (rStatus r) (rErr r) (FailedStep r) l.
Definition fail (r : Result) (e : sErr) (step : string) : Result :=
  MkResult (rName r) (rStatus r) (Some e) step (Steps r).

(** The attempts at one compensation, [attempt] counting from 1; the result is
    the last error and the number of attempts made. *)
Fixpoint attempts_loop (fuel : nat) (cf : config) (stepName : string) (comp : callback W E)
    (compCtx : ctx W E) (attempts attempt : Z) (last : option (cbErr E)) (tried : Z) (w : W)
    : W * option (cbErr E) * Z :=
  match fuel with
  | O => (w, last, tried)
  | S fuel =>
      if attempts <? attempt then (w, last, tried)
      else
        let '(w, err) := Run (comp compCtx w) in
        let w := onCompensate cf stepName attempt err w in
        match err with
        | None => (w, None, attempt)
        | Some _ =>
            let w := if attempt <? attempts then sleep cf (attempt - 1) w else w in
            attempts_loop fuel cf stepName comp compCtx attempts (attempt + 1) err attempt w
        end
  end.

Definition try_compensate (cf : config) (stepName : string) (comp : callback W E)
    (compCtx : ctx W E) (w : W) : W * option (cbErr E) * Z :=
  let attempts := wrap64 (compRetries cf + 1) in
  attempts_loop (Z.to_nat attempts) cf stepName comp compCtx attempts 1 None 0 w.

(** [res.Steps[idx]] gets the outcome of its compensation. *)
Definition record (r : Result) (idx : nat) (err : option (cbErr E)) (tried : Z) : Result :=
  let r := set_steps r (alter (fun sr =>
    MkStepResult (sName sr) (ActionErr sr) true err tried) idx (Steps r)) in
  match err with None => r | Some _ => set_status r StatusCompensationFailed end.

(** The loop of [compensate], over the completed indices from the last one. *)
Fixpoint compensate_loop (s : Saga) (compCtx : ctx W E) (todo : list nat) (r : Result) (w : W)
    : W * Result :=
  match todo with
  | [] => (w, r)
  | idx :: todo =>
      match steps s !! idx with
      | None => (w, r)
      | Some step =>
          match Compensate step with
          | None => compensate_loop s compCtx todo r w
          | Some comp =>
              let '(w, err, tried) := try_compensate (cfg s) (Name step) comp compCtx w in
              compensate_loop s compCtx todo (record r idx err tried) w
          end
      end
  end.

Definition compensate (s : Saga) (c : ctx W E) (completed : list nat) (r : Result) (w : W)
    : W * Result :=
  compensate_loop s (WithoutCancel c) (rev completed) (set_status r StatusCompensated) w.

Fixpoint execute_loop (s : Saga) (c : ctx W E) (i : nat) (todo : list Step)
    (completed : list nat) (r : Result) (w : W) : W * Result :=
  match todo with
  | [] => (w, r)
  | step :: todo =>
      match c w with
      | Some e =>
          let err := CtxDone (name s) (Name step) e in
          let r := fail r err (Name step) in
          let r := set_steps r (Steps r ++ [MkStepResult (Name step) (Some err) false None 0]) in
          compensate s c completed r w
      | None =>
          let '(w, err) := Run (Action step c w) in
          let r := set_steps r (Steps r ++
            [MkStepResult (Name step) (Raw <$> err) false None 0]) in
          match err with
          | Some e =>
              compensate s c completed (fail r (ActionFailed (name s) (Name step) e) (Name step)) w
          | None => execute_loop s c (S i) todo (completed ++ [i]) r w
          end
      end
  end.

Definition Execute (s : Saga) (c : ctx W E) (w : W) : W * Result :=
  execute_loop s c 0 (steps s) [] (MkResult (name s) StatusCommitted None "" []) w.

(** * What an execution does *)

(** Compensating a list of steps in the given order: the world and, per step,
    the last error and the number of attempts (nothing without a compensation). *)
Fixpoint undo (cf : config) (cc : ctx W E) (l : list Step) (w : W)
    : W * list (option (option (cbErr E) * Z)) :=
  match l with
  | [] => (w, [])
  | step :: l =>
      match Compensate step with
      | None => let '(w, outs) := undo cf cc l w in (w, None :: outs)
      | Some comp =>
          let '(w, err, tried) := try_compensate cf (Name step) comp cc w in
          let '(w, outs) := undo cf cc l w in (w, Some (err, tried) :: outs)
      end
  end.

Definition undo_failed (o : option (option (cbErr E) * Z)) : bool :=
  match o with Some (Some _, _) => true | _ => false end.

(** The row of a completed step once it has been compensated. *)
Definition row (step : Step) (o : option (option (cbErr E) * Z)) : StepResult :=
  match o with
  | None => MkStepResult (Name step) None false None 0
  | Some (err, tried) => MkStepResult (Name step) None true err tried
  end.

Definition ok_row (step : Step) : StepResult := row step None.

Lemma undo_length cf cc l : forall w, length (snd (undo cf cc l w)) = length l.
Proof.
  induction l as [|step l IH]; intros w; [done|]. simpl.
  destruct (Compensate step) as [comp|].
  - destruct (try_compensate _ _ _ _ _) as [[w1 err] tried]. specialize (IH w1).
    destruct (undo cf cc l w1). simpl in *. by rewrite IH.
  - specialize (IH w). destruct (undo cf cc l w). simpl in *. by rewrite IH.
Qed.

(** The index loop of [compensate] is [undo] on the completed prefix. *)
Lemma compensate_loop_undo s cc : forall done tail tl r w,
  steps s = done ++ tail -> Steps r = (ok_row <$> done) ++ tl ->
  let '(w', outs) := undo (cfg s) cc (rev done) w in
  compensate_loop s cc (rev (seq 0 (length done))) r w =
    (w', set_status (set_steps r (zip_with row done (rev outs) ++ tl))
           (if existsb undo_failed outs then StatusCompensationFailed else rStatus r)).
Proof.
  intros d. induction d as [|x d IH] using rev_ind; intros tail tl r w Hs Hr.
  { simpl. destruct r as [n st e f l]. simpl in *. by subst l. }
  rewrite rev_app_distr, length_app. cbn [length rev app]. rewrite Nat.add_1_r, seq_S, rev_app_distr, Nat.add_0_l.
  cbn [rev app undo compensate_loop].
  rewrite Hs, <- app_assoc, lookup_app_r, Nat.sub_diag by done. cbn [lookup list_lookup app].
  assert (Hs' : steps s = d ++ x :: tail) by (by rewrite Hs, <- app_assoc).
  assert (Hr' : Steps r = (ok_row <$> d) ++ ok_row x :: tl) by (by rewrite Hr, fmap_app, <- app_assoc).
  assert (Hz : forall o outs, length outs = length d ->
    zip_with row (d ++ [x]) (rev (o :: outs)) ++ tl = zip_with row d (rev outs) ++ row x o :: tl).
  { intros o outs Hl. cbn [rev]. rewrite zip_with_app by (by rewrite length_rev).
    by rewrite <- app_assoc. }
  destruct (Compensate x) as [comp|].
  - destruct (try_compensate _ _ _ _ _) as [[w1 err] tried].
    specialize (IH (x :: tail) (row x (Some (err, tried)) :: tl) (record r (length d) err tried) w1 Hs').
    pose proof (undo_length (cfg s) cc (rev d) w1) as Hlen. rewrite length_rev in Hlen.
    destruct (undo (cfg s) cc (rev d) w1) as [w2 outs]. simpl in Hlen. rewrite IH.
    + rewrite Hz by done. destruct err; simpl; [|done]. by destruct (existsb _ outs).
    + unfold record. rewrite Hr'.
      rewrite <- (length_fmap ok_row d), alter_middle. by destruct err.
  - specialize (IH (x :: tail) (ok_row x :: tl) r w Hs' Hr').
    pose proof (undo_length (cfg s) cc (rev d) w) as Hlen. rewrite length_rev in Hlen.
    destruct (undo (cfg s) cc (rev d) w) as [w2 outs]. simpl in Hlen. rewrite IH.
    by rewrite Hz.
Qed.

(** The failure of one step: the context was done, or the action failed. *)
Inductive step_fails (s : Saga) (c : ctx W E) (step : Step) (w : W) : W -> sErr -> sErr -> Prop :=
| fails_ctx e : c w = Some e ->
    step_fails s c step w w (CtxDone (name s) (Name step) e) (CtxDone (name s) (Name step) e)
| fails_action w' e : c w = None -> Run (Action step c w) = (w', Some e) ->
    step_fails s c step w w' (ActionFailed (name s) (Name step) e) (Raw e).

(** The two ways an execution ends. *)
Definition committed (s : Saga) (c : ctx W E) (w w' : W) (r : Result) : Prop :=
  forward Action c (steps s) w w' /\
  r = MkResult (name s) StatusCommitted None "" (ok_row <$> steps s).

Definition compensated (s : Saga) (c : ctx W E) (w w' : W) (r : Result) : Prop :=
  exists l step rest w1 w2 err err0,
    steps s = l ++ step :: rest /\ forward Action c l w w1 /\ step_fails s c step w1 w2 err err0 /\
    let '(w3, outs) := undo (cfg s) (WithoutCancel c) (rev l) w2 in
    w' = w3 /\
    r = MkResult (name s)
          (if existsb undo_failed outs then StatusCompensationFailed else StatusCompensated)
          (Some err) (Name step)
          (zip_with row l (rev outs) ++ [MkStepResult (Name step) (Some err0) false None 0]).

Lemma compensate_undo s c l tail step err err0 w :
  steps s = l ++ tail ->
  let '(w3, outs) := undo (cfg s) (WithoutCancel c) (rev l) w in
  compensate s c (seq 0 (length l))
    (MkResult (name s) StatusCommitted (Some err) (Name step)
       ((ok_row <$> l) ++ [MkStepResult (Name step) (Some err0) false None 0])) w =
  (w3, MkResult (name s)
         (if existsb undo_failed outs then StatusCompensationFailed else StatusCompensated)
         (Some err) (Name step)
         (zip_with row l (rev outs) ++ [MkStepResult (Name step) (Some err0) false None 0])).
Proof.
  intros Hs. unfold compensate.
  pose proof (compensate_loop_undo s (WithoutCancel c) l tail
    [MkStepResult (Name step) (Some err0) false None 0]) as H.
  specialize (H (MkResult (name s) StatusCompensated (Some err) (Name step)
       ((ok_row <$> l) ++ [MkStepResult (Name step) (Some err0) false None 0])) w Hs eq_refl).
  by destruct (undo _ _ _ _) as [w3 outs].
Qed.

Lemma execute_loop_outcome s c : forall todo l w w1,
  steps s = l ++ todo -> forward Action c l w w1 ->
  let '(w', r) := execute_loop s c (length l) todo (seq 0 (length l))
    (MkResult (name s) StatusCommitted None "" (ok_row <$> l)) w1 in
  committed s c w w' r \/ compensated s c w w' r.
Proof.
  intros todo. induction todo as [|step todo IH]; intros l w w1 Hs Hf; simpl.
  { left. rewrite app_nil_r in Hs. unfold committed. by rewrite Hs. }
  destruct (c w1) as [e|] eqn:Hc.
  - pose proof (compensate_undo s c l (step :: todo) step (CtxDone (name s) (Name step) e)
      (CtxDone (name s) (Name step) e) w1 Hs) as H.
    destruct (undo _ _ _ _) as [w3 outs] eqn:Hu. unfold fail, set_steps. simpl. rewrite H. right.
    exists l, step, todo, w1, w1. do 2 eexists. split; [done|]. split; [done|].
    split; [by apply fails_ctx|]. by rewrite Hu.
  - destruct (Run (Action step c w1)) as [w2 [e|]] eqn:Hr.
    + pose proof (compensate_undo s c l (step :: todo) step (ActionFailed (name s) (Name step) e)
        (Raw e) w2 Hs) as H.
      destruct (undo _ _ _ _) as [w3 outs] eqn:Hu. unfold fail, set_steps. simpl. rewrite H. right.
      exists l, step, todo, w1, w2. do 2 eexists. split; [done|]. split; [done|].
      split; [by apply fails_action|]. by rewrite Hu.
    + apply Run_None in Hr.
      specialize (IH (l ++ [step]) w w2). rewrite <- app_assoc in IH. specialize (IH Hs).
      rewrite length_app, Nat.add_1_r, seq_S, fmap_app in IH.
      by apply IH, (forward_snoc Action c l step w w1 w2).
Qed.

Lemma Execute_outcome s c w :
  let '(w', r) := Execute s c w in committed s c w w' r \/ compensated s c w w' r.
Proof. apply (execute_loop_outcome s c (steps s) []); [done|constructor]. Qed.

(** The attempts at a compensation that fails [n] times in a row. *)
Inductive tries (cf : config) (nm : string) (f : callback W E) (cc : ctx W E)
    : Z -> W -> option (cbErr E) -> Z -> W -> Prop :=
| tries_ok a w w1 : Run (f cc w) = (w1, None) ->
    tries cf nm f cc a w None a (onCompensate cf nm a None w1)
| tries_last a w w1 e : Run (f cc w) = (w1, Some e) -> a = compRetries cf + 1 ->
    tries cf nm f cc a w (Some e) a (onCompensate cf nm a (Some e) w1)
| tries_again a w w1 e err t w2 : Run (f cc w) = (w1, Some e) -> a < compRetries cf + 1 ->
    tries cf nm f cc (a + 1) (sleep cf (a - 1) (onCompensate cf nm a (Some e) w1)) err t w2 ->
    tries cf nm f cc a w err t w2.

Lemma attempts_loop_tries cf nm f cc : 0 <= compRetries cf < maxInt64 ->
  forall fuel a last tried w, 1 <= a <= compRetries cf + 1 ->
  Z.of_nat fuel = compRetries cf + 2 - a ->
  let '(w', err, t) := attempts_loop fuel cf nm f cc (compRetries cf + 1) a last tried w in
  tries cf nm f cc a w err t w'.
Proof.
  intros Hr. induction fuel as [|fuel IH]; intros a last tried w Ha Hf; [lia|].
  cbn [attempts_loop]. destruct (Z.ltb_spec (compRetries cf + 1) a); [lia|].
  destruct (Run (f cc w)) as [w1 [e|]] eqn:Hrun; [|by apply tries_ok].
  destruct (Z.ltb_spec a (compRetries cf + 1)) as [Hlt|Hge].
  - specialize (IH (a + 1) (Some e) a
      (sleep cf (a - 1) (onCompensate cf nm a (Some e) w1)) ltac:(lia) ltac:(lia)).
    destruct (attempts_loop _ _ _ _ _ _ _ _ _ _) as [[w' err] t]. by eapply tries_again.
  - destruct fuel; [|lia]. simpl. apply tries_last; [done|lia].
Qed.

Lemma try_compensate_tries cf nm f cc w : 0 <= compRetries cf < maxInt64 ->
  let '(w', err, t) := try_compensate cf nm f cc w in tries cf nm f cc 1 w err t w'.
Proof.
  intros Hr. unfold try_compensate. unfold maxInt64 in Hr.
  rewrite wrap64_id by (unfold int64; lia).
  apply attempts_loop_tries; unfold maxInt64; lia.
Qed.

Lemma tries_bounds cf nm f cc a w err t w' : tries cf nm f cc a w err t w' ->
  a <= t /\ (a <= compRetries cf + 1 -> t <= compRetries cf + 1) /\
  (err <> None -> t = compRetries cf + 1).
Proof. induction 1; repeat split; try done; intros; try lia; naive_solver lia. Qed.

(** A compensation is attempted at least once and at most [compRetries + 1]
    times, stopping at the first success: an error is reported exactly when all
    the attempts failed. *)
Theorem compensation_attempts cf nm f cc w : 0 <= compRetries cf < maxInt64 ->
  let '(w', err, t) := try_compensate cf nm f cc w in
  tries cf nm f cc 1 w err t w' /\ 1 <= t <= compRetries cf + 1 /\
  (err <> None -> t = compRetries cf + 1).
Proof.
  intros Hr. pose proof (try_compensate_tries cf nm f cc w Hr) as H.
  destruct (try_compensate _ _ _ _ _) as [[w' err] t]. split; [done|].
  apply tries_bounds in H as (?&?&?). split; [lia|done].
Qed.

(** Every execution either runs all the actions in order and commits, or
    stops at the first step that fails or finds the context done, compensates
    exactly the steps before it in reverse order with the uncancelled context,
    and reports [StatusCompensated] when all the compensations succeeded and
    [StatusCompensationFailed] otherwise, with a row per step reached. *)
Theorem saga_outcome s c w :
  let '(w', r) := Execute s c w in committed s c w w' r \/ compensated s c w w' r.
Proof. apply Execute_outcome. Qed.

(** ** Compensations that undo *)

(** A step whose compensation reverses its action, and whose failing action
    leaves nothing behind. *)
Definition reversible (c : ctx W E) (step : Step) : Prop :=
  (forall w w1, succeeds (Action step) c w w1 ->
     match Compensate step with
     | Some f => succeeds f (WithoutCancel c) w1 w
     | None => w1 = w
     end) /\
  (forall w w1 e, Run (Action step c w) = (w1, Some e) -> w1 = w).

Lemma undo_restores cf c l : (forall nm t e w, onCompensate cf nm t e w = w) ->
  0 <= compRetries cf < maxInt64 -> Forall (reversible c) l ->
  forall w w1, forward Action c l w w1 ->
  exists outs, undo cf (WithoutCancel c) (rev l) w1 = (w, outs) /\ existsb undo_failed outs = false.
Proof.
  intros Hq Hr. induction l as [|x l IH] using rev_ind; intros Hrev w w1 Hf.
  { inversion Hf; subst. by exists []. }
  apply Forall_app in Hrev as [Hl Hx]. apply Forall_singleton in Hx as [Hx _].
  apply forward_app_inv in Hf as (w0&Hf&Hs). apply Hx in Hs.
  rewrite rev_app_distr. cbn [rev app undo].
  destruct (IH Hl w w0 Hf) as (outs&Hu&He). destruct (Compensate x) as [f|].
  - apply Run_None in Hs. pose proof (try_compensate_tries cf (Name x) f (WithoutCancel c) w1 Hr) as Ht.
    destruct (try_compensate _ _ _ _ _) as [[w' err] t].
    inversion Ht; subst; try congruence.
    match goal with H : Run _ = (?v, None) |- _ =>
      assert (v = w0) as -> by (rewrite Hs in H; congruence) end.
    rewrite Hq, Hu. by eexists.
  - subst. rewrite Hu. by eexists.
Qed.

(** C15: All or nothing. When every compensation reverses its action and succeeds, a failing
    action leaves nothing behind, the hook does not act on the world and the number of retries, which is
    not negative, does not overflow, an execution that does not commit leaves the world as it found it
    and reports [StatusCompensated]. *)
Theorem saga_restores s c w : (forall nm t e w, onCompensate (cfg s) nm t e w = w) ->
  0 <= compRetries (cfg s) < maxInt64 -> Forall (reversible c) (steps s) ->
  let '(w', r) := Execute s c w in
  rStatus r = StatusCommitted \/ (rStatus r = StatusCompensated /\ w' = w).
Proof.
  intros Hq Hr Hrev. pose proof (Execute_outcome s c w) as H.
  destruct (Execute s c w) as [w' r]. destruct H as [[_ ->]|H]; [by left|right].
  destruct H as (l&step&rest&w1&w2&err&err0&Hs&Hf&Hfail&H).
  rewrite Hs in Hrev. apply Forall_app in Hrev as [Hl [Hx _]%Forall_cons].
  assert (w2 = w1) as -> by (destruct Hfail as [|w2 e _ Hrun]; [done|by apply Hx in Hrun]).
  destruct (undo_restores (cfg s) c l Hq Hr Hl w w1 Hf) as (outs&Hu&He).
  rewrite Hu, He in H. by destruct H as [-> ->].
Qed.

End saga.

(** * The theorems on a concrete saga *)

(** A counter as the world: reserve one unit, then a step that always panics. *)
Definition take_one : Step (W := Z) (E := string) :=
  MkStep "take" (fun _ w => (w - 1, Ret None)) (Some (fun _ w => (w + 1, Ret None))).
Definition broken : Step (W := Z) (E := string) :=
  MkStep "broken" (fun _ w => (w, Panic "boom"%string)) None.
Definition quiet : config (W := Z) (E := string) := MkConfig 2 (fun _ _ _ w => w) (fun _ w => w).
Definition sample_saga : Saga := AddStep (AddStep (New "order" quiet) take_one) broken.

Lemma saga_restores_witness : fst (Execute sample_saga (fun _ => None) 10) = 10.
Proof.
  assert (let '(w', r) := Execute sample_saga (fun _ => None) 10 in
    rStatus r = StatusCommitted \/ (rStatus r = StatusCompensated /\ w' = 10)) as H.
  { apply saga_restores; [done|vm_compute; by split|].
    repeat constructor; simpl; unfold succeeds; simpl; intros; simplify_eq; try done;
      f_equal; lia. }
  vm_compute in H. destruct H as [H|[_ H]]; [discriminate H|exact H].
Defined.

Lemma compensation_attempts_witness :
  let '(w', err, t) := try_compensate quiet "take" (fun _ w => (w + 1, Panic "down"%string))
    (fun _ => None) 10 in t = 3 /\ err = Some (PanicError "down") /\ w' = 13.
Proof.
  pose proof (compensation_attempts quiet "take" (fun _ w => (w + 1, Panic "down"%string))
    (fun _ => None) 10 ltac:(vm_compute; by split)) as H.
  vm_compute in H |- *. destruct H as (_&_&H). split; [by apply H|done].
Defined.
