(* ===== verification/Tcc.v ===== *)
(** The TCC coordinator ([pkg/orchestration/tcc/tcc.go]): try every branch in
    order, then confirm all of them, or cancel the tried ones in reverse. *)
From Stdlib Require Import ZArith Lia Bool.
From stdpp Require Import base numbers strings list.
From S2P Require Import Prelude Effects.

Open Scope Z_scope.

Inductive Status := StatusConfirmed | StatusCancelled | StatusCancelFailed | StatusConfirmFailed.

#[global] Instance Status_eq_dec : EqDecision Status.
Proof. solve_decision. Defined.

Section tcc.
Context {W E : Type}.

Record Branch := MkBranch {
  Name : string;
  Try : callback W E;
  Confirm : option (callback W E);
  Cancel : option (callback W E)
}.

(** The errors of a result; [errors.Join] of the failed confirmations keeps
    their names and causes in order. *)
Inductive tErr :=
| Raw (e : cbErr E)
| CtxDone (tx branch : string) (e : E)
| TryFailed (tx branch : string) (e : cbErr E)
| Joined (l : list (string * cbErr E)).

(** [TryDur] is not modelled. *)
Record BranchResult := MkRow {
  bName : string;
  TryErr : option tErr;
  ConfirmErr : option (cbErr E);
  CancelErr : option (cbErr E);
  Cancelled : bool;
  Confirmed : bool
}.

Definition zeroRow : BranchResult := MkRow "" None None None false false.

Record Result := MkResult {
  rStatus : Status;
  rErr : option tErr;
  FailedBranch : string;
  Branches : list BranchResult
}.

Definition Failed (r : Result) : bool := negb (bool_decide (rStatus r = StatusConfirmed)).

(** The hooks and the sleep between attempts act on the world. *)
Record config := MkConfig {
  confirmRetries : Z;
  cancelRetries : Z;
  confirmDelay : Z;
  cancelDelay : Z;
  maxRetryDelay : Z;
  onCancel : string -> Z -> option (cbErr E) -> W -> W;
  onConfirm : string -> Z -> option (cbErr E) -> W -> W;
  sleep : Z -> W -> W
}.

Definition WithConfirmRetry (retries delay : Z) (c : config) : config :=
  MkConfig (if 0 <=? retries then retries else confirmRetries c) (cancelRetries c)
    (if 0 <? delay then delay else confirmDelay c) (cancelDelay c) (maxRetryDelay c)
    (onCancel c) (onConfirm c) (sleep c).

Definition WithCancelRetry (retries : Z) (delays : list Z) (c : config) : config :=
  MkConfig (confirmRetries c) (if 0 <=? retries then retries else cancelRetries c)
    (confirmDelay c)
    match delays with d :: _ => if 0 <? d then d else cancelDelay c | [] => cancelDelay c end
    (maxRetryDelay c) (onCancel c) (onConfirm c) (sleep c).

Definition WithMaxRetryDelay (d : Z) (c : config) : config :=
  MkConfig (confirmRetries c) (cancelRetries c) (confirmDelay c) (cancelDelay c)
    (if 0 <? d then d else maxRetryDelay c) (onCancel c) (onConfirm c) (sleep c).

(** The defaults of [New]: 100 ms between attempts, at most 10 s. *)
Definition defaults (sl : Z -> W -> W) : config :=
  MkConfig 0 0 100000000 100000000 10000000000 (fun _ _ _ w => w) (fun _ _ _ w => w) sl.

Record Tx := MkTx { name : string; cfg : config; branches : list Branch }.

Definition New (n : string) (sl : Z -> W -> W) (opts : list (config -> config)) : Tx :=
  MkTx n (foldl (fun c o => o c) (defaults sl) opts) [].

Definition AddBranch (t : Tx) (b : Branch) : Tx := MkTx (name t) (cfg t) (branches t ++ [b]).

(** The wait after a failed [attempt]. *)
Definition retryDelay (c : config) (baseDelay attempt : Z) : Z :=
  let shift := Z.min (attempt - 1) 30 in
  let delay := wrap64 (baseDelay * Z.shiftl 1 shift) in
  if (0 <? maxRetryDelay c) && (maxRetryDelay c <? delay) then maxRetryDelay c else delay.

Fixpoint retry_loop (fuel : nat) (c : config) (nm : string) (op : callback W E) (cc : ctx W E)
    (attempts attempt baseDelay : Z) (hook : string -> Z -> option (cbErr E) -> W -> W)
    (last : option (cbErr E)) (w : W) : W * option (cbErr E) :=
  match fuel with
  | O => (w, last)
  | S fuel =>
      if attempts <? attempt then (w, last)
      else
        let '(w, err) := Run (op cc w) in
        let w := hook nm attempt err w in
        match err with
        | None => (w, None)
        | Some _ =>
            let w := if attempt <? attempts then sleep c (retryDelay c baseDelay attempt) w else w in
            retry_loop fuel c nm op cc attempts (attempt + 1) baseDelay hook err w
        end
  end.

Definition retryOp (c : config) (cc : ctx W E) (nm : string) (op : callback W E)
    (retries baseDelay : Z) (hook : string -> Z -> option (cbErr E) -> W -> W) (w : W)
    : W * option (cbErr E) :=
  let attempts := wrap64 (retries + 1) in
  retry_loop (Z.to_nat attempts) c nm op cc attempts 1 baseDelay hook None w.

Definition set_row (r : Result) (f : BranchResult -> BranchResult) (idx : nat) : Result :=
  MkResult (rStatus r) (rErr r) (FailedBranch r) (alter f idx (Branches r)).
Definition set_status (r : Result) (st : Status) : Result :=
  MkResult st (rErr r) (FailedBranch r) (Branches r).

Definition row_confirmed (err : option (cbErr E)) (b : BranchResult) : BranchResult :=
  MkRow (bName b) (TryErr b) err (CancelErr b) (Cancelled b) true.
Definition row_cancelled (err : option (cbErr E)) (b : BranchResult) : BranchResult :=
  MkRow (bName b) (TryErr b) (ConfirmErr b) err true (Confirmed b).

Fixpoint confirm_loop (t : Tx) (cc : ctx W E) (tried : list nat)
    (errs : list (string * cbErr E)) (r : Result) (w : W)
    : W * list (string * cbErr E) * Result :=
  match tried with
  | [] => (w, errs, r)
  | idx :: tried =>
      match branches t !! idx with
      | None => (w, errs, r)
      | Some b =>
          match Confirm b with
          | None => confirm_loop t cc tried errs (set_row r (fun x =>
              MkRow (bName x) (TryErr x) (ConfirmErr x) (CancelErr x) (Cancelled x) true) idx) w
          | Some f =>
              let '(w, err) := retryOp (cfg t) cc (Name b) f (confirmRetries (cfg t))
                (confirmDelay (cfg t)) (onConfirm (cfg t)) w in
              let r := set_row r (row_confirmed err) idx in
              confirm_loop t cc tried
                match err with Some e => errs ++ [(Name b, e)] | None => errs end r w
          end
      end
  end.

Definition confirmAll (t : Tx) (c : ctx W E) (tried : list nat) (r : Result) (w : W)
    : W * Result :=
  let '(w, errs, r) := confirm_loop t (WithoutCancel c) tried [] r w in
  match errs with
  | [] => (w, r)
  | _ => (w, MkResult StatusConfirmFailed (Some (Joined errs)) (FailedBranch r) (Branches r))
  end.

Fixpoint cancel_loop (t : Tx) (cc : ctx W E) (todo : list nat) (r : Result) (w : W)
    : W * Result :=
  match todo with
  | [] => (w, r)
  | idx :: todo =>
      match branches t !! idx with
      | None => (w, r)
      | Some b =>
          match Cancel b with
          | None => cancel_loop t cc todo (set_row r (fun x =>
              MkRow (bName x) (TryErr x) (ConfirmErr x) (CancelErr x) true (Confirmed x)) idx) w
          | Some f =>
              let '(w, err) := retryOp (cfg t) cc (Name b) f (cancelRetries (cfg t))
                (cancelDelay (cfg t)) (onCancel (cfg t)) w in
              let r := set_row r (row_cancelled err) idx in
              cancel_loop t cc todo
                match err with Some _ => set_status r StatusCancelFailed | None => r end w
          end
      end
  end.

Definition cancelAll (t : Tx) (c : ctx W E) (tried : list nat) (r : Result) (w : W)
    : W * Result :=
  cancel_loop t (WithoutCancel c) (rev tried) (set_status r StatusCancelled) w.

Definition fail (r : Result) (e : tErr) (b : string) : Result :=
  MkResult (rStatus r) (Some e) b (Branches r).

Definition try_row (nm : string) (e : option tErr) : BranchResult :=
  MkRow nm e None None false false.

Fixpoint try_loop (t : Tx) (c : ctx W E) (i : nat) (todo : list Branch) (tried : list nat)
    (r : Result) (w : W) : W * Result :=
  match todo with
  | [] => confirmAll t c tried r w
  | b :: todo =>
      match c w with
      | Some e =>
          let err := CtxDone (name t) (Name b) e in
          let r := fail r err (Name b) in
          cancelAll t c tried (set_row r (fun _ => try_row (Name b) (Some err)) i) w
      | None =>
          let '(w, err) := Run (Try b c w) in
          let r := set_row r (fun _ => try_row (Name b) (Raw <$> err)) i in
          match err with
          | Some e => cancelAll t c tried (fail r (TryFailed (name t) (Name b) e) (Name b)) w
          | None => try_loop t c (S i) todo (tried ++ [i]) r w
          end
      end
  end.

Definition Execute (t : Tx) (c : ctx W E) (w : W) : W * Result :=
  try_loop t c 0 (branches t) []
    (MkResult StatusConfirmed None "" (replicate (length (branches t)) zeroRow)) w.

(** * What an execution does *)

Definition tried_row (b : Branch) : BranchResult := try_row (Name b) None.

(** Confirming every branch of a list in order, whatever fails, and cancelling
    every branch of a list in the given order: the world and the last error of
    each. *)
Fixpoint confirm_each (t : Tx) (cc : ctx W E) (l : list Branch) (w : W)
    : W * list (option (cbErr E)) :=
  match l with
  | [] => (w, [])
  | b :: l =>
      let '(w, err) := match Confirm b with
        | None => (w, None)
        | Some f => retryOp (cfg t) cc (Name b) f (confirmRetries (cfg t))
                      (confirmDelay (cfg t)) (onConfirm (cfg t)) w
        end in
      let '(w, outs) := confirm_each t cc l w in (w, err :: outs)
  end.

Fixpoint cancel_each (t : Tx) (cc : ctx W E) (l : list Branch) (w : W)
    : W * list (option (cbErr E)) :=
  match l with
  | [] => (w, [])
  | b :: l =>
      let '(w, err) := match Cancel b with
        | None => (w, None)
        | Some f => retryOp (cfg t) cc (Name b) f (cancelRetries (cfg t))
                      (cancelDelay (cfg t)) (onCancel (cfg t)) w
        end in
      let '(w, outs) := cancel_each t cc l w in (w, err :: outs)
  end.

Definition failures (l : list Branch) (outs : list (option (cbErr E))) : list (string * cbErr E) :=
  omap (fun p => match p with (b, Some e) => Some (Name b, e) | (b, None) => None end)
    (zip l outs).

Definition is_some {A} (o : option A) : bool := match o with Some _ => true | None => false end.

Definition confirmed_row (b : Branch) (e : option (cbErr E)) : BranchResult :=
  row_confirmed e (tried_row b).
Definition cancelled_row (b : Branch) (e : option (cbErr E)) : BranchResult :=
  row_cancelled e (tried_row b).

Lemma cancel_each_length t cc l : forall w, length (snd (cancel_each t cc l w)) = length l.
Proof.
  induction l as [|b l IH]; intros w; [done|]. simpl.
  destruct (match Cancel b with Some _ => _ | None => _ end) as [w1 err].
  specialize (IH w1). destruct (cancel_each t cc l w1). simpl in *. by rewrite IH.
Qed.

Lemma confirm_loop_each t cc : forall l pre rows errs r w,
  branches t = pre ++ l -> length rows = length pre ->
  Branches r = rows ++ (tried_row <$> l) ->
  let '(w', outs) := confirm_each t cc l w in
  confirm_loop t cc (seq (length pre) (length l)) errs r w =
    (w', errs ++ failures l outs,
     MkResult (rStatus r) (rErr r) (FailedBranch r) (rows ++ zip_with confirmed_row l outs)).
Proof.
  intros l. induction l as [|b l IH]; intros pre rows errs r w Hb Hlen Hr.
  { simpl. unfold failures. simpl. rewrite app_nil_r. destruct r. simpl in *. by subst. }
  cbn [length seq confirm_loop confirm_each].
  rewrite Hb, lookup_app_r, Nat.sub_diag by done. cbn [lookup list_lookup].
  assert (Hb' : branches t = (pre ++ [b]) ++ l) by (by rewrite <- app_assoc).
  assert (Hset : forall f, set_row r f (length pre) =
    MkResult (rStatus r) (rErr r) (FailedBranch r) ((rows ++ [f (tried_row b)]) ++ (tried_row <$> l))).
  { intros f. unfold set_row. rewrite Hr, <- Hlen. simpl. rewrite alter_middle, <- app_assoc. done. }
  assert (Hl' : length (rows ++ [zeroRow]) = length (pre ++ [b])) by (rewrite !length_app; simpl; lia).
  assert (Hp : S (length pre) = length (pre ++ [b])) by (rewrite length_app; simpl; lia).
  destruct (Confirm b) as [f|].
  - destruct (retryOp _ _ _ _ _ _ _ _) as [w1 err]. rewrite Hset, Hp.
    specialize (IH (pre ++ [b]) (rows ++ [row_confirmed err (tried_row b)])
      (match err with Some e => errs ++ [(Name b, e)] | None => errs end)
      (MkResult (rStatus r) (rErr r) (FailedBranch r)
        ((rows ++ [row_confirmed err (tried_row b)]) ++ (tried_row <$> l))) w1 Hb'
      ltac:(rewrite !length_app in *; done) eq_refl).
    destruct (confirm_each t cc l w1) as [w2 outs]. rewrite IH. simpl. rewrite <- app_assoc.
    destruct err as [e|]; [|done]. by rewrite <- app_assoc.
  - rewrite Hset, Hp.
    specialize (IH (pre ++ [b]) (rows ++ [confirmed_row b None]) errs
      (MkResult (rStatus r) (rErr r) (FailedBranch r)
        ((rows ++ [confirmed_row b None]) ++ (tried_row <$> l))) w Hb'
      ltac:(rewrite !length_app in *; done) eq_refl).
    destruct (confirm_each t cc l w) as [w2 outs]. etrans; [exact IH|].
    simpl. by rewrite <- app_assoc.
Qed.

Lemma cancel_loop_each t cc : forall l tail tl r w,
  branches t = l ++ tail -> Branches r = (tried_row <$> l) ++ tl ->
  let '(w', outs) := cancel_each t cc (rev l) w in
  cancel_loop t cc (rev (seq 0 (length l))) r w =
    (w', MkResult (if existsb is_some outs then StatusCancelFailed else rStatus r)
           (rErr r) (FailedBranch r) (zip_with cancelled_row l (rev outs) ++ tl)).
Proof.
  intros l. induction l as [|b l IH] using rev_ind; intros tail tl r w Hb Hr.
  { simpl. destruct r. simpl in *. by subst. }
  rewrite rev_app_distr, length_app. cbn [length rev app].
  rewrite Nat.add_1_r, seq_S, rev_app_distr, Nat.add_0_l. cbn [rev app cancel_each cancel_loop].
  rewrite Hb, <- app_assoc, lookup_app_r, Nat.sub_diag by done. cbn [lookup list_lookup app].
  assert (Hb' : branches t = l ++ b :: tail) by (by rewrite Hb, <- app_assoc).
  assert (Hset : forall f, set_row r f (length l) = MkResult (rStatus r) (rErr r) (FailedBranch r)
    ((tried_row <$> l) ++ f (tried_row b) :: tl)).
  { intros f. unfold set_row. rewrite Hr, fmap_app, <- app_assoc. simpl.
    by rewrite <- (length_fmap tried_row l), alter_middle. }
  assert (Hz : forall o outs, length outs = length l ->
    zip_with cancelled_row (l ++ [b]) (rev (o :: outs)) ++ tl =
      zip_with cancelled_row l (rev outs) ++ cancelled_row b o :: tl).
  { intros o outs Hl. cbn [rev]. rewrite zip_with_app by (by rewrite length_rev).
    by rewrite <- app_assoc. }
  destruct (Cancel b) as [f|].
  - destruct (retryOp _ _ _ _ _ _ _ _) as [w1 err]. rewrite Hset.
    specialize (IH (b :: tail) (row_cancelled err (tried_row b) :: tl)
      (match err with
       | Some _ => MkResult StatusCancelFailed (rErr r) (FailedBranch r)
           ((tried_row <$> l) ++ row_cancelled err (tried_row b) :: tl)
       | None => MkResult (rStatus r) (rErr r) (FailedBranch r)
           ((tried_row <$> l) ++ row_cancelled err (tried_row b) :: tl)
       end) w1 Hb' ltac:(by destruct err)).
    pose proof (cancel_each_length t cc (rev l) w1) as Hlen. rewrite length_rev in Hlen.
    destruct (cancel_each t cc (rev l) w1) as [w2 outs]. simpl in Hlen. rewrite Hz by done.
    destruct err as [e|]; (etrans; [exact IH|]); simpl; [|done]. by destruct (existsb _ outs).
  - rewrite Hset.
    specialize (IH (b :: tail) (cancelled_row b None :: tl)
      (MkResult (rStatus r) (rErr r) (FailedBranch r)
        ((tried_row <$> l) ++ cancelled_row b None :: tl)) w Hb' eq_refl).
    pose proof (cancel_each_length t cc (rev l) w) as Hlen. rewrite length_rev in Hlen.
    destruct (cancel_each t cc (rev l) w) as [w2 outs]. simpl in Hlen. rewrite Hz by done.
    exact IH.
Qed.

(** The failure of a try: the context was done, or the callback failed. *)
Inductive try_fails (t : Tx) (c : ctx W E) (b : Branch) (w : W) : W -> tErr -> tErr -> Prop :=
| fails_ctx e : c w = Some e ->
    try_fails t c b w w (CtxDone (name t) (Name b) e) (CtxDone (name t) (Name b) e)
| fails_try w' e : c w = None -> Run (Try b c w) = (w', Some e) ->
    try_fails t c b w w' (TryFailed (name t) (Name b) e) (Raw e).

(** The two ways an execution ends. *)
Definition tried_all (t : Tx) (c : ctx W E) (w w' : W) (r : Result) : Prop :=
  exists w1, forward Try c (branches t) w w1 /\
  let '(w2, outs) := confirm_each t (WithoutCancel c) (branches t) w1 in
  w' = w2 /\
  r = MkResult (match failures (branches t) outs with [] => StatusConfirmed | _ => StatusConfirmFailed end)
        (match failures (branches t) outs with [] => None | l => Some (Joined l) end) ""
        (zip_with confirmed_row (branches t) outs).

Definition cancelled (t : Tx) (c : ctx W E) (w w' : W) (r : Result) : Prop :=
  exists l b rest w1 w2 err err0,
    branches t = l ++ b :: rest /\ forward Try c l w w1 /\ try_fails t c b w1 w2 err err0 /\
    let '(w3, outs) := cancel_each t (WithoutCancel c) (rev l) w2 in
    w' = w3 /\
    r = MkResult (if existsb is_some outs then StatusCancelFailed else StatusCancelled)
          (Some err) (Name b)
          (zip_with cancelled_row l (rev outs) ++
            try_row (Name b) (Some err0) :: replicate (length rest) zeroRow).

Lemma cancelAll_each t c l tail err b err0 rest w :
  branches t = l ++ tail ->
  let '(w3, outs) := cancel_each t (WithoutCancel c) (rev l) w in
  cancelAll t c (seq 0 (length l)) (MkResult StatusConfirmed (Some err) (Name b)
      ((tried_row <$> l) ++ try_row (Name b) (Some err0) :: rest)) w =
  (w3, MkResult (if existsb is_some outs then StatusCancelFailed else StatusCancelled)
         (Some err) (Name b)
         (zip_with cancelled_row l (rev outs) ++ try_row (Name b) (Some err0) :: rest)).
Proof.
  intros Hb. unfold cancelAll.
  pose proof (cancel_loop_each t (WithoutCancel c) l tail (try_row (Name b) (Some err0) :: rest)
    (MkResult StatusCancelled (Some err) (Name b)
      ((tried_row <$> l) ++ try_row (Name b) (Some err0) :: rest)) w Hb eq_refl) as H.
  by destruct (cancel_each _ _ _ _).
Qed.

Lemma try_loop_outcome t c : forall todo l w w1,
  branches t = l ++ todo -> forward Try c l w w1 ->
  let '(w', r) := try_loop t c (length l) todo (seq 0 (length l))
    (MkResult StatusConfirmed None "" ((tried_row <$> l) ++ replicate (length todo) zeroRow)) w1 in
  tried_all t c w w' r \/ cancelled t c w w' r.
Proof.
  intros todo. induction todo as [|b todo IH]; intros l w w1 Hb Hf.
  { rewrite app_nil_r in Hb. cbn [try_loop]. unfold confirmAll.
    pose proof (confirm_loop_each t (WithoutCancel c) l [] [] []
      (MkResult StatusConfirmed None "" ((tried_row <$> l) ++ replicate 0 zeroRow)) w1 Hb eq_refl
      ltac:(simpl; by rewrite app_nil_r)) as H.
    destruct (confirm_each t (WithoutCancel c) l w1) as [w2 outs] eqn:Hc.
    cbn [length] in H |- *. rewrite H. simpl.
    destruct (failures l outs) as [|f fs] eqn:Hfs; left; exists w1; rewrite Hb;
      (split; [done|]); by rewrite Hc, Hfs. }
  cbn [try_loop length replicate].
  assert (Hset : forall e f n x, set_row (MkResult StatusConfirmed e n
      ((tried_row <$> l) ++ zeroRow :: replicate (length todo) zeroRow)) (fun _ => x) f =
    MkResult StatusConfirmed e n (alter (fun _ => x) f
      ((tried_row <$> l) ++ zeroRow :: replicate (length todo) zeroRow))) by done.
  assert (Halt : forall x : BranchResult, alter (fun _ => x) (length l)
      ((tried_row <$> l) ++ zeroRow :: replicate (length todo) zeroRow) =
    (tried_row <$> l) ++ x :: replicate (length todo) zeroRow).
  { intros x. by rewrite <- (length_fmap tried_row l), alter_middle. }
  destruct (c w1) as [e|] eqn:Hc.
  - pose proof (cancelAll_each t c l (b :: todo) (CtxDone (name t) (Name b) e) b
      (CtxDone (name t) (Name b) e) (replicate (length todo) zeroRow) w1 Hb) as H.
    destruct (cancel_each _ _ _ _) as [w3 outs] eqn:Hu.
    unfold fail. simpl. rewrite Hset, Halt, H. right.
    exists l, b, todo, w1, w1. do 2 eexists. split; [done|]. split; [done|].
    split; [by apply fails_ctx|]. by rewrite Hu.
  - destruct (Run (Try b c w1)) as [w2 [e|]] eqn:Hr.
    + pose proof (cancelAll_each t c l (b :: todo) (TryFailed (name t) (Name b) e) b
        (Raw e) (replicate (length todo) zeroRow) w2 Hb) as H.
      destruct (cancel_each _ _ _ _) as [w3 outs] eqn:Hu.
      unfold fail. rewrite Hset, Halt. simpl. rewrite H. right.
      exists l, b, todo, w1, w2. do 2 eexists. split; [done|]. split; [done|].
      split; [by apply fails_try|]. by rewrite Hu.
    + apply Run_None in Hr. rewrite Hset, Halt.
      specialize (IH (l ++ [b]) w w2). rewrite <- app_assoc in IH. specialize (IH Hb).
      rewrite length_app, Nat.add_1_r, seq_S, fmap_app, <- app_assoc in IH.
      by apply IH, (forward_snoc Try c l b w w1 w2).
Qed.

(** An execution tries the branches in order. If all succeed, every branch is
    confirmed in order whatever fails on the way, and the status is
    [StatusConfirmed] when none failed and [StatusConfirmFailed] with the joined
    failures otherwise. If a try fails or the context is done, nothing is
    confirmed and exactly the branches tried before are cancelled in reverse with
    the uncancelled context, with [StatusCancelled] when every cancel succeeded
    and [StatusCancelFailed] otherwise. *)
Theorem tcc_outcome t c w :
  let '(w', r) := Execute t c w in tried_all t c w w' r \/ cancelled t c w w' r.
Proof. apply (try_loop_outcome t c (branches t) []); [done|constructor]. Qed.

(** Below a base of [2^33] ns (8.5 s) the wait doubles with each attempt up
    to the cap and is always positive. *)
Theorem retryDelay_capped cf base attempt : 0 < base < 2 ^ 33 -> 1 <= attempt ->
  0 < maxRetryDelay cf ->
  retryDelay cf base attempt = Z.min (base * 2 ^ Z.min (attempt - 1) 30) (maxRetryDelay cf) /\
  0 < retryDelay cf base attempt.
Proof.
  intros Hb Ha Hm. unfold retryDelay. rewrite Z.shiftl_1_l.
  set (sh := Z.min (attempt - 1) 30).
  assert (0 < 2 ^ sh <= 2 ^ 30) as Hp.
  { split; [apply Z.pow_pos_nonneg|apply Z.pow_le_mono_r]; lia. }
  assert (0 < base * 2 ^ sh < 2 ^ 63) by nia.
  rewrite wrap64_id by (unfold int64; lia).
  destruct (Z.ltb_spec 0 (maxRetryDelay cf)); [|lia].
  destruct (Z.ltb_spec (maxRetryDelay cf) (base * 2 ^ sh)); simpl; lia.
Qed.

End tcc.

(** With a base of ten seconds the 31st wait has overflowed before the cap is
    applied: [time.Sleep] returns at once. *)
Lemma retryDelay_overflows :
  retryDelay (W := unit) (E := unit) (defaults (fun _ w => w)) 10000000000 31 < 0.
Proof. reflexivity. Qed.

Lemma retryDelay_capped_witness :
  retryDelay (W := unit) (E := unit) (defaults (fun _ w => w)) 100000000 40 = 10000000000.
Proof.
  destruct (retryDelay_capped (W := unit) (E := unit) (defaults (fun _ w => w)) 100000000 40)
    as [-> _]; [lia|lia|reflexivity|]. reflexivity.
Defined.
