(* ===== verification/Txn.v ===== *)
(** The two-phase-commit coordinator ([pkg/orchestration/txn/txn.go]): prepare
    in order, run the body, commit in order or roll back in reverse, and start
    the post-commit hooks. Unlike the saga and TCC coordinators it does not
    recover panics, so a call either returns or panics on its way. *)
From Stdlib Require Import ZArith Lia Bool.
From stdpp Require Import base numbers strings list.
From S2P Require Import Prelude Effects.

Open Scope Z_scope.

Section txn.
(** [H]: the post-commit hooks, functions run later in goroutines of their own. *)
Context {W E H : Type}.

Record Participant := MkParticipant {
  Prepare : callback W E;
  Commit : callback W E;
  Rollback : callback W E
}.

(** [ParticipantFunc]: a nil function is a success that does nothing. *)
Definition optional (f : option (callback W E)) : callback W E :=
  match f with Some f => f | None => fun _ w => (w, Ret None) end.
Definition ParticipantFunc (prepare commit rollback : option (callback W E)) : Participant :=
  MkParticipant (optional prepare) (optional commit) (optional rollback).

Record Coordinator := MkCoord {
  ordered : list (string * Participant);
  onCommit : list H
}.

Definition New : Coordinator := MkCoord [] [].

Definition Enlist (c : Coordinator) (name : string) (p : Participant) : Coordinator :=
  MkCoord (ordered c ++ [(name, p)]) (onCommit c).

Definition EnlistFunc (c : Coordinator) (name : string)
    (prepare commit rollback : option (callback W E)) : Coordinator :=
  Enlist c name (ParticipantFunc prepare commit rollback).

Definition OnCommit (c : Coordinator) (fn : option H) : Coordinator :=
  match fn with None => c | Some fn => MkCoord (ordered c) (onCommit c ++ [fn]) end.

(** [drainHooks] *)
Definition drainHooks (c : Coordinator) : Coordinator * list H :=
  (MkCoord (ordered c) [], onCommit c).

Inductive tErr :=
| PrepareErr (name : string) (e : E)
| BodyErr (e : E)
| CommitErrs (l : list (string * E)).

(** [rollbackAll], over the prepared participants from the last one; errors are
    dropped, a panic goes through. *)
Fixpoint rollback_loop (ct : ctx W E) (l : list (string * Participant)) (w : W) : W * go unit :=
  match l with
  | [] => (w, Ret tt)
  | (_, p) :: l =>
      match Rollback p ct w with
      | (w, Ret _) => rollback_loop ct l w
      | (w, Panic v) => (w, Panic v)
      end
  end.

Definition rollbackAll (ct : ctx W E) (prepared : list (string * Participant)) (w : W)
    : W * go unit := rollback_loop ct (rev prepared) w.

(** Rolling back, then clearing the hooks, then returning [err]. *)
Definition abort (c : Coordinator) (ct : ctx W E) (prepared : list (string * Participant))
    (err : tErr) (w : W) : Coordinator * W * list H * go (option tErr) :=
  match rollbackAll ct prepared w with
  | (w, Panic v) => (c, w, [], Panic v)
  | (w, Ret _) => (fst (drainHooks c), w, [], Ret (Some err))
  end.

Fixpoint commit_loop (ct : ctx W E) (l : list (string * Participant)) (errs : list (string * E))
    (w : W) : W * go (list (string * E)) :=
  match l with
  | [] => (w, Ret errs)
  | (nm, p) :: l =>
      match Commit p ct w with
      | (w, Panic v) => (w, Panic v)
      | (w, Ret None) => commit_loop ct l errs w
      | (w, Ret (Some e)) => commit_loop ct l (errs ++ [(nm, e)]) w
      end
  end.

(** The body runs on the world, may register hooks on the coordinator with
    [OnCommit] and enlist participants for a later [Run]. *)
Definition body_fn : Type := Coordinator -> W -> Coordinator * W * go (option E).

(** [Run]'s result: the coordinator, the world, the hooks started, and the error
    returned or the panic that escaped. *)
Fixpoint prepare_loop (c : Coordinator) (ct : ctx W E) (todo : list (string * Participant))
    (prepared : list (string * Participant)) (body : body_fn) (w : W)
    : Coordinator * W * list H * go (option tErr) :=
  match todo with
  | (nm, p) :: todo =>
      match Prepare p ct w with
      | (w, Panic v) => (c, w, [], Panic v)
      | (w, Ret (Some e)) => abort c ct prepared (PrepareErr nm e) w
      | (w, Ret None) => prepare_loop c ct todo (prepared ++ [(nm, p)]) body w
      end
  | [] =>
      match body c w with
      | (c, w, Panic v) => (c, w, [], Panic v)
      | (c, w, Ret (Some e)) => abort c ct prepared (BodyErr e) w
      | (c, w, Ret None) =>
          match commit_loop ct prepared [] w with
          | (w, Panic v) => (c, w, [], Panic v)
          | (w, Ret errs) =>
              let '(c, hooks) := drainHooks c in
              match errs with
              | [] => (c, w, hooks, Ret None)
              | _ => (c, w, [], Ret (Some (CommitErrs errs)))
              end
          end
      end
  end.

Definition Run (c : Coordinator) (ct : ctx W E) (body : body_fn) (w : W)
    : Coordinator * W * list H * go (option tErr) :=
  prepare_loop c ct (ordered c) [] body w.

(** * What a run does *)

(** No callback of a participant panics. *)
Definition calm (p : Participant) : Prop := forall f ct w,
  f = Prepare p \/ f = Commit p \/ f = Rollback p -> exists r, snd (f ct w) = Ret r.

(** Participants prepared in order, without error. *)
Inductive prepares (ct : ctx W E) : list (string * Participant) -> W -> W -> Prop :=
| prepares_nil w : prepares ct [] w w
| prepares_cons nm p l w w1 w2 : Prepare p ct w = (w1, Ret None) -> prepares ct l w1 w2 ->
    prepares ct ((nm, p) :: l) w w2.

(** Rolling back a list in the given order, and committing one: the world, and
    the errors of the commits. *)
Definition rolled (ct : ctx W E) (l : list (string * Participant)) (w : W) : W :=
  foldl (fun w np => fst (Rollback np.2 ct w)) w l.

Fixpoint commits (ct : ctx W E) (l : list (string * Participant)) (w : W)
    : W * list (string * E) :=
  match l with
  | [] => (w, [])
  | (nm, p) :: l =>
      let '(w, r) := Commit p ct w in
      let '(w, errs) := commits ct l w in
      (w, match r with Ret (Some e) => (nm, e) :: errs | _ => errs end)
  end.

Lemma rollback_loop_rolled ct l : Forall (fun np => calm np.2) l -> forall w,
  rollback_loop ct l w = (rolled ct l w, Ret tt).
Proof.
  induction 1 as [|[nm p] l Hp _ IH]; intros w; [done|]. simpl.
  destruct (Hp (Rollback p) ct w) as [r Hr]; [by right; right|]. simpl in *.
  destruct (Rollback p ct w) as [w1 r1]. simpl in *. subst. apply IH.
Qed.

Lemma commit_loop_commits ct l : Forall (fun np => calm np.2) l -> forall errs w,
  commit_loop ct l errs w = (fst (commits ct l w), Ret (errs ++ snd (commits ct l w))).
Proof.
  induction 1 as [|[nm p] l Hp _ IH]; intros errs w; simpl; [by rewrite app_nil_r|].
  destruct (Hp (Commit p) ct w) as [r Hr]; [by right; left|]. simpl in *.
  destruct (Commit p ct w) as [w1 r1]. simpl in *. subst.
  destruct r as [e|]; rewrite IH; destruct (commits ct l w1); simpl; [by rewrite <- app_assoc|done].
Qed.

Lemma prepares_snoc ct l : forall nm p w w1 w2, prepares ct l w w1 ->
  Prepare p ct w1 = (w2, Ret None) -> prepares ct (l ++ [(nm, p)]) w w2.
Proof.
  induction l as [|[nm' p'] l IH]; intros nm p w w1 w2 Hl Hp; inversion Hl; subst; simpl.
  - econstructor; [done|constructor].
  - econstructor; [done|]. by eapply IH.
Qed.

(** The ways a run of calm participants ends. *)
Inductive run_spec (c : Coordinator) (ct : ctx W E) (body : body_fn) (w : W)
    : Coordinator * W * list H * go (option tErr) -> Prop :=
| run_prepare_fails l nm p rest w1 w2 e :
    ordered c = l ++ (nm, p) :: rest -> prepares ct l w w1 ->
    Prepare p ct w1 = (w2, Ret (Some e)) ->
    run_spec c ct body w
      (MkCoord (ordered c) [], rolled ct (rev l) w2, [], Ret (Some (PrepareErr nm e)))
| run_body_fails w1 c' w2 e :
    prepares ct (ordered c) w w1 -> body c w1 = (c', w2, Ret (Some e)) ->
    run_spec c ct body w
      (MkCoord (ordered c') [], rolled ct (rev (ordered c)) w2, [], Ret (Some (BodyErr e)))
| run_commits w1 c' w2 w3 errs :
    prepares ct (ordered c) w w1 -> body c w1 = (c', w2, Ret None) ->
    commits ct (ordered c) w2 = (w3, errs) ->
    run_spec c ct body w
      (MkCoord (ordered c') [], w3,
       match errs with [] => onCommit c' | _ => [] end,
       Ret (match errs with [] => None | _ => Some (CommitErrs errs) end)).

Lemma prepare_loop_spec c ct body w :
  Forall (fun np => calm np.2) (ordered c) -> (forall w, exists r, snd (body c w) = Ret r) ->
  forall todo l w1, ordered c = l ++ todo -> prepares ct l w w1 ->
  run_spec c ct body w (prepare_loop c ct todo l body w1).
Proof.
  intros Hcalm Hbody todo. induction todo as [|[nm p] todo IH]; intros l w1 Ho Hl; simpl.
  - rewrite app_nil_r in Ho. subst l. destruct (Hbody w1) as [r Hr].
    destruct (body c w1) as [[c' w2] r1] eqn:Hb. simpl in Hr. subst. destruct r as [e|].
    + unfold abort, rollbackAll. rewrite rollback_loop_rolled by by apply Forall_rev.
      by eapply run_body_fails.
    + rewrite commit_loop_commits by done.
      destruct (commits ct (ordered c) w2) as [w3 errs] eqn:Hc. simpl.
      pose proof (run_commits c ct body w w1 c' w2 w3 errs Hl Hb Hc) as H0. by destruct errs.
  - pose proof Hcalm as Hc2. rewrite Ho in Hc2.
    apply Forall_app in Hc2 as [Hcl [Hp _]%Forall_cons].
    destruct (Hp (Prepare p) ct w1) as [r Hr]; [by left|]. simpl in Hr.
    destruct (Prepare p ct w1) as [w2 r1] eqn:Hpr. simpl in Hr. subst. destruct r as [e|].
    + unfold abort, rollbackAll. rewrite rollback_loop_rolled by by apply Forall_rev.
      by eapply run_prepare_fails.
    + apply IH; [by rewrite Ho, <- app_assoc|]. by eapply prepares_snoc.
Qed.

(** C16: When the callbacks of the participants and the body return without a panic, [Run] prepares in order and then either
    rolls back exactly the prepared participants in reverse (a prepare or the body
    failed, which it reports), or commits every participant in order, whatever
    fails; the hooks, those the body registered included, start exactly when
    every commit succeeded, and none is left for the next run in any case. *)
Theorem run_outcome c ct body w :
  Forall (fun np => calm np.2) (ordered c) -> (forall w, exists r, snd (body c w) = Ret r) ->
  run_spec c ct body w (Run c ct body w).
Proof. intros Hc Hb. by apply prepare_loop_spec; [..|constructor]. Qed.

(** A panic of the body leaves the transaction open: the participants stay
    prepared, none is rolled back, and the hooks the body had registered stay
    with the coordinator. *)
Theorem run_panic_leaks c ct body w w1 c' w2 v :
  prepares ct (ordered c) w w1 -> body c w1 = (c', w2, Panic v) ->
  Run c ct body w = (c', w2, [], Panic v).
Proof.
  intros Hp Hb. unfold Run. enough (forall todo l w, prepares ct todo w w1 ->
    prepare_loop c ct todo l body w = (c', w2, [], Panic v)) as Hg by by apply Hg.
  clear Hp w. induction todo as [|[nm p] todo IH]; intros l w Hp; inversion Hp; subst; simpl.
  - by rewrite Hb.
  - match goal with Hx : Prepare _ _ _ = _ |- _ => rewrite Hx end. by apply IH.
Qed.

End txn.

(** * The theorems on a concrete coordinator *)

(** A staged counter: prepare stages a unit, commit applies it, rollback drops it. *)
Definition stager : Participant (W := Z * Z) (E := string) :=
  MkParticipant (fun _ w => ((fst w, 1), Ret None))
    (fun _ w => ((fst w + snd w, 0), Ret None)) (fun _ w => ((fst w, 0), Ret None)).

Definition sample : Coordinator (W := Z * Z) (E := string) (H := string) :=
  Enlist New "stock" stager.

Lemma sample_calm : Forall (fun np => calm np.2) (ordered sample).
Proof. apply Forall_singleton. by intros f ct w [->|[->| ->]]; eexists. Qed.

Lemma run_outcome_witness :
  run_spec sample (fun _ => None) (fun c w => (OnCommit c (Some "notify"%string), w, Ret None)) (7, 0)
    (sample, (8, 0), ["notify"%string], Ret None).
Proof.
  apply (run_outcome sample (fun _ => None)
    (fun c w => (OnCommit c (Some "notify"%string), w, Ret None)) (7, 0)).
  - exact sample_calm.
  - by eexists.
Defined.

(** The stale hook of a run that panicked starts after the next one commits. *)
Lemma run_panic_leaks_witness :
  let '(c, w, hooks, _) := Run sample (fun _ => None)
    (fun c w => (OnCommit c (Some "stale"%string), w, Panic "boom"%string)) (7, 0) in
  w = (7, 1) /\ hooks = [] /\
  Run c (fun _ => None) (fun c w => (c, w, Ret None)) w = (sample, (8, 0), ["stale"%string], Ret None).
Proof.
  rewrite (run_panic_leaks sample (fun _ => None)
    (fun c w => (OnCommit c (Some "stale"%string), w, Panic "boom"%string)) (7, 0)
    (7, 1) (OnCommit sample (Some "stale"%string)) (7, 1) "boom"); [|by econstructor; [|constructor]|done].
  split; [done|]. split; [done|]. reflexivity.
Defined.
