(* ===== verification/IdGen.v ===== *)
(** The Snowflake ID generator ([pkg/idgen/idgen.go]). The clock is outside: a
    call is given the wall-clock milliseconds it reads, one when it starts and one
    per turn of a spin loop, together with the answer of [time.Now().After(deadline)]
    in that turn (which reads the monotonic clock). *)
From Stdlib Require Import ZArith Lia Bool Sorted.
From stdpp Require Import base numbers strings list.
From S2P Require Import Prelude.

Open Scope Z_scope.

Definition nodeBits : Z := 10.
Definition sequenceBits : Z := 12.
Definition maxNode : Z := Z.lxor (-1) (Z.shiftl (-1) nodeBits).
Definition maxSequence : Z := Z.lxor (-1) (Z.shiftl (-1) sequenceBits).
Definition timeShift : Z := nodeBits + sequenceBits.
Definition nodeShift : Z := sequenceBits.
Definition defaultEpoch : Z := 1704067200000.

Definition millisecond : Z := 1000000.

Record config := MkConfig { epoch : Z; maxBackwardWait : Z }.

Record Generator := MkGen { cfg : config; node : Z; lastTime : Z; sequence : Z }.

(** The three ways to wrap [ErrClockBackwards]. *)
Inductive iErr :=
| Behind (backward : Z)
| StillBehind
| Stalled.

#[global] Instance iErr_eq_dec : EqDecision iErr.
Proof. solve_decision. Defined.

Definition WithEpoch (e : Z) (c : config) : config := MkConfig e (maxBackwardWait c).
Definition WithMaxBackwardWait (d : Z) (c : config) : config := MkConfig (epoch c) d.

Definition New (n : Z) (opts : list (config -> config)) : option Generator :=
  if (n <? 0) || (maxNode <? n) then None
  else
    let c := foldl (fun c o => o c) (MkConfig defaultEpoch (5 * millisecond)) opts in
    let c := if maxBackwardWait c <? 0 then MkConfig (epoch c) 0 else c in
    Some (MkGen c n 0 0).

Definition now (g : Generator) (unixMilli : Z) : Z := wrap64 (unixMilli - epoch (cfg g)).

(** One turn of a spin loop: the deadline has passed, or the next reading. *)
Abbreviation poll := (bool * Z)%type.

(** Spin while [behind ts]; running out of turns means still spinning. *)
Fixpoint spin (g : Generator) (behind : Z -> bool) (err : iErr) (polls : list poll) (ts : Z)
    : option (result iErr (Z * list poll)) :=
  if behind ts then
    match polls with
    | [] => None
    | (expired, unix) :: polls =>
        if expired : bool then Some (Err err) else spin g behind err polls (now g unix)
    end
  else Some (Ok (ts, polls)).

Definition id_of (ts n s : Z) : Z :=
  Z.lor (Z.lor (wrap64 (Z.shiftl ts timeShift)) (wrap64 (Z.shiftl n nodeShift))) s.

(** The last part of [Next], at a time that is not behind. *)
Definition issue (g : Generator) (ts : Z) (polls : list poll)
    : option (Generator * result iErr Z) :=
  if ts =? lastTime g then
    let s := Z.land (sequence g + 1) maxSequence in
    let g := MkGen (cfg g) (node g) (lastTime g) s in
    if s =? 0 then
      match spin g (fun ts => ts <=? lastTime g) Stalled polls ts with
      | None => None
      | Some (Err e) => Some (g, Err e)
      | Some (Ok (ts, _)) =>
          let g := MkGen (cfg g) (node g) ts s in Some (g, Ok (id_of ts (node g) s))
      end
    else Some (g, Ok (id_of ts (node g) s))
  else
    let g := MkGen (cfg g) (node g) ts 0 in Some (g, Ok (id_of ts (node g) 0)).

Definition Next (g : Generator) (unix : Z) (polls : list poll)
    : option (Generator * result iErr Z) :=
  let ts := now g unix in
  if ts <? lastTime g then
    let backward := wrap64 (wrap64 (lastTime g - ts) * millisecond) in
    if maxBackwardWait (cfg g) <? backward then Some (g, Err (Behind backward))
    else
      match spin g (fun ts => ts <? lastTime g) StillBehind polls ts with
      | None => None
      | Some (Err e) => Some (g, Err e)
      | Some (Ok (ts, polls)) => issue g ts polls
      end
  else issue g ts polls.

Definition MustNext (g : Generator) (unix : Z) (polls : list poll) : option (Generator * go Z) :=
  match Next g unix polls with
  | None => None
  | Some (g, Ok id) => Some (g, Ret id)
  | Some (g, Err _) => Some (g, Panic "idgen: clock moved backwards beyond tolerance")
  end.

Definition Node (g : Generator) : Z := node g.

Definition Parse (id : Z) : Z * Z * Z :=
  (Z.shiftr id timeShift, Z.land (Z.shiftr id nodeShift) maxNode, Z.land id maxSequence).

(** [time.UnixMilli], in milliseconds. *)
Definition TimeOf (id epochMillis : Z) : Z :=
  let '(tsMillis, _, _) := Parse id in wrap64 (tsMillis + epochMillis).

Definition DefaultEpoch : Z := defaultEpoch.

(** * Layout *)

Definition fields_ok (ts n s : Z) : Prop := 0 <= ts < 2 ^ 41 /\ 0 <= n <= 1023 /\ 0 <= s <= 4095.

Lemma id_of_sum ts n s : fields_ok ts n s -> id_of ts n s = ts * 2 ^ 22 + (n * 2 ^ 12 + s).
Proof.
  intros (Ht&Hn&Hs). unfold id_of, timeShift, nodeShift, nodeBits, sequenceBits.
  change (10 + 12) with 22.
  rewrite (wrap64_id (Z.shiftl ts 22)) by (rewrite Z.shiftl_mul_pow2; unfold int64; lia).
  rewrite (wrap64_id (Z.shiftl n 12)) by (rewrite Z.shiftl_mul_pow2; unfold int64; lia).
  rewrite <- Z.lor_assoc, (lor_shiftl_add n s 12) by lia. by rewrite lor_shiftl_add by lia.
Qed.

Lemma Parse_sum ts n s : fields_ok ts n s -> Parse (ts * 2 ^ 22 + (n * 2 ^ 12 + s)) = (ts, n, s).
Proof.
  intros (Ht&Hn&Hs). unfold Parse, timeShift, nodeShift, nodeBits, sequenceBits.
  change (10 + 12) with 22. rewrite !Z.shiftr_div_pow2 by lia.
  change maxNode with (Z.ones 10). change maxSequence with (Z.ones 12).
  rewrite !Z.land_ones by lia. f_equal; [f_equal|].
  - symmetry. apply (Z.div_unique _ _ _ (n * 2 ^ 12 + s)); lia.
  - rewrite <- (Z.div_unique (ts * 2 ^ 22 + (n * 2 ^ 12 + s)) (2 ^ 12) (ts * 2 ^ 10 + n) s) by lia.
    symmetry. apply (Z.mod_unique _ _ ts); lia.
  - symmetry. apply (Z.mod_unique _ _ (ts * 2 ^ 10 + n)); lia.
Qed.

(** * One call *)

Definition good (g : Generator) : Prop := fields_ok (lastTime g) (node g) (sequence g).

(** The readings of a call fall in the 41 bits after the epoch. *)
Definition in_range (g : Generator) (unix : Z) : Prop := 0 <= unix - epoch (cfg g) < 2 ^ 41.
Definition call_ok (g : Generator) (c : Z * list poll) : Prop :=
  in_range g c.1 /\ Forall (fun p => in_range g p.2) c.2.

Definition last_id (g : Generator) : Z := id_of (lastTime g) (node g) (sequence g).

Lemma now_range g unix : in_range g unix -> 0 <= now g unix < 2 ^ 41.
Proof. unfold in_range, now. intros. rewrite wrap64_id by (unfold int64; lia). lia. Qed.

Lemma spin_ok g g0 behind err polls : cfg g0 = cfg g ->
  Forall (fun p : poll => in_range g p.2) polls -> forall ts, 0 <= ts < 2 ^ 41 ->
  match spin g0 behind err polls ts with
  | Some (Ok (ts', polls')) => behind ts' = false /\ 0 <= ts' < 2 ^ 41 /\
      Forall (fun p : poll => in_range g p.2) polls'
  | Some (Err e) => e = err
  | None => Forall (fun p : poll => p.1 = false) polls
  end.
Proof.
  intros Hc. induction 1 as [|[ex u] polls Hu Hps IH]; intros ts Hts; simpl;
    destruct (behind ts) eqn:Hb; try done.
  - destruct ex; [done|].
    assert (0 <= now g0 u < 2 ^ 41) as Hn by (apply now_range; unfold in_range in *; by rewrite Hc).
    specialize (IH (now g0 u) Hn). destruct (spin g0 behind err polls (now g0 u)) as [[[ts' ps]|e]|].
    + done.
    + done.
    + by constructor.
  - split; [done|]. split; [done|]. by constructor.
Qed.

(** A call returns a later ID, or an error: out of sequence numbers with a clock
    that does not advance, or a clock behind, which changes nothing. *)
Definition later (g g' : Generator) : Prop :=
  lastTime g < lastTime g' \/ (lastTime g = lastTime g' /\ sequence g < sequence g').

Lemma issue_spec g ts polls : good g -> lastTime g <= ts < 2 ^ 41 ->
  Forall (fun p : poll => in_range g p.2) polls ->
  match issue g ts polls with
  | Some (g', Ok id) => good g' /\ cfg g' = cfg g /\ node g' = node g /\ later g g' /\ id = last_id g'
  | Some (g', Err e) => e = Stalled
  | None => Forall (fun p : poll => p.1 = false) polls
  end.
Proof.
  intros (Ht&Hn&Hs) Hts Hp. unfold issue. destruct (Z.eqb_spec ts (lastTime g)) as [->|Hne].
  - change maxSequence with (Z.ones 12). rewrite Z.land_ones by lia.
    pose proof (Z.mod_pos_bound (sequence g + 1) (2 ^ 12)).
    destruct (Z.eqb_spec ((sequence g + 1) mod 2 ^ 12) 0) as [E|E].
    + set (g0 := MkGen _ _ _ _).
      pose proof (spin_ok g g0 (fun ts => ts <=? lastTime g0) Stalled polls eq_refl Hp (lastTime g)) as H0.
      specialize (H0 ltac:(lia)). destruct (spin g0 _ _ _ _) as [[[ts' ps]|e]|]; [|done|done].
      destruct H0 as (Hb&Hts'&_). subst g0. simpl in *. bool_prop. rewrite E.
      split; [unfold good, fields_ok; simpl; lia|]. do 2 (split; [done|]). split; [|done].
      left. simpl. lia.
    + assert (sequence g + 1 < 2 ^ 12) as Hlt.
      { destruct (decide (sequence g + 1 = 2 ^ 12)) as [E'|]; [by rewrite E' in E|lia]. }
      rewrite (Z.mod_small (sequence g + 1)) by lia.
      split; [unfold good, fields_ok; simpl; lia|]. do 2 (split; [done|]). split; [|done].
      right. simpl. lia.
  - split; [unfold good, fields_ok; simpl; lia|]. do 2 (split; [done|]). split; [|done].
    left. simpl. lia.
Qed.

Lemma Next_spec g unix polls : good g -> call_ok g (unix, polls) ->
  match Next g unix polls with
  | Some (g', Ok id) => good g' /\ cfg g' = cfg g /\ node g' = node g /\ later g g' /\ id = last_id g'
  | Some (g', Err e) => e = Stalled \/ g' = g
  | None => Forall (fun p : poll => p.1 = false) polls
  end.
Proof.
  intros Hg [Hu Hp]. simpl in *. pose proof (now_range g unix Hu) as Hn. unfold Next.
  destruct (Z.ltb_spec (now g unix) (lastTime g)).
  - destruct (maxBackwardWait (cfg g) <? _); [by right|].
    pose proof (spin_ok g g (fun ts => ts <? lastTime g) StillBehind polls eq_refl Hp
      (now g unix) Hn) as H1.
    destruct (spin g _ _ _ _) as [[[ts' ps]|e]|] eqn:Hs; [|by right|done].
    destruct H1 as (Hb&Hts'&Hps). bool_prop.
    pose proof (issue_spec g ts' ps Hg ltac:(lia) Hps) as H2.
    destruct (issue g ts' ps) as [[g' [id|e]]|]; [done|by left|].
    assert (Hsub : forall b e pl ts tx px, spin g b e pl ts = Some (Ok (tx, px)) ->
      Forall (fun p : poll => p.1 = false) px -> Forall (fun p : poll => p.1 = false) pl).
    { clear. intros b e pl. induction pl as [|[ex u] pl IH]; intros ts tx px; simpl;
        destruct (b ts); try done.
      - destruct ex; [done|]. intros Hs Hx. constructor; [done|]. by eapply IH.
      - by intros [= -> <-]. }
    by eapply Hsub.
  - pose proof (issue_spec g (now g unix) polls Hg ltac:(lia) Hp) as H2.
    destruct (issue g (now g unix) polls) as [[g' [id|e]]|]; [done|by left|done].
Qed.

Lemma later_id g g' : good g -> good g' -> node g' = node g -> later g g' -> last_id g < last_id g'.
Proof.
  intros Hg Hg' Hn Hl. unfold last_id. rewrite !id_of_sum by done. rewrite Hn.
  destruct Hg as (?&?&?), Hg' as (?&?&?). destruct Hl as [?|[<- ?]]; lia.
Qed.

(** * Runs of calls *)

(** The results of a sequence of calls; [None] when one of them does not return. *)
Fixpoint run (g : Generator) (calls : list (Z * list poll)) : option (list (result iErr Z)) :=
  match calls with
  | [] => Some []
  | (unix, polls) :: calls =>
      match Next g unix polls with
      | None => None
      | Some (g, r) => match run g calls with None => None | Some rs => Some (r :: rs) end
      end
  end.

Definition ids (rs : list (result iErr Z)) : list Z :=
  omap (fun r => match r with Ok id => Some id | Err _ => None end) rs.

Lemma run_increasing calls : forall g rs, good g -> Forall (call_ok g) calls ->
  run g calls = Some rs -> Err Stalled ∉ rs ->
  Forall (fun id => last_id g < id) (ids rs) /\ StronglySorted Z.lt (ids rs).
Proof.
  induction calls as [|[unix polls] calls IH]; intros g rs Hg Hc Hr Hst; simpl in Hr.
  { injection Hr as <-. by repeat constructor. }
  apply Forall_cons in Hc as [Hc Hcs]. pose proof (Next_spec g unix polls Hg Hc) as H.
  destruct (Next g unix polls) as [[g' r]|]; [|done].
  destruct (run g' calls) as [rs'|] eqn:Hr'; [|done]. injection Hr as <-.
  apply not_elem_of_cons in Hst as [Hne Hst].
  destruct r as [id|e].
  - destruct H as (Hg'&Hcf&Hn&Hl&->).
    assert (Forall (call_ok g') calls) as Hcs'.
    { eapply Forall_impl; [exact Hcs|]. unfold call_ok, in_range. by rewrite Hcf. }
    destruct (IH g' rs' Hg' Hcs' Hr' Hst) as [Ha Hs]. pose proof (later_id g g' Hg Hg' Hn Hl).
    simpl. split; [constructor; [lia|]|by constructor].
    eapply Forall_impl; [exact Ha|]. simpl. lia.
  - destruct H as [->| ->]; [done|]. simpl. by apply IH.
Qed.

(** C14: unless a call runs out of sequence numbers with the clock stalled, the IDs
    a generator issues over any sequence of calls, whatever the clock does
    (standing still, going back, failing calls included), are strictly
    increasing, hence distinct. *)
Theorem ids_increasing g calls rs : good g -> Forall (call_ok g) calls ->
  run g calls = Some rs -> Err Stalled ∉ rs -> StronglySorted Z.lt (ids rs).
Proof. intros Hg Hc Hr Hs. by destruct (run_increasing calls g rs Hg Hc Hr Hs). Qed.

(** C39: an ID parses back to the node and to the time and sequence number the
    generator has reached, so the IDs of two nodes never collide. *)
Theorem Parse_Next g unix polls g' id : good g -> call_ok g (unix, polls) ->
  Next g unix polls = Some (g', Ok id) ->
  Parse id = (lastTime g', node g, sequence g') /\ 0 <= id < 2 ^ 63 /\ lastTime g <= lastTime g'.
Proof.
  intros Hg Hc Hn. pose proof (Next_spec g unix polls Hg Hc) as H. rewrite Hn in H.
  destruct H as (Hg'&_&Hnode&Hl&->). unfold last_id. rewrite id_of_sum by done.
  split; [by rewrite Parse_sum, Hnode|]. destruct Hg' as (?&?&?). destruct Hl; lia.
Qed.

(** A call returns as soon as its spin sees the deadline pass: it cannot spin
    for ever. *)
Theorem Next_returns g unix polls : good g -> call_ok g (unix, polls) ->
  (exists p, p ∈ polls /\ p.1 = true) -> exists g' r, Next g unix polls = Some (g', r).
Proof.
  intros Hg Hc (p&Hin&Hp). pose proof (Next_spec g unix polls Hg Hc) as H.
  destruct (Next g unix polls) as [[g' r]|]; [by exists g', r|].
  rewrite Forall_forall in H. specialize (H p Hin). congruence.
Qed.

(** ** The stalled clock *)

Definition fresh (n : Z) : Generator := MkGen (MkConfig 0 5000000) n 0 0.

(** 4096 calls at time 7 exhaust the sequence numbers; the last one fails. *)
Definition stalled_calls : list (Z * list poll) := replicate 4096 (7, []) ++ [(7, [(true, 0)])].

(** After the error for a stalled clock the generator starts the same
    millisecond again: the next call in it returns an ID already issued. *)
Theorem stall_duplicates : exists rs id,
  run (fresh 1) (stalled_calls ++ [(7, [])]) = Some (rs ++ [Err Stalled; Ok id]) /\
  Ok id ∈ rs.
Proof.
  exists (take 4096 (default [] (run (fresh 1) (stalled_calls ++ [(7, [])])))), (id_of 7 1 1).
  split; [vm_compute; reflexivity|].
  apply list_elem_of_lookup. exists 1%nat. vm_compute. reflexivity.
Qed.

Lemma fresh_good : good (fresh 1).
Proof. unfold good, fields_ok. simpl. lia. Qed.

Lemma ids_increasing_witness : exists rs, run (fresh 1) [(7, []); (9, []); (8, [(false, 9)])] = Some rs /\
  length (ids rs) = 3%nat /\ StronglySorted Z.lt (ids rs).
Proof.
  eexists. split; [reflexivity|]. split; [reflexivity|].
  apply (ids_increasing (fresh 1) [(7, []); (9, []); (8, [(false, 9)])]).
  - exact fresh_good.
  - repeat (apply List.Forall_cons; [split; [unfold in_range; simpl; lia|]|]);
      repeat constructor; unfold in_range; simpl; lia.
  - reflexivity.
  - by apply (bool_decide_unpack _).
Defined.

Lemma Parse_Next_witness : exists g id, Next (fresh 1) 7 [] = Some (g, Ok id) /\ Parse id = (7, 1, 0).
Proof.
  do 2 eexists. split; [reflexivity|].
  destruct (Parse_Next (fresh 1) 7 [] (MkGen (MkConfig 0 5000000) 1 7 0) (id_of 7 1 0))
    as [H _]; [exact fresh_good|split; [unfold in_range; simpl; lia|constructor]|reflexivity|].
  exact H.
Defined.

Lemma Next_returns_witness : exists g r,
  Next (MkGen (MkConfig 0 5000000) 1 7 4095) 7 [(false, 7); (true, 7)] = Some (g, r).
Proof.
  apply (Next_returns (MkGen (MkConfig 0 5000000) 1 7 4095) 7 [(false, 7); (true, 7)]).
  - unfold good, fields_ok. simpl. lia.
  - split; [unfold in_range; simpl; lia|]. repeat constructor; unfold in_range; simpl; lia.
  - exists (true, 7). by split; [do 2 constructor|].
Defined.
