(* ===== verification/Rollback.v ===== *)
(** The rollback session ([pkg/rollback/rollback.go]): local prediction, the
    confirmations of the server, and the replay of the frames in between. *)
From Stdlib Require Import ZArith Lia Bool.
From stdpp Require Import base numbers strings list gmap fin_maps.
From S2P Require Import Prelude.

Open Scope Z_scope.

Record Stats := MkStats {
  Rollbacks : Z;
  MaxRollbackN : Z;
  TotalResim : Z;
  Corrections : Z;
  ForcedResets : Z;
  sCurrentFrame : Z;
  sConfirmedFrame : Z
}.

Record config := MkConfig { cMaxRollback : Z; snapDepth : Z }.

Definition WithMaxRollback (n : Z) (c : config) : config :=
  if 0 <? n then MkConfig n (snapDepth c) else c.
Definition WithSnapDepth (n : Z) (c : config) : config :=
  if 0 <? n then MkConfig (cMaxRollback c) n else c.

Section session.
(** [S]: world states, [I]: the input of one player; [Simulate] is the game's,
    deterministic. *)
Context {S I : Type} (Simulate : S -> Z -> list I -> S).

(** Frame numbers are [uint64]. *)
Record Session := MkSession {
  maxRollback : Z;
  confirmedFrame : Z;
  currentFrame : Z;
  confirmedState : S;
  currentState : S;
  snaps : gmap Z S;
  inputs : gmap Z (list I);
  stats : Stats
}.

Definition NewSession (initial : S) (opts : list (config -> config)) : Session :=
  let cfg := foldl (fun c o => o c) (MkConfig 8 32) opts in
  MkSession (cMaxRollback cfg) 0 0 initial initial {[0 := initial]} ∅ (MkStats 0 0 0 0 0 0 0).

Definition Advance (predicted : list I) (s : Session) : Session * Z * S :=
  let frame := wrapu64 (currentFrame s + 1) in
  let st := Simulate (currentState s) frame predicted in
  let x := stats s in
  (MkSession (maxRollback s) (confirmedFrame s) frame (confirmedState s) st
     (<[frame := st]> (snaps s)) (<[frame := predicted]> (inputs s))
     (MkStats (Rollbacks x) (MaxRollbackN x) (TotalResim x) (Corrections x) (ForcedResets x)
        frame (sConfirmedFrame x)),
   frame, st).

(** [gc]: drop the frames from the old confirmed one up to the new one. *)
Fixpoint gc_loop {A} (n : nat) (f : Z) (m : gmap Z A) : gmap Z A :=
  match n with
  | O => m
  | Datatypes.S n => gc_loop n (f + 1) (delete f m)
  end.
Definition gc {A} (oldConfirmed confirmed : Z) (m : gmap Z A) : gmap Z A :=
  gc_loop (Z.to_nat (confirmed - oldConfirmed)) oldConfirmed m.

(** The replay of the frames from [f] to the current one. *)
Fixpoint replay (fuel : nat) (ins : gmap Z (list I)) (current f : Z) (st : S) (sn : gmap Z S)
    (resimN : Z) : S * gmap Z S * Z :=
  match fuel with
  | O => (st, sn, resimN)
  | Datatypes.S fuel =>
      if f <=? current then
        let inp := default [] (ins !! f) in
        let st := Simulate st f inp in
        replay fuel ins current (f + 1) st (<[f := st]> sn) (resimN + 1)
      else (st, sn, resimN)
  end.

Definition Confirm (frame : Z) (serverState : S) (confirmedInputs : list I) (s : Session)
    : Session * bool * Z * S :=
  if frame <=? confirmedFrame s then (s, false, 0, currentState s)
  else
    let old := confirmedFrame s in
    let x := stats s in
    let sn := gc old frame (snaps s) in
    let ins := gc old frame (<[frame := confirmedInputs]> (inputs s)) in
    let gap := wrap64 (wrapu64 (currentFrame s - frame)) in
    if gap <=? 0 then
      (MkSession (maxRollback s) frame frame serverState serverState
         (<[frame := serverState]> sn) ins
         (MkStats (Rollbacks x) (MaxRollbackN x) (TotalResim x) (Corrections x + 1)
            (ForcedResets x) (sCurrentFrame x) frame),
       false, 0, serverState)
    else if maxRollback s <? gap then
      (MkSession (maxRollback s) frame frame serverState serverState
         (<[frame := serverState]> sn) ins
         (MkStats (Rollbacks x) (MaxRollbackN x) (TotalResim x) (Corrections x)
            (ForcedResets x + 1) (sCurrentFrame x) frame),
       true, 0, serverState)
    else
      let '(st, sn, resimN) := replay (Z.to_nat gap) ins (currentFrame s) (frame + 1) serverState
        (<[frame := serverState]> sn) 0 in
      (MkSession (maxRollback s) frame (currentFrame s) serverState st sn ins
         (MkStats (Rollbacks x + 1) (Z.max gap (MaxRollbackN x)) (TotalResim x + resimN)
            (Corrections x) (ForcedResets x) (sCurrentFrame x) frame),
       true, resimN, st).

Definition State (s : Session) : S := currentState s.
Definition Frame (s : Session) : Z := currentFrame s.
Definition ConfirmedFrame (s : Session) : Z := confirmedFrame s.
Definition PredictionGap (s : Session) : Z := wrap64 (wrapu64 (currentFrame s - confirmedFrame s)).
Definition SnapshotAt (frame : Z) (s : Session) : option S := snaps s !! frame.

(** * The specification: an authoritative state and the predictions after it *)

Record spec := MkSpec { base : Z; auth : S; pending : list (list I) }.

(** Simulate a list of inputs from the state of frame [f]. *)
Fixpoint sim_all (st : S) (f : Z) (l : list (list I)) : S :=
  match l with
  | [] => st
  | inp :: l => sim_all (Simulate st (f + 1) inp) (f + 1) l
  end.

Definition spec_state (a : spec) : S := sim_all (auth a) (base a) (pending a).
Definition spec_frame (a : spec) : Z := base a + Z.of_nat (length (pending a)).

Definition spec_advance (predicted : list I) (a : spec) : spec :=
  MkSpec (base a) (auth a) (pending a ++ [predicted]).

(** A stale confirmation is ignored; one at or past the current frame, or too far
    behind it, replaces everything; otherwise the later predictions are kept. *)
Definition spec_confirm (maxR frame : Z) (st : S) (a : spec) : spec :=
  if frame <=? base a then a
  else if (spec_frame a <=? frame) || (maxR <? spec_frame a - frame) then MkSpec frame st []
  else MkSpec frame st (drop (Z.to_nat (frame - base a)) (pending a)).

Inductive op :=
| OAdvance (predicted : list I)
| OConfirm (frame : Z) (st : S) (ins : list I).

Definition run_op (s : Session) (o : op) : Session :=
  match o with
  | OAdvance p => (Advance p s).1.1
  | OConfirm f st ins => (Confirm f st ins s).1.1.1
  end.

Definition spec_op (maxR : Z) (a : spec) (o : op) : spec :=
  match o with
  | OAdvance p => spec_advance p a
  | OConfirm f st _ => spec_confirm maxR f st a
  end.

(** The session holds what the specification holds: the state, the inputs of the
    pending frames and a snapshot of every frame from the confirmed one on. *)
Record refines (a : spec) (s : Session) : Prop := {
  ref_base : confirmedFrame s = base a /\ confirmedState s = auth a /\ 0 <= base a;
  ref_frame : currentFrame s = spec_frame a;
  ref_state : currentState s = spec_state a;
  ref_inputs : forall k inp, pending a !! k = Some inp ->
    inputs s !! (base a + Z.of_nat k + 1) = Some inp;
  ref_snaps : forall k, (k <= length (pending a))%nat ->
    snaps s !! (base a + Z.of_nat k) = Some (sim_all (auth a) (base a) (take k (pending a)))
}.

Lemma sim_all_app l1 l2 : forall st f,
  sim_all st f (l1 ++ l2) = sim_all (sim_all st f l1) (f + Z.of_nat (length l1)) l2.
Proof.
  induction l1 as [|x l1 IH]; intros st f; simpl; [by rewrite Z.add_0_r|].
  rewrite IH. f_equal. lia.
Qed.

Lemma gc_loop_lookup {A} n : forall f (m : gmap Z A) g,
  gc_loop n f m !! g = if decide (f <= g < f + Z.of_nat n) then None else m !! g.
Proof.
  induction n as [|n IH]; intros f m g; simpl; [by rewrite decide_False by lia|].
  rewrite IH. destruct (decide (f + 1 <= g < f + 1 + Z.of_nat n)).
  - by rewrite decide_True by lia.
  - destruct (decide (g = f)) as [->|].
    + rewrite lookup_delete_eq. by rewrite decide_True by lia.
    + rewrite lookup_delete_ne by done. by rewrite decide_False by lia.
Qed.

Lemma gc_above {A} old new (m : gmap Z A) g : new <= g -> gc old new m !! g = m !! g.
Proof. intros. unfold gc. rewrite gc_loop_lookup. by rewrite decide_False by lia. Qed.

Lemma replay_spec ins current : forall l f st sn r,
  (forall k inp, l !! k = Some inp -> ins !! (f + Z.of_nat k) = Some inp) ->
  current = f + Z.of_nat (length l) - 1 ->
  exists sn', replay (length l) ins current f st sn r =
    (sim_all st (f - 1) l, sn', r + Z.of_nat (length l)) /\
    (forall g, g < f -> sn' !! g = sn !! g) /\
    (forall k, (0 < k <= length l)%nat ->
       sn' !! (f - 1 + Z.of_nat k) = Some (sim_all st (f - 1) (take k l))).
Proof.
  induction l as [|inp l IH]; intros f st sn r Hins Hc; simpl.
  { exists sn. rewrite Z.add_0_r. split; [done|]. split; [done|]. lia. }
  destruct (Z.leb_spec f current); [|simpl in Hc; lia].
  pose proof (Hins 0%nat inp eq_refl) as H0. rewrite Z.add_0_r in H0. rewrite H0. simpl.
  replace (f - 1 + 1) with f by lia.
  destruct (IH (f + 1) (Simulate st f inp) (<[f := Simulate st f inp]> sn) (r + 1)) as (sn'&->&Hlt&Hk).
  - intros k x Hx. specialize (Hins (Datatypes.S k) x Hx). rewrite <- Hins. f_equal. lia.
  - simpl in Hc. lia.
  - replace (f + 1 - 1) with f in * by lia. exists sn'. split; [f_equal; lia|]. split.
    + intros g Hg. rewrite Hlt by lia. by rewrite lookup_insert_ne by lia.
    + intros [|k] Hkl; [lia|]. simpl. destruct (decide (k = 0%nat)) as [->|].
      * rewrite Hlt by lia. replace (f - 1 + Z.of_nat 1) with f by lia.
        rewrite take_0. simpl. replace (f - 1 + 1) with f by lia. by rewrite lookup_insert_eq.
      * replace (f - 1 + Z.of_nat (Datatypes.S k)) with (f + Z.of_nat k) by lia.
        replace (f - 1 + 1) with f by lia. apply Hk. lia.
Qed.

Lemma NewSession_refines initial opts : refines (MkSpec 0 initial []) (NewSession initial opts).
Proof.
  split; simpl; try done. intros [|k] Hk; [|simpl in Hk; lia].
  simpl. by rewrite lookup_singleton_eq.
Qed.

Lemma Advance_refines a s p : refines a s -> currentFrame s + 1 < 2 ^ 64 ->
  refines (spec_advance p a) (Advance p s).1.1.
Proof.
  intros [(Hb1&Hb2&Hb3) Hf Hs Hi Hsn] Hlt. unfold spec_frame in Hf.
  unfold Advance. rewrite wrapu64_id by (unfold uint64; lia).
  assert (Hst : Simulate (currentState s) (currentFrame s + 1) p =
    sim_all (auth a) (base a) (pending a ++ [p])).
  { rewrite sim_all_app. simpl. rewrite Hs, Hf. done. }
  split; simpl; try done.
  - unfold spec_frame. simpl. rewrite length_app. simpl. lia.
  - intros k inp Hk. destruct (decide (k = length (pending a))) as [->|Hne].
    + rewrite lookup_app_r, Nat.sub_diag in Hk by lia. injection Hk as <-.
      rewrite <- Hf. by rewrite lookup_insert_eq.
    + assert (k < length (pending a))%nat as Hkl.
      { apply lookup_lt_Some in Hk. rewrite length_app in Hk. simpl in Hk. lia. }
      rewrite lookup_app_l in Hk by done. rewrite lookup_insert_ne by lia. by apply Hi.
  - intros k Hk. rewrite length_app in Hk. simpl in Hk.
    destruct (decide (k = length (pending a) + 1)%nat) as [->|Hne].
    + rewrite take_ge by (rewrite length_app; simpl; lia).
      rewrite <- Hst. rewrite lookup_insert_Some. left. split; [lia|done].
    + rewrite lookup_insert_ne by lia. rewrite take_app_le by lia. apply Hsn. lia.
Qed.

Lemma gap_value cur frame : 0 <= cur < 2 ^ 63 -> 0 <= frame < 2 ^ 63 ->
  wrap64 (wrapu64 (cur - frame)) = cur - frame.
Proof. intros. rewrite wrap64_wrapu64. apply wrap64_id. unfold int64. lia. Qed.

Lemma Confirm_refines a s f st ins : refines a s -> 0 <= currentFrame s < 2 ^ 63 ->
  0 <= f < 2 ^ 63 ->
  refines (spec_confirm (maxRollback s) f st a) (Confirm f st ins s).1.1.1.
Proof.
  intros Hr Hc Hf. pose proof Hr as [(Hb1&Hb2&Hb3) Hfr Hs Hi Hsn].
  unfold Confirm, spec_confirm. rewrite Hb1. destruct (Z.leb_spec f (base a)) as [|Hlt]; [done|].
  rewrite gap_value by lia. rewrite Hfr. unfold spec_frame in *.
  set (n := length (pending a)) in *.
  assert (Hreset : forall x sn im, sn !! f = Some st ->
    refines (MkSpec f st []) (MkSession (maxRollback s) f f st st sn im x)).
  { intros x sn im Hsf. split; simpl; try done; [split; [done|split; [done|lia]]|unfold spec_frame; simpl; lia|].
    intros [|k] Hk; [|simpl in Hk; lia]. by rewrite Z.add_0_r. }
  destruct (Z.leb_spec (base a + Z.of_nat n - f) 0).
  { rewrite (proj2 (Z.leb_le (base a + Z.of_nat n) f)) by lia. apply Hreset, lookup_insert_eq. }
  rewrite (proj2 (Z.leb_gt (base a + Z.of_nat n) f)) by lia. simpl.
  destruct (Z.ltb_spec (maxRollback s) (base a + Z.of_nat n - f)).
  { apply Hreset, lookup_insert_eq. }
  set (d := Z.to_nat (f - base a)).
  destruct (replay_spec (gc (base a) f (<[f:=ins]> (inputs s))) (base a + Z.of_nat n)
    (drop d (pending a)) (f + 1) st (<[f:=st]> (gc (base a) f (snaps s))) 0) as (sn'&Hrep&Hlow&Hhigh).
  - intros k inp Hk. rewrite lookup_drop in Hk. apply Hi in Hk.
    rewrite gc_above, lookup_insert_ne by lia. rewrite <- Hk. f_equal. lia.
  - rewrite length_drop. fold n. lia.
  - rewrite length_drop in Hrep. fold n in Hrep.
    replace (Z.to_nat (base a + Z.of_nat n - f)) with (n - d)%nat by lia.
    rewrite Hrep. replace (f + 1 - 1) with f in * by lia. split; simpl; try done.
    + split; [done|]. split; [done|lia].
    + unfold spec_frame. simpl. rewrite length_drop. fold n. lia.
    + intros k inp Hk. rewrite lookup_drop in Hk. apply Hi in Hk.
      rewrite gc_above, lookup_insert_ne by lia. rewrite <- Hk. f_equal. lia.
    + intros k Hk. destruct (decide (k = 0%nat)) as [->|].
      * rewrite Z.add_0_r, take_0, Hlow by lia. by rewrite lookup_insert_eq.
      * apply Hhigh. lia.
Qed.

(** Frames confirmed are below [2^62], and so are the numbers of operations. *)
Definition op_ok (o : op) : Prop :=
  match o with OAdvance _ => True | OConfirm f _ _ => 0 <= f < 2 ^ 62 end.

Lemma Advance_frame p s : currentFrame s + 1 < 2 ^ 64 -> 0 <= currentFrame s ->
  currentFrame (Advance p s).1.1 = currentFrame s + 1.
Proof. intros. simpl. apply wrapu64_id. unfold uint64. lia. Qed.

Lemma Confirm_frame f st ins s : currentFrame (Confirm f st ins s).1.1.1 = currentFrame s \/
  currentFrame (Confirm f st ins s).1.1.1 = f.
Proof.
  unfold Confirm. destruct (f <=? confirmedFrame s); [by left|].
  destruct (_ <=? 0); [by right|]. destruct (maxRollback s <? _); [by right|].
  destruct (replay _ _ _ _ _ _ _) as [[st' sn'] r]. by left.
Qed.

Lemma Confirm_max f st ins s : maxRollback (Confirm f st ins s).1.1.1 = maxRollback s.
Proof.
  unfold Confirm. destruct (f <=? confirmedFrame s); [done|].
  destruct (_ <=? 0); [done|]. destruct (maxRollback s <? _); [done|].
  by destruct (replay _ _ _ _ _ _ _) as [[st' sn'] r].
Qed.

Lemma run_refines ops : forall a s b, refines a s -> Forall op_ok ops ->
  0 <= b -> currentFrame s <= 2 ^ 62 + b -> 2 ^ 62 + b + Z.of_nat (length ops) < 2 ^ 63 ->
  refines (foldl (spec_op (maxRollback s)) a ops) (foldl run_op s ops).
Proof.
  induction ops as [|o ops IH]; intros a s b Hr Hops Hb Hc Hlen; [done|].
  apply Forall_cons in Hops as [Ho Hops]. cbn [length] in Hlen. simpl.
  assert (0 <= currentFrame s) as Hpos.
  { destruct Hr as [(_&_&?) -> _ _ _]. unfold spec_frame. lia. }
  destruct o as [p|f st ins]; cbn [run_op spec_op].
  - change (maxRollback s) with (maxRollback (Advance p s).1.1).
    apply (IH _ _ (b + 1)); try done; try lia.
    + apply Advance_refines; [done|lia].
    + rewrite Advance_frame by lia. lia.
  - simpl in Ho. rewrite <- (Confirm_max f st ins s).
    apply (IH _ _ b); try done; try lia.
    + rewrite Confirm_max. apply Confirm_refines; [done|lia|lia].
    + destruct (Confirm_frame f st ins s) as [->| ->]; lia.
Qed.

(** C2: whatever the order of predictions and confirmations, late, repeated, ahead
    of the client or too far behind, the session's state is the last
    authoritative state advanced by the inputs predicted since, and the snapshots
    from the confirmed frame on are the states of that simulation. *)
Theorem rollback_refines initial opts ops : Forall op_ok ops -> Z.of_nat (length ops) < 2 ^ 61 ->
  let s := foldl run_op (NewSession initial opts) ops in
  let a := foldl (spec_op (maxRollback (NewSession initial opts))) (MkSpec 0 initial []) ops in
  State s = spec_state a /\ Frame s = spec_frame a /\ ConfirmedFrame s = base a /\
  forall k, (k <= length (pending a))%nat ->
    SnapshotAt (base a + Z.of_nat k) s = Some (sim_all (auth a) (base a) (take k (pending a))).
Proof.
  intros Hops Hlen s a.
  destruct (run_refines ops (MkSpec 0 initial []) (NewSession initial opts) 0)
    as [(Hb&_&_) Hf Hs _ Hsn]; try done; try (simpl; lia).
  apply NewSession_refines.
Qed.

(** A confirmation that agrees with the prediction changes neither the state
    nor the frame, but it is still reported as a rollback and replays every frame
    since: no comparison is made. *)
Theorem correct_prediction_rolls a s f st ins : refines a s -> 0 <= currentFrame s < 2 ^ 63 ->
  base a < f < currentFrame s -> currentFrame s - f <= maxRollback s ->
  SnapshotAt f s = Some st ->
  let '(s', rolled, resimN, st') := Confirm f st ins s in
  rolled = true /\ resimN = currentFrame s - f /\ st' = State s /\ Frame s' = Frame s /\
  Rollbacks (stats s') = Rollbacks (stats s) + 1.
Proof.
  intros Hr Hc Hf Hgap Hsnap.
  pose proof (Confirm_refines a s f st ins Hr ltac:(lia) ltac:(destruct Hr as [(?&?&?) _ _ _ _]; lia)) as Hr'.
  destruct Hr as [(Hb1&Hb2&Hb3) Hfr Hs Hi Hsn]. unfold spec_frame in Hfr.
  set (n := length (pending a)) in *. set (d := Z.to_nat (f - base a)).
  specialize (Hsn d ltac:(lia)). replace (base a + Z.of_nat d) with f in Hsn by lia.
  unfold SnapshotAt in Hsnap. rewrite Hsnap in Hsn. injection Hsn as ->.
  destruct Hr' as [_ Hfr' Hs' _ _]. unfold spec_confirm, spec_frame in Hfr', Hs'. fold n in Hfr', Hs'.
  rewrite (proj2 (Z.leb_gt f (base a))) in Hfr', Hs' by lia.
  rewrite (proj2 (Z.leb_gt (base a + Z.of_nat n) f)) in Hfr', Hs' by lia.
  rewrite (proj2 (Z.ltb_ge (maxRollback s) (base a + Z.of_nat n - f))) in Hfr', Hs' by lia.
  simpl in Hfr', Hs'. fold d in Hfr', Hs'. unfold spec_state in Hs', Hs. simpl in Hs'.
  assert (Hsame : sim_all (sim_all (auth a) (base a) (take d (pending a))) f (drop d (pending a)) =
    currentState s).
  { rewrite Hs. rewrite <- (take_drop d (pending a)) at 3. rewrite sim_all_app, length_take.
    f_equal. fold n. lia. }
  rewrite Hsame in Hs'. unfold Confirm in *. rewrite Hb1 in *.
  rewrite (proj2 (Z.leb_gt f (base a))) in * by lia. rewrite gap_value in * by lia.
  rewrite (proj2 (Z.leb_gt (currentFrame s - f) 0)) in * by lia.
  rewrite (proj2 (Z.ltb_ge (maxRollback s) (currentFrame s - f))) in * by lia.
  set (ins' := gc (base a) f (<[f:=ins]> (inputs s))) in *.
  destruct (replay_spec ins' (currentFrame s) (drop d (pending a)) (f + 1)
    (sim_all (auth a) (base a) (take d (pending a)))
    (<[f:=sim_all (auth a) (base a) (take d (pending a))]> (gc (base a) f (snaps s))) 0)
    as (sn'&Hrep&_&_).
  - intros k inp Hk. rewrite lookup_drop in Hk. apply Hi in Hk. subst ins'.
    rewrite gc_above, lookup_insert_ne by lia. rewrite <- Hk. f_equal. lia.
  - rewrite length_drop. fold n. lia.
  - rewrite length_drop in Hrep. fold n in Hrep.
    replace (Z.to_nat (currentFrame s - f)) with (n - d)%nat in * by lia.
    rewrite Hrep in Hs' |- *. simpl in Hs' |- *. rewrite Hs'.
    split; [done|]. split; [lia|]. done.
Qed.

End session.

(** * The theorems on a concrete game: a counter moved by its inputs *)

Definition move (st : Z) (frame : Z) (ins : list Z) : Z := foldl Z.add st ins.

Definition sample_ops : list (op (S := Z) (I := Z)) :=
  [OAdvance [1]; OAdvance [1]; OAdvance [5]; OConfirm 1 10 [9]; OConfirm 1 99 []].

Lemma sample_ops_ok : Forall op_ok sample_ops.
Proof. repeat constructor; simpl; lia. Qed.

Lemma rollback_refines_witness : State (foldl (run_op move) (NewSession 0 []) sample_ops) = 16.
Proof.
  destruct (rollback_refines move 0 [] sample_ops sample_ops_ok ltac:(simpl; lia)) as [-> _].
  reflexivity.
Defined.

Lemma correct_prediction_rolls_witness :
  let s := (Advance move [1] (Advance move [1] (NewSession 0 [])).1.1).1.1 in
  (Confirm move 1 1 [1] s).1.1.2 = true /\ State s = 2.
Proof.
  assert (refines move (MkSpec 0 0 [[1]; [1]]) (Advance move [1] (Advance move [1] (NewSession 0 [])).1.1).1.1) as Hr.
  { apply (Advance_refines move (MkSpec 0 0 [[1]])); [|reflexivity].
    apply (Advance_refines move (MkSpec 0 0 [])); [|reflexivity]. apply NewSession_refines. }
  pose proof (correct_prediction_rolls move _ _ 1 1 [1] Hr) as H.
  destruct (Confirm move 1 1 [1] _) as [[[s' rolled] n] st] eqn:E.
  intros s. subst s. rewrite E.
  destruct H as [H _]; [by split|by split|done|reflexivity|].
  split; [exact H|reflexivity].
Defined.
