(* ===== verification/Fsm.v ===== *)
(** The finite state machine ([pkg/foundation/fsm/fsm.go]): a table of legal
    transitions, hooks around each of them, and the builder. *)
From Stdlib Require Import ZArith Lia Bool.
From stdpp Require Import base numbers strings list gmap fin_maps relations.
From S2P Require Import Prelude.

Section fsm.
(** [S]: states, [E]: events, [W]: what the hooks act on, [X]: their errors. *)
Context {S E W X : Type} `{Countable S, Countable E}.

(** Hooks return an error or nil; a nil hook is absent. *)
Record Callbacks := MkCallbacks {
  OnLeave : option (S -> E -> W -> W * option X);
  OnTransition : option (S -> S -> E -> W -> W * option X);
  OnEnter : option (S -> E -> W -> W * option X)
}.

Record FSM := MkFSM { state : S; transit : gmap (S * E) S; cb : Callbacks }.

Inductive fErr :=
| ErrInvalidTransition (from : S) (event : E)
| LeaveAborted (from to : S) (e : X)
| TransitionAborted (from to : S) (e : X)
| EnterFailed (from to : S) (e : X).

Definition newFSM (initial : S) (transitions : gmap (S * E) S) (c : Callbacks) : FSM :=
  MkFSM initial transitions c.

Definition Current (f : FSM) : S := state f.
Definition Is (f : FSM) (s : S) : bool := bool_decide (state f = s).
Definition Can (f : FSM) (event : E) : bool :=
  match transit f !! (state f, event) with Some _ => true | None => false end.

(** The state after the call, the world, the state returned and the error. *)
Definition Fire (f : FSM) (event : E) (w : W) : FSM * W * S * option fErr :=
  let from := state f in
  match transit f !! (from, event) with
  | None => (f, w, from, Some (ErrInvalidTransition from event))
  | Some to =>
      let '(w, e1) := match OnLeave (cb f) with
                      | None => (w, None) | Some h => h from event w end in
      match e1 with
      | Some e => (f, w, from, Some (LeaveAborted from to e))
      | None =>
          let '(w, e2) := match OnTransition (cb f) with
                          | None => (w, None) | Some h => h from to event w end in
          match e2 with
          | Some e => (f, w, from, Some (TransitionAborted from to e))
          | None =>
              let f := MkFSM to (transit f) (cb f) in
              let '(w, e3) := match OnEnter (cb f) with
                              | None => (w, None) | Some h => h to event w end in
              match e3 with
              | Some e => (f, w, to, Some (EnterFailed from to e))
              | None => (f, w, to, None)
              end
          end
      end
  end.

(** In the order of a map range. *)
Definition AvailableEvents (f : FSM) : list E :=
  omap (fun p => if decide (p.1.1 = state f) then Some p.1.2 else None) (map_to_list (transit f)).

(** ** Builder *)

Record Builder := MkBuilder { initial : S; transitions : gmap (S * E) S; bcb : Callbacks }.

Definition NewBuilder (s : S) : Builder := MkBuilder s ∅ (MkCallbacks None None None).
Definition Allow (from : S) (event : E) (to : S) (b : Builder) : Builder :=
  MkBuilder (initial b) (<[(from, event) := to]> (transitions b)) (bcb b).
Definition SetOnLeave (h : S -> E -> W -> W * option X) (b : Builder) : Builder :=
  MkBuilder (initial b) (transitions b) (MkCallbacks (Some h) (OnTransition (bcb b)) (OnEnter (bcb b))).
Definition SetOnTransition (h : S -> S -> E -> W -> W * option X) (b : Builder) : Builder :=
  MkBuilder (initial b) (transitions b) (MkCallbacks (OnLeave (bcb b)) (Some h) (OnEnter (bcb b))).
Definition SetOnEnter (h : S -> E -> W -> W * option X) (b : Builder) : Builder :=
  MkBuilder (initial b) (transitions b) (MkCallbacks (OnLeave (bcb b)) (OnTransition (bcb b)) (Some h)).
Definition Build (b : Builder) : FSM := newFSM (initial b) (transitions b) (bcb b).

(** * Legality *)

(** An edge of the table. *)
Definition edge (t : gmap (S * E) S) (s s' : S) : Prop := exists e, t !! (s, e) = Some s'.

(** The outcomes of [Fire]. *)
Lemma Fire_spec f event w : let '(f', w', s, err) := Fire f event w in
  transit f' = transit f /\ cb f' = cb f /\ s = state f' /\
  match err with
  | None => transit f !! (state f, event) = Some (state f')
  | Some (ErrInvalidTransition from e) => transit f !! (state f, event) = None /\
      from = state f /\ e = event /\ state f' = state f /\ w' = w
  | Some (LeaveAborted _ _ _) | Some (TransitionAborted _ _ _) => state f' = state f /\ Can f event = true
  | Some (EnterFailed from _ _) => from = state f /\ transit f !! (state f, event) = Some (state f')
  end.
Proof.
  unfold Fire, Can. destruct (transit f !! (state f, event)) as [to|] eqn:Ht; [|done].
  destruct (match OnLeave (cb f) with Some _ => _ | None => _ end) as [w1 [e1|]]; [done|].
  destruct (match OnTransition (cb f) with Some _ => _ | None => _ end) as [w2 [e2|]]; [done|].
  simpl. destruct (match OnEnter (cb f) with Some _ => _ | None => _ end) as [w3 [e3|]]; done.
Qed.

Lemma Fire_edge f event w : let '(f', _, _, _) := Fire f event w in
  transit f' = transit f /\ (state f' = state f \/ edge (transit f) (state f) (state f')).
Proof.
  pose proof (Fire_spec f event w) as Hs. destruct (Fire f event w) as [[[f' w'] s] err].
  destruct Hs as (Ht&_&_&Hs). split; [done|].
  destruct err as [[]|]; [left; by destruct Hs as (_&_&_&?&_)|left; by destruct Hs..| |];
    right; eexists; [by destruct Hs as [_ ?]|done].
Qed.

(** Firing a sequence of events. *)
Fixpoint fires (f : FSM) (es : list E) (w : W) : FSM * W :=
  match es with
  | [] => (f, w)
  | e :: es => let '(f', w', _, _) := Fire f e w in fires f' es w'
  end.

(** The machine only moves along declared transitions: after any sequence of
    events, accepted or refused, with any hooks, its state is reachable from the
    initial one by edges of the table that was built. *)
Theorem fires_follow_table b es w :
  rtc (edge (transitions b)) (initial b) (Current (fires (Build b) es w).1).
Proof.
  enough (forall f, transit f = transitions b -> rtc (edge (transitions b)) (initial b) (state f) ->
    rtc (edge (transitions b)) (initial b) (Current (fires f es w).1)) as Hg by by apply Hg.
  revert w. induction es as [|e es IH]; intros w f Ht Hr; [done|]. simpl.
  pose proof (Fire_edge f e w) as He. destruct (Fire f e w) as [[[f' w'] s] err].
  destruct He as [Ht' He]. apply IH; [congruence|]. destruct He as [->|He]; [done|].
  eapply rtc_r; [done|]. by rewrite <- Ht.
Qed.

End fsm.

Arguments Callbacks : clear implicits.
Arguments FSM _ _ _ _ {_ _ _ _} : assert.
Arguments Builder _ _ _ _ {_ _ _ _} : assert.
