(* ===== verification/Versus.v ===== *)
(** The timed contest ([pkg/game/versus/versus.go]): sides that score while the
    match runs, on the state machine of [Fsm]. What the match publishes and the
    calls of its end hook are the effects of the operations. *)
From Stdlib Require Import ZArith Lia Bool.
From stdpp Require Import base numbers strings list gmap fin_maps.
From S2P Require Import Prelude Fsm.

Open Scope Z_scope.

Inductive vstate := statePending | stateRunning | stateEnded.
Inductive vevent := evStart | evFinish.
Inductive EventType := EventStarted | EventScoreChanged | EventEnded.

#[global] Instance vstate_eq_dec : EqDecision vstate.
Proof. solve_decision. Defined.
#[global] Instance vevent_eq_dec : EqDecision vevent.
Proof. solve_decision. Defined.
#[global] Instance vstate_countable : Countable vstate.
Proof.
  refine (inj_countable'
    (fun s => match s with statePending => 0 | stateRunning => 1 | stateEnded => 2 end)%nat
    (fun n => match n with O => statePending | S O => stateRunning | _ => stateEnded end) _).
  by intros [].
Defined.
#[global] Instance vevent_countable : Countable vevent.
Proof.
  refine (inj_countable' (fun s => match s with evStart => true | evFinish => false end)
    (fun b : bool => if b then evStart else evFinish) _).
  by intros [].
Defined.

Record Snapshot := MkSnap {
  sID : string;
  sScores : gmap string Z;
  sLeader : string;
  sTie : bool;
  sRunning : bool;
  sEnded : bool;
  Remaining : Z
}.

Record Event := MkEvent { Type_ : EventType; Side : string; Delta : Z; eSnapshot : Snapshot }.

Record Result := MkResult { rID : string; rScores : gmap string Z; Winner : string; rTie : bool }.

(** What a call does outside: publish on the bus, call the end hook. *)
Inductive effect := Published (e : Event) | OnEnd (r : Result).

Definition machine : Type := FSM vstate vevent unit Empty_set.

(** [timer] tells whether the countdown is armed. *)
Record Match := MkMatch {
  id : string;
  duration : Z;
  hasOnEnd : bool;
  sides : list string;
  sm : machine;
  scores : gmap string Z;
  deadline : Z;
  timer : bool
}.

Inductive vErr :=
| ErrNotRunning | ErrUnknownSide | ErrFsm (e : @fErr vstate vevent Empty_set).

Definition new_machine : machine :=
  Build (Allow stateRunning evFinish stateEnded
    (Allow statePending evStart stateRunning (NewBuilder statePending))).

Definition New (i : string) (ss : list string) (d : Z) (onEnd : bool) : Match :=
  MkMatch i d onEnd ss new_machine (foldl (fun m s => <[s := 0]> m) ∅ ss) 0 false.

(** [m.scores[s]], zero when absent. *)
Definition score (m : Match) (s : string) : Z := default 0 (scores m !! s).

(** The loop of [leaderLocked] in the declared order: best, leader, count, first. *)
Fixpoint leader_loop (m : Match) (ss : list string) (best : Z) (leader : string)
    (bestCount : Z) (first : bool) : string * Z :=
  match ss with
  | [] => (leader, bestCount)
  | s :: ss =>
      let v := score m s in
      if first || (best <? v) then leader_loop m ss v s 1 false
      else if v =? best then leader_loop m ss best leader (bestCount + 1) first
      else leader_loop m ss best leader bestCount first
  end.

Definition leaderLocked (m : Match) : string * bool :=
  let '(leader, n) := leader_loop m (sides m) 0 "" 0 true in (leader, 1 <? n).

Definition snapshotLocked (m : Match) (now : Z) : Snapshot :=
  let '(leader, tie) := leaderLocked m in
  MkSnap (id m) (scores m) leader tie (Is (sm m) stateRunning) (Is (sm m) stateEnded)
    (if Is (sm m) stateRunning then Z.max (time_sub (deadline m) now) 0 else 0).

Definition resultLocked (m : Match) : Result :=
  let '(winner, tie) := leaderLocked m in
  MkResult (id m) (scores m) (if tie : bool then EmptyString else winner) tie.

Definition set_sm (m : Match) (f : machine) (dl : Z) (t : bool) : Match :=
  MkMatch (id m) (duration m) (hasOnEnd m) (sides m) f (scores m) dl t.

Definition Start (now : Z) (m : Match) : Match * option vErr * list effect :=
  let '(f, _, _, err) := Fire (sm m) evStart tt in
  match err with
  | Some e => (m, Some (ErrFsm e), [])
  | None =>
      let m := set_sm m f (now + duration m) true in
      (m, None, [Published (MkEvent EventStarted EmptyString 0 (snapshotLocked m now))])
  end.

Definition Add (side : string) (delta now : Z) (m : Match)
    : Match * result vErr Z * list effect :=
  match scores m !! side with
  | None => (m, Err ErrUnknownSide, [])
  | Some v =>
      if negb (Is (sm m) stateRunning) then (m, Err ErrNotRunning, [])
      else
        let newScore := wrap64 (v + delta) in
        let m := MkMatch (id m) (duration m) (hasOnEnd m) (sides m) (sm m)
          (<[side := newScore]> (scores m)) (deadline m) (timer m) in
        (m, Ok newScore, [Published (MkEvent EventScoreChanged side delta (snapshotLocked m now))])
  end.

(** [finish], called by [Finish] and by the timer. *)
Definition finish (now : Z) (m : Match) : Match * list effect :=
  let '(f, _, _, err) := Fire (sm m) evFinish tt in
  match err with
  | Some _ => (m, [])
  | None =>
      let m := set_sm m f (deadline m) false in
      (m, (if hasOnEnd m then [OnEnd (resultLocked m)] else []) ++
          [Published (MkEvent EventEnded EmptyString 0 (snapshotLocked m now))])
  end.

Definition Finish := finish.
Definition GetSnapshot (m : Match) (now : Z) : Snapshot := snapshotLocked m now.
Definition Close (m : Match) : Match := set_sm m (sm m) (deadline m) false.

(** * Histories *)

Inductive vop :=
| OStart (now : Z) | OAdd (side : string) (delta now : Z) | OFinish (now : Z)
| OTimer (now : Z) | OClose.

Definition run_op (o : vop) (m : Match) : Match * list effect :=
  match o with
  | OStart now => let '(m, _, ef) := Start now m in (m, ef)
  | OAdd s d now => let '(m, _, ef) := Add s d now m in (m, ef)
  | OFinish now => Finish now m
  | OTimer now => if timer m then finish now m else (m, [])
  | OClose => (Close m, [])
  end.

Fixpoint run_ops (ops : list vop) (m : Match) : Match * list effect :=
  match ops with
  | [] => (m, [])
  | o :: ops =>
      let '(m, ef) := run_op o m in let '(m, ef') := run_ops ops m in (m, ef ++ ef')
  end.

Definition is_score (e : effect) : bool :=
  match e with
  | Published ev => match Type_ ev with EventScoreChanged => true | _ => false end
  | OnEnd _ => false
  end.

(** The sum of the published deltas of a side. *)
Definition published (s : string) (ef : list effect) : Z :=
  foldr (fun e acc => match e with
    | Published ev => (match Type_ ev with
        | EventScoreChanged => if decide (Side ev = s) then Delta ev else 0 | _ => 0 end) + acc
    | OnEnd _ => acc end) 0 ef.

Definition started (e : effect) : Prop :=
  exists sn, e = Published (MkEvent EventStarted EmptyString 0 sn).

(** The shape of everything a match has done, by phase. *)
Definition history_ok (m : Match) (ef : list effect) : Prop :=
  match state (sm m) with
  | statePending => ef = []
  | stateRunning => exists e scs, ef = e :: scs /\ started e /\ forallb is_score scs = true
  | stateEnded => exists e scs sn, started e /\ forallb is_score scs = true /\
      ef = e :: scs ++ (if hasOnEnd m then [OnEnd (resultLocked m)] else []) ++
        [Published (MkEvent EventEnded EmptyString 0 sn)]
  end.

Definition scores_ok (m : Match) (ef : list effect) : Prop :=
  forall s, match scores m !! s with
    | Some v => v = wrap64 (published s ef)
    | None => s ∉ sides m
    end.

Record vinv (m : Match) (ef : list effect) : Prop := {
  v_machine : transit (sm m) = transit new_machine /\ cb (sm m) = cb new_machine;
  v_history : history_ok m ef;
  v_scores : scores_ok m ef;
  v_sides : forall s, s ∈ sides m -> is_Some (scores m !! s)
}.

Lemma published_app s l1 l2 : published s (l1 ++ l2) = published s l1 + published s l2.
Proof. induction l1 as [|e l1 IH]; [done|]. simpl. destruct e; rewrite ?IH; lia. Qed.

(** [Fire] on the match's machine. *)
Lemma Fire_start (f : machine) : transit f = transit new_machine -> cb f = cb new_machine ->
  Fire f evStart tt =
    match state f with
    | statePending => (MkFSM stateRunning (transit f) (cb f), tt, stateRunning, None)
    | s => (f, tt, s, Some (ErrInvalidTransition s evStart))
    end.
Proof.
  intros Ht Hc. unfold Fire. rewrite Ht, Hc. destruct f as [s t c]. simpl in *. subst.
  destruct s; reflexivity.
Qed.

Lemma Fire_finish (f : machine) : transit f = transit new_machine -> cb f = cb new_machine ->
  Fire f evFinish tt =
    match state f with
    | stateRunning => (MkFSM stateEnded (transit f) (cb f), tt, stateEnded, None)
    | s => (f, tt, s, Some (ErrInvalidTransition s evFinish))
    end.
Proof.
  intros Ht Hc. unfold Fire. rewrite Ht, Hc. destruct f as [s t c]. simpl in *. subst.
  destruct s; reflexivity.
Qed.

Lemma New_scores ss : forall (m0 : gmap string Z) s,
  foldl (fun m s => <[s := 0]> m) m0 ss !! s = if decide (s ∈ ss) then Some 0 else m0 !! s.
Proof.
  induction ss as [|x ss IH]; intros m0 s; simpl; [done|]. rewrite IH.
  destruct (decide (s ∈ ss)).
  - by rewrite decide_True by (by right).
  - destruct (decide (s = x)) as [->|].
    + rewrite lookup_insert_eq. by rewrite decide_True by (by left).
    + rewrite lookup_insert_ne by done. rewrite decide_False; [done|].
      by intros [?|?]%elem_of_cons.
Qed.

Lemma New_vinv i ss d oe : vinv (New i ss d oe) [].
Proof.
  split; [done|done| |].
  - intros s. simpl. rewrite New_scores. by destruct (decide (s ∈ ss)).
  - intros s Hs. simpl in *. rewrite New_scores. by rewrite decide_True.
Qed.

(** Effects that publish no score leave the sums as they are. *)
Lemma scores_ok_app m m' ef ef' : scores m' = scores m -> sides m' = sides m ->
  (forall s, published s ef' = 0) -> scores_ok m ef -> scores_ok m' (ef ++ ef').
Proof.
  intros E1 E2 Hz Hs s. rewrite E1, E2. specialize (Hs s).
  destruct (scores m !! s); [|done]. by rewrite published_app, Hz, Z.add_0_r.
Qed.

Lemma finish_vinv now m ef : vinv m ef -> vinv (finish now m).1 (ef ++ (finish now m).2).
Proof.
  intros Hv. pose proof Hv as [[Ht Hc] Hh Hs Hd]. unfold finish. rewrite Fire_finish by done.
  unfold history_ok in Hh. destruct (state (sm m)) eqn:Hst; simpl; try by rewrite app_nil_r.
  destruct Hh as (e&scs&->&He&Hscs). split; simpl; [done| | |done].
  - unfold history_ok. simpl. exists e, scs. eexists. split; [done|]. split; [done|]. reflexivity.
  - rewrite app_comm_cons. apply (scores_ok_app m); [done|done| |done].
    intros s. by destruct (hasOnEnd m).
Qed.

Lemma leader_loop_ext m m' ss : scores m' = scores m -> forall b l n f,
  leader_loop m' ss b l n f = leader_loop m ss b l n f.
Proof.
  intros E. induction ss as [|x ss IH]; intros; simpl; [done|].
  unfold score. rewrite E. by rewrite !IH.
Qed.

Lemma Close_vinv m ef : vinv m ef -> vinv (Close m) ef.
Proof.
  intros [Hm Hh Hs Hd]. split; [done| |done|done]. unfold history_ok in *. simpl.
  destruct (state (sm m)); try done.
  assert (resultLocked (Close m) = resultLocked m) as ->; [|done].
  unfold resultLocked, leaderLocked. simpl. by rewrite (leader_loop_ext m (Close m)).
Qed.

Lemma run_op_vinv o m ef : vinv m ef -> vinv (run_op o m).1 (ef ++ (run_op o m).2).
Proof.
  intros Hv. pose proof Hv as [[Ht Hc] Hh Hs Hd]. destruct o as [now|side delta now|now|now|]; simpl.
  - unfold Start. rewrite Fire_start by done. unfold history_ok in Hh.
    destruct (state (sm m)) eqn:Hst; simpl; try by rewrite app_nil_r.
    subst ef. split; simpl; [done| |done|done].
    unfold history_ok. simpl. exists (Published (MkEvent EventStarted EmptyString 0
      (snapshotLocked (set_sm m (MkFSM stateRunning (transit (sm m)) (cb (sm m)))
        (now + duration m) true) now))), [].
    split; [done|]. split; [by eexists|done].
  - unfold Add. destruct (scores m !! side) as [v|] eqn:Hv'; [|by rewrite app_nil_r].
    unfold Is. destruct (bool_decide_reflect (state (sm m) = stateRunning)) as [Hr|]; simpl;
      [|by rewrite app_nil_r].
    split; simpl; [done| | |].
    + unfold history_ok in *. simpl. rewrite Hr in *. destruct Hh as (e&scs&->&He&Hscs).
      eexists e, _. split; [reflexivity|]. split; [done|]. rewrite forallb_app, Hscs. done.
    + intros s. specialize (Hs s). rewrite published_app. simpl.
      destruct (decide (side = s)) as [->|Hne]; simpl.
      * rewrite lookup_insert_eq. rewrite Hv' in Hs. subst v. rewrite Z.add_0_r.
        apply wrap64_congr. unfold wrap64.
        replace ((published s ef + 2 ^ 63) mod 2 ^ 64 - 2 ^ 63 + delta - (published s ef + delta))
          with ((published s ef + 2 ^ 63) mod 2 ^ 64 - (published s ef + 2 ^ 63)) by lia.
        rewrite Zminus_mod_idemp_l, Z.sub_diag. done.
      * rewrite lookup_insert_ne by done. by rewrite !Z.add_0_r.
    + intros s Hin. destruct (decide (side = s)) as [->|Hne].
      * by rewrite lookup_insert_eq.
      * rewrite lookup_insert_ne by done. by apply Hd.
  - by apply finish_vinv.
  - destruct (timer m); simpl; [by apply finish_vinv|by rewrite app_nil_r].
  - rewrite app_nil_r. by apply Close_vinv.
Qed.

Lemma run_ops_vinv ops : forall m ef, vinv m ef -> vinv (run_ops ops m).1 (ef ++ (run_ops ops m).2).
Proof.
  induction ops as [|o ops IH]; intros m ef Hv; simpl; [by rewrite app_nil_r|].
  pose proof (run_op_vinv o m ef Hv) as H1. destruct (run_op o m) as [m1 e1]. simpl in H1.
  specialize (IH m1 (ef ++ e1) H1). destruct (run_ops ops m1) as [m2 e2]. simpl in *.
  by rewrite app_assoc.
Qed.

(** Whatever the calls, the early finishes, the timer and their order, a match
    publishes one start, then only score changes, then one end with the end hook
    called once on the final result; and every score is the sum of the published
    changes of its side (as an [int64]). *)
Theorem versus_history i ss d oe ops : let '(m, ef) := run_ops ops (New i ss d oe) in
  history_ok m ef /\ forall s, s ∈ sides m -> scores m !! s = Some (wrap64 (published s ef)).
Proof.
  pose proof (run_ops_vinv ops _ [] (New_vinv i ss d oe)) as H.
  destruct (run_ops ops (New i ss d oe)) as [m ef]. simpl in H. destruct H as [_ Hh Hs Hd].
  split; [done|]. intros s Hin. destruct (Hd s Hin) as [v Hv]. specialize (Hs s).
  rewrite Hv in *. congruence.
Qed.

(** ** The leader *)

Definition occurrences (m : Match) (ss : list string) (v : Z) : Z :=
  Z.of_nat (length (List.filter (fun s => score m s =? v) ss)).

Lemma leader_loop_spec m ss : forall pre best leader n, pre <> [] ->
  In leader pre -> score m leader = best -> (forall s, In s pre -> score m s <= best) ->
  n = occurrences m pre best ->
  let '(l, k) := leader_loop m ss best leader n false in
  In l (pre ++ ss) /\ (forall s, In s (pre ++ ss) -> score m s <= score m l) /\
  k = occurrences m (pre ++ ss) (score m l).
Proof.
  induction ss as [|s ss IH]; intros pre best leader n Hne Hin Hb Hmax Hn; simpl.
  { rewrite app_nil_r. subst best. done. }
  assert (Happ : pre ++ s :: ss = (pre ++ [s]) ++ ss) by (by rewrite <- app_assoc). rewrite Happ.
  assert (Hocc : forall v, occurrences m (pre ++ [s]) v =
    occurrences m pre v + if score m s =? v then 1 else 0).
  { intros v. unfold occurrences. rewrite List.filter_app, length_app. simpl.
    destruct (score m s =? v); simpl; lia. }
  assert (Hz : forall v, best < v -> occurrences m pre v = 0).
  { intros v Hv. unfold occurrences. clear -Hmax Hv. induction pre as [|x pre IH]; [done|]. simpl.
    rewrite (proj2 (Z.eqb_neq (score m x) v)).
    - apply IH. intros y Hy. apply Hmax. by right.
    - specialize (Hmax x (or_introl eq_refl)). lia. }
  destruct (Z.ltb_spec best (score m s)) as [Hlt|Hge]; simpl.
  - apply IH; [by destruct pre|apply in_or_app; right; by left|done| |].
    + intros y [Hy|[<-|[]]]%in_app_or; [specialize (Hmax y Hy); lia|lia].
    + rewrite Hocc, Hz by done. by rewrite Z.eqb_refl.
  - assert (Hmax' : forall y, In y (pre ++ [s]) -> score m y <= best).
    { intros y [Hy|[<-|[]]]%in_app_or; [by apply Hmax|done]. }
    destruct (Z.eqb_spec (score m s) best) as [He|He];
      (apply IH; [by destruct pre|apply in_or_app; by left|done|done|]); rewrite Hocc.
    + rewrite (proj2 (Z.eqb_eq _ _) He). lia.
    + rewrite (proj2 (Z.eqb_neq _ _) He). lia.
Qed.

(** The result names a declared side no other side has beaten as the winner, or
    no winner exactly when the highest score is shared; a snapshot's [Tie] agrees,
    but its [Leader] still names one of the tied sides. *)
Theorem leader_result m now : sides m <> [] ->
  exists l, In l (sides m) /\ (forall s, In s (sides m) -> score m s <= score m l) /\
  rTie (resultLocked m) = (1 <? occurrences m (sides m) (score m l)) /\
  Winner (resultLocked m) = (if rTie (resultLocked m) then EmptyString else l) /\
  sTie (snapshotLocked m now) = rTie (resultLocked m) /\ sLeader (snapshotLocked m now) = l.
Proof.
  intros Hne. unfold snapshotLocked, resultLocked, leaderLocked.
  destruct (sides m) as [|s ss] eqn:Hs; [done|]. simpl.
  pose proof (leader_loop_spec m ss [s] (score m s) s 1 ltac:(done) ltac:(by left) eq_refl) as H.
  destruct (leader_loop m ss (score m s) s 1 false) as [l k]. simpl in *.
  destruct H as (Hin&Hmax&Hk).
  - intros x [<-|[]]. lia.
  - unfold occurrences. simpl. by rewrite Z.eqb_refl.
  - exists l. rewrite Hk. repeat split; done.
Qed.

Lemma leader_result_witness :
  let m := New "pk" ["red"; "blue"]%string 10 false in
  Winner (resultLocked m) = EmptyString /\ sLeader (snapshotLocked m 0) = "red"%string.
Proof.
  destruct (leader_result (New "pk" ["red"; "blue"]%string 10 false) 0) as (l&_&_&Ht&Hw&_&Hl); [done|].
  simpl in *. vm_compute in Hl. subst l. split; [exact Hw|reflexivity].
Defined.
