(* ===== verification/Dag.v ===== *)
(** The DAG executor ([pkg/foundation/dag/dag.go]): Kahn's layering of the nodes by
    their dependencies, and the run of the layers. *)
From Stdlib Require Import ZArith Lia Bool.
From stdpp Require Import base numbers strings list gmap fin_maps.
From S2P Require Import Prelude Effects.

Inductive Strategy := FailFast | ContinueOnError.

Section dag.
(** [R]: what a node runs. [E]: the errors. *)
Context {R E : Type}.

Record Node := MkNode { Name : string; DependsOn : list string; Run : option R }.

Inductive dErr :=
| EmptyName (i : nat)
| Duplicate (name : string)
| Unknown (node dep : string)
| CycleDetected.

(** ** Layering *)

(** [index]: name to position; later names must be new. *)
Fixpoint build_index (nodes : list Node) (i : nat) (index : gmap string nat)
    : result dErr (gmap string nat) :=
  match nodes with
  | [] => Ok index
  | n :: nodes =>
      if decide (Name n = EmptyString) then Err (EmptyName i)
      else match index !! Name n with
      | Some _ => Err (Duplicate (Name n))
      | None => build_index nodes (S i) (<[Name n := i]> index)
      end
  end.

(** The edges into the node at [i], in the order of its dependencies: [children] of
    the dependency gains [i] and the in-degree of [i] grows. *)
Fixpoint add_deps (index : gmap string nat) (node : string) (i : nat) (deps : list string)
    (inDegree : list nat) (children : list (list nat)) : result dErr (list nat * list (list nat)) :=
  match deps with
  | [] => Ok (inDegree, children)
  | dep :: deps =>
      match index !! dep with
      | None => Err (Unknown node dep)
      | Some di =>
          add_deps index node i deps (alter S i inDegree) (alter (fun c => c ++ [i]) di children)
      end
  end.

Fixpoint build_edges (index : gmap string nat) (nodes : list Node) (i : nat)
    (inDegree : list nat) (children : list (list nat)) : result dErr (list nat * list (list nat)) :=
  match nodes with
  | [] => Ok (inDegree, children)
  | n :: nodes =>
      match add_deps index (Name n) i (DependsOn n) inDegree children with
      | Err e => Err e
      | Ok (inDegree, children) => build_edges index nodes (S i) inDegree children
      end
  end.

(** Decrement the in-degree of the children of one node; those that reach zero
    join the next layer. *)
Fixpoint release (chs : list nat) (inDegree : list nat) (next : list nat) : list nat * list nat :=
  match chs with
  | [] => (inDegree, next)
  | ch :: chs =>
      let inDegree := alter Nat.pred ch inDegree in
      release chs inDegree (if decide (inDegree !! ch = Some O) then next ++ [ch] else next)
  end.

Fixpoint release_all (children : list (list nat)) (current : list nat) (inDegree next : list nat)
    : list nat * list nat :=
  match current with
  | [] => (inDegree, next)
  | idx :: current =>
      let '(inDegree, next) := release (default [] (children !! idx)) inDegree next in
      release_all children current inDegree next
  end.

(** The layers, as positions; each turn visits at least one node. *)
Fixpoint layers_loop (fuel : nat) (children : list (list nat)) (current inDegree : list nat)
    : list (list nat) :=
  match fuel with
  | O => []
  | S fuel =>
      match current with
      | [] => []
      | _ =>
          let '(inDegree, next) := release_all children current inDegree [] in
          current :: layers_loop fuel children next inDegree
      end
  end.

(** [nodes[i].DependsOn] as positions. *)
Definition initial (inDegree : list nat) : list nat :=
  List.filter (fun i => bool_decide (inDegree !! i = Some O)) (seq 0 (length inDegree)).

Definition layer_of (nodes : list Node) (layer : list nat) : list Node :=
  omap (fun i => nodes !! i) layer.

Definition topo_indices (nodes : list Node) : result dErr (list (list nat)) :=
  match build_index nodes 0 ∅ with
  | Err e => Err e
  | Ok index =>
      match build_edges index nodes 0 (replicate (length nodes) O) (replicate (length nodes) []) with
      | Err e => Err e
      | Ok (inDegree, children) =>
          let layers := layers_loop (S (length nodes)) children (initial inDegree) inDegree in
          if decide (length (concat layers) < length nodes)%nat then Err CycleDetected
          else Ok layers
      end
  end.

Definition topoSort (nodes : list Node) : result dErr (list (list Node)) :=
  match topo_indices nodes with
  | Err e => Err e
  | Ok layers => Ok (layer_of nodes <$> layers)
  end.

Definition Validate (nodes : list Node) : option dErr :=
  match topoSort nodes with Err e => Some e | Ok _ => None end.

(** * The graph as positions *)

(** The dependencies of each node, as positions. *)
Definition dep_index (index : gmap string nat) (n : Node) : list nat :=
  omap (fun d => index !! d) (DependsOn n).

(** Occurrences of [x] in a list. *)
Definition occ (x : nat) (l : list nat) : nat := length (filter (fun y => y = x) l).

Lemma occ_app x l l' : occ x (l ++ l') = (occ x l + occ x l')%nat.
Proof. unfold occ. by rewrite filter_app, length_app. Qed.

Lemma occ_snoc x l y : occ x (l ++ [y]) = (occ x l + if decide (y = x) then 1 else 0)%nat.
Proof. rewrite occ_app. unfold occ at 2. rewrite filter_cons. by case_decide. Qed.

Lemma occ_pos x l : x ∈ l <-> (0 < occ x l)%nat.
Proof.
  unfold occ. induction l as [|y l IH].
  - rewrite filter_nil. simpl. split; [by intros ?%not_elem_of_nil|lia].
  - rewrite filter_cons. case_decide; simpl.
    + split; [lia|intros _; subst; by left].
    + rewrite <- IH, elem_of_cons. naive_solver.
Qed.

(** Dependencies of a node outside a set of positions. *)
Definition outside (P : list nat) (ds : list nat) : nat := length (filter (fun d => d ∉ P) ds).

Lemma occ_nil x : occ x [] = O.
Proof. done. Qed.

Lemma occ_cons x y l : occ x (y :: l) = ((if decide (y = x) then 1 else 0) + occ x l)%nat.
Proof. unfold occ. rewrite filter_cons. by case_decide. Qed.

(** What [release] does to the in-degrees, and which nodes it lets go. *)
Lemma release_spec chs : forall deg next,
  (forall c n, deg !! c = Some n -> (occ c chs <= n)%nat) ->
  let '(deg', next') := release chs deg next in
  length deg' = length deg /\
  (forall i, deg' !! i = (fun n => (n - occ i chs)%nat) <$> deg !! i) /\
  exists fresh, next' = next ++ fresh /\ NoDup fresh /\
    forall i, i ∈ fresh <-> i ∈ chs /\ deg !! i = Some (occ i chs).
Proof.
  induction chs as [|ch chs IH]; intros deg next Ho; simpl.
  { split; [done|]. split.
    - intros i. destruct (deg !! i); simpl; [|done]. rewrite occ_nil. f_equal. lia.
    - exists []. rewrite app_nil_r. split; [done|]. split; [constructor|].
      intros i. split; [by intros ?%not_elem_of_nil|by intros [?%not_elem_of_nil _]]. }
  set (deg1 := alter Nat.pred ch deg).
  assert (Hd1 : forall c, deg1 !! c = (fun n => if decide (ch = c) then Nat.pred n else n) <$> deg !! c).
  { intros c. unfold deg1. destruct (decide (ch = c)) as [->|Hne].
    - by rewrite list_lookup_alter_eq.
    - rewrite list_lookup_alter_ne by done. by destruct (deg !! c). }
  specialize (IH deg1 (if decide (deg1 !! ch = Some O) then next ++ [ch] else next)).
  destruct (release chs deg1 _) as [deg' next']. destruct IH as (Hl&Hi&fresh&Hn&Hnd&Hf).
  { intros c n Hc. rewrite Hd1 in Hc. destruct (deg !! c) as [m|] eqn:Em; [|done].
    specialize (Ho c m Em). rewrite occ_cons in Ho. simpl in Hc. injection Hc as <-.
    destruct (decide (ch = c)); lia. }
  split; [by rewrite Hl; unfold deg1; rewrite length_alter|]. split.
  { intros i. rewrite Hi, Hd1, occ_cons. destruct (deg !! i); simpl; [|done]. f_equal.
    destruct (decide (ch = i)); lia. }
  assert (Hch : forall n, deg !! ch = Some n -> (1 + occ ch chs <= n)%nat).
  { intros n Hn'. specialize (Ho ch n Hn'). rewrite occ_cons, decide_True in Ho by done. lia. }
  destruct (decide (deg1 !! ch = Some O)) as [Ez|Ez].
  - rewrite Hd1 in Ez. destruct (deg !! ch) as [n|] eqn:En; [|done]. simpl in Ez.
    rewrite decide_True in Ez by done. injection Ez as Ez. specialize (Hch n eq_refl).
    assert (n = 1 /\ occ ch chs = 0)%nat as [-> Hz] by lia.
    assert (ch ∉ fresh) as Hnf.
    { intros [Hin _]%Hf. apply occ_pos in Hin. lia. }
    exists (ch :: fresh). split; [by rewrite Hn, <- app_assoc|]. split; [by constructor|].
    intros i. rewrite !elem_of_cons, Hf, Hd1, occ_cons. destruct (decide (ch = i)) as [<-|Hne].
    + rewrite En, Hz. simpl. split; [intros _; split; [by left|done]|intros _; by left].
    + simpl. split.
      * intros [->|[Hin Hd]]; [done|]. split; [by right|]. by destruct (deg !! i).
      * intros [[->|Hin] Hd]; [done|]. right. rewrite Hd. done.
  - exists fresh. split; [done|]. split; [done|]. intros i. rewrite Hf, elem_of_cons, Hd1, occ_cons.
    destruct (decide (ch = i)) as [<-|Hne].
    + destruct (deg !! ch) as [n|] eqn:En; simpl.
      * specialize (Hch n eq_refl). rewrite Hd1, En in Ez. simpl in Ez. rewrite decide_True in Ez by done.
        split.
        -- intros [Hin [= Hd]]. split; [by left|]. f_equal. lia.
        -- intros [_ [= Hd]]. split; [|f_equal; lia]. apply occ_pos.
           destruct (occ ch chs); [|lia]. destruct Ez. f_equal. lia.
      * split; [by intros [_ ?]|by intros [_ ?]].
    + simpl. split.
      * intros [Hin Hd]. split; [by right|]. by destruct (deg !! i).
      * intros [[->|Hin] Hd]; [done|]. split; [done|]. rewrite Hd. done.
Qed.

Lemma release_app l1 l2 : forall deg next,
  release (l1 ++ l2) deg next = let '(deg, next) := release l1 deg next in release l2 deg next.
Proof. induction l1 as [|c l1 IH]; intros deg next; simpl; [done|]. apply IH. Qed.

Lemma release_all_concat children cur : forall deg next,
  release_all children cur deg next =
    release (concat ((fun d => default [] (children !! d)) <$> cur)) deg next.
Proof.
  induction cur as [|d cur IH]; intros deg next; simpl; [done|]. rewrite release_app.
  destruct (release (default [] (children !! d)) deg next). apply IH.
Qed.

Lemma outside_snoc P d ds : d ∉ P -> outside P ds = (outside (P ++ [d]) ds + occ d ds)%nat.
Proof.
  intros Hd. unfold outside. induction ds as [|x ds IH]; [done|].
  rewrite !filter_cons, occ_cons. destruct (decide (x = d)) as [->|Hne].
  - rewrite decide_True by done.
    rewrite decide_False by (intros Hn; apply Hn, elem_of_app; right; by left). simpl. lia.
  - destruct (decide (x ∉ P)) as [Hx|Hx].
    + rewrite decide_True; [simpl; lia|]. rewrite elem_of_app, list_elem_of_singleton. tauto.
    + rewrite decide_False; [simpl; lia|]. rewrite elem_of_app. tauto.
Qed.

Lemma outside_zero P ds : outside P ds = O <-> (forall d, d ∈ ds -> d ∈ P).
Proof.
  unfold outside. induction ds as [|x ds IH].
  - split; [intros _ d []%not_elem_of_nil|done].
  - rewrite filter_cons. destruct (decide (x ∉ P)) as [Hx|Hx]; simpl.
    + split; [done|]. intros H. destruct Hx. apply H. by left.
    + rewrite IH. split.
      * intros H d [->|Hd]%elem_of_cons; [by destruct (decide (x ∈ P))|by apply H].
      * intros H d Hd. apply H. by right.
Qed.

Section kahn.
(** [deps !! i]: the positions the node at [i] depends on; [children] is the
    transpose, with multiplicity. *)
Context (deps : list (list nat)) (children : list (list nat)).

Definition D (i : nat) : list nat := default [] (deps !! i).

Hypothesis transposed : forall d i, (d < length deps)%nat ->
  occ i (default [] (children !! d)) = occ d (D i).
Hypothesis deps_small : forall i d, d ∈ D i -> (d < length deps)%nat.

(** The loop invariant: [P] has been visited, [C] is the layer that is ready now,
    and the in-degrees count the dependencies still missing. *)
Record kahn (P C : list nat) (deg : list nat) : Prop := {
  k_len : length deg = length deps;
  k_nodup : NoDup (P ++ C);
  k_small : Forall (fun i => (i < length deps)%nat) (P ++ C);
  k_deg : forall i, (i < length deps)%nat -> deg !! i = Some (outside P (D i));
  k_ready : forall i, (i < length deps)%nat -> outside P (D i) = O <-> i ∈ P ++ C
}.

(** What the children of a layer count. *)
Lemma occ_released i C : Forall (fun d => (d < length deps)%nat) C -> forall P, NoDup (P ++ C) ->
  outside P (D i) = (outside (P ++ C) (D i) +
    occ i (concat ((fun d => default [] (children !! d)) <$> C)))%nat.
Proof.
  induction 1 as [|d C Hd _ IH]; intros P Hnd.
  - simpl. rewrite app_nil_r, occ_nil. lia.
  - rewrite fmap_cons. cbn [concat]. rewrite occ_app, transposed by done. rewrite (outside_snoc P d).
    + specialize (IH (P ++ [d])). rewrite <- app_assoc in IH. specialize (IH Hnd). cbn [app] in IH. lia.
    + rewrite <- Permutation_middle in Hnd. apply NoDup_cons in Hnd as [Hnd _].
      intros Hin. apply Hnd, elem_of_app. by left.
Qed.

Lemma kahn_step P C deg : kahn P C deg ->
  let '(deg', next) := release_all children C deg [] in kahn (P ++ C) next deg'.
Proof.
  intros [Hl Hnd Hsm Hdeg Hr]. rewrite release_all_concat.
  set (chs := concat _). pose proof (proj2 (proj1 (Forall_app _ _ _) Hsm)) as HsC.
  assert (Hout : forall i, outside P (D i) = (outside (P ++ C) (D i) + occ i chs)%nat)
    by (intros i; by apply occ_released).
  assert (Hlt : forall i, (i < length deps)%nat <-> is_Some (deg !! i))
    by (intros i; by rewrite lookup_lt_is_Some, Hl).
  pose proof (release_spec chs deg []) as Hrel. destruct (release chs deg []) as [deg' next].
  destruct Hrel as (Hl'&Hi&fresh&Hn&Hndf&Hf).
  { intros c n Hc. rewrite Hdeg in Hc by (apply Hlt; by exists n). injection Hc as <-.
    rewrite Hout. lia. }
  simpl in Hn. subst next.
  assert (Hfresh : forall i, i ∈ fresh <-> (i < length deps)%nat /\ (0 < occ i chs)%nat /\
    outside (P ++ C) (D i) = O).
  { intros i. rewrite Hf, occ_pos. split.
    - intros [Hp Hs]. assert (i < length deps)%nat as Hil by (apply Hlt; by eexists).
      split; [done|]. split; [done|]. rewrite Hdeg in Hs by done. injection Hs as Hs.
      specialize (Hout i). lia.
    - intros (Hil&Hp&Hz). split; [done|]. rewrite Hdeg by done. rewrite Hout. f_equal. lia. }
  split.
  - congruence.
  - apply NoDup_app. split; [done|]. split; [|done]. intros i Hin (Hil&Hp&_)%Hfresh.
    apply Hr in Hin; [|done]. specialize (Hout i). lia.
  - apply Forall_app. split; [done|]. apply Forall_forall. by intros i [? _]%Hfresh.
  - intros i Hil. rewrite Hi, Hdeg by done. simpl. f_equal. specialize (Hout i). lia.
  - intros i Hil. rewrite elem_of_app, Hfresh. specialize (Hout i). split.
    + intros Hz. destruct (decide (outside P (D i) = O)) as [Ez|Ez]; [left; by apply Hr|].
      right. split; [done|]. split; [lia|done].
    + intros [Hin|(_&_&Hz)]; [|done]. apply Hr in Hin; [|done]. lia.
Qed.

(** The layers visit each node once, after its dependencies, until no node is ready. *)
Lemma layers_loop_spec fuel : forall P C deg, kahn P C deg -> (length deps < fuel + length P)%nat ->
  let L := layers_loop fuel children C deg in
  NoDup (P ++ concat L) /\ Forall (fun i => (i < length deps)%nat) (P ++ concat L) /\
  (forall i, (i < length deps)%nat -> outside (P ++ concat L) (D i) = O -> i ∈ P ++ concat L) /\
  (forall k layer i d, L !! k = Some layer -> i ∈ layer -> d ∈ D i -> d ∈ P ++ concat (take k L)).
Proof.
  assert (Hbound : forall P C deg, kahn P C deg -> (length P + length C <= length deps)%nat).
  { intros P C deg [_ Hnd Hsm _ _]. rewrite <- length_app. rewrite <- (length_seq (length deps) 0).
    apply submseteq_length, NoDup_submseteq; [done|]. intros i Hi. apply elem_of_seq.
    rewrite Forall_forall in Hsm. specialize (Hsm i Hi). lia. }
  induction fuel as [|fuel IH]; intros P C deg Hk Hf; simpl.
  { pose proof (Hbound P C deg Hk). lia. }
  destruct C as [|c C0] eqn:EC.
  - destruct Hk as [_ Hnd Hsm _ Hr]. simpl. split; [done|]. split; [done|].
    split; [intros i Hi Hz; apply Hr; [done|]; by rewrite app_nil_r in Hz|done].
  - rewrite <- EC in *. pose proof (kahn_step P C deg Hk) as Hs.
    destruct (release_all children C deg []) as [deg' next].
    destruct (IH (P ++ C) next deg' Hs) as (Hnd&Hsm&Hr&Hlay).
    { rewrite length_app, EC. simpl. lia. }
    simpl. rewrite <- app_assoc in *. split; [done|]. split; [done|]. split; [done|].
    intros [|k] layer i d; simpl.
    + intros [= <-] Hi Hd. rewrite app_nil_r. destruct Hk as [_ _ Hsm' _ Hr'].
      rewrite Forall_forall in Hsm'.
      assert (outside P (D i) = O) as Hz.
      { apply Hr'; [apply Hsm'|]; apply elem_of_app; by right. }
      rewrite outside_zero in Hz. by apply Hz.
    + intros HL Hi Hd. rewrite app_assoc. by apply (Hlay k layer i d).
Qed.

(** Nodes left over depend on one another: no ranking puts each after its
    dependencies. *)
Lemma stuck_cycle V (rank : nat -> nat) :
  (forall i, (i < length deps)%nat -> outside V (D i) = O -> i ∈ V) ->
  (forall i d, (i < length deps)%nat -> d ∈ D i -> (rank d < rank i)%nat) ->
  forall i, (i < length deps)%nat -> i ∈ V.
Proof.
  intros Hstuck Hrank i. remember (rank i) as r eqn:Er. revert i Er.
  induction (lt_wf r) as [r _ IH]. intros i -> Hi. apply Hstuck; [done|].
  apply outside_zero. intros d Hd. apply (IH (rank d)); [by apply Hrank|done|by eapply deps_small].
Qed.

End kahn.

(** ** The tables the sort starts from *)

Lemma index_grows (index : gmap string nat) pre n i :
  (forall name, is_Some (index !! name) <-> name ∈ Name <$> pre) ->
  forall name, is_Some (<[Name n := i]> index !! name) <-> name ∈ Name <$> (pre ++ [n]).
Proof.
  intros Hpre name. rewrite fmap_app, elem_of_app. simpl. rewrite list_elem_of_singleton.
  rewrite lookup_insert_is_Some, Hpre. destruct (decide (Name n = name)); naive_solver.
Qed.

Lemma build_index_spec nodes : forall pre i index,
  (forall name, is_Some (index !! name) <-> name ∈ Name <$> pre) ->
  match build_index nodes i index with
  | Ok index' => (forall j n, nodes !! j = Some n -> index' !! Name n = Some (i + j)%nat) /\
      (forall name, name ∉ Name <$> nodes -> index' !! name = index !! name) /\
      Forall (fun n => index !! Name n = None) nodes
  | Err (EmptyName _) => exists n, n ∈ nodes /\ Name n = EmptyString
  | Err (Duplicate _) => ~ NoDup (Name <$> (pre ++ nodes))
  | Err _ => False
  end.
Proof.
  induction nodes as [|n nodes IH]; intros pre i index Hpre; simpl.
  { split; [by intros j n|]. split; [done|constructor]. }
  destruct (decide (Name n = EmptyString)) as [Hn|Hn]; [exists n; split; [by left|done]|].
  destruct (index !! Name n) as [k|] eqn:Hi.
  { rewrite fmap_app. intros (_&Hd&_)%NoDup_app. apply (Hd (Name n)); [|by left].
    apply Hpre. by exists k. }
  specialize (IH (pre ++ [n]) (S i) _ (index_grows index pre n i Hpre)).
  destruct (build_index nodes (S i) _) as [index'|[]]; try done.
  - destruct IH as (H1&H2&H3).
    assert (Hnot : Name n ∉ Name <$> nodes).
    { intros [m [Em Hm]]%list_elem_of_fmap. rewrite Forall_forall in H3. specialize (H3 m Hm).
      rewrite <- Em, lookup_insert_eq in H3. done. }
    split; [|split].
    + intros [|j] m; simpl.
      * intros [= <-]. rewrite H2 by done. rewrite lookup_insert_eq. f_equal. lia.
      * intros Hj. rewrite (H1 j m Hj). f_equal. lia.
    + intros name [Hne Hnm]%not_elem_of_cons. rewrite H2 by done. by rewrite lookup_insert_ne.
    + constructor; [done|]. rewrite Forall_forall in *. intros m Hm. specialize (H3 m Hm).
      by apply lookup_insert_None in H3 as [? _].
  - destruct IH as (m&Hm&Em). exists m. split; [by right|done].
  - by rewrite <- app_assoc in IH.
Qed.

Lemma add_deps_spec index node i ds : forall deg ch,
  match add_deps index node i ds deg ch with
  | Ok (deg', ch') => Forall (fun d => is_Some (index !! d)) ds /\
      length deg' = length deg /\ length ch' = length ch /\
      (forall j, deg' !! j = (fun m => if decide (j = i)
         then (m + length (omap (fun d => index !! d) ds))%nat else m) <$> deg !! j) /\
      (forall j d, (d < length ch)%nat -> occ j (default [] (ch' !! d)) =
         (occ j (default [] (ch !! d)) +
          if decide (j = i) then occ d (omap (fun d => index !! d) ds) else 0)%nat)
  | Err e => exists d, d ∈ ds /\ index !! d = None /\ e = Unknown node d
  end.
Proof.
  induction ds as [|d ds IH]; intros deg ch; cbn [add_deps].
  { split; [constructor|]. split; [done|]. split; [done|]. split.
    - intros j. destruct (deg !! j); simpl; [|done]. case_decide; f_equal; lia.
    - intros j x Hx. rewrite occ_nil. case_decide; lia. }
  destruct (index !! d) as [di|] eqn:Hd; [|exists d; split; [by left|done]].
  specialize (IH (alter S i deg) (alter (fun c => c ++ [i]) di ch)).
  destruct (add_deps index node i ds _ _) as [[deg' ch']|e].
  - destruct IH as (Hf&Hl1&Hl2&H1&H2). rewrite length_alter in Hl1. rewrite length_alter in Hl2.
    split; [constructor; [by eexists|done]|]. split; [done|]. split; [done|].
    assert (omap (fun d => index !! d) (d :: ds) = di :: omap (fun d => index !! d) ds) as ->
      by (simpl; by rewrite Hd). split.
    + intros j. rewrite H1. destruct (decide (j = i)) as [->|Hne].
      * rewrite list_lookup_alter_eq. destruct (deg !! i); simpl; [|done]. f_equal. lia.
      * rewrite list_lookup_alter_ne by done. by destruct (deg !! j).
    + intros j x Hx. rewrite H2 by (by rewrite length_alter). rewrite occ_cons.
      destruct (decide (di = x)) as [->|Hne].
      * rewrite list_lookup_alter_eq. destruct (lookup_lt_is_Some_2 ch x Hx) as [c Hc]. rewrite Hc.
        simpl. rewrite occ_snoc. destruct (decide (i = j)), (decide (j = i)); subst; try done; lia.
      * rewrite list_lookup_alter_ne by done. case_decide; lia.
  - destruct IH as (d'&Hin&?&?). exists d'. split; [by right|done].
Qed.

(** The dependencies of the node at [j], in a table that starts at [i]. *)
Definition from (i : nat) (t : list (list nat)) (j : nat) : list nat :=
  if decide (i <= j)%nat then default [] (t !! (j - i)%nat) else [].

Lemma from_cons i x t j : from i (x :: t) j = if decide (j = i) then x else from (S i) t j.
Proof.
  unfold from. destruct (decide (j = i)) as [->|Hne].
  - rewrite decide_True by done. by rewrite Nat.sub_diag.
  - destruct (decide (i <= j)%nat).
    + rewrite decide_True by lia. by replace (j - i)%nat with (S (j - S i)) by lia.
    + by rewrite decide_False by lia.
Qed.

Lemma from_before i t j : (j < i)%nat -> from i t j = [].
Proof. intros. unfold from. by rewrite decide_False by lia. Qed.

Lemma build_edges_spec index nodes : forall i deg ch,
  match build_edges index nodes i deg ch with
  | Ok (deg', ch') => Forall (fun n => Forall (fun d => is_Some (index !! d)) (DependsOn n)) nodes /\
      length deg' = length deg /\ length ch' = length ch /\
      (forall j, deg' !! j =
         (fun m => (m + length (from i (dep_index index <$> nodes) j))%nat) <$> deg !! j) /\
      (forall j d, (d < length ch)%nat -> occ j (default [] (ch' !! d)) =
         (occ j (default [] (ch !! d)) + occ d (from i (dep_index index <$> nodes) j))%nat)
  | Err e => exists n d, n ∈ nodes /\ d ∈ DependsOn n /\ index !! d = None /\ e = Unknown (Name n) d
  end.
Proof.
  induction nodes as [|n nodes IH]; intros i deg ch.
  { assert (Hnil : forall j, from i (dep_index index <$> []) j = [])
      by (intros j; unfold from; by case_decide).
    simpl. split; [constructor|]. split; [done|]. split; [done|]. split.
    - intros j. rewrite Hnil. destruct (deg !! j); simpl; [|done]. f_equal. lia.
    - intros j d Hd. rewrite Hnil, occ_nil. lia. }
  cbn [build_edges]. pose proof (add_deps_spec index (Name n) i (DependsOn n) deg ch) as Ha.
  destruct (add_deps index (Name n) i (DependsOn n) deg ch) as [[deg1 ch1]|e].
  - destruct Ha as (Hf&Hl1&Hl2&H1&H2). specialize (IH (S i) deg1 ch1).
    destruct (build_edges index nodes (S i) deg1 ch1) as [[deg' ch']|e].
    + destruct IH as (Hf'&Hl1'&Hl2'&H1'&H2'). split; [by constructor|].
      split; [congruence|]. split; [congruence|]. rewrite fmap_cons. split.
      * intros j. rewrite H1', H1, from_cons. destruct (deg !! j); simpl; [|done]. f_equal.
        destruct (decide (j = i)) as [->|]; [|done]. rewrite from_before by lia.
        unfold dep_index. simpl. lia.
      * intros j d Hd. rewrite H2' by (by rewrite Hl2). rewrite H2 by done. rewrite from_cons.
        destruct (decide (j = i)) as [->|]; [|lia]. rewrite from_before, occ_nil by lia.
        unfold dep_index. lia.
    + destruct IH as (m&d&Hm&?). exists m, d. split; [by right|done].
  - destruct Ha as (d&Hd&?&?). exists n, d. split; [by left|done].
Qed.

(** ** The sort *)

(** Layers that hold every node once, each after the nodes it depends on. *)
Definition valid_layers (nodes : list Node) (layers : list (list Node)) : Prop :=
  concat layers ≡ₚ nodes /\
  forall k layer n dep, layers !! k = Some layer -> n ∈ layer -> dep ∈ DependsOn n ->
    exists m, m ∈ concat (take k layers) /\ Name m = dep.

(** A ranking of the names that puts each node after its dependencies. *)
Definition ranked (nodes : list Node) (rank : string -> nat) : Prop :=
  forall n dep, n ∈ nodes -> dep ∈ DependsOn n -> (rank dep < rank (Name n))%nat.

Lemma outside_nil ds : outside [] ds = length ds.
Proof.
  unfold outside. induction ds as [|d ds IH]; [done|].
  rewrite filter_cons, decide_True by apply not_elem_of_nil. cbn [length]. by rewrite IH.
Qed.

Lemma omap_seq (nodes : list Node) : omap (fun i => nodes !! i) (seq 0 (length nodes)) = nodes.
Proof.
  assert (forall (pre l : list Node),
    omap (fun i => (pre ++ l) !! i) (seq (length pre) (length l)) = l) as H.
  { intros pre l. revert pre. induction l as [|x l IH]; intros pre; simpl; [done|].
    rewrite lookup_app_r, Nat.sub_diag by done. simpl. f_equal.
    specialize (IH (pre ++ [x])). rewrite length_app, <- app_assoc in IH. simpl in IH.
    by rewrite Nat.add_1_r in IH. }
  apply (H [] nodes).
Qed.

Lemma omap_concat (nodes : list Node) L :
  concat (layer_of nodes <$> L) = layer_of nodes (concat L).
Proof.
  unfold layer_of. induction L as [|l L IH]; [done|]. rewrite fmap_cons. cbn [concat].
  by rewrite omap_app, IH.
Qed.

Lemma elem_layer nodes l n : n ∈ layer_of nodes l <-> exists i, i ∈ l /\ nodes !! i = Some n.
Proof. unfold layer_of. rewrite list_elem_of_omap. done. Qed.

Lemma full_perm (l : list nat) n : NoDup l -> Forall (fun i => (i < n)%nat) l ->
  ~ (length l < n)%nat -> l ≡ₚ seq 0 n.
Proof.
  intros Hnd Hsm Hl. apply submseteq_length_Permutation.
  - apply NoDup_submseteq; [done|]. intros i Hi. rewrite elem_of_seq.
    rewrite Forall_forall in Hsm. specialize (Hsm i Hi). lia.
  - rewrite length_seq. lia.
Qed.

Section tables.
(** The tables of a graph without duplicate or unknown names. *)
Context (nodes : list Node) (index : gmap string nat).
Hypothesis index_pos : forall j n, nodes !! j = Some n -> index !! Name n = Some j.
Hypothesis index_dom : forall name, name ∉ Name <$> nodes -> index !! name = None.
Hypothesis known : Forall (fun n => Forall (fun d => is_Some (index !! d)) (DependsOn n)) nodes.

Definition deps : list (list nat) := dep_index index <$> nodes.

Lemma index_inv name d : index !! name = Some d -> exists n, nodes !! d = Some n /\ Name n = name.
Proof.
  intros Hi. destruct (decide (name ∈ Name <$> nodes)) as [Hin|Hn].
  - apply list_elem_of_fmap in Hin as [n [-> Hn]]. apply list_elem_of_lookup in Hn as [j Hj].
    exists n. rewrite (index_pos j n Hj) in Hi. by injection Hi as <-.
  - by rewrite index_dom in Hi.
Qed.

Lemma D_elem i n d : nodes !! i = Some n ->
  d ∈ D deps i <-> exists dep, dep ∈ DependsOn n /\ index !! dep = Some d.
Proof.
  intros Hn. unfold D, deps. rewrite list_lookup_fmap, Hn. simpl. unfold dep_index.
  by rewrite list_elem_of_omap.
Qed.

Lemma D_small i d : d ∈ D deps i -> (d < length deps)%nat.
Proof.
  destruct (nodes !! i) as [n|] eqn:Hn.
  - rewrite (D_elem i n d Hn). intros (dep&_&Hd). apply index_inv in Hd as (m&Hm&_).
    unfold deps. rewrite length_fmap. by apply lookup_lt_Some in Hm.
  - unfold D, deps. rewrite list_lookup_fmap, Hn. by intros ?%not_elem_of_nil.
Qed.

Lemma kahn_start deg : length deg = length deps ->
  (forall i, (i < length deps)%nat -> deg !! i = Some (length (D deps i))) ->
  kahn deps [] (initial deg) deg.
Proof.
  intros Hl Hd.
  assert (Hin : forall i, i ∈ initial deg <-> deg !! i = Some O).
  { intros i. unfold initial. rewrite list_elem_of_In, filter_In, bool_decide_eq_true, in_seq.
    split; [by intros [_ ?]|]. intros H. split; [|done]. apply lookup_lt_Some in H. lia. }
  split; simpl.
  - done.
  - unfold initial. apply NoDup_ListNoDup, List.NoDup_filter, List.seq_NoDup.
  - apply Forall_forall. intros i Hi%Hin. apply lookup_lt_Some in Hi. lia.
  - intros i Hi. by rewrite outside_nil, Hd.
  - intros i Hi. rewrite outside_nil, Hin, Hd by done. split; [by intros ->|by intros [= ->]].
Qed.

Lemma layers_sound deg children : length deg = length deps ->
  (forall i, (i < length deps)%nat -> deg !! i = Some (length (D deps i))) ->
  (forall d i, (d < length deps)%nat -> occ i (default [] (children !! d)) = occ d (D deps i)) ->
  let L := layers_loop (S (length nodes)) children (initial deg) deg in
  if decide (length (concat L) < length nodes)%nat then forall rank, ~ ranked nodes rank
  else valid_layers nodes (layer_of nodes <$> L).
Proof.
  intros Hl Hd Ht L. assert (length deps = length nodes) as Hlen by apply length_fmap.
  pose proof (layers_loop_spec deps children Ht (S (length nodes)) [] (initial deg) deg
    (kahn_start deg Hl Hd) ltac:(simpl; lia)) as (Hnd&Hsm&Hstuck&Hlay). fold L in Hnd, Hsm, Hstuck, Hlay.
  simpl in *. case_decide as Hc.
  - intros rank Hr.
    set (r := fun i => match nodes !! i with Some n => rank (Name n) | None => O end).
    assert (forall i, (i < length deps)%nat -> i ∈ concat L) as Hall.
    { apply (stuck_cycle deps D_small (concat L) r); [done|]. intros i d Hi Hdi.
      assert (is_Some (nodes !! i)) as [n Hn] by (apply lookup_lt_is_Some; lia).
      destruct (proj1 (D_elem i n d Hn) Hdi) as (dep&Hdep&Hix). apply index_inv in Hix as (m&Hm&Em).
      unfold r. rewrite Hn, Hm, Em. apply (Hr n dep); [by eapply list_elem_of_lookup_2|done]. }
    assert (length (seq 0 (length nodes)) <= length (concat L))%nat as Hle.
    { apply submseteq_length, NoDup_submseteq; [apply NoDup_seq|]. intros i Hi%elem_of_seq.
      apply Hall. lia. }
    rewrite length_seq in Hle. lia.
  - split.
    + rewrite omap_concat. rewrite Hlen in Hsm.
      pose proof (full_perm (concat L) (length nodes) Hnd Hsm Hc) as Hp. unfold layer_of.
      rewrite Hp. by rewrite omap_seq.
    + intros k layer n dep Hk Hn Hdep. rewrite list_lookup_fmap in Hk.
      destruct (L !! k) as [l|] eqn:Hkl; [|done]. injection Hk as <-.
      apply elem_layer in Hn as (i&Hi&Hn).
      assert (is_Some (index !! dep)) as [d Hix].
      { rewrite Forall_forall in known. specialize (known n ltac:(by eapply list_elem_of_lookup_2)).
        rewrite Forall_forall in known. by apply known. }
      pose proof (index_inv dep d Hix) as (m&Hm&Em). exists m. split; [|done].
      rewrite <- fmap_take, omap_concat. apply elem_layer. exists d. split; [|done].
      apply (Hlay k l i d Hkl Hi). apply (D_elem i n d Hn). by eexists.
Qed.
End tables.

(** ** What is well formed *)

(** No name is empty, and none is used twice; every dependency is a node. *)
Definition well_named (nodes : list Node) : Prop := Forall (fun n => Name n <> EmptyString) nodes /\ NoDup (Name <$> nodes).
Definition dependencies_known (nodes : list Node) : Prop :=
  forall n dep, n ∈ nodes -> dep ∈ DependsOn n -> dep ∈ Name <$> nodes.

Lemma build_index_names nodes : forall i index,
  match build_index nodes i index with
  | Ok _ => Forall (fun n => Name n <> EmptyString) nodes
  | Err (EmptyName k) => exists j n, k = (i + j)%nat /\ nodes !! j = Some n /\ Name n = EmptyString
  | Err (Duplicate name) => exists l n l', nodes = l ++ n :: l' /\ Name n = name /\ (name ∈ Name <$> l \/ is_Some (index !! name))
  | Err _ => False
  end.
Proof.
  induction nodes as [|n nodes IH]; intros i index; cbn [build_index]; [constructor|].
  destruct (decide (Name n = EmptyString)) as [Hn|Hn]; [exists 0%nat, n; split; [lia|done]|].
  destruct (index !! Name n) as [k|] eqn:Ei; [exists [], n, nodes; by eauto|].
  specialize (IH (S i) (<[Name n := i]> index)). destruct (build_index nodes (S i) _) as [index'|[k|name|? ?|]]; try done.
  - by constructor.
  - destruct IH as (j & m & -> & Hj & Hm). exists (S j), m. split; [lia|done].
  - destruct IH as (l & m & l' & -> & Hm & Hd). exists (n :: l), m, l'. split; [done|]. split; [done|].
    rewrite fmap_cons, elem_of_cons. destruct Hd as [Hd|Hd]; [by left; right|].
    apply lookup_insert_is_Some in Hd as [->|[_ Hd]]; [by left; left|by right].
Qed.

(** Valid layers rank the names by where they come. *)
Lemma valid_ranked nodes layers : NoDup (Name <$> nodes) -> valid_layers nodes layers -> exists rank, ranked nodes rank.
Proof.
  intros Hnd [Hp Hl]. set (pos := fun name => default O (fst <$> list_find (fun n => Name n = name) (concat layers))).
  assert (forall l l' n, concat layers = l ++ n :: l' -> pos (Name n) = length l) as Hpos.
  { intros l l' n Ec. unfold pos. rewrite (proj2 (list_find_Some (fun m => Name m = Name n) (concat layers) (length l) n)); [done|]. rewrite Ec. split; [by apply list_lookup_middle|]. split; [done|].
    intros j m Hj Hlt Hm. rewrite lookup_app_l in Hj by done. rewrite <- Hp, Ec, fmap_app, fmap_cons in Hnd. apply NoDup_app in Hnd as (_ & Hd & _). apply (Hd (Name m)); [|rewrite Hm; by left].
    apply list_elem_of_fmap. exists m. split; [done|]. by eapply list_elem_of_lookup_2. }
  exists pos. intros n dep Hn Hdep. rewrite <- Hp in Hn. apply list_elem_of_lookup in Hn as [i Hi].
  assert (exists k layer, layers !! k = Some layer /\ n ∈ layer) as (k & layer & Hk & Hin).
  { apply list_elem_of_lookup_2, list_elem_of_In, in_concat in Hi as (layer & Hla & Hx). apply list_elem_of_In, list_elem_of_lookup in Hla as [k Hk]. exists k, layer. by rewrite list_elem_of_In. }
  destruct (Hl k layer n dep Hk Hin Hdep) as (m & Hm & <-). apply list_elem_of_split in Hm as (a & b & Ea). apply list_elem_of_split in Hin as (c & d & ->).
  assert (concat layers = concat (take k layers) ++ (c ++ n :: d) ++ concat (drop (S k) layers)) as Ec.
  { rewrite <- (take_drop_middle layers k _ Hk) at 1. by rewrite concat_app. }
  rewrite (Hpos a (b ++ (c ++ n :: d) ++ concat (drop (S k) layers)) m) by (rewrite Ec, Ea, <- app_assoc; done).
  rewrite (Hpos (concat (take k layers) ++ c) (d ++ concat (drop (S k) layers)) n) by (rewrite Ec, <- !app_assoc; done).
  rewrite Ea, !length_app. cbn. lia.
Qed.

Lemma topoSort_spec nodes :
  match topoSort nodes with
  | Ok layers => valid_layers nodes layers /\ well_named nodes /\ dependencies_known nodes /\ exists rank, ranked nodes rank
  | Err (EmptyName i) => exists n, nodes !! i = Some n /\ Name n = EmptyString
  | Err (Duplicate name) => exists l n l', nodes = l ++ n :: l' /\ Name n = name /\ name ∈ Name <$> l
  | Err (Unknown node dep) => well_named nodes /\ exists n, n ∈ nodes /\ Name n = node /\ dep ∈ DependsOn n /\
      dep ∉ Name <$> nodes
  | Err CycleDetected => well_named nodes /\ dependencies_known nodes /\ forall rank, ~ ranked nodes rank
  end.
Proof.
  unfold topoSort, topo_indices.
  pose proof (build_index_spec nodes [] 0 ∅) as Hi. pose proof (build_index_names nodes 0 ∅) as Hw. destruct (build_index nodes 0 ∅) as [index|e].
  2: { destruct e as [i|name|? ?|]; try done; [by destruct Hw as (j & n & -> & ?); exists n|].
       destruct Hw as (l & n & l' & ? & ? & [?|Hs]); [by exists l, n, l'|]. rewrite lookup_empty in Hs. by destruct Hs. }
  destruct Hi as (Hpos&Hdom&_).
  { intros name. rewrite lookup_empty. split; [by intros [? ?]|by intros ?%not_elem_of_nil]. }
  setoid_rewrite lookup_empty in Hdom. simpl in Hpos.
  assert (well_named nodes) as Hwn.
  { split; [done|]. apply NoDup_alt. intros i j name. rewrite !list_lookup_fmap. intros (n & En & ->)%fmap_Some (m & Em & Ej)%fmap_Some.
    pose proof (Hpos i n En) as H1. rewrite Ej, (Hpos j m Em) in H1. congruence. }
  pose proof (build_edges_spec index nodes 0 (replicate (length nodes) O) (replicate (length nodes) [])) as He.
  destruct (build_edges index nodes 0 _ _) as [[deg children]|e].
  2: { destruct He as (n&d&Hn&Hd&Hx&->). split; [done|]. exists n. split; [done|]. split; [done|]. split; [done|].
       intros [m [-> Hm]]%list_elem_of_fmap. apply list_elem_of_lookup in Hm as [j Hj].
       by rewrite (Hpos j m Hj) in Hx. }
  destruct He as (Hknown&Hl1&Hl2&Hdeg&Hch). rewrite length_replicate in Hl1. rewrite length_replicate in Hl2.
  assert (dependencies_known nodes) as Hdk.
  { intros n dep Hn Hdep. rewrite Forall_forall in Hknown. specialize (Hknown n Hn). rewrite Forall_forall in Hknown. destruct (Hknown dep Hdep) as [d Hd].
    destruct (decide (dep ∈ Name <$> nodes)) as [|Hno]; [done|]. by rewrite (Hdom dep Hno) in Hd. }
  assert (length (deps nodes index) = length nodes) as Hlen by apply length_fmap.
  assert (Hfrom : forall i, from 0 (dep_index index <$> nodes) i = D (deps nodes index) i).
  { intros i. unfold from, D, deps. rewrite decide_True by lia. by rewrite Nat.sub_0_r. }
  assert (Hdeg' : forall i, (i < length (deps nodes index))%nat -> deg !! i = Some (length (D (deps nodes index) i))).
  { intros i Hil. rewrite Hdeg, lookup_replicate_2 by lia. simpl. by rewrite Hfrom. }
  assert (Hch' : forall d i, (d < length (deps nodes index))%nat -> occ i (default [] (children !! d)) = occ d (D (deps nodes index) i)).
  { intros d i Hd. rewrite Hch by (rewrite length_replicate; lia). rewrite lookup_replicate_2 by lia. simpl. by rewrite Hfrom. }
  pose proof (layers_sound nodes index Hpos Hdom Hknown deg children ltac:(congruence) Hdeg' Hch') as H.
  simpl in H |- *. case_decide; [done|]. split; [done|]. split; [done|]. split; [done|]. eapply valid_ranked; [apply Hwn|exact H].
Qed.

(** C4: the sort is sound and complete: it returns layers that hold every node
    exactly once, each after all the nodes it depends on, exactly when no name is empty or used twice, every
    dependency is a node and the graph has no cycle (some ranking puts every node after its dependencies); otherwise
    it reports, in this order, the position of an empty name or a name used before, a dependency that is no node, or a
    cycle, and what it names is there. *)
Theorem topoSort_correct nodes :
  match topoSort nodes with
  | Ok layers => valid_layers nodes layers /\ well_named nodes /\ dependencies_known nodes /\ exists rank, ranked nodes rank
  | Err (EmptyName i) => exists n, nodes !! i = Some n /\ Name n = EmptyString
  | Err (Duplicate name) => exists l n l', nodes = l ++ n :: l' /\ Name n = name /\ name ∈ Name <$> l
  | Err (Unknown node dep) => well_named nodes /\ exists n, n ∈ nodes /\ Name n = node /\ dep ∈ DependsOn n /\
      dep ∉ Name <$> nodes
  | Err CycleDetected => well_named nodes /\ dependencies_known nodes /\ forall rank, ~ ranked nodes rank
  end.
Proof. apply topoSort_spec. Qed.

End dag.

(** * Running the layers *)

Section run.
Context {W X : Type}.

Abbreviation node := (Node (R := callback W X)).

Inductive nErr :=
| Failed (name : string) (e : X)
| Panicked (name : string) (v : string)
| DagCanceled (e : X).

Definition execNode (ct : ctx W X) (n : node) (w : W) : W * option nErr :=
  match Run n with
  | None => (w, None)
  | Some f =>
      match f ct w with
      | (w, Ret None) => (w, None)
      | (w, Ret (Some e)) => (w, Some (Failed (Name n) e))
      | (w, Panic v) => (w, Some (Panicked (Name n) v))
      end
  end.

(** What ran, with its error, in the order it ran. *)
Abbreviation trace := (list (node * option nErr)).

(** The goroutines of a layer: each node's work is one step on the world, in an
    order the scheduler chooses; [errs] is indexed by position. *)
Fixpoint exec_in_order (ct : ctx W X) (layer : list node) (order : list nat) (w : W)
    : W * trace * gmap nat nErr :=
  match order with
  | [] => (w, [], ∅)
  | idx :: order =>
      match layer !! idx with
      | None => exec_in_order ct layer order w
      | Some n =>
          let '(w, r) := execNode ct n w in
          let '(w, tr, errs) := exec_in_order ct layer order w in
          (w, (n, r) :: tr, match r with Some e => <[idx := e]> errs | None => errs end)
      end
  end.

Definition runLayer (ct : ctx W X) (layer : list node) (order : list nat) (w : W)
    : W * trace * list nErr :=
  let '(w, tr, errs) := exec_in_order ct layer order w in
  (w, tr, omap (fun i => errs !! i) (seq 0 (length layer))).

(** [errors.Join]: nil for no error. *)
Definition join (l : list nErr) : option (list nErr) := match l with [] => None | _ => Some l end.

Fixpoint run_layers (st : Strategy) (ct : ctx W X) (layers : list (list node))
    (orders : list (list nat)) (collected : list nErr) (w : W)
    : W * trace * option (list nErr) :=
  match layers, orders with
  | layer :: layers, order :: orders =>
      match ct w with
      | Some e => (w, [], join (collected ++ [DagCanceled e]))
      | None =>
          let '(w, tr, errs) := runLayer ct layer order w in
          match st, errs with
          | FailFast, _ :: _ => (w, tr, join (collected ++ errs))
          | _, _ =>
              let '(w, tr', r) := run_layers st ct layers orders (collected ++ errs) w in
              (w, tr ++ tr', r)
          end
      end
  | _, _ => (w, [], join collected)
  end.

Definition RunDAG (st : Strategy) (nodes : list node) (ct : ctx W X) (orders : list (list nat))
    (w : W) : W * trace * result dErr (option (list nErr)) :=
  match topoSort nodes with
  | Err e => (w, [], Err e)
  | Ok layers => let '(w, tr, r) := run_layers st ct layers orders [] w in (w, tr, Ok r)
  end.

(** The nodes before [p] in a trace that [n] waits for. *)
Definition waited (st : Strategy) (tr : trace) (n : node) : Prop :=
  forall dep, dep ∈ DependsOn n -> exists m r, (m, r) ∈ tr /\ Name m = dep /\
    (st = FailFast -> r = None).

Definition orderly (st : Strategy) (tr : trace) : Prop :=
  forall p n r, tr !! p = Some (n, r) -> waited st (take p tr) n.

Lemma exec_in_order_trace ct layer order : forall w, NoDup order ->
  let '(_, tr, errs) := exec_in_order ct layer order w in
  tr.*1 = omap (fun i => layer !! i) order /\
  (errs = ∅ -> Forall (fun p => p.2 = None) tr) /\
  (forall i, is_Some (errs !! i) -> i ∈ order /\ is_Some (layer !! i)).
Proof.
  induction order as [|idx order IH]; intros w Hnd; simpl.
  { split; [done|]. split; [constructor|]. intros i. rewrite lookup_empty. by intros [? ?]. }
  apply NoDup_cons in Hnd as [Hn Hnd]. destruct (layer !! idx) as [n|] eqn:Hl.
  - destruct (execNode ct n w) as [w1 r]. specialize (IH w1 Hnd).
    destruct (exec_in_order ct layer order w1) as [[w2 tr] errs]. destruct IH as (H1&H2&H3).
    simpl. split; [by f_equal|]. split.
    + destruct r as [e|].
      * intros He. by apply insert_non_empty in He.
      * intros He. constructor; [done|by apply H2].
    + intros i Hi. destruct r as [e|].
      * apply lookup_insert_is_Some in Hi as [<-|[_ Hi]]; [split; [by left|by eexists]|].
        destruct (H3 i Hi). split; [by right|done].
      * destruct (H3 i Hi). split; [by right|done].
  - specialize (IH w Hnd). destruct (exec_in_order ct layer order w) as [[w2 tr] errs].
    destruct IH as (H1&H2&H3). split; [done|]. split; [done|].
    intros i Hi. destruct (H3 i Hi). split; [by right|done].
Qed.

Lemma runLayer_trace ct layer order w : order ≡ₚ seq 0 (length layer) ->
  let '(_, tr, errs) := runLayer ct layer order w in
  tr.*1 ≡ₚ layer /\ (errs = [] -> Forall (fun p => p.2 = None) tr).
Proof.
  intros Hp. unfold runLayer.
  pose proof (exec_in_order_trace ct layer order w ltac:(rewrite Hp; apply NoDup_seq)) as H.
  destruct (exec_in_order ct layer order w) as [[w2 tr] errs]. destruct H as (H1&H2&H3).
  rewrite H1, Hp. split; [by rewrite omap_seq|]. intros He. apply H2.
  apply map_empty. intros i. destruct (errs !! i) as [e|] eqn:Hi; [|done].
  destruct (H3 i ltac:(by eexists)) as [Ho _]. rewrite Hp in Ho.
  assert (e ∈ omap (fun i => errs !! i) (seq 0 (length layer))) as Hin
    by (apply list_elem_of_omap; by exists i). rewrite He in Hin. by apply not_elem_of_nil in Hin.
Qed.

Lemma orderly_app st tr1 tr2 : orderly st tr1 -> Forall (fun p => waited st tr1 p.1) tr2 ->
  orderly st (tr1 ++ tr2).
Proof.
  intros H1 H2 p n r Hp. destruct (decide (p < length tr1)%nat) as [Hlt|Hge].
  - rewrite lookup_app_l in Hp by done. rewrite take_app_le by lia. by apply (H1 p n r).
  - rewrite lookup_app_r in Hp by lia. rewrite take_app_ge by lia.
    apply (Forall_lookup_1 _ _ _ _ H2) in Hp. intros dep Hd. destruct (Hp dep Hd) as (m&r'&Hin&?).
    exists m, r'. split; [|done]. apply elem_of_app. by left.
Qed.

Lemma run_layers_orderly st ct all : forall layers pre orders collected T w,
  (forall k layer n dep, all !! k = Some layer -> n ∈ layer -> dep ∈ DependsOn n ->
     exists m : node, m ∈ concat (take k all) /\ Name m = dep) ->
  all = pre ++ layers -> T.*1 ≡ₚ concat pre -> (st = FailFast -> Forall (fun p => p.2 = None) T) ->
  orderly st T -> Forall2 (fun o (l : list node) => o ≡ₚ seq 0 (length l)) orders layers ->
  let '(_, tr, _) := run_layers st ct layers orders collected w in orderly st (T ++ tr).
Proof.
  intros layers. induction layers as [|layer layers IH];
    intros pre orders collected T w Hall Hsplit HT Hnone Ho Hord; inversion Hord; subst; simpl;
    [by rewrite app_nil_r|].
  destruct (ct w); [by rewrite app_nil_r|].
  match goal with H : ?o ≡ₚ seq 0 (length layer) |- _ =>
    pose proof (runLayer_trace ct layer o w H) as Hl end.
  destruct (runLayer ct layer _ w) as [[w1 tr] errs]. destruct Hl as [Hl1 Hl2].
  assert (orderly st (T ++ tr)) as Ho'.
  { apply orderly_app; [done|]. apply Forall_forall. intros [n r] Hin dep Hdep. simpl in Hdep.
    assert (n ∈ layer) as Hn by (rewrite <- Hl1; by apply (list_elem_of_fmap_2 fst tr (n, r))).
    destruct (Hall (length pre) layer n dep) as (m&Hm&Em); [by apply list_lookup_middle|done|done|].
    rewrite take_app_length, <- HT in Hm. apply list_elem_of_fmap in Hm as [[m' r'] [-> Hm]].
    exists m', r'. split; [done|]. split; [done|]. intros Hst. specialize (Hnone Hst).
    rewrite Forall_forall in Hnone. by apply (Hnone _ Hm). }
  assert (Hrec : (st = FailFast -> errs = []) ->
    let '(_, tr', _) := run_layers st ct layers l (collected ++ errs) w1 in orderly st (T ++ tr ++ tr')).
  { intros He. specialize (IH (pre ++ [layer]) l (collected ++ errs) (T ++ tr) w1 Hall).
    destruct (run_layers st ct layers l (collected ++ errs) w1) as [[w2 tr'] r].
    rewrite app_assoc. apply IH; try done.
    - by rewrite <- app_assoc.
    - rewrite fmap_app, concat_app, HT, Hl1. simpl. by rewrite app_nil_r.
    - intros Hst. apply Forall_app. split; [by apply Hnone|by apply Hl2, He]. }
  destruct st, errs as [|e errs]; try done;
    (destruct (run_layers _ ct layers l _ w1) as [[w2 tr'] r] eqn:Er; apply Hrec; done).
Qed.

(** No node runs before its dependencies: whatever order the goroutines of each
    layer take, every node that ran was preceded by all the nodes it depends on,
    and with [FailFast] all of these had succeeded. *)
Theorem dag_run_order st nodes ct orders w layers : topoSort nodes = Ok layers ->
  Forall2 (fun o (l : list node) => o ≡ₚ seq 0 (length l)) orders layers ->
  orderly st (RunDAG st nodes ct orders w).1.2.
Proof.
  intros Hs Ho. pose proof (topoSort_spec nodes) as Hv. rewrite Hs in Hv. destruct Hv as [[_ Hdeps] _].
  unfold RunDAG. rewrite Hs.
  pose proof (run_layers_orderly st ct layers layers [] orders [] [] w Hdeps eq_refl) as H.
  destruct (run_layers st ct layers orders [] w) as [[w' tr] r]. simpl in *.
  apply H; try done; try (by intros; constructor).
Qed.

End run.

(** Two nodes, the second after the first, which fails. *)
Definition sample : list (Node (R := callback Z string)) :=
  [MkNode "b" ["a"%string] (Some (fun _ w => ((w + 10)%Z, Ret None)));
   MkNode "a" [] (Some (fun _ w => ((w + 1)%Z, Ret (Some "no"%string))))].

Lemma dag_run_order_witness :
  orderly FailFast (RunDAG FailFast sample (fun _ => None) [[0]; [0]]%nat 0%Z).1.2 /\
  (RunDAG FailFast sample (fun _ => None) [[0]; [0]]%nat 0%Z).1.1 = 1%Z.
Proof.
  split; [|vm_compute; reflexivity].
  eapply dag_run_order; [vm_compute; reflexivity|]. repeat constructor.
Defined.
