(* ===== verification/Bitmap.v ===== *)
(** The bitmap ([pkg/foundation/bitmap/bitmap.go]): words of 64 bits, read as a set
    of nonnegative integers. *)
From Stdlib Require Import ZArith Lia Bool Sorted.
From stdpp Require Import base numbers strings list sets.
From S2P Require Import Prelude.

Open Scope Z_scope.

(** [b.words]: values of [uint64]. *)
Abbreviation Bitmap := (list Z).

Definition New (n : Z) : Bitmap :=
  let n := if n <? 0 then 0 else n in replicate (Z.to_nat (Z.quot (n + 63) 64)) 0.

Definition grow (i : Z) (b : Bitmap) : Bitmap :=
  let need := Z.quot i 64 + 1 in
  if Z.of_nat (length b) <? need
  then b ++ replicate (Z.to_nat (need - Z.of_nat (length b))) 0 else b.

(** [i/64], and [1 << (uint(i) % 64)]. *)
Definition word (i : Z) : nat := Z.to_nat (Z.quot i 64).
Definition mask (i : Z) : Z := wrapu64 (Z.shiftl 1 (Z.rem i 64)).

Definition Set_ (i : Z) (b : Bitmap) : Bitmap :=
  if i <? 0 then b else alter (fun w => Z.lor w (mask i)) (word i) (grow i b).

Definition Clear (i : Z) (b : Bitmap) : Bitmap :=
  if (i <? 0) || (Z.of_nat (length b) <=? Z.quot i 64) then b
  else alter (fun w => Z.ldiff w (mask i)) (word i) b.

Definition Test (i : Z) (b : Bitmap) : bool :=
  if (i <? 0) || (Z.of_nat (length b) <=? Z.quot i 64) then false
  else negb (Z.land (default 0 (b !! word i)) (mask i) =? 0).

Definition Flip (i : Z) (b : Bitmap) : Bitmap * bool :=
  if i <? 0 then (b, false)
  else let b := alter (fun w => Z.lxor w (mask i)) (word i) (grow i b) in (b, Test i b).

(** The library's [bits.OnesCount64] and [bits.TrailingZeros64]. *)
Definition OnesCount64 (w : Z) : Z :=
  Z.of_nat (length (List.filter (fun k => Z.testbit w k) (seqZ 0 64))).
Definition TrailingZeros64 (w : Z) : Z :=
  match List.find (fun k => Z.testbit w k) (seqZ 0 64) with Some k => k | None => 64 end.

Definition Count (b : Bitmap) : Z := foldl (fun n w => n + OnesCount64 w) 0 b.

Definition And (b other : Bitmap) : Bitmap :=
  imap (fun i w => match other !! i with Some o => Z.land w o | None => 0 end) b.

Definition Or (b other : Bitmap) : Bitmap :=
  let b := if Z.of_nat (length b) <? Z.of_nat (length other)
           then grow (Z.of_nat (length other) * 64 - 1) b else b in
  imap (fun i w => match other !! i with Some o => Z.lor w o | None => w end) b.

Definition AndNot (b other : Bitmap) : Bitmap :=
  imap (fun i w => match other !! i with Some o => Z.ldiff w o | None => w end) b.

(** The inner loop of [Slice]: each turn clears one of at most 64 bits. *)
Fixpoint bits_loop (fuel : nat) (wi w : Z) : list Z :=
  match fuel with
  | O => []
  | S fuel =>
      if w =? 0 then []
      else (wi * 64 + TrailingZeros64 w) :: bits_loop fuel wi (Z.land w (wrapu64 (w - 1)))
  end.

Fixpoint slice_from (wi : Z) (b : Bitmap) : list Z :=
  match b with
  | [] => []
  | w :: b => bits_loop 65 wi w ++ slice_from (wi + 1) b
  end.
Definition Slice (b : Bitmap) : list Z := slice_from 0 b.

Definition Clone (b : Bitmap) : Bitmap := b.
Definition Reset (b : Bitmap) : Bitmap := (fun _ => 0) <$> b.

(** From the last day back. *)
Fixpoint consecutive (rdays : list Bitmap) (uid n : Z) : Z :=
  match rdays with
  | [] => n
  | d :: rdays => if Test uid d then consecutive rdays uid (n + 1) else n
  end.
Definition ConsecutiveFromEnd (days : list Bitmap) (uid : Z) : Z := consecutive (rev days) uid 0.

(** * Bitmaps as sets *)

Definition wf (b : Bitmap) : Prop := Forall uint64 b.

(** Bit [i] of the words. *)
Definition bit (b : Bitmap) (i : Z) : bool :=
  (0 <=? i) && Z.testbit (default 0 (b !! Z.to_nat (i / 64))) (i mod 64).

Lemma mask_pow i : 0 <= i -> mask i = 2 ^ (i mod 64).
Proof.
  intros Hi. unfold mask. rewrite Z.rem_mod_nonneg by lia. rewrite Z.shiftl_1_l.
  pose proof (Z.mod_pos_bound i 64). apply wrapu64_id. unfold uint64. split; [lia|].
  apply Z.pow_lt_mono_r; lia.
Qed.

Lemma word_div i : 0 <= i -> word i = Z.to_nat (i / 64).
Proof. intros. unfold word. by rewrite Z.quot_div_nonneg by lia. Qed.

Lemma testbit_mask i k : 0 <= i -> 0 <= k -> Z.testbit (mask i) k = (i mod 64 =? k).
Proof.
  intros Hi Hk. rewrite mask_pow by done. pose proof (Z.mod_pos_bound i 64).
  apply Z.pow2_bits_eqb. lia.
Qed.

Lemma land_mask w i : 0 <= i -> negb (Z.land w (mask i) =? 0) = Z.testbit w (i mod 64).
Proof.
  intros Hi. pose proof (Z.mod_pos_bound i 64 ltac:(lia)).
  destruct (Z.eqb_spec (Z.land w (mask i)) 0) as [E|E]; simpl.
  - destruct (Z.testbit w (i mod 64)) eqn:Hb; [|done].
    assert (Z.testbit (Z.land w (mask i)) (i mod 64) = true) as Ht.
    { rewrite Z.land_spec, Hb, testbit_mask, Z.eqb_refl by lia. done. }
    by rewrite E, Z.bits_0 in Ht.
  - destruct (Z.testbit w (i mod 64)) eqn:Hb; [done|]. destruct E.
    apply Z.bits_inj'. intros k Hk. rewrite Z.land_spec, testbit_mask, Z.bits_0 by lia.
    destruct (Z.eqb_spec (i mod 64) k) as [<-|]; [by rewrite Hb|by rewrite andb_false_r].
Qed.

Lemma Test_bit i b : Test i b = bit b i.
Proof.
  unfold Test, bit. destruct (Z.ltb_spec i 0); simpl.
  { by rewrite (proj2 (Z.leb_gt 0 i)) by lia. }
  rewrite (proj2 (Z.leb_le 0 i)) by lia. simpl. rewrite Z.quot_div_nonneg by lia.
  destruct (Z.leb_spec (Z.of_nat (length b)) (i / 64)).
  - rewrite lookup_ge_None_2 by lia. simpl. by rewrite Z.bits_0.
  - rewrite land_mask by done. by rewrite word_div.
Qed.

(** Growing adds no bit. *)
Lemma grow_lookup i b k : default 0 (grow i b !! k) = default 0 (b !! k).
Proof.
  unfold grow. destruct (Z.ltb_spec (Z.of_nat (length b)) (Z.quot i 64 + 1)); [|done].
  destruct (decide (k < length b)%nat).
  - by rewrite lookup_app_l.
  - rewrite lookup_app_r by lia. rewrite (lookup_ge_None_2 b k) by lia.
    destruct (replicate _ _ !! _) as [x|] eqn:Hx; [|done]. apply lookup_replicate in Hx as [-> _]. done.
Qed.

Lemma grow_length i b : 0 <= i -> (word i < length (grow i b))%nat.
Proof.
  intros Hi. unfold word, grow. pose proof (Z.quot_pos i 64 Hi ltac:(lia)).
  destruct (Z.ltb_spec (Z.of_nat (length b)) (Z.quot i 64 + 1)); [|lia].
  rewrite length_app, length_replicate. lia.
Qed.

Lemma grow_wf i b : wf b -> wf (grow i b).
Proof.
  intros Hw. unfold grow. case_match; [|done]. apply Forall_app. split; [done|].
  apply Forall_replicate. unfold uint64. lia.
Qed.

(** A bitwise operation on one word. *)
Lemma bit_alter f (g : bool -> bool -> bool) i b j : 0 <= i -> (word i < length b)%nat ->
  (forall w k, 0 <= k -> Z.testbit (f w) k = g (Z.testbit w k) (i mod 64 =? k)) ->
  (forall x, g x false = x) ->
  bit (alter f (word i) b) j = if decide (i = j) then g (bit b j) true else bit b j.
Proof.
  intros Hi Hlt Hf Hg. unfold bit. destruct (Z.leb_spec 0 j) as [Hj|Hj]; simpl.
  - pose proof (Z.mod_pos_bound j 64 ltac:(lia)). rewrite word_div in * by done.
    destruct (decide (Z.to_nat (i / 64) = Z.to_nat (j / 64))) as [E|E].
    + rewrite E in *. rewrite list_lookup_alter_eq.
      destruct (lookup_lt_is_Some_2 b (Z.to_nat (j / 64)) Hlt) as [w Hw]. rewrite Hw. simpl.
      rewrite Hf by lia. pose proof (Z.div_mod i 64 ltac:(lia)). pose proof (Z.div_mod j 64 ltac:(lia)).
      pose proof (Z.div_pos i 64 Hi ltac:(lia)). pose proof (Z.div_pos j 64 Hj ltac:(lia)).
      destruct (decide (i = j)) as [->|Hne]; [by rewrite Z.eqb_refl|].
      rewrite (proj2 (Z.eqb_neq _ _)); [apply Hg|lia].
    + rewrite list_lookup_alter_ne by done. rewrite decide_False; [done|]. congruence.
  - rewrite decide_False by lia. done.
Qed.

Lemma bit_grow i b j : bit (grow i b) j = bit b j.
Proof. unfold bit. by rewrite grow_lookup. Qed.

Lemma alter_wf f i b : wf b -> (forall w, uint64 w -> uint64 (f w)) -> wf (alter f i b).
Proof.
  intros Hw Hf. apply Forall_lookup. intros k x. destruct (decide (i = k)) as [->|Hne].
  - rewrite list_lookup_alter_eq. destruct (b !! k) as [w|] eqn:E; [|done]. intros [= <-].
    apply Hf. by apply (Forall_lookup_1 _ _ _ _ Hw E).
  - rewrite list_lookup_alter_ne by done. by apply Forall_lookup_1.
Qed.

(** [uint64] is closed under the bitwise operations. *)
Lemma uint64_bits w : uint64 w <-> 0 <= w /\ forall k, 64 <= k -> Z.testbit w k = false.
Proof.
  unfold uint64. split.
  - intros [H0 Hlt]. split; [done|]. intros k Hk.
    rewrite <- (Z.mod_small w (2 ^ 64)) by done. apply Z.mod_pow2_bits_high. lia.
  - intros [H0 Hb]. split; [done|]. destruct (decide (w = 0)) as [->|Hne]; [lia|].
    destruct (Z_lt_le_dec w (2 ^ 64)) as [|Hge]; [done|].
    assert (64 <= Z.log2 w) as Hl by (apply Z.log2_le_pow2; lia).
    specialize (Hb (Z.log2 w) Hl). rewrite Z.bit_log2 in Hb by lia. done.
Qed.

Lemma uint64_op (op : Z -> Z -> Z) (f : bool -> bool -> bool) x y :
  (forall a b k, 0 <= k -> Z.testbit (op a b) k = f (Z.testbit a k) (Z.testbit b k)) ->
  (forall a b, 0 <= a -> 0 <= b -> 0 <= op a b) -> f false false = false ->
  uint64 x -> uint64 y -> uint64 (op x y).
Proof.
  intros Hop Hpos Hf [Hx0 Hx]%uint64_bits [Hy0 Hy]%uint64_bits. apply uint64_bits.
  split; [by apply Hpos|]. intros k Hk. by rewrite Hop, Hx, Hy by lia.
Qed.

Lemma mask_uint64 i : uint64 (mask i).
Proof. apply wrapu64_range. Qed.

Lemma uint64_land x y : uint64 x -> uint64 y -> uint64 (Z.land x y).
Proof.
  apply (uint64_op _ andb); [intros; apply Z.land_spec|intros; apply Z.land_nonneg; by left|done].
Qed.
Lemma uint64_lor x y : uint64 x -> uint64 y -> uint64 (Z.lor x y).
Proof.
  apply (uint64_op _ orb); [intros; apply Z.lor_spec|intros; by apply Z.lor_nonneg|done].
Qed.
Lemma uint64_lxor x y : uint64 x -> uint64 y -> uint64 (Z.lxor x y).
Proof.
  apply (uint64_op _ xorb); [intros; apply Z.lxor_spec|intros; by apply Z.lxor_nonneg|done].
Qed.
Lemma uint64_ldiff x y : uint64 x -> uint64 y -> uint64 (Z.ldiff x y).
Proof.
  apply (uint64_op _ (fun a b => a && negb b)); [intros; by apply Z.ldiff_spec| |done].
  intros. apply Z.ldiff_nonneg. by left.
Qed.
#[local] Hint Resolve mask_uint64 uint64_land uint64_lor uint64_lxor uint64_ldiff : core.

(** A word-by-word operation. *)
Lemma bit_imap (f : nat -> Z -> Z) b j (r : bool) : 0 <= j ->
  (forall w, b !! Z.to_nat (j / 64) = Some w -> Z.testbit (f (Z.to_nat (j / 64)) w) (j mod 64) = r) ->
  (b !! Z.to_nat (j / 64) = None -> r = false) -> bit (imap f b) j = r.
Proof.
  intros Hj Hs Hn. unfold bit. rewrite (proj2 (Z.leb_le 0 j)) by done. simpl.
  rewrite list_lookup_imap. destruct (b !! Z.to_nat (j / 64)) as [w|]; simpl.
  - by apply Hs.
  - rewrite Z.bits_0. symmetry. by apply Hn.
Qed.

Lemma imap_wf f b : wf b -> (forall i w, uint64 w -> uint64 (f i w)) -> wf (imap f b).
Proof.
  intros Hw Hf. apply Forall_lookup. intros k x. rewrite list_lookup_imap.
  destruct (b !! k) as [w|] eqn:E; [|done]. intros [= <-]. apply Hf.
  by apply (Forall_lookup_1 _ _ _ _ Hw E).
Qed.

Lemma bit_neg b j : j < 0 -> bit b j = false.
Proof. intros. unfold bit. by rewrite (proj2 (Z.leb_gt 0 j)) by lia. Qed.

Lemma bit_lookup b j : 0 <= j -> bit b j = Z.testbit (default 0 (b !! Z.to_nat (j / 64))) (j mod 64).
Proof. intros. unfold bit. by rewrite (proj2 (Z.leb_le 0 j)) by lia. Qed.

(** ** The set operations *)

Lemma Set_bit i b j : bit (Set_ i b) j = ((0 <=? i) && bool_decide (i = j)) || bit b j.
Proof.
  unfold Set_. destruct (Z.ltb_spec i 0).
  { by rewrite (proj2 (Z.leb_gt 0 i)) by lia. }
  rewrite (proj2 (Z.leb_le 0 i)) by lia. simpl.
  rewrite (bit_alter _ orb), bit_grow; [| lia |by apply grow_length| |apply orb_false_r].
  - destruct (decide (i = j)); [rewrite bool_decide_true by done; by rewrite orb_true_r|].
    by rewrite bool_decide_false.
  - intros w k Hk. by rewrite Z.lor_spec, testbit_mask by lia.
Qed.

Lemma Clear_bit i b j : bit (Clear i b) j = bit b j && negb (bool_decide (i = j)).
Proof.
  unfold Clear. destruct (Z.ltb_spec i 0); simpl.
  { destruct (bool_decide_reflect (i = j)) as [<-|]; [|by rewrite andb_true_r].
    by rewrite bit_neg by lia. }
  rewrite Z.quot_div_nonneg by lia. destruct (Z.leb_spec (Z.of_nat (length b)) (i / 64)).
  { destruct (bool_decide_reflect (i = j)) as [<-|]; [|by rewrite andb_true_r].
    rewrite bit_lookup, lookup_ge_None_2 by lia. simpl. by rewrite Z.bits_0. }
  rewrite (bit_alter _ (fun x y => x && negb y)); [| lia |rewrite word_div by lia; pose proof (Z.div_pos i 64); lia| |intros; apply andb_true_r].
  - destruct (decide (i = j)); [rewrite bool_decide_true by done; done|].
    rewrite bool_decide_false by done. by rewrite andb_true_r.
  - intros w k Hk. by rewrite Z.ldiff_spec, testbit_mask by lia.
Qed.

Lemma Flip_bit i b j : bit (Flip i b).1 j = xorb (bit b j) ((0 <=? i) && bool_decide (i = j)).
Proof.
  unfold Flip. destruct (Z.ltb_spec i 0); simpl.
  { rewrite (proj2 (Z.leb_gt 0 i)) by lia. by rewrite xorb_false_r. }
  rewrite (proj2 (Z.leb_le 0 i)) by lia. simpl.
  rewrite (bit_alter _ xorb), bit_grow; [| lia |by apply grow_length| |apply xorb_false_r].
  - destruct (decide (i = j)); [by rewrite bool_decide_true|].
    rewrite bool_decide_false by done. by rewrite xorb_false_r.
  - intros w k Hk. by rewrite Z.lxor_spec, testbit_mask by lia.
Qed.

Lemma Flip_snd i b : (Flip i b).2 = (0 <=? i) && negb (bit b i).
Proof.
  pose proof (Flip_bit i b i) as H. unfold Flip in *. destruct (Z.ltb_spec i 0); simpl in *.
  { by rewrite (proj2 (Z.leb_gt 0 i)) by lia. }
  rewrite (proj2 (Z.leb_le 0 i)) in * by lia. rewrite Test_bit, H, bool_decide_true by done.
  by rewrite xorb_true_r.
Qed.

Lemma And_bit a b j : bit (And a b) j = bit a j && bit b j.
Proof.
  destruct (Z_lt_le_dec j 0); [by rewrite !bit_neg|]. apply bit_imap; [done| |].
  - intros w Hw. rewrite !bit_lookup, Hw by done. simpl.
    destruct (b !! _) as [o|]; simpl; [apply Z.land_spec|]. by rewrite Z.bits_0, andb_false_r.
  - intros Hn. rewrite bit_lookup, Hn by done. simpl. by rewrite Z.bits_0.
Qed.

Lemma AndNot_bit a b j : bit (AndNot a b) j = bit a j && negb (bit b j).
Proof.
  destruct (Z_lt_le_dec j 0); [by rewrite !bit_neg|]. apply bit_imap; [done| |].
  - intros w Hw. rewrite !bit_lookup, Hw by done. simpl. pose proof (Z.mod_pos_bound j 64).
    destruct (b !! _) as [o|]; simpl; [apply Z.ldiff_spec; lia|]. by rewrite Z.bits_0, andb_true_r.
  - intros Hn. rewrite bit_lookup, Hn by done. simpl. by rewrite Z.bits_0.
Qed.

Lemma Or_bit a b j : bit (Or a b) j = bit a j || bit b j.
Proof.
  destruct (Z_lt_le_dec j 0); [by rewrite !bit_neg|]. unfold Or.
  set (a' := if _ : bool then _ else _).
  assert (Ha : bit a' j = bit a j) by (unfold a'; case_match; [apply bit_grow|done]).
  assert (Hlen : (length b <= length a')%nat).
  { unfold a', grow. destruct (Z.ltb_spec (Z.of_nat (length a)) (Z.of_nat (length b))); [|lia].
    assert (Z.quot (Z.of_nat (length b) * 64 - 1) 64 + 1 = Z.of_nat (length b)) as ->.
    { rewrite Z.quot_div_nonneg by lia.
      rewrite <- (Z.div_unique (Z.of_nat (length b) * 64 - 1) 64 (Z.of_nat (length b) - 1) 63); lia. }
    destruct (Z.ltb_spec (Z.of_nat (length a)) (Z.of_nat (length b))); [|lia].
    rewrite length_app, length_replicate. lia. }
  rewrite <- Ha. apply bit_imap; [done| |].
  - intros w Hw. rewrite !bit_lookup, Hw by done. simpl.
    destruct (b !! _) as [o|]; simpl; [apply Z.lor_spec|]. by rewrite Z.bits_0, orb_false_r.
  - intros Hn. rewrite !bit_lookup, Hn by done. apply lookup_ge_None in Hn.
    rewrite lookup_ge_None_2 by lia. simpl. by rewrite Z.bits_0.
Qed.

Lemma Reset_bit b j : bit (Reset b) j = false.
Proof.
  unfold bit, Reset. rewrite list_lookup_fmap. destruct (b !! _); simpl; by rewrite Z.bits_0, andb_false_r.
Qed.

(** ** Enumeration *)

(* The sixty-four positions stay folded in conversion. *)
#[local] Opaque seqZ.

Definition ones (w : Z) : list Z := List.filter (fun k => Z.testbit w k) (seqZ 0 64).

Lemma find_filter {A} (p : A -> bool) l : List.find p l = head (List.filter p l).
Proof. induction l as [|x l IH]; simpl; [done|]. by destruct (p x). Qed.

Lemma filter_ext_in' {A} (p q : A -> bool) l : (forall x, In x l -> p x = q x) ->
  List.filter p l = List.filter q l.
Proof. apply List.filter_ext_in. Qed.

Lemma filter_tail {A} `{EqDecision A} (p : A -> bool) l x r : NoDup l -> List.filter p l = x :: r ->
  List.filter (fun y => p y && negb (bool_decide (y = x))) l = r.
Proof.
  intros Hnd. revert r. induction Hnd as [|y l Hy Hnd IH]; intros r; simpl; [done|].
  destruct (p y) eqn:Hp; simpl.
  - intros [= -> <-]. rewrite bool_decide_true by done. simpl. apply filter_ext_in'. intros z Hz.
    rewrite bool_decide_false; [apply andb_true_r|]. intros ->. by apply Hy, list_elem_of_In.
  - intros H. by apply IH.
Qed.

(** The lowest bit, and clearing it. *)
Lemma clear_lowest w t : 0 < w -> 0 <= t -> Z.testbit w t = true ->
  (forall k, 0 <= k < t -> Z.testbit w k = false) ->
  forall k, 0 <= k -> Z.testbit (Z.land w (w - 1)) k = Z.testbit w k && negb (bool_decide (k = t)).
Proof.
  intros Hw Ht Hbit Hlow k Hk. rewrite Z.land_spec.
  set (m := w / 2 ^ (t + 1)).
  assert (w mod 2 ^ t = 0) as Hmod.
  { apply Z.bits_inj'. intros n Hn. rewrite Z.bits_0. destruct (Z_lt_le_dec n t).
    - rewrite Z.mod_pow2_bits_low by lia. by apply Hlow.
    - apply Z.mod_pow2_bits_high. lia. }
  assert (w = 2 ^ t * (2 * m + 1)) as Hdec.
  { pose proof (Z.div_mod w (2 ^ t) ltac:(lia)) as Hd. rewrite Hmod, Z.add_0_r in Hd.
    assert (w / 2 ^ t = 2 * m + 1) as <-; [|done].
    pose proof (Z.div_mod (w / 2 ^ t) 2 ltac:(lia)) as Hd2.
    assert ((w / 2 ^ t) mod 2 = 1) as Hb.
    { rewrite <- Z.bit0_mod, Z.div_pow2_bits by lia. by rewrite Z.add_0_l, Hbit. }
    assert (w / 2 ^ t / 2 = m) as Hm.
    { unfold m. rewrite Z.div_div, Z.pow_add_r by lia. done. }
    lia. }
  assert (0 < 2 ^ t) as Hpos by (apply Z.pow_pos_nonneg; lia).
  destruct (bool_decide_reflect (k = t)) as [->|Hne]; simpl.
  - assert (Z.testbit (w - 1) t = false) as ->; [|done].
    rewrite <- (Z.add_0_l t), <- Z.div_pow2_bits by lia.
    rewrite <- (Z.div_unique (w - 1) (2 ^ t) (2 * m) (2 ^ t - 1)) by lia.
    rewrite Z.bit0_odd, Z.odd_mul. done.
  - rewrite andb_true_r. destruct (Z_lt_le_dec k t) as [Hlt|Hge].
    { by rewrite (Hlow k) by lia. }
    assert (Z.testbit (w - 1) k = Z.testbit w k) as ->; [|apply andb_diag].
    replace k with ((k - (t + 1)) + (t + 1)) by lia.
    rewrite <- !Z.div_pow2_bits by lia. f_equal.
    rewrite (Z.pow_add_r 2 t 1) in * by lia. change (2 ^ 1) with 2 in *.
    rewrite <- (Z.div_unique (w - 1) (2 ^ t * 2) m (2 ^ t - 1)) by nia.
    rewrite <- (Z.div_unique w (2 ^ t * 2) m (2 ^ t)) by nia. done.
Qed.

Lemma ones_0 : ones 0 = [].
Proof.
  unfold ones. rewrite (filter_ext_in' _ (fun _ => false)) by (intros; apply Z.bits_0). done.
Qed.

Lemma TrailingZeros64_ones w : TrailingZeros64 w = default 64 (head (ones w)).
Proof. unfold TrailingZeros64, ones. rewrite find_filter. by destruct (head _). Qed.

Lemma seqZ_sorted n : forall m, StronglySorted Z.lt (seqZ m (Z.of_nat n)).
Proof.
  induction n as [|n IH]; intros m; [constructor|]. rewrite seqZ_cons by lia.
  rewrite Nat2Z.inj_succ, Z.pred_succ. constructor; [apply IH|].
  apply Forall_forall. intros x Hx%elem_of_seqZ. lia.
Qed.

Lemma ones_sorted w : StronglySorted Z.lt (ones w).
Proof.
  unfold ones. pose proof (seqZ_sorted 64 0) as Hs. change (Z.of_nat 64) with 64 in Hs.
  induction Hs as [|x l Hs IH Hall]; simpl; [constructor|]. destruct (Z.testbit w x); [|done].
  constructor; [done|]. rewrite Forall_forall in *. intros y Hy. apply Hall.
  apply list_elem_of_In in Hy. apply filter_In in Hy as [? _]. by apply list_elem_of_In.
Qed.

Lemma elem_ones w k : k ∈ ones w <-> 0 <= k < 64 /\ Z.testbit w k = true.
Proof.
  unfold ones. rewrite list_elem_of_In, filter_In, <- list_elem_of_In, elem_of_seqZ.
  split; intros [? ?]; split; try done; lia.
Qed.

Lemma ones_high w : uint64 w -> w <> 0 -> ones w <> [].
Proof.
  intros [H0 Hhigh]%uint64_bits Hne Ho.
  pose proof (elem_ones w (Z.log2 w)) as Hin. rewrite Ho, elem_of_nil in Hin. apply Hin.
  pose proof (Z.bit_log2 w ltac:(lia)) as Hb. split; [|done]. split; [apply Z.log2_nonneg|].
  destruct (Z_lt_le_dec (Z.log2 w) 64); [done|]. by rewrite Hhigh in Hb.
Qed.

Lemma ones_lowest w t r : ones w = t :: r ->
  0 <= t < 64 /\ Z.testbit w t = true /\ forall k, 0 <= k < t -> Z.testbit w k = false.
Proof.
  intros Ho. pose proof (ones_sorted w) as Hs. pose proof (elem_ones w) as Hin. rewrite Ho in Hs, Hin.
  destruct (proj1 (Hin t) ltac:(by left)) as [Ht Hbt]. split_and!; [lia|lia|done|].
  intros k Hk. destruct (Z.testbit w k) eqn:Hb; [|done].
  assert (k ∈ t :: r) as [->|Hkr]%elem_of_cons by (apply Hin; split; [lia|done]); [lia|].
  apply StronglySorted_inv in Hs as [_ Hall]. rewrite Forall_forall in Hall.
  specialize (Hall k Hkr). lia.
Qed.

(** [w &= w - 1] clears the lowest bit. *)
Lemma ones_clear w t r : uint64 w -> w <> 0 -> ones w = t :: r ->
  ones (Z.land w (wrapu64 (w - 1))) = r.
Proof.
  intros Hw Hne Ho. destruct (ones_lowest w t r Ho) as (Ht & Hbt & Hlow). unfold ones in *.
  rewrite wrapu64_id by (unfold uint64 in *; lia). symmetry.
  rewrite <- (filter_tail _ _ t r (NoDup_seqZ 0 64) Ho). symmetry.
  apply filter_ext_in'. intros k Hk. apply list_elem_of_In, elem_of_seqZ in Hk.
  apply clear_lowest; unfold uint64 in *; lia || done.
Qed.

Lemma bits_loop_ones wi fuel : forall w, uint64 w -> (length (ones w) < fuel)%nat ->
  bits_loop fuel wi w = (fun k => wi * 64 + k) <$> ones w.
Proof.
  induction fuel as [|fuel IH]; intros w Hw Hf; [lia|]. cbn [bits_loop].
  destruct (Z.eqb_spec w 0) as [->|Hne]; [by rewrite ones_0|].
  rewrite TrailingZeros64_ones. pose proof (ones_high w Hw Hne) as Hn.
  destruct (ones w) as [|t r] eqn:Ho; [done|]. pose proof (ones_clear w t r Hw Hne Ho) as Hr.
  rewrite IH, Hr; [done| |rewrite Hr; simpl in Hf; lia].
  apply uint64_land; [done|apply wrapu64_range].
Qed.

Lemma ones_length w : (length (ones w) < 65)%nat.
Proof.
  unfold ones. pose proof (List.filter_length_le (fun k => Z.testbit w k) (seqZ 0 64)) as H.
  rewrite length_seqZ in H. lia.
Qed.


Lemma elem_slice_from b : forall wi i, wf b ->
  i ∈ slice_from wi b <-> wi <= i / 64 /\
    Z.testbit (default 0 (b !! Z.to_nat (i / 64 - wi))) (i mod 64) = true.
Proof.
  induction b as [|w b IH]; intros wi i Hw; cbn [slice_from].
  { rewrite elem_of_nil, lookup_nil. cbn [default]. rewrite Z.bits_0. naive_solver. }
  apply Forall_cons in Hw as [Hw0 Hw]. rewrite elem_of_app, (IH _ _ Hw).
  rewrite bits_loop_ones, list_elem_of_fmap by (done || apply ones_length).
  pose proof (Z.div_mod i 64 ltac:(lia)). pose proof (Z.mod_pos_bound i 64 ltac:(lia)). split.
  - intros [(k & -> & [Hk Hb]%elem_ones)|[Hle Hb]].
    + rewrite <- (Z.div_unique (wi * 64 + k) 64 wi k) by lia.
      rewrite <- (Z.mod_unique (wi * 64 + k) 64 wi k) by lia. rewrite Z.sub_diag. by split.
    + split; [lia|]. by replace (Z.to_nat (i / 64 - wi)) with (S (Z.to_nat (i / 64 - (wi + 1)))) by lia.
  - intros [Hle Hb]. destruct (decide (wi = i / 64)) as [->|Hne].
    + left. exists (i mod 64). split; [lia|]. rewrite Z.sub_diag in Hb. by apply elem_ones.
    + right. split; [lia|].
      by replace (Z.to_nat (i / 64 - wi)) with (S (Z.to_nat (i / 64 - (wi + 1)))) in Hb by lia.
Qed.

Lemma elem_Slice b i : wf b -> i ∈ Slice b <-> bit b i = true.
Proof.
  intros Hw. unfold Slice. rewrite elem_slice_from, Z.sub_0_r by done.
  destruct (Z_lt_le_dec i 0) as [Hi|Hi].
  - rewrite bit_neg by done. split; [intros [Hd _]|done]. pose proof (Z.div_mod i 64 ltac:(lia)).
    pose proof (Z.mod_pos_bound i 64 ltac:(lia)). lia.
  - rewrite bit_lookup by done. pose proof (Z.div_pos i 64 Hi ltac:(lia)). split; [by intros [_ ?]|done].
Qed.

Lemma StronglySorted_app_lt (l k : list Z) : StronglySorted Z.lt l -> StronglySorted Z.lt k ->
  (forall x y, x ∈ l -> y ∈ k -> x < y) -> StronglySorted Z.lt (l ++ k).
Proof.
  intros Hl Hk Hlt. induction Hl as [|x l Hl IH Hall]; cbn [app]; [done|]. constructor.
  - apply IH. intros y z Hy. apply Hlt. by right.
  - apply Forall_app. split; [done|]. apply Forall_forall. intros y Hy. apply Hlt; [by left|done].
Qed.

Lemma StronglySorted_shift c (l : list Z) : StronglySorted Z.lt l ->
  StronglySorted Z.lt ((fun k => c + k) <$> l).
Proof.
  induction 1 as [|x l Hl IH Hall]; [constructor|]. rewrite fmap_cons. constructor; [done|].
  apply Forall_fmap. eapply Forall_impl; [exact Hall|]. intros y. simpl. lia.
Qed.

Lemma slice_sorted b : forall wi, wf b -> StronglySorted Z.lt (slice_from wi b).
Proof.
  induction b as [|w b IH]; intros wi Hw; cbn [slice_from]; [constructor|].
  apply Forall_cons in Hw as [Hw0 Hw]. rewrite bits_loop_ones by (done || apply ones_length).
  apply StronglySorted_app_lt; [apply StronglySorted_shift, ones_sorted|by apply IH|].
  intros x y (k & -> & [Hk _]%elem_ones)%list_elem_of_fmap [Hy _]%elem_slice_from; [|done].
  pose proof (Z.div_mod y 64 ltac:(lia)). pose proof (Z.mod_pos_bound y 64 ltac:(lia)). lia.
Qed.

Lemma OnesCount64_ones w : OnesCount64 w = Z.of_nat (length (ones w)).
Proof. done. Qed.

Lemma Count_slice b : forall wi n, wf b ->
  foldl (fun n w => n + OnesCount64 w) n b = n + Z.of_nat (length (slice_from wi b)).
Proof.
  induction b as [|w b IH]; intros wi n Hw; cbn [foldl slice_from length]; [lia|].
  apply Forall_cons in Hw as [Hw0 Hw]. rewrite (IH (wi + 1)) by done.
  rewrite length_app, bits_loop_ones, length_fmap, OnesCount64_ones by (done || apply ones_length). lia.
Qed.

Lemma Set_wf i b : wf b -> wf (Set_ i b).
Proof.
  intros Hw. unfold Set_. case_match; [done|]. apply alter_wf; [by apply grow_wf|auto].
Qed.
Lemma Clear_wf i b : wf b -> wf (Clear i b).
Proof. intros Hw. unfold Clear. case_match; [done|]. apply alter_wf; [done|auto]. Qed.
Lemma Flip_wf i b : wf b -> wf (Flip i b).1.
Proof.
  intros Hw. unfold Flip. case_match; [done|]. simpl. apply alter_wf; [by apply grow_wf|auto].
Qed.
Lemma lookup_wf (b : Bitmap) i w : wf b -> b !! i = Some w -> uint64 w.
Proof. intros Hw. by apply (Forall_lookup_1 _ _ _ _ Hw). Qed.
Lemma And_wf a b : wf a -> wf b -> wf (And a b).
Proof.
  intros Ha Hb. apply imap_wf; [done|]. intros i w Hw.
  destruct (b !! i) eqn:E; [eauto using lookup_wf|unfold uint64; lia].
Qed.
Lemma AndNot_wf a b : wf a -> wf b -> wf (AndNot a b).
Proof.
  intros Ha Hb. apply imap_wf; [done|]. intros i w Hw. destruct (b !! i) eqn:E; eauto using lookup_wf.
Qed.
Lemma Or_wf a b : wf a -> wf b -> wf (Or a b).
Proof.
  intros Ha Hb. unfold Or. apply imap_wf; [case_match; [by apply grow_wf|done]|].
  intros i w Hw. destruct (b !! i) eqn:E; eauto using lookup_wf.
Qed.

(** ** Programs over two bitmaps *)

(** The calls a program makes on a bitmap; [other] bitmaps are built the same way. *)
Inductive expr :=
  | ENew (n : Z) | ESet (i : Z) (e : expr) | EClear (i : Z) (e : expr) | EFlip (i : Z) (e : expr)
  | EAnd (e other : expr) | EOr (e other : expr) | EAndNot (e other : expr)
  | EClone (e : expr) | EReset (e : expr).

Fixpoint run (e : expr) : Bitmap :=
  match e with
  | ENew n => New n
  | ESet i e => Set_ i (run e)
  | EClear i e => Clear i (run e)
  | EFlip i e => (Flip i (run e)).1
  | EAnd e o => And (run e) (run o)
  | EOr e o => Or (run e) (run o)
  | EAndNot e o => AndNot (run e) (run o)
  | EClone e => Clone (run e)
  | EReset e => Reset (run e)
  end.

(** The set of nonnegative integers meant. *)
Fixpoint mem (e : expr) (j : Z) : bool :=
  match e with
  | ENew _ | EReset _ => false
  | ESet i e => ((0 <=? i) && bool_decide (i = j)) || mem e j
  | EClear i e => mem e j && negb (bool_decide (i = j))
  | EFlip i e => xorb (mem e j) ((0 <=? i) && bool_decide (i = j))
  | EAnd e o => mem e j && mem o j
  | EOr e o => mem e j || mem o j
  | EAndNot e o => mem e j && negb (mem o j)
  | EClone e => mem e j
  end.

Lemma New_bit n j : bit (New n) j = false.
Proof.
  unfold bit, New. destruct (replicate _ _ !! _) as [x|] eqn:Hx; cbn [default].
  - apply lookup_replicate in Hx as [-> _]. by rewrite Z.bits_0, andb_false_r.
  - by rewrite Z.bits_0, andb_false_r.
Qed.

Lemma run_wf e : wf (run e).
Proof.
  induction e; cbn [run]; eauto using Set_wf, Clear_wf, Flip_wf, And_wf, Or_wf, AndNot_wf.
  - apply Forall_replicate. unfold uint64. lia.
  - apply Forall_fmap. eapply Forall_impl; [exact IHe|]. intros. simpl. unfold uint64. lia.
Qed.

Lemma run_bit e j : bit (run e) j = mem e j.
Proof.
  induction e; cbn [run mem];
    rewrite ?New_bit, ?Set_bit, ?Clear_bit, ?Flip_bit, ?And_bit, ?Or_bit, ?AndNot_bit, ?Reset_bit;
    by rewrite ?IHe, ?IHe1, ?IHe2.
Qed.

Lemma consecutive_add rdays uid : forall n, consecutive rdays uid n = n + consecutive rdays uid 0.
Proof.
  induction rdays as [|d r IH]; intros n; simpl; [lia|]. destruct (Test uid d); [|lia].
  rewrite (IH (n + 1)), (IH (0 + 1)). lia.
Qed.

Lemma consecutive_nonneg rdays uid : 0 <= consecutive rdays uid 0.
Proof.
  induction rdays as [|d r IH]; simpl; [lia|]. destruct (Test uid d); [|lia].
  rewrite consecutive_add. lia.
Qed.

Lemma consecutive_spec r uid n : consecutive r uid 0 = Z.of_nat n ->
  (n <= length (rev r))%nat /\
  Forall (fun d => Test uid d = true) (drop (length (rev r) - n) (rev r)) /\
  (forall d, (n < length (rev r))%nat -> rev r !! (length (rev r) - n - 1)%nat = Some d ->
    Test uid d = false).
Proof.
  revert n.
  induction r as [|d r IH]; intros n; cbn [consecutive].
  { intros ?. assert (n = 0%nat) as -> by lia. by simpl. }
  destruct (Test uid d) eqn:Hd.
  - rewrite consecutive_add. intros Hn. destruct n as [|n].
    { pose proof (consecutive_nonneg r uid). lia. }
    destruct (IH n ltac:(lia)) as (Hle & Hall & Hbef).
    cbn [rev]. rewrite length_app, length_rev in *. cbn [length].
    replace (length r + 1 - S n)%nat with (length r - n)%nat by lia.
    split_and!; [lia| |].
    + rewrite drop_app_le by (rewrite length_rev; lia). apply Forall_app. split; [done|]. by constructor.
    + intros d' Hlt. rewrite lookup_app_l by (rewrite length_rev; lia). apply Hbef. lia.
  - intros Hn. assert (n = 0%nat) as -> by lia. cbn [rev]. rewrite length_app, length_rev. cbn [length].
    rewrite !Nat.sub_0_r, drop_ge by (rewrite length_app, length_rev; simpl; lia).
    split_and!; [lia|done|]. intros d' _. replace (length r + 1 - 1)%nat with (length (rev r)) by (rewrite length_rev; lia).
    rewrite list_lookup_middle by done. by intros [= <-].
Qed.

(** * Properties *)

(** C18: Whatever calls built a bitmap, [Test] answers membership in the set the calls mean
    (negative and out-of-range indices are never members), [Flip] returns the new value, [Slice] lists exactly that set
    in increasing order, and [Count] is its number of elements. *)
Theorem bitmap_is_set e :
  (forall j, Test j (run e) = mem e j) /\
  (forall i, (Flip i (run e)).2 = (0 <=? i) && negb (mem e i)) /\
  StronglySorted Z.lt (Slice (run e)) /\
  (forall j, j ∈ Slice (run e) <-> mem e j = true) /\
  Count (run e) = Z.of_nat (length (Slice (run e))).
Proof.
  pose proof (run_wf e) as Hw. split_and!.
  - intros j. by rewrite Test_bit, run_bit.
  - intros i. by rewrite Flip_snd, run_bit.
  - by apply slice_sorted.
  - intros j. by rewrite elem_Slice, run_bit.
  - unfold Count. by rewrite (Count_slice _ 0).
Qed.

(** [ConsecutiveFromEnd] counts the days the user signed in since the last day missed:
    the last [n] days all hold the user, and the day before them, if any, does not. *)
Theorem consecutive_streak days uid n : ConsecutiveFromEnd days uid = Z.of_nat n ->
  (n <= length days)%nat /\
  Forall (fun d => Test uid d = true) (drop (length days - n) days) /\
  (forall d, (n < length days)%nat -> days !! (length days - n - 1)%nat = Some d -> Test uid d = false).
Proof.
  unfold ConsecutiveFromEnd. intros H%consecutive_spec. by rewrite rev_involutive in H.
Qed.

Lemma consecutive_streak_witness :
  ConsecutiveFromEnd [Set_ 70 []; Set_ 3 []; Set_ 70 []; Set_ 70 (Set_ 1 [])] 70 = Z.of_nat 2 /\
  Test 70 (Set_ 3 []) = false.
Proof.
  assert (H : ConsecutiveFromEnd [Set_ 70 []; Set_ 3 []; Set_ 70 []; Set_ 70 (Set_ 1 [])] 70
    = Z.of_nat 2) by (vm_compute; reflexivity).
  split; [exact H|].
  apply (proj2 (proj2 (consecutive_streak _ _ _ H))); [simpl; lia|reflexivity].
Defined.
