(* ===== verification/NodeBreaker.v ===== *)
(** The per-node circuit breaker ([pkg/governance/circuitbreaker/circuitbreaker.go]):
    one automaton per address, asked before a call and told its result. *)
From Stdlib Require Import ZArith Lia Bool.
From stdpp Require Import base numbers strings list gmap fin_maps.
From S2P Require Import Prelude.

Open Scope Z_scope.

Inductive State := StateClosed | StateOpen | StateHalfOpen.

#[global] Instance State_eq : EqDecision State.
Proof. solve_decision. Defined.

(** Times are readings of the clock, in nanoseconds. *)
Record nodeState := MkNode {
  state : State;
  consecutiveFailures : Z;      (* uint32 *)
  consecutiveSuccesses : Z;     (* uint32 *)
  openedAt : Z;
  halfOpenInflight : bool;
  halfOpenProbeAt : Z
}.

(** [onStateChange]: whether a callback is set; its calls are returned by the operations. *)
Record config := MkConfig {
  failureThreshold : Z;         (* uint32 *)
  successThreshold : Z;         (* uint32 *)
  timeout : Z;
  probeTimeout : Z;
  onStateChange : bool
}.

Definition WithFailureThreshold (n : Z) (c : config) : config :=
  MkConfig n (successThreshold c) (timeout c) (probeTimeout c) (onStateChange c).
Definition WithSuccessThreshold (n : Z) (c : config) : config :=
  MkConfig (failureThreshold c) n (timeout c) (probeTimeout c) (onStateChange c).
Definition WithTimeout (d : Z) (c : config) : config :=
  MkConfig (failureThreshold c) (successThreshold c) d (probeTimeout c) (onStateChange c).
Definition WithProbeTimeout (d : Z) (c : config) : config :=
  MkConfig (failureThreshold c) (successThreshold c) (timeout c) d (onStateChange c).
Definition WithOnStateChange (fn : bool) (c : config) : config :=
  MkConfig (failureThreshold c) (successThreshold c) (timeout c) (probeTimeout c) fn.

Record NodeBreaker := MkBreaker { cfg : config; nodes : gmap string nodeState }.

Definition second : Z := 1000000000.

Definition NewNodeBreaker (opts : list (config -> config)) : NodeBreaker :=
  MkBreaker (foldl (fun c o => o c) (MkConfig 5 1 (30 * second) (30 * second) false) opts) ∅.

Definition fresh : nodeState := MkNode StateClosed 0 0 0 false 0.

Definition getOrCreate (addr : string) (b : NodeBreaker) : nodeState * NodeBreaker :=
  match nodes b !! addr with
  | Some ns => (ns, b)
  | None => (fresh, MkBreaker (cfg b) (<[addr := fresh]> (nodes b)))
  end.

(** A call of the callback: the address, the state left and the state entered. *)
Abbreviation change := (string * State * State)%type.

Definition setState (c : config) (addr : string) (to : State) (now : Z) (ns : nodeState) :
    nodeState * list change :=
  if decide (state ns = to) then (ns, [])
  else
    let from := state ns in
    (MkNode to 0 0 (if decide (to = StateOpen) then now else openedAt ns) false (halfOpenProbeAt ns),
     if onStateChange c then [(addr, from, to)] else []).

Definition setProbe (now : Z) (ns : nodeState) : nodeState :=
  MkNode (state ns) (consecutiveFailures ns) (consecutiveSuccesses ns) (openedAt ns) true now.

(** The body under the node's lock. [t1]: the reading of [time.Since], [t2]: of [time.Now]. *)
Definition available_node (c : config) (addr : string) (t1 t2 : Z) (ns : nodeState) :
    nodeState * bool * list change :=
  match state ns with
  | StateClosed => (ns, true, [])
  | StateOpen =>
      if timeout c <=? t1 - openedAt ns
      then let '(ns, out) := setState c addr StateHalfOpen t1 ns in (setProbe t2 ns, true, out)
      else (ns, false, [])
  | StateHalfOpen =>
      if halfOpenInflight ns && (t1 - halfOpenProbeAt ns <? probeTimeout c)
      then (ns, false, [])
      else (setProbe t2 ns, true, [])
  end.

Definition Available (node : option string) (t1 t2 : Z) (b : NodeBreaker) :
    NodeBreaker * bool * list change :=
  match node with
  | None => (b, false, [])
  | Some addr =>
      let '(ns, b) := getOrCreate addr b in
      let '(ns, ok, out) := available_node (cfg b) addr t1 t2 ns in
      (MkBreaker (cfg b) (<[addr := ns]> (nodes b)), ok, out)
  end.

Definition setFailures (n : Z) (ns : nodeState) : nodeState :=
  MkNode (state ns) n (consecutiveSuccesses ns) (openedAt ns) (halfOpenInflight ns) (halfOpenProbeAt ns).
Definition setSuccesses (n : Z) (ns : nodeState) : nodeState :=
  MkNode (state ns) (consecutiveFailures ns) n (openedAt ns) (halfOpenInflight ns) (halfOpenProbeAt ns).
Definition clearInflight (ns : nodeState) : nodeState :=
  MkNode (state ns) (consecutiveFailures ns) (consecutiveSuccesses ns) (openedAt ns) false
    (halfOpenProbeAt ns).

Definition report_node (c : config) (addr : string) (success : bool) (now : Z) (ns : nodeState) :
    nodeState * list change :=
  match state ns with
  | StateClosed =>
      if success then (setFailures 0 ns, [])
      else
        let ns := setFailures (wrapu32 (consecutiveFailures ns + 1)) ns in
        if failureThreshold c <=? consecutiveFailures ns
        then setState c addr StateOpen now ns else (ns, [])
  | StateHalfOpen =>
      let ns := clearInflight ns in
      if success
      then
        let ns := setSuccesses (wrapu32 (consecutiveSuccesses ns + 1)) ns in
        if successThreshold c <=? consecutiveSuccesses ns
        then setState c addr StateClosed now ns else (ns, [])
      else setState c addr StateOpen now ns
  | StateOpen => (ns, [])
  end.

Definition Report (node : option string) (success : bool) (now : Z) (b : NodeBreaker) :
    NodeBreaker * list change :=
  match node with
  | None => (b, [])
  | Some addr =>
      let '(ns, b) := getOrCreate addr b in
      let '(ns, out) := report_node (cfg b) addr success now ns in
      (MkBreaker (cfg b) (<[addr := ns]> (nodes b)), out)
  end.

Record NodeStats := MkStats {
  sAddr : string; sState : State; sConsecutiveFailures : Z; sConsecutiveSuccesses : Z
}.

Definition Stats (b : NodeBreaker) : gmap string NodeStats :=
  map_imap (fun addr ns => Some (MkStats addr (state ns) (consecutiveFailures ns)
    (consecutiveSuccesses ns))) (nodes b).

Definition reset_node (ns : nodeState) : nodeState :=
  MkNode StateClosed 0 0 (openedAt ns) false (halfOpenProbeAt ns).

Definition Reset (b : NodeBreaker) : NodeBreaker :=
  MkBreaker (cfg b) (reset_node <$> nodes b).

(** * Runs *)

(** The calls of any number of clients, in the order they take the locks. *)
Inductive call :=
| CAvailable (node : option string) (t1 t2 : Z)
| CReport (node : option string) (success : bool) (now : Z)
| CReset.

(** The answer of an [Available], and the breaker after. *)
Definition apply (c : call) (b : NodeBreaker) : NodeBreaker * option bool :=
  match c with
  | CAvailable n t1 t2 => let '(b, ok, _) := Available n t1 t2 b in (b, Some ok)
  | CReport n s now => ((Report n s now b).1, None)
  | CReset => (Reset b, None)
  end.

Fixpoint run (cs : list call) (b : NodeBreaker) : NodeBreaker * list (call * bool) :=
  match cs with
  | [] => (b, [])
  | c :: cs =>
      let '(b1, r) := apply c b in
      let '(b2, l) := run cs b1 in
      (b2, match r with Some ok => (c, ok) :: l | None => l end)
  end.

(** The calls that read or write the state of node [a]. *)
Definition about (a : string) (c : call) : bool :=
  match c with
  | CAvailable n _ _ | CReport n _ _ => bool_decide (n = Some a)
  | CReset => true
  end.

(** The state of a node: one never seen is fresh. *)
Definition node (b : NodeBreaker) (a : string) : nodeState := default fresh (nodes b !! a).

(** A call seen from the node it is about. *)
Definition node_step (cf : config) (a : string) (c : call) (ns : nodeState) : nodeState * option bool :=
  match c with
  | CAvailable _ t1 t2 => let '(ns, ok, _) := available_node cf a t1 t2 ns in (ns, Some ok)
  | CReport _ s now => ((report_node cf a s now ns).1, None)
  | CReset => (reset_node ns, None)
  end.

Lemma getOrCreate_node addr b : (getOrCreate addr b).1 = node b addr.
Proof. unfold getOrCreate, node. by destruct (nodes b !! addr). Qed.

Lemma getOrCreate_cfg addr b : cfg (getOrCreate addr b).2 = cfg b.
Proof. unfold getOrCreate. by destruct (nodes b !! addr). Qed.

Lemma getOrCreate_ne addr a b : a <> addr -> nodes (getOrCreate addr b).2 !! a = nodes b !! a.
Proof.
  intros. unfold getOrCreate. destruct (nodes b !! addr); [done|]. simpl. by rewrite lookup_insert_ne.
Qed.

Lemma apply_cfg c b : cfg (apply c b).1 = cfg b.
Proof.
  destruct c as [[addr|] ? ?|[addr|] ? ?|]; simpl; try done.
  - pose proof (getOrCreate_cfg addr b). destruct (getOrCreate addr b) as [ns b1]. simpl in *.
    by destruct (available_node _ _ _ _ _) as [[??]?].
  - pose proof (getOrCreate_cfg addr b). destruct (getOrCreate addr b) as [ns b1]. simpl in *.
    by destruct (report_node _ _ _ _ _).
Qed.

(** A call acts on the node it names and on no other. *)
Lemma apply_other c a b : about a c = false -> node (apply c b).1 a = node b a.
Proof.
  destruct c as [[addr|] t1 t2|[addr|] s now|]; simpl; try done; intros Hne%bool_decide_eq_false;
    unfold node; pose proof (getOrCreate_ne addr a b ltac:(congruence)) as Hl;
    destruct (getOrCreate addr b) as [ns b1]; simpl in *.
  - destruct (available_node _ _ _ _ _) as [[??]?]. simpl. rewrite lookup_insert_ne by congruence.
    by rewrite Hl.
  - destruct (report_node _ _ _ _ _). simpl. rewrite lookup_insert_ne by congruence. by rewrite Hl.
Qed.

Lemma apply_about c a b : about a c = true ->
  node (apply c b).1 a = (node_step (cfg b) a c (node b a)).1 /\
  (apply c b).2 = (node_step (cfg b) a c (node b a)).2.
Proof.
  destruct c as [[addr|] t1 t2|[addr|] s now|]; simpl; try done.
  - intros [= ->]%bool_decide_eq_true. pose proof (getOrCreate_node a b) as Hn.
    pose proof (getOrCreate_cfg a b) as Hc. destruct (getOrCreate a b) as [ns b1]. simpl in *.
    rewrite <- Hn, Hc. destruct (available_node _ _ _ _ _) as [[??]?]. simpl.
    unfold node. simpl. by rewrite lookup_insert_eq.
  - intros [= ->]%bool_decide_eq_true. pose proof (getOrCreate_node a b) as Hn.
    pose proof (getOrCreate_cfg a b) as Hc. destruct (getOrCreate a b) as [ns b1]. simpl in *.
    rewrite <- Hn, Hc. destruct (report_node _ _ _ _ _). simpl.
    unfold node. simpl. by rewrite lookup_insert_eq.
  - intros _. split; [|done]. unfold node. simpl. rewrite lookup_fmap.
    by destruct (nodes b !! a).
Qed.

(** The run of one node's automaton over its own calls. *)
Fixpoint node_run (cf : config) (a : string) (cs : list call) (ns : nodeState) :
    nodeState * list (call * bool) :=
  match cs with
  | [] => (ns, [])
  | c :: cs =>
      let '(ns1, r) := node_step cf a c ns in
      let '(ns2, l) := node_run cf a cs ns1 in
      (ns2, match r with Some ok => (c, ok) :: l | None => l end)
  end.

Definition about_answer (a : string) (r : call * bool) : bool := about a r.1.

Lemma apply_answer c b ok : (apply c b).2 = Some ok -> exists n t1 t2, c = CAvailable n t1 t2.
Proof. destruct c; simpl; try done. eauto. Qed.

(** The breaker is the product of its nodes' automata. *)
Lemma run_node a cs : forall b,
  node (run cs b).1 a = (node_run (cfg b) a (List.filter (about a) cs) (node b a)).1 /\
  List.filter (about_answer a) (run cs b).2 = (node_run (cfg b) a (List.filter (about a) cs) (node b a)).2.
Proof.
  induction cs as [|c cs IH]; intros b; [done|]. cbn [run List.filter].
  pose proof (apply_cfg c b) as Hc. destruct (apply c b) as [b1 r] eqn:Ha. simpl in Hc.
  destruct (IH b1) as [H1 H2]. rewrite Hc in H1, H2. destruct (run cs b1) as [b2 l]. simpl in *.
  destruct (about a c) eqn:Hab.
  - pose proof (apply_about c a b Hab) as [Hn Hr]. rewrite Ha in Hn, Hr. simpl in Hn, Hr. cbn [node_run].
    rewrite Hn in H1, H2. destruct (node_step (cfg b) a c (node b a)) as [ns1 r1]. simpl in *. subst r1.
    destruct (node_run _ _ _ ns1) as [ns2 l2]. simpl in *. split; [done|].
    destruct r as [ok|]; [|done]. simpl. unfold about_answer at 1. simpl. rewrite Hab. by rewrite H2.
  - pose proof (apply_other c a b Hab) as Hn. rewrite Ha in Hn. simpl in Hn. rewrite Hn in H1, H2.
    split; [done|]. destruct r as [ok|]; [|done]. simpl. unfold about_answer at 1. simpl. by rewrite Hab.
Qed.

(** * Properties *)

(** Reports of failure, of success. *)
Definition failures (cs : list call) : Z :=
  Z.of_nat (length (List.filter (fun c => match c with CReport _ false _ => true | _ => false end) cs)).
Definition quiet (c : call) : bool :=
  match c with CAvailable _ _ _ | CReport _ false _ => true | _ => false end.

(** No reading of the clock by [Available] reaches [t]. *)
Definition before (t : Z) (c : call) : Prop :=
  match c with CAvailable _ t1 _ => t1 < t | _ => True end.

Lemma node_run_app cf a cs ds : forall ns,
  node_run cf a (cs ++ ds) ns =
    let '(ns1, l1) := node_run cf a cs ns in
    let '(ns2, l2) := node_run cf a ds ns1 in (ns2, l1 ++ l2).
Proof.
  induction cs as [|c cs IH]; intros ns; cbn [app node_run].
  { by destruct (node_run cf a ds ns). }
  destruct (node_step cf a c ns) as [ns1 r]. rewrite IH. destruct (node_run cf a cs ns1) as [ns2 l1].
  destruct (node_run cf a ds ns2) as [ns3 l2]. by destruct r.
Qed.

(** Below the threshold the node stays closed and counts. *)
Lemma closed_run cf a cs : forall ns, failureThreshold cf < 2 ^ 32 ->
  state ns = StateClosed -> 0 <= consecutiveFailures ns ->
  Forall (fun c => quiet c = true) cs -> consecutiveFailures ns + failures cs < failureThreshold cf ->
  let '(ns', l) := node_run cf a cs ns in
  state ns' = StateClosed /\ consecutiveFailures ns' = consecutiveFailures ns + failures cs /\
  Forall (fun r => r.2 = true) l.
Proof.
  induction cs as [|c cs IH]; intros ns Hth Hst H0 Hq Hlt.
  { simpl. unfold failures. simpl. split_and!; [done|lia|done]. }
  apply Forall_cons in Hq as [Hc Hq]. cbn [node_run].
  destruct c as [n t1 t2|n [] now|]; try done; cbn [node_step].
  - unfold available_node. rewrite Hst. specialize (IH ns Hth Hst H0 Hq Hlt).
    destruct (node_run cf a cs ns) as [ns' l]. destruct IH as (? & ? & ?). split_and!; try done.
    by constructor.
  - assert (failures (CReport n false now :: cs) = failures cs + 1) as Hf
      by (unfold failures; cbn [List.filter length]; lia). rewrite Hf in *.
    assert (0 <= failures cs) by (unfold failures; lia).
    unfold report_node. rewrite Hst. cbn [consecutiveFailures setFailures].
    assert (wrapu32 (consecutiveFailures ns + 1) = consecutiveFailures ns + 1) as Hw.
    { unfold wrapu32. apply Z.mod_small. lia. }
    rewrite Hw. destruct (Z.leb_spec (failureThreshold cf) (consecutiveFailures ns + 1)); [lia|].
    cbn [fst]. specialize (IH (setFailures (consecutiveFailures ns + 1) ns) Hth Hst ltac:(simpl; lia) Hq
      ltac:(simpl; lia)).
    destruct (node_run cf a cs _) as [ns' l]. destruct IH as (? & Hn & ?). split_and!; try done.
    rewrite Hn. simpl. lia.
Qed.

(** An open node refuses until its timeout, whatever is reported. *)
Lemma open_run cf a cs ns : state ns = StateOpen ->
  Forall (fun c => c <> CReset /\ before (openedAt ns + timeout cf) c) cs ->
  let '(ns', l) := node_run cf a cs ns in ns' = ns /\ Forall (fun r => r.2 = false) l.
Proof.
  intros Hst. induction cs as [|c cs IH]; intros Hcs; [done|].
  apply Forall_cons in Hcs as [[Hr Hb] Hcs]. cbn [node_run].
  destruct c as [n t1 t2|n s now|]; [| |done]; cbn [node_step].
  - unfold available_node. rewrite Hst. simpl in Hb.
    destruct (Z.leb_spec (timeout cf) (t1 - openedAt ns)); [lia|].
    specialize (IH Hcs). destruct (node_run cf a cs ns) as [ns' l]. destruct IH. split; [done|].
    by constructor.
  - unfold report_node. rewrite Hst. cbn [fst]. specialize (IH Hcs).
    by destruct (node_run cf a cs ns) as [ns' l].
Qed.

(** A half-open node with its probe out refuses until the probe's timeout. *)
Lemma probing_run cf a cs ns : state ns = StateHalfOpen -> halfOpenInflight ns = true ->
  Forall (fun c => exists n t1 t2, c = CAvailable n t1 t2 /\ t1 < halfOpenProbeAt ns + probeTimeout cf) cs ->
  let '(ns', l) := node_run cf a cs ns in ns' = ns /\ Forall (fun r => r.2 = false) l.
Proof.
  intros Hst Hin. induction cs as [|c cs IH]; intros Hcs; [done|].
  apply Forall_cons in Hcs as [(n & t1 & t2 & -> & Hb) Hcs]. cbn [node_run node_step].
  unfold available_node. rewrite Hst, Hin.
  destruct (Z.ltb_spec (t1 - halfOpenProbeAt ns) (probeTimeout cf)); [|lia]. cbn [andb].
  specialize (IH Hcs). destruct (node_run cf a cs ns) as [ns' l]. destruct IH. split; [done|].
  by constructor.
Qed.

Lemma node_run_calls cf a cs : forall ns r, r ∈ (node_run cf a cs ns).2 -> r.1 ∈ cs.
Proof.
  induction cs as [|c cs IH]; intros ns r; cbn [node_run]; [by intros ?%not_elem_of_nil|].
  destruct (node_step cf a c ns) as [ns1 o]. pose proof (IH ns1) as IH1.
  destruct (node_run cf a cs ns1) as [ns2 l]. destruct o as [ok|]; simpl in *.
  - intros [->|Hr]%elem_of_cons; [by left|right; by apply IH1].
  - intros Hr. right. by apply IH1.
Qed.

(** The answers a run gives about one node. *)
Lemma run_answers a cs b r :
  r ∈ (run cs b).2 -> about a r.1 = true ->
  r ∈ (node_run (cfg b) a (List.filter (about a) cs) (node b a)).2.
Proof.
  intros Hr Ha. destruct (run_node a cs b) as [_ <-]. apply list_elem_of_In, filter_In.
  split; [by apply list_elem_of_In|done].
Qed.

Lemma run_cfg cs : forall b, cfg (run cs b).1 = cfg b.
Proof.
  induction cs as [|c cs IH]; intros b; [done|]. cbn [run]. pose proof (apply_cfg c b).
  destruct (apply c b) as [b1 r]. specialize (IH b1). destruct (run cs b1). simpl in *. congruence.
Qed.

Lemma Forall_about (P Q : call -> Prop) a cs : Forall P cs ->
  (forall c, about a c = true -> P c -> Q c) -> Forall Q (List.filter (about a) cs).
Proof.
  intros HP H. apply Forall_forall. intros c Hc.
  apply list_elem_of_In, filter_In in Hc as [Hc Ha]. apply H; [done|].
  rewrite Forall_forall in HP. by apply HP, list_elem_of_In.
Qed.

(** The three runs above, on a breaker whose clients also call about other nodes. *)
Lemma run_closed b a cs : failureThreshold (cfg b) < 2 ^ 32 ->
  state (node b a) = StateClosed -> 0 <= consecutiveFailures (node b a) ->
  Forall (fun c => about a c = true -> quiet c = true) cs ->
  consecutiveFailures (node b a) + failures (List.filter (about a) cs) < failureThreshold (cfg b) ->
  state (node (run cs b).1 a) = StateClosed /\
  consecutiveFailures (node (run cs b).1 a) =
    consecutiveFailures (node b a) + failures (List.filter (about a) cs) /\
  forall r, r ∈ (run cs b).2 -> about a r.1 = true -> r.2 = true.
Proof.
  intros Hth Hst H0 Hq Hlt. destruct (run_node a cs b) as [-> _].
  assert (Forall (fun c => quiet c = true) (List.filter (about a) cs)) as Hq'
    by (eapply Forall_about; [exact Hq|auto]).
  pose proof (closed_run (cfg b) a _ (node b a) Hth Hst H0 Hq' Hlt) as Hr.
  pose proof (run_answers a cs b) as Hans.
  destruct (node_run _ _ _ _) as [ns l]. destruct Hr as (? & ? & Hl). split_and!; [done|done|].
  intros r Hr Ha. rewrite Forall_forall in Hl. apply Hl. by apply Hans.
Qed.

Lemma run_open b a cs : state (node b a) = StateOpen ->
  Forall (fun c => about a c = true -> c <> CReset /\ before (openedAt (node b a) + timeout (cfg b)) c) cs ->
  node (run cs b).1 a = node b a /\
  forall r, r ∈ (run cs b).2 -> about a r.1 = true -> r.2 = false.
Proof.
  intros Hst Hcs. destruct (run_node a cs b) as [-> _].
  pose proof (open_run (cfg b) a (List.filter (about a) cs) (node b a) Hst) as Hr.
  pose proof (run_answers a cs b) as Hans.
  destruct (node_run _ _ _ _) as [ns l]. destruct Hr as (-> & Hl).
  { eapply Forall_about; [exact Hcs|auto]. }
  split; [done|]. intros r Hr Ha. rewrite Forall_forall in Hl. apply Hl. by apply Hans.
Qed.

Lemma run_probing b a cs : state (node b a) = StateHalfOpen -> halfOpenInflight (node b a) = true ->
  Forall (fun c => about a c = true -> exists n t1 t2, c = CAvailable n t1 t2 /\
    t1 < halfOpenProbeAt (node b a) + probeTimeout (cfg b)) cs ->
  node (run cs b).1 a = node b a /\
  forall r, r ∈ (run cs b).2 -> about a r.1 = true -> r.2 = false.
Proof.
  intros Hst Hin Hcs. destruct (run_node a cs b) as [-> _].
  pose proof (probing_run (cfg b) a (List.filter (about a) cs) (node b a) Hst Hin) as Hr.
  pose proof (run_answers a cs b) as Hans.
  destruct (node_run _ _ _ _) as [ns l]. destruct Hr as (-> & Hl).
  { eapply Forall_about; [exact Hcs|auto]. }
  split; [done|]. intros r Hr Ha. rewrite Forall_forall in Hl. apply Hl. by apply Hans.
Qed.

(** The calls, seen from the node named. *)
Lemma Available_node b a t1 t2 :
  node (Available (Some a) t1 t2 b).1.1 a = (available_node (cfg b) a t1 t2 (node b a)).1.1 /\
  (Available (Some a) t1 t2 b).1.2 = (available_node (cfg b) a t1 t2 (node b a)).1.2 /\
  cfg (Available (Some a) t1 t2 b).1.1 = cfg b.
Proof.
  pose proof (apply_about (CAvailable (Some a) t1 t2) a b ltac:(by apply bool_decide_eq_true)) as [Hn Hr].
  pose proof (apply_cfg (CAvailable (Some a) t1 t2) b) as Hc.
  cbn [apply node_step] in Hn, Hr, Hc. destruct (Available (Some a) t1 t2 b) as [[b1 ok] out].
  destruct (available_node _ _ _ _ _) as [[ns ok'] out']. cbn [fst snd] in *. by injection Hr as ->.
Qed.

Lemma Report_node b a s t :
  node (Report (Some a) s t b).1 a = (report_node (cfg b) a s t (node b a)).1 /\
  cfg (Report (Some a) s t b).1 = cfg b.
Proof.
  split.
  - exact (proj1 (apply_about (CReport (Some a) s t) a b ltac:(by apply bool_decide_eq_true))).
  - exact (apply_cfg (CReport (Some a) s t) b).
Qed.

Lemma available_open cf a t1 t2 ns : state ns = StateOpen -> openedAt ns + timeout cf <= t1 ->
  exists out, available_node cf a t1 t2 ns =
    (MkNode StateHalfOpen 0 0 (openedAt ns) true t2, true, out).
Proof.
  intros Hst Ht. unfold available_node, setState. rewrite Hst, (proj2 (Z.leb_le _ _)) by lia.
  destruct (decide (StateOpen = StateHalfOpen)) as [|_]; [done|].
  destruct (decide (StateHalfOpen = StateOpen)) as [|_]; [done|]. by eexists.
Qed.

Lemma report_probe cf a s t o p : successThreshold cf <= 1 ->
  let ns := (report_node cf a s t (MkNode StateHalfOpen 0 0 o true p)).1 in
  state ns = (if s then StateClosed else StateOpen) /\
  consecutiveFailures ns = 0 /\ consecutiveSuccesses ns = 0 /\ (s = false -> openedAt ns = t).
Proof.
  intros Hs. unfold report_node. cbn [state]. destruct s; [|done].
  cbn [consecutiveSuccesses setSuccesses clearInflight]. change (wrapu32 (0 + 1)) with 1.
  rewrite (proj2 (Z.leb_le _ _)) by lia. done.
Qed.

(** The nodes are independent: the state of a node, and the answers about it, are those
    of its own calls (and of the resets) alone. *)
Theorem nodes_independent a cs b :
  node (run cs b).1 a = node (run (List.filter (about a) cs) b).1 a /\
  List.filter (about_answer a) (run cs b).2 =
    List.filter (about_answer a) (run (List.filter (about a) cs) b).2.
Proof.
  assert (List.filter (about a) (List.filter (about a) cs) = List.filter (about a) cs) as Hf.
  { induction cs as [|c cs IH]; simpl; [done|]. destruct (about a c) eqn:H; simpl; [|done].
    by rewrite H, IH. }
  destruct (run_node a cs b) as [-> ->].
  destruct (run_node a (List.filter (about a) cs) b) as [-> ->]. by rewrite Hf.
Qed.

(** C12: A closed node trips exactly at the threshold: with no success in between, the calls
    before the failure of number [failureThreshold] are all admitted; that failure, at time
    [t], opens the node, and until [t + timeout] every call is refused, whatever is reported
    about it and whatever happens to the other nodes. *)
Theorem breaker_trips b a cs ds t :
  0 < failureThreshold (cfg b) < 2 ^ 32 ->
  state (node b a) = StateClosed -> consecutiveFailures (node b a) = 0 ->
  Forall (fun c => about a c = true -> quiet c = true) cs ->
  failures (List.filter (about a) cs) = failureThreshold (cfg b) - 1 ->
  Forall (fun c => about a c = true -> c <> CReset /\ before (t + timeout (cfg b)) c) ds ->
  let b1 := (run cs b).1 in
  let b2 := (Report (Some a) false t b1).1 in
  (forall r, r ∈ (run cs b).2 -> about a r.1 = true -> r.2 = true) /\
  state (node b1 a) = StateClosed /\
  state (node (run ds b2).1 a) = StateOpen /\ openedAt (node (run ds b2).1 a) = t /\
  (forall r, r ∈ (run ds b2).2 -> about a r.1 = true -> r.2 = false).
Proof.
  intros Hth Hst H0 Hq Hf Hds b1 b2.
  destruct (run_closed b a cs ltac:(lia) Hst ltac:(lia) Hq ltac:(lia)) as (Hst1 & Hn1 & Hans).
  pose proof (run_cfg cs b) as Hcf.
  assert (node b2 a = MkNode StateOpen 0 0 t false (halfOpenProbeAt (node b1 a))) as Hb2.
  { pose proof (apply_about (CReport (Some a) false t) a b1 ltac:(by apply bool_decide_eq_true)) as [Hn _].
    cbn [apply fst] in Hn. unfold b2. rewrite Hn. unfold b1 in *. rewrite Hcf. cbn [node_step].
    unfold report_node. rewrite Hst1. cbn [consecutiveFailures setFailures].
    unfold wrapu32. rewrite Hn1, Z.mod_small by lia.
    destruct (Z.leb_spec (failureThreshold (cfg b)) (consecutiveFailures (node b a)
      + failures (List.filter (about a) cs) + 1)); [|lia].
    unfold setState. cbn [state setFailures]. rewrite Hst1. done. }
  assert (cfg b2 = cfg b) as Hc2.
  { unfold b2. by rewrite (proj2 (Report_node b1 a false t)). }
  destruct (run_open b2 a ds) as [Hn3 Hans3]; [by rewrite Hb2|by rewrite Hb2, Hc2|].
  rewrite Hn3, Hb2. done.
Qed.

(** After its timeout an open node admits one probe: at a reading [t1] of the clock past
    [openedAt + timeout] the call is admitted, and until the probe reports or [probeTimeout]
    has passed since [t2] every other call is refused; the probe's report then closes the
    node with its counters at zero (one success wanted), or opens it again. *)
Theorem half_open_probe b a t1 t2 ds s t : state (node b a) = StateOpen ->
  openedAt (node b a) + timeout (cfg b) <= t1 -> successThreshold (cfg b) <= 1 ->
  Forall (fun c => about a c = true ->
    exists n u1 u2, c = CAvailable n u1 u2 /\ u1 < t2 + probeTimeout (cfg b)) ds ->
  let b1 := (Available (Some a) t1 t2 b).1.1 in
  let b2 := (run ds b1).1 in
  let b3 := (Report (Some a) s t b2).1 in
  (Available (Some a) t1 t2 b).1.2 = true /\
  (forall r, r ∈ (run ds b1).2 -> about a r.1 = true -> r.2 = false) /\
  (forall u1 u2, t2 + probeTimeout (cfg b) <= u1 -> (Available (Some a) u1 u2 b2).1.2 = true) /\
  state (node b3 a) = (if s then StateClosed else StateOpen) /\
  consecutiveFailures (node b3 a) = 0 /\ consecutiveSuccesses (node b3 a) = 0 /\
  (s = false -> openedAt (node b3 a) = t).
Proof.
  intros Hst Ht1 Hsth Hds b1 b2 b3.
  destruct (Available_node b a t1 t2) as (Hn & Hok & Hc1). fold b1 in Hn, Hc1.
  destruct (available_open (cfg b) a t1 t2 (node b a) Hst Ht1) as [out Hopen].
  rewrite Hopen in Hn, Hok. cbn [fst snd] in Hn, Hok.
  destruct (run_probing b1 a ds) as [Hn2 Hans2]; [by rewrite Hn|by rewrite Hn|by rewrite Hn, Hc1|].
  fold b2 in Hn2. rewrite Hn in Hn2. pose proof (run_cfg ds b1) as Hc2. fold b2 in Hc2. rewrite Hc1 in Hc2.
  destruct (Report_node b2 a s t) as [Hn3 _]. fold b3 in Hn3. rewrite Hn2, Hc2 in Hn3.
  destruct (report_probe (cfg b) a s t (openedAt (node b a)) t2 Hsth) as (Hs3 & Hf3 & Hk3 & Ho3).
  rewrite Hn3. split_and!; try done.
  intros u1 u2 Hu. destruct (Available_node b2 a u1 u2) as (_ & -> & _). rewrite Hn2, Hc2.
  unfold available_node. cbn [state halfOpenInflight halfOpenProbeAt].
  by rewrite (proj2 (Z.ltb_ge _ _)) by lia.
Qed.

(** A report is not tied to the call it answers: a call admitted before the node tripped,
    and still running while the probe is out, ends the probe with its own result. *)
Lemma late_report_closes :
  let b := NewNodeBreaker [WithFailureThreshold 1; WithTimeout 10] in
  let r := run [CAvailable (Some "n") 0 0; CAvailable (Some "n") 0 0;  (* two calls start *)
                CReport (Some "n") false 1;                            (* the first fails *)
                CAvailable (Some "n") 11 11;                           (* the probe starts *)
                CReport (Some "n") true 12;                            (* the second ends *)
                CAvailable (Some "n") 12 12; CAvailable (Some "n") 12 12] b in
  state (node r.1 "n") = StateClosed /\ Forall (fun x => x.2 = true) r.2.
Proof. split; [reflexivity|]. apply (bool_decide_unpack _). vm_compute. done. Qed.

Definition demo : NodeBreaker := NewNodeBreaker [WithFailureThreshold 2; WithTimeout 10; WithProbeTimeout 5].

Lemma breaker_trips_witness :
  state (node (run [CAvailable (Some "n") 12 12; CAvailable (Some "m") 99 99]
    (Report (Some "n") false 7 (run [CAvailable (Some "n") 1 1; CReport (Some "m") true 2;
      CReport (Some "n") false 3] demo).1).1).1 "n") = StateOpen.
Proof.
  refine (proj1 (proj2 (proj2 (breaker_trips demo "n" [CAvailable (Some "n") 1 1;
    CReport (Some "m") true 2; CReport (Some "n") false 3]
    [CAvailable (Some "n") 12 12; CAvailable (Some "m") 99 99] 7 _ _ _ _ _ _))));
  [vm_compute; split; congruence|reflexivity|reflexivity| |reflexivity|].
  - repeat apply Forall_cons_2; try apply Forall_nil_2; intros H; first [reflexivity|discriminate H].
  - repeat apply Forall_cons_2; try apply Forall_nil_2; intros H; [|discriminate H].
    split; [discriminate|vm_compute; reflexivity].
Defined.

Definition demo_open : NodeBreaker :=
  (run [CReport (Some "n") false 3; CReport (Some "n") false 7] demo).1.

Lemma half_open_probe_witness :
  state (node (Report (Some "n") true 23 (run [CAvailable (Some "n") 22 22; CReport (Some "m") false 22]
    (Available (Some "n") 20 20 demo_open).1.1).1).1 "n") = StateClosed.
Proof.
  refine (proj1 (proj2 (proj2 (proj2 (half_open_probe demo_open "n" 20 20
    [CAvailable (Some "n") 22 22; CReport (Some "m") false 22] true 23 _ _ _ _)))));
  [reflexivity|vm_compute; congruence|vm_compute; congruence|].
  repeat apply Forall_cons_2; try apply Forall_nil_2; intros H; [|discriminate H].
  exists (Some "n"), 22, 22. split; [reflexivity|vm_compute; reflexivity].
Defined.
