(* ===== verification/Timeline.v ===== *)
(** The event timeline ([pkg/timeline/timeline.go]): events scheduled at frame offsets, their
    snapshot in order of play, and the player that hands them out frame by frame. *)
From Stdlib Require Import ZArith Lia Bool Sorted.
From stdpp Require Import base numbers strings list sets.
From S2P Require Import Prelude.

Open Scope Z_scope.

Section timeline.
Context {E : Type}.

Record Entry := MkEntry { Offset : Z; Event : E }.

Record Timeline := MkTimeline { entries : list Entry; cursor : Z; sorted : bool }.

(** The zero value. *)
Definition zero : Timeline := MkTimeline [] 0 false.

Definition Append (offset : Z) (event : E) (t : Timeline) : Timeline :=
  MkTimeline (entries t ++ [MkEntry offset event]) (cursor t) false.

Definition At (offset : Z) (event : E) (t : Timeline) : Timeline := Append offset event t.

Definition After (duration : Z) (event : E) (t : Timeline) : Timeline :=
  let t := MkTimeline (entries t) (wrap64 (cursor t + duration)) (sorted t) in
  Append (cursor t) event t.

Fixpoint stagger_loop (i interval : Z) (events : list E) (t : Timeline) : Timeline :=
  match events with
  | [] => t
  | e :: events =>
      stagger_loop (i + 1) interval events (Append (wrap64 (cursor t + wrap64 (i * interval))) e t)
  end.
Definition Stagger (interval : Z) (events : list E) (t : Timeline) : Timeline :=
  stagger_loop 0 interval events t.

(** The comparison given to the sort; negative, zero or positive. *)
Definition compare (a b : Entry) : Z := wrap64 (Offset a - Offset b).

(** The library's [slices.SortStableFunc], as an insertion sort: a comparison that is an
    order has one stable result. *)
Fixpoint insert (cmp : Entry -> Entry -> Z) (x : Entry) (l : list Entry) : list Entry :=
  match l with
  | [] => [x]
  | y :: l => if 0 <? cmp y x then x :: y :: l else y :: insert cmp x l
  end.
Definition SortStableFunc (cmp : Entry -> Entry -> Z) (l : list Entry) : list Entry :=
  foldl (fun acc x => insert cmp x acc) [] l.

(** The timeline after the call, and the copy returned. *)
Definition Snapshot (t : Timeline) : Timeline * list Entry :=
  let t := if negb (sorted t)
           then MkTimeline (SortStableFunc compare (entries t)) (cursor t) true else t in
  (t, entries t).

Definition Duration (t : Timeline) : Z :=
  if decide (length (entries t) = 0%nat) then 0
  else foldl (fun maxOff e => if maxOff <? Offset e then Offset e else maxOff) 0 (entries t).

Definition Len (t : Timeline) : Z := Z.of_nat (length (entries t)).

Record Player := MkPlayer { psorted : list Entry; pos : nat; tick : Z }.

Definition NewPlayer (t : Timeline) : Timeline * Player :=
  let '(t, s) := Snapshot t in (t, MkPlayer s 0 0).
Definition NewPlayerFromEntries (es : list Entry) : Player := MkPlayer es 0 0.

(** The loop of [eventsAt] and [AdvanceTo] from the entry at [pos]: each turn moves it on. *)
Fixpoint events_from (rest : list Entry) (keep : Entry -> bool) (until : Z) : nat * list E :=
  match rest with
  | [] => (0%nat, [])
  | e :: rest =>
      if Offset e <=? until
      then let '(n, out) := events_from rest keep until in
           (S n, if keep e then Event e :: out else out)
      else (0%nat, [])
  end.

Definition eventsAt (until : Z) (p : Player) : Player * list E :=
  let '(n, out) := events_from (drop (pos p) (psorted p)) (fun _ => true) until in
  (MkPlayer (psorted p) (pos p + n) (tick p), out).

Definition Advance (p : Player) : Player * list E :=
  let p := MkPlayer (psorted p) (pos p) (wrap64 (tick p + 1)) in eventsAt (tick p) p.

Definition AdvanceTo (to : Z) (p : Player) : Player * list E :=
  if to <=? tick p then (p, [])
  else
    let prev := tick p in
    let '(n, out) := events_from (drop (pos p) (psorted p)) (fun e => prev <? Offset e) to in
    (MkPlayer (psorted p) (pos p + n) to, out).

Definition Done (p : Player) : bool := (length (psorted p) <=? pos p)%nat.
Definition Tick (p : Player) : Z := tick p.
Definition Remaining (p : Player) : Z :=
  let r := Z.of_nat (length (psorted p)) - Z.of_nat (pos p) in if r <? 0 then 0 else r.

(** * Building *)

Inductive build := BAppend (offset : Z) (e : E) | BAt (offset : Z) (e : E)
  | BAfter (duration : Z) (e : E) | BStagger (interval : Z) (es : list E) | BSnapshot.

Definition apply (b : build) (t : Timeline) : Timeline :=
  match b with
  | BAppend o e => Append o e t
  | BAt o e => At o e t
  | BAfter d e => After d e t
  | BStagger i es => Stagger i es t
  | BSnapshot => (Snapshot t).1
  end.

(** What is scheduled, in the order of the calls: [After] counts from the previous [After]. *)
Fixpoint staggered (at_ interval : Z) (es : list E) : list Entry :=
  match es with
  | [] => []
  | e :: es => MkEntry at_ e :: staggered (at_ + interval) interval es
  end.
Fixpoint schedule (at_ : Z) (bs : list build) : list Entry :=
  match bs with
  | [] => []
  | BAppend o e :: bs | BAt o e :: bs => MkEntry o e :: schedule at_ bs
  | BAfter d e :: bs => MkEntry (at_ + d) e :: schedule (at_ + d) bs
  | BStagger i es :: bs => staggered at_ i es ++ schedule at_ bs
  | BSnapshot :: bs => schedule at_ bs
  end.

(** Offsets whose differences do not overflow. *)
Definition small (e : Entry) : Prop := - 2 ^ 62 < Offset e < 2 ^ 62.
Definition le (a b : Entry) : Prop := Offset a <= Offset b.
Definition at_offset (o : Z) (l : list Entry) : list Entry :=
  List.filter (fun e => Offset e =? o) l.

Lemma bfilter_none {A} (p : A -> bool) l : (forall z, z ∈ l -> p z = false) -> List.filter p l = [].
Proof.
  induction l as [|x l IH]; intros H; simpl; [done|]. rewrite (H x) by (by left).
  apply IH. intros z Hz. apply H. by right.
Qed.

Lemma compare_small a b : small a -> small b -> compare a b = Offset a - Offset b.
Proof. intros. unfold compare, small in *. apply wrap64_id. unfold int64. lia. Qed.

Lemma elem_insert x y l : y ∈ insert compare x l <-> y = x \/ y ∈ l.
Proof.
  induction l as [|z l IH]; simpl; [by rewrite elem_of_cons|].
  destruct (0 <? compare z x); [by rewrite elem_of_cons|]. rewrite !elem_of_cons, IH. naive_solver.
Qed.

Lemma insert_sorted x l : small x -> Forall small l -> StronglySorted le l ->
  StronglySorted le (insert compare x l).
Proof.
  intros Hx Hl Hs. induction Hs as [|y l Hs IH Hall]; simpl; [by repeat constructor|].
  apply Forall_cons in Hl as [Hy Hl]. rewrite compare_small by done.
  destruct (Z.ltb_spec 0 (Offset y - Offset x)).
  - constructor; [by constructor|]. constructor; [unfold le; lia|].
    eapply Forall_impl; [exact Hall|]. unfold le. lia.
  - constructor; [by apply IH|]. rewrite Forall_forall in *. intros z [->|Hz]%elem_insert.
    + unfold le. lia.
    + by apply Hall.
Qed.

Lemma insert_at o x l : small x -> Forall small l -> StronglySorted le l ->
  at_offset o (insert compare x l) = at_offset o (l ++ [x]).
Proof.
  intros Hx Hl Hs. induction Hs as [|y l Hs IH Hall]; [done|]. cbn [insert app].
  apply Forall_cons in Hl as [Hy Hl]. rewrite compare_small by done.
  destruct (Z.ltb_spec 0 (Offset y - Offset x)); unfold at_offset in *; cbn [List.filter].
  - assert (Offset x = o -> List.filter (fun e => Offset e =? o) (y :: l) = []) as Hnil.
    { intros <-. cbn [List.filter]. rewrite (proj2 (Z.eqb_neq _ _)) by lia.
      apply bfilter_none. intros z Hz. rewrite Forall_forall in Hall.
      apply Z.eqb_neq. specialize (Hall z Hz). unfold le in Hall. lia. }
    cbn [List.filter] in Hnil. rewrite List.filter_app. cbn [List.filter].
    destruct (Z.eqb_spec (Offset x) o) as [Hxo|].
    + specialize (Hnil Hxo). destruct (Offset y =? o); [done|]. by rewrite Hnil.
    + rewrite app_nil_r. done.
  - rewrite IH by done. done.
Qed.

Lemma at_offset_app o l k : at_offset o (l ++ k) = at_offset o l ++ at_offset o k.
Proof. apply List.filter_app. Qed.

Lemma elem_at e l : e ∈ at_offset (Offset e) l <-> e ∈ l.
Proof.
  unfold at_offset. rewrite list_elem_of_In, filter_In, Z.eqb_eq, <- list_elem_of_In. naive_solver.
Qed.

(** Two lists that agree offset by offset have the same entries. *)
Lemma same_small l k : (forall o, at_offset o l = at_offset o k) -> Forall small k -> Forall small l.
Proof.
  intros H Hk. rewrite Forall_forall in *. intros e He. apply Hk. apply elem_at. rewrite <- H.
  by apply elem_at.
Qed.

Lemma sort_acc l : forall acc, Forall small l -> Forall small acc -> StronglySorted le acc ->
  StronglySorted le (foldl (fun acc x => insert compare x acc) acc l) /\
  (forall o, at_offset o (foldl (fun acc x => insert compare x acc) acc l) = at_offset o (acc ++ l)).
Proof.
  induction l as [|x l IH]; intros acc Hl Ha Hs; cbn [foldl]; [by rewrite app_nil_r|].
  apply Forall_cons in Hl as [Hx Hl].
  assert (Forall small (insert compare x acc)) as Hi.
  { apply (same_small _ (acc ++ [x])); [intros; by apply insert_at|].
    apply Forall_app. split; [done|by constructor]. }
  destruct (IH _ Hl Hi (insert_sorted _ _ Hx Ha Hs)) as [H1 H2]. split; [done|].
  intros o. rewrite H2, at_offset_app, insert_at by done.
  rewrite <- at_offset_app. by rewrite <- app_assoc.
Qed.

Lemma SortStable_spec l : Forall small l ->
  StronglySorted le (SortStableFunc compare l) /\
  (forall o, at_offset o (SortStableFunc compare l) = at_offset o l).
Proof. intros Hl. apply (sort_acc l []); [done|constructor|constructor]. Qed.

(** A timeline is consistent: sorted when it says so. *)
Definition ok (t : Timeline) : Prop := sorted t = true -> StronglySorted le (entries t).

Lemma Snapshot_spec t : ok t -> Forall small (entries t) ->
  let '(t', out) := Snapshot t in
  out = entries t' /\ ok t' /\ cursor t' = cursor t /\ StronglySorted le out /\
  (forall o, at_offset o out = at_offset o (entries t)).
Proof.
  intros Hok Hs. unfold Snapshot. destruct (sorted t) eqn:Hsd; simpl.
  - split_and!; try done. by apply Hok.
  - destruct (SortStable_spec _ Hs) as [H1 H2]. split_and!; try done. by intros _.
Qed.

Lemma Append_spec o e t : ok (Append o e t) /\ entries (Append o e t) = entries t ++ [MkEntry o e] /\
  cursor (Append o e t) = cursor t.
Proof. done. Qed.

Lemma wrap_twice c x : wrap64 (c + wrap64 x) = wrap64 (c + x).
Proof.
  apply wrap64_congr. unfold wrap64.
  replace (c + ((x + 2 ^ 63) mod 2 ^ 64 - 2 ^ 63) - (c + x))
    with ((x + 2 ^ 63) mod 2 ^ 64 - (x + 2 ^ 63)) by lia.
  rewrite Zminus_mod_idemp_l, Z.sub_diag. done.
Qed.

Lemma small_wrap o e : small (MkEntry o e) -> wrap64 o = o.
Proof. unfold small. simpl. intros. apply wrap64_id. unfold int64. lia. Qed.

Lemma stagger_spec interval es : forall i t, ok t ->
  Forall small (staggered (cursor t + i * interval) interval es) ->
  let t' := stagger_loop i interval es t in
  ok t' /\ cursor t' = cursor t /\
  entries t' = entries t ++ staggered (cursor t + i * interval) interval es.
Proof.
  induction es as [|e es IH]; intros i t Hok Hs; cbn [stagger_loop staggered] in *.
  { by rewrite app_nil_r. }
  apply Forall_cons in Hs as [He Hs]. rewrite wrap_twice, (small_wrap _ _ He).
  replace (cursor t + i * interval + interval) with (cursor t + (i + 1) * interval) in * by lia.
  destruct (IH (i + 1) (Append (cursor t + i * interval) e t)) as (H1 & H2 & H3); [done|done|].
  split_and!; [done|done|]. rewrite H3. simpl. by rewrite <- app_assoc.
Qed.

(** Building schedules what it says, offset by offset. *)
Lemma build_spec bs : forall t, ok t -> Forall small (entries t) -> Forall small (schedule (cursor t) bs) ->
  let t' := foldl (fun t b => apply b t) t bs in
  ok t' /\ (forall o, at_offset o (entries t') = at_offset o (entries t ++ schedule (cursor t) bs)).
Proof.
  induction bs as [|b bs IH]; intros t Hok Ht Hs; cbn [foldl]; [simpl; by rewrite app_nil_r|].
  destruct b as [o e|o e|d e|i es|]; cbn [schedule apply] in *; unfold At in *.
  1, 2: apply Forall_cons in Hs as [He Hs];
    destruct (IH (Append o e t)) as [H1 H2];
      [done|apply Forall_app; split; [done|by constructor]|done|split; [done|]];
    intros o'; rewrite (H2 o'); simpl; by rewrite <- app_assoc.
  - apply Forall_cons in Hs as [He Hs]. unfold After. cbn [cursor]. rewrite (small_wrap _ _ He).
    destruct (IH (Append (cursor t + d) e (MkTimeline (entries t) (cursor t + d) (sorted t)))) as [H1 H2];
      [done|apply Forall_app; split; [done|by constructor]|done|split; [done|]].
    intros o'. rewrite (H2 o'). simpl. by rewrite <- app_assoc.
  - apply Forall_app in Hs as [He Hs]. unfold Stagger.
    destruct (stagger_spec i es 0 t Hok) as (H1 & H2 & H3); [by rewrite Z.add_0_r|].
    rewrite Z.mul_0_l, Z.add_0_r in H3.
    destruct (IH (stagger_loop 0 i es t)) as [H4 H5];
      [done|rewrite H3; by apply Forall_app|by rewrite H2|split; [done|]].
    intros o'. rewrite (H5 o'), H3, H2. by rewrite <- app_assoc.
  - pose proof (Snapshot_spec t Hok Ht) as H. destruct (Snapshot t) as [t1 out]. cbn [fst].
    destruct H as (-> & Hok1 & Hc & Hsort & Hat).
    destruct (IH t1) as [H4 H5]; [done|by eapply same_small|by rewrite Hc|split; [done|]].
    intros o'. rewrite (H5 o'), Hc, !at_offset_app. by rewrite Hat.
Qed.

(** * Playing *)

(** The events due after [lo] and up to [hi]; [None] is before all time. *)
Definition due (lo : option Z) (hi : Z) (l : list Entry) : list E :=
  Event <$> List.filter (fun e => match lo with None => true | Some lo => lo <? Offset e end
                                  && (Offset e <=? hi)) l.

Inductive move := MAdvance | MTo (to : Z).

Definition step (m : move) (p : Player) : Player * list E :=
  match m with MAdvance => Advance p | MTo to => AdvanceTo to p end.

Fixpoint play (ms : list move) (p : Player) : list (list E) :=
  match ms with [] => [] | m :: ms => let '(p, out) := step m p in out :: play ms p end.

(** [Advance] hands out the next frame, the first one with all before it; [AdvanceTo] hands
    out the frames after the current one. [first]: nothing was played yet. *)
Fixpoint windows (ms : list move) (first : bool) (t : Z) (l : list Entry) : list (list E) :=
  match ms with
  | [] => []
  | MAdvance :: ms => due (if first then None else Some t) (t + 1) l :: windows ms false (t + 1) l
  | MTo to :: ms =>
      if to <=? t then [] :: windows ms first t l
      else due (Some t) to l :: windows ms false to l
  end.

(** [events_from] stops at the first entry not yet due; in a sorted list, none after it is. *)
Lemma events_from_sorted keep until l : StronglySorted le l ->
  events_from l keep until =
    (length (List.filter (fun e => Offset e <=? until) l),
     Event <$> List.filter (fun e => keep e && (Offset e <=? until)) l).
Proof.
  intros Hs. induction Hs as [|x l Hs IH Hall]; [done|]. cbn [events_from List.filter].
  destruct (Z.leb_spec (Offset x) until).
  - rewrite IH, andb_true_r. by destruct (keep x).
  - rewrite andb_false_r. rewrite Forall_forall in Hall.
    rewrite !bfilter_none; [done| |]; intros z Hz; specialize (Hall z Hz); unfold le in Hall.
    + rewrite andb_false_iff. right. apply Z.leb_gt. lia.
    + apply Z.leb_gt. lia.
Qed.

Lemma sorted_split t l : StronglySorted le l ->
  l = List.filter (fun e => Offset e <=? t) l ++ List.filter (fun e => t <? Offset e) l.
Proof.
  intros Hs. induction Hs as [|x l Hs IH Hall]; [done|]. cbn [List.filter].
  destruct (Z.leb_spec (Offset x) t).
  - rewrite (proj2 (Z.ltb_ge _ _)) by lia. simpl. by f_equal.
  - rewrite (proj2 (Z.ltb_lt _ _)) by lia. rewrite Forall_forall in Hall. rewrite bfilter_none.
    + simpl. f_equal. symmetry. apply forallb_filter_id. apply forallb_forall. intros z Hz.
      apply list_elem_of_In, Hall in Hz. apply Z.ltb_lt. unfold le in Hz. lia.
    + intros z Hz. specialize (Hall z Hz). unfold le in Hall. apply Z.leb_gt. lia.
Qed.

Lemma sorted_drop t l : StronglySorted le l ->
  drop (length (List.filter (fun e => Offset e <=? t) l)) l = List.filter (fun e => t <? Offset e) l.
Proof. intros Hs. rewrite (sorted_split t l Hs) at 2. by rewrite drop_app_length. Qed.

(** The player's position: the entries already due are consumed. *)
Definition at_tick (t : Z) (p : Player) : Prop :=
  tick p = t /\ pos p = length (List.filter (fun e => Offset e <=? t) (psorted p)).

Lemma filter_length_split t to l : t <= to ->
  (length (List.filter (fun e : Entry => (Offset e <=? t)%Z) l) +
   length (List.filter (fun e : Entry => (Offset e <=? to)%Z) (List.filter (fun e : Entry => (t <? Offset e)%Z) l)))%nat =
  length (List.filter (fun e => Offset e <=? to) l).
Proof.
  intros Ht. induction l as [|x l IH]; [done|]. cbn [List.filter].
  destruct (Z.leb_spec (Offset x) t); destruct (Z.ltb_spec t (Offset x)); try lia.
  - rewrite (proj2 (Z.leb_le (Offset x) to)) by lia. cbn [length]. lia.
  - cbn [List.filter]. destruct (Offset x <=? to); cbn [length]; lia.
Qed.

Lemma filter_filter {A} (p q : A -> bool) l :
  List.filter p (List.filter q l) = List.filter (fun x => q x && p x) l.
Proof. induction l as [|x l IH]; [done|]. simpl. destruct (q x); simpl; [|done]. by rewrite IH. Qed.

Lemma filter_sorted p l : StronglySorted le l -> StronglySorted le (List.filter p l).
Proof.
  induction 1 as [|x l Hs IH Hall]; simpl; [constructor|]. destruct (p x); [|done].
  constructor; [done|]. rewrite Forall_forall in *. intros z Hz. apply Hall.
  apply list_elem_of_In in Hz. apply filter_In in Hz as [? _]. by apply list_elem_of_In.
Qed.

Lemma due_keep t until l (keep : Entry -> bool) : (forall e, t < Offset e -> keep e = true) ->
  Event <$> List.filter (fun e => keep e && (Offset e <=? until))
    (List.filter (fun e => t <? Offset e) l) = due (Some t) until l.
Proof.
  intros Hk. unfold due. f_equal. rewrite filter_filter. apply List.filter_ext. intros e.
  destruct (Z.ltb_spec t (Offset e)); [|done]. by rewrite Hk.
Qed.

(** One frame, and a jump, from a player that is up to date. *)
Lemma Advance_later t p : StronglySorted le (psorted p) -> at_tick t p -> int64 (t + 1) ->
  (Advance p).2 = due (Some t) (t + 1) (psorted p) /\
  at_tick (t + 1) (Advance p).1 /\ psorted (Advance p).1 = psorted p.
Proof.
  intros Hs [Ht Hp] Hr. unfold Advance, eventsAt, at_tick. cbn [tick pos psorted].
  rewrite Ht, Hp, wrap64_id, sorted_drop by done.
  rewrite events_from_sorted by (by apply filter_sorted).
  cbn [fst snd tick pos psorted]. split_and!; [|done| |done].
  - by apply (due_keep t).
  - apply filter_length_split. lia.
Qed.

Lemma AdvanceTo_later t to p : StronglySorted le (psorted p) -> at_tick t p -> t < to ->
  (AdvanceTo to p).2 = due (Some t) to (psorted p) /\
  at_tick to (AdvanceTo to p).1 /\ psorted (AdvanceTo to p).1 = psorted p.
Proof.
  intros Hs [Ht Hp] Hlt. unfold AdvanceTo, at_tick. rewrite Ht, Hp.
  rewrite (proj2 (Z.leb_gt _ _)) by lia. rewrite sorted_drop by done.
  rewrite events_from_sorted by (by apply filter_sorted).
  cbn [fst snd tick pos psorted]. split_and!; [|done| |done].
  - apply (due_keep t). intros e He. by apply Z.ltb_lt.
  - apply filter_length_split. lia.
Qed.

(** The same from a player just made. *)
Lemma Advance_first p : StronglySorted le (psorted p) -> tick p = 0 -> pos p = 0%nat ->
  (Advance p).2 = due None 1 (psorted p) /\
  at_tick 1 (Advance p).1 /\ psorted (Advance p).1 = psorted p.
Proof.
  intros Hs Ht Hp. unfold Advance, eventsAt, at_tick. cbn [tick pos psorted].
  rewrite Ht, Hp, drop_0. change (wrap64 (0 + 1)) with 1. by rewrite events_from_sorted.
Qed.

Lemma AdvanceTo_first to p : StronglySorted le (psorted p) -> tick p = 0 -> pos p = 0%nat -> 0 < to ->
  (AdvanceTo to p).2 = due (Some 0) to (psorted p) /\
  at_tick to (AdvanceTo to p).1 /\ psorted (AdvanceTo to p).1 = psorted p.
Proof.
  intros Hs Ht Hp Hlt. unfold AdvanceTo, at_tick. rewrite Ht, Hp, drop_0.
  rewrite (proj2 (Z.leb_gt _ _)) by lia. by rewrite events_from_sorted.
Qed.

(** No move goes past the range of the frame counter. *)
Fixpoint in_range (ms : list move) (t : Z) : Prop :=
  match ms with
  | [] => True
  | MAdvance :: ms => t + 1 < 2 ^ 63 /\ in_range ms (t + 1)
  | MTo to :: ms => in_range ms (Z.max t to)
  end.

Lemma play_later ms : forall t p, 0 <= t -> StronglySorted le (psorted p) -> at_tick t p ->
  in_range ms t -> play ms p = windows ms false t (psorted p).
Proof.
  induction ms as [|[|to] ms IH]; intros t p H0 Hs Hat Hr; [done| |]; cbn [play windows step].
  - destruct Hr as [Hlt Hr].
    destruct (Advance_later t p Hs Hat) as (Ho & Hat1 & Hp1); [unfold int64; lia|].
    destruct (Advance p) as [p1 out]. cbn [fst snd] in *. rewrite Ho. f_equal.
    rewrite (IH (t + 1)), Hp1; [done|lia|by rewrite Hp1|done|done].
  - simpl in Hr. destruct (Z.leb_spec to t).
    + unfold AdvanceTo. rewrite (proj1 Hat), (proj2 (Z.leb_le _ _)) by lia.
      rewrite Z.max_l in Hr by lia. f_equal. by apply IH.
    + destruct (AdvanceTo_later t to p Hs Hat) as (Ho & Hat1 & Hp1); [done|].
      destruct (AdvanceTo to p) as [p1 out]. cbn [fst snd] in *. rewrite Ho. f_equal.
      rewrite Z.max_r in Hr by lia. rewrite (IH to), Hp1; [done|lia|by rewrite Hp1|done|done].
Qed.

Lemma play_first ms : forall p, StronglySorted le (psorted p) -> tick p = 0 -> pos p = 0%nat ->
  in_range ms 0 -> play ms p = windows ms true 0 (psorted p).
Proof.
  induction ms as [|[|to] ms IH]; intros p Hs Ht Hp Hr; [done| |]; cbn [play windows step].
  - destruct Hr as [_ Hr]. destruct (Advance_first p Hs Ht Hp) as (Ho & Hat1 & Hp1).
    destruct (Advance p) as [p1 out]. cbn [fst snd] in *. rewrite Ho. f_equal.
    rewrite (play_later ms 1), Hp1; [done|lia|by rewrite Hp1|done|done].
  - simpl in Hr. destruct (Z.leb_spec to 0).
    + unfold AdvanceTo. rewrite Ht, (proj2 (Z.leb_le _ _)) by lia.
      rewrite Z.max_l in Hr by lia. f_equal. by apply IH.
    + destruct (AdvanceTo_first to p Hs Ht Hp) as (Ho & Hat1 & Hp1); [done|].
      destruct (AdvanceTo to p) as [p1 out]. cbn [fst snd] in *. rewrite Ho. f_equal.
      rewrite Z.max_r in Hr by lia.
      rewrite (play_later ms to), Hp1; [done|lia|by rewrite Hp1|done|done].
Qed.

(** * Properties *)

(** C13: Whatever calls built a timeline, in whatever order of offsets and with snapshots taken
    in between, [Snapshot] is in order of offset and holds at each offset exactly the events
    scheduled there, in the order they were added; a player over it hands out, move by move,
    the events of the window of frames the move covers: the next frame ([Advance], with
    everything before it on the first move) or the frames after the current one
    ([AdvanceTo]). *)
Theorem timeline_plays bs ms : Forall small (schedule 0 bs) -> in_range ms 0 ->
  let '(t, out) := Snapshot (foldl (fun t b => apply b t) zero bs) in
  StronglySorted le out /\
  (forall o, at_offset o out = at_offset o (schedule 0 bs)) /\
  play ms (NewPlayer t).2 = windows ms true 0 out.
Proof.
  intros Hs Hr. destruct (build_spec bs zero) as [Hok Hat]; [done|constructor|done|].
  cbn [entries zero cursor app] in Hat. set (t0 := foldl _ _ _) in *.
  pose proof (Snapshot_spec t0 Hok (same_small _ _ Hat Hs)) as H.
  destruct (Snapshot t0) as [t out] eqn:Hsn. destruct H as (-> & Hok1 & _ & Hsort & Hat1).
  assert (sorted t = true) as Hst.
  { unfold Snapshot in Hsn. destruct (sorted t0) eqn:Hsd; simpl in Hsn; by injection Hsn as <- _. }
  split_and!; [done|intros o; by rewrite Hat1, Hat|].
  unfold NewPlayer, Snapshot. rewrite Hst. cbn [negb snd]. by apply play_first.
Qed.

(** An event at offset 0 is never handed out by a player that only jumps. *)
Lemma jump_skips_start (e : E) :
  let t := Append 0 e zero in
  play [MTo 10] (NewPlayer t).2 = [[]] /\ Done (AdvanceTo 10 (NewPlayer t).2).1 = true.
Proof. done. Qed.
End timeline.

Arguments Entry : clear implicits.
Arguments Timeline : clear implicits.
Arguments Player : clear implicits.
Arguments build : clear implicits.

Definition demo : list (build string) :=
  [BAfter 0 "cast"; BStagger 5 ["hit1"; "hit2"; "hit3"]; BAfter 20 "end"; BSnapshot; BAppend 5 "late"].
Definition demo_moves : list move := [MTo (-3); MAdvance; MTo 7; MTo 5; MAdvance; MTo 30].

Lemma timeline_plays_witness :
  let '(t, out) := Snapshot (foldl (fun t b => apply b t) zero demo) in
  play demo_moves (NewPlayer t).2 = windows demo_moves true 0 out /\
  windows demo_moves true 0 out = [[]; ["cast"; "hit1"]; ["hit2"; "late"]; []; []; ["hit3"; "end"]].
Proof.
  refine (conj (proj2 (proj2 (timeline_plays demo demo_moves _ _))) _).
  - repeat apply Forall_cons_2; try apply Forall_nil_2; unfold small; cbn [Offset]; lia.
  - cbn [in_range demo_moves]. lia.
  - vm_compute. reflexivity.
Defined.
