(* ===== verification/BehaviorTree.v ===== *)
(** Behaviour trees ([pkg/behaviortree/behaviortree.go]): composite and decorator nodes
    over a blackboard, some of which remember where they stopped. A tick walks the tree and
    returns a status; the nodes it leaves behind hold what they remember. *)
From Stdlib Require Import ZArith Lia Bool.
From stdpp Require Import base numbers strings list.
From S2P Require Import Prelude.

Open Scope Z_scope.

Inductive Status := Running | Success | Failure.

#[global] Instance Status_eq : EqDecision Status.
Proof. solve_decision. Defined.

(** An integer type: other values than the two constants are possible. *)
Inductive ParallelPolicy := RequireAll | RequireOne | OtherPolicy.

Section tree.
(** The blackboard, with all that the leaves read and write. *)
Context {B : Type}.

(** A node object is used at one place of one tree. *)
Inductive Node :=
| Action (a : B -> B * Status)
| Condition (c : B -> B * bool)
| sequence (children : list Node)
| selector (children : list Node)
| memSequence (children : list Node) (running : nat)
| memSelector (children : list Node) (running : nat)
| parallel (policy : ParallelPolicy) (children : list Node)
| inverter (child : Node)
| succeeder (child : Node)
| repeater (limit count : Z) (child : Node)
| repeatUntilFail (child : Node)
| guard (cond : B -> B * bool) (child : Node)
| cooldownNode (ticks counter : Z) (child : Node).

Definition Sequence (children : list Node) : Node := sequence children.
Definition Selector (children : list Node) : Node := selector children.
Definition MemSequence (children : list Node) : Node := memSequence children 0.
Definition MemSelector (children : list Node) : Node := memSelector children 0.
Definition Parallel (policy : ParallelPolicy) (children : list Node) : Node := parallel policy children.
Definition Inverter (child : Node) : Node := inverter child.
Definition Succeeder (child : Node) : Node := succeeder child.
Definition Repeater (n : Z) (child : Node) : Node := repeater n 0 child.
Definition RepeatUntilFail (child : Node) : Node := repeatUntilFail child.
Definition Guard (cond : B -> B * bool) (child : Node) : Node := guard cond child.
Definition Cooldown (ticks : Z) (child : Node) : Node := cooldownNode ticks 0 child.

(** The node after the tick, the blackboard and the status; [None] is out of fuel. *)
Abbreviation ticked := (option (Node * B * Status)).

Definition one_further (r : option (nat * Status)) : option (nat * Status) :=
  match r with Some (i, s) => Some (S i, s) | None => None end.

Section loops.
Variable tick : Node -> B -> ticked.

(** The loop of the sequence and selector nodes: it goes on past the children that return
    [go_on], and reports the first other status with the child's position. *)
Fixpoint children_loop (go_on : Status) (l : list Node) (bb : B)
    : option (list Node * B * option (nat * Status)) :=
  match l with
  | [] => Some ([], bb, None)
  | c :: l =>
      '(c, bb, s) ← tick c bb;
      if decide (s = go_on)
      then '(l, bb, r) ← children_loop go_on l bb; Some (c :: l, bb, one_further r)
      else Some (c :: l, bb, Some (0%nat, s))
  end.

Definition plain_tick (node : list Node -> Node) (go_on : Status) (children : list Node) (bb : B)
    : ticked :=
  '(children, bb, r) ← children_loop go_on children bb;
  Some (node children, bb, match r with Some (_, s) => s | None => go_on end).

Definition mem_tick (node : list Node -> nat -> Node) (go_on : Status) (children : list Node)
    (running : nat) (bb : B) : ticked :=
  '(rest, bb, r) ← children_loop go_on (drop running children) bb;
  let children := take running children ++ rest in
  Some (match r with
        | Some (i, Running) => (node children (running + i)%nat, bb, Running)
        | Some (_, s) => (node children 0%nat, bb, s)
        | None => (node children 0%nat, bb, go_on)
        end).

(** The loop of the parallel node: every child, with the successes and failures. *)
Fixpoint parallel_loop (l : list Node) (bb : B) (successes failures : Z)
    : option (list Node * B * Z * Z) :=
  match l with
  | [] => Some ([], bb, successes, failures)
  | c :: l =>
      '(c, bb, s) ← tick c bb;
      '(l, bb, su, fa) ← parallel_loop l bb
        (if decide (s = Success) then successes + 1 else successes)
        (if decide (s = Failure) then failures + 1 else failures);
      Some (c :: l, bb, su, fa)
  end.
End loops.

Definition verdict (policy : ParallelPolicy) (successes failures total : Z) : Status :=
  match policy with
  | RequireAll =>
      if 0 <? failures then Failure else if successes =? total then Success else Running
  | RequireOne =>
      if 0 <? successes then Success else if failures =? total then Failure else Running
  | OtherPolicy => Failure
  end.

(** One unit of fuel per level of the tree and per turn of a repeater. *)
Fixpoint Tick (fuel : nat) (t : Node) (bb : B) : ticked :=
  match fuel with
  | O => None
  | S fuel =>
      match t with
      | Action a => let '(bb, s) := a bb in Some (t, bb, s)
      | Condition c => let '(bb, ok) := c bb in Some (t, bb, if ok : bool then Success else Failure)
      | sequence l => plain_tick (Tick fuel) sequence Success l bb
      | selector l => plain_tick (Tick fuel) selector Failure l bb
      | memSequence l i => mem_tick (Tick fuel) memSequence Success l i bb
      | memSelector l i => mem_tick (Tick fuel) memSelector Failure l i bb
      | parallel p l =>
          '(l', bb, su, fa) ← parallel_loop (Tick fuel) l bb 0 0;
          Some (parallel p l', bb, verdict p su fa (Z.of_nat (length l)))
      | inverter c =>
          '(c, bb, s) ← Tick fuel c bb;
          Some (inverter c, bb, match s with Success => Failure | Failure => Success | Running => Running end)
      | succeeder c =>
          '(c, bb, s) ← Tick fuel c bb;
          Some (succeeder c, bb, if decide (s = Running) then Running else Success)
      | repeater limit count c =>
          if (0 <? limit) && (limit <=? count) then Some (repeater limit 0 c, bb, Success)
          else
            '(c, bb, s) ← Tick fuel c bb;
            match s with
            | Failure => Some (repeater limit 0 c, bb, Failure)
            | Running => Some (repeater limit count c, bb, Running)
            | Success =>
                let count := wrap64 (count + 1) in
                if limit =? 0 then Some (repeater limit count c, bb, Running)
                else Tick fuel (repeater limit count c) bb
            end
      | repeatUntilFail c =>
          '(c, bb, s) ← Tick fuel c bb;
          Some (repeatUntilFail c, bb, match s with Failure => Success | _ => Running end)
      | guard cond c =>
          let '(bb, ok) := cond bb in
          if negb ok then Some (guard cond c, bb, Failure)
          else '(c, bb, s) ← Tick fuel c bb; Some (guard cond c, bb, s)
      | cooldownNode ticks counter c =>
          if 0 <? counter then Some (cooldownNode ticks (counter - 1) c, bb, Failure)
          else
            '(c, bb, s) ← Tick fuel c bb;
            Some (cooldownNode ticks (if decide (s = Success) then ticks else counter) c, bb, s)
      end
  end.

(** Ticks of one tree; before each the rest of the program changes the blackboard. *)
Fixpoint ticks (fuel : nat) (envs : list (B -> B)) (t : Node) (bb : B)
    : option (Node * B * list Status) :=
  match envs with
  | [] => Some (t, bb, [])
  | env :: envs =>
      '(t, bb, s) ← Tick fuel t (env bb);
      '(t, bb, l) ← ticks fuel envs t bb;
      Some (t, bb, s :: l)
  end.

(** * Termination *)

(** The fuel a tick needs: the levels below a node, and the turns of its repeaters. *)
Fixpoint bound (t : Node) : nat :=
  match t with
  | Action _ | Condition _ => 1%nat
  | sequence l | selector l | memSequence l _ | memSelector l _ | parallel _ l =>
      S (list_max (map bound l))
  | inverter c | succeeder c | repeatUntilFail c | guard _ c | cooldownNode _ _ c => S (bound c)
  | repeater limit _ c => (S (Z.to_nat limit) + S (bound c))%nat
  end.

(** Repeaters count up to a limit, not below zero; a memory points into the children. *)
Fixpoint wfb (t : Node) : bool :=
  match t with
  | Action _ | Condition _ => true
  | sequence l | selector l | parallel _ l => forallb wfb l
  | memSequence l i | memSelector l i => forallb wfb l && (i <=? length l)%nat
  | inverter c | succeeder c | repeatUntilFail c | guard _ c | cooldownNode _ _ c => wfb c
  | repeater limit count c =>
      (0 <=? limit) && (limit <? 2 ^ 63) && ((limit =? 0) || ((0 <=? count) && (count <=? limit))) && wfb c
  end.

(** The fuel needed now: a repeater that has counted needs fewer turns. *)
Definition need (t : Node) : nat :=
  match t with
  | repeater limit count c =>
      if limit =? 0 then S (bound c) else (S (Z.to_nat (limit - count)) + bound c)%nat
  | _ => bound t
  end.

Definition returns (fuel : nat) (t : Node) (bb : B) : Prop :=
  exists t' bb' s, Tick fuel t bb = Some (t', bb', s) /\ bound t' = bound t /\ wfb t' = true.

Lemma list_max_map_le (l : list Node) c fuel :
  c ∈ l -> (list_max (map bound l) <= fuel)%nat -> (bound c <= fuel)%nat.
Proof.
  intros Hc Hm. apply list_max_le in Hm. rewrite List.Forall_forall in Hm. apply Hm.
  apply in_map. by apply list_elem_of_In.
Qed.

Lemma need_bound t : wfb t = true -> (need t <= bound t)%nat.
Proof.
  destruct t; simpl; try lia. rewrite !andb_true_iff, orb_true_iff, andb_true_iff.
  rewrite Z.eqb_eq, !Z.leb_le, Z.ltb_lt. destruct (Z.eqb_spec limit 0); lia.
Qed.

(** The loops return when the ticks of the children do. *)
Lemma children_loop_returns fuel go_on l : forall bb,
  (forall c bb, c ∈ l -> returns fuel c bb) ->
  exists l' bb' r, children_loop (Tick fuel) go_on l bb = Some (l', bb', r) /\
    map bound l' = map bound l /\ length l' = length l /\ 
    (forallb wfb l = true -> forallb wfb l' = true) /\
    (forall i s, r = Some (i, s) -> (i < length l)%nat).
Proof.
  induction l as [|c l IH]; intros bb H; cbn [children_loop].
  { eexists [], bb, None. by split_and!. }
  destruct (H c bb ltac:(by left)) as (c' & bb1 & s & Ht & Hb & Hw). rewrite Ht. cbn [mbind option_bind].
  destruct (decide (s = go_on)).
  - destruct (IH bb1) as (l' & bb2 & r & Hl & Hb' & Hn & Hw' & Hr);
      [intros; apply H; by right|]. rewrite Hl. cbn [mbind option_bind].
    eexists _, _, _. split; [done|]. cbn [map length forallb]. rewrite Hb, Hb', Hn, Hw.
    split_and!; [done|done| |].
    + intros [_ ?]%andb_true_iff. by apply Hw'.
    + intros i s'. destruct r as [[j s1]|]; [|done]. simpl. intros [= <- _].
      specialize (Hr j s1 eq_refl). lia.
  - eexists _, _, _. split; [done|]. cbn [map length forallb]. rewrite Hb, Hw. split_and!; [done|done| |].
    + by intros [_ ?]%andb_true_iff.
    + intros i s' [= <- _]. lia.
Qed.

Lemma parallel_loop_returns fuel l : forall bb su fa,
  (forall c bb, c ∈ l -> returns fuel c bb) ->
  exists l' bb' su' fa', parallel_loop (Tick fuel) l bb su fa = Some (l', bb', su', fa') /\
    map bound l' = map bound l /\ (forallb wfb l = true -> forallb wfb l' = true).
Proof.
  induction l as [|c l IH]; intros bb su fa H; cbn [parallel_loop].
  { eexists [], bb, su, fa. by split_and!. }
  destruct (H c bb ltac:(by left)) as (c' & bb1 & s & Ht & Hb & Hw). rewrite Ht. cbn [mbind option_bind].
  edestruct (IH bb1) as (l' & bb2 & su' & fa' & Hl & Hb' & Hw'); [intros; apply H; by right|].
  rewrite Hl. cbn [mbind option_bind]. eexists _, _, _, _. split; [done|]. cbn [map forallb].
  rewrite Hb, Hb', Hw. split; [done|]. intros [_ ?]%andb_true_iff. by apply Hw'.
Qed.

Lemma forallb_wfb l c : forallb wfb l = true -> c ∈ l -> wfb c = true.
Proof. intros H Hc. rewrite forallb_forall in H. by apply H, list_elem_of_In. Qed.

Lemma composite_returns fuel l (m : nat) :
  (forall t bb, wfb t = true -> (need t <= fuel)%nat -> returns fuel t bb) ->
  forallb wfb l = true -> (list_max (map bound l) <= fuel)%nat ->
  forall c bb, c ∈ l -> returns fuel c bb.
Proof.
  intros IH Hw Hm c bb Hc. pose proof (forallb_wfb l c Hw Hc) as Hwc. apply IH; [done|].
  pose proof (need_bound c Hwc). pose proof (list_max_map_le l c fuel Hc Hm). lia.
Qed.

Lemma elem_drop {A} (x : A) n l : x ∈ drop n l -> x ∈ l.
Proof. intros H. rewrite <- (take_drop n l). apply elem_of_app. by right. Qed.

Lemma mem_tick_returns fuel node go_on l i bb :
  (forall l j, bound (node l j) = S (list_max (map bound l))) ->
  (forall l j, wfb (node l j) = forallb wfb l && (j <=? length l)%nat) ->
  forallb wfb l = true -> (i <= length l)%nat -> (forall c bb, c ∈ l -> returns fuel c bb) ->
  exists t' bb' s, mem_tick (Tick fuel) node go_on l i bb = Some (t', bb', s) /\
    bound t' = S (list_max (map bound l)) /\ wfb t' = true.
Proof.
  intros Hbn Hwn Hw Hi H. unfold mem_tick.
  destruct (children_loop_returns fuel go_on (drop i l) bb) as (l' & bb' & r & -> & Hb & Hn & Hw' & Hr).
  { intros c bb0 Hc. by apply H, (elem_drop c i). }
  cbn [mbind option_bind].
  assert (map bound (take i l ++ l') = map bound l) as Hmap.
  { rewrite map_app, Hb, <- map_app. by rewrite take_drop. }
  assert (forallb wfb (take i l ++ l') = true) as Hall.
  { rewrite <- (take_drop i l), forallb_app, andb_true_iff in Hw. destruct Hw as [H1 H2].
    rewrite forallb_app, H1. by apply Hw'. }
  assert (length (take i l ++ l') = length l) as Hlen.
  { rewrite length_app, Hn, <- length_app. by rewrite take_drop. }
  assert (forall j, (j <= length l)%nat -> bound (node (take i l ++ l') j) = S (list_max (map bound l)) /\
    wfb (node (take i l ++ l') j) = true) as Hnode.
  { intros j Hj. rewrite Hbn, Hwn, Hmap, Hall, Hlen. split; [done|]. by apply Nat.leb_le. }
  assert (forall j s, r = Some (j, s) -> (i + j <= length l)%nat) as Hj.
  { intros j s E. specialize (Hr j s E). rewrite length_drop in Hr. lia. }
  destruct r as [[j []]|]; eexists _, _, _; (split; [done|apply Hnode; try lia]). by eapply Hj.
Qed.

Lemma returns_in fuel t bb t' bb' s : Tick fuel t bb = Some (t', bb', s) ->
  bound t' = bound t -> wfb t' = true -> returns fuel t bb.
Proof. intros. eexists _, _, _. eauto. Qed.

(** A child that returns, under a node that only maps its result. *)
Ltac child_returns IH :=
  lazymatch goal with
  | |- context [Tick ?fuel ?c ?bb] =>
      destruct (IH c bb) as (?c' & ?bb1 & ?s & ?Ht & ?Hb & ?Hw);
      [done|pose proof (need_bound c ltac:(assumption)); lia|rewrite Ht; cbn [mbind option_bind]]
  end.

Lemma repeater_returns fuel limit count c bb :
  (forall t bb, wfb t = true -> (need t <= fuel)%nat -> returns fuel t bb) ->
  wfb (repeater limit count c) = true -> (need (repeater limit count c) <= S fuel)%nat ->
  returns (S fuel) (repeater limit count c) bb.
Proof.
  intros IH Hw Hf. pose proof Hw as Hw0. cbn [wfb] in Hw.
  rewrite !andb_true_iff, orb_true_iff, andb_true_iff in Hw.
  rewrite Z.eqb_eq, !Z.leb_le, Z.ltb_lt in Hw. destruct Hw as [[[Hl0 Hl1] Hc] Hwc].
  assert (Hnode : forall n c', (limit = 0 \/ 0 <= n <= limit) -> wfb c' = true ->
    wfb (repeater limit n c') = true).
  { intros n c' Hn Hc'. cbn [wfb]. rewrite !andb_true_iff, orb_true_iff, andb_true_iff.
    rewrite Z.eqb_eq, !Z.leb_le, Z.ltb_lt. naive_solver lia. }
  unfold returns. cbn [Tick need] in *. destruct ((0 <? limit) && (limit <=? count)) eqn:Hdone.
  { eexists _, _, _. split; [done|]. split; [done|]. apply Hnode; [lia|done]. }
  assert (bound c <= fuel)%nat as Hcf by (destruct (Z.eqb_spec limit 0); lia).
  child_returns IH. destruct s.
  - eexists _, _, _. split; [done|]. cbn [bound]. rewrite Hb. split; [done|]. by apply Hnode; [naive_solver|].
  - destruct (Z.eqb_spec limit 0) as [->|Hne].
    + eexists _, _, _. split; [done|]. cbn [bound]. rewrite Hb. split; [done|]. apply Hnode; [by left|done].
    + assert (0 <= count < limit) as Hcl.
      { rewrite andb_false_iff, Z.ltb_ge, Z.leb_gt in Hdone. lia. }
      rewrite wrap64_id by (unfold int64; lia).
      destruct (IH (repeater limit (count + 1) c') bb1) as (t2 & bb2 & s2 & Ht2 & Hb2 & Hw2).
      * apply Hnode; [lia|done].
      * cbn [need]. rewrite (proj2 (Z.eqb_neq limit 0)) by done. rewrite Hb. lia.
      * eexists _, _, _. split; [done|]. rewrite Hb2. cbn [bound]. by rewrite Hb.
  - eexists _, _, _. split; [done|]. cbn [bound]. rewrite Hb. split; [done|]. apply Hnode; [lia|done].
Qed.

Lemma Tick_returns fuel : forall t bb, wfb t = true -> (need t <= fuel)%nat -> returns fuel t bb.
Proof.
  induction fuel as [|fuel IH]; intros t bb Hw Hf.
  { destruct t; cbn [need bound] in Hf; try lia. destruct (limit =? 0); lia. }
  destruct t as [a|c|l|l|l i|l i|p l|c|c|limit count c|c|cond c|n k c];
    try (by apply repeater_returns); unfold returns; cbn [Tick need bound wfb] in *.
  - destruct (a bb). by eexists _, _, _.
  - destruct (c bb). by eexists _, _, _.
  - unfold plain_tick. pose proof (composite_returns fuel l 0 IH Hw ltac:(lia)) as Hc.
    destruct (children_loop_returns fuel Success l bb Hc) as (l' & bb' & r & -> & Hb & _ & Hw' & _).
    cbn. eexists _, _, _. split; [done|]. cbn [bound wfb]. rewrite Hb. auto.
  - unfold plain_tick. pose proof (composite_returns fuel l 0 IH Hw ltac:(lia)) as Hc.
    destruct (children_loop_returns fuel Failure l bb Hc) as (l' & bb' & r & -> & Hb & _ & Hw' & _).
    cbn. eexists _, _, _. split; [done|]. cbn [bound wfb]. rewrite Hb. auto.
  - apply andb_true_iff in Hw as [Hw Hi]. apply Nat.leb_le in Hi.
    apply mem_tick_returns; try done. apply (composite_returns fuel l 0 IH Hw). lia.
  - apply andb_true_iff in Hw as [Hw Hi]. apply Nat.leb_le in Hi.
    apply mem_tick_returns; try done. apply (composite_returns fuel l 0 IH Hw). lia.
  - pose proof (composite_returns fuel l 0 IH Hw ltac:(lia)) as Hc.
    destruct (parallel_loop_returns fuel l bb 0 0 Hc) as (l' & bb' & su & fa & -> & Hb & Hw').
    cbn. eexists _, _, _. split; [done|]. cbn [bound wfb]. rewrite Hb. auto.
  - child_returns IH. eexists _, _, _. split; [done|]. cbn [bound wfb]. by rewrite Hb.
  - child_returns IH. eexists _, _, _. split; [done|]. cbn [bound wfb]. by rewrite Hb.
  - child_returns IH. eexists _, _, _. split; [done|]. cbn [bound wfb]. by rewrite Hb.
  - destruct (cond bb) as [bb0 ok]. destruct ok; cbn [negb]; [|by eexists _, _, _].
    child_returns IH. eexists _, _, _. split; [done|]. cbn [bound wfb]. by rewrite Hb.
  - destruct (0 <? k); [by eexists _, _, _|].
    child_returns IH. eexists _, _, _. split; [done|]. cbn [bound wfb]. by rewrite Hb.
Qed.

(** ** More fuel does not change a result *)

Definition below (tick tick' : Node -> B -> ticked) : Prop :=
  forall c bb r, tick c bb = Some r -> tick' c bb = Some r.

Lemma children_loop_below tick tick' go_on l : below tick tick' -> forall bb r,
  children_loop tick go_on l bb = Some r -> children_loop tick' go_on l bb = Some r.
Proof.
  intros Hb. induction l as [|c l IH]; intros bb r; cbn [children_loop]; [done|].
  destruct (tick c bb) as [[[c' bb'] s]|] eqn:E; [|done]. rewrite (Hb _ _ _ E). cbn [mbind option_bind].
  destruct (decide (s = go_on)); [|done].
  destruct (children_loop tick go_on l bb') as [[[l' bb2] r2]|] eqn:El; [|done].
  by rewrite (IH _ _ El).
Qed.

Lemma parallel_loop_below tick tick' l : below tick tick' -> forall bb su fa r,
  parallel_loop tick l bb su fa = Some r -> parallel_loop tick' l bb su fa = Some r.
Proof.
  intros Hb. induction l as [|c l IH]; intros bb su fa r; cbn [parallel_loop]; [done|].
  destruct (tick c bb) as [[[c' bb'] s]|] eqn:E; [|done]. rewrite (Hb _ _ _ E). cbn [mbind option_bind].
  destruct (parallel_loop tick l bb' _ _) as [[[[l' bb2] su2] fa2]|] eqn:El; [|done].
  by rewrite (IH _ _ _ _ El).
Qed.

Lemma Tick_mono fuel : forall fuel', (fuel <= fuel')%nat -> below (Tick fuel) (Tick fuel').
Proof.
  induction fuel as [|fuel IH]; intros [|fuel'] Hle t bb r; try done; try lia.
  pose proof (IH fuel' ltac:(lia)) as IHb.
  destruct t as [a|c|l|l|l i|l i|p l|c|c|limit count c|c|cond c|n k c]; cbn [Tick]; try done;
    unfold plain_tick, mem_tick;
    try (destruct (children_loop (Tick fuel) _ _ bb) as [[[l' bb'] r']|] eqn:E; [|done];
         by rewrite (children_loop_below _ _ _ _ IHb _ _ E));
    try (destruct (Tick fuel c bb) as [[[c' bb'] s]|] eqn:E; [|done]; by rewrite (IHb _ _ _ E)).
  - destruct (parallel_loop (Tick fuel) l bb 0 0) as [[[[l' bb'] su] fa]|] eqn:E; [|done].
    by rewrite (parallel_loop_below _ _ _ IHb _ _ _ _ E).
  - destruct ((0 <? limit) && (limit <=? count)); [done|].
    destruct (Tick fuel c bb) as [[[c' bb'] s]|] eqn:E; [|done]. rewrite (IHb _ _ _ E).
    cbn [mbind option_bind]. destruct s; try done. destruct (limit =? 0); [done|]. apply IHb.
  - destruct (cond bb) as [bb0 ok]. destruct (negb ok); [done|].
    destruct (Tick fuel c bb0) as [[[c' bb'] s]|] eqn:E; [|done]. by rewrite (IHb _ _ _ E).
  - destruct (0 <? k); [done|].
    destruct (Tick fuel c bb) as [[[c' bb'] s]|] eqn:E; [|done]. by rewrite (IHb _ _ _ E).
Qed.

(** * Properties *)

(** A selector of negations, which has the behaviour of a negated sequence. *)
Definition de_morgan (t : Node) : Node :=
  match t with inverter (sequence l) => selector (map inverter l) | t => t end.

Definition negated (s : Status) : Status :=
  match s with Success => Failure | Failure => Success | Running => Running end.

Lemma de_morgan_loop fuel l : forall bb,
  children_loop (Tick (S fuel)) Failure (map inverter l) bb =
  match children_loop (Tick fuel) Success l bb with
  | Some (l, bb, r) => Some (map inverter l, bb,
      match r with Some (i, s) => Some (i, negated s) | None => None end)
  | None => None
  end.
Proof.
  induction l as [|c l IH]; intros bb; [done|]. cbn [map children_loop]. cbn [Tick].
  destruct (Tick fuel c bb) as [[[c' bb'] s]|]; [|done]. cbn [mbind option_bind].
  destruct s; cbn [negated].
  - destruct (decide (Running = Failure)); [done|]. by destruct (decide (Running = Success)).
  - destruct (decide (Failure = Failure)) as [_|]; [|done].
    destruct (decide (Success = Success)) as [_|]; [|done].
    rewrite IH. by destruct (children_loop (Tick fuel) Success l bb') as [[[l' bb2] [[i s]|]]|].
  - destruct (decide (Success = Failure)); [done|]. by destruct (decide (Failure = Success)).
Qed.

Lemma Tick_de_morgan fuel l bb :
  Tick (S (S fuel)) (selector (map inverter l)) bb =
  match Tick (S (S fuel)) (inverter (sequence l)) bb with
  | Some (t, bb, s) => Some (de_morgan t, bb, s)
  | None => None
  end.
Proof.
  change (Tick (S (S fuel)) (selector (map inverter l)) bb)
    with (plain_tick (Tick (S fuel)) selector Failure (map inverter l) bb).
  unfold plain_tick at 1. rewrite de_morgan_loop. cbn [Tick]. unfold plain_tick.
  by destruct (children_loop (Tick fuel) Success l bb) as [[[l' bb'] [[i []]|]]|].
Qed.

(** The children stay as many, and their statuses are ticks of the children. *)
Lemma Tick_inverter_sequence fuel l bb t bb' s :
  Tick (S (S fuel)) (inverter (sequence l)) bb = Some (t, bb', s) ->
  exists l', t = inverter (sequence l').
Proof.
  cbn [Tick]. unfold plain_tick.
  destruct (children_loop (Tick fuel) Success l bb) as [[[l' bb2] r]|]; [|done].
  cbn [mbind option_bind]. intros [= <- _ _]. by exists l'.
Qed.

Lemma ticks_returns envs : forall t bb, wfb t = true ->
  exists t' bb' l, ticks (bound t) envs t bb = Some (t', bb', l) /\ length l = length envs /\
    bound t' = bound t /\ wfb t' = true.
Proof.
  induction envs as [|env envs IH]; intros t bb Hw; cbn [ticks]; [by eexists _, _, _|].
  destruct (Tick_returns (bound t) t (env bb) Hw (need_bound t Hw)) as (t1 & bb1 & s & Ht & Hb & Hw1).
  rewrite Ht. cbn [mbind option_bind]. destruct (IH t1 bb1 Hw1) as (t2 & bb2 & l & Hl & Hn & Hb2 & Hw2).
  rewrite Hb in Hl. rewrite Hl. cbn [mbind option_bind]. eexists _, _, _. split; [done|].
  cbn [length]. rewrite Hn, Hb2, Hb. done.
Qed.

Lemma ticks_mono envs fuel fuel' : (fuel <= fuel')%nat -> forall t bb r,
  ticks fuel envs t bb = Some r -> ticks fuel' envs t bb = Some r.
Proof.
  intros Hle. induction envs as [|env envs IH]; intros t bb r; cbn [ticks]; [done|].
  destruct (Tick fuel t (env bb)) as [[[t1 bb1] s]|] eqn:E; [|done].
  rewrite (Tick_mono fuel fuel' Hle _ _ _ E). cbn [mbind option_bind].
  destruct (ticks fuel envs t1 bb1) as [[[t2 bb2] l]|] eqn:El; [|done]. by rewrite (IH _ _ _ El).
Qed.

Lemma ticks_app fuel envs envs' : forall t bb,
  ticks fuel (envs ++ envs') t bb =
  ('(t, bb, l) ← ticks fuel envs t bb; '(t, bb, l') ← ticks fuel envs' t bb; Some (t, bb, l ++ l')).
Proof.
  induction envs as [|env envs IH]; intros t bb; cbn [app ticks].
  { cbn [mbind option_bind]. by destruct (ticks fuel envs' t bb) as [[[??]?]|]. }
  destruct (Tick fuel t (env bb)) as [[[t1 bb1] s]|]; [|done]. cbn [mbind option_bind].
  rewrite IH. destruct (ticks fuel envs t1 bb1) as [[[t2 bb2] l]|]; [|done]. cbn [mbind option_bind].
  by destruct (ticks fuel envs' t2 bb2) as [[[??]?]|].
Qed.

(** C27: Every tick of a tree whose repeaters have a limit of zero or more returns, in a
    number of steps fixed by the shape of the tree, for any number of ticks and whatever the
    program does to the blackboard in between; more fuel gives the same result. *)
Theorem tree_ticks_return t bb envs fuel : wfb t = true -> (bound t <= fuel)%nat ->
  exists t' bb' l, ticks (bound t) envs t bb = Some (t', bb', l) /\ length l = length envs /\
    ticks fuel envs t bb = Some (t', bb', l) /\ wfb t' = true.
Proof.
  intros Hw Hf. destruct (ticks_returns envs t bb Hw) as (t' & bb' & l & Hl & Hn & _ & Hw').
  exists t', bb', l. split_and!; try done. by apply (ticks_mono envs (bound t)).
Qed.

(** De Morgan: over any number of ticks a negated sequence and the selector of the negated
    children return the same statuses and leave the same blackboard. *)
Theorem tree_de_morgan fuel envs l : forall bb,
  match ticks (S (S fuel)) envs (Inverter (Sequence l)) bb,
        ticks (S (S fuel)) envs (Selector (map Inverter l)) bb with
  | Some (_, bb1, s1), Some (_, bb2, s2) => bb1 = bb2 /\ s1 = s2
  | None, None => True
  | _, _ => False
  end.
Proof.
  unfold Inverter, Sequence, Selector. revert l. induction envs as [|env envs IH]; intros l bb; [done|].
  cbn [ticks]. rewrite Tick_de_morgan.
  destruct (Tick (S (S fuel)) (inverter (sequence l)) (env bb)) as [[[t bb'] s]|] eqn:E; [|done].
  destruct (Tick_inverter_sequence _ _ _ _ _ _ E) as [l' ->]. cbn [mbind option_bind de_morgan].
  specialize (IH l' bb').
  destruct (ticks (S (S fuel)) envs (inverter (sequence l')) bb') as [[[t1 bb1] s1]|];
    destruct (ticks (S (S fuel)) envs (selector (map inverter l')) bb') as [[[t2 bb2] s2]|];
    cbn [mbind option_bind]; try done. destruct IH as [-> ->]. done.
Qed.

(** A memory sequence goes on where it stopped: with its memory after the children [pre],
    a tick is that of the sequence of the other children, and the children [pre] are neither
    run nor changed; when that sequence is still running the memory moves on with it, and
    when it ends the memory is cleared. The same for the memory selector. *)
Theorem memory_resumes fuel pre post bb :
  Tick (S fuel) (memSequence (pre ++ post) (length pre)) bb =
    match Tick (S fuel) (MemSequence post) bb with
    | Some (memSequence post' i, bb', s) => Some (memSequence (pre ++ post')
        (if decide (s = Running) then length pre + i else 0)%nat, bb', s)
    | _ => None
    end /\
  Tick (S fuel) (memSelector (pre ++ post) (length pre)) bb =
    match Tick (S fuel) (MemSelector post) bb with
    | Some (memSelector post' i, bb', s) => Some (memSelector (pre ++ post')
        (if decide (s = Running) then length pre + i else 0)%nat, bb', s)
    | _ => None
    end.
Proof.
  unfold MemSequence, MemSelector. cbn [Tick]. unfold mem_tick.
  rewrite drop_app_length, take_app_length, drop_0. split.
  - destruct (children_loop (Tick fuel) Success post bb) as [[[l' bb'] [[i []]|]]|]; try done.
  - destruct (children_loop (Tick fuel) Failure post bb) as [[[l' bb'] [[i []]|]]|]; try done.
Qed.

(** A cooling node refuses, and counts down. *)
Lemma cooling fuel n c : forall (envs : list (B -> B)) k bb, Z.of_nat (length envs) <= k ->
  ticks (S fuel) envs (cooldownNode n k c) bb =
  Some (cooldownNode n (k - Z.of_nat (length envs)) c, foldl (fun bb env => env bb) bb envs,
        replicate (length envs) Failure).
Proof.
  induction envs as [|env envs IH]; intros k bb Hk; cbn [ticks length foldl replicate].
  { by rewrite Z.sub_0_r. }
  cbn [length] in Hk. cbn [Tick]. rewrite (proj2 (Z.ltb_lt _ _)) by lia. cbn [mbind option_bind].
  rewrite IH by lia. cbn [mbind option_bind]. by replace (k - 1 - Z.of_nat (length envs))
    with (k - Z.of_nat (S (length envs))) by lia.
Qed.

(** After its child succeeds, a cooldown node of [n] ticks fails the next [n] ticks
    without running the child, and runs it again on the one after. *)
Theorem cooldown_waits fuel n c c1 c2 bb bb1 bb2 s envs env :
  Tick fuel c bb = Some (c1, bb1, Success) -> 0 <= n -> Z.of_nat (length envs) = n ->
  Tick fuel c1 (env (foldl (fun bb env => env bb) bb1 envs)) = Some (c2, bb2, s) ->
  ticks (S fuel) ((fun bb => bb) :: envs ++ [env]) (Cooldown n c) bb =
    Some (cooldownNode n (if decide (s = Success) then n else 0) c2, bb2,
          Success :: replicate (length envs) Failure ++ [s]).
Proof.
  intros H1 Hn Hlen H2. unfold Cooldown. cbn [ticks]. cbn [Tick]. change (0 <? 0) with false.
  cbv iota. rewrite H1. cbn [mbind option_bind]. destruct (decide (Success = Success)) as [_|]; [|done].
  rewrite ticks_app, cooling by lia. cbn [mbind option_bind ticks]. cbn [Tick].
  replace (n - Z.of_nat (length envs)) with 0 by lia. change (0 <? 0) with false. cbv iota.
  rewrite H2. by cbn [mbind option_bind].
Qed.

(** A repeater with a negative limit does not leave its loop while its child succeeds: the
    tick never returns. (With the limit 0 each success ends the tick instead.) *)
Lemma negative_repeater_spins n k bb fuel : n < 0 ->
  Tick fuel (repeater n k (Action (fun bb => (bb, Success)))) bb = None.
Proof.
  intros Hn. revert k bb. induction fuel as [|fuel IH]; intros k bb; [done|]. cbn [Tick].
  rewrite (proj2 (Z.ltb_ge 0 n)) by lia. cbn [andb]. destruct fuel as [|fuel]; [done|].
  change (Tick (S fuel) (Action (fun bb => (bb, Success))) bb)
    with (Some (Action (fun bb : B => (bb, Success)), bb, Success)).
  cbn [mbind option_bind]. rewrite (proj2 (Z.eqb_neq n 0)) by lia. apply IH.
Qed.
End tree.

Arguments Node : clear implicits.

(** A patrol: walk three steps, then shoot twice, with a pause of two ticks. *)
Definition step_to (n : Z) : Z -> Z * Status :=
  fun bb => let bb := bb + 1 in (bb, if n <=? bb then Success else Running).
Definition patrol : Node Z :=
  Cooldown 2 (MemSequence [Action (step_to 3); Repeater 2 (Action (fun bb => (bb + 10, Success)))]).

Lemma tree_ticks_return_witness : exists t' bb' l,
  ticks (bound patrol) (replicate 6 (fun z => z)) patrol 0 = Some (t', bb', l) /\ length l = 6%nat.
Proof.
  destruct (tree_ticks_return patrol 0 (replicate 6 (fun z => z)) 20 eq_refl) as (t' & bb' & l & H & Hl & _).
  - apply (bool_decide_unpack _). vm_compute. exact I.
  - exists t', bb', l. split; [exact H|exact Hl].
Defined.

Lemma patrol_run : exists t, ticks (bound patrol) (replicate 6 (fun z => z)) patrol 0 =
  Some (t, 44, [Running; Running; Success; Failure; Failure; Success]).
Proof. eexists. vm_compute. reflexivity. Qed.

Lemma cooldown_waits_witness :
  let c := Action (fun z : Z => (z + 1, Success)) in
  ticks 2 [fun z => z; fun z => z * 10; fun z => z; fun z => z + 5] (Cooldown 2 c) 0 =
    Some (cooldownNode 2 2 c, 16, [Success; Failure; Failure; Success]).
Proof.
  exact (cooldown_waits 1 2 (Action (fun z : Z => (z + 1, Success))) _ _ 0 1 16 Success
    [fun z => z * 10; fun z => z] (fun z => z + 5) eq_refl ltac:(lia) eq_refl eq_refl).
Defined.
