(* ===== verification/Energy.v ===== *)
(** Energy that regenerates with time ([pkg/domain/energy/energy.go]): nothing runs in the
    background, every call first adds what the elapsed intervals have earned. The clock is
    outside: a call is given the time it reads. *)
From Stdlib Require Import ZArith Lia Bool Sorted.
From stdpp Require Import base numbers strings list.
From S2P Require Import Prelude.

Open Scope Z_scope.

Record config := MkConfig {
  cap : Z; regenInterval : Z; regenAmount : Z; overflow : bool
}.

Definition WithCap (n : Z) (c : config) : config :=
  if 0 <? n then MkConfig n (regenInterval c) (regenAmount c) (overflow c) else c.
Definition WithRegenInterval (d : Z) (c : config) : config :=
  if 0 <? d then MkConfig (cap c) d (regenAmount c) (overflow c) else c.
Definition WithRegenAmount (n : Z) (c : config) : config :=
  if 0 <? n then MkConfig (cap c) (regenInterval c) n (overflow c) else c.
Definition WithOverflow (allow : bool) (c : config) : config :=
  MkConfig (cap c) (regenInterval c) (regenAmount c) allow.

Record Energy := MkEnergy { cfg : config; cur : Z; lastUpdate : Z }.

Definition minute : Z := 60 * 1000000000.

Definition defaults : config := MkConfig 100 (5 * minute) 1 false.

Definition New (opts : list (config -> config)) (now : Z) : Energy :=
  let c := foldl (fun c o => o c) defaults opts in MkEnergy c (cap c) now.
Definition NewWithState (cur last : Z) (opts : list (config -> config)) : Energy :=
  MkEnergy (foldl (fun c o => o c) defaults opts) cur last.

Definition regen (now : Z) (e : Energy) : Energy :=
  let c := cfg e in
  if cap c <=? cur e then MkEnergy c (cur e) now
  else
    let elapsed := time_sub now (lastUpdate e) in
    if elapsed <? regenInterval c then e
    else
      let ticks := Z.quot elapsed (regenInterval c) in
      let gained := wrap64 (ticks * regenAmount c) in
      let n := wrap64 (cur e + gained) in
      let n := if cap c <? n then cap c else n in
      MkEnergy c n (lastUpdate e + wrap64 (ticks * regenInterval c)).

Definition Current (now : Z) (e : Energy) : Energy * Z :=
  let e := regen now e in (e, cur e).

Definition Cap (e : Energy) : Z := cap (cfg e).

(** [Spend]: whether there was enough. *)
Definition Spend (n now : Z) (e : Energy) : Energy * bool :=
  if n <=? 0 then (e, true)
  else
    let e := regen now e in
    if cur e <? n then (e, false)
    else (MkEnergy (cfg e) (wrap64 (cur e - n)) (lastUpdate e), true).

Definition Add (n now : Z) (e : Energy) : Energy * Z :=
  if n <=? 0 then Current now e
  else
    let e := regen now e in
    let m := wrap64 (cur e + n) in
    let m := if negb (overflow (cfg e)) && (cap (cfg e) <? m) then cap (cfg e) else m in
    (MkEnergy (cfg e) m (lastUpdate e), m).

Definition timeToAmount (target : Z) (e : Energy) : Z :=
  if target <=? cur e then 0
  else
    let need := wrap64 (target - cur e) in
    let intervals := Z.quot (wrap64 (wrap64 (need + regenAmount (cfg e)) - 1)) (regenAmount (cfg e)) in
    wrap64 (intervals * regenInterval (cfg e)).

Definition TimeToFull (now : Z) (e : Energy) : Energy * Z :=
  let e := regen now e in (e, timeToAmount (cap (cfg e)) e).
Definition TimeToAmount (target now : Z) (e : Energy) : Energy * Z :=
  let e := regen now e in (e, timeToAmount target e).
Definition Snapshot (now : Z) (e : Energy) : Energy * (Z * Z) :=
  let e := regen now e in (e, (cur e, lastUpdate e)).

(** * What the energy is worth at a time *)

(** The value a call at [now] sees: the whole intervals since the last update, up to the cap. *)
Definition value (e : Energy) (now : Z) : Z :=
  let c := cfg e in
  if cap c <=? cur e then cur e
  else Z.min (cap c) (cur e + (now - lastUpdate e) / regenInterval c * regenAmount c).

(** Times between [t0] and [t1], over which the products do not overflow. *)
Record horizon (c : config) (t0 t1 : Z) : Prop := {
  interval_pos : 0 < regenInterval c;
  amount_pos : 0 < regenAmount c;
  cap_pos : 0 < cap c;
  span : 0 <= t1 - t0 < 2 ^ 63;
  gain_fits : cap c + (t1 - t0) / regenInterval c * regenAmount c < 2 ^ 63
}.

Definition since (t0 : Z) (e : Energy) : Prop := t0 <= lastUpdate e /\ 0 <= cur e < 2 ^ 63.

(** The whole intervals between the last update and [now]. *)
Definition earned (e : Energy) (now : Z) : Z := (now - lastUpdate e) / regenInterval (cfg e).

Lemma earned_nonneg e now t0 t1 : horizon (cfg e) t0 t1 -> lastUpdate e <= now -> 0 <= earned e now.
Proof. intros H Hle. apply Z.div_pos; [lia|apply H]. Qed.

(** Within the horizon the arithmetic is exact. *)
Lemma regen_exact e now t0 t1 : horizon (cfg e) t0 t1 -> since t0 e -> lastUpdate e <= now <= t1 ->
  regen now e = MkEnergy (cfg e) (value e now)
    (if cap (cfg e) <=? cur e then now
     else lastUpdate e + earned e now * regenInterval (cfg e)).
Proof.
  intros H [Hl Hc] Hn. pose proof (earned_nonneg e now t0 t1 H ltac:(lia)) as Hk.
  destruct H as [Hi Ha Hcap Hspan Hfit]. unfold regen, value. fold (earned e now).
  destruct (Z.leb_spec (cap (cfg e)) (cur e)) as [|Hlt]; [done|].
  rewrite time_sub_id by (unfold int64; lia).
  assert (earned e now <= (t1 - t0) / regenInterval (cfg e)) as Hle by (apply Z.div_le_mono; lia).
  assert (earned e now * regenAmount (cfg e) <= (t1 - t0) / regenInterval (cfg e) * regenAmount (cfg e))
    as Hle' by (apply Z.mul_le_mono_nonneg_r; lia).
  assert (0 <= earned e now * regenAmount (cfg e)) by (apply Z.mul_nonneg_nonneg; lia).
  destruct (Z.ltb_spec (now - lastUpdate e) (regenInterval (cfg e))) as [Hs|Hs].
  - assert (earned e now = 0) as -> by (apply Z.div_small; lia).
    rewrite Z.mul_0_l, !Z.add_0_r, Z.min_r by lia. by destruct e.
  - rewrite Z.quot_div_nonneg by lia. fold (earned e now).
    rewrite (wrap64_id (earned e now * _)) by (unfold int64; lia).
    rewrite (wrap64_id (cur e + _)) by (unfold int64; lia).
    pose proof (Z.mul_div_le (now - lastUpdate e) (regenInterval (cfg e)) Hi) as Hm.
    fold (earned e now) in Hm. rewrite Z.mul_comm in Hm.
    assert (0 <= earned e now * regenInterval (cfg e)) by (apply Z.mul_nonneg_nonneg; lia).
    rewrite (wrap64_id (earned e now * regenInterval (cfg e))) by (unfold int64; lia). f_equal.
    destruct (Z.ltb_spec (cap (cfg e)) (cur e + earned e now * regenAmount (cfg e))); lia.
Qed.

Lemma value_bounds e now t0 t1 : horizon (cfg e) t0 t1 -> since t0 e -> lastUpdate e <= now ->
  cur e <= value e now < 2 ^ 63 /\ (cur e <= cap (cfg e) -> value e now <= cap (cfg e)).
Proof.
  intros H [Hl Hc] Hn. pose proof (earned_nonneg e now t0 t1 H Hn) as Hk.
  unfold value. fold (earned e now). destruct H as [Hi Ha Hcap Hspan Hfit].
  assert (0 <= (t1 - t0) / regenInterval (cfg e) * regenAmount (cfg e)).
  { apply Z.mul_nonneg_nonneg; [apply Z.div_pos|]; lia. }
  assert (0 <= earned e now * regenAmount (cfg e)) by (apply Z.mul_nonneg_nonneg; lia).
  destruct (Z.leb_spec (cap (cfg e)) (cur e)); lia.
Qed.

(** What a call leaves: a state since [t0], last updated no later than the call. *)
Lemma regen_since e now t0 t1 : horizon (cfg e) t0 t1 -> since t0 e -> lastUpdate e <= now <= t1 ->
  since t0 (regen now e) /\ lastUpdate (regen now e) <= now /\ cfg (regen now e) = cfg e.
Proof.
  intros H Hs Hn. rewrite (regen_exact e now t0 t1) by done. unfold since. cbn [cfg cur lastUpdate].
  pose proof (value_bounds e now t0 t1 H Hs ltac:(lia)) as [Hv _].
  pose proof (earned_nonneg e now t0 t1 H ltac:(lia)) as Hk.
  destruct H as [Hi Ha Hcap Hspan Hfit]. destruct Hs as [Hl Hc].
  pose proof (Z.mul_div_le (now - lastUpdate e) (regenInterval (cfg e)) Hi) as Hm.
  fold (earned e now) in Hm. rewrite Z.mul_comm in Hm.
  assert (0 <= earned e now * regenInterval (cfg e)) by (apply Z.mul_nonneg_nonneg; lia).
  destruct (cap (cfg e) <=? cur e); split_and!; try done; lia.
Qed.

(** A call does not change what a later call sees. *)
Lemma value_regen e t now t0 t1 : horizon (cfg e) t0 t1 -> since t0 e -> lastUpdate e <= t <= now ->
  now <= t1 -> value (regen t e) now = value e now.
Proof.
  intros H Hs Ht Hn. rewrite (regen_exact e t t0 t1) by (done || lia).
  pose proof (earned_nonneg e t t0 t1 H ltac:(lia)) as Hk.
  destruct H as [Hi Ha Hcap Hspan Hfit]. unfold value at 1. cbn [cfg cur lastUpdate].
  unfold value. fold (earned e t) (earned e now).
  destruct (Z.leb_spec (cap (cfg e)) (cur e)) as [Hge|Hlt].
  { by rewrite (proj2 (Z.leb_le _ _)). }
  assert (earned e t <= earned e now) as Hle by (apply Z.div_le_mono; lia).
  assert (earned e t * regenAmount (cfg e) <= earned e now * regenAmount (cfg e))
    by (apply Z.mul_le_mono_nonneg_r; lia).
  destruct (Z.leb_spec (cap (cfg e)) (Z.min (cap (cfg e)) (cur e + earned e t * regenAmount (cfg e)))).
  - lia.
  - replace (now - (lastUpdate e + earned e t * regenInterval (cfg e)))
      with (now - lastUpdate e + (- earned e t) * regenInterval (cfg e)) by lia.
    rewrite Z.div_add by lia. fold (earned e now).
    rewrite (Z.min_r (cap (cfg e)) (cur e + earned e t * _)) by lia. f_equal. ring.
Qed.

(** ** Reads *)

Inductive read := RCurrent | RTimeToFull | RTimeToAmount (target : Z) | RSnapshot.

Definition look (r : read) (t : Z) (e : Energy) : Energy :=
  match r with
  | RCurrent => (Current t e).1
  | RTimeToFull => (TimeToFull t e).1
  | RTimeToAmount n => (TimeToAmount n t e).1
  | RSnapshot => (Snapshot t e).1
  end.

Lemma look_regen r t e : look r t e = regen t e.
Proof. by destruct r. Qed.

(** Times in order from [from] to [until]. *)
Fixpoint ordered (from : Z) (ts : list Z) (until : Z) : Prop :=
  match ts with [] => from <= until | t :: ts => from <= t /\ ordered t ts until end.

Lemma ordered_le from ts until : ordered from ts until -> from <= until.
Proof. revert from. induction ts as [|t ts IH]; intros from; simpl; [done|]. intros [? ?%IH]. lia. Qed.

Lemma ordered_weaken from from' ts until : from <= from' -> ordered from' ts until -> ordered from ts until.
Proof. destruct ts; simpl; [lia|]. intros ? [? ?]. split; [lia|done]. Qed.

Lemma reads_value t0 t1 rs now : now <= t1 -> forall e, horizon (cfg e) t0 t1 -> since t0 e ->
  ordered (lastUpdate e) (map snd rs) now ->
  let e' := foldl (fun e '(r, t) => look r t e) e rs in
  cfg e' = cfg e /\ since t0 e' /\ lastUpdate e' <= now /\ value e' now = value e now.
Proof.
  intros Hn. induction rs as [|[r t] rs IH]; intros e H Hs Ho; cbn [foldl map snd ordered] in *; [done|].
  destruct Ho as [Hle Ho]. pose proof (ordered_le _ _ _ Ho) as Htn. rewrite look_regen.
  destruct (regen_since e t t0 t1 H Hs ltac:(lia)) as (Hs1 & Hl1 & Hc1).
  destruct (IH (regen t e)) as (Hc2 & Hs2 & Hl2 & Hv2); [by rewrite Hc1|done|by eapply ordered_weaken|].
  split_and!; [congruence|done|done|]. rewrite Hv2. by apply (value_regen e t now t0 t1).
Qed.

(** ** Bounds *)

Inductive op := OSpend (n t : Z) | OAdd (n t : Z) | ORead (r : read) (t : Z).

Definition time (o : op) : Z := match o with OSpend _ t | OAdd _ t | ORead _ t => t end.

Definition apply (o : op) (e : Energy) : Energy :=
  match o with
  | OSpend n t => (Spend n t e).1
  | OAdd n t => (Add n t e).1
  | ORead r t => look r t e
  end.

(** Purchases that do not overflow on top of a full bar. *)
Definition fair (c : config) (o : op) : Prop :=
  match o with OAdd n _ => n + cap c < 2 ^ 63 | _ => True end.

Definition bounded (e : Energy) : Prop := overflow (cfg e) = false /\ 0 <= cur e <= cap (cfg e).

Lemma regen_bounded e now t0 t1 : horizon (cfg e) t0 t1 -> since t0 e -> lastUpdate e <= now <= t1 ->
  bounded e -> bounded (regen now e).
Proof.
  intros H Hs Hn [Ho Hb]. rewrite (regen_exact e now t0 t1) by done. split; [done|]. cbn [cfg cur].
  destruct (value_bounds e now t0 t1 H Hs ltac:(lia)) as [Hv Hc]. lia.
Qed.

Lemma apply_bounded o e t0 t1 : horizon (cfg e) t0 t1 -> since t0 e -> lastUpdate e <= time o <= t1 ->
  fair (cfg e) o -> bounded e ->
  cfg (apply o e) = cfg e /\ since t0 (apply o e) /\ lastUpdate (apply o e) <= time o /\ bounded (apply o e).
Proof.
  intros H Hs Ht Hf Hb. pose proof (regen_bounded e (time o) t0 t1 H Hs Ht Hb) as Hb1.
  destruct (regen_since e (time o) t0 t1 H Hs Ht) as (Hs1 & Hl1 & Hc1).
  destruct o as [n t|n t|r t]; cbn [apply time fair] in *.
  - unfold Spend. destruct (Z.leb_spec n 0); [cbn [fst]; split_and!; try done; lia|].
    destruct (Z.ltb_spec (cur (regen t e)) n); [done|]. destruct Hb1 as [Ho Hr], Hs1 as [Hl Hc].
    cbn [fst]. unfold bounded, since. cbn [cfg cur lastUpdate].
    rewrite wrap64_id by (unfold int64; lia). split_and!; done || lia.
  - unfold Add, Current. destruct (Z.leb_spec n 0); [done|]. destruct Hb1 as [Ho Hr], Hs1 as [Hl Hc].
    cbn [fst]. unfold bounded, since. cbn [cfg cur lastUpdate]. rewrite Ho. cbn [negb andb].
    rewrite wrap64_id by (unfold int64; rewrite Hc1 in *; lia). destruct H as [_ _ Hcap _ Hfit].
    rewrite Hc1 in *. destruct (Z.ltb_spec (cap (cfg e)) (cur (regen t e) + n));
      split_and!; done || lia.
  - by rewrite look_regen.
Qed.

(** * Properties *)

(** Reads are invisible to the amount: whatever reads happened before, in any number and at
    any times, a call of [Current] answers the value earned by its own time since the state
    before them, cut at the cap. *)
Theorem reads_transparent e t0 t1 rs now : horizon (cfg e) t0 t1 -> since t0 e -> now <= t1 ->
  ordered (lastUpdate e) (map snd rs) now ->
  (Current now (foldl (fun e '(r, t) => look r t e) e rs)).2 = value e now.
Proof.
  intros H Hs Hn Ho. destruct (reads_value t0 t1 rs now Hn e H Hs Ho) as (Hc & Hs' & Hl & Hv).
  unfold Current. cbn [snd]. rewrite (regen_exact _ now t0 t1); [|by rewrite Hc|done|lia].
  exact Hv.
Qed.

(** Without overflow the energy stays between 0 and the cap under any calls, and a
    [Spend] succeeds exactly when the energy of that moment is enough, taking exactly [n]. *)
Theorem energy_bounds e t0 t1 ops : horizon (cfg e) t0 t1 -> since t0 e -> bounded e ->
  ordered (lastUpdate e) (map time ops) t1 -> Forall (fair (cfg e)) ops ->
  let e' := foldl (fun e o => apply o e) e ops in
  0 <= cur e' <= cap (cfg e) /\
  forall n now, 0 < n -> lastUpdate e' <= now <= t1 ->
    (Spend n now e').2 = (n <=? value e' now) /\
    cur (Spend n now e').1 = (if n <=? value e' now then value e' now - n else value e' now).
Proof.
  intros H Hs Hb Ho Hf.
  assert (let e' := foldl (fun e o => apply o e) e ops in
    cfg e' = cfg e /\ since t0 e' /\ bounded e') as (Hc & Hs' & Hb').
  { revert e H Hs Hb Ho Hf. induction ops as [|o ops IH]; intros e H Hs Hb Ho Hf; [done|].
    destruct Ho as [Hle Ho]. pose proof (ordered_le _ _ _ Ho). apply Forall_cons in Hf as [Hf0 Hf].
    destruct (apply_bounded o e t0 t1 H Hs ltac:(lia) Hf0 Hb) as (Hc & Hs1 & Hl1 & Hb1).
    destruct (IH (apply o e)) as (Hc2 & Hs2 & Hb2); rewrite ?Hc; try done.
    { by eapply ordered_weaken. }
    cbn [foldl]. split_and!; [congruence|done|done]. }
  cbn zeta. set (e' := foldl _ _ _) in *. split; [rewrite <- Hc; apply Hb'|].
  intros n now Hn Hnow. rewrite <- Hc in H. unfold Spend. rewrite (proj2 (Z.leb_gt _ _)) by lia.
  destruct (value_bounds e' now t0 t1 H Hs' ltac:(lia)) as [Hv _].
  rewrite (regen_exact e' now t0 t1 H Hs' Hnow). cbn [cur cfg lastUpdate].
  destruct (Z.ltb_spec (value e' now) n), (Z.leb_spec n (value e' now)); try lia; [done|].
  cbn [fst snd cur]. rewrite wrap64_id; [done|]. unfold int64. destruct Hs' as [_ ?]. lia.
Qed.

(** [TimeToAmount] is enough and not more than one interval too long: with [steps] the
    number of intervals that earn what is missing, it answers [steps] whole intervals, after
    which the target is reached, while it is not at any time up to one interval earlier. *)
Theorem time_to_amount e t0 t1 target now : horizon (cfg e) t0 t1 -> since t0 e ->
  lastUpdate e <= now -> value e now < target <= cap (cfg e) ->
  cap (cfg e) + regenAmount (cfg e) < 2 ^ 63 ->
  let steps := (target - value e now + regenAmount (cfg e) - 1) / regenAmount (cfg e) in
  now + steps * regenInterval (cfg e) <= t1 ->
  (TimeToAmount target now e).2 = steps * regenInterval (cfg e) /\
  (forall u, now + steps * regenInterval (cfg e) <= u <= t1 -> target <= value e u) /\
  (forall u, now <= u <= now + (steps - 1) * regenInterval (cfg e) -> value e u < target).
Proof.
  intros H Hs Hl Ht Ham steps Hfin. pose proof H as [Hi Ha Hcap Hspan Hfit]. pose proof Hs as [Hs0 Hs1].
  destruct (value_bounds e now t0 t1 H Hs Hl) as [Hv _].
  assert (0 < steps) as Hst.
  { unfold steps. apply Z.div_str_pos. lia. }
  assert (0 < steps * regenInterval (cfg e)) by (apply Z.mul_pos_pos; lia).
  assert (cur e < cap (cfg e)) as Hlt.
  { unfold value in Ht. destruct (Z.leb_spec (cap (cfg e)) (cur e)); lia. }
  assert (value e now = cur e + earned e now * regenAmount (cfg e)) as Hval.
  { unfold value in *. fold (earned e now) in *. rewrite (proj2 (Z.leb_gt _ _)) in * by lia. lia. }
  assert (Hvalue : forall u, value e u = Z.min (cap (cfg e)) (cur e + earned e u * regenAmount (cfg e))).
  { intros u. unfold value. fold (earned e u). by rewrite (proj2 (Z.leb_gt _ _)) by lia. }
  pose proof (Z.div_mod (target - value e now + regenAmount (cfg e) - 1) (regenAmount (cfg e)) ltac:(lia)) as Hd.
  pose proof (Z.mod_pos_bound (target - value e now + regenAmount (cfg e) - 1) (regenAmount (cfg e)) Ha) as Hm.
  fold steps in Hd. split_and!.
  - unfold TimeToAmount. cbn [snd]. rewrite (regen_exact e now t0 t1) by (done || lia).
    unfold timeToAmount. cbn [cur cfg]. rewrite (proj2 (Z.leb_gt _ _)) by lia.
    rewrite (wrap64_id (target - value e now)) by (unfold int64; lia).
    rewrite (wrap64_id (_ + regenAmount (cfg e))) by (unfold int64; lia).
    rewrite (wrap64_id (_ - 1)) by (unfold int64; lia).
    rewrite Z.quot_div_nonneg by lia. fold steps. apply wrap64_id. unfold int64. lia.
  - intros u Hu. rewrite Hvalue. apply Z.min_glb; [lia|].
    assert (earned e now + steps <= earned e u) as Hk.
    { unfold earned. rewrite <- Z.div_add by lia. apply Z.div_le_mono; lia. }
    assert ((earned e now + steps) * regenAmount (cfg e) <= earned e u * regenAmount (cfg e))
      by (apply Z.mul_le_mono_nonneg_r; lia). lia.
  - intros u Hu. rewrite Hvalue. apply Z.min_lt_iff. right.
    assert (earned e u <= earned e now + (steps - 1)) as Hk.
    { unfold earned. rewrite <- Z.div_add by lia. apply Z.div_le_mono; lia. }
    assert (earned e u * regenAmount (cfg e) <= (earned e now + (steps - 1)) * regenAmount (cfg e))
      by (apply Z.mul_le_mono_nonneg_r; lia). lia.
Qed.

(** A read does change when the next point comes: at the cap it moves the last update to the
    time of the read. One minute before the next point is due, spending leaves one minute to
    wait when nobody looked, and a whole interval when somebody did. *)
Lemma read_delays_regeneration :
  let e := MkEnergy defaults 99 0 in
  let spend e := (Spend 1 (9 * minute) e).1 in
  let looked := look RCurrent (8 * minute) (look RCurrent (7 * minute) e) in
  (Current (10 * minute) (spend e)).2 = 100 /\ (Current (10 * minute) (spend looked)).2 = 99 /\
  (Current (13 * minute) (spend looked)).2 = 99 /\ (Current (14 * minute) (spend looked)).2 = 100.
Proof. vm_compute. done. Qed.

Definition demo : Energy := MkEnergy defaults 90 0.

Lemma demo_horizon : horizon (cfg demo) 0 (100 * minute).
Proof. split; vm_compute; try split; congruence. Qed.

Lemma reads_transparent_witness :
  (Current (21 * minute) (look RTimeToFull (13 * minute) (look RCurrent (7 * minute) demo))).2 = 94.
Proof.
  refine (eq_trans (reads_transparent demo 0 (100 * minute)
    [(RCurrent, 7 * minute); (RTimeToFull, 13 * minute)] (21 * minute) demo_horizon _ _ _) _).
  - split; vm_compute; try split; congruence.
  - vm_compute. congruence.
  - vm_compute. repeat split; congruence.
  - vm_compute. reflexivity.
Defined.

Lemma energy_bounds_witness :
  0 <= cur (foldl (fun e o => apply o e) demo [OAdd 50 (2 * minute); OSpend 70 (9 * minute)]) <= 100.
Proof.
  refine (proj1 (energy_bounds demo 0 (100 * minute) [OAdd 50 (2 * minute); OSpend 70 (9 * minute)]
    demo_horizon _ _ _ _)).
  - split; vm_compute; try split; congruence.
  - split; vm_compute; try split; congruence.
  - vm_compute. repeat split; congruence.
  - repeat apply Forall_cons_2; try apply Forall_nil_2; vm_compute; auto.
Defined.

Lemma time_to_amount_witness : (TimeToAmount 95 (9 * minute) demo).2 = 20 * minute.
Proof.
  refine (proj1 (time_to_amount demo 0 (100 * minute) 95 (9 * minute) demo_horizon _ _ _ _ _)).
  - split; vm_compute; try split; congruence.
  - vm_compute. congruence.
  - vm_compute. split; congruence.
  - vm_compute. reflexivity.
  - vm_compute. congruence.
Defined.
