(* ===== verification/Gcra.v ===== *)
(** The GCRA rate limiter ([pkg/resilience/ratelimit/gcra.go]): one theoretical arrival time
    per key, compared with the clock. The clock is outside: a call is given the time it reads,
    a pass of the collector the time it ran at. *)
From Stdlib Require Import ZArith Lia Bool.
From stdpp Require Import base numbers strings list gmap fin_maps.
From S2P Require Import Prelude.

Open Scope Z_scope.

Record GCRA := MkGCRA {
  emission : Z; tolerance : Z; maxIdle : Z; tats : gmap string Z
}.

(** [interval]: the duration [1s/rate], a quotient of floats in the code, when [rate > 0]. *)
Definition NewGCRA (interval : option Z) (burst idle : Z) : GCRA :=
  match interval with
  | Some d => if 0 <? burst then MkGCRA d (wrap64 (burst * d)) idle ∅ else MkGCRA 0 0 idle ∅
  | None => MkGCRA 0 0 idle ∅
  end.

(** Whether the call is admitted, and otherwise how long to wait. An absent key reads the
    zero time, which is before every reading of the clock. *)
Definition Allow (key : string) (now : Z) (g : GCRA) : GCRA * (bool * Z) :=
  if emission g <=? 0 then (g, (true, 0))
  else
    let tat := match tats g !! key with
               | Some tat => if tat <? now then now else tat
               | None => now
               end in
    let newTAT := tat + emission g in
    let allowAt := newTAT - tolerance g in
    if now <? allowAt then (g, (false, time_sub allowAt now))
    else (MkGCRA (emission g) (tolerance g) (maxIdle g) (<[key := newTAT]> (tats g)), (true, 0)).

(** One tick of the collector. *)
Definition gc (now : Z) (g : GCRA) : GCRA :=
  let cutoff := now - maxIdle g in
  MkGCRA (emission g) (tolerance g) (maxIdle g) (filter (fun kt => ~ kt.2 < cutoff) (tats g)).

(** * Runs *)

Inductive call := CAllow (key : string) (now : Z) | CGc (now : Z).

Definition time (c : call) : Z := match c with CAllow _ t | CGc t => t end.

Definition step (c : call) (g : GCRA) : GCRA * bool :=
  match c with
  | CAllow k t => let '(g, (ok, _)) := Allow k t g in (g, ok)
  | CGc t => (gc t g, false)
  end.

(** The number of calls admitted for a key. *)
Fixpoint admitted (key : string) (cs : list call) (g : GCRA) : GCRA * Z :=
  match cs with
  | [] => (g, 0)
  | c :: cs =>
      let '(g, ok) := step c g in
      let '(g, n) := admitted key cs g in
      (g, n + if ok && match c with CAllow k _ => bool_decide (k = key) | CGc _ => false end then 1 else 0)
  end.

Fixpoint ordered (from : Z) (cs : list call) (until : Z) : Prop :=
  match cs with [] => from <= until | c :: cs => from <= time c /\ ordered (time c) cs until end.

(** The arrival time a call at [now] starts from. *)
Definition arrival (g : GCRA) (key : string) (now : Z) : Z := Z.max now (default now (tats g !! key)).

(** What a limiter is made of: no wrap-around of the tolerance, no negative idle time. *)
Record good (g : GCRA) (burst : Z) : Prop := {
  emission_pos : 0 < emission g;
  burst_pos : 0 < burst;
  tolerance_is : tolerance g = burst * emission g;
  idle_nonneg : 0 <= maxIdle g
}.

Lemma Allow_spec key now g burst : good g burst ->
  Allow key now g =
    if now + tolerance g <? arrival g key now + emission g
    then (g, (false, time_sub (arrival g key now + emission g - tolerance g) now))
    else (MkGCRA (emission g) (tolerance g) (maxIdle g)
            (<[key := arrival g key now + emission g]> (tats g)), (true, 0)).
Proof.
  intros [He _ _ _]. unfold Allow. rewrite (proj2 (Z.leb_gt _ _)) by done.
  assert (match tats g !! key with Some tat => if tat <? now then now else tat | None => now end
    = arrival g key now) as ->.
  { unfold arrival. destruct (tats g !! key) as [tat|]; cbn [default from_option id]; [|unfold id; lia].
    destruct (Z.ltb_spec tat now); unfold id; lia. }
  destruct (Z.ltb_spec now (arrival g key now + emission g - tolerance g)),
    (Z.ltb_spec (now + tolerance g) (arrival g key now + emission g)); done || lia.
Qed.

Lemma arrival_later g key t t' : t <= t' -> arrival g key t <= arrival g key t' /\
  (forall x, tats g !! key = Some x -> arrival g key t' = Z.max t' (arrival g key t)).
Proof.
  intros. unfold arrival. destruct (tats g !! key) as [x|]; cbn [default from_option id];
    (split; [lia|]); [intros y _; lia|done].
Qed.

(** The collector removes only arrival times already past. *)
Lemma gc_arrival t now g key : 0 <= maxIdle g -> t <= now -> arrival (gc t g) key now = arrival g key now.
Proof.
  intros Hi Ht. unfold arrival, gc. cbn [tats].
  destruct (filter (fun kt : string * Z => ~ kt.2 < t - maxIdle g) (tats g) !! key) as [x|] eqn:E.
  - apply map_lookup_filter_Some in E as [-> _]. done.
  - apply map_lookup_filter_None in E as [->|H]; [done|].
    destruct (tats g !! key) as [y|] eqn:Hy; [|done]. specialize (H y eq_refl). cbn [default from_option id snd] in *. lia.
Qed.

Lemma step_good c g burst : good g burst -> good (step c g).1 burst /\
  emission (step c g).1 = emission g /\ tolerance (step c g).1 = tolerance g.
Proof.
  intros Hg. destruct c as [k t|t]; cbn [step].
  - rewrite (Allow_spec k t g burst Hg). destruct (_ <? _); [done|]. by destruct Hg.
  - by destruct Hg.
Qed.

(** An admission moves the arrival time of its key by one interval; nothing else moves it. *)
Lemma step_arrival c g burst key : good g burst ->
  let '(g', ok) := step c g in
  let mine := ok && match c with CAllow k _ => bool_decide (k = key) | CGc _ => false end in
  arrival g' key (time c) = arrival g key (time c) + (if mine then emission g else 0) /\
  (mine = true -> arrival g key (time c) + emission g <= time c + tolerance g).
Proof.
  intros Hg. destruct c as [k t|t]; cbn [step time].
  - rewrite (Allow_spec k t g burst Hg).
    destruct (Z.ltb_spec (t + tolerance g) (arrival g k t + emission g)); cbn [andb].
    + split; [lia|done].
    + destruct (bool_decide_reflect (k = key)) as [->|Hne].
      * split; [|lia]. unfold arrival at 1. cbn [tats]. rewrite lookup_insert_eq. cbn [default from_option id].
        destruct Hg as [He _ _ _]. unfold arrival. lia.
      * split; [|done]. unfold arrival. cbn [tats]. rewrite lookup_insert_ne by done. lia.
  - cbn [andb]. rewrite (gc_arrival t t g key) by (done || apply Hg). split; [lia|done].
Qed.

Lemma arrival_ge g key now : now <= arrival g key now.
Proof. unfold arrival. lia. Qed.

Lemma arrival_mono g key t t' : t <= t' -> arrival g key t <= arrival g key t'.
Proof. apply arrival_later. Qed.

Lemma calls_ordered_le from cs until : ordered from cs until -> from <= until.
Proof. revert from. induction cs as [|c cs IH]; intros from; simpl; [done|]. intros [? ?%IH]. lia. Qed.

(** The admissions of a key fit between its arrival time and the end of the window. *)
Lemma admitted_fit burst key until cs : forall g from, good g burst -> ordered from cs until ->
  let n := (admitted key cs g).2 in
  0 <= n /\ (n = 0 \/ arrival g key from + n * emission g <= until + tolerance g).
Proof.
  induction cs as [|c cs IH]; intros g from Hg Ho; cbn [admitted snd]; [lia|].
  destruct Ho as [Hle Ho]. pose proof (calls_ordered_le _ _ _ Ho) as Hend.
  pose proof (step_good c g burst Hg) as (Hg1 & He1 & Ht1).
  pose proof (step_arrival c g burst key Hg) as Ha.
  destruct (step c g) as [g1 ok]. cbn [fst] in *. destruct (IH g1 (time c) Hg1 Ho) as [Hn0 Hn].
  destruct (admitted key cs g1) as [g2 n]. cbn [snd] in *. rewrite He1, Ht1 in Hn.
  pose proof (arrival_mono g key from (time c) Hle) as Hm. destruct Ha as [Ha Hok].
  destruct (ok && _) eqn:Hmine.
  - specialize (Hok eq_refl). split; [lia|]. right. destruct Hn as [->|Hn]; lia.
  - split; [lia|]. destruct Hn as [->|Hn]; [by left|]. right. rewrite Z.add_0_r. lia.
Qed.

(** * Properties *)

(** C26: The rate is bounded over every window: in whatever state of the limiter, the calls of
    any clients and passes of the collector between the times [s] and [s + w] have at most
    [burst + w / emission] calls of one key admitted. *)
Theorem gcra_limits g burst key cs s w : good g burst -> 0 <= w -> ordered s cs (s + w) ->
  (admitted key cs g).2 <= burst + w / emission g.
Proof.
  intros Hg Hw Ho. destruct (admitted_fit burst key (s + w) cs g s Hg Ho) as [H0 Hn].
  pose proof (arrival_ge g key s) as Ha. destruct Hg as [He Hb Ht _].
  assert (0 <= w / emission g) by (apply Z.div_pos; lia).
  destruct Hn as [->|Hn]; [lia|]. rewrite Ht in Hn.
  assert ((admitted key cs g).2 - burst <= w / emission g); [|lia].
  apply Z.div_le_lower_bound; lia.
Qed.

(** The wait answered to a refused call is exact: the same call is refused at every time
    before it has passed, and admitted from then on, if no other call of the key came
    between. *)
Theorem gcra_retry_after g burst key now u : good g burst -> now <= u ->
  arrival g key now + emission g - tolerance g - now < 2 ^ 63 ->
  (Allow key now g).2.1 = false ->
  let wait := (Allow key now g).2.2 in
  0 < wait /\ ((Allow key u g).2.1 = true <-> now + wait <= u).
Proof.
  intros Hg Hu Hr. rewrite (Allow_spec key now g burst Hg), (Allow_spec key u g burst Hg).
  destruct (Z.ltb_spec (now + tolerance g) (arrival g key now + emission g)) as [Hlt|]; [|done].
  intros _. cbn [fst snd]. rewrite time_sub_id by (unfold int64; lia). split; [lia|].
  destruct Hg as [He Hb Ht _].
  assert (emission g <= tolerance g) as Htol by (rewrite Ht; nia).
  assert (tats g !! key <> None) as Hsome.
  { intros Hn. unfold arrival in Hlt. rewrite Hn in Hlt. cbn [default from_option id] in Hlt. lia. }
  destruct (tats g !! key) as [x|] eqn:E; [|done].
  destruct (arrival_later g key now u Hu) as [_ Hmax]. rewrite (Hmax x E).
  destruct (Z.ltb_spec (u + tolerance g) (Z.max u (arrival g key now) + emission g)); split; done || lia.
Qed.

(** Calls at least one interval apart are all admitted. *)
Lemma gcra_paced g burst key now : good g burst -> arrival g key now = now -> (Allow key now g).2.1 = true /\
  forall u, now + emission g <= u -> arrival (Allow key now g).1 key u = u.
Proof.
  intros Hg Ha. rewrite (Allow_spec key now g burst Hg), Ha. destruct Hg as [He Hb Ht _].
  assert (emission g <= tolerance g) as Htol by (rewrite Ht; nia).
  rewrite (proj2 (Z.ltb_ge _ _)) by lia. split; [done|]. intros u Hu. unfold arrival. cbn [tats fst].
  rewrite lookup_insert_eq. cbn [default from_option id]. lia.
Qed.

(** Ten per second, bursts of three. *)
Definition demo : GCRA := NewGCRA (Some 100000000) 3 300000000000.

Lemma demo_good : good demo 3.
Proof. split; vm_compute; congruence. Qed.

Definition demo_calls : list call := CAllow "b" 0 :: CGc 0 :: replicate 9 (CAllow "a" 250000000).

Lemma gcra_limits_witness :
  (admitted "a" demo_calls demo).2 <= 3 + 300000000 / 100000000 /\ (admitted "a" demo_calls demo).2 = 3.
Proof.
  split; [|vm_compute; reflexivity].
  refine (gcra_limits demo 3 "a" demo_calls 0 300000000 demo_good _ _); [lia|].
  vm_compute. repeat split; congruence.
Defined.

Lemma gcra_retry_after_witness :
  let g := (admitted "a" demo_calls demo).1 in
  (Allow "a" 300000000 g).2 = (false, 50000000) /\
  ((Allow "a" 350000000 g).2.1 = true <-> 300000000 + 50000000 <= 350000000).
Proof.
  split; [vm_compute; reflexivity|].
  refine (proj2 (gcra_retry_after (admitted "a" demo_calls demo).1 3 "a" 300000000 350000000 _ _ _ _)).
  - split; vm_compute; congruence.
  - lia.
  - vm_compute. reflexivity.
  - vm_compute. reflexivity.
Defined.
