(* ===== verification/Tally.v ===== *)
(** The batching counter ([pkg/store/tally/tally.go]): increments summed per key in a buffer
    that one flushing goroutine swaps out and hands to a callback. Clients and the goroutine
    interleave at the critical sections: adding, waking the goroutine, one turn of its loop. *)
From Stdlib Require Import ZArith Lia Bool.
From stdpp Require Import base numbers strings list gmap fin_maps.
From S2P Require Import Prelude.

Open Scope Z_scope.

(** The integer types of [Number]: addition keeps some low bits. (The type also admits
    floats, whose addition is not associative.) *)
Class Number := {
  wrap : Z -> Z;
  wrap_add : forall a b, wrap (wrap a + b) = wrap (a + b)
}.

Section tally.
Context `{Number}.

Record config := MkConfig { flushInterval : Z; maxKeys : Z; flushOnStop : bool }.

Definition WithFlushInterval (d : Z) (c : config) : config := MkConfig d (maxKeys c) (flushOnStop c).
Definition WithMaxKeys (n : Z) (c : config) : config := MkConfig (flushInterval c) n (flushOnStop c).
Definition WithFlushOnStop (on : bool) (c : config) : config := MkConfig (flushInterval c) (maxKeys c) on.

Definition second : Z := 1000000000.

(** [flushCh]: whether the one slot of the channel is taken; [stopping]: [stopCh] is closed;
    [running]: the loop has not returned. *)
Record Tally := MkTally {
  cfg : config; buf : gmap string Z; dirt : Z;
  flushCh : bool; stopping : bool; running : bool
}.

Definition New (opts : list (config -> config)) : Tally :=
  let c := foldl (fun c o => o c) (MkConfig second 0 true) opts in
  let c := if flushInterval c <=? 0 then MkConfig second (maxKeys c) (flushOnStop c) else c in
  MkTally c ∅ 0 false false true.

Definition set_buf (t : Tally) (b : gmap string Z) (d : Z) : Tally :=
  MkTally (cfg t) b d (flushCh t) (stopping t) (running t).
Definition set_flush (t : Tally) (on : bool) : Tally :=
  MkTally (cfg t) (buf t) (dirt t) on (stopping t) (running t).

(** The locked part of [Add]: the answer is whether a flush is due. *)
Definition add_locked (key : string) (delta : Z) (t : Tally) : Tally * bool :=
  let d := match buf t !! key with None => dirt t + 1 | Some _ => dirt t end in
  let t := set_buf t (<[key := wrap (default 0 (buf t !! key) + delta)]> (buf t)) d in
  (t, (0 <? maxKeys (cfg t)) && (maxKeys (cfg t) <=? dirt t)).

Definition triggerFlush (t : Tally) : Tally := set_flush t true.

Definition Flush : Tally -> Tally := triggerFlush.

Definition Pending (t : Tally) : Z := Z.of_nat (size (buf t)).

Definition swap (t : Tally) : Tally * gmap string Z :=
  if decide (size (buf t) = 0%nat) then (t, ∅) else (set_buf t ∅ 0, buf t).

(** The batch handed to the callback, if any; its panic is recovered and its effects are its
    own. *)
Definition doFlush (t : Tally) : Tally * list (gmap string Z) :=
  let '(t, batch) := swap t in
  if decide (size batch = 0%nat) then (t, []) else (t, [batch]).

(** One case of the loop's select: a tick, a wake-up, the stop. *)
Inductive event := ETick | EFlush | EStop.

Definition enabled (e : event) (t : Tally) : bool :=
  running t && match e with ETick => true | EFlush => flushCh t | EStop => stopping t end.

Definition loop (e : event) (t : Tally) : Tally * list (gmap string Z) :=
  match e with
  | ETick => doFlush t
  | EFlush => doFlush (set_flush t false)
  | EStop =>
      let '(t, out) := if flushOnStop (cfg t) then doFlush t else (t, []) in
      (MkTally (cfg t) (buf t) (dirt t) (flushCh t) (stopping t) false, out)
  end.

Definition Stop (t : Tally) : Tally :=
  MkTally (cfg t) (buf t) (dirt t) (flushCh t) true (running t).

(** * Interleavings *)

(** The state of all the goroutines: the tally and the number of [Add] calls that have found
    the threshold reached and not yet woken the loop. *)
Record world := MkWorld { tally : Tally; due : nat }.

Inductive action :=
| AAdd (key : string) (delta : Z) | AWake | AFlush | AStop | ALoop (e : event).

(** An action takes place if it can; the batches it hands out. *)
Definition act (a : action) (w : world) : world * list (gmap string Z) :=
  let t := tally w in
  match a with
  | AAdd k d => let '(t, over) := add_locked k d t in (MkWorld t (if over then S (due w) else due w), [])
  | AWake => match due w with O => (w, []) | S n => (MkWorld (triggerFlush t) n, []) end
  | AFlush => (MkWorld (Flush t) (due w), [])
  | AStop => (MkWorld (Stop t) (due w), [])
  | ALoop e => if enabled e t then let '(t, out) := loop e t in (MkWorld t (due w), out) else (w, [])
  end.

Fixpoint run (acts : list action) (w : world) : world * list (gmap string Z) :=
  match acts with
  | [] => (w, [])
  | a :: acts => let '(w, out) := act a w in let '(w, out') := run acts w in (w, out ++ out')
  end.

Definition start (opts : list (config -> config)) : world := MkWorld (New opts) 0.

(** What was added for a key, what was handed out, what is held. *)
Fixpoint added (k : string) (acts : list action) : Z :=
  match acts with
  | [] => 0
  | AAdd k' d :: acts => (if decide (k' = k) then d else 0) + added k acts
  | _ :: acts => added k acts
  end.
Definition amount (k : string) (m : gmap string Z) : Z := default 0 (m !! k).
Definition delivered (k : string) (out : list (gmap string Z)) : Z :=
  foldr (fun m n => amount k m + n) 0 out.

Lemma amount_insert k v m : amount k (<[k := v]> m) = v.
Proof. unfold amount. by rewrite lookup_insert_eq. Qed.
Lemma amount_insert_ne k k' v m : k' <> k -> amount k (<[k' := v]> m) = amount k m.
Proof. intros. unfold amount. by rewrite lookup_insert_ne. Qed.
Lemma amount_empty k : amount k ∅ = 0.
Proof. unfold amount. by rewrite lookup_empty. Qed.

Lemma wrap_add_r a b : wrap (a + wrap b) = wrap (a + b).
Proof. rewrite Z.add_comm, wrap_add. f_equal. lia. Qed.

Lemma delivered_app k l l' : delivered k (l ++ l') = delivered k l + delivered k l'.
Proof. induction l as [|m l IH]; simpl; [done|]. rewrite IH. lia. Qed.

Lemma size_zero (m : gmap string Z) : size m = 0%nat -> m = ∅.
Proof. apply map_size_empty_inv. Qed.

(** A flush moves the buffer into the batch. *)
Lemma doFlush_spec t : let '(t', out) := doFlush t in
  buf t' = ∅ /\ (forall k, amount k (buf t) = delivered k out) /\
  Forall (fun m => m <> ∅) out /\ dirt t' = (if decide (buf t = ∅) then dirt t else 0) /\
  cfg t' = cfg t /\ flushCh t' = flushCh t /\ stopping t' = stopping t /\ running t' = running t.
Proof.
  unfold doFlush, swap. destruct (decide (size (buf t) = 0%nat)) as [Hs|Hs].
  - rewrite map_size_empty. destruct (decide (0%nat = 0%nat)) as [_|]; [|done].
    apply size_zero in Hs as Hb. rewrite Hb. by split_and!.
  - destruct (decide (size (buf t) = 0%nat)); [done|].
    assert (buf t <> ∅) as Hne by (intros E; apply Hs; by rewrite E, map_size_empty).
    split_and!; try done; simpl; [intros k; lia|by constructor|].
    by destruct (decide (buf t = ∅)).
Qed.

(** ** The invariant *)

Record inv (w : world) : Prop := {
  dirt_size : dirt (tally w) = Z.of_nat (size (buf (tally w)));
  (* a reached threshold has a wake-up on its way *)
  woken : 0 < maxKeys (cfg (tally w)) <= dirt (tally w) -> flushCh (tally w) = true \/ (0 < due w)%nat;
  stopped : running (tally w) = false -> stopping (tally w) = true
}.

Lemma start_inv opts : inv (start opts).
Proof.
  unfold start. split; cbn [tally due].
  - unfold New. simpl. by rewrite map_size_empty.
  - unfold New. case_match; simpl; lia.
  - unfold New. case_match; simpl; done.
Qed.

Lemma add_size k x (m : gmap string Z) : Z.of_nat (size (<[k := x]> m)) =
  match m !! k with None => Z.of_nat (size m) + 1 | Some _ => Z.of_nat (size m) end.
Proof.
  destruct (m !! k) as [y|] eqn:E.
  - rewrite map_size_insert_Some by (by exists y). done.
  - rewrite map_size_insert_None by done. lia.
Qed.

Lemma loop_spec e t : let '(t', out) := loop e t in
  (forall k, amount k (buf t) = delivered k out + amount k (buf t')) /\
  Forall (fun m => m <> ∅) out /\ cfg t' = cfg t /\ stopping t' = stopping t /\
  (dirt t = Z.of_nat (size (buf t)) -> dirt t' = Z.of_nat (size (buf t'))) /\
  (buf t' = ∅ \/ t' = MkTally (cfg t) (buf t) (dirt t) (flushCh t) (stopping t) false /\
     e = EStop /\ flushOnStop (cfg t) = false) /\
  (running t' = running t \/ e = EStop).
Proof.
  assert (Hf : forall t, let '(t', out) := doFlush t in
    (forall k, amount k (buf t) = delivered k out + amount k (buf t')) /\
    (dirt t = Z.of_nat (size (buf t)) -> dirt t' = Z.of_nat (size (buf t')))).
  { intros t0. pose proof (doFlush_spec t0) as H0. destruct (doFlush t0) as [t' out].
    destruct H0 as (Hb & Ha & _ & Hd & _). rewrite Hb, map_size_empty. split.
    - intros k. rewrite Ha, amount_empty. lia.
    - rewrite Hd. intros ->. destruct (decide (buf t0 = ∅)) as [->|]; [|done]. by rewrite map_size_empty. }
  destruct e; cbn [loop].
  - specialize (Hf t). pose proof (doFlush_spec t) as H0. destruct (doFlush t) as [t' out].
    destruct H0 as (? & ? & ? & ? & ? & ? & ? & ?). destruct Hf. split_and!; auto.
  - specialize (Hf (set_flush t false)). pose proof (doFlush_spec (set_flush t false)) as H0.
    destruct (doFlush (set_flush t false)) as [t' out].
    destruct H0 as (? & ? & ? & ? & ? & ? & ? & ?). destruct Hf. split_and!; auto.
  - destruct (flushOnStop (cfg t)) eqn:Hc.
    + specialize (Hf t). pose proof (doFlush_spec t) as H0. destruct (doFlush t) as [t' out].
      destruct H0 as (? & ? & ? & ? & ? & ? & ? & ?). destruct Hf. simpl. split_and!; auto.
    + simpl. split_and!; auto.
Qed.

Lemma act_inv a w : inv w -> inv (act a w).1.
Proof.
  intros [Hd Hw Hs]. destruct a as [k d| | | |e]; cbn [act].
  - unfold add_locked. cbn [fst]. set (over := (0 <? _) && _).
    assert (match buf (tally w) !! k with None => dirt (tally w) + 1 | Some _ => dirt (tally w) end
      = Z.of_nat (size (<[k := wrap (default 0 (buf (tally w) !! k) + d)]> (buf (tally w))))) as Hdirt.
    { rewrite add_size, Hd. by destruct (buf (tally w) !! k). }
    destruct over eqn:Ho; split; cbn [tally due cfg buf dirt flushCh stopping running set_buf fst] in *; try done.
    + intros _. right. lia.
    + unfold over in Ho. cbn [cfg dirt set_buf] in Ho.
      rewrite andb_false_iff, Z.ltb_ge, Z.leb_gt in Ho. lia.
  - destruct (due w) eqn:E; split; cbn; try done; rewrite ?E in *; auto.
  - split; cbn; auto.
  - split; cbn; auto.
  - destruct (enabled e (tally w)) eqn:He; [|done].
    pose proof (loop_spec e (tally w)) as H0. destruct (loop e (tally w)) as [t' out].
    destruct H0 as (_ & _ & Hc & Hst & Hdt & Hb & Hr). split; cbn [fst tally due]; auto.
    + intros Hmax. destruct Hb as [Hb|(-> & _)].
      * rewrite (Hdt Hd), Hb, map_size_empty in Hmax. lia.
      * by apply Hw.
    + intros Hrun. destruct Hr as [Hr| ->]; [rewrite Hst; apply Hs; congruence|].
      unfold enabled in He. rewrite Hst. by apply andb_true_iff in He as [_ ?].
Qed.

(** One action conserves each key's sum. *)
Lemma act_sum a w k : let '(w', out) := act a w in
  wrap (delivered k out + amount k (buf (tally w'))) =
  wrap (amount k (buf (tally w)) + added k [a]) /\ Forall (fun m => m <> ∅) out.
Proof.
  destruct a as [k' d| | | |e]; cbn [act added].
  - destruct (add_locked k' d (tally w)) as [t over] eqn:E.
    assert (buf t = <[k' := wrap (amount k' (buf (tally w)) + d)]> (buf (tally w))) as Hb
      by (unfold add_locked in E; by injection E as <- _).
    cbn [tally delivered foldr]. rewrite Hb. split; [|done]. destruct (decide (k' = k)) as [->|Hne].
    + rewrite amount_insert, wrap_add_r. f_equal. lia.
    + rewrite amount_insert_ne by done. f_equal. lia.
  - destruct (due w); cbn; (split; [f_equal; lia|done]).
  - cbn. split; [f_equal; lia|done].
  - cbn. split; [f_equal; lia|done].
  - destruct (enabled e (tally w)); [|cbn; split; [f_equal; lia|done]].
    pose proof (loop_spec e (tally w)) as H0. destruct (loop e (tally w)) as [t' out].
    destruct H0 as (Ha & Hne & _). cbn [tally]. split; [|done]. rewrite (Ha k). f_equal. lia.
Qed.

Lemma added_cons k a acts : added k (a :: acts) = added k [a] + added k acts.
Proof. destruct a; simpl; lia. Qed.

Lemma run_inv acts : forall w, inv w -> inv (run acts w).1.
Proof.
  induction acts as [|a acts IH]; intros w Hw; [done|]. cbn [run].
  pose proof (act_inv a w Hw) as H1. destruct (act a w) as [w1 out]. specialize (IH w1 H1).
  by destruct (run acts w1).
Qed.

Lemma run_sum acts k : forall w, let '(w', out) := run acts w in
  wrap (delivered k out + amount k (buf (tally w'))) =
  wrap (amount k (buf (tally w)) + added k acts) /\ Forall (fun m => m <> ∅) out.
Proof.
  induction acts as [|a acts IH]; intros w; cbn [run].
  { cbn. split; [f_equal; lia|done]. }
  pose proof (act_sum a w k) as H1. destruct (act a w) as [w1 out]. destruct H1 as [H1 Hn1].
  specialize (IH w1). destruct (run acts w1) as [w2 out2]. destruct IH as [H2 Hn2].
  split; [|by apply Forall_app]. rewrite delivered_app, added_cons.
  rewrite <- Z.add_assoc, <- wrap_add_r, H2, wrap_add_r, Z.add_assoc, <- wrap_add, H1, wrap_add.
  f_equal. lia.
Qed.

(** A turn of the loop leaves nothing in the buffer, the last one unless told so. *)
Lemma loop_drains e t : flushOnStop (cfg t) = true \/ e <> EStop -> buf (loop e t).1 = ∅.
Proof.
  intros Hc. pose proof (loop_spec e t) as H0. destruct (loop e t) as [t' out]. cbn [fst].
  destruct H0 as (_ & _ & _ & _ & _ & [Hb|(_ & -> & Hf)] & _); [done|]. naive_solver congruence.
Qed.

Lemma wakes n : forall u, due u = n -> due (run (replicate n AWake) u).1 = 0%nat /\
  flushCh (tally (run (replicate n AWake) u).1) = flushCh (tally u) || (0 <? n)%nat.
Proof.
  induction n as [|n IH]; intros u Hu; cbn [replicate run act]; [by rewrite orb_false_r|].
  rewrite Hu. destruct (IH (MkWorld (triggerFlush (tally u)) n) eq_refl) as [H1 H2].
  destruct (run (replicate n AWake) _). cbn [fst] in *. rewrite H2. by rewrite orb_true_r.
Qed.

(** * Properties *)

(** Nothing is lost and nothing counted twice: under any interleaving of additions,
    wake-ups, ticks and the stop, what the batches delivered for a key plus what the buffer
    holds is, modulo the width of the type, the sum of what was added; no batch is empty; and a
    turn of the loop that is allowed to flush leaves nothing behind. *)
Theorem tally_conserves opts acts k : let '(w, out) := run acts (start opts) in
  wrap (delivered k out + amount k (buf (tally w))) = wrap (added k acts) /\
  Forall (fun m => m <> ∅) out /\
  forall e, enabled e (tally w) = true -> flushOnStop (cfg (tally w)) = true \/ e <> EStop ->
    let '(t', out') := loop e (tally w) in
    wrap (delivered k (out ++ out')) = wrap (added k acts) /\ buf t' = ∅.
Proof.
  pose proof (run_sum acts k (start opts)) as Hs. destruct (run acts (start opts)) as [w out].
  destruct Hs as [Hs Hn]. assert (buf (tally (start opts)) = ∅) as Hb0
    by (unfold start, New; cbn [tally]; by case_match).
  rewrite Hb0, amount_empty in Hs. split_and!; [exact Hs|done|].
  intros e He Hc. pose proof (loop_drains e (tally w) Hc) as Hd. pose proof (loop_spec e (tally w)) as H0.
  destruct (loop e (tally w)) as [t' out']. cbn [fst] in Hd. split; [|done].
  destruct H0 as (Ha & _). rewrite delivered_app. specialize (Ha k). rewrite Hd, amount_empty in Ha.
  replace (delivered k out') with (amount k (buf (tally w))) by lia. exact Hs.
Qed.

(** A buffer that has reached its threshold is flushed: whatever happened before, once the
    additions under way have woken the loop, the wake-up is in the channel, the loop can take
    it (or has been stopped), and taking it empties the buffer. *)
Theorem threshold_flushes opts acts : let w := (run acts (start opts)).1 in
  0 < maxKeys (cfg (tally w)) <= Pending (tally w) ->
  let w' := (run (replicate (due w) AWake) w).1 in
  due w' = 0%nat /\ flushCh (tally w') = true /\
  (running (tally w') = true -> enabled EFlush (tally w') = true) /\
  Pending (loop EFlush (tally w')).1 = 0.
Proof.
  intros w Hp w'. pose proof (run_inv acts (start opts) (start_inv opts)) as Hi. fold w in Hi.
  unfold Pending in *. rewrite <- (dirt_size w Hi) in Hp.
  destruct (wakes (due w) w eq_refl) as [H1 H2]. fold w' in H1, H2.
  assert (flushCh (tally w') = true) as Hf.
  { rewrite H2. destruct (woken w Hi Hp) as [->|Hd]; [done|].
    rewrite (proj2 (Nat.ltb_lt _ _) Hd). apply orb_true_r. }
  split_and!; try done.
  - intros Hr. unfold enabled. by rewrite Hr.
  - rewrite loop_drains by (by right). by rewrite map_size_empty.
Qed.
End tally.

#[export] Instance int64_number : Number.
Proof.
  refine {| wrap := wrap64 |}. intros a b. rewrite (Z.add_comm (wrap64 a)), (Z.add_comm a).
  apply wrap64_congr. unfold wrap64.
  replace (b + ((a + 2 ^ 63) mod 2 ^ 64 - 2 ^ 63) - (b + a))
    with ((a + 2 ^ 63) mod 2 ^ 64 - (a + 2 ^ 63)) by lia.
  rewrite Zminus_mod_idemp_l, Z.sub_diag. done.
Defined.

Definition demo_acts : list action :=
  [AAdd "likes" 3; AAdd "gifts" 1; AWake; ALoop EFlush; AAdd "likes" 4; ALoop ETick; AAdd "likes" 5;
   AAdd "gifts" 2].

Lemma threshold_flushes_witness :
  let w := (run demo_acts (start [WithMaxKeys 2])).1 in
  due w = 1%nat /\ flushCh (tally (run (replicate (due w) AWake) w).1) = true.
Proof.
  split; [vm_compute; reflexivity|].
  refine (proj1 (proj2 (threshold_flushes [WithMaxKeys 2] demo_acts _))).
  vm_compute. split; congruence.
Defined.
