(* ===== verification/CmdLog.v ===== *)
(** The frame-indexed command log ([pkg/cmdlog/cmdlog.go]): a ring of the commands of the last
    frames and a ring of checkpoints, from which a client that lost frames catches up. Both
    rings are read through the contents of [RingBuffer]. *)
From Stdlib Require Import ZArith Lia Bool Sorted.
From stdpp Require Import base numbers strings list sets.
From S2P Require Import Prelude RingBuffer.

Open Scope Z_scope.

Section cmdlog.
(** [S]: snapshots, [C]: the commands of a frame. *)
Context {S C : Type} (zeroS : S).

Record config := MkConfig { cfgCmdDepth : Z; cfgSnapDepth : Z }.

Definition WithCmdDepth (n : Z) (c : config) : config :=
  if 0 <? n then MkConfig n (cfgSnapDepth c) else c.
Definition WithSnapDepth (n : Z) (c : config) : config :=
  if 0 <? n then MkConfig (cfgCmdDepth c) n else c.

Record cmdEntry := MkCmd { cframe : Z; ccmds : list C }.
Record snapEntry := MkSnap { sframe : Z; sstate : S }.

Record Log := MkLog {
  cmds : list cmdEntry; cmdHead : Z; cmdCount : Z; cmdDepth : Z;
  snaps : list snapEntry; snapHead : Z; snapCount : Z; snapDepth : Z;
  latestFrame : Z
}.

Definition NewLog (opts : list (config -> config)) : Log :=
  let c := foldl (fun c o => o c) (MkConfig 512 8) opts in
  MkLog (replicate (Z.to_nat (cfgCmdDepth c)) (MkCmd 0 [])) 0 0 (cfgCmdDepth c)
        (replicate (Z.to_nat (cfgSnapDepth c)) (MkSnap 0 zeroS)) 0 0 (cfgSnapDepth c) 0.

(** [true]: recorded; [false]: [ErrFrameNotMonotonic]. *)
Definition Record_ (frame : Z) (cs : list C) (l : Log) : go (Log * bool) :=
  if (0 <? cmdCount l) && (frame <=? latestFrame l) then Ret (l, false)
  else
    b ← set_index (cmds l) (cmdHead l) (MkCmd frame cs);
    Ret (MkLog b (Z.rem (cmdHead l + 1) (cmdDepth l))
           (if cmdCount l <? cmdDepth l then cmdCount l + 1 else cmdCount l) (cmdDepth l)
           (snaps l) (snapHead l) (snapCount l) (snapDepth l) frame, true).

Definition Checkpoint (frame : Z) (st : S) (l : Log) : go Log :=
  b ← set_index (snaps l) (snapHead l) (MkSnap frame st);
  Ret (MkLog (cmds l) (cmdHead l) (cmdCount l) (cmdDepth l)
         b (Z.rem (snapHead l + 1) (snapDepth l))
         (if snapCount l <? snapDepth l then snapCount l + 1 else snapCount l) (snapDepth l)
         (latestFrame l)).

Record FrameCommands := MkFC { Frame : Z; Commands_ : list C }.

Record Recovery := MkRec {
  Snapshot : S; SnapshotFrame : Z; Commands : list FrameCommands;
  LatestFrame_ : Z; FullReset : bool
}.

(** The search for the snapshot, [i] steps back from the newest: the best so far. *)
Fixpoint best_loop (n : nat) (l : Log) (since i : Z) (best : option snapEntry) : go (option snapEntry) :=
  match n with
  | O => Ret best
  | Datatypes.S n =>
      e ← index (snaps l) (Z.rem (snapHead l - 1 - i + snapDepth l) (snapDepth l));
      let best :=
        if sframe e <=? since
        then match best with
             | None => Some e
             | Some b => if sframe b <? sframe e then Some e else best
             end
        else best in
      best_loop n l since (i + 1) best
  end.

(** The commands after the snapshot, from the oldest entry. *)
Fixpoint collect_loop (n : nat) (l : Log) (after i : Z) : go (list FrameCommands) :=
  match n with
  | O => Ret []
  | Datatypes.S n =>
      e ← index (cmds l) (Z.rem (cmdHead l - cmdCount l + i + cmdDepth l) (cmdDepth l));
      rest ← collect_loop n l after (i + 1);
      Ret (if cframe e <=? after then rest else MkFC (cframe e) (ccmds e) :: rest)
  end.

Definition Recover (since : Z) (l : Log) : go (option Recovery) :=
  if snapCount l =? 0 then Ret None
  else
    best ← best_loop (Z.to_nat (snapCount l)) l since 0 None;
    snap ← match best with
           | Some e => Ret e
           | None => index (snaps l) (Z.rem (snapHead l - snapCount l + snapDepth l) (snapDepth l))
           end;
    if 0 <? cmdCount l then
      o ← index (cmds l) (Z.rem (cmdHead l - cmdCount l + cmdDepth l) (cmdDepth l));
      commands ← collect_loop (Z.to_nat (cmdCount l)) l (sframe snap) 0;
      Ret (Some (MkRec (sstate snap) (sframe snap) commands (latestFrame l)
                   (wrapu64 (sframe snap + 1) <? cframe o)))
    else Ret (Some (MkRec (sstate snap) (sframe snap) [] (latestFrame l) false)).

Definition LatestFrame (l : Log) : Z := latestFrame l.
Definition CmdCount (l : Log) : Z := cmdCount l.
Definition SnapCount (l : Log) : Z := snapCount l.

(** * The log as two histories *)

Definition cmd_ring (l : Log) : Ring := MkRing (cmds l) (cmdHead l) (cmdCount l).
Definition snap_ring (l : Log) : Ring := MkRing (snaps l) (snapHead l) (snapCount l).

(** The log holds the ends of the histories of the frames recorded and of the checkpoints. *)
Record holds (l : Log) (hc : list cmdEntry) (hs : list snapEntry) : Prop := {
  cmd_wf : wf (cmd_ring l); cmd_depth : cmdDepth l = Z.of_nat (length (cmds l));
  snap_wf : wf (snap_ring l); snap_depth : snapDepth l = Z.of_nat (length (snaps l));
  cmd_held : contents (cmd_ring l) = lastn (length (cmds l)) hc;
  snap_held : contents (snap_ring l) = lastn (length (snaps l)) hs;
  frames_sorted : StronglySorted (fun a b => cframe a < cframe b) hc;
  latest_is : match last hc with Some e => latestFrame l = cframe e | None => cmdCount l = 0 end
}.

Inductive op := ORecord (frame : Z) (cs : list C) | OCheckpoint (frame : Z) (st : S).

Definition step (o : op) (l : Log) : go Log :=
  match o with
  | ORecord f cs => '(l, _) ← Record_ f cs l; Ret l
  | OCheckpoint f s => Checkpoint f s l
  end.

Fixpoint steps (ops : list op) (l : Log) : go Log :=
  match ops with [] => Ret l | o :: ops => l ← step o l; steps ops l end.

(** The frames accepted: those above the last one. *)
Fixpoint recorded (ops : list op) (last : option Z) : list cmdEntry :=
  match ops with
  | [] => []
  | ORecord f cs :: ops =>
      if match last with Some p => f <=? p | None => false end then recorded ops last
      else MkCmd f cs :: recorded ops (Some f)
  | OCheckpoint _ _ :: ops => recorded ops last
  end.
Fixpoint checkpoints (ops : list op) : list snapEntry :=
  match ops with
  | [] => []
  | OCheckpoint f s :: ops => MkSnap f s :: checkpoints ops
  | ORecord _ _ :: ops => checkpoints ops
  end.

Lemma lastn_app_r {A} k (l : list A) : exists d, l = d ++ lastn k l.
Proof. exists (take (length l - k) l). unfold lastn. by rewrite take_drop. Qed.

Lemma lastn_snoc {A} k (l : list A) x : lastn k (lastn k l ++ [x]) = lastn k (l ++ [x]).
Proof. apply lastn_app_lastn. Qed.

Lemma holds_counts l hc hs : holds l hc hs ->
  (0 < length (cmds l))%nat /\ (cmdCount l = 0 <-> hc = []) /\
  (0 < length (snaps l))%nat /\ (snapCount l = 0 <-> hs = []).
Proof.
  intros [Hw _ Hs _ Hc Hh _ _].
  assert (0 < length (cmds l))%nat by (destruct Hw as (?&_); unfold len in *; simpl in *; lia).
  assert (0 < length (snaps l))%nat by (destruct Hs as (?&_); unfold len in *; simpl in *; lia).
  pose proof (length_contents _ Hw) as Hlc. pose proof (length_contents _ Hs) as Hls. simpl in Hlc, Hls.
  split_and!; try done.
  - rewrite <- (lastn_nil_iff (length (cmds l))), <- Hc, <- Hlc by done. split.
    + intros ?. apply nil_length_inv. lia.
    + intros ->. done.
  - rewrite <- (lastn_nil_iff (length (snaps l))), <- Hh, <- Hls by done. split.
    + intros ?. apply nil_length_inv. lia.
    + intros ->. done.
Qed.

Lemma NewLog_holds opts : 0 < cmdDepth (NewLog opts) -> 0 < snapDepth (NewLog opts) ->
  holds (NewLog opts) [] [].
Proof.
  unfold NewLog. set (c := foldl _ _ _). cbn [cmdDepth snapDepth]. intros Hc Hs.
  assert (Hwf : forall {A} (z : A) d, 0 < d -> wf (MkRing (replicate (Z.to_nat d) z) 0 0) /\
    contents (MkRing (replicate (Z.to_nat d) z) 0 0) = []).
  { intros A z d Hd. unfold wf, contents, len. simpl. rewrite length_replicate.
    destruct (Z.ltb_spec 0 (Z.of_nat (Z.to_nat d))); [split; [lia|done]|lia]. }
  destruct (Hwf _ (MkCmd 0 []) _ Hc) as [H1 H2]. destruct (Hwf _ (MkSnap 0 zeroS) _ Hs) as [H3 H4].
  split; unfold cmd_ring, snap_ring; simpl; rewrite ?length_replicate; try done; try lia. constructor.
Qed.

(** The options keep the depths positive. *)
Lemma NewLog_depths opts : Forall (fun o => exists n, o = WithCmdDepth n \/ o = WithSnapDepth n) opts ->
  0 < cmdDepth (NewLog opts) /\ 0 < snapDepth (NewLog opts).
Proof.
  intros Ho. unfold NewLog. cbn [cmdDepth snapDepth].
  assert (forall c, 0 < cfgCmdDepth c -> 0 < cfgSnapDepth c ->
    0 < cfgCmdDepth (foldl (fun c o => o c) c opts) /\ 0 < cfgSnapDepth (foldl (fun c o => o c) c opts)) as H.
  { induction Ho as [|o opts [n Hn] Ho IH]; intros c H1 H2; [done|]. cbn [foldl]. apply IH;
      destruct Hn as [-> | ->]; unfold WithCmdDepth, WithSnapDepth; destruct (Z.ltb_spec 0 n); done. }
  by apply H.
Qed.

Lemma Record_holds f cs l hc hs : holds l hc hs -> exists l' ok, Record_ f cs l = Ret (l', ok) /\
  holds l' (hc ++ if match cframe <$> last hc with Some p => f <=? p | None => false end
                  then [] else [MkCmd f cs]) hs.
Proof.
  intros H. pose proof (holds_counts l hc hs H) as (Hp & Hz & _ & _).
  destruct H as [Hw Hd Hs Hds Hc Hh Hsort Hlast]. unfold Record_.
  pose proof (length_contents _ Hw) as Hlen. simpl in Hlen.
  assert ((0 <? cmdCount l) && (f <=? latestFrame l) =
    match cframe <$> last hc with Some p => f <=? p | None => false end) as Hg.
  { destruct (last hc) as [e|] eqn:El; cbn [fmap option_fmap option_map] in *.
    - rewrite (proj2 (Z.ltb_lt _ _)), Hlast; [done|].
      destruct (decide (cmdCount l = 0)) as [E|]; [|lia]. apply Hz in E. by rewrite E in El.
    - apply last_None in El. rewrite (proj2 (Z.ltb_ge _ _)); [done|]. apply Hz in El. lia. }
  rewrite Hg. clear Hg. destruct (match cframe <$> last hc with Some p => _ | None => _ end) eqn:Hg.
  { rewrite app_nil_r. eexists _, _. split; [done|]. by split. }
  destruct (raw_push (cmds l) (cmdHead l) (cmdCount l) (MkCmd f cs) Hw) as (b & -> & Hb & Hw' & Hc').
  cbn [mbind go_bind]. eexists _, _. split; [done|].
  split; unfold cmd_ring, snap_ring; cbn [cmds cmdHead cmdCount cmdDepth snaps snapHead snapCount snapDepth latestFrame].
  - by rewrite Hd.
  - by rewrite Hb.
  - exact Hs.
  - exact Hds.
  - rewrite Hb, Hd, Hc'. unfold cmd_ring in Hc. by rewrite Hc, lastn_snoc.
  - exact Hh.
  - apply sorted_snoc; [intros ??? ??; lia|done|]. intros e Hl. rewrite Hl in Hg. simpl in *. lia.
  - by rewrite last_snoc.
Qed.

Lemma Checkpoint_holds f st l hc hs : holds l hc hs -> exists l', Checkpoint f st l = Ret l' /\
  holds l' hc (hs ++ [MkSnap f st]).
Proof.
  intros [Hw Hd Hs Hds Hc Hh Hsort Hlast]. unfold Checkpoint.
  destruct (raw_push (snaps l) (snapHead l) (snapCount l) (MkSnap f st) Hs) as (b & -> & Hb & Hs' & Hc').
  cbn [mbind go_bind]. eexists. split; [done|].
  split; unfold cmd_ring, snap_ring; cbn [cmds cmdHead cmdCount cmdDepth snaps snapHead snapCount snapDepth latestFrame];
    try done; rewrite ?Hb, ?Hds; try done.
  rewrite Hc'. unfold snap_ring in Hh. by rewrite Hh, lastn_snoc.
Qed.

Lemma steps_holds ops : forall l hc hs, holds l hc hs -> exists l', steps ops l = Ret l' /\
  holds l' (hc ++ recorded ops (cframe <$> last hc)) (hs ++ checkpoints ops).
Proof.
  induction ops as [|[f cs|f st] ops IH]; intros l hc hs Hl; simpl.
  - exists l. by rewrite !app_nil_r.
  - destruct (Record_holds f cs l hc hs Hl) as (l1 & ok & -> & H1). simpl.
    destruct (IH l1 _ _ H1) as (l2 & -> & H2). exists l2. split; [done|].
    destruct (match cframe <$> last hc with Some p => f <=? p | None => false end).
    + by rewrite app_nil_r in H2.
    + rewrite last_snoc, <- app_assoc in H2. exact H2.
  - destruct (Checkpoint_holds f st l hc hs Hl) as (l1 & -> & H1). simpl.
    destruct (IH l1 _ _ H1) as (l2 & -> & H2). exists l2. split; [done|].
    rewrite <- app_assoc in H2. exact H2.
Qed.

(** * What the two loops of [Recover] read *)

(** [best_loop] over the entries themselves. *)
Definition better (since : Z) (best : option snapEntry) (e : snapEntry) : option snapEntry :=
  if sframe e <=? since
  then match best with
       | None => Some e
       | Some b => if sframe b <? sframe e then Some e else best
       end
  else best.

Lemma best_loop_reads l since n : wf (snap_ring l) -> snapDepth l = Z.of_nat (length (snaps l)) ->
  forall i best, (i + n = length (contents (snap_ring l)))%nat ->
  best_loop n l since (Z.of_nat i) best =
  Ret (foldl (better since) best (drop i (reverse (contents (snap_ring l))))).
Proof.
  intros Hw Hd. induction n as [|n IH]; intros i best Hi; cbn [best_loop].
  { by rewrite drop_ge by (rewrite length_reverse; lia). }
  destruct (lookup_lt_is_Some_2 (reverse (contents (snap_ring l))) i) as [e He].
  { rewrite length_reverse. lia. }
  rewrite Hd, (raw_newest _ _ (snapCount l) _ e Hw He), (drop_S _ _ _ He). cbn [mbind go_bind foldl].
  replace (Z.of_nat i + 1) with (Z.of_nat (Datatypes.S i)) by lia. apply IH. lia.
Qed.

Definition frame_commands (e : cmdEntry) : FrameCommands := MkFC (cframe e) (ccmds e).

Lemma collect_loop_reads l after n : wf (cmd_ring l) -> cmdDepth l = Z.of_nat (length (cmds l)) ->
  forall i, (i + n = length (contents (cmd_ring l)))%nat ->
  collect_loop n l after (Z.of_nat i) =
  Ret (map frame_commands (filter (fun e => after < cframe e) (drop i (contents (cmd_ring l))))).
Proof.
  intros Hw Hd. induction n as [|n IH]; intros i Hi; cbn [collect_loop].
  { by rewrite drop_ge by lia. }
  destruct (lookup_lt_is_Some_2 (contents (cmd_ring l)) i) as [e He]; [lia|].
  rewrite Hd, (raw_oldest _ _ (cmdCount l) _ e Hw He), (drop_S _ _ _ He). cbn [mbind go_bind].
  replace (Z.of_nat i + 1) with (Z.of_nat (Datatypes.S i)) by lia. rewrite IH by lia.
  cbn [mbind go_bind]. rewrite filter_cons. f_equal.
  destruct (Z.leb_spec (cframe e) after); destruct (decide (after < cframe e)); done || lia.
Qed.

(** [o] is the entry of greatest frame not after [since] among those of [P], if there is one. *)
Definition is_best (since : Z) (P : snapEntry -> Prop) (o : option snapEntry) : Prop :=
  match o with
  | Some e => P e /\ sframe e <= since /\ forall e', P e' -> sframe e' <= since -> sframe e' <= sframe e
  | None => forall e', P e' -> since < sframe e'
  end.

Lemma better_best since P o x : is_best since P o ->
  is_best since (fun e => P e \/ e = x) (better since o x).
Proof.
  unfold better. destruct (Z.leb_spec (sframe x) since) as [Hx|Hx]; destruct o as [b|]; simpl.
  - intros (Hb&Hs&Hm). destruct (Z.ltb_spec (sframe b) (sframe x)); simpl.
    + split; [by right|]. split; [done|]. intros e' [He'| ->] Hle; [|done]. pose proof (Hm e' He' Hle). lia.
    + split; [by left|]. split; [done|]. intros e' [He'| ->] Hle; [by apply Hm|lia].
  - intros Hn. split; [by right|]. split; [done|]. intros e' [He'| ->] Hle; [|done]. pose proof (Hn e' He'). lia.
  - intros (Hb&Hs&Hm). split; [by left|]. split; [done|]. intros e' [He'| ->] Hle; [by apply Hm|lia].
  - intros Hn e' [He'| ->]; [by apply Hn|done].
Qed.

Lemma foldl_best since ss : forall P o, is_best since P o ->
  is_best since (fun e => P e \/ e ∈ ss) (foldl (better since) o ss).
Proof.
  induction ss as [|x ss IH]; intros P o Ho; cbn [foldl].
  - destruct o; simpl in *; set_solver.
  - pose proof (IH _ _ (better_best since P o x Ho)) as H. clear IH Ho.
    destruct (foldl _ _ ss); simpl in *; set_solver.
Qed.

(** * Recovery *)

(** The snapshot a client at [since] starts from, among the ones kept [ks]. *)
Definition starts_at (since : Z) (ks : list snapEntry) (e : snapEntry) : Prop :=
  e ∈ ks /\
  ((sframe e <= since /\ forall e', e' ∈ ks -> sframe e' <= since -> sframe e' <= sframe e) \/
   (hd_error ks = Some e /\ forall e', e' ∈ ks -> since < sframe e')).

(** [Recover] over the two histories. *)
Lemma Recover_reads since l hc hs : holds l hc hs -> hs <> [] ->
  exists e, starts_at since (lastn (length (snaps l)) hs) e /\
    Recover since l = Ret (Some (MkRec (sstate e) (sframe e)
      (map frame_commands (filter (fun c => sframe e < cframe c) (lastn (length (cmds l)) hc)))
      (latestFrame l)
      match hd_error (lastn (length (cmds l)) hc) with
      | Some o => wrapu64 (sframe e + 1) <? cframe o
      | None => false
      end)).
Proof.
  intros H Hne. pose proof (holds_counts l hc hs H) as (Hp & Hz & Hsp & Hsz).
  destruct H as [Hw Hd Hs Hds Hc Hh _ _]. unfold Recover.
  rewrite (proj2 (Z.eqb_neq _ _)) by tauto.
  pose proof (length_contents _ Hs) as Hls. pose proof (length_contents _ Hw) as Hlc. simpl in Hls, Hlc.
  rewrite <- Hc, <- Hh. rewrite <- Hls, Nat2Z.id. 
  rewrite (best_loop_reads l since _ Hs Hds 0) by lia. rewrite drop_0. cbn [mbind go_bind].
  pose proof (foldl_best since (reverse (contents (snap_ring l))) (fun _ => False) None) as Hb.
  assert (exists e, starts_at since (contents (snap_ring l)) e /\
    match foldl (better since) None (reverse (contents (snap_ring l))) with
    | Some e => Ret e
    | None => index (snaps l) (Z.rem (snapHead l - Z.of_nat (length (contents (snap_ring l))) + snapDepth l) (snapDepth l))
    end = Ret e) as (e & He & ->).
  { destruct (foldl _ _ _) as [e|]; simpl in Hb; setoid_rewrite elem_of_reverse in Hb.
    - destruct Hb as ([|He]&?&?); [done|done|]. exists e. split; [|done]. split; [done|]. left. naive_solver.
    - destruct (contents (snap_ring l)) as [|e ss] eqn:Ec.
      + exfalso. apply Hne. apply (lastn_nil_iff _ _ Hsp). by rewrite <- Hh.
      + exists e. split; [|].
        * split; [set_solver|]. right. split; [done|]. naive_solver.
        * rewrite Hls, Hds. rewrite <- (Z.add_0_r (snapHead l - snapCount l)).
          apply (raw_oldest _ _ _ 0 e Hs). exact (f_equal (lookup 0%nat) Ec). }
  cbn [mbind go_bind]. exists e. split; [done|].
  destruct (contents (cmd_ring l)) as [|o cs] eqn:Ec.
  { rewrite (proj2 (Z.ltb_ge _ _)) by (simpl in Hlc; lia). done. }
  rewrite (proj2 (Z.ltb_lt _ _)) by (simpl in Hlc; lia).
  replace (Z.to_nat (cmdCount l)) with (length (o :: cs)) by lia.
  assert (index (cmds l) (Z.rem (cmdHead l - cmdCount l + cmdDepth l) (cmdDepth l)) = Ret o) as ->.
  { rewrite Hd, <- (Z.add_0_r (cmdHead l - cmdCount l)).
    apply (raw_oldest _ _ _ 0 o Hw). exact (f_equal (lookup 0%nat) Ec). }
  cbn [mbind go_bind].
  rewrite <- Ec, (collect_loop_reads l _ _ Hw Hd 0) by lia. by rewrite drop_0, Ec.
Qed.

(** Nothing recorded after the snapshot is missing from the commands unless [FullReset] is set. *)
Lemma commands_complete (hc : list cmdEntry) k f : StronglySorted (fun a b => cframe a < cframe b) hc ->
  Forall (fun c => 0 <= cframe c) hc -> 0 <= f ->
  match hd_error (lastn k hc) with Some o => wrapu64 (f + 1) <? cframe o | None => false end = false ->
  (0 < k)%nat -> filter (fun c => f < cframe c) (lastn k hc) = filter (fun c => f < cframe c) hc.
Proof.
  intros Hs Hpos Hf Hr Hk. rewrite <- (take_drop (length hc - k) hc) at 2. rewrite filter_app.
  destruct (hd_error (lastn k hc)) as [o|] eqn:Eo.
  - rewrite (filter_none _ (take _ _)); [done|]. intros e He.
    pose proof (lastn_older cframe hc k o e Hs Eo He). apply Z.ltb_ge in Hr.
    pose proof (wrapu64_le (f + 1)). lia.
  - destruct (lastn k hc) eqn:E; [|done]. by apply lastn_nil_iff in E as ->.
Qed.

Lemma foldl_map {A B D} (g : D -> B -> D) (h : A -> B) l d :
  foldl g d (map h l) = foldl (fun d a => g d (h a)) d l.
Proof. revert d. induction l as [|a l IH]; intros d; [done|]. apply IH. Qed.

Lemma frames_split (hc : list cmdEntry) f : StronglySorted (fun a b => cframe a < cframe b) hc ->
  filter (fun c => cframe c <= f) hc ++ filter (fun c => f < cframe c) hc = hc.
Proof.
  intros Hs. induction Hs as [|x l Hs IH Hx]; [done|]. rewrite !filter_cons.
  destruct (decide (cframe x <= f)), (decide (f < cframe x)); try lia; [by rewrite <- app_comm_cons, IH|].
  rewrite (filter_none (fun c => cframe c <= f)), (filter_every (fun c => f < cframe c)); [done|..].
  - intros e He. rewrite Forall_forall in Hx. apply Hx in He. lia.
  - intros e He. rewrite Forall_forall in Hx. apply Hx in He. lia.
Qed.

Lemma recorded_frames ops : forall last, Forall (fun o => match o with ORecord f _ | OCheckpoint f _ => 0 <= f end) ops ->
  Forall (fun c => 0 <= cframe c) (recorded ops last) /\ Forall (fun e => 0 <= sframe e) (checkpoints ops).
Proof.
  induction ops as [|[f cs|f st] ops IH]; intros last Ho; simpl; [done|..];
    apply Forall_cons in Ho as [Hf Ho].
  - split; [|by apply (IH last)].
    destruct (match last with Some p => f <=? p | None => false end); [by apply IH|].
    constructor; [done|by apply IH].
  - split; [by apply IH|]. constructor; [done|by apply (IH last)].
Qed.

(** Running the frames a client missed on top of the snapshot gives the state after all frames. *)
Lemma replay_from_snapshot (run : S -> FrameCommands -> S) s0 (hc : list cmdEntry) e :
  StronglySorted (fun a b => cframe a < cframe b) hc ->
  sstate e = foldl run s0 (map frame_commands (filter (fun c => cframe c <= sframe e) hc)) ->
  foldl run (sstate e) (map frame_commands (filter (fun c => sframe e < cframe c) hc)) =
  foldl run s0 (map frame_commands hc).
Proof.
  intros Hs ->. rewrite <- foldl_app, <- map_app. by rewrite frames_split.
Qed.

Lemma Recover_after opts ops since (run : S -> FrameCommands -> S) s0 :
  Forall (fun o => exists n, o = WithCmdDepth n \/ o = WithSnapDepth n) opts ->
  Forall (fun o => match o with ORecord f _ | OCheckpoint f _ => 0 <= f end) ops ->
  let hc := recorded ops None in
  exists l, steps ops (NewLog opts) = Ret l /\
    ((checkpoints ops = [] /\ Recover since l = Ret None) \/
     exists e r, Recover since l = Ret (Some r) /\ starts_at since (lastn (Z.to_nat (snapDepth l)) (checkpoints ops)) e /\ e ∈ checkpoints ops /\
       Snapshot r = sstate e /\ SnapshotFrame r = sframe e /\
       (sstate e = foldl run s0 (map frame_commands (filter (fun c => cframe c <= sframe e) hc)) -> FullReset r = false ->
        foldl run (Snapshot r) (Commands r) = foldl run s0 (map frame_commands hc))).
Proof.
  intros Hopts Hops hc. destruct (NewLog_depths opts Hopts) as [Hd1 Hd2].
  destruct (steps_holds ops _ _ _ (NewLog_holds opts Hd1 Hd2)) as (l & Hl & H). simpl in H.
  exists l. destruct (recorded_frames ops None Hops) as [Hcf Hsf]. split; [done|].
  destruct (decide (checkpoints ops = [])) as [E|E].
  { left. split; [done|]. unfold Recover. by rewrite (proj2 (Z.eqb_eq _ _)) by (by apply (holds_counts _ _ _ H)). }
  right. destruct (Recover_reads since l _ _ H E) as (e & He & ->). exists e. eexists. split; [done|].
  cbn [Snapshot SnapshotFrame Commands FullReset]. assert (e ∈ checkpoints ops) as Hin by (eapply lastn_subset, He).
  split; [by rewrite (snap_depth _ _ _ H), Nat2Z.id|]. split; [done|]. split; [done|]. split; [done|].
  intros Hcons Hr. rewrite (commands_complete hc); try done.
  - apply replay_from_snapshot; [apply H|done].
  - apply H.
  - rewrite Forall_forall in Hsf. by apply Hsf.
  - by apply (holds_counts _ _ _ H).
Qed.

(** C22: Whatever frames are recorded and checkpoints taken, in any order, no call panics; [Recover] fails exactly when there
    was no checkpoint, and otherwise hands out one that was taken, with its frame, and commands. When every checkpoint is
    the state after the frames up to its own and [FullReset] is not set, replaying these commands over it gives the state
    after every recorded frame, the ones the ring dropped included, whatever frame was asked for. *)
Theorem recover_catches_up opts ops since (run : S -> FrameCommands -> S) s0 :
  Forall (fun o => exists n, o = WithCmdDepth n \/ o = WithSnapDepth n) opts ->
  Forall (fun o => match o with ORecord f _ | OCheckpoint f _ => 0 <= f end) ops ->
  let hc := recorded ops None in
  (forall e, e ∈ checkpoints ops ->
     sstate e = foldl run s0 (map frame_commands (filter (fun c => cframe c <= sframe e) hc))) ->
  exists l r, steps ops (NewLog opts) = Ret l /\ Recover since l = Ret r /\
    match r with
    | None => checkpoints ops = []
    | Some r =>
        (exists e, e ∈ checkpoints ops /\ Snapshot r = sstate e /\ SnapshotFrame r = sframe e) /\
        (FullReset r = false -> foldl run (Snapshot r) (Commands r) = foldl run s0 (map frame_commands hc))
    end.
Proof.
  intros Hopts Hops hc Hcons. destruct (Recover_after opts ops since run s0 Hopts Hops) as (l & Hl & [[E Hr]|(e & r & Hr & _ & Hin & H1 & H2 & H3)]); exists l.
  - by exists None.
  - exists (Some r). split; [done|]. split; [done|]. split; [by exists e|]. by apply H3, Hcons.
Qed.

(** [Recover] starts from the newest kept checkpoint not after the frame asked for, or from the oldest kept one when all of
    them are later; also when commands are missing and [FullReset] is set, where the package documents the newest. *)
Theorem recover_starts opts ops since :
  Forall (fun o => exists n, o = WithCmdDepth n \/ o = WithSnapDepth n) opts ->
  Forall (fun o => match o with ORecord f _ | OCheckpoint f _ => 0 <= f end) ops ->
  exists l, steps ops (NewLog opts) = Ret l /\
    (checkpoints ops = [] \/ exists e r, Recover since l = Ret (Some r) /\
      starts_at since (lastn (Z.to_nat (snapDepth l)) (checkpoints ops)) e /\ Snapshot r = sstate e /\ SnapshotFrame r = sframe e).
Proof.
  intros Hopts Hops. destruct (decide (checkpoints ops = [])) as [E0|E0].
  { destruct (NewLog_depths opts Hopts) as [Hd1 Hd2]. destruct (steps_holds ops _ _ _ (NewLog_holds opts Hd1 Hd2)) as (l & Hl & _). exists l. by split; [|left]. }
  destruct (hd_error (checkpoints ops)) as [e0|] eqn:Eh; [|by destruct (checkpoints ops)].
  destruct (Recover_after opts ops since (fun s _ => s) (sstate e0) Hopts Hops) as (l & Hl & [[E _]|(e & r & Hr & Hst & _ & H1 & H2 & _)]); [done|].
  exists l. split; [done|]. right. by exists e, r.
Qed.

End cmdlog.

(** Five frames in a log of three, checkpoints after the second and the fourth: a client at frame
    3 gets the checkpoint at 2 and the commands of 3, 4 and 5. *)
Lemma recover_catches_up_witness :
  let run (s : Z) (f : FrameCommands) := foldl Z.add s (Commands_ f) in
  let ops := [ORecord 1 [1]; ORecord 2 [2]; OCheckpoint 2 3; ORecord 3 [3]; ORecord 4 [4];
              OCheckpoint 4 10; ORecord 4 [7]; ORecord 5 [5]] in
  exists l r, steps ops (NewLog 0 [WithCmdDepth 3; WithSnapDepth 2]) = Ret l /\
    Recover 3 l = Ret (Some r) /\ FullReset r = false /\ Snapshot r = 3 /\
    map Frame (Commands r) = [3; 4; 5] /\ foldl run (Snapshot r) (Commands r) = 15.
Proof.
  intros run ops.
  destruct (recover_catches_up 0 [WithCmdDepth 3; WithSnapDepth 2] ops 3 run 0) as (l & r & Hl & Hr & H).
  - apply Forall_cons_2; [exists 3; by left|]. apply Forall_cons_2; [exists 2; by right|]. by apply Forall_nil_2.
  - repeat apply Forall_cons_2; try lia. by apply Forall_nil_2.
  - intros e He. repeat (apply elem_of_cons in He as [->|He]; [reflexivity|]).
    exfalso. by apply not_elem_of_nil in He.
  - vm_compute in Hl. injection Hl as <-. vm_compute in Hr. injection Hr as <-.
    destruct H as [_ H]. eexists _, _. split; [vm_compute; reflexivity|]. split; [vm_compute; reflexivity|].
    split; [reflexivity|]. split; [reflexivity|]. split; [reflexivity|].
    refine (eq_trans (H eq_refl) _). vm_compute. reflexivity.
Defined.
