(* ===== verification/Storage.v ===== *)
(** Versioned object storage ([pkg/domain/storage/storage.go]): optimistic writes, batches with
    roll-back, access rights and lazy eviction, refined to one compare-and-set register per key. *)
From Stdlib Require Import ZArith Lia Bool Sorted Floats.SpecFloat.
From stdpp Require Import base numbers strings list gmap fin_maps sets sorting.
From S2P Require Import Prelude Float64.

Open Scope Z_scope.

Section storage.
(** [md5.Sum] in hexadecimal, of the standard library: a parameter. *)
Context (md5_hex : list Byte.byte -> string).

Record Object := MkObj {
  OwnerID : string; Collection : string; Key : string; Value : list Byte.byte;
  Version : string; ReadAccess : Z; WriteAccess : Z; UpdateTime : Z
}.

Inductive WriteMode := WriteIfMatch | WriteIfNotExist | WriteLastWriteWins.

Record WriteOp := MkOp {
  oOwnerID : string; oCollection : string; oKey : string; oValue : list Byte.byte;
  oMode : WriteMode; oVersion : string; oReadAccess : Z; oWriteAccess : Z
}.

Inductive sErr := ErrVersionMismatch | ErrConflict | ErrReadOnly | PermissionDenied.

Record Storage := MkStorage { objects : gmap string Object; maxEntries : Z }.

Definition WithMaxEntries (n : Z) (c : Z) : Z := n.

Definition New (opts : list (Z -> Z)) : Storage :=
  MkStorage ∅ (foldl (fun c o => o c) 10000 opts).

Definition objectKey (owner collection key : string) : string :=
  (owner ++ "/" ++ collection ++ "/" ++ key)%string.

Definition versionOf (value : list Byte.byte) : string :=
  match value with [] => "" | _ => md5_hex value end.

Definition canRead (o : Object) (callerID : string) : bool :=
  if ReadAccess o =? 0 then bool_decide (callerID = OwnerID o)
  else if ReadAccess o =? 1 then bool_decide (callerID = OwnerID o)
  else if ReadAccess o =? 2 then true
  else false.

Definition canWrite (o : Object) (callerID : string) : bool :=
  if WriteAccess o =? 0 then false else bool_decide (callerID = OwnerID o).

Definition Read (owner collection key callerID : string) (s : Storage) : result sErr (option Object) :=
  match objects s !! objectKey owner collection key with
  | None => Ok None
  | Some o => if canRead o callerID then Ok (Some o) else Err PermissionDenied
  end.

Definition opKey (op : WriteOp) : string := objectKey (oOwnerID op) (oCollection op) (oKey op).

Definition set_objects (s : Storage) (m : gmap string Object) : Storage := MkStorage m (maxEntries s).

Definition applyWriteLocked (op : WriteOp) (now : Z) (s : Storage) : result sErr (Storage * Object) :=
  let k := opKey op in
  let existing := objects s !! k in
  if match existing with Some e => negb (canWrite e (oOwnerID op)) | None => false end
  then Err ErrReadOnly
  else
    match
      match oMode op with
      | WriteIfMatch =>
          if bool_decide (oVersion op = "")
          then match existing with Some _ => Some ErrConflict | None => None end
          else match existing with
               | None => Some ErrVersionMismatch
               | Some e => if bool_decide (Version e = oVersion op) then None else Some ErrVersionMismatch
               end
      | WriteIfNotExist => match existing with Some _ => Some ErrConflict | None => None end
      | WriteLastWriteWins => None
      end
    with
    | Some err => Err err
    | None =>
        let o := MkObj (oOwnerID op) (oCollection op) (oKey op) (oValue op)
                   (versionOf (oValue op)) (oReadAccess op) (oWriteAccess op) now in
        Ok (set_objects s (<[k := o]> (objects s)), o)
    end.

(** The entries in the order the sort by time leaves them; the order of the map's range and of
    equal times is arbitrary, so a call comes with the order it saw. *)
Definition ordering := gmap string Object -> list (string * Z).

Fixpoint evict_loop (del : nat) (i : Z) (all : list (string * Z)) (m : gmap string Object) : go (gmap string Object) :=
  match del with
  | O => Ret m
  | S del => e ← index all i; evict_loop del (i + 1) all (delete e.1 m)
  end.

Definition threshold (s : Storage) : Z := to_int (fmul (of_int (maxEntries s)) (decimal 11 10)).

Definition evictLocked (order : ordering) (s : Storage) : go Storage :=
  if Z.of_nat (size (objects s)) <=? threshold s then Ret s
  else
    let all := order (objects s) in
    let del := Z.of_nat (length all) - maxEntries s in
    m ← evict_loop (Z.to_nat del) 0 all (objects s);
    Ret (set_objects s m).

(** [clock] is the reading taken when [now] is zero. *)
Definition Write (op : WriteOp) (now clock : Z) (order : ordering) (s : Storage)
    : go (Storage * result sErr Object) :=
  let now := if now =? 0 then clock else now in
  match applyWriteLocked op now s with
  | Err e => Ret (s, Err e)
  | Ok (s, o) => s ← evictLocked order s; Ret (s, Ok o)
  end.

(** The order of a batch: by collection, key and owner. *)
Definition op_less (a b : WriteOp) : bool :=
  if bool_decide (oCollection a = oCollection b) then
    if bool_decide (oKey a = oKey b) then String.ltb (oOwnerID a) (oOwnerID b)
    else String.ltb (oKey a) (oKey b)
  else String.ltb (oCollection a) (oCollection b).

Definition restore (m : gmap string Object) (sn : string * option Object) : gmap string Object :=
  match sn.2 with None => delete sn.1 m | Some o => <[sn.1 := o]> m end.

Fixpoint batch_loop (ops : list WriteOp) (now : Z) (s : Storage) (snaps : list (string * option Object))
    (committed : list Object) : Storage * result sErr (list Object) :=
  match ops with
  | [] => (s, Ok committed)
  | op :: ops =>
      let k := opKey op in
      let snaps := snaps ++ [(k, objects s !! k)] in
      match applyWriteLocked op now s with
      | Err e => (set_objects s (foldl restore (objects s) snaps), Err e)
      | Ok (s, o) => batch_loop ops now s snaps (committed ++ [o])
      end
  end.

(** [sorted] is the batch after [sort.Slice], which may order the operations on one key in any way. *)
Definition WriteBatch (sorted : list WriteOp) (now clock : Z) (order : ordering) (s : Storage)
    : go (Storage * result sErr (list Object)) :=
  let now := if now =? 0 then clock else now in
  match batch_loop sorted now s [] [] with
  | (s, Err e) => Ret (s, Err e)
  | (s, Ok committed) => s ← evictLocked order s; Ret (s, Ok committed)
  end.

(** [range]: the objects in the order of the map's range. *)
Definition List_ (collection callerID : string) (range : list Object) : list Object :=
  List.filter (fun o => bool_decide (Collection o = collection) && canRead o callerID) range.

Definition Delete (owner collection key callerID : string) (s : Storage) : Storage * option sErr :=
  let k := objectKey owner collection key in
  match objects s !! k with
  | None => (s, None)
  | Some o =>
      if canWrite o callerID then (set_objects s (delete k (objects s)), None) else (s, Some ErrReadOnly)
  end.

Definition Count (s : Storage) : Z := Z.of_nat (size (objects s)).

(** * The registers a storage implements *)

(** The version at a key: empty when there is no object. *)
Definition versions (s : Storage) (k : string) : string :=
  match objects s !! k with Some o => Version o | None => "" end.

(** What happened at a key: a write accepted with the version it expected, or the object gone. *)
Inductive event := Wrote (k : string) (m : WriteMode) (expected new : string) | Gone (k : string).

Definition register := string -> string.
Definition assign (r : register) (k v : string) : register := fun k' => if decide (k' = k) then v else r k'.

Definition accepts (m : WriteMode) (expected current : string) : Prop :=
  match m with
  | WriteIfMatch => current = expected
  | WriteIfNotExist => current = ""
  | WriteLastWriteWins => True
  end.

(** [evs] leads the compare-and-set registers from [r] to [r']. *)
Fixpoint cas_run (evs : list event) (r r' : register) : Prop :=
  match evs with
  | [] => forall k, r k = r' k
  | Wrote k m e n :: evs => accepts m e (r k) /\ cas_run evs (assign r k n) r'
  | Gone k :: evs => cas_run evs (assign r k "") r'
  end.

#[export] Instance cas_run_proper evs :
  Proper (pointwise_relation string eq ==> pointwise_relation string eq ==> iff) (cas_run evs).
Proof.
  induction evs as [|[k m e n|k] evs IH]; intros r q Hr r' q' Hr'; simpl.
  - unfold pointwise_relation in *. split; intros H k; congruence.
  - rewrite (Hr k). apply and_iff_compat_l, IH; [|done]. intros k'. unfold assign. by case_decide.
  - apply IH; [|done]. intros k'. unfold assign. by case_decide.
Qed.

Lemma cas_run_app e1 e2 : forall r r1 r2, cas_run e1 r r1 -> cas_run e2 r1 r2 -> cas_run (e1 ++ e2) r r2.
Proof.
  induction e1 as [|[k m e n|k] e1 IH]; intros r r1 r2 H1 H2; simpl in *.
  - assert (pointwise_relation string eq r r1) as -> by exact H1. done.
  - destruct H1. split; [done|]. by eapply IH.
  - by eapply IH.
Qed.

(** Deletions alone. *)
Lemma cas_run_gone ks : forall r r', (forall k, r' k = if decide (k ∈ ks) then "" else r k) ->
  cas_run (map Gone ks) r r'.
Proof.
  induction ks as [|k ks IH]; intros r r' H; simpl.
  - intros k. rewrite H. by destruct (decide (k ∈ [])) as [?%not_elem_of_nil|].
  - apply IH. intros k'. rewrite H. unfold assign.
    destruct (decide (k' ∈ k :: ks)), (decide (k' ∈ ks)), (decide (k' = k)); set_solver.
Qed.

(** * Eviction *)

Definition drop_keys (ks : list string) (m : gmap string Object) : gmap string Object := foldl (fun m k => delete k m) m ks.

Lemma drop_keys_lookup ks : forall m k, drop_keys ks m !! k = if decide (k ∈ ks) then None else m !! k.
Proof.
  induction ks as [|k' ks IH]; intros m k; cbn [drop_keys foldl].
  - by destruct (decide (k ∈ [])) as [?%not_elem_of_nil|].
  - change (foldl _ _ ks) with (drop_keys ks (delete k' m)). rewrite IH.
    destruct (decide (k ∈ ks)), (decide (k ∈ k' :: ks)); try done; [set_solver| |].
    + assert (k = k') as -> by set_solver. by rewrite lookup_delete_eq.
    + rewrite lookup_delete_ne by set_solver. done.
Qed.

Lemma evict_loop_reads del : forall i all m, (i + del <= length all)%nat ->
  evict_loop del (Z.of_nat i) all m = Ret (drop_keys (take del (drop i all)).*1 m).
Proof.
  induction del as [|del IH]; intros i all m Hi; cbn [evict_loop]; [done|].
  destruct (lookup_lt_is_Some_2 all i) as [e He]; [lia|].
  rewrite (index_lookup _ _ _ He), (drop_S _ _ _ He). cbn [mbind go_bind].
  replace (Z.of_nat i + 1) with (Z.of_nat (S i)) by lia. rewrite IH by lia. done.
Qed.

(** An order that [sort.Slice] can leave: the entries of the map, by time. *)
Definition valid_order (order : ordering) : Prop := forall m,
  order m ≡ₚ map (fun kv => (kv.1, UpdateTime kv.2)) (map_to_list m) /\
  StronglySorted (fun a b => a.2 <= b.2) (order m).

Lemma order_keys order m : valid_order order -> (order m).*1 ≡ₚ (map_to_list m).*1.
Proof.
  intros Hv. destruct (Hv m) as [Hp _]. rewrite Hp. rewrite <- list_fmap_compose. done.
Qed.

Lemma order_time order m k t : valid_order order -> (k, t) ∈ order m <-> exists o, m !! k = Some o /\ UpdateTime o = t.
Proof.
  intros Hv. destruct (Hv m) as [Hp _]. rewrite Hp, list_elem_of_fmap. split.
  - intros [[k' o] [[= -> ->] Ho%elem_of_map_to_list]]. by exists o.
  - intros (o & Ho & <-). exists (k, o). split; [done|]. by apply elem_of_map_to_list.
Qed.

Lemma evictLocked_spec order s : valid_order order -> 0 <= maxEntries s ->
  exists evicted kept, order (objects s) = evicted ++ kept /\
    evictLocked order s = Ret (set_objects s (drop_keys evicted.*1 (objects s))) /\
    (Count s <= threshold s /\ evicted = [] \/
     threshold s < Count s /\ Z.of_nat (length evicted) = Z.max 0 (Count s - maxEntries s)).
Proof.
  intros Hv Hm. unfold evictLocked, Count.
  assert (length (order (objects s)) = size (objects s)) as Hl.
  { destruct (Hv (objects s)) as [Hp _]. by rewrite Hp, length_map, length_map_to_list. }
  destruct (Z.leb_spec (Z.of_nat (size (objects s))) (threshold s)).
  { exists [], (order (objects s)). split; [done|]. split; [by destruct s|]. left. by split. }
  rewrite Hl. set (del := Z.to_nat _).
  exists (take del (order (objects s))), (drop del (order (objects s))).
  split; [by rewrite take_drop|]. rewrite (evict_loop_reads del 0) by lia.
  rewrite drop_0. split; [done|]. right. split; [done|]. rewrite length_take. lia.
Qed.

(** * One write, a batch *)

Lemma apply_spec op now s : match applyWriteLocked op now s with
  | Err _ => True
  | Ok (s', o) => s' = set_objects s (<[opKey op := o]> (objects s)) /\
      Version o = versionOf (oValue op) /\ Value o = oValue op /\ objectKey (OwnerID o) (Collection o) (Key o) = opKey op /\
      UpdateTime o = now /\
      accepts (oMode op) (oVersion op) (versions s (opKey op)) /\
      (forall e, objects s !! opKey op = Some e -> canWrite e (oOwnerID op) = true)
  end.
Proof.
  unfold applyWriteLocked, versions. destruct (objects s !! opKey op) as [e|] eqn:E.
  - destruct (canWrite e (oOwnerID op)) eqn:Hc; [|done]. cbn [negb].
    destruct (oMode op); simpl; repeat case_bool_decide; (done || (split_and!; naive_solver)).
  - destruct (oMode op); simpl; repeat case_bool_decide; (done || (split_and!; naive_solver)).
Qed.

Lemma versions_insert s k o : forall k', assign (versions s) k (Version o) k' = versions (set_objects s (<[k := o]> (objects s))) k'.
Proof.
  intros k'. unfold assign, versions. simpl. destruct (decide (k' = k)) as [->|].
  - by rewrite lookup_insert_eq.
  - by rewrite lookup_insert_ne.
Qed.

(** The event of an accepted operation. *)
Definition wrote (op : WriteOp) : event := Wrote (opKey op) (oMode op) (oVersion op) (versionOf (oValue op)).

(** What a restored map holds at the keys of consistent snapshots. *)
Lemma restore_lookup (m0 : gmap string Object) snaps : Forall (fun sn => sn.2 = m0 !! sn.1) snaps -> forall m k,
  foldl restore m snaps !! k = if decide (k ∈ snaps.*1) then m0 !! k else m !! k.
Proof.
  induction 1 as [|[k0 o0] snaps Ho _ IH]; intros m k; cbn [foldl].
  { by destruct (decide (k ∈ [].*1)) as [?%not_elem_of_nil|]. }
  rewrite IH. simpl in Ho. unfold restore. cbn [fst snd].
  destruct (decide (k ∈ snaps.*1)), (decide (k ∈ ((k0, o0) :: snaps).*1)); try done; [set_solver| |].
  - assert (k = k0) as -> by set_solver. rewrite <- Ho.
    destruct o0; [by rewrite lookup_insert_eq|by rewrite lookup_delete_eq].
  - assert (k <> k0) by set_solver. destruct o0; [by rewrite lookup_insert_ne|by rewrite lookup_delete_ne].
Qed.

Lemma restore_all (m0 m : gmap string Object) snaps : Forall (fun sn => sn.2 = m0 !! sn.1) snaps ->
  (forall k, k ∉ snaps.*1 -> m !! k = m0 !! k) -> foldl restore m snaps = m0.
Proof.
  intros Hs Hm. apply map_eq. intros k. rewrite (restore_lookup m0 snaps Hs m k).
  destruct (decide (k ∈ snaps.*1)); [done|by apply Hm].
Qed.

(** A batch over distinct keys is its writes one after the other, or nothing at all. *)
Lemma batch_loop_spec (m0 : gmap string Object) ops now : forall s snaps committed,
  NoDup (snaps.*1 ++ map opKey ops) -> Forall (fun sn => sn.2 = m0 !! sn.1) snaps ->
  (forall k, k ∉ snaps.*1 -> objects s !! k = m0 !! k) ->
  match batch_loop ops now s snaps committed with
  | (s', Ok os) => cas_run (map wrote ops) (versions s) (versions s') /\ maxEntries s' = maxEntries s /\
      exists os', os = committed ++ os' /\ map Value os' = map oValue ops
  | (s', Err _) => s' = set_objects s m0
  end.
Proof.
  induction ops as [|op ops IH]; intros s snaps committed Hnd Hs Hm; cbn [batch_loop].
  { split; [done|]. split; [done|]. exists []. by rewrite app_nil_r. }
  assert (opKey op ∉ snaps.*1) as Hk.
  { cbn [map] in Hnd. apply NoDup_app in Hnd as (_ & Hd & _). intros Hin. apply (Hd _ Hin). set_solver. }
  assert (Forall (fun sn => sn.2 = m0 !! sn.1) (snaps ++ [(opKey op, objects s !! opKey op)])) as Hs'.
  { apply Forall_app. split; [done|]. repeat constructor. by apply Hm. }
  pose proof (apply_spec op now s) as Ha. destruct (applyWriteLocked op now s) as [[s' o]|e].
  - destruct Ha as (-> & Hver & Hval & _ & _ & Hacc & _).
    specialize (IH (set_objects s (<[opKey op := o]> (objects s)))
                  (snaps ++ [(opKey op, objects s !! opKey op)]) (committed ++ [o])).
    destruct (batch_loop _ _ _ _ _) as [s2 [os|e2]].
    + destruct IH as (Hc & Hmax & os' & -> & Hvals).
      * rewrite fmap_app, <- app_assoc. exact Hnd.
      * done.
      * intros k Hin. rewrite fmap_app in Hin. simpl in Hin |- *. rewrite lookup_insert_ne by set_solver.
        apply Hm. set_solver.
      * split; [|split; [exact Hmax|exists (o :: os'); rewrite <- app_assoc; simpl; by rewrite Hval, Hvals]].
        simpl. split; [exact Hacc|]. rewrite <- Hver.
        assert (pointwise_relation string eq (assign (versions s) (opKey op) (Version o))
          (versions (set_objects s (<[opKey op := o]> (objects s))))) as -> by (intros k'; apply versions_insert).
        exact Hc.
    + apply IH.
      * rewrite fmap_app, <- app_assoc. exact Hnd.
      * done.
      * intros k Hin. rewrite fmap_app in Hin. simpl in Hin |- *. rewrite lookup_insert_ne by set_solver.
        apply Hm. set_solver.
  - unfold set_objects. f_equal. apply restore_all; [done|].
    intros k Hin. apply Hm. rewrite fmap_app in Hin. set_solver.
Qed.

(** ** Runs *)

Inductive call :=
| CWrite (op : WriteOp) (now clock : Z) (order : ordering)
| CBatch (sorted : list WriteOp) (now clock : Z) (order : ordering)
| CDelete (owner collection key caller : string).

(** The keys whose object an operation removed. *)
Definition gone (before after : Storage) : list event :=
  map Gone (elements (dom (objects before) ∖ dom (objects after) : gset string)).

(** A call, and what it did to the registers. *)
Definition exec (c : call) (s : Storage) : go (Storage * list event) :=
  match c with
  | CWrite op now clock order =>
      '(s', r) ← Write op now clock order s;
      Ret (s', match r with
               | Err _ => []
               | Ok o => wrote op :: gone (set_objects s (<[opKey op := o]> (objects s))) s'
               end)
  | CBatch sorted now clock order =>
      '(s', r) ← WriteBatch sorted now clock order s;
      Ret (s', match r with
               | Err _ => []
               | Ok os => map wrote sorted ++
                   gone (batch_loop sorted (if now =? 0 then clock else now) s [] []).1 s'
               end)
  | CDelete owner collection key caller =>
      let '(s', r) := Delete owner collection key caller s in
      Ret (s', gone s s')
  end.

Fixpoint run (cs : list call) (s : Storage) : go (Storage * list event) :=
  match cs with
  | [] => Ret (s, [])
  | c :: cs => '(s1, e1) ← exec c s; '(s2, e2) ← run cs s1; Ret (s2, e1 ++ e2)
  end.

(** Calls the sort could have made; a batch names each key once. *)
Definition legal (c : call) : Prop :=
  match c with
  | CWrite _ _ _ order => valid_order order
  | CBatch sorted _ _ order => valid_order order /\ NoDup (map opKey sorted)
  | CDelete _ _ _ _ => True
  end.

(** Removing objects is a run of the registers. *)
Lemma gone_run s s' : (forall k, objects s' !! k = objects s !! k \/ objects s' !! k = None) ->
  cas_run (gone s s') (versions s) (versions s').
Proof.
  intros Hs. apply cas_run_gone. intros k. unfold versions.
  destruct (decide _) as [Hn|Hn]; rewrite elem_of_elements, elem_of_difference, !elem_of_dom in Hn;
    [destruct Hn as [_ Hn]|].
  - destruct (objects s' !! k) eqn:E; [|done]. exfalso. apply Hn. by eexists.
  - destruct (Hs k) as [->|Hk]; [done|]. rewrite Hk in *. destruct (objects s !! k) eqn:E; [|done].
    exfalso. apply Hn. split; [by eexists|]. by intros [].
Qed.

Lemma evicted_run order s : valid_order order -> 0 <= maxEntries s ->
  exists s', evictLocked order s = Ret s' /\ cas_run (gone s s') (versions s) (versions s') /\
    maxEntries s' = maxEntries s /\
    (forall k, objects s' !! k = objects s !! k \/ objects s' !! k = None).
Proof.
  intros Hv Hm. destruct (evictLocked_spec order s Hv Hm) as (ev & kept & _ & -> & _).
  eexists. split; [done|]. assert (forall k, drop_keys ev.*1 (objects s) !! k = objects s !! k \/
    drop_keys ev.*1 (objects s) !! k = None) as Hk.
  { intros k. rewrite drop_keys_lookup. case_decide; auto. }
  split; [by apply gone_run|]. by split.
Qed.

Lemma exec_run c s : legal c -> 0 <= maxEntries s -> exists s' evs, exec c s = Ret (s', evs) /\
  cas_run evs (versions s) (versions s') /\ maxEntries s' = maxEntries s.
Proof.
  intros Hl Hm. destruct c as [op now clock order|ops now clock order|owner coll key caller]; cbn [exec].
  - unfold Write. set (t := if now =? 0 then clock else now).
    pose proof (apply_spec op t s) as Ha. destruct (applyWriteLocked op t s) as [[s1 o]|e]; [|by eexists _, _].
    destruct Ha as (-> & Hver & _ & _ & _ & Hacc & _).
    destruct (evicted_run order (set_objects s (<[opKey op := o]> (objects s))) Hl Hm) as (s' & -> & Hr & Hmax & _).
    cbn [mbind go_bind]. eexists _, _. split; [done|]. split; [|done]. simpl. split; [exact Hacc|].
    rewrite <- Hver.
    assert (pointwise_relation string eq (assign (versions s) (opKey op) (Version o))
      (versions (set_objects s (<[opKey op := o]> (objects s))))) as -> by (intros k'; apply versions_insert).
    exact Hr.
  - destruct Hl as [Hv Hnd]. unfold WriteBatch. set (t := if now =? 0 then clock else now).
    pose proof (batch_loop_spec (objects s) ops t s [] [] Hnd ltac:(done) ltac:(done)) as Hb.
    destruct (batch_loop ops t s [] []) as [s1 [os|e]].
    + destruct Hb as (Hc & Hmax1 & _). rewrite <- Hmax1 in Hm.
      destruct (evicted_run order s1 Hv Hm) as (s' & -> & Hr & Hmax & _).
      cbn [mbind go_bind fst]. eexists _, _. split; [done|]. split; [|congruence].
      by eapply cas_run_app.
    + subst s1. eexists _, _. split; [done|]. by destruct s.
  - unfold Delete. destruct (objects s !! _) as [o|] eqn:E.
    + destruct (canWrite o caller); eexists _, _; (split; [done|]); (split; [|done]); apply gone_run; [|by left].
      intros k. simpl. destruct (decide (k = objectKey owner coll key)) as [->|].
      * right. apply lookup_delete_eq.
      * left. by apply lookup_delete_ne.
    + eexists _, _. split; [done|]. split; [|done]. apply gone_run. by left.
Qed.

Lemma run_cas cs : Forall legal cs -> forall s, 0 <= maxEntries s ->
  exists s' evs, run cs s = Ret (s', evs) /\ cas_run evs (versions s) (versions s').
Proof.
  intros Hl. induction Hl as [|c cs Hc _ IH]; intros s Hm; cbn [run].
  { by eexists _, _. }
  destruct (exec_run c s Hc Hm) as (s1 & e1 & -> & H1 & Hm1). cbn [mbind go_bind].
  destruct (IH s1 ltac:(lia)) as (s2 & e2 & -> & H2). cbn [mbind go_bind].
  eexists _, _. split; [done|]. by eapply cas_run_app.
Qed.

(** C10: A storage is one compare-and-set register per key, holding the version: with a limit of entries that is not negative, whatever is
    written, batched (a batch names a key once, under a valid order of its keys), deleted and evicted, no call panics, every accepted write meets the condition
    of its mode on the version its key has at that moment and leaves the digest of its value there,
    and the final versions are those of the registers after these events. So between two writes
    accepted with [WriteIfMatch] no other write goes unnoticed. *)
Theorem storage_is_cas opts cs : 0 <= maxEntries (New opts) -> Forall legal cs ->
  exists s evs, run cs (New opts) = Ret (s, evs) /\ cas_run evs (fun _ => "") (versions s).
Proof.
  intros Hm Hl. destruct (run_cas cs Hl (New opts) Hm) as (s & evs & Hr & Hc).
  exists s, evs. split; [done|]. assert (pointwise_relation string eq (fun _ => "") (versions (New opts))) as ->; [|done].
  intros k. unfold versions, New. simpl. by rewrite lookup_empty.
Qed.

(** * Well-formed storages, access, eviction *)

(** An object lies under its own key and carries the digest of its value. *)
Definition good (k : string) (o : Object) : Prop :=
  k = objectKey (OwnerID o) (Collection o) (Key o) /\ Version o = versionOf (Value o).

Definition wf (s : Storage) : Prop := map_Forall good (objects s).

Lemma apply_wf op now s : wf s -> match applyWriteLocked op now s with Ok (s', _) => wf s' | Err _ => True end.
Proof.
  intros Hs. pose proof (apply_spec op now s) as Ha. destruct (applyWriteLocked op now s) as [[s' o]|]; [|done].
  destruct Ha as (-> & Hver & Hval & Hk & _). apply map_Forall_insert_2; [|exact Hs].
  split; [done|]. by rewrite Hver, Hval.
Qed.

Lemma restore_wf snaps : Forall (fun sn => match sn.2 with Some o => good sn.1 o | None => True end) snaps ->
  forall m, map_Forall good m -> map_Forall good (foldl restore m snaps).
Proof.
  induction 1 as [|[k [o|]] snaps Ho _ IH]; intros m Hm; cbn [foldl]; [done|apply IH..]; unfold restore; simpl.
  - by apply map_Forall_insert_2.
  - by apply map_Forall_delete.
Qed.

Lemma batch_loop_wf ops now : forall s snaps committed, wf s ->
  Forall (fun sn => match sn.2 with Some o => good sn.1 o | None => True end) snaps ->
  wf (batch_loop ops now s snaps committed).1.
Proof.
  induction ops as [|op ops IH]; intros s snaps committed Hs Hsn; cbn [batch_loop]; [done|].
  assert (Forall (fun sn => match sn.2 with Some o => good sn.1 o | None => True end)
    (snaps ++ [(opKey op, objects s !! opKey op)])) as Hsn'.
  { apply Forall_app. split; [done|]. repeat constructor. simpl.
    destruct (objects s !! opKey op) eqn:E; [by apply (Hs _ _ E)|done]. }
  pose proof (apply_wf op now s Hs) as Ha. destruct (applyWriteLocked op now s) as [[s' o]|e].
  - by apply IH.
  - by apply restore_wf.
Qed.

Lemma evict_wf order s s' : valid_order order -> 0 <= maxEntries s -> evictLocked order s = Ret s' -> wf s -> wf s'.
Proof.
  intros Hv Hm He Hs. destruct (evicted_run order s Hv Hm) as (s1 & He1 & _ & _ & Hk).
  assert (s1 = s') as -> by congruence. intros k o Ho. destruct (Hk k) as [E|E]; rewrite E in Ho; [by apply Hs|done].
Qed.

(** The calls of a run, whatever their batches repeat. *)
Definition sorts_validly (c : call) : Prop :=
  match c with
  | CWrite _ _ _ order | CBatch _ _ _ order => valid_order order
  | CDelete _ _ _ _ => True
  end.

Lemma batch_max ops now : forall s snaps committed, maxEntries (batch_loop ops now s snaps committed).1 = maxEntries s.
Proof.
  induction ops as [|op ops IH]; intros s snaps committed; cbn [batch_loop]; [done|].
  pose proof (apply_spec op now s) as Ha. destruct (applyWriteLocked op now s) as [[s' o]|e]; [|done].
  rewrite IH. by destruct Ha as (-> & _).
Qed.

Lemma exec_wf c s : sorts_validly c -> 0 <= maxEntries s -> wf s -> exists s' evs, exec c s = Ret (s', evs) /\
  wf s' /\ maxEntries s' = maxEntries s.
Proof.
  intros Hl Hm Hs. destruct c as [op now clock order|ops now clock order|owner coll key caller]; cbn [exec].
  - unfold Write. set (t := if now =? 0 then clock else now).
    pose proof (apply_spec op t s) as Ha. pose proof (apply_wf op t s Hs) as Hw.
    destruct (applyWriteLocked op t s) as [[s1 o]|e]; [|by eexists _, _].
    destruct Ha as (-> & _).
    destruct (evicted_run order (set_objects s (<[opKey op := o]> (objects s))) Hl Hm) as (s' & He & _ & Hmax & _).
    rewrite He. cbn [mbind go_bind]. eexists _, _. split; [done|]. split; [|exact Hmax]. exact (evict_wf order (set_objects s (<[opKey op := o]> (objects s))) s' Hl Hm He Hw).
  - unfold WriteBatch. set (t := if now =? 0 then clock else now).
    pose proof (batch_loop_wf ops t s [] [] Hs ltac:(done)) as Hw. pose proof (batch_max ops t s [] []) as Hbm.
    destruct (batch_loop ops t s [] []) as [s1 [os|e]]; cbn [fst] in *; [|by eexists _, _].
    destruct (evicted_run order s1 Hl ltac:(lia)) as (s' & He & _ & Hmax & _).
    rewrite He. cbn [mbind go_bind]. eexists _, _. split; [done|]. split; [|congruence].
    apply (evict_wf order s1); [done|lia|done|done].
  - unfold Delete. destruct (objects s !! _) as [o|] eqn:E; [|by eexists _, _].
    destruct (canWrite o caller); eexists _, _; (split; [done|]); (split; [|done]); [|done].
    by apply map_Forall_delete.
Qed.

Lemma run_keeps_wf cs : Forall sorts_validly cs -> forall s, 0 <= maxEntries s -> wf s ->
  exists s' evs, run cs s = Ret (s', evs) /\ wf s'.
Proof.
  induction 1 as [|c cs Hc _ IH]; intros s Hm Hs; cbn [run]; [by eexists _, _|].
  destruct (exec_wf c s Hc Hm Hs) as (s1 & e1 & -> & H1 & Hm1). cbn [mbind go_bind].
  destruct (IH s1 ltac:(lia) H1) as (s2 & e2 & -> & H2). cbn [mbind go_bind]. by eexists _, _.
Qed.

(** C36: In every state reached, batches that repeat a key or are rolled back included, each object
    lies under the key of its own owner, collection and name, and its version is the digest of its
    value. A read answers such an object, at the key it asks for, and a private one to its owner
    alone. *)
Theorem storage_typed opts cs : 0 <= maxEntries (New opts) -> Forall sorts_validly cs ->
  exists s evs, run cs (New opts) = Ret (s, evs) /\ wf s /\
    forall owner coll key caller o, Read owner coll key caller s = Ok (Some o) ->
      objectKey (OwnerID o) (Collection o) (Key o) = objectKey owner coll key /\
      Version o = versionOf (Value o) /\ (caller = OwnerID o \/ ReadAccess o = 2).
Proof.
  intros Hm Hl. destruct (run_keeps_wf cs Hl (New opts) Hm) as (s & evs & Hr & Hs); [apply map_Forall_empty|].
  exists s, evs. split; [done|]. split; [done|]. intros owner coll key caller o Ho. unfold Read in Ho.
  destruct (objects s !! objectKey owner coll key) as [o'|] eqn:E; [|done].
  destruct (canRead o' caller) eqn:Hc; [|done]. injection Ho as ->.
  destruct (Hs _ _ E) as [Hk Hv]. split; [done|]. split; [done|]. unfold canRead in Hc.
  destruct (Z.eqb_spec (ReadAccess o) 0); [left; by apply bool_decide_eq_true in Hc|].
  destruct (Z.eqb_spec (ReadAccess o) 1); [left; by apply bool_decide_eq_true in Hc|].
  destruct (Z.eqb_spec (ReadAccess o) 2); [by right|done].
Qed.

(** Eviction keeps the newest: what it removes is not younger than what it keeps, and it leaves
    [maxEntries] objects. *)
Theorem evicts_oldest order s : valid_order order -> 0 <= maxEntries s ->
  exists s', evictLocked order s = Ret s' /\
    (forall k o, objects s' !! k = Some o -> objects s !! k = Some o) /\
    (Count s <= threshold s -> s' = s) /\
    forall k o k' o', objects s !! k = Some o -> objects s' !! k = None -> objects s' !! k' = Some o' ->
      UpdateTime o <= UpdateTime o'.
Proof.
  intros Hv Hm. destruct (evictLocked_spec order s Hv Hm) as (ev & kept & Ho & -> & Hn).
  eexists. split; [done|]. cbn [objects set_objects].
  split; [intros k o; rewrite drop_keys_lookup; by case_decide|].
  split; [destruct Hn as [[_ ->]|]; [by destruct s|lia]|].
  intros k o k' o' Hk Hg Hk'. rewrite drop_keys_lookup in Hg, Hk'.
  destruct (decide (k ∈ ev.*1)) as [Hin|]; [|congruence]. destruct (decide (k' ∈ ev.*1)) as [|Hni]; [done|].
  assert ((k, UpdateTime o) ∈ ev) as H1.
  { apply list_elem_of_fmap in Hin as ([k0 t] & -> & Hin). simpl in *.
    assert ((k0, t) ∈ order (objects s)) as Ht by (rewrite Ho; set_solver).
    apply order_time in Ht as (o1 & Ho1 & <-); [|done]. congruence. }
  assert ((k', UpdateTime o') ∈ kept) as H2.
  { assert ((k', UpdateTime o') ∈ order (objects s)) as Ht by (apply (order_time order _ _ _ Hv); by exists o').
    rewrite Ho in Ht. apply elem_of_app in Ht as [Ht|]; [|done].
    exfalso. apply Hni. apply list_elem_of_fmap. by exists (k', UpdateTime o'). }
  destruct (Hv (objects s)) as [_ Hs]. rewrite Ho in Hs. clear -Hs H1 H2.
  induction ev as [|e ev IH]; [by apply not_elem_of_nil in H1|]. simpl in Hs.
  apply StronglySorted_inv in Hs as [Hs Hx]. apply elem_of_cons in H1 as [<-|H1]; [|by apply IH].
  rewrite Forall_forall in Hx. apply (Hx (k', UpdateTime o')). set_solver.
Qed.

(** ** Who changes an object *)

(** The call acts on key [k] for the owner of the object there, which is writable. *)
Definition acts_for (c : call) (k : string) (o : Object) : Prop :=
  WriteAccess o <> 0 /\
  match c with
  | CWrite op _ _ _ => opKey op = k /\ oOwnerID op = OwnerID o
  | CBatch ops _ _ _ => exists op, op ∈ ops /\ opKey op = k /\ oOwnerID op = OwnerID o
  | CDelete owner coll key caller => objectKey owner coll key = k /\ caller = OwnerID o
  end.

Lemma canWrite_true o caller : canWrite o caller = true <-> WriteAccess o <> 0 /\ caller = OwnerID o.
Proof. unfold canWrite. destruct (Z.eqb_spec (WriteAccess o) 0); rewrite ?bool_decide_eq_true; naive_solver. Qed.

Lemma restore_keeps snaps k o : Forall (fun sn => sn.1 = k -> sn.2 = Some o) snaps ->
  forall m : gmap string Object, m !! k = Some o -> foldl restore m snaps !! k = Some o.
Proof.
  induction 1 as [|[k0 o0] snaps Ho _ IH]; intros m Hm; cbn [foldl]; [done|]. apply IH. unfold restore. simpl in *.
  destruct (decide (k0 = k)) as [->|].
  - rewrite (Ho eq_refl). apply lookup_insert_eq.
  - destruct o0; [by rewrite lookup_insert_ne|by rewrite lookup_delete_ne].
Qed.

Lemma batch_loop_keeps k o ops now : forall s snaps committed, objects s !! k = Some o ->
  Forall (fun sn => sn.1 = k -> sn.2 = Some o) snaps ->
  objects (batch_loop ops now s snaps committed).1 !! k = Some o \/
  WriteAccess o <> 0 /\ exists op, op ∈ ops /\ opKey op = k /\ oOwnerID op = OwnerID o.
Proof.
  induction ops as [|op ops IH]; intros s snaps committed Hs Hsn; cbn [batch_loop]; [by left|].
  assert (Forall (fun sn => sn.1 = k -> sn.2 = Some o) (snaps ++ [(opKey op, objects s !! opKey op)])) as Hsn'.
  { apply Forall_app. split; [done|]. repeat constructor. simpl. by intros ->. }
  pose proof (apply_spec op now s) as Ha. destruct (applyWriteLocked op now s) as [[s' o']|e].
  - destruct Ha as (-> & _ & _ & _ & _ & _ & Hc). destruct (decide (opKey op = k)) as [Ek|Ek].
    + right. rewrite Ek in Hc. apply Hc in Hs. apply canWrite_true in Hs as [Hw Ho].
      split; [done|]. exists op. split; [set_solver|]. done.
    + destruct (IH (set_objects s (<[opKey op := o']> (objects s))) _ (committed ++ [o'])
        ltac:(simpl; by rewrite lookup_insert_ne) Hsn') as [H|(Hw & op' & Hin & H)]; [by left|].
      right. split; [done|]. exists op'. split; [set_solver|done].
  - left. by apply restore_keeps.
Qed.

Lemma evict_keeps order s k o : valid_order order -> 0 <= maxEntries s -> objects s !! k = Some o ->
  exists s', evictLocked order s = Ret s' /\
    (objects s' !! k = Some o \/ objects s' !! k = None /\ threshold s < Count s).
Proof.
  intros Hv Hm Hk. destruct (evictLocked_spec order s Hv Hm) as (ev & kept & _ & -> & Hc).
  eexists. split; [done|]. simpl. rewrite drop_keys_lookup. case_decide as Hin; [right|by left].
  split; [done|]. destruct Hc as [[_ ->]|[? _]]; [by apply not_elem_of_nil in Hin|done].
Qed.

(** An object changes only at the hand of its owner, and never when it is read-only: a write,
    a batch (rolled back or not) or a deletion by anyone else leaves it as it is, whatever keys
    they use; only the eviction of a full storage can remove it. *)
Theorem storage_access c s k o : sorts_validly c -> 0 <= maxEntries s -> objects s !! k = Some o ->
  exists s' evs, exec c s = Ret (s', evs) /\
    (objects s' !! k = Some o \/ acts_for c k o \/
     objects s' !! k = None /\ exists order s1, evictLocked order s1 = Ret s' /\ threshold s1 < Count s1).
Proof.
  intros Hl Hm Hk. destruct c as [op now clock order|ops now clock order|owner coll key caller]; cbn [exec].
  - unfold Write. set (t := if now =? 0 then clock else now). pose proof (apply_spec op t s) as Ha.
    destruct (applyWriteLocked op t s) as [[s1 o1]|e]; [|eexists _, _; split; [done|by left]].
    destruct Ha as (-> & _ & _ & _ & _ & _ & Hc). destruct (decide (opKey op = k)) as [Ek|Ek].
    + destruct (evicted_run order (set_objects s (<[opKey op := o1]> (objects s))) Hl Hm) as (s' & -> & _).
      eexists _, _. split; [done|]. right. left. rewrite Ek in Hc. apply Hc, canWrite_true in Hk as [??]. done.
    + destruct (evict_keeps order (set_objects s (<[opKey op := o1]> (objects s))) k o Hl Hm) as (s' & He & H).
      { simpl. by rewrite lookup_insert_ne. }
      rewrite He. eexists _, _. split; [done|]. destruct H as [H|[H ?]]; [by left|]. right. right. eauto.
  - unfold WriteBatch. set (t := if now =? 0 then clock else now).
    pose proof (batch_loop_keeps k o ops t s [] [] Hk ltac:(done)) as Hb. pose proof (batch_max ops t s [] []) as Hbm.
    destruct (batch_loop ops t s [] []) as [s1 [os|e]]; cbn [fst] in *.
    + destruct Hb as [Hb|Hb].
      * destruct (evict_keeps order s1 k o Hl ltac:(lia) Hb) as (s' & He & H). rewrite He.
        eexists _, _. split; [done|]. destruct H as [H|[H ?]]; [by left|]. right. right. eauto.
      * destruct (evicted_run order s1 Hl ltac:(lia)) as (s' & -> & _). eexists _, _. split; [done|]. by right; left.
    + eexists _, _. split; [done|]. destruct Hb as [Hb|Hb]; [by left|by right; left].
  - unfold Delete. destruct (objects s !! objectKey owner coll key) as [o'|] eqn:E; [|eexists _, _; split; [done|by left]].
    destruct (canWrite o' caller) eqn:Hc; eexists _, _; (split; [done|]); [|by left]. simpl.
    destruct (decide (objectKey owner coll key = k)) as [Ek|]; [|left; by rewrite lookup_delete_ne].
    right. left. rewrite Ek in E. assert (o' = o) as -> by congruence. apply canWrite_true in Hc as [Hw Ho]. split; [exact Hw|]. by split.
Qed.
End storage.

(** * Witnesses *)

(** A digest for the examples: the value's length and bytes; and the order a stable sort leaves. *)
Definition demo_md5 (v : list Byte.byte) : string := String.string_of_list_byte v.

Definition time_le (a b : string * Z) : Prop := a.2 <= b.2.
#[export] Instance time_le_dec a b : Decision (time_le a b).
Proof. unfold time_le. apply _. Defined.
#[export] Instance time_le_total : Total time_le.
Proof. intros a b. unfold time_le. lia. Qed.
#[export] Instance time_le_trans : Transitive time_le.
Proof. intros a b c. unfold time_le. lia. Qed.

Definition demo_order : ordering := fun m =>
  sorting.merge_sort time_le (map (fun kv => (kv.1, UpdateTime kv.2)) (map_to_list m)).

Lemma demo_order_valid : valid_order demo_order.
Proof.
  intros m. split; [apply sorting.merge_sort_Permutation|].
  apply (sorting.StronglySorted_merge_sort time_le).
Qed.

Definition demo_op (k v ver : string) (m : WriteMode) : WriteOp :=
  MkOp "u1" "save" k (String.list_byte_of_string v) m ver 0 1.

(** Two clients read the same version; the second write is refused. A batch with a conflict is
    undone. *)
Definition demo_calls : list call :=
  [CWrite (demo_op "slot" "a" "" WriteIfMatch) 1 0 demo_order;
   CWrite (demo_op "slot" "b" "a" WriteIfMatch) 2 0 demo_order;
   CWrite (demo_op "slot" "c" "a" WriteIfMatch) 3 0 demo_order;
   CBatch [demo_op "other" "x" "" WriteIfNotExist; demo_op "slot" "y" "a" WriteIfMatch] 0 4 demo_order].

Lemma storage_is_cas_witness : exists s evs, run demo_md5 demo_calls (New []) = Ret (s, evs) /\
  evs = [Wrote "u1/save/slot" WriteIfMatch "" "a"; Wrote "u1/save/slot" WriteIfMatch "a" "b"] /\
  cas_run evs (fun _ => "") (versions s).
Proof.
  destruct (storage_is_cas demo_md5 [] demo_calls) as (s & evs & Hr & Hc).
  - vm_compute. congruence.
  - pose proof demo_order_valid. repeat apply Forall_cons_2; try apply Forall_nil_2; try done.
    split; [done|]. apply (bool_decide_unpack _). vm_compute. exact I.
  - exists s, evs. split; [exact Hr|]. split; [|exact Hc]. vm_compute in Hr. by injection Hr as <- <-.
Defined.

Lemma storage_typed_witness : exists s evs, run demo_md5 demo_calls (New []) = Ret (s, evs) /\ wf demo_md5 s.
Proof.
  destruct (storage_typed demo_md5 [] demo_calls) as (s & evs & Hr & Hw & _).
  - vm_compute. congruence.
  - pose proof demo_order_valid. repeat apply Forall_cons_2; try apply Forall_nil_2; done.
  - exists s, evs. split; [exact Hr|exact Hw].
Defined.

(** A read-only object withstands its owner. *)
Lemma storage_access_witness :
  let o := MkObj "u1" "save" "slot" [] "" 0 0 1 in
  let c := CWrite (demo_op "slot" "b" "" WriteLastWriteWins) 2 0 demo_order in
  exists s' evs, exec demo_md5 c (MkStorage {[ "u1/save/slot" := o ]} 10) = Ret (s', evs) /\
    objects s' !! "u1/save/slot" = Some o.
Proof.
  intros o c. destruct (storage_access demo_md5 c (MkStorage {[ "u1/save/slot" := o ]} 10) "u1/save/slot" o)
    as (s' & evs & Hr & H).
  - apply demo_order_valid.
  - vm_compute. congruence.
  - reflexivity.
  - exists s', evs. split; [exact Hr|]. vm_compute in Hr. injection Hr as <- _. reflexivity.
Defined.

(** A rolled-back batch that writes a key twice keeps the first write: the snapshots are restored
    oldest first. *)
Theorem batch_rollback_keeps_first : exists s',
  WriteBatch demo_md5 [demo_op "k" "new" "" WriteLastWriteWins; demo_op "k" "x" "stale" WriteIfMatch] 1 0
    demo_order (New []) = Ret (s', Err ErrVersionMismatch) /\
  versions s' "u1/save/k" = "new".
Proof. eexists. split; [vm_compute; reflexivity|]. reflexivity. Qed.

(** An object with an empty value has the empty version: no [WriteIfMatch] can ever update it. *)
Theorem empty_value_locked md5_hex op now s e : oMode op = WriteIfMatch ->
  objects s !! opKey op = Some e -> Version e = "" ->
  exists err, applyWriteLocked md5_hex op now s = Err err.
Proof.
  intros Hm Hk Hv. unfold applyWriteLocked. rewrite Hk, Hm, Hv.
  destruct (negb _); [by exists ErrReadOnly|].
  destruct (decide (oVersion op = "")) as [E|E].
  - exists ErrConflict. by rewrite bool_decide_true.
  - exists ErrVersionMismatch. by rewrite !bool_decide_false.
Qed.

(** The separator can occur in an owner, a collection or a name: two objects of one owner share a key. *)
Example object_key_collision : objectKey "u" "a/b" "c" = objectKey "u" "a" "b/c".
Proof. reflexivity. Qed.

(** A negative limit makes a write panic. *)
Example negative_limit_panics :
  Write demo_md5 (demo_op "k" "v" "" WriteLastWriteWins) 1 0 demo_order (New [WithMaxEntries (-1)]) = Panic index_panic.
Proof. vm_compute. reflexivity. Qed.
