(* ===== verification/DelayQueue.v ===== *)
(** The delay queue ([pkg/orchestration/delayqueue/delayqueue.go]): one-shot callbacks by key on the
    indexed heap of [Heap], with lazy deletion, driven by one goroutine that sleeps until the
    earliest of them or a wake-up. Refined to a map from keys to a time and a callback. *)
From Stdlib Require Import ZArith Lia Bool Sorted.
From stdpp Require Import base numbers strings list gmap fin_maps sets.
From S2P Require Import Prelude Priority Heap.

Open Scope Z_scope.

Section delayqueue.
(** [F]: the callbacks. *)
Context {F : Type}.

(** A task is a pointer [tid]; its [index] is in the heap and its [dead] flag in the queue. *)
Record task := MkTask { tid : nat; tkey : string; fireAt : Z; fn : F }.

Definition Less (a b : task) : bool := fireAt a <? fireAt b.

#[local] Instance task_interface : Interface (IHeap task) task := indexed_interface tid Less.
#[local] Instance less_strict : StrictWeak Less.
Proof. split; unfold Less; intros *; rewrite ?Z.ltb_irrefl, ?Z.ltb_lt, ?Z.ltb_ge; lia. Qed.

Record Queue := MkQueue {
  h : IHeap task; byKey : gmap string task; dead : gset nat; next : nat;
  wakeCh : bool; stopped : bool
}.

Definition New : Queue := MkQueue (MkIHeap [] ∅) ∅ ∅ 0 false false.

(** The locked part of [Schedule]; the flag says whether [wake] follows. *)
Definition Schedule (key : string) (delay : Z) (f : option F) (clock : Z) (q : Queue) : go (Queue * bool * bool) :=
  match f with
  | None => Ret (q, false, false)
  | Some f =>
      let at_ := wrap64 (clock + delay) in
      if stopped q then Ret (q, false, false)
      else
        let '(dd, replaced) :=
          match byKey q !! key with
          | Some old => (dead q ∪ {[tid old]}, true)
          | None => (dead q, false)
          end in
        let t := MkTask (next q) key at_ f in
        hp ← hPush (h q) t;
        Ret (MkQueue hp (<[key := t]> (byKey q)) dd (S (next q)) (wakeCh q) (stopped q), replaced, true)
  end.

(** The locked part of [Cancel]; [wake] follows when it found the key. *)
Definition Cancel (key : string) (q : Queue) : Queue * bool :=
  match byKey q !! key with
  | Some t => (MkQueue (h q) (delete key (byKey q)) (dead q ∪ {[tid t]}) (next q) (wakeCh q) (stopped q), true)
  | None => (q, false)
  end.

Definition Len (q : Queue) : Z := Z.of_nat (size (byKey q)).

Definition set_wake (b : bool) (q : Queue) : Queue := MkQueue (h q) (byKey q) (dead q) (next q) b (stopped q).
Definition wake (q : Queue) : Queue := set_wake true q.
Definition Stop (q : Queue) : Queue := MkQueue (h q) (byKey q) (dead q) (next q) (wakeCh q) true.

(** The locked loop of [run]: the tasks due and the wait, -1 without a next task. *)
Fixpoint drain (fuel : nat) (now : Z) (q : Queue) (ready : list task) : go (Queue * list task * Z) :=
  match fuel with
  | O => Ret (q, ready, -1)
  | S fuel =>
      if negb (0 <? iLen (h q)) then Ret (q, ready, -1)
      else
        top ← index (slots (h q)) 0;
        if decide (tid top ∈ dead q) then
          '(hp, _) ← hPop (h q);
          drain fuel now (MkQueue hp (byKey q) (dead q) (next q) (wakeCh q) (stopped q)) ready
        else if fireAt top <=? now then
          '(hp, _) ← hPop (h q);
          drain fuel now (MkQueue hp (delete (tkey top) (byKey q)) (dead q ∪ {[tid top]}) (next q)
                            (wakeCh q) (stopped q)) (ready ++ [top])
        else Ret (q, ready, wrap64 (fireAt top - now))
  end.

Definition hour : Z := 3600 * 10 ^ 9.

(** One pass of [run] up to the timer: what it fires, and for how long it then sleeps. *)
Definition turn (now : Z) (q : Queue) : go (Queue * list task * Z) :=
  '(q, ready, wait) ← drain (S (length (slots (h q)))) now q [];
  Ret (q, ready, if wait <? 0 then hour else wait).

(** ** The queue, its clients and its driver *)

(** [due] clients have left the lock and not yet called [wake]; the driver sleeps until [deadline],
    computed from a reading [lag] before the timer was set; [alive] until it takes the stop. *)
Record system := MkSystem { queue : Queue; due : nat; deadline : Z; lag : Z; alive : bool }.

Definition start : system := MkSystem New 0 0 0 true.

Inductive action :=
| ASchedule (key : string) (delay : Z) (f : option F) (clock : Z)
| ACancel (key : string)
| AWake
| AStop
| ATurn (token : bool) (now reset : Z)
| AExit.

(** What a client sees, or what the driver fires. *)
Inductive out := OReplaced (b : bool) | OCancelled (b : bool) | OFired (l : list (string * (Z * F))) | ONone.

(** The driver can go on by a token, or when the timer is due. *)
Definition enabled (token : bool) (now : Z) (s : system) : bool :=
  alive s && (if token then wakeCh (queue s) else deadline s <=? now).

Definition view (t : task) : string * (Z * F) := (tkey t, (fireAt t, fn t)).

Definition act (a : action) (s : system) : go (system * out) :=
  match a with
  | ASchedule key delay f clock =>
      '(q, replaced, wk) ← Schedule key delay f clock (queue s);
      Ret (MkSystem q (if wk : bool then S (due s) else due s) (deadline s) (lag s) (alive s), OReplaced replaced)
  | ACancel key =>
      let '(q, ok) := Cancel key (queue s) in
      Ret (MkSystem q (if ok then S (due s) else due s) (deadline s) (lag s) (alive s), OCancelled ok)
  | AWake =>
      match due s with
      | O => Ret (s, ONone)
      | S n => Ret (MkSystem (wake (queue s)) n (deadline s) (lag s) (alive s), ONone)
      end
  | AStop => Ret (MkSystem (Stop (queue s)) (due s) (deadline s) (lag s) (alive s), ONone)
  | ATurn token now reset =>
      if enabled token now s then
        '(q, ready, wait) ← turn now (if token then set_wake false (queue s) else queue s);
        Ret (MkSystem q (due s) (reset + wait) (reset - now) (alive s), OFired (map view ready))
      else Ret (s, ONone)
  | AExit =>
      Ret (if stopped (queue s) then MkSystem (queue s) (due s) (deadline s) (lag s) false else s, ONone)
  end.

Fixpoint run (acts : list action) (s : system) : go (system * list out) :=
  match acts with
  | [] => Ret (s, [])
  | a :: acts => '(s, o) ← act a s; '(s, os) ← run acts s; Ret (s, o :: os)
  end.

(** * The abstract timers *)

(** One action on the timers: what it may answer and what is left. A turn fires everything due, in
    order of time, and nothing else. *)
Definition timer_step (a : action) (o : out) (st : bool) (m m' : gmap string (Z * F)) (st' : bool) : Prop :=
  match a, o with
  | ASchedule key delay (Some f) clock, OReplaced b =>
      if st then b = false /\ m' = m /\ st' = st
      else b = bool_decide (is_Some (m !! key)) /\ m' = <[key := (wrap64 (clock + delay), f)]> m /\ st' = st
  | ASchedule _ _ None _, OReplaced b => b = false /\ m' = m /\ st' = st
  | ACancel key, OCancelled b => b = bool_decide (is_Some (m !! key)) /\ m' = delete key m /\ st' = st
  | AStop, ONone => m' = m /\ st' = true
  | ATurn _ now _, OFired l =>
      m' = filter (fun kv => now < kv.2.1) m /\ st' = st /\
      l ≡ₚ map_to_list (filter (fun kv => kv.2.1 <= now) m) /\
      StronglySorted (fun a b => a.2.1 <= b.2.1) l
  | (AWake | AExit | ATurn _ _ _), ONone => m' = m /\ st' = st
  | _, _ => False
  end.

Fixpoint timer_run (acts : list action) (os : list out) (st : bool) (m m' : gmap string (Z * F)) (st' : bool) : Prop :=
  match acts, os with
  | [], [] => m' = m /\ st' = st
  | a :: acts, o :: os => exists st1 m1, timer_step a o st m m1 st1 /\ timer_run acts os st1 m1 m' st'
  | _, _ => False
  end.

Definition live (q : Queue) : gmap string (Z * F) := (fun t => (fireAt t, fn t)) <$> byKey q.

(** * The invariant of the queue *)

Record inv_q (q : Queue) : Prop := {
  q_placed : placed tid (h q);
  q_heap : heap Less (slots (h q));
  q_old : Forall (fun t => (tid t < next q)%nat) (slots (h q));
  q_old_dead : forall i, i ∈ dead q -> (i < next q)%nat;
  q_live : forall t, t ∈ slots (h q) -> tid t ∉ dead q -> byKey q !! tkey t = Some t;
  q_keys : forall k t, byKey q !! k = Some t -> t ∈ slots (h q) /\ (tid t ∉ dead q) /\ tkey t = k
}.

Lemma New_inv : inv_q New.
Proof. split; simpl; try done; set_solver by lia. Qed.

Lemma Schedule_spec key delay f clock q : inv_q q -> exists q' b wk, Schedule key delay f clock q = Ret (q', b, wk) /\
  inv_q q' /\ timer_step (ASchedule key delay f clock) (OReplaced b) (stopped q) (live q) (live q') (stopped q') /\
  wakeCh q' = wakeCh q /\ (wk = false -> q' = q).
Proof.
  intros Hq. unfold Schedule, task_interface. destruct f as [f|]; [|by eexists _, _, _].
  destruct (stopped q) eqn:Hst; [eexists _, _, _; split; [done|]; simpl; by rewrite Hst|].
  set (t := MkTask (next q) key (wrap64 (clock + delay)) f).
  destruct Hq as [Hp Hh Ho Hod Hl Hk].
  assert (next q ∉ map tid (slots (h q))) as Hf.
  { intros [x [E Hx]]%list_elem_of_fmap. rewrite Forall_forall in Ho. apply Ho in Hx. lia. }
  destruct (ipush tid Less (h q) t Hp Hf Hh) as (hp & Hpush & Hp' & Hh' & Hperm).
  set (dd := match byKey q !! key with Some old => dead q ∪ {[tid old]} | None => dead q end).
  set (b := bool_decide (is_Some (byKey q !! key))).
  exists (MkQueue hp (<[key := t]> (byKey q)) dd (S (next q)) (wakeCh q) (stopped q)), b, true.
  split.
  { unfold b, dd. destruct (byKey q !! key) eqn:E; rewrite Hpush; cbn [mbind go_bind]; do 2 f_equal.
    - by rewrite Hst, bool_decide_true.
    - rewrite Hst, bool_decide_false; [done|]. by intros [? ?]. }
  assert (Hdd : forall x, x ∈ slots (h q) -> tid x ∉ dd -> (tid x ∉ dead q) /\ tkey x <> key).
  { intros x Hx Hn. assert (tid x ∉ dead q) as Hd by (unfold dd in Hn; destruct (byKey q !! key); set_solver).
    split; [done|]. intros Ek. specialize (Hl x Hx Hd). rewrite Ek in Hl.
    unfold dd in Hn. rewrite Hl in Hn. set_solver. }
  split; [|split; [|done]].
  - split; cbn [h byKey dead next].
    + exact Hp'.
    + exact Hh'.
    + rewrite Hperm. constructor; [simpl; lia|]. eapply Forall_impl; [exact Ho|]. simpl. lia.
    + intros i Hi. unfold dd in Hi. destruct (byKey q !! key) as [old|] eqn:E.
      * apply elem_of_union in Hi as [Hi| ->%elem_of_singleton]; [apply Hod in Hi; lia|].
        apply Hk in E as [Hin _]. rewrite Forall_forall in Ho. apply Ho in Hin. lia.
      * apply Hod in Hi. lia.
    + intros x Hx Hn. rewrite Hperm in Hx. apply elem_of_cons in Hx as [->|Hx]; [apply lookup_insert_eq|].
      destruct (Hdd x Hx Hn) as [Hd Hne]. rewrite lookup_insert_ne by done. by apply Hl.
    + intros k x Hx. rewrite Hperm. destruct (decide (k = key)) as [->|Hne].
      * rewrite lookup_insert_eq in Hx. injection Hx as <-. split; [set_solver|]. split; [|done].
        simpl. unfold dd. destruct (byKey q !! key) as [old|] eqn:E.
        -- intros [Hi|Hi%elem_of_singleton]%elem_of_union; [apply Hod in Hi; lia|].
           apply Hk in E as [Hin _]. rewrite Forall_forall in Ho. apply Ho in Hin. lia.
        -- intros Hi. apply Hod in Hi. lia.
      * rewrite lookup_insert_ne in Hx by done. destruct (Hk _ _ Hx) as (Hin & Hnd & Hkx).
        split; [set_solver|]. split; [|done]. unfold dd. destruct (byKey q !! key) as [old|] eqn:E; [|done].
        intros [Hi|Hi%elem_of_singleton]%elem_of_union; [done|].
        destruct (Hk _ _ E) as (Hin' & _ & Hko).
        pose proof (same_ptr tid _ _ _ Hp Hin Hin' Hi). congruence.
  - simpl. rewrite Hst. unfold live, b. cbn [byKey]. rewrite fmap_insert. split; [|done].
    apply bool_decide_ext. rewrite lookup_fmap, fmap_is_Some. done.
Qed.

Lemma Cancel_spec key q : inv_q q -> let '(q', b) := Cancel key q in
  inv_q q' /\ timer_step (ACancel key) (OCancelled b) (stopped q) (live q) (live q') (stopped q') /\
  wakeCh q' = wakeCh q /\ (b = false -> q' = q).
Proof.
  intros [Hp Hh Ho Hod Hl Hk]. unfold Cancel. destruct (byKey q !! key) as [t|] eqn:E.
  - destruct (Hk _ _ E) as (Hin & Hnd & Hkt). split; [|split; [|done]].
    + split; cbn [h byKey dead next]; try done.
      * intros i [Hi| ->%elem_of_singleton]%elem_of_union; [by apply Hod|].
        rewrite Forall_forall in Ho. by apply Ho.
      * intros x Hx Hn. rewrite lookup_delete_ne; [apply Hl; set_solver|].
        intros Ek. rewrite Ek in E. rewrite (Hl x Hx) in E by set_solver. injection E as ->. set_solver.
      * intros k x [Hne Hx]%lookup_delete_Some. destruct (Hk _ _ Hx) as (Hin' & Hnd' & Hkx).
        split; [done|]. split; [|done]. intros [?|Et%elem_of_singleton]%elem_of_union; [done|].
        pose proof (same_ptr tid _ _ _ Hp Hin' Hin Et). congruence.
    + simpl. unfold live. cbn [byKey]. rewrite fmap_delete, lookup_fmap, E. done.
  - split; [done|]. split; [|done]. simpl. unfold live. rewrite lookup_fmap, E.
    split; [done|]. split; [|done]. symmetry. apply delete_id. by rewrite lookup_fmap, E.
Qed.

(** * The turns of the driver *)

(** The heap after its top is taken out, whose flag is or becomes set. *)
Lemma pop_inv q hp top dd m : inv_q q -> placed tid hp -> heap Less (slots hp) -> top :: slots hp ≡ₚ slots (h q) ->
  (forall i, i ∈ dd <-> i ∈ dead q \/ i = tid top) ->
  (forall k t, m !! k = Some t <-> byKey q !! k = Some t /\ t <> top) ->
  inv_q (MkQueue hp m dd (next q) (wakeCh q) (stopped q)).
Proof.
  intros [Hp Hh Ho Hod Hl Hk] Hp' Hh' Hperm Hdd Hm.
  assert (top ∈ slots (h q)) as Htop by (rewrite <- Hperm; set_solver).
  assert (Hin : forall t, t ∈ slots hp <-> t ∈ slots (h q) /\ tid t <> tid top).
  { intros t. by apply (placed_rest tid (h q) top (slots hp) t). }
  split; cbn [h byKey dead next]; try done.
  - rewrite <- Hperm in Ho. by apply Forall_cons in Ho as [_ Ho].
  - intros i [Hi| ->]%Hdd; [by apply Hod|]. rewrite Forall_forall in Ho. by apply Ho.
  - intros t [Ht Hne]%Hin Hn. apply Hm. split; [|congruence]. apply Hl; [done|]. intros Hd. apply Hn, Hdd. by left.
  - intros k t [Ht Hne]%Hm. destruct (Hk _ _ Ht) as (Hit & Hnt & Hkt).
    assert (tid t <> tid top) as Hne' by (intros E; apply Hne; by apply (same_ptr tid (h q))).
    split; [by apply Hin|]. split; [|done]. intros [?| ?]%Hdd; done.
Qed.

(** Nothing in a heap fires before its top. *)
Lemma top_first q top t : inv_q q -> slots (h q) !! 0%nat = Some top -> t ∈ slots (h q) -> fireAt top <= fireAt t.
Proof.
  intros Hq Htop [i Hi]%list_elem_of_lookup_1. pose proof (heap_root Less _ i top t (q_heap q Hq) Htop Hi) as H.
  unfold leq, Less in H. apply Z.ltb_ge in H. done.
Qed.

(** The timer the driver is to set: none, or the earliest of the tasks left. *)
Definition earliest (now : Z) (m : gmap string task) (wait : Z) : Prop :=
  (m = ∅ /\ wait = -1) \/
  exists k t, m !! k = Some t /\ wait = wrap64 (fireAt t - now) /\
    forall k' t', m !! k' = Some t' -> fireAt t <= fireAt t'.

Lemma no_live_empty q : inv_q q -> slots (h q) = [] -> byKey q = ∅.
Proof.
  intros Hq E. apply map_eq. intros k. rewrite lookup_empty. destruct (byKey q !! k) as [t|] eqn:Hk; [|done].
  apply (q_keys q Hq) in Hk as (Hin & _). rewrite E in Hin. by apply not_elem_of_nil in Hin.
Qed.

(** What a run of the loop from [q] to [q'] has fired. *)
Record drained (now : Z) (q q' : Queue) (fired : list task) (wait : Z) : Prop := {
  dr_inv : inv_q q';
  dr_left : byKey q' = filter (fun kv => now < fireAt kv.2) (byKey q);
  dr_fired : map (fun t => (tkey t, t)) fired ≡ₚ map_to_list (filter (fun kv => fireAt kv.2 <= now) (byKey q));
  dr_sorted : StronglySorted (fun a b => fireAt a <= fireAt b) fired;
  dr_wait : earliest now (byKey q') wait;
  dr_wake : wakeCh q' = wakeCh q;
  dr_stopped : stopped q' = stopped q
}.

(** A dead top is dropped; a live one that is due is fired and leaves its key. *)
Lemma pop_dead q hp top : inv_q q -> placed tid hp -> heap Less (slots hp) -> top :: slots hp ≡ₚ slots (h q) ->
  tid top ∈ dead q -> inv_q (MkQueue hp (byKey q) (dead q) (next q) (wakeCh q) (stopped q)).
Proof.
  intros Hq Hp Hh Hperm Hd. apply (pop_inv q hp top); try done.
  - intros i. split; [by left|]. by intros [?| ->].
  - intros k t. split; [|by intros [? _]]. intros Ht. split; [done|]. intros ->.
    by apply (q_keys q Hq) in Ht as (_ & ? & _).
Qed.

Lemma pop_live q hp top : inv_q q -> placed tid hp -> heap Less (slots hp) -> top :: slots hp ≡ₚ slots (h q) ->
  byKey q !! tkey top = Some top ->
  inv_q (MkQueue hp (delete (tkey top) (byKey q)) (dead q ∪ {[tid top]}) (next q) (wakeCh q) (stopped q)).
Proof.
  intros Hq Hp Hh Hperm Hk. apply (pop_inv q hp top); try done.
  - intros i. by rewrite elem_of_union, elem_of_singleton.
  - intros k t. rewrite lookup_delete_Some. split.
    + intros [Hne Ht]. split; [done|]. intros ->. apply Hne. by apply (q_keys q Hq) in Ht as (_ & _ & ?).
    + intros [Ht Hne]. split; [|done]. intros <-. congruence.
Qed.

Lemma drained_fire now q q1 q' top fired wait : byKey q !! tkey top = Some top -> fireAt top <= now ->
  (forall k t, byKey q !! k = Some t -> fireAt top <= fireAt t) ->
  byKey q1 = delete (tkey top) (byKey q) -> wakeCh q1 = wakeCh q -> stopped q1 = stopped q ->
  drained now q1 q' fired wait -> drained now q q' (top :: fired) wait.
Proof.
  intros Hk Hdue Hfirst E1 E2 E3 [Hi Hl Hf Hs Hw ? ?]. split; try done; try congruence.
  - rewrite Hl, E1. apply map_eq. intros k. apply option_eq. intros t.
    rewrite !map_lookup_filter_Some, lookup_delete_Some. cbn [snd]. split; [naive_solver|].
    intros [Ht ?]. split; [|done]. split; [|done]. intros <-. assert (t = top) as -> by congruence. lia.
  - cbn [map]. rewrite Hf, E1, map_filter_delete.
    apply (map_to_list_delete (filter (fun kv => fireAt kv.2 <= now) (byKey q)) (tkey top) top).
    by apply map_lookup_filter_Some.
  - constructor; [done|]. rewrite Forall_forall. intros t Ht.
    assert ((tkey t, t) ∈ map (fun t => (tkey t, t)) fired) as Hin by (apply list_elem_of_fmap; by exists t).
    rewrite Hf in Hin. apply elem_of_map_to_list, map_lookup_filter_Some in Hin as [Hin _].
    rewrite E1, lookup_delete_Some in Hin. eapply Hfirst, Hin.
Qed.

Lemma drained_none now q wait : inv_q q -> (forall k t, byKey q !! k = Some t -> now < fireAt t) ->
  earliest now (byKey q) wait -> drained now q q [] wait.
Proof.
  intros Hq Hlate Hw. split; try done.
  - symmetry. apply map_filter_id. intros k t Ht. by eapply Hlate.
  - assert (filter (fun kv => fireAt kv.2 <= now) (byKey q) = ∅) as ->; [|done].
    apply map_eq. intros k. rewrite lookup_empty. apply map_lookup_filter_None_2. right.
    intros t Ht. apply Hlate in Ht. simpl. lia.
  - constructor.
Qed.

Lemma drain_spec now fuel : forall q ready, inv_q q -> (length (slots (h q)) < fuel)%nat ->
  exists q' fired wait, drain fuel now q ready = Ret (q', ready ++ fired, wait) /\ drained now q q' fired wait.
Proof.
  induction fuel as [|fuel IH]; intros q ready Hq Hf; [lia|]. cbn [drain].
  change (iLen (h q)) with (Z.of_nat (length (slots (h q)))).
  destruct (decide (slots (h q) = [])) as [Es|Es].
  { exists q, [], (-1). rewrite Es, app_nil_r. split; [done|]. pose proof (no_live_empty q Hq Es) as E.
    apply drained_none; [done|rewrite E; intros ??; by rewrite lookup_empty|by left]. }
  destruct (ipop tid Less (h q) (q_placed q Hq) (q_heap q Hq) Es) as (hp & x & Hpop & Hp' & Hh' & Hperm & Htop).
  assert (0 < length (slots (h q)))%nat as Hpos by (destruct (slots (h q)); [done|simpl; lia]).
  rewrite (proj2 (Z.ltb_lt 0 _)) by lia. cbn [negb]. change 0 with (Z.of_nat 0) at 1.
  unfold task_interface at 1 2. rewrite (index_lookup _ 0 x Htop), Hpop. cbn [mbind go_bind].
  assert (x ∈ slots (h q)) as Hin by (by eapply list_elem_of_lookup_2).
  assert (Hfirst : forall k t, byKey q !! k = Some t -> fireAt x <= fireAt t).
  { intros k t Ht. apply (top_first q x t Hq Htop). by apply (q_keys q Hq) in Ht as (? & _). }
  assert (length (slots hp) < fuel)%nat as Hlen by (apply Permutation_length in Hperm; simpl in Hperm; lia).
  destruct (decide (tid x ∈ dead q)) as [Hd|Hd].
  - destruct (IH (MkQueue hp (byKey q) (dead q) (next q) (wakeCh q) (stopped q)) ready
      (pop_dead q hp x Hq Hp' Hh' Hperm Hd) Hlen) as (q' & fired & wait & -> & Hdr).
    exists q', fired, wait. split; [done|]. by destruct Hdr.
  - pose proof (q_live q Hq x Hin Hd) as Hk. destruct (Z.leb_spec (fireAt x) now) as [Hle|Hlt].
    + destruct (IH _ (ready ++ [x]) (pop_live q hp x Hq Hp' Hh' Hperm Hk) Hlen) as (q' & fired & wait & -> & Hdr).
      exists q', (x :: fired), wait. rewrite <- app_assoc. split; [done|].
      by apply (drained_fire now q _ q' x fired wait) in Hdr.
    + exists q, [], (wrap64 (fireAt x - now)). rewrite app_nil_r. split; [done|]. apply drained_none; [done|..].
      * intros k t Ht. apply Hfirst in Ht. lia.
      * right. by exists (tkey x), x.
Qed.

(** ** A turn on the abstract timers *)

Lemma live_lookup q k v : live q !! k = Some v <-> exists t, byKey q !! k = Some t /\ v = (fireAt t, fn t).
Proof. unfold live. rewrite lookup_fmap_Some. naive_solver. Qed.

Lemma live_filter q q' (P : Z -> Prop) `{!forall z, Decision (P z)} :
  byKey q' = filter (fun kv => P (fireAt kv.2)) (byKey q) -> live q' = filter (fun kv => P kv.2.1) (live q).
Proof.
  intros E. apply map_eq. intros k. apply option_eq. intros v. rewrite map_lookup_filter_Some, !live_lookup, E.
  setoid_rewrite map_lookup_filter_Some. cbn [snd]. split.
  - intros (t & [Ht Hp] & ->). split; [by exists t|done].
  - intros [(t & Ht & ->) Hp]. by exists t.
Qed.

Lemma views_of fired : map view fired = prod_map id (fun t => (fireAt t, fn t)) <$> map (fun t => (tkey t, t)) fired.
Proof. induction fired as [|t l IH]; [done|]. cbn. by rewrite IH. Qed.

Lemma drained_step token now reset st q q' fired wait : st = stopped q -> drained now q q' fired wait ->
  timer_step (ATurn token now reset) (OFired (map view fired)) st (live q) (live q') (stopped q').
Proof.
  intros -> [_ Hl Hf Hs _ _ Hst]. simpl. split; [by apply live_filter|]. split; [done|]. split.
  - rewrite views_of, Hf, <- map_to_list_fmap.
    pose proof (live_filter q (MkQueue (h q) (filter (fun kv => fireAt kv.2 <= now) (byKey q)) (dead q) (next q)
      (wakeCh q) (stopped q)) (fun z => z <= now) eq_refl) as E.
    unfold live in E at 1. cbn [byKey] in E. by rewrite E.
  - clear -Hs. induction Hs as [|t l Hs IH Ht]; constructor; [done|]. by apply Forall_map.
Qed.

Lemma set_wake_inv b q : inv_q q -> inv_q (set_wake b q).
Proof. by intros []. Qed.

Lemma turn_spec now q : inv_q q -> exists q' fired wait, turn now q = Ret (q', fired, if wait <? 0 then hour else wait) /\
  drained now q q' fired wait.
Proof.
  intros Hq. unfold turn. destruct (drain_spec now (S (length (slots (h q)))) q [] Hq ltac:(lia)) as (q' & fired & wait & -> & H).
  by exists q', fired, wait.
Qed.

Lemma act_spec a s : inv_q (queue s) -> exists s' o, act a s = Ret (s', o) /\ inv_q (queue s') /\
  timer_step a o (stopped (queue s)) (live (queue s)) (live (queue s')) (stopped (queue s')).
Proof.
  intros Hq. destruct a as [key delay f clock|key| | |token now reset|]; cbn [act].
  - destruct (Schedule_spec key delay f clock (queue s) Hq) as (q' & b & wk & -> & H1 & H2 & _). by eexists _, _.
  - pose proof (Cancel_spec key (queue s) Hq) as H. destruct (Cancel key (queue s)) as [q' b].
    destruct H as (H1 & H2 & _). by eexists _, _.
  - destruct (due s); eexists _, _; (split; [done|]); (split; [|done]); [done|by apply set_wake_inv].
  - eexists _, _. split; [done|]. split; [|done]. by destruct Hq.
  - destruct (enabled token now s); [|by eexists _, _].
    assert (exists q0, (if token then set_wake false (queue s) else queue s) = q0 /\ inv_q q0 /\
      live q0 = live (queue s) /\ stopped q0 = stopped (queue s)) as (q0 & -> & Hq0 & Hl & Hst).
    { eexists. split; [done|]. destruct token; [|done]. split; [by apply set_wake_inv|done]. }
    destruct (turn_spec now q0 Hq0) as (q' & fired & wait & -> & Hd). cbn [mbind go_bind].
    eexists _, _. split; [done|]. split; [apply Hd|]. rewrite <- Hl. by apply (drained_step _ _ _ _ q0 _ _ wait).
  - eexists _, _. split; [done|]. by destruct (stopped (queue s)) eqn:E.
Qed.

(** C11: The queue is a map from keys to a time and a callback: whatever clients and driver do in
    any order, no step panics; [Schedule] replaces the entry of its key and tells so, [Cancel]
    removes it and tells whether it was there, and a turn at [now] fires all the entries due by
    then, in the order of their times, each once, and leaves the others. *)
Theorem delayqueue_refines acts : exists s os, run acts start = Ret (s, os) /\
  timer_run acts os false ∅ (live (queue s)) (stopped (queue s)).
Proof.
  assert (forall s, inv_q (queue s) -> exists s' os, run acts s = Ret (s', os) /\
    timer_run acts os (stopped (queue s)) (live (queue s)) (live (queue s')) (stopped (queue s'))) as H.
  { induction acts as [|a acts IH]; intros s Hs; cbn [run]; [by exists s, []|].
    destruct (act_spec a s Hs) as (s1 & o & -> & H1 & Hstep). cbn [mbind go_bind].
    destruct (IH s1 H1) as (s2 & os & -> & H2). cbn [mbind go_bind].
    exists s2, (o :: os). split; [done|]. by exists (stopped (queue s1)), (live (queue s1)). }
  apply (H start New_inv).
Qed.

(** ** The driver wakes up *)

(** Readings as the clock gives them: a turn reads the time before it sets the timer. *)
Definition timely (a : action) : Prop :=
  match a with ATurn _ now reset => int64 now /\ 0 <= now <= reset | _ => True end.

Record inv_s (s : system) : Prop := {
  s_queue : inv_q (queue s);
  s_times : map_Forall (fun _ t => int64 (fireAt t)) (byKey (queue s));
  s_lag : 0 <= lag s;
  (* the driver will look at every task in time *)
  s_woken : forall k t, byKey (queue s) !! k = Some t ->
    wakeCh (queue s) = true \/ (0 < due s)%nat \/ deadline s <= fireAt t + lag s
}.

Lemma start_timely : inv_s start.
Proof. split; [apply New_inv|apply map_Forall_empty|done|]. intros k t. simpl. by rewrite lookup_empty. Qed.

Lemma drained_woken now reset q q' fired wait : 0 <= now <= reset -> int64 now ->
  map_Forall (fun _ t => int64 (fireAt t)) (byKey q) -> drained now q q' fired wait ->
  map_Forall (fun _ t => int64 (fireAt t)) (byKey q') /\
  forall k t, byKey q' !! k = Some t -> reset + (if wait <? 0 then hour else wait) <= fireAt t + (reset - now).
Proof.
  intros Hn Hi Ht [_ Hl _ _ Hw _ _]. split.
  { rewrite Hl. intros k t [Hk _]%map_lookup_filter_Some. by eapply Ht. }
  intros k t Hk. destruct Hw as [[E _]|(k0 & t0 & Hk0 & -> & Hmin)]; [by rewrite E, lookup_empty in Hk|].
  pose proof (Hmin _ _ Hk). rewrite Hl in Hk0. apply map_lookup_filter_Some in Hk0 as [Hk0 Hlt].
  pose proof (Ht _ _ Hk0). simpl in *. rewrite wrap64_id by (unfold int64 in *; lia).
  rewrite (proj2 (Z.ltb_ge _ _)) by lia. lia.
Qed.

Lemma act_timely a s s' o : timely a -> inv_s s -> act a s = Ret (s', o) -> inv_s s'.
Proof.
  intros Hta Hs Ha. pose proof Hs as [Hq Ht Hlag Hw]. destruct (act_spec a s Hq) as (s1 & o1 & Ha' & Hq' & _).
  assert (s1 = s') as -> by congruence. clear Ha'.
  destruct a as [key delay f clock|key| | |token now reset|]; cbn [act] in Ha.
  - unfold Schedule in Ha. destruct f as [f|]; [|injection Ha as <- <-; by split].
    destruct (stopped (queue s)); [injection Ha as <- <-; by split|].
    destruct (match byKey (queue s) !! key with Some _ => _ | None => _ end) as [dd b].
    destruct (hPush _ _) as [hp|]; [|done]. cbn in Ha. injection Ha as <- <-. split; [done| |done|].
    + apply map_Forall_insert_2; [apply wrap64_range|done].
    + intros k t Hk. right. left. simpl. lia.
  - unfold Cancel in Ha. destruct (byKey (queue s) !! key) as [x|]; injection Ha as <- <-; [|by split].
    split; [done|by apply map_Forall_delete|done|]. intros k t Hk. right. left. simpl. lia.
  - destruct (due s) eqn:E; injection Ha as <- <-; [exact Hs|]. split; try done. intros k t Hk. by left.
  - injection Ha as <- <-. by split.
  - destruct (enabled token now s); [|injection Ha as <- <-; by split]. destruct Hta as [Hi Hn].
    assert (Hq0 : inv_q (if token then set_wake false (queue s) else queue s)) by (destruct token; [by apply set_wake_inv|done]).
    destruct (turn_spec now _ Hq0) as (q' & fired & wait & E & Hd). rewrite E in Ha. cbn in Ha. injection Ha as <- <-.
    assert (Ht0 : map_Forall (fun _ t => int64 (fireAt t)) (byKey (if token then set_wake false (queue s) else queue s)))
      by by destruct token.
    destruct (drained_woken now reset _ _ _ _ Hn Hi Ht0 Hd) as [H1 H2].
    split; [done|done|simpl; lia|]. intros k t Hk. right. right. by eapply H2.
  - destruct (stopped (queue s)); injection Ha as <- <-; by split.
Qed.

Lemma run_timely acts : forall s s' os, Forall timely acts -> inv_s s -> run acts s = Ret (s', os) -> inv_s s'.
Proof.
  induction acts as [|a acts IH]; intros s s' os Ht Hs Hr; cbn [run] in Hr; [by injection Hr as <- <-|].
  apply Forall_cons in Ht as [Ha Ht]. destruct (act a s) as [[s1 o]|] eqn:E; [|done]. cbn in Hr.
  destruct (run acts s1) as [[s2 os2]|] eqn:E2; [|done]. injection Hr as <- <-.
  by eapply IH, E2; [|eapply act_timely, E].
Qed.

Lemma wakes_driver n : forall s, due s = n -> exists s' os, run (replicate n AWake) s = Ret (s', os) /\
  due s' = 0%nat /\ byKey (queue s') = byKey (queue s) /\ deadline s' = deadline s /\ lag s' = lag s /\ alive s' = alive s /\
  wakeCh (queue s') = wakeCh (queue s) || (0 <? n)%nat.
Proof.
  induction n as [|n IH]; intros s Hs; cbn [replicate run act].
  { exists s, []. by rewrite orb_false_r. }
  rewrite Hs. cbn [mbind go_bind].
  destruct (IH (MkSystem (wake (queue s)) n (deadline s) (lag s) (alive s)) eq_refl) as (s' & os & -> & ? & ? & ? & ? & ? & Hw).
  cbn [mbind go_bind]. eexists _, _. split; [done|]. repeat (split; [done|]). rewrite Hw. simpl. by rewrite orb_true_r.
Qed.

(** C19: No task is forgotten: in every state reached, once the clients that have left the lock
    have sent their wake-up, the driver, unless it has been stopped, can go on at any time not
    before the task's own plus the lag of its last reading, by a token or by its timer, and the
    turn it then takes fires the task. *)
Theorem due_task_fires acts s os key at_ f now reset : Forall timely acts -> run acts start = Ret (s, os) ->
  alive s = true -> live (queue s) !! key = Some (at_, f) -> at_ + lag s <= now ->
  exists s1 os1, run (replicate (due s) AWake) s = Ret (s1, os1) /\
    exists token, enabled token now s1 = true /\
    exists s2 l, act (ATurn token now reset) s1 = Ret (s2, OFired l) /\ (key, (at_, f)) ∈ l.
Proof.
  intros Ht Hr Ha Hl Hn. pose proof (run_timely _ _ _ _ Ht start_timely Hr) as Hs.
  destruct (wakes_driver (due s) s eq_refl) as (s1 & os1 & Hw & Hdue & Hkeys & Hdl & Hlag & Hal & Hwk).
  exists s1, os1. split; [done|].
  assert (inv_s s1) as Hs1 by (eapply run_timely; [|exact Hs|exact Hw]; by apply Forall_replicate).
  apply live_lookup in Hl as (t & Hk & [= -> ->]). rewrite <- Hkeys in Hk.
  assert (exists token, enabled token now s1 = true) as [token He].
  { destruct (s_woken s1 Hs1 key t Hk) as [E|[E|E]].
    - exists true. unfold enabled. by rewrite Hal, Ha, E.
    - lia.
    - exists false. unfold enabled. rewrite Hal, Ha. apply Z.leb_le. lia. }
  exists token. split; [done|]. cbn [act]. rewrite He.
  assert (Hq0 : inv_q (if token then set_wake false (queue s1) else queue s1))
    by (destruct token; [apply set_wake_inv|]; apply Hs1).
  destruct (turn_spec now _ Hq0) as (q' & fired & wait & -> & Hd). cbn [mbind go_bind].
  eexists _, _. split; [done|]. pose proof (s_lag s Hs).
  assert ((tkey t, t) ∈ map (fun t => (tkey t, t)) fired) as Hin.
  { rewrite (dr_fired _ _ _ _ _ Hd). apply elem_of_map_to_list, map_lookup_filter_Some. simpl. split; [|lia].
    apply (q_keys _ (s_queue s1 Hs1)) in Hk as Hk'. destruct Hk' as (_ & _ & ->). by destruct token. }
  apply (q_keys _ (s_queue s1 Hs1)) in Hk as (_ & _ & <-).
  apply list_elem_of_fmap in Hin as (t' & [= _ <-] & Hin). apply list_elem_of_fmap. by exists t.
Qed.
End delayqueue.

(** Three tasks, one replaced and one cancelled; the turn at 12 fires the replacement alone. *)
Lemma due_task_fires_witness :
  let acts := [ASchedule "a" 5 (Some 1) 0; AWake; ATurn true 1 2; ASchedule "b" 7 (Some 2) 2; ASchedule "a" 8 (Some 3) 3;
               ACancel "b"; ATurn false 6 6] in
  exists s os, run acts start = Ret (s, os) /\ live (queue s) = {[ "a" := (11, 3) ]} /\
    exists s1 os1, run (replicate (due s) AWake) s = Ret (s1, os1) /\
    exists token, enabled token 12 s1 = true /\
    exists s2 l, act (ATurn token 12 12) s1 = Ret (s2, OFired l) /\ ("a", (11, 3)) ∈ l.
Proof.
  intros acts. destruct (run acts start) as [[s os]|] eqn:Hr; [|vm_compute in Hr; discriminate].
  exists s, os. split; [done|]. split; [vm_compute in Hr; by injection Hr as <- _|].
  apply (due_task_fires acts s os "a" 11 3 12 12).
  - repeat apply Forall_cons_2; try exact I; try (unfold timely, int64; lia). apply Forall_nil_2.
  - exact Hr.
  - vm_compute in Hr. by injection Hr as <- _.
  - vm_compute in Hr. by injection Hr as <- _.
  - vm_compute in Hr. injection Hr as <- _. vm_compute. discriminate.
Defined.
