(* ===== verification/TimerQueue.v ===== *)
(** The timer queue ([pkg/orchestration/timerqueue/timerqueue.go]): commands through a bounded channel
    to one loop, which keeps the tasks in the indexed heap of [Heap] with an index by identifier,
    and fires what is due at each tick of a clock. *)
From Stdlib Require Import ZArith Lia Bool Sorted.
From stdpp Require Import base numbers strings list gmap fin_maps sets.
From S2P Require Import Prelude Priority Heap.

Open Scope Z_scope.

Section timerqueue.
(** [F]: the callbacks. *)
Context {F : Type}.

(** A [*Task]: a pointer [tid]; its [index] field is in the heap. *)
Record Task := MkTask { tid : nat; ID : string; ExecuteAt : Z; Fn : F }.

Definition Less (a b : Task) : bool := ExecuteAt a <? ExecuteAt b.

#[local] Instance task_interface : Interface (IHeap Task) Task := indexed_interface tid Less.
#[local] Instance less_strict : StrictWeak Less.
Proof. split; unfold Less; intros *; rewrite ?Z.ltb_irrefl, ?Z.ltb_lt, ?Z.ltb_ge; lia. Qed.

Inductive command := CmdAdd (t : Task) | CmdCancel (id : string).

(** The queue and the variables of its loop. *)
Record Queue := MkQueue {
  chanSize : Z; cmdCh : list command; pending : Z;
  h : IHeap Task; idIndex : gmap string Task;
  next : nat; started : bool; stopped : bool
}.

Definition WithChannelSize (n : Z) (c : Z) : Z := if 0 <? n then n else c.

Definition New (opts : list (Z -> Z)) : Queue :=
  MkQueue (foldl (fun c o => o c) 1024 opts) [] 0 (MkIHeap [] ∅) ∅ 0 false false.

(** The non-blocking send on [cmdCh]. *)
Definition send (c : command) (q : Queue) : Queue * bool :=
  if Z.of_nat (length (cmdCh q)) <? chanSize q
  then (MkQueue (chanSize q) (cmdCh q ++ [c]) (pending q) (h q) (idIndex q) (next q) (started q) (stopped q), true)
  else (q, false).

Definition AddAt (id : string) (executeAt : Z) (f : option F) (q : Queue) : Queue * bool :=
  match f with
  | None => (q, false)
  | Some f =>
      let t := MkTask (next q) id executeAt f in
      send (CmdAdd t) (MkQueue (chanSize q) (cmdCh q) (pending q) (h q) (idIndex q) (S (next q)) (started q) (stopped q))
  end.

Definition Add (id : string) (delay : Z) (f : option F) (clock : Z) (q : Queue) : Queue * bool :=
  AddAt id (clock + delay) f q.

Definition Cancel (id : string) (q : Queue) : Queue * bool :=
  if decide (id = "") then (q, false) else send (CmdCancel id) q.

Definition Pending (q : Queue) : Z := pending q.

Definition set_loop (q : Queue) (hp : IHeap Task) (idx : gmap string Task) (p : Z) : Queue :=
  MkQueue (chanSize q) (cmdCh q) p hp idx (next q) (started q) (stopped q).

(** The [index] field of a task. *)
Definition task_index (hp : IHeap Task) (t : Task) : Z := default 0 (pos hp !! tid t).

(** The loop takes a command. *)
Definition handle (c : command) (q : Queue) : go Queue :=
  match c with
  | CmdAdd t =>
      '(hp, idx) ←
        (if decide (ID t = "") then Ret (h q, idIndex q)
         else
           '(hp, idx) ←
             match idIndex q !! ID t with
             | Some old => '(hp, _) ← hRemove (h q) (task_index (h q) old); Ret (hp, delete (ID t) (idIndex q))
             | None => Ret (h q, idIndex q)
             end;
           Ret (hp, <[ID t := t]> idx));
      hp ← hPush hp t;
      Ret (set_loop q hp idx (iLen hp))
  | CmdCancel id =>
      match idIndex q !! id with
      | Some t =>
          '(hp, _) ← hRemove (h q) (task_index (h q) t);
          Ret (set_loop q hp (delete id (idIndex q)) (iLen hp))
      | None => Ret q
      end
  end.

Definition receive (q : Queue) : go Queue :=
  match cmdCh q with
  | [] => Ret q
  | c :: cs => handle c (MkQueue (chanSize q) cs (pending q) (h q) (idIndex q) (next q) (started q) (stopped q))
  end.

(** The loop over the heap at a tick, and what it fires. *)
Fixpoint tick_loop (fuel : nat) (now : Z) (hp : IHeap Task) (idx : gmap string Task) (fired : list Task)
    : go (IHeap Task * gmap string Task * list Task) :=
  match fuel with
  | O => Ret (hp, idx, fired)
  | S fuel =>
      if negb (0 <? iLen hp) then Ret (hp, idx, fired)
      else
        top ← index (slots hp) 0;
        if now <? ExecuteAt top then Ret (hp, idx, fired)
        else
          '(hp, t) ← hPop hp;
          tick_loop fuel now hp (if decide (ID t = "") then idx else delete (ID t) idx) (fired ++ [t])
  end.

Definition tick (now : Z) (q : Queue) : go (Queue * list Task) :=
  '(hp, idx, fired) ← tick_loop (S (length (slots (h q)))) now (h q) (idIndex q) [];
  Ret (set_loop q hp idx (iLen hp), fired).

Definition Start (q : Queue) : Queue :=
  MkQueue (chanSize q) (cmdCh q) (pending q) (h q) (idIndex q) (next q) true (stopped q).

(** [ctx.Done()]. *)
Definition done_ (q : Queue) : Queue :=
  MkQueue (chanSize q) (cmdCh q) 0 (h q) (idIndex q) (next q) (started q) true.

(** * Any order of the calls and of the loop's turns *)

Inductive action :=
| AAdd (id : string) (executeAt : Z) (f : option F)
| ACancel (id : string)
| AStart
| AReceive
| ATick (now : Z)
| ADone.

Inductive out := OSent (b : bool) | OFired (l : list (string * Z * F)) | ONone.

Definition running (q : Queue) : bool := started q && negb (stopped q).

Definition view (t : Task) : string * Z * F := (ID t, ExecuteAt t, Fn t).

Definition act (a : action) (q : Queue) : go (Queue * out) :=
  match a with
  | AAdd id at_ f => let '(q, b) := AddAt id at_ f q in Ret (q, OSent b)
  | ACancel id => let '(q, b) := Cancel id q in Ret (q, OSent b)
  | AStart => Ret (Start q, ONone)
  | AReceive => if running q then q ← receive q; Ret (q, ONone) else Ret (q, ONone)
  | ATick now =>
      if running q then '(q, fired) ← tick now q; Ret (q, OFired (map view fired)) else Ret (q, ONone)
  | ADone => Ret (if running q then done_ q else q, ONone)
  end.

Fixpoint run (acts : list action) (q : Queue) : go (Queue * list out) :=
  match acts with
  | [] => Ret (q, [])
  | a :: acts => '(q, o) ← act a q; '(q, os) ← run acts q; Ret (q, o :: os)
  end.

(** * The abstract queue *)

Abbreviation entry := (string * Z * F)%type.
Inductive acommand := AcAdd (e : entry) | AcCancel (id : string).

(** Commands in order, entries in any order. *)
Record abstract := MkAbs { ach : list acommand; entries : list entry; on : bool; off : bool }.

(** A named entry replaces the one of its name; the others stay. *)
Definition obey (c : acommand) (es : list entry) : list entry :=
  match c with
  | AcAdd e => e :: filter (fun x => e.1.1 = "" \/ x.1.1 <> e.1.1) es
  | AcCancel id => filter (fun x => x.1.1 <> id) es
  end.

Definition post (size : Z) (c : acommand) (b : bool) (s s' : abstract) : Prop :=
  b = (Z.of_nat (length (ach s)) <? size) /\ entries s' = entries s /\ on s' = on s /\ off s' = off s /\
  ach s' = if b then ach s ++ [c] else ach s.

Definition abs_step (size : Z) (a : action) (o : out) (s s' : abstract) : Prop :=
  match a, o with
  | AAdd id at_ (Some f), OSent b => post size (AcAdd (id, at_, f)) b s s'
  | AAdd _ _ None, OSent b => b = false /\ s' = s
  | ACancel id, OSent b => if decide (id = "") then b = false /\ s' = s else post size (AcCancel id) b s s'
  | AStart, ONone => s' = MkAbs (ach s) (entries s) true (off s)
  | AReceive, ONone =>
      if on s && negb (off s) then
        match ach s with
        | [] => s' = s
        | c :: cs => ach s' = cs /\ entries s' ≡ₚ obey c (entries s) /\ on s' = on s /\ off s' = off s
        end
      else s' = s
  | ATick now, OFired l =>
      on s && negb (off s) = true /\ ach s' = ach s /\ on s' = on s /\ off s' = off s /\
      l ++ entries s' ≡ₚ entries s /\ StronglySorted (fun a b => a.1.2 <= b.1.2) l /\
      Forall (fun e => e.1.2 <= now) l /\ Forall (fun e => now < e.1.2) (entries s')
  | ATick now, ONone => on s && negb (off s) = false /\ s' = s
  | ADone, ONone => s' = MkAbs (ach s) (entries s) (on s) (if on s && negb (off s) then true else off s)
  | _, _ => False
  end.

Fixpoint abs_run (size : Z) (acts : list action) (os : list out) (s s' : abstract) : Prop :=
  match acts, os with
  | [], [] => s' = s
  | a :: acts, o :: os => exists s1, abs_step size a o s s1 /\ abs_run size acts os s1 s'
  | _, _ => False
  end.

Definition cview (c : command) : acommand :=
  match c with CmdAdd t => AcAdd (view t) | CmdCancel id => AcCancel id end.

Definition abs (q : Queue) : abstract :=
  MkAbs (map cview (cmdCh q)) (map view (slots (h q))) (started q) (stopped q).

(** * The heap and its index *)

Record ok (hp : IHeap Task) (idx : gmap string Task) : Prop := {
  ok_placed : placed tid hp;
  ok_heap : heap Less (slots hp);
  ok_named : forall t, t ∈ slots hp -> ID t <> "" -> idx !! ID t = Some t;
  ok_idx : forall k t, idx !! k = Some t -> t ∈ slots hp /\ ID t = k /\ k <> ""
}.

Lemma ok_remove hp idx id t : ok hp idx -> idx !! id = Some t ->
  exists hp', hRemove hp (task_index hp t) = Ret (hp', t) /\ ok hp' (delete id idx) /\ t :: slots hp' ≡ₚ slots hp /\
    filter (fun x => ID x <> id) (slots hp) ≡ₚ slots hp'.
Proof.
  intros [Hp Hh Hn Hi] Ht. destruct (Hi _ _ Ht) as ([i Hx]%list_elem_of_lookup_1 & Hid & Hne).
  destruct (iremove tid Less hp i t Hp Hh Hx) as (hp' & Hr & Hp' & Hh' & Hperm). exists hp'.
  unfold task_index. rewrite (Hp _ _ Hx). unfold task_interface. split; [exact Hr|].
  pose proof (placed_rest tid hp t (slots hp')) as Hrest.
  assert (Hoth : forall y, y ∈ slots hp' -> ID y <> id).
  { intros y Hy E. apply (Hrest y Hp Hperm) in Hy as [Hy Hty]. apply Hty.
    assert (idx !! id = Some y) by (rewrite <- E; apply Hn; [done|congruence]). congruence. }
  split; [|split; [exact Hperm|]].
  - split; try done.
    + intros y Hy Hney. pose proof (Hoth y Hy). apply (Hrest y Hp Hperm) in Hy as [Hy _].
      rewrite lookup_delete_ne by done. by apply Hn.
    + intros k y [Hk Hy]%lookup_delete_Some. destruct (Hi _ _ Hy) as (Hin & Hky & Hnk).
      split; [|done]. apply (Hrest y Hp Hperm). split; [done|]. intros E.
      assert (y = t) as -> by (apply (same_ptr tid hp); [done|done|by eapply list_elem_of_lookup_2|done]). congruence.
  - rewrite <- Hperm, filter_cons, decide_False by tauto.
    clear -Hoth. induction (slots hp') as [|y l IH]; [done|]. rewrite filter_cons, decide_True by (apply Hoth; set_solver).
    f_equiv. apply IH. intros z Hz. apply Hoth. set_solver.
Qed.

Lemma ok_push hp idx t : ok hp idx -> tid t ∉ map tid (slots hp) -> (ID t <> "" -> idx !! ID t = None) ->
  exists hp', hPush hp t = Ret hp' /\ ok hp' (if decide (ID t = "") then idx else <[ID t := t]> idx) /\
    slots hp' ≡ₚ t :: slots hp.
Proof.
  intros [Hp Hh Hn Hi] Hf Ht. destruct (ipush tid Less hp t Hp Hf Hh) as (hp' & Hr & Hp' & Hh' & Hperm).
  exists hp'. unfold task_interface. split; [exact Hr|]. split; [|exact Hperm]. split; try done.
  - intros y Hy Hne. rewrite Hperm in Hy. apply elem_of_cons in Hy as [->|Hy].
    + rewrite decide_False by done. apply lookup_insert_eq.
    + destruct (decide (ID t = "")) as [E|E]; [by apply Hn|].
      rewrite lookup_insert_ne; [by apply Hn|]. intros Et. specialize (Hn y Hy Hne). rewrite <- Et, Ht in Hn; done.
  - intros k y Hy. rewrite Hperm. destruct (decide (ID t = "")) as [E|E].
    + destruct (Hi _ _ Hy) as (?&?&?). split; [set_solver|done].
    + apply lookup_insert_Some in Hy as [[<- <-]|[Hne Hy]]; [split; [set_solver|done]|].
      destruct (Hi _ _ Hy) as (?&?&?). split; [set_solver|done].
Qed.

Lemma ok_pop hp idx : ok hp idx -> slots hp <> [] ->
  exists hp' t, hPop hp = Ret (hp', t) /\ ok hp' (if decide (ID t = "") then idx else delete (ID t) idx) /\
    t :: slots hp' ≡ₚ slots hp /\ slots hp !! 0%nat = Some t /\ (forall y, y ∈ slots hp -> ExecuteAt t <= ExecuteAt y).
Proof.
  intros [Hp Hh Hn Hi] Hne. destruct (ipop tid Less hp Hp Hh Hne) as (hp' & t & Hr & Hp' & Hh' & Hperm & Htop).
  exists hp', t. unfold task_interface. split; [exact Hr|]. pose proof (placed_rest tid hp t (slots hp')) as Hrest.
  assert (t ∈ slots hp) as Hin by (by eapply list_elem_of_lookup_2).
  split; [|split; [done|split; [done|]]].
  - split; try done.
    + intros y Hy Hney. apply (Hrest y Hp Hperm) in Hy as [Hy Hty].
      destruct (decide (ID t = "")); [by apply Hn|]. rewrite lookup_delete_ne; [by apply Hn|].
      intros E. apply Hty. pose proof (Hn y Hy Hney) as H1. pose proof (Hn t Hin ltac:(done)). congruence.
    + intros k y Hy. assert (idx !! k = Some y /\ (ID t <> "" -> ID t <> k)) as [Hk Hd].
      { destruct (decide (ID t = "")); [done|]. apply lookup_delete_Some in Hy as [??]. done. }
      destruct (Hi _ _ Hk) as (Hy' & Hid & Hk0). split; [|done]. apply (Hrest y Hp Hperm). split; [done|].
      intros E. assert (y = t) as -> by (by apply (same_ptr tid hp)). apply Hd; congruence.
  - intros y [i Hy]%list_elem_of_lookup_1. pose proof (heap_root Less _ i t y Hh Htop Hy) as H.
    unfold leq, Less in H. apply Z.ltb_ge in H. done.
Qed.

Lemma tick_loop_spec now fuel : forall hp idx fired, ok hp idx -> (length (slots hp) < fuel)%nat ->
  exists hp' idx' l, tick_loop fuel now hp idx fired = Ret (hp', idx', fired ++ l) /\ ok hp' idx' /\
    l ++ slots hp' ≡ₚ slots hp /\ StronglySorted (fun a b => ExecuteAt a <= ExecuteAt b) l /\
    Forall (fun t => ExecuteAt t <= now) l /\ Forall (fun t => now < ExecuteAt t) (slots hp').
Proof.
  induction fuel as [|fuel IH]; intros hp idx fired Hok Hf; [lia|]. cbn [tick_loop].
  change (iLen hp) with (Z.of_nat (length (slots hp))).
  destruct (decide (slots hp = [])) as [Es|Es].
  { rewrite Es. exists hp, idx, []. rewrite app_nil_r, Es. split_and!; try done; constructor. }
  destruct (ok_pop hp idx Hok Es) as (hp1 & t & Hpop & Hok1 & Hperm & Htop & Hmin).
  assert (0 < length (slots hp))%nat as Hpos by (destruct (slots hp); [done|simpl; lia]).
  rewrite (proj2 (Z.ltb_lt 0 _)) by lia. cbn [negb]. change 0 with (Z.of_nat 0) at 1.
  rewrite (index_lookup _ 0 t Htop). cbn [mbind go_bind]. destruct (Z.ltb_spec now (ExecuteAt t)) as [Hlt|Hge].
  - exists hp, idx, []. rewrite app_nil_r. split_and!; try done; try constructor.
    rewrite Forall_forall. intros y Hy. pose proof (Hmin y Hy). lia.
  - rewrite Hpop. cbn [mbind go_bind].
    destruct (IH hp1 _ (fired ++ [t]) Hok1) as (hp' & idx' & l & -> & Hok' & Hl & Hs & Hd & Hr).
    { apply Permutation_length in Hperm. simpl in Hperm. lia. }
    exists hp', idx', (t :: l). rewrite <- app_assoc. split; [done|]. split; [done|].
    split; [by rewrite <- app_comm_cons, Hl|]. split; [|split; [by constructor|done]].
    constructor; [done|]. rewrite Forall_forall. intros y Hy. apply Hmin. rewrite <- Hperm, <- Hl. set_solver.
Qed.

(** * The refinement *)

(** The pointers a command brings. *)
Definition brings (c : command) : list nat := match c with CmdAdd t => [tid t] | CmdCancel _ => [] end.

Record inv_q (q : Queue) : Prop := {
  q_ok : ok (h q) (idIndex q);
  q_fresh : NoDup (concat (map brings (cmdCh q)) ++ map tid (slots (h q)));
  q_old : Forall (fun i => (i < next q)%nat) (concat (map brings (cmdCh q)) ++ map tid (slots (h q)));
  q_cancels : Forall (fun c => match c with CmdCancel id => id <> "" | CmdAdd _ => True end) (cmdCh q);
  q_pending : stopped q = false -> pending q = Z.of_nat (length (slots (h q)))
}.

Lemma obey_add t (l : list Task) : obey (AcAdd (view t)) (map view l) =
  view t :: map view (filter (fun x => ID t = "" \/ ID x <> ID t) l).
Proof.
  cbn [obey]. f_equal. induction l as [|x l IH]; [done|]. cbn [map]. rewrite !filter_cons, IH.
  cbn [view fst]. by destruct (decide (ID t = "" \/ ID x <> ID t)).
Qed.

Lemma obey_cancel id (l : list Task) : obey (AcCancel id) (map view l) = map view (filter (fun x => ID x <> id) l).
Proof.
  cbn [obey]. induction l as [|x l IH]; [done|]. cbn [map]. rewrite !filter_cons, IH.
  cbn [view fst]. by destruct (decide (ID x <> id)).
Qed.

(** What the loop does first for a named task: the old task of the name is taken out. *)
Lemma replace_named t q : ok (h q) (idIndex q) -> ID t <> "" ->
  exists hp idx, match idIndex q !! ID t with
    | Some old => '(hp, _) ← hRemove (h q) (task_index (h q) old); Ret (hp, delete (ID t) (idIndex q))
    | None => Ret (h q, idIndex q)
    end = Ret (hp, idx) /\ ok hp idx /\ idx !! ID t = None /\
    slots hp ≡ₚ filter (fun x => ID x <> ID t) (slots (h q)).
Proof.
  intros Hok Hne. destruct (idIndex q !! ID t) as [old|] eqn:E.
  - destruct (ok_remove _ _ _ _ Hok E) as (hp & -> & Hok' & _ & Hf). cbn [mbind go_bind].
    exists hp, (delete (ID t) (idIndex q)). split; [done|]. split; [done|]. split; [apply lookup_delete_eq|]. by symmetry.
  - exists (h q), (idIndex q). split; [done|]. split; [done|]. split; [done|]. symmetry.
    rewrite filter_every; [done|]. intros x Hx Ex.
    pose proof (ok_named _ _ Hok x Hx) as Hn. rewrite Ex, E in Hn. by specialize (Hn Hne).
Qed.

Lemma submseteq_filter_tids (P : Task -> Prop) `{!forall x, Decision (P x)} l l' :
  l' ≡ₚ filter P l -> map tid l' ⊆+ map tid l.
Proof. intros ->. apply fmap_submseteq, sublist_submseteq, sublist_filter. Qed.

Lemma handle_add t q : ok (h q) (idIndex q) -> tid t ∉ map tid (slots (h q)) ->
  exists hp idx, handle (CmdAdd t) q = Ret (set_loop q hp idx (Z.of_nat (length (slots hp)))) /\ ok hp idx /\
    map view (slots hp) ≡ₚ obey (AcAdd (view t)) (map view (slots (h q))) /\
    map tid (slots hp) ⊆+ tid t :: map tid (slots (h q)).
Proof.
  intros Hok Hfr. cbn [handle]. rewrite obey_add. destruct (decide (ID t = "")) as [E|E].
  - destruct (ok_push _ _ t Hok Hfr ltac:(done)) as (hp & Hp & Hok' & Hperm). rewrite decide_True in Hok' by done.
    cbn [mbind go_bind]. rewrite Hp. cbn [mbind go_bind]. exists hp, (idIndex q). split; [done|]. split; [done|].
    rewrite filter_every by (intros; by left). rewrite Hperm. done.
  - destruct (replace_named t q Hok E) as (hp0 & idx0 & -> & Hok0 & Hnone & Hf). cbn [mbind go_bind].
    assert (tid t ∉ map tid (slots hp0)) as Hfr0.
    { intros Hin. apply Hfr. pose proof (submseteq_filter_tids _ _ _ Hf) as Hs. by eapply elem_of_submseteq. }
    destruct (ok_push _ _ t Hok0 Hfr0 ltac:(done)) as (hp & -> & Hok' & Hperm). rewrite decide_False in Hok' by done.
    cbn [mbind go_bind]. exists hp, (<[ID t := t]> idx0). split; [done|]. split; [done|]. rewrite Hperm. cbn [map]. split.
    + f_equiv. rewrite Hf. f_equiv. rewrite (list_filter_iff (fun x => ID t = "" \/ ID x <> ID t) (fun x => ID x <> ID t)); [done|]. intros x. tauto.
    + apply submseteq_skip. by eapply submseteq_filter_tids.
Qed.

Lemma handle_cancel id q : ok (h q) (idIndex q) -> id <> "" ->
  exists hp idx p, handle (CmdCancel id) q = Ret (set_loop q hp idx p) /\ ok hp idx /\
    map view (slots hp) ≡ₚ obey (AcCancel id) (map view (slots (h q))) /\
    map tid (slots hp) ⊆+ map tid (slots (h q)) /\
    (pending q = Z.of_nat (length (slots (h q))) -> p = Z.of_nat (length (slots hp))).
Proof.
  intros Hok Hne. cbn [handle]. rewrite obey_cancel. destruct (idIndex q !! id) as [t|] eqn:E.
  - destruct (ok_remove _ _ _ _ Hok E) as (hp & -> & Hok' & Hperm & Hf). cbn [mbind go_bind].
    exists hp, (delete id (idIndex q)), (Z.of_nat (length (slots hp))). split; [done|]. split; [done|].
    split; [by rewrite Hf|]. split; [|done]. rewrite <- Hperm. cbn [map]. by apply submseteq_cons.
  - exists (h q), (idIndex q), (pending q). split; [by destruct q|]. split; [done|]. split; [|done].
    rewrite filter_every; [done|]. intros x Hx Ex. pose proof (ok_named _ _ Hok x Hx) as Hn. rewrite Ex, E in Hn. by specialize (Hn Hne).
Qed.

Definition all_tids (q : Queue) : list nat := concat (map brings (cmdCh q)) ++ map tid (slots (h q)).

Lemma NoDup_sub {A} (l l' : list A) : l ⊆+ l' -> NoDup l' -> NoDup l.
Proof.
  intros (k & Hp)%submseteq_Permutation Hnd. rewrite Hp in Hnd. by apply NoDup_app in Hnd as (? & _).
Qed.

(** What one action keeps: fewer pointers, or a new one. *)
Lemma inv_sub q q' : inv_q q -> ok (h q') (idIndex q') -> all_tids q' ⊆+ all_tids q -> next q' = next q ->
  Forall (fun c => match c with CmdCancel id => id <> "" | CmdAdd _ => True end) (cmdCh q') ->
  (stopped q' = false -> pending q' = Z.of_nat (length (slots (h q')))) -> inv_q q'.
Proof.
  intros [Hok Hnd Ho _ Hp] Hok' Hs Hn Hc Hp'. split; [done|by eapply NoDup_sub| |done|done].
  rewrite Hn. rewrite Forall_forall in Ho |- *. intros i Hi. apply Ho. by eapply elem_of_submseteq.
Qed.

Lemma send_spec c q : let '(q', b) := send c q in
  b = (Z.of_nat (length (cmdCh q)) <? chanSize q) /\ chanSize q' = chanSize q /\
  q' = MkQueue (chanSize q) (if b then cmdCh q ++ [c] else cmdCh q) (pending q) (h q) (idIndex q) (next q) (started q) (stopped q).
Proof. unfold send. destruct (_ <? _); (split; [done|]); by destruct q. Qed.

Lemma post_abs c q q' b n : b = (Z.of_nat (length (cmdCh q)) <? chanSize q) ->
  q' = MkQueue (chanSize q) (if b then cmdCh q ++ [c] else cmdCh q) (pending q) (h q) (idIndex q) n (started q) (stopped q) ->
  post (chanSize q) (cview c) b (abs q) (abs q').
Proof.
  intros Hb ->. unfold post, abs. cbn [ach entries on off cmdCh h started stopped].
  rewrite length_map. split; [done|]. repeat (split; [done|]). destruct b; [by rewrite map_app|done].
Qed.

Lemma AddAt_inv id at_ f q : inv_q q -> let '(q', b) := AddAt id at_ f q in
  inv_q q' /\ abs_step (chanSize q) (AAdd id at_ f) (OSent b) (abs q) (abs q') /\ chanSize q' = chanSize q.
Proof.
  intros Hq. unfold AddAt. destruct f as [f|]; [|done]. set (t := MkTask (next q) id at_ f).
  pose proof (send_spec (CmdAdd t) (MkQueue (chanSize q) (cmdCh q) (pending q) (h q) (idIndex q) (S (next q)) (started q) (stopped q))) as H.
  destruct (send _ _) as [q' b]. cbn [cmdCh chanSize pending h idIndex next started stopped] in H. destruct H as (Hb & Hc & Hq').
  split; [|split; [|done]].
  - destruct Hq as [Hok Hnd Ho Hcs Hp]. rewrite Hq'. split; cbn [cmdCh h idIndex next stopped pending]; [done| | | |done].
    + destruct b; [|done]. rewrite map_app, concat_app. cbn. rewrite <- app_assoc, Permutation_app_swap_app. cbn.
      constructor; [|done]. intros Hi. rewrite Forall_forall in Ho. apply Ho in Hi. lia.
    + destruct b; [rewrite map_app, concat_app; cbn; rewrite <- app_assoc, Permutation_app_swap_app; cbn; constructor; [lia|]|];
        (eapply Forall_impl; [exact Ho|]; simpl; lia).
    + destruct b; [|done]. apply Forall_app. split; [done|]. by repeat constructor.
  - by apply (post_abs (CmdAdd t) q q' b (S (next q))).
Qed.

Lemma cancel_kept id q : inv_q q -> let '(q', b) := Cancel id q in
  inv_q q' /\ abs_step (chanSize q) (ACancel id) (OSent b) (abs q) (abs q') /\ chanSize q' = chanSize q.
Proof.
  intros Hq. unfold Cancel, abs_step. destruct (decide (id = "")) as [->|Hne]; [done|].
  pose proof (send_spec (CmdCancel id) q) as H. destruct (send (CmdCancel id) q) as [q' b]. destruct H as (Hb & Hc & Hq').
  split; [|split; [|done]].
  - apply (inv_sub q); rewrite ?Hq'; try done; [apply Hq| | |apply Hq].
    + unfold all_tids. cbn [cmdCh h]. destruct b; [|done]. rewrite map_app, concat_app. cbn. by rewrite app_nil_r.
    + cbn [cmdCh]. destruct b; [|apply Hq]. apply Forall_app. split; [apply Hq|]. by repeat constructor.
  - by apply (post_abs (CmdCancel id) q q' b (next q)).
Qed.

Lemma receive_spec q : inv_q q -> running q = true -> exists q', receive q = Ret q' /\ inv_q q' /\
  abs_step (chanSize q) AReceive ONone (abs q) (abs q') /\ chanSize q' = chanSize q.
Proof.
  intros Hq Hr. pose proof Hq as [Hok Hnd Ho Hcs Hp]. unfold running in Hr. unfold receive, abs_step.
  cbn [on off ach abs]. rewrite Hr. apply andb_true_iff in Hr as [_ Hst%negb_true_iff].
  destruct (cmdCh q) as [|c cs] eqn:Ec; [by exists q|]. cbn [map].
  set (q0 := MkQueue (chanSize q) cs (pending q) (h q) (idIndex q) (next q) (started q) (stopped q)).
  cbn [map concat] in Hnd. rewrite <- app_assoc in Hnd. apply Forall_cons in Hcs as [Hc Hcs].
  assert (Hsub : forall hp, map tid (slots hp) ⊆+ brings c ++ map tid (slots (h q)) ->
    concat (map brings cs) ++ map tid (slots hp) ⊆+ all_tids q).
  { intros hp Hs. unfold all_tids. rewrite Ec. cbn [map concat]. rewrite <- app_assoc, Permutation_app_swap_app.
    by apply submseteq_app. }
  destruct c as [t|id].
  - assert (tid t ∉ map tid (slots (h q0))) as Hfr by (cbn in Hnd; apply NoDup_cons in Hnd as [Hn _]; set_solver).
    destruct (handle_add t q0 Hok Hfr) as (hp & idx & -> & Hok' & Hv & Hs). eexists. split; [done|]. split; [|split; done].
    apply (inv_sub q); try done. by apply Hsub.
  - destruct (handle_cancel id q0 Hok Hc) as (hp & idx & p & -> & Hok' & Hv & Hs & Hpd). eexists. split; [done|].
    split; [|split; done]. apply (inv_sub q); try done; [by apply Hsub|]. intros _. by apply Hpd, Hp.
Qed.

Lemma StronglySorted_view l : StronglySorted (fun a b => ExecuteAt a <= ExecuteAt b) l ->
  StronglySorted (fun a b : entry => a.1.2 <= b.1.2) (map view l).
Proof. induction 1 as [|t l Hs IH Ht]; constructor; [done|]. by apply Forall_map. Qed.

Lemma tick_spec now q : inv_q q -> running q = true -> exists q' l, tick now q = Ret (q', l) /\ inv_q q' /\
  abs_step (chanSize q) (ATick now) (OFired (map view l)) (abs q) (abs q') /\ chanSize q' = chanSize q.
Proof.
  intros Hq Hr. unfold tick.
  destruct (tick_loop_spec now (S (length (slots (h q)))) (h q) (idIndex q) [] (q_ok q Hq) ltac:(lia))
    as (hp & idx & l & -> & Hok & Hl & Hs & Hd & Hrest). cbn [mbind go_bind app].
  exists (set_loop q hp idx (Z.of_nat (length (slots hp)))), l. split; [done|].
  split; [|split; [|done]].
  - apply (inv_sub q); try done; [|apply Hq]. unfold all_tids. cbn [cmdCh h set_loop].
    apply submseteq_app; [done|]. rewrite <- Hl, map_app. apply submseteq_inserts_l. done.
  - unfold abs_step. cbn [on off ach entries abs cmdCh h started stopped set_loop]. split; [exact Hr|].
    repeat (split; [done|]). rewrite <- map_app, Hl. split; [done|].
    split; [by apply StronglySorted_view|]. split; by apply Forall_map.
Qed.

Lemma act_obeys a q : inv_q q -> exists q' o, act a q = Ret (q', o) /\ inv_q q' /\
  abs_step (chanSize q) a o (abs q) (abs q') /\ chanSize q' = chanSize q.
Proof.
  intros Hq. destruct a as [id at_ f|id| | |now|]; cbn [act].
  - pose proof (AddAt_inv id at_ f q Hq) as H. destruct (AddAt id at_ f q) as [q' b]. by exists q', (OSent b).
  - pose proof (cancel_kept id q Hq) as H. destruct (Cancel id q) as [q' b]. by exists q', (OSent b).
  - eexists _, _. split; [done|]. split; [by destruct Hq|]. done.
  - destruct (running q) eqn:Hr.
    + destruct (receive_spec q Hq Hr) as (q' & -> & H). by exists q', ONone.
    + exists q, ONone. split; [done|]. split; [done|]. split; [|done]. unfold abs_step. cbn [on off abs].
      unfold running in Hr. by rewrite Hr.
  - destruct (running q) eqn:Hr.
    + destruct (tick_spec now q Hq Hr) as (q' & l & -> & H). by exists q', (OFired (map view l)).
    + exists q, ONone. split; [done|]. split; [done|]. by split.
  - destruct (running q) eqn:Hr; eexists _, _; (split; [done|]).
    + split; [destruct Hq; by split|]. split; [|done]. unfold abs_step, abs. cbn. unfold running in Hr. by rewrite Hr.
    + split; [done|]. split; [|done]. unfold abs_step, abs. cbn. unfold running in Hr. by rewrite Hr.
Qed.

(** The queue keeps a collection of timed callbacks in which a name occurs once: whatever calls
    and turns of the loop happen in any order, no step panics; a call succeeds exactly when the
    channel has room; a command, taken in order, adds an entry in place of the one of its name or
    removes the entry of a name, and leaves the others; a tick fires exactly the entries due, in
    the order of their times; and [Pending] counts the entries of a running queue. *)
Theorem timerqueue_refines opts acts : exists q os, run acts (New opts) = Ret (q, os) /\
  abs_run (chanSize (New opts)) acts os (MkAbs [] [] false false) (abs q) /\
  (stopped q = false -> Pending q = Z.of_nat (length (entries (abs q)))).
Proof.
  assert (forall q, inv_q q -> exists q' os, run acts q = Ret (q', os) /\ inv_q q' /\
    abs_run (chanSize q) acts os (abs q) (abs q')) as H.
  { induction acts as [|a acts IH]; intros q Hq; cbn [run]; [by exists q, []|].
    destruct (act_obeys a q Hq) as (q1 & o & -> & H1 & Hstep & Hc). cbn [mbind go_bind].
    destruct (IH q1 H1) as (q2 & os & -> & H2 & Hrun). cbn [mbind go_bind]. exists q2, (o :: os).
    split; [done|]. split; [done|]. exists (abs q1). rewrite Hc in Hrun. done. }
  destruct (H (New opts)) as (q & os & Hr & Hq & Hrun).
  { split; cbn; try done; [|constructor]. split; cbn; try done; set_solver. }
  exists q, os. split; [done|]. split; [done|]. intros Hst. unfold Pending. rewrite (q_pending q Hq Hst).
  unfold abs. cbn [entries]. by rewrite length_map.
Qed.
End timerqueue.

(** A queue that has not been started accepts a task. *)
Example add_before_start : (AddAt "a" 5 (Some tt) (New [])).2 = true /\ running (AddAt "a" 5 (Some tt) (New [])).1 = false.
Proof. by split. Qed.
