(* ===== verification/Leaderboard.v ===== *)
(** The rank cache ([pkg/game/leaderboard/leaderboard.go]): per board a heap of [Heap] on a plain
    slice with an index of the owners, refined to a map from owners to scores. *)
From Stdlib Require Import ZArith Lia Bool Sorted Ascii DecimalString DecimalPos DecimalZ.
From stdpp Require Import base numbers strings list gmap fin_maps sets sorting.
From S2P Require Import Prelude Priority Heap.

Open Scope Z_scope.

Inductive SortOrder := SortAscending | SortDescending.

Record Record_ := MkRecord { OwnerID : string; Score : Z; Subscore : Z }.
Record item := MkItem { ownerID : string; score : Z; subscore : Z }.

#[export] Instance item_eq_dec : EqDecision item.
Proof. solve_decision. Defined.

Definition Less (order : SortOrder) (a b : item) : bool :=
  match order with
  | SortAscending =>
      if negb (score a =? score b) then score a <? score b else subscore a <? subscore b
  | SortDescending =>
      if negb (score a =? score b) then score b <? score a else subscore b <? subscore a
  end.

Record rankEntry := MkEntry { order : SortOrder; byOwner : gmap string Z; items : list item }.

Record RankCache := MkCache { caches : gmap string rankEntry; blacklist : gset string; blacklistAll : bool }.

Definition New (bl : list string) : RankCache :=
  if bool_decide (bl = ["*"]) then MkCache ∅ ∅ true else MkCache ∅ (list_to_set bl) false.

Definition FormatInt (z : Z) : string := NilZero.string_of_int (Z.to_int z).

Definition cacheKey (leaderboardID : string) (expiry : Z) : string :=
  (leaderboardID ++ "/" ++ FormatInt expiry)%string.

Definition item_of (r : Record_) : item := MkItem (OwnerID r) (Score r) (Subscore r).
Definition record_of (it : item) : Record_ := MkRecord (ownerID it) (score it) (subscore it).

(** The loop that writes the position of every item into the index. *)
Fixpoint reindex (i : Z) (its : list item) (m : gmap string Z) : gmap string Z :=
  match its with [] => m | it :: its => reindex (i + 1) its (<[ownerID it := i]> m) end.

Definition set_cache (r : RankCache) (k : string) (e : rankEntry) : RankCache :=
  MkCache (<[k := e]> (caches r)) (blacklist r) (blacklistAll r).

(** Not cached: disabled, or on the black list. *)
Definition skipped (r : RankCache) (id : string) (enable : bool) : bool :=
  negb enable || blacklistAll r || bool_decide (id ∈ blacklist r).

Definition Fill (id : string) (expiry : Z) (o : SortOrder) (records : list Record_) (enable : bool) (r : RankCache)
    : go (RankCache * Z) :=
  if skipped r id enable then Ret (r, 0)
  else
    let its := map item_of records in
    its' ← hInit (Interface0 := slice_interface (Less o)) its;
    let e := MkEntry o (reindex 0 its' (reindex 0 its ∅)) its' in
    Ret (set_cache r (cacheKey id expiry) e, Z.of_nat (length records)).

Fixpoint rank_loop (o : SortOrder) (owner : string) (target : item) (its : list item) (rank : Z) : Z :=
  match its with
  | [] => rank
  | it :: its =>
      rank_loop o owner target its
        (if bool_decide (ownerID it = owner) then rank
         else
           match o with
           | SortAscending =>
               if (score it <? score target) || ((score it =? score target) && (subscore it <? subscore target))
               then rank + 1 else rank
           | SortDescending =>
               if (score target <? score it) || ((score it =? score target) && (subscore target <? subscore it))
               then rank + 1 else rank
           end)
  end.

Definition rankLocked (e : rankEntry) (owner : string) : go Z :=
  match byOwner e !! owner with
  | None => Ret (-1)
  | Some idx => target ← index (items e) idx; Ret (rank_loop (order e) owner target (items e) 1)
  end.

Definition Insert (id : string) (expiry : Z) (o : SortOrder) (rec : Record_) (enable : bool) (r : RankCache)
    : go (RankCache * Z) :=
  if skipped r id enable then Ret (r, -1)
  else
    let e := default (MkEntry o ∅ []) (caches r !! cacheKey id expiry) in
    let it := item_of rec in
    its ← match byOwner e !! OwnerID rec with
          | Some idx =>
              its ← set_index (items e) idx it;
              hFix (Interface0 := slice_interface (Less (order e))) its idx
          | None => hPush (Interface0 := slice_interface (Less (order e))) (items e) it
          end;
    let e := MkEntry (order e) (reindex 0 its (byOwner e)) its in
    rank ← rankLocked e (OwnerID rec);
    Ret (set_cache r (cacheKey id expiry) e, rank).

Definition Delete (id : string) (expiry : Z) (owner : string) (r : RankCache) : go (RankCache * bool) :=
  match caches r !! cacheKey id expiry with
  | None => Ret (r, false)
  | Some e =>
      match byOwner e !! owner with
      | None => Ret (r, false)
      | Some idx =>
          '(its, _) ← hRemove (Interface0 := slice_interface (Less (order e))) (items e) idx;
          let e := MkEntry (order e) (reindex 0 its (delete owner (byOwner e))) its in
          Ret (set_cache r (cacheKey id expiry) e, true)
      end
  end.

Definition Get (id : string) (expiry : Z) (owner : string) (r : RankCache) : go Z :=
  match caches r !! cacheKey id expiry with
  | None => Ret (-1)
  | Some e => rankLocked e owner
  end.

(** [sort.Slice] of a copy of the items: the order among equals is arbitrary. *)
Definition sorter := list item -> list item.

Definition GetByRank (sort : sorter) (id : string) (expiry rank : Z) (r : RankCache) : go (option Record_) :=
  match caches r !! cacheKey id expiry with
  | None => Ret None
  | Some e =>
      if (rank <? 1) || (Z.of_nat (length (items e)) <? rank) then Ret None
      else it ← index (sort (items e)) (rank - 1); Ret (Some (record_of it))
  end.

Definition TopN (sort : sorter) (id : string) (expiry n : Z) (r : RankCache) : go (list Record_) :=
  match caches r !! cacheKey id expiry with
  | None => Ret []
  | Some e =>
      if n <=? 0 then Ret []
      else
        let sorted := sort (items e) in
        let n := if Z.of_nat (length sorted) <? n then Z.of_nat (length sorted) else n in
        mapG (fun i => it ← index sorted i; Ret (record_of it)) (seqZ 0 n)
  end.

Definition Around (sort : sorter) (id : string) (expiry : Z) (owner : string) (around : Z) (r : RankCache)
    : go (list Record_) :=
  match caches r !! cacheKey id expiry with
  | None => Ret []
  | Some e =>
      myRank ← rankLocked e owner;
      if myRank <? 1 then Ret []
      else
        let start := Z.max (wrap64 (myRank - around)) 1 in
        let end_ := Z.min (wrap64 (myRank + around)) (Z.of_nat (length (items e))) in
        let sorted := sort (items e) in
        if end_ - start + 1 <? 0 then Panic "runtime error: makeslice: cap out of range"
        else mapG (fun i => it ← index sorted i; Ret (record_of it)) (seqZ (start - 1) (end_ - (start - 1)))
  end.

Definition Size (id : string) (expiry : Z) (r : RankCache) : Z :=
  match caches r !! cacheKey id expiry with
  | None => 0
  | Some e => Z.of_nat (length (items e))
  end.

Definition DeleteLeaderboard (id : string) (expiry : Z) (r : RankCache) : RankCache * bool :=
  let key := cacheKey id expiry in
  match caches r !! key with
  | Some _ => (MkCache (delete key (caches r)) (blacklist r) (blacklistAll r), true)
  | None => (r, false)
  end.

(** * Boards as maps *)

Definition mk (kv : string * (Z * Z)) : item := MkItem kv.1 kv.2.1 kv.2.2.
Definition items_of (m : gmap string (Z * Z)) : list item := map mk (map_to_list m).

(** One more than the number of owners strictly ahead. *)
Definition rank_of (o : SortOrder) (m : gmap string (Z * Z)) (owner : string) : Z :=
  match m !! owner with
  | None => -1
  | Some v => 1 + Z.of_nat (size (filter (fun kv => Less o (mk kv) (mk (owner, v)) = true) m))
  end.

#[export] Instance Less_strict o : StrictWeak (Less o).
Proof.
  split; intros *; unfold Less; destruct o;
    repeat match goal with |- context [Z.eqb ?x ?y] => destruct (Z.eqb_spec x y) end; cbn [negb];
    rewrite ?Z.ltb_lt, ?Z.ltb_ge, ?Z.ltb_irrefl; try done; lia.
Qed.

(** Neither of two items is ahead of the other when both scores agree. *)
Lemma tie_scores o a b : Less o a b = false -> Less o b a = false -> score a = score b /\ subscore a = subscore b.
Proof.
  unfold Less. destruct o; destruct (Z.eqb_spec (score a) (score b)), (Z.eqb_spec (score b) (score a));
    cbn [negb]; rewrite ?Z.ltb_ge; lia.
Qed.

(** The index holds the position of every owner and no other. *)
Definition indexed (b : gmap string Z) (its : list item) : Prop := forall o i,
  b !! o = Some i <-> exists n it, i = Z.of_nat n /\ its !! n = Some it /\ ownerID it = o.

Lemma reindex_lookup its : forall i b, NoDup (map ownerID its) ->
  (forall n it, its !! n = Some it -> reindex i its b !! ownerID it = Some (i + Z.of_nat n)) /\
  (forall o, o ∉ map ownerID its -> reindex i its b !! o = b !! o).
Proof.
  induction its as [|x its IH]; intros i b Hnd; cbn [reindex].
  { split; [intros n it Hn; by rewrite lookup_nil in Hn|done]. }
  cbn [map] in Hnd. apply NoDup_cons in Hnd as [Hx Hnd]. destruct (IH (i + 1) (<[ownerID x := i]> b) Hnd) as [H1 H2]. split.
  - intros [|n] it Hn; simpl in Hn.
    + injection Hn as <-. rewrite (H2 _ Hx), lookup_insert_eq. f_equal. lia.
    + rewrite (H1 _ _ Hn). f_equal. lia.
  - intros o Ho. cbn [map] in Ho. apply not_elem_of_cons in Ho as [Ho1 Ho2]. rewrite H2 by done. by rewrite lookup_insert_ne.
Qed.

Lemma reindex_indexed its b : NoDup (map ownerID its) -> (forall o, o ∉ map ownerID its -> b !! o = None) ->
  indexed (reindex 0 its b) its.
Proof.
  intros Hnd Hb o i. destruct (reindex_lookup its 0 b Hnd) as [H1 H2]. split.
  - intros Ho. destruct (decide (o ∈ map ownerID its)) as [Hin|Hin]; [|rewrite H2, Hb in Ho by done; done].
    apply list_elem_of_fmap in Hin as (it & -> & Hit). apply list_elem_of_lookup_1 in Hit as [n Hn].
    rewrite (H1 _ _ Hn) in Ho. injection Ho as <-. exists n, it. done.
  - intros (n & it & -> & Hn & <-). by rewrite (H1 _ _ Hn).
Qed.

(** An entry stands for a map. *)
Record good (e : rankEntry) (m : gmap string (Z * Z)) : Prop := {
  g_items : items e ≡ₚ items_of m;
  g_index : indexed (byOwner e) (items e)
}.

Lemma items_of_owners m : map ownerID (items_of m) = (map_to_list m).*1.
Proof. unfold items_of. rewrite map_map. done. Qed.

Lemma owners_NoDup its m : its ≡ₚ items_of m -> NoDup (map ownerID its).
Proof. intros ->. rewrite items_of_owners. apply NoDup_fst_map_to_list. Qed.

Lemma in_items_of m it : it ∈ items_of m <-> m !! ownerID it = Some (score it, subscore it).
Proof.
  unfold items_of. rewrite list_elem_of_fmap. split.
  - intros ([k [s ss]] & -> & Hk%elem_of_map_to_list). done.
  - intros Hk. exists (ownerID it, (score it, subscore it)). split; [by destruct it|]. by apply elem_of_map_to_list.
Qed.

Lemma items_of_insert m k v : m !! k = None -> items_of (<[k := v]> m) ≡ₚ mk (k, v) :: items_of m.
Proof. intros Hk. unfold items_of. by rewrite map_to_list_insert by done. Qed.

Lemma items_of_delete m it : it ∈ items_of m -> items_of m ≡ₚ it :: items_of (delete (ownerID it) m).
Proof.
  intros Hin%in_items_of. rewrite <- (insert_delete_id m (ownerID it) _ Hin) at 1.
  rewrite items_of_insert by apply lookup_delete_eq. by destruct it.
Qed.

Lemma absent_owner its m o : its ≡ₚ items_of m -> o ∉ map ownerID its <-> m !! o = None.
Proof.
  intros Hp. rewrite Hp, items_of_owners. split.
  - intros Hn. destruct (m !! o) as [v|] eqn:E; [|done]. exfalso. apply Hn. apply list_elem_of_fmap.
    exists (o, v). split; [done|]. by apply elem_of_map_to_list.
  - intros Hn Hin. apply list_elem_of_fmap in Hin as ([k v] & -> & Hk%elem_of_map_to_list). simpl in Hn. congruence.
Qed.

(** Looking an owner up. *)
Lemma good_lookup e m owner : good e m ->
  match byOwner e !! owner with
  | None => m !! owner = None
  | Some i => exists n it, i = Z.of_nat n /\ items e !! n = Some it /\ ownerID it = owner /\
      m !! owner = Some (score it, subscore it)
  end.
Proof.
  intros [Hp Hi]. destruct (byOwner e !! owner) as [i|] eqn:E.
  - apply Hi in E as (n & it & -> & Hn & <-). exists n, it. split; [done|]. split; [done|]. split; [done|].
    apply in_items_of. rewrite <- Hp. by eapply list_elem_of_lookup_2.
  - apply (absent_owner _ _ _ Hp). intros Hin. apply list_elem_of_fmap in Hin as (it & -> & Hit).
    apply list_elem_of_lookup_1 in Hit as [n Hn]. assert (byOwner e !! ownerID it = Some (Z.of_nat n)); [|congruence].
    apply Hi. by exists n, it.
Qed.

(** * Ranks *)

Lemma rank_loop_count o owner target its : forall rank,
  (forall it, it ∈ its -> ownerID it = owner -> Less o it target = false) ->
  rank_loop o owner target its rank = rank + Z.of_nat (length (filter (fun it => Less o it target = true) its)).
Proof.
  induction its as [|it its IH]; intros rank Hown; cbn [rank_loop]; [cbn; lia|].
  rewrite IH by (intros x Hx; apply Hown; set_solver). rewrite filter_cons.
  assert (match o with
    | SortAscending => (score it <? score target) || ((score it =? score target) && (subscore it <? subscore target))
    | SortDescending => (score target <? score it) || ((score it =? score target) && (subscore target <? subscore it))
    end = Less o it target) as Hc.
  { unfold Less. destruct o, (Z.eqb_spec (score it) (score target)); cbn [negb andb]; rewrite ?orb_false_r; try done.
    - rewrite (proj2 (Z.ltb_ge (score it) _)) by lia. done.
    - rewrite (proj2 (Z.ltb_ge (score target) _)) by lia. done. }
  case_bool_decide as E.
  - rewrite (Hown it ltac:(set_solver) E). destruct (decide (false = true)); [done|lia].
  - destruct o; rewrite Hc; destruct (Less _ it target); [destruct (decide (true = true))|destruct (decide (false = true))|
      destruct (decide (true = true))|destruct (decide (false = true))]; try done; cbn [length]; lia.
Qed.

Lemma size_filter_items o m t : size (filter (fun kv => Less o (mk kv) t = true) m) =
  length (filter (fun it => Less o it t = true) (items_of m)).
Proof.
  unfold items_of. induction m as [|k v m Hk IH] using map_ind; [done|].
  rewrite (map_to_list_insert m k v Hk). cbn [map]. rewrite filter_cons, map_filter_insert.
  destruct (decide (Less o (mk (k, v)) t = true)) as [E|E].
  - rewrite map_size_insert_None by (by apply map_lookup_filter_None_2; left). by rewrite IH.
  - rewrite delete_id by done. done.
Qed.

Lemma rankLocked_spec e m owner : good e m -> rankLocked e owner = Ret (rank_of (order e) m owner).
Proof.
  intros Hg. unfold rankLocked, rank_of. pose proof (good_lookup e m owner Hg) as Hl.
  destruct (byOwner e !! owner) as [i|]; [|by rewrite Hl].
  destruct Hl as (n & it & -> & Hn & <- & ->). rewrite (index_lookup _ _ _ Hn). cbn [mbind go_bind].
  assert (mk (ownerID it, (score it, subscore it)) = it) as -> by (by destruct it).
  rewrite rank_loop_count.
  - by rewrite size_filter_items, (g_items e m Hg).
  - intros x Hx E. pose proof (owners_NoDup _ _ (g_items e m Hg)) as Hnd.
    apply list_elem_of_lookup_1 in Hx as [k Hk]. assert (k = n) as ->.
    { apply (NoDup_lookup (map ownerID (items e)) k n (ownerID it)); [done|..]; rewrite list_lookup_fmap.
      - by rewrite Hk, <- E.
      - by rewrite Hn. }
    assert (x = it) as -> by congruence. apply less_irrefl.
Qed.

(** * The operations on an entry *)

Lemma slice_init o (its : list item) : exists l, hInit (Interface0 := slice_interface (Less o)) its = Ret l /\ l ≡ₚ its.
Proof. destruct (hInit_perm (Lawful0 := slice_lawful (Less o)) its Logic.I) as (l & ? & _ & ?). by exists l. Qed.
Lemma slice_push o (its : list item) it :
  exists l, hPush (Interface0 := slice_interface (Less o)) its it = Ret l /\ l ≡ₚ it :: its.
Proof. destruct (hPush_perm (Lawful0 := slice_lawful (Less o)) its it Logic.I Logic.I) as (l & ? & _ & ?). by exists l. Qed.
Lemma slice_fix o (its : list item) n : (n < length its)%nat ->
  exists l, hFix (Interface0 := slice_interface (Less o)) its (Z.of_nat n) = Ret l /\ l ≡ₚ its.
Proof. intros Hn. destruct (hFix_perm (Lawful0 := slice_lawful (Less o)) its n Logic.I Hn) as (l & ? & _ & ?). by exists l. Qed.
Lemma slice_remove o (its : list item) n it : its !! n = Some it ->
  exists l, hRemove (Interface0 := slice_interface (Less o)) its (Z.of_nat n) = Ret (l, it) /\ it :: l ≡ₚ its.
Proof. intros Hn. destruct (hRemove_perm (Lawful0 := slice_lawful (Less o)) its n it Logic.I Hn) as (l & ? & _ & ?). by exists l. Qed.

(** A fresh index of a permutation of a map's items is right, if it held no stranger. *)
Lemma good_reindex o b its m : its ≡ₚ items_of m -> (forall k, m !! k = None -> b !! k = None) ->
  good (MkEntry o (reindex 0 its b) its) m.
Proof.
  intros Hp Hb. split; [exact Hp|]. apply reindex_indexed; [by eapply owners_NoDup|].
  intros k Hk. apply Hb. by apply (absent_owner its m).
Qed.

Lemma good_strangers e m k : good e m -> m !! k = None -> byOwner e !! k = None.
Proof.
  intros Hg Hk. pose proof (good_lookup e m k Hg) as Hl. destruct (byOwner e !! k); [|done].
  destruct Hl as (n & it & _ & _ & _ & H). congruence.
Qed.

Definition pair_of (r : Record_) : string * (Z * Z) := (OwnerID r, (Score r, Subscore r)).

Lemma fill_good o recs : NoDup (map OwnerID recs) -> exists its,
  hInit (Interface0 := slice_interface (Less o)) (map item_of recs) = Ret its /\
  good (MkEntry o (reindex 0 its (reindex 0 (map item_of recs) ∅)) its) (list_to_map (map pair_of recs)).
Proof.
  intros Hnd. destruct (slice_init o (map item_of recs)) as (its & -> & Hp). exists its. split; [done|].
  assert (map item_of recs ≡ₚ items_of (list_to_map (map pair_of recs))) as Hm.
  { unfold items_of. rewrite map_to_list_to_map by (rewrite map_map; exact Hnd). rewrite map_map. done. }
  apply good_reindex; [by rewrite Hp|]. intros k Hk. apply (absent_owner _ _ _ Hm) in Hk.
  assert (NoDup (map ownerID (map item_of recs))) as Hnd' by (rewrite map_map; exact Hnd).
  destruct (reindex_lookup (map item_of recs) 0 ∅ Hnd') as [_ H2]. by rewrite (H2 k Hk), lookup_empty.
Qed.

Lemma delete_slot {A} (n : nat) (x : A) (l : list A) : delete n (<[n := x]> l) = delete n l.
Proof. rewrite !delete_take_drop, take_insert_ge, drop_insert_lt by lia. done. Qed.

Lemma insert_good e m rec : good e m -> exists its,
  match byOwner e !! OwnerID rec with
  | Some idx =>
      its ← set_index (items e) idx (item_of rec);
      hFix (Interface0 := slice_interface (Less (order e))) its idx
  | None => hPush (Interface0 := slice_interface (Less (order e))) (items e) (item_of rec)
  end = Ret its /\
  good (MkEntry (order e) (reindex 0 its (byOwner e)) its) (<[OwnerID rec := (Score rec, Subscore rec)]> m).
Proof.
  intros Hg. pose proof (good_lookup e m (OwnerID rec) Hg) as Hl.
  assert (Hstr : forall k, <[OwnerID rec := (Score rec, Subscore rec)]> m !! k = None -> byOwner e !! k = None).
  { intros k [Hk _]%lookup_insert_None. by apply (good_strangers e m). }
  destruct (byOwner e !! OwnerID rec) as [i|] eqn:E.
  - destruct Hl as (n & it & -> & Hn & Ho & Hm). pose proof (lookup_lt_Some _ _ _ Hn) as Hlt.
    rewrite set_index_lt by done. cbn [mbind go_bind].
    destruct (slice_fix (order e) (<[n := item_of rec]> (items e)) n) as (its & -> & Hp); [by rewrite length_insert|].
    exists its. split; [done|]. apply good_reindex; [|done]. rewrite Hp.
    rewrite <- insert_delete_eq, items_of_insert by apply lookup_delete_eq.
    assert (items e ≡ₚ it :: items_of (delete (OwnerID rec) m)) as Hpi.
    { rewrite (g_items e m Hg), <- Ho. apply items_of_delete. rewrite <- (g_items e m Hg). by eapply list_elem_of_lookup_2. }
    rewrite (delete_Permutation _ n it Hn) in Hpi. apply Permutation_cons_inv in Hpi.
    rewrite (delete_Permutation _ n (item_of rec)) by (by apply list_lookup_insert_eq).
    by rewrite delete_slot, Hpi.
  - destruct (slice_push (order e) (items e) (item_of rec)) as (its & -> & Hp). exists its. split; [done|].
    apply good_reindex; [|done]. by rewrite Hp, items_of_insert, (g_items e m Hg).
Qed.

Lemma delete_good e m owner i : good e m -> byOwner e !! owner = Some i -> exists its it,
  hRemove (Interface0 := slice_interface (Less (order e))) (items e) i = Ret (its, it) /\ is_Some (m !! owner) /\
  good (MkEntry (order e) (reindex 0 its (delete owner (byOwner e))) its) (delete owner m).
Proof.
  intros Hg E. pose proof (good_lookup e m owner Hg) as Hl. rewrite E in Hl.
  destruct Hl as (n & it & -> & Hn & Ho & Hm). destruct (slice_remove (order e) (items e) n it Hn) as (its & -> & Hp).
  exists its, it. split; [done|]. split; [by eexists|]. apply good_reindex.
  - rewrite (g_items e m Hg), (items_of_delete m it), Ho in Hp.
    + by apply Permutation_cons_inv in Hp.
    + rewrite <- (g_items e m Hg). by eapply list_elem_of_lookup_2.
  - intros k [->|Hk]%lookup_delete_None; [apply lookup_delete_eq|]. destruct (decide (k = owner)) as [->|].
    + apply lookup_delete_eq.
    + rewrite lookup_delete_ne by done. by apply (good_strangers e m).
Qed.

(** * The cache as a map of boards *)

Definition board : Type := SortOrder * gmap string (Z * Z).

Inductive call :=
| CFill (id : string) (expiry : Z) (o : SortOrder) (records : list Record_) (enable : bool)
| CInsert (id : string) (expiry : Z) (o : SortOrder) (rec : Record_) (enable : bool)
| CDelete (id : string) (expiry : Z) (owner : string)
| CDrop (id : string) (expiry : Z).

Definition exec (c : call) (r : RankCache) : go (RankCache * Z) :=
  match c with
  | CFill id ex o recs en => Fill id ex o recs en r
  | CInsert id ex o rec en => Insert id ex o rec en r
  | CDelete id ex owner => '(r, b) ← Delete id ex owner r; Ret (r, if b : bool then 1 else 0)
  | CDrop id ex => let '(r, b) := DeleteLeaderboard id ex r in Ret (r, if b then 1 else 0)
  end.

(** The same on the boards, keyed by identifier and period. *)
Definition board_step (skip : string -> bool -> bool) (c : call) (bs : gmap (string * Z) board)
    : gmap (string * Z) board * Z :=
  match c with
  | CFill id ex o recs en =>
      if skip id en then (bs, 0)
      else (<[(id, ex) := (o, list_to_map (map pair_of recs))]> bs, Z.of_nat (length recs))
  | CInsert id ex o rec en =>
      if skip id en then (bs, -1)
      else
        let '(o, m) := default (o, ∅) (bs !! (id, ex)) in
        let m := <[OwnerID rec := (Score rec, Subscore rec)]> m in
        (<[(id, ex) := (o, m)]> bs, rank_of o m (OwnerID rec))
  | CDelete id ex owner =>
      match bs !! (id, ex) with
      | Some (o, m) =>
          if decide (is_Some (m !! owner)) then (<[(id, ex) := (o, delete owner m)]> bs, 1) else (bs, 0)
      | None => (bs, 0)
      end
  | CDrop id ex => if decide (is_Some (bs !! (id, ex))) then (delete (id, ex) bs, 1) else (bs, 0)
  end.

(** A full load names each owner once. *)
Definition legal (c : call) : Prop :=
  match c with CFill _ _ _ recs _ => NoDup (map OwnerID recs) | _ => True end.


(** ** The keys: an expiry is written without a slash *)

Fixpoint no_slash (s : string) : bool :=
  match s with EmptyString => true | String c s => negb (Ascii.eqb c "/"%char) && no_slash s end.

Lemma uint_no_slash u : no_slash (NilEmpty.string_of_uint u) = true.
Proof. induction u as [|u IH|u IH|u IH|u IH|u IH|u IH|u IH|u IH|u IH|u IH]; [done|exact IH..]. Qed.

Lemma FormatInt_no_slash z : no_slash (FormatInt z) = true.
Proof.
  unfold FormatInt, NilZero.string_of_int, NilZero.string_of_uint.
  destruct (Z.to_int z) as [u|u]; destruct u; try done; apply uint_no_slash.
Qed.

Lemma FormatInt_inj a b : FormatInt a = FormatInt b -> a = b.
Proof.
  unfold FormatInt. intros H. rewrite <- (DecimalZ.of_to a), <- (DecimalZ.of_to b). f_equal.
  assert (Hz : forall z, NilZero.int_of_string (NilZero.string_of_int (Z.to_int z)) = Some (Z.to_int z)).
  { intros z. apply NilZero.isi; destruct z as [|p|p]; cbn; try done;
      intros [= E]; by apply (DecimalPos.Unsigned.to_uint_nonnil p). }
  pose proof (Hz a) as Ha. rewrite H, Hz in Ha. by injection Ha.
Qed.

Lemma split_last_slash a b s t : no_slash s = true -> no_slash t = true ->
  (a ++ "/" ++ s)%string = (b ++ "/" ++ t)%string -> a = b /\ s = t.
Proof.
  intros Hs Ht. assert (Hno : forall x r, no_slash (x ++ String "/" r)%string = true -> False).
  { intros x r. induction x as [|c x IHx]; intros H; [done|]. apply IHx. by apply andb_true_iff in H as [_ ?]. }
  revert b. induction a as [|c a IH]; intros [|d b] E.
  - assert (String "/" s = String "/" t) as E' by exact E. by injection E'.
  - assert (String "/" s = String d (b ++ String "/" t)%string) as E' by exact E. injection E' as _ ->. by apply Hno in Hs.
  - assert (String c (a ++ String "/" s)%string = String "/" t) as E' by exact E. injection E' as _ <-. by apply Hno in Ht.
  - assert (String c (a ++ "/" ++ s)%string = String d (b ++ "/" ++ t)%string) as E' by exact E.
    injection E' as -> E'. destruct (IH b E') as [-> ->]. done.
Qed.

Lemma cacheKey_inj id ex id' ex' : cacheKey id ex = cacheKey id' ex' -> (id, ex) = (id', ex').
Proof.
  intros E. apply split_last_slash in E as [-> E]; [|apply FormatInt_no_slash..]. by apply FormatInt_inj in E as ->.
Qed.

(** ** Refinement *)

Record stands (r : RankCache) (bs : gmap (string * Z) board) : Prop := {
  st_boards : forall id ex, match caches r !! cacheKey id ex, bs !! (id, ex) with
    | Some e, Some (o, m) => order e = o /\ good e m
    | None, None => True
    | _, _ => False
    end
}.

Lemma stands_set r bs id ex e o m : stands r bs -> order e = o -> good e m ->
  stands (set_cache r (cacheKey id ex) e) (<[(id, ex) := (o, m)]> bs).
Proof.
  intros [Hs] Ho Hg. split. intros id' ex'. cbn [caches set_cache]. destruct (decide ((id, ex) = (id', ex'))) as [[= <- <-]|Hne].
  - rewrite !lookup_insert_eq. done.
  - rewrite !lookup_insert_ne; [apply Hs|done|]. intros E. by apply Hne, cacheKey_inj.
Qed.

Lemma exec_spec c r bs : legal c -> stands r bs -> exists r', exec c r = Ret (r', (board_step (skipped r) c bs).2) /\
  stands r' (board_step (skipped r) c bs).1 /\ blacklist r' = blacklist r /\ blacklistAll r' = blacklistAll r.
Proof.
  intros Hl Hst. destruct c as [id ex o recs en|id ex o rec en|id ex owner|id ex]; cbn [exec board_step].
  - unfold Fill. destruct (skipped r id en); [by exists r|].
    destruct (fill_good o recs Hl) as (its & -> & Hg). cbn [mbind go_bind]. eexists. split; [done|]. split; [|done].
    by apply stands_set.
  - unfold Insert. destruct (skipped r id en); [by exists r|].
    pose proof (st_boards r bs Hst id ex) as Hb.
    assert (exists o' m, default (o, ∅) (bs !! (id, ex)) = (o', m) /\
      order (default (MkEntry o ∅ []) (caches r !! cacheKey id ex)) = o' /\
      good (default (MkEntry o ∅ []) (caches r !! cacheKey id ex)) m) as (o' & m & -> & Ho & Hg).
    { destruct (caches r !! cacheKey id ex) as [e|], (bs !! (id, ex)) as [[o' m]|]; try done; cbn [default from_option Datatypes.id].
      - by exists o', m.
      - exists o, ∅. split; [done|]. split; [done|]. split; [done|]. intros k i. cbn [byOwner items]. rewrite lookup_empty.
        split; [done|]. intros (n & it & _ & Hn & _). by rewrite lookup_nil in Hn. }
    destruct (insert_good _ m rec Hg) as (its & -> & Hg'). cbn [mbind go_bind].
    rewrite (rankLocked_spec _ _ _ Hg'). cbn [mbind go_bind]. rewrite <- Ho. eexists. split; [done|]. split; [|done].
    by apply stands_set.
  - unfold Delete. pose proof (st_boards r bs Hst id ex) as Hb.
    destruct (caches r !! cacheKey id ex) as [e|], (bs !! (id, ex)) as [[o m]|]; try done; [|by exists r].
    destruct Hb as [<- Hg]. destruct (byOwner e !! owner) as [i|] eqn:E.
    + destruct (delete_good e m owner i Hg E) as (its & it & -> & Hm & Hg'). cbn [mbind go_bind].
      rewrite decide_True by done. eexists. split; [done|]. split; [|done]. by apply stands_set.
    + pose proof (good_lookup e m owner Hg) as Hm. rewrite E in Hm.
      rewrite decide_False by (rewrite Hm; by intros []). by exists r.
  - unfold DeleteLeaderboard. pose proof (st_boards r bs Hst id ex) as Hb.
    destruct (caches r !! cacheKey id ex) as [e|] eqn:E, (bs !! (id, ex)) as [[o m]|] eqn:E'; try done.
    + rewrite decide_True by by eexists. eexists. split; [done|]. split; [|done]. split. intros id' ex'. cbn [caches fst].
      destruct (decide ((id, ex) = (id', ex'))) as [[= <- <-]|Hne].
      * by rewrite !lookup_delete_eq.
      * rewrite !lookup_delete_ne; [apply Hst|done|]. intros E2. by apply Hne, cacheKey_inj.
    + rewrite decide_False by by intros []. by exists r.
Qed.

(** A sort as [sort.Slice] leaves it: nothing is behind an item it is ahead of. *)
Definition valid_sort (o : SortOrder) (sort : sorter) : Prop := forall its,
  sort its ≡ₚ its /\ StronglySorted (fun a b => Less o b a = false) (sort its).

(** Those strictly ahead of an item are the first ones of the sorted list. *)
Lemma ahead_prefix o t l : StronglySorted (fun a b => Less o b a = false) l ->
  filter (fun x => Less o x t = true) l = take (length (filter (fun x => Less o x t = true) l)) l.
Proof.
  induction 1 as [|x l Hs IH Hx]; [done|]. rewrite filter_cons. destruct (decide (Less o x t = true)) as [E|E].
  - cbn [length take]. by rewrite <- IH.
  - apply not_true_is_false in E. rewrite filter_none; [done|]. intros y Hy Hyt. rewrite Forall_forall in Hx.
    pose proof (notless_trans _ _ _ E (Hx y Hy)) as H. congruence.
Qed.

(** The place of an item in the sorted list, and the item found at its rank. *)
Lemma sorted_rank o l i it : StronglySorted (fun a b => Less o b a = false) l -> l !! i = Some it ->
  let r := length (filter (fun x => Less o x it = true) l) in
  (r <= i)%nat /\ exists it', l !! r = Some it' /\ score it' = score it /\ subscore it' = subscore it.
Proof.
  intros Hs Hi r. pose proof (ahead_prefix o it l Hs) as Hp. fold r in Hp.
  assert (Hahead : forall k x, (k < r)%nat -> l !! k = Some x -> Less o x it = true).
  { intros k x Hk Hx. assert (x ∈ filter (fun x => Less o x it = true) l) as Hin.
    { rewrite Hp. apply list_elem_of_lookup_2 with k. by rewrite lookup_take_lt. }
    by apply list_elem_of_filter in Hin as [? _]. }
  assert (r <= i)%nat as Hri.
  { destruct (le_lt_dec r i); [done|]. pose proof (Hahead i it ltac:(lia) Hi) as H. by rewrite less_irrefl in H. }
  split; [done|]. destruct (lookup_lt_is_Some_2 l r) as [it' Hr]; [apply lookup_lt_Some in Hi; lia|].
  exists it'. split; [done|]. apply (tie_scores o).
  - apply not_true_is_false. intros E.
    assert (filter (fun x => Less o x it = true) (drop r l) = []) as Hd.
    { apply nil_length_inv.
      assert (length (filter (fun x => Less o x it = true) (take r l ++ drop r l)) = r) as Hlen by by rewrite take_drop.
      rewrite filter_app, filter_every, length_app, length_take in Hlen; [apply lookup_lt_Some in Hr; lia|].
      intros x [k Hk]%list_elem_of_lookup_1. apply lookup_take_Some in Hk as [Hk Hlt]. by apply (Hahead k). }
    rewrite (drop_S _ _ _ Hr), filter_cons, decide_True in Hd by done. done.
  - destruct (decide (r = i)) as [->|]; [assert (it' = it) as -> by congruence; apply less_irrefl|].
    apply (StronglySorted_lookup (fun a b => Less o b a = false) l r i it' it Hs); [done|done|lia].
Qed.

Fixpoint run (cs : list call) (r : RankCache) : go (RankCache * list Z) :=
  match cs with
  | [] => Ret (r, [])
  | c :: cs => '(r, x) ← exec c r; '(r, xs) ← run cs r; Ret (r, x :: xs)
  end.

Fixpoint board_run (skip : string -> bool -> bool) (cs : list call) (bs : gmap (string * Z) board)
    : gmap (string * Z) board * list Z :=
  match cs with
  | [] => (bs, [])
  | c :: cs =>
      let '(bs, x) := board_step skip c bs in
      let '(bs, xs) := board_run skip cs bs in (bs, x :: xs)
  end.

Lemma run_spec cs : forall r bs, Forall legal cs -> stands r bs ->
  exists r', run cs r = Ret (r', (board_run (skipped r) cs bs).2) /\ stands r' (board_run (skipped r) cs bs).1.
Proof.
  induction cs as [|c cs IH]; intros r bs Hl Hst; cbn [run board_run]; [by exists r|].
  apply Forall_cons in Hl as [Hc Hl]. destruct (exec_spec c r bs Hc Hst) as (r1 & -> & Hst1 & Hb & Ha).
  cbn [mbind go_bind]. destruct (board_step (skipped r) c bs) as [bs1 x]. cbn [fst snd] in *.
  destruct (IH r1 bs1 Hl Hst1) as (r2 & -> & Hst2). cbn [mbind go_bind].
  assert (skipped r1 = skipped r) as Hs. { unfold skipped. by rewrite Hb, Ha. }
  rewrite Hs in Hst2 |- *. destruct (board_run (skipped r) cs bs1) as [bs2 xs]. by exists r2.
Qed.

Lemma New_stands bl : stands (New bl) ∅.
Proof. split. intros id ex. unfold New. case_bool_decide; cbn [caches]; by rewrite !lookup_empty. Qed.

(** C20: The heaps and their index are one map from owners to scores per board and period: any
    sequence of loads (naming an owner once), insertions, deletions and drops answers as these
    maps do, in particular the rank after an insertion, without a panic; then [Get] is one plus
    the number of owners strictly ahead, or -1, and [Size] the number of owners. *)
Theorem leaderboard_refines bl cs : Forall legal cs ->
  let '(bs, answers) := board_run (skipped (New bl)) cs ∅ in
  exists r, run cs (New bl) = Ret (r, answers) /\
    forall id ex, match bs !! (id, ex) with
      | Some (o, m) => (forall owner, Get id ex owner r = Ret (rank_of o m owner)) /\ Size id ex r = Z.of_nat (size m)
      | None => (forall owner, Get id ex owner r = Ret (-1)) /\ Size id ex r = 0
      end.
Proof.
  intros Hl. destruct (run_spec cs (New bl) ∅ Hl (New_stands bl)) as (r & Hr & Hst).
  destruct (board_run (skipped (New bl)) cs ∅) as [bs answers]. cbn [fst snd] in *. exists r. split; [done|].
  intros id ex. pose proof (st_boards r bs Hst id ex) as Hb. unfold Get, Size.
  destruct (caches r !! cacheKey id ex) as [e|], (bs !! (id, ex)) as [[o m]|]; try done.
  destruct Hb as [<- Hg]. split; [intros owner; by apply rankLocked_spec|].
  rewrite (g_items e m Hg). unfold items_of. by rewrite length_map, length_map_to_list.
Qed.

Lemma mapG_index (l : list item) a n : (Z.to_nat a + n <= length l)%nat -> 0 <= a ->
  mapG (fun i => it ← index l i; Ret (record_of it)) (seqZ a (Z.of_nat n)) =
  Ret (map record_of (take n (drop (Z.to_nat a) l))).
Proof.
  revert a. induction n as [|n IH]; intros a Hn Ha; [done|].
  rewrite seqZ_cons by lia. cbn [mapG]. destruct (lookup_lt_is_Some_2 l (Z.to_nat a)) as [it Hit]; [lia|].
  rewrite <- (Z2Nat.id a) at 1 by lia. rewrite (index_lookup _ _ _ Hit). cbn [mbind go_bind].
  replace (Z.pred (Z.of_nat (S n))) with (Z.of_nat n) by lia. rewrite IH by lia. cbn [mbind go_bind].
  rewrite (drop_S _ _ _ Hit). replace (Z.to_nat (Z.succ a)) with (S (Z.to_nat a)) by lia. done.
Qed.

(** The reading operations agree with each other and with the ranks: there is one order of the
    owners of a board, no one behind somebody they are strictly ahead of, of which [TopN] is the
    beginning and [GetByRank] the element; an owner's rank is at most their place in it, and the
    record at that rank has their scores. *)
Theorem leaderboard_ranking r bs id ex o m sort : stands r bs -> bs !! (id, ex) = Some (o, m) -> valid_sort o sort ->
  exists l, l ≡ₚ items_of m /\ StronglySorted (fun a b => Less o b a = false) l /\
    (forall n, TopN sort id ex n r = Ret (map record_of (take (Z.to_nat n) l))) /\
    (forall k, GetByRank sort id ex k r =
       Ret (if decide (1 <= k) then record_of <$> l !! Z.to_nat (k - 1) else None)) /\
    forall i it, l !! i = Some it -> exists rank it', Get id ex (ownerID it) r = Ret rank /\
      1 <= rank <= Z.of_nat i + 1 /\ GetByRank sort id ex rank r = Ret (Some (record_of it')) /\
      score it' = score it /\ subscore it' = subscore it.
Proof.
  intros Hst Hb Hv. pose proof (st_boards r bs Hst id ex) as Hs. rewrite Hb in Hs.
  unfold TopN, GetByRank, Get. cbv zeta. destruct (caches r !! cacheKey id ex) as [e|]; [|done]. destruct Hs as [<- Hg].
  destruct (Hv (items e)) as [Hp Hsort]. set (l := sort (items e)) in *.
  assert (length l = length (items e)) as Hlen by by apply Permutation_length.
  assert (Hat : forall k, (if (k <? 1) || (Z.of_nat (length (items e)) <? k) then Ret None
      else it ← index l (k - 1); Ret (Some (record_of it))) =
    Ret (if decide (1 <= k) then record_of <$> l !! Z.to_nat (k - 1) else None)).
  { intros k. destruct (Z.ltb_spec k 1); cbn [orb]; [by rewrite decide_False by lia|]. rewrite decide_True by lia.
    destruct (Z.ltb_spec (Z.of_nat (length (items e))) k).
    - by rewrite lookup_ge_None_2 by lia.
    - destruct (lookup_lt_is_Some_2 l (Z.to_nat (k - 1))) as [it Hit]; [lia|].
      rewrite <- (Z2Nat.id (k - 1)) at 1 by lia. by rewrite (index_lookup _ _ _ Hit), Hit. }
  exists l. split; [by rewrite Hp, (g_items e m Hg)|]. split; [done|]. split; [|split; [exact Hat|]].
  - intros n. destruct (Z.leb_spec n 0); [by replace (Z.to_nat n) with O by lia|].
    set (c := if Z.of_nat (length l) <? n then Z.of_nat (length l) else n).
    assert (0 <= c <= Z.of_nat (length l)) as Hc by (unfold c; destruct (Z.ltb_spec (Z.of_nat (length l)) n); lia).
    rewrite <- (Z2Nat.id c), (mapG_index l 0) by lia. change (Z.to_nat 0) with 0%nat. rewrite drop_0. unfold c. destruct (Z.ltb_spec (Z.of_nat (length l)) n); [|done].
    rewrite !take_ge by lia. done.
  - intros i it Hi. rewrite (rankLocked_spec e m _ Hg).
    assert (m !! ownerID it = Some (score it, subscore it)) as Hm.
    { apply in_items_of. rewrite <- (g_items e m Hg), <- Hp. by eapply list_elem_of_lookup_2. }
    destruct (sorted_rank (order e) l i it Hsort Hi) as (Hri & it' & Hr & Hsc).
    assert (rank_of (order e) m (ownerID it) = 1 + Z.of_nat (length (filter (fun x => Less (order e) x it = true) l))) as ->.
    { unfold rank_of. rewrite Hm, size_filter_items.
      assert (mk (ownerID it, (score it, subscore it)) = it) as -> by by destruct it.
      by rewrite <- (g_items e m Hg), <- Hp. }
    eexists _, it'. split; [done|]. split; [lia|]. split; [|done]. rewrite Hat, decide_True by lia.
    replace (Z.to_nat (1 + _ - 1)) with (length (filter (fun x => Less (order e) x it = true) l)) by lia. by rewrite Hr.
Qed.

(** ** Witnesses *)

Definition item_le (o : SortOrder) (a b : item) : Prop := Less o b a = false.
#[export] Instance item_le_dec o a b : Decision (item_le o a b).
Proof. unfold item_le. apply _. Defined.
#[export] Instance item_le_total o : Total (item_le o).
Proof.
  intros a b. unfold item_le. destruct (Less o b a) eqn:E; [right|by left].
  destruct (Less o a b) eqn:E'; [|done]. pose proof (less_trans _ _ _ E E') as H. by rewrite less_irrefl in H.
Qed.
#[export] Instance item_le_trans o : Transitive (item_le o).
Proof. intros a b c. unfold item_le. apply notless_trans. Qed.

Lemma merge_sort_valid o : valid_sort o (sorting.merge_sort (item_le o)).
Proof. intros its. split; [apply sorting.merge_sort_Permutation|apply (sorting.StronglySorted_merge_sort (item_le o))]. Qed.

(** A load, an insertion, and an update that moves an owner down into a tie. *)
Definition demo_calls : list call :=
  [CFill "b" 1 SortDescending [MkRecord "u" 50 0; MkRecord "v" 70 0] true;
   CInsert "b" 1 SortDescending (MkRecord "w" 60 1) true;
   CInsert "b" 1 SortDescending (MkRecord "v" 50 0) true].

Lemma demo_legal : Forall legal demo_calls.
Proof.
  repeat apply Forall_cons_2; try exact Logic.I; [|apply Forall_nil_2].
  apply (bool_decide_unpack _). vm_compute. exact Logic.I.
Qed.

Lemma leaderboard_refines_witness : exists r, run demo_calls (New []) = Ret (r, [2; 2; 2]) /\
  Get "b" 1 "u" r = Ret 2.
Proof.
  pose proof (leaderboard_refines [] demo_calls demo_legal) as H.
  destruct (board_run (skipped (New [])) demo_calls ∅) as [bs answers] eqn:E. destruct H as (r & Hr & H).
  exists r. split; [rewrite Hr; do 2 f_equal; vm_compute in E; by injection E as _ <-|].
  specialize (H "b" 1). vm_compute in E. injection E as <- _.
  vm_compute (_ !! _) in H. destruct H as [H _]. rewrite H. vm_compute. reflexivity.
Defined.

Lemma leaderboard_ranking_witness : exists r l answers, run demo_calls (New []) = Ret (r, answers) /\
  l ≡ₚ [MkItem "w" 60 1; MkItem "v" 50 0; MkItem "u" 50 0] /\
  TopN (sorting.merge_sort (item_le SortDescending)) "b" 1 2 r = Ret (map record_of (take 2 l)).
Proof.
  destruct (run_spec demo_calls (New []) ∅ demo_legal (New_stands [])) as (r & Hr & Hst).
  destruct (leaderboard_ranking r _ "b" 1 SortDescending
    (<[ "v" := (50, 0) ]> (<[ "w" := (60, 1) ]> {[ "u" := (50, 0) ]}))
    (sorting.merge_sort (item_le SortDescending)) Hst) as (l & Hl & _ & Ht & _).
  - vm_compute. reflexivity.
  - apply merge_sort_valid.
  - eexists r, l, _. split; [exact Hr|]. split; [|exact (Ht 2)]. rewrite Hl.
    apply (bool_decide_unpack _). vm_compute. exact Logic.I.
Defined.

(** A negative range makes [Around] panic. *)
Example around_negative_panics : exists r answers, run demo_calls (New []) = Ret (r, answers) /\
  exists msg, Around (sorting.merge_sort (item_le SortDescending)) "b" 1 "w" (-1) r = Panic msg.
Proof. eexists _, _. split; [vm_compute; reflexivity|]. eexists. vm_compute. reflexivity. Qed.
