(* ===== verification/Replicate.v ===== *)
(** State replication ([pkg/game/replicate/*.go] over [pkg/game/spatial/aoi/aoi.go]): the frame's
    dirty set, the per-viewer projection into deltas, and the journal a client catches up from. *)
From Stdlib Require Import ZArith Lia Bool Sorted.
From stdpp Require Import base numbers strings list gmap fin_maps sets.
From S2P Require Import Prelude Float64 RingBuffer.

Open Scope Z_scope.

(** ** The journal *)

Section journal.
(** [St]: the state of an entity. *)
Context {St : Type}.

Record Delta := MkDelta {
  Frame : Z; Baseline : bool; Spawn : list St; Update_ : list St; Despawn : list string
}.

Record Journal := MkJournal { depth : Z; entries : list Delta }.

Definition NewJournal (d : Z) : Journal := MkJournal (if d <=? 0 then 128 else d) [].

Definition Record_ (d : Delta) (j : Journal) : Journal :=
  let fresh :=
    let es := entries j ++ [d] in
    let n := Z.of_nat (length es) in
    MkJournal (depth j) (if depth j <? n then drop (Z.to_nat (n - depth j)) es else es) in
  match last (entries j) with
  | Some e =>
      if Frame e =? Frame d
      then MkJournal (depth j) (<[(length (entries j) - 1)%nat := d]> (entries j))
      else fresh
  | None => fresh
  end.

Record CatchUpBatch := MkBatch { From_ : Z; To : Z; Deltas : list Delta; Truncated : bool }.

Definition CatchUp (after through : Z) (j : Journal) : CatchUpBatch :=
  if through <=? after then MkBatch after through [] false
  else
    MkBatch after through
      (List.filter (fun d => (after <? Frame d) && (Frame d <=? through)) (entries j))
      (match entries j with e :: _ => wrapu64 (after + 1) <? Frame e | [] => false end).

Definition Latest (j : Journal) : Z :=
  match last (entries j) with Some e => Frame e | None => 0 end.

Record ViewerTrack := MkTrack { journal : Journal; lastAck : Z; lastSent : Z }.

Definition NewViewerTrack (j : option Journal) : ViewerTrack :=
  MkTrack (default (NewJournal 0) j) 0 0.

Definition RecordSent (d : Delta) (v : ViewerTrack) : ViewerTrack :=
  MkTrack (Record_ d (journal v)) (lastAck v) (if lastSent v <? Frame d then Frame d else lastSent v).

Definition OnAck (last : Z) (v : ViewerTrack) : ViewerTrack * CatchUpBatch :=
  let ack := if lastAck v <? last then last else lastAck v in
  let v := MkTrack (journal v) ack (lastSent v) in
  (v, if lastSent v <=? lastAck v then MkBatch (lastAck v) (lastSent v) [] false
      else CatchUp (lastAck v) (lastSent v) (journal v)).

Definition Gap (v : ViewerTrack) : Z :=
  if lastSent v <=? lastAck v then 0 else lastSent v - lastAck v.

(** * What the journal holds *)

(** The deltas sent, one per frame: a second one of the last frame replaces it. *)
Definition extend (h : list Delta) (d : Delta) : list Delta :=
  match last h with
  | Some e => if Frame e =? Frame d then take (length h - 1) h ++ [d] else h ++ [d]
  | None => h ++ [d]
  end.

Inductive act := ASent (d : Delta) | AAck (frame : Z).

Fixpoint run (acts : list act) (v : ViewerTrack) : ViewerTrack :=
  match acts with
  | [] => v
  | ASent d :: acts => run acts (RecordSent d v)
  | AAck f :: acts => run acts (OnAck f v).1
  end.

Definition sent (acts : list act) : list Delta :=
  foldl (fun h a => match a with ASent d => extend h d | AAck _ => h end) [] acts.

(** Frames never go back. *)
Fixpoint forward (f : Z) (acts : list act) : Prop :=
  match acts with
  | [] => True
  | ASent d :: acts => f <= Frame d /\ forward (Frame d) acts
  | AAck _ :: acts => forward f acts
  end.

Record tracks (v : ViewerTrack) (h : list Delta) : Prop := {
  tr_depth : 0 < depth (journal v);
  tr_held : entries (journal v) = lastn (Z.to_nat (depth (journal v))) h;
  tr_sorted : StronglySorted (fun a b => Frame a < Frame b) h;
  tr_pos : Forall (fun d => 0 <= Frame d) h;
  tr_sent : lastSent v = match last h with Some e => Frame e | None => 0 end;
  tr_ack : 0 <= lastAck v
}.

Lemma Record_fresh (h : list Delta) k d : (0 < k)%nat ->
  let es := lastn k h ++ [d] in
  (if Z.of_nat k <? Z.of_nat (length es) then drop (Z.to_nat (Z.of_nat (length es) - Z.of_nat k)) es else es)
  = lastn k (h ++ [d]).
Proof.
  intros Hk es. rewrite <- lastn_app_lastn. fold es. unfold lastn at 1.
  destruct (Z.ltb_spec (Z.of_nat k) (Z.of_nat (length es))).
  - f_equal. lia.
  - replace (length es - k)%nat with O by lia. by rewrite drop_0.
Qed.

Lemma replace_last (h : list Delta) d k : h <> [] -> (0 < k)%nat ->
  <[(length (lastn k h) - 1)%nat := d]> (lastn k h) = lastn k (take (length h - 1) h ++ [d]).
Proof.
  intros Hne Hk. destruct (last h) as [e|] eqn:E; [|by apply last_None in E].
  apply last_Some in E as [h0 ->]. rewrite length_app. cbn [length].
  replace (length h0 + 1 - 1)%nat with (length h0) by lia. rewrite take_app_length. unfold lastn.
  rewrite !length_app. cbn [length]. rewrite !drop_app_le by lia. rewrite insert_app_r_alt;
    rewrite ?length_app, ?length_drop; cbn [length]; [|lia].
  f_equal. replace (_ - _ - _)%nat with O by lia. done.
Qed.

Lemma frames_below (h : list Delta) e x : StronglySorted (fun a b => Frame a < Frame b) h ->
  last h = Some e -> x ∈ h -> Frame x <= Frame e.
Proof.
  intros Hs. induction Hs as [|y h Hs IH Hy]; intros Hl Hx; [done|].
  apply elem_of_cons in Hx as [->|Hx].
  - destruct h as [|z h]; [injection Hl as <-; lia|]. rewrite last_cons_cons in Hl. rewrite Forall_forall in Hy.
    assert (e ∈ z :: h) as Hin by (apply last_Some in Hl as [? ->]; set_solver). apply Hy in Hin. lia.
  - apply IH; [|done]. destruct h; [by apply not_elem_of_nil in Hx|by rewrite last_cons_cons in Hl].
Qed.

Lemma extend_tracks d v h : tracks v h -> match last h with Some e => Frame e | None => 0 end <= Frame d ->
  tracks (RecordSent d v) (extend h d).
Proof.
  intros [Hd Hh Hs Hp Hl Ha] Hf. unfold RecordSent, Record_, extend.
  assert (0 < Z.to_nat (depth (journal v)))%nat as Hk by lia.
  rewrite Hh, last_lastn by done. destruct (last h) as [e|] eqn:El; [destruct (Z.eqb_spec (Frame e) (Frame d)) as [E|E]|].
  - assert (h <> []) as Hne by by intros ->. apply last_Some in El as Hh0. destruct Hh0 as [h0 Eh].
    split; cbn [journal depth entries lastSent lastAck]; try done.
    + rewrite replace_last by done. done.
    + rewrite Eh, length_app, Nat.add_sub, take_app_length. rewrite Eh in Hs. clear -Hs E.
      induction h0 as [|x h0 IH]; simpl in *; [by repeat constructor|]. apply StronglySorted_inv in Hs as [Hs Hx].
      constructor; [by apply IH|]. apply Forall_app in Hx as [Hx [He _]%Forall_cons].
      apply Forall_app. split; [done|]. repeat constructor. lia.
    + rewrite Eh, length_app, Nat.add_sub, take_app_length. rewrite Eh in Hp. apply Forall_app in Hp as [Hp [? _]%Forall_cons].
      apply Forall_app. split; [done|]. repeat constructor. lia.
    + rewrite last_snoc, Hl. destruct (Z.ltb_spec (Frame e) (Frame d)); lia.
  - split; cbn [journal depth entries lastSent lastAck]; try done.
    + pose proof (Record_fresh h (Z.to_nat (depth (journal v))) d Hk) as Hr. rewrite Z2Nat.id in Hr by lia. exact Hr.
    + apply sorted_snoc; [intros ??? ??; lia|done|]. rewrite El. intros ? [= <-]. lia.
    + apply Forall_app. split; [done|]. pose proof (proj1 (Forall_forall _ _) Hp e) as He.
      rewrite last_Some in El. destruct El as [? ->]. repeat constructor. specialize (He ltac:(set_solver)). lia.
    + rewrite last_snoc, Hl. destruct (Z.ltb_spec (Frame e) (Frame d)); lia.
  - apply last_None in El as ->. split; cbn [journal depth entries lastSent lastAck]; try done.
    + pose proof (Record_fresh [] (Z.to_nat (depth (journal v))) d Hk) as Hr. rewrite Z2Nat.id in Hr by lia. exact Hr.
    + repeat constructor.
    + repeat constructor. done.
    + cbn. rewrite Hl. destruct (Z.ltb_spec 0 (Frame d)); lia.
Qed.

Lemma ack_tracks f v h : tracks v h -> tracks (OnAck f v).1 h.
Proof. intros [Hd Hh Hs Hp Hl Ha]. split; try done. simpl. destruct (Z.ltb_spec (lastAck v) f); lia. Qed.

Lemma run_tracks acts : forall v h, tracks v h -> forward (match last h with Some e => Frame e | None => 0 end) acts ->
  tracks (run acts v) (foldl (fun h a => match a with ASent d => extend h d | AAck _ => h end) h acts).
Proof.
  induction acts as [|[d|f] acts IH]; intros v h Hv Hf; cbn [run foldl]; [done| |].
  - destruct Hf as [Hd Hf]. apply IH; [by apply extend_tracks|]. assert (last (extend h d) = Some d) as ->; [|done].
    unfold extend. destruct (last h) as [e|]; [destruct (Frame e =? Frame d)|]; by rewrite last_snoc.
  - apply IH; [by apply ack_tracks|done].
Qed.

(** ** Filters of the sent deltas *)

Lemma bfilter_every (f : Delta -> bool) l : (forall x, x ∈ l -> f x = true) -> List.filter f l = l.
Proof.
  induction l as [|x l IH]; intros H; [done|]. cbn. rewrite (H x) by set_solver. f_equal. apply IH. set_solver.
Qed.
Lemma bfilter_nothing (f : Delta -> bool) l : (forall x, x ∈ l -> f x = false) -> List.filter f l = [].
Proof.
  induction l as [|x l IH]; intros H; [done|]. cbn. rewrite (H x) by set_solver. apply IH. set_solver.
Qed.

Lemma bfilter_cut a b l : (forall x, x ∈ l -> Frame x <= b) ->
  List.filter (fun d => (a <? Frame d) && (Frame d <=? b)) l = List.filter (fun d => a <? Frame d) l.
Proof.
  intros H. apply List.filter_ext_in. intros x Hx. apply list_elem_of_In, H in Hx.
  rewrite (proj2 (Z.leb_le _ _)) by done. apply andb_true_r.
Qed.

Lemma bfilter_lastn (f : Delta -> bool) k h : exists n, List.filter f (lastn k h) = drop n (List.filter f h).
Proof.
  unfold lastn. exists (length (List.filter f (take (length h - k) h))).
  assert (List.filter f h = List.filter f (take (length h - k) h) ++ List.filter f (drop (length h - k) h)) as E
    by by rewrite <- List.filter_app, take_drop.
  by rewrite E, drop_app_length.
Qed.

Lemma bfilter_split (h : list Delta) a : StronglySorted (fun a b => Frame a < Frame b) h ->
  List.filter (fun d => Frame d <=? a) h ++ List.filter (fun d => a <? Frame d) h = h.
Proof.
  induction 1 as [|x l Hs IH Hx]; [done|]. cbn. rewrite Z.leb_antisym. destruct (Z.ltb_spec a (Frame x)) as [E|E]; cbn.
  - rewrite bfilter_nothing, bfilter_every; [done|..]; rewrite Forall_forall in Hx; intros y Hy; apply Hx in Hy.
    + apply Z.ltb_lt. lia.
    + apply Z.leb_gt. lia.
  - by rewrite IH.
Qed.

(** Frames never going back, an acknowledgement that leaves a gap is answered with deltas the
    server sent after it, in order; and when the batch is not marked truncated they are all of
    them: a client that has applied the deltas up to its acknowledgement and applies the batch
    (with whatever [apply] its view of a delta is) has applied everything sent. *)
Theorem catch_up_complete {V} (apply : V -> Delta -> V) v0 d acts fr :
  forward 0 acts -> let v := run acts (NewViewerTrack (Some (NewJournal d))) in
  let '(v', b) := OnAck fr v in
  (lastAck v' < lastSent v' -> exists k, Deltas b = drop k (List.filter (fun x => lastAck v' <? Frame x) (sent acts))) /\
  (Truncated b = false ->
     foldl apply (foldl apply v0 (List.filter (fun x => Frame x <=? lastAck v') (sent acts))) (Deltas b)
     = foldl apply v0 (sent acts)).
Proof.
  intros Hf v. assert (tracks v (sent acts)) as Hv.
  { apply (run_tracks acts _ []); [|done]. split; cbn; try done; [destruct (Z.leb_spec d 0); lia|constructor]. }
  pose proof (ack_tracks fr v _ Hv) as Hv'. destruct (OnAck fr v) as [v' b] eqn:E. unfold OnAck in E.
  set (ack := if lastAck v <? fr then fr else lastAck v) in E. cbn [lastSent lastAck journal] in E.
  injection E as <- <-. cbn [lastAck lastSent fst] in *. destruct Hv' as [Hd Hh Hs Hp Hl Ha].
  cbn [journal lastSent lastAck] in *. assert (Hle : forall x, x ∈ sent acts -> Frame x <= lastSent v).
  { intros x Hx. rewrite Hl. destruct (last (sent acts)) as [e|] eqn:El; [by eapply frames_below|].
    apply last_None in El. rewrite El in Hx. by apply not_elem_of_nil in Hx. }
  destruct (Z.leb_spec (lastSent v) ack) as [Hg|Hg]; cbn [Deltas Truncated].
  { split; [lia|]. intros _. cbn [foldl]. rewrite bfilter_every; [done|]. intros x Hx. apply Hle in Hx. lia. }
  unfold CatchUp. rewrite (proj2 (Z.leb_gt _ _)) by lia. cbn [Deltas Truncated]. rewrite Hh.
  rewrite (bfilter_cut ack (lastSent v)) by (intros x Hx; by apply Hle, (lastn_subset _ _ x Hx)).
  split; [intros _; by apply bfilter_lastn|]. intros Ht.
  assert (List.filter (fun x => ack <? Frame x) (lastn (Z.to_nat (depth (journal v))) (sent acts)) =
    List.filter (fun x => ack <? Frame x) (sent acts)) as E; [|by rewrite <- foldl_app, E, bfilter_split].
  assert (sent acts = take (length (sent acts) - Z.to_nat (depth (journal v))) (sent acts) ++
    lastn (Z.to_nat (depth (journal v))) (sent acts)) as Ec by (unfold lastn; by rewrite take_drop).
  transitivity (List.filter (fun x => ack <? Frame x) (take (length (sent acts) - Z.to_nat (depth (journal v))) (sent acts) ++
    lastn (Z.to_nat (depth (journal v))) (sent acts))); [|by rewrite <- Ec].
  rewrite List.filter_app, (bfilter_nothing _ (take _ _)); [done|]. intros x Hx.
  destruct (hd_error (lastn (Z.to_nat (depth (journal v))) (sent acts))) as [o|] eqn:Eo.
  - pose proof (lastn_older Frame _ _ _ _ Hs Eo Hx) as Ho. destruct (lastn _ _) as [|o' l]; [done|].
    injection Eo as <-. apply Z.ltb_ge in Ht. pose proof (wrapu64_le (ack + 1)). apply Z.ltb_ge. lia.
  - assert (sent acts = []) as E; [|rewrite E, take_nil in Hx; by apply not_elem_of_nil in Hx].
    apply (lastn_nil_iff (Z.to_nat (depth (journal v)))); [lia|]. by destruct (lastn _ _).
Qed.
End journal.
Arguments Delta : clear implicits.

(** ** The projection *)

Section replicate.
(** [ID]: entities and viewers; [Coord], [Payload_]: the fields of a state nothing here reads;
    [stringID]: the printed form of an identifier ([fmt.Sprintf] of the standard library). *)
Context {ID Coord Payload_ : Type} `{Countable ID} (stringID : ID -> string).

Record EntityState := MkState { sID : string; X : Coord; Y : Coord; sVersion : Z; Payload : Payload_ }.

(** An entity of the spatial index, of which only the identifier is read. *)
Record Entity := MkEntity { eID : ID; eX : Coord; eY : Coord; eDist : Coord }.

Record DirtySet := MkDirty { dirty : gset ID; removed : gset ID }.
Definition NewDirtySet : DirtySet := MkDirty ∅ ∅.
Definition Mark (id : ID) (d : DirtySet) : DirtySet := MkDirty ({[id]} ∪ dirty d) (removed d ∖ {[id]}).
Definition Remove (id : ID) (d : DirtySet) : DirtySet := MkDirty (dirty d ∖ {[id]}) ({[id]} ∪ removed d).
(** The lists come in the order of the map's range, here that of [elements]. *)
Definition Consume (d : DirtySet) : DirtySet * (list ID * list ID) :=
  (MkDirty ∅ ∅, (elements (dirty d), elements (removed d))).
Definition Lookup_ (id : ID) (d : DirtySet) : bool := bool_decide (id ∈ dirty d).

(** [Versions] is the map itself. *)
Definition Get (id : ID) (v : gmap ID Z) : Z := default 0 (v !! id).
Definition Bump (id : ID) (v : gmap ID Z) : gmap ID Z * Z :=
  let n := wrapu64 (Get id v + 1) in (<[id := n]> v, n).
Definition Delete (id : ID) (v : gmap ID Z) : gmap ID Z := delete id v.

(** [aoi.Set]: the identifiers seen last. *)
Definition Diff (prev : gset ID) (curr : list Entity) : list ID * list ID * list ID :=
  (List.filter (fun id => negb (bool_decide (id ∈ prev))) (map eID curr),
   List.filter (fun id => negb (bool_decide (id ∈ map eID curr))) (elements prev),
   List.filter (fun id => bool_decide (id ∈ prev)) (map eID curr)).
Definition Update (curr : list Entity) : gset ID := list_to_set (map eID curr).
Definition Reset_ : gset ID := ∅.

Record Config := MkConfig { BaselineRatio : float64 }.
Definition baselineRatio (c : Config) : float64 :=
  if fleb (BaselineRatio c) (of_int 0) then decimal 3 10 else BaselineRatio c.

Record Projector := MkProjector { cfg : Config; interest : gmap ID (gset ID); versions : gmap ID Z }.
Definition NewProjector (c : Config) : Projector := MkProjector c ∅ ∅.
Definition Interest (viewer : ID) (p : Projector) : gset ID := default ∅ (interest p !! viewer).
Definition DropViewer (viewer : ID) (p : Projector) : Projector :=
  MkProjector (cfg p) (delete viewer (interest p)) (versions p).

(** [lookup] of the states that are there. *)
Fixpoint states (lookup_ : ID -> option EntityState) (ids : list ID) : list EntityState :=
  match ids with
  | [] => []
  | id :: ids => match lookup_ id with Some st => st :: states lookup_ ids | None => states lookup_ ids end
  end.

Definition Project (frame : Z) (viewer : ID) (visible : list Entity) (dirty_ removed_ : list ID)
    (lookup_ : ID -> option EntityState) (p : Projector) : Projector * Delta EntityState :=
  let set_ := Interest viewer p in
  let '(enter, leave, stay) := Diff set_ visible in
  let changeN := Z.of_nat (length enter + length leave) in
  let baseline :=
    (0 <? Z.of_nat (length visible)) &&
    fleb (baselineRatio (cfg p)) (fdiv (of_int changeN) (of_int (Z.of_nat (length visible)))) in
  let baseline := if (size set_ =? 0)%nat then true else baseline in
  let seen := <[viewer := Update visible]> (interest p) in
  if baseline then
    (MkProjector (cfg p) seen (versions p), MkDelta frame true (states lookup_ (map eID visible)) [] [])
  else
    (MkProjector (cfg p) seen (foldl (fun v id => Delete id v) (versions p) (leave ++ removed_)),
     MkDelta frame false (states lookup_ enter)
       (states lookup_ (List.filter (fun id => bool_decide (id ∈ dirty_)) stay))
       (map stringID (leave ++ removed_))).

(** * The client *)

(** A view by printed identifier; a baseline replaces it, an increment adds, replaces, removes. *)
Definition put (v : gmap string EntityState) (st : EntityState) : gmap string EntityState := <[sID st := st]> v.
Definition drop_ (v : gmap string EntityState) (s : string) : gmap string EntityState := delete s v.

Definition apply_delta (d : Delta EntityState) (v : gmap string EntityState) : gmap string EntityState :=
  if Baseline d then foldl put ∅ (Spawn d)
  else foldl drop_ (foldl put (foldl put v (Spawn d)) (Update_ d)) (Despawn d).

(** The view shows the entities of [vis] as they are in the world [w], and nothing else. *)
Definition synced (v : gmap string EntityState) (w : ID -> option EntityState) (vis : list ID) : Prop :=
  (forall id, id ∈ vis -> v !! stringID id = w id) /\
  (forall s, (forall id, id ∈ vis -> stringID id <> s) -> v !! s = None).

(** One viewer [me] among the others: the projector, its view, and the world and the visible
    entities of its last frame since it connected. *)
Inductive action :=
  | AProject (frame : Z) (viewer : ID) (visible : list Entity) (dirty_ removed_ : list ID)
      (lookup_ : ID -> option EntityState)
  | ADrop (viewer : ID).

Record serving := MkServing {
  proj : Projector; seen : gmap string EntityState; last_ : option ((ID -> option EntityState) * list ID)
}.

Definition serve (me : ID) (s : serving) (a : action) : serving :=
  match a with
  | AProject frame viewer visible dirty_ removed_ lookup_ =>
      let '(p, d) := Project frame viewer visible dirty_ removed_ lookup_ (proj s) in
      if decide (viewer = me)
      then MkServing p (apply_delta d (seen s)) (Some (lookup_, map eID visible))
      else MkServing p (seen s) (last_ s)
  | ADrop viewer =>
      MkServing (DropViewer viewer (proj s)) (seen s) (if decide (viewer = me) then None else last_ s)
  end.

(** What the game gives for [me]: the visible entities are in the world under their own names,
    none of them is reported removed, and one that changed since the last frame is reported dirty. *)
Definition honest (me : ID) (s : serving) (a : action) : Prop :=
  match a with
  | AProject _ viewer visible dirty_ removed_ lookup_ => viewer = me ->
      Forall (fun id => exists st, lookup_ id = Some st /\ sID st = stringID id) (map eID visible) /\
      Forall (fun id => id ∉ removed_) (map eID visible) /\
      match last_ s with
      | Some (w, _) => Forall (fun id => w id = lookup_ id \/ id ∈ dirty_) (map eID visible)
      | None => True
      end
  | ADrop _ => True
  end.

Fixpoint honestly (me : ID) (s : serving) (acts : list action) : Prop :=
  match acts with
  | [] => True
  | a :: acts => honest me s a /\ honestly me (serve me s a) acts
  end.

(** ** Views *)

Definition named (w : ID -> option EntityState) (ids : list ID) : Prop :=
  Forall (fun id => exists st, w id = Some st /\ sID st = stringID id) ids.

Lemma puts_other w ids : named w ids -> forall v s, (forall id, id ∈ ids -> stringID id <> s) ->
  foldl put v (states w ids) !! s = v !! s.
Proof.
  induction 1 as [|id ids (st & E & Es) _ IH]; intros v s Hs; [done|]. cbn [states]. rewrite E. cbn [foldl].
  rewrite IH by set_solver. unfold put. rewrite lookup_insert_ne; [done|]. rewrite Es. set_solver.
Qed.

Lemma puts_in {Hinj : Inj (=) (=) stringID} w ids : named w ids -> forall v id, id ∈ ids ->
  foldl put v (states w ids) !! stringID id = w id.
Proof.
  induction 1 as [|i ids (st & E & Es) Hn IH]; intros v id Hi; [by apply not_elem_of_nil in Hi|].
  cbn [states]. rewrite E. cbn [foldl]. destruct (decide (id ∈ ids)) as [Hin|Hout]; [by apply IH|].
  apply elem_of_cons in Hi as [->|Hi]; [|done]. rewrite puts_other; [|done|].
  - unfold put. by rewrite Es, lookup_insert_eq.
  - intros j Hj Hc. apply Hinj in Hc as ->. done.
Qed.

Lemma drops_in ds : forall v s, s ∈ ds -> foldl drop_ v ds !! s = None.
Proof.
  induction ds as [|d ds IH]; intros v s Hs; [by apply not_elem_of_nil in Hs|]. cbn [foldl].
  destruct (decide (s ∈ ds)) as [Hin|Hout]; [by apply IH|]. apply elem_of_cons in Hs as [->|Hs]; [|done].
  assert (forall v, v !! d = None -> foldl drop_ v ds !! d = None) as Hk; [|apply Hk; unfold drop_; apply lookup_delete_eq].
  clear. induction ds as [|e ds IH]; intros v Hv; [done|]. cbn [foldl]. apply IH. unfold drop_.
  destruct (decide (e = d)) as [->|]; [apply lookup_delete_eq|by rewrite lookup_delete_ne].
Qed.

Lemma drops_out ds : forall v s, s ∉ ds -> foldl drop_ v ds !! s = v !! s.
Proof.
  induction ds as [|d ds IH]; intros v s Hs; [done|]. cbn [foldl]. rewrite IH by set_solver.
  unfold drop_. rewrite lookup_delete_ne; [done|set_solver].
Qed.

Lemma elem_of_bfilter (f : ID -> bool) l x : x ∈ List.filter f l <-> x ∈ l /\ f x = true.
Proof. rewrite !list_elem_of_In. apply List.filter_In. Qed.

Lemma named_sub w ids ids' : named w ids -> ids' ⊆ ids -> named w ids'.
Proof. unfold named. rewrite !Forall_forall. intros Hn Hs id Hi. apply Hn, Hs, Hi. Qed.

(** ** A frame of the viewer *)

Lemma diff_enter prev visible id : id ∈ (Diff prev visible).1.1 <-> id ∈ map eID visible /\ id ∉ prev.
Proof. cbn. rewrite elem_of_bfilter, negb_true_iff, bool_decide_eq_false. done. Qed.
Lemma diff_leave prev visible id : id ∈ (Diff prev visible).1.2 <-> id ∈ prev /\ id ∉ map eID visible.
Proof. cbn. rewrite elem_of_bfilter, negb_true_iff, bool_decide_eq_false, elem_of_elements. done. Qed.
Lemma diff_stay prev visible id : id ∈ (Diff prev visible).2 <-> id ∈ map eID visible /\ id ∈ prev.
Proof. cbn. rewrite elem_of_bfilter, bool_decide_eq_true. done. Qed.

(** An increment over a view in step with the previous frame puts it in step with this one. *)
Lemma increment_synced {Hinj : Inj (=) (=) stringID} (prev : gset ID) enter leave stay visible
    (dirty_ removed_ : list ID) w w' v :
  let vis := map eID visible in
  Diff prev visible = (enter, leave, stay) ->
  synced v w (elements prev) -> named w' vis -> Forall (fun id => id ∉ removed_) vis ->
  Forall (fun id => w id = w' id \/ id ∈ dirty_) vis ->
  synced (foldl drop_ (foldl put (foldl put v (states w' enter))
      (states w' (List.filter (fun id => bool_decide (id ∈ dirty_)) stay))) (map stringID (leave ++ removed_))) w' vis.
Proof.
  intros vis Ed [Hin Hout] Hn Hr Hd. set (upd := List.filter _ stay). rewrite Forall_forall in Hr, Hd.
  pose proof (diff_enter prev visible) as He. pose proof (diff_leave prev visible) as Hl.
  pose proof (diff_stay prev visible) as Hs. rewrite Ed in He, Hl, Hs. cbn in He, Hl, Hs. fold vis in He, Hl, Hs.
  assert (forall id, id ∈ upd <-> id ∈ stay /\ id ∈ dirty_) as Hu
    by (intros id; unfold upd; rewrite elem_of_bfilter, bool_decide_eq_true; done).
  assert (named w' enter /\ named w' upd) as [Hne Hnu] by (split; apply (named_sub _ _ _ Hn); intros id Hi; set_solver).
  assert (forall s, s ∈ map stringID (leave ++ removed_) <-> exists id, id ∈ leave ++ removed_ /\ stringID id = s) as Hm
    by (intros s; rewrite list_elem_of_fmap; split; intros (i & ? & ?); eauto).
  split.
  - intros id Hi. rewrite drops_out.
    2:{ rewrite Hm. intros (j & Hj & Ej). apply Hinj in Ej as ->. apply elem_of_app in Hj as [Hj|Hj]; [set_solver|].
        by apply (Hr id). }
    destruct (decide (id ∈ upd)) as [Hiu|Hiu]; [by apply puts_in|].
    rewrite puts_other; [|done|intros j Hj Ej; apply Hinj in Ej as ->; done].
    destruct (decide (id ∈ enter)) as [Hie|Hie]; [by apply puts_in|].
    rewrite puts_other; [|done|intros j Hj Ej; apply Hinj in Ej as ->; done].
    assert (id ∈ prev) as Hp by (destruct (decide (id ∈ prev)); [done|]; exfalso; apply Hie, He; done).
    rewrite Hin by by apply elem_of_elements. destruct (Hd id Hi) as [E|E]; [done|].
    exfalso. apply Hiu, Hu. split; [by apply Hs|done].
  - intros s Hsv. destruct (decide (s ∈ map stringID (leave ++ removed_))) as [Hsd|Hsd]; [by apply drops_in|].
    rewrite drops_out by done.
    rewrite puts_other; [|done|intros j Hj; apply Hsv; apply Hu in Hj as [Hj _]; apply Hs in Hj; apply Hj].
    rewrite puts_other; [|done|intros j Hj; apply Hsv; apply He in Hj; apply Hj].
    apply Hout. intros j Hj%elem_of_elements Ej. apply Hsd, Hm. exists j. split; [|done]. apply elem_of_app. left.
    apply Hl. split; [done|]. intros Hv. by apply (Hsv j).
Qed.

Lemma baseline_synced {Hinj : Inj (=) (=) stringID} w vis : named w vis -> synced (foldl put ∅ (states w vis)) w vis.
Proof.
  intros Hn. split; [intros id Hi; by apply puts_in|]. intros s Hs. rewrite puts_other; [apply lookup_empty|done|done].
Qed.

(** ** The invariant *)

Definition in_step (me : ID) (s : serving) : Prop :=
  match last_ s with
  | Some (w, vis) => interest (proj s) !! me = Some (list_to_set vis) /\ synced (seen s) w vis
  | None => interest (proj s) !! me = None
  end.

Lemma Project_interest frame viewer visible (dirty_ removed_ : list ID) l p :
  interest (Project frame viewer visible dirty_ removed_ l p).1 =
  <[viewer := (Update visible : gset ID)]> (interest p).
Proof. unfold Project. destruct (Diff _ _) as [[enter leave] stay]. cbv zeta. by case_match. Qed.

Lemma synced_ext v w vis vis' : (forall id, id ∈ vis <-> id ∈ vis') -> synced v w vis -> synced v w vis'.
Proof.
  intros He [H1 H2]. split; [intros id Hi; apply H1, He, Hi|]. intros s Hs. apply H2. intros id Hi. apply Hs, He, Hi.
Qed.

Lemma Project_synced {Hinj : Inj (=) (=) stringID} me s frame visible dirty_ removed_ l :
  in_step me s -> honest me s (AProject frame me visible dirty_ removed_ l) ->
  synced (apply_delta (Project frame me visible dirty_ removed_ l (proj s)).2 (seen s)) l (map eID visible).
Proof.
  intros Hs Hh. destruct (Hh eq_refl) as (Hn & Hr & Hd). unfold Project.
  destruct (Diff (Interest me (proj s)) visible) as [[enter leave] stay] eqn:Ed. cbv zeta.
  set (b := _ && fleb _ _). destruct (size (Interest me (proj s)) =? 0)%nat eqn:E0.
  { unfold apply_delta. cbn [snd Baseline Spawn]. by apply baseline_synced. }
  destruct b; unfold apply_delta; cbn [snd Baseline Spawn Update_ Despawn]; [by apply baseline_synced|].
  unfold in_step in Hs. unfold Interest in *. destruct (last_ s) as [[w vis]|].
  - destruct Hs as [Ei Hs]. rewrite Ei in Ed. cbn [default] in Ed.
    eapply increment_synced; try done. revert Hs. apply synced_ext. intros id.
    rewrite elem_of_elements. set_solver.
  - rewrite Hs in E0. done.
Qed.

Lemma serve_in_step {Hinj : Inj (=) (=) stringID} me s a : in_step me s -> honest me s a -> in_step me (serve me s a).
Proof.
  intros Hs Hh. destruct a as [frame viewer visible dirty_ removed_ l|viewer]; cbn [serve].
  - pose proof (Project_interest frame viewer visible dirty_ removed_ l (proj s)) as Hi.
    pose proof (Project_synced me s frame visible dirty_ removed_ l Hs) as Hp.
    destruct (decide (viewer = me)) as [->|Hne].
    + specialize (Hp Hh). destruct (Project frame me visible dirty_ removed_ l (proj s)) as [p d]. cbn in *.
      unfold in_step. cbn. split; [by rewrite Hi, lookup_insert_eq|done].
    + clear Hp. destruct (Project frame viewer visible dirty_ removed_ l (proj s)) as [p d]. cbn in *.
      unfold in_step in *. cbn. by rewrite Hi, lookup_insert_ne.
  - unfold in_step in *. cbn. destruct (decide (viewer = me)) as [->|Hne]; [by rewrite lookup_delete_eq|].
    by rewrite lookup_delete_ne.
Qed.

Lemma serve_all {Hinj : Inj (=) (=) stringID} me acts : forall s, in_step me s -> honestly me s acts ->
  in_step me (foldl (serve me) s acts).
Proof.
  induction acts as [|a acts IH]; intros s Hs Hh; [done|]. destruct Hh as [Ha Hh]. cbn [foldl]. apply IH; [|done].
  by apply serve_in_step.
Qed.

(** C23: Whatever frames the projector computes for the viewers and whoever disconnects and comes
    back, a viewer that applies the deltas it is given shows, after each of its frames, the entities
    visible to it exactly as they are in the world and nothing else, as long as the game marks dirty
    the visible entities it changed and does not report a visible one as removed. Whether a delta is
    a baseline or an increment makes no difference. *)
Theorem viewer_synchronized {Hinj : Inj (=) (=) stringID} me c acts :
  let s0 := MkServing (NewProjector c) ∅ None in
  honestly me s0 acts -> let s := foldl (serve me) s0 acts in
  match last_ s with Some (w, vis) => synced (seen s) w vis | None => True end.
Proof.
  intros s0 Hh s. pose proof (serve_all me acts s0 eq_refl Hh) as Hi. fold s in Hi. unfold in_step in Hi.
  destruct (last_ s) as [[w vis]|]; [apply Hi|done].
Qed.
End replicate.

(** * Concrete runs *)

Definition sent_of (f : Z) : act := ASent (MkDelta (St := unit) f false [] [] []).

Lemma catch_up_complete_witness :
  let v := run [sent_of 1; sent_of 2; AAck 1; sent_of 3] (NewViewerTrack (Some (NewJournal 2))) in
  let '(v', b) := OnAck 1 v in
  (lastAck v' < lastSent v' -> exists k, Deltas b = drop k (List.filter (fun x => lastAck v' <? Frame x)
     (sent [sent_of 1; sent_of 2; AAck 1; sent_of 3]))) /\
  (Truncated b = false ->
     foldl (fun n (_ : Delta unit) => S n) (foldl (fun n _ => S n) O (List.filter (fun x => Frame x <=? lastAck v')
       (sent [sent_of 1; sent_of 2; AAck 1; sent_of 3]))) (Deltas b)
     = foldl (fun n _ => S n) O (sent [sent_of 1; sent_of 2; AAck 1; sent_of 3])).
Proof.
  exact (catch_up_complete (fun n (_ : Delta unit) => S n) O 2 [sent_of 1; sent_of 2; AAck 1; sent_of 3] 1
    (conj (Z.le_0_1) (conj (proj1 (Z.leb_le 1 2) eq_refl) (conj (proj1 (Z.leb_le 2 3) eq_refl) I)))).
Defined.

Definition at_ (id : string) : Entity (Coord := Z) := MkEntity id 0 0 0.
Definition named_states (names : list string) (id : string) : option (EntityState (Coord := Z) (Payload_ := unit)) :=
  if bool_decide (id ∈ names) then Some (MkState id 0 0 0 tt) else None.

Lemma viewer_synchronized_witness :
  let acts := [AProject 1 "me" [at_ "a"; at_ "b"] [] [] (named_states ["a"; "b"]);
               AProject 1 "you" [at_ "b"] [] [] (named_states ["a"; "b"]);
               AProject 2 "me" [at_ "b"] ["b"] ["a"] (named_states ["b"])] in
  let s := foldl (serve (fun x => x) "me") (MkServing (NewProjector (MkConfig (of_int 1))) ∅ None) acts in
  match last_ s with Some (w, vis) => synced (fun x => x) (seen s) w vis | None => True end.
Proof.
  apply (viewer_synchronized (fun x => x)). cbn [honestly honest].
  split_and!; try exact I; intros E; try discriminate E; split_and!; try exact I; cbn [map eID at_];
    repeat apply Forall_cons_2; try apply Forall_nil_2.
  all: try (eexists; split; [vm_compute; reflexivity|reflexivity]).
  all: try (apply (bool_decide_unpack _); vm_compute; exact I).
  right. apply (bool_decide_unpack _). vm_compute. exact I.
Defined.

(** ** The shared version table *)

(** The table belongs to the projector, and an entity leaving the sight of one viewer is deleted
    from it while another still sees it: the entity's next version is 1 again for everybody. *)
Lemma versions_regress :
  let five := [at_ "a"; at_ "b"; at_ "c"; at_ "d"; at_ "e"] in
  let l := named_states ["a"; "b"; "c"; "d"; "e"] in
  let frame f v vis p := (Project (fun x => x) f v vis [] [] l p).1 in
  let p := frame 1 "you" five (frame 1 "me" five (NewProjector (MkConfig (of_int 0)))) in
  let p := MkProjector (cfg p) (interest p) (Bump "a" (Bump "a" (versions p)).1).1 in
  let p' := frame 2 "me" [at_ "b"; at_ "c"; at_ "d"; at_ "e"] p in
  Get "a" (versions p) = 2 /\ bool_decide ("a" ∈ Interest "you" p') = true /\
  (Bump "a" (versions p')).2 = 1.
Proof. vm_compute. split; [reflexivity|]. split; reflexivity. Qed.
