(* ===== verification/Pathfind.v ===== *)
(** Path finding on a grid ([pkg/game/pathfind/pathfind.go]): A* over the heap of
    [container/heap], with [float64] scores; the path found is a shortest one. *)
From Stdlib Require Import ZArith Lia Bool Floats.SpecFloat.
From stdpp Require Import base numbers strings list sets.
From S2P Require Import Prelude Float64 Priority Heap.

Open Scope Z_scope.

(** * The grid *)

Record Point := MkPoint { X : Z; Y : Z }.
#[export] Instance Point_eq_dec : EqDecision Point.
Proof. solve_decision. Defined.

Record config := MkConfig { allowDiagonal : bool; allowCutCorner : bool }.
Definition WithDiagonal (allow : bool) (c : config) : config := MkConfig allow (allowCutCorner c).
Definition WithCutCorner (allow : bool) (c : config) : config := MkConfig (allowDiagonal c) allow.

Record Grid := MkGrid { w : Z; h : Z; blocked : list bool; cost : list Z }.

(** [make] refuses a negative length; the product is the wrapped one of [int]. *)
Definition makeslice {A} (n : Z) (v : A) : go (list A) :=
  if n <? 0 then Panic "runtime error: makeslice: len out of range" else Ret (replicate (Z.to_nat n) v).

Definition NewGrid (width height : Z) : go Grid :=
  let width := if width <? 0 then 0 else width in
  let height := if height <? 0 then 0 else height in
  let n := wrap64 (width * height) in
  cost ← makeslice n 1;
  blocked ← makeslice n false;
  Ret (MkGrid width height blocked cost).

Definition Width (g : Grid) : Z := w g.
Definition Height (g : Grid) : Z := h g.

Definition InBounds (g : Grid) (p : Point) : bool :=
  (0 <=? X p) && (X p <? w g) && (0 <=? Y p) && (Y p <? h g).

Definition idx (g : Grid) (p : Point) : Z := Y p * w g + X p.

Definition SetBlocked (p : Point) (b : bool) (g : Grid) : go Grid :=
  if InBounds g p then l ← set_index (blocked g) (idx g p) b; Ret (MkGrid (w g) (h g) l (cost g)) else Ret g.

Definition IsBlocked (g : Grid) (p : Point) : go bool :=
  if negb (InBounds g p) then Ret true else index (blocked g) (idx g p).

Definition SetCost (p : Point) (c : Z) (g : Grid) : go Grid :=
  if negb (InBounds g p) then Ret g
  else
    let c := if c <? 1 then 1 else c in
    l ← set_index (cost g) (idx g p) c; Ret (MkGrid (w g) (h g) (blocked g) l).

Definition costAt (g : Grid) (p : Point) : go Z := index (cost g) (idx g p).

(** * The search *)

(** The position a node keeps in the heap is written by [Swap] and read nowhere. *)
Record node := MkNode { p : Point; g_ : float64; f : float64 }.

Definition Less (a b : node) : bool := fltb (f a) (f b).

Definition ortho : list Point := [MkPoint 0 (-1); MkPoint 0 1; MkPoint (-1) 0; MkPoint 1 0].
Definition diag : list Point := [MkPoint (-1) (-1); MkPoint 1 (-1); MkPoint (-1) 1; MkPoint 1 1].

Fixpoint ortho_loop (g : Grid) (q : Point) (ds : list Point) (out : list Point) : go (list Point) :=
  match ds with
  | [] => Ret out
  | d :: ds =>
      let np := MkPoint (X q + X d) (Y q + Y d) in
      b ← IsBlocked g np;
      ortho_loop g q ds (if negb b : bool then out ++ [np] else out)
  end.

Fixpoint diag_loop (g : Grid) (q : Point) (cfg : config) (ds : list Point) (out : list Point) : go (list Point) :=
  match ds with
  | [] => Ret out
  | d :: ds =>
      let np := MkPoint (X q + X d) (Y q + Y d) in
      b ← IsBlocked g np;
      if b : bool then diag_loop g q cfg ds out
      else
        corner ← (if negb (allowCutCorner cfg)
                  then b1 ← IsBlocked g (MkPoint (X q + X d) (Y q));
                       if b1 : bool then Ret true else IsBlocked g (MkPoint (X q) (Y q + Y d))
                  else Ret false);
        diag_loop g q cfg ds (if corner : bool then out else out ++ [np])
  end.

Definition neighbors (g : Grid) (q : Point) (cfg : config) : go (list Point) :=
  out ← ortho_loop g q ortho [];
  if negb (allowDiagonal cfg) then Ret out else diag_loop g q cfg diag out.

(** [math.Sqrt2], and the constant [math.Sqrt2-2] rounded once, as doubles. *)
Definition Sqrt2 : float64 := S754_finite false 6369051672525773 (-52).
Definition Sqrt2_minus_2 : float64 := S754_finite true 5276295164430439 (-53).

Definition heuristic (a b : Point) (diagonal : bool) : float64 :=
  let dx := fabs (of_int (X a - X b)) in
  let dy := fabs (of_int (Y a - Y b)) in
  if diagonal then fadd (fadd dx dy) (fmul Sqrt2_minus_2 (fmin dx dy)) else fadd dx dy.

Fixpoint reconstruct_loop (fuel : nat) (cameFrom : list Z) (w cur fromIdx : Z) (rev : list Point) : go (list Point) :=
  match fuel with
  | O => Panic "out of fuel"
  | S fuel =>
      if cur =? -1 then Ret rev
      else
        let rev := rev ++ [MkPoint (Z.rem cur w) (Z.quot cur w)] in
        if cur =? fromIdx then Ret rev
        else cur ← index cameFrom cur; reconstruct_loop fuel cameFrom w cur fromIdx rev
  end.

(** The swaps of the last loop reverse the list. *)
Definition reconstruct (cameFrom : list Z) (w : Z) (to from : Point) : go (list Point) :=
  rev ← reconstruct_loop (S (length cameFrom)) cameFrom w (Y to * w + X to) (Y from * w + X from) [];
  Ret (reverse rev).

Record search := MkSearch { gScore : list float64; cameFrom : list Z; closed : list bool; open_ : list node }.

Definition push (l : list node) (x : node) : go (list node) := @hPush _ _ (slice_interface Less) l x.
Definition pop (l : list node) : go (list node * node) := @hPop _ _ (slice_interface Less) l.

(** The loop over the neighbours of the cell [cur] just closed. *)
Fixpoint relax_loop (g : Grid) (cfg : config) (to cur : Point) (nbs : list Point) (s : search) : go search :=
  match nbs with
  | [] => Ret s
  | nb :: nbs =>
      let ni := idx g nb in
      c ← index (closed s) ni;
      if c : bool then relax_loop g cfg to cur nbs s
      else
        k ← costAt g nb;
        let step := of_int k in
        let step := if negb (X nb =? X cur) && negb (Y nb =? Y cur) then fmul step Sqrt2 else step in
        gc ← index (gScore s) (idx g cur);
        let tentative := fadd gc step in
        gn ← index (gScore s) ni;
        if fltb tentative gn then
          gs ← set_index (gScore s) ni tentative;
          cf ← set_index (cameFrom s) ni (idx g cur);
          open ← push (open_ s) (MkNode nb tentative (fadd tentative (heuristic nb to (allowDiagonal cfg))));
          relax_loop g cfg to cur nbs (MkSearch gs cf (closed s) open)
        else relax_loop g cfg to cur nbs s
  end.

Fixpoint search_loop (fuel : nat) (g : Grid) (cfg : config) (from to : Point) (s : search) : go (list Point) :=
  match fuel with
  | O => Panic "out of fuel"
  | S fuel =>
      if Z.of_nat (length (open_ s)) <=? 0 then Ret []
      else
        '(open, cur) ← pop (open_ s);
        let s := MkSearch (gScore s) (cameFrom s) (closed s) open in
        let ci := idx g (p cur) in
        if decide (p cur = to) then reconstruct (cameFrom s) (w g) to from
        else
          c ← index (closed s) ci;
          if c : bool then search_loop fuel g cfg from to s
          else
            cl ← set_index (closed s) ci true;
            nbs ← neighbors g (p cur) cfg;
            s ← relax_loop g cfg to (p cur) nbs (MkSearch (gScore s) (cameFrom s) cl open);
            search_loop fuel g cfg from to s
  end.

(** A cell is closed once and then pushes at most eight nodes: [8 n + 2] turns are enough. *)
Definition FindPath (g : Grid) (from to : Point) (cfg : config) : go (list Point) :=
  if negb (InBounds g from) || negb (InBounds g to) then Ret []
  else
    bf ← IsBlocked g from;
    bt ← (if bf : bool then Ret true else IsBlocked g to);
    if bt : bool then Ret []
    else if decide (from = to) then Ret [from]
    else
      let n := wrap64 (w g * h g) in
      gs ← makeslice n infinity;
      cf ← makeslice n (-1);
      cl ← makeslice n false;
      let start := MkNode from (of_int 0) (heuristic from to (allowDiagonal cfg)) in
      gs ← set_index gs (idx g from) (of_int 0);
      open ← @hInit _ _ (slice_interface Less) [start];
      search_loop (8 * Z.to_nat n + 2) g cfg from to (MkSearch gs cf cl open).

(** * Paths *)

Definition free (g : Grid) (q : Point) : Prop := IsBlocked g q = Ret false.

(** A legal step: to a free cell beside, or, when allowed, across a corner whose two sides are
    free unless corners may be cut. *)
Definition edge (g : Grid) (cfg : config) (u v : Point) : Prop :=
  free g v /\
  (Z.abs (X v - X u) + Z.abs (Y v - Y u) = 1 \/
   allowDiagonal cfg = true /\ Z.abs (X v - X u) = 1 /\ Z.abs (Y v - Y u) = 1 /\
   (allowCutCorner cfg = true \/ free g (MkPoint (X v) (Y u)) /\ free g (MkPoint (X u) (Y v)))).

Fixpoint walk (g : Grid) (cfg : config) (u : Point) (l : list Point) : Prop :=
  match l with [] => True | v :: l => edge g cfg u v /\ walk g cfg v l end.

(** [l] leads from [from] to [to]. *)
Definition path (g : Grid) (cfg : config) (from to : Point) (l : list Point) : Prop :=
  exists l', l = from :: l' /\ walk g cfg from l' /\ last l = Some to.

Definition cost_of (g : Grid) (q : Point) : Z := default 1 (cost g !! Z.to_nat (idx g q)).

(** The cost of entering the cells of [l] after the first. *)
Definition path_cost (g : Grid) (l : list Point) : Z := foldr (fun q c => cost_of g q + c) 0 (tail l).

Record wf (g : Grid) : Prop := {
  wf_w : 0 <= w g; wf_h : 0 <= h g; wf_size : w g * h g < 2 ^ 63;
  wf_blocked : length (blocked g) = Z.to_nat (w g * h g);
  wf_cost : length (cost g) = Z.to_nat (w g * h g);
  wf_pos : Forall (fun c => 1 <= c) (cost g)
}.

(** ** Cells *)

Section grid.
Context (g : Grid) (Hg : wf g).

Lemma inb_iff q : InBounds g q = true <-> 0 <= X q < w g /\ 0 <= Y q < h g.
Proof. unfold InBounds. rewrite !andb_true_iff, !Z.leb_le, !Z.ltb_lt. lia. Qed.

(** The slot of a cell. *)
Definition slot (q : Point) : nat := Z.to_nat (idx g q).
Definition cells : nat := Z.to_nat (w g * h g).

Lemma idx_range q : InBounds g q = true -> 0 <= idx g q < w g * h g.
Proof. rewrite inb_iff. unfold idx. nia. Qed.

Lemma slot_idx q : InBounds g q = true -> idx g q = Z.of_nat (slot q).
Proof. intros Hq. apply idx_range in Hq. unfold slot. lia. Qed.

Lemma slot_lt q : InBounds g q = true -> (slot q < cells)%nat.
Proof. intros Hq. apply idx_range in Hq. unfold slot, cells. lia. Qed.

Lemma idx_point q : InBounds g q = true -> MkPoint (Z.rem (idx g q) (w g)) (Z.quot (idx g q) (w g)) = q.
Proof.
  intros Hq. pose proof (idx_range q Hq). apply inb_iff in Hq. destruct q as [x y]. unfold idx in *. cbn [X Y] in *.
  rewrite Z.rem_mod_nonneg, Z.quot_div_nonneg by lia. f_equal.
  - rewrite Z.add_comm, Z_mod_plus_full. apply Z.mod_small. lia.
  - rewrite Z.div_add_l by lia. rewrite Z.div_small by lia. lia.
Qed.

Lemma slot_inj q q' : InBounds g q = true -> InBounds g q' = true -> slot q = slot q' -> q = q'.
Proof.
  intros Hq Hq' E. rewrite <- (idx_point q), <- (idx_point q') by done. by rewrite !slot_idx, E by done.
Qed.

Lemma IsBlocked_total q : exists b, IsBlocked g q = Ret b.
Proof.
  unfold IsBlocked. destruct (InBounds g q) eqn:E; [|by exists true]. cbn [negb]. rewrite slot_idx by done.
  destruct (lookup_lt_is_Some_2 (blocked g) (slot q)) as [b Hb].
  - rewrite (wf_blocked _ Hg). by apply slot_lt.
  - exists b. by apply index_lookup.
Qed.

Lemma free_inb q : free g q -> InBounds g q = true.
Proof. unfold free, IsBlocked. by destruct (InBounds g q). Qed.

Lemma costAt_spec q : InBounds g q = true -> costAt g q = Ret (cost_of g q) /\ 1 <= cost_of g q.
Proof.
  intros Hq. unfold costAt, cost_of. rewrite slot_idx by done. rewrite Nat2Z.id.
  destruct (lookup_lt_is_Some_2 (cost g) (slot q)) as [c Hc].
  - rewrite (wf_cost _ Hg). by apply slot_lt.
  - rewrite Hc. split; [by apply index_lookup|]. cbn. pose proof (wf_pos _ Hg) as Hp. rewrite Forall_lookup in Hp. eauto.
Qed.

(** ** Neighbours *)

Definition beside (u v : Point) : Prop := Z.abs (X v - X u) + Z.abs (Y v - Y u) = 1.
Definition shift (u d : Point) : Point := MkPoint (X u + X d) (Y u + Y d).

Lemma ortho_loop_spec u ds : forall out, exists l, ortho_loop g u ds out = Ret (out ++ l) /\ (length l <= length ds)%nat /\
  forall v, v ∈ l <-> free g v /\ exists d, d ∈ ds /\ v = shift u d.
Proof.
  induction ds as [|d ds IH]; intros out; cbn [ortho_loop].
  { exists []. rewrite app_nil_r. split; [done|]. split; [done|]. set_solver. }
  destruct (IsBlocked_total (shift u d)) as [b Hb]. fold (shift u d). rewrite Hb. cbn [mbind go_bind].
  destruct (IH (if negb b then out ++ [shift u d] else out)) as (l & -> & Hl & Hin).
  destruct b; cbn [negb] in *.
  - exists l. split; [done|]. split; [simpl; lia|]. intros v. rewrite Hin. split; intros [Hf (e & He & ->)].
    + split; [done|]. exists e. set_solver.
    + split; [done|]. exists e. split; [|done]. apply elem_of_cons in He as [->|]; [unfold free in Hf; congruence|done].
  - exists (shift u d :: l). rewrite <- app_assoc. split; [done|]. split; [simpl; lia|]. intros v.
    rewrite elem_of_cons, Hin. split.
    + intros [->|[Hf (e & He & ->)]]; (split; [done|]); [exists d|exists e]; (split; [|done]); apply elem_of_cons; auto.
    + intros [Hf (e & He & ->)]. apply elem_of_cons in He as [->|]; [by left|]. right. split; [done|]. by exists e.
Qed.

Definition corner_ok (cfg : config) (u v : Point) : Prop :=
  allowCutCorner cfg = true \/ free g (MkPoint (X v) (Y u)) /\ free g (MkPoint (X u) (Y v)).

Lemma diag_loop_spec u cfg ds : forall out, exists l, diag_loop g u cfg ds out = Ret (out ++ l) /\ (length l <= length ds)%nat /\
  forall v, v ∈ l <-> free g v /\ corner_ok cfg u v /\ exists d, d ∈ ds /\ v = shift u d.
Proof.
  induction ds as [|d ds IH]; intros out; cbn [diag_loop].
  { exists []. rewrite app_nil_r. split; [done|]. split; [done|]. set_solver. }
  assert (forall l : list Point, (forall v, v ∈ l <-> free g v /\ corner_ok cfg u v /\ exists d, d ∈ ds /\ v = shift u d) ->
    ~ (free g (shift u d) /\ corner_ok cfg u (shift u d)) ->
    forall v, v ∈ l <-> free g v /\ corner_ok cfg u v /\ exists e, e ∈ d :: ds /\ v = shift u e) as Hskip.
  { intros l Hin Hn v. rewrite Hin. split; intros (Hf & Hc & e & He & ->); (split; [done|]); (split; [done|]).
    - exists e. set_solver.
    - exists e. split; [|done]. apply elem_of_cons in He as [->|]; [by exfalso; apply Hn|done]. }
  destruct (IsBlocked_total (shift u d)) as [b Hb]. fold (shift u d). rewrite Hb. cbn [mbind go_bind]. destruct b.
  { destruct (IH out) as (l & -> & Hl & Hin). exists l. split; [done|]. split; [simpl; lia|]. apply Hskip; [done|].
    intros [Hf _]. unfold free in Hf. congruence. }
  destruct (IsBlocked_total (MkPoint (X u + X d) (Y u))) as [b1 Hb1].
  destruct (IsBlocked_total (MkPoint (X u) (Y u + Y d))) as [b2 Hb2]. rewrite Hb1, Hb2. cbn [mbind go_bind].
  assert (exists c : bool, (if negb (allowCutCorner cfg) then if b1 then Ret true else Ret b2 else Ret false) = Ret c /\
    (c = false <-> corner_ok cfg u (shift u d))) as (c & -> & Hc).
  { unfold corner_ok, free. cbn [X Y shift]. rewrite Hb1, Hb2.
    destruct (allowCutCorner cfg), b1, b2; cbn; eexists; (split; [reflexivity|]); naive_solver. }
  cbn [mbind go_bind]. destruct (IH (if c then out else out ++ [shift u d])) as (l & -> & Hl & Hin). destruct c.
  - exists l. split; [done|]. split; [simpl; lia|]. apply Hskip; [done|]. intros [_ H]. by apply Hc in H.
  - exists (shift u d :: l). rewrite <- app_assoc. split; [done|]. split; [simpl; lia|]. intros v.
    rewrite elem_of_cons, Hin. split.
    + intros [->|(Hf & Hk & e & He & ->)]; (split; [done|]); (split; [try done; by apply Hc|]); [exists d|exists e];
        (split; [|done]); apply elem_of_cons; auto.
    + intros (Hf & Hk & e & He & ->). apply elem_of_cons in He as [->|]; [by left|]. right.
      split; [done|]. split; [done|]. by exists e.
Qed.

Lemma ortho_shift u v : (exists d, d ∈ ortho /\ v = shift u d) <-> beside u v.
Proof.
  unfold beside. split.
  - intros (d & Hd & ->). unfold ortho in Hd. rewrite !elem_of_cons in Hd.
    destruct Hd as [->|[->|[->|[->|[]%not_elem_of_nil]]]]; cbn; lia.
  - destruct u as [x y], v as [x' y']. cbn [X Y]. intros H.
    assert ((x' = x + 0 /\ y' = y + -1) \/ (x' = x + 0 /\ y' = y + 1) \/ (x' = x + -1 /\ y' = y + 0) \/
      (x' = x + 1 /\ y' = y + 0)) as Hc by lia.
    unfold ortho. destruct Hc as [[-> ->]|[[-> ->]|[[-> ->]|[-> ->]]]];
      [exists (MkPoint 0 (-1))|exists (MkPoint 0 1)|exists (MkPoint (-1) 0)|exists (MkPoint 1 0)];
      (split; [set_solver|reflexivity]).
Qed.

Lemma diag_shift u v : (exists d, d ∈ diag /\ v = shift u d) <-> Z.abs (X v - X u) = 1 /\ Z.abs (Y v - Y u) = 1.
Proof.
  split.
  - intros (d & Hd & ->). unfold diag in Hd. rewrite !elem_of_cons in Hd.
    destruct Hd as [->|[->|[->|[->|[]%not_elem_of_nil]]]]; cbn; lia.
  - destruct u as [x y], v as [x' y']. cbn [X Y]. intros H.
    assert ((x' = x + -1 /\ y' = y + -1) \/ (x' = x + 1 /\ y' = y + -1) \/ (x' = x + -1 /\ y' = y + 1) \/
      (x' = x + 1 /\ y' = y + 1)) as Hc by lia.
    unfold diag. destruct Hc as [[-> ->]|[[-> ->]|[[-> ->]|[-> ->]]]];
      [exists (MkPoint (-1) (-1))|exists (MkPoint 1 (-1))|exists (MkPoint (-1) 1)|exists (MkPoint 1 1)];
      (split; [set_solver|reflexivity]).
Qed.

(** The cells [neighbors] answers are those one legal step away. *)
Lemma neighbors_spec u cfg : exists l, neighbors g u cfg = Ret l /\ (length l <= 8)%nat /\
  forall v, v ∈ l <-> edge g cfg u v.
Proof.
  unfold neighbors. destruct (ortho_loop_spec u ortho []) as (l & -> & Hl & Hin). cbn [mbind go_bind app].
  unfold edge. destruct (allowDiagonal cfg) eqn:Ea; cbn [negb].
  - destruct (diag_loop_spec u cfg diag l) as (l' & -> & Hl' & Hin'). exists (l ++ l'). split; [done|].
    rewrite length_app. cbn in Hl, Hl'. split; [lia|]. intros v.
    rewrite elem_of_app, Hin, Hin', ortho_shift, diag_shift. unfold corner_ok, beside. tauto.
  - exists l. split; [done|]. cbn in Hl. split; [lia|]. intros v. rewrite Hin, ortho_shift. unfold beside.
    split; [tauto|]. intros [Hf [Hb|[Hb _]]]; [tauto|done].
Qed.

Lemma edge_inb cfg u v : edge g cfg u v -> InBounds g v = true.
Proof. intros [Hf _]. by apply free_inb. Qed.

Lemma edge_ne cfg u v : edge g cfg u v -> u <> v.
Proof. intros [_ H] ->. lia. Qed.
End grid.

Lemma walk_snoc g cfg l : forall u x v, walk g cfg u l -> last (u :: l) = Some x -> edge g cfg x v -> walk g cfg u (l ++ [v]).
Proof.
  induction l as [|y l IH]; intros u x v Hw Hl He.
  - injection Hl as ->. by split.
  - destruct Hw as [Hy Hw]. split; [done|]. apply (IH y x); [done|by rewrite last_cons_cons in Hl|done].
Qed.

Lemma path_snoc g cfg from u v l : path g cfg from u l -> edge g cfg u v -> path g cfg from v (l ++ [v]).
Proof.
  intros (l' & -> & Hw & Hl) He. exists (l' ++ [v]). split; [done|].
  split; [by eapply walk_snoc|by rewrite last_snoc].
Qed.

(** ** The state of the search *)

Section search.
Context (g : Grid) (Hg : wf g) (cfg : config) (from to : Point).
Context (Hfrom : free g from) (Hto : free g to).

Definition is_closed (s : search) (q : Point) : Prop := closed s !! slot g q = Some true.
Definition closed_count (cl : list bool) : nat := length (List.filter (fun b : bool => b) cl).

(** The cells g [cameFrom] leads back through, down to the start. *)
Inductive trace (cf : list Z) : list Point -> Prop :=
  | trace_from : trace cf [from]
  | trace_step v u rp : v <> from -> cf !! slot g v = Some (idx g u) -> edge g cfg u v -> InBounds g u = true ->
      trace cf (u :: rp) -> trace cf (v :: u :: rp).

Definition came (s : search) (v : Point) : Prop :=
  exists u, is_closed s u /\ InBounds g u = true /\ edge g cfg u v /\ v <> from /\ cameFrom s !! slot g v = Some (idx g u).

Record base (s : search) : Prop := {
  b_gs : length (gScore s) = cells g;
  b_cf : length (cameFrom s) = cells g;
  b_cl : length (closed s) = cells g;
  b_open : forall nd, nd ∈ open_ s -> free g (p nd) /\ (p nd = from \/ came s (p nd));
  b_trace : forall q, InBounds g q = true -> is_closed s q -> exists rp, trace (cameFrom s) (q :: rp) /\
    Forall (is_closed s) (q :: rp) /\ (length (q :: rp) <= closed_count (closed s))%nat
}.

Lemma count_close cl i : cl !! i = Some false -> closed_count (<[i := true]> cl) = S (closed_count cl).
Proof.
  unfold closed_count. revert i. induction cl as [|b cl IH]; intros [|i] Hi; try done.
  - injection Hi as ->. done.
  - cbn. destruct b; cbn [length]; by rewrite IH.
Qed.

Lemma count_lt cl i : cl !! i = Some false -> (closed_count cl < length cl)%nat.
Proof.
  intros Hi. pose proof (count_close cl i Hi) as H. pose proof (List.filter_length_le (fun b : bool => b) (<[i := true]> cl)) as Hl.
  pose proof (length_insert cl i true). unfold closed_count in *. lia.
Qed.

Lemma trace_path cf q rp : trace cf (q :: rp) -> path g cfg from q (reverse (q :: rp)).
Proof.
  intros H. remember (q :: rp) as l eqn:E. revert q rp E. induction H as [|v u rp Hv Hcf He Hu H IH]; intros q rp' [= <- <-].
  - exists []. done.
  - rewrite reverse_cons. apply (path_snoc _ _ _ u); [|done]. by apply (IH u rp).
Qed.

Lemma trace_start cf l : trace cf l -> from ∈ l.
Proof. induction 1 as [|v u rp _ _ _ _ _ IH]; set_solver. Qed.

(** A change of [cameFrom] at a cell that is not closed leaves the traces of the closed ones. *)
Lemma trace_keep cf cf' (C : Point -> Prop) l : (forall q, C q -> cf' !! slot g q = cf !! slot g q) ->
  Forall C l -> trace cf l -> trace cf' l.
Proof.
  intros Hk Hl H. induction H as [|v u rp Hv Hcf He Hu H IH]; [constructor|].
  apply Forall_cons in Hl as [Hc Hl]. constructor; [done| |done|done|by apply IH]. by rewrite Hk.
Qed.

Lemma trace_inb cf q rp : trace cf (q :: rp) -> InBounds g q = true.
Proof.
  inversion 1; subst; [by apply free_inb|]. by eapply edge_inb.
Qed.

Lemma from_closed s q : base s -> InBounds g q = true -> is_closed s q -> is_closed s from.
Proof.
  intros Hb Hq Hc. destruct (b_trace _ Hb q Hq Hc) as (rp & Ht & Hf & _). apply trace_start in Ht.
  rewrite Forall_forall in Hf. by apply Hf.
Qed.

(** ** The loops return *)

Lemma push_perm l x : exists l', push l x = Ret l' /\ l' ≡ₚ x :: l.
Proof.
  destruct (@hPush_perm _ _ Less (slice_interface Less) (slice_lawful Less) l x) as (l' & E & _ & Hp); [done..|]. by exists l'.
Qed.

Lemma pop_perm l : l <> [] -> exists l' x, pop l = Ret (l', x) /\ x :: l' ≡ₚ l.
Proof.
  intros Hl. destruct (@hPop_perm _ _ Less (slice_interface Less) (slice_lawful Less) l) as (l' & x & E & _ & Hp); [done..|].
  by exists l', x.
Qed.

(** One neighbour that is not closed: the better way to it, and its node. *)
Lemma relax_step_base s cur nb t f' open : base s -> is_closed s cur -> InBounds g cur = true -> edge g cfg cur nb ->
  closed s !! slot g nb = Some false -> open ≡ₚ MkNode nb t f' :: open_ s ->
  base (MkSearch (<[slot g nb := t]> (gScore s)) (<[slot g nb := idx g cur]> (cameFrom s)) (closed s) open).
Proof.
  intros Hb Hc Hq He Hn Hp. pose proof (from_closed s cur Hb Hq Hc) as Hf. pose proof (edge_inb _ _ _ _ He) as Hnb.
  assert (forall q, InBounds g q = true -> slot g q = slot g nb -> q = nb) as Hinj by (intros q Hq' E; by apply (slot_inj g q nb)).
  assert (nb <> from) as Hnf by (intros ->; unfold is_closed in Hf; congruence).
  assert (slot g nb < length (cameFrom s))%nat as Hlt by (rewrite (b_cf _ Hb); by apply slot_lt).
  split; cbn [gScore cameFrom closed open_]; rewrite ?length_insert; try apply Hb.
  - intros nd Hnd. rewrite Hp in Hnd. apply elem_of_cons in Hnd as [->|Hnd]; cbn [p].
    + split; [apply He|]. right. exists cur. split_and!; try done. cbn. by apply list_lookup_insert_eq.
    + destruct (b_open _ Hb nd Hnd) as [Hfr [E|(u & Hu & Hub & Hue & Hne & Hcf)]]; (split; [done|]); [by left|]. right.
      destruct (decide (p nd = nb)) as [E|E].
      * exists cur. rewrite E. split_and!; try done. cbn. by apply list_lookup_insert_eq.
      * exists u. split_and!; try done. cbn. rewrite list_lookup_insert_ne; [done|].
        intros Es. apply E, Hinj; [by apply free_inb|done].
  - intros q Hqb Hqc. destruct (b_trace _ Hb q Hqb Hqc) as (rp & Ht & Hfa & Hl). exists rp. split_and!; try done.
    revert Ht. apply (trace_keep _ _ (is_closed s)); [|done]. intros q' Hq'. rewrite list_lookup_insert_ne; [done|].
    intros E. unfold is_closed in Hq'. rewrite <- E in Hq'. congruence.
Qed.

Lemma lookup_score s q : base s -> InBounds g q = true -> exists x, gScore s !! slot g q = Some x.
Proof. intros Hb Hq. apply lookup_lt_is_Some_2. rewrite (b_gs _ Hb). by apply slot_lt. Qed.

Lemma lookup_closed s q : base s -> InBounds g q = true -> exists b, closed s !! slot g q = Some b.
Proof. intros Hb Hq. apply lookup_lt_is_Some_2. rewrite (b_cl _ Hb). by apply slot_lt. Qed.

Definition stepTo (cur nb : Point) : float64 :=
  if negb (X nb =? X cur) && negb (Y nb =? Y cur) then fmul (of_int (cost_of g nb)) Sqrt2 else of_int (cost_of g nb).

(** What the body of the loop does with one neighbour. *)
Lemma relax_cons cur nb nbs s gc gn : base s -> InBounds g cur = true -> InBounds g nb = true ->
  gScore s !! slot g cur = Some gc -> gScore s !! slot g nb = Some gn ->
  let t := fadd gc (stepTo cur nb) in
  (is_closed s nb \/ closed s !! slot g nb = Some false /\ fltb t gn = false) /\
    relax_loop g cfg to cur (nb :: nbs) s = relax_loop g cfg to cur nbs s \/
  closed s !! slot g nb = Some false /\ fltb t gn = true /\
    exists open, push (open_ s) (MkNode nb t (fadd t (heuristic nb to (allowDiagonal cfg)))) = Ret open /\
    open ≡ₚ MkNode nb t (fadd t (heuristic nb to (allowDiagonal cfg))) :: open_ s /\
    relax_loop g cfg to cur (nb :: nbs) s =
      relax_loop g cfg to cur nbs (MkSearch (<[slot g nb := t]> (gScore s)) (<[slot g nb := idx g cur]> (cameFrom s)) (closed s) open).
Proof.
  intros Hb Hq Hnb Hgc Hgn t. pose proof (slot_lt g nb Hnb) as Hlt. cbn [relax_loop]. rewrite (slot_idx g nb) by done.
  destruct (lookup_closed s nb Hb Hnb) as [c Hc]. rewrite (index_lookup _ _ _ Hc). cbn [mbind go_bind].
  destruct c; [left; split; [by left|done]|].
  rewrite (proj1 (costAt_spec g Hg nb Hnb)). cbn [mbind go_bind]. rewrite (slot_idx g cur) by done.
  rewrite (index_lookup _ _ _ Hgc), (index_lookup _ _ _ Hgn). cbn [mbind go_bind]. fold (stepTo cur nb). fold t.
  destruct (fltb t gn) eqn:E; [right|left; split; [by right|done]]. split; [done|]. split; [done|].
  rewrite !set_index_lt by (rewrite ?(b_gs _ Hb), ?(b_cf _ Hb); done). cbn [mbind go_bind].
  destruct (push_perm (open_ s) (MkNode nb t (fadd t (heuristic nb to (allowDiagonal cfg))))) as (open & Ep & Hp).
  exists open. split; [done|]. split; [done|]. by rewrite Ep.
Qed.

Lemma relax_base cur nbs : forall s, base s -> is_closed s cur -> InBounds g cur = true ->
  (forall nb, nb ∈ nbs -> edge g cfg cur nb) ->
  exists s', relax_loop g cfg to cur nbs s = Ret s' /\ base s' /\ closed s' = closed s /\
    (length (open_ s') <= length (open_ s) + length nbs)%nat.
Proof.
  induction nbs as [|nb nbs IH]; intros s Hb Hc Hq He; [exists s; split_and!; try done; simpl; lia|].
  assert (edge g cfg cur nb) as Henb by (apply He; set_solver). pose proof (edge_inb _ _ _ _ Henb) as Hnb.
  destruct (lookup_score s cur Hb Hq) as [gc Hgc], (lookup_score s nb Hb Hnb) as [gn Hgn].
  assert (forall nb, nb ∈ nbs -> edge g cfg cur nb) as He' by set_solver.
  destruct (relax_cons cur nb nbs s gc gn Hb Hq Hnb Hgc Hgn) as [[_ ->]|(Hn & _ & open & _ & Hp & ->)].
  - destruct (IH s) as (s' & -> & ? & ? & ?); try done. exists s'. split_and!; try done. simpl. lia.
  - pose proof (Permutation_length Hp) as Hlp.
    destruct (IH (MkSearch (<[slot g nb := fadd gc (stepTo cur nb)]> (gScore s))
      (<[slot g nb := idx g cur]> (cameFrom s)) (closed s) open)) as (s' & -> & ? & ? & ?); try done.
    + by eapply relax_step_base.
    + exists s'. cbn in *. split_and!; try done. lia.
Qed.

(** ** Coming back *)

Lemma reconstruct_trace cf rp : trace cf rp -> forall q l fuel acc, rp = q :: l -> (length rp <= fuel)%nat ->
  reconstruct_loop fuel cf (w g) (idx g q) (idx g from) acc = Ret (acc ++ rp).
Proof.
  assert (forall q, InBounds g q = true -> (idx g q =? -1) = false) as Hpos.
  { intros q Hq. pose proof (idx_range g q Hq). apply Z.eqb_neq. lia. }
  pose proof (free_inb _ _ Hfrom) as Hfi.
  induction 1 as [|v u rp Hv Hcf He Hu Ht IH]; intros q l fuel acc [= <- <-] Hf; (destruct fuel as [|fuel]; [simpl in Hf; lia|]);
    cbn [reconstruct_loop]; rewrite Hpos by (done || by eapply edge_inb); rewrite idx_point by (done || by eapply edge_inb).
  - by rewrite Z.eqb_refl.
  - pose proof (edge_inb _ _ _ _ He) as Hvi. destruct (Z.eqb_spec (idx g v) (idx g from)) as [E|E].
    { exfalso. apply Hv. apply (slot_inj g); [done|done|]. unfold slot. by rewrite E. }
    rewrite (slot_idx g v) by done. rewrite (index_lookup _ _ _ Hcf). cbn [mbind go_bind].
    rewrite (IH u rp) by (done || (simpl in *; lia)). by rewrite <- app_assoc.
Qed.

Lemma found s nd : base s -> nd ∈ open_ s -> p nd = to -> from <> to -> 
  exists rp u, reconstruct (cameFrom s) (w g) to from = Ret (reverse (to :: u :: rp)) /\
    trace (cameFrom s) (to :: u :: rp) /\ Forall (is_closed s) (u :: rp).
Proof.
  intros Hb Hnd E Hne. destruct (b_open _ Hb nd Hnd) as [_ [Ef|(u & Hu & Hub & Hue & _ & Hcf)]]; [congruence|].
  rewrite E in Hue, Hcf. destruct (b_trace _ Hb u Hub Hu) as (rp & Ht & Hfa & Hl).
  assert (trace (cameFrom s) (to :: u :: rp)) as Ht' by (constructor; congruence || done).
  exists rp, u. split; [|done]. unfold reconstruct.
  assert (closed_count (closed s) <= length (closed s))%nat as Hcl by apply List.filter_length_le.
  rewrite (b_cl _ Hb) in Hcl. fold (idx g to) (idx g from).
  rewrite (reconstruct_trace _ _ Ht' to (u :: rp)); [done|done|]. rewrite (b_cf _ Hb). cbn [length] in *. lia.
Qed.

(** ** A turn of the loop *)

Lemma base_open s open : base s -> (forall nd, nd ∈ open -> nd ∈ open_ s) ->
  base (MkSearch (gScore s) (cameFrom s) (closed s) open).
Proof. intros Hb Ho. destruct Hb as [H1 H2 H3 H4 H5]. split; try done. intros nd Hnd. by apply H4, Ho. Qed.

(** Closing the cell of a node taken out of the heap. *)
Lemma close_base s cur : base s -> free g cur -> cur = from \/ came s cur -> closed s !! slot g cur = Some false ->
  base (MkSearch (gScore s) (cameFrom s) (<[slot g cur := true]> (closed s)) (open_ s)).
Proof.
  intros Hb Hf Hc Hn. pose proof (free_inb _ _ Hf) as Hi. pose proof (slot_lt _ _ Hi) as Hlt. rewrite <- (b_cl _ Hb) in Hlt.
  set (s' := MkSearch (gScore s) (cameFrom s) (<[slot g cur := true]> (closed s)) (open_ s)).
  assert (forall q, is_closed s q -> is_closed s' q) as Hmono.
  { intros q Hq. unfold is_closed in *. cbn. destruct (decide (slot g cur = slot g q)) as [->|Hd];
      [apply list_lookup_insert_eq; by eapply lookup_lt_Some|by rewrite list_lookup_insert_ne]. }
  split; cbn [gScore cameFrom closed open_ s']; rewrite ?length_insert; try apply Hb.
  - intros nd Hnd. destruct (b_open _ Hb nd Hnd) as [? [?|(u & ? & ?)]]; (split; [done|]); [by left|]. right. exists u. auto.
  - intros q Hq Hqc. rewrite count_close by done. destruct (decide (q = cur)) as [->|Hd].
    + destruct Hc as [->|(u & Hu & Hub & Hue & Hne & Hcf)].
      * exists []. split_and!; [constructor|by repeat constructor|simpl; lia].
      * destruct (b_trace _ Hb u Hub Hu) as (rp & Ht & Hfa & Hl). exists (u :: rp). split_and!; [by constructor| |simpl in *; lia].
        constructor; [done|]. by eapply Forall_impl.
    + destruct (b_trace _ Hb q Hq) as (rp & Ht & Hfa & Hl).
      { unfold is_closed in *. cbn in Hqc. rewrite list_lookup_insert_ne in Hqc; [done|]. intros E. apply Hd.
        symmetry. by apply (slot_inj g). }
      exists rp. split_and!; [done| |lia]. by eapply Forall_impl.
Qed.

Lemma turn s : base s -> open_ s <> [] ->
  exists open cur, pop (open_ s) = Ret (open, cur) /\ cur :: open ≡ₚ open_ s /\ free g (p cur) /\
    base (MkSearch (gScore s) (cameFrom s) (closed s) open) /\
    (is_closed s (p cur) \/ closed s !! slot g (p cur) = Some false /\
       base (MkSearch (gScore s) (cameFrom s) (<[slot g (p cur) := true]> (closed s)) open)).
Proof.
  intros Hb Hne. destruct (pop_perm _ Hne) as (open & cur & Epop & Hp). exists open, cur.
  assert (forall nd, nd ∈ open -> nd ∈ open_ s) as Hsub by (intros nd Hnd; rewrite <- Hp; set_solver).
  pose proof (base_open s open Hb Hsub) as Hb'.
  destruct (b_open _ Hb cur) as [Hf Hc]; [rewrite <- Hp; set_solver|]. split_and!; try done.
  destruct (lookup_closed s (p cur) Hb (free_inb _ _ Hf)) as [[] Hcl]; [by left|right]. split; [done|].
  by apply (close_base (MkSearch (gScore s) (cameFrom s) (closed s) open)).
Qed.

Definition measure (s : search) : nat := length (open_ s) + 8 * (cells g - closed_count (closed s)).

Lemma search_base fuel : forall s, base s -> from <> to -> (measure s < fuel)%nat ->
  exists l, search_loop fuel g cfg from to s = Ret l /\ (l = [] \/ path g cfg from to l).
Proof.
  induction fuel as [|fuel IH]; intros s Hb Hne Hm; [lia|]. cbn [search_loop].
  destruct (Z.leb_spec (Z.of_nat (length (open_ s))) 0) as [E0|E0]; [exists []; auto|].
  assert (open_ s <> []) as Ho by (intros E; rewrite E in E0; simpl in E0; lia).
  destruct (turn s Hb Ho) as (open & cur & -> & Hp & Hf & Hb1 & Hc). cbn [mbind go_bind].
  pose proof (free_inb _ _ Hf) as Hi. pose proof (slot_lt _ _ Hi) as Hlt. pose proof (Permutation_length Hp) as Hlp.
  cbn [length] in Hlp. unfold measure in Hm. destruct (decide (p cur = to)) as [E|E].
  - destruct (found s cur Hb) as (rp & u & Er & Ht & _); [rewrite <- Hp; set_solver|done|done|].
    cbn [cameFrom]. rewrite Er. eexists. split; [reflexivity|]. right. by apply (trace_path (cameFrom s)).
  - rewrite (slot_idx g (p cur)) by done. cbn [closed cameFrom gScore].
    destruct Hc as [Hc|[Hc Hb2]]; rewrite (index_lookup _ _ _ Hc); cbn [mbind go_bind].
    + apply IH; [done|done|]. unfold measure. cbn [open_ closed]. lia.
    + rewrite set_index_lt by by rewrite (b_cl _ Hb). cbn [mbind go_bind].
      destruct (neighbors_spec g Hg (p cur) cfg) as (nbs & -> & Hl8 & Hin). cbn [mbind go_bind].
      destruct (relax_base (p cur) nbs _ Hb2) as (s' & -> & Hb3 & Hcl & Hlo); [|done|intros nb; apply Hin|].
      { unfold is_closed. cbn. apply list_lookup_insert_eq. by rewrite (b_cl _ Hb). }
      cbn [mbind go_bind]. apply IH; [done|done|]. unfold measure. rewrite Hcl. cbn [closed open_] in *.
      rewrite count_close by done. pose proof (count_lt _ _ Hc) as Hcc. rewrite (b_cl _ Hb) in Hcc. lia.
Qed.
End search.

(** * Scores of integers *)

(** Without diagonals every score is an integer; [C] bounds the costs of the cells, and no score
    reaches [2^53]. *)
Section shortest.
Context (g : Grid) (Hg : wf g) (cfg : config) (from to : Point) (C : Z).
Context (Hfrom : free g from) (Hto : free g to) (Hd : allowDiagonal cfg = false).
Context (HC : Forall (fun c => c <= C) (cost g)) (Hbound : C * (w g * h g) + w g + h g < 2 ^ 53).

Definition dist (q : Point) : Z := Z.abs (X q - X to) + Z.abs (Y q - Y to).
Definition key (nd : node) : Z := to_int (f nd).
Definition keyLess (a b : node) : bool := key a <? key b.
Definition budget (s : search) : Z := C * Z.of_nat (closed_count (closed s)).

(** The cell's score is the integer [z]. *)
Definition val (s : search) (q : Point) (z : Z) : Prop :=
  gScore s !! slot g q = Some (of_int z) /\ 0 <= z <= budget s.

Record scored (s : search) : Prop := {
  e_score : forall q, InBounds g q = true -> gScore s !! slot g q = Some infinity \/ exists z, val s q z;
  e_from : val s from 0;
  e_closed_val : forall q, InBounds g q = true -> is_closed g s q -> exists z, val s q z;
  e_node : forall nd, nd ∈ open_ s -> f nd = of_int (key nd) /\ exact (key nd) /\
    exists z, val s (p nd) z /\ z + dist (p nd) <= key nd;
  e_open : forall q z, InBounds g q = true -> closed s !! slot g q = Some false -> val s q z ->
    exists nd, nd ∈ open_ s /\ p nd = q /\ key nd = z + dist q;
  e_closed : forall q z nd, InBounds g q = true -> is_closed g s q -> val s q z -> nd ∈ open_ s -> z + dist q <= key nd;
  e_came : forall u v, InBounds g u = true -> InBounds g v = true -> cameFrom s !! slot g v = Some (idx g u) ->
    is_closed g s u /\ exists z, val s u z /\ val s v (z + cost_of g v);
  e_heap : heap keyLess (open_ s)
}.

(** The ways out of the closed cells have been tried. *)
Definition relaxed (s : search) : Prop := forall u v zu, InBounds g u = true -> is_closed g s u -> edge g cfg u v ->
  val s u zu -> exists zv, val s v zv /\ zv <= zu + cost_of g v.

#[local] Instance keyLess_weak : StrictWeak keyLess := Zltb_strict_weak key.

Lemma C_pos : 1 <= C /\ 0 < w g * h g.
Proof.
  pose proof (free_inb _ _ Hfrom) as Hi. pose proof (idx_range g from Hi). pose proof (slot_lt g from Hi) as Hl.
  unfold cells in Hl. rewrite <- (wf_cost _ Hg) in Hl.
  destruct (lookup_lt_is_Some_2 _ _ Hl) as [c Hc]. split; [|lia].
  pose proof (wf_pos _ Hg) as Hp. rewrite Forall_lookup in Hp, HC. specialize (Hp _ _ Hc). specialize (HC _ _ Hc). lia.
Qed.

Lemma cost_range q : InBounds g q = true -> 1 <= cost_of g q <= C.
Proof.
  intros Hq. pose proof (costAt_spec g Hg q Hq) as [_ Hp]. split; [done|]. unfold cost_of.
  destruct (cost g !! _) as [c|] eqn:E; [|apply C_pos]. rewrite Forall_lookup in HC. by eapply HC.
Qed.

Lemma dist_range q : InBounds g q = true -> 0 <= dist q <= w g + h g.
Proof. pose proof (free_inb _ _ Hto) as Ht. rewrite inb_iff in *. unfold dist. lia. Qed.

Lemma budget_range s : base g cfg from s -> 0 <= budget s <= C * (w g * h g).
Proof.
  intros Hb. unfold budget. pose proof C_pos. pose proof (List.filter_length_le (fun b : bool => b) (closed s)) as Hl.
  fold (closed_count (closed s)) in Hl. rewrite (b_cl _ _ _ _ Hb) in Hl. unfold cells in Hl. nia.
Qed.

Lemma val_exact s q z x : base g cfg from s -> val s q z -> 0 <= x <= w g + h g -> exact (z + x).
Proof. intros Hb [_ Hz] Hx. pose proof (budget_range s Hb). unfold exact. lia. Qed.

Lemma val_exact0 s q z : base g cfg from s -> val s q z -> exact z.
Proof.
  intros Hb Hv. rewrite <- (Z.add_0_r z). apply (val_exact s q); try done. pose proof (wf_w _ Hg). pose proof (wf_h _ Hg). lia.
Qed.

Lemma val_inj s s' q z z' : base g cfg from s -> base g cfg from s' -> gScore s !! slot g q = gScore s' !! slot g q ->
  val s q z -> val s' q z' -> z = z'.
Proof.
  intros Hb Hb' E Hv Hv'. pose proof (val_exact0 _ _ _ Hb Hv). pose proof (val_exact0 _ _ _ Hb' Hv').
  destruct Hv as [Hv _], Hv' as [Hv' _]. rewrite E, Hv' in Hv. injection Hv as Hv.
  by rewrite <- (to_int_of_int z), <- (to_int_of_int z'), Hv by done.
Qed.

Lemma heuristic_dist q : InBounds g q = true -> heuristic q to (allowDiagonal cfg) = of_int (dist q).
Proof.
  intros Hq. rewrite Hd. unfold heuristic, dist. pose proof (dist_range q Hq) as Hr. unfold dist in Hr.
  pose proof C_pos. assert (exact (X q - X to) /\ exact (Y q - Y to)) as [Hx Hy] by (unfold exact; nia).
  rewrite !fabs_int by done. apply fadd_int; unfold exact in *; nia.
Qed.

Lemma edge_beside u v : edge g cfg u v -> Z.abs (X v - X u) + Z.abs (Y v - Y u) = 1.
Proof. intros [_ [H|[H _]]]; [done|congruence]. Qed.

Lemma consistent u v : edge g cfg u v -> dist u <= cost_of g v + dist v.
Proof.
  intros He. pose proof (edge_beside u v He). pose proof (cost_range v (edge_inb _ _ _ _ He)). unfold dist. lia.
Qed.

Lemma stepTo_orthogonal u v : edge g cfg u v -> stepTo g u v = of_int (cost_of g v).
Proof.
  intros He. pose proof (edge_beside u v He). unfold stepTo.
  destruct (Z.eqb_spec (X v) (X u)), (Z.eqb_spec (Y v) (Y u)); cbn; try done. lia.
Qed.

(** ** The heap by integer keys *)

Lemma agree_keys l : (forall nd, nd ∈ l -> f nd = of_int (key nd) /\ exact (key nd)) -> agree Less keyLess l.
Proof.
  intros H a b Ha Hb. destruct (H a Ha) as [Ea Xa], (H b Hb) as [Eb Xb]. unfold Less, keyLess. by rewrite Ea, Eb, fltb_int.
Qed.

Lemma push_heap l x l' : (forall nd, nd ∈ x :: l -> f nd = of_int (key nd) /\ exact (key nd)) ->
  heap keyLess l -> push l x = Ret l' -> heap keyLess l'.
Proof.
  intros Hk Hh. unfold push. rewrite (agree_push Less keyLess) by by apply agree_keys.
  destruct (@hPush_spec _ _ keyLess _ (slice_interface keyLess) (slice_lawful keyLess) l x) as (l2 & -> & _ & H2 & _); try done.
  by intros [= <-].
Qed.

Lemma pop_heap l x l' : (forall nd, nd ∈ l -> f nd = of_int (key nd) /\ exact (key nd)) ->
  heap keyLess l -> l <> [] -> pop l = Ret (l', x) -> heap keyLess l' /\ forall nd, nd ∈ l -> key x <= key nd.
Proof.
  intros Hk Hh Hne. unfold pop. rewrite (agree_pop Less keyLess) by by apply agree_keys.
  destruct (@hPop_spec _ _ keyLess _ (slice_interface keyLess) (slice_lawful keyLess) l) as (l2 & y & -> & _ & H2 & _ & H0); try done.
  intros [= <- <-]. split; [done|]. intros nd Hnd. apply list_elem_of_lookup in Hnd as [i Hi].
  pose proof (heap_root keyLess l i y nd Hh H0 Hi) as Hl. unfold leq, keyLess in Hl. by apply Z.ltb_ge.
Qed.

(** ** A better way to a neighbour *)

Section step.
Context (s : search) (cur nb : Point) (zc : Z) (open : list node).
Context (Hb : base g cfg from s) (Hs : scored s) (Hcur : is_closed g s cur) (Hi : InBounds g cur = true).
Context (Hzc : val s cur zc) (Hroom : zc + C <= budget s) (He : edge g cfg cur nb).
Context (Hn : closed s !! slot g nb = Some false).
Context (HM : forall u zu, InBounds g u = true -> is_closed g s u -> val s u zu -> zu + dist u <= zc + dist cur).
Let t := zc + cost_of g nb.
Let nd' := MkNode nb (of_int t) (of_int (t + dist nb)).
Context (Hpush : push (open_ s) nd' = Ret open) (Hp : open ≡ₚ nd' :: open_ s).
Context (Hless : gScore s !! slot g nb = Some infinity \/ exists z, val s nb z /\ t < z).
Let s' := MkSearch (<[slot g nb := of_int t]> (gScore s)) (<[slot g nb := idx g cur]> (cameFrom s)) (closed s) open.

Lemma step_nb : InBounds g nb = true.
Proof. by eapply edge_inb. Qed.

Lemma step_base : base g cfg from s'.
Proof. unfold s'. by eapply relax_step_base. Qed.

Lemma step_val_nb : val s' nb t.
Proof.
  pose proof step_nb as Hnb. split; [cbn; apply list_lookup_insert_eq; rewrite (b_gs _ _ _ _ Hb); by apply slot_lt|].
  destruct Hzc as [_ Hz]. pose proof (cost_range nb Hnb). unfold budget, t in *. cbn [closed s']. lia.
Qed.

Lemma step_other q : InBounds g q = true -> q <> nb -> slot g nb <> slot g q.
Proof. intros Hq Hqn E. apply Hqn. apply (slot_inj g); [done|apply step_nb|done]. Qed.

Lemma step_val q z : InBounds g q = true -> q <> nb -> val s' q z <-> val s q z.
Proof. intros Hq Hqn. unfold val, budget. cbn. by rewrite list_lookup_insert_ne by by apply step_other. Qed.

Lemma step_val_iff q z : InBounds g q = true -> val s' q z -> if decide (q = nb) then z = t else val s q z.
Proof.
  intros Hq Hv. destruct (decide (q = nb)) as [->|Hd']; [|by apply step_val].
  by apply (val_inj _ _ _ _ _ step_base step_base eq_refl Hv step_val_nb).
Qed.

Lemma step_key : key nd' = t + dist nb /\ exact (t + dist nb).
Proof.
  pose proof (val_exact s' nb t (dist nb) step_base step_val_nb (dist_range nb step_nb)) as Hx.
  split; [|done]. unfold key. cbn [f nd']. by apply to_int_of_int.
Qed.

Lemma closed_ne q : is_closed g s q -> q <> nb.
Proof. intros Hq ->. unfold is_closed in Hq. congruence. Qed.

Lemma step_decreases q z : InBounds g q = true -> val s q z -> exists z', val s' q z' /\ z' <= z.
Proof.
  intros Hq Hv. destruct (decide (q = nb)) as [->|Hd']; [|exists z; split; [by apply step_val|lia]].
  exists t. split; [apply step_val_nb|]. destruct Hless as [E|(z' & Hz' & Hlt)].
  - pose proof (val_exact0 _ _ _ Hb Hv) as Hx. destruct Hv as [E' _]. rewrite E in E'. injection E' as E'.
    pose proof (fltb_infinity z Hx) as Hf. by rewrite <- E' in Hf.
  - pose proof (val_inj _ _ _ _ _ Hb Hb eq_refl Hv Hz'). lia.
Qed.

Lemma step_scored : scored s'.
Proof.
  destruct step_key as [Hk Hx]. pose proof step_nb as Hnb. pose proof step_val_nb as Hvn. destruct Hs as [S1 S2 S3 S4 S5 S6 S7 S8].
  assert (from <> nb) as Hfn.
  { intros E. apply (closed_ne from); [|done]. eapply from_closed with (q := cur); eassumption. }
  pose proof (free_inb _ _ Hfrom) as Hfi. split.
  - intros q Hq. destruct (decide (q = nb)) as [->|Hq']; [right; by exists t|].
    destruct (S1 q Hq) as [E|[z Hz]]; [left|right; exists z; by apply step_val].
    cbn. by rewrite list_lookup_insert_ne by by apply step_other.
  - by apply step_val.
  - intros q Hq Hc. destruct (S3 q Hq Hc) as [z Hz]. exists z. apply step_val; [done|by apply closed_ne|done].
  - cbn [open_ s']. intros nd Hnd. rewrite Hp in Hnd. apply elem_of_cons in Hnd as [->|Hnd].
    + rewrite Hk. split_and!; [done|done|]. exists t. split; [done|cbn [p nd']; lia].
    + destruct (S4 nd Hnd) as (H1 & H2 & z & Hz & Hle). split_and!; [done|done|].
      destruct (b_open _ _ _ _ Hb nd Hnd) as [Hfr _]. destruct (step_decreases (p nd) z (free_inb _ _ Hfr) Hz) as (z' & Hz' & ?).
      exists z'. split; [done|lia].
  - cbn [open_ closed s']. intros q z Hq Hc Hv. setoid_rewrite Hp. apply step_val_iff in Hv; [|done].
    destruct (decide (q = nb)) as [->|Hq']; [subst z; exists nd'; split_and!; [set_solver|done|done]|].
    destruct (S5 q z Hq Hc Hv) as (nd & ? & ? & ?). exists nd. split_and!; [set_solver|done|done].
  - cbn [open_ s']. intros q z nd Hq Hc Hv Hnd. rewrite Hp in Hnd. change (is_closed g s q) in Hc.
    apply step_val in Hv; [|done|by apply closed_ne]. apply elem_of_cons in Hnd as [->|Hnd]; [|by eapply S6].
    rewrite Hk. specialize (HM q z Hq Hc Hv). pose proof (consistent _ _ He). unfold t. lia.
  - cbn [cameFrom s']. intros u v Hu Hv Hcf. change (is_closed g s' u) with (is_closed g s u).
    destruct (decide (v = nb)) as [->|Hv'].
    + rewrite list_lookup_insert_eq in Hcf by (rewrite (b_cf _ _ _ _ Hb); by apply slot_lt). injection Hcf as Hcf.
      assert (u = cur) as -> by (apply (slot_inj g); [done..|]; unfold slot; by rewrite Hcf). split; [done|].
      exists zc. split; [|done]. apply step_val; [done|by apply closed_ne|done].
    + rewrite list_lookup_insert_ne in Hcf by by apply step_other. destruct (S7 u v Hu Hv Hcf) as (Hc & z & Hz & Hzv).
      split; [done|]. exists z. split; apply step_val; done || by apply closed_ne.
  - cbn [open_ s']. apply (push_heap (open_ s) nd'); [|done|done]. intros nd Hnd. apply elem_of_cons in Hnd as [->|Hnd].
    + by rewrite Hk.
    + destruct (S4 nd Hnd) as (? & ? & _). done.
Qed.
End step.

(** The sums the code computes are exact. *)
Lemma sums_exact s u v zu : base g cfg from s -> val s u zu -> edge g cfg u v -> zu + C <= budget s ->
  fadd (of_int zu) (stepTo g u v) = of_int (zu + cost_of g v) /\ exact (zu + cost_of g v) /\
  fadd (of_int (zu + cost_of g v)) (heuristic v to (allowDiagonal cfg)) = of_int (zu + cost_of g v + dist v).
Proof.
  intros Hb [_ Hu] He Hroom. pose proof (edge_inb _ _ _ _ He) as Hv. pose proof (cost_range v Hv).
  pose proof (budget_range s Hb). pose proof (dist_range v Hv). pose proof (wf_w _ Hg). pose proof (wf_h _ Hg).
  rewrite stepTo_orthogonal, heuristic_dist by done. split_and!; [|unfold exact; lia|]; apply fadd_int; unfold exact; lia.
Qed.

(** What a run of the inner loop leaves. *)
Record relaxes (s s' : search) (cur : Point) (zc : Z) (nbs : list Point) : Prop := {
  r_scored : scored s';
  r_closed : closed s' = closed s;
  r_lower : forall q z, InBounds g q = true -> val s q z -> exists z', val s' q z' /\ z' <= z;
  r_keep : forall q z, InBounds g q = true -> is_closed g s q -> val s q z -> val s' q z;
  r_tried : forall nb, nb ∈ nbs -> exists z, val s' nb z /\ z <= zc + cost_of g nb
}.

Lemma relaxes_cons s s1 s2 cur zc nb nbs : relaxes s s1 cur zc [nb] -> InBounds g nb = true -> relaxes s1 s2 cur zc nbs ->
  relaxes s s2 cur zc (nb :: nbs).
Proof.
  intros [A1 A2 A3 A4 A5] Hnb [B1 B2 B3 B4 B5]. split; [done|congruence|..].
  - intros q z Hq Hv. destruct (A3 q z Hq Hv) as (z1 & H1 & ?). destruct (B3 q z1 Hq H1) as (z2 & ? & ?).
    exists z2. split; [done|lia].
  - intros q z Hq Hc Hv. apply B4; [done|unfold is_closed in *; by rewrite A2|by apply A4].
  - intros x Hx. apply elem_of_cons in Hx as [->|Hx]; [|by apply B5]. destruct (A5 nb) as (z & Hz & ?); [set_solver|].
    destruct (B3 nb z Hnb Hz) as (z2 & ? & ?). exists z2. split; [done|lia].
Qed.

Definition settled (s : search) (cur : Point) (zc : Z) : Prop :=
  is_closed g s cur /\ val s cur zc /\ zc + C <= budget s /\
  forall u zu, InBounds g u = true -> is_closed g s u -> val s u zu -> zu + dist u <= zc + dist cur.

(** A neighbour left alone already has a score that is good enough. *)
Lemma relax_skip s cur nb zc : base g cfg from s -> scored s -> InBounds g cur = true -> settled s cur zc -> edge g cfg cur nb ->
  is_closed g s nb \/ (exists x, gScore s !! slot g nb = Some x /\ fltb (of_int (zc + cost_of g nb)) x = false) ->
  relaxes s s cur zc [nb].
Proof.
  intros Hb Hs Hi (Hc & Hz & Hr & HM) He Hn. pose proof (edge_inb _ _ _ _ He) as Hnb. split; try done.
  - intros q z _ Hv. exists z. split; [done|lia].
  - intros x [->|[]%not_elem_of_nil]%elem_of_cons. destruct Hn as [Hn|(y & Hy & Hlt)].
    + destruct (e_closed_val _ Hs nb Hnb Hn) as [z Hv]. exists z. split; [done|].
      pose proof (HM nb z Hnb Hn Hv). pose proof (consistent _ _ He). lia.
    + destruct (sums_exact s cur nb zc Hb Hz He Hr) as (_ & Hx & _).
      destruct (e_score _ Hs nb Hnb) as [E|[z Hv]].
      * rewrite E in Hy. injection Hy as <-. rewrite fltb_infinity in Hlt by done. done.
      * exists z. split; [done|]. pose proof (val_exact0 _ _ _ Hb Hv) as Hxz. destruct Hv as [E _]. rewrite E in Hy.
        injection Hy as <-. rewrite fltb_int in Hlt by done. lia.
Qed.

Lemma relax_scored cur nbs : forall s zc s', base g cfg from s -> scored s -> InBounds g cur = true -> settled s cur zc ->
  (forall nb, nb ∈ nbs -> edge g cfg cur nb) -> relax_loop g cfg to cur nbs s = Ret s' -> relaxes s s' cur zc nbs.
Proof.
  induction nbs as [|nb nbs IH]; intros s zc s' Hb Hs Hi Hset He Hr.
  { injection Hr as <-. split; try done; [|intros ? []%not_elem_of_nil]. intros q z _ Hv. exists z. split; [done|lia]. }
  assert (edge g cfg cur nb) as Henb by (apply He; set_solver). pose proof (edge_inb _ _ _ _ Henb) as Hnb.
  assert (forall x, x ∈ nbs -> edge g cfg cur x) as He' by set_solver.
  destruct Hset as (Hc & Hz & Hroom & HM). destruct (sums_exact s cur nb zc Hb Hz Henb Hroom) as (E1 & Hx & E2).
  destruct (lookup_score g cfg from s nb Hb Hnb) as [gn Hgn]. pose proof (proj1 Hz) as Hgc.
  pose proof (relax_cons g Hg cfg from to cur nb nbs s _ gn Hb Hi Hnb Hgc Hgn) as Hcase. cbv zeta in Hcase.
  rewrite E1, E2 in Hcase. destruct Hcase as [[Hn Hl]|(Hn & Hlt & open & Hpush & Hp & Hl)]; rewrite Hl in Hr.
  - apply (relaxes_cons s s); [|done|by eapply IH; try done]. apply relax_skip; try done.
    destruct Hn as [Hn|[_ Hn]]; [by left|right; by exists gn].
  - assert (gScore s !! slot g nb = Some infinity \/ exists z, val s nb z /\ zc + cost_of g nb < z) as Hless.
    { destruct (e_score _ Hs nb Hnb) as [E|[z Hv]]; [by left|right]. exists z. split; [done|].
      pose proof (val_exact0 _ _ _ Hb Hv) as Hxz. destruct Hv as [E _]. rewrite E in Hgn. injection Hgn as <-.
      rewrite fltb_int in Hlt by done. lia. }
    pose proof (step_scored s cur nb zc open Hb Hs Hc Hi Hz Hroom Henb Hn HM Hpush Hp Hless) as Hs1.
    pose proof (step_base s cur nb zc open Hb Hc Hi Henb Hn Hp) as Hb1.
    set (s1 := MkSearch _ _ _ _) in *. assert (relaxes s s1 cur zc [nb]) as H1.
    { split; [done|done|..].
      - intros q z Hq Hv. by eapply step_decreases.
      - intros q z Hq Hcq Hv. eapply step_val; try done. intros ->. unfold is_closed in Hcq. congruence.
      - intros x [->|[]%not_elem_of_nil]%elem_of_cons. exists (zc + cost_of g nb). split; [|lia]. by eapply step_val_nb. }
    apply (relaxes_cons s s1); [done|done|]. apply IH; try done. split_and!; [done|by apply H1|done|].
    intros u zu Hu Hcu Hv. apply HM; [done|done|]. change (is_closed g s u) in Hcu. 
    destruct (e_closed_val _ Hs u Hu Hcu) as [z Hz'].
    pose proof (val_inj s1 s1 u zu z Hb1 Hb1 eq_refl Hv (r_keep _ _ _ _ _ H1 u z Hu Hcu Hz')) as ->. done.
Qed.

(** ** Closing the cell of the least node *)

Section close.
Context (s : search) (open : list node) (cur : node).
Context (Hb : base g cfg from s) (Hs : scored s) (Hp : cur :: open ≡ₚ open_ s) (Hpop : pop (open_ s) = Ret (open, cur)).
Context (Hi : InBounds g (p cur) = true) (Hn : closed s !! slot g (p cur) = Some false).
Let s' := MkSearch (gScore s) (cameFrom s) (<[slot g (p cur) := true]> (closed s)) open.
Context (Hb' : base g cfg from s').

Lemma close_keys nd : nd ∈ open_ s -> f nd = of_int (key nd) /\ exact (key nd).
Proof. intros Hnd. destruct (e_node _ Hs nd Hnd) as (? & ? & _). done. Qed.

Lemma close_heap : heap keyLess open /\ forall nd, nd ∈ open_ s -> key cur <= key nd.
Proof.
  apply (pop_heap (open_ s)); [apply close_keys|apply (e_heap _ Hs)| |done]. intros E.
  rewrite E in Hp. symmetry in Hp. by apply Permutation_nil_cons in Hp.
Qed.

Lemma close_cur : exists z, val s (p cur) z /\ key cur = z + dist (p cur).
Proof.
  destruct (e_node _ Hs cur) as (_ & _ & z & Hz & Hle); [rewrite <- Hp; set_solver|]. exists z. split; [done|].
  destruct (e_open _ Hs (p cur) z Hi Hn Hz) as (nd & Hnd & _ & E). pose proof (proj2 close_heap nd Hnd). lia.
Qed.

Lemma close_budget : budget s' = budget s + C.
Proof. unfold budget. cbn [closed s']. rewrite count_close by done. lia. Qed.

Lemma close_val q z : InBounds g q = true -> val s' q z <-> val s q z.
Proof.
  intros Hq. pose proof C_pos. split; intros Hv.
  - destruct (e_score _ Hs q Hq) as [E|[z' Hv']].
    + pose proof (val_exact0 _ _ _ Hb' Hv) as Hx. destruct Hv as [E' _]. cbn in E'. rewrite E in E'. injection E' as E'.
      pose proof (fltb_infinity z Hx) as Hf. by rewrite <- E' in Hf.
    + by rewrite (val_inj _ _ _ _ _ Hb' Hb eq_refl Hv Hv').
  - destruct Hv as [E Hz]. split; [done|]. rewrite close_budget. lia.
Qed.

Lemma close_closed q : InBounds g q = true -> is_closed g s' q <-> q = p cur \/ is_closed g s q.
Proof.
  intros Hq. unfold is_closed. cbn [closed s']. destruct (decide (q = p cur)) as [->|Hd'].
  - rewrite list_lookup_insert_eq by (rewrite (b_cl _ _ _ _ Hb); by apply slot_lt). tauto.
  - rewrite list_lookup_insert_ne; [tauto|]. intros E. apply Hd'. symmetry. by apply (slot_inj g).
Qed.

Lemma close_scored : scored s'.
Proof.
  pose proof close_heap as [Hh Hmin]. destruct close_cur as (zc & Hzc & Hkc). pose proof (free_inb _ _ Hfrom) as Hfi.
  assert (forall nd, nd ∈ open -> nd ∈ open_ s) as Hsub by (intros nd Hnd; rewrite <- Hp; set_solver). split.
  - intros q Hq. destruct (e_score _ Hs q Hq) as [?|[z Hz]]; [by left|right]. exists z. by apply close_val.
  - apply close_val, Hs. done.
  - intros q Hq Hc. apply close_closed in Hc; [|done]. setoid_rewrite close_val; [|done].
    destruct Hc as [->|Hc]; [by exists zc|by apply (e_closed_val _ Hs)].
  - intros nd Hnd. apply Hsub in Hnd. destruct (e_node _ Hs nd Hnd) as (? & ? & z & Hz & ?). split_and!; [done|done|].
    destruct (b_open _ _ _ _ Hb nd Hnd) as [Hf _]. exists z. split; [|done]. by apply close_val; [apply free_inb|].
  - intros q z Hq Hcl Hv. apply close_val in Hv; [|done]. assert (q <> p cur) as Hne.
    { intros ->. assert (is_closed g s' (p cur)) as Hc by (apply close_closed; auto). unfold is_closed in Hc. congruence. }
    cbn in Hcl. rewrite list_lookup_insert_ne in Hcl by (intros E; apply Hne; symmetry; by apply (slot_inj g)).
    destruct (e_open _ Hs q z Hq Hcl Hv) as (nd & Hnd & Hpn & Hk). exists nd. split_and!; [|done|done]. cbn.
    rewrite <- Hp in Hnd. apply elem_of_cons in Hnd as [->|Hnd]; [congruence|done].
  - intros q z nd Hq Hc Hv Hnd. apply close_val in Hv; [|done]. apply close_closed in Hc; [|done]. apply Hsub in Hnd.
    destruct Hc as [->|Hc]; [|by apply (e_closed _ Hs)].
    rewrite (val_inj _ _ _ _ _ Hb Hb eq_refl Hv Hzc), <- Hkc. by apply Hmin.
  - intros u v Hu Hv Hcf. destruct (e_came _ Hs u v Hu Hv Hcf) as (Hc & z & Hz & Hz'). split; [apply close_closed; auto|].
    exists z. split; by apply close_val.
  - done.
Qed.

Lemma close_settled : exists zc, settled s' (p cur) zc.
Proof.
  destruct close_cur as (zc & Hzc & Hkc). exists zc. split_and!.
  - apply close_closed; auto.
  - by apply close_val.
  - rewrite close_budget. destruct Hzc as [_ ?]. lia.
  - intros u zu Hu Hc Hv. apply close_val in Hv; [|done]. apply close_closed in Hc as [->|Hc]; [|..|done].
    + by rewrite (val_inj _ _ _ _ _ Hb Hb eq_refl Hv Hzc).
    + rewrite <- Hkc. apply (e_closed _ Hs); try done. rewrite <- Hp. set_solver.
Qed.
End close.

(** ** No walk is missed *)

Definition sum_cost (l : list Point) : Z := foldr (fun q c => cost_of g q + c) 0 l.

(** A walk of cost [c] has reached a closed cell with a score no higher, or some open node has a
    key no higher than the walk can still be worth. *)
Definition covered (s : search) (v : Point) (c : Z) : Prop :=
  is_closed g s v /\ (exists z, val s v z /\ z <= c) \/ exists nd, nd ∈ open_ s /\ key nd <= c + dist v.

Lemma covered_walk s l : base g cfg from s -> scored s -> relaxed s -> forall u c v, InBounds g u = true -> covered s u c ->
  walk g cfg u l -> last (u :: l) = Some v -> covered s v (c + sum_cost l).
Proof.
  intros Hb Hs Hr. induction l as [|x l IH]; intros u c v Hu Hc Hw Hl.
  { injection Hl as <-. unfold sum_cost. cbn. by rewrite Z.add_0_r. }
  destruct Hw as [He Hw]. rewrite last_cons_cons in Hl. pose proof (edge_inb _ _ _ _ He) as Hx.
  unfold sum_cost. cbn [foldr]. fold (sum_cost l). rewrite Z.add_assoc. apply (IH x); try done.
  pose proof (consistent u x He). destruct Hc as [[Hc (z & Hz & Hle)]|(nd & Hnd & Hle)]; [|right; exists nd; split; [done|lia]].
  destruct (Hr u x z Hu Hc He Hz) as (zx & Hzx & Hlex). destruct (lookup_closed g cfg from s x Hb Hx) as [[] Hcx].
  - left. split; [done|]. exists zx. split; [done|lia].
  - right. destruct (e_open _ Hs x zx Hx Hcx Hzx) as (nd & Hnd & _ & Hk). exists nd. split; [done|lia].
Qed.

Lemma covered_start s : base g cfg from s -> scored s -> covered s from 0.
Proof.
  intros Hb Hs. pose proof (free_inb _ _ Hfrom) as Hfi. destruct (lookup_closed g cfg from s from Hb Hfi) as [[] Hc].
  - left. split; [done|]. exists 0. split; [apply Hs|done].
  - right. destruct (e_open _ Hs from 0 Hfi Hc (e_from _ Hs)) as (nd & Hnd & _ & Hk). exists nd. split; [done|lia].
Qed.

Lemma covered_path s l v : base g cfg from s -> scored s -> relaxed s -> path g cfg from v l -> covered s v (path_cost g l).
Proof.
  intros Hb Hs Hr (l' & -> & Hw & Hl). change (path_cost g (from :: l')) with (0 + sum_cost l').
  apply (covered_walk s l' Hb Hs Hr from); [by apply free_inb|by apply covered_start|done|done].
Qed.

(** ** The cost of the path found *)

Lemma path_cost_snoc l v : l <> [] -> path_cost g (l ++ [v]) = path_cost g l + cost_of g v.
Proof.
  unfold path_cost. destruct l as [|x l]; [done|]. intros _. cbn [app tail].
  induction l as [|y l IH]; cbn [app foldr] in *; lia.
Qed.

Lemma trace_cost s rp : base g cfg from s -> scored s -> trace g cfg from (cameFrom s) rp ->
  forall q l, rp = q :: l -> val s q (path_cost g (reverse rp)).
Proof.
  intros Hb Hs. induction 1 as [|v u rp Hv Hcf He Hu Ht IH]; intros q l [= <- <-]; [apply Hs|].
  rewrite reverse_cons, path_cost_snoc by by rewrite reverse_cons; intros [_ ?]%app_eq_nil.
  pose proof (edge_inb _ _ _ _ He) as Hvi. destruct (e_came _ Hs u v Hu Hvi Hcf) as (_ & z & Hz & Hzv).
  by rewrite (val_inj _ _ _ _ _ Hb Hb eq_refl (IH u rp eq_refl) Hz).
Qed.

(** A node whose cell is closed already is dropped. *)
Lemma stale_scored s open cur : scored s -> cur :: open ≡ₚ open_ s -> pop (open_ s) = Ret (open, cur) ->
  is_closed g s (p cur) -> scored (MkSearch (gScore s) (cameFrom s) (closed s) open).
Proof.
  intros Hs Hp Hpop Hc. pose proof (close_heap s open cur Hs Hp Hpop) as [Hh _].
  assert (forall nd, nd ∈ open -> nd ∈ open_ s) as Hsub by (intros nd Hnd; rewrite <- Hp; set_solver).
  destruct Hs as [S1 S2 S3 S4 S5 S6 S7 S8]. split; try done.
  - intros nd Hnd. by apply S4, Hsub.
  - intros q z Hq Hcl Hv. destruct (S5 q z Hq Hcl Hv) as (nd & Hnd & Hpn & Hk). exists nd. split_and!; [|done|done]. cbn.
    rewrite <- Hp in Hnd. apply elem_of_cons in Hnd as [->|Hnd]; [|done]. subst q. unfold is_closed in Hc. cbn in Hcl. congruence.
  - intros q z nd Hq Hcl Hv Hnd. by apply S6, Hsub.
Qed.

(** A whole turn keeps the ways out of the closed cells tried. *)
Lemma turn_relaxed s open cur nbs s' : base g cfg from s -> scored s -> relaxed s -> cur :: open ≡ₚ open_ s ->
  pop (open_ s) = Ret (open, cur) -> InBounds g (p cur) = true -> closed s !! slot g (p cur) = Some false ->
  let s1 := MkSearch (gScore s) (cameFrom s) (<[slot g (p cur) := true]> (closed s)) open in
  base g cfg from s1 -> base g cfg from s' -> (forall v, v ∈ nbs <-> edge g cfg (p cur) v) ->
  relax_loop g cfg to (p cur) nbs s1 = Ret s' -> scored s' /\ relaxed s'.
Proof.
  intros Hb Hs Hr Hp Hpop Hi Hn s1 Hb1 Hb' Hin Hl.
  pose proof (close_scored s open cur Hb Hs Hp Hpop Hi Hn Hb1) as Hs1.
  destruct (close_settled s open cur Hb Hs Hp Hpop Hi Hn Hb1) as [zc Hset]. fold s1 in Hs1, Hset.
  destruct (relax_scored (p cur) nbs s1 zc s' Hb1 Hs1 Hi Hset (fun nb => proj1 (Hin nb)) Hl) as [R1 R2 R3 R4 R5].
  split; [done|]. intros u v zu Hu Hc He Hv. unfold is_closed in Hc. rewrite R2 in Hc. change (is_closed g s1 u) in Hc.
  destruct (e_closed_val _ Hs1 u Hu Hc) as [z Hz].
  pose proof (val_inj _ _ _ _ _ Hb' Hb' eq_refl Hv (R4 u z Hu Hc Hz)) as ->.
  apply (close_closed s open cur Hb Hi) in Hc; [|done]. destruct Hc as [->|Hc].
  - apply Hin in He as Hx. destruct (R5 v Hx) as (zv & Hzv & Hle). exists zv. split; [done|].
    destruct Hset as (_ & Hzc & _). pose proof (val_inj _ _ _ _ _ Hb1 Hb1 eq_refl Hz Hzc). lia.
  - pose proof (edge_inb _ _ _ _ He) as Hvi.
    apply (close_val s open cur Hb Hs Hn Hb1) in Hz; [|done]. destruct (Hr u v z Hu Hc He Hz) as (zv & Hzv & Hle).
    apply (close_val s open cur Hb Hs Hn Hb1) in Hzv; [|done]. destruct (R3 v zv Hvi Hzv) as (z' & ? & ?).
    exists z'. split; [done|lia].
Qed.

Lemma search_exact fuel : forall s l, base g cfg from s -> scored s -> relaxed s -> ~ is_closed g s to -> from <> to ->
  search_loop fuel g cfg from to s = Ret l ->
  (l = [] -> forall l', ~ path g cfg from to l') /\
  (l <> [] -> forall l', path g cfg from to l' -> path_cost g l <= path_cost g l').
Proof.
  induction fuel as [|fuel IH]; intros s l Hb Hs Hr Hto' Hne Hl; [done|]. cbn [search_loop] in Hl.
  destruct (Z.leb_spec (Z.of_nat (length (open_ s))) 0) as [E0|E0].
  { injection Hl as <-. split; [|done]. intros _ l' Hl'. destruct (covered_path s l' to Hb Hs Hr Hl') as [[Hc _]|(nd & Hnd & _)]; [done|].
    destruct (open_ s); [by apply not_elem_of_nil in Hnd|simpl in E0; lia]. }
  assert (open_ s <> []) as Ho by (intros E; rewrite E in E0; simpl in E0; lia).
  destruct (turn g Hg cfg from to Hfrom Hto s Hb Ho) as (open & cur & Hpop & Hp & Hf & Hb1 & Hc). rewrite Hpop in Hl.
  cbn [mbind go_bind] in Hl. pose proof (free_inb _ _ Hf) as Hi. destruct (decide (p cur = to)) as [E|E].
  - destruct (found g cfg from to Hfrom s cur Hb) as (rp & u & Er & Ht & _); [rewrite <- Hp; set_solver|done|done|].
    cbn [cameFrom] in Hl. rewrite Er in Hl. injection Hl as <-. split.
    { intros En. by rewrite reverse_cons in En; apply app_eq_nil in En as [_ ?]. }
    intros _ l' Hl'. pose proof (trace_cost s _ Hb Hs Ht to (u :: rp) eq_refl) as Hv.
    destruct (covered_path s l' to Hb Hs Hr Hl') as [[Hc' _]|(nd & Hnd & Hle)]; [done|].
    pose proof (proj2 (close_heap s open cur Hs Hp Hpop) nd Hnd) as Hmin.
    destruct (e_node _ Hs cur) as (_ & _ & z & Hz & Hzk); [rewrite <- Hp; set_solver|]. rewrite E in Hz, Hzk.
    pose proof (val_inj _ _ _ _ _ Hb Hb eq_refl Hv Hz). unfold dist in *. lia.
  - rewrite (slot_idx g (p cur)) in Hl by done. cbn [closed cameFrom gScore] in Hl.
    destruct Hc as [Hc|[Hc Hb2]]; rewrite (index_lookup _ _ _ Hc) in Hl; cbn [mbind go_bind] in Hl.
    + revert Hl. apply IH; try done. by eapply stale_scored.
    + rewrite set_index_lt in Hl by (rewrite (b_cl _ _ _ _ Hb); by apply slot_lt). cbn [mbind go_bind] in Hl.
      destruct (neighbors_spec g Hg (p cur) cfg) as (nbs & En & _ & Hin). rewrite En in Hl. cbn [mbind go_bind] in Hl.
      destruct (relax_base g Hg cfg from to Hfrom Hto (p cur) nbs _ Hb2) as (s' & Er & Hb3 & Hcl & _); [|done|intros nb; apply Hin|].
      { unfold is_closed. cbn. apply list_lookup_insert_eq. rewrite (b_cl _ _ _ _ Hb). by apply slot_lt. }
      rewrite Er in Hl. cbn [mbind go_bind] in Hl.
      destruct (turn_relaxed s open cur nbs s' Hb Hs Hr Hp Hpop Hi Hc Hb2 Hb3 Hin Er) as [Hs' Hr'].
      apply (IH s'); try done. unfold is_closed. rewrite Hcl. cbn. rewrite list_lookup_insert_ne; [done|].
      intros Es. apply E. apply (slot_inj g); [done|by apply free_inb|done].
Qed.
End shortest.

(** * Finding a path *)

Lemma path_free g cfg from to l : free g from -> path g cfg from to l -> free g to.
Proof.
  intros Hf (l' & -> & Hw & Hl). revert from Hf Hw Hl. induction l' as [|x l' IH]; intros from Hf Hw Hl.
  - by injection Hl as <-.
  - destruct Hw as [He Hw]. rewrite last_cons_cons in Hl. by apply (IH x); [apply He|..].
Qed.

Lemma path_cost_pos g cfg from to l : wf g -> path g cfg from to l -> 0 <= path_cost g l.
Proof.
  intros Hg (l' & -> & Hw & _). unfold path_cost. cbn [tail]. revert from Hw.
  induction l' as [|x l' IH]; intros from Hw; [done|]. destruct Hw as [He Hw]. cbn [foldr].
  pose proof (proj2 (costAt_spec g Hg x (edge_inb _ _ _ _ He))). specialize (IH x Hw). lia.
Qed.

Section start.
Context (g : Grid) (Hg : wf g) (cfg : config) (from to : Point) (Hfrom : free g from) (Hto : free g to) (Hne : from <> to).

Definition start_state : search :=
  MkSearch (<[slot g from := of_int 0]> (replicate (cells g) infinity)) (replicate (cells g) (-1))
    (replicate (cells g) false) [MkNode from (of_int 0) (heuristic from to (allowDiagonal cfg))].

Lemma size_wrap : wrap64 (w g * h g) = w g * h g.
Proof. apply wrap64_id. pose proof (wf_w _ Hg). pose proof (wf_h _ Hg). pose proof (wf_size _ Hg). unfold int64. nia. Qed.

Lemma FindPath_start : FindPath g from to cfg = search_loop (8 * cells g + 2) g cfg from to start_state.
Proof.
  unfold FindPath. rewrite (free_inb _ _ Hfrom), (free_inb _ _ Hto). cbn [negb orb]. rewrite Hfrom, Hto. cbn [mbind go_bind].
  rewrite decide_False by done. rewrite size_wrap. unfold makeslice. pose proof (wf_w _ Hg). pose proof (wf_h _ Hg).
  rewrite (proj2 (Z.ltb_ge _ _)) by nia. cbn [mbind go_bind]. fold (cells g).
  pose proof (free_inb _ _ Hfrom) as Hi. rewrite (slot_idx g) by done.
  rewrite set_index_lt by (rewrite length_replicate; by apply slot_lt). done.
Qed.

Lemma no_closed q : ~ is_closed g start_state q.
Proof. unfold is_closed. cbn. intros E. apply lookup_replicate in E as [? _]. done. Qed.

Lemma count_nothing n : closed_count (replicate n false) = 0%nat.
Proof. unfold closed_count. by induction n. Qed.

Lemma start_base : base g cfg from start_state.
Proof.
  split; cbn; rewrite ?length_insert, ?length_replicate; try done.
  - intros nd [->|[]%not_elem_of_nil]%elem_of_cons. auto.
  - intros q _ Hc. by apply no_closed in Hc.
Qed.

Lemma start_measure : (measure g start_state < 8 * cells g + 2)%nat.
Proof. unfold measure. cbn [open_ closed start_state length]. rewrite count_nothing. lia. Qed.

Lemma start_score C q x : gScore start_state !! slot g q = Some x -> InBounds g q = true ->
  x = infinity \/ q = from /\ x = of_int 0 /\ val g C start_state from 0.
Proof.
  pose proof (free_inb _ _ Hfrom) as Hi. cbn. intros E Hq. rewrite list_lookup_insert in E. case_decide as Hd.
  - right. injection E as <-. split_and!; [|done|].
    + destruct Hd as [Hd _]. symmetry. by apply (slot_inj g).
    + split; [|unfold budget; cbn [closed start_state]; rewrite count_nothing; lia].
      cbn. apply list_lookup_insert_eq. rewrite length_replicate. by apply slot_lt.
  - apply lookup_replicate in E as [-> _]. by left.
Qed.

Lemma start_scored C : allowDiagonal cfg = false -> Forall (fun c => c <= C) (cost g) ->
  C * (w g * h g) + w g + h g < 2 ^ 53 -> scored g from to C start_state.
Proof.
  intros Hd HC Hbd. pose proof (free_inb _ _ Hfrom) as Hi. pose proof (dist_range g to Hto from Hi) as Hr.
  pose proof (C_pos g Hg from C Hfrom HC) as [HC0 HN].
  assert (val g C start_state from 0) as Hv.
  { split; [cbn; apply list_lookup_insert_eq; rewrite length_replicate; by apply slot_lt|].
    unfold budget. cbn [closed start_state]. rewrite count_nothing. lia. }
  assert (heuristic from to (allowDiagonal cfg) = of_int (dist to from)) as Eh by by (eapply (heuristic_dist g Hg cfg from to C); done).
  assert (exact (dist to from)) as Hx by (unfold exact; nia).
  assert (key (MkNode from (of_int 0) (heuristic from to (allowDiagonal cfg))) = dist to from) as Hk
    by (unfold key; cbn [f]; rewrite Eh; by apply to_int_of_int).
  split.
  - intros q Hq. destruct (lookup_score g cfg from start_state q start_base Hq) as [x Hxq].
    destruct (start_score C q x Hxq Hq) as [->|(-> & -> & ?)]; [by left|right; by exists 0].
  - done.
  - intros q _ Hc. by apply no_closed in Hc.
  - intros nd [->|[]%not_elem_of_nil]%elem_of_cons. rewrite Hk. split_and!; [done|done|]. exists 0. split; [done|cbn [p]; lia].
  - intros q z Hq _ [Hs Hz]. eexists. split; [by apply elem_of_cons; left|].
    unfold budget in Hz. cbn [closed start_state] in Hz. rewrite count_nothing in Hz. assert (z = 0) as -> by lia.
    destruct (start_score C q _ Hs Hq) as [E|(-> & _)]; [done|]. split; [done|]. rewrite Hk. done.
  - intros q z nd _ Hc. by apply no_closed in Hc.
  - intros u v Hu _ Hcf. cbn in Hcf. apply lookup_replicate in Hcf as [Hcf _]. pose proof (idx_range g u Hu). lia.
  - intros i Hi'. cbn in Hi'. lia.
Qed.
End start.

Lemma FindPath_cases g from to cfg : wf g ->
  FindPath g from to cfg = Ret [] /\ ~ (free g from /\ free g to) \/
  free g from /\ free g to /\ (from = to /\ FindPath g from to cfg = Ret [from] \/ from <> to).
Proof.
  intros Hg. unfold FindPath, free. destruct (InBounds g from) eqn:E1; cbn [negb orb].
  2:{ left. split; [done|]. unfold IsBlocked. rewrite E1. by intros [? _]. }
  destruct (InBounds g to) eqn:E2; cbn [negb orb].
  2:{ left. split; [done|]. unfold IsBlocked. rewrite E2. by intros [_ ?]. }
  destruct (IsBlocked_total g Hg from) as [[] E3]; rewrite E3; cbn [mbind go_bind]; [left; split; [done|]; by intros [? _]|].
  destruct (IsBlocked_total g Hg to) as [[] E4]; rewrite E4; cbn [mbind go_bind]; [left; split; [done|]; by intros [_ ?]|].
  right. split_and!; [done|done|]. destruct (decide (from = to)); auto.
Qed.

(** On a well-formed grid, whatever moves are allowed, FindPath returns without a panic, and
    what it returns is empty or a walk of legal steps from one point to the other: free cells, no
    jump, no corner cut unless allowed. *)
Theorem find_path_walks g from to cfg : wf g ->
  exists l, FindPath g from to cfg = Ret l /\ (l = [] \/ free g from /\ path g cfg from to l).
Proof.
  intros Hg. destruct (FindPath_cases g from to cfg Hg) as [[-> _]|(Hf & Ht & [[-> ->]|Hne])].
  - exists []. auto.
  - exists [to]. split; [done|]. right. split; [done|]. by exists [].
  - rewrite (FindPath_start g Hg cfg from to Hf Ht Hne).
    destruct (search_base g Hg cfg from to Hf Ht _ _ (start_base g cfg from to Hf) Hne (start_measure g cfg from to)) as (l & -> & Hl).
    exists l. split; [done|]. destruct Hl; auto.
Qed.

(** C3: With moves along the axes and scores below [2^53], where [float64] is exact, FindPath
    answers a path of least cost, and answers none only when there is none. *)
Theorem find_path_shortest g from to cfg C : wf g -> allowDiagonal cfg = false ->
  Forall (fun c => c <= C) (cost g) -> C * (w g * h g) + w g + h g < 2 ^ 53 ->
  exists l, FindPath g from to cfg = Ret l /\
    (l = [] <-> ~ (free g from /\ exists l', path g cfg from to l')) /\
    (l <> [] -> path g cfg from to l /\ forall l', path g cfg from to l' -> path_cost g l <= path_cost g l').
Proof.
  intros Hg Hd HC Hb. destruct (FindPath_cases g from to cfg Hg) as [[-> Hn]|(Hf & Ht & [[-> ->]|Hne])].
  - exists []. split; [done|]. split; [|done]. split; [|done]. intros _ [Hf [l' Hl']]. apply Hn. split; [done|].
    by eapply path_free.
  - exists [to]. split; [done|]. assert (path g cfg to to [to]) as Hp by by exists []. split.
    + split; [done|]. intros H. exfalso. apply H. eauto.
    + intros _. split; [done|]. intros l' Hl'. apply (path_cost_pos g cfg to to l' Hg Hl').
  - rewrite (FindPath_start g Hg cfg from to Hf Ht Hne).
    pose proof (start_base g cfg from to Hf) as Hb0.
    pose proof (start_scored g Hg cfg from to Hf Ht C Hd HC Hb) as Hs0.
    destruct (search_base g Hg cfg from to Hf Ht _ _ Hb0 Hne (start_measure g cfg from to)) as (l & El & Hl).
    assert (relaxed g cfg C (start_state g cfg from to)) as Hr0 by (intros u v zu Hu Hc; by apply no_closed in Hc).
    destruct (search_exact g Hg cfg from to C Hf Ht Hd HC Hb _ _ _ Hb0 Hs0 Hr0 (no_closed _ _ _ _ _) Hne El) as [H1 H2].
    exists l. split; [done|]. split.
    + split; [intros E [_ [l' Hl']]; by apply (H1 E l')|]. intros H. destruct Hl as [Hl|Hl]; [done|]. exfalso. apply H. eauto.
    + intros Hl0. destruct Hl as [Hl|Hl]; [done|]. split; [done|]. by apply H2.
Qed.

(** * Grids *)

(** A grid made by [NewGrid] is well formed as long as the product of its sides fits an [int]. *)
Lemma NewGrid_wf width height : width <= 0 \/ height <= 0 \/ width * height < 2 ^ 63 ->
  exists g, NewGrid width height = Ret g /\ wf g /\ w g = Z.max 0 width /\ h g = Z.max 0 height /\
    forall q, InBounds g q = true -> free g q /\ cost_of g q = 1.
Proof.
  intros Hs. set (W := Z.max 0 width). set (H := Z.max 0 height).
  assert (0 <= W /\ 0 <= H /\ W * H < 2 ^ 63) as (HW & HH & HWH) by (unfold W, H; nia).
  unfold NewGrid. replace (if width <? 0 then 0 else width) with W by (destruct (Z.ltb_spec width 0); unfold W; lia).
  replace (if height <? 0 then 0 else height) with H by (destruct (Z.ltb_spec height 0); unfold H; lia).
  rewrite wrap64_id by (unfold int64; nia). unfold makeslice. rewrite (proj2 (Z.ltb_ge _ _)) by nia. cbn [mbind go_bind].
  set (g := MkGrid _ _ _ _). assert (wf g) as Hg.
  { split; cbn [w h blocked cost g]; rewrite ?length_replicate; try done. by apply Forall_replicate. }
  exists g. split_and!; try done. intros q Hq. pose proof (slot_lt g q Hq) as Hlt. unfold free, IsBlocked, cost_of.
  rewrite Hq. cbn [negb]. rewrite (slot_idx g) by done. rewrite Nat2Z.id. cbn [blocked cost g].
  split; [apply index_lookup|]; by rewrite lookup_replicate_2.
Qed.

(** The writers keep it so and change the cell they name, if it is there, and no other. *)
Lemma SetBlocked_wf g q b : wf g -> exists g', SetBlocked q b g = Ret g' /\ wf g' /\ cost g' = cost g /\
  forall q', IsBlocked g' q' = (if decide (q' = q /\ InBounds g q = true) then Ret b else IsBlocked g q').
Proof.
  intros Hg. unfold SetBlocked. destruct (InBounds g q) eqn:Eq.
  2:{ exists g. split_and!; try done. intros q'. by rewrite decide_False by naive_solver. }
  pose proof (slot_lt g q Eq) as Hlt. rewrite (slot_idx g) by done.
  assert (slot g q < length (blocked g))%nat as Hl by by rewrite (wf_blocked _ Hg). rewrite set_index_lt by done.
  cbn [mbind go_bind]. eexists. split; [reflexivity|]. split; [destruct Hg; split; cbn; rewrite ?length_insert; done|]. split; [done|].
  intros q'. set (g' := MkGrid _ _ _ _). unfold IsBlocked at 1. change (InBounds g' q') with (InBounds g q').
  destruct (InBounds g q') eqn:Eq'; cbn [negb].
  2:{ rewrite decide_False by (intros [-> _]; congruence). unfold IsBlocked. by rewrite Eq'. }
  change (idx g' q') with (idx g q'). rewrite (slot_idx g) by done. destruct (decide (q' = q)) as [->|Hne].
  - rewrite decide_True by done. apply index_lookup. cbn. by apply list_lookup_insert_eq.
  - rewrite decide_False by naive_solver. unfold IsBlocked. rewrite Eq'. cbn [negb]. rewrite (slot_idx g) by done.
    unfold index. cbn [blocked g']. rewrite Nat2Z.id. rewrite list_lookup_insert_ne; [done|].
    intros E. apply Hne. symmetry. by apply (slot_inj g).
Qed.

Lemma SetCost_wf g q c : wf g -> exists g', SetCost q c g = Ret g' /\ wf g' /\ blocked g' = blocked g /\
  forall q', InBounds g q' = true -> cost_of g' q' = if decide (q' = q) then Z.max 1 c else cost_of g q'.
Proof.
  intros Hg. unfold SetCost. destruct (InBounds g q) eqn:Eq; cbn [negb].
  2:{ exists g. split_and!; try done. intros q' Hq'. rewrite decide_False; [done|]. intros ->. congruence. }
  pose proof (slot_lt g q Eq) as Hlt. rewrite (slot_idx g) by done.
  assert (slot g q < length (cost g))%nat as Hl by by rewrite (wf_cost _ Hg). rewrite set_index_lt by done.
  cbn [mbind go_bind]. eexists. split; [reflexivity|].
  split; [destruct Hg; split; cbn; rewrite ?length_insert; try done; apply Forall_insert; [done|]; destruct (Z.ltb_spec c 1); lia|].
  split; [done|]. intros q' Hq'. unfold cost_of. cbn [cost]. change (Z.to_nat (idx _ q')) with (slot g q').
  destruct (decide (q' = q)) as [->|Hne].
  - rewrite list_lookup_insert_eq by done. cbn. destruct (Z.ltb_spec c 1); lia.
  - rewrite list_lookup_insert_ne; [done|]. intros E. apply Hne. symmetry. by apply (slot_inj g).
Qed.

(** The product of the sides is not checked: at [2^32] by [2^32] it wraps to zero, the slices are
    empty, and asking for a cell of the grid panics. *)
Lemma NewGrid_overflow : exists g, NewGrid (2 ^ 32) (2 ^ 32) = Ret g /\ InBounds g (MkPoint 0 0) = true /\
  IsBlocked g (MkPoint 0 0) = Panic index_panic.
Proof. eexists. split; [vm_compute; reflexivity|]. split; vm_compute; reflexivity. Qed.

(** * Concrete runs *)

(** A wall with a gap, and a swamp. *)
Definition field : Grid := MkGrid 3 2 [false; true; false; false; false; false] [1; 1; 1; 1; 5; 1].

Lemma field_wf : wf field.
Proof. split; try done. cbn [cost field]. repeat apply Forall_cons_2; try apply Forall_nil_2; lia. Qed.

Lemma find_path_walks_witness : exists l, FindPath field (MkPoint 0 0) (MkPoint 2 0) (MkConfig true false) = Ret l /\
  (l = [] \/ free field (MkPoint 0 0) /\ path field (MkConfig true false) (MkPoint 0 0) (MkPoint 2 0) l).
Proof. exact (find_path_walks field (MkPoint 0 0) (MkPoint 2 0) (MkConfig true false) field_wf). Defined.

Lemma find_path_shortest_witness : exists l, FindPath field (MkPoint 0 0) (MkPoint 2 0) (MkConfig false false) = Ret l /\
  (l = [] <-> ~ (free field (MkPoint 0 0) /\ exists l', path field (MkConfig false false) (MkPoint 0 0) (MkPoint 2 0) l')) /\
  (l <> [] -> path field (MkConfig false false) (MkPoint 0 0) (MkPoint 2 0) l /\
     forall l', path field (MkConfig false false) (MkPoint 0 0) (MkPoint 2 0) l' -> path_cost field l <= path_cost field l').
Proof.
  apply (find_path_shortest field (MkPoint 0 0) (MkPoint 2 0) (MkConfig false false) 5 field_wf eq_refl); [|vm_compute; reflexivity].
  cbn [cost field]. repeat apply Forall_cons_2; try apply Forall_nil_2; lia.
Defined.

Example field_path : FindPath field (MkPoint 0 0) (MkPoint 2 0) (MkConfig false false) =
  Ret [MkPoint 0 0; MkPoint 0 1; MkPoint 1 1; MkPoint 2 1; MkPoint 2 0].
Proof. vm_compute. reflexivity. Qed.
