(* ===== verification/KeyedMutex.v ===== *)
(** One mutex per key ([pkg/foundation/keyedmutex/keyedmutex.go]): entries made on demand, shared
    by the calls of a key and counted, under any interleaving of the calls. *)
From Stdlib Require Import ZArith Lia Bool.
From stdpp Require Import base numbers strings list gmap fin_maps.
From S2P Require Import Prelude.

Open Scope Z_scope.

(** * The state *)

(** [entry.mu] is held or not. *)
Record entry := MkEntry { mu : bool; ref : Z }.

(** The map holds pointers into the store of the entries made so far. *)
Record KeyedMutex := MkKM { entries : gmap string nat; store : list entry }.

Definition New : KeyedMutex := MkKM ∅ [].

(** [acquireEntry] and [releaseEntry], each one critical section of [km.mu]. *)
Definition acquireEntry (key : string) (km : KeyedMutex) : KeyedMutex * nat :=
  let '(km, e) :=
    match entries km !! key with
    | Some e => (km, e)
    | None => (MkKM (<[key := length (store km)]> (entries km)) (store km ++ [MkEntry false 0]), length (store km))
    end in
  (MkKM (entries km) (alter (fun x => MkEntry (mu x) (ref x + 1)) e (store km)), e).

Definition releaseEntry (key : string) (e : nat) (km : KeyedMutex) : KeyedMutex :=
  let st := alter (fun x => MkEntry (mu x) (ref x - 1)) e (store km) in
  match st !! e with
  | Some x =>
      if ref x =? 0 then
        match entries km !! key with
        | Some cur => if decide (cur = e) then MkKM (delete key (entries km)) st else MkKM (entries km) st
        | None => MkKM (entries km) st
        end
      else MkKM (entries km) st
  | None => MkKM (entries km) st
  end.

Definition Len (km : KeyedMutex) : Z := Z.of_nat (size (entries km)).

Definition locked (e : nat) (km : KeyedMutex) : bool :=
  match store km !! e with Some x => mu x | None => false end.
Definition set_mu (b : bool) (e : nat) (km : KeyedMutex) : KeyedMutex :=
  MkKM (entries km) (alter (fun x => MkEntry b (ref x)) e (store km)).

(** * The calls *)

(** A call of [Lock] or [TryLock] between its steps: waiting for the entry's mutex, trying it,
    holding it, or past it and about to give up its count; then it is over. *)
Inductive phase := PWait (key : string) (e : nat) | PTry (key : string) (e : nat) | PHold (key : string) (e : nat)
  | PRel (key : string) (e : nat) | PDone.

Record system := MkSystem { km : KeyedMutex; calls : list phase }.

Inductive event :=
  | ELock (key : string) | ETryLock (key : string)
  | EGrant (c : nat)    (** the mutex of the entry is given to the call *)
  | ERefuse (c : nat)   (** [TryLock] of the mutex answers false *)
  | EUnlock (c : nat)   (** the closure answered is called, perhaps again *)
  | ERelease (c : nat).

(** A step of [Lock], [TryLock] or of the closure they answer; [None]: it cannot be taken now. *)
Definition step (ev : event) (s : system) : option system :=
  match ev with
  | ELock key => let '(m, e) := acquireEntry key (km s) in Some (MkSystem m (calls s ++ [PWait key e]))
  | ETryLock key => let '(m, e) := acquireEntry key (km s) in Some (MkSystem m (calls s ++ [PTry key e]))
  | EGrant c =>
      match calls s !! c with
      | Some (PWait key e) | Some (PTry key e) =>
          if locked e (km s) then None else Some (MkSystem (set_mu true e (km s)) (<[c := PHold key e]> (calls s)))
      | _ => None
      end
  | ERefuse c =>
      match calls s !! c with
      | Some (PTry key e) => Some (MkSystem (km s) (<[c := PRel key e]> (calls s)))
      | _ => None
      end
  | EUnlock c =>
      match calls s !! c with
      | Some (PHold key e) => Some (MkSystem (set_mu false e (km s)) (<[c := PRel key e]> (calls s)))
      | Some (PRel _ _) | Some PDone => Some s
      | _ => None
      end
  | ERelease c =>
      match calls s !! c with
      | Some (PRel key e) => Some (MkSystem (releaseEntry key e (km s)) (<[c := PDone]> (calls s)))
      | _ => None
      end
  end.

Inductive reachable : system -> Prop :=
  | reach_new : reachable (MkSystem New [])
  | reach_step ev s s' : reachable s -> step ev s = Some s' -> reachable s'.

(** * The invariant *)

Definition at_key (p : phase) : option (string * nat) :=
  match p with PWait k e | PTry k e | PHold k e | PRel k e => Some (k, e) | PDone => None end.
Definition uses (e : nat) (p : phase) : bool :=
  match p with PWait _ e' | PTry _ e' | PHold _ e' | PRel _ e' => bool_decide (e' = e) | PDone => false end.
Definition holds (e : nat) (p : phase) : bool :=
  match p with PHold _ e' => bool_decide (e' = e) | _ => false end.

Definition count (f : phase -> bool) (l : list phase) : nat := length (List.filter f l).

Record inv (s : system) : Prop := {
  i_at : forall c p k e, calls s !! c = Some p -> at_key p = Some (k, e) -> entries (km s) !! k = Some e;
  i_entry : forall k e, entries (km s) !! k = Some e -> exists x, store (km s) !! e = Some x /\
    ref x = Z.of_nat (count (uses e) (calls s)) /\ (0 < count (uses e) (calls s))%nat /\
    count (holds e) (calls s) = Nat.b2n (mu x);
  i_inj : forall k k' e, entries (km s) !! k = Some e -> entries (km s) !! k' = Some e -> k = k'
}.

Lemma count_snoc f l p : count f (l ++ [p]) = (count f l + Nat.b2n (f p))%nat.
Proof. unfold count. rewrite List.filter_app, length_app. cbn. by destruct (f p). Qed.

Lemma count_insert f l c p q : l !! c = Some p -> (count f (<[c := q]> l) + Nat.b2n (f p) = count f l + Nat.b2n (f q))%nat.
Proof.
  unfold count. revert c. induction l as [|x l IH]; intros [|c] Hc; try done.
  - injection Hc as ->. cbn. destruct (f p), (f q); cbn; lia.
  - specialize (IH c Hc). change (<[S c := q]> (x :: l)) with (x :: <[c := q]> l). cbn [List.filter].
    destruct (f x); cbn [length]; lia.
Qed.

Lemma count_pos f l : (0 < count f l)%nat <-> exists c p, l !! c = Some p /\ f p = true.
Proof.
  unfold count. split.
  - destruct (List.filter f l) as [|p l'] eqn:E; [simpl; lia|]. intros _.
    assert (In p (List.filter f l)) as Hp by (rewrite E; by left). apply List.filter_In in Hp as [Hp Hf].
    apply list_elem_of_In, list_elem_of_lookup in Hp as [c Hc]. eauto.
  - intros (c & p & Hc & Hf). apply list_elem_of_lookup_2, list_elem_of_In in Hc.
    assert (In p (List.filter f l)) as Hp by by apply List.filter_In. destruct (List.filter f l); [done|simpl; lia].
Qed.

(** A property of phases that two different calls have is counted twice. *)
Lemma count_one f l c c' p p' : f PDone = false -> (count f l <= 1)%nat -> l !! c = Some p -> l !! c' = Some p' ->
  f p = true -> f p' = true -> c = c'.
Proof.
  intros Hd Hl Hc Hc' Hp Hp'. destruct (decide (c = c')) as [|Hne]; [done|exfalso].
  pose proof (count_insert f l c p PDone Hc) as H1. assert (<[c := PDone]> l !! c' = Some p') as Hc2
    by by rewrite list_lookup_insert_ne.
  assert (0 < count f (<[c := PDone]> l))%nat by (apply count_pos; eauto). rewrite Hp, Hd in H1. cbn in H1. lia.
Qed.

Lemma uses_at e p : uses e p = true <-> exists k, at_key p = Some (k, e).
Proof.
  destruct p; cbn; rewrite ?bool_decide_eq_true; try (split; [intros ->; eauto|by intros [? [= -> ->]]]).
  split; [done|by intros [? ?]].
Qed.

Lemma holds_uses e p : holds e p = true -> uses e p = true.
Proof. by destruct p. Qed.

Lemma alter_lookup (f : entry -> entry) (st : list entry) e e' :
  alter f e st !! e' = if decide (e' = e) then f <$> st !! e else st !! e'.
Proof.
  destruct (decide (e' = e)) as [->|Hne]; [apply list_lookup_alter_eq|by apply list_lookup_alter_ne].
Qed.

Lemma at_snoc (l : list phase) p c p' : (l ++ [p]) !! c = Some p' -> l !! c = Some p' \/ p' = p.
Proof. intros H. apply lookup_app_Some in H as [H|[_ H]]; [by left|right]. destruct (c - length l)%nat as [|n]; by simplify_eq/=. Qed.

(** ** A new call *)

Lemma acquire_inv s key m e p : inv s -> acquireEntry key (km s) = (m, e) -> at_key p = Some (key, e) ->
  (forall e', holds e' p = false) -> inv (MkSystem m (calls s ++ [p])).
Proof.
  intros [Ha He Hj] Hm Hp Hh. unfold acquireEntry in Hm.
  assert (forall e', uses e' p = bool_decide (e' = e)) as Hu.
  { intros e'. apply eq_iff_eq_true. rewrite uses_at, bool_decide_eq_true, Hp. split; [by intros [k [= _ ->]]|intros ->; eauto]. }
  destruct (entries (km s) !! key) as [e0|] eqn:E; injection Hm as <- <-; split; cbn [km calls entries store].
  - intros c p' k e Hc Hk. apply at_snoc in Hc as [Hc| ->]; [by eapply Ha|]. rewrite Hp in Hk. by injection Hk as <- <-.
  - intros k e Hk. destruct (He k e Hk) as (x & Hx & Hr & Hpos & Hho). rewrite alter_lookup, !count_snoc, Hu, Hh.
    destruct (decide (e = e0)) as [->|Hne]; [rewrite Hx, bool_decide_true by done|rewrite bool_decide_false by done];
      eexists; cbn; (split; [done|]); cbn; lia.
  - done.
  - intros c p' k e Hc Hk. apply at_snoc in Hc as [Hc| ->].
    + specialize (Ha c p' k e Hc Hk). rewrite lookup_insert_ne; [done|congruence].
    + rewrite Hp in Hk. injection Hk as <- <-. apply lookup_insert_eq.
  - assert (count (uses (length (store (km s)))) (calls s) = 0%nat) as H0.
    { destruct (count _ _) eqn:Ec; [done|]. destruct (proj1 (count_pos (uses (length (store (km s)))) (calls s)))
        as (c & p' & Hc & Hp'); [lia|]. apply uses_at in Hp' as [k Hk].
      destruct (He _ _ (Ha c p' k _ Hc Hk)) as (x & Hx & _). apply lookup_lt_Some in Hx. lia. }
    assert (count (holds (length (store (km s)))) (calls s) = 0%nat) as H1.
    { destruct (count (holds _) _) eqn:Ec; [done|]. destruct (proj1 (count_pos (holds (length (store (km s)))) (calls s)))
        as (c & p' & Hc & Hp'); [lia|]. apply holds_uses in Hp'.
      assert (0 < count (uses (length (store (km s)))) (calls s))%nat by (apply count_pos; eauto). lia. }
    intros k e Hk. rewrite alter_lookup, !count_snoc, Hu, Hh. apply lookup_insert_Some in Hk as [[<- <-]|[Hne Hk]].
    + rewrite decide_True, bool_decide_true by done. rewrite lookup_app_r, Nat.sub_diag by lia. cbn.
      eexists. split; [done|]. cbn. lia.
    + destruct (He k e Hk) as (x & Hx & Hr & Hpos & Hho). pose proof (lookup_lt_Some _ _ _ Hx).
      rewrite decide_False, bool_decide_false by lia. exists x. rewrite lookup_app_l by lia. split; [done|]. cbn. lia.
  - intros k k' e Hk Hk'. assert (forall k e, entries (km s) !! k = Some e -> e <> length (store (km s))) as Hlt.
    { intros k0 e0 H0. destruct (He k0 e0 H0) as (x & Hx & _). apply lookup_lt_Some in Hx. lia. }
    apply lookup_insert_Some in Hk as [[<- <-]|[Hne Hk]]; apply lookup_insert_Some in Hk' as [[<- E']|[Hne' Hk']].
    + done.
    + exfalso. by apply (Hlt _ _ Hk').
    + exfalso. apply (Hlt _ _ Hk). done.
    + by eapply Hj.
Qed.

(** ** A call that goes on with its entry *)

Lemma move_inv s c p q key e b : inv s -> calls s !! c = Some p -> at_key p = Some (key, e) -> at_key q = Some (key, e) ->
  Nat.b2n (holds e q) = (Nat.b2n (holds e p) + Nat.b2n b - Nat.b2n (locked e (km s)))%nat ->
  (Nat.b2n (locked e (km s)) <= Nat.b2n (holds e p) + Nat.b2n b)%nat ->
  inv (MkSystem (set_mu b e (km s)) (<[c := q]> (calls s))).
Proof.
  intros [Ha He Hj] Hc Hp Hq Hb Hle. split; cbn [km calls entries store set_mu].
  - intros c' p' k e' Hc' Hk. destruct (decide (c' = c)) as [->|Hne].
    + rewrite list_lookup_insert_eq in Hc' by by eapply lookup_lt_Some. injection Hc' as <-. rewrite Hq in Hk.
      injection Hk as <- <-. by eapply Ha.
    + rewrite list_lookup_insert_ne in Hc' by done. by eapply Ha.
  - intros k e' Hk. destruct (He k e' Hk) as (x & Hx & Hr & Hpos & Hho).
    pose proof (count_insert (uses e') _ _ _ q Hc) as Hu. pose proof (count_insert (holds e') _ _ _ q Hc) as Hh.
    assert (uses e' p = uses e' q) as Eu.
    { apply eq_iff_eq_true. by rewrite !uses_at, Hp, Hq. }
    rewrite Eu in Hu. rewrite alter_lookup. destruct (decide (e' = e)) as [->|Hne].
    + rewrite Hx. eexists. split; [done|]. cbn. unfold locked in Hb, Hle. rewrite Hx in Hb, Hle. lia.
    + exists x. split; [done|]. assert (holds e' p = false /\ holds e' q = false) as [Hp0 Hq0].
      { split; apply not_true_iff_false; intros E; apply holds_uses, uses_at in E as [k' E]; congruence. }
      rewrite Hp0, Hq0 in Hh. cbn in Hh. lia.
  - done.
Qed.

(** A call gives up its count. *)
Lemma release_inv s c key e : inv s -> calls s !! c = Some (PRel key e) ->
  inv (MkSystem (releaseEntry key e (km s)) (<[c := PDone]> (calls s))).
Proof.
  intros [Ha He Hj] Hc. pose proof (Ha c _ key e Hc eq_refl) as Hk. destruct (He key e Hk) as (x & Hx & Hr & Hpos & Hho).
  assert (forall c' p' k' e', <[c := PDone]> (calls s) !! c' = Some p' -> at_key p' = Some (k', e') ->
    calls s !! c' = Some p') as Hold.
  { intros c' p' k' e' Hc' Hk'. destruct (decide (c' = c)) as [->|Hne]; [|by rewrite list_lookup_insert_ne in Hc'].
    rewrite list_lookup_insert_eq in Hc' by by eapply lookup_lt_Some. by injection Hc' as <-. }
  assert (forall k' e', entries (km s) !! k' = Some e' -> exists y,
    alter (fun x => MkEntry (mu x) (ref x - 1)) e (store (km s)) !! e' = Some y /\
    ref y = Z.of_nat (count (uses e') (<[c := PDone]> (calls s))) /\
    count (holds e') (<[c := PDone]> (calls s)) = Nat.b2n (mu y)) as Hall.
  { intros k' e' Hk'. destruct (He k' e' Hk') as (y & Hy & Hry & Hpy & Hhy).
    pose proof (count_insert (uses e') _ _ _ PDone Hc) as Hu. pose proof (count_insert (holds e') _ _ _ PDone Hc) as Hh.
    cbn in Hu, Hh. rewrite alter_lookup. destruct (decide (e' = e)) as [->|Hne].
    - rewrite bool_decide_true in Hu by done. rewrite Hy. eexists. split; [done|]. cbn in *. lia.
    - rewrite bool_decide_false in Hu by done. exists y. split; [done|]. cbn in Hu. lia. }
  pose proof (count_insert (uses e) _ _ _ PDone Hc) as Hu. cbn in Hu. rewrite bool_decide_true in Hu by done. cbn in Hu.
  unfold releaseEntry. rewrite alter_lookup, decide_True, Hx by done. cbn [fmap option_fmap option_map ref]. rewrite Hk, decide_True by done.
  destruct (Z.eqb_spec (ref x - 1) 0) as [E0|E0]; split; cbn [km calls entries store].
  - intros c' p' k' e' Hc' Hk'. pose proof (Hold _ _ _ _ Hc' Hk') as Hc0. pose proof (Ha c' p' k' e' Hc0 Hk') as Hk0.
    rewrite lookup_delete_ne; [done|]. intros <-. assert (e' = e) as -> by congruence.
    assert (0 < count (uses e) (<[c := PDone]> (calls s)))%nat; [|lia]. apply count_pos. exists c', p'. split; [done|].
    apply uses_at. eauto.
  - intros k' e' Hk'. apply lookup_delete_Some in Hk' as [Hne Hk']. destruct (Hall k' e' Hk') as (y & Hy & Hry & Hhy).
    exists y. split_and!; try done. destruct (He k' e' Hk') as (z & _ & _ & Hz & _).
    pose proof (count_insert (uses e') _ _ _ PDone Hc) as Hu'. cbn in Hu'. rewrite bool_decide_false in Hu'; [cbn in Hu'; lia|].
    intros ->. apply Hne. by eapply Hj.
  - intros k1 k2 e' H1 H2. apply lookup_delete_Some in H1 as [_ H1], H2 as [_ H2]. by eapply Hj.
  - intros c' p' k' e' Hc' Hk'. eapply Ha; [by eapply Hold|done].
  - intros k' e' Hk'. destruct (Hall k' e' Hk') as (y & Hy & Hry & Hhy). exists y. split_and!; try done.
    destruct (decide (e' = e)) as [->|Hne]; [lia|]. destruct (He k' e' Hk') as (z & _ & _ & Hz & _).
    pose proof (count_insert (uses e') _ _ _ PDone Hc) as Hu'. cbn in Hu'. rewrite bool_decide_false in Hu' by done. cbn in Hu'. lia.
  - done.
Qed.

Lemma set_mu_id e m : set_mu (locked e m) e m = m.
Proof.
  destruct m as [en st]. unfold set_mu, locked. cbn. f_equal. apply list_eq. intros i. rewrite alter_lookup.
  destruct (decide (i = e)) as [->|]; [|done]. by destruct (st !! e) as [[]|].
Qed.

Lemma inv_locked s c key e : inv s -> calls s !! c = Some (PHold key e) -> locked e (km s) = true.
Proof.
  intros [Ha He _] Hc. destruct (He key e (Ha _ _ _ _ Hc eq_refl)) as (x & Hx & _ & _ & Hh). unfold locked. rewrite Hx.
  assert (0 < count (holds e) (calls s))%nat as Hp.
  { apply count_pos. exists c, (PHold key e). split; [done|]. cbn. by rewrite bool_decide_true. }
  destruct (mu x); [done|]. cbn in Hh. lia.
Qed.

Lemma step_inv ev s s' : inv s -> step ev s = Some s' -> inv s'.
Proof.
  intros Hi Hs. destruct ev as [key|key|c|c|c|c]; cbn [step] in Hs.
  1,2: destruct (acquireEntry key (km s)) as [m e] eqn:E; injection Hs as <-; by eapply acquire_inv.
  - destruct (calls s !! c) as [p|] eqn:Hc; [|done].
    destruct p as [key e|key e| | |]; try done; destruct (locked e (km s)) eqn:El; try done; injection Hs as <-;
      (eapply move_inv; [done|done|reflexivity|reflexivity|..]); cbn; rewrite El, ?bool_decide_true by done; cbn; lia.
  - destruct (calls s !! c) as [p|] eqn:Hc; [|done]. destruct p as [|key e| | |]; try done. injection Hs as <-.
    rewrite <- (set_mu_id e (km s)). eapply move_inv; [done|done|reflexivity|reflexivity|..]; cbn; destruct (locked _ _); done.
  - destruct (calls s !! c) as [p|] eqn:Hc; [|done]. destruct p as [| |key e| |]; try done; injection Hs as <-; try done.
    pose proof (inv_locked s c key e Hi Hc) as El.
    eapply move_inv; [done|done|reflexivity|reflexivity|..]; cbn; rewrite El, ?bool_decide_true by done; cbn; lia.
  - destruct (calls s !! c) as [p|] eqn:Hc; [|done]. destruct p as [| | |key e|]; try done. injection Hs as <-.
    by apply release_inv.
Qed.

Lemma km_reachable_inv s : reachable s -> inv s.
Proof.
  induction 1 as [|ev s s' _ IH Hs]; [|by eapply step_inv]. split; cbn; try done.
Qed.

(** * What the lock promises *)

Lemma holder_locked s k e : inv s -> entries (km s) !! k = Some e ->
  locked e (km s) = true <-> exists c e', calls s !! c = Some (PHold k e').
Proof.
  intros Hi Hk. split.
  - intros El. destruct (i_entry _ Hi k e Hk) as (x & Hx & _ & _ & Hh). unfold locked in El. rewrite Hx in El. rewrite El in Hh.
    destruct (proj1 (count_pos (holds e) (calls s))) as (c & p & Hc & Hp); [cbn in Hh; lia|].
    exists c, e. destruct p as [| |k' e'| |]; try done. cbn in Hp. apply bool_decide_eq_true in Hp as ->.
    pose proof (i_at _ Hi c _ k' e Hc eq_refl) as Hk'. by rewrite (i_inj _ Hi k k' e Hk Hk').
  - intros (c & e' & Hc). pose proof (i_at _ Hi c _ k e' Hc eq_refl) as Hk'. assert (e' = e) as -> by congruence.
    by apply (inv_locked s c k e).
Qed.

(** C33: Whatever calls of Lock, TryLock and of the closures they answer are interleaved, a key has at
    most one holder; a call that waits for a key, or tries it, can be given it exactly when nobody
    holds that key, whoever holds the others; and the map keeps a key exactly as long as some call is
    on it, so nothing is left when all are over. *)
Theorem lock_per_key s : reachable s ->
  (forall c c' k e e', calls s !! c = Some (PHold k e) -> calls s !! c' = Some (PHold k e') -> c = c') /\
  (forall c k e, calls s !! c = Some (PWait k e) \/ calls s !! c = Some (PTry k e) ->
     step (EGrant c) s <> None <-> forall c' e', calls s !! c' <> Some (PHold k e')) /\
  (forall k, entries (km s) !! k <> None <-> exists c p e, calls s !! c = Some p /\ at_key p = Some (k, e)) /\
  (Len (km s) = 0 <-> Forall (fun p => p = PDone) (calls s)).
Proof.
  intros Hr. apply km_reachable_inv in Hr as Hi.
  assert (forall k, entries (km s) !! k <> None <-> exists c p e, calls s !! c = Some p /\ at_key p = Some (k, e)) as Hkeys.
  { intros k. split.
    - destruct (entries (km s) !! k) as [e|] eqn:E; [|done]. intros _. destruct (i_entry _ Hi k e E) as (_ & _ & _ & Hp & _).
      apply count_pos in Hp as (c & p & Hc & Hu). apply uses_at in Hu as [k' Hk'].
      pose proof (i_at _ Hi c p k' e Hc Hk') as E'. exists c, p, e. by rewrite (i_inj _ Hi k k' e E E').
    - intros (c & p & e & Hc & Hp). by rewrite (i_at _ Hi c p k e Hc Hp). }
  split_and!; [| |done|].
  - intros c c' k e e' Hc Hc'. pose proof (i_at _ Hi c _ k e Hc eq_refl) as E. pose proof (i_at _ Hi c' _ k e' Hc' eq_refl) as E'.
    assert (e' = e) as -> by congruence. destruct (i_entry _ Hi k e E) as (x & _ & _ & _ & Hh).
    apply (count_one (holds e) (calls s) c c' _ _ eq_refl) with (2 := Hc) (3 := Hc'); cbn; rewrite ?bool_decide_true by done; try done.
    destruct (mu x); cbn in Hh; lia.
  - intros c k e Hc. assert (entries (km s) !! k = Some e) as Hk by (destruct Hc as [Hc|Hc]; by apply (i_at _ Hi c _ k e Hc)).
    pose proof (holder_locked s k e Hi Hk) as Hl.
    assert (step (EGrant c) s <> None <-> locked e (km s) = false) as ->.
    { cbn [step]. destruct Hc as [-> | ->]; destruct (locked e (km s)); done. }
    rewrite <- not_true_iff_false, Hl. naive_solver.
  - unfold Len. rewrite Forall_lookup. split.
    + intros Hz c p Hc. assert (entries (km s) = ∅) as E0 by (apply map_size_empty_inv; lia).
      destruct (at_key p) as [[k e]|] eqn:Ep; [|by destruct p]. exfalso. apply (proj2 (Hkeys k)); [eauto|by rewrite E0].
    + intros Hall. assert (entries (km s) = ∅) as ->; [|by rewrite map_size_empty]. apply map_eq. intros k. rewrite lookup_empty.
      destruct (entries (km s) !! k) as [e|] eqn:E; [|done]. exfalso.
      destruct (proj1 (Hkeys k)) as (c & p & e' & Hc & Hp); [by rewrite E|]. by rewrite (Hall c p Hc) in Hp.
Qed.

(** * A concrete run *)

Definition after (evs : list event) : option system := foldl (fun s ev => s ≫= step ev) (Some (MkSystem New [])) evs.

Lemma after_reachable evs s : after evs = Some s -> reachable s.
Proof.
  unfold after. revert s. induction evs as [|ev evs IH] using rev_ind; intros s; [intros [= <-]; constructor|].
  rewrite foldl_app. cbn. destruct (foldl _ _ evs) as [s0|]; [|done]. intros H. eapply reach_step; [by apply IH|done].
Qed.

Definition demo : system := default (MkSystem New []) (after [ELock "a"; ELock "a"; EGrant 0; ETryLock "b"; EUnlock 0; EUnlock 0]).

Lemma lock_per_key_witness : reachable demo /\
  (forall c c' k e e', calls demo !! c = Some (PHold k e) -> calls demo !! c' = Some (PHold k e') -> c = c') /\
  (forall c k e, calls demo !! c = Some (PWait k e) \/ calls demo !! c = Some (PTry k e) ->
     step (EGrant c) demo <> None <-> forall c' e', calls demo !! c' <> Some (PHold k e')) /\
  (forall k, entries (km demo) !! k <> None <-> exists c p e, calls demo !! c = Some p /\ at_key p = Some (k, e)) /\
  (Len (km demo) = 0 <-> Forall (fun p => p = PDone) (calls demo)).
Proof.
  assert (reachable demo) as H; [|split; [exact H|exact (lock_per_key demo H)]].
  apply (after_reachable [ELock "a"; ELock "a"; EGrant 0; ETryLock "b"; EUnlock 0; EUnlock 0]). vm_compute. reflexivity.
Defined.
