(* ===== verification/Semaphore.v ===== *)
(** The weighted semaphore ([pkg/foundation/semaphore/semaphore.go]): calls that take a share of a
    capacity, at once or by polling, under any interleaving. *)
From Stdlib Require Import ZArith Lia Bool.
From stdpp Require Import base numbers strings list.
From S2P Require Import Prelude.

Open Scope Z_scope.

(** [onReject] is a callback and left out. *)
Record config := MkConfig { capacity : Z; maxWait : Z }.
Definition WithCapacity (n : Z) (c : config) : config := if 0 <? n then MkConfig n (maxWait c) else c.
Definition WithMaxWait (d : Z) (c : config) : config := if 0 <=? d then MkConfig (capacity c) d else c.

Record Semaphore := MkSem { cfg : config; used : Z; inFlight : Z }.

Definition New (opts : list (config -> config)) : Semaphore :=
  MkSem (foldl (fun c o => o c) (MkConfig 10 0) opts) 0 0.

Definition invalid_cost : string := "semaphore: invalid cost".

(** The critical section [Acquire], [TryAcquire] and every turn of [acquireWait] share. *)
Definition attempt (cost : Z) (s : Semaphore) : Semaphore * bool :=
  if wrap64 (used s + cost) <=? capacity (cfg s)
  then (MkSem (cfg s) (wrap64 (used s + cost)) (wrap64 (inFlight s + cost)), true)
  else (s, false).

Definition invalid (cost : Z) (s : Semaphore) : bool := (cost <=? 0) || (capacity (cfg s) <? cost).

Inductive acquired := Acquired | ErrFull | Waiting.

(** [Acquire] up to its answer, or up to [acquireWait]. *)
Definition Acquire (cost : Z) (s : Semaphore) : go (Semaphore * acquired) :=
  if invalid cost s then Panic invalid_cost
  else
    let '(s, ok) := attempt cost s in
    Ret (s, if ok then Acquired else if maxWait (cfg s) =? 0 then ErrFull else Waiting).

Definition TryAcquire (cost : Z) (s : Semaphore) : go (Semaphore * bool) :=
  if invalid cost s then Panic invalid_cost else Ret (attempt cost s).

(** The state is changed also where the call panics. *)
Definition Release (cost : Z) (s : Semaphore) : Semaphore * go unit :=
  let u := wrap64 (used s - cost) in
  if u <? 0 then (MkSem (cfg s) u (inFlight s), Panic "semaphore: released more than acquired")
  else (MkSem (cfg s) u (wrap64 (inFlight s - cost)), Ret ()).

Definition InFlight (s : Semaphore) : Z := inFlight s.
Definition Available (s : Semaphore) : Z := wrap64 (capacity (cfg s) - used s).
Definition Capacity (s : Semaphore) : Z := capacity (cfg s).

(** * The calls *)

Inductive call := CWait (cost : Z) | CHeld (cost : Z) | COver.

Record system := MkSystem { sem : Semaphore; calls : list call }.

Inductive event :=
  | EAcquire (cost : Z) | ETry (cost : Z)
  | EPoll (c : nat)      (** a turn of [acquireWait] *)
  | EGiveUp (c : nat)    (** the context or the deadline ends the wait *)
  | ERelease (c : nat).

Definition step (ev : event) (s : system) : option system :=
  match ev with
  | EAcquire cost =>
      match Acquire cost (sem s) with
      | Ret (m, a) => Some (MkSystem m (calls s ++ [match a with Acquired => CHeld cost | ErrFull => COver | Waiting => CWait cost end]))
      | Panic _ => Some s
      end
  | ETry cost =>
      match TryAcquire cost (sem s) with
      | Ret (m, ok) => Some (MkSystem m (calls s ++ [if ok : bool then CHeld cost else COver]))
      | Panic _ => Some s
      end
  | EPoll c =>
      match calls s !! c with
      | Some (CWait cost) =>
          let '(m, ok) := attempt cost (sem s) in
          Some (MkSystem m (if ok : bool then <[c := CHeld cost]> (calls s) else calls s))
      | _ => None
      end
  | EGiveUp c =>
      match calls s !! c with
      | Some (CWait _) => Some (MkSystem (sem s) (<[c := COver]> (calls s)))
      | _ => None
      end
  | ERelease c =>
      match calls s !! c with
      | Some (CHeld cost) => Some (MkSystem (Release cost (sem s)).1 (<[c := COver]> (calls s)))
      | _ => None
      end
  end.

Inductive reachable (opts : list (config -> config)) : system -> Prop :=
  | reach_new : reachable opts (MkSystem (New opts) [])
  | reach_step ev s s' : reachable opts s -> step ev s = Some s' -> reachable opts s'.

(** What the calls that were let in hold together. *)
Definition share (c : call) : Z := match c with CHeld cost => cost | _ => 0 end.
Definition held (l : list call) : Z := foldr (fun c z => share c + z) 0 l.

Definition cost_ok (cap : Z) (c : call) : Prop :=
  match c with CWait cost | CHeld cost => 0 < cost <= cap | COver => True end.

Record inv (cap : Z) (s : system) : Prop := {
  i_cap : capacity (cfg (sem s)) = cap;
  i_used : used (sem s) = held (calls s);
  i_flight : inFlight (sem s) = held (calls s);
  i_bound : held (calls s) <= cap;
  i_costs : Forall (cost_ok cap) (calls s)
}.

Lemma held_app l l' : held (l ++ l') = held l + held l'.
Proof. unfold held. induction l as [|c l IH]; cbn [app foldr]; lia. Qed.

Lemma held_insert l c x y : l !! c = Some x -> held (<[c := y]> l) = held l - share x + share y.
Proof.
  revert c. induction l as [|z l IH]; intros [|c] Hc; try done.
  - injection Hc as ->. unfold held. cbn. lia.
  - specialize (IH c Hc). change (<[S c := y]> (z :: l)) with (z :: <[c := y]> l). unfold held in *. cbn [foldr]. lia.
Qed.

Lemma held_pos cap l : Forall (cost_ok cap) l -> 0 <= held l.
Proof. unfold held. induction 1 as [|c l Hc _ IH]; cbn [foldr]; [done|]. destruct c; cbn in *; lia. Qed.

Section bounded.
Context (cap : Z) (Hcap : 0 < cap < 2 ^ 62).

(** The addition does not wrap: a share is let in exactly when it fits. *)
Lemma attempt_fits s cost : inv cap s -> 0 < cost <= cap ->
  attempt cost (sem s) =
    if held (calls s) + cost <=? cap then (MkSem (cfg (sem s)) (held (calls s) + cost) (held (calls s) + cost), true)
    else (sem s, false).
Proof.
  intros [E1 E2 E3 Hb Hc] Hcost. pose proof (held_pos cap _ Hc). unfold attempt. rewrite E2, E3, E1.
  rewrite wrap64_id by (unfold int64; lia). done.
Qed.

Lemma inv_attempt s cost m ok : inv cap s -> 0 < cost <= cap -> attempt cost (sem s) = (m, ok) ->
  capacity (cfg m) = cap /\ used m = held (calls s) + (if ok then cost else 0) /\ inFlight m = used m /\ used m <= cap.
Proof.
  intros Hi Hcost Ha. rewrite attempt_fits in Ha by done. destruct Hi as [E1 E2 E3 Hb Hc].
  destruct (Z.leb_spec (held (calls s) + cost) cap); injection Ha as <- <-; cbn; rewrite ?E2, ?E3; split_and!; lia || done.
Qed.

Lemma inv_snoc s cost m ok x : inv cap s -> 0 < cost <= cap -> attempt cost (sem s) = (m, ok) ->
  share x = (if ok then cost else 0) -> cost_ok cap x -> inv cap (MkSystem m (calls s ++ [x])).
Proof.
  intros Hi Hcost Ha Hx Hox. destruct (inv_attempt s cost m ok Hi Hcost Ha) as (H1 & H2 & H3 & H4). destruct Hi.
  assert (held (calls s ++ [x]) = used m) as E by (rewrite held_app; unfold held at 2; cbn; lia).
  split; cbn [sem calls]; rewrite ?E; try done. apply Forall_app. split; [done|by repeat constructor].
Qed.

Lemma valid_cost s cost : inv cap s -> invalid cost (sem s) = false -> 0 < cost <= cap.
Proof. intros [E _ _ _ _]. unfold invalid. rewrite E, orb_false_iff, Z.leb_gt, Z.ltb_ge. lia. Qed.

Lemma sem_step_inv ev s s' : inv cap s -> step ev s = Some s' -> inv cap s'.
Proof.
  intros Hi Hs. destruct ev as [cost|cost|c|c|c]; cbn [step] in Hs.
  - unfold Acquire in Hs. destruct (invalid cost (sem s)) eqn:Ev; [by injection Hs as <-|]. apply (valid_cost s) in Ev; [|done].
    destruct (attempt cost (sem s)) as [m ok] eqn:Ea. injection Hs as <-. eapply inv_snoc; try done.
    all: destruct ok; try destruct (_ =? 0); done.
  - unfold TryAcquire in Hs. destruct (invalid cost (sem s)) eqn:Ev; [by injection Hs as <-|]. apply (valid_cost s) in Ev; [|done].
    destruct (attempt cost (sem s)) as [m ok] eqn:Ea. injection Hs as <-. eapply inv_snoc; try done; by destruct ok.
  - destruct (calls s !! c) as [[cost|cost|]|] eqn:Hc; try done.
    assert (0 < cost <= cap) as Hcost by (pose proof (i_costs _ _ Hi) as Hf; rewrite Forall_lookup in Hf; by apply (Hf c _ Hc)).
    destruct (attempt cost (sem s)) as [m ok] eqn:Ea. injection Hs as <-.
    destruct (inv_attempt s cost m ok Hi Hcost Ea) as (H1 & H2 & H3 & H4). destruct Hi as [E1 E2 E3 Hb Hf].
    destruct ok; split; cbn [sem calls]; rewrite ?(held_insert _ _ _ _ Hc); cbn [share]; try lia; try done.
    by apply Forall_insert.
  - destruct (calls s !! c) as [[cost|cost|]|] eqn:Hc; try done. injection Hs as <-. destruct Hi as [E1 E2 E3 Hb Hf].
    split; cbn [sem calls]; rewrite ?(held_insert _ _ _ _ Hc); cbn [share]; try lia; try done. by apply Forall_insert.
  - destruct (calls s !! c) as [[cost|cost|]|] eqn:Hc; try done. injection Hs as <-. destruct Hi as [E1 E2 E3 Hb Hf].
    assert (Forall (cost_ok cap) (<[c := COver]> (calls s))) as Hf' by by apply Forall_insert.
    pose proof (held_pos _ _ Hf') as Hp. pose proof (held_pos _ _ Hf) as Hp0.
    rewrite (held_insert _ _ _ _ Hc) in Hp. cbn [share] in Hp.
    assert (0 < cost <= cap) as Hcost by (rewrite Forall_lookup in Hf; by apply (Hf c _ Hc)).
    unfold Release. rewrite E2, E3, wrap64_id by (unfold int64; lia). rewrite (proj2 (Z.ltb_ge _ _)) by lia.
    split; cbn [sem calls cfg used inFlight fst]; rewrite ?(held_insert _ _ _ _ Hc); cbn [share]; try lia; try done.
Qed.

(** With a capacity below [2^62], whatever calls are interleaved, as many of them held as
    time: the units counted as used are those held by the calls let in, never more than the
    capacity; a valid request is let in at once exactly when it fits, and releasing what was
    acquired never panics. *)
Theorem semaphore_bounded opts s : capacity (cfg (New opts)) = cap -> reachable opts s ->
  used (sem s) = held (calls s) /\ 0 <= held (calls s) <= cap /\ InFlight (sem s) = held (calls s) /\
  Available (sem s) = cap - held (calls s) /\
  (forall cost, 0 < cost <= cap -> exists m, TryAcquire cost (sem s) = Ret (m, held (calls s) + cost <=? cap)) /\
  (forall c cost, calls s !! c = Some (CHeld cost) -> (Release cost (sem s)).2 = Ret ()).
Proof.
  intros Hn Hr. assert (inv cap s) as Hi.
  { induction Hr as [|ev s0 s1 _ IH Hs]; [|by eapply sem_step_inv]. split; cbn [sem calls New]; try done. unfold held. cbn. lia. }
  pose proof Hi as [E1 E2 E3 Hb Hf]. pose proof (held_pos _ _ Hf). split_and!; try done.
  - unfold Available. rewrite E1, E2. apply wrap64_id. unfold int64. lia.
  - intros cost Hc. unfold TryAcquire, invalid. rewrite E1.
    rewrite (proj2 (Z.leb_gt _ _)), (proj2 (Z.ltb_ge _ _)) by lia. cbn [orb]. rewrite attempt_fits by done.
    destruct (Z.leb_spec (held (calls s) + cost) cap); by eexists.
  - intros c cost Hc. unfold Release. rewrite E2. pose proof (held_insert _ _ _ COver Hc) as Hh.
    assert (Forall (cost_ok cap) (<[c := COver]> (calls s))) as Hf' by by apply Forall_insert.
    pose proof (held_pos _ _ Hf') as Hp. cbn [share] in Hh.
    assert (0 < cost <= cap) as Hcost by (rewrite Forall_lookup in Hf; by apply (Hf c _ Hc)).
    rewrite wrap64_id by (unfold int64; lia). by rewrite (proj2 (Z.ltb_ge _ _)) by lia.
Qed.
End bounded.

(** ** Past the bounds *)

(** With the greatest capacity the sum wraps, and two calls hold the whole of it at once. *)
Lemma capacity_overflow : let s := New [WithCapacity maxInt64] in
  exists s1 s2, TryAcquire maxInt64 s = Ret (s1, true) /\ TryAcquire maxInt64 s1 = Ret (s2, true).
Proof. eexists _, _. split; [vm_compute; reflexivity|]. vm_compute. reflexivity. Qed.

(** A release too many panics with the count already lowered: who recovers has a semaphore of a
    larger capacity. *)
Lemma bad_release_raises_capacity : let s := (Release 3 (New [])).1 in
  (Release 3 (New [])).2 <> Ret () /\ Capacity s = 10 /\ Available s = 13.
Proof. vm_compute. split; [discriminate|]. split; reflexivity. Qed.

Definition run (opts : list (config -> config)) (evs : list event) : system :=
  foldl (fun s ev => default s (step ev s)) (MkSystem (New opts) []) evs.

Lemma run_reachable opts evs : reachable opts (run opts evs).
Proof.
  unfold run. induction evs as [|ev evs IH] using rev_ind; [constructor|]. rewrite foldl_app. cbn.
  destruct (step ev _) as [s'|] eqn:E; [by eapply reach_step|done].
Qed.

Definition demo : system := run [WithCapacity 5; WithMaxWait 1000] [EAcquire 3; EAcquire 3; ETry 2; ERelease 0; EPoll 1].

Lemma semaphore_bounded_witness :
  used (sem demo) = held (calls demo) /\ 0 <= held (calls demo) <= 5 /\ InFlight (sem demo) = held (calls demo) /\
  Available (sem demo) = 5 - held (calls demo) /\
  (forall cost, 0 < cost <= 5 -> exists m, TryAcquire cost (sem demo) = Ret (m, held (calls demo) + cost <=? 5)) /\
  (forall c cost, calls demo !! c = Some (CHeld cost) -> (Release cost (sem demo)).2 = Ret ()).
Proof.
  apply (semaphore_bounded 5 ltac:(lia) [WithCapacity 5; WithMaxWait 1000] demo); [reflexivity|apply run_reachable].
Defined.
