(* ===== verification/LoadBalance.v ===== *)
(** Balancers ([pkg/store/loadbalance/loadbalance.go]): smooth weighted round robin, plain round
    robin, and the ring of a consistent hash. *)
From Stdlib Require Import ZArith Lia Bool Sorted.
From stdpp Require Import base numbers strings list sets sorting.
From S2P Require Import Prelude.

Open Scope Z_scope.

(** * Weighted round robin *)

Section wrr.
(** [T]: the callers' nodes; [node_of]: what [Node] answers for one that implements it. *)
Context {T : Type} (node_of : T -> option (string * Z)).

Record wrrNode := MkWrr { node : T; weight : Z; current : Z }.

(** The loop of [NewWeightedRoundRobin] and [Update]; the snapshot of the weights is never read. *)
Fixpoint weighted_nodes (nodes : list T) : list wrrNode :=
  match nodes with
  | [] => []
  | n :: nodes =>
      match node_of n with
      | Some (_, weight) => if weight <=? 0 then weighted_nodes nodes else MkWrr n weight 0 :: weighted_nodes nodes
      | None => weighted_nodes nodes
      end
  end.

Definition NewWeightedRoundRobin (nodes : list T) : list wrrNode := weighted_nodes nodes.
Definition Update_ (nodes : list T) (w : list wrrNode) : list wrrNode := weighted_nodes nodes.

Fixpoint next_loop (i : nat) (l : list wrrNode) (total : Z) (sel : option (nat * Z)) : list wrrNode * Z * option (nat * Z) :=
  match l with
  | [] => ([], total, sel)
  | n :: l =>
      let c := wrap64 (current n + weight n) in
      let sel := match sel with Some (_, m) => if m <? c then Some (i, c) else sel | None => Some (i, c) end in
      let '(l, total, sel) := next_loop (S i) l (wrap64 (total + weight n)) sel in
      (MkWrr (node n) (weight n) c :: l, total, sel)
  end.

(** [Next] and the place of the node it answers. *)
Definition Next (w : list wrrNode) : list wrrNode * option (nat * T) :=
  let '(w, total, sel) := next_loop 0 w 0 None in
  match sel with
  | Some (i, _) =>
      match w !! i with
      | Some n => (<[i := MkWrr (node n) (weight n) (wrap64 (current n - total))]> w, Some (i, node n))
      | None => (w, None)
      end
  | None => (w, None)
  end.

Definition Reset (w : list wrrNode) : list wrrNode := map (fun n => MkWrr (node n) (weight n) 0) w.
Definition Nodes (w : list wrrNode) : list T := map node w.

(** ** One round *)

Definition total (w : list wrrNode) : Z := foldr (fun n z => weight n + z) 0 w.
Definition balance (w : list wrrNode) : Z := foldr (fun n z => current n + z) 0 w.

(** Weights are positive, the current values sum to zero and none is as low as minus the total;
    [wrr_small] keeps every sum inside an [int]. *)
Record wrr_ok (w : list wrrNode) : Prop := {
  wrr_pos : Forall (fun n => 0 < weight n) w;
  wrr_zero : balance w = 0;
  wrr_low : Forall (fun n => - total w < current n) w;
  wrr_small : Z.of_nat (length w + 1) * total w < 2 ^ 62
}.

Lemma weights_app w w' : total (w ++ w') = total w + total w'.
Proof. unfold total. induction w as [|n w IH]; cbn [app foldr]; lia. Qed.
Lemma balance_app w w' : balance (w ++ w') = balance w + balance w'.
Proof. unfold balance. induction w as [|n w IH]; cbn [app foldr]; lia. Qed.

Lemma total_pos w : Forall (fun n => 0 < weight n) w -> 0 <= total w.
Proof. unfold total. induction 1; cbn [foldr]; lia. Qed.

Lemma weight_le w n : Forall (fun n => 0 < weight n) w -> n ∈ w -> 0 < weight n <= total w.
Proof.
  intros Hp Hn. apply list_elem_of_split in Hn as (w1 & w2 & ->). apply Forall_app in Hp as [H1 [Hw H2]%Forall_cons].
  rewrite weights_app. pose proof (total_pos _ H1). pose proof (total_pos _ H2). unfold total in *. cbn [foldr]. lia.
Qed.

Lemma balance_low (b : Z) w : Forall (fun n => b <= current n) w -> b * Z.of_nat (length w) <= balance w.
Proof. unfold balance. induction 1; cbn [foldr length]; lia. Qed.

(** The sum being zero, a lower bound on all is an upper bound on each. *)
Lemma current_high w n : wrr_ok w -> n ∈ w -> current n <= Z.of_nat (length w) * total w.
Proof.
  intros [Hp Hz Hl _] Hn. pose proof (total_pos _ Hp). apply list_elem_of_split in Hn as (w1 & w2 & ->).
  set (W := total (w1 ++ n :: w2)) in *. apply Forall_app in Hl as [H1 [_ H2]%Forall_cons].
  assert (forall w', Forall (fun n => - W < current n) w' -> - W * Z.of_nat (length w') <= balance w') as Hb.
  { intros w' H'. apply balance_low. eapply Forall_impl; [exact H'|]. cbn. lia. }
  pose proof (Hb _ H1). pose proof (Hb _ H2). rewrite balance_app in Hz. unfold balance in Hz at 2. cbn [foldr] in Hz.
  fold (balance w2) in Hz. rewrite length_app. cbn [length]. nia.
Qed.

Definition raised (w : list wrrNode) : list wrrNode := map (fun n => MkWrr (node n) (weight n) (current n + weight n)) w.

Lemma total_raised w : total (raised w) = total w.
Proof. unfold total. induction w as [|n w IH]; cbn [raised map foldr weight]; [done|]. fold (raised w). lia. Qed.
Lemma balance_raised w : balance (raised w) = balance w + total w.
Proof.
  unfold total, balance. induction w as [|n w IH]; cbn [raised map foldr weight current]; [done|]. fold (raised w). lia.
Qed.

(** The loop adds the weights and keeps the first greatest value. *)
Lemma next_loop_spec l : forall i t sel, Forall (fun n => int64 (current n + weight n)) l ->
  Forall (fun n => 0 < weight n) l -> 0 <= t -> t + total l < 2 ^ 63 ->
  exists sel', next_loop i l t sel = (raised l, t + total l, sel') /\
    (sel' = None -> sel = None /\ l = []) /\
    forall j m, sel' = Some (j, m) -> (sel = Some (j, m) \/ (i <= j)%nat /\ exists n, raised l !! (j - i)%nat = Some n /\ current n = m) /\
      Forall (fun n => current n <= m) (raised l) /\ forall j0 m0, sel = Some (j0, m0) -> m0 <= m.
Proof.
  induction l as [|n l IH]; intros i t sel Hf Hp Ht Hs; cbn [next_loop].
  { exists sel. unfold total. cbn. rewrite Z.add_0_r. split; [done|]. split; [done|]. intros j m ->. split; [by left|].
    split; [constructor|]. intros ? ? [= -> ->]. done. }
  apply Forall_cons in Hf as [Hn Hf], Hp as [Hw Hp]. pose proof (total_pos l Hp) as Hl0.
  change (total (n :: l)) with (weight n + total l) in *. rewrite (wrap64_id (current n + weight n)) by done.
  rewrite wrap64_id by (unfold int64; lia). set (c := current n + weight n).
  set (sel1 := match sel with Some (_, m) => if m <? c then Some (i, c) else sel | None => Some (i, c) end).
  destruct (IH (S i) (t + weight n) sel1 Hf Hp ltac:(lia) ltac:(lia)) as (sel' & -> & Hne & H').
  exists sel'. split; [f_equal; f_equal; lia|].
  assert (exists j m, sel1 = Some (j, m) /\ c <= m /\ (sel = Some (j, m) \/ (j, m) = (i, c)) /\
    forall j0 m0, sel = Some (j0, m0) -> m0 <= m) as (j1 & m1 & E1 & Hc1 & Ho1 & Hs1).
  { unfold sel1. destruct sel as [[j0 m0]|].
    - destruct (Z.ltb_spec m0 c); [exists i, c|exists j0, m0]; (split; [done|]); (split; [lia|]); (split; [auto|]); intros ? ? [= -> ->]; lia.
    - exists i, c. split; [done|]. split; [lia|]. split; [auto|]. done. }
  split; [intros E; destruct (Hne E) as [E' _]; congruence|].
  intros j m E. destruct (H' j m E) as (Ho & Hm & Hall). specialize (Hall j1 m1 E1). split_and!.
  - destruct Ho as [Ho|(Hij & n' & Hn' & <-)].
    + rewrite E1 in Ho. injection Ho as -> ->. destruct Ho1 as [Ho1|[= -> ->]]; [by left|]. right. split; [done|].
      rewrite Nat.sub_diag. by eexists.
    + right. split; [lia|]. exists n'. split; [|done]. replace (j - i)%nat with (S (j - S i)) by lia. done.
  - cbn [raised map]. constructor; [cbn; lia|done].
  - intros j0 m0 E0. specialize (Hs1 j0 m0 E0). lia.
Qed.

Lemma raised_lookup w j : raised w !! j = (fun n => MkWrr (node n) (weight n) (current n + weight n)) <$> w !! j.
Proof. apply list_lookup_fmap. Qed.

Lemma total_insert w i n n' : w !! i = Some n -> weight n' = weight n -> total (<[i := n']> w) = total w.
Proof.
  intros Hi Hw. rewrite <- (take_drop_middle w i n Hi) at 2. rewrite insert_take_drop by by eapply lookup_lt_Some.
  rewrite !weights_app. unfold total. cbn [foldr]. lia.
Qed.
Lemma balance_insert w i n n' : w !! i = Some n -> balance (<[i := n']> w) = balance w + current n' - current n.
Proof.
  intros Hi. rewrite <- (take_drop_middle w i n Hi) at 2. rewrite insert_take_drop by by eapply lookup_lt_Some.
  rewrite !balance_app. unfold balance. cbn [foldr]. lia.
Qed.

(** The node picked is the first with the greatest value, which is positive. *)
Lemma wrrNext_spec w : wrr_ok w -> w <> [] -> exists i n, w !! i = Some n /\ 0 < current n + weight n /\
  let w' := <[i := MkWrr (node n) (weight n) (current n + weight n - total w)]> (raised w) in
  Next w = (w', Some (i, node n)) /\ wrr_ok w'.
Proof.
  intros Hok Hne. pose proof Hok as [Hp Hz Hl Hs]. pose proof (total_pos w Hp) as Ht.
  assert (forall n, n ∈ w -> int64 (current n + weight n)) as Hint.
  { intros n Hn. pose proof (weight_le w n Hp Hn). pose proof (current_high w n Hok Hn).
    rewrite Forall_forall in Hl. specialize (Hl n Hn). unfold int64. nia. }
  assert (0 < Z.of_nat (length w)) as Hlen by (destruct w; [done|simpl; lia]).
  destruct (next_loop_spec w 0 0 None) as (sel & E & Hsome & Hsel); [by apply Forall_forall|done|done|nia|].
  rewrite Z.add_0_l in E. destruct sel as [[i m]|]; [|by destruct (Hsome eq_refl)].
  destruct (Hsel i m eq_refl) as ([?|[_ (n1 & Hn1 & <-)]] & Hmax & _); [done|]. rewrite Nat.sub_0_r in Hn1.
  rewrite raised_lookup in Hn1. destruct (w !! i) as [n|] eqn:Hi; [|done]. injection Hn1 as <-. cbn [current] in *.
  assert (0 < current n + weight n) as Hm.
  { apply Z.nle_gt. intros Hle. pose proof (balance_raised w) as Hb. rewrite Hz in Hb.
    assert (balance (raised w) <= 0) as Hb0.
    { clear -Hmax Hle. unfold balance. induction Hmax; cbn [foldr]; lia. }
    assert (n ∈ w) as Hn by by eapply list_elem_of_lookup_2. pose proof (weight_le w n Hp Hn). lia. }
  exists i, n. split; [done|]. split; [done|]. cbv zeta. split.
  - unfold Next. rewrite E. rewrite raised_lookup, Hi. cbn [fmap option_fmap option_map node weight current].
    assert (n ∈ w) as Hn by by eapply list_elem_of_lookup_2. pose proof (Hint n Hn) as [_ ?].
    rewrite wrap64_id by (unfold int64; nia). done.
  - assert (raised w !! i = Some (MkWrr (node n) (weight n) (current n + weight n))) as Hr by by rewrite raised_lookup, Hi.
    split.
    + apply Forall_insert; [|cbn; rewrite Forall_forall in Hp; apply Hp; by eapply list_elem_of_lookup_2].
      unfold raised. apply Forall_fmap. eapply Forall_impl; [exact Hp|done].
    + rewrite (balance_insert _ _ _ _ Hr), balance_raised. cbn [current]. lia.
    + rewrite (total_insert _ _ _ _ Hr), total_raised by done. apply Forall_insert; [|cbn; lia].
      unfold raised. apply Forall_fmap. rewrite Forall_forall in *. intros n0 Hn0. cbn. specialize (Hl _ Hn0). specialize (Hp _ Hn0). cbn in *. lia.
    + rewrite (total_insert _ _ _ _ Hr), total_raised, length_insert by done. unfold raised. by rewrite length_map.
Qed.

(** ** Many rounds *)

(** The places picked by [k] calls. *)
Fixpoint rounds (k : nat) (w : list wrrNode) : list wrrNode * list nat :=
  match k with
  | O => (w, [])
  | S k =>
      let '(w, p) := Next w in
      let '(w, ps) := rounds k w in
      (w, match p with Some (i, _) => i :: ps | None => ps end)
  end.

Definition times (j : nat) (ps : list nat) : Z := Z.of_nat (count_occ Nat.eq_dec ps j).

(** Each call adds its weight to a node and takes the total from the one picked. *)
Lemma rounds_spec k : forall w, wrr_ok w -> w <> [] -> let '(w', ps) := rounds k w in
  wrr_ok w' /\ length w' = length w /\ total w' = total w /\ length ps = k /\
  forall j n, w !! j = Some n -> w' !! j =
    Some (MkWrr (node n) (weight n) (current n + Z.of_nat k * weight n - total w * times j ps)).
Proof.
  induction k as [|k IH]; intros w Hok Hne; cbn [rounds].
  { split_and!; try done. intros j [nd wt c] Hj. rewrite Hj. cbn. do 2 f_equal. unfold times. cbn. lia. }
  destruct (wrrNext_spec w Hok Hne) as (i & n & Hi & _ & -> & Hok1). set (w1 := <[i := _]> (raised w)) in *.
  assert (length w1 = length w) as Hl1 by (unfold w1, raised; by rewrite length_insert, length_map).
  assert (total w1 = total w) as Ht1.
  { unfold w1. rewrite (total_insert _ i (MkWrr (node n) (weight n) (current n + weight n))), total_raised; [done| |done].
    by rewrite raised_lookup, Hi. }
  assert (w1 <> []) as Hne1 by (intros E; rewrite E in Hl1; by destruct w).
  specialize (IH w1 Hok1 Hne1). destruct (rounds k w1) as [w' ps]. destruct IH as (H1 & H2 & H3 & H4 & H5).
  split_and!; [done|congruence|congruence|by rewrite <- H4|]. intros j n0 Hj.
  assert (w1 !! j = Some (MkWrr (node n0) (weight n0) (current n0 + weight n0 - (if decide (i = j) then total w else 0)))) as Hj1.
  { unfold w1. destruct (decide (i = j)) as [<-|Hd].
    - rewrite list_lookup_insert_eq by (unfold raised; rewrite length_map; by eapply lookup_lt_Some). by simplify_eq.
    - rewrite list_lookup_insert_ne, raised_lookup, Hj by done. cbn. by rewrite Z.sub_0_r. }
  rewrite (H5 j _ Hj1). cbn [node weight current]. do 2 f_equal. rewrite Ht1. unfold times. cbn [count_occ].
  destruct (Nat.eq_dec i j), (decide (i = j)); try done; lia.
Qed.

Lemma rounds_app a b w : rounds (a + b) w =
  let '(w1, ps) := rounds a w in let '(w2, qs) := rounds b w1 in (w2, ps ++ qs).
Proof.
  revert w. induction a as [|a IH]; intros w; cbn [rounds Nat.add].
  - by destruct (rounds b w).
  - destruct (Next w) as [w1 p]. rewrite IH. destruct (rounds a w1) as [w2 ps], (rounds b w2) as [w3 qs]. by destruct p as [[]|].
Qed.

Lemma weighted_ok nodes : Forall (fun n => 0 < weight n /\ current n = 0) (weighted_nodes nodes).
Proof.
  induction nodes as [|n nodes IH]; [constructor|]. cbn. destruct (node_of n) as [[id wt]|]; [|done].
  destruct (Z.leb_spec wt 0); [done|]. by constructor.
Qed.

Lemma fresh_ok w : Forall (fun n => 0 < weight n /\ current n = 0) w -> Z.of_nat (length w + 1) * total w < 2 ^ 62 ->
  w <> [] -> wrr_ok w.
Proof.
  intros Hf Hs Hne. assert (Forall (fun n => 0 < weight n) w) as Hp by (eapply Forall_impl; [exact Hf|]; naive_solver).
  split; [done| | |done].
  - unfold balance. clear -Hf. induction Hf as [|n l [_ Hc] _ IH]; cbn [foldr]; lia.
  - rewrite Forall_forall in Hf |- *. intros n Hn. destruct (Hf n Hn) as [_ ->]. pose proof (weight_le w n Hp Hn). lia.
Qed.

(** A whole period from rest: values that are multiples of the total, above minus it, and sum to
    zero, are zero. *)
Lemma period w : Forall (fun n => 0 < weight n /\ current n = 0) w -> Z.of_nat (length w + 1) * total w < 2 ^ 62 ->
  w <> [] -> exists ps, rounds (Z.to_nat (total w)) w = (w, ps).
Proof.
  intros Hf Hs Hne. pose proof (fresh_ok w Hf Hs Hne) as Hok. pose proof (total_pos _ (wrr_pos _ Hok)) as Ht.
  pose proof (rounds_spec (Z.to_nat (total w)) w Hok Hne) as H. destruct (rounds _ w) as [w' ps].
  destruct H as (Hok' & Hl & Htot & _ & Hj). exists ps. f_equal.
  assert (forall j n', w' !! j = Some n' -> exists n, w !! j = Some n /\ n' = MkWrr (node n) (weight n) (total w * (weight n - times j ps))) as Hback.
  { intros j n' Hn'. destruct (w !! j) as [n|] eqn:E.
    - exists n. split; [done|]. rewrite (Hj j n E) in Hn'. injection Hn' as <-. f_equal.
      rewrite Forall_lookup in Hf. destruct (Hf j n E) as [_ ->]. rewrite Z2Nat.id by lia. ring.
    - apply lookup_ge_None in E. apply lookup_lt_Some in Hn'. lia. }
  assert (Forall (fun n => 0 <= current n) w') as Hge.
  { apply Forall_lookup. intros j n' Hn'. destruct (Hback j n' Hn') as (n & _ & ->). cbn [current].
    pose proof (wrr_low _ Hok') as Hlow. rewrite Forall_lookup in Hlow. specialize (Hlow j _ Hn'). rewrite Htot in Hlow.
    cbn [current] in Hlow. assert (0 <= weight n - times j ps) by nia. nia. }
  assert (Forall (fun n => current n = 0) w') as Hzero.
  { pose proof (wrr_zero _ Hok') as Hz. clear -Hge Hz. unfold balance in Hz. induction Hge as [|n l Hn Hl IH]; [constructor|].
    cbn [foldr] in Hz. assert (0 <= foldr (fun n z => current n + z) 0 l) by (clear -Hl; induction Hl; cbn [foldr]; lia).
    constructor; [lia|]. apply IH. lia. }
  apply list_eq. intros j. destruct (w' !! j) as [n'|] eqn:E'.
  - destruct (Hback j n' E') as (n & En & ->). rewrite En. rewrite Forall_lookup in Hzero. specialize (Hzero j _ E').
    cbn [current] in Hzero. rewrite Hzero. rewrite Forall_lookup in Hf. destruct (Hf j n En) as [_ <-]. by destruct n.
  - symmetry. apply lookup_ge_None. apply lookup_ge_None in E'. lia.
Qed.

(** C31: Smooth weighted round robin is fair: from any point of a run, over as many calls as the
    weights sum to, every node is picked exactly as often as its weight says, and the balancer is back
    where it was. *)
Theorem wrr_fair nodes m : let w0 := NewWeightedRoundRobin nodes in
  Z.of_nat (length w0 + 1) * total w0 < 2 ^ 62 -> w0 <> [] ->
  let s := (rounds m w0).1 in
  exists ps, rounds (Z.to_nat (total w0)) s = (s, ps) /\
    forall j n, w0 !! j = Some n -> times j ps = weight n.
Proof.
  intros w0 Hs Hne s. pose proof (weighted_ok nodes) as Hf. fold (NewWeightedRoundRobin nodes) in Hf. fold w0 in Hf.
  pose proof (fresh_ok w0 Hf Hs Hne) as Hok. pose proof (rounds_spec m w0 Hok Hne) as Hm.
  destruct (period w0 Hf Hs Hne) as (ps0 & Hper).
  assert ((rounds (Z.to_nat (total w0)) s).1 = s) as Hst.
  { pose proof (rounds_app m (Z.to_nat (total w0)) w0) as H1. pose proof (rounds_app (Z.to_nat (total w0)) m w0) as H2.
    rewrite Nat.add_comm, H1 in H2. rewrite Hper in H2. unfold s. destruct (rounds m w0) as [w1 qs]. cbn [fst].
    destruct (rounds (Z.to_nat (total w0)) w1) as [w2 rs]. by injection H2. }
  unfold s in *. destruct (rounds m w0) as [w1 qs]. cbn [fst] in *. destruct Hm as (Hok1 & Hl1 & Ht1 & _ & Hj1).
  assert (w1 <> []) as Hne1 by (intros ->; destruct w0; done).
  pose proof (rounds_spec (Z.to_nat (total w0)) w1 Hok1 Hne1) as H. destruct (rounds (Z.to_nat (total w0)) w1) as [w2 ps].
  cbn [fst] in Hst. subst w2. exists ps. split; [done|]. destruct H as (_ & _ & _ & _ & Hj). intros j n Hjn.
  specialize (Hj1 j n Hjn). pose proof (Hj j _ Hj1) as E. rewrite Hj1 in E. injection E as E. rewrite Ht1 in E.
  pose proof (total_pos _ (wrr_pos _ Hok)). pose proof (weight_le w0 n (wrr_pos _ Hok)) as Hw.
  specialize (Hw ltac:(by eapply list_elem_of_lookup_2)).
  rewrite Z2Nat.id in E by lia. nia.
Qed.
End wrr.

(** * Round robin *)

Section rr.
Context {T : Type}.

Record RoundRobin := MkRR { nodes : list T; index_ : Z }.
Definition NewRoundRobin (ns : list T) : RoundRobin := MkRR ns 0.
Definition rrUpdate (ns : list T) (r : RoundRobin) : RoundRobin := MkRR ns (index_ r).

(** The remainder of a negative cursor is negative. *)
Definition rrNext (r : RoundRobin) : RoundRobin * go (option T) :=
  if Z.of_nat (length (nodes r)) =? 0 then (r, Ret None)
  else
    let i := wrap64 (index_ r + 1) in
    (MkRR (nodes r) i, n ← index (nodes r) (Z.rem i (Z.of_nat (length (nodes r)))); Ret (Some n)).

(** As long as the cursor does not wrap, the calls go round the nodes. *)
Lemma rrNext_round r : nodes r <> [] -> 0 <= index_ r < 2 ^ 63 - 1 ->
  exists n, nodes r !! Z.to_nat ((index_ r + 1) mod Z.of_nat (length (nodes r))) = Some n /\
    rrNext r = (MkRR (nodes r) (index_ r + 1), Ret (Some n)).
Proof.
  intros Hne Hi. assert (0 < Z.of_nat (length (nodes r))) as Hl by (destruct (nodes r); [done|simpl; lia]).
  set (m := Z.of_nat (length (nodes r))) in *. pose proof (Z.mod_pos_bound (index_ r + 1) m Hl) as Hm.
  destruct (lookup_lt_is_Some_2 (nodes r) (Z.to_nat ((index_ r + 1) mod m))) as [n Hn]; [lia|]. exists n. split; [done|].
  unfold rrNext. fold m. rewrite (proj2 (Z.eqb_neq _ _)) by lia. rewrite wrap64_id by (unfold int64; lia).
  rewrite Z.rem_mod_nonneg by lia. unfold index. rewrite decide_False by lia. by rewrite Hn.
Qed.

(** After [2^63 - 1] calls the cursor is negative, and so is the index unless it divides. *)
Lemma rrNext_overflow (a b c : T) : (rrNext (MkRR [a; b; c] maxInt64)).2 = Panic index_panic.
Proof. vm_compute. reflexivity. Qed.
End rr.

(** * The ring of a consistent hash *)

Section ring.
(** [hash]: [maphash] under the seed of the process; [sorted]: what [sort.Slice] leaves, the order
    among equal hashes being arbitrary. *)
Context {T : Type} (node_of : T -> option (string * Z)) (hash : string -> Z).

Record nodeItem := MkItem { rnode : T; rid : string; rweight : Z }.
Record consistentHashConfig := MkCfg { virtualFactor : Z; weighted : bool; replica : Z }.
Definition WithVirtualFactor (n : Z) (c : consistentHashConfig) := MkCfg n (weighted c) (replica c).
Definition WithWeighted (b : bool) (c : consistentHashConfig) := MkCfg (virtualFactor c) b (replica c).
Definition WithReplica (n : Z) (c : consistentHashConfig) := MkCfg (virtualFactor c) (weighted c) n.

Record virtualNode := MkVNode { vhash : Z; idx : Z }.
Record ConsistentHash := MkCH { realNodes : list nodeItem; virtualNodes : list virtualNode; replica_ : Z }.

Context (sorted : list virtualNode -> list virtualNode).

(** The decimal digits of a number, filled from the last. *)
Fixpoint digits (fuel : nat) (n : Z) (buf : string) : string :=
  match fuel with
  | O => buf
  | S fuel => if 0 <? n then digits fuel (n / 10) (String (Ascii.ascii_of_N (Z.to_N (48 + n mod 10))) buf) else buf
  end.
Definition writeInt (n : Z) : string := if n =? 0 then "0" else digits 20 n "".

Definition vNodeLen (rn : nodeItem) (cfg : consistentHashConfig) : Z :=
  if rweight rn <=? 0 then 0
  else if weighted cfg then wrap64 (rweight rn * virtualFactor cfg) else virtualFactor cfg.

Definition vname (rn : nodeItem) (j : Z) : string := (rid rn ++ "#" ++ writeInt j)%string.

(** The inner loop over [j], and the outer one. *)
Definition vnodes_of (i : Z) (rn : nodeItem) (cfg : consistentHashConfig) : list virtualNode :=
  map (fun j => MkVNode (hash (vname rn (Z.of_nat j))) i) (seq 0 (Z.to_nat (vNodeLen rn cfg))).
Fixpoint ring_loop (i : Z) (rns : list nodeItem) (cfg : consistentHashConfig) : list virtualNode :=
  match rns with
  | [] => []
  | rn :: rns => vnodes_of i rn cfg ++ ring_loop (i + 1) rns cfg
  end.

Definition vtotal (rns : list nodeItem) (cfg : consistentHashConfig) : Z :=
  foldl (fun t rn => wrap64 (t + vNodeLen rn cfg)) 0 rns.

Definition buildVirtualNodes (rns : list nodeItem) (cfg : consistentHashConfig) : go (list virtualNode) :=
  let total := vtotal rns cfg in
  if total =? 0 then Ret []
  else if total <? 0 then Panic "runtime error: makeslice: cap out of range"
  else Ret (sorted (ring_loop 0 rns cfg)).

Fixpoint items (ns : list T) : list nodeItem :=
  match ns with
  | [] => []
  | n :: ns => match node_of n with Some (id, w) => MkItem n id w :: items ns | None => items ns end
  end.

Definition NewConsistentHash (ns : list T) (opts : list (consistentHashConfig -> consistentHashConfig)) : go ConsistentHash :=
  let cfg := foldl (fun c o => o c) (MkCfg 100 true 0) opts in
  let cfg := if virtualFactor cfg =? 0 then MkCfg 100 (weighted cfg) (replica cfg) else cfg in
  vs ← buildVirtualNodes (items ns) cfg;
  Ret (MkCH (items ns) vs (replica cfg)).

Definition search (key : Z) (c : ConsistentHash) : go Z :=
  let n := Z.of_nat (length (virtualNodes c)) in
  i ← sort_Search n (fun i => v ← index (virtualNodes c) i; Ret (key <? vhash v));
  Ret (if i =? n then 0 else i).

Definition Get (key : string) (c : ConsistentHash) : go (option T) :=
  if (Z.of_nat (length (virtualNodes c)) =? 0) || String.eqb key "" then Ret None
  else
    i ← search (hash key) c;
    v ← index (virtualNodes c) i;
    rn ← index (realNodes c) (idx v);
    Ret (Some (rnode rn)).

Fixpoint replicas_loop (fuel : nat) (i start n : Z) (used : list Z) (out : list T) (c : ConsistentHash) : go (list T) :=
  match fuel with
  | O => Ret out
  | S fuel =>
      if Z.of_nat (length out) <? n then
        v ← index (virtualNodes c) (Z.rem (start + i) (Z.of_nat (length (virtualNodes c))));
        if bool_decide (idx v ∈ used) then replicas_loop fuel (i + 1) start n used out c
        else
          rn ← index (realNodes c) (idx v);
          replicas_loop fuel (i + 1) start n (idx v :: used) (out ++ [rnode rn]) c
      else Ret out
  end.

Definition GetReplicas (key : string) (n : Z) (c : ConsistentHash) : go (list T) :=
  if n <=? 0 then r ← Get key c; Ret (match r with Some v => [v] | None => [] end)
  else if (Z.of_nat (length (virtualNodes c)) =? 0) || String.eqb key "" then Ret []
  else
    let m := Z.of_nat (length (realNodes c)) in
    let n := if m <? n then m else n in
    start ← search (hash key) c;
    replicas_loop (length (virtualNodes c)) 0 start n [] [] c.

Definition ringNodes (c : ConsistentHash) : list T := map rnode (realNodes c).

(** ** Where a key lands *)

(** What the library promises of the hash and of the sort. *)
Context (hash_range : forall x, uint64 (hash x)).
Context (sorted_perm : forall l, sorted l ≡ₚ l).
Context (sorted_sorted : forall l, StronglySorted (fun a b => vhash a <= vhash b) (sorted l)).

Definition vsize (rn : nodeItem) (cfg : consistentHashConfig) : Z :=
  if rweight rn <=? 0 then 0 else if weighted cfg then rweight rn * virtualFactor cfg else virtualFactor cfg.
Definition vsizes (rns : list nodeItem) (cfg : consistentHashConfig) : Z := foldr (fun rn z => vsize rn cfg + z) 0 rns.

(** The virtual nodes can be counted in an [int]. *)
Definition fits (rns : list nodeItem) (cfg : consistentHashConfig) : Prop :=
  0 < virtualFactor cfg /\ vsizes rns cfg < 2 ^ 63.

(** How far clockwise a hash is from a key. *)
Definition clockwise (k x : Z) : Z := (x - k - 1) mod 2 ^ 64.

Lemma vsize_pos rn cfg : 0 < virtualFactor cfg -> 0 <= vsize rn cfg.
Proof. intros H. unfold vsize. destruct (Z.leb_spec (rweight rn) 0); [done|]. destruct (weighted cfg); nia. Qed.

Lemma vsizes_pos rns cfg : 0 < virtualFactor cfg -> 0 <= vsizes rns cfg.
Proof. intros H. unfold vsizes. induction rns as [|rn rns IH]; cbn [foldr]; [done|]. pose proof (vsize_pos rn cfg H). lia. Qed.

Lemma vNodeLen_size rn rns cfg : fits rns cfg -> rn ∈ rns -> vNodeLen rn cfg = vsize rn cfg.
Proof.
  intros [Hv Hf] Hin. pose proof (vsize_pos rn cfg Hv) as H0.
  assert (vsize rn cfg <= vsizes rns cfg) as Hle.
  { apply list_elem_of_split in Hin as (a & b & ->). pose proof (vsizes_pos b cfg Hv). unfold vsizes in *.
    rewrite foldr_app. cbn [foldr]. clear Hf. induction a as [|x a IH]; cbn [foldr]; [lia|]. pose proof (vsize_pos x cfg Hv). lia. }
  unfold vNodeLen. unfold vsize in *. destruct (Z.leb_spec (rweight rn) 0); [done|]. destruct (weighted cfg); [|done].
  apply wrap64_id. unfold int64. lia.
Qed.

Lemma vtotal_sizes rns cfg : fits rns cfg -> vtotal rns cfg = vsizes rns cfg.
Proof.
  intros Hf. assert (forall l t, (forall rn, rn ∈ l -> vNodeLen rn cfg = vsize rn cfg) -> 0 <= t -> t + vsizes l cfg < 2 ^ 63 ->
    foldl (fun t rn => wrap64 (t + vNodeLen rn cfg)) t l = t + vsizes l cfg) as H.
  { destruct Hf as [Hv _]. induction l as [|rn l IH]; intros t Hl Ht Hs; [cbn; lia|].
    change (vsizes (rn :: l) cfg) with (vsize rn cfg + vsizes l cfg) in *. pose proof (vsizes_pos l cfg Hv).
    pose proof (vsize_pos rn cfg Hv). cbn [foldl]. rewrite (Hl rn) by (apply elem_of_cons; auto).
    rewrite wrap64_id by (unfold int64; lia). rewrite IH; [lia| |lia|lia]. intros x Hx. apply Hl, elem_of_cons. auto. }
  unfold vtotal. rewrite H; [lia| |lia|]; [|destruct Hf; lia]. intros rn Hrn. by eapply vNodeLen_size.
Qed.

(** The ring holds the virtual nodes of the nodes with their places, in order. *)
Record ring_of (rns : list nodeItem) (cfg : consistentHashConfig) (c : ConsistentHash) : Prop := {
  ring_real : realNodes c = rns;
  ring_sorted : StronglySorted (fun a b => vhash a <= vhash b) (virtualNodes c);
  ring_elem : forall v, v ∈ virtualNodes c <-> exists (i : nat) rn (j : nat), idx v = Z.of_nat i /\ rns !! i = Some rn /\
    Z.of_nat j < vsize rn cfg /\ vhash v = hash (vname rn (Z.of_nat j))
}.

Lemma ring_loop_elem all cfg : fits all cfg -> forall rns k, (forall rn, rn ∈ rns -> rn ∈ all) -> forall v,
  v ∈ ring_loop (Z.of_nat k) rns cfg <-> exists (i : nat) rn (j : nat), idx v = Z.of_nat (k + i) /\ rns !! i = Some rn /\
    Z.of_nat j < vsize rn cfg /\ vhash v = hash (vname rn (Z.of_nat j)).
Proof.
  intros Hf. induction rns as [|rn rns IH]; intros k Hin v; cbn [ring_loop].
  { split; [by intros ?%not_elem_of_nil|]. intros (i & rn & j & _ & Hi & _). done. }
  rewrite elem_of_app. replace (Z.of_nat k + 1) with (Z.of_nat (S k)) by lia.
  rewrite IH by (intros x Hx; apply Hin, elem_of_cons; auto). unfold vnodes_of. rewrite list_elem_of_fmap.
  rewrite (vNodeLen_size rn all) by (done || apply Hin, elem_of_cons; auto). split.
  - intros [(j & -> & Hj)|(i & x & j & Hv & Hi & Hj & Hh)].
    + apply elem_of_seq in Hj. exists 0%nat, rn, j. rewrite Nat.add_0_r. cbn. split_and!; try done. lia.
    + exists (S i), x, j. split_and!; try done. lia.
  - intros (i & x & j & Hv & Hi & Hj & Hh). destruct i as [|i].
    + injection Hi as <-. left. exists j. split; [destruct v; cbn in *; f_equal; congruence || lia|]. apply elem_of_seq. lia.
    + right. exists i, x, j. split_and!; try done. lia.
Qed.

Definition effective (opts : list (consistentHashConfig -> consistentHashConfig)) : consistentHashConfig :=
  let cfg := foldl (fun c o => o c) (MkCfg 100 true 0) opts in
  if virtualFactor cfg =? 0 then MkCfg 100 (weighted cfg) (replica cfg) else cfg.

Lemma New_ring ns opts : fits (items ns) (effective opts) ->
  exists c, NewConsistentHash ns opts = Ret c /\ ring_of (items ns) (effective opts) c.
Proof.
  intros Hf. unfold NewConsistentHash. fold (effective opts). cbv zeta. unfold buildVirtualNodes.
  rewrite vtotal_sizes by done. pose proof (vsizes_pos (items ns) _ (proj1 Hf)) as Hp.
  pose proof (ring_loop_elem (items ns) _ Hf (items ns) 0 (fun _ H => H)) as He.
  destruct (Z.eqb_spec (vsizes (items ns) (effective opts)) 0) as [E|E].
  - cbn [mbind go_bind]. eexists. split; [reflexivity|]. split; cbn [realNodes virtualNodes]; [done|constructor|].
    intros v. split; [by intros ?%not_elem_of_nil|]. intros (i & rn & j & _ & Hi & Hj & _). exfalso.
    assert (vsize rn (effective opts) <= 0); [|lia]. rewrite <- E. apply list_elem_of_lookup_2 in Hi.
    apply list_elem_of_split in Hi as (a & b & Eq). rewrite Eq. pose proof (vsizes_pos b _ (proj1 Hf)). unfold vsizes in *.
    rewrite foldr_app. cbn [foldr]. clear -H Hf. induction a as [|x a IH]; cbn [foldr]; [lia|]. pose proof (vsize_pos x _ (proj1 Hf)). lia.
  - rewrite (proj2 (Z.ltb_ge _ _)) by lia. cbn [mbind go_bind]. eexists. split; [reflexivity|].
    split; cbn [realNodes virtualNodes]; [done|apply sorted_sorted|]. intros v. rewrite sorted_perm. apply He.
Qed.

Lemma clockwise_after k x : uint64 k -> uint64 x -> clockwise k x = if k <? x then x - k - 1 else x - k - 1 + 2 ^ 64.
Proof.
  unfold uint64, clockwise. intros Hk Hx. destruct (Z.ltb_spec k x).
  - apply Z.mod_small. lia.
  - rewrite <- (Z_mod_plus_full _ 1). rewrite Z.mul_1_l. apply Z.mod_small. lia.
Qed.

(** The node answered is the one whose virtual node is nearest clockwise. *)
Lemma Get_nearest rns cfg c key : ring_of rns cfg c -> key <> "" -> virtualNodes c <> [] ->
  exists v rn, Get key c = Ret (Some (rnode rn)) /\ v ∈ virtualNodes c /\ rns !! Z.to_nat (idx v) = Some rn /\
    forall v', v' ∈ virtualNodes c -> clockwise (hash key) (vhash v) <= clockwise (hash key) (vhash v').
Proof.
  intros [Hr Hs He] Hk Hne. set (vs := virtualNodes c) in *. set (k := hash key). pose proof (hash_range key) as Hkr. fold k in Hkr.
  assert (0 < length vs)%nat as Hl by (destruct vs; [done|simpl; lia]).
  assert (forall v, v ∈ vs -> uint64 (vhash v)) as Hvr by (intros v (i & rn & j & _ & _ & _ & ->)%He; apply hash_range).
  assert (forall i v, vs !! i = Some v -> index vs (Z.of_nat i) = Ret v) as Hidx by (intros; by apply index_lookup).
  pose (p i := match vs !! Z.to_nat i with Some v => k <? vhash v | None => false end).
  destruct (sort_Search_spec p (fun i => v ← index vs i; Ret (k <? vhash v)) (Z.of_nat (length vs))) as (r & Er & Hrange & Hlo & Hhi).
  - lia.
  - intros i Hi. unfold p. destruct (lookup_lt_is_Some_2 vs (Z.to_nat i)) as [v Hv]; [lia|].
    replace i with (Z.of_nat (Z.to_nat i)) by lia. rewrite (Hidx _ _ Hv). rewrite Nat2Z.id. by rewrite Hv.
  - intros i i' Hi Hi' Hp. unfold p in *. destruct (decide (i = i')) as [->|Hd]; [done|].
    destruct (vs !! Z.to_nat i) as [v|] eqn:Ev; [|done]. destruct (lookup_lt_is_Some_2 vs (Z.to_nat i')) as [v' Ev']; [lia|].
    rewrite Ev'. pose proof (StronglySorted_lookup _ _ _ _ _ _ Hs Ev Ev' ltac:(lia)) as Hle. cbn in Hle. lia.
  - set (r' := if r =? Z.of_nat (length vs) then 0 else r).
    destruct (lookup_lt_is_Some_2 vs (Z.to_nat r')) as [v Hv]; [unfold r'; destruct (Z.eqb_spec r (Z.of_nat (length vs))); lia|].
    pose proof (list_elem_of_lookup_2 _ _ _ Hv) as Hvin. destruct (proj1 (He v) Hvin) as (i & rn & j & Ei & Hi & _ & _).
    exists v, rn. split_and!; [|done|by rewrite Ei, Nat2Z.id|].
    + unfold Get. rewrite (proj2 (Z.eqb_neq _ _)) by (fold vs; lia). rewrite (proj2 (String.eqb_neq _ _)) by done. cbn [orb].
      unfold search. fold vs k. rewrite Er. cbn [mbind go_bind]. fold r'.
      replace r' with (Z.of_nat (Z.to_nat r')) by (unfold r'; destruct (Z.eqb_spec r (Z.of_nat (length vs))); lia).
      rewrite (Hidx _ _ Hv). cbn [mbind go_bind]. rewrite Hr, Ei, (index_lookup _ _ _ Hi). done.
    + intros v' [i' Hv']%list_elem_of_lookup. pose proof (lookup_lt_Some _ _ _ Hv') as Hi'.
      pose proof (Hvr v Hvin) as Hv1. pose proof (Hvr v' (list_elem_of_lookup_2 _ _ _ Hv')) as Hv2.
      rewrite (clockwise_after k (vhash v)), (clockwise_after k (vhash v')) by done. unfold uint64 in *.
      assert ((Z.to_nat r' <= i')%nat -> vhash v <= vhash v') as Hmono.
      { intros Hle. destruct (decide (Z.to_nat r' = i')) as [E|E]; [rewrite E, Hv' in Hv; injection Hv as ->; lia|].
        apply (StronglySorted_lookup _ _ _ _ _ _ Hs Hv Hv'). lia. }
      assert (forall j x, vs !! j = Some x -> p (Z.of_nat j) = (k <? vhash x)) as Hpj
        by (intros j' x Hx; unfold p; by rewrite Nat2Z.id, Hx).
      pose proof (Hpj _ _ Hv) as Hp1. pose proof (Hpj _ _ Hv') as Hp2. unfold r' in *.
      destruct (Z.eqb_spec r (Z.of_nat (length vs))) as [E|E].
      * rewrite Hlo in Hp1, Hp2 by lia. rewrite <- Hp1, <- Hp2. specialize (Hmono ltac:(lia)). lia.
      * rewrite Z2Nat.id in Hp1 by lia. rewrite Hhi in Hp1 by lia. rewrite <- Hp1.
        destruct (Z.lt_ge_cases (Z.of_nat i') r) as [Hc|Hc].
        -- rewrite Hlo in Hp2 by lia. rewrite <- Hp2. lia.
        -- rewrite Hhi in Hp2 by lia. rewrite <- Hp2. specialize (Hmono ltac:(lia)). lia.
Qed.

Lemma Get_empty c key : key = "" \/ virtualNodes c = [] -> Get key c = Ret None.
Proof. unfold Get. intros [->| ->]; [|done]. by rewrite orb_true_r. Qed.

Lemma items_elem ns rn : rn ∈ items ns -> rnode rn ∈ ns /\ node_of (rnode rn) = Some (rid rn, rweight rn).
Proof.
  induction ns as [|n ns IH]; cbn [items]; [by intros ?%not_elem_of_nil|]. destruct (node_of n) as [[id w]|] eqn:E.
  - intros [->|H]%elem_of_cons; cbn; [split; [apply elem_of_cons; auto|done]|]. destruct (IH H). split; [apply elem_of_cons; auto|done].
  - intros H. destruct (IH H). split; [apply elem_of_cons; auto|done].
Qed.

Lemma items_in ns rn : rnode rn ∈ ns -> node_of (rnode rn) = Some (rid rn, rweight rn) -> rn ∈ items ns.
Proof.
  destruct rn as [t id w]. cbn. intros H E. induction ns as [|n ns IH]; [by apply not_elem_of_nil in H|]. cbn [items].
  apply elem_of_cons in H as [->|H]; [rewrite E; apply elem_of_cons; auto|].
  destruct (node_of n) as [[]|]; [apply elem_of_cons; right|]; by apply IH.
Qed.

(** Hashes tell virtual nodes of different identifiers apart. *)
Definition apart (rns : list nodeItem) (cfg : consistentHashConfig) : Prop :=
  forall n1 n2 (j1 j2 : nat), n1 ∈ rns -> n2 ∈ rns -> Z.of_nat j1 < vsize n1 cfg -> Z.of_nat j2 < vsize n2 cfg ->
    hash (vname n1 (Z.of_nat j1)) = hash (vname n2 (Z.of_nat j2)) -> rid n1 = rid n2.

Lemma clockwise_inj k x y : uint64 x -> uint64 y -> clockwise k x = clockwise k y -> x = y.
Proof.
  unfold clockwise, uint64. intros Hx Hy E. assert ((x - y) mod 2 ^ 64 = 0) as H.
  { replace (x - y) with ((x - k - 1) - (y - k - 1)) by lia. rewrite Zminus_mod, E, Z.sub_diag. done. }
  apply Z.mod_divide in H as [q Hq]; [|done]. nia.
Qed.

(** The ring moves few keys: of two rings built from two sets of nodes, whatever either leaves
    out or adds, both built without a panic, a key has the same owner on both unless the owner on the
    one is missing from the other. *)
Lemma ring_moves_few ns1 ns2 opts key : let cfg := effective opts in
  fits (items ns1) cfg -> fits (items ns2) cfg -> NoDup (map rid (items ns1)) ->
  apart (items ns1 ++ items ns2) cfg ->
  exists c1 c2 o1 o2, NewConsistentHash ns1 opts = Ret c1 /\ NewConsistentHash ns2 opts = Ret c2 /\
    Get key c1 = Ret o1 /\ Get key c2 = Ret o2 /\
    forall t1 t2, o1 = Some t1 -> o2 = Some t2 -> t1 ∈ ns2 -> t2 ∈ ns1 -> t1 = t2.
Proof.
  intros cfg Hf1 Hf2 Hnd Hap. destruct (New_ring ns1 opts Hf1) as (c1 & -> & Hr1), (New_ring ns2 opts Hf2) as (c2 & -> & Hr2).
  destruct (decide (key = "")) as [Hk|Hk].
  { exists c1, c2, None, None. split_and!; try done; apply Get_empty; auto. }
  destruct (decide (virtualNodes c1 = [])) as [E1|E1].
  { assert (exists o2, Get key c2 = Ret o2) as [o2 Ho2].
    { destruct (decide (virtualNodes c2 = [])) as [E2|E2]; [exists None; apply Get_empty; auto|].
      destruct (Get_nearest _ _ _ key Hr2 Hk E2) as (v & rn & ? & _). eauto. }
    exists c1, c2, None, o2. split_and!; try done; apply Get_empty; auto. }
  destruct (Get_nearest _ _ _ key Hr1 Hk E1) as (v1 & n1 & G1 & Hv1 & Hn1 & Hmin1).
  destruct (decide (virtualNodes c2 = [])) as [E2|E2].
  { exists c1, c2, (Some (rnode n1)), None. split_and!; try done; apply Get_empty; auto. }
  destruct (Get_nearest _ _ _ key Hr2 Hk E2) as (v2 & n2 & G2 & Hv2 & Hn2 & Hmin2).
  exists c1, c2, (Some (rnode n1)), (Some (rnode n2)). split_and!; try done. intros t1 t2 [= <-] [= <-] Ht1 Ht2.
  destruct (items_elem ns1 n1) as [_ En1]; [by eapply list_elem_of_lookup_2|].
  destruct (items_elem ns2 n2) as [_ En2]; [by eapply list_elem_of_lookup_2|].
  pose proof (items_in ns2 n1 Ht1 En1) as Hin1. pose proof (items_in ns1 n2 Ht2 En2) as Hin2.
  apply (ring_elem _ _ _ Hr1) in Hv1 as Hx1. destruct Hx1 as (i1 & m1 & j1 & Ei1 & Hi1 & Hj1 & Hh1).
  apply (ring_elem _ _ _ Hr2) in Hv2 as Hx2. destruct Hx2 as (i2 & m2 & j2 & Ei2 & Hi2 & Hj2 & Hh2).
  rewrite Ei1, Nat2Z.id, Hi1 in Hn1. injection Hn1 as ->. rewrite Ei2, Nat2Z.id, Hi2 in Hn2. injection Hn2 as ->.
  apply list_elem_of_lookup in Hin1 as [i1' Hi1'], Hin2 as [i2' Hi2'].
  assert (clockwise (hash key) (vhash v1) = clockwise (hash key) (vhash v2)) as Ec.
  { pose proof (Hmin1 (MkVNode (vhash v2) (Z.of_nat i2'))) as Ha. pose proof (Hmin2 (MkVNode (vhash v1) (Z.of_nat i1'))) as Hb.
    cbn [vhash] in Ha, Hb. apply Z.le_antisymm; [apply Ha; apply (ring_elem _ _ _ Hr1)|apply Hb; apply (ring_elem _ _ _ Hr2)];
      [exists i2', n2, j2|exists i1', n1, j1]; done. }
  apply clockwise_inj in Ec; [|rewrite Hh1; apply hash_range|rewrite Hh2; apply hash_range]. rewrite Hh1, Hh2 in Ec.
  assert (rid n1 = rid n2) as Eid.
  { apply (Hap n1 n2 j1 j2); try done; apply elem_of_app; [left|right]; by eapply list_elem_of_lookup_2. }
  assert (i1 = i2') as ->; [|congruence]. apply (NoDup_lookup (map rid (items ns1)) _ _ (rid n1) Hnd).
  + change (map rid) with (fmap (M := list) rid). by rewrite list_lookup_fmap, Hi1.
  + change (map rid) with (fmap (M := list) rid). by rewrite list_lookup_fmap, Hi2', Eid.
Qed.
End ring.

(** * Concrete runs *)

Definition weigh (n : string * Z) : option (string * Z) := Some n.

Lemma wrr_fair_witness : let w0 := NewWeightedRoundRobin weigh [("a", 3); ("b", 1)] in
  let s := (rounds 2 w0).1 in exists ps, rounds (Z.to_nat (total w0)) s = (s, ps) /\
    forall j n, w0 !! j = Some n -> times j ps = weight n.
Proof. apply (wrr_fair weigh [("a", 3); ("b", 1)] 2); [vm_compute; reflexivity|discriminate]. Defined.

(** A hash with two different values for the virtual nodes of different identifiers below. *)
Fixpoint poly (s : string) (acc : Z) : Z :=
  match s with
  | EmptyString => wrapu64 acc
  | String c s => poly s (wrapu64 (acc * 31 + Z.of_N (Ascii.N_of_ascii c)))
  end.
Definition demo_hash (s : string) : Z := poly s 7.

Lemma demo_hash_range s : uint64 (demo_hash s).
Proof. unfold demo_hash. generalize 7. induction s as [|c s IH]; intros acc; [apply wrapu64_range|apply IH]. Qed.

Definition by_hash (a b : virtualNode) : Prop := vhash a <= vhash b.
#[export] Instance by_hash_dec : RelDecision by_hash := fun a b => Z_le_dec (vhash a) (vhash b).
#[export] Instance by_hash_total : Total by_hash.
Proof. intros a b. unfold by_hash. lia. Qed.
#[export] Instance by_hash_trans : Transitive by_hash.
Proof. intros a b c. unfold by_hash. lia. Qed.

Definition demo_cfg : list (consistentHashConfig -> consistentHashConfig) := [WithVirtualFactor 2].

Definition apart_b {T} (rns : list (nodeItem (T := T))) (cfg : consistentHashConfig) : bool :=
  forallb (fun n1 => forallb (fun n2 => forallb (fun j1 => forallb (fun j2 =>
    negb (demo_hash (vname n1 (Z.of_nat j1)) =? demo_hash (vname n2 (Z.of_nat j2))) || String.eqb (rid n1) (rid n2))
    (seq 0 (Z.to_nat (vsize n2 cfg)))) (seq 0 (Z.to_nat (vsize n1 cfg)))) rns) rns.

Lemma apart_b_apart {T} (rns : list (nodeItem (T := T))) cfg : apart_b rns cfg = true -> apart demo_hash rns cfg.
Proof.
  unfold apart_b. intros H n1 n2 j1 j2 H1 H2 Hj1 Hj2 E. apply list_elem_of_In in H1, H2.
  rewrite forallb_forall in H. specialize (H n1 H1). rewrite forallb_forall in H. specialize (H n2 H2).
  rewrite forallb_forall in H. specialize (H j1 ltac:(apply in_seq; lia)).
  rewrite forallb_forall in H. specialize (H j2 ltac:(apply in_seq; lia)).
  apply orb_true_iff in H as [H|H]; [|by apply String.eqb_eq]. rewrite (proj2 (Z.eqb_eq _ _) E) in H. done.
Qed.

Lemma ring_demo : let ns1 := [("a", 1); ("b", 2)] in let ns2 := [("b", 2); ("c", 1)] in
  exists c1 c2 o1 o2, NewConsistentHash weigh demo_hash (merge_sort by_hash) ns1 demo_cfg = Ret c1 /\
    NewConsistentHash weigh demo_hash (merge_sort by_hash) ns2 demo_cfg = Ret c2 /\
    Get demo_hash "key" c1 = Ret o1 /\ Get demo_hash "key" c2 = Ret o2 /\
    forall t1 t2, o1 = Some t1 -> o2 = Some t2 -> t1 ∈ ns2 -> t2 ∈ ns1 -> t1 = t2.
Proof.
  apply (ring_moves_few weigh demo_hash (merge_sort by_hash) demo_hash_range (fun l => merge_sort_Permutation by_hash l)
    (fun l => StronglySorted_merge_sort by_hash l) [("a", 1); ("b", 2)] [("b", 2); ("c", 1)] demo_cfg "key").
  - split; vm_compute; reflexivity.
  - split; vm_compute; reflexivity.
  - apply (bool_decide_unpack _). vm_compute. exact I.
  - apply apart_b_apart. vm_compute. reflexivity.
Qed.
