(* ===== verification/Shard.v ===== *)
(** Ownership of keys by instances ([pkg/store/shard/shard.go], [jump.go]): the sharder over the ring
    of [LoadBalance], rendezvous hashing, and the router that forwards to the owner. *)
From Stdlib Require Import ZArith Lia Bool Ascii Floats.SpecFloat.
From stdpp Require Import base numbers strings list gmap sets sorting.
From S2P Require Import Prelude Float64 LoadBalance.

Open Scope Z_scope.

Record StaticMember := MkStatic { NodeID : string; NodeWeight : Z; NodeAddr : string }.
Definition StaticWeight (m : StaticMember) : Z := if NodeWeight m <=? 0 then 1 else NodeWeight m.

(** [Member]: what an instance answers. *)
Class Member (M : Type) := { ID : M -> string; Weight : M -> Z; Addr : M -> string }.
#[export] Instance static_member : Member StaticMember := {| ID := NodeID; Weight := StaticWeight; Addr := NodeAddr |}.

Section shard.
Context {M : Type} `{!Member M}.

(** * The sharder *)

Section sharder.
(** The hash of the process and its sort, as in [LoadBalance]. *)
Context (hash : string -> Z) (sorted : list virtualNode -> list virtualNode).

Definition node_of (m : M) : option (string * Z) := Some (ID m, Weight m).

Record Sharder := MkSharder {
  self : string; virtualFactor_ : Z; ring : option (ConsistentHash (T := M)); members_ : gmap string M
}.

Definition WithVirtualFactor_ (n : Z) (s : Sharder) : Sharder :=
  if 0 <? n then MkSharder (self s) n (ring s) (members_ s) else s.

(** The members kept, in order: no nil, no empty identifier, the first of each. *)
Fixpoint set_loop (ms : list (option M)) (m : gmap string M) (l : list M) : gmap string M * list M :=
  match ms with
  | [] => (m, l)
  | Some mem :: ms =>
      if String.eqb (ID mem) "" then set_loop ms m l
      else match m !! ID mem with
           | Some _ => set_loop ms m l
           | None => set_loop ms (<[ID mem := mem]> m) (l ++ [mem])
           end
  | None :: ms => set_loop ms m l
  end.

Definition SetMembers (ms : list (option M)) (s : Sharder) : go Sharder :=
  let '(m, l) := set_loop ms ∅ [] in
  r ← NewConsistentHash node_of hash sorted l [WithVirtualFactor (virtualFactor_ s)];
  Ret (MkSharder (self s) (virtualFactor_ s) (Some r) m).

Definition New (self : string) (ms : list (option M)) (opts : list (Sharder -> Sharder)) : go Sharder :=
  SetMembers ms (foldl (fun s o => o s) (MkSharder self 100 None ∅) opts).

Definition Owner (key : string) (s : Sharder) : go (option M) :=
  match ring s with None => Ret None | Some r => Get hash key r end.

Definition IsLocal (key : string) (s : Sharder) : go bool :=
  o ← Owner key s; Ret (match o with None => true | Some m => String.eqb (ID m) (self s) end).

Definition Self (s : Sharder) : string := self s.

(** The order of a range over the map, here that of [map_to_list]. *)
Definition Members (s : Sharder) : list M := map snd (map_to_list (members_ s)).

(** * The router *)

(** [url.Parse] and the proxy of the standard library: [parse] answers whether an address is one. *)
Context (parse : string -> bool).

(** The first segment of a path. *)
Fixpoint cut_slash (s : string) : string :=
  match s with
  | EmptyString => EmptyString
  | String c s => if Ascii.eqb c "/"%char then EmptyString else String c (cut_slash s)
  end.
Definition PathHeadKey (path : string) : string :=
  match path with String c s => if Ascii.eqb c "/"%char then cut_slash s else cut_slash path | EmptyString => EmptyString end.

Definition has_scheme (addr : string) : bool := match String.index 0 "://" addr with Some _ => true | None => false end.

(** [proxies]: the addresses a proxy is cached under. *)
Definition proxyFor (addr : string) (proxies : gset string) : gset string * option string :=
  if bool_decide (addr ∈ proxies) then (proxies, Some addr)
  else
    let addr := if has_scheme addr then addr else ("http://" ++ addr)%string in
    if parse addr then ({[addr]} ∪ proxies, Some addr) else (proxies, None).

(** Served here, forwarded to an address under a header naming this instance, or refused. *)
Inductive served := Local | Forward (to : M) (header : string) | BadGateway.

Definition ServeHTTP (s : Sharder) (key header : string) (proxies : gset string) : go (gset string * served) :=
  if String.eqb key "" then Ret (proxies, Local)
  else
    o ← Owner key s;
    match o with
    | None => Ret (proxies, Local)
    | Some owner =>
        if String.eqb (ID owner) (self s) then Ret (proxies, Local)
        else if negb (String.eqb header "") then Ret (proxies, Local)
        else
          let '(proxies, p) := proxyFor (Addr owner) proxies in
          match p with
          | None => Ret (proxies, BadGateway)
          | Some _ => Ret (proxies, Forward owner (self s))
          end
    end.

(** ** The members kept *)

Lemma set_loop_spec ms : forall m l,
  (forall id mem, m !! id = Some mem <-> mem ∈ l /\ ID mem = id) -> NoDup (map ID l) ->
  let '(m', l') := set_loop ms m l in
  (forall id mem, m' !! id = Some mem <-> mem ∈ l' /\ ID mem = id) /\ NoDup (map ID l').
Proof.
  induction ms as [|[mem|] ms IH]; intros m l Hm Hn; cbn [set_loop]; [done| |by apply IH].
  destruct (String.eqb (ID mem) ""); [by apply IH|]. destruct (m !! ID mem) as [old|] eqn:E; [by apply IH|].
  assert (ID mem ∉ map ID l) as Hfresh.
  { intros H. apply list_elem_of_fmap in H as (x & Hx & Hin). assert (m !! ID mem = Some x) by (by apply Hm). congruence. }
  apply IH.
  - intros id x. rewrite lookup_insert_Some, elem_of_app, list_elem_of_singleton, Hm. split.
    + intros [[<- <-]|[Hne [H1 H2]]]; auto.
    + intros [[H1| ->] H2]; [|left; auto]. right. split; [|auto]. intros <-. apply Hfresh. rewrite <- H2.
      by apply list_elem_of_fmap_2.
  - rewrite map_app. apply NoDup_app. split_and!; [done| |apply NoDup_singleton].
    intros x Hx [->|[]%not_elem_of_nil]%elem_of_cons. done.
Qed.

Definition kept (ms : list (option M)) : list M := (set_loop ms ∅ []).2.

Lemma kept_spec ms : (forall id mem, (set_loop ms ∅ []).1 !! id = Some mem <-> mem ∈ kept ms /\ ID mem = id) /\
  NoDup (map ID (kept ms)).
Proof.
  unfold kept. pose proof (set_loop_spec ms ∅ []) as H. destruct (set_loop ms ∅ []) as [m l]. apply H; [|constructor].
  intros id mem. rewrite lookup_empty. split; [done|]. by intros [?%not_elem_of_nil _].
Qed.

Definition member_items (l : list M) : list nodeItem := map (fun m => MkItem m (ID m) (Weight m)) l.

Lemma items_members l : items node_of l = member_items l.
Proof. induction l as [|m l IH]; [done|]. cbn. by rewrite IH. Qed.

Definition shard_cfg (n : Z) : consistentHashConfig := MkCfg n true 0.

Lemma effective_cfg n : 0 < n -> effective [WithVirtualFactor n] = shard_cfg n.
Proof. intros H. unfold effective. cbn. by rewrite (proj2 (Z.eqb_neq _ _)) by lia. Qed.

Context (hash_range : forall x, uint64 (hash x)).
Context (sorted_perm : forall l, sorted l ≡ₚ l).
Context (sorted_sorted : forall l, Sorted.StronglySorted (fun a b => vhash a <= vhash b) (sorted l)).

(** When the members of a sharder change few keys change hands: from both sets of members a ring is built without a panic, and a key
    has the same owner on both unless the owner on the one is not a member of the other. The two are of one process, since the
    hash is seeded for each (see [seeds_disagree]), have one number of virtual nodes per weight, and no two of these nodes
    have one hash. *)
Theorem sharder_moves_few s1 s2 ms1 ms2 key : virtualFactor_ s1 = virtualFactor_ s2 -> 
  let cfg := shard_cfg (virtualFactor_ s1) in
  fits (member_items (kept ms1)) cfg -> fits (member_items (kept ms2)) cfg ->
  apart hash (member_items (kept ms1) ++ member_items (kept ms2)) cfg ->
  exists s1' s2' o1 o2, SetMembers ms1 s1 = Ret s1' /\ SetMembers ms2 s2 = Ret s2' /\
    Owner key s1' = Ret o1 /\ Owner key s2' = Ret o2 /\
    forall m1 m2, o1 = Some m1 -> o2 = Some m2 ->
      members_ s2' !! ID m1 = Some m1 -> members_ s1' !! ID m2 = Some m2 -> m1 = m2.
Proof.
  intros Hv cfg Hf1 Hf2 Hap. pose proof (kept_spec ms1) as [Hm1 Hn1]. pose proof (kept_spec ms2) as [Hm2 _].
  pose proof (effective_cfg (virtualFactor_ s1) (proj1 Hf1)) as Ec.
  rewrite <- !items_members in Hf1, Hf2, Hap. unfold cfg in *. rewrite <- Ec in Hf1, Hf2, Hap.
  destruct (ring_moves_few node_of hash sorted hash_range sorted_perm sorted_sorted (kept ms1) (kept ms2)
    [WithVirtualFactor (virtualFactor_ s1)] key Hf1 Hf2) as (c1 & c2 & o1 & o2 & E1 & E2 & G1 & G2 & Heq); [|done|].
  { rewrite items_members. unfold member_items. rewrite List.map_map. exact Hn1. }
  unfold SetMembers, kept in *. rewrite <- Hv.
  destruct (set_loop ms1 ∅ []) as [m1 l1], (set_loop ms2 ∅ []) as [m2 l2]. cbn [fst snd] in *.
  rewrite E1, E2. cbn [mbind go_bind]. eexists _, _, o1, o2. split_and!; [done|done|exact G1|exact G2|].
  cbn [members_]. intros t1 t2 Ht1 Ht2 H1 H2. apply Hm2 in H1 as [H1 _]. apply Hm1 in H2 as [H2 _]. by apply Heq.
Qed.

(** ** Forwarding *)

(** A sharder whose ring is built. *)
Definition built (s : Sharder) : Prop :=
  exists c rns cfg, ring s = Some c /\ ring_of hash rns cfg c.

Lemma SetMembers_built ms s : fits (member_items (kept ms)) (shard_cfg (virtualFactor_ s)) ->
  exists s', SetMembers ms s = Ret s' /\ built s' /\ self s' = self s.
Proof.
  intros Hf. pose proof (effective_cfg (virtualFactor_ s) (proj1 Hf)) as Ec. rewrite <- Ec, <- items_members in Hf.
  destruct (New_ring node_of hash sorted sorted_perm sorted_sorted (kept ms) [WithVirtualFactor (virtualFactor_ s)] Hf) as (c & E & Hr).
  unfold SetMembers, kept in *. destruct (set_loop ms ∅ []) as [m l]. cbn [snd] in *. rewrite E. cbn [mbind go_bind].
  eexists. split; [reflexivity|]. split; [|done]. exists c, (items node_of l), (effective [WithVirtualFactor (virtualFactor_ s)]). done.
Qed.

Lemma Owner_total s key : built s -> exists o, Owner key s = Ret o.
Proof.
  intros (c & rns & cfg & E & Hr). unfold Owner. rewrite E. destruct (decide (key = "")) as [Hk|Hk].
  { exists None. apply Get_empty. auto. }
  destruct (decide (virtualNodes c = [])) as [Ev|Ev]; [exists None; apply Get_empty; auto|].
  destruct (Get_nearest hash hash_range rns cfg c key Hr Hk Ev) as (v & rn & -> & _). eauto.
Qed.

(** A request goes through at most two instances, even while they disagree on the members: what
    one forwards, to the owner it knows, the next serves itself; and where they agree it is the
    owner that serves it, unless its address cannot be parsed. *)
Theorem routed_to_owner s1 s2 key header proxies proxies' : built s1 -> built s2 -> self s1 <> "" ->
  exists p r, ServeHTTP s1 key header proxies = Ret (p, r) /\
    match r with
    | Local => key = "" \/ Owner key s1 = Ret None \/ header <> "" \/ exists m, Owner key s1 = Ret (Some m) /\ ID m = self s1
    | Forward m h => Owner key s1 = Ret (Some m) /\ ID m <> self s1 /\ header = "" /\
        ServeHTTP s2 key h proxies' = Ret (proxies', Local)
    | BadGateway => exists m, Owner key s1 = Ret (Some m) /\ ID m <> self s1
    end.
Proof.
  intros H1 H2 Hself. unfold ServeHTTP at 1. destruct (String.eqb_spec key "") as [Hk|Hk]; [eexists _, _; split; [done|]; cbn; auto|].
  destruct (Owner_total s1 key H1) as [o1 E1]. rewrite E1. cbn [mbind go_bind].
  destruct o1 as [m|]; [|eexists _, _; split; [done|]; cbn; auto].
  destruct (String.eqb_spec (ID m) (self s1)) as [Em|Em]; [eexists _, _; split; [done|]; cbn; eauto 7|].
  destruct (String.eqb_spec header "") as [Eh|Eh]; cbn [negb]; [|eexists _, _; split; [done|]; cbn; auto].
  destruct (proxyFor (Addr m) proxies) as [p [a|]]; eexists _, _; (split; [done|]); cbn; [|by exists m].
  split_and!; try done. unfold ServeHTTP. rewrite (proj2 (String.eqb_neq _ _)) by done.
  destruct (Owner_total s2 key H2) as [o2 ->]. cbn [mbind go_bind]. destruct o2 as [m2|]; [|done].
  destruct (String.eqb_spec (ID m2) (self s2)); [done|]. by rewrite (proj2 (String.eqb_neq _ _)) by done.
Qed.
End sharder.

(** * Rendezvous *)

Section rendezvous.
(** [math.Log] of the standard library, and the sort of [PickN]. *)
Context (log : float64 -> float64) (sort_desc : list (M * float64) -> list (M * float64)).

Fixpoint fnv (s : string) (h : Z) : Z :=
  match s with
  | EmptyString => h
  | String c s => fnv s (wrapu64 (Z.lxor h (Z.of_N (Ascii.N_of_ascii c)) * 1099511628211))
  end.

Definition hash64 (id key : string) : Z :=
  let h := fnv id 1469598103934665603 in
  let h := wrapu64 (Z.lxor h 0 * 1099511628211) in
  let h := fnv key h in
  let h := wrapu64 (h + 0x9e3779b97f4a7c15) in
  let h := wrapu64 (Z.lxor h (Z.shiftr h 30) * 0xbf58476d1ce4e5b9) in
  let h := wrapu64 (Z.lxor h (Z.shiftr h 27) * 0x94d049bb133111eb) in
  Z.lxor h (Z.shiftr h 31).

(** The hash brought to a fraction; the divisor is the constant of the source, rounded. *)
Definition hf (h : Z) : float64 :=
  fdiv (fadd (of_int (Z.shiftr h 11)) (of_int 1)) (fadd (of_int (2 ^ 53)) (of_int 1)).

Definition fopp (x : float64) : float64 := SFopp x.

Definition score (m : M) (key : string) : float64 :=
  let w := if Weight m <? 1 then 1 else Weight m in
  fdiv (of_int w) (fopp (log (hf (hash64 (ID m) key)))).

Fixpoint pick_loop (key : string) (ms : list M) (best : option (M * float64)) : option (M * float64) :=
  match ms with
  | [] => best
  | m :: ms =>
      let s := score m key in
      pick_loop key ms
        (match best with
         | None => Some (m, s)
         | Some (_, b) => if fltb b s then Some (m, s) else best
         end)
  end.

Definition Pick (key : string) (ms : list M) : option M := fst <$> pick_loop key ms None.

Definition PickN (key : string) (n : Z) (ms : list M) : list M :=
  if (n <=? 0) || (length ms =? 0)%nat then []
  else
    let all := sort_desc (map (fun m => (m, score m key)) ms) in
    let n := if Z.of_nat (length all) <? n then Z.of_nat (length all) else n in
    map fst (take (Z.to_nat n) all).

Definition pick_better (b : option (M * float64)) (s : float64) : Prop :=
  match b with None => True | Some (_, sb) => number sb /\ fltb s sb = false end.

(** A candidate at least as good as the best so far wins, or makes no difference. *)
Lemma pick_with key x sx ms : number sx -> Forall (fun m => number (score m key)) ms -> forall b, pick_better b sx ->
  pick_loop key ms (Some (x, sx)) = Some (x, sx) \/ pick_loop key ms (Some (x, sx)) = pick_loop key ms b.
Proof.
  intros Hx. induction 1 as [|m ms Hm _ IH]; intros b Hb; cbn [pick_loop]; [by left|].
  destruct (fltb sx (score m key)) eqn:E.
  - right. destruct b as [[y sy]|]; [|done]. destruct Hb as [Hy Hb].
    assert (fltb sy (score m key) = true) as ->; [|done]. apply not_false_iff_true. intros Hn.
    by rewrite (fltb_notless_trans (score m key) sy sx) in E.
  - destruct b as [[y sy]|]; [destruct Hb as [Hy Hb]; destruct (fltb sy (score m key))|]; apply IH; done.
Qed.

(** Adding or removing one member moves only keys of that member: with it in the list, wherever
    it stands, a key goes to it or to where it goes without it. *)
Theorem rendezvous_moves_few key l1 x l2 : Forall (fun m => number (score m key)) (l1 ++ x :: l2) ->
  Pick key (l1 ++ x :: l2) = Some x \/ Pick key (l1 ++ x :: l2) = Pick key (l1 ++ l2).
Proof.
  intros Hn. apply Forall_app in Hn as [Hn1 [Hx Hn2]%Forall_cons]. unfold Pick.
  assert (forall l b l', pick_loop key (l ++ l') b = pick_loop key l' (pick_loop key l b)) as Happ.
  { induction l as [|m l IH]; intros b l'; [done|]. cbn. apply IH. }
  rewrite !Happ. set (b := pick_loop key l1 None). assert (forall s, number s -> pick_better b s \/ exists y sy, b = Some (y, sy) /\ number sy /\ fltb s sy = true) as Hb.
  { assert (match b with Some (_, sb) => number sb | None => True end) as Hnb.
    { unfold b. clear -Hn1. assert (forall c : option (M * float64), match c with Some (_, sb) => number sb | None => True end ->
        match pick_loop key l1 c with Some (_, sb) => number sb | None => True end) as H; [|by apply H].
      induction Hn1 as [|m l Hm _ IH]; intros c Hc; [done|]. cbn. apply IH. destruct c as [[y sy]|]; [|done]. by destruct (fltb sy _). }
    intros s Hs. destruct b as [[y sy]|]; [|by left]. destruct (fltb s sy) eqn:E; [right; eauto|by left]. }
  cbn [pick_loop]. destruct (Hb (score x key) Hx) as [Hbx|(y & sy & -> & Hy & Hlt)].
  - destruct b as [[y sy]|].
    + destruct (fltb sy (score x key)); [|by right].
      destruct (pick_with key x _ l2 Hx Hn2 (Some (y, sy)) Hbx) as [-> | ->]; auto.
    + destruct (pick_with key x _ l2 Hx Hn2 None I) as [-> | ->]; auto.
  - assert (fltb sy (score x key) = false) as ->; [|by right]. apply not_true_iff_false. intros H.
    pose proof (fltb_trans _ _ _ Hy Hx Hy H Hlt) as Hc. by rewrite fltb_irrefl in Hc.
Qed.
End rendezvous.
End shard.

(** * Concrete runs *)

Definition inst (id addr : string) (wt : Z) : option StaticMember := Some (MkStatic id wt addr).
Definition fresh_sharder (self : string) : Sharder (M := StaticMember) := MkSharder self 2 None ∅.
Definition two : list (option StaticMember) := [inst "a" "10.0.0.1" 1; None; inst "b" "10.0.0.2" 0].
Definition three : list (option StaticMember) := [inst "b" "10.0.0.2" 0; inst "c" "10.0.0.3" 1; inst "c" "10.0.0.9" 1].

Lemma sharder_moves_few_witness : exists s1' s2' o1 o2,
  SetMembers demo_hash (merge_sort by_hash) two (fresh_sharder "a") = Ret s1' /\ SetMembers demo_hash (merge_sort by_hash) three (fresh_sharder "b") = Ret s2' /\
  Owner demo_hash "room" s1' = Ret o1 /\ Owner demo_hash "room" s2' = Ret o2 /\
  forall m1 m2, o1 = Some m1 -> o2 = Some m2 ->
    members_ s2' !! ID m1 = Some m1 -> members_ s1' !! ID m2 = Some m2 -> m1 = m2.
Proof.
  apply (sharder_moves_few demo_hash (merge_sort by_hash) demo_hash_range (fun l => merge_sort_Permutation by_hash l)
    (fun l => StronglySorted_merge_sort by_hash l) (fresh_sharder "a") (fresh_sharder "b") two three "room" eq_refl).
  - split; vm_compute; reflexivity.
  - split; vm_compute; reflexivity.
  - apply apart_b_apart. vm_compute. reflexivity.
Defined.

Lemma set_built ms self : fits (member_items (kept ms)) (shard_cfg 2) ->
  exists s, SetMembers demo_hash (merge_sort by_hash) ms (fresh_sharder self) = Ret s /\ built demo_hash s /\ Self s = self.
Proof.
  intros H. apply (SetMembers_built demo_hash (merge_sort by_hash) (fun l => merge_sort_Permutation by_hash l)
    (fun l => StronglySorted_merge_sort by_hash l) ms (fresh_sharder self) H).
Qed.

(** Two instances that see different members. *)
Lemma routed_to_owner_witness : exists s1 s2 p r,
  SetMembers demo_hash (merge_sort by_hash) two (fresh_sharder "a") = Ret s1 /\ SetMembers demo_hash (merge_sort by_hash) three (fresh_sharder "b") = Ret s2 /\
  ServeHTTP demo_hash (fun _ => true) s1 "room" "" ∅ = Ret (p, r) /\
    match r with
    | Local => "room" = "" \/ Owner demo_hash "room" s1 = Ret None \/ "" <> "" \/
        exists m, Owner demo_hash "room" s1 = Ret (Some m) /\ ID m = self s1
    | Forward m h => Owner demo_hash "room" s1 = Ret (Some m) /\ ID m <> self s1 /\ "" = "" /\
        ServeHTTP demo_hash (fun _ => true) s2 "room" h ∅ = Ret (∅, Local)
    | BadGateway => exists m, Owner demo_hash "room" s1 = Ret (Some m) /\ ID m <> self s1
    end.
Proof.
  destruct (set_built two "a") as (s1 & E1 & H1 & S1); [split; vm_compute; reflexivity|].
  destruct (set_built three "b") as (s2 & E2 & H2 & _); [split; vm_compute; reflexivity|].
  assert (self s1 <> "") as Hs by (change (Self s1 <> ""); rewrite S1; discriminate).
  destruct (routed_to_owner demo_hash (fun _ => true) demo_hash_range s1 s2 "room" "" ∅ ∅ H1 H2 Hs) as (p & r & E & Hr).
  exists s1, s2, p, r. exact (conj E1 (conj E2 (conj E Hr))).
Defined.

Definition plain_log (x : float64) : float64 := fsub x (of_int 2).

Lemma rendezvous_moves_few_witness : let ms := [MkStatic "a" 1 ""; MkStatic "b" 2 ""] in let x := MkStatic "c" 1 "" in
  Pick plain_log "k" (ms ++ x :: []) = Some x \/ Pick plain_log "k" (ms ++ x :: []) = Pick plain_log "k" (ms ++ []).
Proof.
  apply (rendezvous_moves_few plain_log "k" [MkStatic "a" 1 ""; MkStatic "b" 2 ""] (MkStatic "c" 1 "") []).
  cbn [app]. repeat apply Forall_cons_2; try apply Forall_nil_2; vm_compute; discriminate.
Defined.

(** ** Boundaries *)

(** The seed of the hash is drawn by each process: two instances with the same members and different
    seeds disagree on the owner of a key. *)
Lemma seeds_disagree : let other := fun s => 2 ^ 64 - 1 - demo_hash s in exists s1 s2 m1 m2,
  SetMembers demo_hash (merge_sort by_hash) two (fresh_sharder "a") = Ret s1 /\
  SetMembers other (merge_sort by_hash) two (fresh_sharder "b") = Ret s2 /\
  Owner demo_hash "room" s1 = Ret (Some m1) /\ Owner other "room" s2 = Ret (Some m2) /\ ID m1 <> ID m2.
Proof.
  eexists _, _, _, _. split; [vm_compute; reflexivity|]. split; [vm_compute; reflexivity|].
  split; [vm_compute; reflexivity|]. split; [vm_compute; reflexivity|]. vm_compute. discriminate.
Qed.

(** An address without a scheme is cached under the one with it, and never found again. *)
Lemma proxy_cache_misses parse addr proxies : parse ("http://" ++ addr)%string = true -> has_scheme addr = false -> addr ∉ proxies ->
  let '(p1, r1) := proxyFor parse addr proxies in
  r1 = Some ("http://" ++ addr)%string /\ addr ∉ p1.
Proof.
  intros Hp Hs Hn. unfold proxyFor. rewrite bool_decide_false by done. rewrite Hs, Hp. split; [done|].
  rewrite elem_of_union, elem_of_singleton. intros [E|]; [|done].
  assert (String.length addr = 7 + String.length addr)%nat as El by (rewrite E at 1; done). lia.
Qed.

(** The divisor [2^53 + 1] is no double: the greatest hashes reach 1, whose logarithm is zero, and
    score minus infinity instead of the most. *)
Lemma hf_reaches_one : hf (2 ^ 64 - 1) = of_int 1 /\
  fdiv (of_int 1) (fopp (S754_zero false)) = S754_infinity true.
Proof. vm_compute. split; reflexivity. Qed.
