(* ===== verification/Mail.v ===== *)
(** Mailboxes ([pkg/domain/mail/mail.go]): mails with attachments to be claimed once, a manager over
    an interface of stores, and the store in memory, whose pointers it shares with its callers. *)
From Stdlib Require Import ZArith Lia Bool.
From stdpp Require Import base numbers strings list gmap fin_maps sets.
From S2P Require Import Prelude Priority.

Open Scope Z_scope.

Inductive mErr := ErrNotFound | ErrAlreadyClaimed | ErrExpired | ErrNoAttachment | ErrMailboxFull.
Inductive Status := StatusUnread | StatusRead | StatusClaimed.
#[export] Instance Status_eq_dec : EqDecision Status.
Proof. solve_decision. Defined.
Definition status_rank (s : Status) : Z := match s with StatusUnread => 0 | StatusRead => 1 | StatusClaimed => 2 end.

(** [time.Time] in nanoseconds, [None] for its zero value. *)
Record Mail {T : Type} := MkMail {
  ID : string; RecipientID : string; SenderID : string; Title : string; Body : string;
  Attachments : list T; mStatus : Status; CreatedAt : option Z; ExpiresAt : option Z
}.
Arguments Mail : clear implicits.

Record Filter := MkFilter { StatusIn : list Status; Limit : Z; Offset : Z }.

(** A pointer to a mail. *)
Definition loc := nat.

Section mail.
Context {T : Type}.

Definition IsExpired (now : Z) (m : Mail T) : bool := match ExpiresAt m with None => false | Some e => e <? now end.
Definition HasAttachment (m : Mail T) : bool := 0 <? Z.of_nat (length (Attachments m)).

Definition with_status (s : Status) (m : Mail T) : Mail T :=
  MkMail T (ID m) (RecipientID m) (SenderID m) (Title m) (Body m) (Attachments m) s (CreatedAt m) (ExpiresAt m).

(** * Stores *)

(** [Store], over the heap its pointers are in. *)
Class Store (W : Type) := {
  deref : W -> loc -> Mail T;
  assign : loc -> Mail T -> W -> W;
  alloc : Mail T -> W -> W * loc;
  sSave : loc -> W -> W * option mErr;
  sGet : string -> W -> result mErr loc;
  sUpdate : loc -> W -> W * option mErr;
  sDelete : string -> W -> W * option mErr;
  sList : string -> Filter -> W -> go (result mErr (list loc));
  sCountByStatus : string -> Status -> W -> result mErr Z;
  sDeleteExpired : Z -> W -> W * result mErr Z
}.

(** How many of the mails [c] have a property. *)
Definition count (P : Mail T -> bool) (c : gmap string (Mail T)) : Z := Z.of_nat (size (filter (fun '(_, m) => P m = true) c)).
Definition mine (r : string) (m : Mail T) : bool := bool_decide (RecipientID m = r).
Definition mine_in (r : string) (s : Status) (m : Mail T) : bool := bool_decide (RecipientID m = r) && bool_decide (mStatus m = s).

(** What the manager relies on: a store stands for a map from identifiers to mails. A pointer just
    made is loose; one answered by [sGet] is held, and whether writing through it changes the store
    at once is left open. *)
Class StoreLaws (W : Type) `{!Store W} := {
  ok : W -> Prop;
  contents : W -> gmap string (Mail T);
  loose : loc -> W -> Prop;
  held : string -> loc -> W -> Prop;
  law_id w id m : ok w -> contents w !! id = Some m -> ID m = id;
  law_alloc w m : ok w -> let '(w', l) := alloc m w in ok w' /\ contents w' = contents w /\ loose l w' /\ deref w' l = m;
  law_assign w l m : ok w -> loose l w ->
    let w' := assign l m w in ok w' /\ contents w' = contents w /\ loose l w' /\ deref w' l = m;
  law_save w l : ok w -> loose l w -> exists w', sSave l w = (w', None) /\ ok w' /\
    contents w' = <[ID (deref w l) := deref w l]> (contents w);
  law_get w id : ok w -> match contents w !! id with
    | None => sGet id w = Err ErrNotFound
    | Some m => exists l, sGet id w = Ok l /\ deref w l = m /\ held id l w
    end;
  law_update w id l m : ok w -> held id l w -> ID m = id -> exists w', sUpdate l (assign l m w) = (w', None) /\ ok w' /\
    contents w' = <[id := m]> (contents w) /\ deref w' l = m;
  law_delete w id : ok w -> let '(w', e) := sDelete id w in ok w' /\
    match contents w !! id with
    | None => e = Some ErrNotFound /\ contents w' = contents w
    | Some _ => e = None /\ contents w' = delete id (contents w)
    end;
  law_count w r s : ok w -> sCountByStatus r s w = Ok (count (mine_in r s) (contents w));
  law_expired w now : ok w -> let '(w', n) := sDeleteExpired now w in ok w' /\
    n = Ok (count (IsExpired now) (contents w)) /\
    contents w' = filter (fun '(_, m) => IsExpired now m = false) (contents w)
}.

(** * The manager *)

Record config := MkConfig { maxPerUser : Z; defaultTTL : Z }.
Definition WithMaxPerUser (n : Z) (c : config) : config := if 0 <? n then MkConfig n (defaultTTL c) else c.
Definition WithDefaultTTL (d : Z) (c : config) : config := if 0 <? d then MkConfig (maxPerUser c) d else c.
Definition NewMailbox (opts : list (config -> config)) : config :=
  foldl (fun c o => o c) (MkConfig 100 (30 * 24 * 3600 * 10 ^ 9)) opts.

Section mailbox.
Context {W : Type} `{!Store W} (cfg : config).

(** The fields [Send] fills in. *)
Definition stamp (now : Z) (m : Mail T) : Mail T :=
  let created := default now (CreatedAt m) in
  let expires := match ExpiresAt m with
                 | None => if 0 <? defaultTTL cfg then Some (created + defaultTTL cfg) else None
                 | Some e => Some e
                 end in
  MkMail T (ID m) (RecipientID m) (SenderID m) (Title m) (Body m) (Attachments m) StatusUnread (Some created) expires.

Definition Send (now : Z) (l : loc) (w : W) : W * option mErr :=
  let w := assign l (stamp now (deref w l)) w in
  let r := RecipientID (deref w l) in
  match sCountByStatus r StatusUnread w, sCountByStatus r StatusRead w, sCountByStatus r StatusClaimed w with
  | Ok count, Ok total, Ok claimed =>
      if maxPerUser cfg <=? count + total + claimed then (w, Some ErrMailboxFull) else sSave l w
  | Err e, _, _ | _, Err e, _ | _, _, Err e => (w, Some e)
  end.

(** [idGen] answers the identifiers one by one. *)
Fixpoint BatchSend (now : Z) (recipients ids : list string) (template : Mail T) (w : W) : W * list mErr :=
  match recipients, ids with
  | rid :: recipients, id :: ids =>
      let '(w, l) := alloc (MkMail T id rid (SenderID template) (Title template) (Body template) (Attachments template)
                              StatusUnread None None) w in
      let '(w, e) := Send now l w in
      let '(w, es) := BatchSend now recipients ids template w in
      (w, match e with Some e => e :: es | None => es end)
  | _, _ => (w, [])
  end.

Definition List_ (now : Z) (r : string) (f : Filter) (w : W) : go (result mErr (list loc)) :=
  res ← sList r f w;
  Ret (match res with Ok ls => Ok (List.filter (fun l => negb (IsExpired now (deref w l))) ls) | Err e => Err e end).

Definition Read (now : Z) (id : string) (w : W) : W * option mErr :=
  match sGet id w with
  | Err e => (w, Some e)
  | Ok l =>
      if IsExpired now (deref w l) then (w, Some ErrExpired)
      else if bool_decide (mStatus (deref w l) = StatusUnread)
      then sUpdate l (assign l (with_status StatusRead (deref w l)) w)
      else (w, None)
  end.

(** [Claim] up to its last check, and from there; nothing is locked in between. *)
Definition claim_check (now : Z) (id : string) (w : W) : result mErr loc :=
  match sGet id w with
  | Err e => Err e
  | Ok l =>
      if IsExpired now (deref w l) then Err ErrExpired
      else if bool_decide (mStatus (deref w l) = StatusClaimed) then Err ErrAlreadyClaimed
      else if negb (HasAttachment (deref w l)) then Err ErrNoAttachment
      else Ok l
  end.
Definition claim_take (l : loc) (w : W) : W * result mErr (list T) :=
  let '(w, e) := sUpdate l (assign l (with_status StatusClaimed (deref w l)) w) in
  (w, match e with Some e => Err e | None => Ok (Attachments (deref w l)) end).

Definition Claim (now : Z) (id : string) (w : W) : W * result mErr (list T) :=
  match claim_check now id w with Err e => (w, Err e) | Ok l => claim_take l w end.

Definition Delete (id : string) (w : W) : W * option mErr := sDelete id w.
Definition DeleteExpired (now : Z) (w : W) : W * result mErr Z := sDeleteExpired now w.
Definition Unread (r : string) (w : W) : result mErr Z := sCountByStatus r StatusUnread w.

(** ** What the manager does to the map *)

Context `{!StoreLaws W}.

Lemma count_split r (c : gmap string (Mail T)) :
  count (mine_in r StatusUnread) c + count (mine_in r StatusRead) c + count (mine_in r StatusClaimed) c = count (mine r) c.
Proof.
  unfold count. induction c as [|k m c Hk IH] using map_ind; [done|].
  assert (forall (P : Mail T -> bool), size (filter (fun '(_, m) => P m = true) (<[k := m]> c)) =
    (Nat.b2n (P m) + size (filter (fun '(_, m) => P m = true) c))%nat) as H.
  { intros P. rewrite map_filter_insert. destruct (decide (P m = true)) as [E|E].
    - rewrite E. rewrite map_size_insert_None; [done|]. apply map_lookup_filter_None. by left.
    - apply not_true_is_false in E. rewrite E. rewrite map_filter_delete, delete_id; [done|].
      apply map_lookup_filter_None. by left. }
  assert (Nat.b2n (mine_in r StatusUnread m) + Nat.b2n (mine_in r StatusRead m) + Nat.b2n (mine_in r StatusClaimed m) =
    Nat.b2n (mine r m))%nat as Hm by (unfold mine_in, mine; destruct (bool_decide (RecipientID m = r)), (mStatus m); done).
  rewrite !H. lia.
Qed.

Lemma Send_spec now l w : ok w -> loose l w ->
  let m := stamp now (deref w l) in
  let '(w', e) := Send now l w in ok w' /\
  if maxPerUser cfg <=? count (mine (RecipientID m)) (contents w)
  then e = Some ErrMailboxFull /\ contents w' = contents w
  else e = None /\ contents w' = <[ID m := m]> (contents w).
Proof.
  intros Hok Hl m. pose proof (law_assign w l m Hok Hl) as Ha. cbv zeta in Ha. unfold Send. fold m. set (w1 := assign l m w) in *.
  destruct Ha as (H1 & H2 & H3 & H4). rewrite !law_count, H2, H4, count_split by done.
  destruct (_ <=? _); [done|]. destruct (law_save w1 l H1 H3) as (w' & -> & ? & ->). by rewrite H2, H4.
Qed.

Lemma Read_spec now id w : ok w -> let '(w', e) := Read now id w in ok w' /\
  match contents w !! id with
  | None => e = Some ErrNotFound /\ contents w' = contents w
  | Some m =>
      if IsExpired now m then e = Some ErrExpired /\ contents w' = contents w
      else e = None /\ contents w' = <[id := if decide (mStatus m = StatusUnread) then with_status StatusRead m else m]> (contents w)
  end.
Proof.
  intros Hok. unfold Read. pose proof (law_get w id Hok) as Hg. destruct (contents w !! id) as [m|] eqn:E; [|by rewrite Hg].
  destruct Hg as (l & -> & Hd & Hh). rewrite Hd. destruct (IsExpired now m); [done|].
  destruct (decide (mStatus m = StatusUnread)) as [Es|Es].
  - rewrite bool_decide_true by done. destruct (law_update w id l (with_status StatusRead m) Hok Hh) as (w' & -> & ? & ? & _); [|done].
    exact (law_id w id m Hok E).
  - rewrite bool_decide_false by done. split; [done|]. split; [done|]. by rewrite insert_id.
Qed.

(** [Claim] on the map. *)
Definition claims (now : Z) (m : Mail T) : option mErr :=
  if IsExpired now m then Some ErrExpired
  else if bool_decide (mStatus m = StatusClaimed) then Some ErrAlreadyClaimed
  else if negb (HasAttachment m) then Some ErrNoAttachment
  else None.

Lemma Claim_spec now id w : ok w -> let '(w', r) := Claim now id w in ok w' /\
  match contents w !! id with
  | None => r = Err ErrNotFound /\ contents w' = contents w
  | Some m =>
      match claims now m with
      | Some e => r = Err e /\ contents w' = contents w
      | None => r = Ok (Attachments m) /\ contents w' = <[id := with_status StatusClaimed m]> (contents w)
      end
  end.
Proof.
  intros Hok. unfold Claim, claim_check, claims. pose proof (law_get w id Hok) as Hg.
  destruct (contents w !! id) as [m|] eqn:E; [|by rewrite Hg]. destruct Hg as (l & -> & Hd & Hh). rewrite Hd.
  destruct (IsExpired now m); [done|]. destruct (bool_decide _); [done|]. destruct (negb _); [done|].
  unfold claim_take. rewrite Hd. destruct (law_update w id l (with_status StatusClaimed m) Hok Hh) as (w' & -> & ? & ? & ->); [|done].
  exact (law_id w id m Hok E).
Qed.

(** ** A history of operations *)

(** Calls that do not overlap: [Claim] holds no lock between its look at the mail and its update, so calls that do can go otherwise
    (see [claim_race]). *)

Inductive op := OSend (m : Mail T) | ORead (id : string) | OClaim (id : string) | ODelete (id : string) | OExpire.

Definition exec (o : Z * op) (w : W) : W * option (string * list T) :=
  let '(now, o) := o in
  match o with
  | OSend m => let '(w, l) := alloc m w in ((Send now l w).1, None)
  | ORead id => ((Read now id w).1, None)
  | OClaim id => let '(w, r) := Claim now id w in (w, match r with Ok a => Some (id, a) | Err _ => None end)
  | ODelete id => ((Delete id w).1, None)
  | OExpire => ((DeleteExpired now w).1, None)
  end.

(** The attachments handed out, by mail. *)
Fixpoint handed (ops : list (Z * op)) (w : W) : list (string * list T) :=
  match ops with
  | [] => []
  | o :: ops => let '(w, r) := exec o w in match r with Some x => x :: handed ops w | None => handed ops w end
  end.

Definition sends (id : string) (o : Z * op) : Prop := match o.2 with OSend m => ID m = id | _ => False end.

(** What can become of a mail that is not sent again. *)
Definition later (m m' : option (Mail T)) : Prop :=
  match m' with
  | None => True
  | Some m' => exists m0, m = Some m0 /\ Attachments m' = Attachments m0 /\ (mStatus m0 = StatusClaimed -> mStatus m' = StatusClaimed)
  end.

Lemma later_refl m : later m m.
Proof. destruct m as [m|]; [by exists m|done]. Qed.

Lemma exec_later o w id : ok w -> ~ sends id o -> let '(w', r) := exec o w in ok w' /\
  later (contents w !! id) (contents w' !! id) /\
  match r with
  | Some (id', a) => exists m, contents w !! id' = Some m /\ a = Attachments m /\ mStatus m <> StatusClaimed /\
      contents w' !! id' = Some (with_status StatusClaimed m)
  | None => True
  end.
Proof.
  intros Hok Hn. destruct o as [now [m|id'|id'|id'|]]; cbn [exec].
  - pose proof (law_alloc w m Hok) as Ha. destruct (alloc m w) as [w1 l]. destruct Ha as (H1 & H2 & H3 & H4).
    pose proof (Send_spec now l w1 H1 H3) as Hs. cbv zeta in Hs. destruct (Send now l w1) as [w2 e]. cbn [fst].
    destruct Hs as [Hok2 Hs]. split; [done|]. split; [|done]. rewrite H2, H4 in Hs. destruct (_ <=? _); destruct Hs as [_ ->].
    + apply later_refl.
    + change (ID (stamp now m)) with (ID m). rewrite lookup_insert_ne by done. apply later_refl.
  - pose proof (Read_spec now id' w Hok) as Hs. destruct (Read now id' w) as [w' e]. cbn [fst]. destruct Hs as [Hok' Hs].
    split; [done|]. split; [|done]. destruct (contents w !! id') as [m|] eqn:E; [|destruct Hs as [_ ->]; apply later_refl].
    destruct (IsExpired now m); destruct Hs as [_ ->]; [apply later_refl|].
    destruct (decide (id' = id)) as [<-|Hd]; [|rewrite lookup_insert_ne by done; apply later_refl].
    rewrite lookup_insert_eq. exists m. split; [done|]. destruct (decide (mStatus m = StatusUnread)); [|done].
    split; [done|]. congruence.
  - pose proof (Claim_spec now id' w Hok) as Hs. destruct (Claim now id' w) as [w' r]. destruct Hs as [Hok' Hs].
    split; [done|]. destruct (contents w !! id') as [m|] eqn:E; [|destruct Hs as [-> ->]; split; [apply later_refl|done]].
    destruct (claims now m) as [e|] eqn:Ec; [destruct Hs as [-> ->]; split; [apply later_refl|done]|]. destruct Hs as [-> ->]. split.
    + destruct (decide (id' = id)) as [<-|Hd]; [|rewrite lookup_insert_ne by done; apply later_refl].
      rewrite lookup_insert_eq. by exists m.
    + exists m. split_and!; [done|done| |apply lookup_insert_eq]. unfold claims in Ec.
      destruct (IsExpired now m); [done|]. case_bool_decide; done.
  - pose proof (law_delete w id' Hok) as Hs. unfold Delete. destruct (sDelete id' w) as [w' e]. cbn [fst]. destruct Hs as [Hok' Hs].
    split; [done|]. split; [|done]. destruct (contents w !! id') eqn:E; destruct Hs as [_ ->]; [|apply later_refl].
    destruct (decide (id' = id)) as [<-|Hd]; [by rewrite lookup_delete_eq|rewrite lookup_delete_ne by done; apply later_refl].
  - pose proof (law_expired w now Hok) as Hs. unfold DeleteExpired. destruct (sDeleteExpired now w) as [w' e]. cbn [fst].
    destruct Hs as (Hok' & _ & ->). split; [done|]. split; [|done]. destruct (filter _ _ !! id) as [m'|] eqn:E; [|done].
    apply map_lookup_filter_Some in E as [E _]. rewrite E. by exists m'.
Qed.

Lemma exec_ok o w : ok w -> ok (exec o w).1.
Proof.
  intros Hw. set (id := match o.2 with OSend m => ID m | _ => ""%string end).
  assert (exists i, i <> id) as [i Hi] by (destruct (decide (id = ""%string)) as [->|]; [by exists "x"%string|by exists ""%string]).
  pose proof (exec_later o w i Hw) as H. destruct (exec o w) as [w' r]. apply H. subst id. unfold sends. destruct o as [? []]; cbn in *; done || congruence.
Qed.

Definition of_id (id : string) (x : string * list T) : bool := bool_decide (x.1 = id).

Lemma none_left id ops : Forall (fun o => ~ sends id o) ops -> forall w, ok w ->
  (forall m, contents w !! id = Some m -> mStatus m = StatusClaimed) -> List.filter (of_id id) (handed ops w) = [].
Proof.
  induction 1 as [|o ops Ho _ IH]; intros w Hok Hc; [done|]. cbn [handed]. pose proof (exec_later o w id Hok Ho) as He.
  destruct (exec o w) as [w' r]. destruct He as (Hok' & Hl & Hr).
  assert (List.filter (of_id id) (handed ops w') = []) as Hrest.
  { apply IH; [done|]. intros m' Hm'. unfold later in Hl. rewrite Hm' in Hl. destruct Hl as (m0 & Hm0 & _ & Hs). by apply Hs, Hc. }
  destruct r as [[id' a]|]; [|exact Hrest]. cbn [List.filter]. destruct (of_id id (id', a)) eqn:Eid; [|exact Hrest].
  apply bool_decide_eq_true in Eid as [= ->]. destruct Hr as (m & Hm & _ & Hs & _). by apply Hc in Hm.
Qed.

(** Over any history of sends, reads, claims, deletions and expiries that do not overlap, on a store that keeps its
    laws, the attachments of a mail that is not sent again are handed out at most once, and they are
    those it was sent with. *)
Theorem claimed_once ops w id : ok w -> Forall (fun o => ~ sends id o) ops ->
  let hs := List.filter (of_id id) (handed ops w) in
  hs = [] \/ exists m, contents w !! id = Some m /\ mStatus m <> StatusClaimed /\ hs = [(id, Attachments m)].
Proof.
  intros Hok Hall. revert w Hok. induction Hall as [|o ops Ho Hops IH]; intros w Hok; [by left|]. cbn [handed].
  pose proof (exec_later o w id Hok Ho) as He. destruct (exec o w) as [w' r]. destruct He as (Hok' & Hl & Hr).
  assert (List.filter (of_id id) (handed ops w') = [] \/ exists m, contents w !! id = Some m /\ mStatus m <> StatusClaimed /\
    List.filter (of_id id) (handed ops w') = [(id, Attachments m)]) as Hrest.
  { destruct (IH w' Hok') as [?|(m' & Hm' & Hs & E)]; [by left|right]. unfold later in Hl. rewrite Hm' in Hl.
    destruct Hl as (m0 & Hm0 & Ha & Hc). exists m0. rewrite <- Ha. split_and!; [done|naive_solver|done]. }
  destruct r as [[id' a]|]; [|exact Hrest]. cbn [List.filter]. destruct (of_id id (id', a)) eqn:Eid; [|exact Hrest].
  apply bool_decide_eq_true in Eid as [= ->]. destruct Hr as (m & Hm & -> & Hs & Hc). right. exists m. split_and!; [done|done|].
  rewrite none_left; [done|done|done|]. intros m' Hm'. rewrite Hc in Hm'. by injection Hm' as <-.
Qed.

End mailbox.

(** * The store in memory *)

(** The heap, the pointers in use, and the fields of [MemoryStore]. *)
Record world := MkWorld { heap : loc -> Mail T; next : loc; mails : gmap string loc; order : list string }.

Definition mSave (l : loc) (w : world) : world * option mErr :=
  let id := ID (heap w l) in
  let ord := match mails w !! id with None => order w ++ [id] | Some _ => order w end in
  (MkWorld (heap w) (next w) (<[id := l]> (mails w)) ord, None).

Definition mGet (id : string) (w : world) : result mErr loc :=
  match mails w !! id with None => Err ErrNotFound | Some l => Ok l end.

Definition mUpdate (l : loc) (w : world) : world * option mErr :=
  let id := ID (heap w l) in
  match mails w !! id with
  | None => (w, Some ErrNotFound)
  | Some _ => (MkWorld (heap w) (next w) (<[id := l]> (mails w)) (order w), None)
  end.

(** The first occurrence is cut out of the order. *)
Fixpoint cut (id : string) (ord : list string) : list string :=
  match ord with [] => [] | oid :: ord => if String.eqb oid id then ord else oid :: cut id ord end.

Definition mDelete (id : string) (w : world) : world * option mErr :=
  match mails w !! id with
  | None => (w, Some ErrNotFound)
  | Some _ => (MkWorld (heap w) (next w) (delete id (mails w)) (cut id (order w)), None)
  end.

Definition status_less (h : loc -> Mail T) (a b : loc) : bool := status_rank (mStatus (h a)) <? status_rank (mStatus (h b)).

Fixpoint sort_inner (j : nat) (h : loc -> Mail T) (ls : list loc) : go (list loc) :=
  match j with
  | O => Ret ls
  | S j' =>
      b ← lessAt (status_less h) ls (Z.of_nat j) (Z.of_nat j');
      if b : bool then ls ← swap ls (Z.of_nat j) (Z.of_nat j'); sort_inner j' h ls else Ret ls
  end.
Fixpoint sort_outer (k i : nat) (h : loc -> Mail T) (ls : list loc) : go (list loc) :=
  match k with
  | O => Ret ls
  | S k => ls ← sort_inner i h ls; sort_outer k (S i) h ls
  end.
Definition sortByStatus (h : loc -> Mail T) (ls : list loc) : go (list loc) := sort_outer (length ls - 1) 1 h ls.

(** The loop over the order: an identifier that is not in the map is a nil pointer. *)
Fixpoint list_loop (r : string) (f : Filter) (w : world) (ids : list string) : go (list loc) :=
  match ids with
  | [] => Ret []
  | id :: ids =>
      match mails w !! id with
      | None => Panic "runtime error: invalid memory address or nil pointer dereference"
      | Some l =>
          rest ← list_loop r f w ids;
          Ret (if negb (bool_decide (RecipientID (heap w l) = r)) then rest
               else if (0 <? Z.of_nat (length (StatusIn f))) && negb (bool_decide (mStatus (heap w l) ∈ StatusIn f)) then rest
               else l :: rest)
      end
  end.

Definition mList (r : string) (f : Filter) (w : world) : go (result mErr (list loc)) :=
  res ← list_loop r f w (order w);
  res ← sortByStatus (heap w) res;
  let page :=
    if 0 <? Offset f then
      if Z.of_nat (length res) <=? Offset f then None else Some (drop (Z.to_nat (Offset f)) res)
    else Some res in
  Ret (Ok (match page with
           | None => []
           | Some res => if (0 <? Limit f) && (Limit f <? Z.of_nat (length res)) then take (Z.to_nat (Limit f)) res else res
           end)).

Definition mCountByStatus (r : string) (s : Status) (w : world) : result mErr Z :=
  Ok (Z.of_nat (size (filter (fun '(_, l) => mine_in r s (heap w l) = true) (mails w)))).

Definition mDeleteExpired (now : Z) (w : world) : world * result mErr Z :=
  let n := Z.of_nat (size (filter (fun '(_, l) => IsExpired now (heap w l) = true) (mails w))) in
  let m := filter (fun '(_, l) => IsExpired now (heap w l) = false) (mails w) in
  (MkWorld (heap w) (next w) m
     (if 0 <? n then filter (fun id => is_Some (m !! id)) (order w) else order w), Ok n).

#[export] Instance memory_store : Store world := {|
  deref w l := heap w l;
  assign l m w := MkWorld (fun k => if decide (k = l) then m else heap w k) (next w) (mails w) (order w);
  alloc m w := (MkWorld (fun k => if decide (k = next w) then m else heap w k) (S (next w)) (mails w) (order w), next w);
  sSave := mSave; sGet := mGet; sUpdate := mUpdate; sDelete := mDelete; sList := mList;
  sCountByStatus := mCountByStatus; sDeleteExpired := mDeleteExpired
|}.

(** Every pointer stored is to a mail of its identifier, and the order lists the identifiers once. *)
Record world_ok (w : world) : Prop := {
  w_id : forall id l, mails w !! id = Some l -> ID (heap w l) = id /\ (l < next w)%nat;
  w_nodup : NoDup (order w);
  w_order : forall id, id ∈ order w <-> mails w !! id <> None
}.

Definition world_contents (w : world) : gmap string (Mail T) := heap w <$> mails w.
Definition world_loose (l : loc) (w : world) : Prop := (l < next w)%nat /\ forall id, mails w !! id <> Some l.

Lemma contents_ext h h' (ms : gmap string loc) : (forall id l, ms !! id = Some l -> h l = h' l) -> h <$> ms = h' <$> ms :> gmap string (Mail T).
Proof.
  intros H. apply map_eq. intros id. rewrite !lookup_fmap. destruct (ms !! id) as [l|] eqn:E; [|done]. cbn. f_equal. by eapply H.
Qed.

Lemma cut_elem id ord x : NoDup ord -> x ∈ cut id ord <-> x ∈ ord /\ x <> id.
Proof.
  induction 1 as [|y ord Hy Hn IH]; cbn [cut]; [set_solver|]. destruct (String.eqb_spec y id) as [->|Hd].
  - split; [intros Hx; split; [set_solver|congruence]|intros [Hx Hne]; set_solver].
  - rewrite !elem_of_cons, IH. naive_solver.
Qed.
Lemma cut_nodup id ord : NoDup ord -> NoDup (cut id ord).
Proof.
  intros Hn. induction Hn as [|y ord Hy Hn IH]; cbn [cut]; [constructor|]. destruct (String.eqb_spec y id); [done|].
  constructor; [|done]. rewrite cut_elem by done. naive_solver.
Qed.

Lemma elem_cons_other x y (l : list string) : x <> y -> x ∈ y :: l <-> x ∈ l.
Proof. rewrite elem_of_cons. naive_solver. Qed.

Lemma count_contents (P : Mail T -> bool) w :
  Z.of_nat (size (filter (fun '(_, l) => P (heap w l) = true) (mails w))) = count P (world_contents w).
Proof. unfold count, world_contents. by rewrite map_filter_fmap, map_size_fmap. Qed.

Lemma assign_ok l m w : world_ok w -> world_loose l w ->
  let w' := assign l m w in world_ok w' /\ world_contents w' = world_contents w /\ world_loose l w' /\ deref w' l = m.
Proof.
  intros [Hi Hn Ho] [Hl Hx]. cbn. split_and!.
  - split; [|done|done]. cbn. intros id k E. rewrite decide_False by (intros ->; by apply (Hx id)). by apply Hi.
  - apply contents_ext. intros id k E. cbn. by rewrite decide_False by (intros ->; by apply (Hx id)).
  - done.
  - by rewrite decide_True.
Qed.

Lemma alloc_ok m w : world_ok w ->
  let '(w', l) := alloc m w in world_ok w' /\ world_contents w' = world_contents w /\ world_loose l w' /\ deref w' l = m.
Proof.
  intros [Hi Hn Ho]. cbn. split_and!.
  - split; [|done|done]. cbn. intros id k E. destruct (Hi id k E). rewrite decide_False by lia. split; [done|lia].
  - apply contents_ext. intros id k E. cbn. destruct (Hi id k E). by rewrite decide_False by lia.
  - split; cbn; [lia|]. intros id E. destruct (Hi id _ E). lia.
  - by rewrite decide_True.
Qed.

Lemma save_ok l w : world_ok w -> world_loose l w -> exists w', mSave l w = (w', None) /\ world_ok w' /\
  world_contents w' = <[ID (heap w l) := heap w l]> (world_contents w).
Proof.
  intros [Hi Hn Ho] [Hl Hx]. eexists. split; [done|]. split; [split; cbn|].
  - intros id k. rewrite lookup_insert_Some. intros [[<- <-]|[_ E]]; [done|by apply Hi].
  - destruct (mails w !! ID (heap w l)) eqn:E; [done|]. apply NoDup_app. split_and!; [done| |apply NoDup_singleton].
    intros x Hx' ->%list_elem_of_singleton. by apply Ho in Hx'.
  - intros id. destruct (decide (ID (heap w l) = id)) as [<-|Hd].
    + rewrite lookup_insert_eq. split; [done|]. intros _. destruct (mails w !! ID (heap w l)) eqn:E; [|set_solver].
      apply Ho. by rewrite E.
    + rewrite lookup_insert_ne by done. rewrite <- Ho. destruct (mails w !! ID (heap w l)); set_solver.
  - unfold world_contents. cbn. by rewrite fmap_insert.
Qed.

Lemma update_ok w id l m : world_ok w -> mails w !! id = Some l -> ID m = id ->
  exists w', mUpdate l (assign l m w) = (w', None) /\ world_ok w' /\
  world_contents w' = <[id := m]> (world_contents w) /\ heap w' l = m.
Proof.
  intros [Hi Hn Ho] Hl Hid. unfold mUpdate. cbn. rewrite decide_True, Hid, Hl by done. eexists. split; [done|].
  cbn. rewrite (insert_id (mails w)) by done. split_and!.
  - split; [|done|done]. cbn. intros id' k E. destruct (Hi id' k E) as [H1 H2]. split; [|done].
    destruct (decide (k = l)) as [->|]; [|done]. destruct (Hi id l Hl). congruence.
  - unfold world_contents. cbn. rewrite <- (insert_id (mails w) id l Hl) at 1. rewrite fmap_insert, decide_True by done.
    apply map_eq. intros id'. destruct (decide (id = id')) as [<-|Hd]; [by rewrite !lookup_insert_eq|].
    rewrite !lookup_insert_ne, !lookup_fmap by done. destruct (mails w !! id') as [k|] eqn:E; [|done]. cbn. f_equal.
    destruct (decide (k = l)) as [->|]; [|done]. destruct (Hi id l Hl), (Hi id' l E). congruence.
  - by rewrite decide_True.
Qed.

Lemma delete_ok w id : world_ok w -> let '(w', e) := mDelete id w in world_ok w' /\
  match world_contents w !! id with
  | None => e = Some ErrNotFound /\ world_contents w' = world_contents w
  | Some _ => e = None /\ world_contents w' = delete id (world_contents w)
  end.
Proof.
  intros Hw. unfold mDelete, world_contents. rewrite lookup_fmap. destruct (mails w !! id) as [l|] eqn:E; [|done].
  cbn [fmap option_fmap option_map]. destruct Hw as [Hi Hn Ho]. split; [split; cbn|split; [done|cbn; by rewrite fmap_delete]].
  - intros id' k [_ E']%lookup_delete_Some. by apply Hi.
  - by apply cut_nodup.
  - intros id'. rewrite cut_elem, Ho by done. destruct (decide (id = id')) as [<-|Hd].
    + rewrite lookup_delete_eq. naive_solver.
    + rewrite lookup_delete_ne by done. naive_solver.
Qed.

Lemma expired_ok w now : world_ok w -> let '(w', n) := mDeleteExpired now w in world_ok w' /\
  n = Ok (count (IsExpired now) (world_contents w)) /\
  world_contents w' = filter (fun '(_, m) => IsExpired now m = false) (world_contents w).
Proof.
  intros [Hi Hn Ho]. unfold mDeleteExpired. rewrite (count_contents (IsExpired now)). split; [|split; [done|]].
  2:{ unfold world_contents. cbn. by rewrite map_filter_fmap. }
  set (keep := filter (fun '(_, l) => IsExpired now (heap w l) = false) (mails w)).
  destruct (Z.ltb_spec 0 (count (IsExpired now) (world_contents w))) as [Hc|Hc]; split; cbn.
  - intros id l [E _]%map_lookup_filter_Some. by apply Hi.
  - by apply NoDup_filter.
  - intros id. rewrite list_elem_of_filter, Ho. fold keep. destruct (keep !! id) as [l|] eqn:E; [|split; [by intros [[? [=]] _]|done]].
    apply map_lookup_filter_Some in E as [E _]. rewrite E. split; [done|]. by split; [eexists|].
  - intros id l [E _]%map_lookup_filter_Some. by apply Hi.
  - done.
  - intros id. rewrite Ho. enough (keep = mails w) as -> by done. apply map_filter_id. intros i l E.
    rewrite <- (count_contents (IsExpired now)) in Hc. destruct (IsExpired now (heap w l)) eqn:Ex; [|done].
    assert (filter (fun '(_, l) => IsExpired now (heap w l) = true) (mails w) = ∅) as H0 by (apply map_size_empty_inv; lia).
    by eapply map_filter_empty_not_lookup with (i := i) (x := l) in H0.
Qed.

#[export] Program Instance memory_laws : StoreLaws world := {|
  ok := world_ok; contents := world_contents; loose := world_loose; held id l w := mails w !! id = Some l
|}.
Next Obligation.
  intros w id m Hw E. unfold world_contents in E. rewrite lookup_fmap in E. destruct (mails w !! id) as [l|] eqn:El; [|done].
  injection E as <-. by apply (w_id w Hw).
Qed.
Next Obligation. exact (fun w m => alloc_ok m w). Qed.
Next Obligation. exact (fun w l m => assign_ok l m w). Qed.
Next Obligation. exact (fun w l => save_ok l w). Qed.
Next Obligation.
  intros w id Hw. unfold world_contents. rewrite lookup_fmap. cbn. unfold mGet.
  destruct (mails w !! id) as [l|] eqn:E; [|done]. by exists l.
Qed.
Next Obligation. exact update_ok. Qed.
Next Obligation. exact delete_ok. Qed.
Next Obligation. intros w r s _. cbn. unfold mCountByStatus. by rewrite (count_contents (mine_in r s)). Qed.
Next Obligation. exact expired_ok. Qed.

(** ** The order of a page *)

Lemma swapN_between {A} (a : list A) y x c :
  swapN (a ++ y :: x :: c) (length (a ++ [y])) (length a) = a ++ x :: y :: c.
Proof.
  unfold swapN. rewrite length_app. cbn [length]. rewrite !lookup_app_r by lia.
  replace (length a + 1 - length a)%nat with 1%nat by lia. replace (length a - length a)%nat with 0%nat by lia. cbn [lookup list_lookup].
  rewrite insert_app_r_alt by lia. replace (length a + 1 - length a)%nat with 1%nat by lia.
  rewrite insert_app_r_alt by lia. by replace (length a - length a)%nat with 0%nat by lia.
Qed.

Lemma sort_inner_cons k h ls : sort_inner (S k) h ls = (b ← lessAt (status_less h) ls (Z.of_nat (S k)) (Z.of_nat k);
  if b : bool then ls ← swap ls (Z.of_nat (S k)) (Z.of_nat k); sort_inner k h ls else Ret ls).
Proof. done. Qed.

(** One element sinks past those that are greater and stops at one that is not. *)
Lemma sort_inner_insert h a b x post : (forall y, y ∈ b -> status_less h x y = true) ->
  (forall y, last a = Some y -> status_less h x y = false) ->
  sort_inner (length (a ++ b)) h (a ++ b ++ x :: post) = Ret (a ++ x :: b ++ post).
Proof.
  intros Hb Ha. revert post. induction b as [|y b IH] using rev_ind; intros post.
  - rewrite app_nil_r. cbn [app]. destruct a as [|z a _] using rev_ind; [done|].
    rewrite length_app, Nat.add_1_r, sort_inner_cons. rewrite <- app_assoc. cbn [app].
    rewrite (lessAt_lookup _ _ (S (length a)) (length a) x z).
    + cbn [mbind go_bind]. by rewrite (Ha z) by apply last_snoc.
    + rewrite lookup_app_r by lia. by replace (S (length a) - length a)%nat with 1%nat by lia.
    + by apply list_lookup_middle.
  - replace (a ++ (b ++ [y]) ++ x :: post) with ((a ++ b) ++ y :: x :: post) by (by rewrite <- !app_assoc).
    rewrite app_assoc, length_app, Nat.add_1_r, sort_inner_cons.
    rewrite (lessAt_lookup _ _ (S (length (a ++ b))) (length (a ++ b)) x y).
    + cbn [mbind go_bind]. rewrite Hb by set_solver. rewrite swap_swapN by (rewrite !length_app; cbn [length]; lia).
      cbn [mbind go_bind]. pose proof (swapN_between (a ++ b) y x post) as Hs. rewrite length_app, Nat.add_1_r in Hs. rewrite Hs.
      rewrite <- app_assoc, IH by set_solver. by rewrite <- app_assoc.
    + rewrite lookup_app_r by lia. by replace (S (length (a ++ b)) - length (a ++ b))%nat with 1%nat by lia.
    + by apply list_lookup_middle.
Qed.

Definition of_status (h : loc -> Mail T) (s : Status) (ls : list loc) : list loc :=
  List.filter (fun l => bool_decide (mStatus (h l) = s)) ls.

(** The unread, then the read, then the claimed, each in the order they had. *)
Definition by_status (h : loc -> Mail T) (ls : list loc) : list loc :=
  of_status h StatusUnread ls ++ of_status h StatusRead ls ++ of_status h StatusClaimed ls.

Lemma of_status_elem h s ls l : l ∈ of_status h s ls <-> l ∈ ls /\ mStatus (h l) = s.
Proof. unfold of_status. rewrite !list_elem_of_In, filter_In, bool_decide_eq_true. done. Qed.

Lemma of_status_snoc h s ls x : of_status h s (ls ++ [x]) = of_status h s ls ++ (if decide (mStatus (h x) = s) then [x] else []).
Proof. unfold of_status. rewrite List.filter_app. cbn [List.filter]. by case_decide; [rewrite bool_decide_true|rewrite bool_decide_false]. Qed.

Lemma length_by_status h ls : length (by_status h ls) = length ls.
Proof.
  unfold by_status, of_status. rewrite !length_app. induction ls as [|l ls IH]; [done|]. cbn [List.filter].
  destruct (mStatus (h l)); repeat (case_bool_decide; try done); cbn [length]; lia.
Qed.

Lemma last_elem {A} (l : list A) y : last l = Some y -> y ∈ l.
Proof. intros [l' ->]%last_Some. set_solver. Qed.

Lemma sort_insert_by_status h ls x post :
  sort_inner (length ls) h (by_status h ls ++ x :: post) = Ret (by_status h (ls ++ [x]) ++ post).
Proof.
  rewrite <- (length_by_status h ls). unfold by_status. rewrite !of_status_snoc.
  set (u := of_status h StatusUnread ls). set (r := of_status h StatusRead ls). set (c := of_status h StatusClaimed ls).
  assert (forall s l, l ∈ of_status h s ls -> status_less h x l = (status_rank (mStatus (h x)) <? status_rank s)) as Hl
    by (intros s l [_ <-]%of_status_elem; done).
  destruct (mStatus (h x)) eqn:Ex; rewrite ?decide_True, ?decide_False, ?app_nil_r by done.
  - pose proof (sort_inner_insert h u (r ++ c) x post) as Hs. rewrite <- ?app_assoc in Hs. rewrite <- ?app_assoc. cbn [app]. apply Hs.
    + intros y [Hy|Hy]%elem_of_app; by rewrite (Hl _ y Hy).
    + intros y Hy%last_elem. by rewrite (Hl _ y Hy).
  - pose proof (sort_inner_insert h (u ++ r) c x post) as Hs. rewrite <- ?app_assoc in Hs. rewrite <- ?app_assoc. cbn [app]. apply Hs.
    + intros y Hy. by rewrite (Hl _ y Hy).
    + intros y [Hy|Hy]%last_elem%elem_of_app; by rewrite (Hl _ y Hy).
  - pose proof (sort_inner_insert h (u ++ r ++ c) [] x post) as Hs. rewrite app_nil_r in Hs. rewrite <- ?app_assoc in Hs. rewrite <- ?app_assoc. cbn [app] in *.
    apply Hs; [set_solver|]. intros y [Hy|[Hy|Hy]%elem_of_app]%last_elem%elem_of_app; by rewrite (Hl _ y Hy).
Qed.

Lemma sort_outer_by_status h post : forall ls, ls <> [] ->
  sort_outer (length post) (length ls) h (by_status h ls ++ post) = Ret (by_status h (ls ++ post)).
Proof.
  induction post as [|x post IH]; intros ls Hls; [by rewrite !app_nil_r|]. cbn [length sort_outer].
  rewrite sort_insert_by_status. cbn [mbind go_bind]. pose proof (IH (ls ++ [x])) as IH'.
  rewrite length_app, Nat.add_1_r, <- app_assoc in IH'. apply IH'. by destruct ls.
Qed.

Lemma sortByStatus_stable h ls : sortByStatus h ls = Ret (by_status h ls).
Proof.
  unfold sortByStatus. destruct ls as [|x ls]; [done|]. cbn [length]. rewrite Nat.sub_succ, Nat.sub_0_r.
  pose proof (sort_outer_by_status h ls [x] ltac:(done)) as Hs. cbn [length app] in Hs. rewrite <- Hs. f_equal.
  unfold by_status, of_status. cbn. by destruct (mStatus (h x)).
Qed.

(** The mails of a recipient in the order they were sent, and the ones a filter selects. *)
Definition selected (r : string) (f : Filter) (w : world) : list loc :=
  List.filter (fun l => bool_decide (RecipientID (heap w l) = r) &&
    (bool_decide (StatusIn f = []) || bool_decide (mStatus (heap w l) ∈ StatusIn f))) (omap (fun id => mails w !! id) (order w)).

Lemma list_loop_selected r f w : world_ok w -> list_loop r f w (order w) = Ret (selected r f w).
Proof.
  intros [_ _ Ho]. unfold selected. assert (forall id, id ∈ order w -> mails w !! id <> None) as H by (intros; by apply Ho).
  clear Ho. revert H. induction (order w) as [|id ids IH]; intros H; [done|]. cbn [list_loop omap list_omap].
  destruct (mails w !! id) as [l|] eqn:E; [|exfalso; eapply (H id); [left|done]]. rewrite IH by (intros; apply H; by right).
  cbn [mbind go_bind List.filter]. f_equal. destruct (bool_decide (RecipientID _ = r)); [|done]. cbn [negb andb].
  destruct (StatusIn f) as [|s ss] eqn:Es; [done|]. rewrite (bool_decide_false (s :: ss = [])) by done.
  replace (0 <? Z.of_nat (length (s :: ss))) with true by (symmetry; apply Z.ltb_lt; cbn [length]; lia). cbn [orb andb].
  by repeat case_bool_decide.
Qed.

(** Skipping and cutting as [Offset] and [Limit] say. *)
Definition paged {A} (f : Filter) (ls : list A) : list A :=
  let ls := drop (Z.to_nat (Offset f)) ls in if 0 <? Limit f then take (Z.to_nat (Limit f)) ls else ls.

(** On every state the calls reach, [List] of the store does not panic, and answers the mails of
    the recipient with a status asked for: the unread, then the read, then the claimed, each in the
    order they were sent, less the first [Offset] and cut to [Limit]. *)
Theorem list_by_status r f w : world_ok w -> mList r f w = Ret (Ok (paged f (by_status (heap w) (selected r f w)))).
Proof.
  intros Hw. unfold mList. rewrite list_loop_selected by done. cbn [mbind go_bind]. rewrite sortByStatus_stable. cbn [mbind go_bind].
  do 2 f_equal. unfold paged. set (ls := by_status _ _). assert (forall k (l : list loc), Z.of_nat (length l) <= k -> take (Z.to_nat k) l = l) as Ht
    by (intros; apply take_ge; lia).
  destruct (Z.ltb_spec 0 (Offset f)) as [E|E].
  - destruct (Z.leb_spec (Z.of_nat (length ls)) (Offset f)) as [E'|E'].
    + rewrite drop_ge by lia. destruct (0 <? Limit f); [by rewrite take_nil|done].
    + destruct (Z.ltb_spec 0 (Limit f)); [|done]. destruct (Z.ltb_spec (Limit f) (Z.of_nat (length (drop (Z.to_nat (Offset f)) ls)))); [done|].
      by rewrite Ht by lia.
  - replace (Z.to_nat (Offset f)) with 0%nat by lia. rewrite drop_0. destruct (Z.ltb_spec 0 (Limit f)); [|done].
    destruct (Z.ltb_spec (Limit f) (Z.of_nat (length ls))); [done|]. by rewrite Ht by lia.
Qed.

(** A store just made. *)
Definition NewMemoryStore (h : loc -> Mail T) : world := MkWorld h 0%nat ∅ [].
Lemma NewMemoryStore_ok h : world_ok (NewMemoryStore h).
Proof. split; cbn; [done|constructor|]. intros id. rewrite lookup_empty. set_solver. Qed.

End mail.

(** * Runs *)

Definition blank : Mail Z := MkMail Z "" "" "" "" "" [] StatusUnread None None.
Definition letter (id r : string) : Mail Z := MkMail Z id r "gm" "" "" [7; 8] StatusUnread None None.
Definition demo_cfg : config := NewMailbox [].
Definition sent (ms : list (Mail Z)) : world :=
  foldl (fun w m => (exec (T := Z) demo_cfg (0, OSend m) w).1) (NewMemoryStore (fun _ => blank)) ms.

Lemma sent_ok ms : world_ok (sent ms).
Proof.
  induction ms as [|m ms IH] using rev_ind; [apply NewMemoryStore_ok|]. unfold sent. rewrite foldl_app.
  exact (exec_ok (T := Z) (W := world) demo_cfg (0, OSend m) (sent ms) IH).
Qed.

Lemma claimed_once_witness :
  let ops : list (Z * @op Z) := [(1, ORead "a"); (2, OClaim "a"); (3, OSend (letter "b" "u")); (4, OClaim "b"); (5, OClaim "a")] in
  let w : @world Z := NewMemoryStore (fun _ => blank) in
  let w1 : @world Z := (exec demo_cfg (0, OSend (letter "a" "u")) w).1 in
  ok w1 /\ List.filter (of_id "a") (handed demo_cfg ops w1) = [("a", [7; 8])] /\
  (List.filter (of_id "a") (handed demo_cfg ops w1) = [] \/ exists m, contents w1 !! "a" = Some m /\ mStatus m <> StatusClaimed /\
    List.filter (of_id "a") (handed demo_cfg ops w1) = [("a", Attachments m)]).
Proof.
  cbv zeta. set (w1 := (exec demo_cfg _ _).1).
  pose proof (exec_ok demo_cfg (0, OSend (letter "a" "u")) (NewMemoryStore (fun _ => blank)) (NewMemoryStore_ok _)) as Hok.
  split_and!; [exact Hok|vm_compute; reflexivity|]. apply (claimed_once demo_cfg); [exact Hok|].
  repeat constructor; cbn; congruence.
Defined.

Lemma list_by_status_witness :
  let w := (exec (T := Z) demo_cfg (1, ORead "a") (sent [letter "a" "u"; letter "b" "v"; letter "c" "u"])).1 in
  world_ok w /\ mList "u" (MkFilter [] 0 0) w = Ret (Ok [2%nat; 0%nat]) /\
  mList "u" (MkFilter [] 0 0) w = Ret (Ok (paged (MkFilter [] 0 0) (by_status (heap w) (selected "u" (MkFilter [] 0 0) w)))).
Proof.
  cbv zeta. pose proof (exec_ok (T := Z) (W := world) demo_cfg (1, ORead "a") _ (sent_ok [letter "a" "u"; letter "b" "v"; letter "c" "u"])) as Hok.
  split_and!; [exact Hok|vm_compute; reflexivity|apply list_by_status; exact Hok].
Defined.

(** Two calls of [Claim] that both look before either takes are both given the attachments, although
    a mail is to be claimed once. *)
Lemma claim_race :
  let w := sent [letter "a" "u"] in
  exists l, claim_check 1 "a" w = Ok l /\ claim_check 1 "a" w = Ok l /\
  let '(w1, r1) := claim_take l w in let '(_, r2) := claim_take l w1 in r1 = Ok [7; 8] /\ r2 = Ok [7; 8].
Proof. exists 0%nat. split_and!; vm_compute; try reflexivity. by split. Qed.
