(* ===== verification/Kvstore.v ===== *)
(** Key-value stores with expiry ([pkg/store/kvstore/kvstore.go]): the interface the distributed modes
    of other components use, what they rely on, and the store in memory that keeps it. *)
From Stdlib Require Import ZArith Lia Bool.
From stdpp Require Import base numbers strings list gmap fin_maps.
From S2P Require Import Prelude.

Open Scope Z_scope.

Definition bytes := list Byte.byte.
#[export] Instance byte_eq_decision : EqDecision Byte.byte := Byte.byte_eq_dec.

Record entry := MkEntry { val : bytes; num : Z; isNum : bool; expiry : Z }.
#[export] Instance entry_eq_dec : EqDecision entry.
Proof. solve_decision. Defined.

Definition alive (e : entry) (now : Z) : bool := (expiry e =? 0) || (now <? expiry e).

(** The entry a key has at a time, when it has one: expired entries count as absent. *)
Definition at_time (t : Z) (c : option entry) : option entry := e ← c; if alive e t then Some e else None.

(** The end of a life that starts [now]. *)
Definition deadline (now ttl : Z) : Z := if 0 <? ttl then wrap64 (now + ttl) else 0.

(** * The interface *)

(** [Store], over a state [W] of the backend; a call may fail with an error. [now] is the clock of
    the backend at the call. *)
Class Store (E W : Type) := {
  Incr : Z -> string -> Z -> Z -> W -> W * result E Z;
  GetInt : Z -> string -> W -> result E (option Z);
  Get : Z -> string -> W -> result E (option bytes);
  Set_ : Z -> string -> bytes -> Z -> W -> W * result E unit;
  SetNX : Z -> string -> bytes -> Z -> W -> W * result E bool;
  TTL : Z -> string -> W -> result E (option Z);
  Delete : Z -> string -> W -> W * result E unit
}.

(** What the interface documents: [view] is what is alive in the store at a time. A call that fails
    may still have taken effect. The times are those of a clock after 1970 that does not overflow. *)
Definition sane (now ttl : Z) : Prop := 0 <= now /\ int64 now /\ int64 (now + ttl).

Section laws.
Context {W : Type} (view : W -> Z -> string -> option entry).

(** From [now] on, [k] has the entry [c] and the other keys what they had. *)
Definition put (now : Z) (k : string) (c : option entry) (w w' : W) : Prop :=
  forall t k', now <= t -> view w' t k' = if decide (k' = k) then at_time t c else view w t k'.
Definition same (now : Z) (w w' : W) : Prop := forall t k, now <= t -> view w' t k = view w t k.

(** The outcome of a call that answers [r] when it succeeds. *)
Definition outcome {E A} (now : Z) (k : string) (c : option entry) (w : W) (r : A) (res : W * result E A) : Prop :=
  match res with
  | (w', Ok a) => a = r /\ put now k c w w'
  | (w', Err _) => put now k c w w' \/ same now w w'
  end.
Definition reads {E A} (r : A) (res : result E A) : Prop := match res with Ok a => a = r | Err _ => True end.
End laws.

Definition bumped (now d ttl : Z) (c : option entry) : entry :=
  match c with
  | Some e => MkEntry (val e) (wrap64 (num e + d)) true (expiry e)
  | None => MkEntry [] (wrap64 d) true (deadline now ttl)
  end.

Class StoreLaws (E W : Type) `{!Store E W} := {
  ok : W -> Prop;
  view : W -> Z -> string -> option entry;
  view_later w t t' k : ok w -> t <= t' -> view w t' k = at_time t' (view w t k);
  law_incr now k d ttl w : ok w -> sane now ttl -> ok (Incr now k d ttl w).1 /\
    outcome view now k (Some (bumped now d ttl (view w now k))) w (num (bumped now d ttl (view w now k))) (Incr now k d ttl w);
  law_getint now k w : ok w -> reads (num <$> view w now k) (GetInt now k w);
  law_get now k w : ok w -> reads (val <$> view w now k) (Get now k w);
  law_set now k v ttl w : ok w -> sane now ttl -> ok (Set_ now k v ttl w).1 /\
    outcome view now k (Some (MkEntry v 0 false (deadline now ttl))) w tt (Set_ now k v ttl w);
  law_setnx now k v ttl w : ok w -> sane now ttl -> ok (SetNX now k v ttl w).1 /\
    match view w now k with
    | Some e => match SetNX now k v ttl w with (w', Ok b) => b = false /\ same view now w w' | (w', Err _) => same view now w w' end
    | None => outcome view now k (Some (MkEntry v 0 false (deadline now ttl))) w true (SetNX now k v ttl w)
    end;
  law_ttl now k w : ok w -> sane now 0 -> reads ((fun e => if expiry e =? 0 then 2 ^ 62 - 1 else expiry e - now) <$> view w now k) (TTL now k w);
  law_delete now k w : ok w -> ok (Delete now k w).1 /\ outcome view now k None w tt (Delete now k w)
}.

(** * The store in memory *)

Record Memory := MkMemory { items : gmap string entry }.
Definition NewMemory : Memory := MkMemory ∅.

(** The entry of a key that is there and alive. *)
Definition fetch (now : Z) (k : string) (m : Memory) : option entry :=
  match items m !! k with Some e => if alive e now then Some e else None | None => None end.

Definition mIncr (now : Z) (k : string) (delta ttl : Z) (m : Memory) : Memory * result Empty_set Z :=
  let e := match fetch now k m with
           | Some e => e
           | None => MkEntry [] 0 true (if 0 <? ttl then wrap64 (now + ttl) else 0)
           end in
  let e := MkEntry (val e) (wrap64 (num e + delta)) true (expiry e) in
  (MkMemory (<[k := e]> (items m)), Ok (num e)).

Definition mGetInt (now : Z) (k : string) (m : Memory) : result Empty_set (option Z) := Ok (num <$> fetch now k m).
Definition mGet (now : Z) (k : string) (m : Memory) : result Empty_set (option bytes) := Ok (val <$> fetch now k m).

Definition mSet (now : Z) (k : string) (v : bytes) (ttl : Z) (m : Memory) : Memory * result Empty_set unit :=
  let exp := if 0 <? ttl then wrap64 (now + ttl) else 0 in
  (MkMemory (<[k := MkEntry v 0 false exp]> (items m)), Ok tt).

Definition mSetNX (now : Z) (k : string) (v : bytes) (ttl : Z) (m : Memory) : Memory * result Empty_set bool :=
  match fetch now k m with
  | Some _ => (m, Ok false)
  | None =>
      let exp := if 0 <? ttl then wrap64 (now + ttl) else 0 in
      (MkMemory (<[k := MkEntry v 0 false exp]> (items m)), Ok true)
  end.

Definition mTTL (now : Z) (k : string) (m : Memory) : result Empty_set (option Z) :=
  Ok ((fun e => if expiry e =? 0 then 2 ^ 62 - 1 else wrap64 (expiry e - now)) <$> fetch now k m).

Definition mDelete (now : Z) (k : string) (m : Memory) : Memory * result Empty_set unit :=
  (MkMemory (delete k (items m)), Ok tt).

(** One round of the cleaner. *)
Definition gc (now : Z) (m : Memory) : Memory :=
  MkMemory (filter (fun '(_, e) => negb ((negb (expiry e =? 0)) && (expiry e <=? now)) = true) (items m)).

#[export] Instance memory_store : Store Empty_set Memory := {|
  Incr := mIncr; GetInt := mGetInt; Get := mGet; Set_ := mSet; SetNX := mSetNX; TTL := mTTL; Delete := mDelete
|}.

(** ** The store in memory keeps the interface *)

(** Entries end at 64-bit times. *)
Definition mem_ok (m : Memory) : Prop := map_Forall (fun _ e => 0 <= expiry e /\ int64 (expiry e)) (items m).

Lemma fetch_at now k m : fetch now k m = at_time now (items m !! k).
Proof. unfold fetch, at_time. by destruct (items m !! k). Qed.

Lemma at_time_later t t' c : t <= t' -> at_time t' c = at_time t' (at_time t c).
Proof.
  intros H. destruct c as [e|]; [|done]. cbn. unfold alive. destruct (Z.eqb_spec (expiry e) 0), (Z.ltb_spec t (expiry e)); cbn; try done;
    unfold alive; rewrite ?(proj2 (Z.eqb_neq _ _)), ?(proj2 (Z.eqb_eq _ _)) by done; cbn; try done; destruct (Z.ltb_spec t' (expiry e)); done || lia.
Qed.

Lemma at_time_alive t c e : at_time t c = Some e -> alive e t = true.
Proof. destruct c as [e'|]; [|done]. cbn. destruct (alive e' t) eqn:E; [|done]. by intros [= <-]. Qed.

Lemma deadline_ok now ttl : sane now ttl -> 0 <= deadline now ttl /\ int64 (deadline now ttl).
Proof.
  intros (H1 & H2 & H3). unfold deadline. destruct (Z.ltb_spec 0 ttl); [|split; [lia|unfold int64; lia]].
  rewrite wrap64_id by done. split; [lia|done].
Qed.

Definition mem_view (m : Memory) (t : Z) (k : string) : option entry := fetch t k m.

Lemma put_insert now k e m : put mem_view now k (Some e) m (MkMemory (<[k := e]> (items m))).
Proof.
  intros t k' _. unfold mem_view. rewrite !fetch_at. cbn [items]. case_decide as E.
  - subst k'. by rewrite lookup_insert_eq.
  - by rewrite lookup_insert_ne.
Qed.

Lemma insert_ok k e m : mem_ok m -> 0 <= expiry e /\ int64 (expiry e) -> mem_ok (MkMemory (<[k := e]> (items m))).
Proof. intros. by apply map_Forall_insert_2. Qed.

Lemma fetch_ok now k m e : mem_ok m -> fetch now k m = Some e -> 0 <= expiry e /\ int64 (expiry e).
Proof.
  intros Hm. unfold fetch. destruct (items m !! k) as [e'|] eqn:E; [|done]. destruct (alive e' now); [|done].
  intros [= <-]. by apply (Hm k).
Qed.

Lemma mIncr_bumped now k d ttl m : mIncr now k d ttl m =
  let e := bumped now d ttl (fetch now k m) in (MkMemory (<[k := e]> (items m)), Ok (num e)).
Proof. unfold mIncr. by destruct (fetch now k m). Qed.

(** A round of the cleaner changes nothing that can be seen from then on. *)
Lemma gc_same now m : same mem_view now m (gc now m).
Proof.
  intros t k Ht. unfold mem_view. rewrite !fetch_at. unfold gc. cbn [items]. rewrite map_lookup_filter.
  destruct (items m !! k) as [e|]; [|done]. cbn. unfold guard. destruct (decide _) as [E|E]; [done|]. cbn.
  unfold alive. destruct (Z.eqb_spec (expiry e) 0), (Z.leb_spec (expiry e) now), (Z.ltb_spec t (expiry e)); cbn in *; done || lia.
Qed.

Lemma gc_ok now m : mem_ok m -> mem_ok (gc now m).
Proof. intros H k e [E _]%map_lookup_filter_Some. by apply (H k). Qed.

#[export] Program Instance memory_laws : StoreLaws Empty_set Memory := {| ok := mem_ok; view := mem_view |}.
Next Obligation. intros m t t' k _ H. unfold mem_view. rewrite !fetch_at. by apply at_time_later. Qed.
Next Obligation.
  intros now k d ttl m Hm Hs. cbn -[mIncr bumped]. unfold mem_view. rewrite mIncr_bumped. split; [|split; [done|apply put_insert]].
  apply insert_ok; [done|]. destruct (fetch now k m) as [e|] eqn:E; cbn; [by eapply fetch_ok|by apply deadline_ok].
Qed.
Next Obligation. done. Qed.
Next Obligation. done. Qed.
Next Obligation.
  intros now k v ttl m Hm Hs. cbn. split; [|split; [done|apply (put_insert now k (MkEntry v 0 false _))]].
  apply insert_ok; [done|by apply deadline_ok].
Qed.
Next Obligation.
  intros now k v ttl m Hm Hs. cbn. unfold mSetNX, mem_view. destruct (fetch now k m) as [e|] eqn:E; cbn; [split; [done|split; [done|intros ???; done]]|].
  split; [|split; [done|apply (put_insert now k (MkEntry v 0 false _))]]. apply insert_ok; [done|by apply deadline_ok].
Qed.
Next Obligation.
  intros now k m Hm (Hn & Hn' & _). cbn. unfold mem_view. destruct (fetch now k m) as [e|] eqn:E; [|done]. cbn. f_equal.
  destruct (Z.eqb_spec (expiry e) 0) as [|Hz]; [done|]. pose proof (fetch_ok _ _ _ _ Hm E) as [H1 H2]. rewrite wrap64_id; [done|].
  rewrite fetch_at in E. apply at_time_alive in E. unfold alive in E. apply orb_true_iff in E as [E|E]; bool_prop; unfold int64 in *; lia.
Qed.
Next Obligation.
  intros now k m Hm. cbn. split; [by apply map_Forall_delete|]. split; [done|]. intros t k' _. unfold mem_view. rewrite !fetch_at. cbn [items].
  case_decide as E; [subst k'; by rewrite lookup_delete_eq|by rewrite lookup_delete_ne].
Qed.

(** A life longer than the clock is over at once: the deadline wraps. *)
Lemma deadline_overflow : exists now ttl, 0 <= now /\ int64 now /\ int64 ttl /\
  (mSet now "k" [] ttl NewMemory).2 = Ok tt /\ fetch now "k" (mSet now "k" [] ttl NewMemory).1 = None.
Proof. exists 1, (2 ^ 63 - 1). split_and!; try (unfold int64; lia); vm_compute; reflexivity. Qed.

(** A store just made is empty. *)
Lemma NewMemory_empty : ok NewMemory /\ forall t k, view NewMemory t k = None.
Proof. split; [apply map_Forall_empty|]. intros t k. cbn. unfold mem_view. by rewrite fetch_at. Qed.

(** * Keys that are taken *)

(** With a store that does not fail: a key written with a lifetime is there until it is over, and
    [SetNX] does not succeed again. *)
Section taken.
Context {W : Type} `{!Store Empty_set W} `{!StoreLaws Empty_set W} (ttl : Z) (Httl : 0 < ttl < 2 ^ 62).

(** The key has an entry until [d] at least. *)
Definition taken (k : string) (d t : Z) (w : W) : Prop := ok w /\ forall t', t <= t' < d -> view w t' k <> None.

Lemma taken_later k d t t' w : t <= t' -> taken k d t w -> taken k d t' w.
Proof. intros Ht [Hok Hv]. split; [done|]. intros. apply Hv. lia. Qed.

Lemma lasting_entry now d v b n t' : 0 <= now < 2 ^ 62 -> d <= now + ttl -> now <= t' < d ->
  at_time t' (Some (MkEntry v n b (deadline now ttl))) <> None.
Proof.
  intros Hn Hd Ht. unfold deadline. destruct (Z.ltb_spec 0 ttl); [|lia]. rewrite wrap64_id by (unfold int64; lia).
  cbn. unfold alive. cbn [expiry]. destruct (Z.ltb_spec t' (now + ttl)); [by rewrite orb_true_r|lia].
Qed.

Lemma taken_put now k k' d v w w' : 0 <= now < 2 ^ 62 -> d <= now + ttl \/ k' <> k -> ok w' -> taken k d now w ->
  put view now k' (Some (MkEntry v 0 false (deadline now ttl))) w w' -> taken k d now w'.
Proof.
  intros Hn Hd Hok [_ Hv] Hp. split; [done|]. intros t' Ht'. rewrite (Hp t' k) by lia. destruct (decide (k = k')) as [->|]; [|apply Hv; lia].
  apply (lasting_entry now d); [lia|by destruct Hd|lia].
Qed.

Lemma setnx_taken now k v w : ok w -> 0 <= now < 2 ^ 62 -> let '(w', r) := SetNX now k v ttl w in ok w' /\
  (r = Ok true /\ view w now k = None /\ taken k (now + ttl) now w' \/ r = Ok false /\ view w now k <> None) /\
  forall k0 d, d <= now + ttl \/ k0 <> k -> taken k0 d now w -> taken k0 d now w'.
Proof.
  intros Hok Hn. assert (sane now ttl) as Hs by (unfold sane, int64; lia).
  destruct (law_setnx (E := Empty_set) now k v ttl w Hok Hs) as [Hok' Hp]. destruct (SetNX now k v ttl w) as [w' [b|[]]]. cbn in Hok'.
  destruct (view w now k) as [e|].
  - destruct Hp as [-> Hsame]. split_and!; [done|by right|]. intros k0 d _ [_ Hv]. split; [done|]. intros t' Ht'. rewrite Hsame by lia. by apply Hv.
  - destruct Hp as [-> Hp]. split_and!; [done| |].
    + left. split_and!; [done|done|]. split; [done|]. intros t' Ht'. rewrite (Hp t' k), decide_True by (done || lia). apply (lasting_entry now (now + ttl)); lia.
    + intros k0 d Hd Ht. eapply (taken_put now k0 k d); try done. destruct Hd; [by left|by right].
Qed.

Lemma set_taken now k v w : ok w -> 0 <= now < 2 ^ 62 -> let '(w', _) := Set_ now k v ttl w in ok w' /\
  forall k0 d, d <= now + ttl \/ k0 <> k -> taken k0 d now w -> taken k0 d now w'.
Proof.
  intros Hok Hn. assert (sane now ttl) as Hs by (unfold sane, int64; lia).
  destruct (law_set (E := Empty_set) now k v ttl w Hok Hs) as [Hok' Hp]. destruct (Set_ now k v ttl w) as [w' [[]|[]]]. destruct Hp as [_ Hp].
  split; [done|]. intros k0 d Hd Ht. eapply (taken_put now k0 k d); try done. destruct Hd; [by left|by right].
Qed.

Lemma delete_taken now k w : ok w -> let '(w', _) := Delete now k w in ok w' /\ forall k0 d, k0 <> k -> taken k0 d now w -> taken k0 d now w'.
Proof.
  intros Hok. destruct (law_delete (E := Empty_set) now k w Hok) as [Hok' Hp]. destruct (Delete now k w) as [w' [[]|[]]]. destruct Hp as [_ Hp].
  split; [done|]. intros k0 d Hd [_ Hv]. split; [done|]. intros t' Ht'. rewrite (Hp t' k0), decide_False by (done || lia). by apply Hv.
Qed.
End taken.
