(* ===== verification/Cooldown.v ===== *)
(** Cooldowns by key ([pkg/resilience/cooldown/cooldown.go]): sixteen maps of times, or the expiring
    keys of a shared store of [Kvstore], which answer alike. *)
From Stdlib Require Import ZArith Lia Bool.
From stdpp Require Import base numbers strings list gmap fin_maps.
From S2P Require Import Prelude Kvstore.

Open Scope Z_scope.

Record config := MkConfig { defaultCD : Z; gcInterval : Z }.
Definition WithGCInterval (d : Z) (c : config) : config := MkConfig (defaultCD c) d.

(** Where the times are: in the maps of the shards, or in the store. *)
Inductive mode (W : Type) := Shards (until : list (gmap string Z)) | External (w : W).
Arguments Shards {_} _.
Arguments External {_} _.

Record Cooldown {W : Type} := MkCooldown { cfg : config; state : mode W }.
Arguments Cooldown : clear implicits.

Section cooldown.
(** [hash] is [maphash.String] under the seed of the process. *)
Context {E W : Type} `{!Store E W} (hash : string -> Z).

Definition New (cd : Z) (opts : list (config -> config)) (store : option W) : Cooldown W :=
  let c := foldl (fun c o => o c) (MkConfig cd (60 * 10 ^ 9)) opts in
  let c := if gcInterval c <=? 0 then MkConfig (defaultCD c) (60 * 10 ^ 9) else c in
  MkCooldown W (MkConfig cd (gcInterval c))
    match store with None => Shards (replicate 16 ∅) | Some w => External w end.

Definition storeKey (key : string) : string := "cd:" +:+ key.

Definition until_of (sh : list (gmap string Z)) (key : string) : Z :=
  default 0 (shard_get hash key sh).
Definition set_until (key : string) (t : Z) (sh : list (gmap string Z)) : list (gmap string Z) :=
  alter <[key := t]> (shard_of hash key) sh.

Definition at_state (m : mode W) (c : Cooldown W) : Cooldown W := MkCooldown W (cfg c) m.

(** The store is called with its own clock, which reads [now] here. *)
Definition Ready (now : Z) (key : string) (c : Cooldown W) : bool :=
  match state c with
  | External w =>
      match TTL now (storeKey key) w with
      | Err _ => true
      | Ok ttl => negb (match ttl with Some _ => true | None => false end)
      end
  | Shards sh => until_of sh key <=? now
  end.

Definition Remaining (now : Z) (key : string) (c : Cooldown W) : Z :=
  match state c with
  | External w =>
      match TTL now (storeKey key) w with
      | Err _ => 0
      | Ok None => 0
      | Ok (Some ttl) => if ttl <? 0 then 0 else ttl
      end
  | Shards sh =>
      let rem := wrap64 (until_of sh key - now) in
      if rem <=? 0 then 0 else rem
  end.

Definition Reset (now : Z) (key : string) (c : Cooldown W) : Cooldown W :=
  match state c with
  | External w => at_state (External (Delete now (storeKey key) w).1) c
  | Shards sh => at_state (Shards (alter (delete key) (shard_of hash key) sh)) c
  end.

Definition TriggerFor (now : Z) (key : string) (cd : Z) (c : Cooldown W) : Cooldown W :=
  match state c with
  | External w =>
      if cd <=? 0 then Reset now key c
      else at_state (External (Set_ now (storeKey key) [Byte.x01] cd w).1) c
  | Shards sh => at_state (Shards (set_until key (wrap64 (now + cd)) sh)) c
  end.

Definition Trigger (now : Z) (key : string) (c : Cooldown W) : Cooldown W := TriggerFor now key (defaultCD (cfg c)) c.

(** The code reads the clock twice, [now] before it takes the lock and [now'] after. *)
Definition TryTriggerFor (now now' : Z) (key : string) (cd : Z) (c : Cooldown W) : Cooldown W * bool :=
  match state c with
  | External w =>
      if cd <=? 0 then (c, true)
      else
        let '(w, r) := SetNX now (storeKey key) [Byte.x01] cd w in
        (at_state (External w) c, match r with Err _ => true | Ok ok => ok end)
  | Shards sh =>
      if now <? until_of sh key then (c, false)
      else (at_state (Shards (set_until key (wrap64 (now' + cd)) sh)) c, true)
  end.

Definition TryTrigger (now now' : Z) (key : string) (c : Cooldown W) : Cooldown W * bool :=
  TryTriggerFor now now' key (defaultCD (cfg c)) c.

(** One round of the cleaner; there is none with a store. *)
Definition gc (now : Z) (c : Cooldown W) : Cooldown W :=
  match state c with
  | External w => c
  | Shards sh => at_state (Shards (filter (fun '(_, u) => (u <=? now) = false) <$> sh)) c
  end.
End cooldown.

(** * What a cooldown promises *)

(** The time at which each key is ready again. *)
Definition next := string -> Z.
Definition upd (k : string) (t : Z) (s : next) : next := fun k' => if decide (k' = k) then t else s k'.

Inductive op := OReady (k : string) | ORemaining (k : string) | OTrigger (k : string) (cd : Z)
  | OTry (k : string) (cd : Z) | OReset (k : string) | OClean.
Inductive answer := ABool (b : bool) | ADuration (d : Z) | ANone.

Definition promise (now : Z) (o : op) (s : next) : next * answer :=
  match o with
  | OReady k => (s, ABool (s k <=? now))
  | ORemaining k => (s, ADuration (Z.max 0 (s k - now)))
  | OTrigger k cd => (upd k (now + cd) s, ANone)
  | OTry k cd => if s k <=? now then (upd k (now + cd) s, ABool true) else (s, ABool false)
  | OReset k => (upd k 0 s, ANone)
  | OClean => (s, ANone)
  end.

(** Durations are below a century, and those of tries are positive. *)
Definition fits (o : op) : Prop := match o with OTrigger _ cd => - 2 ^ 62 <= cd < 2 ^ 62 | OTry _ cd => 0 < cd < 2 ^ 62 | _ => True end.

Section agree.
Context {W : Type} `{!Store Empty_set W} `{!StoreLaws Empty_set W} (hash : string -> Z).

Definition call (now : Z) (o : op) (c : Cooldown W) : Cooldown W * answer :=
  match o with
  | OReady k => (c, ABool (Ready hash now k c))
  | ORemaining k => (c, ADuration (Remaining hash now k c))
  | OTrigger k cd => (TriggerFor hash now k cd c, ANone)
  | OTry k cd => let '(c, b) := TryTriggerFor hash now now k cd c in (c, ABool b)
  | OReset k => (Reset hash now k c, ANone)
  | OClean => (gc now c, ANone)
  end.

(** The maps hold the times, up to those already past. *)
Definition maps_hold (t : Z) (c : Cooldown W) (s : next) : Prop :=
  exists sh, state c = Shards sh /\ length sh = 16%nat /\
  forall k, Z.max t (until_of hash sh k) = Z.max t (s k) /\ - 2 ^ 62 <= until_of hash sh k < 2 ^ 63.

Lemma until_set k k' u sh : length sh = 16%nat ->
  until_of hash (set_until hash k u sh) k' = if decide (k' = k) then u else until_of hash sh k'.
Proof. intros. unfold until_of, set_until. rewrite shard_get_insert by done. by destruct (decide _). Qed.
Lemma until_delete k k' sh : length sh = 16%nat ->
  until_of hash (alter (delete k) (shard_of hash k) sh) k' = if decide (k' = k) then 0 else until_of hash sh k'.
Proof. intros. unfold until_of. rewrite shard_get_delete by done. by destruct (decide _). Qed.
Lemma until_clean now k sh : until_of hash (filter (fun '(_, u) => (u <=? now) = false) <$> sh) k =
  if until_of hash sh k <=? now then 0 else until_of hash sh k.
Proof. unfold until_of. rewrite (shard_get_filter hash (fun u => u <=? now)). destruct (shard_get hash k sh) as [u|]; cbn; by case_match. Qed.

(** The maps with one time changed hold what was promised with that time changed. *)
Lemma maps_hold_upd t now k u sh c s : 0 <= t <= now -> - 2 ^ 62 <= u < 2 ^ 63 -> maps_hold t c s -> state c = Shards sh ->
  maps_hold now (at_state (Shards (set_until hash k u sh)) c) (upd k u s).
Proof.
  intros Ht Hu (sh' & E & Hlen & HR) E'. rewrite E in E'. injection E' as ->. eexists. split; [done|].
  split; [unfold set_until; by rewrite length_alter|]. intros k'. rewrite until_set by done. unfold upd.
  pose proof (HR k'). destruct (decide (k' = k)); lia.
Qed.

Lemma maps_agree t now o c s : 0 <= t <= now -> now < 2 ^ 62 -> fits o -> maps_hold t c s ->
  (call now o c).2 = (promise now o s).2 /\ maps_hold now (call now o c).1 (promise now o s).1.
Proof.
  intros Ht Hn Ho HR. pose proof HR as (sh & E & Hlen & Hk).
  assert (maps_hold now c s) as HR' by (exists sh; split_and!; [done|done|]; intros k; pose proof (Hk k); lia).
  destruct o as [k|k|k cd|k cd|k|]; cbn [call promise fst snd fits] in *.
  - split; [|done]. unfold Ready. rewrite E. f_equal. pose proof (Hk k). destruct (Z.leb_spec (until_of hash sh k) now), (Z.leb_spec (s k) now); lia.
  - split; [|done]. unfold Remaining. rewrite E. f_equal. pose proof (Hk k). rewrite wrap64_id by (unfold int64; lia).
    destruct (Z.leb_spec (until_of hash sh k - now) 0); lia.
  - split; [done|]. unfold TriggerFor. rewrite E, wrap64_id by (unfold int64; lia). by apply (maps_hold_upd t); [lia|lia| |].
  - unfold TryTriggerFor. rewrite E. pose proof (Hk k). destruct (Z.ltb_spec now (until_of hash sh k)), (Z.leb_spec (s k) now); try lia; [done|].
    split; [done|]. rewrite wrap64_id by (unfold int64; lia). by apply (maps_hold_upd t); [lia|lia| |].
  - split; [done|]. unfold Reset. rewrite E. eexists. split; [done|]. split; [by rewrite length_alter|]. intros k'.
    rewrite until_delete by done. unfold upd. pose proof (Hk k'). destruct (decide (k' = k)); lia.
  - split; [done|]. unfold gc. rewrite E. eexists. split; [done|]. split; [by rewrite length_fmap|]. intros k.
    rewrite until_clean. pose proof (Hk k). destruct (Z.leb_spec (until_of hash sh k) now); lia.
Qed.

(** The store has an entry for the keys that are not ready. *)
Definition store_holds (t : Z) (c : Cooldown W) (s : next) : Prop :=
  exists w, state c = External w /\ ok w /\ forall k, s k < 2 ^ 63 /\
  view w t (storeKey k) = if s k <=? t then None else Some (MkEntry [Byte.x01] 0 false (s k)).

Lemma storeKey_inj k k' : storeKey k = storeKey k' -> k = k'.
Proof. intros H. injection H as H. exact H. Qed.

Lemma alive_entry v u t : 0 <= t < u -> forall t', t <= t' -> at_time t' (Some (MkEntry v 0 false u)) = if u <=? t' then None else Some (MkEntry v 0 false u).
Proof.
  intros Hu t' Ht. cbn. unfold alive. cbn [expiry]. destruct (Z.eqb_spec u 0), (Z.ltb_spec t' u), (Z.leb_spec u t'); done || lia.
Qed.

Lemma store_holds_later t now w s : 0 <= t <= now -> ok w ->
  (forall k, s k < 2 ^ 63 /\ view w t (storeKey k) = if s k <=? t then None else Some (MkEntry [Byte.x01] 0 false (s k))) ->
  forall k, s k < 2 ^ 63 /\ view w now (storeKey k) = if s k <=? now then None else Some (MkEntry [Byte.x01] 0 false (s k)).
Proof.
  intros Ht Hok Hk k. destruct (Hk k) as [H1 H2]. split; [done|]. rewrite (view_later w t now), H2 by (done || lia).
  destruct (Z.leb_spec (s k) t); [by destruct (Z.leb_spec (s k) now); [|lia]|]. apply (alive_entry _ _ t); lia.
Qed.

(** Writing or deleting the entry of one key. *)
Lemma store_holds_put now k u c w w' s co : 0 <= now -> u < 2 ^ 63 -> ok w' -> put view now (storeKey k) co w w' ->
  at_time now co = (if u <=? now then None else Some (MkEntry [Byte.x01] 0 false u)) ->
  (forall k, s k < 2 ^ 63 /\ view w now (storeKey k) = if s k <=? now then None else Some (MkEntry [Byte.x01] 0 false (s k))) ->
  store_holds now (at_state (External w') c) (upd k u s).
Proof.
  intros Hn Hu Hok Hput Hco Hk. exists w'. split_and!; [done|done|]. intros k'. rewrite (Hput now (storeKey k')) by lia. unfold upd.
  destruct (Hk k') as [H1 H2]. destruct (decide (k' = k)) as [->|Hd].
  - by rewrite decide_True.
  - rewrite decide_False; [done|]. by intros ->%storeKey_inj.
Qed.

Lemma fresh_entry now cd : 0 <= now < 2 ^ 62 -> 0 < cd < 2 ^ 62 ->
  sane now cd /\ at_time now (Some (MkEntry [Byte.x01] 0 false (deadline now cd))) =
  if now + cd <=? now then None else Some (MkEntry [Byte.x01] 0 false (now + cd)).
Proof.
  intros Hn Hc. split; [unfold sane, int64; lia|]. unfold deadline. rewrite (proj2 (Z.ltb_lt 0 cd)), wrap64_id by (unfold int64; lia).
  apply (alive_entry _ _ now); lia.
Qed.

Lemma store_agrees t now o c s : 0 <= t <= now -> now < 2 ^ 62 -> fits o -> store_holds t c s ->
  (call now o c).2 = (promise now o s).2 /\ store_holds now (call now o c).1 (promise now o s).1.
Proof.
  intros Ht Hn Ho (w & E & Hok & Hk0). pose proof (store_holds_later t now w s Ht Hok Hk0) as Hk. clear Hk0.
  assert (store_holds now c s) as HR by (exists w; done).
  assert (forall k u, u <= now -> store_holds now (Reset hash now k c) (upd k u s)) as Hreset.
  { intros k u Hu. unfold Reset. rewrite E. destruct (law_delete (E := Empty_set) now (storeKey k) w Hok) as [Hok' Hd].
    destruct (Delete now (storeKey k) w) as [w' [[]|[]]]. destruct Hd as [_ Hd]. apply (store_holds_put now k u c w w' s None); try done; try lia.
    cbn. by rewrite (proj2 (Z.leb_le _ _)). }
  assert (sane now 0) as Hs by (unfold sane, int64; lia).
  destruct o as [k|k|k cd|k cd|k|]; cbn [call promise fst snd fits] in *.
  - split; [|done]. unfold Ready. rewrite E. pose proof (law_ttl (E := Empty_set) now (storeKey k) w Hok Hs) as Hr.
    destruct (TTL now (storeKey k) w) as [r|[]]. cbn in Hr. rewrite Hr, (proj2 (Hk k)). by destruct (s k <=? now).
  - split; [|done]. unfold Remaining. rewrite E. pose proof (law_ttl (E := Empty_set) now (storeKey k) w Hok Hs) as Hr.
    destruct (TTL now (storeKey k) w) as [r|[]]. cbn in Hr. rewrite Hr, (proj2 (Hk k)).
    destruct (Z.leb_spec (s k) now); cbn; [f_equal; lia|]. destruct (Z.eqb_spec (s k) 0); [lia|].
    destruct (Z.ltb_spec (s k - now) 0); f_equal; lia.
  - split; [done|]. unfold TriggerFor. rewrite E. destruct (Z.leb_spec cd 0); [apply Hreset; lia|].
    destruct (fresh_entry now cd) as [Hsane Hfresh]; [lia|lia|].
    destruct (law_set (E := Empty_set) now (storeKey k) [Byte.x01] cd w Hok Hsane) as [Hok' Hd].
    destruct (Set_ now (storeKey k) [Byte.x01] cd w) as [w' [[]|[]]]. destruct Hd as [_ Hd].
    eapply store_holds_put; try done; lia.
  - unfold TryTriggerFor. rewrite E. rewrite (proj2 (Z.leb_gt cd 0)) by lia. destruct (fresh_entry now cd) as [Hsane Hfresh]; [lia|lia|].
    destruct (law_setnx (E := Empty_set) now (storeKey k) [Byte.x01] cd w Hok Hsane) as [Hok' Hd].
    rewrite (proj2 (Hk k)) in Hd. destruct (SetNX now (storeKey k) [Byte.x01] cd w) as [w' [b|[]]]. cbn in *.
    destruct (Z.leb_spec (s k) now); cbn.
    + destruct Hd as [-> Hd]. split; [done|]. eapply store_holds_put; try done; lia.
    + destruct Hd as [-> Hd]. split; [done|]. exists w'. split_and!; [done|done|]. intros k'. rewrite Hd by lia. apply Hk.
  - split; [done|]. apply Hreset. lia.
  - split; [done|]. unfold gc. by rewrite E.
Qed.

(** The answers of a history, from a cooldown just made over a store with no key of its own. *)
Lemma play_promise c ops : timely fits 0 ops -> maps_hold 0 c (fun _ => 0) \/ store_holds 0 c (fun _ => 0) ->
  play call ops c = play promise ops (fun _ => 0).
Proof.
  intros Hops [HR|HR]; [refine (play_simulates fits call promise maps_hold maps_agree ops 0 c _ _ Hops HR)
    |refine (play_simulates fits call promise store_holds store_agrees ops 0 c _ _ Hops HR)]; lia.
Qed.

Lemma New_maps cd opts : maps_hold 0 (New cd opts None) (fun _ => 0).
Proof.
  eexists. split; [done|]. split; [done|]. intros k. unfold until_of. rewrite shard_get_empty. cbn. lia.
Qed.
Lemma New_store cd opts w : ok w -> (forall k, view w 0 (storeKey k) = None) -> store_holds 0 (New cd opts (Some w)) (fun _ => 0).
Proof. intros Hok Hv. exists w. split_and!; [done|done|]. intros k. split; [lia|]. by rewrite Hv. Qed.

(** C38: With a store that does not fail, a cooldown answers every history of calls as it does in
    memory, the cleaner running at any time: for clocks that do not step back, calls below a century,
    and tries with a positive duration. *)
Theorem modes_agree cd opts cd' opts' w ops : ok w -> (forall k, view w 0 (storeKey k) = None) -> timely fits 0 ops ->
  play call ops (New cd opts (Some w)) = play call ops (New cd' opts' None).
Proof.
  intros Hok Hv Hops. rewrite !play_promise; [done|done|left; apply New_maps|done|right; by apply New_store].
Qed.
End agree.

(** * Tries that succeed are apart *)

(** In what a cooldown promises: until a key is reset or triggered, tries of it that succeed are
    apart by the duration of the first. *)
Fixpoint quiet (k : string) (ops : list (Z * op)) : Prop :=
  match ops with
  | [] => True
  | (_, o) :: ops => match o with OTrigger k' _ | OReset k' => k' <> k | _ => True end /\ quiet k ops
  end.

Lemma promise_waits k ops : quiet k ops -> forall t s u now cd, timely fits t ops -> s k = u ->
  forall n, ops !! n = Some (now, OTry k cd) -> play promise ops s !! n = Some (ABool true) -> u <= now.
Proof.
  induction ops as [|[now0 o] ops IH]; intros Hq t s u now cd Ht Hs n Hn Ha; [done|]. cbn [quiet timely play] in *.
  destruct Hq as [Ho Hq], Ht as (? & ? & Ht). destruct n as [|n].
  - injection Hn as -> ->. cbn in Ha. rewrite Hs in Ha. destruct (Z.leb_spec u now); [done|]. cbn in Ha. congruence.
  - cbn in Hn. destruct (promise now0 o s) as [s' a] eqn:Ep. cbn in Ha.
    enough (u <= s' k) by (pose proof (IH Hq now0 s' (s' k) now cd Ht eq_refl n Hn Ha); lia).
    destruct o as [k'|k'|k' cd'|k' cd'|k'|]; cbn in Ep; cbn [fits] in *; unfold upd in Ep; try (injection Ep as <- <-; rewrite ?decide_False by congruence; lia).
    destruct (Z.leb_spec (s k') now0); injection Ep as <- <-; [|lia]. destruct (decide (k = k')) as [->|]; [lia|lia].
Qed.

Lemma promise_apart i j ti tj k d d' : (i < j)%nat -> forall ops t s, timely fits t ops ->
  ops !! i = Some (ti, OTry k d) -> ops !! j = Some (tj, OTry k d') -> quiet k (drop (S i) ops) ->
  play promise ops s !! i = Some (ABool true) -> play promise ops s !! j = Some (ABool true) -> ti + d <= tj.
Proof.
  revert j. induction i as [|i IH]; intros j Hij ops t s Ht Hi Hj Hq Hai Haj; (destruct j as [|j]; [lia|]);
    (destruct ops as [|[now o] ops]; [done|]); cbn [play] in *; destruct Ht as (? & ? & Ht);
    destruct (promise now o s) as [s' a] eqn:Ep; cbn [lookup list_lookup] in *.
  - injection Hi as -> ->. cbn in Ep. destruct (s k <=? ti); [|congruence]. injection Ep as <- <-. cbn [drop] in Hq.
    refine (promise_waits k ops Hq ti _ (ti + d) tj d' Ht _ j Hj Haj). unfold upd. by rewrite decide_True.
  - by apply (IH j ltac:(lia) ops now s').
Qed.

Section apart.
Context {W : Type} `{!Store Empty_set W} `{!StoreLaws Empty_set W} (hash : string -> Z).

(** A store without keys of a cooldown, or none. *)
Definition unused (store : option W) : Prop := match store with None => True | Some w => ok w /\ forall k, view w 0 (storeKey k) = None end.

(** In memory and with a store that does not fail, a try that succeeds keeps the later tries of
    its key from succeeding for its duration, unless the key is triggered or reset after it. *)
Theorem tries_apart cd opts store ops i j ti tj k d d' : unused store -> timely fits 0 ops -> (i < j)%nat ->
  ops !! i = Some (ti, OTry k d) -> ops !! j = Some (tj, OTry k d') -> quiet k (drop (S i) ops) ->
  let answers := play (call hash) ops (New cd opts store) in
  answers !! i = Some (ABool true) -> answers !! j = Some (ABool true) -> ti + d <= tj.
Proof.
  intros Hs Ht Hij Hi Hj Hq. cbv zeta. rewrite play_promise; [|done|].
  - by apply (promise_apart i j ti tj k d d' Hij ops 0).
  - destruct store as [w|]; [right; destruct Hs; by apply New_store|left; apply New_maps].
Qed.
End apart.

(** * Runs *)

Definition demo_ops : list (Z * op) :=
  [(10, OTry "a" 5); (12, OTry "a" 5); (13, OReady "b"); (14, ORemaining "a"); (15, OClean); (15, OTry "a" 5); (16, OTrigger "a" 0); (16, OReady "a")].
Definition demo_hash (k : string) : Z := Z.of_nat (String.length k).

Lemma demo_timely : timely fits 0 demo_ops.
Proof. repeat (split; cbn [fits]; try lia). Qed.
Lemma modes_agree_witness :
  play (call demo_hash) demo_ops (New 5 [] (Some NewMemory)) =
    [ABool true; ABool false; ABool true; ADuration 1; ANone; ABool true; ANone; ABool true] /\
  play (call demo_hash) demo_ops (New 5 [] (Some NewMemory)) = play (call demo_hash) demo_ops (New 5 [] None).
Proof.
  split; [vm_compute; reflexivity|].
  apply (modes_agree demo_hash 5 [] 5 [] NewMemory demo_ops (proj1 NewMemory_empty) (fun k => proj2 NewMemory_empty 0 _) demo_timely).
Defined.

Lemma tries_apart_witness :
  let ops := take 6 demo_ops in let answers := play (call demo_hash) ops (New 5 [] (Some NewMemory)) in
  answers !! 0%nat = Some (ABool true) /\ answers !! 5%nat = Some (ABool true) /\ 10 + 5 <= 15.
Proof.
  cbv zeta. split_and!; [vm_compute; reflexivity..|].
  apply (tries_apart (W := Memory) demo_hash 5 [] (Some NewMemory) (take 6 demo_ops) 0 5 10 15 "a" 5 5).
  - split; [apply NewMemory_empty|intros; apply NewMemory_empty].
  - repeat (split; cbn [fits]; try lia).
  - lia.
  - reflexivity.
  - reflexivity.
  - repeat split.
  - vm_compute; reflexivity.
  - vm_compute; reflexivity.
Defined.

(** A try with no duration: in memory it waits for the cooldown, with a store it succeeds. *)
Lemma zero_cd_differs :
  let ops := [(10, OTry "a" 5); (12, OTry "a" 0)] in
  play (call demo_hash) ops (New (W := Memory) 5 [] None) = [ABool true; ABool false] /\
  play (call demo_hash) ops (New 5 [] (Some NewMemory)) = [ABool true; ABool true].
Proof. split; vm_compute; reflexivity. Qed.
