(* ===== verification/Counter.v ===== *)
(** Counters of a sliding window by key ([pkg/resilience/counter/counter.go]): rings of buckets in
    memory, or one expiring count per fixed window in a shared store of [Kvstore]. *)
From Stdlib Require Import ZArith Lia Bool Ascii.
From stdpp Require Import base numbers strings list gmap fin_maps pretty.
From S2P Require Import Prelude Kvstore.

Open Scope Z_scope.

Record config := MkConfig { window : Z; buckets : Z; gcInterval : Z }.
Definition WithBuckets (n : Z) (c : config) : config := MkConfig (window c) n (gcInterval c).
Definition WithGCInterval (d : Z) (c : config) : config := MkConfig (window c) (buckets c) d.

Record keyState := MkKeyState { counts : list Z; bucketAt : list Z; lastSeen : Z }.

(** The counts are in the shards, or in the store. *)
Inductive mode (W : Type) := Shards (sh : list (gmap string keyState)) | External (w : W).
Arguments Shards {_} _.
Arguments External {_} _.

Record Counter {W : Type} := MkCounter { cfg : config; bucketDur : Z; state : mode W }.
Arguments Counter : clear implicits.

Section counter.
(** [now] is the reading of the caller's clock, from which it names the key; [at_] and [later] are those of the store's, when
    the calls of the store take effect. [hash] is [maphash.String] under the seed of the process. *)
Context {E W : Type} `{!Store E W} (hash : string -> Z).

Definition New (w : Z) (opts : list (config -> config)) (store : option W) : Counter W :=
  let c := foldl (fun c o => o c) (MkConfig w 10 0) opts in
  let c := if window c <=? 0 then MkConfig (60 * 10 ^ 9) (buckets c) (gcInterval c) else c in
  let c := if buckets c <=? 0 then MkConfig (window c) 10 (gcInterval c) else c in
  let c := if gcInterval c <=? 0 then MkConfig (window c) (buckets c) (window c) else c in
  let c := if gcInterval c <? 10 ^ 9 then MkConfig (window c) (buckets c) (10 ^ 9) else c in
  MkCounter W c (Z.quot (window c) (buckets c))
    match store with None => Shards (replicate 16 ∅) | Some w => External w end.

Definition at_state (m : mode W) (c : Counter W) : Counter W := MkCounter W (cfg c) (bucketDur c) m.

(** [strconv.FormatInt] in base 10 is [pretty]. *)
Definition storeKey (key : string) (now : Z) (c : Counter W) : string :=
  let win := Z.quot now (window (cfg c)) in
  "cnt:" +:+ key +:+ ":" +:+ pretty win.

Definition set_state (key : string) (ks : keyState) (sh : list (gmap string keyState)) : list (gmap string keyState) :=
  alter <[key := ks]> (shard_of hash key) sh.
Definition fresh (c : Counter W) : keyState :=
  MkKeyState (replicate (Z.to_nat (buckets (cfg c))) 0) (replicate (Z.to_nat (buckets (cfg c))) 0) 0.

Definition bucketIndex (now : Z) (c : Counter W) : go (Z * Z) :=
  if bucketDur c =? 0 then Panic "runtime error: integer divide by zero"
  else
    let slot := Z.quot now (bucketDur c) in
    let idx := Z.rem slot (buckets (cfg c)) in
    let start := slot * bucketDur c in
    Ret (idx, start).

Definition sumLocked (ks : keyState) (now : Z) (c : Counter W) : Z :=
  let cutoff := wrap64 (now - window (cfg c)) in
  foldl (fun sum '(n, at_) => if cutoff <? at_ then wrap64 (sum + n) else sum) 0 (zip (counts ks) (bucketAt ks)).

(** Adding [n] to the bucket of [now], cleared when it holds an older time. *)
Definition bump (now n : Z) (ks : keyState) (c : Counter W) : go keyState :=
  '(idx, start) ← bucketIndex now c;
  at_ ← index (bucketAt ks) idx;
  '(cs, ats) ← (if negb (at_ =? start)
                then ats ← set_index (bucketAt ks) idx start; cs ← set_index (counts ks) idx 0; Ret (cs, ats)
                else Ret (counts ks, bucketAt ks));
  v ← index cs idx;
  cs ← set_index cs idx (wrap64 (v + n));
  Ret (MkKeyState cs ats (lastSeen ks)).

Definition seen (now : Z) (ks : keyState) : keyState := MkKeyState (counts ks) (bucketAt ks) now.

Definition add (now at_ : Z) (key : string) (n : Z) (c : Counter W) : go (Counter W * Z) :=
  match state c with
  | External w =>
      let '(w, r) := Incr at_ (storeKey key now c) n (window (cfg c)) w in
      Ret (at_state (External w) c, match r with Err _ => 0 | Ok v => v end)
  | Shards sh =>
      let ks := seen now (default (fresh c) (shard_get hash key sh)) in
      ks ← bump now n ks c;
      Ret (at_state (Shards (set_state key ks sh)) c, sumLocked ks now c)
  end.

Definition Count (now at_ : Z) (key : string) (c : Counter W) : Z :=
  match state c with
  | External w =>
      match GetInt at_ (storeKey key now c) w with
      | Err _ => 0
      | Ok v => default 0 v
      end
  | Shards sh =>
      match shard_get hash key sh with
      | None => 0
      | Some ks => sumLocked ks now c
      end
  end.

(** [Allow] with a store is two calls of the store; [allow_incr] is the first, which says whether the
    second, [allow_undo], is made. *)
Definition allow_incr (now at_ : Z) (key : string) (n limit : Z) (cfg_ : Counter W) (w : W) : W * (bool * bool) :=
  let '(w, r) := Incr at_ (storeKey key now cfg_) n (window (cfg cfg_)) w in
  match r with
  | Err _ => (w, (true, false))
  | Ok v => if limit <? v then (w, (false, true)) else (w, (true, false))
  end.
Definition allow_undo (later : Z) (sk : string) (n : Z) (cfg_ : Counter W) (w : W) : W :=
  (Incr later sk (wrap64 (- n)) (window (cfg cfg_)) w).1.

Definition Allow (now at_ later : Z) (key : string) (n limit : Z) (c : Counter W) : go (Counter W * bool) :=
  match state c with
  | External w =>
      let '(w, (b, undo)) := allow_incr now at_ key n limit c w in
      let w := if undo : bool then allow_undo later (storeKey key now c) n c w else w in
      Ret (at_state (External w) c, b)
  | Shards sh =>
      let ks := seen now (default (fresh c) (shard_get hash key sh)) in
      if limit <? wrap64 (sumLocked ks now c + n)
      then Ret (at_state (Shards (set_state key ks sh)) c, false)
      else
        ks ← bump now n ks c;
        Ret (at_state (Shards (set_state key ks sh)) c, true)
  end.

Definition Reset (now at_ : Z) (key : string) (c : Counter W) : Counter W :=
  match state c with
  | External w => at_state (External (Delete at_ (storeKey key now c) w).1) c
  | Shards sh => at_state (Shards (alter (delete key) (shard_of hash key) sh)) c
  end.

(** One round of the cleaner. *)
Definition gc (now : Z) (c : Counter W) : Counter W :=
  match state c with
  | External w => c
  | Shards sh =>
      let cutoff := wrap64 (now - window (cfg c)) in
      at_state (Shards (filter (fun '(_, ks) => (lastSeen ks <? cutoff) = false) <$> sh)) c
  end.
End counter.

(** * What a counter promises in memory *)

(** What was added under each key, latest first; an addition counts as long as the beginning of its
    bucket is in the window. *)
Definition log := string -> list (Z * Z).
Definition logged (k : string) (l : list (Z * Z)) (s : log) : log := fun k' => if decide (k' = k) then l else s k'.

Inductive op := OIncr (k : string) (n : Z) | OCount (k : string) | OAllow (k : string) (n limit : Z) | OReset (k : string) | OClean.
Inductive answer := AInt (n : Z) | ABool (b : bool) | ANone | APanic (msg : string).

Section spec.
(** The length of a bucket and of the window. *)
Context (D Wd : Z).

Definition counted (now at_ : Z) : bool := now - Wd <? at_.
Fixpoint wsum (now : Z) (l : list (Z * Z)) : Z :=
  match l with [] => 0 | (t, n) :: l => (if counted now (t / D * D) then n else 0) + wsum now l end.

Definition promise (now : Z) (o : op) (s : log) : log * answer :=
  match o with
  | OIncr k n => (logged k ((now, n) :: s k) s, AInt (wrap64 (wsum now ((now, n) :: s k))))
  | OCount k => (s, AInt (wrap64 (wsum now (s k))))
  | OAllow k n limit =>
      if limit <? wrap64 (wsum now (s k) + n) then (s, ABool false)
      else (logged k ((now, n) :: s k) s, ABool true)
  | OReset k => (logged k [] s, ANone)
  | OClean => (s, ANone)
  end.
End spec.

Definition csum (g : Z * Z -> Z) (l : list (Z * Z)) : Z := foldr (fun x s => g x + s) 0 l.

Lemma csum_insert g l i x y : l !! i = Some y -> csum g (<[i := x]> l) = csum g l - g y + g x.
Proof.
  revert i. induction l as [|z l IH]; intros i Hi; [done|]. destruct i as [|i].
  - injection Hi as ->. change (<[0%nat := x]> (y :: l)) with (x :: l). cbn. lia.
  - change (<[S i := x]> (z :: l)) with (z :: <[i := x]> l). cbn [csum foldr]. fold (csum g (<[i := x]> l)) (csum g l).
    rewrite (IH i Hi). lia.
Qed.

Lemma wrap64_congr_add x y z : wrap64 x = wrap64 y -> wrap64 (x + z) = wrap64 (y + z).
Proof. intros H. rewrite <- (wrap64_add_l x), <- (wrap64_add_l y). by rewrite H. Qed.

Section memory.
Context {W : Type} `{!Store Empty_set W} (hash : string -> Z) (Wd B gi D : Z).
(** The window is a whole number of buckets, of some nanoseconds each. *)
Context (HB : 0 < B) (HD : 0 < D) (HW : Wd = B * D) (Hmax : Wd < 2 ^ 62).

(** A counter in memory of this configuration. *)
Definition shaped (sh : list (gmap string keyState)) : Counter W := MkCounter W (MkConfig Wd B gi) D (Shards sh).

Definition cells (ks : keyState) : list (Z * Z) := zip (counts ks) (bucketAt ks).
Definition live (now : Z) (x : Z * Z) : Z := if counted Wd now x.2 then x.1 else 0.

(** An addition whose bucket is out of the window. *)
Definition dead (t : Z) (x : Z * Z) : Prop := x.1 / D * D <= t - Wd.

(** A ring holds what was added, at [t] and later. *)
Record ks_ok (t : Z) (ks : keyState) (l : list (Z * Z)) : Prop := {
  ok_counts : length (counts ks) = Z.to_nat B;
  ok_at : length (bucketAt ks) = Z.to_nat B;
  ok_cells : forall i x, cells ks !! i = Some x -> x.1 = 0 \/ exists slot, x.2 = slot * D /\ slot mod B = Z.of_nat i /\ slot * D <= t;
  ok_sum : forall now, t <= now -> wrap64 (csum (live now) (cells ks)) = wrap64 (wsum D Wd now l);
  ok_seen : forall x, x ∈ l -> x.1 <= t /\ (x.1 <= lastSeen ks \/ dead t x)
}.

Lemma sum_csum sh now ks : 0 <= now < 2 ^ 62 -> sumLocked ks now (shaped sh) = wrap64 (csum (live now) (cells ks)).
Proof.
  intros Hn. unfold sumLocked. cbn [cfg shaped window]. fold (cells ks). rewrite wrap64_id by (unfold int64; lia).
  assert (forall l acc, int64 acc -> foldl (fun sum '(n, at_) => if now - Wd <? at_ then wrap64 (sum + n) else sum) acc l =
    wrap64 (acc + csum (live now) l)) as H.
  { induction l as [|[n at_] l IH]; intros acc Hacc; cbn [foldl csum foldr]; [by rewrite Z.add_0_r, wrap64_id|].
    fold (csum (live now) l). unfold live at 1, counted. cbn [fst snd]. destruct (now - Wd <? at_); [|by rewrite IH].
    rewrite IH by apply wrap64_range. rewrite wrap64_add_l. f_equal. lia. }
  rewrite H by (unfold int64; lia). f_equal.
Qed.

Lemma ks_ok_later t now ks l : t <= now -> ks_ok t ks l -> ks_ok now ks l.
Proof.
  intros Ht [H1 H2 H3 H4 H5]. split; [done|done| |intros; apply H4; lia|].
  - intros i x Hx. destruct (H3 i x Hx) as [|(slot & ? & ? & ?)]; [by left|right]. exists slot. split_and!; [done|done|lia].
  - intros x Hx. destruct (H5 x Hx) as [? Hd]. unfold dead in *. split; [lia|]. destruct Hd; [by left|right; lia].
Qed.

Lemma wsum_dead t l now : (forall x, x ∈ l -> dead t x) -> t <= now -> wsum D Wd now l = 0.
Proof.
  intros Hl Ht. induction l as [|[a n] l IH]; [done|]. cbn [wsum]. rewrite IH by (intros; apply Hl; set_solver).
  pose proof (Hl (a, n) ltac:(set_solver)) as Hd. unfold dead in Hd. cbn in Hd. unfold counted.
  destruct (Z.ltb_spec (now - Wd) (a / D * D)); lia.
Qed.

Lemma zip_zero i x : zip (replicate (Z.to_nat B) 0) (replicate (Z.to_nat B) 0) !! i = Some x -> x = (0, 0).
Proof.
  rewrite lookup_zip_with. destruct (replicate (Z.to_nat B) 0 !! i) as [y|] eqn:Ey; [|done].
  apply lookup_replicate in Ey as [-> _]. cbn. by intros [= <-].
Qed.

Lemma csum_zero g l : (forall i x, l !! i = Some x -> g x = 0) -> csum g l = 0.
Proof.
  induction l as [|x l IH]; intros H; [done|]. cbn. fold (csum g l). rewrite IH by (intros i; apply (H (S i))).
  by rewrite (H 0%nat x).
Qed.

Lemma fresh_ring_ok sh t l : 0 <= t -> (forall x, x ∈ l -> dead t x) -> ks_ok t (fresh (shaped sh)) l.
Proof.
  intros Ht Hl. unfold fresh. cbn [shaped cfg buckets].
  split; cbn; [by rewrite length_replicate|by rewrite length_replicate|intros i x Hx; left; by rewrite (zip_zero i x Hx)| |].
  - intros now Hn. rewrite (wsum_dead t) by done. f_equal. apply csum_zero. intros i x Hx%zip_zero. subst x. unfold live. by destruct (counted _ _ _).
  - intros x Hx. pose proof (Hl x Hx) as Hd. split; [|by right]. unfold dead in Hd. pose proof (Z.div_mod x.1 D ltac:(lia)).
    pose proof (Z.mod_pos_bound x.1 D HD). nia.
Qed.

Lemma bump_eq sh now n ks v a : 0 <= now -> let slot := now / D in let i := Z.to_nat (slot mod B) in
  counts ks !! i = Some v -> bucketAt ks !! i = Some a ->
  bump now n ks (shaped sh) = Ret (MkKeyState (<[i := wrap64 ((if a =? slot * D then v else 0) + n)]> (counts ks))
    (<[i := slot * D]> (bucketAt ks)) (lastSeen ks)).
Proof.
  intros Hn slot i Hv Ha. unfold bump, bucketIndex. cbn [shaped bucketDur cfg buckets]. destruct (Z.eqb_spec D 0); [lia|]. cbn [mbind go_bind].
  rewrite Z.quot_div_nonneg by lia. fold slot. pose proof (Z.div_pos now D ltac:(lia) ltac:(lia)).
  rewrite Z.rem_mod_nonneg by lia. pose proof (Z.mod_pos_bound slot B HB). replace (slot mod B) with (Z.of_nat i) by lia.
  rewrite (index_lookup _ _ _ Ha). cbn [mbind go_bind]. pose proof (lookup_lt_Some _ _ _ Hv). pose proof (lookup_lt_Some _ _ _ Ha).
  destruct (Z.eqb_spec a (slot * D)) as [E|E]; cbn [negb].
  - cbn [mbind go_bind]. rewrite (index_lookup _ _ _ Hv). cbn [mbind go_bind]. rewrite set_index_lt by done. cbn [mbind go_bind].
    by rewrite <- E, (list_insert_id _ _ _ Ha).
  - rewrite set_index_lt by done. cbn [mbind go_bind]. rewrite set_index_lt by done. cbn [mbind go_bind].
    rewrite (index_lookup _ _ 0) by (by apply list_lookup_insert_eq). cbn [mbind go_bind]. rewrite set_index_lt by (by rewrite length_insert).
    cbn [mbind go_bind]. by rewrite list_insert_insert_eq.
Qed.

(** A cell that is replaced is out of every window from now on. *)
Lemma replaced_dead i v a now now' : 0 <= now <= now' -> let slot := now / D in Z.of_nat i = slot mod B -> a <> slot * D ->
  (v = 0 \/ exists slot', a = slot' * D /\ slot' mod B = Z.of_nat i /\ slot' * D <= now) -> live now' (v, a) = 0.
Proof.
  intros Hn slot Hi Hne [->|(s & -> & Hm & Hle)]; unfold live; cbn [fst snd]; [by destruct (counted _ _ _)|].
  unfold counted. destruct (Z.ltb_spec (now' - Wd) (s * D)) as [Hlt|]; [|done]. exfalso.
  assert (s <= slot) as Hs by (apply Z.div_le_lower_bound; lia). assert (s <> slot) as Hne' by (by intros ->).
  pose proof (Z.div_mod s B ltac:(lia)). pose proof (Z.div_mod slot B ltac:(lia)). pose proof (Z.div_mod now D ltac:(lia)) as Hd. fold slot in Hd.
  pose proof (Z.mod_pos_bound now D HD). assert (s / B < slot / B) by nia. assert (s <= slot - B) by nia. nia.
Qed.

Lemma cells_insert ks i (x y : Z) : cells (MkKeyState (<[i := x]> (counts ks)) (<[i := y]> (bucketAt ks)) (lastSeen ks)) = <[i := (x, y)]> (cells ks).
Proof. unfold cells. cbn [counts bucketAt]. symmetry. exact (insert_zip_with (@pair Z Z) (counts ks) (bucketAt ks) i x y). Qed.

(** The bucket of the time of the call is added to. *)
Lemma bump_ok sh t now n ks l : 0 <= t <= now -> now < 2 ^ 62 -> lastSeen ks = now -> ks_ok t ks l ->
  exists ks', bump now n ks (shaped sh) = Ret ks' /\ ks_ok now ks' ((now, n) :: l).
Proof.
  intros Ht Hn Hseen Hok. apply (ks_ok_later t now) in Hok; [|lia]. destruct Hok as [H1 H2 H3 H4 H5].
  set (slot := now / D). set (i := Z.to_nat (slot mod B)). pose proof (Z.mod_pos_bound slot B HB). assert (Z.of_nat i = slot mod B) as Hi by lia.
  pose proof (Z.mul_div_le now D HD) as Hle. fold slot in Hle.
  destruct (lookup_lt_is_Some_2 (bucketAt ks) i ltac:(lia)) as [a Ha]. destruct (lookup_lt_is_Some_2 (counts ks) i ltac:(lia)) as [v Hv].
  assert (cells ks !! i = Some (v, a)) as Hx by (unfold cells; by rewrite lookup_zip_with, Hv; cbn; rewrite Ha).
  eexists. split; [apply (bump_eq sh now n ks v a); [lia|exact Hv|exact Ha]|]. fold slot i. split.
  - cbn. by rewrite length_insert.
  - cbn. by rewrite length_insert.
  - intros j x. rewrite cells_insert, list_lookup_insert_Some. intros [(<- & <- & _)|[_ Hj]]; [|by apply H3].
    right. exists slot. split_and!; [done|lia|lia].
  - intros now' Hn'. rewrite cells_insert, (csum_insert _ _ _ _ _ Hx). cbn [wsum]. fold slot.
    specialize (H4 now' Hn'). rewrite (Z.add_comm (if counted Wd now' (slot * D) then n else 0)). rewrite <- (wrap64_congr_add _ _ _ H4).
    unfold live at 3. cbn [fst snd]. destruct (Z.eqb_spec a (slot * D)) as [->|Hne].
    + unfold live at 2. cbn [fst snd]. destruct (counted Wd now' (slot * D)); [|f_equal; lia]. rewrite wrap64_add_r. f_equal. lia.
    + rewrite (replaced_dead i v a now now'); [|lia|done|done|apply (H3 i _ Hx)].
      destruct (counted Wd now' (slot * D)); [|f_equal; lia]. rewrite wrap64_add_r. f_equal. lia.
  - cbn. intros x [->|Hx']%elem_of_cons; [cbn; lia|]. by apply H5.
Qed.

(** ** The maps of the shards *)

Definition entry_ok (t : Z) (o : option keyState) (l : list (Z * Z)) : Prop :=
  match o with Some ks => ks_ok t ks l | None => forall x, x ∈ l -> dead t x end.
Definition holds (t : Z) (c : Counter W) (s : log) : Prop :=
  exists sh, c = shaped sh /\ length sh = 16%nat /\ forall k, entry_ok t (shard_get hash k sh) (s k).

Definition call (now : Z) (o : op) (c : Counter W) : Counter W * answer :=
  match o with
  | OIncr k n => match add hash now now k n c with Ret (c, v) => (c, AInt v) | Panic msg => (c, APanic msg) end
  | OCount k => (c, AInt (Count hash now now k c))
  | OAllow k n limit => match Allow hash now now now k n limit c with Ret (c, b) => (c, ABool b) | Panic msg => (c, APanic msg) end
  | OReset k => (Reset hash now now k c, ANone)
  | OClean => (gc now c, ANone)
  end.

Lemma entry_ok_later t now o l : t <= now -> entry_ok t o l -> entry_ok now o l.
Proof. intros Ht. destruct o; cbn; [by apply ks_ok_later|]. intros H x Hx. pose proof (H x Hx). unfold dead in *. lia. Qed.

(** What the code works on: the ring of the key or a fresh one, marked as seen. *)
Lemma working_ok t now sh o l : 0 <= t <= now -> entry_ok t o l -> ks_ok now (seen now (default (fresh (shaped sh)) o)) l.
Proof.
  intros Ht Ho. apply (entry_ok_later t now) in Ho; [|lia]. assert (ks_ok now (default (fresh (shaped sh)) o) l) as [H1 H2 H3 H4 H5].
  { destruct o as [ks|]; [done|]. apply fresh_ring_ok; [lia|done]. }
  split; [done|done|done|done|]. intros x Hx. destruct (H5 x Hx). cbn. lia.
Qed.

Lemma holds_set t k ks l sh s : length sh = 16%nat -> (forall k, entry_ok t (shard_get hash k sh) (s k)) -> ks_ok t ks l ->
  holds t (shaped (set_state hash k ks sh)) (logged k l s).
Proof.
  intros Hlen Hk Hks. eexists. split; [done|]. split; [unfold set_state; by rewrite length_alter|]. intros k'. unfold set_state, logged.
  rewrite shard_get_insert by done. destruct (decide (k' = k)); [done|apply Hk].
Qed.

Lemma logged_same k s : forall k', logged k (s k) s k' = s k'.
Proof. intros k'. unfold logged. destruct (decide (k' = k)) as [->|]; done. Qed.

Lemma sum_wsum sh now ks l : 0 <= now < 2 ^ 62 -> ks_ok now ks l -> sumLocked ks now (shaped sh) = wrap64 (wsum D Wd now l).
Proof. intros Hn Hok. rewrite (sum_csum sh) by done. apply (ok_sum _ _ _ Hok). lia. Qed.

Lemma call_agrees t now o c s : 0 <= t <= now -> now < 2 ^ 62 -> True -> holds t c s ->
  (call now o c).2 = (promise D Wd now o s).2 /\ holds now (call now o c).1 (promise D Wd now o s).1.
Proof.
  intros Ht Hn _ (sh & -> & Hlen & Hk).
  assert (forall k, entry_ok now (shard_get hash k sh) (s k)) as Hk' by (intros k; apply (entry_ok_later t); [lia|apply Hk]).
  assert (holds now (shaped sh) s) as Hsame by by exists sh.
  destruct o as [k n|k|k n limit|k|]; cbn [call promise fst snd].
  - unfold add. cbn [state shaped]. pose proof (working_ok t now sh _ _ Ht (Hk k)) as Hw.
    destruct (bump_ok sh now now n (seen now _) _ ltac:(lia) Hn eq_refl Hw) as (ks' & Hb & Hok). fold (shaped sh). rewrite Hb. cbn [mbind go_bind fst snd].
    split; [f_equal; apply sum_wsum; [lia|done]|]. by apply holds_set.
  - split; [|done]. unfold Count. cbn [state shaped]. fold (shaped sh). f_equal. specialize (Hk' k). destruct (shard_get hash k sh) as [ks|]; cbn in Hk'.
    + apply sum_wsum; [lia|done].
    + by rewrite (wsum_dead now) by (done || lia).
  - unfold Allow. cbn [state shaped]. fold (shaped sh). pose proof (working_ok t now sh _ _ Ht (Hk k)) as Hw.
    rewrite (sum_wsum sh now _ _ ltac:(lia) Hw), wrap64_add_l. destruct (limit <? _); cbn [fst snd].
    + split; [done|]. destruct (holds_set now k _ _ sh s Hlen Hk' Hw) as (sh' & E & Hl & H). exists sh'. split_and!; [done|done|].
      intros k'. rewrite <- (logged_same k s). apply H.
    + destruct (bump_ok sh now now n (seen now _) _ ltac:(lia) Hn eq_refl Hw) as (ks' & -> & Hok). cbn [mbind go_bind fst snd]. split; [done|]. by apply holds_set.
  - split; [done|]. eexists. split; [done|]. split; [by rewrite length_alter|]. intros k'. rewrite shard_get_delete by done. unfold logged.
    destruct (decide (k' = k)); [cbn; set_solver|apply Hk'].
  - split; [done|]. unfold gc. cbn [state shaped cfg window]. eexists. split; [done|]. split; [by rewrite length_fmap|]. intros k.
    rewrite (shard_get_filter hash (fun ks => lastSeen ks <? wrap64 (now - Wd))). specialize (Hk' k). destruct (shard_get hash k sh) as [ks|]; [|done].
    cbn. rewrite wrap64_id by (unfold int64; nia). destruct (Z.ltb_spec (lastSeen ks) (now - Wd)); [|done]. cbn. intros x Hx.
    destruct (ok_seen _ _ _ Hk' x Hx) as [_ [|]]; [|done]. unfold dead. pose proof (Z.mul_div_le x.1 D HD). lia.
Qed.
End memory.

(** Sizes are positive after the defaults. *)
Lemma New_sizes {W} w opts store : 0 < window (cfg (New (W := W) w opts store)) /\ 0 < buckets (cfg (New (W := W) w opts store)).
Proof.
  unfold New. cbn [cfg]. set (c0 := foldl _ _ opts). cbv zeta.
  set (c1 := if window c0 <=? 0 then _ else c0). assert (0 < window c1) by (subst c1; destruct (Z.leb_spec (window c0) 0); cbn [window]; lia).
  set (c2 := if buckets c1 <=? 0 then _ else c1).
  assert (0 < window c2 /\ 0 < buckets c2) by (subst c2; destruct (Z.leb_spec (buckets c1) 0); cbn [window buckets]; lia).
  destruct (gcInterval c2 <=? 0); match goal with |- context [if ?b then _ else _] => destruct b end; done.
Qed.

Lemma New_shaped {W} w opts : let c := New (W := W) w opts None in
  c = shaped (window (cfg c)) (buckets (cfg c)) (gcInterval (cfg c)) (bucketDur c) (replicate 16 ∅).
Proof. cbv zeta. set (c := New w opts None). assert (state c = Shards (replicate 16 ∅)) as E by done. unfold shaped. rewrite <- E. by destruct c as [[] ? ?]. Qed.

Section results.
Context {W : Type} `{!Store Empty_set W} (hash : string -> Z).

(** A counter in memory whose window is a whole number of buckets. *)
Definition whole (c : Counter W) : Prop := window (cfg c) < 2 ^ 62 /\ window (cfg c) = buckets (cfg c) * bucketDur c.

Lemma play_counter w opts ops : let c := New w opts None in whole c -> timely (fun _ => True) 0 ops ->
  play (call hash) ops c = play (promise (bucketDur c) (window (cfg c))) ops (fun _ => []).
Proof.
  intros c [Hmax Hw] Hops. destruct (New_sizes (W := W) w opts None) as [H1 H2]. fold c in H1, H2.
  refine (play_simulates (fun _ => True) (call hash) (promise (bucketDur c) (window (cfg c)))
    (holds hash (window (cfg c)) (buckets (cfg c)) (gcInterval (cfg c)) (bucketDur c)) _ ops 0 c _ ltac:(lia) Hops _).
  - apply call_agrees; [done|nia|done|done].
  - exists (replicate 16 ∅). split; [apply New_shaped|]. split; [done|]. intros k. rewrite shard_get_empty. cbn. by intros x Hx%elem_of_nil.
Qed.

(** C25: In memory every history of calls is answered as by a log of what was added: a count, and the
    test of a quota, is the sum of the additions whose bucket begins in the window, modulo [2 ^ 64],
    the cleaner running at any time. No call panics. The window is a whole number of buckets, of less than [2 ^ 62]
    nanoseconds, and the clock does not go back. *)
Theorem counter_refines w opts ops : let c := New w opts None in whole c -> timely (fun _ => True) 0 ops ->
  play (call hash) ops c = play (promise (bucketDur c) (window (cfg c))) ops (fun _ => []).
Proof. apply play_counter. Qed.

(** ** Quotas *)

(** What [Allow] granted under a key, with its times. *)
Fixpoint grants (k : string) (ops : list (Z * op)) (answers : list answer) : list (Z * Z) :=
  match ops, answers with
  | (now, OAllow k' n _) :: ops, a :: answers =>
      if bool_decide (k' = k) && (match a with ABool b => b | _ => false end) then (now, n) :: grants k ops answers else grants k ops answers
  | _ :: ops, _ :: answers => grants k ops answers
  | _, _ => []
  end.

(** The sum granted after [from], up to [to_]. *)
Fixpoint between (from to_ : Z) (l : list (Z * Z)) : Z :=
  match l with [] => 0 | (t, n) :: l => (if (from <? t) && (t <=? to_) then n else 0) + between from to_ l end.

(** The key is only used through [Allow], with amounts and limits of a sane size. *)
Definition limited (k : string) (limit : Z) (o : op) : Prop :=
  match o with
  | OAllow k' n l => k' = k -> 0 <= n < 2 ^ 62 /\ l = limit
  | OIncr k' _ | OReset k' => k' <> k
  | _ => True
  end.

Lemma logged_eq k l s : logged k l s k = l.
Proof. unfold logged. by rewrite decide_True. Qed.
Lemma logged_ne k k' l s : k' <> k -> logged k l s k' = s k'.
Proof. intros. unfold logged. by rewrite decide_False. Qed.

Section quota.
Context (D Wd limit : Z) (HD : 0 < D) (HW : 0 < Wd) (HL : 0 <= limit < 2 ^ 62).

(** The log of a key that is kept to its quota. *)
Definition kept (t : Z) (l : list (Z * Z)) : Prop :=
  (forall x, x ∈ l -> x.1 <= t /\ 0 <= x.2) /\ (forall now, t <= now -> 0 <= wsum D Wd now l <= limit) /\
  (forall T, between (T - (Wd - D)) T l <= limit).

Lemma wsum_mono now now' l : now <= now' -> (forall x, x ∈ l -> 0 <= x.2) -> 0 <= wsum D Wd now' l <= wsum D Wd now l.
Proof.
  intros Hn. induction l as [|[t n] l IH]; intros Hl; [done|]. cbn [wsum]. pose proof (Hl (t, n) ltac:(left)) as H. cbn in H.
  specialize (IH (fun x Hx => Hl x (list_elem_of_further _ _ _ Hx))). unfold counted.
  destruct (Z.ltb_spec (now - Wd) (t / D * D)), (Z.ltb_spec (now' - Wd) (t / D * D)); lia.
Qed.

Lemma between_wsum now T l : now <= T -> (forall x, x ∈ l -> x.1 <= now /\ 0 <= x.2) -> between (T - (Wd - D)) T l <= wsum D Wd now l.
Proof.
  intros HT. induction l as [|[t n] l IH]; intros Hl; [done|]. cbn [wsum between]. destruct (Hl (t, n) ltac:(left)) as [H1 H2]. cbn in H1, H2.
  specialize (IH (fun x Hx => Hl x (list_elem_of_further _ _ _ Hx))). unfold counted.
  pose proof (Z.div_mod t D ltac:(lia)). pose proof (Z.mod_pos_bound t D HD).
  destruct (Z.ltb_spec (T - (Wd - D)) t), (Z.leb_spec t T), (Z.ltb_spec (now - Wd) (t / D * D)); cbn; nia.
Qed.

Lemma between_late T T' l now : T < now -> between (T' - (Wd - D)) T ((now, T') :: l) = between (T' - (Wd - D)) T l.
Proof. intros H. cbn. destruct (Z.leb_spec now T); [lia|]. by rewrite andb_false_r. Qed.

Lemma kept_grant t now n l : t <= now -> 0 <= n < 2 ^ 62 -> kept t l -> (limit <? wrap64 (wsum D Wd now l + n)) = false -> kept now ((now, n) :: l).
Proof.
  intros Ht Hn (H1 & H2 & H3) Hq. pose proof (H2 now Ht) as Hs. rewrite wrap64_id in Hq by (unfold int64; lia). bool_prop.
  split_and!.
  - intros x [->|Hx]%elem_of_cons; [cbn; lia|]. destruct (H1 x Hx). lia.
  - intros now' Hn'. pose proof (wsum_mono now now' ((now, n) :: l) Hn') as Hm. cbn [wsum] in *. destruct Hm as [Hm1 Hm2].
    { intros x [->|Hx]%elem_of_cons; [cbn; lia|]. by destruct (H1 x Hx). }
    destruct (counted Wd now (now / D * D)); lia.
  - intros T. cbn [between]. destruct (Z.leb_spec now T) as [HT|HT]; [|rewrite andb_false_r; apply H3].
    pose proof (between_wsum now T l HT) as Hb. destruct (T - (Wd - D) <? now); cbn [andb]; specialize (Hb ltac:(intros x Hx; destruct (H1 x Hx); lia)); lia.
Qed.

Lemma kept_later t now l : t <= now -> kept t l -> kept now l.
Proof. intros Ht (H1 & H2 & H3). split_and!; [|intros; apply H2; lia|done]. intros x Hx. destruct (H1 x Hx). lia. Qed.

Lemma promise_quota k T : forall ops t s, timely (fun _ => True) t ops -> Forall (fun o => limited k limit o.2) ops -> kept t (s k) ->
  between (T - (Wd - D)) T (grants k ops (play (promise D Wd) ops s)) + between (T - (Wd - D)) T (s k) <= limit.
Proof.
  induction ops as [|[now o] ops IH]; intros t s Ht Hl Hk; [cbn; by apply Hk|]. cbn [timely play] in *. destruct Ht as (Hn & _ & Ht).
  apply Forall_cons in Hl as [Ho Hl]. cbn in Ho. pose proof (kept_later t now _ ltac:(lia) Hk) as Hk'.
  destruct o as [k' n|k'|k' n lim|k'|]; cbn [promise grants limited] in *.
  - pose proof (IH now (logged k' ((now, n) :: s k') s) Ht Hl) as H. rewrite logged_ne in H by congruence. by apply H.
  - by apply (IH now).
  - destruct (decide (k' = k)) as [->|Hd].
    + rewrite bool_decide_true by done. destruct (Ho eq_refl) as [Hn' ->]. destruct (limit <? _) eqn:Eq; cbn [andb]; [by apply (IH now)|].
      pose proof (IH now (logged k ((now, n) :: s k) s) Ht Hl) as H. rewrite logged_eq in H.
      cbn [between] in *. pose proof (H (kept_grant t now n _ ltac:(lia) Hn' Hk Eq)). lia.
    + rewrite bool_decide_false by done. destruct (lim <? _); cbn [andb]; [by apply (IH now)|].
      pose proof (IH now (logged k' ((now, n) :: s k') s) Ht Hl) as H. rewrite logged_ne in H by congruence. by apply H.
  - pose proof (IH now (logged k' [] s) Ht Hl) as H. rewrite logged_ne in H by congruence. by apply H.
  - by apply (IH now).
Qed.
End quota.

(** Where a key is only used through [Allow] with one limit, what is granted in any stretch of
    time shorter than the window by one bucket is at most the limit. *)
Theorem quota_kept w opts ops k limit T : let c := New w opts None in whole c -> 0 <= limit < 2 ^ 62 ->
  timely (fun _ => True) 0 ops -> Forall (fun o => limited k limit o.2) ops ->
  between (T - (window (cfg c) - bucketDur c)) T (grants k ops (play (call hash) ops c)) <= limit.
Proof.
  intros c Hw HL Hops Hl. subst c. rewrite play_counter by done. set (c := New w opts None) in *. destruct Hw as [Hmax Hw].
  destruct (New_sizes (W := W) w opts None) as [H1 H2]. fold c in H1, H2.
  assert (0 < bucketDur c) as HD by (apply (Z.mul_pos_cancel_l (buckets (cfg c))); lia).
  pose proof (promise_quota (bucketDur c) (window (cfg c)) limit HD HL k T ops 0 (fun _ => []) Hops Hl) as H. cbn [between] in H.
  specialize (H ltac:(split_and!; [by intros x Hx%elem_of_nil|cbn [wsum]; lia|cbn [between]; lia])). lia.
Qed.
End results.

(** * With a store *)

Fixpoint has_colon (s : string) : bool :=
  match s with EmptyString => false | String a s => Ascii.eqb a ":"%char || has_colon s end.

Lemma pretty_go_no_colon n : forall s, has_colon s = false -> has_colon (pretty_N_go n s) = false.
Proof.
  induction (N.lt_wf_0 n) as [n _ IH]. intros s Hs. destruct (decide (n = 0%N)) as [->|Hn]; [by rewrite pretty_N_go_0|].
  rewrite pretty_N_go_step by lia. apply IH; [apply N.div_lt; lia|]. cbn. rewrite Hs, orb_false_r.
  unfold pretty_N_char. by repeat case_match.
Qed.
Lemma pretty_no_colon z : 0 <= z -> has_colon (pretty z) = false.
Proof.
  intros Hz. destruct z as [|p|p]; [done| |lia]. change (pretty (Z.pos p)) with (pretty (N.pos p)). unfold pretty, pretty_N.
  destruct (decide _); [done|]. by apply pretty_go_no_colon.
Qed.

Lemma split_colon a a' b b' : has_colon b = false -> has_colon b' = false -> a +:+ ":" +:+ b = a' +:+ ":" +:+ b' -> a = a' /\ b = b'.
Proof.
  intros Hb Hb'. assert (forall x y, has_colon (x +:+ y) = has_colon x || has_colon y) as Happ.
  { intros x y. induction x as [|c x IH]; [done|]. change (String c x +:+ y) with (String c (x +:+ y)). cbn [has_colon]. by rewrite IH, orb_assoc. }
  revert a'. induction a as [|c a IH]; intros [|c' a'] H.
  - by injection H.
  - exfalso. assert (b = a' +:+ ":" +:+ b') as -> by (by injection H). rewrite Happ, Happ in Hb. cbn in Hb. by rewrite orb_true_r in Hb.
  - exfalso. assert (b' = a +:+ ":" +:+ b) as -> by (by injection H). rewrite Happ, Happ in Hb'. cbn in Hb'. by rewrite orb_true_r in Hb'.
  - injection H as -> H. by apply IH in H as [-> ->].
Qed.

Section shared.
Context {W : Type} `{!Store Empty_set W} `{!StoreLaws Empty_set W} (c : Counter W).
Context (Hwin : 0 < window (cfg c) < 2 ^ 62) (limit : Z) (HL : 0 <= limit < 2 ^ 62).

(** The name of the count of a key in a window. *)
Definition wkey (k : string) (win : Z) : string := "cnt:" +:+ k +:+ ":" +:+ pretty win.

Lemma storeKey_wkey k now : 0 <= now -> storeKey k now c = wkey k (now / window (cfg c)).
Proof. intros H. unfold storeKey, wkey. by rewrite Z.quot_div_nonneg by lia. Qed.

Lemma wkey_inj k k' win win' : 0 <= win -> 0 <= win' -> wkey k win = wkey k' win' -> k = k' /\ win = win'.
Proof.
  intros H H' E. unfold wkey in E. injection E as E. apply split_colon in E as [-> E]; [|by apply pretty_no_colon..].
  split; [done|]. by apply (inj pretty) in E.
Qed.

(** Calls of [Allow] on a shared store, each as its two calls of the store: any number of them may be
    between the first and the second. A caller names the key from its own reading of its clock; an event comes with that
    of the store. *)
Inductive event := EAllow (read : Z) (k : string) (n : Z) | EUndo (i : nat).
Record shared := MkShared { world : W; undos : list (string * Z); granted : list (Z * string * Z) }.

Definition step (now : Z) (e : event) (st : shared) : shared :=
  match e with
  | EAllow read k n =>
      let '(w, (b, undo)) := allow_incr read now k n limit c (world st) in
      MkShared w (if undo : bool then undos st ++ [(storeKey k read c, n)] else undos st)
        (if b : bool then (read, k, n) :: granted st else granted st)
  | EUndo i =>
      match undos st !! i with
      | Some (sk, n) => MkShared (allow_undo now sk n c (world st)) (delete i (undos st)) (granted st)
      | None => st
      end
  end.

Definition offered (e : event) : Z := match e with EAllow _ _ n => n | EUndo _ => 0 end.
Fixpoint steps (evs : list (Z * event)) (st : shared) : shared :=
  match evs with [] => st | (now, e) :: evs => steps evs (step now e st) end.
Fixpoint total (evs : list (Z * event)) : Z := match evs with [] => 0 | (_, e) :: evs => offered e + total evs end.

(** What was granted under a key in a window, and what is still to be taken back there. *)
Fixpoint granted_in (k : string) (win : Z) (l : list (Z * string * Z)) : Z :=
  match l with
  | [] => 0
  | (t, k', n) :: l => (if bool_decide (k' = k) && (t / window (cfg c) =? win) then n else 0) + granted_in k win l
  end.
Fixpoint pending_in (sk : string) (l : list (string * Z)) : Z :=
  match l with [] => 0 | (sk', n) :: l => (if bool_decide (sk' = sk) then n else 0) + pending_in sk l end.

Lemma pending_app sk l l' : pending_in sk (l ++ l') = pending_in sk l + pending_in sk l'.
Proof. induction l as [|[sk' n] l IH]; [done|]. cbn. rewrite IH. lia. Qed.

Lemma pending_delete sk l i sk' n : l !! i = Some (sk', n) -> pending_in sk l = (if bool_decide (sk' = sk) then n else 0) + pending_in sk (delete i l).
Proof.
  revert i. induction l as [|[sk1 n1] l IH]; intros [|i] Hi; [done..| |].
  - by injection Hi as -> ->.
  - change (delete (S i) ((sk1, n1) :: l)) with ((sk1, n1) :: delete i l). cbn [pending_in]. rewrite (IH i Hi). lia.
Qed.

Lemma pending_nonneg sk l : (forall x, x ∈ l -> 0 < x.2) -> 0 <= pending_in sk l.
Proof.
  induction l as [|[sk' n] l IH]; intros Hl; [done|]. cbn. pose proof (Hl (sk', n) ltac:(left)) as H. cbn in H.
  specialize (IH (fun x Hx => Hl x (list_elem_of_further _ _ _ Hx))). case_bool_decide; lia.
Qed.

(** The counts of the windows from now on are what was granted there and what is to be taken back. *)
Definition counts_ok (t rest : Z) (st : shared) : Prop :=
  ok (world st) /\ (forall x, x ∈ undos st -> 0 < x.2) /\
  (forall k win, 0 <= win -> 0 <= granted_in k win (granted st) <= limit) /\
  (forall k win, 0 <= win -> granted_in k win (granted st) + pending_in (wkey k win) (undos st) + rest < 2 ^ 63) /\
  forall k win, 0 <= win -> t / window (cfg c) <= win ->
    let total := granted_in k win (granted st) + pending_in (wkey k win) (undos st) in
    match view (world st) t (wkey k win) with
    | Some e => num e = total /\ (win + 1) * window (cfg c) <= expiry e
    | None => total = 0
    end.

Lemma counts_later t now rest st : 0 <= t <= now -> counts_ok t rest st -> counts_ok now rest st.
Proof.
  intros Ht (H1 & H2 & H3 & H4 & H5). split_and!; try done. intros k win Hw Hnow total.
  pose proof (Z.div_le_mono t now (window (cfg c)) ltac:(lia) ltac:(lia)). specialize (H5 k win Hw ltac:(lia)). cbv zeta in H5. fold total in H5.
  rewrite (view_later (world st) t now) by (done || lia). destruct (view (world st) t (wkey k win)) as [e|]; [|done]. destruct H5 as [Hn He].
  cbn. unfold alive. pose proof (Z.div_mod now (window (cfg c)) ltac:(lia)). pose proof (Z.mod_pos_bound now (window (cfg c)) ltac:(lia)).
  destruct (Z.ltb_spec now (expiry e)); [by rewrite orb_true_r|]. exfalso. nia.
Qed.

Lemma at_time_fresh now e : 0 <= now < expiry e -> at_time now (Some e) = Some e.
Proof. intros H. cbn. unfold alive. destruct (Z.ltb_spec now (expiry e)); [by rewrite orb_true_r|lia]. Qed.

Lemma at_time_view now sk st e : 0 <= now -> ok (world st) -> view (world st) now sk = Some e -> alive e now = true.
Proof. intros Hn Hok E. pose proof (view_later (world st) now now sk Hok ltac:(lia)) as H. rewrite E in H. symmetry in H. by apply at_time_alive in H. Qed.

(** The entry an increment by [d] leaves, for a count that stays in range. *)
Lemma incr_entry now sk d w tot : ok w -> 0 <= now < 2 ^ 62 -> int64 (tot + d) ->
  (match view w now sk with Some e => num e = tot /\ (now / window (cfg c) + 1) * window (cfg c) <= expiry e | None => tot = 0 end) ->
  exists w' e, Incr now sk d (window (cfg c)) w = (w', Ok (tot + d)) /\ ok w' /\ put view now sk (Some e) w w' /\
  num e = tot + d /\ (now / window (cfg c) + 1) * window (cfg c) <= expiry e /\ at_time now (Some e) = Some e.
Proof.
  intros Hok Hn Hd Hv. assert (sane now (window (cfg c))) as Hs by (unfold sane, int64; lia).
  destruct (law_incr (E := Empty_set) now sk d (window (cfg c)) w Hok Hs) as [Hok' Ho].
  destruct (Incr now sk d (window (cfg c)) w) as [w' [v|[]]]. destruct Ho as [-> Hput]. set (e := bumped _ _ _ _) in *.
  pose proof (Z.div_mod now (window (cfg c)) ltac:(lia)). pose proof (Z.mod_pos_bound now (window (cfg c)) ltac:(lia)).
  assert (num e = tot + d /\ (now / window (cfg c) + 1) * window (cfg c) <= expiry e) as [He1 He2].
  { subst e. destruct (view w now sk) as [e|]; cbn.
    - destruct Hv as [-> ?]. split; [by rewrite wrap64_id|done].
    - subst tot. split; [by rewrite wrap64_id|]. unfold deadline. destruct (Z.ltb_spec 0 (window (cfg c))); [|lia].
      rewrite wrap64_id by (unfold int64; lia). nia. }
  exists w', e. rewrite He1. split_and!; try done. apply at_time_fresh. nia.
Qed.

Definition tally (st : shared) (k : string) (win : Z) : Z := granted_in k win (granted st) + pending_in (wkey k win) (undos st).

(** The count of [sk] changed by [d], in the store and in the books. *)
Lemma counts_put now rest rest' st st' sk d e : counts_ok now rest st -> ok (world st') -> put view now sk (Some e) (world st) (world st') ->
  (forall x, x ∈ undos st' -> 0 < x.2) ->
  (forall k win, 0 <= win -> 0 <= granted_in k win (granted st') <= limit /\ tally st' k win + rest' < 2 ^ 63) ->
  (forall k win, 0 <= win -> tally st' k win = tally st k win + (if bool_decide (wkey k win = sk) then d else 0)) ->
  (forall k win, 0 <= win -> now / window (cfg c) <= win -> wkey k win = sk ->
     num e = tally st k win + d /\ (win + 1) * window (cfg c) <= expiry e /\ at_time now (Some e) = Some e) ->
  counts_ok now rest' st'.
Proof.
  intros (_ & _ & _ & _ & H5) Hok Hput Hu Hb Ht He. split_and!; [done|done|apply Hb|apply Hb|].
  intros k win Hw Hnow. cbv zeta. specialize (H5 k win Hw Hnow). cbv zeta in H5. specialize (Ht k win Hw). unfold tally in Ht.
  rewrite (Hput now (wkey k win)), Ht by lia. destruct (decide (wkey k win = sk)) as [E|E].
  - rewrite bool_decide_true by done. destruct (He k win Hw Hnow E) as (? & ? & ->). done.
  - rewrite bool_decide_false, Z.add_0_r by done. exact H5.
Qed.

Lemma wkey_dec k win k' win' : 0 <= win -> 0 <= win' -> bool_decide (wkey k win = wkey k' win') = bool_decide (k' = k) && (win' =? win).
Proof.
  intros Hw Hw'. destruct (Z.eqb_spec win' win) as [->|Hd].
  - rewrite andb_true_r. apply bool_decide_ext. split; [intros E%wkey_inj; [naive_solver|lia|lia]|by intros ->].
  - rewrite andb_false_r. apply bool_decide_false. intros E%wkey_inj; naive_solver.
Qed.

Definition in_window (now : Z) (e : event) : Prop := match e with EAllow read _ _ => 0 <= read /\ read / window (cfg c) = now / window (cfg c) | EUndo _ => True end.
Lemma allow_ok now read k n rest st : 0 <= now < 2 ^ 62 -> in_window now (EAllow read k n) -> 0 <= rest -> 0 < n -> counts_ok now (n + rest) st ->
  counts_ok now rest (step now (EAllow read k n) st).
Proof.
  intros Hn [Hread Hwin'] Hrest Hpos Hst. pose proof Hst as (H1 & H2 & H3 & H4 & H5). pose proof (Z.div_pos now (window (cfg c)) ltac:(lia) ltac:(lia)) as Hwin0.
  cbn [step]. rewrite storeKey_wkey by lia. unfold allow_incr. rewrite storeKey_wkey by lia. rewrite Hwin'. set (win := now / window (cfg c)) in *.
  pose proof (pending_nonneg (wkey k win) (undos st) H2) as Hp. pose proof (H3 k win Hwin0) as Hg. pose proof (H4 k win Hwin0) as Hb.
  destruct (incr_entry now (wkey k win) n (world st) (tally st k win))
    as (w' & e & -> & Hok' & Hput & He1 & He2 & He3); [done|lia|unfold tally, int64; lia|by apply (H5 k win)|].
  assert (forall k' win', 0 <= win' -> now / window (cfg c) <= win' -> wkey k' win' = wkey k win ->
    num e = tally st k' win' + n /\ (win' + 1) * window (cfg c) <= expiry e /\ at_time now (Some e) = Some e) as He.
  { intros k' win' Hw' _ [-> ->]%wkey_inj; [done|lia|lia]. }
  unfold tally in He1. destruct (Z.ltb_spec limit (tally st k win + n)) as [Hl|Hl].
  - apply (counts_put now (n + rest) rest st _ (wkey k win) n e); try done; cbn [undos granted].
    + intros x [Hx|Hx%list_elem_of_singleton]%elem_of_app; [by apply H2|by subst x].
    + intros k' win' Hw'. split; [by apply H3|]. unfold tally. cbn [undos granted]. rewrite pending_app. cbn [pending_in].
      pose proof (H4 k' win' Hw'). case_bool_decide; lia.
    + intros k' win' Hw'. unfold tally. cbn [undos granted]. rewrite pending_app. cbn [pending_in].
      rewrite (bool_decide_ext (wkey k win = wkey k' win') (wkey k' win' = wkey k win)) by done. lia.
  - apply (counts_put now (n + rest) rest st _ (wkey k win) n e); try done; cbn [undos granted].
    + intros k' win' Hw'. unfold tally in *. cbn [undos granted granted_in]. rewrite Hwin'. pose proof (H4 k' win' Hw'). pose proof (H3 k' win' Hw').
      destruct (bool_decide (k = k')) eqn:Ek; cbn [andb]; [|lia]. destruct (Z.eqb_spec win win') as [<-|]; [|lia].
      apply bool_decide_eq_true in Ek as <-. lia.
    + intros k' win' Hw'. unfold tally. cbn [undos granted granted_in]. rewrite Hwin'. rewrite wkey_dec by lia. lia.
Qed.

Lemma undo_ok now i rest st : 0 <= now < 2 ^ 62 -> 0 <= rest -> counts_ok now rest st -> counts_ok now rest (step now (EUndo i) st).
Proof.
  intros Hn Hrest Hst. pose proof Hst as (H1 & H2 & H3 & H4 & H5). cbn [step]. destruct (undos st !! i) as [[sk n]|] eqn:Ei; [|done].
  pose proof (H2 (sk, n) (list_elem_of_lookup_2 _ _ _ Ei)) as Hpos. cbn in Hpos.
  assert (forall x, x ∈ delete i (undos st) -> 0 < x.2) as Hdel.
  { intros x Hx%list_elem_of_delete_inv. by apply H2. }
  assert (sane now (window (cfg c))) as Hs by (unfold sane, int64; lia). unfold allow_undo.
  destruct (law_incr (E := Empty_set) now sk (wrap64 (- n)) (window (cfg c)) (world st) H1 Hs) as [Hok' Ho].
  destruct (Incr now sk (wrap64 (- n)) (window (cfg c)) (world st)) as [w' [v|[]]]. destruct Ho as [-> Hput]. cbn [fst] in *.
  assert (forall k win, pending_in (wkey k win) (delete i (undos st)) =
    pending_in (wkey k win) (undos st) + (if bool_decide (wkey k win = sk) then - n else 0)) as Hpend.
  { intros k win. rewrite (pending_delete _ _ _ _ _ Ei), (bool_decide_ext (sk = wkey k win) (wkey k win = sk)) by done. case_bool_decide; lia. }
  eapply (counts_put now rest rest st _ sk (- n)); [done|done|exact Hput|done| | |]; unfold tally; cbn [undos granted world].
  - intros k win Hw. split; [by apply H3|]. rewrite Hpend. pose proof (H4 k win Hw). case_bool_decide; lia.
  - intros k win Hw. rewrite Hpend. lia.
  - intros k win Hw Hnow E. specialize (Hpend k win). rewrite bool_decide_true in Hpend by done.
    pose proof (pending_nonneg (wkey k win) (delete i (undos st)) Hdel). pose proof (H4 k win Hw). pose proof (H3 k win Hw).
    specialize (H5 k win Hw Hnow). cbv zeta in H5. rewrite E in *. destruct (view (world st) now sk) as [e|] eqn:Ev; [|lia].
    destruct H5 as [He1 He2]. cbn [bumped num expiry val]. rewrite wrap64_add_r, He1, wrap64_id by (unfold int64; lia). split_and!; [lia|done|].
    pose proof (at_time_view now sk st e ltac:(lia) H1 Ev) as Ha. cbn. unfold alive in *. cbn [expiry]. by rewrite Ha.
Qed.

Lemma steps_ok evs : forall t st, 0 <= t -> timely (fun e => match e with EAllow _ _ n => 0 < n | EUndo _ => True end) t evs ->
  Forall (fun e => in_window e.1 e.2) evs ->
  counts_ok t (total evs) st -> forall k win, 0 <= win -> 0 <= granted_in k win (granted (steps evs st)) <= limit.
Proof.
  induction evs as [|[now e] evs IH]; intros t st Ht Hev Hin Hst; [apply Hst|]. apply Forall_cons in Hin as [Hine Hin]. cbn [fst snd] in Hine. cbn [timely total steps] in *. destruct Hev as (Hn & He & Hev).
  assert (0 <= total evs) as Hrest.
  { clear -Hev. revert now Hev. induction evs as [|[t e] evs IH]; intros now Hev; [done|]. cbn [timely total] in *. destruct Hev as (_ & He & Hev).
    specialize (IH t Hev). destruct e; cbn; lia. }
  apply (IH now); [lia|done|done|]. apply (counts_later t now) in Hst; [|lia]. destruct e as [read k n|i]; cbn [offered] in Hst.
  - apply allow_ok; [lia|done|done|done|done].
  - apply undo_ok; [lia|done|]. exact Hst.
Qed.

(** C17: With a shared store that does not fail, whatever the order in which the calls of the store of any number of
    callers of [Allow] take effect, when all ask for positive amounts under one limit and nothing else touches the keys,
    and every first call reaches the store in the window its caller has read on its clock, what is granted of a key in a
    window is at most the limit. *)
Theorem store_quota_kept evs w k win : ok w -> (forall k win, view w 0 (wkey k win) = None) ->
  timely (fun e => match e with EAllow _ _ n => 0 < n | EUndo _ => True end) 0 evs -> Forall (fun e => in_window e.1 e.2) evs ->
  total evs < 2 ^ 63 -> 0 <= win ->
  granted_in k win (granted (steps evs (MkShared w [] []))) <= limit.
Proof.
  intros Hok Hv Hev Hin Htot Hw. apply (steps_ok evs 0); [lia|done|done| |done]. split_and!; cbn; [done|by intros x Hx%elem_of_nil|lia|lia|].
  intros. by rewrite Hv.
Qed.
End shared.

(** * Runs *)

Definition demo_hash (k : string) : Z := Z.of_nat (String.length k).
Definition demo_ops : list (Z * op) :=
  [(5, OAllow "a" 2 3); (6, OIncr "b" 4); (15, OAllow "a" 2 3); (17, OAllow "a" 1 3); (101, OClean); (101, OCount "b"); (105, OAllow "a" 2 3)].

Lemma counter_refines_witness : let c := New (W := Memory) 100 [WithBuckets 10] None in
  whole c /\ play (call demo_hash) demo_ops c = [ABool true; AInt 4; ABool false; ABool true; ANone; AInt 0; ABool true] /\
  play (call demo_hash) demo_ops c = play (promise (bucketDur c) (window (cfg c))) demo_ops (fun _ => []).
Proof.
  split; [split; vm_compute; reflexivity|]. split; [vm_compute; reflexivity|].
  apply (counter_refines demo_hash 100 [WithBuckets 10] demo_ops); [split; vm_compute; reflexivity|]. repeat (split; try lia).
Defined.

Lemma quota_kept_witness : let c := New (W := Memory) 100 [WithBuckets 10] None in
  whole c /\ between (50 - (window (cfg c) - bucketDur c)) 50 (grants "a" demo_ops (play (call demo_hash) demo_ops c)) <= 3.
Proof.
  split; [split; vm_compute; reflexivity|].
  apply (quota_kept demo_hash 100 [WithBuckets 10] demo_ops "a" 3 50); [split; vm_compute; reflexivity|lia|repeat (split; try lia)|].
  repeat constructor; cbn; try lia; congruence.
Defined.

Definition demo_events : list (Z * event) := [(5, EAllow 4 "a" 2); (6, EAllow 3 "a" 2); (7, EAllow 7 "a" 1); (8, EUndo 0); (9, EUndo 0); (10, EAllow 2 "a" 1)].
Lemma store_quota_kept_witness : let c := New 100 [] (Some NewMemory) in
  granted_in c "a" 0 (granted (steps c 3 demo_events (MkShared NewMemory [] []))) = 3 /\
  granted_in c "a" 0 (granted (steps c 3 demo_events (MkShared NewMemory [] []))) <= 3.
Proof.
  split; [vm_compute; reflexivity|].
  apply (store_quota_kept (New 100 [] (Some NewMemory)) ltac:(split; vm_compute; reflexivity) 3 ltac:(lia) demo_events NewMemory "a" 0); [apply NewMemory_empty|intros; apply NewMemory_empty| | |vm_compute; reflexivity|lia].
  - repeat (split; try lia).
  - repeat constructor; vm_compute; (done || reflexivity).
Defined.

(** A first call that reaches the store after the window its caller has read finds the count expired, and begins a new one. *)
Lemma late_call_exceeds : granted_in (New 100 [] (Some NewMemory)) "a" 0
  (granted (steps (New 100 [] (Some NewMemory)) 3 [(0, EAllow 0 "a" 3); (105, EAllow 99 "a" 3)] (MkShared NewMemory [] []))) = 6.
Proof. vm_compute. reflexivity. Qed.

(** The oldest bucket is dropped as a whole: twice the limit is granted within a window. *)
Lemma double_burst : let c := New (W := Memory) 100 [WithBuckets 10] None in
  play (call demo_hash) [(9, OAllow "a" 3 3); (100, OAllow "a" 3 3)] c = [ABool true; ABool true].
Proof. vm_compute. reflexivity. Qed.

(** A window of fewer nanoseconds than buckets: the length of a bucket is zero. *)
Lemma tiny_window_panics : let c := New (W := Memory) 5 [] None in
  (call demo_hash 1 (OIncr "a" 1) c).2 = APanic "runtime error: integer divide by zero".
Proof. vm_compute. reflexivity. Qed.
