(* ===== verification/Idempotency.v ===== *)
(** Idempotent execution by key ([pkg/store/idempotency/idempotency.go]): concurrent callers share one
    run of a function and its result until it expires, in memory by entries with a channel that is
    closed at the end of the run, or through a shared store of [Kvstore]. *)
From Stdlib Require Import ZArith Lia Bool.
From stdpp Require Import base numbers strings list gmap fin_maps.
From S2P Require Import Prelude Kvstore.

Open Scope Z_scope.

Record config := MkConfig { ttl : Z; cacheErrors : bool; gcInterval : Z }.
Definition WithTTL (d : Z) (c : config) : config := MkConfig d (cacheErrors c) (gcInterval c).
Definition WithCacheErrors (b : bool) (c : config) : config := MkConfig (ttl c) b (gcInterval c).
Definition WithGCInterval (d : Z) (c : config) : config := MkConfig (ttl c) (cacheErrors c) d.

Definition minute : Z := 60 * 10 ^ 9.
Definition New_config (opts : list (config -> config)) : config :=
  let c := foldl (fun c o => o c) (MkConfig (10 * minute) false minute) opts in
  let c := if ttl c <=? 0 then MkConfig (10 * minute) (cacheErrors c) (gcInterval c) else c in
  if gcInterval c <=? 0 then MkConfig (ttl c) (cacheErrors c) minute else c.

(** * In memory *)

Section memory.
(** [T] is the type of results with its zero value, [Er] the errors of the functions run. *)
Context {T Er : Type} (zero : T) (cfg : config).

Inductive iErr := ErrConflict | ErrStopped | ErrOf (e : Er).

(** [done] is the channel [done] being closed. *)
Record entry := MkEntry { done : bool; result : T; err : option Er; expiry : Z }.

(** [items] points into the entries made so far. *)
Record store := MkStore { heap : nat -> entry; next : nat; items : gmap string nat; stopped : bool }.
Definition New : store := MkStore (fun _ => MkEntry false zero None 0) 0 ∅ false.

Definition write (l : nat) (e : entry) (s : store) : store :=
  MkStore (fun k => if decide (k = l) then e else heap s k) (next s) (items s) (stopped s).
Definition at_items (m : gmap string nat) (s : store) : store := MkStore (heap s) (next s) m (stopped s).
(** [s.items[key] = &entry{done: make(chan struct{})}]. *)
Definition place (key : string) (s : store) : store * nat :=
  let l := next s in
  (MkStore (fun k => if decide (k = l) then MkEntry false zero None 0 else heap s k) (S l) (<[key := l]> (items s)) (stopped s), l).
Definition closed_panic : string := "close of closed channel".

Definition fresh_at (now : Z) (e : entry) : bool := (expiry e =? 0) || (now <? expiry e).

(** [Do] up to the run of the function or the wait for that of another call. *)
Inductive verdict := VShared (v : T) (e : option Er) | VWait (l : nat) | VRun (l : nat).
Definition do_begin (now : Z) (key : string) (s : store) : store * verdict :=
  match items s !! key with
  | Some l =>
      if done (heap s l) then
        if fresh_at now (heap s l) then (s, VShared (result (heap s l)) (err (heap s l)))
        else let '(s, l) := place key (at_items (delete key (items s)) s) in (s, VRun l)
      else (s, VWait l)
  | None => let '(s, l) := place key s in (s, VRun l)
  end.

(** [delete] where the record is still the one of the call. *)
Definition drop_own (key : string) (l : nat) (s : store) : store :=
  match items s !! key with
  | Some cur => if decide (cur = l) then at_items (delete key (items s)) s else s
  | None => s
  end.

(** [Do] from the return of the function on, [now] being the time it is over. *)
Definition do_end (now : Z) (key : string) (l : nat) (v : T) (e : option Er) (s : store) : go store :=
  match e with
  | Some _ =>
      if negb (cacheErrors cfg) then
        let s := drop_own key l s in
        if done (heap s l) then Panic closed_panic else Ret (write l (MkEntry true v e (expiry (heap s l))) s)
      else if done (heap s l) then Panic closed_panic else Ret (write l (MkEntry true v e (wrap64 (now + ttl cfg))) s)
  | None =>
      if done (heap s l) then Panic closed_panic else Ret (write l (MkEntry true v e (wrap64 (now + ttl cfg))) s)
  end.

(** The deferred function of [Do] where the function panicked. *)
Definition do_panicked (key : string) (l : nat) (s : store) : go store :=
  let s := drop_own key l s in
  if done (heap s l) then Panic closed_panic
  else Ret (write l (MkEntry true (result (heap s l)) (err (heap s l)) (expiry (heap s l))) s).

Definition Get (now : Z) (key : string) (s : store) : option T :=
  match items s !! key with
  | None => None
  | Some l =>
      if done (heap s l) then
        if negb (expiry (heap s l) =? 0) && (expiry (heap s l) <=? now) then None else Some (result (heap s l))
      else None
  end.

Definition Forget (key : string) (s : store) : store := at_items (delete key (items s)) s.
Definition Len (s : store) : Z := Z.of_nat (size (items s)).
Definition Stop (s : store) : store := MkStore (heap s) (next s) (items s) true.

(** One round of the cleaner. *)
Definition gc (now : Z) (s : store) : store :=
  at_items (filter (fun '(_, l) => (done (heap s l) && (negb (expiry (heap s l) =? 0) && (expiry (heap s l) <=? now))) = false) (items s)) s.

Definition acquireMemory (now : Z) (key : string) (s : store) : store * Prelude.result iErr (option T) :=
  match items s !! key with
  | Some l =>
      if done (heap s l) then
        if fresh_at now (heap s l) then (s, Ok (Some (result (heap s l))))
        else ((place key (at_items (delete key (items s)) s)).1, Ok None)
      else (s, Err ErrConflict)
  | None => ((place key s).1, Ok None)
  end.

Definition commitMemory (now : Z) (key : string) (v : T) (s : store) : go store :=
  match items s !! key with
  | None => Ret s
  | Some l =>
      if done (heap s l) then Panic closed_panic
      else Ret (write l (MkEntry true v (err (heap s l)) (wrap64 (now + ttl cfg))) s)
  end.

Definition releaseMemory (key : string) (s : store) : store :=
  match items s !! key with
  | None => s
  | Some l =>
      let s := at_items (delete key (items s)) s in
      if done (heap s l) then s else write l (MkEntry true (result (heap s l)) (err (heap s l)) (expiry (heap s l))) s
  end.

(** ** Concurrent callers *)

(** What ended: a run of the function, with its results, a panic of it, or a commit; a release. *)
Inductive ending := Ended (v : T) (e : option Er) | Dropped.

(** A caller of [Do] is running its function or waiting, at an entry. The holders of keys acquired and
    the log of what ended are kept on the side. *)
Record system := MkSystem {
  st : store; threads : gmap nat (string * nat * bool); guards : gset string; log : list (string * ending * Z)
}.

Inductive event := EDo (tid : nat) (k : string) | EWake (tid : nat) | EAbandon (tid : nat) | EReturn (tid : nat) (v : T) (e : option Er)
  | EPanic (tid : nat) | EAcquire (k : string) | ECommit (k : string) (v : T) | ERelease (k : string) | EClean | EStop.
Inductive out := ONone | ORun (k : string) | OReturn (k : string) (v : T) (e : option iErr) (shared : bool)
  | OAcquired (k : string) | OHit (k : string) (v : T) | OConflict (k : string).

(** One critical section of one caller. Events that are not possible change nothing: a commit or a
    release is made by the holder of the key only. *)
Definition step (now : Z) (ev : event) (s : system) : go (system * out) :=
  match ev with
  | EDo tid k =>
      match threads s !! tid with
      | Some _ => Ret (s, ONone)
      | None =>
          let '(s', r) := do_begin now k (st s) in
          match r with
          | VShared v e => Ret (MkSystem s' (threads s) (guards s) (log s), OReturn k v (ErrOf <$> e) true)
          | VWait l => Ret (MkSystem s' (<[tid := (k, l, false)]> (threads s)) (guards s) (log s), ONone)
          | VRun l => Ret (MkSystem s' (<[tid := (k, l, true)]> (threads s)) (guards s) (log s), ORun k)
          end
      end
  | EWake tid =>
      match threads s !! tid with
      | Some (k, l, false) =>
          if done (heap (st s) l)
          then Ret (MkSystem (st s) (delete tid (threads s)) (guards s) (log s),
                    OReturn k (result (heap (st s) l)) (ErrOf <$> err (heap (st s) l)) true)
          else Ret (s, ONone)
      | _ => Ret (s, ONone)
      end
  | EAbandon tid =>
      match threads s !! tid with
      | Some (k, l, false) =>
          if stopped (st s) then Ret (MkSystem (st s) (delete tid (threads s)) (guards s) (log s), OReturn k zero (Some ErrStopped) false)
          else Ret (s, ONone)
      | _ => Ret (s, ONone)
      end
  | EReturn tid v e =>
      match threads s !! tid with
      | Some (k, l, true) =>
          s' ← do_end now k l v e (st s);
          Ret (MkSystem s' (delete tid (threads s)) (guards s) ((k, Ended v e, now) :: log s), OReturn k v (ErrOf <$> e) false)
      | _ => Ret (s, ONone)
      end
  | EPanic tid =>
      match threads s !! tid with
      | Some (k, l, true) =>
          s' ← do_panicked k l (st s);
          Ret (MkSystem s' (delete tid (threads s)) (guards s) ((k, Dropped, now) :: log s), ONone)
      | _ => Ret (s, ONone)
      end
  | EAcquire k =>
      let '(s', r) := acquireMemory now k (st s) in
      match r with
      | Ok None => Ret (MkSystem s' (threads s) ({[k]} ∪ guards s) (log s), OAcquired k)
      | Ok (Some v) => Ret (MkSystem s' (threads s) (guards s) (log s), OHit k v)
      | Err _ => Ret (MkSystem s' (threads s) (guards s) (log s), OConflict k)
      end
  | ECommit k v =>
      if decide (k ∈ guards s) then
        s' ← commitMemory now k v (st s);
        Ret (MkSystem s' (threads s) (guards s ∖ {[k]}) ((k, Ended v None, now) :: log s), ONone)
      else Ret (s, ONone)
  | ERelease k =>
      if decide (k ∈ guards s) then
        Ret (MkSystem (releaseMemory k (st s)) (threads s) (guards s ∖ {[k]}) ((k, Dropped, now) :: log s), ONone)
      else Ret (s, ONone)
  | EClean => Ret (MkSystem (gc now (st s)) (threads s) (guards s) (log s), ONone)
  | EStop => Ret (MkSystem (Stop (st s)) (threads s) (guards s) (log s), ONone)
  end.

Definition start : system := MkSystem New ∅ ∅ [].

(** The states a history of events leads to. *)
Inductive reach : Z -> system -> Prop :=
| reach_start : reach 0 start
| reach_step t now ev s s' o : reach t s -> t <= now < 2 ^ 62 -> step now ev s = Ret (s', o) -> reach now s'.

(** ** What holds of every state *)

Context (Httl : 0 < ttl cfg < 2 ^ 62).

(** Results that stay until they expire. *)
Definition kept (e : option Er) : bool := match e with None => true | Some _ => cacheErrors cfg end.

(** The content of an entry that is done is what ended a run of its key. *)
Definition from_log (k : string) (e : entry) (lg : list (string * ending * Z)) : Prop :=
  (exists t', (k, Ended (result e) (err e), t') ∈ lg) \/ (result e = zero /\ err e = None /\ (exists t', (k, Dropped, t') ∈ lg)).

(** [names] says which key an entry was made for. *)
Record Inv (names : nat -> string) (t : Z) (s : system) : Prop := {
  i_items : forall k l, items (st s) !! k = Some l -> names l = k /\ (l < next (st s))%nat;
  i_threads : forall tid k l b, threads s !! tid = Some (k, l, b) -> names l = k /\ (l < next (st s))%nat;
  i_run : forall tid k l, threads s !! tid = Some (k, l, true) -> items (st s) !! k = Some l /\ done (heap (st s) l) = false /\ k ∉ guards s;
  i_one : forall tid tid' k l l', threads s !! tid = Some (k, l, true) -> threads s !! tid' = Some (k, l', true) -> tid = tid';
  i_guard : forall k, k ∈ guards s -> exists l, items (st s) !! k = Some l /\ done (heap (st s) l) = false;
  i_owner : forall k l, items (st s) !! k = Some l -> done (heap (st s) l) = false -> k ∈ guards s \/ exists tid, threads s !! tid = Some (k, l, true);
  i_wait : forall tid k l, threads s !! tid = Some (k, l, false) -> done (heap (st s) l) = false -> items (st s) !! k = Some l;
  i_blank : forall l, done (heap (st s) l) = false -> heap (st s) l = MkEntry false zero None 0;
  i_from : forall l, (l < next (st s))%nat -> done (heap (st s) l) = true -> from_log (names l) (heap (st s) l) (log s);
  i_done : forall k l, items (st s) !! k = Some l -> done (heap (st s) l) = true -> exists t', (k, Ended (result (heap (st s) l)) (err (heap (st s) l)), t') ∈ log s /\
    kept (err (heap (st s) l)) = true /\ 0 <= t' /\ expiry (heap (st s) l) = t' + ttl cfg;
  i_fresh : forall k v e t', (k, Ended v e, t') ∈ log s -> kept e = true -> t < t' + ttl cfg ->
    exists l, items (st s) !! k = Some l /\ done (heap (st s) l) = true /\ expiry (heap (st s) l) = t' + ttl cfg
}.

Lemma Inv_later names t now s : t <= now -> Inv names t s -> Inv names now s.
Proof. intros Ht [? ? ? ? ? ? ? ? ? ? H]. split; try done. intros k v e t' H1 H2 H3. apply (H k v e t' H1 H2). lia. Qed.

Lemma Inv_start : Inv (fun _ => ""%string) 0 start.
Proof. split; cbn; try done; intros; set_solver || lia. Qed.

(** The key has no entry that a call would use. *)
Definition vacant (now : Z) (k : string) (s : store) : Prop :=
  forall l, items s !! k = Some l -> done (heap s l) = true /\ fresh_at now (heap s l) = false.

Lemma vacant_free names now k s : Inv names now s -> vacant now k (st s) ->
  (k ∉ guards s) /\ (forall tid l, threads s !! tid <> Some (k, l, true)) /\
  forall v e t', (k, Ended v e, t') ∈ log s -> kept e = true -> t' + ttl cfg <= now.
Proof.
  intros Hi Hv. split_and!.
  - intros Hk. destruct (i_guard _ _ _ Hi k Hk) as (l & Hl & Hd). destruct (Hv l Hl). congruence.
  - intros tid l Ht. destruct (i_run _ _ _ Hi tid k l Ht) as (Hl & Hd & _). destruct (Hv l Hl). congruence.
  - intros v e t' Hin Hke. destruct (Z.lt_ge_cases now (t' + ttl cfg)) as [Hlt|]; [|lia].
    destruct (i_fresh _ _ _ Hi k v e t' Hin Hke Hlt) as (l & Hl & Hd & Hx). destruct (Hv l Hl) as [_ Hf]. unfold fresh_at in Hf.
    rewrite Hx in Hf. bool_prop. lia.
Qed.

Definition renamed (l : nat) (k : string) (names : nat -> string) : nat -> string := fun l' => if decide (l' = l) then k else names l'.

Lemma from_log_cons k e lg x : from_log k e lg -> from_log k e (x :: lg).
Proof. unfold from_log. intros [(t' & ?)|(? & ? & t' & ?)]; [left|right; split_and!; try done]; exists t'; by right. Qed.

(** A new entry for a vacant key, with its owner: a caller that runs its function, or a holder. *)
Lemma Inv_place names now k s th g : Inv names now s -> vacant now k (st s) -> let '(s', l) := place k (st s) in
  (forall tid x, th !! tid = Some x -> threads s !! tid = Some x \/ x = (k, l, true)) ->
  (forall tid x, threads s !! tid = Some x -> th !! tid = Some x) ->
  (forall tid tid' x x', th !! tid = Some (k, x, true) -> th !! tid' = Some (k, x', true) -> tid = tid') ->
  (forall k', k' ∈ guards s -> k' ∈ g) -> (forall k', k' ∈ g -> k' ∈ guards s \/ k' = k) ->
  (k ∈ g /\ (forall tid, th !! tid <> Some (k, l, true)) \/ ((k ∉ g) /\ (exists tid, th !! tid = Some (k, l, true)))) ->
  Inv (renamed l k names) now (MkSystem s' th g (log s)).
Proof.
  intros Hi Hv. destruct (vacant_free _ _ _ _ Hi Hv) as (Hg & Hth & Hlog). cbn [place]. intros H1 H2 H3 H4 H5 H6.
  set (l := next (st s)) in *. assert (forall l', (l' < l)%nat -> renamed l k names l' = names l') as Hren by (intros; unfold renamed; by rewrite decide_False by lia).
  assert (renamed l k names l = k) as Hrl by (unfold renamed; by rewrite decide_True).
  assert (forall tid k' l' b, threads s !! tid = Some (k', l', b) -> l' <> l) as Hold by (intros tid k' l' b E; destruct (i_threads _ _ _ Hi _ _ _ _ E); lia).
  assert (forall k' l', items (st s) !! k' = Some l' -> l' <> l) as Hold' by (intros k' l' E; destruct (i_items _ _ _ Hi _ _ E); lia).
  split; cbn [st threads guards log items heap next].
  - intros k' l'. rewrite lookup_insert_Some. intros [[<- <-]|[_ E]]; [split; [done|lia]|]. destruct (i_items _ _ _ Hi _ _ E). rewrite Hren by lia. split; [done|lia].
  - intros tid k' l' b E. destruct (H1 _ _ E) as [E'|[= -> -> ->]]; [|split; [done|lia]]. destruct (i_threads _ _ _ Hi _ _ _ _ E'). rewrite Hren by lia. split; [done|lia].
  - intros tid k' l' E. destruct (H1 _ _ E) as [E'|[= -> ->]].
    + destruct (i_run _ _ _ Hi _ _ _ E') as (Hl & Hd & Hk). assert (k' <> k) by (intros ->; by eapply Hth). rewrite lookup_insert_ne, decide_False by (done || by eapply Hold).
      split_and!; [done|done|]. intros [?|?]%H5; done.
    + rewrite lookup_insert_eq, decide_True by done. split_and!; [done|done|]. intros Hk. destruct H6 as [[_ H6]|[H6 _]]; [by eapply H6|done].
  - intros tid tid' k' l1 l2 E1 E2. destruct (decide (k' = k)) as [->|Hd]; [by eapply H3|]. destruct (H1 _ _ E1) as [E1'|[= -> _]]; [|done].
    destruct (H1 _ _ E2) as [E2'|[= -> _]]; [|done]. by eapply (i_one _ _ _ Hi).
  - intros k' Hk. destruct (decide (k' = k)) as [->|Hd]; [exists l; by rewrite lookup_insert_eq, decide_True|]. destruct (H5 k' Hk) as [Hk'|]; [|done].
    destruct (i_guard _ _ _ Hi k' Hk') as (l' & E & Hdn). exists l'. rewrite lookup_insert_ne, decide_False by (done || by eapply Hold'). done.
  - intros k' l'. rewrite lookup_insert_Some. intros [[<- <-]|[Hne E]].
    + intros _. destruct H6 as [[? _]|[_ ?]]; [by left|by right].
    + rewrite decide_False by (by eapply Hold'). intros Hd. destruct (i_owner _ _ _ Hi _ _ E Hd) as [?|[tid ?]]; [left; by apply H4|right; exists tid; by apply H2].
  - intros tid k' l' E. destruct (H1 _ _ E) as [E'|[=]]. rewrite decide_False by (by eapply Hold). intros Hd.
    pose proof (i_wait _ _ _ Hi _ _ _ E' Hd) as Hl. destruct (decide (k = k')) as [<-|]; [|by rewrite lookup_insert_ne]. destruct (Hv _ Hl). congruence.
  - intros l'. destruct (decide (l' = l)); [done|]. apply (i_blank _ _ _ Hi).
  - intros l' Hl'. destruct (decide (l' = l)); [done|]. rewrite Hren by lia. intros Hd. apply (i_from _ _ _ Hi); [lia|done].
  - intros k' l'. rewrite lookup_insert_Some. intros [[<- <-]|[Hne E]]; [by rewrite decide_True by done|]. rewrite decide_False by (by eapply Hold'). apply (i_done _ _ _ Hi _ _ E).
  - intros k' v e t' Hin Hke Hlt. destruct (decide (k = k')) as [<-|Hne]; [specialize (Hlog v e t' Hin Hke); lia|].
    destruct (i_fresh _ _ _ Hi k' v e t' Hin Hke Hlt) as (l' & E & Hd & Hx). exists l'. rewrite lookup_insert_ne, decide_False by (done || by eapply Hold'). done.
Qed.

(** What an entry ends with, and whether it stays for later calls. *)
Definition ends (k : string) (now : Z) (e' : entry) (x : ending) (m m' : gmap string nat) : Prop :=
  done e' = true /\
  ((m' = m /\ x = Ended (result e') (err e') /\ kept (err e') = true /\ expiry e' = now + ttl cfg) \/
   (m' = delete k m /\ ((x = Ended (result e') (err e') /\ kept (err e') = false) \/ (x = Dropped /\ result e' = zero /\ err e' = None)))).

(** The owner of a key ends its entry. *)
Lemma Inv_end names now k l s e' x th g m' : 0 <= now -> Inv names now s -> items (st s) !! k = Some l -> done (heap (st s) l) = false ->
  ends k now e' x (items (st s)) m' ->
  (forall tid y, th !! tid = Some y -> threads s !! tid = Some y /\ y <> (k, l, true)) ->
  (forall tid k' l', threads s !! tid = Some (k', l', true) -> k' <> k -> th !! tid = Some (k', l', true)) ->
  (forall k', k' ∈ g <-> k' ∈ guards s /\ k' <> k) ->
  Inv names now (MkSystem (write l e' (at_items m' (st s))) th g ((k, x, now) :: log s)).
Proof.
  intros Hn Hi Hl Hd0 [He' Hm] H1 H2 H3.
  assert (forall k' l', k' <> k -> items (st s) !! k' = Some l' -> l' <> l) as Hother.
  { intros k' l' Hne E ->. destruct (i_items _ _ _ Hi _ _ E), (i_items _ _ _ Hi _ _ Hl). congruence. }
  assert (forall k' l', m' !! k' = Some l' -> items (st s) !! k' = Some l') as Hsub.
  { destruct Hm as [[-> _]|[-> _]]; [done|]. intros k' l' [_ ?]%lookup_delete_Some. done. }
  assert (forall k', k' <> k -> m' !! k' = items (st s) !! k') as Hne.
  { intros k' ?. destruct Hm as [[-> _]|[-> _]]; [done|]. by rewrite lookup_delete_ne. }
  assert (forall tid k' l', th !! tid = Some (k', l', true) -> k' <> k) as Hrun.
  { intros tid k' l' E ->. destruct (H1 _ _ E) as [E' Hx]. destruct (i_run _ _ _ Hi _ _ _ E') as (Hl' & _). congruence. }
  split; cbn [st threads guards log items heap next write at_items].
  - intros k' l' E. apply (i_items _ _ _ Hi). by apply Hsub.
  - intros tid k' l' b E. apply (i_threads _ _ _ Hi tid k' l' b). by apply H1.
  - intros tid k' l' E. pose proof (Hrun _ _ _ E) as Hk. destruct (H1 _ _ E) as [E' _]. destruct (i_run _ _ _ Hi _ _ _ E') as (Hl' & Hd & Hg).
    rewrite Hne, decide_False by (done || by eapply Hother). split_and!; [done|done|]. by intros [? _]%H3.
  - intros tid tid' k' l1 l2 E1%H1 E2%H1. by eapply (i_one _ _ _ Hi); [apply E1|apply E2].
  - intros k' [Hk Hk']%H3. destruct (i_guard _ _ _ Hi k' Hk) as (l' & E & Hd). exists l'. rewrite Hne, decide_False by (done || by eapply Hother). done.
  - intros k' l' E. destruct (decide (k' = k)) as [->|Hk'].
    + apply Hsub in E. rewrite Hl in E. injection E as <-. rewrite decide_True, He' by done. done.
    + rewrite decide_False by (eapply Hother; [done|by apply Hsub]). intros Hd.
      destruct (i_owner _ _ _ Hi _ _ (Hsub _ _ E) Hd) as [?|[tid ?]]; [left; by apply H3|right; exists tid; by apply H2].
  - intros tid k' l' [E _]%H1. destruct (decide (l' = l)) as [->|Hl']; [by rewrite He'|]. intros Hd.
    pose proof (i_wait _ _ _ Hi _ _ _ E Hd) as E'. destruct (decide (k' = k)) as [->|]; [congruence|]. by rewrite Hne.
  - intros l'. destruct (decide (l' = l)) as [->|]; [by rewrite He'|]. apply (i_blank _ _ _ Hi).
  - intros l' Hl'. destruct (decide (l' = l)) as [->|]; intros Hd; [|apply from_log_cons, (i_from _ _ _ Hi); done].
    destruct (i_items _ _ _ Hi _ _ Hl) as [-> _]. unfold from_log.
    destruct Hm as [(_ & -> & _)|(_ & [[-> _]|(-> & ? & ?)])]; [left; exists now; by left|left; exists now; by left|right]. split_and!; try done. exists now. by left.
  - intros k' l' E. destruct (decide (k' = k)) as [->|Hk'].
    + pose proof (Hsub _ _ E) as E'. rewrite Hl in E'. injection E' as <-. rewrite decide_True by done. intros _.
      destruct Hm as [(_ & -> & Hke & Hx)|(-> & _)]; [|by rewrite lookup_delete_eq in E]. exists now. split_and!; [by left|done|done|done].
    + rewrite decide_False by (eapply Hother; [done|by apply Hsub]). intros Hd. destruct (i_done _ _ _ Hi _ _ (Hsub _ _ E) Hd) as (t' & ? & ?).
      exists t'. split; [by right|done].
  - intros k' v e t' [[= -> <- ->]|Hin]%elem_of_cons Hke Hlt.
    + destruct Hm as [(-> & [= -> ->] & _ & Hx)|(_ & [[[= -> ->] Hf]|[[=] _]])]; [|congruence]. exists l. by rewrite decide_True.
    + destruct (i_fresh _ _ _ Hi k' v e t' Hin Hke Hlt) as (l' & E & Hd & Hx). destruct (decide (k' = k)) as [->|Hk']; [congruence|].
      exists l'. rewrite Hne, decide_False by (done || by eapply Hother). done.
Qed.

(** Callers come to wait, wake and leave. *)
Lemma Inv_threads names now s th : Inv names now s ->
  (forall tid k l, th !! tid = Some (k, l, true) <-> threads s !! tid = Some (k, l, true)) ->
  (forall tid k l, th !! tid = Some (k, l, false) -> threads s !! tid = Some (k, l, false) \/ items (st s) !! k = Some l) ->
  Inv names now (MkSystem (st s) th (guards s) (log s)).
Proof.
  intros Hi H1 H2. split; cbn [st threads guards log]; try apply Hi.
  - intros tid k l [] E; [apply H1 in E; by eapply (i_threads _ _ _ Hi)|]. destruct (H2 _ _ _ E) as [E'|E']; [by eapply (i_threads _ _ _ Hi)|by apply (i_items _ _ _ Hi)].
  - intros tid k l E%H1. by eapply (i_run _ _ _ Hi).
  - intros tid tid' k l l' E%H1 E'%H1. by eapply (i_one _ _ _ Hi).
  - intros k l E Hd. destruct (i_owner _ _ _ Hi _ _ E Hd) as [?|[tid ?%H1]]; [by left|right; by exists tid].
  - intros tid k l E Hd. destruct (H2 _ _ _ E) as [E'|E']; [by eapply (i_wait _ _ _ Hi)|done].
Qed.

Lemma Inv_clean names now s : Inv names now s -> Inv names now (MkSystem (gc now (st s)) (threads s) (guards s) (log s)).
Proof.
  intros Hi. unfold gc.
  assert (forall k l, filter (fun '(_, l) => (done (heap (st s) l) && (negb (expiry (heap (st s) l) =? 0) && (expiry (heap (st s) l) <=? now))) = false) (items (st s)) !! k = Some l <->
    items (st s) !! k = Some l /\ (done (heap (st s) l) && (negb (expiry (heap (st s) l) =? 0) && (expiry (heap (st s) l) <=? now))) = false) as Hf
    by (intros; apply (map_lookup_filter_Some (fun '(_, l) => _) (items (st s)))).
  set (m := filter _ _) in *. clearbody m.
  split; cbn [st threads guards log items heap next at_items].
  - intros k l [E _]%Hf. by apply (i_items _ _ _ Hi).
  - apply (i_threads _ _ _ Hi).
  - intros tid k l E. destruct (i_run _ _ _ Hi _ _ _ E) as (Hl & Hd & Hg). split_and!; [|done|done]. apply Hf. by rewrite Hd.
  - apply (i_one _ _ _ Hi).
  - intros k Hk. destruct (i_guard _ _ _ Hi k Hk) as (l & E & Hd). exists l. split; [|done]. apply Hf. by rewrite Hd.
  - intros k l [E _]%Hf. by apply (i_owner _ _ _ Hi).
  - intros tid k l E Hd. apply Hf. split; [by eapply (i_wait _ _ _ Hi)|by rewrite Hd].
  - apply (i_blank _ _ _ Hi).
  - apply (i_from _ _ _ Hi).
  - intros k l [E _]%Hf. by apply (i_done _ _ _ Hi).
  - intros k v e t' Hin Hke Hlt. destruct (i_fresh _ _ _ Hi k v e t' Hin Hke Hlt) as (l & E & Hd & Hx). exists l. split_and!; [|done|done].
    apply Hf. split; [done|]. rewrite Hd, Hx. cbn. destruct (Z.leb_spec (t' + ttl cfg) now); [lia|]. by rewrite andb_false_r.
Qed.

(** ** What each answer means *)

Definition honest (now : Z) (s : system) (o : out) : Prop :=
  match o with
  | ORun k | OAcquired k => (k ∉ guards s) /\ (forall tid l, threads s !! tid <> Some (k, l, true)) /\
      forall v e t', (k, Ended v e, t') ∈ log s -> kept e = true -> t' + ttl cfg <= now
  | OReturn k v e true => exists er, e = ErrOf <$> er /\ from_log k (MkEntry true v er 0) (log s)
  | OHit k v => exists er t', (k, Ended v er, t') ∈ log s /\ kept er = true /\ now < t' + ttl cfg
  | _ => True
  end.

Definition good (now : Z) (s : system) (r : go (system * out)) : Prop :=
  exists names s' o, r = Ret (s', o) /\ Inv names now s' /\ honest now s o.

Lemma place_deleted k (s : store) : place k (at_items (delete k (items s)) s) = place k s.
Proof. unfold place. cbn. by rewrite insert_delete_eq. Qed.

Lemma vacant_expired now k l s : items s !! k = Some l -> done (heap s l) = true -> fresh_at now (heap s l) = false -> vacant now k s.
Proof. intros E Hd Hf l' E'. rewrite E in E'. by injection E' as <-. Qed.
Lemma vacant_none now k s : items s !! k = None -> vacant now k s.
Proof. intros E l E'. congruence. Qed.

Lemma fresh_log names now k l s : Inv names now s -> items (st s) !! k = Some l -> done (heap (st s) l) = true -> fresh_at now (heap (st s) l) = true ->
  exists t', (k, Ended (result (heap (st s) l)) (err (heap (st s) l)), t') ∈ log s /\ kept (err (heap (st s) l)) = true /\ now < t' + ttl cfg.
Proof.
  intros Hi E Hd Hf. destruct (i_done _ _ _ Hi _ _ E Hd) as (t' & H1 & H2 & H3 & H4). exists t'. split_and!; [done|done|].
  unfold fresh_at in Hf. rewrite H4 in Hf. apply orb_true_iff in Hf as [Hf|Hf]; bool_prop; lia.
Qed.

Lemma run_good names now tid k s : Inv names now s -> threads s !! tid = None -> vacant now k (st s) ->
  good now s (let '(s', l) := place k (st s) in Ret (MkSystem s' (<[tid := (k, l, true)]> (threads s)) (guards s) (log s), ORun k)).
Proof.
  intros Hi Ht Hv. pose proof (vacant_free _ _ _ _ Hi Hv) as Hfree. destruct Hfree as (Hg & Hth & Hlog).
  pose proof (Inv_place names now k s (<[tid := (k, next (st s), true)]> (threads s)) (guards s) Hi Hv) as Hp. cbn [place] in *.
  eexists _, _, _. split; [done|]. split; [|done]. apply Hp.
  - intros tid' x [[<- <-]|[_ E]]%lookup_insert_Some; [by right|by left].
  - intros tid' x E. rewrite lookup_insert_ne; [done|congruence].
  - intros t1 t2 x1 x2 [[<- _]|[_ E1]]%lookup_insert_Some [[<- _]|[_ E2]]%lookup_insert_Some; [done|..]; exfalso; by eapply Hth.
  - done.
  - intros k' Hk'. by left.
  - right. split; [done|]. exists tid. apply lookup_insert_eq.
Qed.

Lemma acquire_good names now k s : Inv names now s -> vacant now k (st s) ->
  good now s (Ret (MkSystem (place k (st s)).1 (threads s) ({[k]} ∪ guards s) (log s), OAcquired k)).
Proof.
  intros Hi Hv. pose proof (vacant_free _ _ _ _ Hi Hv) as Hfree. destruct Hfree as (Hg & Hth & Hlog).
  pose proof (Inv_place names now k s (threads s) ({[k]} ∪ guards s) Hi Hv) as Hp. cbn [place] in *.
  eexists _, _, _. split; [done|]. split; [|done]. apply Hp.
  - intros tid' x E. by left.
  - done.
  - intros t1 t2 x1 x2 E1 _. exfalso. by eapply Hth.
  - set_solver.
  - set_solver.
  - left. split; [set_solver|]. intros tid E. by eapply Hth.
Qed.

Lemma begin_good names now tid k s : Inv names now s -> threads s !! tid = None -> good now s (step now (EDo tid k) s).
Proof.
  intros Hi Ht. cbn [step]. rewrite Ht. unfold do_begin. destruct (items (st s) !! k) as [l|] eqn:E.
  - destruct (done (heap (st s) l)) eqn:Hd.
    + destruct (fresh_at now (heap (st s) l)) eqn:Hf.
      * exists names. eexists _, _. split; [done|]. split; [by destruct s|]. destruct (fresh_log _ _ _ _ _ Hi E Hd Hf) as (t' & H1 & _).
        exists (err (heap (st s) l)). split; [done|]. left. by exists t'.
      * rewrite place_deleted. exact (run_good names now tid k s Hi Ht (vacant_expired _ _ _ _ E Hd Hf)).
    + exists names. eexists _, _. split; [done|]. split; [|done]. apply Inv_threads; [done| |].
      * intros tid' k' l'. rewrite lookup_insert_Some. split; [intros [[_ [=]]|[_ ?]]; done|]. intros E'. right. split; [congruence|done].
      * intros tid' k' l' [[_ [= <- <-]]|[_ ?]]%lookup_insert_Some; [by right|by left].
  - exact (run_good names now tid k s Hi Ht (vacant_none _ _ _ E)).
Qed.

Lemma drop_own_items k l (s : store) : items s !! k = Some l -> drop_own k l s = at_items (delete k (items s)) s.
Proof. intros E. unfold drop_own. rewrite E. by destruct (decide (l = l)). Qed.

Lemma write_same (s : store) l e : write l e s = write l e (at_items (items s) s).
Proof. by destruct s. Qed.

(** The owner that leaves is a running caller. *)
Lemma leave_good names now tid k l s e' x m' o : 0 <= now -> Inv names now s -> threads s !! tid = Some (k, l, true) ->
  ends k now e' x (items (st s)) m' -> honest now s o ->
  good now s (Ret (MkSystem (write l e' (at_items m' (st s))) (delete tid (threads s)) (guards s) ((k, x, now) :: log s), o)).
Proof.
  intros Hn Hi Ht He Ho. destruct (i_run _ _ _ Hi _ _ _ Ht) as (E & Hd & Hg). exists names. eexists _, _. split; [done|]. split; [|done].
  apply Inv_end; try done.
  - intros tid' y [Hne E']%lookup_delete_Some. split; [done|]. intros ->. apply Hne. by eapply (i_one _ _ _ Hi).
  - intros tid' k' l' E' Hne. rewrite lookup_delete_ne; [done|congruence].
  - intros k'. split; [|naive_solver]. intros Hk. split; [done|]. by intros ->.
Qed.

Lemma return_good names now tid k l v e s : 0 <= now < 2 ^ 62 -> Inv names now s -> threads s !! tid = Some (k, l, true) ->
  good now s (step now (EReturn tid v e) s).
Proof.
  intros Hn Hi Ht. destruct (i_run _ _ _ Hi _ _ _ Ht) as (E & Hd & Hg). cbn [step]. rewrite Ht. unfold do_end.
  pose proof (i_blank _ _ _ Hi l Hd) as Hb. assert (wrap64 (now + ttl cfg) = now + ttl cfg) as Hw by (apply wrap64_id; unfold int64; lia).
  destruct e as [er|].
  - destruct (cacheErrors cfg) eqn:Ec; cbn [negb].
    + rewrite Hd, Hw. cbn [mbind go_bind]. rewrite write_same. apply (leave_good names); [lia|done|done| |done].
      split; [done|]. left. by cbn.
    + rewrite (drop_own_items k l) by done. cbn [heap at_items]. rewrite Hd. cbn [mbind go_bind]. apply (leave_good names); [lia|done|done| |done].
      split; [done|]. right. split; [done|]. left. by cbn.
  - rewrite Hd, Hw. cbn [mbind go_bind]. rewrite write_same. apply (leave_good names); [lia|done|done| |done]. split; [done|]. left. by cbn.
Qed.

Lemma panic_good names now tid k l s : 0 <= now -> Inv names now s -> threads s !! tid = Some (k, l, true) -> good now s (step now (EPanic tid) s).
Proof.
  intros Hn Hi Ht. destruct (i_run _ _ _ Hi _ _ _ Ht) as (E & Hd & Hg). cbn [step]. rewrite Ht. unfold do_panicked.
  pose proof (i_blank _ _ _ Hi l Hd) as Hb. rewrite (drop_own_items k l) by done. cbn [heap at_items]. rewrite Hd. cbn [mbind go_bind].
  apply (leave_good names); [lia|done|done| |done]. split; [done|]. right. split; [done|]. right. rewrite Hb. by cbn.
Qed.

(** The owner that leaves is the holder of the key. *)
Lemma yield_good names now k l s e' x m' : 0 <= now -> Inv names now s -> k ∈ guards s -> items (st s) !! k = Some l -> done (heap (st s) l) = false ->
  ends k now e' x (items (st s)) m' ->
  good now s (Ret (MkSystem (write l e' (at_items m' (st s))) (threads s) (guards s ∖ {[k]}) ((k, x, now) :: log s), ONone)).
Proof.
  intros Hn Hi Hk E Hd He. exists names. eexists _, _. split; [done|]. split; [|done]. apply Inv_end; try done.
  - intros tid y Ht. split; [done|]. intros ->. by destruct (i_run _ _ _ Hi _ _ _ Ht) as (_ & _ & ?).
  - set_solver.
Qed.

Lemma commit_good names now k v s : 0 <= now < 2 ^ 62 -> Inv names now s -> good now s (step now (ECommit k v) s).
Proof.
  intros Hn Hi. cbn [step]. destruct (decide (k ∈ guards s)) as [Hk|]; [|exists names, s, ONone; done].
  destruct (i_guard _ _ _ Hi k Hk) as (l & E & Hd). unfold commitMemory. rewrite E, Hd. cbn [mbind go_bind]. rewrite write_same, wrap64_id by (unfold int64; lia).
  apply (yield_good names); [lia|done..|]. split; [done|]. left. cbn. by rewrite (i_blank _ _ _ Hi l Hd).
Qed.

Lemma release_good names now k s : 0 <= now -> Inv names now s -> good now s (step now (ERelease k) s).
Proof.
  intros Hn Hi. cbn [step]. destruct (decide (k ∈ guards s)) as [Hk|]; [|exists names, s, ONone; done].
  destruct (i_guard _ _ _ Hi k Hk) as (l & E & Hd). unfold releaseMemory. rewrite E. cbn [heap at_items]. rewrite Hd.
  apply (yield_good names); [lia|done..|]. split; [done|]. right. split; [done|]. right. rewrite (i_blank _ _ _ Hi l Hd). by cbn.
Qed.

Lemma acquire_step_good names now k s : Inv names now s -> good now s (step now (EAcquire k) s).
Proof.
  intros Hi. cbn [step]. unfold acquireMemory. destruct (items (st s) !! k) as [l|] eqn:E.
  - destruct (done (heap (st s) l)) eqn:Hd.
    + destruct (fresh_at now (heap (st s) l)) eqn:Hf.
      * exists names. eexists _, _. split; [done|]. split; [by destruct s|]. destruct (fresh_log _ _ _ _ _ Hi E Hd Hf) as (t' & ? & ? & ?). by exists (err (heap (st s) l)), t'.
      * rewrite place_deleted. apply (acquire_good names); [done|]. exact (vacant_expired _ _ _ _ E Hd Hf).
    + exists names. eexists _, _. split; [done|]. split; [by destruct s|done].
  - apply (acquire_good names); [done|]. exact (vacant_none _ _ _ E).
Qed.

(** A caller that was waiting is gone. *)
Lemma gone_good names now tid k l s o : Inv names now s -> threads s !! tid = Some (k, l, false) -> honest now s o ->
  good now s (Ret (MkSystem (st s) (delete tid (threads s)) (guards s) (log s), o)).
Proof.
  intros Hi Ht Ho. exists names. eexists _, _. split; [done|]. split; [|done]. apply Inv_threads; [done| |].
  - intros tid' k' l'. rewrite lookup_delete_Some. split; [by intros [_ ?]|]. intros E. split; [congruence|done].
  - intros tid' k' l' [_ E]%lookup_delete_Some. by left.
Qed.

Lemma event_good names t now ev s : 0 <= t <= now -> now < 2 ^ 62 -> Inv names t s -> good now s (step now ev s).
Proof.
  intros Ht Hn Hi. apply (Inv_later _ _ now) in Hi; [|lia]. assert (good now s (Ret (s, ONone))) as Hid by (exists names, s, ONone; done).
  destruct ev as [tid k|tid|tid|tid v e|tid|k|k v|k| |].
  - destruct (threads s !! tid) eqn:E; [cbn [step]; by rewrite E|]. by eapply begin_good.
  - cbn [step]. destruct (threads s !! tid) as [[[k l] []]|] eqn:E; [done| |done]. destruct (done (heap (st s) l)) eqn:Hd; [|done].
    eapply gone_good; [done..|]. cbn [honest]. exists (err (heap (st s) l)). split; [done|]. destruct (i_threads _ _ _ Hi _ _ _ _ E) as [<- Hl].
    exact (i_from _ _ _ Hi l Hl Hd).
  - cbn [step]. destruct (threads s !! tid) as [[[k l] []]|] eqn:E; [done| |done]. destruct (stopped (st s)); [|done]. by eapply gone_good.
  - destruct (threads s !! tid) as [[[k l] []]|] eqn:E; [|cbn [step]; by rewrite E..]. eapply return_good; [lia|done|done].
  - destruct (threads s !! tid) as [[[k l] []]|] eqn:E; [|cbn [step]; by rewrite E..]. eapply panic_good; [lia|done|done].
  - by eapply acquire_step_good.
  - eapply commit_good; [lia|done].
  - eapply release_good; [lia|done].
  - exists names. eexists _, _. split; [done|]. split; [by apply Inv_clean|done].
  - exists names. eexists _, _. split; [done|]. split; [|done]. destruct Hi. by split.
Qed.

Lemma reach_Inv t s : reach t s -> 0 <= t /\ exists names, Inv names t s.
Proof.
  induction 1 as [|t now ev s s' o _ [Ht [names IH]] Hn Hs]; [split; [lia|eexists; apply Inv_start]|]. split; [lia|].
  destruct (event_good names t now ev s) as (names' & s1 & o1 & E & Hi & _); [lia|lia|done|]. rewrite Hs in E. injection E as <- <-. by exists names'.
Qed.

(** Whatever the order of the calls, the runs, their panics, the commits and releases of those who hold the key
    and the rounds of the cleaner, as long as nothing is forgotten with [Forget], no call panics, and: a function is run, or a key acquired, only
    when nobody runs or holds it and no result kept for it is younger than the lifetime; a shared
    result is one that ended a run of the key, or the zero value where it panicked or was released. *)
Theorem once_per_key t now ev s : reach t s -> t <= now < 2 ^ 62 ->
  exists s' o, step now ev s = Ret (s', o) /\ honest now s o.
Proof.
  intros Hr Hn. destruct (reach_Inv t s Hr) as [Ht [names Hi]].
  destruct (event_good names t now ev s) as (_ & s' & o & E & _ & Ho); [lia|lia|done|]. by exists s', o.
Qed.

(** No caller is stranded: the entry a caller waits for is done, and its next wake-up returns, or
    it is the one of its key, whose owner is running its function or holds the key. *)
Theorem nobody_stranded t now s tid k l : reach t s -> t <= now < 2 ^ 62 -> threads s !! tid = Some (k, l, false) ->
  (exists s' v e, step now (EWake tid) s = Ret (s', OReturn k v e true) /\ threads s' !! tid = None) \/
  (items (st s) !! k = Some l /\ (k ∈ guards s \/ exists tid', threads s !! tid' = Some (k, l, true))).
Proof.
  intros Hr Hn Ht. destruct (reach_Inv t s Hr) as [_ [names Hi]]. destruct (done (heap (st s) l)) eqn:Hd.
  - left. cbn [step]. rewrite Ht, Hd. eexists _, _, _. split; [done|]. cbn. apply lookup_delete_eq.
  - right. pose proof (i_wait _ _ _ Hi _ _ _ Ht Hd) as E. split; [done|]. by apply (i_owner _ _ _ Hi).
Qed.
End memory.

(** * Through a shared store *)

(** The mark of a key that is acquired and not committed. *)
Definition processingPlaceholder : bytes := String.list_byte_of_string "__processing__".

Section shared.
(** [encode] and [decode] are [json.Marshal] and [json.Unmarshal] at the type of the results. *)
Context {T Er E W : Type} `{!Store E W} (encode : T -> option bytes) (decode : bytes -> option T) (cfg : config).

Definition storeKey (key : string) : string := "idem:" +:+ key.

(** The first read of [doStore]: a result to reuse, none, or a failure, after which the function is
    run and nothing is written. *)
Inductive reading := Reuse (v : T) | Absent | Bypass.
Definition do_read (now : Z) (key : string) (w : W) : reading :=
  match Kvstore.Get now (storeKey key) w with
  | Err _ => Bypass
  | Ok (Some b) => match decode b with Some v => Reuse v | None => Bypass end
  | Ok None => Absent
  end.

(** The write of a result, and the read of the one that was first where it comes second. *)
Definition do_write (now now' : Z) (key : string) (result : T) (w : W) : W * (T * bool) :=
  match encode result with
  | None => (w, (result, false))
  | Some b =>
      let '(w, r) := SetNX now (storeKey key) b (ttl cfg) w in
      (w, match r with
          | Ok false =>
              match Kvstore.Get now' (storeKey key) w with
              | Ok (Some eb) => match decode eb with Some v => (v, true) | None => (result, false) end
              | _ => (result, false)
              end
          | _ => (result, false)
          end)
  end.

(** [fn] takes its time, in which others may change the store. *)
Definition doStore (t0 t1 t2 : Z) (key : string) (fn : W -> W * (T * option Er)) (w : W) : W * (T * option Er * bool) :=
  match do_read t0 key w with
  | Reuse v => (w, (v, None, true))
  | Bypass => let '(w, (r, e)) := fn w in (w, (r, e, false))
  | Absent =>
      let '(w, (r, e)) := fn w in
      match e with
      | Some _ => (w, (r, e, false))
      | None => let '(w, (r, shared)) := do_write t1 t2 key r w in (w, (r, None, shared))
      end
  end.

Definition getStore (now : Z) (key : string) (w : W) : option T :=
  match Kvstore.Get now (storeKey key) w with Ok (Some b) => decode b | _ => None end.
Definition forgetStore (now : Z) (key : string) (w : W) : W := (Delete now (storeKey key) w).1.

Inductive acquired := Granted | Hit (v : T) | Conflict | Failed.
(** [acquireStore]: the claim, and the look at what is there where it fails. *)
Definition acquire_look (now : Z) (key : string) (w : W) : acquired :=
  match Kvstore.Get now (storeKey key) w with
  | Err _ => Failed
  | Ok None => Conflict
  | Ok (Some b) =>
      if bool_decide (b = processingPlaceholder) then Conflict
      else match decode b with Some v => Hit v | None => Failed end
  end.
Definition acquireStore (now now' : Z) (key : string) (w : W) : W * acquired :=
  let '(w, r) := SetNX now (storeKey key) processingPlaceholder (ttl cfg) w in
  match r with
  | Err _ => (w, Failed)
  | Ok true => (w, Granted)
  | Ok false => (w, acquire_look now' key w)
  end.
Definition commitStore (now : Z) (key : string) (v : T) (w : W) : W :=
  match encode v with
  | None => w
  | Some b => (Set_ now (storeKey key) b (ttl cfg) w).1
  end.
Definition releaseStore (now : Z) (key : string) (w : W) : W := (Delete now (storeKey key) w).1.
End shared.

Section shared_once.
Context {T W : Type} `{!Store Empty_set W} `{!StoreLaws Empty_set W} (encode : T -> option bytes) (decode : bytes -> option T) (cfg : config).
Context (Httl : 0 < ttl cfg < 2 ^ 62).

(** What callers do to the store; keys are released only where that is said. *)
Inductive use := UAcquire (k : string) | UCommit (k : string) (v : T) | URelease (k : string).
Definition use_step (now : Z) (u : use) (w : W) : W * @acquired T :=
  match u with
  | UAcquire k => acquireStore decode cfg now now k w
  | UCommit k v => (commitStore encode cfg now k v w, Conflict)
  | URelease k => (releaseStore now k w, Conflict)
  end.
Definition releases (k : string) (u : use) : Prop := match u with URelease k' => k' = k | _ => False end.

Lemma idem_key_inj k k' : storeKey k = storeKey k' -> k = k'.
Proof. intros H. injection H as H. exact H. Qed.

Lemma use_taken now u k d w : 0 <= now < 2 ^ 62 -> d <= now + ttl cfg -> ~ releases k u -> taken (storeKey k) d now w -> taken (storeKey k) d now (use_step now u w).1.
Proof.
  intros Hn Hd Hu Hw. pose proof Hw as [Hok _]. destruct u as [k'|k' v|k']; cbn [use_step releases] in *.
  - unfold acquireStore. pose proof (setnx_taken (ttl cfg) Httl now (storeKey k') processingPlaceholder w Hok Hn) as H.
    destruct (SetNX now (storeKey k') processingPlaceholder (ttl cfg) w) as [w' [[]|[]]]; apply H; auto.
  - unfold commitStore. destruct (encode v) as [b|]; [|done]. pose proof (set_taken (ttl cfg) Httl now (storeKey k') b w Hok Hn) as H.
    destruct (Set_ now (storeKey k') b (ttl cfg) w) as [w' r]. apply H; auto.
  - unfold releaseStore. pose proof (delete_taken now (storeKey k') w Hok) as H. destruct (Delete now (storeKey k') w) as [w' r]. apply H; [|done].
    by intros ?%idem_key_inj.
Qed.

Lemma uses_taken k d now us : now < 2 ^ 62 -> forall t w, 0 <= t <= now -> d <= t + ttl cfg -> taken (storeKey k) d t w ->
  timely (fun u => ~ releases k u) t us -> Forall (fun u => u.1 <= now) us -> taken (storeKey k) d now (foldl (fun w u => (use_step u.1 u.2 w).1) w us).
Proof.
  intros Hn. induction us as [|[t1 u] us IH]; intros t w Ht Hd Htk Hus Hle; cbn [foldl timely fst snd] in *.
  - by apply (taken_later _ _ t); [lia|].
  - destruct Hus as (H1 & H2 & H3). apply Forall_cons in Hle as [Hle1 Hle]. cbn in Hle1. apply (IH t1); [lia|lia| |done|done].
    apply use_taken; [lia|lia|done|]. by apply (taken_later _ _ t); [lia|].
Qed.

Lemma acquire_taken now k w : ok w -> 0 <= now < 2 ^ 62 -> let '(w1, a) := use_step now (UAcquire k) w in
  (a = Granted -> taken (storeKey k) (now + ttl cfg) now w1) /\ (view w now (storeKey k) <> None -> a <> Granted).
Proof.
  intros Hok Hn. cbn [use_step]. unfold acquireStore. pose proof (setnx_taken (ttl cfg) Httl now (storeKey k) processingPlaceholder w Hok Hn) as H.
  destruct (SetNX now (storeKey k) processingPlaceholder (ttl cfg) w) as [w' [b|[]]]. destruct H as (_ & [(E & ? & ?)|[E ?]] & _); injection E as ->.
  - split; [done|]. intros. congruence.
  - assert (@acquire_look T Empty_set W _ decode now k w' <> Granted) as Hl by (unfold acquire_look; repeat case_match; done). done.
Qed.

(** Through a shared store that does not fail, a key acquired is acquired by nobody else until it
    is released or the lifetime is over, whatever is acquired and committed in between. *)
Theorem store_acquired_once us k t0 now w w1 : ok w -> 0 <= t0 <= now -> now < 2 ^ 62 -> now < t0 + ttl cfg ->
  use_step t0 (UAcquire k) w = (w1, Granted) ->
  timely (fun u => ~ releases k u) t0 us -> Forall (fun u => u.1 <= now) us ->
  (use_step now (UAcquire k) (foldl (fun w u => (use_step u.1 u.2 w).1) w1 us)).2 <> Granted.
Proof.
  intros Hok Ht0 Hn Hd Ha Hus Hle. pose proof (acquire_taken t0 k w Hok ltac:(lia)) as H. rewrite Ha in H. destruct H as [Htk _].
  pose proof (uses_taken k (t0 + ttl cfg) now us Hn t0 w1 Ht0 ltac:(lia) (Htk eq_refl) Hus Hle) as [Hok2 Hv].
  pose proof (acquire_taken now k _ Hok2 ltac:(lia)) as H. destruct (use_step now (UAcquire k) _) as [w2 a]. apply H. apply Hv. lia.
Qed.
End shared_once.

(** * Runs *)

Definition demo : config := New_config [WithTTL 100].
Definition at_demo (evs : list (Z * @event Z string)) : @system Z string :=
  foldl (fun s e => match step 0 demo e.1 e.2 s with Ret (s, _) => s | Panic _ => s end) (start 0) evs.
Definition demo_state : @system Z string := at_demo [(1, EDo 1 "a"); (2, EDo 2 "a"); (3, EReturn 1 7 None)].

Lemma demo_reach : reach 0 demo 2 (at_demo [(1, EDo 1 "a"); (2, EDo 2 "a")]) /\ reach 0 demo 3 demo_state.
Proof.
  assert (reach 0 demo 1 (at_demo [(1, EDo 1 "a")])) as H1 by (eapply (reach_step _ _ 0 1 (EDo 1 "a")); [apply reach_start|lia|reflexivity]).
  assert (reach 0 demo 2 (at_demo [(1, EDo 1 "a"); (2, EDo 2 "a")])) as H2 by (eapply (reach_step _ _ 1 2 (EDo 2 "a")); [exact H1|lia|reflexivity]).
  split; [exact H2|]. eapply (reach_step _ _ 2 3 (EReturn 1 7 None)); [exact H2|lia|reflexivity].
Qed.

Lemma once_per_key_witness : reach 0 demo 3 demo_state /\ exists s' o, step 0 demo 4 (EDo 3 "a") demo_state = Ret (s', o) /\ honest 0 demo 4 demo_state o.
Proof. split; [apply demo_reach|]. apply (once_per_key 0 demo ltac:(split; vm_compute; reflexivity) 3); [apply demo_reach|lia]. Defined.

Lemma nobody_stranded_witness : let s := at_demo [(1, EDo 1 "a"); (2, EDo 2 "a")] in
  threads s !! 2%nat = Some ("a", 0%nat, false) /\
  ((exists s' v e, step 0 demo 4 (EWake 2) s = Ret (s', OReturn "a" v e true) /\ threads s' !! 2%nat = None) \/
   (items (st s) !! "a" = Some 0%nat /\ ("a" ∈ guards s \/ exists tid', threads s !! tid' = Some ("a", 0%nat, true)))).
Proof.
  split; [vm_compute; reflexivity|].
  apply (nobody_stranded 0 demo ltac:(split; vm_compute; reflexivity) 2); [apply demo_reach|lia|vm_compute; reflexivity].
Defined.

(** A codec for the runs: one byte for a small number. *)
Definition enc (z : Z) : option bytes := if decide (0 <= z < 256) then Some (match Byte.of_N (Z.to_N z) with Some b => [b] | None => [] end) else None.
Definition dec (b : bytes) : option Z := match b with [b] => Some (Z.of_N (Byte.to_N b)) | _ => None end.

Lemma store_acquired_once_witness :
  let us := [(2, UAcquire "a"); (5, UCommit "a" 7)] in
  let w1 := (use_step enc dec demo 1 (UAcquire "a") NewMemory).1 in
  (use_step enc dec demo 9 (UAcquire "a") (foldl (fun w u => (use_step enc dec demo u.1 u.2 w).1) w1 us)).2 = Hit 7 /\
  (use_step enc dec demo 9 (UAcquire "a") (foldl (fun w u => (use_step enc dec demo u.1 u.2 w).1) w1 us)).2 <> Granted.
Proof.
  cbv zeta. split; [vm_compute; reflexivity|].
  apply (store_acquired_once (W := Memory) enc dec demo ltac:(split; vm_compute; reflexivity) [(2, UAcquire "a"); (5, UCommit "a" 7)] "a" 1 9 NewMemory);
    [apply NewMemory_empty|lia|lia|vm_compute; reflexivity|vm_compute; reflexivity| |repeat constructor; cbn; lia].
  repeat split; cbn; try lia; intros [].
Defined.

(** Outside the discipline of holders: a second commit closes the channel again, *)
Lemma second_commit_panics : let s := (acquireMemory (Er := string) 0 1 "a" (New (Er := string) 0)).1 in
  (s ← commitMemory demo 2 "a" 7 s; commitMemory demo 3 "a" 8 s) = Panic closed_panic.
Proof. vm_compute. reflexivity. Qed.

(** a release of a key whose function is running makes the run end in a panic, *)
Lemma release_breaks_do : let '(s, v) := do_begin (Er := string) 0 1 "a" (New 0) in v = VRun 0 /\
  do_end demo 3 "a" 0 7 None (releaseMemory "a" s) = Panic closed_panic.
Proof. vm_compute. by split. Qed.

(** and a commit of a key that was forgotten leaves the callers that wait for it waiting. *)
Lemma commit_after_forget_strands : let s := (acquireMemory (Er := string) 0 1 "a" (New (Er := string) 0)).1 in
  (do_begin 0 2 "a" s).2 = VWait 0 /\
  match commitMemory demo 4 "a" 7 (Forget "a" s) with Ret s' => done (heap s' 0) = false | Panic _ => False end.
Proof. vm_compute. by split. Qed.

(** A caller that waits for a function that panics is given the zero value without an error. *)
Lemma panic_is_shared :
  let s := at_demo [(1, EDo 1 "a"); (2, EDo 2 "a"); (3, EPanic 1)] in
  match step 0 demo 4 (EWake 2) s with Ret (_, o) => o = OReturn "a" 0 None true | Panic _ => False end.
Proof. vm_compute. reflexivity. Qed.

(** Through a store, [Do] runs its function under a key that another caller has acquired. *)
Lemma do_runs_under_guard : let w := (use_step enc dec demo 1 (UAcquire "a") NewMemory).1 in do_read dec 2 "a" w = Bypass.
Proof. vm_compute. reflexivity. Qed.
