(* ===== verification/AntiReplay.v ===== *)
(** Rejection of replayed requests ([pkg/middleware/antireplay/antireplay.go]): a nonce is claimed in a
    shared store of [Kvstore] before the request is served. *)
From Stdlib Require Import ZArith Lia Bool.
From stdpp Require Import base numbers strings list.
From S2P Require Import Prelude Kvstore.

Open Scope Z_scope.

Record options := MkOptions { header : string; keyPrefix : string; ttl : Z; skipPrefixes : list string }.
Definition defaults : options := MkOptions "X-Nonce" "nonce:" (600 * 10 ^ 9) [].
Definition WithHeader (name : string) (o : options) : options := MkOptions name (keyPrefix o) (ttl o) (skipPrefixes o).
Definition WithKeyPrefix (p : string) (o : options) : options := MkOptions (header o) p (ttl o) (skipPrefixes o).
Definition WithTTL (d : Z) (o : options) : options := MkOptions (header o) (keyPrefix o) d (skipPrefixes o).
Definition WithSkipPrefixes (ps : list string) (o : options) : options := MkOptions (header o) (keyPrefix o) (ttl o) (skipPrefixes o ++ ps).

(** [strings.HasPrefix]. *)
Fixpoint shouldSkip (path : string) (prefixes : list string) : bool :=
  match prefixes with
  | [] => false
  | p :: prefixes => if String.prefix p path then true else shouldSkip path prefixes
  end.

(** What becomes of a request: served by the next handler, or rejected. *)
Inductive outcome := Served | Missing | Replay | Internal.

(** [get] is [r.Header.Get] of the request. *)
Record request := MkRequest { path : string; get : string -> string }.

Section middleware.
Context {E W : Type} `{!Store E W} (opts : list (options -> options)).

Definition o : options := foldl (fun o f => f o) defaults opts.

Definition HTTPMiddleware (now : Z) (r : request) (w : W) : W * outcome :=
  if shouldSkip (path r) (skipPrefixes o) then (w, Served)
  else
    let nonce := get r (header o) in
    if String.eqb nonce "" then (w, Missing)
    else
      let '(w, res) := SetNX now (keyPrefix o +:+ nonce) [Byte.x31] (ttl o) w in
      (w, match res with
          | Err _ => Internal
          | Ok ok => if negb ok : bool then Replay else Served
          end).

(** The outcomes of requests in the order in which they reach the store. *)
Fixpoint serve (rs : list (Z * request)) (w : W) : list outcome :=
  match rs with
  | [] => []
  | (now, r) :: rs => let '(w, a) := HTTPMiddleware now r w in a :: serve rs w
  end.
End middleware.

Section once.
Context {W : Type} `{!Store Empty_set W} `{!StoreLaws Empty_set W} (opts : list (options -> options)).
Context (Httl : 0 < ttl (o opts) < 2 ^ 62).

(** A request that is checked, with the nonce [n]. *)
Definition carries (n : string) (r : request) : Prop := shouldSkip (path r) (skipPrefixes (o opts)) = false /\ get r (header (o opts)) = n.
Definition nonce_key (n : string) : string := keyPrefix (o opts) +:+ n.

Lemma middleware_taken now r w : ok w -> 0 <= now < 2 ^ 62 -> let '(w', a) := HTTPMiddleware opts now r w in ok w' /\
  (forall n, carries n r -> a = Served -> taken (nonce_key n) (now + ttl (o opts)) now w' /\ view w now (nonce_key n) = None) /\
  (forall k d, d <= now + ttl (o opts) -> taken k d now w -> taken k d now w').
Proof.
  intros Hok Hn. unfold HTTPMiddleware, carries. destruct (shouldSkip _ _); [split_and!; [done|by intros n [? _]|done]|].
  destruct (String.eqb _ _); [split_and!; [done|done|done]|].
  pose proof (setnx_taken (ttl (o opts)) Httl now (keyPrefix (o opts) +:+ get r (header (o opts))) [Byte.x31] w Hok Hn) as H.
  destruct (SetNX _ _ _ _ w) as [w' [b|[]]]. destruct H as (Hok' & Hb & Hall). split_and!; [done| |intros; apply Hall; auto].
  intros n [_ <-]. destruct Hb as [(E & Hv & Ht)|[E _]]; injection E as ->; done.
Qed.

Lemma replay_rejected n d : forall rs t w, 0 <= t -> d <= t + ttl (o opts) -> timely (fun _ => True) t rs -> taken (nonce_key n) d t w ->
  forall j tj r, rs !! j = Some (tj, r) -> carries n r -> serve opts rs w !! j = Some Served -> d <= tj.
Proof.
  induction rs as [|[now r] rs IH]; intros t w Ht Hd Hrs Htk j tj rj Hj Hc Ha; [done|]. cbn [timely serve] in *. destruct Hrs as (Hn & _ & Hrs).
  apply (taken_later _ _ _ now) in Htk; [|lia]. pose proof Htk as [Hok Hv].
  pose proof (middleware_taken now r w Hok ltac:(lia)) as H. destruct (HTTPMiddleware opts now r w) as [w' a]. destruct H as (_ & Hs & Hall).
  destruct j as [|j].
  - injection Hj as -> ->. injection Ha as ->. destruct (Hs n Hc eq_refl) as [_ Hnone]. destruct (Z.lt_ge_cases tj d) as [Hlt|]; [|done].
    exfalso. apply (Hv tj); [lia|done].
  - apply (IH now w' ltac:(lia) ltac:(lia) Hrs (Hall (nonce_key n) d ltac:(lia) Htk) j tj rj Hj Hc Ha).
Qed.

(** With a shared store that does not fail, of the requests that carry one nonce and are not
    skipped no two are served within the lifetime, whatever other requests come in between. *)
Theorem nonce_once rs w n : forall i j ti tj ri rj, ok w -> timely (fun _ => True) 0 rs -> (i < j)%nat ->
  rs !! i = Some (ti, ri) -> rs !! j = Some (tj, rj) -> carries n ri -> carries n rj ->
  serve opts rs w !! i = Some Served -> serve opts rs w !! j = Some Served -> ti + ttl (o opts) <= tj.
Proof.
  assert (forall i j ti tj ri rj t, 0 <= t -> ok w -> timely (fun _ => True) t rs -> (i < j)%nat ->
    rs !! i = Some (ti, ri) -> rs !! j = Some (tj, rj) -> carries n ri -> carries n rj ->
    serve opts rs w !! i = Some Served -> serve opts rs w !! j = Some Served -> ti + ttl (o opts) <= tj) as H.
  2:{ intros i j ti tj ri rj. apply (H i j ti tj ri rj 0). lia. }
  revert w. induction rs as [|[now r] rs IH]; intros w i j ti tj ri rj t Ht Hok Hrs Hij Hi Hj Hci Hcj Hai Haj; [done|].
  cbn [timely serve] in *. destruct Hrs as (Hn & _ & Hrs). pose proof (middleware_taken now r w Hok ltac:(lia)) as H.
  destruct (HTTPMiddleware opts now r w) as [w' a]. destruct H as (Hok' & Hs & _). destruct j as [|j]; [lia|]. destruct i as [|i].
  - injection Hi as -> ->. injection Hai as ->. destruct (Hs n Hci eq_refl) as [Htk _].
    exact (replay_rejected n (ti + ttl (o opts)) rs ti w' ltac:(lia) ltac:(lia) Hrs Htk j tj rj Hj Hcj Haj).
  - apply (IH w' i j ti tj ri rj now ltac:(lia) Hok' Hrs ltac:(lia) Hi Hj Hci Hcj Hai Haj).
Qed.
End once.

(** * Runs *)

Definition demo_request (n : string) : request := MkRequest "/pay" (fun h => if String.eqb h "X-Nonce" then n else "").
Definition demo_opts : list (options -> options) := [WithTTL 100; WithSkipPrefixes ["/healthz"]].
Definition demo_requests : list (Z * request) :=
  [(1, demo_request "n1"); (2, demo_request "n2"); (3, demo_request "n1"); (4, demo_request ""); (5, MkRequest "/healthz" (fun _ => "n1")); (101, demo_request "n1")].

Lemma nonce_once_witness :
  serve demo_opts demo_requests NewMemory = [Served; Served; Replay; Missing; Served; Served] /\ 1 + ttl (o demo_opts) <= 101.
Proof.
  split; [vm_compute; reflexivity|].
  apply (nonce_once (W := Memory) demo_opts ltac:(split; vm_compute; reflexivity) demo_requests NewMemory "n1" 0 5 1 101 (demo_request "n1") (demo_request "n1")).
  - apply NewMemory_empty.
  - repeat (split; try lia).
  - lia.
  - reflexivity.
  - reflexivity.
  - split; reflexivity.
  - split; reflexivity.
  - vm_compute; reflexivity.
  - vm_compute; reflexivity.
Defined.
