(* ===== verification/Matchmaker.v ===== *)
(** Matchmaking ([pkg/game/matchmaker/matchmaker.go]): tickets in the buckets of their pools, and the
    turn that makes teams of them, greedily by skill or by a score. *)
From Stdlib Require Import ZArith Lia Bool.
From stdpp Require Import base numbers strings list gmap fin_maps sets sorting.
From S2P Require Import Prelude Float64.

Open Scope Z_scope.

(** [Extra] is what the matchmaker carries along: the presence and the string properties. *)
Record Ticket {X : Type} := MkTicket {
  ID : string; Extra : X; Numeric : gmap string float64; CreateTime : Z; MinCount : Z; MaxCount : Z
}.
Arguments Ticket : clear implicits.

Record Match {X : Type} := MkMatch { Tickets : list (Ticket X); Pool : string }.
Arguments Match : clear implicits.

Inductive mmErr := InvalidCounts | AlreadyExists.

Section matchmaker.
Context {X : Type}.

Definition MatchFunc : Type := Ticket X -> Ticket X -> float64.
Record config := MkConfig { tickInterval : Z; maxWaitSec : Z; matchFunc : option MatchFunc }.
Definition WithTickInterval (d : Z) (c : config) : config := if 0 <? d then MkConfig d (maxWaitSec c) (matchFunc c) else c.
Definition WithMaxWaitSec (sec : Z) (c : config) : config := MkConfig (tickInterval c) sec (matchFunc c).
Definition WithMatchFunc (fn : MatchFunc) (c : config) : config := MkConfig (tickInterval c) (maxWaitSec c) (Some fn).
Definition New_config (opts : list (config -> config)) : config := foldl (fun c o => o c) (MkConfig (500 * 10 ^ 6) 30 None) opts.

Record Matchmaker := MkMatchmaker {
  tickets : gmap string (Ticket X);
  buckets : gmap string (gmap string (gmap string (Ticket X)));
  count : Z;
  numIndex : gmap string (gmap string (list (Ticket X)))
}.
Definition New : Matchmaker := MkMatchmaker ∅ ∅ 0 ∅.

(** The ticket at the end of the list of each of its attributes. *)
Definition add_index (t : Ticket X) (idx : gmap string (list (Ticket X))) : gmap string (list (Ticket X)) :=
  merge (fun l n => match n with Some _ => Some (default [] l ++ [t]) | None => l end) idx (Numeric t).

(** [gen] is the identifier made for a ticket without one. *)
Definition Add (now : Z) (gen : string) (t : Ticket X) (pool bucketKey : string) (m : Matchmaker) : Matchmaker * result mmErr string :=
  if (MinCount t <=? 0) || (MaxCount t <? MinCount t) then (m, Err InvalidCounts)
  else
    let id := if String.eqb (ID t) "" then gen else ID t in
    let t := MkTicket X id (Extra t) (Numeric t) now (MinCount t) (MaxCount t) in
    match tickets m !! id with
    | Some _ => (m, Err AlreadyExists)
    | None =>
        let byPool := default ∅ (buckets m !! pool) in
        let bucket := default ∅ (byPool !! bucketKey) in
        let numIndex :=
          if 0 <? Z.of_nat (size (Numeric t))
          then <[pool := add_index t (default ∅ (numIndex m !! pool))]> (numIndex m)
          else numIndex m in
        (MkMatchmaker (<[id := t]> (tickets m)) (<[pool := <[bucketKey := <[id := t]> bucket]> byPool]> (buckets m))
           (wrap64 (count m + 1)) numIndex, Ok id)
    end.

(** The first ticket of this identifier is cut out. *)
Fixpoint cut (id : string) (l : list (Ticket X)) : list (Ticket X) :=
  match l with [] => [] | t :: l => if String.eqb (ID t) id then l else t :: cut id l end.
Definition del_index (id : string) (t : Ticket X) (idx : gmap string (list (Ticket X))) : gmap string (list (Ticket X)) :=
  merge (fun l n => match l, n with Some l, Some _ => Some (cut id l) | _, _ => l end) idx (Numeric t).

Definition Remove (id : string) (m : Matchmaker) : Matchmaker * bool :=
  match tickets m !! id with
  | None => (m, false)
  | Some t =>
      (MkMatchmaker (delete id (tickets m)) ((fun byPool : gmap string (gmap string (Ticket X)) => (fun bucket => delete id bucket) <$> byPool) <$> buckets m) (wrap64 (count m - 1))
         (del_index id t <$> numIndex m), true)
  end.

(** * Teams *)

Definition len (l : list (Ticket X)) : Z := Z.of_nat (length l).

Definition countCompatible (team : list (Ticket X)) (cand : Ticket X) : bool :=
  let newSize := len team + 1 in
  forallb (fun t => negb (MaxCount t <? newSize)) team && ((MinCount cand <=? newSize) && (newSize <=? MaxCount cand)).

(** The neighbours of the first ticket, in the order of the list. *)
Fixpoint gather (used : gset string) (max : Z) (team rest : list (Ticket X)) : list (Ticket X) :=
  match rest with
  | [] => team
  | c :: rest =>
      if len team <? max then
        if bool_decide (ID c ∈ used) then gather used max team rest
        else if negb (countCompatible team c) then gather used max team rest
        else gather used max (team ++ [c]) rest
      else team
  end.

Fixpoint score_sum (fn : MatchFunc) (team : list (Ticket X)) (cand : Ticket X) (sum : float64) : option float64 :=
  match team with
  | [] => Some sum
  | t :: team =>
      let s := fn t cand in
      if fleb s (of_int 0) then None else score_sum fn team cand (fadd sum s)
  end.
Definition teamScore (fn : MatchFunc) (team : list (Ticket X)) (cand : Ticket X) : float64 :=
  match score_sum fn team cand (of_int 0) with
  | None => of_int 0
  | Some sum => fdiv sum (of_int (len team))
  end.

(** The candidate of the best score, the first of equals. *)
Fixpoint best_of (fn : MatchFunc) (used inTeam : gset string) (team ts : list (Ticket X)) (bestScore : float64) (best : option (Ticket X)) : option (Ticket X) :=
  match ts with
  | [] => best
  | c :: ts =>
      if bool_decide (ID c ∈ used) || bool_decide (ID c ∈ inTeam) then best_of fn used inTeam team ts bestScore best
      else if negb (countCompatible team c) then best_of fn used inTeam team ts bestScore best
      else
        let score := teamScore fn team c in
        if fltb bestScore score then best_of fn used inTeam team ts score (Some c)
        else best_of fn used inTeam team ts bestScore best
  end.
Fixpoint recruit (fuel : nat) (fn : MatchFunc) (used inTeam : gset string) (max : Z) (team ts : list (Ticket X)) : list (Ticket X) :=
  match fuel with
  | O => team
  | S fuel =>
      if len team <? max then
        match best_of fn used inTeam team ts (of_int 0) None with
        | None => team
        | Some c => recruit fuel fn used ({[ID c]} ∪ inTeam) max (team ++ [c]) ts
        end
      else team
  end.

Definition ids (l : list (Ticket X)) : gset string := list_to_set (ID <$> l).

Definition emitMatch (team : list (Ticket X)) (m : Matchmaker) : Matchmaker := foldl (fun m t => (Remove (ID t) m).1) m team.

(** The loop over the tickets of a snapshot; [build] makes the team of one from the tickets after it. *)
Fixpoint try_loop (build : gset string -> Ticket X -> list (Ticket X) -> list (Ticket X)) (pool : string)
    (used : gset string) (ts : list (Ticket X)) (m : Matchmaker) : Matchmaker * list (Match X) :=
  match ts with
  | [] => (m, [])
  | t :: ts =>
      if bool_decide (ID t ∈ used) then try_loop build pool used ts m
      else
        let team := build used t ts in
        if MinCount t <=? len team then
          let m := emitMatch team m in
          let '(m, ms) := try_loop build pool (ids team ∪ used) ts m in
          (m, MkMatch X team pool :: ms)
        else try_loop build pool used ts m
  end.

Section turn.
(** [sort] is [sort.Slice] by the attribute "skill"; [range] the order in which a map is ranged over. *)
Context (cfg : config) (sort : list (Ticket X) -> list (Ticket X)) (range : forall V : Type, gmap string V -> list (string * V)).

Definition tryMatchByScore (fn : MatchFunc) (pool : string) (ts : list (Ticket X)) (m : Matchmaker) : Matchmaker * list (Match X) :=
  try_loop (fun used t _ => recruit (length ts) fn used {[ID t]} (MaxCount t) [t] ts) pool ∅ ts m.

Definition tryMatch (pool : string) (ts : list (Ticket X)) (m : Matchmaker) : Matchmaker * list (Match X) :=
  match matchFunc cfg with
  | Some fn => tryMatchByScore fn pool ts m
  | None => try_loop (fun used t rest => gather used (MaxCount t) [t] rest) pool ∅ (sort ts) m
  end.

(** The snapshots of a pool: its buckets, and the tickets of all of them that waited too long. *)
Definition pool_snaps (now : Z) (pool : string) (byPool : gmap string (gmap string (Ticket X))) : list (string * list (Ticket X)) :=
  let maxWaitNs := wrap64 (maxWaitSec cfg * 10 ^ 9) in
  let own := omap (fun '(_, bucket) => if decide (size bucket = 0%nat) then None else Some (pool, (range _ bucket).*2)) (range _ byPool) in
  if 0 <? maxWaitSec cfg then
    let timedOut := List.filter (fun t => maxWaitNs <? wrap64 (now - CreateTime t)) (flat_map (fun '(_, bucket) => (range _ bucket).*2) (range _ byPool)) in
    if 0 <? len timedOut then own ++ [(pool, timedOut)] else own
  else own.
Definition snaps (now : Z) (m : Matchmaker) : list (string * list (Ticket X)) :=
  flat_map (fun '(pool, byPool) => pool_snaps now pool byPool) (range _ (buckets m)).

Fixpoint try_all (ss : list (string * list (Ticket X))) (m : Matchmaker) : Matchmaker * list (Match X) :=
  match ss with
  | [] => (m, [])
  | (pool, ts) :: ss =>
      let '(m, ms) := tryMatch pool ts m in
      let '(m, ms') := try_all ss m in (m, ms ++ ms')
  end.
Definition tick (now : Z) (m : Matchmaker) : Matchmaker * list (Match X) := try_all (snaps now m) m.
End turn.

(** * The registry *)

Definition bucketed (p k id : string) (m : Matchmaker) : option (Ticket X) := byPool ← buckets m !! p; b ← byPool !! k; b !! id.
Definition listed (p a : string) (m : Matchmaker) : list (Ticket X) := default [] (idx ← numIndex m !! p; idx !! a).

(** Every ticket is in one bucket, that of [wh], and in the lists of its attributes in its pool. *)
Record registry (wh : string -> string * string) (m : Matchmaker) : Prop := {
  r_valid : forall id t, tickets m !! id = Some t -> ID t = id /\ 1 <= MinCount t <= MaxCount t;
  r_bucket : forall p k id t, bucketed p k id m = Some t <-> tickets m !! id = Some t /\ wh id = (p, k);
  r_count : count m = wrap64 (Z.of_nat (size (tickets m)));
  r_index : forall p a, NoDup (ID <$> listed p a m) /\
    forall t, t ∈ listed p a m <-> tickets m !! ID t = Some t /\ (wh (ID t)).1 = p /\ is_Some (Numeric t !! a)
}.

Lemma registry_New : registry (fun _ => (""%string, ""%string)) New.
Proof.
  split; cbn; try done.
  - intros p k id t. unfold bucketed. cbn. rewrite lookup_empty. cbn. rewrite lookup_empty. naive_solver.
  - intros p a. unfold listed. cbn. rewrite lookup_empty. cbn. split; [constructor|]. intros t. rewrite lookup_empty. set_solver.
Qed.

Lemma cut_spec id l : NoDup (ID <$> l) -> NoDup (ID <$> cut id l) /\ forall t, t ∈ cut id l <-> t ∈ l /\ ID t <> id.
Proof.
  induction l as [|x l IH]; intros Hn; cbn [cut]; [split; [done|set_solver]|]. rewrite fmap_cons in Hn. apply NoDup_cons in Hn as [Hx Hn].
  destruct (String.eqb_spec (ID x) id) as [E|E].
  - split; [done|]. intros t. rewrite elem_of_cons. split; [intros Ht|naive_solver]. split; [by right|]. intros E'. apply Hx.
    rewrite E, <- E'. by apply list_elem_of_fmap_2.
  - destruct (IH Hn) as [IH1 IH2]. split.
    + rewrite fmap_cons. apply NoDup_cons. split; [|done]. intros Hc. apply Hx. apply list_elem_of_fmap_1 in Hc as (y & -> & Hy%IH2).
      apply list_elem_of_fmap_2. apply Hy.
    + intros t. rewrite !elem_of_cons, IH2. naive_solver.
Qed.

Lemma listed_remove p a id t m : tickets m !! id = Some t ->
  listed p a (Remove id m).1 = (if decide (is_Some (Numeric t !! a)) then cut id (listed p a m) else listed p a m).
Proof.
  intros E. unfold Remove. rewrite E. unfold listed. cbn [numIndex fst]. rewrite lookup_fmap. destruct (numIndex m !! p) as [idx|]; cbn; [|by case_decide].
  unfold del_index. rewrite lookup_merge. destruct (Numeric t !! a) as [v|]; cbn.
  - rewrite decide_True by (by eexists). by destruct (idx !! a).
  - rewrite decide_False by (by intros [? [=]]). by destruct (idx !! a).
Qed.

Lemma bucketed_remove p k id id' t m : tickets m !! id = Some t ->
  bucketed p k id' (Remove id m).1 = if decide (id' = id) then None else bucketed p k id' m.
Proof.
  intros E. unfold Remove. rewrite E. unfold bucketed. cbn [buckets fst]. rewrite lookup_fmap. destruct (buckets m !! p) as [b|]; cbn; [|by case_decide].
  rewrite lookup_fmap. destruct (b !! k) as [b'|]; cbn; [|by case_decide]. case_decide as Ed; [subst; apply lookup_delete_eq|by apply lookup_delete_ne].
Qed.

Lemma tickets_remove id m : tickets (Remove id m).1 = delete id (tickets m).
Proof. unfold Remove. destruct (tickets m !! id) eqn:E; [done|]. cbn. by rewrite delete_id. Qed.

Lemma registry_Remove wh id m : registry wh m -> registry wh (Remove id m).1.
Proof.
  intros Hr. destruct (tickets m !! id) as [t|] eqn:E; [|unfold Remove; by rewrite E]. destruct (r_valid _ _ Hr id t E) as [Hid _]. split.
  - intros id' t'. rewrite tickets_remove. intros [_ E']%lookup_delete_Some. by apply (r_valid _ _ Hr).
  - intros p k id' t'. rewrite (bucketed_remove _ _ _ _ t), tickets_remove by done. case_decide as Ed.
    + subst id'. rewrite lookup_delete_eq. naive_solver.
    + rewrite lookup_delete_ne by done. apply (r_bucket _ _ Hr).
  - rewrite tickets_remove. pose proof (map_size_ne_0_lookup_2 (tickets m) id ltac:(by eexists)) as Hs.
    rewrite map_size_delete_Some by (by eexists). unfold Remove. rewrite E. cbn [fst count]. rewrite (r_count _ _ Hr).
    rewrite <- Z.add_opp_r, wrap64_add_l. f_equal. lia.
  - intros p a. rewrite (listed_remove p a id t) by done. destruct (r_index _ _ Hr p a) as [Hn Hl]. rewrite tickets_remove. case_decide as Ed.
    + destruct (cut_spec id _ Hn) as [Hn' Hc]. split; [done|]. intros t'. rewrite Hc, Hl, lookup_delete_Some. naive_solver.
    + split; [done|]. intros t'. rewrite Hl, lookup_delete_Some. split; [|naive_solver]. intros (H1 & H2 & H3). split_and!; try done.
      intros E'. rewrite <- E' in H1. congruence.
Qed.

Definition placed (id pool key : string) (wh : string -> string * string) : string -> string * string :=
  fun id' => if decide (id' = id) then (pool, key) else wh id'.

Lemma bucketed_add p k id' pool key id t m : let byPool := default ∅ (buckets m !! pool) in let bucket := default ∅ (byPool !! key) in
  (b ← <[pool := <[key := <[id := t]> bucket]> byPool]> (buckets m) !! p; b' ← b !! k; b' !! id') =
  if decide (p = pool /\ k = key /\ id' = id) then Some t else bucketed p k id' m.
Proof.
  intros byPool bucket. unfold bucketed. destruct (decide (p = pool)) as [->|Hp].
  - rewrite lookup_insert_eq. cbn. subst bucket byPool. destruct (decide (k = key)) as [->|Hk].
    + rewrite lookup_insert_eq. cbn. destruct (decide (id' = id)) as [->|Hi].
      * rewrite lookup_insert_eq, decide_True; done.
      * rewrite lookup_insert_ne, decide_False by naive_solver. destruct (buckets m !! pool) as [b|]; cbn; [|by rewrite lookup_empty].
        destruct (b !! key); cbn; [done|]. by rewrite lookup_empty.
    + rewrite lookup_insert_ne, decide_False by naive_solver. destruct (buckets m !! pool); cbn; [done|]. by rewrite lookup_empty.
  - rewrite lookup_insert_ne, decide_False by naive_solver. done.
Qed.

Lemma add_index_lookup t idx a : add_index t idx !! a = if decide (is_Some (Numeric t !! a)) then Some (default [] (idx !! a) ++ [t]) else idx !! a.
Proof.
  unfold add_index. rewrite lookup_merge. destruct (Numeric t !! a) as [v|]; cbn.
  - rewrite decide_True by (by eexists). by destruct (idx !! a).
  - rewrite decide_False by (by intros [? [=]]). by destruct (idx !! a).
Qed.

Lemma listed_add p a pool t m :
  default [] (idx ← (if 0 <? Z.of_nat (size (Numeric t)) then <[pool := add_index t (default ∅ (numIndex m !! pool))]> (numIndex m) else numIndex m) !! p; idx !! a) =
  if decide (p = pool /\ is_Some (Numeric t !! a)) then listed p a m ++ [t] else listed p a m.
Proof.
  unfold listed. destruct (Z.ltb_spec 0 (Z.of_nat (size (Numeric t)))) as [Hs|Hs].
  - destruct (decide (p = pool)) as [->|Hp].
    + rewrite lookup_insert_eq. cbn. rewrite add_index_lookup. destruct (decide (is_Some (Numeric t !! a))) as [Ha|Ha].
      * rewrite decide_True by done. cbn. destruct (numIndex m !! pool) as [idx|]; cbn; [done|]. by rewrite lookup_empty.
      * rewrite decide_False by naive_solver. destruct (numIndex m !! pool) as [idx|]; cbn; [done|]. by rewrite lookup_empty.
    + rewrite lookup_insert_ne, decide_False by naive_solver. done.
  - rewrite decide_False; [done|]. intros [_ Ha]. apply map_size_ne_0_lookup_2 in Ha. lia.
Qed.

(** [Add] registers the ticket or answers why not. *)
Lemma registry_Add wh now gen t pool key m : registry wh m -> let id := if String.eqb (ID t) "" then gen else ID t in
  let '(m', r) := Add now gen t pool key m in
  match r with
  | Ok id' => id' = id /\ tickets m !! id = None /\ 1 <= MinCount t <= MaxCount t /\
      tickets m' = <[id := MkTicket X id (Extra t) (Numeric t) now (MinCount t) (MaxCount t)]> (tickets m) /\ registry (placed id pool key wh) m'
  | Err InvalidCounts => ~ (1 <= MinCount t <= MaxCount t) /\ m' = m
  | Err AlreadyExists => tickets m !! id <> None /\ m' = m
  end.
Proof.
  intros Hr id. unfold Add. fold id. destruct (Z.leb_spec (MinCount t) 0), (Z.ltb_spec (MaxCount t) (MinCount t)); cbn [orb]; try (split; [lia|done]).
  destruct (tickets m !! id) as [t0|] eqn:E; [done|]. split_and!; try done; try lia. set (t' := MkTicket X id _ _ _ _ _).
  assert (forall id', is_Some (tickets m !! id') -> id' <> id) as Hne by (intros id' [? ?] ->; congruence).
  split; cbn [tickets count].
  - intros id' t1 [[<- <-]|[_ E']]%lookup_insert_Some; [split; [done|cbn; lia]|]. by apply (r_valid _ _ Hr).
  - intros p k id' t1. unfold bucketed at 1. cbn [buckets]. rewrite bucketed_add. unfold placed. case_decide as Ed.
    + destruct Ed as (-> & -> & ->). rewrite lookup_insert_eq, decide_True by done. naive_solver.
    + rewrite (r_bucket _ _ Hr). destruct (decide (id' = id)) as [->|Hi].
      * rewrite lookup_insert_eq. split; [intros [? _]; congruence|]. intros [_ [= -> ->]]. naive_solver.
      * by rewrite lookup_insert_ne.
  - rewrite map_size_insert_None by done. rewrite (r_count _ _ Hr), wrap64_add_l. f_equal. lia.
  - intros p a. destruct (r_index _ _ Hr p a) as [Hn Hl]. unfold listed at 1 2. cbn [numIndex].
    change (Numeric t) with (Numeric t'). rewrite listed_add. change (Numeric t) with (Numeric t').
    assert (forall t1, t1 ∈ listed p a m -> ID t1 <> id) as Hold by (intros t1 (H1 & _)%Hl; apply Hne; by eexists).
    assert (forall t1, ID t1 <> id -> (t1 ∈ listed p a m <-> <[id:=t']> (tickets m) !! ID t1 = Some t1 /\ (placed id pool key wh (ID t1)).1 = p /\ is_Some (Numeric t1 !! a))) as Hother.
    { intros t1 H1. rewrite Hl, lookup_insert_ne by done. unfold placed. by rewrite decide_False. }
    assert (forall t1, ID t1 = id -> <[id:=t']> (tickets m) !! ID t1 = Some t1 /\ (placed id pool key wh (ID t1)).1 = p /\ is_Some (Numeric t1 !! a) <->
      t1 = t' /\ p = pool /\ is_Some (Numeric t' !! a)) as Hself.
    { intros t1 ->. rewrite lookup_insert_eq. unfold placed. rewrite decide_True by done. naive_solver. }
    case_decide as Ed.
    + split.
      * rewrite fmap_app. apply NoDup_app. split_and!; [done| |apply NoDup_singleton]. intros i (t1 & -> & H1)%list_elem_of_fmap_1 H2.
        apply list_elem_of_singleton in H2. by apply (Hold t1).
      * intros t1. rewrite elem_of_app, list_elem_of_singleton. destruct (decide (ID t1 = id)) as [Hi|Hi].
        -- rewrite Hself by done. split; [intros [H1|H1]; [by apply Hold in H1|by subst t1]|naive_solver].
        -- rewrite <- Hother by done. split; [intros [?|H1]; [done|by subst t1]|by left].
    + split; [done|]. intros t1. destruct (decide (ID t1 = id)) as [Hi|Hi].
      * rewrite Hself by done. split; [intros H1; by apply Hold in H1|intros (_ & -> & ?); by destruct Ed].
      * by apply Hother.
Qed.

(** * A team *)

(** What a team keeps to while it grows: it begins with [t], its members come from [ts], none of them
    is used, their identifiers differ, and its size suits all of them, but may be less than [t] asks. *)
Record team_ok (ts : list (Ticket X)) (used : gset string) (t : Ticket X) (team : list (Ticket X)) : Prop := {
  k_head : exists rest, team = t :: rest;
  k_from : forall c, c ∈ team -> c ∈ ts /\ (ID c ∉ used);
  k_nodup : NoDup (ID <$> team);
  k_max : forall c, c ∈ team -> len team <= MaxCount c;
  k_min : forall c, c ∈ team -> c = t \/ MinCount c <= len team
}.

Lemma len_snoc team c : len (team ++ [c]) = len team + 1.
Proof. unfold len. rewrite length_app. cbn. lia. Qed.

Lemma team_grows ts used t team c : team_ok ts used t team -> c ∈ ts -> ID c ∉ used -> ID c ∉ ID <$> team -> countCompatible team c = true ->
  team_ok ts used t (team ++ [c]).
Proof.
  intros [[rest ->] H2 H3 H4 H5] Hc Hu Hn Hcc. unfold countCompatible in Hcc. apply andb_true_iff in Hcc as [Hmax Hcc].
  rewrite forallb_forall in Hmax. bool_prop. split.
  - by exists (rest ++ [c]).
  - intros x [Hx|Hx%list_elem_of_singleton]%elem_of_app; [by apply H2|by subst x].
  - rewrite fmap_app. apply NoDup_app. split_and!; [done| |apply NoDup_singleton]. intros i Hi Hi'%list_elem_of_singleton. by subst i.
  - intros x [Hx|Hx%list_elem_of_singleton]%elem_of_app; rewrite len_snoc; [|subst x; lia]. apply list_elem_of_In in Hx. specialize (Hmax x Hx). bool_prop. lia.
  - intros x [Hx|Hx%list_elem_of_singleton]%elem_of_app; rewrite len_snoc; [|subst x; right; lia]. destruct (H5 x Hx); [by left|right; lia].
Qed.

Lemma gather_ok ts used t max rest : forall team, team_ok ts used t team -> (forall c, c ∈ rest -> c ∈ ts) -> NoDup (ID <$> team ++ rest) ->
  team_ok ts used t (gather used max team rest).
Proof.
  induction rest as [|c rest IH]; intros team Ht Hsub Hn; cbn [gather]; [done|]. destruct (len team <? max); [|done].
  assert (forall c, c ∈ rest -> c ∈ ts) as Hsub' by (intros; apply Hsub; by right).
  assert (NoDup (ID <$> team ++ rest)) as Hn'.
  { revert Hn. rewrite !fmap_app. cbn. rewrite !NoDup_app, NoDup_cons. intros (H1 & H2 & _ & H3). split_and!; [done| |done]. intros i Hi Hi'. apply (H2 i Hi). by right. }
  case_bool_decide as Hu; [by apply IH|]. destruct (countCompatible team c) eqn:Hc; cbn [negb]; [|by apply IH]. apply IH; [|done|by rewrite <- app_assoc].
  apply team_grows; [done|apply Hsub; by left|done| |done]. intros Hi. rewrite fmap_app, NoDup_app in Hn. destruct Hn as (_ & Hn & _). apply (Hn (ID c) Hi). by left.
Qed.

Lemma best_of_spec fn used inTeam team ts : forall score best c, best_of fn used inTeam team ts score best = Some c ->
  best = Some c \/ (c ∈ ts /\ (ID c ∉ used) /\ (ID c ∉ inTeam) /\ countCompatible team c = true).
Proof.
  induction ts as [|x ts IH]; intros score best c H; cbn [best_of] in H; [by left|].
  assert (forall P : Prop, (best = Some c \/ (c ∈ ts /\ P)) -> best = Some c \/ (c ∈ x :: ts /\ P)) as Hweak by (intros P [?|[??]]; [by left|right; split; [by right|done]]).
  destruct (bool_decide (ID x ∈ used) || bool_decide (ID x ∈ inTeam)) eqn:Eu; [apply Hweak; by eapply IH|].
  apply orb_false_iff in Eu as [Eu1%bool_decide_eq_false Eu2%bool_decide_eq_false].
  destruct (countCompatible team x) eqn:Ec; cbn [negb] in H; [|apply Hweak; by eapply IH]. destruct (fltb score _); [|apply Hweak; by eapply IH].
  apply IH in H as [[= <-]|(? & ?)]; right; [split_and!; [by left|done..]|split; [by right|done]].
Qed.

Lemma ids_elem i l : i ∈ ids l <-> i ∈ ID <$> l.
Proof. unfold ids. by rewrite elem_of_list_to_set. Qed.

Lemma recruit_ok ts used t max fn fuel : forall team inTeam, team_ok ts used t team -> (forall i, i ∈ inTeam <-> i ∈ ID <$> team) ->
  team_ok ts used t (recruit fuel fn used inTeam max team ts).
Proof.
  induction fuel as [|fuel IH]; intros team inTeam Ht Hin; cbn [recruit]; [done|]. destruct (len team <? max); [|done].
  destruct (best_of _ _ _ _ _ _ _) as [c|] eqn:Eb; [|done]. apply best_of_spec in Eb as [[=]|(H1 & H2 & H3 & H4)].
  apply IH; [apply team_grows; try done; by rewrite <- Hin|]. intros i. rewrite elem_of_union, elem_of_singleton, fmap_app, elem_of_app, Hin. cbn.
  rewrite list_elem_of_singleton. naive_solver.
Qed.

(** * A turn *)

(** What a match is made of: tickets of the snapshot, each as many as it accepts. *)
Definition match_ok (pool : string) (ts : list (Ticket X)) (M : Match X) : Prop :=
  Pool M = pool /\ forall t, t ∈ Tickets M -> t ∈ ts /\ MinCount t <= len (Tickets M) <= MaxCount t.

Definition matched (ms : list (Match X)) : list string := ID <$> (ms ≫= Tickets).

(** What the matches [ms] leave of a matchmaker. *)
Definition leaves (m m' : Matchmaker) (ms : list (Match X)) : Prop :=
  (forall id, tickets m' !! id = if decide (id ∈ matched ms) then None else tickets m !! id) /\
  (forall wh, registry wh m -> registry wh m').

Lemma leaves_nil m : leaves m m [].
Proof. split; [|done]. intros id. rewrite decide_False; [done|]. apply not_elem_of_nil. Qed.

Lemma leaves_trans m m1 m2 ms ms' : leaves m m1 ms -> leaves m1 m2 ms' -> leaves m m2 (ms ++ ms').
Proof.
  intros [H1 H2] [H3 H4]. split; [|auto]. intros id. rewrite H3, H1. unfold matched. rewrite bind_app, fmap_app.
  destruct (decide (id ∈ ID <$> (ms' ≫= Tickets))) as [H|H]; [rewrite decide_True; [done|]; apply elem_of_app; by right|].
  destruct (decide (id ∈ ID <$> (ms ≫= Tickets))) as [H'|H'].
  - rewrite decide_True; [done|]. apply elem_of_app. by left.
  - rewrite decide_False; [done|]. by intros [?|?]%elem_of_app.
Qed.

Lemma emit_leaves team pool : forall m, leaves m (emitMatch team m) [MkMatch X team pool].
Proof.
  unfold leaves, matched. cbn [mbind list_bind Tickets]. rewrite app_nil_r. unfold emitMatch.
  induction team as [|t team IH]; intros m; cbn [foldl]; [split; [|done]; intros id; rewrite decide_False; [done|apply not_elem_of_nil]|].
  destruct (IH (Remove (ID t) m).1) as [H1 H2]. split.
  - intros id. rewrite H1, tickets_remove, fmap_cons. destruct (decide (id ∈ ID <$> team)) as [H|H]; [rewrite decide_True; [done|by right]|].
    destruct (decide (id = ID t)) as [->|Hd]; [rewrite decide_True by left; by rewrite lookup_delete_eq|].
    rewrite lookup_delete_ne, decide_False by (done || by intros [?|?]%elem_of_cons). done.
  - intros wh Hr. by apply H2, registry_Remove.
Qed.

Lemma try_loop_ok build pool all : (forall used t rest, (forall c, c ∈ t :: rest -> c ∈ all) -> NoDup (ID <$> t :: rest) -> ID t ∉ used ->
    1 <= MaxCount t -> team_ok all used t (build used t rest)) ->
  forall ts used m, (forall c, c ∈ ts -> c ∈ all /\ 1 <= MaxCount c) -> NoDup (ID <$> ts) ->
  let '(m', ms) := try_loop build pool used ts m in
  Forall (match_ok pool all) ms /\ NoDup (matched ms) /\ (forall id, id ∈ matched ms -> id ∉ used) /\ leaves m m' ms.
Proof.
  intros Hbuild. induction ts as [|t ts IH]; intros used m Hts Hn; cbn [try_loop]; [split_and!; [constructor|constructor|by intros ? ?%elem_of_nil|apply leaves_nil]|].
  pose proof Hn as Hn0. rewrite fmap_cons, NoDup_cons in Hn. destruct Hn as [_ Hn]. assert (forall c, c ∈ ts -> c ∈ all /\ 1 <= MaxCount c) as Hts' by (intros; apply Hts; by right).
  case_bool_decide as Hu; [by apply IH|]. destruct (Hts t ltac:(by left)) as [Ht Hmax].
  pose proof (Hbuild used t ts ltac:(intros; by apply Hts) Hn0 Hu Hmax) as [_ K2 K3 K4 K5]. set (team := build used t ts) in *.
  destruct (Z.leb_spec (MinCount t) (len team)) as [Hl|Hl]; [|by apply IH].
  pose proof (IH (ids team ∪ used) (emitMatch team m) Hts' Hn) as H. destruct (try_loop _ _ _ _ _) as [m' ms]. destruct H as (H1 & H2 & H3 & H4).
  change (matched (MkMatch X team pool :: ms)) with (ID <$> (team ++ (ms ≫= Tickets))). rewrite fmap_app. fold (matched ms). split_and!.
  - constructor; [|done]. split; [done|]. cbn. intros c Hc. split; [by apply K2|]. split; [destruct (K5 c Hc) as [->|]; lia|by apply K4].
  - apply NoDup_app. split_and!; [done| |done]. intros id Hid Hid'. apply (H3 id Hid'). apply elem_of_union. left. by apply ids_elem.
  - intros id [Hid|Hid]%elem_of_app; [apply list_elem_of_fmap_1 in Hid as (c & -> & Hc); by apply K2|]. intros Hid'. apply (H3 id Hid). by apply elem_of_union_r.
  - apply (leaves_trans m (emitMatch team m) m' [MkMatch X team pool] ms); [apply emit_leaves|done].
Qed.

Section turn_ok.
Context (cfg : config) (sort : list (Ticket X) -> list (Ticket X)) (range : forall V : Type, gmap string V -> list (string * V)).
(** Sorting and ranging over a map give every element once. *)
Context (sort_perm : forall ts, sort ts ≡ₚ ts) (range_perm : forall V (m : gmap string V), range V m ≡ₚ map_to_list m).

Lemma team_alone ts used t : t ∈ ts -> ID t ∉ used -> 1 <= MaxCount t -> team_ok ts used t [t].
Proof.
  intros H1 H2 H3. split; [by exists []| | | |]; try (intros c ->%list_elem_of_singleton; done || by left). apply NoDup_singleton.
Qed.

Lemma tryMatch_ok pool ts m : (forall c, c ∈ ts -> 1 <= MaxCount c) -> NoDup (ID <$> ts) ->
  let '(m', ms) := tryMatch cfg sort pool ts m in
  Forall (match_ok pool ts) ms /\ NoDup (matched ms) /\ leaves m m' ms.
Proof.
  intros Hts Hn. unfold tryMatch, tryMatchByScore. destruct (matchFunc cfg) as [fn|].
  - pose proof (try_loop_ok (fun used t _ => recruit (length ts) fn used {[ID t]} (MaxCount t) [t] ts) pool ts) as H.
    specialize (H ltac:(intros used t rest Hsub _ Hu Hm; apply recruit_ok; [apply team_alone; [apply Hsub; by left|done|done]|];
      intros i; cbn; by rewrite elem_of_singleton, list_elem_of_singleton) ts ∅ m ltac:(auto) Hn).
    destruct (try_loop _ _ _ _ _) as [m' ms]. naive_solver.
  - pose proof (try_loop_ok (fun used t rest => gather used (MaxCount t) [t] rest) pool ts) as H.
    specialize (H ltac:(intros used t rest Hsub Hnd Hu Hm; apply gather_ok; [apply team_alone; [apply Hsub; by left|done|done]|intros; apply Hsub; by right|done])
      (sort ts) ∅ m ltac:(intros c Hc; rewrite sort_perm in Hc; auto) ltac:(by rewrite sort_perm)).
    destruct (try_loop _ _ _ _ _) as [m' ms]. naive_solver.
Qed.

Lemma try_all_ok ss : forall m, (forall p ts c, (p, ts) ∈ ss -> c ∈ ts -> 1 <= MaxCount c) -> NoDup (ID <$> (ss ≫= snd)) ->
  let '(m', ms) := try_all cfg sort ss m in
  (forall M, M ∈ ms -> exists ts, (Pool M, ts) ∈ ss /\ match_ok (Pool M) ts M) /\ NoDup (matched ms) /\
  (forall id, id ∈ matched ms -> id ∈ ID <$> (ss ≫= snd)) /\ leaves m m' ms.
Proof.
  induction ss as [|[pool ts] ss IH]; intros m Hss Hn; cbn [try_all]; [split_and!; [by intros ? ?%elem_of_nil|constructor|by intros ? ?%elem_of_nil|apply leaves_nil]|].
  cbn [mbind list_bind snd] in Hn. rewrite fmap_app, NoDup_app in Hn. destruct Hn as (Hn1 & Hd & Hn2).
  pose proof (tryMatch_ok pool ts m ltac:(intros c; apply (Hss pool); by left) Hn1) as H1. destruct (tryMatch _ _ _ _ _) as [m1 ms1]. destruct H1 as (H1 & H2 & H3).
  pose proof (IH m1 ltac:(intros p ts' c Hin; apply (Hss p); by right) Hn2) as H4. destruct (try_all _ _ _ _) as [m2 ms2]. destruct H4 as (H4 & H5 & H6 & H7).
  rewrite Forall_forall in H1.
  assert (forall id, id ∈ matched ms1 -> id ∈ ID <$> ts) as Hsub.
  { intros id Hid. apply list_elem_of_fmap_1 in Hid as (c & -> & Hc). apply list_elem_of_bind in Hc as (M & Hc & HM).
    apply list_elem_of_fmap_2. by apply (H1 M HM). }
  assert (matched (ms1 ++ ms2) = matched ms1 ++ matched ms2) as Happ by (unfold matched; by rewrite bind_app, fmap_app).
  split_and!.
  - intros M [HM|HM]%elem_of_app.
    + destruct (H1 M HM) as [<- HMt]. exists ts. split; [by left|]. split; [done|done].
    + destruct (H4 M HM) as (ts' & ? & ?). exists ts'. split; [by right|done].
  - rewrite Happ. apply NoDup_app. split_and!; [done| |done]. intros id Hid Hid'. apply (Hd id); [by apply Hsub|by apply H6].
  - intros id. rewrite Happ, elem_of_app. cbn [mbind list_bind snd]. rewrite fmap_app, elem_of_app. naive_solver.
  - by eapply leaves_trans.
Qed.

(** ** The snapshots *)

Lemma NoDup_bind_by {K A} (key : A -> K) (l : list (K * list A)) : NoDup l.*1 ->
  (forall k ys, (k, ys) ∈ l -> NoDup ys /\ forall y, y ∈ ys -> key y = k) -> NoDup (l ≫= snd).
Proof.
  induction l as [|[k ys] l IH]; intros Hn Hl; [constructor|]. cbn in Hn |- *. apply NoDup_cons in Hn as [Hk Hn].
  destruct (Hl k ys ltac:(by left)) as [Hy1 Hy2]. apply NoDup_app. split_and!; [done| |apply IH; [done|]; intros; apply Hl; by right].
  intros y Hy Hy'. apply list_elem_of_bind in Hy' as ([k' ys'] & Hy' & Hin). cbn in Hy'. apply Hk. rewrite <- (Hy2 y Hy).
  destruct (Hl k' ys' ltac:(by right)) as [_ Hk']. rewrite (Hk' y Hy'). apply list_elem_of_fmap. by exists (k', ys').
Qed.

Lemma range_elem {V} (m : gmap string V) k v : (k, v) ∈ range V m <-> m !! k = Some v.
Proof. rewrite range_perm. apply elem_of_map_to_list. Qed.
Lemma range_nodup {V} (m : gmap string V) : NoDup (range V m).*1.
Proof. rewrite range_perm. apply NoDup_fst_map_to_list. Qed.

(** Without a longest wait the snapshots are the buckets. *)
Lemma pool_snaps_bind now pool byPool : maxWaitSec cfg <= 0 ->
  pool_snaps cfg range now pool byPool ≫= snd = range _ byPool ≫= (fun kb => (range _ kb.2).*2).
Proof.
  intros Hw. unfold pool_snaps. destruct (Z.ltb_spec 0 (maxWaitSec cfg)); [lia|]. induction (range _ byPool) as [|[k b] l IH]; [done|].
  cbn [omap list_omap mbind list_bind snd] in *. rewrite <- IH. destruct (decide (size b = 0%nat)) as [E|E]; [|done].
  assert (range _ b = []) as ->; [|done]. apply Permutation_nil_r. by rewrite range_perm, (map_size_empty_inv _ E), map_to_list_empty.
Qed.

Lemma snaps_nodup now wh m : maxWaitSec cfg <= 0 -> registry wh m -> NoDup (ID <$> (snaps cfg range now m ≫= snd)).
Proof.
  intros Hw Hr. assert (snaps cfg range now m ≫= snd = range _ (buckets m) ≫= (fun pb => range _ pb.2 ≫= (fun kb => (range _ kb.2).*2))) as ->.
  { unfold snaps. induction (range _ (buckets m)) as [|[p b] l IH]; [done|]. cbn [flat_map mbind list_bind snd] in *.
    by rewrite bind_app, pool_snaps_bind, IH by done. }
  assert (forall p k id c byPool b, buckets m !! p = Some byPool -> byPool !! k = Some b -> b !! id = Some c -> ID c = id /\ wh id = (p, k)) as Hat.
  { intros p k id c byPool b E1 E2 E3. assert (bucketed p k id m = Some c) as H by (unfold bucketed; rewrite E1; cbn; by rewrite E2).
    apply (r_bucket _ _ Hr) in H as [Ht Hwh]. split; [by apply (r_valid _ _ Hr)|done]. }
  assert (forall p byPool, buckets m !! p = Some byPool -> NoDup (ID <$> (range _ byPool ≫= (fun kb => (range _ kb.2).*2))) /\
    forall id, id ∈ ID <$> (range _ byPool ≫= (fun kb => (range _ kb.2).*2)) -> (wh id).1 = p) as Hpool.
  { intros p byPool Hp.
    assert (ID <$> (range _ byPool ≫= (fun kb => (range _ kb.2).*2)) = ((fun kb => (kb.1, ID <$> (range _ kb.2).*2)) <$> range _ byPool) ≫= snd) as ->.
    { induction (range _ byPool) as [|[k b] l IH]; [done|]. cbn [mbind list_bind snd fmap list_fmap fst] in *. by rewrite fmap_app, IH. }
    assert (forall k ys, (k, ys) ∈ ((fun kb => (kb.1, ID <$> (range _ kb.2).*2)) <$> range _ byPool) ->
      NoDup ys /\ forall y, y ∈ ys -> wh y = (p, k)) as Hk.
    { intros k ys Hin. apply list_elem_of_fmap in Hin as ([k' b] & [= -> ->] & Hb). apply range_elem in Hb. cbn.
      assert (ID <$> (range _ b).*2 = (range _ b).*1) as ->.
      { rewrite <- list_fmap_compose. apply list_fmap_ext. intros i [id c] Hic. cbn. apply list_elem_of_lookup_2, range_elem in Hic. by apply (Hat p k' id c byPool b). }
      split; [apply range_nodup|]. intros y Hy. apply list_elem_of_fmap in Hy as ([id c] & -> & Hic). apply range_elem in Hic. by apply (Hat p k' id c byPool b). }
    split.
    - apply (NoDup_bind_by (fun id => (wh id).2)); [rewrite <- list_fmap_compose; apply (range_nodup byPool)|]. intros k ys Hin. destruct (Hk k ys Hin) as [? Hy].
      split; [done|]. intros y ?. by rewrite (Hy y).
    - intros id Hid. apply list_elem_of_bind in Hid as ([k ys] & Hy & Hin). destruct (Hk k ys Hin) as [_ H]. by rewrite (H id Hy). }
  assert (ID <$> (range _ (buckets m) ≫= (fun pb => range _ pb.2 ≫= (fun kb => (range _ kb.2).*2))) =
    ((fun pb => (pb.1, ID <$> (range _ pb.2 ≫= (fun kb => (range _ kb.2).*2)))) <$> range _ (buckets m)) ≫= snd) as ->.
  { induction (range _ (buckets m)) as [|[p b] l IH]; [done|]. cbn [mbind list_bind snd fmap list_fmap fst] in *. by rewrite fmap_app, IH. }
  apply (NoDup_bind_by (fun id => (wh id).1)); [rewrite <- list_fmap_compose; apply (range_nodup (buckets m))|].
  intros p ys Hin. apply list_elem_of_fmap in Hin as ([p' byPool] & [= -> ->] & Hp). apply range_elem in Hp. by apply Hpool.
Qed.
Lemma bucket_elem wh m p byPool k b c : registry wh m -> (p, byPool) ∈ range _ (buckets m) -> (k, b) ∈ range _ byPool -> c ∈ (range _ b).*2 ->
  tickets m !! ID c = Some c /\ wh (ID c) = (p, k).
Proof.
  intros Hr Hp%range_elem Hb%range_elem Hc. apply list_elem_of_fmap in Hc as ([id c'] & -> & Hc). apply range_elem in Hc. cbn.
  assert (bucketed p k id m = Some c') as Hbk by (unfold bucketed; rewrite Hp; cbn; by rewrite Hb).
  apply (r_bucket _ _ Hr) in Hbk as [Ht Hwh]. by destruct (r_valid _ _ Hr _ _ Ht) as [-> _].
Qed.

(** A snapshot of a pool holds tickets of the pool. *)
Lemma snap_elem now wh m p ts c : registry wh m -> (p, ts) ∈ snaps cfg range now m -> c ∈ ts ->
  tickets m !! ID c = Some c /\ (wh (ID c)).1 = p.
Proof.
  intros Hr Hs Hc. unfold snaps in Hs. apply list_elem_of_In, in_flat_map in Hs as ([p' byPool] & Hp%list_elem_of_In & Hs%list_elem_of_In).
  assert (forall k b, (k, b) ∈ range _ byPool -> c ∈ (range _ b).*2 -> tickets m !! ID c = Some c /\ (wh (ID c)).1 = p') as Hin
    by (intros k b Hb Hc'; destruct (bucket_elem wh m p' byPool k b c Hr Hp Hb Hc') as [? ->]; done).
  assert (forall own, own = omap (fun '(_, bucket) => if decide (size bucket = 0%nat) then None else Some (p', (range _ bucket).*2)) (range _ byPool) ->
    (p, ts) ∈ own -> tickets m !! ID c = Some c /\ (wh (ID c)).1 = p) as Hown.
  { intros own -> Ho. apply list_elem_of_omap in Ho as ([k b] & Hb & E). destruct (decide _); [done|]. injection E as <- <-. by apply (Hin k b). }
  unfold pool_snaps in Hs. destruct (0 <? maxWaitSec cfg); [|by eapply Hown]. destruct (0 <? len _); [|by eapply Hown].
  apply elem_of_app in Hs as [Hs|Hs]; [by eapply Hown|]. apply list_elem_of_singleton in Hs as [= -> ->].
  apply list_elem_of_In, filter_In in Hc as [Hc _]. apply in_flat_map in Hc as ([k b] & Hb%list_elem_of_In & Hc%list_elem_of_In). by apply (Hin k b).
Qed.

Lemma matching_turn_spec wh now m : maxWaitSec cfg <= 0 -> registry wh m ->
  let '(m', ms) := tick cfg sort range now m in
  (forall M, M ∈ ms -> forall t, t ∈ Tickets M -> tickets m !! ID t = Some t /\ (wh (ID t)).1 = Pool M /\ MinCount t <= len (Tickets M) <= MaxCount t) /\
  NoDup (matched ms) /\ (forall id, tickets m' !! id = if decide (id ∈ matched ms) then None else tickets m !! id) /\ registry wh m'.
Proof.
  intros Hw Hr. unfold tick.
  pose proof (try_all_ok (snaps cfg range now m) m) as H. destruct (try_all _ _ _ _) as [m' ms].
  destruct H as (H1 & H2 & _ & H3 & H4); [|by eapply snaps_nodup|].
  - intros p ts c Hin Hc. destruct (snap_elem now wh m p ts c Hr Hin Hc) as [Ht _]. apply (r_valid _ _ Hr) in Ht. lia.
  - split_and!; [|done|done|by apply H4]. intros M HM t Ht. destruct (H1 M HM) as (ts & Hin & _ & Hts). destruct (Hts t Ht) as [Htin ?].
    by destruct (snap_elem now wh m (Pool M) ts t Hr Hin Htin).
Qed.

(** Without a longest wait, on every registry the calls lead to, whatever the order of maps and of
    equal skills: a turn makes matches of waiting tickets of one pool, of a size that suits all of
    them, a ticket is in one match at most, and exactly the tickets matched leave the registry. *)
Theorem tick_matches wh now m : maxWaitSec cfg <= 0 -> registry wh m ->
  let '(m', ms) := tick cfg sort range now m in
  (forall M, M ∈ ms -> forall t, t ∈ Tickets M -> tickets m !! ID t = Some t /\ (wh (ID t)).1 = Pool M /\ MinCount t <= len (Tickets M) <= MaxCount t) /\
  NoDup (matched ms) /\ (forall id, tickets m' !! id = if decide (id ∈ matched ms) then None else tickets m !! id) /\ registry wh m'.
Proof. apply matching_turn_spec. Qed.

(** ** Teams of three and more *)

Lemma lonely t c : 3 <= MinCount c -> countCompatible [t] c = false.
Proof. intros H. unfold countCompatible, len. cbn [length]. destruct (Z.leb_spec (MinCount c) (Z.of_nat 1 + 1)); [lia|]. apply andb_false_r. Qed.

Lemma gather_lonely used max t rest : (forall c, c ∈ rest -> 3 <= MinCount c) -> gather used max [t] rest = [t].
Proof.
  induction rest as [|c rest IH]; intros H; cbn [gather]; [done|]. destruct (len [t] <? max); [|done]. rewrite lonely by (apply H; by left). cbn [negb].
  rewrite IH by (intros; apply H; by right). by destruct (bool_decide _).
Qed.

Lemma recruit_lonely fuel fn used inTeam max t ts : (forall c, c ∈ ts -> 3 <= MinCount c) -> recruit fuel fn used inTeam max [t] ts = [t].
Proof.
  intros H. destruct fuel as [|fuel]; cbn [recruit]; [done|]. destruct (len [t] <? max); [|done].
  destruct (best_of _ _ _ _ _ _ _) as [c|] eqn:E; [|done]. apply best_of_spec in E as [[=]|(Hc & _ & _ & Hcc)]. by rewrite lonely in Hcc by (by apply H).
Qed.

Lemma try_loop_lonely build pool used m ts : (forall used t rest, t :: rest `suffix_of` ts -> build used t rest = [t]) ->
  (forall c, c ∈ ts -> 3 <= MinCount c) -> try_loop build pool used ts m = (m, []).
Proof.
  intros Hb. induction ts as [|t ts IH]; intros Hc; cbn [try_loop]; [done|].
  assert (try_loop build pool used ts m = (m, [])) as Hrest by (apply IH; [intros; apply Hb; by apply suffix_cons_r|intros; apply Hc; by right]).
  case_bool_decide; [done|]. rewrite Hb by done. pose proof (Hc t ltac:(by left)). destruct (Z.leb_spec (MinCount t) (len [t])) as [Hl|]; [|done].
  unfold len in Hl. cbn in Hl. lia.
Qed.

(** Tickets that all ask for three players or more are never matched, however many there are: the
    size of the team is compared with the least size of every newcomer, and the second never fits. *)
Theorem large_teams_starve wh now m : registry wh m -> (forall id t, tickets m !! id = Some t -> 3 <= MinCount t) ->
  tick cfg sort range now m = (m, []).
Proof.
  intros Hr Hall. unfold tick.
  assert (forall p ts, (p, ts) ∈ snaps cfg range now m -> forall c, c ∈ ts -> 3 <= MinCount c) as Hss
    by (intros p ts Hin c Hc; destruct (snap_elem now wh m p ts c Hr Hin Hc) as [Ht _]; by eapply Hall).
  revert Hss. induction (snaps cfg range now m) as [|[pool ts] ss IH]; intros Hss; [done|]. cbn [try_all].
  assert (tryMatch cfg sort pool ts m = (m, [])) as ->.
  { pose proof (Hss pool ts ltac:(by left)) as Hc. unfold tryMatch, tryMatchByScore. destruct (matchFunc cfg) as [fn|].
    - apply try_loop_lonely; [|done]. intros. by apply recruit_lonely.
    - assert (forall c, c ∈ sort ts -> 3 <= MinCount c) as Hc' by (intros c Hin; rewrite sort_perm in Hin; auto).
      apply try_loop_lonely; [|done]. intros used t rest [pre E]. apply gather_lonely. intros c Hin. apply Hc'. rewrite E. set_solver. }
  rewrite IH; [done|]. intros p ts' Hin. apply (Hss p). by right.
Qed.
End turn_ok.

(** ** Histories *)

Inductive op := OAdd (now : Z) (gen : string) (t : Ticket X) (pool key : string) | ORemove (id : string).
Definition exec (o : op) (m : Matchmaker) : Matchmaker :=
  match o with OAdd now gen t pool key => (Add now gen t pool key m).1 | ORemove id => (Remove id m).1 end.

Lemma registry_exec ops : forall wh m, registry wh m -> exists wh', registry wh' (foldl (fun m o => exec o m) m ops).
Proof.
  induction ops as [|o ops IH]; intros wh m Hr; [by exists wh|]. cbn [foldl]. destruct o as [now gen t pool key|id]; cbn [exec].
  - pose proof (registry_Add wh now gen t pool key m Hr) as H. cbv zeta in H. destruct (Add now gen t pool key m) as [m' [id|[]]]; cbn [fst].
    + destruct H as (_ & _ & _ & _ & H). by eapply IH.
    + destruct H as [_ ->]. by eapply IH.
    + destruct H as [_ ->]. by eapply IH.
  - eapply IH. by apply registry_Remove.
Qed.
End matchmaker.

(** * Runs *)

Definition skill (t : Ticket unit) : float64 := default (of_int 0) (Numeric t !! "skill").
Definition demo_ticket (id : string) (min max s : Z) : Ticket unit := MkTicket unit id tt {[ "skill" := of_int s ]} 0 min max.
Definition demo_range (V : Type) (m : gmap string V) : list (string * V) := map_to_list m.
Definition slower (a b : Ticket unit) : Prop := fltb (skill b) (skill a) = false.
#[export] Instance slower_dec a b : Decision (slower a b).
Proof. unfold slower. apply _. Defined.
Definition demo_sort : list (Ticket unit) -> list (Ticket unit) := merge_sort slower.
Definition demo_cfg (wait : Z) : config (X := unit) := New_config [WithMaxWaitSec wait].
Definition demo_ops : list (op (X := unit)) :=
  [OAdd 1 "g" (demo_ticket "a" 2 2 100) "duel" "eu"; OAdd 2 "g" (demo_ticket "b" 2 2 900) "duel" "eu"; OAdd 3 "g" (demo_ticket "c" 2 2 120) "duel" "eu"].
Definition demo_mm : Matchmaker := foldl (fun m o => exec o m) New demo_ops.

Lemma demo_registry : exists wh, registry wh demo_mm.
Proof. unfold demo_mm. eapply registry_exec. apply registry_New. Qed.

Lemma tick_matches_witness : exists wh, registry wh demo_mm /\
  matched (tick (demo_cfg 0) demo_sort demo_range 9 demo_mm).2 = ["a"; "c"] /\
  let '(m', ms) := tick (demo_cfg 0) demo_sort demo_range 9 demo_mm in
  (forall M, M ∈ ms -> forall t, t ∈ Tickets M -> tickets demo_mm !! ID t = Some t /\ (wh (ID t)).1 = Pool M /\ MinCount t <= len (Tickets M) <= MaxCount t) /\
  NoDup (matched ms) /\ (forall id, tickets m' !! id = if decide (id ∈ matched ms) then None else tickets demo_mm !! id) /\ registry wh m'.
Proof.
  destruct demo_registry as [wh Hwh]. exists wh. split; [exact Hwh|]. split; [vm_compute; reflexivity|].
  apply (tick_matches (demo_cfg 0) demo_sort demo_range); [intros ts; apply merge_sort_Permutation|intros; reflexivity|vm_compute; discriminate|exact Hwh].
Defined.

Definition demo_trio : Matchmaker :=
  foldl (fun m o => exec o m) New [OAdd 1 "g" (demo_ticket "a" 3 3 100) "trio" "eu"; OAdd 2 "g" (demo_ticket "b" 3 3 100) "trio" "eu"; OAdd 3 "g" (demo_ticket "c" 3 3 100) "trio" "eu"].
Lemma large_teams_starve_witness : size (tickets demo_trio) = 3%nat /\ tick (demo_cfg 30) demo_sort demo_range (10 ^ 12) demo_trio = (demo_trio, []).
Proof.
  split; [vm_compute; reflexivity|].
  destruct (registry_exec [OAdd 1 "g" (demo_ticket "a" 3 3 100) "trio" "eu"; OAdd 2 "g" (demo_ticket "b" 3 3 100) "trio" "eu"; OAdd 3 "g" (demo_ticket "c" 3 3 100) "trio" "eu"] _ New registry_New) as [wh Hwh].
  apply (large_teams_starve (demo_cfg 30) demo_sort demo_range ltac:(intros ts; apply merge_sort_Permutation) ltac:(intros; reflexivity) wh); [exact Hwh|].
  apply map_Forall_to_list. vm_compute. repeat constructor; discriminate.
Defined.

(** With a longest wait a ticket that waited longer is in two snapshots of a turn, and in two matches. *)
Lemma matched_twice : matched (tick (demo_cfg 30) demo_sort demo_range (10 ^ 12) demo_mm).2 = ["a"; "c"; "a"; "c"].
Proof. vm_compute. reflexivity. Qed.
