(* ===== verification/Questlog.v ===== *)
(** Quests and achievements ([pkg/game/questlog/questlog.go]): definitions with a target and
    prerequisites shared by all owners, the progress of each owner, rewards claimed once. *)
From Stdlib Require Import ZArith Lia Bool.
From stdpp Require Import base numbers strings list gmap fin_maps sets.
From S2P Require Import Prelude.

Open Scope Z_scope.

Inductive Status := StatusLocked | StatusInProgress | StatusAchieved | StatusClaimed.
#[export] Instance Status_eq_dec : EqDecision Status.
Proof. solve_decision. Defined.

Definition Status_String (s : Status) : string :=
  match s with StatusLocked => "locked" | StatusInProgress => "in_progress" | StatusAchieved => "achieved" | StatusClaimed => "claimed" end.

Section questlog.
Context {K : Type} `{Countable K} {M : Type}.

Record Quest := MkQuest { ID : K; Target : Z; Requires : list K; Meta : M }.
Record State := MkState { sID : K; sStatus : Status; sProgress : Z; sTarget : Z }.

(** The quests claimed are the keys of [claimed] set to true. *)
Record ownerProg := MkProg { progress : gmap K Z; claimed : gset K }.

(** [onClaim] says whether a callback was set; its calls are outputs of the operations. *)
Record Log := MkLog { quests : gmap K Quest; order : list K; owners : gmap string ownerProg; onClaim : bool }.

Definition WithOnClaim (l : Log) : Log := MkLog (quests l) (order l) (owners l) true.
Definition register (l : Log) (q : Quest) : Log :=
  MkLog (<[ID q := q]> (quests l)) (match quests l !! ID q with None => order l ++ [ID q] | Some _ => order l end) (owners l) (onClaim l).
Definition New (qs : list Quest) (opts : list (Log -> Log)) : Log :=
  foldl register (foldl (fun l o => o l) (MkLog ∅ [] ∅ false) opts) qs.

Definition with_owner (owner : string) (op : ownerProg) (l : Log) : Log :=
  MkLog (quests l) (order l) (<[owner := op]> (owners l)) (onClaim l).

(** The entry of an owner, made when it is not there. *)
Definition fresh : ownerProg := MkProg ∅ ∅.
Definition ownerLocked (owner : string) (l : Log) : Log * ownerProg :=
  match owners l !! owner with
  | Some op => (l, op)
  | None => (with_owner owner fresh l, fresh)
  end.

Definition progress_of (op : ownerProg) (id : K) : Z := default 0 (progress op !! id).
Definition is_claimed (op : ownerProg) (id : K) : bool := bool_decide (id ∈ claimed op).

Definition unlockedLocked (op : ownerProg) (q : Quest) : bool := forallb (is_claimed op) (Requires q).

Definition statusLocked (op : ownerProg) (q : Quest) : Status :=
  if is_claimed op (ID q) then StatusClaimed
  else if negb (unlockedLocked op q) then StatusLocked
  else if Target q <=? progress_of op (ID q) then StatusAchieved
  else StatusInProgress.

Definition snapshotLocked (op : ownerProg) (q : Quest) : State :=
  MkState (ID q) (statusLocked op q) (Z.min (progress_of op (ID q)) (Target q)) (Target q).

Definition set_progress (id : K) (v : Z) (op : ownerProg) : ownerProg := MkProg (<[id := v]> (progress op)) (claimed op).
Definition claim (id : K) (op : ownerProg) : ownerProg := MkProg (progress op) ({[id]} ∪ claimed op).

(** [None] is the zero value of a state. *)
Definition Advance (owner : string) (id : K) (delta : Z) (l : Log) : Log * (option State * bool) :=
  match quests l !! id with
  | None => (l, (None, false))
  | Some q =>
      let '(l, op) := ownerLocked owner l in
      if is_claimed op id || negb (unlockedLocked op q) then (l, (Some (snapshotLocked op q), false))
      else
        let cur := progress_of op id in
        let next := Z.min (Z.max (wrap64 (cur + delta)) 0) (Target q) in
        let op := set_progress id next op in
        (with_owner owner op l, (Some (snapshotLocked op q), negb (next =? cur)))
  end.

Definition Set_ (owner : string) (id : K) (v : Z) (l : Log) : Log * (option State * bool) :=
  match quests l !! id with
  | None => (l, (None, false))
  | Some q =>
      let '(l, op) := ownerLocked owner l in
      if is_claimed op id || negb (unlockedLocked op q) then (l, (Some (snapshotLocked op q), false))
      else
        let v := if v <? 0 then 0 else v in
        let v := if Target q <? v then Target q else v in
        let cur := progress_of op id in
        let op := set_progress id v op in
        (with_owner owner op l, (Some (snapshotLocked op q), negb (v =? cur)))
  end.

(** The calls of the callback come with the answer: they are made once the lock is released. *)
Definition Claim (owner : string) (id : K) (l : Log) : Log * bool * list (string * Quest) :=
  match quests l !! id with
  | None => (l, false, [])
  | Some q =>
      let '(l, op) := ownerLocked owner l in
      if negb (bool_decide (statusLocked op q = StatusAchieved)) then (l, false, [])
      else (with_owner owner (claim id op) l, true, if onClaim l then [(owner, q)] else [])
  end.

(** The loop of [ClaimAll]: the quests found achieved, with those claimed before them claimed. *)
Fixpoint claim_loop (qm : gmap K Quest) (ids : list K) (op : ownerProg) : ownerProg * list Quest :=
  match ids with
  | [] => (op, [])
  | id :: ids =>
      match qm !! id with
      | None => claim_loop qm ids op
      | Some q =>
          if bool_decide (statusLocked op q = StatusAchieved) then
            let '(op, qs) := claim_loop qm ids (claim id op) in (op, q :: qs)
          else claim_loop qm ids op
      end
  end.

Definition ClaimAll (owner : string) (l : Log) : Log * list K * list (string * Quest) :=
  let '(l, op) := ownerLocked owner l in
  let '(op, qs) := claim_loop (quests l) (order l) op in
  (with_owner owner op l, ID <$> qs, if onClaim l then (fun q => (owner, q)) <$> qs else []).

Definition StateOf (owner : string) (id : K) (l : Log) : Log * (option State * bool) :=
  match quests l !! id with
  | None => (l, (None, false))
  | Some q => let '(l, op) := ownerLocked owner l in (l, (Some (snapshotLocked op q), true))
  end.

Definition List_ (owner : string) (l : Log) : Log * list State :=
  let '(l, op) := ownerLocked owner l in (l, snapshotLocked op <$> omap (fun id => quests l !! id) (order l)).

Definition Claimable (owner : string) (l : Log) : Log * list K :=
  let '(l, op) := ownerLocked owner l in
  (l, ID <$> List.filter (fun q => bool_decide (statusLocked op q = StatusAchieved)) (omap (fun id => quests l !! id) (order l))).

Definition forget (op : ownerProg) (id : K) : ownerProg := MkProg (delete id (progress op)) (claimed op ∖ {[id]}).

Definition Reset_ (owner : string) (ids : list K) (l : Log) : Log :=
  match owners l !! owner with
  | None => l
  | Some op => with_owner owner (match ids with [] => fresh | _ => foldl forget op ids end) l
  end.

(** * Histories *)

Inductive op :=
| OAdvance (owner : string) (id : K) (delta : Z) | OSet (owner : string) (id : K) (v : Z)
| OClaim (owner : string) (id : K) | OClaimAll (owner : string)
| OState (owner : string) (id : K) | OList (owner : string) | OClaimable (owner : string)
| OReset (owner : string) (ids : list K).

(** An operation, with the rewards it hands out. *)
Definition exec (o : op) (l : Log) : Log * list (string * Quest) :=
  match o with
  | OAdvance owner id delta => ((Advance owner id delta l).1, [])
  | OSet owner id v => ((Set_ owner id v l).1, [])
  | OClaim owner id => let '(l, _, evs) := Claim owner id l in (l, evs)
  | OClaimAll owner => let '(l, _, evs) := ClaimAll owner l in (l, evs)
  | OState owner id => ((StateOf owner id l).1, [])
  | OList owner => ((List_ owner l).1, [])
  | OClaimable owner => ((Claimable owner l).1, [])
  | OReset owner ids => (Reset_ owner ids l, [])
  end.

Definition run (ops : list op) (l : Log) : Log := foldl (fun l o => (exec o l).1) l ops.

(** What an owner has, whether or not its entry was made. *)
Definition op_of (owner : string) (l : Log) : ownerProg := default fresh (owners l !! owner).

(** Every quest is registered under its identifier, and the order lists them once. *)
Record wf (l : Log) : Prop := {
  wf_id : forall id q, quests l !! id = Some q -> ID q = id;
  wf_order : forall id, id ∈ order l <-> is_Some (quests l !! id);
  wf_once : NoDup (order l)
}.

Lemma register_wf l q : wf l -> wf (register l q).
Proof.
  intros [Hi Ho Hn]. split; cbn.
  - intros id q' [[<- <-]|[_ E]]%lookup_insert_Some; [done|by apply Hi].
  - intros id. destruct (decide (ID q = id)) as [<-|Hd].
    + rewrite lookup_insert_eq. split; [by eexists|]. intros _. destruct (quests l !! ID q) eqn:E; [apply Ho; by eexists|set_solver].
    + rewrite lookup_insert_ne by done. rewrite <- Ho. destruct (quests l !! ID q); [done|]. set_solver.
  - destruct (quests l !! ID q) eqn:E; [done|]. apply NoDup_app. split_and!; [done| |apply NoDup_singleton].
    intros id Hid ->%list_elem_of_singleton. apply Ho in Hid as [? ?]. congruence.
Qed.

Lemma New_log_wf qs opts : (forall o, o ∈ opts -> o = WithOnClaim) -> wf (New qs opts) /\ owners (New qs opts) = ∅.
Proof.
  intros Ho. unfold New. assert (exists b, foldl (fun l o => o l) (MkLog ∅ [] ∅ false) opts = MkLog ∅ [] ∅ b) as [b ->].
  { induction opts as [|o opts IH] using rev_ind; [by exists false|]. rewrite foldl_app.
    destruct IH as [b ->]; [intros; apply Ho; set_solver|]. cbn. rewrite (Ho o) by set_solver. by exists true. }
  clear. induction qs as [|q qs IH] using rev_ind.
  - split; [|done]. split; cbn; [intros ? ?|intros id|constructor].
    + by rewrite lookup_empty.
    + rewrite lookup_empty. split; [set_solver|by intros []].
  - rewrite foldl_app. cbn [foldl]. split; [apply register_wf, IH|apply IH].
Qed.

(** An operation of one owner changes only that owner's entry. *)
Definition touches (owner : string) (l l' : Log) : Prop :=
  quests l' = quests l /\ order l' = order l /\ onClaim l' = onClaim l /\
  forall o, o <> owner -> op_of o l' = op_of o l.

Lemma touches_refl owner l : touches owner l l.
Proof. done. Qed.
Lemma touches_with owner op l : touches owner l (with_owner owner op l) /\ op_of owner (with_owner owner op l) = op.
Proof.
  split; [|unfold op_of, with_owner; cbn; by rewrite lookup_insert_eq].
  split_and!; try done. intros o Ho. unfold op_of, with_owner. cbn. by rewrite lookup_insert_ne.
Qed.
Lemma touches_trans owner l1 l2 l3 : touches owner l1 l2 -> touches owner l2 l3 -> touches owner l1 l3.
Proof.
  intros (A1 & A2 & A3 & A4) (B1 & B2 & B3 & B4).
  split_and!; [by rewrite B1|by rewrite B2|by rewrite B3|]. intros o Ho. by rewrite B4, A4.
Qed.
Lemma touches_wf owner l l' : touches owner l l' -> wf l -> wf l'.
Proof. intros (A1 & A2 & _) [Hi Ho Hn]. split; rewrite ?A1, ?A2; done. Qed.

Lemma ownerLocked_spec owner l : exists l', ownerLocked owner l = (l', op_of owner l) /\
  touches owner l l' /\ owners l' !! owner = Some (op_of owner l).
Proof.
  unfold ownerLocked, op_of. destruct (owners l !! owner) as [op|] eqn:E; cbn.
  - exists l. split_and!; [done|apply touches_refl|done].
  - eexists. split; [done|]. split; [apply touches_with|]. cbn. by rewrite lookup_insert_eq.
Qed.

Lemma owner_op_of owner op l : owners l !! owner = Some op -> op_of owner l = op.
Proof. unfold op_of. by intros ->. Qed.

(** The entry an operation leaves, and the rewards. *)
Definition effect (o : op) (l : Log) (op : ownerProg) : ownerProg * list Quest :=
  match o with
  | OAdvance _ id delta =>
      match quests l !! id with
      | Some q => if is_claimed op id || negb (unlockedLocked op q) then (op, [])
                  else (set_progress id (Z.min (Z.max (wrap64 (progress_of op id + delta)) 0) (Target q)) op, [])
      | None => (op, [])
      end
  | OSet _ id v =>
      match quests l !! id with
      | Some q => if is_claimed op id || negb (unlockedLocked op q) then (op, [])
                  else (set_progress id (Z.min (Z.max v 0) (Target q)) op, [])
      | None => (op, [])
      end
  | OClaim _ id => claim_loop (quests l) [id] op
  | OClaimAll _ => claim_loop (quests l) (order l) op
  | OReset _ [] => (fresh, [])
  | OReset _ ids => (foldl forget op ids, [])
  | _ => (op, [])
  end.

Definition owner_of (o : op) : string :=
  match o with
  | OAdvance w _ _ | OSet w _ _ | OClaim w _ | OClaimAll w | OState w _ | OList w | OClaimable w | OReset w _ => w
  end.

Lemma forget_fresh ids : foldl forget fresh ids = fresh.
Proof.
  induction ids as [|id ids IH]; [done|]. cbn [foldl]. replace (forget fresh id) with fresh; [done|].
  unfold forget, fresh. cbn. rewrite delete_empty. f_equal. set_solver.
Qed.

Lemma Reset_effect w ids l : touches w l (Reset_ w ids l) /\
  op_of w (Reset_ w ids l) = match ids with [] => fresh | _ => foldl forget (op_of w l) ids end.
Proof.
  unfold Reset_. destruct (owners l !! w) as [op|] eqn:E.
  - rewrite (owner_op_of w op l E). apply touches_with.
  - split; [apply touches_refl|]. unfold op_of. rewrite E. cbn [default]. destruct ids; [done|]. by rewrite forget_fresh.
Qed.

Lemma exec_effect o l : exists l', touches (owner_of o) l l' /\
  let '(op, qs) := effect o l (op_of (owner_of o) l) in
  op_of (owner_of o) l' = op /\ exec o l = (l', if onClaim l then pair (owner_of o) <$> qs else []).
Proof.
  assert (forall w, exists l1, ownerLocked w l = (l1, op_of w l) /\ touches w l l1 /\ owners l1 !! w = Some (op_of w l))
    as Hl by (intros; apply ownerLocked_spec).
  assert (forall w l1 (evs : list (string * Quest)), touches w l l1 -> owners l1 !! w = Some (op_of w l) ->
    exists l', touches w l l' /\ op_of w l' = op_of w l /\ (l1, evs) = (l', evs)) as Hsame.
  { intros w l1 evs Ht E. exists l1. by rewrite (owner_op_of w _ l1 E). }
  assert (forall w l1 op (evs : list (string * Quest)), touches w l l1 ->
    exists l', touches w l l' /\ op_of w l' = op /\ (with_owner w op l1, evs) = (l', evs)) as Hnew.
  { intros w l1 op evs Ht. exists (with_owner w op l1). destruct (touches_with w op l1) as [Ht' ?]. split; [by eapply touches_trans|done]. }
  destruct o as [w id delta|w id v|w id|w|w id|w|w|w ids]; cbn [owner_of effect exec claim_loop].
  1-5: unfold Advance, Set_, Claim, ClaimAll, StateOf.
  1,2: destruct (quests l !! id) as [q|]; [|by exists l; rewrite fmap_nil, Tauto.if_same];
    destruct (Hl w) as (l1 & -> & Ht & E); destruct (is_claimed _ _ || _); rewrite fmap_nil, Tauto.if_same; [by apply Hsame|].
  - by apply Hnew.
  - replace (if Target q <? (if v <? 0 then 0 else v) then Target q else if v <? 0 then 0 else v) with (Z.min (Z.max v 0) (Target q)) by case_all.
    by apply Hnew.
  - destruct (quests l !! id) as [q|]; [|by exists l; rewrite fmap_nil, Tauto.if_same].
    destruct (Hl w) as (l1 & -> & Ht & E). destruct (bool_decide _); cbn [negb]; [|rewrite fmap_nil, Tauto.if_same; by apply Hsame].
    assert (onClaim l1 = onClaim l) as -> by apply Ht. by apply Hnew.
  - destruct (Hl w) as (l1 & -> & Ht & E). assert (quests l1 = quests l) as -> by apply Ht. assert (order l1 = order l) as -> by apply Ht.
    destruct (claim_loop _ _ _) as [op qs]. assert (onClaim l1 = onClaim l) as -> by apply Ht. by apply Hnew.
  - destruct (Hl w) as (l1 & El & Ht & E). rewrite fmap_nil, Tauto.if_same, El. destruct (quests l !! id); [by apply Hsame|by exists l].
  - destruct (Hl w) as (l1 & El & Ht & E). unfold List_. rewrite fmap_nil, Tauto.if_same, El. by apply Hsame.
  - destruct (Hl w) as (l1 & El & Ht & E). unfold Claimable. rewrite fmap_nil, Tauto.if_same, El. by apply Hsame.
  - destruct (Reset_effect w ids l) as [Ht Hop]. exists (Reset_ w ids l). split; [done|].
    destruct ids; cbn; by rewrite Tauto.if_same.
Qed.

(** ** Claims *)

Definition claimable (op : ownerProg) (q : Quest) : Prop :=
  (ID q ∉ claimed op) /\ Target q <= progress_of op (ID q) /\ forall r, r ∈ Requires q -> r ∈ claimed op.

Lemma status_achieved op q : statusLocked op q = StatusAchieved <-> claimable op q.
Proof.
  unfold statusLocked, is_claimed, claimable. case_bool_decide as Ec; [naive_solver|].
  destruct (unlockedLocked op q) eqn:Eu; cbn [negb]; unfold unlockedLocked in Eu.
  - rewrite forallb_forall in Eu. case_match; bool_prop; [|split; [done|lia]]. split; [intros _|done].
    split_and!; [done|done|]. intros r Hr. apply list_elem_of_In, Eu in Hr. by apply bool_decide_eq_true in Hr.
  - split; [done|]. intros (_ & _ & Hr). apply not_true_iff_false in Eu. destruct Eu. apply forallb_forall.
    intros r E. apply bool_decide_eq_true, Hr. by apply list_elem_of_In.
Qed.

Lemma claim_loop_spec qm : (forall id q, qm !! id = Some q -> ID q = id) -> forall ids op,
  let '(op', qs) := claim_loop qm ids op in
  progress op' = progress op /\ claimed op ⊆ claimed op' /\
  (forall id, id ∈ claimed op' -> id ∈ claimed op \/ id ∈ ID <$> qs) /\ NoDup (ID <$> qs) /\
  (forall q, q ∈ qs -> qm !! ID q = Some q /\ (ID q ∉ claimed op) /\ ID q ∈ claimed op' /\
     Target q <= progress_of op (ID q) /\ forall r, r ∈ Requires q -> r ∈ claimed op').
Proof.
  intros Hqm. assert (forall op : ownerProg, progress op = progress op /\ claimed op ⊆ claimed op /\
    (forall id, id ∈ claimed op -> id ∈ claimed op \/ id ∈ ID <$> @nil Quest) /\ NoDup (ID <$> @nil Quest)) as Hnil.
  { intros op. split_and!; [done|done|by left|constructor]. }
  induction ids as [|id ids IH]; intros op; cbn [claim_loop].
  { destruct (Hnil op) as (? & ? & ? & ?). split_and!; try done. by intros q ?%elem_of_nil. }
  destruct (qm !! id) as [q|] eqn:Eq; [|apply IH]. case_bool_decide as Es; [|apply IH].
  apply status_achieved in Es as (Hc & Ht & Hr). pose proof (Hqm id q Eq) as <-. specialize (IH (claim (ID q) op)).
  destruct (claim_loop qm ids (claim (ID q) op)) as [op' qs]. destruct IH as (Hp & Hsub & Hin & Hn & Hqs). cbn [claim claimed progress] in *.
  split_and!; [done|set_solver| | |].
  - intros id [[->%elem_of_singleton|?]%elem_of_union|?]%Hin; [right; left|by left|right; by right].
  - cbn. constructor; [|done]. intros (q' & E & Hq')%list_elem_of_fmap. apply Hqs in Hq' as (_ & Hq' & _). set_solver.
  - intros q' [->|Hq']%elem_of_cons; [split_and!; [done|done|set_solver|done|set_solver]|].
    destruct (Hqs q' Hq') as (? & ? & ? & ? & ?). split_and!; [done|set_solver|done|done|done].
Qed.

(** Claiming one by one. *)
Fixpoint claim_each (owner : string) (ids : list K) (l : Log) : Log * list K * list (string * Quest) :=
  match ids with
  | [] => (l, [], [])
  | id :: ids =>
      let '(l, b, ev) := Claim owner id l in
      let '(l, cs, evs) := claim_each owner ids l in
      (l, if b : bool then id :: cs else cs, ev ++ evs)
  end.

Lemma claim_each_loop owner ids : forall l op, wf l -> owners l !! owner = Some op -> (forall id, id ∈ ids -> id ∈ order l) ->
  claim_each owner ids l =
  let '(op', qs) := claim_loop (quests l) ids op in
  (with_owner owner op' l, ID <$> qs, if onClaim l then pair owner <$> qs else []).
Proof.
  induction ids as [|id ids IH]; intros l op Hl E Hids; cbn [claim_each claim_loop].
  { rewrite fmap_nil, Tauto.if_same. do 2 f_equal. destruct l. unfold with_owner. cbn in *. by rewrite insert_id. }
  destruct (proj1 (wf_order l Hl id)) as [q Eq]; [apply Hids; left|]. unfold Claim. rewrite Eq. unfold ownerLocked. rewrite E.
  pose proof (wf_id l Hl id q Eq) as Hid. case_bool_decide as Es; cbn [negb].
  - rewrite (IH _ (claim id op)); [|by eapply touches_wf; [apply touches_with|]|cbn; by rewrite lookup_insert_eq|cbn; set_solver].
    cbn [quests onClaim with_owner]. destruct (claim_loop (quests l) ids (claim id op)) as [op' qs].
    unfold with_owner. cbn. rewrite insert_insert_eq, Hid. by destruct (onClaim l).
  - rewrite (IH l op) by (done || set_solver). by destruct (claim_loop (quests l) ids op).
Qed.

(** ** Reachable logs *)

(** [targets]: no quest with a negative target is defined. *)
Record inv (l : Log) : Prop := {
  inv_wf : wf l;
  inv_claimed : forall w id q, quests l !! id = Some q -> id ∈ claimed (op_of w l) -> Target q <= progress_of (op_of w l) id;
  inv_range : forall w id q, quests l !! id = Some q -> 0 <= Target q -> 0 <= progress_of (op_of w l) id <= Target q
}.

Lemma progress_insert op id id' v : progress_of (set_progress id v op) id' = if decide (id = id') then v else progress_of op id'.
Proof. unfold progress_of, set_progress. cbn. case_decide; subst; [by rewrite lookup_insert_eq|by rewrite lookup_insert_ne]. Qed.

Lemma forget_all ids op id : (id ∈ claimed (foldl forget op ids) <-> id ∈ claimed op /\ id ∉ ids) /\
  progress_of (foldl forget op ids) id = if decide (id ∈ ids) then 0 else progress_of op id.
Proof.
  revert op. induction ids as [|i ids IH]; intros op; cbn [foldl].
  - split; [set_solver|]. rewrite decide_False by set_solver. done.
  - destruct (IH (forget op i)) as [-> ->]. unfold forget, progress_of. cbn. split; [set_solver|].
    destruct (decide (id ∈ ids)), (decide (id ∈ i :: ids)); try done; [set_solver|..].
    + assert (id = i) as -> by set_solver. by rewrite lookup_delete_eq.
    + rewrite lookup_delete_ne by set_solver. done.
Qed.

Lemma effect_inv o l op : wf l ->
  (forall id q, quests l !! id = Some q -> id ∈ claimed op -> Target q <= progress_of op id) ->
  (forall id q, quests l !! id = Some q -> 0 <= Target q -> 0 <= progress_of op id <= Target q) ->
  let op' := (effect o l op).1 in
  (forall id q, quests l !! id = Some q -> id ∈ claimed op' -> Target q <= progress_of op' id) /\
  (forall id q, quests l !! id = Some q -> 0 <= Target q -> 0 <= progress_of op' id <= Target q).
Proof.
  intros Hl Hc Hr. assert (forall id q v, quests l !! id = Some q -> (is_claimed op id || negb (unlockedLocked op q)) = false ->
    let op' := set_progress id (Z.min (Z.max v 0) (Target q)) op in
    (forall id q, quests l !! id = Some q -> id ∈ claimed op' -> Target q <= progress_of op' id) /\
    (forall id q, quests l !! id = Some q -> 0 <= Target q -> 0 <= progress_of op' id <= Target q)) as Hset.
  { intros id q v Eq [Ec%bool_decide_eq_false _]%orb_false_iff. cbv zeta. split; intros id' q' Eq'; rewrite progress_insert; case_decide as Hd.
    - subst id'. done.
    - by apply Hc.
    - subst id'. simplify_eq. lia.
    - by apply Hr. }
  assert (forall ids, (forall id q, quests l !! id = Some q -> id ∈ claimed (claim_loop (quests l) ids op).1 -> Target q <= progress_of (claim_loop (quests l) ids op).1 id) /\
    (forall id q, quests l !! id = Some q -> 0 <= Target q -> 0 <= progress_of (claim_loop (quests l) ids op).1 id <= Target q)) as Hloop.
  { intros ids. pose proof (claim_loop_spec (quests l) (wf_id l Hl) ids op) as Hs. destruct (claim_loop _ _ _) as [op' qs].
    destruct Hs as (Hp & _ & Hin & _ & Hqs). unfold progress_of in *. cbn [fst]. rewrite Hp. split; [|done].
    intros id q Eq [?|(q' & -> & Hq')%list_elem_of_fmap]%Hin; [by apply Hc|]. destruct (Hqs q' Hq') as (? & _ & _ & ? & _). by simplify_eq. }
  destruct o as [w id delta|w id v|w id|w|w id|w|w|w ids]; cbn [effect]; try (by split); [..|destruct ids as [|i ids]].
  1,2: destruct (quests l !! id) as [q|] eqn:Eq; [|done]; destruct (_ || _) eqn:Eb; [done|]; by apply Hset.
  - apply Hloop.
  - apply Hloop.
  - split; [set_solver|]. intros id q Eq Hq. unfold progress_of. cbn. rewrite lookup_empty. cbn. lia.
  - cbn [fst]. set (ids' := i :: ids). split; intros id q Eq; destruct (forget_all ids' op id) as [H1 H2]; rewrite ?H1, H2; case_decide; try lia.
    + naive_solver.
    + intros [? ?]. by apply Hc.
    + by apply Hr.
Qed.

Lemma exec_inv o l : inv l -> inv (exec o l).1.
Proof.
  intros [Hl Hc Hr]. destruct (exec_effect o l) as (l' & Ht & He). pose proof (effect_inv o l _ Hl (Hc (owner_of o)) (Hr (owner_of o))) as Hi.
  destruct (effect o l _) as [op qs]. destruct He as [Hop ->]. cbn [fst] in *. cbv zeta in Hi. subst op.
  pose proof (touches_wf _ _ _ Ht Hl) as Hl'. destruct Ht as (Hq & _ & _ & Ho).
  split; [done|intros w id q..]; rewrite Hq; (destruct (decide (w = owner_of o)) as [->|Hd]; [|rewrite (Ho w Hd)]); [apply Hi|apply Hc|apply Hi|apply Hr].
Qed.

Lemma run_log_inv ops l : inv l -> inv (run ops l).
Proof. revert l. induction ops as [|o ops IH]; intros l Hl; [done|]. apply IH, exec_inv, Hl. Qed.

Lemma New_log_inv qs opts : (forall o, o ∈ opts -> o = WithOnClaim) -> inv (New qs opts).
Proof.
  intros Ho. destruct (New_log_wf qs opts Ho) as [Hl E]. split; [done|..]; intros w id q Eq; unfold op_of; rewrite E, lookup_empty; [set_solver|].
  unfold progress_of. cbn. rewrite lookup_empty. cbn. lia.
Qed.

(** [ClaimAll] is [Claim] of each quest in the order of definition: the same log, the same quests
    claimed, the same calls of the callback, those a claim of the same pass unlocks included. *)
Theorem claim_all_is_claims qs opts ops owner : (forall o, o ∈ opts -> o = WithOnClaim) ->
  let l := run ops (New qs opts) in ClaimAll owner l = claim_each owner (order l) (ownerLocked owner l).1.
Proof.
  intros Ho l. pose proof (inv_wf _ (run_log_inv ops _ (New_log_inv qs opts Ho))) as Hl. fold l in Hl. unfold ClaimAll.
  destruct (ownerLocked_spec owner l) as (l1 & -> & Ht & E). cbn [fst]. pose proof (touches_wf _ _ _ Ht Hl) as Hl1.
  pose proof Ht as (_ & Eo & _). rewrite (claim_each_loop owner _ l1 _ Hl1 E); [|by rewrite Eo]. rewrite Eo. by destruct (claim_loop _ _ _).
Qed.

(** ** Rewards *)

Definition rewards_of (owner : string) (id : K) (evs : list (string * Quest)) : Z :=
  Z.of_nat (length (List.filter (fun e => bool_decide (e.1 = owner) && bool_decide (ID e.2 = id)) evs)).
Definition resets (owner : string) (id : K) (o : op) : bool :=
  match o with OReset w ids => bool_decide (w = owner) && (bool_decide (ids = []) || bool_decide (id ∈ ids)) | _ => false end.

(** The rewards for a quest handed to an owner since it was last reset. *)
Fixpoint earned (owner : string) (id : K) (ops : list op) (l : Log) (n : Z) : Z :=
  match ops with
  | [] => n
  | o :: ops => let '(l, evs) := exec o l in earned owner id ops l (if resets owner id o then 0 else n + rewards_of owner id evs)
  end.

Definition has_claimed (owner : string) (id : K) (l : Log) : Z := if decide (id ∈ claimed (op_of owner l)) then 1 else 0.

Lemma rewards_of_other owner w id qs : w <> owner -> rewards_of owner id (pair w <$> qs) = 0.
Proof. intros Hd. unfold rewards_of. induction qs as [|q qs IH]; [done|]. cbn. rewrite bool_decide_false by done. apply IH. Qed.

Lemma rewards_of_own owner id qs : NoDup (ID <$> qs) ->
  rewards_of owner id (pair owner <$> qs) = if decide (id ∈ ID <$> qs) then 1 else 0.
Proof.
  unfold rewards_of. induction qs as [|q qs IH]; [done|]. cbn. intros [Hn Hq]%NoDup_cons. specialize (IH Hq).
  rewrite bool_decide_true by done. cbn [andb]. case_bool_decide as Hd; cbn [length].
  - rewrite (decide_True _ _ (P := id ∈ _)) by (subst; left). rewrite decide_False in IH by (by subst). lia.
  - rewrite IH. destruct (decide (id ∈ ID <$> qs)), (decide (id ∈ ID q :: (ID <$> qs))); set_solver.
Qed.

Lemma effect_claimed o l op : wf l ->
  let '(op', qs) := effect o l op in NoDup (ID <$> qs) /\
  (forall id, id ∈ claimed op' <-> if resets (owner_of o) id o then False else id ∈ claimed op \/ id ∈ ID <$> qs) /\
  (forall q, q ∈ qs -> quests l !! ID q = Some q /\ (ID q ∉ claimed op) /\ Target q <= progress_of op (ID q) /\
     forall r, r ∈ Requires q -> r ∈ claimed op').
Proof.
  intros Hl. assert (forall ids, let '(op', qs) := claim_loop (quests l) ids op in NoDup (ID <$> qs) /\
    (forall id, id ∈ claimed op' <-> id ∈ claimed op \/ id ∈ ID <$> qs) /\
    (forall q, q ∈ qs -> quests l !! ID q = Some q /\ (ID q ∉ claimed op) /\ Target q <= progress_of op (ID q) /\
       forall r, r ∈ Requires q -> r ∈ claimed op')) as Hloop.
  { intros ids. pose proof (claim_loop_spec (quests l) (wf_id l Hl) ids op) as Hs. destruct (claim_loop _ _ _) as [op' qs].
    destruct Hs as (_ & Hsub & Hin & Hn & Hqs). split; [done|]. split.
    - intros id. split; [apply Hin|]. intros [?|(q & -> & Hq)%list_elem_of_fmap]; [set_solver|]. by apply Hqs.
    - intros q Hq. destruct (Hqs q Hq) as (? & ? & _ & ? & ?). done. }
  assert (forall op' : ownerProg, claimed op' = claimed op -> NoDup (ID <$> @nil Quest) /\
    (forall id, id ∈ claimed op' <-> id ∈ claimed op \/ id ∈ ID <$> @nil Quest)) as Hsame.
  { intros op' ->. split; [constructor|]. intros id. split; [by left|]. by intros [?|?%elem_of_nil]. }
  destruct o as [w id delta|w id v|w id|w|w id|w|w|w ids]; cbn [effect resets owner_of].
  3,4: apply Hloop.
  1,2: destruct (quests l !! id); [destruct (_ || _)|].
  1-9: match goal with |- NoDup _ /\ (forall i, _ ∈ claimed ?op' <-> _) /\ _ => destruct (Hsame op' eq_refl) as [? ?] end;
       split_and!; [done|done|by intros ? ?%elem_of_nil].
  rewrite bool_decide_true by done. destruct ids as [|i ids].
  - split_and!; [constructor|set_solver|by intros ? ?%elem_of_nil].
  - rewrite (bool_decide_false (i :: ids = [])) by done. set (ids' := i :: ids).
    split_and!; [constructor| |by intros ? ?%elem_of_nil]. intros id. rewrite (proj1 (forget_all ids' op id)). cbn [andb orb].
    case_bool_decide; cbn; set_solver.
Qed.

Lemma resets_other owner id o : owner <> owner_of o -> resets owner id o = false.
Proof. intros Hd. destruct o; try done. cbn in *. by rewrite bool_decide_false. Qed.

Lemma exec_rewards owner id o l : wf l -> onClaim l = true ->
  has_claimed owner id (exec o l).1 = if resets owner id o then 0 else has_claimed owner id l + rewards_of owner id (exec o l).2.
Proof.
  intros Hl Hcb. destruct (exec_effect o l) as (l' & Ht & He). pose proof (effect_claimed o l (op_of (owner_of o) l) Hl) as Hc.
  destruct (effect o l _) as [op qs]. destruct He as [Hop ->]. destruct Hc as (Hn & Hin & Hqs). rewrite Hcb. cbn [fst snd]. unfold has_claimed.
  destruct (decide (owner = owner_of o)) as [->|Hd].
  - rewrite Hop, rewards_of_own by done. specialize (Hin id). destruct (resets _ _ _); [by rewrite decide_False by tauto|].
    destruct (decide (id ∈ ID <$> qs)) as [Hq|Hq].
    + rewrite decide_True by tauto. rewrite decide_False; [done|]. apply list_elem_of_fmap in Hq as (q & -> & Hq). by apply Hqs.
    + destruct (decide (id ∈ claimed op)), (decide (id ∈ claimed (op_of (owner_of o) l))); tauto || done.
  - rewrite resets_other by done. rewrite rewards_of_other by done. destruct Ht as (_ & _ & _ & ->); [lia|done].
Qed.

Lemma earned_claimed owner id ops : forall l n, wf l -> onClaim l = true -> n = has_claimed owner id l ->
  earned owner id ops l n = has_claimed owner id (run ops l).
Proof.
  induction ops as [|o ops IH]; intros l n Hl Hcb ->; [done|]. cbn [earned run foldl].
  pose proof (exec_rewards owner id o l Hl Hcb) as He. destruct (exec_effect o l) as (l' & Ht & Heff).
  destruct (effect o l _) as [op qs]. destruct Heff as [_ Ee]. rewrite Ee in *. cbn [fst snd] in *. apply IH; [by eapply touches_wf|by destruct Ht as (_ & _ & -> & _)|done].
Qed.

Lemma New_onClaim qs : onClaim (New qs [WithOnClaim]) = true.
Proof. unfold New. induction qs as [|q qs IH] using rev_ind; [done|]. by rewrite foldl_app. Qed.

Lemma run_onClaim ops l : onClaim (run ops l) = onClaim l.
Proof.
  revert l. induction ops as [|o ops IH]; intros l; [done|]. unfold run in *. cbn [foldl]. rewrite IH.
  destruct (exec_effect o l) as (l' & (_ & _ & <- & _) & He). destruct (effect o l _). by destruct He as [_ ->].
Qed.

(** C35: In every history of calls, since a quest was last reset for an owner its reward was handed out
    once if it is claimed and not at all otherwise; and whatever comes next, a reward goes to a quest
    that is registered and was not claimed, whose progress reached the target and whose prerequisites
    are all claimed. *)
Theorem quest_rewards qs ops owner id :
  let l := run ops (New qs [WithOnClaim]) in
  earned owner id ops (New qs [WithOnClaim]) 0 = (if decide (id ∈ claimed (op_of owner l)) then 1 else 0) /\
  forall o q, (owner, q) ∈ (exec o l).2 ->
    quests l !! ID q = Some q /\ (ID q ∉ claimed (op_of owner l)) /\ Target q <= progress_of (op_of owner l) (ID q) /\
    forall r, r ∈ Requires q -> r ∈ claimed (op_of owner (exec o l).1).
Proof.
  intros l. pose proof (New_log_inv qs [WithOnClaim] ltac:(set_solver)) as H0. split.
  - apply earned_claimed; [apply H0|apply New_onClaim|]. unfold has_claimed, op_of.
    rewrite (proj2 (New_log_wf qs [WithOnClaim] ltac:(set_solver))), lookup_empty. by rewrite decide_False by set_solver.
  - intros o q Hq. pose proof (inv_wf _ (run_log_inv ops _ H0)) as Hl. fold l in Hl. destruct (exec_effect o l) as (l' & Ht & He).
    pose proof (effect_claimed o l (op_of (owner_of o) l) Hl) as Hc. destruct (effect o l _) as [op qs']. destruct He as [<- Ee].
    rewrite Ee in Hq |- *. cbn [fst snd] in *. destruct (onClaim l); [|by apply elem_of_nil in Hq].
    apply list_elem_of_fmap in Hq as (q' & [= -> ->] & Hq). by apply Hc.
Qed.

(** ** Progress and the order of states *)

Lemma status_kept op op' q : claimed op ⊆ claimed op' ->
  (statusLocked op q = StatusClaimed -> statusLocked op' q = StatusClaimed) /\
  (statusLocked op q <> StatusLocked -> statusLocked op' q <> StatusLocked).
Proof.
  intros Hsub. unfold statusLocked, is_claimed. case_bool_decide as Ec.
  { rewrite bool_decide_true by set_solver. done. }
  split; [by repeat case_match|]. case_bool_decide as Ec'; [done|]. destruct (unlockedLocked op q) eqn:Eu; [|done]. intros _.
  replace (unlockedLocked op' q) with true; [by cbn; case_match|]. symmetry. unfold unlockedLocked in *. rewrite forallb_forall in *.
  intros r Hr%Eu. unfold is_claimed in *. apply bool_decide_eq_true. apply bool_decide_eq_true in Hr. set_solver.
Qed.

(** With targets that are not negative, in every history the progress of a quest is between zero and
    its target and what is claimed is complete; and until the owner is reset, a quest claimed stays
    claimed and a quest unlocked is not locked again. *)
Theorem quest_progress qs opts ops owner id q : (forall o, o ∈ opts -> o = WithOnClaim) ->
  let l := run ops (New qs opts) in quests l !! id = Some q -> 0 <= Target q ->
  0 <= progress_of (op_of owner l) id <= Target q /\
  (statusLocked (op_of owner l) q = StatusClaimed -> progress_of (op_of owner l) id = Target q) /\
  forall o, (forall ids, o <> OReset owner ids) ->
    let op' := op_of owner (exec o l).1 in
    (statusLocked (op_of owner l) q = StatusClaimed -> statusLocked op' q = StatusClaimed) /\
    (statusLocked (op_of owner l) q <> StatusLocked -> statusLocked op' q <> StatusLocked).
Proof.
  intros Ho l Eq Hq. pose proof (run_log_inv ops _ (New_log_inv qs opts Ho)) as [Hl Hc Hr]. fold l in Hl, Hc, Hr.
  pose proof (wf_id l Hl id q Eq) as <-. split; [by apply Hr|]. split.
  - unfold statusLocked, is_claimed. case_bool_decide as Ec; [|by repeat case_match]. intros _. specialize (Hc owner _ q Eq Ec). specialize (Hr owner _ q Eq Hq). lia.
  - intros o Hn op'. assert (claimed (op_of owner l) ⊆ claimed op') as Hsub; [|by apply status_kept].
    subst op'. pose proof (exec_effect o l) as (l' & Ht & He). pose proof (effect_claimed o l (op_of (owner_of o) l) Hl) as Hcl.
    destruct (effect o l _) as [op qs']. destruct He as [<- ->]. destruct Hcl as (_ & Hin & _). cbn [fst].
    destruct (decide (owner = owner_of o)) as [->|Hd]; [|destruct Ht as (_ & _ & _ & ->); done].
    intros i Hi. apply Hin. replace (resets (owner_of o) i o) with false; [by left|]. destruct o; try done. by destruct (Hn ids).
Qed.

(** The progress of a quest that would pass the largest [int64] falls to zero instead of stopping at
    the target. *)
Lemma big_advance_resets (q : Quest) owner op l delta : quests l !! ID q = Some q -> owners l !! owner = Some op ->
  is_claimed op (ID q) = false -> unlockedLocked op q = true -> 0 <= Target q ->
  0 < progress_of op (ID q) < 2 ^ 63 -> delta = maxInt64 ->
  (Advance owner (ID q) delta l).2 = (Some (MkState (ID q) (if Target q <=? 0 then StatusAchieved else StatusInProgress) 0 (Target q)), true).
Proof.
  intros Eq Eo Ec Eu Ht Hp ->. unfold Advance, ownerLocked. rewrite Eq, Eo, Ec, Eu. cbn [negb orb snd].
  replace (wrap64 (progress_of op (ID q) + maxInt64)) with (progress_of op (ID q) + maxInt64 - 2 ^ 64).
  2:{ symmetry. rewrite <- (wrap64_id (progress_of op (ID q) + maxInt64 - 2 ^ 64)) by (unfold int64, maxInt64; lia). apply wrap64_congr.
      replace (_ - _) with (2 ^ 64) by lia. done. }
  unfold maxInt64. replace (Z.min (Z.max _ 0) (Target q)) with 0 by lia.
  unfold snapshotLocked, statusLocked, unlockedLocked in *. rewrite progress_insert, decide_True by done.
  unfold is_claimed in *. cbn [claimed set_progress]. rewrite Ec.
  change (fun id => bool_decide (id ∈ claimed (set_progress (ID q) 0 op))) with (fun id => bool_decide (id ∈ claimed op)).
  rewrite Eu. cbn [negb]. replace (Z.min 0 (Target q)) with 0 by lia. f_equal. destruct (Z.eqb_spec 0 (progress_of op (ID q))); [lia|done].
Qed.

End questlog.

(** * Runs *)

Definition demo_quests : list (@Quest string unit) :=
  [MkQuest "hunt" 3 [] tt; MkQuest "feast" 2 ["hunt"] tt].
Definition demo_ops : list (@op string) :=
  [OAdvance "u" "feast" 2; OAdvance "u" "hunt" 5; OClaim "u" "hunt"; OAdvance "u" "feast" 2; OClaimAll "u"; OClaimAll "u"].

Lemma claim_all_is_claims_witness :
  let l := run (take 4 demo_ops) (New demo_quests [WithOnClaim]) in
  (ClaimAll "u" l).1.2 = ["feast"] /\ ClaimAll "u" l = claim_each "u" (order l) (ownerLocked "u" l).1.
Proof. cbv zeta. split; [vm_compute; reflexivity|]. apply claim_all_is_claims. intros o Ho%list_elem_of_singleton. exact Ho. Defined.

Lemma quest_rewards_witness :
  let l0 := New demo_quests [WithOnClaim] in
  earned "u" "hunt" demo_ops l0 0 = 1 /\
  let l := run (take 4 demo_ops) l0 in
  (exec (OClaimAll "u") l).2 = [("u", MkQuest "feast" 2 ["hunt"] tt)] /\
  "hunt" ∈ claimed (op_of "u" (exec (OClaimAll "u") l).1).
Proof.
  cbv zeta. split; [vm_compute; reflexivity|]. assert ((exec (OClaimAll "u") (run (take 4 demo_ops) (New demo_quests [WithOnClaim]))).2 =
    [("u", MkQuest "feast" 2 ["hunt"] tt)]) as E by (vm_compute; reflexivity). split; [exact E|].
  apply (proj2 (quest_rewards demo_quests (take 4 demo_ops) "u" "hunt") (OClaimAll "u") (MkQuest "feast" 2 ["hunt"] tt)).
  - rewrite E. left.
  - left.
Defined.

Lemma quest_progress_witness :
  let l := run (take 3 demo_ops) (New demo_quests []) in
  statusLocked (op_of "u" l) (MkQuest "hunt" 3 [] tt) = StatusClaimed /\ progress_of (op_of "u" l) "hunt" = 3.
Proof.
  cbv zeta. assert (statusLocked (op_of "u" (run (take 3 demo_ops) (New demo_quests []))) (MkQuest "hunt" 3 [] tt) = StatusClaimed)
    as E by (vm_compute; reflexivity). split; [exact E|].
  apply (quest_progress demo_quests [] (take 3 demo_ops) "u" "hunt" (MkQuest "hunt" 3 [] tt));
    [by intros o Ho%elem_of_nil|vm_compute; reflexivity|cbn; lia|exact E].
Defined.

(** A pass of [ClaimAll] also claims a quest that was not claimable before it: its progress was kept
    when the reset of its prerequisite locked it again. *)
Lemma claim_all_beyond_claimable :
  let l := run (take 4 demo_ops ++ [OReset "u" ["hunt"]; OAdvance "u" "hunt" 3]) (New demo_quests []) in
  (Claimable "u" l).2 = ["hunt"] /\ (ClaimAll "u" l).1.2 = ["hunt"; "feast"].
Proof. split; vm_compute; reflexivity. Qed.
