(* ===== verification/Breaker.v ===== *)
(** The request breaker ([pkg/resilience/circuitbreaker/circuitbreaker.go]): closed while the rate of
    failures of a window is low, open for a cooldown, half open for a few probes. *)
From Stdlib Require Import ZArith Lia Bool.
From stdpp Require Import base numbers strings list.
From S2P Require Import Prelude Float64.

Open Scope Z_scope.

Inductive State := StateClosed | StateOpen | StateHalfOpen.
#[export] Instance State_eq_dec : EqDecision State.
Proof. solve_decision. Defined.
Definition State_String (s : State) : string :=
  match s with StateClosed => "closed" | StateOpen => "open" | StateHalfOpen => "half-open" end.

(** [onChange]: whether a callback is set; its calls are outputs of the operations. *)
Record config := MkConfig {
  threshold : float64; window : Z; cooldown : Z; halfOpenMax : Z; minRequests : Z; onChange : bool
}.

Definition WithThreshold (rate : float64) (c : config) : config :=
  if fltb (of_int 0) rate && fleb rate (of_int 1)
  then MkConfig rate (window c) (cooldown c) (halfOpenMax c) (minRequests c) (onChange c) else c.
Definition WithWindow (d : Z) (c : config) : config :=
  if 0 <? d then MkConfig (threshold c) d (cooldown c) (halfOpenMax c) (minRequests c) (onChange c) else c.
Definition WithCooldown (d : Z) (c : config) : config :=
  if 0 <? d then MkConfig (threshold c) (window c) d (halfOpenMax c) (minRequests c) (onChange c) else c.
Definition WithHalfOpenMax (n : Z) (c : config) : config :=
  if 0 <? n then MkConfig (threshold c) (window c) (cooldown c) n (minRequests c) (onChange c) else c.
Definition WithMinRequests (n : Z) (c : config) : config :=
  if 0 <? n then MkConfig (threshold c) (window c) (cooldown c) (halfOpenMax c) n (onChange c) else c.
Definition WithOnStateChange (fn : bool) (c : config) : config :=
  MkConfig (threshold c) (window c) (cooldown c) (halfOpenMax c) (minRequests c) fn.

(** [openedAt] is the zero time, long past, until the breaker first opens. *)
Record Breaker := MkBreaker {
  cfg : config; state : State; openedAt : Z;
  total : Z; failures : Z; windowStart : Z;
  halfSucc : Z; halfFail : Z
}.

Definition New_config (opts : list (config -> config)) : config :=
  foldl (fun c o => o c) (MkConfig (decimal 5 10) (10 * 10 ^ 9) (5 * 10 ^ 9) 3 10 false) opts.
Definition zero_time : Z := - 2 ^ 65.
Definition New (opts : list (config -> config)) (now : Z) : Breaker :=
  MkBreaker (New_config opts) StateClosed zero_time 0 0 now 0 0.

(** * The sections under the lock *)

Definition set_state (s : State) (b : Breaker) : Breaker :=
  MkBreaker (cfg b) s (openedAt b) (total b) (failures b) (windowStart b) (halfSucc b) (halfFail b).
Definition set_openedAt (now : Z) (b : Breaker) : Breaker :=
  MkBreaker (cfg b) (state b) now (total b) (failures b) (windowStart b) (halfSucc b) (halfFail b).
Definition set_half (s f : Z) (b : Breaker) : Breaker :=
  MkBreaker (cfg b) (state b) (openedAt b) (total b) (failures b) (windowStart b) s f.
Definition set_counts (t f : Z) (b : Breaker) : Breaker :=
  MkBreaker (cfg b) (state b) (openedAt b) t f (windowStart b) (halfSucc b) (halfFail b).

Definition resetWindow (now : Z) (b : Breaker) : Breaker :=
  MkBreaker (cfg b) (state b) (openedAt b) 0 0 now (halfSucc b) (halfFail b).

Definition transition (to : State) (b : Breaker) : Breaker * list (State * State) :=
  if decide (state b = to) then (b, [])
  else (set_state to b, if onChange (cfg b) then [(state b, to)] else []).

(** [t1] is the reading of [time.Since], [t2] the next one. *)
Definition checkStateTransition (t1 t2 : Z) (b : Breaker) : Breaker * list (State * State) :=
  match state b with
  | StateOpen =>
      if cooldown (cfg b) <=? time_sub t1 (openedAt b)
      then let '(b, out) := transition StateHalfOpen b in (set_half 0 0 b, out)
      else (b, [])
  | StateClosed =>
      if window (cfg b) <=? time_sub t1 (windowStart b) then (resetWindow t2 b, []) else (b, [])
  | StateHalfOpen => (b, [])
  end.

Definition State_ (t1 t2 : Z) (b : Breaker) : Breaker * State * list (State * State) :=
  let '(b, out) := checkStateTransition t1 t2 b in (b, state b, out).

Definition Successes (b : Breaker) : Z := wrap64 (total b - failures b).
Definition Failures (b : Breaker) : Z := failures b.

(** [float64(b.failures) / float64(b.total) >= b.cfg.threshold]. *)
Definition over (c : config) (f t : Z) : bool := fleb (threshold c) (fdiv (of_int f) (of_int t)).

Definition recordClosed (err : bool) (t1 t2 t3 : Z) (b : Breaker) : Breaker * list (State * State) :=
  let b := if window (cfg b) <=? time_sub t1 (windowStart b) then resetWindow t2 b else b in
  let b := set_counts (wrap64 (total b + 1)) (if err then wrap64 (failures b + 1) else failures b) b in
  if (minRequests (cfg b) <=? total b) && over (cfg b) (failures b) (total b)
  then let '(b, out) := transition StateOpen b in (set_openedAt t3 b, out)
  else (b, []).

Definition recordHalfOpen (err : bool) (now : Z) (b : Breaker) : Breaker * list (State * State) :=
  if err then
    let '(b, out) := transition StateOpen (set_half (halfSucc b) (wrap64 (halfFail b + 1)) b) in (set_openedAt now b, out)
  else
    let b := set_half (wrap64 (halfSucc b + 1)) (halfFail b) b in
    if halfOpenMax (cfg b) <=? halfSucc b
    then let '(b, out) := transition StateClosed b in (resetWindow now b, out)
    else (b, []).

(** * A call *)

(** How [Do] goes on once it has released the lock for the first time. *)
Inductive admitted := Rejected | AsClosed | AsProbe.
#[export] Instance admitted_eq_dec : EqDecision admitted.
Proof. solve_decision. Defined.

Definition enter (t1 t2 : Z) (b : Breaker) : Breaker * admitted * list (State * State) :=
  let '(b, out) := checkStateTransition t1 t2 b in
  (b, match state b with
      | StateOpen => Rejected
      | StateHalfOpen => if halfOpenMax (cfg b) <=? wrap64 (halfSucc b + halfFail b) then Rejected else AsProbe
      | StateClosed => AsClosed
      end, out).

Definition report (k : admitted) (err : bool) (t1 t2 t3 : Z) (b : Breaker) : Breaker * list (State * State) :=
  match k with
  | Rejected => (b, [])
  | AsProbe => recordHalfOpen err t1 b
  | AsClosed => recordClosed err t1 t2 t3 b
  end.

(** [Do] of a call that ends with [err]; the answer [None] is [ErrCircuitOpen]. *)
Definition Do (err : bool) (t1 t2 t3 t4 t5 : Z) (b : Breaker) : Breaker * option bool * list (State * State) :=
  let '(b, k, out) := enter t1 t2 b in
  let '(b, out') := report k err t3 t4 t5 b in
  (b, match k with Rejected => None | _ => Some err end, out ++ out').

(** * Any order of the sections *)

Inductive op := OAdmit (t1 t2 : Z) | OReport (k : admitted) (err : bool) (t1 t2 t3 : Z) | OState (t1 t2 : Z).

Definition exec (o : op) (b : Breaker) : Breaker * option admitted :=
  match o with
  | OAdmit t1 t2 => let '(b, k, _) := enter t1 t2 b in (b, Some k)
  | OReport k err t1 t2 t3 => ((report k err t1 t2 t3 b).1, None)
  | OState t1 t2 => ((State_ t1 t2 b).1.1, None)
  end.

Fixpoint answers (ops : list op) (b : Breaker) : list admitted * Breaker :=
  match ops with
  | [] => ([], b)
  | o :: ops =>
      let '(b, k) := exec o b in
      let '(ks, b) := answers ops b in
      (match k with Some k => k :: ks | None => ks end, b)
  end.

(** Between the readings [t0] and [t1], except that a probe may not report a success. *)
Definition during (t0 t1 : Z) (o : op) : Prop :=
  match o with
  | OAdmit t _ | OState t _ => t0 <= t < t1
  | OReport AsProbe err t _ _ => err = true /\ t0 <= t
  | OReport _ _ _ _ t => t0 <= t
  end.

Lemma transition_cfg to b : cfg (transition to b).1 = cfg b.
Proof. unfold transition. by case_decide. Qed.

Lemma transition_state to b : state (transition to b).1 = to.
Proof. unfold transition. by case_decide. Qed.

Lemma report_cfg k err t1 t2 t3 b : cfg (report k err t1 t2 t3 b).1 = cfg b.
Proof.
  destruct k; cbn [report]; [done|unfold recordClosed|unfold recordHalfOpen; destruct err].
  - set (b1 := if _ <=? _ then _ else _). assert (cfg b1 = cfg b) as E1 by (unfold b1; by destruct (_ <=? _)).
    set (b2 := set_counts _ _ b1). change (cfg b1) with (cfg b2) in E1.
    destruct (_ && _); [|done]. rewrite (surjective_pairing (transition StateOpen b2)). cbn. by rewrite transition_cfg.
  - rewrite (surjective_pairing (transition _ _)). cbn. by rewrite transition_cfg.
  - destruct (_ <=? _); [|done]. rewrite (surjective_pairing (transition _ _)). cbn. by rewrite transition_cfg.
Qed.

(** A report that is not the success of a probe keeps an open breaker open, at most for longer. *)
Lemma report_open k err t1 t2 t3 b t0 te : state b = StateOpen -> t0 <= openedAt b ->
  during t0 te (OReport k err t1 t2 t3) ->
  let b' := (report k err t1 t2 t3 b).1 in state b' = StateOpen /\ t0 <= openedAt b'.
Proof.
  intros Hs Ht Hd. destruct k; cbn [report during] in *; [done|unfold recordClosed|unfold recordHalfOpen].
  - set (b1 := if _ <=? _ then _ else _). assert (state b1 = StateOpen /\ openedAt b1 = openedAt b) as [Hs1 Ho1] by (unfold b1; by destruct (_ <=? _)).
    set (b2 := set_counts _ _ b1). change (state b1) with (state b2) in Hs1. change (openedAt b1) with (openedAt b2) in Ho1.
    destruct (_ && _); cbn [fst]; [|by rewrite Ho1]. unfold transition. rewrite decide_True by done. done.
  - destruct Hd as [-> Hd]. unfold transition. rewrite decide_True by done. cbn. done.
Qed.

Lemma admit_open t1 t2 b : state b = StateOpen -> time_sub t1 (openedAt b) < cooldown (cfg b) ->
  checkStateTransition t1 t2 b = (b, []).
Proof. intros Hs Ht. unfold checkStateTransition. rewrite Hs. rewrite (proj2 (Z.leb_gt _ _)) by lia. done. Qed.

(** C32: While a breaker is open nothing runs: whatever the order in which other callers take their
    steps, until the cooldown is over every call is refused and the breaker stays open, as long as no
    probe let through earlier reports a success. *)
Theorem open_rejects ops b t0 : state b = StateOpen -> openedAt b = t0 -> 0 < cooldown (cfg b) < 2 ^ 62 ->
  Forall (during t0 (t0 + cooldown (cfg b))) ops ->
  let '(ks, b') := answers ops b in (forall k, k ∈ ks -> k = Rejected) /\ state b' = StateOpen.
Proof.
  intros Hs Ho Hc. assert (t0 <= openedAt b) as Hle by lia. clear Ho. remember (cooldown (cfg b)) as d eqn:Ed. revert b Hs Hle Ed.
  induction ops as [|o ops IH]; intros b Hs Hle Ed Hall; cbn [answers].
  { split; [by intros k ?%elem_of_nil|done]. }
  apply Forall_cons in Hall as [Ho Hall].
  assert (forall t t', t0 <= t < t0 + d -> checkStateTransition t t' b = (b, [])) as Hck.
  { intros t t' Ht. apply admit_open; [done|]. rewrite <- Ed. apply Z.le_lt_trans with (time_sub t t0).
    - unfold time_sub, minInt64, maxInt64. repeat case_match; bool_prop; lia.
    - rewrite time_sub_id by (unfold int64; lia). lia. }
  destruct o as [t1 t2|k err t1 t2 t3|t1 t2]; cbn [exec].
  - unfold enter. cbn [during] in Ho. rewrite Hck by done. rewrite Hs. specialize (IH b Hs Hle Ed Hall).
    destruct (answers ops b) as [ks b']. destruct IH as [Hks ?]. split; [|done]. intros k [->|?]%elem_of_cons; [done|by apply Hks].
  - destruct (report_open k err t1 t2 t3 b t0 _ Hs Hle Ho) as [Hs' Hle']. set (b1 := (report k err t1 t2 t3 b).1) in *.
    specialize (IH b1 Hs' Hle'). destruct (answers ops b1) as [ks b']. apply IH; [|done]. unfold b1. by rewrite report_cfg.
  - unfold State_. cbn [during] in Ho. rewrite Hck by done. cbn. specialize (IH b Hs Hle Ed Hall). by destruct (answers ops b).
Qed.

(** * One caller *)

(** A call with the readings of the clock it makes. *)
Record call := MkCall { fails : bool; r1 : Z; r2 : Z; r3 : Z; r4 : Z; r5 : Z }.
Definition call_Do (c : call) (b : Breaker) : Breaker * option bool * list (State * State) :=
  Do (fails c) (r1 c) (r2 c) (r3 c) (r4 c) (r5 c) b.

Fixpoint serve (cs : list call) (b : Breaker) : Breaker * list (option bool) :=
  match cs with
  | [] => (b, [])
  | c :: cs => let '(b, a, _) := call_Do c b in let '(b, l) := serve cs b in (b, a :: l)
  end.

Lemma serve_app cs cs' b : serve (cs ++ cs') b =
  let '(b, l) := serve cs b in let '(b, l') := serve cs' b in (b, l ++ l').
Proof.
  revert b. induction cs as [|c cs IH]; intros b; cbn [serve app]; [by destruct (serve cs' b)|].
  destruct (call_Do c b) as [[b1 a] out]. rewrite IH. destruct (serve cs b1) as [b2 l]. by destruct (serve cs' b2).
Qed.

(** The breaker with its first [n] probes answered well. *)
Definition probing (n : Z) (b : Breaker) : Breaker := set_half n 0 (set_state StateHalfOpen b).

Lemma probe_step c b n : 0 <= n < halfOpenMax (cfg b) -> halfOpenMax (cfg b) < 2 ^ 63 ->
  let '(b', a, _) := call_Do c (probing n b) in a = Some (fails c) /\
  if fails c then state b' = StateOpen /\ openedAt b' = r3 c
  else if n + 1 =? halfOpenMax (cfg b)
  then state b' = StateClosed /\ total b' = 0 /\ failures b' = 0 /\ windowStart b' = r3 c
  else b' = probing (n + 1) b.
Proof.
  intros Hn Hm. unfold call_Do, Do, enter, checkStateTransition. cbn [probing set_half set_state state halfSucc halfFail cfg].
  rewrite !wrap64_id by (unfold int64; lia). rewrite (proj2 (Z.leb_gt _ _)) by lia. cbn [report]. unfold recordHalfOpen.
  destruct (fails c).
  - unfold transition. cbn. done.
  - cbn [probing set_half set_state halfSucc halfFail cfg]. rewrite (wrap64_id (n + 1)) by (unfold int64; lia).
    destruct (Z.eqb_spec (n + 1) (halfOpenMax (cfg b))) as [E|E]; cbn.
    + rewrite (proj2 (Z.leb_le _ _)) by lia. done.
    + rewrite (proj2 (Z.leb_gt _ _)) by lia. done.
Qed.

(** The first call after the cooldown finds the breaker half open. *)
Lemma half_opens c b : state b = StateOpen -> cooldown (cfg b) <= time_sub (r1 c) (openedAt b) ->
  (call_Do c b).1 = (call_Do c (probing 0 b)).1.
Proof.
  intros Hs Ht. unfold call_Do, Do, enter, checkStateTransition. rewrite Hs. cbn [probing set_half set_state state].
  rewrite (proj2 (Z.leb_le _ _)) by done. unfold transition. rewrite decide_False by (rewrite Hs; done).
  cbn [set_half set_state state]. change (set_half 0 0 (set_state StateHalfOpen b)) with (probing 0 b).
  by destruct (report _ _ _ _ _ (probing 0 b)).
Qed.

Lemma probes_succeed cs : forall b n, 0 <= n -> n + Z.of_nat (length cs) < halfOpenMax (cfg b) -> halfOpenMax (cfg b) < 2 ^ 63 ->
  Forall (fun c => fails c = false) cs ->
  serve cs (probing n b) = (probing (n + Z.of_nat (length cs)) b, (fun c => Some (fails c)) <$> cs).
Proof.
  induction cs as [|c cs IH]; intros b n Hn Hm Hw Hall; cbn [serve length fmap list_fmap] in *; [by rewrite Z.add_0_r|].
  apply Forall_cons in Hall as [Hc Hall]. pose proof (probe_step c b n ltac:(lia) Hw) as Hp.
  destruct (call_Do c (probing n b)) as [[b' a] out]. destruct Hp as [-> Hp]. rewrite Hc in Hp |- *.
  destruct (Z.eqb_spec (n + 1) (halfOpenMax (cfg b))) as [E|E]; [lia|]. subst b'. rewrite IH by (done || lia).
  f_equal. f_equal. lia.
Qed.

(** Recovery, for a caller that waits for each call: after the cooldown the calls run again, as
    probes; a probe that fails opens the breaker anew from the moment it is reported, and when
    [halfOpenMax] of them have succeeded the breaker is closed with an empty window. *)
Theorem breaker_recovers cs c b : state b = StateOpen -> halfOpenMax (cfg b) < 2 ^ 63 ->
  cooldown (cfg b) <= time_sub (r1 (default c (head cs))) (openedAt b) ->
  Forall (fun c => fails c = false) cs -> Z.of_nat (length cs) < halfOpenMax (cfg b) ->
  let '(b', l) := serve (cs ++ [c]) b in l = (fun c => Some (fails c)) <$> (cs ++ [c]) /\
  if fails c then state b' = StateOpen /\ openedAt b' = r3 c
  else if Z.of_nat (length cs) + 1 =? halfOpenMax (cfg b)
  then state b' = StateClosed /\ total b' = 0 /\ failures b' = 0 /\ windowStart b' = r3 c
  else b' = probing (Z.of_nat (length cs) + 1) b.
Proof.
  intros Hs Hw Ht Hall Hlen. assert (serve (cs ++ [c]) b = serve (cs ++ [c]) (probing 0 b)) as ->.
  { destruct cs as [|c0 cs]; cbn [app serve head default] in *.
    - pose proof (half_opens c b Hs Ht) as E. destruct (call_Do c b) as [[? ?] ?], (call_Do c (probing 0 b)) as [[? ?] ?]. cbn in E. by simplify_eq.
    - pose proof (half_opens c0 b Hs Ht) as E. destruct (call_Do c0 b) as [[? ?] ?], (call_Do c0 (probing 0 b)) as [[? ?] ?]. cbn in E. by simplify_eq. }
  rewrite serve_app, probes_succeed by (done || lia). cbn [serve]. pose proof (probe_step c b (Z.of_nat (length cs)) ltac:(lia) Hw) as Hp.
  rewrite Z.add_0_l. destruct (call_Do c _) as [[b' a] out]. destruct Hp as [-> Hp]. split; [by rewrite fmap_app|done].
Qed.

(** ** The window *)

Definition counting (n f : Z) (b : Breaker) : Breaker := set_counts n f b.
Definition errors (cs : list call) : Z := Z.of_nat (length (List.filter fails cs)).

(** All readings of a call within the window. *)
Definition inside (b : Breaker) (c : call) : Prop :=
  time_sub (r1 c) (windowStart b) < window (cfg b) /\ time_sub (r3 c) (windowStart b) < window (cfg b).

Definition trips (c : config) (n f : Z) : bool := (minRequests c <=? n) && over c f n.

Lemma count_step c b n f : state b = StateClosed -> inside b c -> 0 <= n < 2 ^ 62 -> 0 <= f <= n ->
  let f' := f + (if fails c then 1 else 0) in
  let '(b', a, _) := call_Do c (counting n f b) in a = Some (fails c) /\
  if trips (cfg b) (n + 1) f' then state b' = StateOpen /\ openedAt b' = r5 c
  else b' = counting (n + 1) f' b.
Proof.
  intros Hs [H1 H3] Hn Hf f'. unfold call_Do, Do, enter, checkStateTransition. cbn [counting set_counts state cfg windowStart].
  rewrite Hs, (proj2 (Z.leb_gt _ _)) by done. cbn [counting set_counts state cfg]. rewrite Hs. cbn [report]. unfold recordClosed.
  cbn [counting set_counts cfg windowStart]. rewrite (proj2 (Z.leb_gt (window (cfg b)) (time_sub (r3 c) (windowStart b)))) by done. cbn [counting set_counts total failures cfg].
  assert ((if fails c then wrap64 (f + 1) else f) = f') as -> by (unfold f'; destruct (fails c); [apply wrap64_id; unfold int64; lia|lia]).
  rewrite wrap64_id by (unfold int64; lia). fold (trips (cfg b) (n + 1) f'). destruct (trips _ _ _); [|done].
  unfold transition. cbn [state counting set_counts cfg]. rewrite decide_False by (rewrite Hs; done). cbn. done.
Qed.

Lemma errors_snoc cs c : errors (cs ++ [c]) = errors cs + (if fails c then 1 else 0).
Proof. unfold errors. rewrite List.filter_app, length_app. cbn. destruct (fails c); cbn; lia. Qed.

Lemma errors_le cs : 0 <= errors cs <= Z.of_nat (length cs).
Proof. unfold errors. pose proof (List.filter_length_le fails cs). lia. Qed.

Lemma counts_hold cs : forall b, state b = StateClosed -> Forall (inside b) cs -> Z.of_nat (length cs) < 2 ^ 62 ->
  (forall n, (0 < n <= length cs)%nat -> trips (cfg b) (Z.of_nat n) (errors (take n cs)) = false) ->
  serve cs (counting 0 0 b) = (counting (Z.of_nat (length cs)) (errors cs) b, (fun c => Some (fails c)) <$> cs).
Proof.
  induction cs as [|c cs IH] using rev_ind; intros b Hs Hall Hlen Hno; [done|].
  rewrite length_app in Hno, Hlen |- *. cbn [length] in Hno, Hlen |- *. apply Forall_app in Hall as [Hall Hc]. rewrite Forall_singleton in Hc.
  rewrite serve_app, IH; [|done|done|lia|].
  2:{ intros n Hn. rewrite <- (Hno n) by lia. by rewrite take_app_le by lia. }
  cbn [serve]. pose proof (errors_le cs). pose proof (count_step c b (Z.of_nat (length cs)) (errors cs) Hs Hc ltac:(lia) ltac:(lia)) as Hp.
  specialize (Hno (length cs + 1)%nat ltac:(lia)). rewrite take_ge in Hno by (rewrite length_app; cbn; lia).
  rewrite errors_snoc in Hno |- *. cbv zeta in Hp. rewrite Nat2Z.inj_add in Hno |- *. change (Z.of_nat 1) with 1 in *. rewrite Hno in Hp.
  destruct (call_Do c _) as [[b' a] out]. destruct Hp as [-> ->]. by rewrite fmap_app.
Qed.

(** In a window just begun every call runs as long as no prefix of the calls has both
    [minRequests] calls and a rate of failures that reaches the threshold; the call with which that
    first happens opens the breaker. *)
Theorem breaker_trips_on_rate cs c b : state b = StateClosed -> total b = 0 -> failures b = 0 ->
  Forall (inside b) (cs ++ [c]) -> Z.of_nat (length cs) < 2 ^ 61 ->
  (forall n, (0 < n <= length cs)%nat -> trips (cfg b) (Z.of_nat n) (errors (take n cs)) = false) ->
  let '(b', l) := serve (cs ++ [c]) b in l = (fun c => Some (fails c)) <$> (cs ++ [c]) /\
  if trips (cfg b) (Z.of_nat (length cs) + 1) (errors (cs ++ [c]))
  then state b' = StateOpen /\ openedAt b' = r5 c
  else b' = counting (Z.of_nat (length cs) + 1) (errors (cs ++ [c])) b.
Proof.
  intros Hs Ht Hf [Hall Hc]%Forall_app Hlen Hno. rewrite Forall_singleton in Hc. assert (b = counting 0 0 b) as Eb by (destruct b; cbn in *; by subst).
  rewrite serve_app. assert (serve cs b = serve cs (counting 0 0 b)) as -> by congruence. rewrite counts_hold by (done || lia). cbn [serve].
  pose proof (errors_le cs). pose proof (count_step c b (Z.of_nat (length cs)) (errors cs) Hs Hc ltac:(lia) ltac:(lia)) as Hp.
  rewrite errors_snoc. cbv zeta in Hp. destruct (call_Do c _) as [[b' a] out]. destruct Hp as [-> Hp]. split; [by rewrite fmap_app|done].
Qed.

(** * Runs *)

Definition demo : Breaker := New [WithHalfOpenMax 2; WithMinRequests 2; WithCooldown 100; WithWindow 50; WithOnStateChange true] 0.
Definition at_ (err : bool) (t : Z) : call := MkCall err t t t t t.

Lemma breaker_trips_on_rate_witness :
  let cs := [at_ false 1] in let c := at_ true 2 in
  trips (cfg demo) 2 1 = true /\
  let '(b', l) := serve (cs ++ [c]) demo in l = [Some false; Some true] /\ state b' = StateOpen /\ openedAt b' = 2.
Proof.
  cbv zeta. assert (trips (cfg demo) 2 1 = true) as Et by (vm_compute; reflexivity). split; [exact Et|].
  pose proof (breaker_trips_on_rate [at_ false 1] (at_ true 2) demo eq_refl eq_refl eq_refl) as H.
  destruct (serve _ demo) as [b' l]. destruct H as [-> H].
  - repeat constructor.
  - vm_compute. reflexivity.
  - intros n Hn. cbn in Hn. replace n with 1%nat by lia. vm_compute. reflexivity.
  - split; [reflexivity|]. exact H.
Defined.

(** The breaker opened at 2. *)
Definition opened : Breaker := (serve [at_ false 1; at_ true 2] demo).1.

Lemma breaker_recovers_witness :
  let '(b', l) := serve [at_ false 102; at_ false 103] opened in l = [Some false; Some false] /\
  state b' = StateClosed /\ total b' = 0 /\ failures b' = 0 /\ windowStart b' = 103.
Proof.
  pose proof (breaker_recovers [at_ false 102] (at_ false 103) opened) as H.
  change ([at_ false 102] ++ [at_ false 103]) with [at_ false 102; at_ false 103] in H.
  destruct (serve [at_ false 102; at_ false 103] opened) as [b' l]. apply H; try (vm_compute; congruence). repeat constructor.
Defined.

Lemma open_rejects_witness :
  let ops := [OAdmit 3 3; OReport AsClosed true 4 4 5; OState 50 50; OAdmit 101 101] in
  (answers ops opened).1 = [Rejected; Rejected] /\ state (answers ops opened).2 = StateOpen.
Proof.
  cbv zeta. split; [vm_compute; reflexivity|].
  pose proof (open_rejects [OAdmit 3 3; OReport AsClosed true 4 4 5; OState 50 50; OAdmit 101 101] opened 2) as H.
  destruct (answers _ opened) as [ks b']. apply H; [vm_compute; reflexivity|vm_compute; reflexivity|vm_compute; split; reflexivity|].
  change (cooldown (cfg opened)) with 100. repeat constructor; cbn; lia.
Defined.

(** Only the probes that have been reported are counted: any number of calls that come before the
    first report are let through, whatever [halfOpenMax]. *)
Lemma probes_unbounded n : state opened = StateOpen /\ halfOpenMax (cfg opened) = 2 /\
  (answers (replicate (S n) (OAdmit 102 102)) opened).1 = replicate (S n) AsProbe.
Proof.
  split_and!; [vm_compute; reflexivity..|]. assert (exec (OAdmit 102 102) opened = (probing 0 opened, Some AsProbe)) as E by (vm_compute; reflexivity).
  rewrite !replicate_S. cbn [answers]. rewrite E. enough ((answers (replicate n (OAdmit 102 102)) (probing 0 opened)).1 = replicate n AsProbe) as Hn
    by (destruct (answers _ _); cbn in *; by rewrite Hn).
  assert (exec (OAdmit 102 102) (probing 0 opened) = (probing 0 opened, Some AsProbe)) as E' by (vm_compute; reflexivity).
  induction n as [|n IH]; [done|]. rewrite !replicate_S. cbn [answers]. rewrite E'. destruct (answers _ _). cbn in *. by rewrite IH.
Qed.

(** Two of four concurrent probes succeed after another has failed and opened the breaker: it is
    closed at once, with no cooldown. *)
Lemma late_probes_close :
  let b := (answers [OAdmit 102 102; OAdmit 102 102; OAdmit 102 102; OReport AsProbe true 103 103 103] opened).2 in
  state b = StateOpen /\ openedAt b = 103 /\
  state (answers [OReport AsProbe false 104 104 104; OReport AsProbe false 104 104 104] b).2 = StateClosed.
Proof. split_and!; vm_compute; reflexivity. Qed.

(** The counts of the window that opened the breaker are kept: a call let through before, that ends
    well while the breaker is half open, opens it again. *)
Lemma late_success_reopens :
  let b := (answers [OAdmit 1 1; OReport AsClosed true 2 2 2; OReport AsClosed true 2 2 2; OAdmit 102 102] (resetWindow 100 demo)).2 in
  state b = StateHalfOpen /\ state (report AsClosed false 103 103 103 b).1 = StateOpen.
Proof. split; vm_compute; reflexivity. Qed.
