(* ===== verification/Presence.v ===== *)
(** Who is in which stream ([pkg/transport/presence/presence.go]): an index by stream and one by
    session, kept in step, and a bounded queue of join and leave events. *)
From Stdlib Require Import ZArith Lia Bool.
From stdpp Require Import base numbers strings list gmap fin_maps sets.
From S2P Require Import Prelude.

Open Scope Z_scope.

Record Stream := MkStream { Mode : Z; Subject : string; Label : string }.
#[export] Instance Stream_eq_dec : EqDecision Stream.
Proof. solve_decision. Defined.
#[export] Program Instance Stream_countable : Countable Stream :=
  inj_countable' (fun s => (Mode s, Subject s, Label s)) (fun '(m, s, l) => MkStream m s l) _.
Next Obligation. by intros []. Qed.

Record ID := MkID { SessionID : string; idStream : Stream; Node : string }.
#[export] Instance ID_eq_dec : EqDecision ID.
Proof. solve_decision. Defined.
#[export] Program Instance ID_countable : Countable ID :=
  inj_countable' (fun i => (SessionID i, idStream i, Node i)) (fun '(s, t, n) => MkID s t n) _.
Next Obligation. by intros []. Qed.

Record Meta := MkMeta { UserID : string; Username : string; Hidden : bool }.
#[export] Instance Meta_eq_dec : EqDecision Meta.
Proof. solve_decision. Defined.

(** The entries are never changed once made, so a pointer to one is its value. *)
Record Presence := MkPresence { pID : ID; pMeta : Meta }.
#[export] Instance Presence_eq_dec : EqDecision Presence.
Proof. solve_decision. Defined.

Record Event := MkEvent { eStream : Stream; Joins : list Presence; Leaves : list Presence }.

(** The channel of events is a list with the capacity given at the start. *)
Record Tracker := MkTracker {
  byStream : gmap Stream (gmap ID Presence);
  bySession : gmap string (gmap ID Presence);
  count : Z;
  events : list Event; capacity : Z; listening : bool; stopped : bool
}.

Definition New (listener : bool) (eventQueueSize : Z) : Tracker :=
  let eventQueueSize := if eventQueueSize <=? 0 then 256 else eventQueueSize in
  MkTracker ∅ ∅ 0 [] eventQueueSize listener false.

Definition Count (t : Tracker) : Z := count t.

(** * The indexes *)

Definition with_index (bs : gmap Stream (gmap ID Presence)) (bn : gmap string (gmap ID Presence)) (n : Z) (t : Tracker) : Tracker :=
  MkTracker bs bn n (events t) (capacity t) (listening t) (stopped t).
Definition with_events (es : list Event) (t : Tracker) : Tracker :=
  MkTracker (byStream t) (bySession t) (count t) es (capacity t) (listening t) (stopped t).

(** A key of the outer map goes when its inner map is empty. *)
Definition put_under {K} `{Countable K} (k : K) (id : ID) (p : Presence) (m : gmap K (gmap ID Presence)) : gmap K (gmap ID Presence) :=
  <[k := <[id := p]> (default ∅ (m !! k))]> m.
Definition drop_under {K} `{Countable K} (k : K) (id : ID) (m : gmap K (gmap ID Presence)) : gmap K (gmap ID Presence) :=
  match m !! k with
  | Some inner => let inner := delete id inner in if decide (size inner = 0%nat) then delete k m else <[k := inner]> m
  | None => m
  end.

Definition queueEvent (e : Event) (t : Tracker) : Tracker :=
  if Z.of_nat (length (events t)) <? capacity t then with_events (events t ++ [e]) t else t.

(** The part of [Track] under the lock: the answer, and the event still to be queued. *)
Definition track_index (sessionID : string) (stream : Stream) (meta : Meta) (t : Tracker) : Tracker * (bool * bool) * option Event :=
  let id := MkID sessionID stream "" in
  let p := MkPresence id meta in
  match bySession t !! sessionID ≫= (fun m => m !! id) with
  | Some _ => (t, (true, false), None)
  | None =>
      (with_index (put_under stream id p (byStream t)) (put_under sessionID id p (bySession t)) (wrap64 (count t + 1)) t, (true, true),
       if negb (Hidden meta) then Some (MkEvent stream [p] []) else None)
  end.

Definition queue_opt (e : option Event) (t : Tracker) : Tracker := match e with Some e => queueEvent e t | None => t end.

Definition Track (sessionID : string) (stream : Stream) (meta : Meta) (t : Tracker) : Tracker * (bool * bool) :=
  let '(t, r, e) := track_index sessionID stream meta t in (queue_opt e t, r).

Definition untrack_index (sessionID : string) (stream : Stream) (t : Tracker) : Tracker * bool * option Event :=
  let id := MkID sessionID stream "" in
  match bySession t !! sessionID with
  | None => (t, false, None)
  | Some bySess =>
      match bySess !! id with
      | None => (t, false, None)
      | Some p =>
          (with_index (drop_under stream id (byStream t)) (drop_under sessionID id (bySession t)) (wrap64 (count t - 1)) t, true,
           if negb (Hidden (pMeta p)) then Some (MkEvent stream [] [p]) else None)
      end
  end.

Definition Untrack (sessionID : string) (stream : Stream) (userID : string) (t : Tracker) : Tracker * bool :=
  let '(t, r, e) := untrack_index sessionID stream t in (queue_opt e t, r).

(** [entries]: those of the session in the order of the map, which decides the order of the answer. *)
Fixpoint unindex (entries : list (ID * Presence)) (bs : gmap Stream (gmap ID Presence)) : gmap Stream (gmap ID Presence) :=
  match entries with
  | [] => bs
  | (id, _) :: entries => unindex entries (drop_under (idStream id) id bs)
  end.

Fixpoint leaves_by (entries : list (ID * Presence)) (m : gmap Stream (list Presence)) : gmap Stream (list Presence) :=
  match entries with
  | [] => m
  | (id, p) :: entries =>
      leaves_by entries (if negb (Hidden (pMeta p)) then <[idStream id := default [] (m !! idStream id) ++ [p]]> m else m)
  end.

(** [entries] and [streams] are the entries of the session and the streams that are left, each in the
    order in which the map is walked. *)
Definition untrack_all_index (sessionID : string) (entries : list (ID * Presence)) (streams : gmap Stream (list Presence) -> list (Stream * list Presence))
    (t : Tracker) : Tracker * list Presence * list Event :=
  match bySession t !! sessionID with
  | None => (t, [], [])
  | Some _ =>
      let removed := snd <$> entries in
      (with_index (unindex entries (byStream t)) (delete sessionID (bySession t)) (wrap64 (count t - Z.of_nat (length removed))) t, removed,
       (fun '(s, ps) => MkEvent s [] ps) <$> streams (leaves_by entries ∅))
  end.

Definition UntrackAll (sessionID : string) (entries : list (ID * Presence)) (streams : gmap Stream (list Presence) -> list (Stream * list Presence))
    (t : Tracker) : Tracker * list Presence :=
  let '(t, removed, es) := untrack_all_index sessionID entries streams t in (foldl (fun t e => queueEvent e t) t es, removed).

(** [walk] is the order of the map of a stream or of a session. *)
Definition ListByStream (stream : Stream) (includeHidden : bool) (walk : gmap ID Presence -> list (ID * Presence)) (t : Tracker) : list Presence :=
  match byStream t !! stream with
  | None => []
  | Some byStr => List.filter (fun p => negb (Hidden (pMeta p)) || includeHidden) (snd <$> walk byStr)
  end.

Definition ListBySession (sessionID : string) (walk : gmap ID Presence -> list (ID * Presence)) (t : Tracker) : list Presence :=
  match bySession t !! sessionID with None => [] | Some bySess => snd <$> walk bySess end.

Definition CountByStream (stream : Stream) (t : Tracker) : Z :=
  match byStream t !! stream with None => 0 | Some m => Z.of_nat (size m) end.
Definition StreamExists (stream : Stream) (t : Tracker) : bool :=
  match byStream t !! stream with Some _ => true | None => false end.
Definition GetLocal (sessionID : string) (stream : Stream) (t : Tracker) : option Presence :=
  byStream t !! stream ≫= (fun m => m !! MkID sessionID stream "").

(** * The events *)

Definition Stop (t : Tracker) : Tracker :=
  MkTracker (byStream t) (bySession t) (count t) (events t) (capacity t) (listening t) true.

(** One turn of [dispatch]: the event handed to the listener; with an empty queue the goroutine waits,
    or ends when it was stopped. *)
Definition dispatch (t : Tracker) : Tracker * option Event :=
  if listening t then
    match events t with
    | e :: es => (with_events es t, Some e)
    | [] => (MkTracker (byStream t) (bySession t) (count t) [] (capacity t) (negb (stopped t)) (stopped t), None)
    end
  else (t, None).

(** * What the indexes stand for *)

Definition nonempty {K V} `{Countable K} (m : gmap K V) : option (gmap K V) := if decide (size m = 0%nat) then None else Some m.

(** [m] groups the entries of [A] by a part of their identifier. *)
Definition groups {K} `{Countable K} (f : ID -> K) (A : gmap ID Presence) (m : gmap K (gmap ID Presence)) : Prop :=
  forall k, m !! k = nonempty (filter (fun '(id, _) => f id = k) A).

Section groups.
Context {K : Type} `{Countable K} (f : ID -> K).

Lemma default_nonempty (m : gmap ID Presence) : default ∅ (nonempty m) = m.
Proof. unfold nonempty. case_decide as E; [|done]. by apply map_size_empty_inv in E as ->. Qed.

Lemma groups_put A m id p : groups f A m -> groups f (<[id := p]> A) (put_under (f id) id p m).
Proof.
  intros Hm k. unfold put_under. rewrite Hm, default_nonempty. destruct (decide (f id = k)) as [<-|Hd].
  - rewrite lookup_insert_eq, map_filter_insert_True by done. unfold nonempty. rewrite decide_False; [done|].
    rewrite map_size_empty_iff. apply insert_non_empty.
  - rewrite lookup_insert_ne by done. rewrite map_filter_insert_not; [apply Hm|by intros y].
Qed.

Lemma groups_drop A m id : groups f A m -> groups f (delete id A) (drop_under (f id) id m).
Proof.
  intros Hm k. unfold drop_under. rewrite map_filter_delete. pose proof (Hm (f id)) as E. destruct (m !! f id) as [inner|] eqn:Ei.
  - unfold nonempty in E. case_decide as Es; [done|]. injection E as ->. destruct (decide (f id = k)) as [<-|Hd].
    + unfold nonempty. case_decide; [by rewrite lookup_delete_eq|by rewrite lookup_insert_eq].
    + rewrite (delete_id (filter (fun '(id, _) => f id = k) A)) by (apply map_lookup_filter_None; right; intros y _; exact Hd).
      case_decide; [rewrite lookup_delete_ne by done|rewrite lookup_insert_ne by done]; apply Hm.
  - destruct (decide (f id = k)) as [<-|Hd].
    + unfold nonempty in E. case_decide as Es; [|done]. apply map_size_empty_inv in Es. by rewrite Ei, Es, delete_empty.
    + rewrite delete_id by (apply map_lookup_filter_None; right; intros y _; exact Hd). apply Hm.
Qed.

Lemma groups_get A m id : groups f A m -> m !! f id ≫= (fun inner => inner !! id) = A !! id.
Proof.
  intros Hm. rewrite Hm. unfold nonempty. case_decide as Es; cbn.
  - apply map_size_empty_inv in Es. symmetry. apply eq_None_not_Some. intros [p E].
    eapply (map_filter_empty_not_lookup _ A id p) in Es; [done|done].
  - rewrite map_lookup_filter. destruct (A !! id); cbn; [|done]. by rewrite option_guard_True.
Qed.

Lemma groups_empty : groups f ∅ ∅.
Proof. intros k. by rewrite map_filter_empty, lookup_empty. Qed.
End groups.

(** What a tracker stands for: the entries by identifier. *)
Record tracks (A : gmap ID Presence) (t : Tracker) : Prop := {
  tr_id : forall id p, A !! id = Some p -> pID p = id /\ Node id = "";
  tr_stream : groups idStream A (byStream t);
  tr_session : groups SessionID A (bySession t);
  tr_count : count t = wrap64 (Z.of_nat (size A))
}.

Lemma tracks_events A t es : tracks A t -> tracks A (with_events es t).
Proof. intros [Hi Hs Hn Hc]. by split. Qed.

Lemma tracks_queue A t e : tracks A t -> tracks A (queue_opt e t).
Proof. intros Ht. destruct e as [e|]; [|done]. cbn. unfold queueEvent. case_match; [by apply tracks_events|done]. Qed.

Lemma tracks_get A t id : tracks A t -> byStream t !! idStream id ≫= (fun m => m !! id) = A !! id /\
  bySession t !! SessionID id ≫= (fun m => m !! id) = A !! id.
Proof. intros [Hi Hs Hn Hc]. split; [by apply (groups_get idStream)|by apply (groups_get SessionID)]. Qed.

(** The entries of a session. *)
Definition of_session (n : string) (A : gmap ID Presence) : gmap ID Presence := filter (fun '(id, _) => SessionID id = n) A.
Definition of_stream (s : Stream) (A : gmap ID Presence) : gmap ID Presence := filter (fun '(id, _) => idStream id = s) A.

Lemma track_tracks A t n s meta : tracks A t ->
  let id := MkID n s "" in let '(t', r, e) := track_index n s meta t in
  match A !! id with
  | Some _ => t' = t /\ r = (true, false) /\ e = None
  | None => tracks (<[id := MkPresence id meta]> A) t' /\ r = (true, true) /\ events t' = events t /\ capacity t' = capacity t /\
      e = if Hidden meta then None else Some (MkEvent s [MkPresence id meta] [])
  end.
Proof.
  intros Ht id. unfold track_index. fold id. destruct (tracks_get A t id Ht) as [_ Hg]. cbn [SessionID] in Hg. change (SessionID id) with n in Hg.
  rewrite Hg. destruct (A !! id) as [p|] eqn:E; [done|]. split; [|split_and!; [done|done|done|by destruct (Hidden meta)]].
  destruct Ht as [Hi Hs Hn Hc]. split; cbn.
  - intros id' p [[<- <-]|[_ E']]%lookup_insert_Some; [done|by apply Hi].
  - by apply (groups_put idStream _ _ id).
  - by apply (groups_put SessionID _ _ id).
  - rewrite Hc, wrap64_add_l, map_size_insert_None by done. f_equal. lia.
Qed.

Lemma untrack_tracks A t n s : tracks A t ->
  let id := MkID n s "" in let '(t', r, e) := untrack_index n s t in
  match A !! id with
  | None => t' = t /\ r = false /\ e = None
  | Some p => tracks (delete id A) t' /\ r = true /\ events t' = events t /\ capacity t' = capacity t /\
      e = if Hidden (pMeta p) then None else Some (MkEvent s [] [p])
  end.
Proof.
  intros Ht id. unfold untrack_index. fold id. destruct (tracks_get A t id Ht) as [_ Hg]. change (SessionID id) with n in Hg.
  rewrite <- Hg. destruct (bySession t !! n) as [m|] eqn:Em; cbn [mbind option_bind] in *; [|done].
  rewrite Hg. destruct (A !! id) as [p|] eqn:E; [|done]. split; [|split_and!; [done|done|done|by destruct (Hidden (pMeta p))]].
  destruct Ht as [Hi Hs Hn Hc]. split; cbn.
  - intros id' q [_ E']%lookup_delete_Some. by apply Hi.
  - by apply (groups_drop idStream _ _ id).
  - by apply (groups_drop SessionID _ _ id).
  - rewrite Hc, (map_size_delete_Some id A) by (by eexists).
    assert (size A <> 0%nat) by (intros ->%map_size_empty_inv; by rewrite lookup_empty in E).
    replace (wrap64 (Z.of_nat (size A)) - 1) with (wrap64 (Z.of_nat (size A)) + -1) by lia. rewrite wrap64_add_l. f_equal. lia.
Qed.

Lemma unindex_groups entries : forall A bs, groups idStream A bs ->
  groups idStream (foldl (fun A e => delete e.1 A) A entries) (unindex entries bs).
Proof.
  induction entries as [|[id p] entries IH]; intros A bs Hbs; [done|]. cbn [unindex foldl]. apply IH. by apply groups_drop.
Qed.

Lemma foldl_delete (entries : list (ID * Presence)) : forall (A : gmap ID Presence) id,
  foldl (fun A e => delete e.1 A) A entries !! id = if decide (id ∈ entries.*1) then None else A !! id.
Proof.
  induction entries as [|[i p] entries IH]; intros A id; cbn [foldl fmap list_fmap fst]; [by rewrite decide_False by set_solver|].
  rewrite IH. destruct (decide (id ∈ entries.*1)), (decide (id ∈ i :: entries.*1)); try done; [set_solver| |].
  - assert (id = i) as -> by set_solver. by rewrite lookup_delete_eq.
  - rewrite lookup_delete_ne by set_solver. done.
Qed.

(** [entries] walks the map of the session. *)
Definition walks {V} (entries : list (ID * V)) (m : gmap ID V) : Prop := entries ≡ₚ map_to_list m.

Lemma walks_elem {V} (entries : list (ID * V)) m id p : walks entries m -> (id, p) ∈ entries <-> m !! id = Some p.
Proof. intros Hw. by rewrite Hw, elem_of_map_to_list. Qed.

Lemma foldl_delete_session entries n (A : gmap ID Presence) : walks entries (of_session n A) ->
  foldl (fun A e => delete e.1 A) A entries = filter (fun '(id, _) => SessionID id <> n) A.
Proof.
  intros Hw. apply map_eq. intros id. rewrite foldl_delete, map_lookup_filter.
  destruct (A !! id) as [p|] eqn:E; cbn; [|by case_match].
  destruct (decide (SessionID id = n)) as [Hs|Hs].
  - rewrite decide_True; [by rewrite option_guard_False by (intros ?; done)|]. apply list_elem_of_fmap. exists (id, p). split; [done|].
    apply (walks_elem _ _ _ _ Hw), map_lookup_filter_Some. done.
  - rewrite decide_False; [by rewrite option_guard_True|]. intros ([i q] & -> & Hin)%list_elem_of_fmap.
    apply (walks_elem _ _ _ _ Hw), map_lookup_filter_Some in Hin as [_ ?]. done.
Qed.

Lemma untrack_all_tracks A t n entries streams : tracks A t -> walks entries (of_session n A) ->
  let '(t', removed, es) := untrack_all_index n entries streams t in
  tracks (filter (fun '(id, _) => SessionID id <> n) A) t' /\ removed = entries.*2 /\ events t' = events t /\ capacity t' = capacity t /\
  (of_session n A = ∅ /\ es = [] \/ es = (fun '(s, ps) => MkEvent s [] ps) <$> streams (leaves_by entries ∅)).
Proof.
  intros [Hi Hs Hn Hc] Hw. unfold untrack_all_index. rewrite Hn. fold (of_session n A). unfold nonempty.
  assert (size A = (size (of_session n A) + size (filter (fun '(id, _) => SessionID id <> n) A))%nat) as Hz.
  { rewrite <- (map_filter_union_complement (fun '(id, _) => SessionID id = n) A) at 1.
    rewrite map_size_disj_union by apply map_disjoint_filter_complement. done. }
  destruct (decide (size (of_session n A) = 0%nat)) as [E|E].
  - apply map_size_empty_inv in E. unfold walks in Hw. rewrite E, map_to_list_empty in Hw. apply Permutation_nil_r in Hw as ->. split; [|by split_and!; [..|left]].
    rewrite (map_filter_id _ A); [done|]. intros id p Ep Hs'.
    assert (of_session n A !! id = Some p) as E' by (by apply map_lookup_filter_Some). by rewrite E, lookup_empty in E'.
  - split; [|by split_and!; [..|right]]. split; cbn.
    + intros id p [Ep _]%map_lookup_filter_Some. by apply Hi.
    + rewrite <- (foldl_delete_session entries n A Hw). by apply unindex_groups.
    + intros k. destruct (decide (n = k)) as [<-|Hd].
      * rewrite lookup_delete_eq. unfold nonempty. rewrite decide_True; [done|]. apply map_size_empty_iff, map_empty.
        intros id. apply map_lookup_filter_None. right. intros p [_ Hp]%map_lookup_filter_Some. exact Hp.
      * rewrite lookup_delete_ne by done. rewrite Hn. f_equal. apply map_eq. intros id. apply option_eq. intros p.
        rewrite !map_lookup_filter_Some. naive_solver.
    + unfold walks in Hw. rewrite Hc, length_fmap, Hw, length_map_to_list.
      replace (wrap64 (Z.of_nat (size A)) - _) with (wrap64 (Z.of_nat (size A)) + - Z.of_nat (size (of_session n A))) by lia.
      rewrite wrap64_add_l. f_equal. lia.
Qed.

(** * Histories *)

Inductive op :=
| OTrack (n : string) (s : Stream) (meta : Meta) | OUntrack (n : string) (s : Stream) (userID : string)
| OUntrackAll (n : string) (entries : list (ID * Presence)) (streams : gmap Stream (list Presence) -> list (Stream * list Presence))
| OListByStream (s : Stream) (hidden : bool) (walk : gmap ID Presence -> list (ID * Presence))
| OListBySession (n : string) (walk : gmap ID Presence -> list (ID * Presence))
| OCountByStream (s : Stream) | OStreamExists (s : Stream) | OGetLocal (n : string) (s : Stream) | OCount
| ODispatch | OStop.

Inductive answer :=
| ATrack (added new : bool) | ABool (b : bool) | AList (l : list Presence) | ANum (n : Z)
| AGet (p : option Presence) | AEvent (e : option Event) | ANone.

Definition exec (o : op) (t : Tracker) : Tracker * answer :=
  match o with
  | OTrack n s meta => let '(t, (a, b)) := Track n s meta t in (t, ATrack a b)
  | OUntrack n s u => let '(t, b) := Untrack n s u t in (t, ABool b)
  | OUntrackAll n entries streams => let '(t, l) := UntrackAll n entries streams t in (t, AList l)
  | OListByStream s hidden walk => (t, AList (ListByStream s hidden walk t))
  | OListBySession n walk => (t, AList (ListBySession n walk t))
  | OCountByStream s => (t, ANum (CountByStream s t))
  | OStreamExists s => (t, ABool (StreamExists s t))
  | OGetLocal n s => (t, AGet (GetLocal n s t))
  | OCount => (t, ANum (Count t))
  | ODispatch => let '(t, e) := dispatch t in (t, AEvent e)
  | OStop => (Stop t, ANone)
  end.

(** The same on one map of entries. *)
Definition spec (o : op) (A : gmap ID Presence) : gmap ID Presence * answer :=
  match o with
  | OTrack n s meta =>
      match A !! MkID n s "" with
      | Some _ => (A, ATrack true false)
      | None => (<[MkID n s "" := MkPresence (MkID n s "") meta]> A, ATrack true true)
      end
  | OUntrack n s _ => (delete (MkID n s "") A, ABool (bool_decide (is_Some (A !! MkID n s ""))))
  | OUntrackAll n _ _ => (filter (fun '(id, _) => SessionID id <> n) A, AList (map_to_list (of_session n A)).*2)
  | OListByStream s hidden _ =>
      (A, AList (List.filter (fun p => negb (Hidden (pMeta p)) || hidden) (map_to_list (of_stream s A)).*2))
  | OListBySession n _ => (A, AList (map_to_list (of_session n A)).*2)
  | OCountByStream s => (A, ANum (Z.of_nat (size (of_stream s A))))
  | OStreamExists s => (A, ABool (negb (bool_decide (of_stream s A = ∅))))
  | OGetLocal n s => (A, AGet (A !! MkID n s ""))
  | OCount => (A, ANum (wrap64 (Z.of_nat (size A))))
  | ODispatch => (A, AEvent None)
  | OStop => (A, ANone)
  end.

(** Lists agree up to their order; the events are another matter. *)
Definition agree (a b : answer) : Prop :=
  match a, b with AList l, AList l' => l ≡ₚ l' | AEvent _, AEvent _ => True | _, _ => a = b end.

(** The walks are those of the maps walked. *)
Definition valid (o : op) (A : gmap ID Presence) : Prop :=
  match o with
  | OUntrackAll n entries streams => walks entries (of_session n A) /\ forall m, streams m ≡ₚ map_to_list m
  | OListByStream _ _ walk | OListBySession _ walk => forall m, walks (walk m) m
  | _ => True
  end.

Fixpoint valid_all (ops : list op) (A : gmap ID Presence) : Prop :=
  match ops with [] => True | o :: ops => valid o A /\ valid_all ops (spec o A).1 end.

Fixpoint outputs {S : Type} (step : op -> S -> S * answer) (ops : list op) (s : S) : list answer * S :=
  match ops with
  | [] => ([], s)
  | o :: ops => let '(s, a) := step o s in let '(l, s) := outputs step ops s in (a :: l, s)
  end.

Lemma tracks_queue_all A es : forall t, tracks A t -> tracks A (foldl (fun t e => queueEvent e t) t es).
Proof. induction es as [|e es IH]; intros t Ht; [done|]. cbn [foldl]. apply IH, (tracks_queue A t (Some e) Ht). Qed.

Lemma tracks_dispatch A t : tracks A t -> tracks A (dispatch t).1.
Proof. intros [Hi Hs Hn Hc]. unfold dispatch. destruct (listening t); [destruct (events t)|]; by split. Qed.

Lemma filter_perm (f : Presence -> bool) l l' : l ≡ₚ l' -> List.filter f l ≡ₚ List.filter f l'.
Proof. apply Permutation_bfilter. Qed.

Lemma exec_tracks o A t : tracks A t -> valid o A ->
  tracks (spec o A).1 (exec o t).1 /\ agree (exec o t).2 (spec o A).2.
Proof.
  intros Ht Hv. pose proof Ht as [Hi Hs Hn Hc].
  destruct o as [n s meta|n s u|n entries streams|s hidden walk|n walk|s|s|n s| | |]; cbn [exec spec valid] in *.
  - unfold Track. pose proof (track_tracks A t n s meta Ht) as Hk. cbv zeta in Hk. destruct (track_index n s meta t) as [[t' r] e].
    destruct (A !! _); [destruct Hk as (-> & -> & ->); done|]. destruct Hk as (Hk & -> & _). split; [by apply tracks_queue|done].
  - unfold Untrack. pose proof (untrack_tracks A t n s Ht) as Hk. cbv zeta in Hk. destruct (untrack_index n s t) as [[t' r] e].
    destruct (A !! _) as [p|] eqn:E.
    + destruct Hk as (Hk & -> & _). by split; [apply tracks_queue|].
    + destruct Hk as (-> & -> & ->). cbn. by rewrite delete_id.
  - unfold UntrackAll. destruct Hv as [Hw _]. pose proof (untrack_all_tracks A t n entries streams Ht Hw) as Hk.
    destruct (untrack_all_index n entries streams t) as [[t' r] es]. destruct Hk as (Hk & -> & _). split; [by apply tracks_queue_all|].
    cbn. unfold walks in Hw. by rewrite Hw.
  - split; [done|]. unfold ListByStream. rewrite Hs. fold (of_stream s A). cbn. unfold nonempty. case_decide as E.
    + apply map_size_empty_inv in E. by rewrite E, map_to_list_empty.
    + apply filter_perm. unfold walks in Hv. by rewrite Hv.
  - split; [done|]. unfold ListBySession. rewrite Hn. fold (of_session n A). cbn. unfold nonempty. case_decide as E.
    + apply map_size_empty_inv in E. by rewrite E, map_to_list_empty.
    + unfold walks in Hv. by rewrite Hv.
  - split; [done|]. unfold CountByStream. rewrite Hs. fold (of_stream s A). cbn. unfold nonempty. case_decide as E; [by rewrite E|done].
  - split; [done|]. unfold StreamExists. rewrite Hs. fold (of_stream s A). cbn [agree fst snd]. unfold nonempty. case_decide as E.
    + apply map_size_empty_inv in E. by rewrite bool_decide_true.
    + rewrite bool_decide_false; [done|]. intros E'. apply E. by rewrite E'.
  - split; [done|]. unfold GetLocal. cbn. f_equal. apply (tracks_get A t (MkID n s "") Ht).
  - split; [done|]. cbn. by rewrite <- Hc.
  - pose proof (tracks_dispatch A t Ht) as Hd. by destruct (dispatch t).
  - by split.
Qed.

(** C37: In every history of calls, whatever the order in which the maps are walked, the two indexes
    answer as one map from identifiers to entries: every query, by stream, by session or of one entry,
    and the number of entries. *)
Theorem presence_refines listener size ops : valid_all ops ∅ ->
  Forall2 agree (outputs exec ops (New listener size)).1 (outputs spec ops ∅).1.
Proof.
  assert (tracks ∅ (New listener size)) as H0 by (split; [intros ? ?; by rewrite lookup_empty|apply groups_empty|apply groups_empty|done]).
  revert H0. generalize (New listener size) as t. generalize (∅ : gmap ID Presence) as A.
  induction ops as [|o ops IH]; intros A t Ht Hv; cbn [outputs] in *; [constructor|]. destruct Hv as [Hv Hall].
  destruct (exec_tracks o A t Ht Hv) as [Ht' Ha]. destruct (exec o t) as [t' a], (spec o A) as [A' b]. cbn [fst snd] in *.
  specialize (IH A' t' Ht' Hall). destruct (outputs exec ops t'), (outputs spec ops A'). by constructor.
Qed.

(** ** Replaying the events *)

(** What a listener makes of an event. *)
Definition see (V : gmap ID Presence) (e : Event) : gmap ID Presence :=
  foldl (fun V p => delete (pID p) V) (foldl (fun V p => <[pID p := p]> V) V (Joins e)) (Leaves e).

Definition visible (A : gmap ID Presence) : gmap ID Presence := filter (fun '(_, p) => Hidden (pMeta p) = false) A.

(** The events an operation puts to the queue. *)
Definition emitted (o : op) (t : Tracker) : list Event :=
  match o with
  | OTrack n s meta => option_list (track_index n s meta t).2
  | OUntrack n s _ => option_list (untrack_index n s t).2
  | OUntrackAll n entries streams => (untrack_all_index n entries streams t).2
  | _ => []
  end.

Fixpoint watch (ops : list op) (t : Tracker) : Tracker * list Event * list Event :=
  match ops with
  | [] => (t, [], [])
  | o :: ops =>
      let '(t', a) := exec o t in
      let '(t', gen, del) := watch ops t' in
      (t', emitted o t ++ gen, match a with AEvent (Some e) => e :: del | _ => del end)
  end.

(** Every entry left is in an event of its stream. *)
Lemma leaves_by_spec entries : forall m : gmap Stream (list Presence),
  (forall s ps p, m !! s = Some ps -> p ∈ ps -> idStream (pID p) = s) ->
  Forall (fun e => pID e.2 = e.1) entries ->
  (forall s ps p, leaves_by entries m !! s = Some ps -> p ∈ ps -> idStream (pID p) = s) /\
  forall p, (exists ps, leaves_by entries m !! idStream (pID p) = Some ps /\ p ∈ ps) <->
    (exists ps, m !! idStream (pID p) = Some ps /\ p ∈ ps) \/ (pID p, p) ∈ entries /\ Hidden (pMeta p) = false.
Proof.
  induction entries as [|[id q] entries IH]; intros m Hm Hall; cbn [leaves_by].
  { split; [done|]. intros p. split; [by left|]. intros [?|[?%elem_of_nil _]]; done. }
  apply Forall_cons in Hall as [Hq Hall]. cbn in Hq. subst id. destruct (Hidden (pMeta q)) eqn:Eh; cbn [negb].
  - destruct (IH m Hm Hall) as [IH1 IH2]. split; [done|]. intros p. rewrite IH2. split; [intros [?|[? ?]]; [by left|right; split; [by right|done]]|].
    intros [?|[[[= _ ->]|?]%elem_of_cons ?]]; [by left|congruence|by right].
  - set (m' := <[idStream (pID q) := _]> m).
    assert (forall s ps p, m' !! s = Some ps -> p ∈ ps -> idStream (pID p) = s) as Hm'.
    { intros s ps p [[<- <-]|[_ E]]%lookup_insert_Some Hp; [|by eapply Hm].
      apply elem_of_app in Hp as [Hp| ->%list_elem_of_singleton]; [|done]. destruct (m !! idStream (pID q)) eqn:E; [by eapply Hm|by apply elem_of_nil in Hp]. }
    destruct (IH m' Hm' Hall) as [IH1 IH2]. split; [done|]. intros p. rewrite IH2.
    assert ((exists ps, m' !! idStream (pID p) = Some ps /\ p ∈ ps) <-> p = q \/ exists ps, m !! idStream (pID p) = Some ps /\ p ∈ ps) as ->.
    { unfold m'. destruct (decide (idStream (pID p) = idStream (pID q))) as [E|E].
      - rewrite E, lookup_insert_eq. destruct (m !! idStream (pID q)) as [ps|]; cbn [default from_option]; unfold id; split.
        + intros (ps' & [= <-] & [Hp|Hp%list_elem_of_singleton]%elem_of_app); [right; by exists ps|by left].
        + intros [->|(ps' & [= <-] & Hp)]; (eexists; split; [done|]); apply elem_of_app; [right; left|by left].
        + intros (ps' & [= <-] & Hp%list_elem_of_singleton). by left.
        + intros [->|(ps' & ? & _)]; [eexists; split; [done|left]|done].
      - rewrite lookup_insert_ne by done. split; [by right|]. intros [->|?]; done. }
    split.
    + intros [[->|?]|[? ?]]; [right; split; [left|done]|by left|right; split; [by right|done]].
    + intros [?|[[[= _ ->]|?]%elem_of_cons ?]]; [by left; right|by left; left|by right].
Qed.

Lemma foldl_leaves ps : forall (V : gmap ID Presence) id,
  foldl (fun V p => delete (pID p) V) V ps !! id = if decide (id ∈ pID <$> ps) then None else V !! id.
Proof.
  induction ps as [|p ps IH]; intros V id; cbn [foldl fmap list_fmap]; [by rewrite decide_False by set_solver|].
  rewrite IH. destruct (decide (id ∈ pID <$> ps)), (decide (id ∈ pID p :: (pID <$> ps))); try done; [set_solver| |].
  - assert (id = pID p) as -> by set_solver. by rewrite lookup_delete_eq.
  - rewrite lookup_delete_ne by set_solver. done.
Qed.

Lemma see_leaves l : forall (V : gmap ID Presence) id,
  foldl see V ((fun '(s, ps) => MkEvent s [] ps) <$> l) !! id =
  if decide (id ∈ pID <$> concat l.*2) then None else V !! id.
Proof.
  induction l as [|[s ps] l IH]; intros V id; [by rewrite decide_False by (cbn; set_solver)|].
  rewrite !fmap_cons, concat_cons, fmap_app. cbn [foldl snd]. rewrite IH. unfold see. cbn [Joins Leaves foldl]. rewrite foldl_leaves.
  destruct (decide (id ∈ pID <$> concat l.*2)) as [H1|H1].
  - rewrite decide_True; [done|]. apply elem_of_app. by right.
  - destruct (decide (id ∈ pID <$> ps)) as [H2|H2].
    + rewrite decide_True; [done|]. apply elem_of_app. by left.
    + rewrite decide_False; [done|]. by intros [?|?]%elem_of_app.
Qed.

Lemma leaves_elem entries streams p : Forall (fun e => pID e.2 = e.1) entries ->
  (forall m : gmap Stream (list Presence), streams m ≡ₚ map_to_list m) ->
  p ∈ concat (streams (leaves_by entries ∅)).*2 <-> (pID p, p) ∈ entries /\ Hidden (pMeta p) = false.
Proof.
  intros Hall Hst. destruct (leaves_by_spec entries ∅ ltac:(by intros s ps p' E; rewrite lookup_empty in E) Hall) as [Hl1 Hl2].
  specialize (Hl2 p). rewrite lookup_empty in Hl2. rewrite list_elem_of_In, in_concat. setoid_rewrite <- list_elem_of_In. split.
  - intros (ps & ([s ps'] & -> & Hps)%list_elem_of_fmap & Hp). rewrite Hst, elem_of_map_to_list in Hps. cbn [snd] in Hp.
    pose proof (Hl1 s ps' p Hps Hp) as <-. destruct Hl2 as [Hl2 _]. destruct Hl2 as [(? & ? & _)|?]; [by exists ps'|done|done].
  - intros Hp. destruct Hl2 as [_ Hl2]. destruct Hl2 as (ps & Hps & Hp'); [by right|]. exists ps. split; [|done].
    apply list_elem_of_fmap. exists (idStream (pID p), ps). split; [done|]. by rewrite Hst, elem_of_map_to_list.
Qed.

Lemma visible_delete A id : visible (delete id A) = delete id (visible A).
Proof. apply map_filter_delete. Qed.

Lemma emitted_visible o A t : tracks A t -> valid o A -> foldl see (visible A) (emitted o t) = visible (spec o A).1.
Proof.
  intros Ht Hv. destruct o as [n s meta|n s u|n entries streams|s hidden walk|n walk|s|s|n s| | |]; try done; cbn [emitted spec valid] in *.
  - pose proof (track_tracks A t n s meta Ht) as Hk. cbv zeta in Hk. destruct (track_index n s meta t) as [[t' r] e]. cbn [snd].
    destruct (A !! _) eqn:E; [by destruct Hk as (_ & _ & ->)|]. destruct Hk as (_ & _ & _ & _ & ->). unfold visible. cbn [fst].
    destruct (Hidden meta) eqn:Eh; cbn [option_list foldl].
    + rewrite map_filter_insert_not'; [done|cbn; by rewrite Eh|]. intros y. by rewrite E.
    + rewrite map_filter_insert_True by done. done.
  - pose proof (untrack_tracks A t n s Ht) as Hk. cbv zeta in Hk. destruct (untrack_index n s t) as [[t' r] e]. cbn [snd fst].
    rewrite visible_delete. destruct (A !! _) as [p|] eqn:E.
    + destruct Hk as (_ & _ & _ & _ & ->). destruct (Hidden (pMeta p)) eqn:Eh; cbn [option_list foldl].
      * rewrite delete_id; [done|]. apply map_lookup_filter_None. right. intros q. rewrite E. intros [= <-]. by rewrite Eh.
      * unfold see. cbn. by destruct (tr_id A t Ht _ p E) as [-> _].
    + destruct Hk as (_ & _ & ->). cbn. rewrite delete_id; [done|]. apply map_lookup_filter_None. by left.
  - destruct Hv as [Hw Hst]. pose proof (untrack_all_tracks A t n entries streams Ht Hw) as Hk.
    destruct (untrack_all_index n entries streams t) as [[t' r] es]. destruct Hk as (_ & _ & _ & _ & Hes). cbn [snd fst].
    assert (Forall (fun e => pID e.2 = e.1) entries) as Hall.
    { apply Forall_forall. intros [id p] Hin. apply (walks_elem _ _ _ _ Hw), map_lookup_filter_Some in Hin as [E _]. by apply (tr_id A t Ht). }
    pose proof (fun p => leaves_elem entries streams p Hall Hst) as Hin.
    destruct Hes as [[Hemp ->]| ->].
    + cbn. rewrite (map_filter_id _ A); [done|]. intros id p Ep Hs'.
      assert (of_session n A !! id = Some p) as E' by (by apply map_lookup_filter_Some). by rewrite Hemp, lookup_empty in E'.
    + apply map_eq. intros id. rewrite see_leaves. unfold visible. rewrite !map_lookup_filter.
      destruct (A !! id) as [p|] eqn:E; cbn [mbind option_bind]; [|by case_match].
      destruct (tr_id A t Ht id p E) as [Hid _]. destruct (decide (SessionID id = n)) as [Hs|Hs].
      * rewrite (option_guard_False (SessionID id <> n)) by (intros ?; done). cbn [mbind option_bind].
        destruct (decide (Hidden (pMeta p) = false)) as [Eh|Eh]; [|rewrite option_guard_False by done; by case_match].
        rewrite decide_True; [done|]. apply list_elem_of_fmap. exists p. split; [done|]. apply Hin. split; [|done]. rewrite Hid.
        apply (walks_elem _ _ _ _ Hw), map_lookup_filter_Some. done.
      * rewrite (option_guard_True (SessionID id <> n)) by done. cbn [mbind option_bind]. rewrite decide_False; [done|].
        intros (q & -> & [Hq _]%Hin)%list_elem_of_fmap. apply (walks_elem _ _ _ _ Hw), map_lookup_filter_Some in Hq as [_ ?]. done.
Qed.

(** What a run of [queueEvent] does to the queue. *)
Lemma queue_all_events es : forall t, let t' := foldl (fun t e => queueEvent e t) t es in
  capacity t' = capacity t /\ listening t' = listening t /\
  (exists kept, events t' = events t ++ kept /\ kept `sublist_of` es) /\
  (Z.of_nat (length (events t) + length es) <= capacity t -> events t' = events t ++ es).
Proof.
  induction es as [|e es IH]; intros t; cbn [foldl]; cbv zeta.
  { split_and!; [done|done|exists []; by rewrite app_nil_r|by rewrite app_nil_r]. }
  destruct (IH (queueEvent e t)) as (Hc & Hl & (kept & Hk & Hs) & Hr). unfold queueEvent in *. destruct (Z.ltb_spec (Z.of_nat (length (events t))) (capacity t)) as [E|E].
  - cbn [capacity listening events with_events] in *. split_and!; [done|done| |].
    + exists (e :: kept). rewrite Hk, <- app_assoc. split; [done|by apply sublist_skip].
    + cbn [length] in *. rewrite length_app in Hr. cbn [length] in Hr. intros Hlen. rewrite Hr by lia. by rewrite <- app_assoc.
  - split_and!; [done|done|exists kept; split; [done|by apply sublist_cons]|]. cbn [length]. lia.
Qed.

Lemma queue_opt_all e t : queue_opt e t = foldl (fun t e => queueEvent e t) t (option_list e).
Proof. by destruct e. Qed.

Lemma exec_queue o A t : tracks A t -> valid o A -> let '(t', a) := exec o t in capacity t' = capacity t /\
  let del := match a with AEvent (Some e) => [e] | _ => [] end in
  (del ++ events t') `sublist_of` (events t ++ emitted o t) /\
  (Z.of_nat (length (events t) + length (emitted o t)) <= capacity t -> del ++ events t' = events t ++ emitted o t).
Proof.
  intros Ht Hv. assert (forall t1 es, events t1 = events t -> capacity t1 = capacity t ->
    let t' := foldl (fun t e => queueEvent e t) t1 es in capacity t' = capacity t /\
    events t' `sublist_of` (events t ++ es) /\ (Z.of_nat (length (events t) + length es) <= capacity t -> events t' = events t ++ es)) as Hq.
  { intros t1 es E1 E2. destruct (queue_all_events es t1) as (Hc & _ & (kept & Hk & Hs) & Hr). cbv zeta. rewrite Hc, Hk, E1, E2 in *.
    split; [done|]. split; [by apply sublist_app|]. intros Hlen. apply Hr. lia. }
  assert (events t `sublist_of` (events t ++ [])) as Hnil by (by rewrite app_nil_r).
  destruct o as [n s meta|n s u|n entries streams|s hidden walk|n walk|s|s|n s| | |]; cbn [exec emitted valid] in *; try (by rewrite app_nil_r).
  - unfold Track. pose proof (track_tracks A t n s meta Ht) as Hk. cbv zeta in Hk. destruct (track_index n s meta t) as [[t' [a b]] e]. cbn [snd].
    rewrite queue_opt_all. apply Hq; destruct (A !! _); [destruct Hk as (-> & _)|destruct Hk as (_ & _ & ? & ? & _)|destruct Hk as (-> & _)|destruct Hk as (_ & _ & ? & ? & _)]; done.
  - unfold Untrack. pose proof (untrack_tracks A t n s Ht) as Hk. cbv zeta in Hk. destruct (untrack_index n s t) as [[t' b] e]. cbn [snd].
    rewrite queue_opt_all. apply Hq; destruct (A !! _); [destruct Hk as (_ & _ & ? & ? & _)|destruct Hk as (-> & _)|destruct Hk as (_ & _ & ? & ? & _)|destruct Hk as (-> & _)]; done.
  - unfold UntrackAll. destruct Hv as [Hw _]. pose proof (untrack_all_tracks A t n entries streams Ht Hw) as Hk.
    destruct (untrack_all_index n entries streams t) as [[t' r] es]. destruct Hk as (_ & _ & ? & ? & _). cbn [snd]. by apply Hq.
  - unfold dispatch. destruct (listening t); [destruct (events t) as [|e es]|]; cbn; rewrite ?app_nil_r; done.
Qed.

Lemma watch_queue ops : forall A t, tracks A t -> valid_all ops A -> let '(t', gen, del) := watch ops t in
  foldl see (visible A) gen = visible (outputs spec ops A).2 /\
  (del ++ events t') `sublist_of` (events t ++ gen) /\
  (Z.of_nat (length (events t) + length gen) <= capacity t -> del ++ events t' = events t ++ gen).
Proof.
  induction ops as [|o ops IH]; intros A t Ht Hv; cbn [watch outputs valid_all] in *; [by rewrite app_nil_r|].
  destruct Hv as [Hv Hall]. destruct (exec_tracks o A t Ht Hv) as [Ht' _]. pose proof (exec_queue o A t Ht Hv) as Hq.
  pose proof (emitted_visible o A t Ht Hv) as He. destruct (exec o t) as [t1 a]. cbn [fst] in Ht'. destruct Hq as (Hc & Hs & Hr).
  specialize (IH _ t1 Ht' Hall). destruct (watch ops t1) as [[t2 gen] del]. destruct IH as (IH1 & IH2 & IH3).
  destruct (spec o A) as [A1 b]. cbn [fst] in *. destruct (outputs spec ops A1) as [l A2]. rewrite foldl_app, He.
  set (d := match a with AEvent (Some e) => [e] | _ => [] end) in *.
  replace (match a with AEvent (Some e) => e :: del | _ => del end) with (d ++ del) by (unfold d; by destruct a as [| | | | |[]|]).
  split; [done|]. rewrite <- (app_assoc d). split.
  - etrans; [apply sublist_app; [done|exact IH2]|]. rewrite !app_assoc. by apply sublist_app.
  - rewrite length_app. intros Hlen. specialize (Hr ltac:(lia)). rewrite IH3; [by rewrite !app_assoc, Hr|].
    apply (f_equal length) in Hr. rewrite !length_app in Hr. rewrite Hc. lia.
Qed.

(** A listener that replays the join and leave events, in the order they were put to the queue, sees
    exactly the entries that are not hidden. What it was handed together with what is still queued is
    those events in order, less the ones dropped; and none is dropped while there are no more than the
    queue has room for. *)
Theorem events_replay ops size : valid_all ops ∅ ->
  let '(t, gen, del) := watch ops (New true size) in
  foldl see ∅ gen = visible (outputs spec ops ∅).2 /\
  (del ++ events t) `sublist_of` gen /\
  (Z.of_nat (length gen) <= capacity (New true size) -> del ++ events t = gen).
Proof.
  assert (tracks ∅ (New true size)) as H0 by (split; [intros ? ?; by rewrite lookup_empty|apply groups_empty|apply groups_empty|done]).
  intros Hv. pose proof (watch_queue ops ∅ _ H0 Hv) as Hw. destruct (watch ops (New true size)) as [[t gen] del].
  unfold visible in Hw at 1. rewrite map_filter_empty in Hw. exact Hw.
Qed.

(** * Runs *)

Definition room (n : string) : Stream := MkStream 2 n "".
Definition who (hidden : bool) : Meta := MkMeta "u" "user" hidden.
Definition demo_entries : list (ID * Presence) :=
  [(MkID "a" (room "x") "", MkPresence (MkID "a" (room "x") "") (who false));
   (MkID "a" (room "y") "", MkPresence (MkID "a" (room "y") "") (who true))].
Definition demo_ops : list op :=
  [OTrack "a" (room "x") (who false); OTrack "a" (room "y") (who true); OTrack "b" (room "x") (who false);
   OListByStream (room "x") false map_to_list; ODispatch; OUntrackAll "a" demo_entries map_to_list; OCount; OUntrack "b" (room "y") "u"].

Lemma demo_valid : valid_all demo_ops ∅.
Proof.
  assert (demo_entries = reverse (map_to_list (of_session "a" (outputs spec (take 5 demo_ops) ∅).2))) as E by (vm_compute; reflexivity).
  assert (forall m : gmap ID Presence, walks (map_to_list m) m) as Hw by (intros m; unfold walks; reflexivity).
  cbn [valid_all demo_ops valid]. split_and!; [exact I|exact I|exact I|exact Hw|exact I| |intros m; reflexivity|exact I|exact I|exact I].
  unfold walks. rewrite E. etrans; [apply reverse_Permutation|].
  match goal with |- ?x ≡ₚ ?y => assert (x = y) as -> by (vm_compute; reflexivity) end. reflexivity.
Qed.

Lemma presence_refines_witness :
  (outputs exec demo_ops (New true 8)).1 !! 6%nat = Some (ANum 1) /\
  Forall2 agree (outputs exec demo_ops (New true 8)).1 (outputs spec demo_ops ∅).1.
Proof. split; [vm_compute; reflexivity|]. apply presence_refines. exact demo_valid. Defined.

Lemma events_replay_witness :
  let '(t, gen, del) := watch demo_ops (New true 8) in
  length del = 1%nat /\ length (events t) = 2%nat /\ del ++ events t = gen /\ foldl see ∅ gen = visible (outputs spec demo_ops ∅).2.
Proof.
  pose proof (events_replay demo_ops 8 demo_valid) as H.
  assert (length (watch demo_ops (New true 8)).1.2 = 3%nat /\ length (watch demo_ops (New true 8)).2 = 1%nat /\
    length (events (watch demo_ops (New true 8)).1.1) = 2%nat) as (H1 & H2 & H3) by (vm_compute; split_and!; reflexivity).
  destruct (watch demo_ops (New true 8)) as [[t gen] del]. cbn [fst snd] in *. destruct H as (Ha & _ & Hb).
  split_and!; [exact H2|exact H3|apply Hb; rewrite H1; cbn; lia|exact Ha].
Defined.

(** The events are queued after the lock is released: when a session joins and is removed by another
    goroutine at once, the leave may be queued before the join, and the listener ends with a member
    that is not there. *)
Lemma event_order_race :
  let '(t1, _, join) := track_index "a" (room "x") (who false) (New true 8) in
  let '(t2, _, leave) := untrack_index "a" (room "x") t1 in
  let t := queue_opt join (queue_opt leave t2) in
  GetLocal "a" (room "x") t = None /\ is_Some (foldl see ∅ (events t) !! MkID "a" (room "x") "").
Proof. split; [vm_compute; reflexivity|]. vm_compute. by eexists. Qed.
