(* ===== verification/Signin.v ===== *)
(** Daily sign-in ([pkg/domain/signin/signin.go]): a bitmap of the days of each month, the length of
    the current run of days, and days signed afterwards. *)
From Stdlib Require Import ZArith Lia Bool.
From stdpp Require Import base numbers strings list gmap fin_maps sets.
From S2P Require Import Prelude Bitmap.

Open Scope Z_scope.

Inductive sErr := ErrAlreadySigned | ErrRetroLimit | ErrRetroFuture | ErrRetroAlready | ErrInvalidDay.
#[export] Instance sErr_eq_dec : EqDecision sErr.
Proof. solve_decision. Defined.

Record Reward := MkReward { Type_ : string; Amount : Z }.

(** * Days *)

(** What is used of [time.Time] in a location: the date. Two midnights of a location are equal, and
    ordered, as their dates are. *)
Record date := MkDate { Year : Z; Month : Z; Day : Z }.
#[export] Instance date_eq_dec : EqDecision date.
Proof. solve_decision. Defined.
#[export] Program Instance date_countable : Countable date :=
  inj_countable' (fun d => (Year d, Month d, Day d)) (fun '(y, m, d) => MkDate y m d) _.
Next Obligation. by intros []. Qed.

Definition leap (y : Z) : bool := (y mod 4 =? 0) && (negb (y mod 100 =? 0) || (y mod 400 =? 0)).
Definition month_days (y m : Z) : Z :=
  if m =? 2 then (if leap y then 29 else 28)
  else if (m =? 4) || (m =? 6) || (m =? 9) || (m =? 11) then 30 else 31.

(** [time.Date] brings the month into range. *)
Definition norm_year (y m : Z) : Z := y + (m - 1) / 12.
Definition norm_month (m : Z) : Z := (m - 1) mod 12 + 1.

(** [time.Date(year, month+1, 0, ...).Day()]. *)
Definition daysIn (year month : Z) : Z := month_days (norm_year year month) (norm_month month).
(** [time.Date(year, month, day, ...)] for a day of that month. *)
Definition dateOf (year month day : Z) : date := MkDate (norm_year year month) (norm_month month) day.

(** [AddDate(0, 0, 1)] and [AddDate(0, 0, -1)]. *)
Definition tomorrow (d : date) : date :=
  if Day d <? month_days (Year d) (Month d) then MkDate (Year d) (Month d) (Day d + 1)
  else if Month d <? 12 then MkDate (Year d) (Month d + 1) 1 else MkDate (Year d + 1) 1 1.
Definition yesterday (d : date) : date :=
  if 1 <? Day d then MkDate (Year d) (Month d) (Day d - 1)
  else if 1 <? Month d then MkDate (Year d) (Month d - 1) (month_days (Year d) (Month d - 1))
  else MkDate (Year d - 1) 12 31.

(** [After]. *)
Definition after (a b : date) : bool :=
  (Year b <? Year a) || (Year b =? Year a) && ((Month b <? Month a) || (Month b =? Month a) && (Day b <? Day a)).

(** * The record *)

Definition MonthKey : Type := Z * Z.

(** [rewardFn] gives the rewards of a day of the month and a length of run. *)
Record config := MkConfig { retroMax : Z; rewardFn : option (Z -> Z -> list Reward) }.
Definition WithRetroMax (n : Z) (c : config) : config := if 0 <=? n then MkConfig n (rewardFn c) else c.
Definition WithRewardFunc (fn : Z -> Z -> list Reward) (c : config) : config := MkConfig (retroMax c) (Some fn).

(** [lastDay]: [None] is the zero time, of one who never signed in. *)
Record SignRecord := MkRecord {
  cfg : config; months : gmap MonthKey Z; retros : gmap MonthKey Z; lastDay : option date; streak : Z
}.

Definition New (opts : list (config -> config)) : SignRecord :=
  MkRecord (foldl (fun c o => o c) (MkConfig 3 None) opts) ∅ ∅ None 0.

Definition bitmap (mk : MonthKey) (r : SignRecord) : Z := default 0 (months r !! mk).
Definition used (mk : MonthKey) (r : SignRecord) : Z := default 0 (retros r !! mk).
Definition monthKey (d : date) : MonthKey := (Year d, Month d).

(** [uint32(1) << (day - 1)], for a day of a month. *)
Definition dayBit (day : Z) : Z := wrapu32 (Z.shiftl 1 (day - 1)).

Definition rewards (c : config) (day streak : Z) : list Reward :=
  match rewardFn c with Some fn => fn day streak | None => [] end.

Definition SignIn (today : date) (r : SignRecord) : SignRecord * result sErr (list Reward) :=
  if decide (lastDay r = Some today) then (r, Err ErrAlreadySigned)
  else
    let ms := <[monthKey today := Z.lor (bitmap (monthKey today) r) (dayBit (Day today))]> (months r) in
    let n := match lastDay r with
             | Some d => if decide (tomorrow d = today) then wrap64 (streak r + 1) else 1
             | None => 1
             end in
    (MkRecord (cfg r) ms (retros r) (Some today) n, Ok (rewards (cfg r) (Day today) n)).

Definition Streak (r : SignRecord) : Z := streak r.

(** [popcount]: at most 32 turns. *)
Fixpoint popcount_loop (fuel : nat) (x n : Z) : Z :=
  match fuel with
  | O => n
  | S fuel => if x =? 0 then n else popcount_loop fuel (Z.land x (x - 1)) (n + 1)
  end.
Definition popcount (x : Z) : Z := popcount_loop 33 x 0.

Definition SignedDays (year month : Z) (r : SignRecord) : Z := popcount (bitmap (year, month) r).

(** A negative shift count panics, one of 32 or more gives zero. *)
Definition IsSigned (year month day : Z) (r : SignRecord) : go bool :=
  if day - 1 <? 0 then Panic "runtime error: negative shift amount"
  else Ret (negb (Z.land (bitmap (year, month) r) (dayBit day) =? 0)).

Definition MonthBitmap (year month : Z) (r : SignRecord) : Z := bitmap (year, month) r.

(** The loop of [recalcStreak] from the day [d] back. *)
Fixpoint streak_loop (fuel : nat) (r : SignRecord) (d : date) (n : Z) : Z :=
  match fuel with
  | O => n
  | S fuel =>
      if Z.land (bitmap (monthKey d) r) (dayBit (Day d)) =? 0 then n
      else streak_loop fuel r (yesterday d) (wrap64 (n + 1))
  end.

(** One turn more than there are days in the months on record. *)
Definition streak_fuel (r : SignRecord) : nat := S (31 * size (months r)).

Definition recalcStreak (today : date) (r : SignRecord) : SignRecord :=
  let n := streak_loop (streak_fuel r) r today 0 in
  MkRecord (cfg r) (months r) (retros r) (if 0 <? n then Some today else lastDay r) n.

Definition RetroSign (today : date) (year month day : Z) (r : SignRecord) : SignRecord * result sErr (list Reward) :=
  if (day <? 1) || (daysIn year month <? day) then (r, Err ErrInvalidDay)
  else if after (dateOf year month day) today then (r, Err ErrRetroFuture)
  else
    let mk := (year, month) in
    if negb (Z.land (bitmap mk r) (dayBit day) =? 0) then (r, Err ErrRetroAlready)
    else if retroMax (cfg r) <=? used mk r then (r, Err ErrRetroLimit)
    else
      let r := MkRecord (cfg r) (<[mk := Z.lor (bitmap mk r) (dayBit day)]> (months r))
                 (<[mk := wrap64 (used mk r + 1)]> (retros r)) (lastDay r) (streak r) in
      let r := recalcStreak today r in
      (r, Ok (rewards (cfg r) day (streak r))).

Definition RetroRemaining (today : date) (r : SignRecord) : Z :=
  let rem := wrap64 (retroMax (cfg r) - used (monthKey today) r) in if rem <? 0 then 0 else rem.

(** * The calendar *)

Definition valid (d : date) : Prop := 1 <= Month d <= 12 /\ 1 <= Day d <= month_days (Year d) (Month d).
#[export] Instance valid_dec d : Decision (valid d).
Proof. unfold valid. apply _. Defined.

(** Dates in order. *)
Definition ord (d : date) : Z := Year d * 512 + Month d * 32 + Day d.

Lemma month_days_bounds y m : 28 <= month_days y m <= 31.
Proof. unfold month_days. repeat case_match; lia. Qed.

Lemma ord_inj a b : valid a -> valid b -> ord a = ord b -> a = b.
Proof.
  intros [? ?] [? ?]. pose proof (month_days_bounds (Year a) (Month a)). pose proof (month_days_bounds (Year b) (Month b)).
  unfold ord. intros. destruct a as [ya ma da], b as [yb mb db]. cbn [Year Month Day] in *.
  assert (ya = yb) as -> by lia. assert (ma = mb) as -> by lia. assert (da = db) as -> by lia. done.
Qed.

Lemma after_ord a b : valid a -> valid b -> after a b = (ord b <? ord a).
Proof.
  intros [? ?] [? ?]. pose proof (month_days_bounds (Year a) (Month a)). pose proof (month_days_bounds (Year b) (Month b)).
  unfold after, ord. apply eq_true_iff_eq. rewrite !orb_true_iff, !andb_true_iff, !orb_true_iff, !andb_true_iff, !Z.ltb_lt, !Z.eqb_eq. lia.
Qed.

Lemma month_31 y m : m = 12 \/ m = 1 -> month_days y m = 31.
Proof. by intros [-> | ->]. Qed.

Lemma yesterday_valid d : valid d -> valid (yesterday d).
Proof.
  intros [Hm Hd]. unfold yesterday, valid. destruct (Z.ltb_spec 1 (Day d)); cbn [Year Month Day]; [lia|].
  destruct (Z.ltb_spec 1 (Month d)); cbn [Year Month Day]; [|rewrite month_31 by lia; lia].
  pose proof (month_days_bounds (Year d) (Month d - 1)). lia.
Qed.

Lemma yesterday_ord d : valid d -> ord (yesterday d) < ord d.
Proof.
  intros [Hm Hd]. pose proof (month_days_bounds (Year d) (Month d - 1)). unfold yesterday, ord.
  destruct (Z.ltb_spec 1 (Day d)); cbn [Year Month Day]; [lia|]. destruct (Z.ltb_spec 1 (Month d)); cbn [Year Month Day]; lia.
Qed.

Lemma tomorrow_yesterday d : valid d -> tomorrow (yesterday d) = d.
Proof.
  intros [Hm Hd]. unfold yesterday, tomorrow. destruct (Z.ltb_spec 1 (Day d)); cbn [Year Month Day].
  - rewrite (proj2 (Z.ltb_lt _ _)) by lia. destruct d; cbn in *. f_equal. lia.
  - destruct (Z.ltb_spec 1 (Month d)); cbn [Year Month Day].
    + rewrite Z.ltb_irrefl, (proj2 (Z.ltb_lt _ _)) by lia. destruct d; cbn in *. f_equal; lia.
    + rewrite month_31 by lia. cbn. destruct d; cbn in *. f_equal; lia.
Qed.

Lemma yesterday_tomorrow d : valid d -> yesterday (tomorrow d) = d /\ valid (tomorrow d).
Proof.
  intros [Hm Hd]. unfold yesterday, tomorrow, valid. destruct (Z.ltb_spec (Day d) (month_days (Year d) (Month d))); cbn [Year Month Day].
  - rewrite (proj2 (Z.ltb_lt _ _)) by lia. split; [|lia]. destruct d; cbn in *. f_equal. lia.
  - destruct (Z.ltb_spec (Month d) 12); cbn [Year Month Day]; cbn [Z.ltb Z.compare Pos.compare Pos.compare_cont].
    + rewrite (proj2 (Z.ltb_lt _ _)) by lia. pose proof (month_days_bounds (Year d) (Month d + 1)). split; [|lia].
      replace (Month d + 1 - 1) with (Month d) by lia. destruct d; cbn in *. f_equal; lia.
    + rewrite month_31 in * by lia. split; [|lia]. destruct d; cbn in *. f_equal; lia.
Qed.

(** Nothing is between a day and the next. *)
Lemma yesterday_ge a b : valid a -> valid b -> ord a < ord b -> ord a <= ord (yesterday b).
Proof.
  intros [Hm Hd] [Hm' Hd'] Ho. pose proof (month_days_bounds (Year a) (Month a)). pose proof (month_days_bounds (Year b) (Month b)).
  pose proof (month_days_bounds (Year b) (Month b - 1)).
  unfold yesterday, ord in *. destruct (Z.ltb_spec 1 (Day b)); cbn [Year Month Day]; [lia|].
  destruct (Z.ltb_spec 1 (Month b)); cbn [Year Month Day]; [|lia].
  destruct (Z.eq_dec (Year a) (Year b)) as [E|E]; [|lia]. rewrite E in *. destruct (Z.eq_dec (Month a) (Month b - 1)) as [E'|E']; [|lia].
  rewrite E' in *. lia.
Qed.

(** * Runs of days *)

Definition signed (r : SignRecord) (d : date) : bool := Z.testbit (bitmap (monthKey d) r) (Day d - 1).

Fixpoint back (n : nat) (d : date) : date := match n with O => d | S n => back n (yesterday d) end.

(** The [n] days that end with [d] are signed and the one before is not. *)
Definition run_ending (r : SignRecord) (d : date) (n : nat) : Prop :=
  (forall i, (i < n)%nat -> signed r (back i d) = true) /\ signed r (back n d) = false.

Lemma dayBit_pow day : 1 <= day <= 32 -> dayBit day = 2 ^ (day - 1).
Proof.
  intros H. unfold dayBit, wrapu32. rewrite Z.shiftl_1_l. apply Z.mod_small.
  split; [apply Z.pow_nonneg; lia|apply Z.pow_lt_mono_r; lia].
Qed.

Lemma land_dayBit w day : 1 <= day <= 32 -> (Z.land w (dayBit day) =? 0) = negb (Z.testbit w (day - 1)).
Proof.
  intros H. rewrite dayBit_pow by done. destruct (Z.testbit w (day - 1)) eqn:E; cbn [negb].
  - apply Z.eqb_neq. intros Hz. apply (f_equal (fun x => Z.testbit x (day - 1))) in Hz.
    rewrite Z.land_spec, E, Z.pow2_bits_true, Z.bits_0 in Hz by lia. done.
  - apply Z.eqb_eq. apply Z.bits_inj'. intros k Hk. rewrite Z.land_spec, Z.bits_0. destruct (Z.eq_dec k (day - 1)) as [->|Hd].
    + by rewrite E.
    + rewrite Z.pow2_bits_false by lia. apply andb_false_r.
Qed.

Lemma lor_dayBit w day k : 1 <= day <= 32 -> 0 <= k -> Z.testbit (Z.lor w (dayBit day)) k = Z.testbit w k || (k =? day - 1).
Proof.
  intros H Hk. rewrite dayBit_pow, Z.lor_spec by done. f_equal. destruct (Z.eqb_spec k (day - 1)) as [->|Hd].
  - apply Z.pow2_bits_true. lia.
  - apply Z.pow2_bits_false. lia.
Qed.

Lemma valid_day d : valid d -> 1 <= Day d <= 31.
Proof. intros [_ Hd]. pose proof (month_days_bounds (Year d) (Month d)). lia. Qed.

Lemma back_S n d : back (S n) d = yesterday (back n d).
Proof. revert d. induction n as [|n IH]; intros d; [done|]. cbn [back] in *. apply IH. Qed.

Lemma back_valid n d : valid d -> valid (back n d).
Proof. intros Hd. induction n as [|n IH]; [done|]. rewrite back_S. by apply yesterday_valid. Qed.

Lemma back_ord n d : valid d -> ord (back n d) + Z.of_nat n <= ord d.
Proof.
  intros Hd. induction n as [|n IH]; [cbn; lia|]. rewrite back_S. pose proof (yesterday_ord (back n d) (back_valid n d Hd)). lia.
Qed.

Lemma back_inj i j d : valid d -> back i d = back j d -> i = j.
Proof.
  assert (forall i k d, valid d -> back (i + S k) d <> back i d) as H.
  { clear. intros i k d Hd E. assert (back (i + S k) d = back (S k) (back i d)) as E'.
    { clear. revert d. induction i as [|i IH]; intros d; [done|]. cbn [Nat.add back]. apply IH. }
    pose proof (back_ord (S k) (back i d) (back_valid i d Hd)) as Ho. rewrite <- E', E in Ho. lia. }
  intros Hd E. destruct (Nat.lt_trichotomy i j) as [Hl|[Hl|Hl]]; [|done|]; exfalso.
  - apply (H i (j - i - 1)%nat d Hd). rewrite E. f_equal. lia.
  - apply (H j (i - j - 1)%nat d Hd). rewrite <- E. f_equal. lia.
Qed.

Lemma streak_loop_run fuel r : forall d k n, valid d -> (k < fuel)%nat -> run_ending r d k ->
  streak_loop fuel r d (wrap64 n) = wrap64 (n + Z.of_nat k).
Proof.
  induction fuel as [|fuel IH]; intros d k n Hd Hk [Hr Hn]; [lia|]. cbn [streak_loop].
  rewrite land_dayBit by (apply valid_day in Hd; lia). fold (signed r d). destruct k as [|k].
  - cbn [back] in Hn. rewrite Hn. cbn [negb]. by rewrite Z.add_0_r.
  - pose proof (Hr 0%nat ltac:(lia)) as H0. cbn [back] in H0. rewrite H0. cbn [negb]. rewrite wrap64_add_l.
    rewrite (IH (yesterday d) k); [f_equal; lia|by apply yesterday_valid|lia|]. split; [|done].
    intros i Hi. apply (Hr (S i)). lia.
Qed.

(** Every day signed is one of 31 of a month on record. *)
Definition recorded (r : SignRecord) : list date :=
  mk ← (map_to_list (months r)).*1; (fun d => MkDate mk.1 mk.2 (Z.of_nat d)) <$> seq 1 31.

Lemma signed_recorded r d : valid d -> signed r d = true -> d ∈ recorded r.
Proof.
  intros Hd Hs. unfold signed, bitmap in Hs. destruct (months r !! monthKey d) as [w|] eqn:E; [|by rewrite Z.testbit_0_l in Hs].
  unfold recorded. apply list_elem_of_bind. exists (monthKey d). split.
  - apply list_elem_of_fmap. exists (Z.to_nat (Day d)). apply valid_day in Hd. split.
    + destruct d; cbn in *. f_equal. lia.
    + apply elem_of_seq. lia.
  - apply list_elem_of_fmap. exists (monthKey d, w). split; [done|]. by apply elem_of_map_to_list.
Qed.

Lemma length_recorded r : length (recorded r) = (31 * size (months r))%nat.
Proof.
  assert (forall l : list (MonthKey * Z), length (mk ← l.*1; (fun d => MkDate mk.1 mk.2 (Z.of_nat d)) <$> seq 1 31) = (31 * length l)%nat) as H.
  { induction l as [|x l IH]; [done|]. cbn [fmap list_fmap mbind list_bind]. rewrite length_app. cbn [mbind list_bind] in IH.
    change (list_fmap _ _ fst l) with (l.*1). rewrite IH. cbn [length]. cbn. lia. }
  unfold recorded. rewrite H. f_equal. apply length_map_to_list.
Qed.

Lemma run_exists r d : valid d -> exists n, (n < streak_fuel r)%nat /\ run_ending r d n.
Proof.
  intros Hd. assert (forall m, (forall i, (i < m)%nat -> signed r (back i d) = true) \/ exists n, (n < m)%nat /\ run_ending r d n) as H.
  { induction m as [|m [IH|(n & ? & ?)]]; [left; lia| |right; exists n; split; [lia|done]].
    destruct (signed r (back m d)) eqn:E; [left|right; exists m; split; [lia|done]].
    intros i Hi. destruct (decide (i = m)) as [->|]; [done|]. apply IH. lia. }
  destruct (H (streak_fuel r)) as [Hall|?]; [exfalso|done].
  assert (NoDup ((fun i => back i d) <$> seq 0 (streak_fuel r))) as Hn.
  { apply NoDup_fmap_2_strong; [|apply NoDup_seq]. intros i j _ _. by apply back_inj. }
  assert (length ((fun i => back i d) <$> seq 0 (streak_fuel r)) <= length (recorded r))%nat as Hlen.
  { apply submseteq_length, NoDup_submseteq; [done|]. intros x (i & -> & Hi%elem_of_seq)%list_elem_of_fmap.
    apply signed_recorded; [by apply back_valid|]. apply Hall. lia. }
  rewrite length_fmap, length_seq, length_recorded in Hlen. unfold streak_fuel in Hlen. lia.
Qed.

Lemma run_unique r d n n' : run_ending r d n -> run_ending r d n' -> n = n'.
Proof.
  intros [H1 H2] [H3 H4]. destruct (Nat.lt_trichotomy n n') as [Hl|[Hl|Hl]]; [|done|].
  - by rewrite H3 in H2.
  - by rewrite H1 in H4.
Qed.

(** * Histories *)

Inductive op := OSign | ORetro (year month day : Z).
Definition exec (o : date * op) (r : SignRecord) : SignRecord * result sErr (list Reward) :=
  match o.2 with OSign => SignIn o.1 r | ORetro y m d => RetroSign o.1 y m d r end.
Definition run (ops : list (date * op)) (r : SignRecord) : SignRecord := foldl (fun r o => (exec o r).1) r ops.

(** Setting a day changes that day only. *)
Definition with_day (mk : MonthKey) (day : Z) (r : SignRecord) : gmap MonthKey Z :=
  <[mk := Z.lor (bitmap mk r) (dayBit day)]> (months r).

Lemma signed_with_day r r' mk day d : valid d -> 1 <= day <= 31 -> months r' = with_day mk day r ->
  signed r' d = signed r d || bool_decide (monthKey d = mk /\ Day d = day).
Proof.
  intros Hd Hday E. unfold signed, bitmap at 1. rewrite E. unfold with_day. destruct (decide (monthKey d = mk)) as [<-|Hmk].
  - rewrite lookup_insert_eq. cbn [default]. apply valid_day in Hd. unfold id. rewrite lor_dayBit by lia. f_equal.
    apply eq_true_iff_eq. rewrite Z.eqb_eq, bool_decide_eq_true. split; [intros; split; [done|lia]|intros [_ ->]; done].
  - rewrite lookup_insert_ne by done. rewrite bool_decide_false by tauto. by rewrite orb_false_r.
Qed.

Lemma monthKey_inj d d' : monthKey d = monthKey d' -> Day d = Day d' -> d = d'.
Proof. destruct d, d'. unfold monthKey. cbn. by intros [= -> ->] ->. Qed.

Lemma run_ending_eq r r' d n : (forall d', signed r' d' = signed r d') -> run_ending r d n -> run_ending r' d n.
Proof. intros E [H1 H2]. split; [intros i Hi; rewrite E; by apply H1|by rewrite E]. Qed.

(** The state while no day after [t] is signed: the run is that of the last day. *)
Record counted (t : date) (r : SignRecord) : Prop := {
  ct_before : forall d, valid d -> signed r d = true -> exists l, lastDay r = Some l /\ ord d <= ord l;
  ct_last : match lastDay r with
    | None => streak r = 0
    | Some l => valid l /\ ord l <= ord t /\ exists n, (0 < n)%nat /\ streak r = wrap64 (Z.of_nat n) /\ run_ending r l n
    end
}.

Lemma counted_last t r l : counted t r -> lastDay r = Some l -> signed r l = true.
Proof. intros [_ Hl] E. rewrite E in Hl. destruct Hl as (_ & _ & n & Hn & _ & Hr & _). apply (Hr 0%nat Hn). Qed.

Lemma counted_later t t' r : counted t r -> ord t <= ord t' -> counted t' r.
Proof.
  intros [Hb Hl] Ht. split; [done|]. destruct (lastDay r); [|done]. destruct Hl as (? & ? & ?). split_and!; [done|lia|done].
Qed.

Lemma run_snoc r r' t n : valid t -> run_ending r (yesterday t) n ->
  (forall d, valid d -> signed r' d = signed r d || bool_decide (d = t)) -> run_ending r' t (S n).
Proof.
  intros Ht [H1 H2] Hs. split.
  - intros [|i] Hi; cbn [back]; rewrite Hs by (done || (apply back_valid, yesterday_valid; done)).
    + by rewrite bool_decide_true, orb_true_r.
    + by rewrite H1 by lia.
  - cbn [back]. rewrite Hs by (by apply back_valid, yesterday_valid). rewrite H2. apply bool_decide_eq_false.
    intros E. pose proof (back_ord n (yesterday t) (yesterday_valid t Ht)). pose proof (yesterday_ord t Ht). rewrite E in *. lia.
Qed.

Lemma SignIn_counted t r : valid t -> counted t r -> counted t (SignIn t r).1.
Proof.
  intros Ht Hc. pose proof Hc as [Hb Hl]. unfold SignIn. case_decide as El; [done|]. cbn [fst].
  set (n' := match lastDay r with Some _ => _ | None => _ end). set (r' := MkRecord _ _ _ _ _).
  assert (forall d, valid d -> signed r' d = signed r d || bool_decide (d = t)) as Hs.
  { intros d Hd. rewrite (signed_with_day r r' (monthKey t) (Day t) d Hd (valid_day t Ht) eq_refl). f_equal.
    apply bool_decide_ext. split; [intros [? ?]; by apply monthKey_inj|by intros ->]. }
  assert (exists n, n' = wrap64 (Z.of_nat (S n)) /\ run_ending r (yesterday t) n) as (n & En & Hr).
  { subst n'. destruct (lastDay r) as [l|] eqn:E.
    - destruct Hl as (Hvl & Hlt & n & Hn & Es & Hr). destruct (decide (tomorrow l = t)) as [E'|E'].
      + exists n. pose proof (yesterday_tomorrow l Hvl) as [Hy _]. rewrite E' in Hy. rewrite Hy. split; [|done].
        rewrite Es, wrap64_add_l. f_equal. lia.
      + exists 0%nat. split; [done|]. split; [lia|]. cbn [back]. apply not_true_is_false. intros Hs'.
        destruct (Hb _ (yesterday_valid t Ht) Hs') as (l' & [= <-] & Ho).
        assert (l = t -> False) by (intros ->; done).
        assert (ord l <> ord t) by (intros Ho'; by apply ord_inj in Ho').
        pose proof (yesterday_ge l t Hvl Ht ltac:(lia)).
        assert (l = yesterday t) as -> by (apply ord_inj; [done|by apply yesterday_valid|lia]). by rewrite tomorrow_yesterday in E'.
    - exists 0%nat. split; [done|]. split; [lia|]. cbn [back]. apply not_true_is_false. intros Hs'.
      by destruct (Hb _ (yesterday_valid t Ht) Hs') as (? & ? & _). }
  split; cbn [lastDay streak r'].
  - intros d Hd Hd'. exists t. split; [done|]. rewrite Hs in Hd' by done. apply orb_prop in Hd' as [Hd'|Hd'%bool_decide_eq_true]; [|subst; lia].
    destruct (Hb d Hd Hd') as (l & E & Ho). rewrite E in Hl. destruct Hl as (_ & ? & _). lia.
  - split_and!; [done|lia|]. exists (S n). split_and!; [lia|done|]. by eapply run_snoc.
Qed.

(** [recalcStreak] finds the run that ends today. *)
Lemma recalc_run t r : valid t -> 31 * Z.of_nat (size (months r)) < 2 ^ 62 ->
  exists n, run_ending r t n /\ streak (recalcStreak t r) = wrap64 (Z.of_nat n) /\
  lastDay (recalcStreak t r) = if decide (n = 0%nat) then lastDay r else Some t.
Proof.
  intros Ht Hsize. destruct (run_exists r t Ht) as (n & Hn & Hr). exists n. split; [done|]. unfold recalcStreak. cbn [streak lastDay].
  pose proof (streak_loop_run (streak_fuel r) r t n 0 Ht Hn Hr) as E. change (wrap64 0) with 0 in E. rewrite E. split; [done|].
  unfold streak_fuel in Hn. rewrite Z.add_0_l, wrap64_id by (unfold int64; lia). case_decide; [by subst|].
  by rewrite (proj2 (Z.ltb_lt _ _)) by lia.
Qed.

(** A retroactive signature made on a day already signed, or for that day itself. *)
Definition prompt (o : date * op) (r : SignRecord) : Prop :=
  match o.2 with OSign => True | ORetro y m d => signed r o.1 = true \/ MkDate y m d = o.1 end.

Lemma dateOf_valid y m d : 1 <= d <= daysIn y m -> valid (dateOf y m d).
Proof.
  intros Hd. unfold valid, dateOf. cbn [Year Month Day]. split; [|exact Hd]. unfold norm_month.
  pose proof (Z.mod_pos_bound (m - 1) 12 ltac:(lia)). lia.
Qed.

Lemma norm_in y m : 1 <= m <= 12 -> norm_year y m = y /\ norm_month m = m.
Proof. intros Hm. unfold norm_year, norm_month. rewrite Z.div_small, Z.mod_small by lia. lia. Qed.

Lemma RetroSign_counted t y m day r : valid t -> 31 * (Z.of_nat (size (months r)) + 1) < 2 ^ 62 ->
  counted t r -> prompt (t, ORetro y m day) r -> counted t (RetroSign t y m day r).1.
Proof.
  intros Ht Hsize Hc Hp. unfold RetroSign. destruct ((day <? 1) || (daysIn y m <? day)) eqn:Eday; [done|]. bool_prop.
  destruct (after _ t) eqn:Ea; [done|]. destruct (negb _) eqn:Eb; [done|]. destruct (_ <=? _); [done|]. cbn [fst]. clear Eb.
  pose proof (month_days_bounds (norm_year y m) (norm_month m)) as Hmd. unfold daysIn in *.
  rewrite after_ord in Ea by (done || (apply dateOf_valid; unfold daysIn; lia)). apply Z.ltb_ge in Ea.
  set (r1 := MkRecord _ _ _ _ _).
  assert (forall d, valid d -> signed r1 d = signed r d || bool_decide (monthKey d = (y, m) /\ Day d = day)) as Hs
    by (intros d Hd; apply signed_with_day; [done|lia|done]).
  assert (forall d, valid d -> signed r1 d = true -> ord d <= ord t) as Hle.
  { intros d Hd Hd'. rewrite Hs in Hd' by done. apply orb_prop in Hd' as [Hd'|[[= E1 E2] E3]%bool_decide_eq_true].
    - destruct Hc as [Hb Hl]. destruct (Hb d Hd Hd') as (l & E & ?). rewrite E in Hl. lia.
    - destruct Hd as [Hm _]. destruct (norm_in y m ltac:(lia)) as [E4 E5]. unfold dateOf in Ea. rewrite E4, E5 in Ea.
      replace d with (MkDate y m day); [done|]. destruct d; cbn in *; by subst. }
  assert (signed r1 t = true) as Hst.
  { rewrite Hs by done. destruct Hp as [Hp|Hp]; cbn in Hp; [by rewrite Hp|]. rewrite bool_decide_true, orb_true_r; [done|]. by rewrite <- Hp. }
  assert (size (months r1) <= S (size (months r)))%nat as Hsz.
  { cbn [months r1]. rewrite map_size_insert. destruct (_ !! _); cbn; lia. }
  destruct (recalc_run t r1 Ht) as (n & Hr & Es & El); [lia|]. rewrite decide_False in El.
  2:{ intros ->. destruct Hr as [_ Hr]. cbn [back] in Hr. congruence. }
  split.
  - intros d Hd Hd'. exists t. split; [done|]. by apply Hle.
  - rewrite El. split_and!; [done|lia|]. exists n. split_and!; [|done|].
    + destruct n; [|lia]. destruct Hr as [_ Hr]. cbn [back] in Hr. congruence.
    + by eapply run_ending_eq.
Qed.

(** The days of a history do not go back. *)
Fixpoint history (t : date) (ops : list (date * op)) (r : SignRecord) : Prop :=
  match ops with
  | [] => True
  | o :: ops => valid o.1 /\ ord t <= ord o.1 /\ prompt o r /\ history o.1 ops (exec o r).1
  end.

Lemma exec_size o r : (size (months (exec o r).1) <= S (size (months r)))%nat.
Proof.
  destruct o as [t [|y m d]]; unfold exec, SignIn, RetroSign; cbn [fst snd]; repeat (case_match; cbn [fst months recalcStreak]; try lia);
    rewrite map_size_insert; destruct (_ !! _); cbn; lia.
Qed.

Lemma history_counted ops : forall t r, counted t r -> 31 * Z.of_nat (size (months r) + length ops) < 2 ^ 62 -> history t ops r ->
  (exists t', counted t' (run ops r)) /\ (size (months (run ops r)) <= size (months r) + length ops)%nat.
Proof.
  induction ops as [|o ops IH]; intros t r Hc Hn Hh; cbn [run foldl length] in *; [split; [by exists t|lia]|].
  destruct Hh as (Hv & Ho & Hp & Hh). pose proof (exec_size o r) as Hsz. apply (counted_later t o.1) in Hc; [|done].
  destruct (IH o.1 (exec o r).1) as [Hc' Hs']; [|lia|done|split; [done|unfold run in Hs'; lia]].
  destruct o as [t' [|y m d]]; cbn [exec fst snd] in *; [by apply SignIn_counted|]. apply RetroSign_counted; [done|lia|done|done].
Qed.

Lemma New_counted opts t : counted t (New opts).
Proof. split; cbn; [|done]. intros d _. unfold signed, bitmap. cbn. by rewrite lookup_empty, Z.testbit_0_l. Qed.

(** As long as the clock does not go back a day and days are signed afterwards only once the day
    of the call is signed (or for that day), the streak is the length of the run of signed days that
    ends with the last day signed, no later day is signed, and signing in is refused exactly on a day
    that is signed already. *)
Theorem streak_counts opts t ops today : Z.of_nat (length ops) < 2 ^ 50 -> history t ops (New opts) -> valid today ->
  let r := run ops (New opts) in
  match lastDay r with
  | None => Streak r = 0 /\ forall d, valid d -> signed r d = false
  | Some l =>
      (exists n, (0 < n)%nat /\ Streak r = Z.of_nat n /\ run_ending r l n) /\
      (forall d, valid d -> signed r d = true -> ord d <= ord l) /\
      (ord l <= ord today -> (SignIn today r).2 = Err ErrAlreadySigned <-> signed r today = true)
  end.
Proof.
  intros Hlen Hh Ht r. destruct (history_counted ops t (New opts)) as [[t' Hc] Hsz]; [apply New_counted|change (size (months (New opts))) with 0%nat; lia|done|]. fold r in Hc, Hsz.
  change (size (months (New opts))) with 0%nat in Hsz. pose proof Hc as [Hb Hl]. pose proof (counted_last t' r) as Hsl. unfold Streak.
  destruct (lastDay r) as [l|] eqn:El.
  - destruct Hl as (Hvl & _ & n & Hn & Es & Hr). split.
    + exists n. split_and!; [done| |done]. destruct (run_exists r l Hvl) as (n' & Hn' & Hr'). assert (n' = n) as -> by (by eapply run_unique).
      rewrite Es. apply wrap64_id. unfold streak_fuel, int64 in *. lia.
    + split; [intros d Hd Hd'; destruct (Hb d Hd Hd') as (? & [= <-] & ?); done|]. intros Ho. unfold SignIn. rewrite El. case_decide as E.
      * injection E as ->. split; [|done]. intros _. by apply (Hsl today Hc).
      * split; [done|]. intros Hs. destruct (Hb today Ht Hs) as (? & [= <-] & Ho'). destruct E. f_equal. apply ord_inj; [done|done|lia].
  - split; [done|]. intros d Hd. apply not_true_is_false. intros Hs. by destruct (Hb d Hd Hs) as (? & ? & _).
Qed.

(** ** What a call signs *)

(** The days signed afterwards in a month. *)
Fixpoint retro_days (mk : MonthKey) (ops : list (date * op)) (r : SignRecord) : Z :=
  match ops with
  | [] => 0
  | o :: ops =>
      (match o.2 with
       | ORetro y m _ => if decide ((y, m) = mk) then (if is_ok (exec o r).2 then 1 else 0) else 0
       | OSign => 0
       end) + retro_days mk ops (exec o r).1
  end.

Lemma used_insert mk t c ms rs k v l n :
  used mk (recalcStreak t (MkRecord c ms (<[k := v]> rs) l n)) = if decide (k = mk) then v else default 0 (rs !! mk).
Proof. unfold used. cbn [recalcStreak retros]. case_decide; subst; [by rewrite lookup_insert_eq|by rewrite lookup_insert_ne]. Qed.

Lemma exec_retro o r : (forall k, 0 <= used k r <= retroMax (cfg r)) -> retroMax (cfg r) < 2 ^ 62 ->
  forall mk, used mk (exec o r).1 = used mk r +
    match o.2 with ORetro y m _ => if decide ((y, m) = mk) then (if is_ok (exec o r).2 then 1 else 0) else 0 | OSign => 0 end /\
  cfg (exec o r).1 = cfg r /\ used mk (exec o r).1 <= retroMax (cfg r).
Proof.
  intros Hu Hm mk. pose proof (Hu mk). destruct o as [t [|y m d]]; unfold exec, SignIn, RetroSign; cbn [fst snd].
  { case_decide; cbn; split_and!; try done; try lia; unfold used in *; cbn; lia. }
  assert (forall e : sErr, used mk r = used mk r + (if decide ((y, m) = mk) then if is_ok (Err (A := list Reward) e) then 1 else 0 else 0) /\
    cfg r = cfg r /\ used mk r <= retroMax (cfg r)) as Hno by (intros e; case_decide; cbn; split_and!; try done; lia).
  destruct (_ || _); [apply Hno|]. destruct (after _ _); [apply Hno|]. destruct (negb _); [apply Hno|]. destruct (Z.leb_spec (retroMax (cfg r)) (used (y, m) r)); [apply Hno|].
  cbn [fst snd is_ok]. pose proof (Hu (y, m)). rewrite used_insert.
  case_decide as E; [subst mk|].
  - rewrite !decide_True by done. rewrite wrap64_id by (unfold int64; lia). split_and!; [done|done|lia].
  - rewrite !decide_False by done. fold (used mk r). split_and!; [lia|done|lia].
Qed.

Lemma run_retro ops : forall r, (forall k, 0 <= used k r <= retroMax (cfg r)) -> retroMax (cfg r) < 2 ^ 62 ->
  cfg (run ops r) = cfg r /\ forall mk, used mk (run ops r) = used mk r + retro_days mk ops r /\ 0 <= used mk (run ops r) <= retroMax (cfg r).
Proof.
  induction ops as [|o ops IH]; intros r Hu Hm; cbn [run foldl retro_days] in *; [split; [done|]; intros mk; split; [lia|done]|].
  pose proof (exec_retro o r Hu Hm) as He. pose proof (proj1 (proj2 (He (0, 0)))) as Ec. unfold run in IH.
  destruct (IH (exec o r).1) as [Hc Hr]; rewrite ?Ec in *; [|done|].
  { intros k. destruct (He k) as (E & _ & ?). pose proof (Hu k). rewrite E in *. split; [|done]. repeat case_match; lia. }
  split; [done|]. intros mk. destruct (He mk) as (E & _). destruct (Hr mk) as [Er ?]. split; [|done]. rewrite Er, E. lia.
Qed.

(** In every history, at any days and in any order, no more days of a month are signed afterwards
    than the limit, and [RetroRemaining] answers what is left; a day signed afterwards is a day of its
    month, not in the future, that was not signed, and is signed then; a refusal changes nothing. *)
Theorem retro_limited opts ops o : let r := run ops (New opts) in
  0 <= retroMax (cfg (New opts)) < 2 ^ 62 -> valid o.1 ->
  (forall mk, retro_days mk ops (New opts) <= retroMax (cfg r)) /\
  RetroRemaining o.1 r = retroMax (cfg r) - retro_days (monthKey o.1) ops (New opts) /\
  forall y m d, o.2 = ORetro y m d ->
    let '(r', a) := exec o r in
    if is_ok a then
      1 <= d <= daysIn y m /\ ord (dateOf y m d) <= ord o.1 /\ months r' = with_day (y, m) d r /\
      Z.testbit (bitmap (y, m) r) (d - 1) = false /\ Z.testbit (bitmap (y, m) r') (d - 1) = true
    else r' = r.
Proof.
  intros r Hmax Ho. assert (forall mk, used mk (New opts) = 0) as H0 by (intros; unfold used; cbn; by rewrite lookup_empty).
  destruct (run_retro ops (New opts)) as [Hc Hu]; [intros k; rewrite H0; lia|lia|]. fold r in Hc, Hu. rewrite Hc. split; [|split].
  - intros mk. destruct (Hu mk) as [E ?]. rewrite H0 in E. lia.
  - unfold RetroRemaining. destruct (Hu (monthKey o.1)) as [E ?]. rewrite H0 in E. rewrite Hc, wrap64_id by (unfold int64; lia).
    destruct (Z.ltb_spec (retroMax (cfg (New opts)) - used (monthKey o.1) r) 0); lia.
  - intros y m d Eo. destruct o as [t o]. cbn in Eo, Ho. subst o. unfold exec, RetroSign. cbn [fst snd].
    destruct ((d <? 1) || (daysIn y m <? d)) eqn:Ed; [done|]. bool_prop. destruct (after _ _) eqn:Ea; [done|].
    pose proof (month_days_bounds (norm_year y m) (norm_month m)) as Hmd. unfold daysIn in *.
    rewrite after_ord in Ea by (done || (apply dateOf_valid; unfold daysIn; lia)). apply Z.ltb_ge in Ea.
    rewrite land_dayBit, negb_involutive by lia. destruct (Z.testbit _ _) eqn:Eb; [done|]. destruct (_ <=? _); [done|].
    cbn [is_ok]. split_and!; [lia|lia|done|done|done|]. unfold bitmap at 1. cbn [months recalcStreak].
    rewrite lookup_insert_eq. cbn [default from_option]. unfold id. rewrite lor_dayBit by lia. by rewrite Z.eqb_refl, orb_true_r.
Qed.

(** [popcount] counts the bits. *)
Lemma popcount_loop_ones fuel : forall w n, uint64 w -> (length (ones w) < fuel)%nat ->
  popcount_loop fuel w n = n + Z.of_nat (length (ones w)).
Proof.
  induction fuel as [|fuel IH]; intros w n Hw Hf; [lia|]. cbn [popcount_loop].
  destruct (Z.eqb_spec w 0) as [->|Hne]; [rewrite ones_0; cbn; lia|].
  pose proof (ones_high w Hw Hne) as Hn. destruct (ones w) as [|t rest] eqn:Eo; [done|].
  pose proof (ones_clear w t rest Hw Hne Eo) as Hr. rewrite wrapu64_id in Hr by (unfold uint64 in *; lia).
  rewrite IH, Hr; [cbn [length]; lia| |rewrite Hr; cbn in Hf; lia]. apply uint64_land; [done|unfold uint64 in *; lia].
Qed.

Lemma SignedDays_ones y m r : 0 <= bitmap (y, m) r < 2 ^ 32 -> SignedDays y m r = Z.of_nat (length (ones (bitmap (y, m) r))).
Proof.
  intros Hb. unfold SignedDays, popcount. set (w := bitmap (y, m) r) in *. rewrite popcount_loop_ones; [lia|unfold uint64; lia|].
  assert (length (ones w) <= length (seqZ 0 32))%nat as Hl.
  { apply submseteq_length, NoDup_submseteq; [apply NoDup_ListNoDup; unfold ones; apply List.NoDup_filter, NoDup_ListNoDup, NoDup_seqZ|].
    intros k [Hk Hkb]%elem_ones. apply elem_of_seqZ. split; [lia|]. destruct (Z.lt_ge_cases k 32); [lia|].
    rewrite Z.bits_above_log2 in Hkb; [done|lia|]. destruct (Z.eq_dec w 0) as [->|]; [cbn; lia|]. apply Z.log2_lt_pow2; [lia|].
    apply Z.lt_le_trans with (2 ^ 32); [lia|]. apply Z.pow_le_mono_r; lia. }
  rewrite length_seqZ in Hl. lia.
Qed.

(** * Runs *)

Definition may (d : Z) : date := MkDate 2024 5 d.

Lemma streak_counts_witness :
  let ops := [(may 1, OSign); (may 3, OSign); (may 3, ORetro 2024 5 2); (may 4, OSign)] in
  let r := run ops (New []) in Streak r = 4 /\ exists n, (0 < n)%nat /\ Streak r = Z.of_nat n /\ run_ending r (may 4) n.
Proof.
  cbv zeta. split; [vm_compute; reflexivity|].
  pose proof (streak_counts [] (may 1) [(may 1, OSign); (may 3, OSign); (may 3, ORetro 2024 5 2); (may 4, OSign)] (may 4)) as H.
  cbv zeta in H. assert (lastDay (run [(may 1, OSign); (may 3, OSign); (may 3, ORetro 2024 5 2); (may 4, OSign)] (New [])) = Some (may 4)) as E
    by (vm_compute; reflexivity). rewrite E in H. apply H.
  - vm_compute. reflexivity.
  - cbn [history fst]. assert (forall d, 1 <= d <= 31 -> valid (may d)) as Hv by (intros d Hd; unfold valid; cbn; lia).
    assert (forall d d', d <= d' -> ord (may d) <= ord (may d')) as Ho by (intros; unfold ord; cbn; lia).
    do 2 (split; [apply Hv; lia|]; split; [apply Ho; lia|]; split; [exact I|]).
    split; [apply Hv; lia|]. split; [apply Ho; lia|]. split; [left; vm_compute; reflexivity|].
    split; [apply Hv; lia|]. split; [apply Ho; lia|]. split; exact I.
  - split; cbn; lia.
Defined.

Lemma retro_limited_witness :
  let ops := [(may 9, OSign); (may 9, ORetro 2024 5 1); (may 9, ORetro 2024 5 2); (may 9, ORetro 2024 5 3)] in
  let r := run ops (New []) in
  (exec (may 9, ORetro 2024 5 4) r).2 = Err ErrRetroLimit /\ retro_days (2024, 5) ops (New []) = 3 /\
  RetroRemaining (may 9) r = retroMax (cfg r) - retro_days (2024, 5) ops (New []).
Proof.
  cbv zeta. split; [vm_compute; reflexivity|]. split; [vm_compute; reflexivity|].
  pose proof (retro_limited [] [(may 9, OSign); (may 9, ORetro 2024 5 1); (may 9, ORetro 2024 5 2); (may 9, ORetro 2024 5 3)] (may 9, OSign)) as H.
  cbv zeta in H. destruct H as (_ & H & _); [cbn; lia|split; cbn; lia|exact H].
Defined.

(** A day signed afterwards before the day of the call is signed: the streak falls to zero, and when
    that day is signed it is one, although three days in a row are. *)
Lemma retro_before_signin :
  let r := run [(may 1, OSign); (may 3, ORetro 2024 5 2)] (New []) in
  Streak r = 0 /\ let r := (SignIn (may 3) r).1 in Streak r = 1 /\ run_ending r (may 3) 3.
Proof.
  cbv zeta. split; [vm_compute; reflexivity|]. split; [vm_compute; reflexivity|]. split.
  - intros [|[|[|i]]] Hi; [vm_compute; reflexivity..|lia].
  - vm_compute. reflexivity.
Qed.

(** Only the last day is compared: once the clock has gone back a day can be signed again. *)
Lemma signed_again :
  let r := run [(may 5, OSign); (may 4, OSign)] (New []) in
  signed r (may 5) = true /\ (SignIn (may 5) r).2 = Ok [].
Proof. split; vm_compute; reflexivity. Qed.

(** A month out of range is a valid day of the next year, kept under a key no query of that day uses. *)
Lemma thirteenth_month :
  let '(r, a) := RetroSign (MkDate 2025 1 9) 2024 13 5 (New []) in
  a = Ok [] /\ dateOf 2024 13 5 = MkDate 2025 1 5 /\ IsSigned 2025 1 5 r = Ret false.
Proof. vm_compute. by split_and!. Qed.
