(* ===== verification/Reddot.v ===== *)
(** Unread counts summed up a tree ([pkg/game/reddot/reddot.go]): paths name the nodes, leaves are set,
    and a node counts everything below it. *)
From Stdlib Require Import ZArith Lia Bool Ascii Sorted.
From stdpp Require Import base numbers strings list gmap fin_maps sorting.
From S2P Require Import Prelude.

Open Scope Z_scope.

(** [parent] is written and never read. The children are in the order they were made, which the map of
    the code does not keep. *)
Inductive node := Node (name : string) (children : list (string * node)) (count : Z) (isLeaf : bool).

Definition children (n : node) : list (string * node) := let 'Node _ cs _ _ := n in cs.
Definition count (n : node) : Z := let 'Node _ _ c _ := n in c.
Definition set_count (c : Z) (n : node) : node := let 'Node nm cs _ l := n in Node nm cs c l.
Definition set_leaf (n : node) : node := let 'Node nm cs c _ := n in Node nm cs c true.
Definition set_children (cs : list (string * node)) (n : node) : node := let 'Node nm _ c l := n in Node nm cs c l.

Record Tree := MkTree { root : node; sep : string }.

Definition WithSeparator (s : string) (t : Tree) : Tree := if negb (bool_decide (s = "")) then MkTree (root t) s else t.
Definition New (opts : list (Tree -> Tree)) : Tree := foldl (fun t o => o t) (MkTree (Node "" [] 0 false) "/") opts.

(** * Paths *)

(** [strings.Trim]: the cutset is a set of characters. *)
Fixpoint trim_left (cut s : list ascii) : list ascii :=
  match s with [] => [] | c :: s' => if bool_decide (c ∈ cut) then trim_left cut s' else s end.
Definition strings_Trim (s cut : string) : string :=
  let cut := String.list_ascii_of_string cut in
  String.string_of_list_ascii (rev (trim_left cut (rev (trim_left cut (String.list_ascii_of_string s))))).

(** [strings.Split] at every occurrence of a separator that is not empty, from the left. *)
Fixpoint split_loop (fuel : nat) (sep s cur : list ascii) : list string :=
  match fuel with
  | O => []
  | S fuel =>
      match s with
      | [] => [String.string_of_list_ascii (rev cur)]
      | c :: s' =>
          if bool_decide (take (length sep) s = sep) then String.string_of_list_ascii (rev cur) :: split_loop fuel sep (drop (length sep) s) []
          else split_loop fuel sep s' (c :: cur)
      end
  end.
Definition strings_Split (s sep : string) : list string :=
  split_loop (S (String.length s)) (String.list_ascii_of_string sep) (String.list_ascii_of_string s) [].

Definition split (t : Tree) (path : string) : list string :=
  let path := strings_Trim path (sep t) in
  if bool_decide (path = "") then [] else strings_Split path (sep t).

(** * Nodes *)

Fixpoint child (seg : string) (cs : list (string * node)) : option node :=
  match cs with [] => None | (nm, c) :: cs => if decide (nm = seg) then Some c else child seg cs end.
Fixpoint put_child (seg : string) (c : node) (cs : list (string * node)) : list (string * node) :=
  match cs with [] => [(seg, c)] | (nm, c') :: cs => if decide (nm = seg) then (nm, c) :: cs else (nm, c') :: put_child seg c cs end.

(** [getOrCreate], with what its caller does to the node it answers. *)
Fixpoint getOrCreate (segs : list string) (asLeaf : bool) (f : node -> node) (cur : node) : node :=
  match segs with
  | [] => f (if asLeaf then set_leaf cur else cur)
  | seg :: segs =>
      let c := default (Node seg [] 0 false) (child seg (children cur)) in
      set_children (put_child seg (getOrCreate segs asLeaf f c) (children cur)) cur
  end.

(** [find], with what its caller does to the node it answers, when there is one. *)
Fixpoint find (segs : list string) (cur : node) : option node :=
  match segs with [] => Some cur | seg :: segs => c ← child seg (children cur); find segs c end.
Fixpoint modify (segs : list string) (f : node -> node) (cur : node) : node :=
  match segs with
  | [] => f cur
  | seg :: segs =>
      match child seg (children cur) with
      | Some c => set_children (put_child seg (modify segs f c) (children cur)) cur
      | None => cur
      end
  end.

Fixpoint clearSubtree (n : node) : node :=
  let 'Node nm cs _ l := n in Node nm ((fix go cs := match cs with [] => [] | (k, c) :: cs => (k, clearSubtree c) :: go cs end) cs) 0 l.

Fixpoint aggregate (n : node) : Z :=
  let 'Node _ cs c _ := n in
  match cs with
  | [] => c
  | _ => (fix go cs sum := match cs with [] => sum | (_, c) :: cs => go cs (wrap64 (sum + aggregate c)) end) cs (wrap64 (0 + c))
  end.

(** * The operations *)

Definition with_root (n : node) (t : Tree) : Tree := MkTree n (sep t).

Definition Set_ (path : string) (n : Z) (t : Tree) : Tree :=
  let n := if n <? 0 then 0 else n in with_root (getOrCreate (split t path) true (set_count n) (root t)) t.

Definition Incr (path : string) (delta : Z) (t : Tree) : Tree * Z :=
  let t := with_root (getOrCreate (split t path) true (fun n => set_count (Z.max (wrap64 (count n + delta)) 0) n) (root t)) t in
  (t, default 0 (count <$> find (split t path) (root t))).

Definition Clear (path : string) (t : Tree) : Tree := with_root (modify (split t path) clearSubtree (root t)) t.

Definition Count (path : string) (t : Tree) : Z :=
  match find (split t path) (root t) with Some n => aggregate n | None => 0 end.
Definition Dot (path : string) (t : Tree) : bool := 0 <? Count path t.
Definition Total (t : Tree) : Z := aggregate (root t).

Record Entry := MkEntry { Name : string; eCount : Z }.
Definition name_le (a b : Entry) : Prop := String.leb (Name a) (Name b) = true.
#[export] Instance name_le_dec : RelDecision name_le.
Proof. unfold RelDecision, name_le. apply _. Defined.

Definition Children (path : string) (t : Tree) : list Entry :=
  match find (split t path) (root t) with
  | Some n => merge_sort name_le ((fun '(nm, c) => MkEntry nm (aggregate c)) <$> children n)
  | None => []
  end.

(** * What a tree stands for *)

(** The counts by path, those of the inner nodes included. *)
Fixpoint flatten (n : node) : list (list string * Z) :=
  let 'Node _ cs c _ := n in
  ([], c) :: (fix go cs := match cs with [] => [] | (k, d) :: cs => ((fun e => (k :: e.1, e.2)) <$> flatten d) ++ go cs end) cs.

Fixpoint flatten_all (cs : list (string * node)) : list (list string * Z) :=
  match cs with [] => [] | (k, d) :: cs => ((fun e => (k :: e.1, e.2)) <$> flatten d) ++ flatten_all cs end.

Lemma flatten_Node nm cs c l : flatten (Node nm cs c l) = ([], c) :: flatten_all cs.
Proof. reflexivity. Qed.

Fixpoint clear_all (cs : list (string * node)) : list (string * node) :=
  match cs with [] => [] | (k, c) :: cs => (k, clearSubtree c) :: clear_all cs end.
Lemma clear_Node nm cs c l : clearSubtree (Node nm cs c l) = Node nm (clear_all cs) 0 l.
Proof. reflexivity. Qed.

(** The sum of the counts at and below a path. *)
Fixpoint sum_under (p : list string) (l : list (list string * Z)) : Z :=
  match l with [] => 0 | (q, v) :: l => (if decide (p `prefix_of` q) then v else 0) + sum_under p l end.

Lemma sum_under_app p l l' : sum_under p (l ++ l') = sum_under p l + sum_under p l'.
Proof. induction l as [|[q v] l IH]; cbn [app sum_under]; [done|]. rewrite IH. lia. Qed.
Lemma sum_under_perm p l l' : l ≡ₚ l' -> sum_under p l = sum_under p l'.
Proof. induction 1 as [|[q v] l l' _ IH|[q v] [q' v'] l|]; cbn [sum_under]; lia. Qed.
Lemma sum_under_cons k p k' l : sum_under (k :: p) ((fun e => (k' :: e.1, e.2)) <$> l) = if decide (k = k') then sum_under p l else 0.
Proof.
  induction l as [|[q v] l IH]; [by case_decide|]. rewrite fmap_cons. cbn [sum_under fst snd]. rewrite IH. destruct (decide (k = k')) as [<-|Hd].
  - destruct (decide (p `prefix_of` q)) as [Hp|Hp]; [rewrite decide_True by (by apply prefix_cons)|rewrite decide_False by (intros ?%prefix_cons_inv_2; done)]; done.
  - rewrite decide_False by (intros ?%prefix_cons_inv_1; done). done.
Qed.
Lemma sum_under_nil k l : sum_under [] ((fun e => (k :: e.1, e.2)) <$> l) = sum_under [] l.
Proof.
  induction l as [|[q v] l IH]; [done|]. rewrite fmap_cons. cbn [sum_under fst snd]. rewrite IH. by rewrite !decide_True by apply prefix_nil.
Qed.

(** Names are unique among siblings and counts are those of [int64], none negative. *)
Inductive wf : node -> Prop :=
| wf_Node nm cs c l : NoDup cs.*1 -> 0 <= c < 2 ^ 63 -> wf_all cs -> wf (Node nm cs c l)
with wf_all : list (string * node) -> Prop :=
| wf_nil : wf_all []
| wf_cons k c cs : wf c -> wf_all cs -> wf_all ((k, c) :: cs).
Scheme wf_mut := Minimality for wf Sort Prop with wf_all_mut := Minimality for wf_all Sort Prop.

Lemma aggregate_sum n : wf n -> aggregate n = wrap64 (sum_under [] (flatten n)).
Proof.
  revert n. apply (wf_mut (fun n => aggregate n = wrap64 (sum_under [] (flatten n)))
    (fun cs => forall s, (fix go cs sum := match cs with [] => sum | (_, c) :: cs => go cs (wrap64 (sum + aggregate c)) end) cs (wrap64 s) =
       wrap64 (s + sum_under [] (flatten_all cs)))).
  - intros nm cs c l _ Hc _ IH. rewrite flatten_Node. cbn [aggregate sum_under]. rewrite decide_True by apply prefix_nil. destruct cs as [|kc cs].
    + cbn [flatten_all sum_under]. rewrite Z.add_0_r. symmetry. apply wrap64_id. unfold int64. lia.
    + rewrite IH. done.
  - intros s. cbn [flatten_all sum_under]. by rewrite Z.add_0_r.
  - intros k c cs _ IHc _ IH s. rewrite IHc, wrap64_add_l, wrap64_add_r, IH. cbn [flatten_all]. rewrite sum_under_app, sum_under_nil. f_equal. lia.
Qed.

Lemma child_elem seg cs c : NoDup cs.*1 -> child seg cs = Some c <-> (seg, c) ∈ cs.
Proof.
  induction cs as [|[k d] cs IH]; cbn [fmap list_fmap child fst]; [split; [done|by intros ?%elem_of_nil]|]. intros [Hk Hn]%NoDup_cons. case_decide as Hd.
  - subst k. split; [intros [= ->]; left|]. intros [[= ->]|Hin]%elem_of_cons; [done|]. destruct Hk. apply list_elem_of_fmap. by exists (seg, c).
  - rewrite IH by done. split; [by right|]. intros [[= ->]|?]%elem_of_cons; done.
Qed.

Lemma flatten_all_elem k q v cs : (k :: q, v) ∈ flatten_all cs <-> exists c, (k, c) ∈ cs /\ (q, v) ∈ flatten c.
Proof.
  induction cs as [|[k' d] cs IH]; cbn [flatten_all]; [split; [by intros ?%elem_of_nil|by intros (? & ?%elem_of_nil & _)]|].
  rewrite elem_of_app, IH, list_elem_of_fmap. split.
  - intros [([q' v'] & [= -> -> ->] & Hin)|(c & Hc & Hin)]; [exists d; split; [left|done]|exists c; split; [by right|done]].
  - intros (c & [[= -> ->]|Hc]%elem_of_cons & Hin); [left; by exists (q, v)|right; by exists c].
Qed.

Lemma flatten_all_nil v cs : ([], v) ∉ flatten_all cs.
Proof. induction cs as [|[k d] cs IH]; cbn [flatten_all]; [by intros ?%elem_of_nil|]. by intros [([? ?] & [=] & _)%list_elem_of_fmap|?]%elem_of_app. Qed.

Lemma wf_all_elem k c cs : wf_all cs -> (k, c) ∈ cs -> wf c.
Proof. induction 1 as [|k' c' cs Hc _ IH]; [by intros ?%elem_of_nil|]. intros [[= -> ->]|?]%elem_of_cons; [done|by apply IH]. Qed.

Lemma find_flatten q v : forall n, wf n -> (q, v) ∈ flatten n <-> count <$> find q n = Some v.
Proof.
  induction q as [|k q IH]; intros n [nm cs c l Hn Hc Hcs]; rewrite flatten_Node, elem_of_cons; cbn [find children count].
  - split; [intros [[= ->]|[]%flatten_all_nil]; done|]. intros [= ->]. by left.
  - rewrite flatten_all_elem. split.
    + intros [[=]|(d & Hd & Hin)]. rewrite (proj2 (child_elem k cs d Hn) Hd). cbn [mbind option_bind].
      apply IH; [by eapply wf_all_elem|done].
    + intros E. right. destruct (child k cs) as [d|] eqn:Ed; [|done]. apply child_elem in Ed; [|done]. exists d. split; [done|].
      apply IH; [by eapply wf_all_elem|done].
Qed.

Lemma flatten_NoDup n : wf n -> NoDup (flatten n).*1.
Proof.
  revert n. apply (wf_mut (fun n => NoDup (flatten n).*1) (fun cs => NoDup cs.*1 -> NoDup (flatten_all cs).*1)).
  - intros nm cs c l Hn _ _ IH. rewrite flatten_Node. cbn [fmap list_fmap fst]. constructor; [|by apply IH].
    intros ([q v] & E & Hin)%list_elem_of_fmap. cbn in E. subst q. by apply flatten_all_nil in Hin.
  - constructor.
  - intros k c cs _ IHc _ IH Hn. cbn [fmap list_fmap fst] in Hn. apply NoDup_cons in Hn as [Hk Hn]. cbn [flatten_all]. rewrite fmap_app. apply NoDup_app. split_and!.
    + assert (((fun e : list string * Z => (k :: e.1, e.2)) <$> flatten c).*1 = cons k <$> (flatten c).*1) as -> by (by rewrite <- !list_fmap_compose).
      apply NoDup_fmap_2; [|done]. by intros ? ? [= ->].
    + intros q ([q1 v1] & -> & ([q2 v2] & [= -> ->] & _)%list_elem_of_fmap)%list_elem_of_fmap.
      intros ([q3 v3] & E & Hin)%list_elem_of_fmap. cbn in E. subst q3. apply flatten_all_elem in Hin as (d & Hd & _).
      apply Hk. apply list_elem_of_fmap. by exists (k, d).
    + by apply IH.
Qed.

(** The sum below a path is the sum of the node there. *)
Lemma sum_find p : forall n, wf n ->
  sum_under p (flatten n) = match find p n with Some m => sum_under [] (flatten m) | None => 0 end.
Proof.
  induction p as [|k p IH]; intros n Hw; [done|]. destruct Hw as [nm cs c l Hn _ Hcs]. rewrite flatten_Node. cbn [sum_under find children].
  rewrite decide_False by (by intros ?%prefix_nil_not). rewrite Z.add_0_l. induction Hcs as [|k' d cs Hd _ IHcs]; [done|].
  cbn [flatten_all child fmap list_fmap fst] in *. apply NoDup_cons in Hn as [Hk Hn]. rewrite sum_under_app, sum_under_cons, (IHcs Hn).
  rewrite IH by done. case_decide as E.
  - subst k'. rewrite decide_True by done. cbn [mbind option_bind]. destruct (child k cs) as [d'|] eqn:Ed; [|cbn; lia].
    apply child_elem in Ed; [|done]. destruct Hk. apply list_elem_of_fmap. by exists (k, d').
  - rewrite decide_False by done. lia.
Qed.

Lemma child_put seg c cs k : child k (put_child seg c cs) = if decide (seg = k) then Some c else child k cs.
Proof.
  induction cs as [|[k' d] cs IH]; cbn [put_child child]; [done|]. destruct (decide (k' = seg)) as [->|Hd]; cbn [child].
  - by destruct (decide (seg = k)).
  - rewrite IH. destruct (decide (k' = k)) as [->|]; [|done]. by rewrite decide_False.
Qed.

Lemma put_child_keys seg c cs k : k ∈ (put_child seg c cs).*1 <-> k = seg \/ k ∈ cs.*1.
Proof.
  induction cs as [|[k' d] cs IH]; cbn [put_child]; [cbn; set_solver|]. destruct (decide (k' = seg)) as [->|Hd]; rewrite !fmap_cons; cbn [fst].
  - set_solver.
  - rewrite !elem_of_cons, IH. tauto.
Qed.

Lemma put_child_wf seg c cs : NoDup cs.*1 -> wf_all cs -> wf c -> NoDup (put_child seg c cs).*1 /\ wf_all (put_child seg c cs).
Proof.
  intros Hn Hcs Hc. induction Hcs as [|k' d cs Hd Hcs IH]; cbn [put_child]; [split; [apply NoDup_singleton|by repeat constructor]|].
  rewrite fmap_cons in Hn. apply NoDup_cons in Hn as [Hk Hn]. cbn [fst] in Hk. destruct (decide (k' = seg)) as [->|Hd'].
  - split; [by constructor|by constructor].
  - destruct (IH Hn) as [IH1 IH2]. rewrite fmap_cons. split; constructor; try done. cbn [fst]. rewrite put_child_keys. by intros [?|?].
Qed.

Lemma wf_children n : wf n -> NoDup (children n).*1 /\ wf_all (children n) /\ 0 <= count n < 2 ^ 63.
Proof. by intros [nm cs c l Hn Hc Hcs]. Qed.
Lemma wf_set_children cs n : wf n -> NoDup cs.*1 -> wf_all cs -> wf (set_children cs n).
Proof. intros [nm cs0 c l _ Hc _] Hn Hcs. by constructor. Qed.
Lemma wf_child k c n : wf n -> child k (children n) = Some c -> wf c.
Proof. intros (Hn & Hcs & _)%wf_children E. apply child_elem in E; [|done]. by eapply wf_all_elem. Qed.

Lemma count_set_children cs n : count (set_children cs n) = count n.
Proof. by destruct n. Qed.
Lemma children_set_children cs n : children (set_children cs n) = cs.
Proof. by destruct n. Qed.

Lemma find_default q k : count <$> find q (Node k [] 0 false) = match q with [] => Some 0 | _ => None end.
Proof. by destruct q. Qed.

Section update.
(** An update of the count of a node. *)
Context (g : Z -> Z).
Let f (n : node) : node := set_count (g (count n)) n.

Lemma getOrCreate_wf (Hg : forall c, 0 <= c < 2 ^ 63 -> 0 <= g c < 2 ^ 63) b segs : forall n, wf n -> wf (getOrCreate segs b f n).
Proof.
  induction segs as [|k segs IH]; intros n Hn; cbn [getOrCreate].
  - destruct Hn as [nm cs c l Hn Hc Hcs]. destruct b; cbn; constructor; try done; by apply Hg.
  - destruct (wf_children n Hn) as (Hd & Hcs & _). assert (wf (default (Node k [] 0 false) (child k (children n)))) as Hc.
    { destruct (child k (children n)) as [c|] eqn:E; [by eapply wf_child|]. constructor; [constructor|lia|constructor]. }
    destruct (put_child_wf k _ (children n) Hd Hcs (IH _ Hc)) as [? ?]. by apply wf_set_children.
Qed.

Lemma getOrCreate_find b segs : forall n q, count <$> find q (getOrCreate segs b f n) =
  if decide (q = segs) then Some (g (default 0 (count <$> find segs n)))
  else if decide (q `prefix_of` segs) then Some (default 0 (count <$> find q n)) else count <$> find q n.
Proof.
  induction segs as [|k segs IH]; intros n q; cbn [getOrCreate].
  - destruct q as [|k q]; cbn [find fmap option_fmap option_map default].
    + rewrite decide_True by done. destruct n, b; done.
    + rewrite decide_False by done. rewrite decide_False by (by intros ?%prefix_nil_not). destruct n, b; done.
  - destruct q as [|k' q]; cbn [find fmap option_fmap option_map].
    + rewrite decide_False by done. rewrite decide_True by apply prefix_nil. by rewrite count_set_children.
    + rewrite children_set_children, child_put. destruct (decide (k = k')) as [<-|Hd].
      * cbn [mbind option_bind]. change (option_map count) with (fmap (M := option) count) in *. rewrite IH.
        destruct (child k (children n)) as [c|]; cbn [default from_option mbind option_bind]; unfold id.
        -- destruct (decide (q = segs)) as [->|Hq]; [by rewrite decide_True|]. rewrite (decide_False (P := k :: q = k :: segs)) by congruence.
           destruct (decide (q `prefix_of` segs)); [by rewrite decide_True by (by apply prefix_cons)|]. by rewrite decide_False by (by intros ?%prefix_cons_inv_2).
        -- rewrite !find_default. destruct (decide (q = segs)) as [->|Hq]; [rewrite decide_True by done; by destruct segs|].
           rewrite (decide_False (P := k :: q = k :: segs)) by congruence.
           destruct (decide (q `prefix_of` segs)); [rewrite decide_True by (by apply prefix_cons); by destruct q|].
           rewrite decide_False by (by intros ?%prefix_cons_inv_2). destruct q; [|done]. by destruct n0; apply prefix_nil.
      * rewrite decide_False by congruence. rewrite decide_False by (by intros ?%prefix_cons_inv_1). done.
Qed.
End update.

Lemma clear_count q : forall n, count <$> find q (clearSubtree n) = (fun _ => 0) <$> find q n.
Proof.
  induction q as [|k q IH]; intros [nm cs c l]; rewrite clear_Node; cbn [find children]; [done|].
  assert (child k (clear_all cs) = clearSubtree <$> child k cs) as ->.
  { induction cs as [|[k' d] cs IHcs]; [done|]. cbn [clear_all child]. by case_decide. }
  destruct (child k cs) as [d|]; [apply IH|done].
Qed.

Lemma clear_wf n : wf n -> wf (clearSubtree n).
Proof.
  revert n. apply (wf_mut (fun n => wf (clearSubtree n)) (fun cs => wf_all (clear_all cs))).
  - intros nm cs c l Hn _ _ IH. rewrite clear_Node. constructor; [|lia|done].
    assert ((clear_all cs).*1 = cs.*1) as ->; [|done]. clear. induction cs as [|[k d] cs IH]; [done|]. cbn [clear_all]. by rewrite !fmap_cons, IH.
  - constructor.
  - intros k c cs _ ? _ ?. by constructor.
Qed.

Lemma modify_wf segs : forall n, wf n -> wf (modify segs clearSubtree n).
Proof.
  induction segs as [|k segs IH]; intros n Hn; cbn [modify]; [by apply clear_wf|].
  destruct (child k (children n)) as [c|] eqn:E; [|done]. destruct (wf_children n Hn) as (Hd & Hcs & _).
  destruct (put_child_wf k _ (children n) Hd Hcs (IH _ (wf_child k c n Hn E))) as [? ?]. by apply wf_set_children.
Qed.

Lemma modify_find segs : forall n q, count <$> find q (modify segs clearSubtree n) =
  if decide (segs `prefix_of` q) then (fun _ => 0) <$> find q n else count <$> find q n.
Proof.
  induction segs as [|k segs IH]; intros n q; cbn [modify].
  - rewrite decide_True by apply prefix_nil. apply clear_count.
  - destruct q as [|k' q].
    + rewrite decide_False by (by intros ?%prefix_nil_not). destruct (child k (children n)); [|done]. cbn. by rewrite count_set_children.
    + destruct (decide (k = k')) as [<-|Hd].
      * destruct (child k (children n)) as [c|] eqn:E; cbn [find]; [|rewrite E; by case_decide].
        rewrite children_set_children, child_put, decide_True, E by done. cbn [mbind option_bind]. rewrite IH.
        destruct (decide (segs `prefix_of` q)); [by rewrite decide_True by (by apply prefix_cons)|]. by rewrite decide_False by (by intros ?%prefix_cons_inv_2).
      * rewrite decide_False by (by intros ?%prefix_cons_inv_1). destruct (child k (children n)) as [c|] eqn:E; [|done]. cbn [find].
        by rewrite children_set_children, child_put, decide_False by done.
Qed.

(** * The flat specification *)

(** The nodes of a tree by path. *)
Definition prefixes (p : list string) : gmap (list string) Z := list_to_map ((fun i => (take i p, 0)) <$> seq 0 (S (length p))).
Definition touch (p : list string) (A : gmap (list string) Z) : gmap (list string) Z := A ∪ prefixes p.
Definition under (p : list string) (A : gmap (list string) Z) : Z := wrap64 (sum_under p (map_to_list A)).

Inductive op :=
| OSet (path : string) (n : Z) | OIncr (path : string) (delta : Z) | OClear (path : string)
| OCount (path : string) | ODot (path : string) | OTotal | OChildren (path : string).
Inductive answer := ANone | ANum (n : Z) | ABool (b : bool) | AEntries (l : list Entry).

Definition exec (o : op) (t : Tree) : Tree * answer :=
  match o with
  | OSet path n => (Set_ path n t, ANone)
  | OIncr path delta => let '(t, n) := Incr path delta t in (t, ANum n)
  | OClear path => (Clear path t, ANone)
  | OCount path => (t, ANum (Count path t))
  | ODot path => (t, ABool (Dot path t))
  | OTotal => (t, ANum (Total t))
  | OChildren path => (t, AEntries (Children path t))
  end.

(** [cut] is how the tree splits a path. *)
Definition spec (cut : string -> list string) (o : op) (A : gmap (list string) Z) : gmap (list string) Z * answer :=
  match o with
  | OSet path n => (<[cut path := Z.max n 0]> (touch (cut path) A), ANone)
  | OIncr path delta =>
      let n := Z.max (wrap64 (default 0 (A !! cut path) + delta)) 0 in (<[cut path := n]> (touch (cut path) A), ANum n)
  | OClear path => (map_imap (fun q v => Some (if decide (cut path `prefix_of` q) then 0 else v)) A, ANone)
  | OCount path => (A, ANum (under (cut path) A))
  | ODot path => (A, ABool (0 <? under (cut path) A))
  | OTotal => (A, ANum (under [] A))
  | OChildren path =>
      (A, AEntries ((fun k => MkEntry k (under (cut path ++ [k]) A)) <$>
        omap (fun e => if decide (length e.1 = S (length (cut path)) /\ cut path `prefix_of` e.1) then last e.1 else None) (map_to_list A)))
  end.

(** The children are answered in the order of their names. *)
Definition agree (a b : answer) : Prop :=
  match a, b with AEntries l, AEntries l' => l ≡ₚ l' /\ StronglySorted name_le l | _, _ => a = b end.

(** The arguments are [int64]. *)
Definition fits (o : op) : Prop := match o with OSet _ n | OIncr _ n => int64 n | _ => True end.

Definition stands_for (n : node) (A : gmap (list string) Z) : Prop := wf n /\ forall q, A !! q = count <$> find q n.

Lemma stands_flatten n A : stands_for n A -> map_to_list A ≡ₚ flatten n.
Proof.
  intros [Hw HA]. apply NoDup_Permutation; [apply NoDup_map_to_list|by eapply NoDup_fmap_1, flatten_NoDup|].
  intros [q v]. by rewrite elem_of_map_to_list, HA, find_flatten.
Qed.

Lemma stands_under p n A : stands_for n A -> under p A = match find p n with Some m => aggregate m | None => 0 end.
Proof.
  intros HA. unfold under. rewrite (sum_under_perm p _ _ (stands_flatten n A HA)), sum_find by apply HA.
  destruct (find p n) as [m|] eqn:E; [|done]. symmetry. apply aggregate_sum. destruct HA as [Hw _]. revert n Hw E.
  induction p as [|k p IH]; intros n Hw E; [by injection E as <-|]. cbn [find] in E.
  destruct (child k (children n)) as [c|] eqn:Ec; [|done]. by apply (IH c (wf_child k c n Hw Ec)).
Qed.

Lemma prefixes_lookup p q : prefixes p !! q = if decide (q `prefix_of` p) then Some 0 else None.
Proof.
  unfold prefixes. destruct (decide (q `prefix_of` p)) as [[r ->]|Hq].
  - apply elem_of_list_to_map_1.
    + rewrite <- list_fmap_compose. apply NoDup_fmap_2_strong; [|apply NoDup_seq].
      intros i j Hi%elem_of_seq Hj%elem_of_seq E. cbn in E. apply (f_equal length) in E. rewrite !length_take in E. lia.
    + apply list_elem_of_fmap. exists (length q). rewrite take_app_length. split; [done|]. apply elem_of_seq. rewrite length_app. lia.
  - apply not_elem_of_list_to_map_1. rewrite <- list_fmap_compose. intros (i & -> & _)%list_elem_of_fmap. apply Hq. cbn.
    exists (drop i p). symmetry. apply take_drop.
Qed.

Lemma touch_lookup p A q : touch p A !! q = if decide (q `prefix_of` p) then Some (default 0 (A !! q)) else A !! q.
Proof. unfold touch. rewrite lookup_union, prefixes_lookup. case_decide; by destruct (A !! q). Qed.

Lemma stands_update g b p n A : (forall c, 0 <= c < 2 ^ 63 -> 0 <= g c < 2 ^ 63) -> stands_for n A ->
  stands_for (getOrCreate p b (fun n => set_count (g (count n)) n) n) (<[p := g (default 0 (A !! p))]> (touch p A)).
Proof.
  intros Hg [Hw HA]. split; [by apply getOrCreate_wf|]. intros q. rewrite getOrCreate_find. destruct (decide (q = p)) as [->|Hq].
  - by rewrite lookup_insert_eq, HA.
  - rewrite lookup_insert_ne, touch_lookup, HA by done. done.
Qed.

Lemma stands_clear p n A : stands_for n A ->
  stands_for (modify p clearSubtree n) (map_imap (fun q v => Some (if decide (p `prefix_of` q) then 0 else v)) A).
Proof.
  intros [Hw HA]. split; [by apply modify_wf|]. intros q. rewrite map_lookup_imap, HA, modify_find.
  destruct (find q n); cbn; by case_decide.
Qed.

(** ** The order of names *)

Lemma leb_cons c1 c2 s1 s2 : String.leb (String c1 s1) (String c2 s2) = true <->
  (N_of_ascii c1 < N_of_ascii c2)%N \/ c1 = c2 /\ String.leb s1 s2 = true.
Proof.
  unfold String.leb. cbn [String.compare]. unfold Ascii.compare. destruct (N.compare_spec (N_of_ascii c1) (N_of_ascii c2)) as [E|E|E].
  - assert (c1 = c2) as -> by (rewrite <- (ascii_N_embedding c1), <- (ascii_N_embedding c2); by f_equal). split; [by right|]. intros [?|[_ ?]]; [lia|done].
  - split; [by left|done].
  - split; [done|]. intros [?|[-> _]]; lia.
Qed.

Lemma leb_trans s1 : forall s2 s3, String.leb s1 s2 = true -> String.leb s2 s3 = true -> String.leb s1 s3 = true.
Proof.
  induction s1 as [|c1 s1 IH]; intros [|c2 s2] [|c3 s3]; try done. rewrite !leb_cons.
  intros [H1|[-> H1]] [H2|[-> H2]]; [left; lia|by left|by left|right; split; [done|by eapply IH]].
Qed.

#[export] Instance name_le_trans : Transitive name_le.
Proof. intros a b c. apply leb_trans. Qed.
#[export] Instance name_le_total : base.Total name_le.
Proof. intros a b. apply String.leb_total. Qed.

(** ** The children of a path *)

Lemma take_snoc_inv {A} (q p : list A) : length q = S (length p) -> p `prefix_of` q -> exists k, q = p ++ [k].
Proof.
  intros Hl [r ->]. rewrite length_app in Hl. destruct r as [|k [|k' r]]; cbn in Hl; [lia|by exists k|lia].
Qed.

Lemma find_app p q n : find (p ++ q) n = m ← find p n; find q m.
Proof. revert n. induction p as [|k p IH]; intros n; [done|]. cbn [app find]. destruct (child k (children n)); [apply IH|done]. Qed.

Lemma find_wf p : forall n m, wf n -> find p n = Some m -> wf m.
Proof.
  induction p as [|k p IH]; intros n m Hn E; [by injection E as <-|]. cbn [find] in E. destruct (child k (children n)) as [c|] eqn:Ec; [|done].
  by apply (IH c m (wf_child k c n Hn Ec)).
Qed.

(** The names below a path. *)
Definition names (p : list string) (A : gmap (list string) Z) : list string :=
  omap (fun e => if decide (length e.1 = S (length p) /\ p `prefix_of` e.1) then last e.1 else None) (map_to_list A).

Lemma names_elem p A k : k ∈ names p A <-> is_Some (A !! (p ++ [k])).
Proof.
  unfold names. rewrite list_elem_of_omap. split.
  - intros ([q v] & Hq & E). cbn [fst] in E. case_decide as Hd; [|done]. destruct Hd as [Hl Hp]. destruct (take_snoc_inv q p Hl Hp) as [k' ->].
    rewrite last_snoc in E. injection E as ->. apply elem_of_map_to_list in Hq. by eexists.
  - intros [v E]. exists (p ++ [k], v). split; [by apply elem_of_map_to_list|]. cbn [fst].
    rewrite decide_True, last_snoc; [done|]. split; [rewrite length_app; cbn; lia|by exists [k]].
Qed.

Lemma names_NoDup p A : NoDup (names p A).
Proof.
  unfold names. pose proof (NoDup_fst_map_to_list A) as Hn. induction (map_to_list A) as [|[q v] l IH]; [constructor|].
  rewrite fmap_cons in Hn. apply NoDup_cons in Hn as [Hq Hn]. specialize (IH Hn). cbn [omap list_omap]. case_decide as Hd; [|done].
  destruct Hd as [Hl Hp]. cbn [fst] in *. destruct (take_snoc_inv q p Hl Hp) as [k ->]. rewrite last_snoc. constructor; [|done].
  intros ([q' v'] & Hin & E)%list_elem_of_omap. cbn [fst] in E. case_decide as Hd; [|done]. destruct Hd as [Hl' Hp'].
  destruct (take_snoc_inv q' p Hl' Hp') as [k' ->]. rewrite last_snoc in E. injection E as ->. apply Hq. apply list_elem_of_fmap. by exists (p ++ [k], v').
Qed.

Lemma children_names p n m A : stands_for n A -> find p n = Some m -> (children m).*1 ≡ₚ names p A.
Proof.
  intros [Hw HA] E. apply NoDup_Permutation; [apply (wf_children m (find_wf p n m Hw E))|apply names_NoDup|]. intros k.
  rewrite names_elem, HA, find_app, E. cbn [mbind option_bind find].
  assert (k ∈ (children m).*1 <-> is_Some (child k (children m))) as ->.
  { clear. induction (children m) as [|[k' c] cs IH]; [cbn; split; [by intros ?%elem_of_nil|by intros []]|]. rewrite fmap_cons, elem_of_cons, IH. cbn [child fst].
    case_decide as Hd; [split; [by eexists|by left]|]. split; [by intros [->|?]|by right]. }
  destruct (child k (children m)); cbn; split; intros []; try done; by eexists.
Qed.

Lemma Children_agree path t A : stands_for (root t) A ->
  agree (AEntries (Children path t)) (spec (split t) (OChildren path) A).2.
Proof.
  intros HA. cbn [spec snd agree]. fold (names (split t path) A). unfold Children. destruct (find (split t path) (root t)) as [m|] eqn:E.
  - split; [|apply (StronglySorted_merge_sort name_le)]. rewrite merge_sort_Permutation, <- (children_names _ _ m A HA E), <- list_fmap_compose.
    apply reflexive_eq, list_fmap_ext. intros i [k c] Hi. cbn. f_equal. rewrite (stands_under _ _ A HA), find_app, E. cbn [mbind option_bind find].
    pose proof (find_wf _ _ m (proj1 HA) E) as Hm. rewrite (proj2 (child_elem k (children m) c (proj1 (wf_children m Hm)))); [done|]. by eapply list_elem_of_lookup_2.
  - split; [|constructor]. replace (names (split t path) A) with (@nil string); [done|]. symmetry. apply elem_of_nil_inv. intros k [v Hk]%names_elem.
    destruct HA as [_ HA]. rewrite HA, find_app, E in Hk. by cbn in Hk.
Qed.

Lemma exec_stands o t A : stands_for (root t) A -> fits o ->
  sep (exec o t).1 = sep t /\ stands_for (root (exec o t).1) (spec (split t) o A).1 /\ agree (exec o t).2 (spec (split t) o A).2.
Proof.
  intros HA Hf. assert (forall n, 0 <= Z.max n 0) by lia.
  destruct o as [path n|path delta|path|path|path| |path]; cbn [exec fits] in *; try (split; [done|]).
  - split; [|done]. unfold Set_, with_root. cbn [root fst spec]. replace (if n <? 0 then 0 else n) with (Z.max n 0) by case_all.
    apply (stands_update (fun _ => Z.max n 0)); [|done]. unfold int64 in Hf. lia.
  - unfold Incr, with_root. cbn [fst snd root sep spec].
    pose proof (stands_update (fun c => Z.max (wrap64 (c + delta)) 0) true (split t path) (root t) A) as Hs. cbv beta in Hs.
    assert (forall c, 0 <= c < 2 ^ 63 -> 0 <= Z.max (wrap64 (c + delta)) 0 < 2 ^ 63) as Hr by (intros c _; pose proof (wrap64_range (c + delta)); unfold int64 in *; lia).
    specialize (Hs Hr HA). split; [exact Hs|]. cbn [agree]. destruct Hs as [_ Hs]. specialize (Hs (split t path)). rewrite lookup_insert_eq in Hs.
    unfold split in *. cbn [sep] in *. rewrite <- Hs. done.
  - split; [|done]. by apply stands_clear.
  - split; [done|]. cbn. unfold Count. by rewrite (stands_under _ _ A HA).
  - split; [done|]. cbn. unfold Dot, Count. by rewrite (stands_under _ _ A HA).
  - split; [done|]. cbn. unfold Total. by rewrite (stands_under [] _ A HA).
  - split; [done|]. by apply Children_agree.
Qed.

Fixpoint outputs (ops : list op) (t : Tree) : list answer :=
  match ops with [] => [] | o :: ops => let '(t, a) := exec o t in a :: outputs ops t end.
Fixpoint spec_outputs (cut : string -> list string) (ops : list op) (A : gmap (list string) Z) : list answer :=
  match ops with [] => [] | o :: ops => let '(A, a) := spec cut o A in a :: spec_outputs cut ops A end.

(** In every history of calls the tree answers as a map from paths to counts: what a node counts is
    the sum, as an [int64], of the counts of the paths it is a prefix of; a path is cleared with all it
    is a prefix of; the children of a path are the names that extend it by one, in order. *)
Theorem reddot_refines s ops : Forall fits ops -> let t := New [WithSeparator s] in
  Forall2 agree (outputs ops t) (spec_outputs (split t) ops {[ [] := 0 ]}).
Proof.
  intros Hf t. assert (stands_for (root t) {[ [] := 0 ]}) as HA.
  { subst t. unfold New, WithSeparator. cbn [foldl]. assert (stands_for (Node "" [] 0 false) {[ [] := 0 ]}); [|by case_match].
    split; [constructor; [constructor|lia|constructor]|]. intros [|k q]; [by rewrite lookup_singleton_eq|by rewrite lookup_singleton_ne]. }
  assert (forall ops t0 A, sep t0 = sep t -> stands_for (root t0) A -> Forall fits ops ->
    Forall2 agree (outputs ops t0) (spec_outputs (split t) ops A)) as H; [|by apply H].
  clear. induction ops as [|o ops IH]; intros t0 A Es HA Hf; cbn [outputs spec_outputs]; [constructor|]. apply Forall_cons in Hf as [Ho Hf].
  assert (split t = split t0) as -> by (unfold split; by rewrite Es). destruct (exec_stands o t0 A HA Ho) as (Es' & HA' & Ha).
  destruct (exec o t0) as [t1 a], (spec (split t0) o A) as [A1 b] eqn:E. cbn [fst snd] in *. constructor; [done|].
  assert (split t0 = split t) as -> by (unfold split; by rewrite Es). apply IH; [congruence|done|done].
Qed.

(** * Runs *)

Definition demo_ops : list op :=
  [OSet "me/msg/chat" 3; OSet "me/msg/mail" 2; OIncr "/me/friend/" 1; OCount "me"; OChildren "me"; OClear "me/msg"; OTotal; ODot "me/msg"].

Lemma reddot_refines_witness :
  outputs demo_ops (New [WithSeparator "/"]) =
    [ANone; ANone; ANum 1; ANum 6; AEntries [MkEntry "friend" 1; MkEntry "msg" 5]; ANone; ANum 1; ABool false] /\
  Forall2 agree (outputs demo_ops (New [WithSeparator "/"])) (spec_outputs (split (New [WithSeparator "/"])) demo_ops {[ [] := 0 ]}).
Proof.
  split; [vm_compute; reflexivity|]. apply reddot_refines. repeat constructor; cbn; unfold int64; lia.
Defined.

(** The ends of a path are trimmed of every character of the separator, not of the separator: with
    ["--"] the paths ["-x"] and ["x"], neither of which has a separator, are one. *)
Lemma separator_trimmed_as_set :
  let t := Set_ "-x" 5 (New [WithSeparator "--"]) in Count "x" t = 5 /\ split t "-x" = ["x"].
Proof. split; vm_compute; reflexivity. Qed.

(** A node with children can be set, and counts on top of them. *)
Lemma inner_node_set : Count "me" (Set_ "me" 10 (Set_ "me/msg" 1 (New []))) = 11.
Proof. vm_compute. reflexivity. Qed.

(** The sum wraps: with unread counts everywhere the root shows no dot. *)
Lemma sum_wraps :
  let t := Set_ "b" 1 (Set_ "a" maxInt64 (New [])) in Total t = minInt64 /\ Dot "" t = false.
Proof. split; vm_compute; reflexivity. Qed.
