(* ===== verification/Ability.v ===== *)
(** Casting of abilities ([pkg/ability/ability.go]): cooldown, resources, phases run one after the
    other, one tick at a time. *)
From Stdlib Require Import ZArith Lia Bool.
From stdpp Require Import base numbers strings list gmap fin_maps.
From S2P Require Import Prelude Float64.

Open Scope Z_scope.

Inductive PhaseStatus := PhaseRunning | PhaseComplete | PhaseCancelled.
#[export] Instance PhaseStatus_eq_dec : EqDecision PhaseStatus.
Proof. solve_decision. Defined.

Inductive CastState := Idle | Casting | CooldownState.
#[export] Instance CastState_eq_dec : EqDecision CastState.
Proof. solve_decision. Defined.

Inductive CastError := ErrBusy | ErrOnCooldown | ErrNoResource | ErrNoPhases.
#[export] Instance CastError_eq_dec : EqDecision CastError.
Proof. solve_decision. Defined.
Definition Error_ (e : CastError) : string :=
  match e with
  | ErrBusy => "ability: caster is busy"
  | ErrOnCooldown => "ability: skill on cooldown"
  | ErrNoResource => "ability: insufficient resources"
  | ErrNoPhases => "ability: skill has no phases"
  end.

Record Cue := MkCue { cTag : string; Asset : string; cValue : float64 }.

Section ability.
(** Entities, resources, and the world in which phases and resources keep their state. *)
Context {E R W : Type}.

Record Effect := MkEffect { eTag : string; eValue : float64; Source : E; Target : E }.
Record PhaseResult := MkResult { Status : PhaseStatus; pEffects : list Effect; pCues : list Cue }.

(** [Phase]: the two methods of an object of the world. *)
Record Phase := MkPhase { pTick : Z -> W -> W * PhaseResult; pReset : W -> W }.
Definition PhaseFunc (f : Z -> W -> W * PhaseResult) : Phase := MkPhase f (fun w => w).

Record Cost := MkCost { Resource : R; Amount : float64 }.
Record Spec := MkSpec { ID : string; Costs : list Cost; CooldownTick : Z; Phases : list Phase }.

Record ResourceChecker := MkChecker { CanAfford : E -> list Cost -> W -> W * bool; Spend : E -> list Cost -> W -> W }.
Definition ResourceFunc (check : option (E -> list Cost -> W -> W * bool)) (spend : option (E -> list Cost -> W -> W)) : ResourceChecker :=
  MkChecker (fun e cs w => match check with Some f => f e cs w | None => (w, true) end)
            (fun e cs w => match spend with Some f => f e cs w | None => w end).

Record Runner := MkRunner {
  caster : E; res : ResourceChecker; state : CastState; current : option Spec; phaseIdx : Z; cooldowns : gmap string Z
}.

Definition NewRunner (e : E) (c : ResourceChecker) : Runner := MkRunner e c Idle None 0 ∅.

Definition with_cast (s : CastState) (c : option Spec) (i : Z) (r : Runner) : Runner :=
  MkRunner (caster r) (res r) s c i (cooldowns r).

(** [frame] is a [uint64]. *)
Definition Cast (skill : Spec) (frame : Z) (r : Runner) (w : W) : Runner * W * option CastError :=
  if bool_decide (state r = Casting) then (r, w, Some ErrBusy)
  else if bool_decide (length (Phases skill) = 0%nat) then (r, w, Some ErrNoPhases)
  else if match cooldowns r !! ID skill with Some cdEnd => frame <? cdEnd | None => false end then (r, w, Some ErrOnCooldown)
  else
    let '(w, ok) := CanAfford (res r) (caster r) (Costs skill) w in
    if negb ok then (r, w, Some ErrNoResource)
    else
      let w := Spend (res r) (caster r) (Costs skill) w in
      let w := foldl (fun w p => pReset p w) w (Phases skill) in
      (with_cast Casting (Some skill) 0 r, w, None).

Record TickResult := MkTick { Active : bool; Effects : list Effect; Cues : list Cue; Done : bool; Cancelled : bool }.

Definition finishCast (frame : Z) (s : Spec) (r : Runner) : Runner :=
  let cds := if 0 <? CooldownTick s then <[ID s := wrapu64 (frame + wrapu64 (CooldownTick s))]> (cooldowns r) else cooldowns r in
  MkRunner (caster r) (res r) Idle None 0 cds.
Definition cancelCast (r : Runner) : Runner := with_cast Idle None 0 r.

Definition inactive : TickResult := MkTick false [] [] false false.

Definition Tick (frame : Z) (r : Runner) (w : W) : go (Runner * W * TickResult) :=
  match current r with
  | Some s =>
      if negb (bool_decide (state r = Casting)) then Ret (r, w, inactive)
      else
        phase ← index (Phases s) (phaseIdx r);
        let '(w, pr) := pTick phase frame w in
        match Status pr with
        | PhaseComplete =>
            let i := phaseIdx r + 1 in
            if Z.of_nat (length (Phases s)) <=? i
            then Ret (finishCast frame s r, w, MkTick true (pEffects pr) (pCues pr) true false)
            else Ret (with_cast (state r) (current r) i r, w, MkTick true (pEffects pr) (pCues pr) false false)
        | PhaseCancelled => Ret (cancelCast r, w, MkTick true (pEffects pr) (pCues pr) false true)
        | PhaseRunning => Ret (r, w, MkTick true (pEffects pr) (pCues pr) false false)
        end
  | None => Ret (r, w, inactive)
  end.

Definition Cancel (r : Runner) : Runner := if bool_decide (state r = Casting) then cancelCast r else r.
Definition State (r : Runner) : CastState := state r.
Definition IsIdle (r : Runner) : bool := bool_decide (state r = Idle).
Definition CurrentSkill (r : Runner) : string :=
  match current r with Some s => if bool_decide (state r = Casting) then ID s else "" | None => "" end.
Definition CooldownRemaining (skillID : string) (frame : Z) (r : Runner) : Z :=
  match cooldowns r !! skillID with
  | None => 0
  | Some cdEnd => if cdEnd <=? frame then 0 else wrap64 (wrapu64 (cdEnd - frame))
  end.

(** * Histories *)

Inductive op := OCast (s : Spec) (frame : Z) | OTick (frame : Z) | OCancel.

(** What the phase of the cast under way answers to a tick. *)
Definition next_result (frame : Z) (r : Runner) (w : W) : option PhaseResult :=
  s ← current r; if decide (state r = Casting) then p ← Phases s !! Z.to_nat (phaseIdx r); Some (pTick p frame w).2 else None.

(** Ghost state: how the phases ended their ticks since the cast began, and the frame at which each
    skill was last done, with its cooldown. *)
Record ghost := MkGhost { trace : list PhaseStatus; lastDone : gmap string (Z * Z) }.

Definition exec (o : op) (x : Runner * W * ghost) : go (Runner * W * ghost) :=
  let '(r, w, g) := x in
  match o with
  | OCast s frame =>
      let '(r, w, e) := Cast s frame r w in
      Ret (r, w, match e with None => MkGhost [] (lastDone g) | Some _ => g end)
  | OTick frame =>
      y ← Tick frame r w;
      let '(r', w', a) := y in
      let tr := match next_result frame r w with Some pr => trace g ++ [Status pr] | None => trace g end in
      let ld := match current r with Some s => if Done a then <[ID s := (frame, CooldownTick s)]> (lastDone g) else lastDone g | None => lastDone g end in
      Ret (r', w', MkGhost tr ld)
  | OCancel => Ret (Cancel r, w, g)
  end.

Fixpoint run (ops : list op) (x : Runner * W * ghost) : go (Runner * W * ghost) :=
  match ops with [] => Ret x | o :: ops => y ← exec o x; run ops y end.

(** Cooldowns are [int]s. *)
Definition fits (o : op) : Prop := match o with OCast s _ => CooldownTick s < 2 ^ 63 | _ => True end.

Definition completed (tr : list PhaseStatus) : nat := length (filter (fun st => st = PhaseComplete) tr).

(** The cooldown a skill last done at [f] leaves. *)
Definition until (fc : Z * Z) : option Z := if 0 <? fc.2 then Some (wrapu64 (fc.1 + wrapu64 fc.2)) else None.

Definition inv (x : Runner * W * ghost) : Prop :=
  let '(r, _, g) := x in
  match current r with
  | Some s => state r = Casting /\ phaseIdx r = Z.of_nat (completed (trace g)) /\ (completed (trace g) < length (Phases s))%nat /\
      (PhaseCancelled ∉ trace g) /\ CooldownTick s < 2 ^ 63
  | None => state r = Idle /\ phaseIdx r = 0
  end /\
  forall id, match lastDone g !! id with
    | Some fc => fc.2 < 2 ^ 63 /\ (0 < fc.2 -> cooldowns r !! id = until fc)
    | None => cooldowns r !! id = None
    end.

Lemma completed_snoc tr st : completed (tr ++ [st]) = (completed tr + if decide (st = PhaseComplete) then 1 else 0)%nat.
Proof. unfold completed. rewrite filter_app, length_app. cbn [filter list_filter]. by destruct (decide (st = PhaseComplete)). Qed.

(** A tick of a cast under way runs the phase that follows the ones completed, and ends the cast when
    that was the last and is complete, or is cancelled. *)
Lemma Tick_casting frame s r w g : inv (r, w, g) -> current r = Some s ->
  exists p, Phases s !! completed (trace g) = Some p /\ let '(w', pr) := pTick p frame w in
  next_result frame r w = Some pr /\
  Tick frame r w = Ret (match Status pr with
    | PhaseRunning => r
    | PhaseComplete => if decide (S (completed (trace g)) = length (Phases s)) then finishCast frame s r else with_cast Casting (Some s) (phaseIdx r + 1) r
    | PhaseCancelled => cancelCast r
    end, w', MkTick true (pEffects pr) (pCues pr)
      (bool_decide (Status pr = PhaseComplete) && bool_decide (S (completed (trace g)) = length (Phases s))) (bool_decide (Status pr = PhaseCancelled))).
Proof.
  intros [Hc _] Ec. rewrite Ec in Hc. destruct Hc as (Hs & Hi & Hlt & _). destruct (lookup_lt_is_Some_2 _ _ Hlt) as [p Hp]. exists p. split; [done|].
  unfold next_result, Tick. rewrite Ec, Hs. cbn [mbind option_bind]. rewrite decide_True, bool_decide_true, Hi, Nat2Z.id, Hp by done. cbn [negb].
  rewrite (index_lookup _ _ _ Hp). cbn [mbind option_bind go_bind]. destruct (pTick p frame w) as [w' pr]. split; [done|].
  destruct (Status pr) eqn:Est; cbn [andb]; repeat (rewrite bool_decide_true by done || rewrite bool_decide_false by done || idtac); try done.
  destruct (decide (S (completed (trace g)) = length (Phases s))) as [El|El].
  - rewrite (proj2 (Z.leb_le _ _)) by lia. by rewrite (bool_decide_true (S _ = _)).
  - rewrite (proj2 (Z.leb_gt _ _)) by lia. by rewrite (bool_decide_false (S _ = _)).
Qed.
Lemma ability_step_inv o x : inv x -> fits o -> exists y, exec o x = Ret y /\ inv y.
Proof.
  destruct x as [[r w] g]. intros Hx Hf. destruct o as [s frame|frame|]; cbn [exec].
  - destruct Hx as [Hc Hd]. unfold Cast. case_bool_decide as Hs; [by eexists|]. case_bool_decide as Hp; [by eexists|].
    destruct (match cooldowns r !! ID s with Some _ => _ | None => _ end); [by eexists|].
    destruct (CanAfford _ _ _ w) as [w1 ok]. destruct ok; cbn [negb]; [|by eexists]. eexists. split; [done|]. split; [|done].
    cbn. split_and!; try done; [unfold completed; cbn; lia|by intros ?%elem_of_nil].
  - destruct (current r) as [s|] eqn:Ec.
    + destruct (Tick_casting frame s r w g Hx Ec) as (p & Hp & Ht). destruct (pTick p frame w) as [w' pr]. destruct Ht as [Hn ->].
      cbn [mbind go_bind]. rewrite Hn. eexists. split; [done|]. destruct Hx as [Hc Hd]. rewrite Ec in Hc. destruct Hc as (Hs & Hi & Hlt & Hnc & Hcd).
      destruct (Status pr) eqn:Est; cbn [bool_decide andb Done decide decide_rel].
      * rewrite (bool_decide_false (PhaseRunning = PhaseComplete)) by done. cbn [andb]. split; [|done]. rewrite Ec. cbn [trace].
        rewrite completed_snoc, decide_False, Nat.add_0_r by done. split_and!; try done. set_solver.
      * rewrite (bool_decide_true (PhaseComplete = PhaseComplete)) by done. cbn [andb]. destruct (decide (S (completed (trace g)) = length (Phases s))) as [El|El].
        -- rewrite bool_decide_true by done. split; [done|]. intros id. cbn [lastDone finishCast cooldowns]. destruct (decide (ID s = id)) as [<-|Hid].
           ++ rewrite lookup_insert_eq. cbn [fst snd]. split; [done|]. intros Hpos. unfold until. cbn [fst snd].
              rewrite (proj2 (Z.ltb_lt _ _)) by done. by rewrite lookup_insert_eq.
           ++ rewrite lookup_insert_ne by done. specialize (Hd id). destruct (0 <? CooldownTick s); [by rewrite lookup_insert_ne|done].
        -- rewrite (bool_decide_false (S _ = _)) by done. split; [|done]. cbn [current with_cast state phaseIdx trace]. rewrite completed_snoc, decide_True by done.
           split_and!; try done; [lia|lia|set_solver].
      * rewrite (bool_decide_false (PhaseCancelled = PhaseComplete)) by done. split; [|done]. by cbn.
    + unfold Tick. rewrite Ec. cbn [mbind go_bind]. unfold next_result. rewrite Ec. cbn [mbind option_bind]. eexists. split; [done|]. destruct g. exact Hx.
  - eexists. split; [done|]. destruct Hx as [Hc Hd]. unfold Cancel. case_bool_decide as Hs; [|done]. split; [done|exact Hd].
Qed.

Lemma ability_run_inv ops : forall x, inv x -> Forall fits ops -> exists y, run ops x = Ret y /\ inv y.
Proof.
  induction ops as [|o ops IH]; intros x Hx Hf; cbn [run]; [by exists x|]. apply Forall_cons in Hf as [Ho Hf].
  destruct (ability_step_inv o x Hx Ho) as (y & -> & Hy). cbn [mbind go_bind]. by apply IH.
Qed.

Lemma NewRunner_inv e c w : inv (NewRunner e c, w, MkGhost [] ∅).
Proof. split; [done|]. intros id. cbn. by rewrite !lookup_empty. Qed.

(** In every history of casts, ticks and cancellations, whatever the phases do, nothing panics; a
    tick runs the phase that follows those completed since the cast began, the cast ends exactly when
    its last phase completes or one is cancelled, and nothing runs when no cast is under way. *)
Theorem phases_in_order e c w0 ops frame : Forall fits ops ->
  exists r w g, run ops (NewRunner e c, w0, MkGhost [] ∅) = Ret (r, w, g) /\
  match current r with
  | None => state r = Idle /\ Tick frame r w = Ret (r, w, inactive)
  | Some s => state r = Casting /\ exists p, Phases s !! completed (trace g) = Some p /\
      let '(w', pr) := pTick p frame w in
      let last := bool_decide (S (completed (trace g)) = length (Phases s)) in
      let done := bool_decide (Status pr = PhaseComplete) && last in
      exists r', Tick frame r w = Ret (r', w', MkTick true (pEffects pr) (pCues pr) done (bool_decide (Status pr = PhaseCancelled))) /\
      (IsIdle r' = true <-> done = true \/ Status pr = PhaseCancelled)
  end.
Proof.
  intros Hf. destruct (ability_run_inv ops _ (NewRunner_inv e c w0) Hf) as ([[r w] g] & Hr & Hx). exists r, w, g. split; [done|].
  destruct (current r) as [s|] eqn:Ec.
  - pose proof Hx as [Hc _]. rewrite Ec in Hc. destruct Hc as (Hs & _). split; [done|].
    destruct (Tick_casting frame s r w g Hx Ec) as (p & Hp & Ht). exists p. split; [done|]. destruct (pTick p frame w) as [w' pr]. destruct Ht as [_ Ht].
    eexists. split; [exact Ht|]. unfold IsIdle. rewrite bool_decide_eq_true. destruct (Status pr); cbn.
    + rewrite Hs. split; [done|]. by intros [?|?].
    + destruct (decide (S (completed (trace g)) = length (Phases s))) as [El|El]; cbn.
      * rewrite (bool_decide_true (S _ = _)) by done. split; [by left|done].
      * rewrite (bool_decide_false (S _ = _)) by done. split; [done|]. by intros [?|?].
    + split; [by right|done].
  - destruct Hx as [Hc _]. rewrite Ec in Hc. split; [apply Hc|]. unfold Tick. by rewrite Ec.
Qed.

(** In every history, a skill that was done at frame [f] with a cooldown of [c] frames cannot be cast
    before frame [f + c], as long as that is a [uint64]: whatever else happened since, such a cast is
    refused and changes nothing, and [CooldownRemaining] is what is left of the cooldown. *)
Theorem cooldown_respected e c w0 ops skill frame f d : Forall fits ops ->
  exists r w g, run ops (NewRunner e c, w0, MkGhost [] ∅) = Ret (r, w, g) /\
  (lastDone g !! ID skill = Some (f, d) -> 0 < d -> 0 <= f -> f + d < 2 ^ 63 -> 0 <= frame ->
   CooldownRemaining (ID skill) frame r = Z.max 0 (f + d - frame) /\
   (frame < f + d -> exists err, Cast skill frame r w = (r, w, Some err)) /\
   (f + d <= frame -> (Cast skill frame r w).2 <> Some ErrOnCooldown)).
Proof.
  intros Hf. destruct (ability_run_inv ops _ (NewRunner_inv e c w0) Hf) as ([[r w] g] & Hr & Hx). exists r, w, g. split; [done|].
  intros Hl Hd Hf0 Hfd Hfr. destruct Hx as [_ Hx]. specialize (Hx (ID skill)). rewrite Hl in Hx. cbn [snd] in Hx. destruct Hx as [Hd' Hx]. specialize (Hx Hd).
  unfold until in Hx. cbn [fst snd] in Hx. rewrite (proj2 (Z.ltb_lt _ _)), (wrapu64_id d), wrapu64_id in Hx by (done || (unfold uint64; lia)).
  split; [|split].
  - unfold CooldownRemaining. rewrite Hx. destruct (Z.leb_spec (f + d) frame); [lia|].
    rewrite wrapu64_id, wrap64_id by (unfold uint64, int64; lia). lia.
  - intros Hlt. unfold Cast. rewrite Hx, (proj2 (Z.ltb_lt _ _)) by done. case_bool_decide; [by eexists|]. case_bool_decide; by eexists.
  - intros Hge. unfold Cast. rewrite Hx, (proj2 (Z.ltb_ge _ _)) by done. case_bool_decide; [done|]. case_bool_decide; [done|].
    destruct (CanAfford _ _ _ _) as [? []]; done.
Qed.
End ability.

(** * Runs *)

(** Two phases over a counter: the first completes at frame 3, the second at once; a cast costs one. *)
Definition aim : Phase (E := unit) (W := Z) :=
  MkPhase (fun f w => (w, MkResult (if f <? 3 then PhaseRunning else PhaseComplete) [] [])) (fun w => w).
Definition shoot : Phase (E := unit) (W := Z) := PhaseFunc (fun _ w => (w, MkResult PhaseComplete [] [])).
Definition bolt : Spec (E := unit) (R := unit) (W := Z) := MkSpec "bolt" [] 10 [aim; shoot].
Definition mana : ResourceChecker (E := unit) (R := unit) (W := Z) :=
  ResourceFunc (Some (fun _ _ w => (w, 0 <? w))) (Some (fun _ _ w => w - 1)).
Definition demo_ops : list (op (E := unit) (R := unit) (W := Z)) := [OCast bolt 1; OTick 1; OTick 3; OTick 4].

Lemma demo_fits ops : Forall (fun o => o ∈ demo_ops) ops -> Forall fits ops.
Proof.
  intros Hall. eapply Forall_impl; [exact Hall|]. intros o Ho. unfold demo_ops in Ho.
  repeat (apply elem_of_cons in Ho as [->|Ho]; [cbn; lia || exact I|]). by apply elem_of_nil in Ho.
Qed.

Lemma phases_in_order_witness :
  exists r w g, run (take 3 demo_ops) (NewRunner tt mana, 5, MkGhost [] ∅) = Ret (r, w, g) /\
  state r = Casting /\ completed (trace g) = 1%nat /\
  exists r', Tick 4 r w = Ret (r', w, MkTick true [] [] true false) /\ IsIdle r' = true.
Proof.
  destruct (phases_in_order tt mana 5 (take 3 demo_ops) 4) as (r & w & g & Hr & H).
  { apply demo_fits. repeat constructor; unfold demo_ops; set_solver. }
  exists r, w, g. split; [exact Hr|]. vm_compute in Hr. injection Hr as <- <- <-. cbn in H. destruct H as (H1 & p & Hp & H).
  split; [reflexivity|]. split; [reflexivity|]. vm_compute in Hp. injection Hp as <-. cbn in H. destruct H as (r' & Ht & Hi).
  exists r'. split; [exact Ht|]. apply Hi. left. vm_compute. reflexivity.
Defined.

Lemma cooldown_respected_witness :
  exists r w g, run demo_ops (NewRunner tt mana, 5, MkGhost [] ∅) = Ret (r, w, g) /\
  lastDone g !! "bolt" = Some (4, 10) /\ CooldownRemaining "bolt" 9 r = 5 /\ exists err, Cast bolt 9 r w = (r, w, Some err).
Proof.
  destruct (cooldown_respected tt mana 5 demo_ops bolt 9 4 10) as (r & w & g & Hr & H).
  { apply demo_fits. repeat constructor; unfold demo_ops; set_solver. }
  exists r, w, g. split; [exact Hr|]. assert (lastDone g !! "bolt" = Some (4, 10)) as E by (vm_compute in Hr; injection Hr as <- <- <-; reflexivity).
  split; [exact E|]. destruct (H E) as (Hc & Hb & _); [lia|lia|lia|lia|]. split; [exact Hc|]. apply Hb. lia.
Defined.

(** The end of a cooldown is a [uint64]: near the last frame it wraps, and there is no cooldown. *)
Lemma cooldown_wraps :
  let r := finishCast (2 ^ 64 - 5) bolt (NewRunner tt mana) in
  CooldownRemaining "bolt" (2 ^ 64 - 4) r = 0 /\ (Cast bolt (2 ^ 64 - 4) r 5).2 = None.
Proof. split; vm_compute; reflexivity. Qed.
