(* ===== verification/Box.v ===== *)
(** Boxes of numbered messages, the part that [pkg/domain/inbox], [pkg/domain/chat] and
    [pkg/domain/notification] share: a list in the order of its numbers, cut to a capacity when it
    grows, and read in pages by a cursor. *)
From Stdlib Require Import ZArith Lia Bool Sorted.
From stdpp Require Import base numbers strings list gmap sets sorting.
From S2P Require Import Prelude.

Open Scope Z_scope.

Section box.
Context {X : Type} (seq : X -> Z).

(** [box[len(box)-n:]] when the box holds more than [n]. *)
Definition trim (n : Z) (l : list X) : go (list X) :=
  if n <? Z.of_nat (length l)
  then if n <? 0 then Panic "runtime error: slice bounds out of range" else Ret (drop (Z.to_nat (Z.of_nat (length l) - n)) l)
  else Ret l.

(** The first index whose number is at least [target]. *)
Definition lowerBound (l : list X) (target : Z) : go Z :=
  sort_Search (Z.of_nat (length l)) (fun i => x ← index l i; Ret (target <=? seq x)).

(** The loops that collect a page: skip what is out of range, stop once [limit] are collected. *)
Fixpoint collect (keep : X -> bool) (limit n : Z) (l : list X) : list X :=
  match l with
  | [] => []
  | x :: l => if keep x then x :: (if limit <=? n + 1 then [] else collect keep limit (n + 1) l) else collect keep limit n l
  end.
Definition before_page (l : list X) (before limit : Z) : list X :=
  collect (fun x => negb ((0 <? before) && (before <=? seq x))) limit 0 (rev l).
Definition after_page (l : list X) (after limit : Z) : list X :=
  collect (fun x => negb (seq x <=? after)) limit 0 l.

Lemma collect_take keep limit l : forall n, n < limit -> collect keep limit n l = take (Z.to_nat (limit - n)) (List.filter keep l).
Proof.
  induction l as [|x l IH]; intros n Hn; cbn [collect List.filter]; [by rewrite take_nil|]. destruct (keep x); [|by apply IH].
  replace (Z.to_nat (limit - n)) with (S (Z.to_nat (limit - (n + 1)))) by lia. cbn [take]. f_equal.
  destruct (Z.leb_spec limit (n + 1)); [|by apply IH]. by replace (Z.to_nat (limit - (n + 1))) with 0%nat by lia.
Qed.

(** ** Order *)

Definition sorted (l : list X) : Prop := StronglySorted (fun x y => seq x < seq y) l.

Lemma sorted_app l l' : sorted (l ++ l') <-> sorted l /\ sorted l' /\ forall x y, x ∈ l -> y ∈ l' -> seq x < seq y.
Proof.
  unfold sorted. induction l as [|x l IH]; cbn [app].
  - split; [intros ?; split_and!; [constructor|done|by intros ? ? ?%elem_of_nil]|tauto].
  - split.
    + intros [Hs Hx]%StronglySorted_inv. apply IH in Hs as (H1 & H2 & H3). rewrite Forall_app in Hx. destruct Hx as [Hx Hx']. rewrite Forall_forall in Hx'.
      split_and!; [by constructor|done|]. intros y z [->|Hy]%elem_of_cons Hz; [by apply Hx'|by apply H3].
    + intros ([H1 Hx]%StronglySorted_inv & H2 & H3). constructor.
      * apply IH. split_and!; [done|done|]. intros y z Hy Hz. apply H3; [by right|done].
      * apply Forall_app. split; [done|]. apply Forall_forall. intros y Hy. apply H3; [left|done].
Qed.

Lemma box_sorted_drop n l : sorted l -> sorted (drop n l).
Proof. intros Hs. rewrite <- (take_drop n l) in Hs. by apply sorted_app in Hs as (_ & ? & _). Qed.

Lemma box_sorted_snoc l x : sorted l -> (forall y, y ∈ l -> seq y < seq x) -> sorted (l ++ [x]).
Proof.
  intros Hs Hx. apply sorted_app. split_and!; [done|repeat constructor|]. intros y z Hy ->%list_elem_of_singleton. by apply Hx.
Qed.

Lemma sorted_remove l l' x : sorted (l ++ x :: l') -> sorted (l ++ l').
Proof.
  intros (H1 & H2 & H3)%sorted_app. apply sorted_app. apply StronglySorted_inv in H2 as [H2 _]. split_and!; [done|done|].
  intros y z Hy Hz. apply H3; [done|by right].
Qed.

Lemma sorted_filter g l : sorted l -> sorted (List.filter g l).
Proof.
  induction l as [|m l IH]; intros Hs; [done|]. apply StronglySorted_inv in Hs as [Hs Hm]. rewrite Forall_forall in Hm. cbn [List.filter].
  destruct (g m); [|by apply IH]. constructor; [by apply IH|]. rewrite Forall_forall. intros y [Hy _]%list_elem_of_In%filter_In. by apply Hm, list_elem_of_In.
Qed.

Lemma trim_spec n l : 0 <= n -> exists k, trim n l = Ret (drop k l) /\ Z.of_nat (length (drop k l)) <= n /\
  (Z.of_nat (length l) <= n -> k = 0%nat).
Proof.
  intros Hn. unfold trim. destruct (Z.ltb_spec n (Z.of_nat (length l))) as [H|H].
  - rewrite (proj2 (Z.ltb_ge n 0)) by lia. eexists. split; [done|]. rewrite length_drop. split; lia.
  - exists 0%nat. split; [done|]. by rewrite drop_0.
Qed.

(** ** Searching *)

(** Those below a number, and the rest. *)
Definition below (t : Z) (l : list X) : list X := List.filter (fun x => seq x <? t) l.

Lemma filter_all_in (f : X -> bool) l : (forall x, x ∈ l -> f x = true) -> List.filter f l = l.
Proof. induction l as [|x l IH]; intros H; [done|]. cbn. rewrite H by left. f_equal. apply IH. intros y Hy. apply H. by right. Qed.
Lemma filter_no_in (f : X -> bool) l : (forall x, x ∈ l -> f x = false) -> List.filter f l = [].
Proof. induction l as [|x l IH]; intros H; [done|]. cbn. rewrite H by left. apply IH. intros y Hy. apply H. by right. Qed.

Lemma box_split l t : sorted l -> exists a b, l = a ++ b /\ below t l = a /\
  (forall x, x ∈ a -> seq x < t) /\ (forall x, x ∈ b -> t <= seq x).
Proof.
  intros Hs. induction l as [|x l IH]; [exists [], []; split_and!; try done; by intros ? ?%elem_of_nil|].
  apply StronglySorted_inv in Hs as [Hs Hx]. rewrite Forall_forall in Hx. destruct (Z.lt_ge_cases (seq x) t) as [H|H].
  - destruct (IH Hs) as (a & b & -> & E & Ha & Hb). exists (x :: a), b. unfold below in *. cbn [List.filter app].
    rewrite (proj2 (Z.ltb_lt _ _)) by done. split_and!; [done|by rewrite E|set_solver|done].
  - assert (forall y, y ∈ x :: l -> t <= seq y) as Hall by (intros y [->|Hy]%elem_of_cons; [done|specialize (Hx y Hy); lia]).
    exists [], (x :: l). split_and!; [done| |by intros ? ?%elem_of_nil|done].
    apply filter_no_in. intros y Hy. apply Z.ltb_ge. by apply Hall.
Qed.

Lemma lowerBound_spec l t : sorted l -> lowerBound l t = Ret (Z.of_nat (length (below t l))).
Proof.
  intros Hs. destruct (box_split l t Hs) as (a & b & -> & -> & Ha & Hb). unfold lowerBound.
  destruct (sort_Search_spec (fun i => Z.of_nat (length a) <=? i) (fun i => x ← index (a ++ b) i; Ret (t <=? seq x)) (Z.of_nat (length (a ++ b)))) as (r & -> & Hr & H1 & H2).
  - lia.
  - intros k Hk. destruct (lookup_lt_is_Some_2 (a ++ b) (Z.to_nat k)) as [x Hx]; [lia|].
    replace k with (Z.of_nat (Z.to_nat k)) at 1 by lia. rewrite (index_lookup _ _ _ Hx). cbn [mbind go_bind]. f_equal.
    apply eq_true_iff_eq. rewrite !Z.leb_le. apply lookup_app_Some in Hx as [Hx|[Hl Hx]].
    + apply lookup_lt_Some in Hx as Hlt. apply list_elem_of_lookup_2 in Hx. specialize (Ha x Hx). lia.
    + apply list_elem_of_lookup_2 in Hx. specialize (Hb x Hx). lia.
  - intros k k' ? ? ?. lia.
  - f_equal. rewrite length_app in *. destruct (Z.lt_trichotomy r (Z.of_nat (length a))) as [H|[H|H]]; [|done|].
    + specialize (H2 r ltac:(lia)). lia.
    + specialize (H1 (Z.of_nat (length a)) ltac:(lia)). lia.
Qed.

(** What the search finds: the element with that number, if there is one. *)
Lemma lowerBound_found l t : sorted l ->
  match l !! length (below t l) with
  | Some x => if decide (seq x = t) then l = below t l ++ x :: drop (S (length (below t l))) l else forall y, y ∈ l -> seq y <> t
  | None => forall y, y ∈ l -> seq y <> t
  end.
Proof.
  intros Hs. destruct (box_split l t Hs) as (a & b & -> & -> & Ha & Hb). destruct b as [|x b].
  - rewrite app_nil_r in *. rewrite lookup_ge_None_2 by lia. intros y Hy. specialize (Ha y Hy). lia.
  - rewrite list_lookup_middle by done. case_decide as Hx.
    + f_equal. rewrite drop_app_ge by lia. by replace (S (length a) - length a)%nat with 1%nat by lia.
    + apply sorted_app in Hs as (_ & [_ Hf]%StronglySorted_inv & _). rewrite Forall_forall in Hf.
      intros y [Hy|[->|Hy]%elem_of_cons]%elem_of_app; [specialize (Ha y Hy); lia|done|]. specialize (Hf y Hy). specialize (Hb x ltac:(left)). lia.
Qed.

(** ** Pages *)

(** The last of a list that is not empty. *)
Fixpoint last_of (x : X) (p : list X) : X := match p with [] => x | y :: p => last_of y p end.

(** Turning the pages: the cursor of the next is the number of the last message read. *)
Fixpoint turn (fuel : nat) (page : Z -> list X) (cursor : Z) : list X :=
  match fuel with
  | O => []
  | S fuel => match page cursor with [] => [] | x :: p => (x :: p) ++ turn fuel page (seq (last_of x p)) end
  end.

Lemma last_app_cons (p : list X) : forall x, exists q, x :: p = q ++ [last_of x p].
Proof.
  induction p as [|y p IH]; intros x; [by exists []|]. destruct (IH y) as [q E]. exists (x :: q). cbn [app last_of]. by rewrite E at 1.
Qed.

Lemma turn_ext page page' fuel : forall c, (forall c, page c = page' c) -> turn fuel page c = turn fuel page' c.
Proof. induction fuel as [|fuel IH]; intros c H; [done|]. cbn [turn]. rewrite H. destruct (page' c); [done|]. by rewrite IH. Qed.

(** A page is the first of what remains, and turning it leaves the rest. *)
Lemma turn_all (rest : Z -> list X) limit : (0 < limit)%nat ->
  (forall c q y r, rest c = q ++ y :: r -> rest (seq y) = r) ->
  forall fuel c, (length (rest c) < fuel)%nat -> turn fuel (fun c => take limit (rest c)) c = rest c.
Proof.
  intros Hl Hrest. induction fuel as [|fuel IH]; intros c Hf; [lia|]. cbn [turn].
  destruct (take limit (rest c)) as [|x p] eqn:E.
  - destruct (rest c); [done|]. destruct limit; [lia|done].
  - destruct (last_app_cons p x) as [q Eq]. pose proof (take_drop limit (rest c)) as Etd. rewrite E, Eq, <- app_assoc in Etd. cbn [app] in Etd.
    pose proof (Hrest c q _ _ (eq_sym Etd)) as Hr. rewrite IH.
    + rewrite Hr. rewrite <- (take_drop limit (rest c)) at 2. by rewrite E.
    + rewrite Hr. apply (f_equal length) in Etd. rewrite length_app in Etd. cbn in Etd. lia.
Qed.

Lemma sorted_below l t : sorted l -> sorted (below t l).
Proof. intros Hs. destruct (box_split l t Hs) as (a & b & -> & -> & _). by apply sorted_app in Hs as (? & _). Qed.

Lemma below_below l a y b t : sorted l -> below t l = a ++ y :: b -> below (seq y) l = a.
Proof.
  intros Hs E. destruct (box_split l t Hs) as (a' & b' & -> & E' & Ha & Hb). rewrite E' in E. subst a'.
  rewrite <- app_assoc in Hs. cbn [app] in Hs. unfold below. rewrite <- app_assoc, List.filter_app. cbn [app].
  apply sorted_app in Hs as (H1 & H2 & H3). apply StronglySorted_inv in H2 as [_ Hf]. rewrite Forall_forall in Hf.
  rewrite filter_all_in, filter_no_in; [by rewrite app_nil_r| |].
  - intros x [->|Hx]%elem_of_cons; apply Z.ltb_ge; [lia|specialize (Hf x Hx); lia].
  - intros x Hx. apply Z.ltb_lt. apply H3; [done|left].
Qed.

(** Above a number. *)
Definition above (t : Z) (l : list X) : list X := List.filter (fun x => negb (seq x <=? t)) l.

Lemma above_above l a y b t : sorted l -> above t l = a ++ y :: b -> above (seq y) l = b.
Proof.
  intros Hs E. destruct (box_split l (t + 1) Hs) as (a' & b' & -> & _ & Ha & Hb).
  assert (above t (a' ++ b') = b') as E'.
  { unfold above. rewrite List.filter_app, filter_no_in, filter_all_in; [done| |].
    - intros x Hx. specialize (Hb x Hx). apply negb_true_iff, Z.leb_gt. lia.
    - intros x Hx. specialize (Ha x Hx). apply negb_false_iff, Z.leb_le. lia. }
  rewrite E' in E. subst b'. unfold above. apply sorted_app in Hs as (_ & Hs & _). apply sorted_app in Hs as (_ & Hs & Hay).
  apply StronglySorted_inv in Hs as [_ Hf]. rewrite Forall_forall in Hf. rewrite !List.filter_app. cbn [List.filter].
  rewrite (filter_no_in _ a'), (filter_no_in _ a), (proj2 (Z.leb_le _ _)), filter_all_in; [done| |lia| |].
  - intros x Hx. specialize (Hf x Hx). apply negb_true_iff, Z.leb_gt. lia.
  - intros x Hx. apply negb_false_iff, Z.leb_le. specialize (Hay x y Hx ltac:(left)). lia.
  - intros x Hx. apply negb_false_iff, Z.leb_le. specialize (Ha x Hx). specialize (Hb y ltac:(set_solver)). lia.
Qed.

(** Numbers from one on. *)
Definition positive (l : list X) : Prop := forall x, x ∈ l -> 0 < seq x.

(** Turning pages downwards from the newest reads the box from its end, upwards from zero from its
    start: every message once, in pages of any size. *)
Lemma turn_down l limit fuel : sorted l -> positive l -> 0 < limit -> (length l < fuel)%nat ->
  turn fuel (fun c => before_page l c limit) 0 = rev l.
Proof.
  intros Hs Hp Hl Hf. set (rest := fun c => if decide (0 < c) then rev (below c l) else rev l).
  assert (forall c, before_page l c limit = take (Z.to_nat limit) (rest c)) as Hpage.
  { intros c. unfold before_page, rest. rewrite collect_take, Z.sub_0_r by done. f_equal. destruct (decide (0 < c)) as [Hc|Hc].
    - unfold below. rewrite List.filter_rev. f_equal. apply List.filter_ext. intros x. rewrite (proj2 (Z.ltb_lt _ _)) by done.
      cbn [andb]. by rewrite Z.leb_antisym, negb_involutive.
    - apply filter_all_in. intros x _. by rewrite (proj2 (Z.ltb_ge _ _)) by lia. }
  assert (turn fuel (fun c => before_page l c limit) 0 = turn fuel (fun c => take (Z.to_nat limit) (rest c)) 0) as ->.
  { by apply turn_ext. }
  rewrite turn_all; [unfold rest; by rewrite decide_False by lia|lia| |unfold rest; rewrite decide_False by lia; by rewrite length_rev].
  intros c q y r E. unfold rest in *.
  assert (y ∈ l) as Hy.
  { assert (y ∈ q ++ y :: r) as Hy by set_solver. rewrite <- E in Hy. case_decide; [|by apply list_elem_of_In, in_rev, list_elem_of_In].
    apply list_elem_of_In, in_rev, filter_In in Hy as [Hy _]. by apply list_elem_of_In. }
  rewrite decide_True by (by apply Hp). apply (f_equal (@rev X)) in E. rewrite rev_app_distr in E. cbn [rev] in E. rewrite <- app_assoc in E. cbn [app] in E.
  case_decide; rewrite rev_involutive in E.
  - rewrite (below_below l _ y _ c Hs E). apply rev_involutive.
  - destruct l as [|z l']; [by apply elem_of_nil in Hy|]. destruct (last_app_cons l' z) as [q' Eq'].
    assert (below (seq (last_of z l') + 1) (z :: l') = z :: l') as El.
    { unfold below. apply filter_all_in. intros x Hx. apply Z.ltb_lt. rewrite Eq' in Hs, Hx.
      apply sorted_app in Hs as (_ & _ & H3). apply elem_of_app in Hx as [Hx| ->%list_elem_of_singleton]; [specialize (H3 x _ Hx ltac:(left)); lia|lia]. }
    rewrite <- El in E at 1. rewrite (below_below _ _ y _ _ Hs E). apply rev_involutive.
Qed.

Lemma turn_up l limit fuel : sorted l -> positive l -> 0 < limit -> (length l < fuel)%nat ->
  turn fuel (fun c => after_page l c limit) 0 = l.
Proof.
  intros Hs Hp Hl Hf. assert (above 0 l = l) as E0.
  { apply filter_all_in. intros x Hx. specialize (Hp x Hx). apply negb_true_iff, Z.leb_gt. lia. }
  assert (forall c, after_page l c limit = take (Z.to_nat limit) (above c l)) as Hpage
    by (intros c; unfold after_page; by rewrite collect_take, Z.sub_0_r).
  rewrite (turn_ext _ _ fuel 0 Hpage), (turn_all (fun c => above c l) (Z.to_nat limit)); [done|lia| |by rewrite E0].
  intros c q y r E. by eapply above_above.
Qed.

(** ** Boxes by owner *)

(** Each box is in order, within its capacity, and numbered up to the counter of its owner. *)
Definition numbered (max : Z) (boxes : gmap string (list X)) (nums : gmap string Z) : Prop :=
  (forall u, 0 <= default 0 (nums !! u)) /\
  forall u l, boxes !! u = Some l -> sorted l /\ Z.of_nat (length l) <= max /\ forall x, x ∈ l -> 0 < seq x <= default 0 (nums !! u).

Lemma numbered_empty max : numbered max ∅ ∅.
Proof. split; [intros u; by rewrite lookup_empty|]. intros u l E. by rewrite lookup_empty in E. Qed.

Lemma numbered_box max boxes nums u : 0 <= max -> numbered max boxes nums ->
  let l := default [] (boxes !! u) in sorted l /\ Z.of_nat (length l) <= max /\ forall x, x ∈ l -> 0 < seq x <= default 0 (nums !! u).
Proof.
  intros Hm [_ Hn]. destruct (boxes !! u) as [l|] eqn:E; [by apply Hn|]. cbn. split_and!; [constructor|done|by intros x ?%elem_of_nil].
Qed.

(** A box replaced by one with some of its numbers, in order. *)
Lemma numbered_insert max boxes nums u l : numbered max boxes nums -> sorted l -> Z.of_nat (length l) <= max ->
  (forall x, x ∈ l -> 0 < seq x <= default 0 (nums !! u)) -> numbered max (<[u := l]> boxes) nums.
Proof.
  intros [H0 Hn] Hs Hl Hx. split; [done|]. intros u' l' [[<- <-]|[_ E]]%lookup_insert_Some; [done|by apply Hn].
Qed.

Lemma numbered_delete max boxes nums u : numbered max boxes nums -> numbered max (delete u boxes) nums.
Proof. intros [H0 Hn]. split; [done|]. intros u' l' [_ E]%lookup_delete_Some. by apply Hn. Qed.

(** A message with the next number at the end, and the box cut. *)
Lemma numbered_append max boxes nums u x : 0 <= max -> numbered max boxes nums -> seq x = default 0 (nums !! u) + 1 ->
  exists k, trim max (default [] (boxes !! u) ++ [x]) = Ret (drop k (default [] (boxes !! u) ++ [x])) /\
  numbered max (<[u := drop k (default [] (boxes !! u) ++ [x])]> boxes) (<[u := seq x]> nums).
Proof.
  intros Hm Hn Hx. destruct (numbered_box max boxes nums u Hm Hn) as (Hs & Hl & Hb). set (l := default [] (boxes !! u)) in *.
  destruct (trim_spec max (l ++ [x]) Hm) as (k & -> & Hk & _). exists k. split; [done|]. destruct Hn as [H0 Hn]. pose proof (H0 u).
  split.
  - intros u'. destruct (decide (u = u')) as [<-|Hd]; [rewrite lookup_insert_eq; cbn; lia|rewrite lookup_insert_ne by done; apply H0].
  - intros u' l' [[<- <-]|[Hd E]]%lookup_insert_Some; [rewrite lookup_insert_eq|rewrite lookup_insert_ne by done; by apply Hn].
    cbn [default from_option]. unfold id. split_and!; [|done|].
    + apply box_sorted_drop, box_sorted_snoc; [done|]. intros y Hy. specialize (Hb y Hy). lia.
    + intros y Hy. assert (y ∈ l ++ [x]) as [Hy'| ->%list_elem_of_singleton]%elem_of_app; [|specialize (Hb y Hy'); lia|lia].
      rewrite <- (take_drop k (l ++ [x])). apply elem_of_app. by right.
Qed.

(** ** Identifiers *)

(** In the order of a box the identifiers increase too, and none is above the counter. *)
Definition identified (key : X -> Z) (c : Z) (boxes : gmap string (list X)) : Prop :=
  forall u, StronglySorted (fun x y => key x < key y) (default [] (boxes !! u)) /\ forall m, m ∈ default [] (boxes !! u) -> key m <= c.

Lemma identified_empty key c : identified key c ∅.
Proof. intros u. rewrite lookup_empty. split; [constructor|by intros m ?%elem_of_nil]. Qed.

Lemma identified_mono key c c' boxes : identified key c boxes -> c <= c' -> identified key c' boxes.
Proof. intros H Hc u. destruct (H u) as [H1 H2]. split; [done|]. intros m Hm. specialize (H2 m Hm). lia. Qed.

Lemma identified_insert key c boxes u l : identified key c boxes -> StronglySorted (fun x y => key x < key y) l -> (forall m, m ∈ l -> key m <= c) ->
  identified key c (<[u := l]> boxes).
Proof.
  intros H Hs Hl u'. destruct (decide (u = u')) as [<-|Hd]; [by rewrite lookup_insert_eq|by rewrite lookup_insert_ne].
Qed.

Lemma identified_delete key c boxes u : identified key c boxes -> identified key c (delete u boxes).
Proof.
  intros H u'. destruct (decide (u = u')) as [<-|Hd]; [rewrite lookup_delete_eq|by rewrite lookup_delete_ne].
  split; [constructor|by intros m ?%elem_of_nil].
Qed.
End box.

Lemma identified_append {X} (key : X -> Z) c boxes u x k : identified key c boxes -> key x = c + 1 ->
  identified key (c + 1) (<[u := drop k (default [] (boxes !! u) ++ [x])]> boxes).
Proof.
  intros H Hx. destruct (H u) as [Hs Hl]. apply identified_insert; [eapply identified_mono; [exact H|lia]| |].
  - apply (box_sorted_drop key), (box_sorted_snoc key); [done|]. intros y Hy. specialize (Hl y Hy). lia.
  - intros y Hy. assert (y ∈ default [] (boxes !! u) ++ [x]) as Hy' by (rewrite <- (take_drop k (_ ++ [x])); apply elem_of_app; by right).
    apply elem_of_app in Hy' as [Hy'| ->%list_elem_of_singleton]; [specialize (Hl y Hy'); lia|lia].
Qed.
