(* ===== verification/Inbox.v ===== *)
(** Offline messages between users ([pkg/domain/inbox/inbox.go]): a box per user on [Box], with read
    marks and pages by a cursor. *)
From Stdlib Require Import ZArith Lia Bool Sorted.
From stdpp Require Import base numbers strings list gmap sets sorting.
From S2P Require Import Prelude Box.

Open Scope Z_scope.

(** A message is shared with the sender and the sink by its pointer; only the store writes to it. *)
Record Message := MkMessage {
  ID : Z; OwnerID : string; FromID : string; Type_ : string; Content : string; Seq : Z; Read : bool; CreateTime : Z
}.

(** [live] says whether a sink was given; what it is handed is an output. *)
Record Store := MkStore {
  byUser : gmap string (list Message); byUserSeq : gmap string Z; seq : Z; live : bool; maxPerBox : Z
}.

Definition WithMaxPerBox (n : Z) (c : Z) : Z := n.
Definition New (sink : bool) (opts : list (Z -> Z)) : Store := MkStore ∅ ∅ 0 sink (foldl (fun c o => o c) 500 opts).

Definition with_box (u : string) (l : list Message) (s : Store) : Store :=
  MkStore (<[u := l]> (byUser s)) (byUserSeq s) (seq s) (live s) (maxPerBox s).
Definition box (u : string) (s : Store) : list Message := default [] (byUser s !! u).

(** [Send]: the identifier, taken before the lock, and the part under the lock. *)
Definition take_id (s : Store) : Store * Z :=
  let id := wrap64 (seq s + 1) in (MkStore (byUser s) (byUserSeq s) id (live s) (maxPerBox s), id).
Definition store_message (id now : Z) (toID fromID msgType content : string) (s : Store) : go (Store * Message) :=
  let n := wrap64 (default 0 (byUserSeq s !! toID) + 1) in
  let m := MkMessage id toID fromID msgType content n false now in
  l ← trim (maxPerBox s) (box toID s ++ [m]);
  Ret (MkStore (<[toID := l]> (byUser s)) (<[toID := n]> (byUserSeq s)) (seq s) (live s) (maxPerBox s), m).

Definition Send (now : Z) (toID fromID msgType content : string) (s : Store) : go (Store * Message * list (string * Message)) :=
  let '(s, id) := take_id s in
  y ← store_message id now toID fromID msgType content s;
  let '(s, m) := y in
  Ret (s, m, if live s then [(toID, m)] else []).

Definition lowerBoundSeq (l : list Message) (target : Z) : go Z := lowerBound Seq l target.

(** [for i := start - 1; i >= end; i--]. *)
Fixpoint down_loop (n : nat) (i : Z) (l : list Message) : go (list Message) :=
  match n with
  | O => Ret []
  | S n => m ← index l i; rest ← down_loop n (i - 1) l; Ret (m :: rest)
  end.

Definition List_ (ownerID : string) (afterSeq limit : Z) (s : Store) : go (list Message) :=
  let limit := if limit <=? 0 then 20 else limit in
  let l := box ownerID s in
  if bool_decide (length l = 0%nat) then Ret []
  else
    start ← (if 0 <? afterSeq then lowerBoundSeq l afterSeq else Ret (Z.of_nat (length l)));
    let end_ := Z.max (start - limit) 0 in
    down_loop (Z.to_nat (start - end_)) (start - 1) l.

Definition set_read (m : Message) : Message :=
  MkMessage (ID m) (OwnerID m) (FromID m) (Type_ m) (Content m) (Seq m) true (CreateTime m).

(** The loop of [MarkRead], whose order does not matter. *)
Fixpoint mark_loop (upToSeq : Z) (l : list Message) : list Message * Z :=
  match l with
  | [] => ([], 0)
  | m :: l =>
      let '(l, n) := mark_loop upToSeq l in
      if upToSeq <? Seq m then (m :: l, n) else if negb (Read m) then (set_read m :: l, n + 1) else (m :: l, n)
  end.

Definition MarkRead (ownerID : string) (upToSeq : Z) (s : Store) : Store * Z :=
  match byUser s !! ownerID with
  | None => (s, 0)
  | Some l => let '(l, n) := mark_loop upToSeq l in (with_box ownerID l s, n)
  end.

Definition MarkOneRead (ownerID : string) (n : Z) (s : Store) : go (Store * bool) :=
  let l := box ownerID s in
  idx ← lowerBoundSeq l n;
  if idx <? Z.of_nat (length l) then
    m ← index l idx;
    if Seq m =? n then
      (if negb (Read m) then l ← set_index l idx (set_read m); Ret (with_box ownerID l s, true) else Ret (s, true))
    else Ret (s, false)
  else Ret (s, false).

Fixpoint unread_loop (l : list Message) (n : Z) : Z :=
  match l with [] => n | m :: l => unread_loop l (if negb (Read m) then n + 1 else n) end.
Definition UnreadCount (ownerID : string) (s : Store) : Z := unread_loop (box ownerID s) 0.

Definition Delete (ownerID : string) (n : Z) (s : Store) : go (Store * bool) :=
  let l := box ownerID s in
  idx ← lowerBoundSeq l n;
  if Z.of_nat (length l) <=? idx then Ret (s, false)
  else
    m ← index l idx;
    if negb (Seq m =? n) then Ret (s, false)
    else Ret (with_box ownerID (take (Z.to_nat idx) l ++ drop (S (Z.to_nat idx)) l) s, true).

Definition Count (ownerID : string) (s : Store) : Z := Z.of_nat (length (box ownerID s)).

(** * Pages *)

Lemma down_loop_app l : forall l' n, (n <= length l)%nat -> down_loop n (Z.of_nat (length l) - 1) (l ++ l') = Ret (take n (rev l)).
Proof.
  induction l as [|m l IH] using rev_ind; intros l' k Hk; [destruct k; [done|cbn in Hk; lia]|].
  destruct k as [|k]; [done|]. rewrite length_app in *. cbn [length] in *. cbn [down_loop].
  replace (Z.of_nat (length l + 1) - 1) with (Z.of_nat (length l)) by lia. rewrite <- app_assoc. cbn [app].
  rewrite (index_lookup _ _ m) by (by apply list_lookup_middle). cbn [mbind go_bind]. rewrite IH by lia. cbn [mbind go_bind].
  by rewrite rev_app_distr.
Qed.

Lemma inbox_page u c limit s : sorted Seq (box u s) -> 0 < limit -> List_ u c limit s = Ret (before_page Seq (box u s) c limit).
Proof.
  intros Hs Hl. unfold List_, before_page. rewrite (proj2 (Z.leb_gt _ _)), collect_take, Z.sub_0_r by lia. set (l := box u s) in *.
  case_bool_decide as He; [apply length_zero_iff_nil in He as ->; cbn; by rewrite take_nil|].
  assert (forall a b : list Message, down_loop (Z.to_nat (Z.of_nat (length a) - Z.max (Z.of_nat (length a) - limit) 0)) (Z.of_nat (length a) - 1) (a ++ b) =
    Ret (take (Z.to_nat limit) (rev a))) as Hdown.
  { intros a b. rewrite down_loop_app by lia. f_equal. destruct (Z.le_gt_cases limit (Z.of_nat (length a))).
    - f_equal. lia.
    - by rewrite !take_ge by (rewrite length_rev; lia). }
  destruct (Z.ltb_spec 0 c) as [Hc|Hc]; cbn [mbind go_bind andb].
  - unfold lowerBoundSeq. rewrite (lowerBound_spec Seq l c Hs). cbn [mbind go_bind]. destruct (box_split Seq l c Hs) as (a & b & -> & -> & Ha & Hb).
    rewrite Hdown. do 2 f_equal. rewrite List.filter_rev, List.filter_app, (filter_all_in _ a), (filter_no_in _ b); [by rewrite app_nil_r| |].
    + intros x Hx. apply negb_false_iff, Z.leb_le. by apply Hb.
    + intros x Hx. apply negb_true_iff, Z.leb_gt. by apply Ha.
  - pose proof (Hdown l []) as E. rewrite app_nil_r in E. rewrite E. do 2 f_equal. symmetry. by apply filter_all_in.
Qed.

(** * Marks *)

Definition marked (p : Message -> bool) (m : Message) : Message := if p m then set_read m else m.

Lemma set_read_read m : Read m = true -> set_read m = m.
Proof. destruct m. cbn. by intros ->. Qed.

Definition unread (l : list Message) : list Message := List.filter (fun m => negb (Read m)) l.

Lemma unread_loop_length l : forall n, unread_loop l n = n + Z.of_nat (length (unread l)).
Proof. induction l as [|m l IH]; intros n; cbn [unread_loop unread List.filter]; [cbn; lia|]. rewrite IH. unfold unread. destruct (negb (Read m)); cbn [length]; lia. Qed.

Lemma mark_loop_spec t l : mark_loop t l =
  (marked (fun m => negb (t <? Seq m)) <$> l, Z.of_nat (length (List.filter (fun m => negb (t <? Seq m)) (unread l)))).
Proof.
  induction l as [|m l IH]; [done|]. cbn [mark_loop]. rewrite IH, fmap_cons. unfold unread. cbn [List.filter].
  change (marked (fun m => negb (t <? Seq m)) m) with (if negb (t <? Seq m) then set_read m else m).
  destruct (t <? Seq m) eqn:Et; cbn [negb].
  - f_equal. destruct (negb (Read m)); [|done]. cbn [List.filter]. by rewrite Et.
  - destruct (Read m) eqn:Er; cbn [negb].
    + by rewrite set_read_read.
    + cbn [List.filter]. rewrite Et. cbn [negb length]. f_equal. lia.
Qed.

Lemma marked_seqs p (l : list Message) : Seq <$> (marked p <$> l) = Seq <$> l.
Proof. rewrite <- list_fmap_compose. apply list_fmap_ext. intros i m _. cbn. unfold marked. by destruct (p m). Qed.

Lemma sorted_seqs (l l' : list Message) : Seq <$> l = Seq <$> l' -> sorted Seq l -> sorted Seq l'.
Proof.
  revert l'. induction l as [|m l IH]; intros [|m' l'] E; try done. rewrite !fmap_cons in E. injection E as E1 E2.
  intros [Hs Hm]%StronglySorted_inv. constructor; [by apply IH|]. rewrite Forall_forall in *. intros y Hy.
  assert (Seq y ∈ Seq <$> l) as (z & -> & Hz)%list_elem_of_fmap by (rewrite E2; by apply list_elem_of_fmap_2). rewrite <- E1. by apply Hm.
Qed.

(** * Histories *)

(** The two steps of a [Send] are apart, so that others come in between; the identifier stored may be any. *)
Inductive op :=
| OTake | OStore (id now : Z) (toID fromID msgType content : string) | OMarkRead (u : string) (upTo : Z) | OMarkOneRead (u : string) (n : Z) | ODelete (u : string) (n : Z).

Definition exec (o : op) (s : Store) : go Store :=
  match o with
  | OTake => Ret (take_id s).1
  | OStore id now to_ from ty c => y ← store_message id now to_ from ty c s; Ret y.1
  | OMarkRead u t => Ret (MarkRead u t s).1
  | OMarkOneRead u n => y ← MarkOneRead u n s; Ret y.1
  | ODelete u n => y ← Delete u n s; Ret y.1
  end.
Fixpoint run (ops : list op) (s : Store) : go Store :=
  match ops with [] => Ret s | o :: ops => s ← exec o s; run ops s end.

(** After [n] calls. *)
Record inv (n : Z) (s : Store) : Prop := {
  in_max : 0 <= maxPerBox s;
  in_numbered : numbered Seq (maxPerBox s) (byUser s) (byUserSeq s);
  in_count : forall u, default 0 (byUserSeq s !! u) <= n
}.

Lemma inv_box n s u : inv n s -> sorted Seq (box u s) /\ Z.of_nat (length (box u s)) <= maxPerBox s /\ positive Seq (box u s).
Proof.
  intros [Hm Hn _]. destruct (numbered_box Seq _ _ _ u Hm Hn) as (? & ? & Hp). split_and!; [done|done|]. intros x Hx. by apply Hp.
Qed.

(** The box of a user replaced by one with the same numbers, or some of them. *)
Lemma inv_with_box n s u l : inv n s -> sorted Seq l -> (length l <= length (box u s))%nat -> (forall x, x ∈ l -> Seq x ∈ Seq <$> box u s) -> inv n (with_box u l s).
Proof.
  intros [Hm Hn Hc] Hs Hl Hx. destruct (numbered_box Seq _ _ _ u Hm Hn) as (_ & Hlen & Hp). split; cbn; [done| |done].
  apply numbered_insert; [done|done|unfold box in *; lia|]. intros x (y & -> & Hy)%Hx%list_elem_of_fmap. by apply Hp.
Qed.

Lemma inv_marked n s u p : inv n s -> inv n (with_box u (marked p <$> box u s) s).
Proof.
  intros Hi. destruct (inv_box n s u Hi) as (Hs & _). apply inv_with_box; [done| |by rewrite length_fmap|].
  - eapply sorted_seqs; [symmetry; apply marked_seqs|done].
  - intros x Hx. rewrite <- (marked_seqs p). by apply list_elem_of_fmap_2.
Qed.

Lemma box_with_box u l s : box u (with_box u l s) = l.
Proof. unfold box. cbn. by rewrite lookup_insert_eq. Qed.

Lemma MarkRead_spec n u t s : inv n s -> let '(s', k) := MarkRead u t s in inv n s' /\
  box u s' = marked (fun m => negb (t <? Seq m)) <$> box u s /\ k = Z.of_nat (length (List.filter (fun m => negb (t <? Seq m)) (unread (box u s)))).
Proof.
  intros Hi. pose proof (inv_marked n s u (fun m => negb (t <? Seq m)) Hi) as Hi'. unfold MarkRead. unfold box in *.
  destruct (byUser s !! u) as [l|] eqn:E; [|by rewrite E]. rewrite mark_loop_spec. split; [done|]. split; [|done]. cbn. by rewrite lookup_insert_eq.
Qed.

(** The search of a message by its number. *)
Lemma seek u t s : sorted Seq (box u s) -> exists a b, lowerBoundSeq (box u s) t = Ret (Z.of_nat (length a)) /\ box u s = a ++ b /\
  match b with
  | m :: b' => if decide (Seq m = t) then forall x, x ∈ a ++ b' -> Seq x <> t else t ∉ Seq <$> box u s
  | [] => t ∉ Seq <$> box u s
  end.
Proof.
  intros Hs. unfold lowerBoundSeq. rewrite (lowerBound_spec Seq _ t Hs). pose proof (lowerBound_found Seq (box u s) t Hs) as Hf.
  destruct (box_split Seq (box u s) t Hs) as (a & b & E & Ea & Ha & Hb). rewrite Ea in Hf |- *. exists a, b. split; [done|]. split; [done|].
  rewrite E in Hf, Hs |- *. destruct b as [|m b]; [rewrite lookup_app_r, Nat.sub_diag in Hf by lia; cbn in Hf|rewrite list_lookup_middle in Hf by done; case_decide as Et].
  - intros (x & Ex & Hx)%list_elem_of_fmap. by apply (Hf x Hx).
  - apply sorted_app in Hs as (_ & [_ Hm]%StronglySorted_inv & _). rewrite Forall_forall in Hm.
    intros x [Hx|Hx]%elem_of_app; [specialize (Ha x Hx); lia|specialize (Hm x Hx); lia].
  - intros (x & Ex & Hx)%list_elem_of_fmap. by apply (Hf x Hx).
Qed.

Lemma marked_none p (l : list Message) : (forall x, x ∈ l -> p x = false) -> marked p <$> l = l.
Proof.
  intros Hp. rewrite <- (list_fmap_id l) at 2. apply list_fmap_ext. intros i m Hi. unfold marked. by rewrite Hp by (by eapply list_elem_of_lookup_2).
Qed.

Lemma MarkOneRead_spec n u t s : inv n s -> exists s', MarkOneRead u t s = Ret (s', bool_decide (t ∈ Seq <$> box u s)) /\ inv n s' /\
  box u s' = marked (fun m => Seq m =? t) <$> box u s.
Proof.
  intros Hi. destruct (inv_box n s u Hi) as (Hs & _). pose proof (inv_marked n s u (fun m => Seq m =? t) Hi) as Hi'.
  unfold MarkOneRead. destruct (seek u t s Hs) as (a & b & -> & E & Hb). cbn [mbind go_bind].
  assert (t ∉ Seq <$> box u s -> marked (fun m => Seq m =? t) <$> box u s = box u s) as Hno.
  { intros Hn. apply marked_none. intros x Hx. apply Z.eqb_neq. intros <-. apply Hn. by apply list_elem_of_fmap_2. }
  destruct b as [|m b].
  - rewrite E in Hb, Hno |- *. rewrite app_nil_r in *. rewrite (proj2 (Z.ltb_ge _ _)) by lia. exists s. rewrite bool_decide_false by done. by rewrite Hno.
  - assert (length a < length (box u s))%nat as Hlt by (rewrite E, length_app; cbn; lia).
    rewrite (proj2 (Z.ltb_lt _ _)) by lia. rewrite (index_lookup _ _ m) by (rewrite E; by apply list_lookup_middle).
    cbn [mbind go_bind]. case_decide as Et.
    + rewrite (proj2 (Z.eqb_eq _ _)) by done. rewrite bool_decide_true by (rewrite E, <- Et; apply list_elem_of_fmap_2; set_solver).
      assert (marked (fun m => Seq m =? t) <$> box u s = a ++ set_read m :: b) as Em.
      { rewrite E, fmap_app, fmap_cons. change (marked (fun m => Seq m =? t) m) with (if Seq m =? t then set_read m else m). rewrite (proj2 (Z.eqb_eq _ _)) by done.
        rewrite !marked_none by (intros x Hx; apply Z.eqb_neq, Hb; set_solver). done. }
      rewrite Em in Hi' |- *. destruct (Read m) eqn:Er; cbn [negb].
      * exists s. split; [done|]. rewrite set_read_read by done. by rewrite <- E.
      * rewrite set_index_lt by done. cbn [mbind go_bind]. assert (<[length a := set_read m]> (box u s) = a ++ set_read m :: b) as ->
          by (rewrite E, insert_app_r_alt, Nat.sub_diag by lia; done).
        eexists. split; [done|]. split; [done|]. apply box_with_box.
    + rewrite (proj2 (Z.eqb_neq _ _)) by done. exists s. rewrite bool_decide_false by done. by rewrite Hno.
Qed.

Lemma inbox_Delete n u t s : inv n s -> exists s', Delete u t s = Ret (s', bool_decide (t ∈ Seq <$> box u s)) /\ inv n s' /\
  box u s' = List.filter (fun m => negb (Seq m =? t)) (box u s).
Proof.
  intros Hi. destruct (inv_box n s u Hi) as (Hs & _). unfold Delete. destruct (seek u t s Hs) as (a & b & -> & E & Hb). cbn [mbind go_bind].
  assert (t ∉ Seq <$> box u s -> List.filter (fun m => negb (Seq m =? t)) (box u s) = box u s) as Hno.
  { intros Hn. apply filter_all_in. intros x Hx. apply negb_true_iff, Z.eqb_neq. intros <-. apply Hn. by apply list_elem_of_fmap_2. }
  destruct b as [|m b].
  - rewrite E in Hb, Hno |- *. rewrite app_nil_r in *. rewrite (proj2 (Z.leb_le _ _)) by lia. exists s. rewrite bool_decide_false by done. by rewrite Hno.
  - assert (length a < length (box u s))%nat as Hlt by (rewrite E, length_app; cbn; lia).
    rewrite (proj2 (Z.leb_gt _ _)) by lia. rewrite (index_lookup _ _ m) by (rewrite E; by apply list_lookup_middle).
    cbn [mbind go_bind]. case_decide as Et.
    + rewrite (proj2 (Z.eqb_eq _ _)) by done. cbn [negb]. rewrite bool_decide_true by (rewrite E, <- Et; apply list_elem_of_fmap_2; set_solver).
      eexists. split; [done|]. rewrite box_with_box, Nat2Z.id.
      assert (take (length a) (box u s) ++ drop (S (length a)) (box u s) = a ++ b) as ->
        by (rewrite E, take_app_length, drop_app_ge by lia; by replace (S (length a) - length a)%nat with 1%nat by lia).
      split.
      * apply inv_with_box; [done|rewrite E in Hs; by eapply sorted_remove|rewrite E, !length_app; cbn; lia|].
        intros x Hx. rewrite E. apply list_elem_of_fmap_2. set_solver.
      * rewrite E, List.filter_app. cbn [List.filter]. rewrite (proj2 (Z.eqb_eq _ _)) by done. cbn [negb].
        rewrite !filter_all_in by (intros x Hx; apply negb_true_iff, Z.eqb_neq, Hb; set_solver). done.
    + rewrite (proj2 (Z.eqb_neq _ _)) by done. cbn [negb]. exists s. rewrite bool_decide_false by done. by rewrite Hno.
Qed.

Lemma inbox_take n s : inv n s -> inv n (take_id s).1.
Proof. intros [Hm Hn Hc]. by split. Qed.
Lemma inbox_store n id now to_ from ty c s : inv n s -> n < 2 ^ 62 -> exists s' m, store_message id now to_ from ty c s = Ret (s', m) /\ inv (n + 1) s' /\
  Seq m = default 0 (byUserSeq s !! to_) + 1 /\ (exists k, box to_ s' = drop k (box to_ s ++ [m])) /\ forall u, u <> to_ -> box u s' = box u s.
Proof.
  intros [Hm Hn Hc] Hlt. unfold store_message, box.
  pose proof (Hc to_). pose proof (proj1 Hn to_). rewrite (wrap64_id (_ + 1)) by (unfold int64; lia).
  set (m := MkMessage _ _ _ _ _ _ _ _). destruct (numbered_append Seq _ _ _ to_ m Hm Hn eq_refl) as (k & Ht & Hn').
  rewrite Ht. cbn [mbind go_bind]. do 2 eexists. split; [done|]. split; [|split; [done|split]].
  - split; cbn; [done|done|]. intros u. destruct (decide (to_ = u)) as [<-|Hd]; [rewrite lookup_insert_eq; cbn; lia|rewrite lookup_insert_ne by done; specialize (Hc u); lia].
  - exists k. cbn. by rewrite lookup_insert_eq.
  - intros u Hu. cbn. by rewrite lookup_insert_ne.
Qed.

Lemma inbox_Send n now to_ from ty c s : inv n s -> n < 2 ^ 62 -> exists s' m evs, Send now to_ from ty c s = Ret (s', m, evs) /\ inv (n + 1) s' /\
  Seq m = default 0 (byUserSeq s !! to_) + 1 /\ (exists k, box to_ s' = drop k (box to_ s ++ [m])) /\ forall u, u <> to_ -> box u s' = box u s.
Proof.
  intros Hi Hlt. pose proof (inbox_take n s Hi) as Ht. unfold Send. destruct (take_id s) as [s0 id] eqn:E.
  destruct (inbox_store n id now to_ from ty c s0 Ht Hlt) as (s' & m & -> & Hi' & Hs). cbn [mbind go_bind fst] in *. do 3 eexists. split; [done|]. split; [done|].
  unfold take_id in E. by injection E as <- _.
Qed.

Lemma inbox_inv_mono n n' s : inv n s -> n <= n' -> inv n' s.
Proof. intros [Hm Hn Hc] H. split; [done|done|]. intros u. specialize (Hc u). lia. Qed.

Lemma inbox_step n o s : inv n s -> n < 2 ^ 62 -> exists s', exec o s = Ret s' /\ inv (n + 1) s'.
Proof.
  intros Hi Hlt. destruct o as [|id now to_ from ty c|u t|u t|u t]; cbn [exec].
  - eexists. split; [done|]. eapply inbox_inv_mono; [by apply inbox_take|lia].
  - destruct (inbox_store n id now to_ from ty c s Hi Hlt) as (s' & m & -> & Hi' & _). by exists s'.
  - pose proof (MarkRead_spec n u t s Hi) as Hk. destruct (MarkRead u t s) as [s' k]. destruct Hk as (Hi' & _). exists s'. split; [done|]. eapply inbox_inv_mono; [exact Hi'|lia].
  - destruct (MarkOneRead_spec n u t s Hi) as (s' & -> & Hi' & _). exists s'. split; [done|]. eapply inbox_inv_mono; [exact Hi'|lia].
  - destruct (inbox_Delete n u t s Hi) as (s' & -> & Hi' & _). exists s'. split; [done|]. eapply inbox_inv_mono; [exact Hi'|lia].
Qed.

Lemma inbox_run ops : forall n s, inv n s -> n + Z.of_nat (length ops) < 2 ^ 62 -> exists s', run ops s = Ret s' /\ inv (n + Z.of_nat (length ops)) s'.
Proof.
  induction ops as [|o ops IH]; intros n s Hi Hlt; cbn [run length] in *; [exists s; by rewrite Z.add_0_r|].
  destruct (inbox_step n o s Hi) as (s1 & -> & Hi1); [lia|]. cbn [mbind go_bind]. destruct (IH (n + 1) s1 Hi1) as (s' & E & Hi'); [lia|].
  exists s'. split; [done|]. eapply inbox_inv_mono; [exact Hi'|lia].
Qed.

Lemma inbox_new sink opts : 0 <= maxPerBox (New sink opts) -> inv 0 (New sink opts).
Proof. intros Hm. split; [done|apply numbered_empty|]. intros u. cbn. by rewrite lookup_empty. Qed.

(** C34: With a capacity that is not negative, in every history of fewer than [2 ^ 61] steps, a send being two of them, nothing panics and
    a box holds no more than its capacity; and turning the pages of [List] from the newest, the cursor of the next page being the
    smallest number of the last, reads every message of a box left alone exactly once, the newest first, whatever the positive
    size of a page. *)
Theorem inbox_pages sink opts ops : 0 <= maxPerBox (New sink opts) -> Z.of_nat (length ops) < 2 ^ 61 ->
  exists s, run ops (New sink opts) = Ret s /\ forall u limit fuel, 0 < limit -> (length (box u s) < fuel)%nat ->
  Count u s <= maxPerBox s /\
  exists page, (forall c, List_ u c limit s = Ret (page c)) /\ turn Seq fuel page 0 = rev (box u s).
Proof.
  intros Hm Hlen. destruct (inbox_run ops 0 _ (inbox_new sink opts Hm)) as (s & Hr & Hi); [lia|]. exists s. split; [done|].
  intros u limit fuel Hl Hf. destruct (inv_box _ s u Hi) as (Hs & Hc & Hp). split; [done|].
  exists (fun c => before_page Seq (box u s) c limit). split; [intros c; by apply inbox_page|]. by apply turn_down.
Qed.

(** In every history of calls: a message sent goes to the end of the box of its receiver, with the
    next number, and at most the oldest are cut; marking up to a number marks the messages up to it,
    and the answer is how many of them were unread; marking or deleting one concerns the message of
    that number, and the answer is whether there is one; nothing else changes. *)
Theorem inbox_calls sink opts ops u t now from ty c : 0 <= maxPerBox (New sink opts) -> Z.of_nat (length ops) < 2 ^ 61 ->
  exists s, run ops (New sink opts) = Ret s /\
  (exists s' m evs, Send now u from ty c s = Ret (s', m, evs) /\ Seq m = default 0 (byUserSeq s !! u) + 1 /\
     (exists k, box u s' = drop k (box u s ++ [m])) /\ forall u', u' <> u -> box u' s' = box u' s) /\
  (let '(s', k) := MarkRead u t s in box u s' = (fun m => if negb (t <? Seq m) then set_read m else m) <$> box u s /\
     k = UnreadCount u s - UnreadCount u s') /\
  (exists s', MarkOneRead u t s = Ret (s', bool_decide (t ∈ Seq <$> box u s)) /\
     box u s' = (fun m => if Seq m =? t then set_read m else m) <$> box u s) /\
  (exists s', Delete u t s = Ret (s', bool_decide (t ∈ Seq <$> box u s)) /\ box u s' = List.filter (fun m => negb (Seq m =? t)) (box u s)).
Proof.
  intros Hm Hlen. destruct (inbox_run ops 0 _ (inbox_new sink opts Hm)) as (s & Hr & Hi); [lia|]. exists s. split; [done|]. split_and!.
  - destruct (inbox_Send _ now u from ty c s Hi) as (s' & m & evs & E & _ & ?); [lia|]. by exists s', m, evs.
  - pose proof (MarkRead_spec _ u t s Hi) as Hk. destruct (MarkRead u t s) as [s' k]. destruct Hk as (_ & E & ->). split; [done|].
    unfold UnreadCount. rewrite !unread_loop_length, E. clear. induction (box u s) as [|m l IH]; [done|]. rewrite fmap_cons. unfold unread in *.
    cbn [List.filter]. change (marked (fun m => negb (t <? Seq m)) m) with (if negb (t <? Seq m) then set_read m else m).
    destruct (Read m) eqn:Er; cbn [negb]; destruct (t <? Seq m) eqn:Et; cbn [negb]; rewrite ?Er; cbn [negb set_read Read List.filter length]; rewrite ?Et; cbn [negb length]; lia.
  - destruct (MarkOneRead_spec _ u t s Hi) as (s' & E & _ & ?). by exists s'.
  - destruct (inbox_Delete _ u t s Hi) as (s' & E & _ & ?). by exists s'.
Qed.

(** * Runs *)

Definition demo_ops : list op :=
  [OTake; OTake; OStore 2 1 "u" "a" "chat" "1"; OStore 1 2 "u" "a" "chat" "2"; OTake; OStore 3 3 "v" "a" "chat" "3"; OTake; OStore 4 4 "u" "b" "gift" "4";
   OTake; OStore 5 5 "u" "b" "gift" "5"; OMarkRead "u" 2; ODelete "u" 3].

Lemma inbox_pages_witness :
  exists s, run demo_ops (New false [WithMaxPerBox 3]) = Ret s /\ (Seq <$> box "u" s) = [2; 4] /\ Count "u" s <= 3 /\
  exists page, (forall c, List_ "u" c 1 s = Ret (page c)) /\ turn Seq 3 page 0 = rev (box "u" s).
Proof.
  destruct (inbox_pages false [WithMaxPerBox 3] demo_ops) as (s & Hr & H); [vm_compute; discriminate|vm_compute; reflexivity|].
  assert (length (box "u" s) = 2%nat /\ (Seq <$> box "u" s) = [2; 4] /\ maxPerBox s = 3) as (E1 & E2 & E3) by (vm_compute in Hr; injection Hr as <-; vm_compute; split_and!; reflexivity).
  exists s. split; [exact Hr|]. split; [exact E2|]. rewrite <- E3. apply (H "u" 1 3%nat); [lia|rewrite E1; lia].
Defined.

Lemma inbox_calls_witness :
  exists s, run (take 10 demo_ops) (New false []) = Ret s /\ exists s', Delete "u" 3 s = Ret (s', true) /\ (Seq <$> box "u" s') = [1; 2; 4].
Proof.
  destruct (inbox_calls false [] (take 10 demo_ops) "u" 3 9 "a" "chat" "") as (s & Hr & _ & _ & _ & s' & Hd & Hb); [vm_compute; discriminate|vm_compute; reflexivity|].
  exists s. split; [exact Hr|]. exists s'. vm_compute in Hr. injection Hr as <-. split.
  - rewrite Hd. do 2 f_equal.
  - rewrite Hb. vm_compute. reflexivity.
Defined.

(** Identifiers are taken before the lock, numbers under it: two senders can store the message with the
    greater identifier first. *)
Lemma ids_out_of_order :
  let '(s, id1) := take_id (New false []) in let '(s, id2) := take_id s in
  match store_message id2 1 "u" "b" "chat" "" s with
  | Ret (s, _) => match store_message id1 2 "u" "a" "chat" "" s with
                  | Ret (s, _) => (ID <$> box "u" s) = [2; 1] /\ (Seq <$> box "u" s) = [1; 2]
                  | Panic _ => False end
  | Panic _ => False end.
Proof. vm_compute. by split. Qed.

(** A capacity below zero is accepted; the first message sent panics, with the lock held. *)
Lemma negative_capacity_panics : Send 1 "u" "a" "chat" "" (New false [WithMaxPerBox (-1)]) = Panic "runtime error: slice bounds out of range".
Proof. vm_compute. reflexivity. Qed.
