(* ===== verification/Chat.v ===== *)
(** The history of channels ([pkg/domain/chat/chat.go]): a box of messages per channel on [Box], read
    backwards and forwards in pages by a cursor. *)
From Stdlib Require Import ZArith Lia Bool Sorted.
From stdpp Require Import base numbers strings list gmap sets sorting.
From S2P Require Import Prelude Box.

Open Scope Z_scope.

(** Reads copy the messages, so that the pointer [Post] returns is all that is shared; nothing writes to
    a message. *)
Record Message := MkMessage { ID : Z; ChannelID : string; MsgID : Z; UserID : string; Content : string; CreatedAt : Z }.

Record Store := MkStore {
  byChannel : gmap string (list Message); bySeq : gmap string Z; idCounter : Z; maxPerChannel : Z
}.

Definition WithMaxPerChannel (n : Z) (c : Z) : Z := n.
Definition New (opts : list (Z -> Z)) : Store := MkStore ∅ ∅ 0 (foldl (fun c o => o c) 1000 opts).

Definition channel (ch : string) (s : Store) : list Message := default [] (byChannel s !! ch).

Definition Post (ch user content : string) (nowNano : Z) (s : Store) : go (Store * option Message) :=
  if bool_decide (ch = "") || bool_decide (user = "") then Ret (s, None)
  else
    let n := wrap64 (default 0 (bySeq s !! ch) + 1) in
    let id := wrap64 (idCounter s + 1) in
    let m := MkMessage id ch n user content nowNano in
    l ← trim (maxPerChannel s) (channel ch s ++ [m]);
    Ret (MkStore (<[ch := l]> (byChannel s)) (<[ch := n]> (bySeq s)) id (maxPerChannel s), Some m).

Definition limitOr50 (limit : Z) : Z := if limit <=? 0 then 50 else limit.

Definition Before (ch : string) (beforeID limit : Z) (s : Store) : list Message :=
  let l := channel ch s in
  if bool_decide (length l = 0%nat) then [] else before_page MsgID l beforeID (limitOr50 limit).
Definition After (ch : string) (afterID limit : Z) (s : Store) : list Message :=
  let l := channel ch s in
  if bool_decide (length l = 0%nat) then [] else after_page MsgID l afterID (limitOr50 limit).
Definition Latest (ch : string) (limit : Z) (s : Store) : list Message := Before ch 0 limit s.
Definition Count (ch : string) (s : Store) : Z := Z.of_nat (length (channel ch s)).

Definition LastMsgID (ch : string) (s : Store) : go Z :=
  let l := channel ch s in
  if bool_decide (length l = 0%nat) then Ret 0 else m ← index l (Z.of_nat (length l) - 1); Ret (MsgID m).

(** The loop of [Delete]: the list without the first message of the identifier. *)
Fixpoint delete_loop (id : Z) (l : list Message) : option (list Message) :=
  match l with
  | [] => None
  | m :: l => if ID m =? id then Some l else (m ::.) <$> delete_loop id l
  end.
Definition Delete (ch : string) (id : Z) (s : Store) : Store * bool :=
  match delete_loop id (channel ch s) with
  | None => (s, false)
  | Some l =>
      let boxes := <[ch := l]> (byChannel s) in
      (MkStore (if bool_decide (length l = 0%nat) then delete ch boxes else boxes) (bySeq s) (idCounter s) (maxPerChannel s), true)
  end.

(** * Histories *)

Inductive op := OPost (ch user content : string) (now : Z) | ODelete (ch : string) (id : Z).

Definition exec (o : op) (s : Store) : go Store :=
  match o with
  | OPost ch u c now => y ← Post ch u c now s; Ret y.1
  | ODelete ch id => Ret (Delete ch id s).1
  end.
Fixpoint run (ops : list op) (s : Store) : go Store :=
  match ops with [] => Ret s | o :: ops => s ← exec o s; run ops s end.

(** After [n] calls. *)
Record inv (n : Z) (s : Store) : Prop := {
  in_max : 0 <= maxPerChannel s;
  in_numbered : numbered MsgID (maxPerChannel s) (byChannel s) (bySeq s);
  in_ids : identified ID (idCounter s) (byChannel s);
  in_count : 0 <= idCounter s <= n /\ forall ch, default 0 (bySeq s !! ch) <= idCounter s
}.

Lemma inv_channel n s ch : inv n s ->
  sorted MsgID (channel ch s) /\ Z.of_nat (length (channel ch s)) <= maxPerChannel s /\ positive MsgID (channel ch s).
Proof.
  intros [Hm Hn _ _]. destruct (numbered_box MsgID _ _ _ ch Hm Hn) as (? & ? & Hp). split_and!; [done|done|]. intros x Hx. by apply Hp.
Qed.

Lemma delete_loop_sorted id l : sorted ID l -> delete_loop id l =
  if bool_decide (id ∈ ID <$> l) then Some (List.filter (fun m => negb (ID m =? id)) l) else None.
Proof.
  induction l as [|m l IH]; [done|]. intros [Hs Hm]%StronglySorted_inv. rewrite Forall_forall in Hm. cbn [delete_loop List.filter].
  rewrite fmap_cons. destruct (Z.eqb_spec (ID m) id) as [<-|Hd]; cbn [negb].
  - rewrite bool_decide_true by left. f_equal. symmetry. apply filter_all_in. intros x Hx. specialize (Hm x Hx). apply negb_true_iff, Z.eqb_neq. lia.
  - rewrite (IH Hs). rewrite (bool_decide_ext (id ∈ ID m :: (ID <$> l)) (id ∈ ID <$> l)) by set_solver. by case_bool_decide.
Qed.

Lemma channel_write ch l s :
  channel ch (MkStore (if bool_decide (length l = 0%nat) then delete ch (<[ch := l]> (byChannel s)) else <[ch := l]> (byChannel s)) (bySeq s) (idCounter s) (maxPerChannel s)) = l /\
  forall ch', ch' <> ch -> channel ch' (MkStore (if bool_decide (length l = 0%nat) then delete ch (<[ch := l]> (byChannel s)) else <[ch := l]> (byChannel s)) (bySeq s) (idCounter s) (maxPerChannel s)) = channel ch' s.
Proof.
  unfold channel. cbn [byChannel]. case_bool_decide as E.
  - apply length_zero_iff_nil in E as ->. split; [by rewrite lookup_delete_eq|]. intros ch' ?. by rewrite lookup_delete_ne, lookup_insert_ne.
  - split; [by rewrite lookup_insert_eq|]. intros ch' ?. by rewrite lookup_insert_ne.
Qed.

Lemma chat_Delete n ch id s : inv n s -> exists s', Delete ch id s = (s', bool_decide (id ∈ ID <$> channel ch s)) /\ inv n s' /\
  channel ch s' = List.filter (fun m => negb (ID m =? id)) (channel ch s) /\ forall ch', ch' <> ch -> channel ch' s' = channel ch' s.
Proof.
  intros Hi. destruct (inv_channel n s ch Hi) as (Hs & _ & _). destruct Hi as [Hm Hn Hid Hc]. unfold Delete. rewrite delete_loop_sorted by apply Hid.
  case_bool_decide as He.
  - destruct (channel_write ch (List.filter (fun m => negb (ID m =? id)) (channel ch s)) s) as [E1 E2]. eexists. split; [done|]. split; [|by split].
    set (l := List.filter _ _) in *.
    assert (forall x, x ∈ l -> x ∈ channel ch s) as Hsub by (intros x [Hx _]%list_elem_of_In%filter_In; by apply list_elem_of_In).
    assert (numbered MsgID (maxPerChannel s) (<[ch := l]> (byChannel s)) (bySeq s)) as Hw.
    { destruct (numbered_box MsgID _ _ _ ch Hm Hn) as (_ & Hl & Hp). apply numbered_insert; [done|by apply sorted_filter| |].
      - etrans; [|exact Hl]. apply Nat2Z.inj_le, List.filter_length_le.
      - intros x Hx. apply Hp. by apply Hsub. }
    split; [done| | |done].
    + cbn [byChannel bySeq maxPerChannel]. case_bool_decide; [by apply numbered_delete|done].
    + assert (identified ID (idCounter s) (<[ch := l]> (byChannel s))) as Hw'.
      { apply identified_insert; [done|apply (sorted_filter ID), Hid|]. intros m Hx. by apply (Hid ch), Hsub. }
      cbn [byChannel idCounter]. case_bool_decide; [by apply identified_delete|done].
  - exists s. split; [done|]. split; [by split|]. split; [|done]. symmetry. apply filter_all_in. intros x Hx. apply negb_true_iff, Z.eqb_neq. intros <-.
    apply He. by apply list_elem_of_fmap_2.
Qed.

Lemma Post_spec n ch u c now s : inv n s -> n < 2 ^ 62 -> ch <> "" -> u <> "" -> exists s', let m := MkMessage (idCounter s + 1) ch (default 0 (bySeq s !! ch) + 1) u c now in
  Post ch u c now s = Ret (s', Some m) /\ inv (n + 1) s' /\ (exists k, channel ch s' = drop k (channel ch s ++ [m])) /\
  forall ch', ch' <> ch -> channel ch' s' = channel ch' s.
Proof.
  intros [Hm Hn Hid [Hc Hq]] Hlt Hch Hu. unfold Post. rewrite !bool_decide_false by done. cbn [orb]. pose proof (Hq ch). pose proof (proj1 Hn ch).
  rewrite (wrap64_id (idCounter s + 1)), (wrap64_id (default 0 _ + 1)) by (unfold int64; lia). set (m := MkMessage _ _ _ _ _ _).
  destruct (numbered_append MsgID _ _ _ ch m Hm Hn eq_refl) as (k & Ht & Hn'). unfold channel in *. rewrite Ht. cbn [mbind go_bind].
  eexists. split; [done|]. split; [|split]; cbn [byChannel].
  - split; cbn [byChannel bySeq idCounter maxPerChannel]; [done|done| |].
    + by apply identified_append.
    + split; [lia|]. intros ch'. destruct (decide (ch = ch')) as [<-|Hd]; [rewrite lookup_insert_eq; cbn; lia|rewrite lookup_insert_ne by done; specialize (Hq ch'); lia].
  - exists k. by rewrite lookup_insert_eq.
  - intros ch' Hd. by rewrite lookup_insert_ne.
Qed.

Lemma chat_inv_mono n n' s : inv n s -> n <= n' -> inv n' s.
Proof. intros [Hm Hn Hid Hc] H. split; [done|done|done|]. split; [lia|apply Hc]. Qed.

Lemma chat_run ops : forall n s, inv n s -> n + Z.of_nat (length ops) < 2 ^ 62 -> exists s', run ops s = Ret s' /\ inv (n + Z.of_nat (length ops)) s'.
Proof.
  induction ops as [|o ops IH]; intros n s Hi Hlt; cbn [run length] in *; [exists s; by rewrite Z.add_0_r|].
  assert (exists s1, exec o s = Ret s1 /\ inv (n + 1) s1) as (s1 & -> & Hi1).
  { destruct o as [ch u c now|ch id]; cbn [exec].
    - destruct (decide (ch = "" \/ u = "")) as [Hd|Hd].
      + exists s. split; [|eapply chat_inv_mono; [exact Hi|lia]]. unfold Post. destruct Hd as [->| ->]; by rewrite ?(bool_decide_true (("" : string) = "")), ?orb_true_r by done.
      + destruct (Post_spec n ch u c now s Hi) as (s' & -> & Hi' & _); [lia|tauto|tauto|]. by exists s'.
    - destruct (chat_Delete n ch id s Hi) as (s' & -> & Hi' & _). exists s'. split; [done|]. eapply chat_inv_mono; [exact Hi'|lia]. }
  cbn [mbind go_bind]. destruct (IH (n + 1) s1 Hi1) as (s' & E & Hi'); [lia|].
  exists s'. split; [done|]. eapply chat_inv_mono; [exact Hi'|lia].
Qed.

Lemma chat_new opts : 0 <= maxPerChannel (New opts) -> inv 0 (New opts).
Proof.
  intros Hm. split; [done|apply numbered_empty|apply identified_empty|]. split; [cbn; lia|]. intros ch. cbn. by rewrite lookup_empty.
Qed.

Lemma Before_page ch c limit s : 0 < limit -> Before ch c limit s = before_page MsgID (channel ch s) c limit.
Proof.
  intros Hl. unfold Before, limitOr50. rewrite (proj2 (Z.leb_gt _ _)) by lia. case_bool_decide as E; [|done]. by apply length_zero_iff_nil in E as ->.
Qed.
Lemma After_page ch c limit s : 0 < limit -> After ch c limit s = after_page MsgID (channel ch s) c limit.
Proof.
  intros Hl. unfold After, limitOr50. rewrite (proj2 (Z.leb_gt _ _)) by lia. case_bool_decide as E; [|done]. by apply length_zero_iff_nil in E as ->.
Qed.

(** The number of the newest message is not smaller than any other. *)
Lemma LastMsgID_spec ch s : sorted MsgID (channel ch s) -> positive MsgID (channel ch s) ->
  exists n, LastMsgID ch s = Ret n /\ (forall m, m ∈ channel ch s -> MsgID m <= n) /\ (n = 0 <-> channel ch s = []).
Proof.
  intros Hs Hp. unfold LastMsgID. case_bool_decide as E.
  - apply length_zero_iff_nil in E. exists 0. rewrite E. split; [done|]. split; [by intros m ?%elem_of_nil|done].
  - destruct (channel ch s) as [|m l]; [done|]. destruct (last_app_cons l m) as [q Eq]. rewrite Eq in *.
    replace (Z.of_nat (length (q ++ [last_of m l])) - 1) with (Z.of_nat (length q)) by (rewrite length_app; cbn; lia).
    rewrite (index_lookup _ _ (last_of m l)) by (by apply list_lookup_middle). cbn [mbind go_bind]. exists (MsgID (last_of m l)). split; [done|].
    apply sorted_app in Hs as (_ & _ & H3). split.
    + intros x [Hx| ->%list_elem_of_singleton]%elem_of_app; [specialize (H3 x _ Hx ltac:(left)); lia|lia].
    + specialize (Hp (last_of m l) ltac:(set_solver)). split; [intros ?; exfalso; lia|]. intros Hn. by destruct q.
Qed.

(** In every history of calls nothing panics and a channel holds no more than its capacity; turning
    the pages of [Before] from [Latest] on reads every message of the channel once, the newest first,
    and turning those of [After] from zero reads them once, the oldest first, whatever the size of a
    page; [LastMsgID] is the cursor after which there is nothing. *)
Theorem chat_pages opts ops ch limit fuel : 0 <= maxPerChannel (New opts) -> Z.of_nat (length ops) < 2 ^ 61 -> 0 < limit ->
  exists s, run ops (New opts) = Ret s /\ Count ch s <= maxPerChannel s /\
  ((length (channel ch s) < fuel)%nat -> turn MsgID fuel (fun c => Before ch c limit s) 0 = rev (channel ch s) /\
     turn MsgID fuel (fun c => After ch c limit s) 0 = channel ch s) /\
  exists n, LastMsgID ch s = Ret n /\ After ch n limit s = [].
Proof.
  intros Hm Hlen Hl. destruct (chat_run ops 0 _ (chat_new opts Hm)) as (s & Hr & Hi); [lia|]. exists s. split; [done|].
  destruct (inv_channel _ s ch Hi) as (Hs & Hc & Hp). split; [done|]. split.
  - intros Hf. rewrite (turn_ext _ _ _ fuel 0 (fun c => Before_page ch c limit s Hl)), (turn_ext _ _ _ fuel 0 (fun c => After_page ch c limit s Hl)).
    split; [by apply turn_down|by apply turn_up].
  - destruct (LastMsgID_spec ch s Hs Hp) as (n & -> & Hn & _). exists n. split; [done|]. rewrite After_page by done. unfold after_page.
    rewrite collect_take by done. rewrite filter_no_in; [apply take_nil|]. intros x Hx. apply negb_false_iff, Z.leb_le. by apply Hn.
Qed.

(** In every history of calls: a message posted has an identifier and a number greater than every one
    of the channel, it goes to the end and at most the oldest are cut; a message is deleted by its
    identifier, and the answer is whether the channel has it; other channels do not change. *)
Theorem chat_calls opts ops ch u c now id : 0 <= maxPerChannel (New opts) -> Z.of_nat (length ops) < 2 ^ 61 -> ch <> "" -> u <> "" ->
  exists s, run ops (New opts) = Ret s /\
  (exists s' m, Post ch u c now s = Ret (s', Some m) /\ (exists k, channel ch s' = drop k (channel ch s ++ [m])) /\
     (forall x, x ∈ channel ch s -> ID x < ID m /\ MsgID x < MsgID m) /\ forall ch', ch' <> ch -> channel ch' s' = channel ch' s) /\
  (exists s', Delete ch id s = (s', bool_decide (id ∈ ID <$> channel ch s)) /\
     channel ch s' = List.filter (fun m => negb (ID m =? id)) (channel ch s) /\ forall ch', ch' <> ch -> channel ch' s' = channel ch' s).
Proof.
  intros Hm Hlen Hch Hu. destruct (chat_run ops 0 _ (chat_new opts Hm)) as (s & Hr & Hi); [lia|]. exists s. split; [done|]. split.
  - destruct (Post_spec _ ch u c now s Hi) as (s' & E & _ & Hk & Hne); [lia|done|done|]. do 2 eexists. split; [exact E|]. split; [done|]. split; [|done].
    intros x Hx. cbn [ID MsgID]. destruct (numbered_box MsgID _ _ _ ch (in_max _ _ Hi) (in_numbered _ _ Hi)) as (_ & _ & Hp).
    pose proof (Hp x Hx). pose proof (proj2 (in_ids _ _ Hi ch) x Hx). lia.
  - destruct (chat_Delete _ ch id s Hi) as (s' & E & _ & ?). by exists s'.
Qed.

(** * Runs *)

Definition demo_ops : list op :=
  [OPost "c" "a" "1" 1; OPost "c" "" "no" 1; OPost "d" "a" "2" 2; OPost "c" "b" "3" 3; OPost "c" "b" "4" 4; OPost "c" "b" "5" 5; ODelete "c" 4].

Lemma chat_pages_witness : exists s, run demo_ops (New [WithMaxPerChannel 3]) = Ret s /\ Count "c" s <= 3 /\ (MsgID <$> channel "c" s) = [2; 4] /\
  turn MsgID 3 (fun c => Before "c" c 1 s) 0 = rev (channel "c" s).
Proof.
  destruct (chat_pages [WithMaxPerChannel 3] demo_ops "c" 1 3) as (s & Hr & Hc & Ht & _); [vm_compute; discriminate|vm_compute; reflexivity|lia|].
  assert (length (channel "c" s) = 2%nat /\ (MsgID <$> channel "c" s) = [2; 4] /\ maxPerChannel s = 3) as (E1 & E2 & E3) by (vm_compute in Hr; injection Hr as <-; vm_compute; split_and!; reflexivity).
  exists s. split; [exact Hr|]. split; [rewrite <- E3; exact Hc|]. split; [exact E2|]. apply Ht. rewrite E1. lia.
Defined.

Lemma chat_calls_witness : exists s, run (take 6 demo_ops) (New []) = Ret s /\ exists s', Delete "c" 4 s = (s', true) /\ (MsgID <$> channel "c" s') = [1; 2; 4].
Proof.
  destruct (chat_calls [] (take 6 demo_ops) "c" "a" "x" 9 4) as (s & Hr & _ & s' & Hd & Hb & _); [vm_compute; discriminate|vm_compute; reflexivity|discriminate|discriminate|].
  exists s. split; [exact Hr|]. exists s'. vm_compute in Hr. injection Hr as <-. split; [rewrite Hd; reflexivity|rewrite Hb; vm_compute; reflexivity].
Defined.

(** A cursor below zero reads from the oldest message on. *)
Lemma negative_cursor : match run demo_ops (New []) with
  | Ret s => (MsgID <$> After "c" (-1) 1 s) = [1] /\ (MsgID <$> Latest "c" 1 s) = [4]
  | Panic _ => False end.
Proof. vm_compute. by split. Qed.

(** A capacity below zero is accepted; the first message posted panics. *)
Lemma negative_channel_panics : Post "c" "a" "" 1 (New [WithMaxPerChannel (-1)]) = Panic "runtime error: slice bounds out of range".
Proof. vm_compute. reflexivity. Qed.
