(* ===== verification/Notification.v ===== *)
(** Offline notifications ([pkg/domain/notification/notification.go]): a box per user on [Box], whose
    entries are the pointers the callers of [Send] pass. The store writes through them, so the
    notifications live in a memory of their own here. *)
From Stdlib Require Import ZArith Lia Bool Sorted.
From stdpp Require Import base numbers strings list gmap sets sorting.
From S2P Require Import Prelude Box.

Open Scope Z_scope.

Record Notification := MkNotification {
  ID : Z; UserID : string; SenderID : string; Subject : string; Content : string; Code : Z; Persistent : bool; Seq : Z; CreateTime : Z
}.

(** The memory is a list; a pointer is a place in it, and one that is not in it is nil. *)
Definition deref (h : list Notification) (p : nat) : go Notification :=
  match h !! p with Some n => Ret n | None => Panic "runtime error: invalid memory address or nil pointer dereference" end.

Record Store := MkStore {
  byUser : gmap string (list nat); byUserSeq : gmap string Z; seq : Z; live : bool; maxPerUser : Z
}.

Definition WithMaxPerUser (n : Z) (c : Z) : Z := n.
Definition New (sink : bool) (opts : list (Z -> Z)) : Store := MkStore ∅ ∅ 0 sink (foldl (fun c o => o c) 256 opts).

Definition box (u : string) (s : Store) : list nat := default [] (byUser s !! u).

Definition stamped (id now : Z) (n : Notification) : Notification :=
  MkNotification id (UserID n) (SenderID n) (Subject n) (Content n) (Code n) (Persistent n) (Seq n) (if CreateTime n =? 0 then now else CreateTime n).
Definition with_seq (k : Z) (n : Notification) : Notification :=
  MkNotification (ID n) (UserID n) (SenderID n) (Subject n) (Content n) (Code n) (Persistent n) k (CreateTime n).

(** [now] is the reading of the clock; what the sink is called with is an output, the answer of the sink
    is not used. *)
Definition Send (now : Z) (p : nat) (h : list Notification) (s : Store) : go (list Notification * Store * option nat * list (string * nat)) :=
  n ← deref h p;
  let id := wrap64 (seq s + 1) in
  let n := stamped id now n in
  let h := <[p := n]> h in
  let out := if live s then [(UserID n, p)] else [] in
  if negb (Persistent n) then Ret (h, MkStore (byUser s) (byUserSeq s) id (live s) (maxPerUser s), None, out)
  else
    let k := wrap64 (default 0 (byUserSeq s !! UserID n) + 1) in
    l ← trim (maxPerUser s) (box (UserID n) s ++ [p]);
    Ret (<[p := with_seq k n]> h, MkStore (<[UserID n := l]> (byUser s)) (<[UserID n := k]> (byUserSeq s)) id (live s) (maxPerUser s), Some p, out).

(** The loop of [List], with the number of those collected. *)
Fixpoint list_loop (h : list Notification) (afterSeq limit k : Z) (l : list nat) : go (list Notification) :=
  match l with
  | [] => Ret []
  | p :: l =>
      n ← deref h p;
      if Seq n <=? afterSeq then list_loop h afterSeq limit k l
      else if limit <=? k + 1 then Ret [n]
      else rest ← list_loop h afterSeq limit (k + 1) l; Ret (n :: rest)
  end.

(** The greatest capacity for which [make] reserves a slice of notifications: 104 bytes each of the 2^48
    that can be addressed. *)
Definition max_cap : Z := 2 ^ 48 / 104.

Definition List_ (userID : string) (afterSeq limit : Z) (h : list Notification) (s : Store) : go (list Notification) :=
  let limit := if limit <=? 0 then 50 else limit in
  if max_cap <? limit then Panic "runtime error: makeslice: cap out of range" else list_loop h afterSeq limit 0 (box userID s).

Fixpoint delete_loop (h : list Notification) (id : Z) (l : list nat) : go (option (list nat)) :=
  match l with
  | [] => Ret None
  | p :: l => n ← deref h p; if ID n =? id then Ret (Some l) else r ← delete_loop h id l; Ret (option_map (cons p) r)
  end.
Definition Delete (userID : string) (id : Z) (h : list Notification) (s : Store) : go (Store * bool) :=
  r ← delete_loop h id (box userID s);
  Ret (match r with
       | None => (s, false)
       | Some l => (MkStore (<[userID := l]> (byUser s)) (byUserSeq s) (seq s) (live s) (maxPerUser s), true)
       end).
Definition DeleteAll (userID : string) (s : Store) : Store :=
  MkStore (delete userID (byUser s)) (byUserSeq s) (seq s) (live s) (maxPerUser s).
Definition Count (userID : string) (s : Store) : Z := Z.of_nat (length (box userID s)).

(** * Histories *)

(** The usual call passes a pointer to a new notification; [OResend] passes one that was passed before. *)
Inductive op := OSend (now : Z) (n : Notification) | OResend (now : Z) (p : nat) | ODelete (u : string) (id : Z) | ODeleteAll (u : string).

Definition exec (o : op) (w : list Notification * Store) : go (list Notification * Store) :=
  let '(h, s) := w in
  match o with
  | OSend now n => y ← Send now (length h) (h ++ [n]) s; Ret y.1.1
  | OResend now p => y ← Send now p h s; Ret y.1.1
  | ODelete u id => y ← Delete u id h s; Ret (h, y.1)
  | ODeleteAll u => Ret (h, DeleteAll u s)
  end.
Fixpoint run (ops : list op) (w : list Notification * Store) : go (list Notification * Store) :=
  match ops with [] => Ret w | o :: ops => w ← exec o w; run ops w end.
Definition fresh_op (o : op) : Prop := match o with OResend _ _ => False | _ => True end.

(** What a box holds. *)
Definition zero : Notification := MkNotification 0 "" "" "" "" 0 false 0 0.
Definition val (h : list Notification) (p : nat) : Notification := default zero (h !! p).
Definition entries (u : string) (w : list Notification * Store) : list Notification := fmap (M := list) (val w.1) (box u w.2).

Definition view (w : list Notification * Store) : gmap string (list Notification) := fmap (M := gmap string) (fun l : list nat => val w.1 <$> l) (byUser w.2).

(** After [n] calls. *)
Record inv (n : Z) (w : list Notification * Store) : Prop := {
  in_max : 0 <= maxPerUser w.2;
  in_numbered : numbered Seq (maxPerUser w.2) (view w) (byUserSeq w.2);
  in_memory : forall u p, p ∈ box u w.2 -> (p < length w.1)%nat;
  in_ids : identified ID (seq w.2) (view w);
  in_count : 0 <= seq w.2 <= n /\ forall u, default 0 (byUserSeq w.2 !! u) <= seq w.2
}.

Lemma entries_view u w : default [] (view w !! u) = entries u w.
Proof. unfold view. rewrite lookup_fmap. unfold entries, box. by destruct (byUser w.2 !! u). Qed.

Lemma inv_entries n u w : inv n w ->
  sorted Seq (entries u w) /\ Z.of_nat (length (entries u w)) <= maxPerUser w.2 /\ forall x, x ∈ entries u w -> 0 < Seq x <= default 0 (byUserSeq w.2 !! u).
Proof. intros [Hm Hn _ _ _]. pose proof (numbered_box Seq _ _ _ u Hm Hn) as H. cbv zeta in H. by rewrite entries_view in H. Qed.

Lemma deref_val h p : (p < length h)%nat -> deref h p = Ret (val h p).
Proof. intros [n Hn]%lookup_lt_is_Some_2. unfold deref, val. by rewrite Hn. Qed.

Lemma list_loop_spec h a limit (l : list nat) : (forall p, p ∈ l -> (p < length h)%nat) -> forall k,
  list_loop h a limit k l = Ret (collect (fun x => negb (Seq x <=? a)) limit k (val h <$> l)).
Proof.
  induction l as [|p l IH]; intros Hl k; [done|]. cbn [list_loop]. rewrite fmap_cons. cbn [collect]. rewrite deref_val by (apply Hl; left).
  cbn [mbind go_bind]. assert (forall q, q ∈ l -> (q < length h)%nat) as Hl' by (intros q Hq; apply Hl; by right).
  destruct (Seq (val h p) <=? a); cbn [negb]; [by apply IH|]. destruct (limit <=? k + 1); [done|]. by rewrite IH.
Qed.

Lemma notification_page n u c limit w : inv n w -> 0 < limit <= max_cap -> List_ u c limit w.1 w.2 = Ret (after_page Seq (entries u w) c limit).
Proof.
  intros Hi Hl. unfold List_. rewrite (proj2 (Z.leb_gt _ _)), (proj2 (Z.ltb_ge _ _)) by lia. apply list_loop_spec. intros p. apply Hi.
Qed.

(** The memory grown by one, and what the boxes hold. *)
Lemma val_app h n p : (p < length h)%nat -> val (h ++ [n]) p = val h p.
Proof. intros Hp. unfold val. by rewrite lookup_app_l. Qed.
Lemma val_new h n : val (h ++ [n]) (length h) = n.
Proof. unfold val. by rewrite list_lookup_middle. Qed.
Lemma vals_app h n (l : list nat) : (forall p, p ∈ l -> (p < length h)%nat) -> val (h ++ [n]) <$> l = val h <$> l.
Proof. intros Hl. apply list_fmap_ext. intros i p Hp. apply val_app, Hl. by eapply list_elem_of_lookup_2. Qed.

Lemma in_box u l s : byUser s !! u = Some l -> forall p, p ∈ l -> p ∈ box u s.
Proof. intros E p. unfold box. by rewrite E. Qed.

Lemma view_app h n s : (forall u p, p ∈ box u s -> (p < length h)%nat) -> view (h ++ [n], s) = view (h, s).
Proof.
  intros Hp. apply map_fmap_ext. intros u l E. apply vals_app. intros p Hl. apply (Hp u). by eapply in_box.
Qed.
Lemma entries_app h n s u : (forall u p, p ∈ box u s -> (p < length h)%nat) -> entries u (h ++ [n], s) = entries u (h, s).
Proof. intros Hp. unfold entries. cbn [fst snd]. apply vals_app, Hp. Qed.

Lemma trim_fmap {X Y} (f : X -> Y) n l k : trim n (f <$> l) = Ret (drop k (f <$> l)) -> exists k', trim n l = Ret (drop k' l) /\ drop k (f <$> l) = f <$> drop k' l.
Proof.
  unfold trim. rewrite length_fmap. destruct (n <? Z.of_nat (length l)).
  - destruct (n <? 0); [done|]. intros [= <-]. eexists. split; [done|]. by rewrite fmap_drop.
  - intros [= <-]. exists 0%nat. by rewrite !drop_0.
Qed.

(** * The calls *)

Lemma stamped_seq id now n k : with_seq k (stamped id now n) =
  MkNotification id (UserID n) (SenderID n) (Subject n) (Content n) (Code n) (Persistent n) k (if CreateTime n =? 0 then now else CreateTime n).
Proof. done. Qed.

Lemma insert_new {A} (h : list A) n n' : <[length h := n']> (h ++ [n]) = h ++ [n'].
Proof. by rewrite insert_app_r_alt, Nat.sub_diag by lia. Qed.

(** A notification sent by a new pointer. *)
Lemma notification_Send k now n h s : inv k (h, s) -> k < 2 ^ 62 -> exists s' r out, let x := with_seq (default 0 (byUserSeq s !! UserID n) + 1) (stamped (seq s + 1) now n) in
  Send now (length h) (h ++ [n]) s = Ret (h ++ [if Persistent n then x else stamped (seq s + 1) now n], s', r, out) /\
  inv (k + 1) (h ++ [if Persistent n then x else stamped (seq s + 1) now n], s') /\
  out = (if live s then [(UserID n, length h)] else []) /\
  (if Persistent n then r = Some (length h) /\ (exists j, entries (UserID n) (h ++ [x], s') = drop j (entries (UserID n) (h, s) ++ [x])) /\
     forall u, u <> UserID n -> entries u (h ++ [x], s') = entries u (h, s)
   else r = None /\ forall u, entries u (h ++ [stamped (seq s + 1) now n], s') = entries u (h, s)).
Proof.
  intros [Hm Hn Hmem Hid [Hc Hq]] Hlt. cbn [fst snd] in *. pose proof (Hq (UserID n)). pose proof (proj1 Hn (UserID n)).
  unfold Send. unfold deref. rewrite list_lookup_middle by done. cbn [mbind go_bind stamped Persistent UserID].
  rewrite (wrap64_id (seq s + 1)), (wrap64_id (default 0 _ + 1)) by (unfold int64; lia).
  rewrite !insert_new. destruct (Persistent n) eqn:Ep; cbn [negb].
  - set (x := with_seq _ _). pose proof (numbered_append Seq _ _ _ (UserID n) x Hm Hn eq_refl) as (j & Ht & Hn').
    rewrite entries_view in Ht, Hn'.
    assert (entries (UserID n) (h, s) ++ [x] = val (h ++ [x]) <$> (box (UserID n) s ++ [length h])) as Ex.
    { rewrite fmap_app. cbn. rewrite val_new. f_equal. symmetry. apply vals_app, Hmem. }
    pose proof (identified_append ID _ _ (UserID n) x j Hid eq_refl) as Hid'. rewrite entries_view in Hid'.
    rewrite Ex in Ht, Hn', Hid'. apply trim_fmap in Ht as (j' & -> & Ej). cbn [mbind go_bind]. set (l := drop j' _) in *.
    do 3 eexists. split; [done|]. split; [|split; [done|split; [done|split]]].
    + assert (forall u p, p ∈ default [] (<[UserID n := l]> (byUser s) !! u) -> (p < length (h ++ [x]))%nat) as Hmem'.
      { intros u p. rewrite length_app. cbn [length]. destruct (decide (UserID n = u)) as [<-|Hd].
        - rewrite lookup_insert_eq. cbn. intros Hp. assert (p ∈ box (UserID n) s ++ [length h]) as [Hb| ->%list_elem_of_singleton]%elem_of_app; [|specialize (Hmem _ _ Hb); lia|lia].
          unfold l in Hp. rewrite <- (take_drop j' (box _ s ++ _)). apply elem_of_app. by right.
        - rewrite lookup_insert_ne by done. intros Hp. specialize (Hmem _ _ Hp). lia. }
      assert (view (h ++ [x], MkStore (<[UserID n := l]> (byUser s)) (<[UserID n := Seq x]> (byUserSeq s)) (seq s + 1) (live s) (maxPerUser s)) =
        <[UserID n := val (h ++ [x]) <$> l]> (view (h, s))) as Ev.
      { rewrite <- (view_app h x s Hmem). unfold view. cbn. by rewrite fmap_insert. }
      rewrite Ej, <- Ev in Hn', Hid'. split; cbn [fst snd maxPerUser byUserSeq seq]; [done|exact Hn'|done|exact Hid'|].
      split; [lia|]. intros u. destruct (decide (UserID n = u)) as [<-|Hd]; [rewrite lookup_insert_eq; cbn; lia|rewrite lookup_insert_ne by done; specialize (Hq u); lia].
    + exists j. rewrite Ex, Ej. unfold entries, box. cbn. by rewrite lookup_insert_eq.
    + intros u Hu. rewrite <- (entries_app h x s u Hmem). unfold entries, box. cbn. by rewrite lookup_insert_ne.
  - set (x := stamped _ _ _). do 3 eexists. split; [done|]. split; [|split; [done|split; [done|]]]; [|intros u; by rewrite <- (entries_app h x s u Hmem)].
    split; cbn [fst snd maxPerUser byUserSeq seq]; [done| | | |].
    + change (numbered Seq (maxPerUser s) (view (h ++ [x], s)) (byUserSeq s)). by rewrite view_app.
    + intros u p Hp. rewrite length_app. cbn [length]. specialize (Hmem u p Hp). lia.
    + change (identified ID (seq s + 1) (view (h ++ [x], s))). rewrite view_app by done. eapply identified_mono; [done|lia].
    + split; [lia|]. intros u. specialize (Hq u). lia.
Qed.

Lemma delete_loop_spec h id (l : list nat) : (forall p, p ∈ l -> (p < length h)%nat) -> sorted ID (val h <$> l) ->
  exists l', delete_loop h id l = Ret (if bool_decide (id ∈ ID <$> (val h <$> l)) then Some l' else None) /\
  val h <$> l' = List.filter (fun m => negb (ID m =? id)) (val h <$> l) /\ (forall p, p ∈ l' -> p ∈ l).
Proof.
  induction l as [|p l IH]; intros Hl Hs; [by exists []|]. rewrite !fmap_cons in *. apply StronglySorted_inv in Hs as [Hs Hm]. rewrite Forall_forall in Hm.
  cbn [delete_loop List.filter]. rewrite deref_val by (apply Hl; left). cbn [mbind go_bind].
  destruct (Z.eqb_spec (ID (val h p)) id) as [<-|Hd]; cbn [negb].
  - exists l. rewrite bool_decide_true by left. split; [done|]. split; [|by right]. symmetry. apply filter_all_in. intros x Hx. specialize (Hm x Hx). apply negb_true_iff, Z.eqb_neq. lia.
  - destruct IH as (l' & -> & E & Hsub); [intros q Hq; apply Hl; by right|done|]. exists (p :: l'). cbn [mbind go_bind].
    rewrite (bool_decide_ext (id ∈ ID (val h p) :: (ID <$> (val h <$> l))) (id ∈ ID <$> (val h <$> l))) by set_solver. split; [by case_bool_decide|].
    rewrite fmap_cons, E. split; [done|]. intros q [->|Hq]%elem_of_cons; [left|right; by apply Hsub].
Qed.

Lemma notification_Delete k u id h s : inv k (h, s) -> exists s', Delete u id h s = Ret (s', bool_decide (id ∈ ID <$> entries u (h, s))) /\ inv k (h, s') /\
  entries u (h, s') = List.filter (fun m => negb (ID m =? id)) (entries u (h, s)) /\ forall u', u' <> u -> entries u' (h, s') = entries u' (h, s).
Proof.
  intros Hi. destruct (inv_entries k u (h, s) Hi) as (Hs & Hlen & Hp). destruct Hi as [Hm Hn Hmem Hid Hc]. cbn [fst snd] in *.
  pose proof (Hid u) as [Hsi Hli]. rewrite entries_view in Hsi, Hli. unfold Delete.
  destruct (delete_loop_spec h id (box u s) (Hmem u) Hsi) as (l & -> & El & Hsub). cbn [mbind go_bind]. change (val h <$> box u s) with (entries u (h, s)) in *.
  case_bool_decide as He.
  - set (s' := MkStore _ _ _ _ _). assert (view (h, s') = <[u := val h <$> l]> (view (h, s))) as Ev by (unfold view; cbn; by rewrite fmap_insert).
    assert (forall x, x ∈ val h <$> l -> x ∈ entries u (h, s)) as Hs' by (rewrite El; intros x [Hx _]%list_elem_of_In%filter_In; by apply list_elem_of_In).
    exists s'. split; [done|]. split; [|split].
    + split; cbn [fst snd]; [done| | | |done].
      * rewrite Ev. apply numbered_insert; [done|rewrite El; by apply sorted_filter| |].
        -- etrans; [|exact Hlen]. rewrite El. apply Nat2Z.inj_le, List.filter_length_le.
        -- intros x Hx. by apply Hp, Hs'.
      * intros u' p. unfold s', box. cbn [byUser]. destruct (decide (u = u')) as [<-|Hd]; [rewrite lookup_insert_eq|rewrite lookup_insert_ne by done; by apply Hmem].
        cbn. intros Hl. apply (Hmem u). by apply Hsub.
      * rewrite Ev. apply identified_insert; [done|rewrite El; by apply (sorted_filter ID)|]. intros m Hx. apply Hli. by apply Hs'.
    + unfold entries, s', box at 1. cbn. rewrite lookup_insert_eq. cbn. done.
    + intros u' Hd. unfold entries, s', box. cbn. by rewrite lookup_insert_ne.
  - exists s. split; [done|]. split; [by split|]. split; [|done]. symmetry. apply filter_all_in. intros x Hx. apply negb_true_iff, Z.eqb_neq. intros <-.
    apply He. by apply list_elem_of_fmap_2.
Qed.

Lemma DeleteAll_spec k u h s : inv k (h, s) -> inv k (h, DeleteAll u s) /\ forall u', entries u' (h, DeleteAll u s) = if decide (u' = u) then [] else entries u' (h, s).
Proof.
  intros [Hm Hn Hmem Hid Hc]. cbn [fst snd] in *. assert (view (h, DeleteAll u s) = delete u (view (h, s))) as Ev by (unfold view; cbn; by rewrite fmap_delete).
  split.
  - split; cbn [fst snd]; [done|rewrite Ev; by apply numbered_delete| |rewrite Ev; by apply identified_delete|done].
    intros u' p. unfold DeleteAll, box. cbn [byUser]. destruct (decide (u = u')) as [<-|Hd]; [rewrite lookup_delete_eq; by intros ?%elem_of_nil|rewrite lookup_delete_ne by done; by apply Hmem].
  - intros u'. unfold entries, DeleteAll, box. cbn. case_decide as Hd; [subst u'; by rewrite lookup_delete_eq|by rewrite lookup_delete_ne].
Qed.

Lemma notification_inv_mono k k' w : inv k w -> k <= k' -> inv k' w.
Proof. intros [Hm Hn Hmem Hid Hc] H. split; [done|done|done|done|]. split; [lia|apply Hc]. Qed.

Lemma notification_run ops : forall k w, inv k w -> Forall fresh_op ops -> k + Z.of_nat (length ops) < 2 ^ 62 ->
  exists w', run ops w = Ret w' /\ inv (k + Z.of_nat (length ops)) w'.
Proof.
  induction ops as [|o ops IH]; intros k [h s] Hi Hf Hlt; cbn [run length] in *; [exists (h, s); by rewrite Z.add_0_r|].
  apply Forall_cons in Hf as [Ho Hf]. assert (exists w1, exec o (h, s) = Ret w1 /\ inv (k + 1) w1) as (w1 & -> & Hi1).
  { destruct o as [now n|now p|u id|u]; cbn [exec]; [| |destruct (notification_Delete k u id h s Hi) as (s' & -> & Hi' & _)|destruct (DeleteAll_spec k u h s Hi) as [Hi' _]].
    - destruct (notification_Send k now n h s Hi) as (s' & r & out & -> & Hi' & _); [lia|]. by eexists.
    - done.
    - eexists. split; [done|]. eapply notification_inv_mono; [exact Hi'|lia].
    - eexists. split; [done|]. eapply notification_inv_mono; [exact Hi'|lia]. }
  cbn [mbind go_bind]. destruct (IH (k + 1) w1 Hi1 Hf) as (w' & E & Hi'); [lia|].
  exists w'. split; [done|]. eapply notification_inv_mono; [exact Hi'|lia].
Qed.

Lemma notification_new sink opts : 0 <= maxPerUser (New sink opts) -> inv 0 ([], New sink opts).
Proof.
  intros Hm. split; cbn; [done|apply numbered_empty|intros u p; unfold box; cbn; rewrite lookup_empty; by intros ?%elem_of_nil|apply identified_empty|].
  split; [lia|]. intros u. by rewrite lookup_empty.
Qed.

(** In every history of calls in which a pointer is sent once nothing panics, a user has no more
    notifications than the capacity, and turning the pages of [List] from zero reads each of them once,
    the oldest first, whatever the size of a page, up to the largest for which there is memory. *)
Theorem notification_pages sink opts ops u limit fuel : 0 <= maxPerUser (New sink opts) -> Z.of_nat (length ops) < 2 ^ 61 -> Forall fresh_op ops ->
  0 < limit <= max_cap -> exists w, run ops ([], New sink opts) = Ret w /\ Count u w.2 <= maxPerUser w.2 /\
  exists page, (forall c, List_ u c limit w.1 w.2 = Ret (page c)) /\ ((length (entries u w) < fuel)%nat -> turn Seq fuel page 0 = entries u w).
Proof.
  intros Hm Hlen Hf Hl. destruct (notification_run ops 0 _ (notification_new sink opts Hm) Hf) as (w & Hr & Hi); [lia|]. exists w. split; [done|].
  destruct (inv_entries _ u w Hi) as (Hs & Hc & Hp). split; [unfold Count; by rewrite <- (length_fmap (val w.1))|].
  exists (fun c => after_page Seq (entries u w) c limit). split; [intros c; by eapply notification_page|]. intros ?. apply turn_up; [done| |lia|done].
  intros x Hx. by apply Hp.
Qed.

(** In every history of calls in which a pointer is sent once: a notification that is persistent goes
    to the end of its user's, with the next number and an identifier greater than theirs, and at most
    the oldest are cut; one that is not is not kept; either is handed to the sink if there is one; a
    notification is deleted by its identifier, and the answer is whether the user has it. *)
Theorem notification_calls sink opts ops now n u id : 0 <= maxPerUser (New sink opts) -> Z.of_nat (length ops) < 2 ^ 61 -> Forall fresh_op ops ->
  exists h s, run ops ([], New sink opts) = Ret (h, s) /\
  (exists h' s' r out, Send now (length h) (h ++ [n]) s = Ret (h', s', r, out) /\ out = (if live s then [(UserID n, length h)] else []) /\
     (Persistent n = false -> r = None /\ forall u, entries u (h', s') = entries u (h, s)) /\
     (Persistent n = true -> r = Some (length h) /\
        (exists x k, entries (UserID n) (h', s') = drop k (entries (UserID n) (h, s) ++ [x]) /\ Content x = Content n /\
           Seq x = default 0 (byUserSeq s !! UserID n) + 1 /\ forall y, y ∈ entries (UserID n) (h, s) -> ID y < ID x) /\
        forall u, u <> UserID n -> entries u (h', s') = entries u (h, s))) /\
  (exists s', Delete u id h s = Ret (s', bool_decide (id ∈ ID <$> entries u (h, s))) /\
     entries u (h, s') = List.filter (fun m => negb (ID m =? id)) (entries u (h, s))).
Proof.
  intros Hm Hlen Hf. destruct (notification_run ops 0 _ (notification_new sink opts Hm) Hf) as ([h s] & Hr & Hi); [lia|]. exists h, s. split; [done|]. split.
  - destruct (notification_Send _ now n h s Hi) as (s' & r & out & E & _ & Eo & Hp); [lia|]. do 4 eexists. split; [exact E|]. split; [done|].
    destruct (Persistent n); (split; [try done|try done]). intros _. destruct Hp as (-> & [k Hk] & Hne). split; [done|]. split; [|done].
    do 2 eexists. split; [exact Hk|]. split; [done|]. split; [done|]. intros y Hy. cbn [with_seq stamped ID].
    pose proof (in_ids _ _ Hi (UserID n)) as [_ Hl]. rewrite entries_view in Hl. specialize (Hl y Hy). cbn [snd] in Hl. lia.
  - destruct (notification_Delete _ u id h s Hi) as (s' & E & _ & ? & _). by exists s'.
Qed.

(** * Runs *)

Definition note (u c : string) (persistent : bool) : Notification := MkNotification 0 u "" "m" c 0 persistent 0 0.
Definition demo_ops : list op :=
  [OSend 1 (note "u" "1" true); OSend 2 (note "u" "2" true); OSend 3 (note "u" "gone" false); OSend 4 (note "v" "3" true);
   OSend 5 (note "u" "4" true); OSend 6 (note "u" "5" true); ODelete "u" 5].

Lemma notification_pages_witness : exists w, run demo_ops ([], New true [WithMaxPerUser 3]) = Ret w /\ Count "u" w.2 <= maxPerUser w.2 /\
  exists page, (forall c, List_ "u" c 1 w.1 w.2 = Ret (page c)) /\ ((length (entries "u" w) < 3)%nat -> turn Seq 3 page 0 = entries "u" w).
Proof.
  apply (notification_pages true [WithMaxPerUser 3] demo_ops "u" 1 3); [vm_compute; discriminate|vm_compute; reflexivity| |vm_compute; split; [reflexivity|discriminate]].
  unfold demo_ops. repeat constructor.
Defined.

Lemma notification_calls_witness : exists h s, run (take 6 demo_ops) ([], New true []) = Ret (h, s) /\
  exists s', Delete "u" 5 h s = Ret (s', true) /\ (Content <$> entries "u" (h, s')) = ["1"; "2"; "5"].
Proof.
  destruct (notification_calls true [] (take 6 demo_ops) 9 (note "u" "x" true) "u" 5) as (h & s & Hr & _ & s' & Hd & Hb).
  - vm_compute. discriminate.
  - vm_compute. reflexivity.
  - cbn. repeat constructor.
  - exists h, s. split; [exact Hr|]. exists s'. vm_compute in Hr. injection Hr as <- <-. split; [rewrite Hd; reflexivity|rewrite Hb; vm_compute; reflexivity].
Defined.

(** A pointer sent twice is stored twice, and the second call rewrites what the first stored: the numbers
    are out of order, and the pages of one leave out the notification between. *)
Lemma resent_pointer : match run [OSend 1 (note "u" "1" true); OSend 2 (note "u" "2" true); OResend 3 0%nat] ([], New false []) with
  | Ret (h, s) => (Seq <$> entries "u" (h, s)) = [3; 2; 3] /\ (ID <$> entries "u" (h, s)) = [3; 2; 3] /\
      List_ "u" 0 1 h s = Ret (take 1 (entries "u" (h, s))) /\ List_ "u" 3 1 h s = Ret []
  | Panic _ => False end.
Proof. vm_compute. by split_and!. Qed.

(** A page as large as a client may ask for panics. *)
Lemma huge_page_panics : List_ "u" 0 (2 ^ 62) [] (New false []) = Panic "runtime error: makeslice: cap out of range".
Proof. vm_compute. reflexivity. Qed.
