(* ===== verification/Handoff.v ===== *)
(** The hand-over of an entity between two processes ([pkg/handoff/handoff.go]): the phases of the source
    and the target, the commands buffered meanwhile, and the protocol its documentation prescribes to
    the callers, as a step relation. *)
From Stdlib Require Import ZArith Lia Bool.
From stdpp Require Import base numbers strings list relations.
From S2P Require Import Prelude.

Open Scope Z_scope.

Inductive Phase := PhaseOwned | PhaseExporting | PhaseReleased | PhaseImporting.
#[global] Instance phase_eq_dec : EqDecision Phase.
Proof. solve_decision. Defined.
Definition Phase_String (p : Phase) : string :=
  match p with PhaseOwned => "owned" | PhaseExporting => "exporting" | PhaseReleased => "released" | PhaseImporting => "importing" end.

Inductive hErr := ErrNotOwned | ErrAlreadyExport | ErrNotExporting | ErrNotImporting | ErrReleased.

Section handoff.
Context {S C : Type}.

Record Bundle := MkBundle { State : S; Buffered : list C }.

(** ** The source *)

Record Source := MkSource { phase : Phase; state : S; buffer : list C; beginAt : Z }.

Definition NewSource (s : S) : Source := MkSource PhaseOwned s [] 0.

Definition Begin (now : Z) (s : Source) : Source * option hErr :=
  match phase s with
  | PhaseOwned => (MkSource PhaseExporting (state s) [] now, None)
  | PhaseExporting => (s, Some ErrAlreadyExport)
  | PhaseReleased => (s, Some ErrReleased)
  | PhaseImporting => (s, Some ErrNotOwned)
  end.

Definition Buffer (c : C) (s : Source) : Source * bool * option hErr :=
  match phase s with
  | PhaseOwned => (s, false, None)
  | PhaseExporting => (MkSource (phase s) (state s) (buffer s ++ [c]) (beginAt s), true, None)
  | PhaseReleased => (s, false, Some ErrReleased)
  | PhaseImporting => (s, false, Some ErrNotOwned)
  end.

Definition exporting (s : Source) : bool := bool_decide (phase s = PhaseExporting).
Definition with_phase (p : Phase) (s : Source) : Source := MkSource p (state s) [] (beginAt s).

Definition Export (s : Source) : Source * result hErr Bundle :=
  if exporting s then (with_phase (phase s) s, Ok (MkBundle (state s) (buffer s))) else (s, Err ErrNotExporting).
Definition DrainBuffer (s : Source) : Source * result hErr (list C) :=
  if exporting s then (with_phase (phase s) s, Ok (buffer s)) else (s, Err ErrNotExporting).
Definition Release (s : Source) : Source * option hErr :=
  if exporting s then (with_phase PhaseReleased s, None) else (s, Some ErrNotExporting).
Definition Abort_ (s : Source) : Source * result hErr (list C) :=
  if exporting s then (with_phase PhaseOwned s, Ok (buffer s)) else (s, Err ErrNotExporting).
Definition ExportingSince (s : Source) : option Z := if exporting s then Some (beginAt s) else None.

(** ** The target *)

(** The state is [None] where the code has the zero value. *)
Record Target := MkTarget { tphase : Phase; tstate : option S }.

Definition NewTarget : Target := MkTarget PhaseImporting None.
Definition Import_ (b : Bundle) (t : Target) : Target * result hErr (list C) :=
  if bool_decide (tphase t = PhaseImporting) then (MkTarget (tphase t) (Some (State b)), Ok (Buffered b)) else (t, Err ErrNotImporting).
Definition Accept (t : Target) : Target * option hErr :=
  if bool_decide (tphase t = PhaseImporting) then (MkTarget PhaseOwned (tstate t), None) else (t, Some ErrNotImporting).
Definition UpdateState (x : S) (t : Target) : Target := MkTarget (tphase t) (Some x).

(** * Commands handed out *)

Inductive op := OBegin (now : Z) | OBuffer (c : C) | OExport | ODrain | ORelease | OAbort.

(** The commands taken in and given back by a call, the state exported, and whether it succeeded. *)
Record answer := MkAnswer { taken : list C; given : list C; exported : list S; dropped : list C }.
Definition quiet : answer := MkAnswer [] [] [] [].

Definition exec (o : op) (s : Source) : Source * answer :=
  match o with
  | OBegin now => ((Begin now s).1, quiet)
  | OBuffer c => let '(s, b, _) := Buffer c s in (s, MkAnswer (if b : bool then [c] else []) [] [] [])
  | OExport => match Export s with (s, Ok b) => (s, MkAnswer [] (Buffered b) [State b] []) | (s, Err _) => (s, quiet) end
  | ODrain => match DrainBuffer s with (s, Ok l) => (s, MkAnswer [] l [] []) | (s, Err _) => (s, quiet) end
  | ORelease => match Release s with (s', None) => (s', MkAnswer [] [] [] (buffer s)) | (s', Some _) => (s', quiet) end
  | OAbort => match Abort_ s with (s, Ok l) => (s, MkAnswer [] l [] []) | (s, Err _) => (s, quiet) end
  end.
Fixpoint run (ops : list op) (s : Source) : Source * list answer :=
  match ops with
  | [] => (s, [])
  | o :: ops => let '(s, a) := exec o s in let '(s, l) := run ops s in (s, a :: l)
  end.

(** Outside the export nothing is buffered. *)
Definition calm (s : Source) : Prop := phase s <> PhaseExporting -> buffer s = [].

Lemma handoff_exec o s : calm s -> let '(s', a) := exec o s in calm s' /\ state s' = state s /\ Forall (fun x => x = state s) (exported a) /\
  buffer s ++ taken a = given a ++ dropped a ++ buffer s' /\ (dropped a <> [] -> phase s' = PhaseReleased).
Proof.
  destruct s as [p x b t]. unfold calm. cbn. intros Hc.
  destruct o; cbn; destruct p; cbn in *; rewrite ?app_nil_r; (split_and!; [try done; intros ?; by try apply Hc|done|by repeat constructor|try done; by rewrite Hc by done|done]).
Qed.

Lemma run_calm ops : forall s, calm s -> let '(s', l) := run ops s in calm s' /\ state s' = state s /\
  Forall (fun a => Forall (fun x => x = state s) (exported a)) l /\
  buffer s ++ mjoin (taken <$> l) = mjoin ((fun a => given a ++ dropped a) <$> l) ++ buffer s' /\
  (phase s = PhaseReleased -> phase s' = PhaseReleased /\ l = (fun _ => quiet) <$> ops).
Proof.
  induction ops as [|o ops IH]; intros s Hc; cbn [run]; [split_and!; try done; by rewrite app_nil_r|].
  pose proof (handoff_exec o s Hc) as Ho. destruct (exec o s) as [s1 a] eqn:Eo. destruct Ho as (Hc1 & Es & He & Eb & _).
  specialize (IH s1 Hc1). destruct (run ops s1) as [s2 l]. destruct IH as (Hc2 & Es2 & Hl & Eb2 & Hr). rewrite Es in *.
  split; [done|]. split; [done|]. split; [by constructor|]. split.
  - rewrite !fmap_cons. cbn [mjoin list_join]. rewrite app_assoc, Eb, <- !app_assoc. f_equal. f_equal. exact Eb2.
  - intros Hp. assert (phase s1 = PhaseReleased /\ a = quiet) as [Hp1 ->].
    { destruct s as [p x b t]. cbn in Hp, Hc. subst p. destruct o; cbn in Eo; injection Eo as <- <-; done. }
    destruct (Hr Hp1) as [? ->]. done.
Qed.

(** In every history of calls of a source the commands that were buffered are given back, by an
    export, a drain or an abort, in the order in which they came and each once, except for those still
    buffered and those a release drops; what is exported is the state the source was made with. *)
Theorem source_keeps (x : S) ops : let '(s, l) := run ops (NewSource x) in
  mjoin (taken <$> l) = mjoin ((fun a => given a ++ dropped a) <$> l) ++ buffer s /\
  Forall (fun a => Forall (fun y => y = x) (exported a)) l /\ (phase s <> PhaseExporting -> buffer s = []).
Proof. pose proof (run_calm ops (NewSource x) ltac:(done)) as H. destruct (run ops (NewSource x)) as [s l]. destruct H as (Hc & _ & He & Eb & _). done. Qed.

(** * The protocol *)

Context (apply : C -> S -> S).

(** What the caller of [Import_] does with the commands it is given. *)
Definition replay_all (l : list C) (x : S) : S := foldl (fun x c => apply c x) x l.
Definition replay (l : list C) (t : Target) : Target :=
  match tstate t with Some x => UpdateState (replay_all l x) t | None => t end.

Inductive message := MBundle (b : Bundle) | MCommands (l : list C).

(** The two ends, what is on the way between them, in order, and the commands buffered since the export
    began. *)
Record world := MkWorld { src : Source; tgt : Target; wire : list message; sent : bool; log : list C }.

Definition start (x : S) : world := MkWorld (NewSource x) NewTarget [] false [].

(** The calls in the order of the protocol: one export, then drains; the target accepts when it has been
    given the state; the source releases when the target has accepted and nothing is left to drain, and
    gives up only before it has sent the state. *)
Inductive step : world -> world -> Prop :=
| SBegin now s s' t : Begin now s = (s', None) -> step (MkWorld s t [] false []) (MkWorld s' t [] false [])
| SBuffer c s s' b t w e l : Buffer c s = (s', b, None) -> step (MkWorld s t w e l) (MkWorld s' t w e (if b then l ++ [c] else l))
| SExport s s' b t w l : Export s = (s', Ok b) -> step (MkWorld s t w false l) (MkWorld s' t (w ++ [MBundle b]) true l)
| SDrain s s' cs t w l : DrainBuffer s = (s', Ok cs) -> step (MkWorld s t w true l) (MkWorld s' t (w ++ [MCommands cs]) true l)
| SImport b cs s t t' w e l : Import_ b t = (t', Ok cs) -> step (MkWorld s t (MBundle b :: w) e l) (MkWorld s (replay cs t') w e l)
| SReplay cs s t w e l : step (MkWorld s t (MCommands cs :: w) e l) (MkWorld s (replay cs t) w e l)
| SAccept s t t' w e l : tstate t <> None -> Accept t = (t', None) -> step (MkWorld s t w e l) (MkWorld s t' w e l)
| SRelease s s' t w e l : tphase t = PhaseOwned -> buffer s = [] -> Release s = (s', None) -> step (MkWorld s t w e l) (MkWorld s' t w e l)
| SAbort s s' cs t w l : Abort_ s = (s', Ok cs) -> step (MkWorld s t w false l) (MkWorld s' t w false []).

Inductive reachable (x : S) : world -> Prop :=
| reach_start : reachable x (start x)
| reach_step w w' : reachable x w -> step w w' -> reachable x w'.

Definition commands (w : list message) : list C := mbind (fun m => match m with MBundle b => Buffered b | MCommands l => l end) w.
Definition is_commands (m : message) : Prop := match m with MBundle _ => False | MCommands _ => True end.

Record inv (x : S) (w : world) : Prop := {
  in_state : state (src w) = x;
  in_calm : calm (src w);
  in_source : phase (src w) <> PhaseImporting;
  in_target : tphase (tgt w) = PhaseImporting \/ tphase (tgt w) = PhaseOwned;
  in_unsent : sent w = false -> wire w = [] /\ tstate (tgt w) = None /\ phase (src w) <> PhaseReleased /\ log w = buffer (src w);
  in_sent : sent w = true -> phase (src w) <> PhaseOwned;
  in_way : sent w = true -> tstate (tgt w) = None -> exists b cs, wire w = MBundle b :: cs /\ State b = x /\ Forall is_commands cs /\
    commands (wire w) ++ buffer (src w) = log w;
  in_there : forall y, tstate (tgt w) = Some y -> Forall is_commands (wire w) /\ sent w = true /\
    replay_all (commands (wire w) ++ buffer (src w)) y = replay_all (log w) x;
  in_owned : tphase (tgt w) = PhaseOwned -> tstate (tgt w) <> None;
  in_released : phase (src w) = PhaseReleased -> tphase (tgt w) = PhaseOwned
}.

Lemma replay_app l l' x : replay_all (l ++ l') x = replay_all l' (replay_all l x).
Proof. apply foldl_app. Qed.
Lemma commands_app w w' : commands (w ++ w') = commands w ++ commands w'.
Proof. apply bind_app. Qed.

Lemma exporting_true s : exporting s = true <-> phase s = PhaseExporting.
Proof. apply bool_decide_eq_true. Qed.

Lemma handoff_start_inv x : inv x (start x).
Proof. split; cbn; try done; try (by left). Qed.

(** The target after a delivery. *)
Lemma replay_state l t : tstate (replay l t) = replay_all l <$> tstate t.
Proof. by destruct t as [q [y|]]. Qed.
Lemma replay_phase l t : tphase (replay l t) = tphase t.
Proof. by destruct t as [q [y|]]. Qed.

Lemma deliver_inv x m s t w e l : inv x (MkWorld s t (m :: w) e l) ->
  match m with
  | MBundle b => forall t' cs, Import_ b t = (t', Ok cs) -> inv x (MkWorld s (replay cs t') w e l)
  | MCommands cs => inv x (MkWorld s (replay cs t) w e l)
  end.
Proof.
  intros [H1 H2 H3 H4 H5 H6 H7 H8 H9 H10]. cbn [src tgt wire sent log] in *.
  assert (e = true) as -> by (destruct e; [done|]; by destruct (H5 eq_refl)).
  destruct m as [b|cs].
  - intros t' cs. unfold Import_. case_bool_decide as Hp; [|done]. intros [= <- <-].
    destruct (tstate t) as [y|] eqn:Et; [by destruct (H8 y eq_refl) as ([? _]%Forall_cons & _)|].
    destruct (H7 eq_refl eq_refl) as (b' & ms & [= <- <-] & Eb & Hm & El).
    split; cbn [src tgt wire sent log]; rewrite ?replay_state, ?replay_phase; cbn [tphase tstate]; try done.
    + intros y [= <-]. split; [done|]. split; [done|]. rewrite Eb, <- El, <- replay_app. unfold commands. cbn [mbind list_bind]. by rewrite <- app_assoc.
  - destruct (tstate t) as [y|] eqn:Et.
    + destruct (H8 y eq_refl) as ([_ Hm]%Forall_cons & _ & E).
      split; cbn [src tgt wire sent log]; rewrite ?replay_state, ?replay_phase, ?Et; try done.
      intros z [= <-]. split; [done|]. split; [done|]. rewrite <- E, <- replay_app. unfold commands. cbn [mbind list_bind]. by rewrite <- app_assoc.
    + by destruct (H7 eq_refl eq_refl) as (? & ? & ? & _).
Qed.

Lemma handoff_step_inv x w w' : inv x w -> step w w' -> inv x w'.
Proof.
  intros Hi Hst. destruct Hst as [now s s' t Hb|c s s' b t w e l Hb|s s' b t w l Hb|s s' cs t w l Hb|b cs s t t' w e l Hb|cs s t w e l|s t t' w e l Hn Hb|s s' t w e l Ht Hbuf Hb|s s' cs t w l Hb].
  - destruct Hi as [H1 H2 H3 H4 H5 H6 H7 H8 H9 H10]. cbn [src tgt wire sent log] in *. unfold Begin in Hb.
    destruct (phase s) eqn:Ep; try done. injection Hb as <-. split; cbn [with_phase src tgt wire sent log phase state buffer tphase tstate]; try done; [intros _; destruct (H5 eq_refl) as (? & ? & ? & ?); done|]. intros y Hy. by destruct (H8 y Hy) as (_ & ? & _).
  - destruct Hi as [H1 H2 H3 H4 H5 H6 H7 H8 H9 H10]. cbn [src tgt wire sent log] in *. unfold Buffer in Hb.
    destruct (phase s) eqn:Ep; try done; injection Hb as <- <-; [by split; cbn [with_phase src tgt wire sent log phase state buffer tphase tstate]; rewrite ?Ep|]. split; unfold calm; cbn [src tgt wire sent log phase state buffer]; try done.
    + intros He. destruct (H5 He) as (? & ? & ? & ->). done.
    + intros He Et. destruct (H7 He Et) as (b & cs & Ew & ? & ? & El). exists b, cs. split_and!; [done..|]. by rewrite app_assoc, El.
    + intros y Ey. destruct (H8 y Ey) as (? & ? & E). split_and!; [done..|]. by rewrite app_assoc, replay_app, E, <- replay_app.
  - destruct Hi as [H1 H2 H3 H4 H5 H6 H7 H8 H9 H10]. cbn [src tgt wire sent log] in *. destruct (H5 eq_refl) as (-> & Et & Hr & ->).
    unfold Export in Hb. destruct (exporting s) eqn:Ee; [|done]. apply exporting_true in Ee. injection Hb as <- <-.
    split; unfold calm; cbn [with_phase src tgt wire sent log phase state buffer]; rewrite ?Ee, ?Et; try done; [|by rewrite Et in H9]. intros _ _. exists (MkBundle (state s) (buffer s)), []. cbn. split_and!; [done..|]. unfold commands. cbn. by rewrite !app_nil_r.
  - destruct Hi as [H1 H2 H3 H4 H5 H6 H7 H8 H9 H10]. cbn [src tgt wire sent log] in *.
    unfold DrainBuffer in Hb. destruct (exporting s) eqn:Ee; [|done]. apply exporting_true in Ee. injection Hb as <- <-.
    split; unfold calm; cbn [with_phase src tgt wire sent log phase state buffer]; rewrite ?Ee; try done; [|].
    + intros He Et. destruct (H7 He Et) as (b & cs & -> & ? & ? & El). exists b, (cs ++ [MCommands (buffer s)]). split_and!; [done..|by apply Forall_app_2; [done|repeat constructor]|].
      change (MBundle b :: cs ++ [MCommands (buffer s)]) with ((MBundle b :: cs) ++ [MCommands (buffer s)]). rewrite <- El, commands_app. unfold commands at 2. cbn. by rewrite !app_nil_r.
    + intros y Ey. destruct (H8 y Ey) as (? & ? & E). split_and!; [by apply Forall_app_2; [done|repeat constructor]|done|]. rewrite commands_app. unfold commands at 2. cbn. by rewrite !app_nil_r.
  - eapply (deliver_inv x (MBundle b)); done.
  - by apply (deliver_inv x (MCommands cs)).
  - destruct Hi as [H1 H2 H3 H4 H5 H6 H7 H8 H9 H10]. cbn [src tgt wire sent log] in *. unfold Accept in Hb. case_bool_decide; [|done]. injection Hb as <-.
    split; cbn [with_phase src tgt wire sent log phase state buffer tphase tstate]; try done. by right.
  - destruct Hi as [H1 H2 H3 H4 H5 H6 H7 H8 H9 H10]. cbn [src tgt wire sent log] in *. unfold Release in Hb. destruct (exporting s) eqn:Ee; [|done]. injection Hb as <-.
    split; cbn [with_phase src tgt wire sent log phase state buffer tphase tstate]; rewrite ?app_nil_r; try done.
    + intros He. destruct (H5 He) as (? & Et & _). by specialize (H9 Ht).
    + intros He Et. by specialize (H9 Ht).
    + intros y Ey. destruct (H8 y Ey) as (? & ? & E). split_and!; [done..|]. by rewrite Hbuf, app_nil_r in E.
  - destruct Hi as [H1 H2 H3 H4 H5 H6 H7 H8 H9 H10]. cbn [src tgt wire sent log] in *. unfold Abort_ in Hb. destruct (exporting s) eqn:Ee; [|done]. injection Hb as <- <-.
    destruct (H5 eq_refl) as (-> & Et & _ & _). split; cbn [with_phase src tgt wire sent log phase state buffer tphase tstate]; try done. intros y Ey. by rewrite Et in Ey.
Qed.

Lemma handoff_inv x w : reachable x w -> inv x w.
Proof. induction 1 as [|w w' _ IH Hs]; [apply handoff_start_inv|by eapply handoff_step_inv]. Qed.

(** However the calls of the protocol interleave: never do both ends own the entity, and the source
    releases it only to a target that does; the target, once it has the state, has applied the commands
    buffered since the export began in their order and each once, up to those on the way or still
    buffered, so that when the source has released and nothing is on the way it has applied them all. *)
Theorem handoff_once x w : reachable x w ->
  ~ (phase (src w) = PhaseOwned /\ tphase (tgt w) = PhaseOwned) /\
  (phase (src w) = PhaseReleased -> tphase (tgt w) = PhaseOwned) /\
  (forall y, tstate (tgt w) = Some y -> replay_all (commands (wire w) ++ buffer (src w)) y = replay_all (log w) x) /\
  (phase (src w) = PhaseReleased -> wire w = [] -> tstate (tgt w) = Some (replay_all (log w) x)).
Proof.
  intros [H1 H2 H3 H4 H5 H6 H7 H8 H9 H10]%handoff_inv. split_and!; [|done| |].
  - intros [Hs Ht]. destruct (tstate (tgt w)) as [y|] eqn:E; [|by apply H9]. destruct (H8 y eq_refl) as (_ & He & _). by apply H6.
  - intros y Hy. by destruct (H8 y Hy) as (_ & _ & ?).
  - intros Hr Hw. specialize (H9 (H10 Hr)). destruct (tstate (tgt w)) as [y|] eqn:E; [|done]. destruct (H8 y eq_refl) as (_ & _ & Ey).
    rewrite Hw, (H2 ltac:(by rewrite Hr)) in Ey. cbn in Ey. by subst.
Qed.

(** ** Completing a migration *)

Lemma reachable_rtc x w w' : reachable x w -> rtc step w w' -> reachable x w'.
Proof. intros Hr Hs. induction Hs as [|w w1 w2 H1 _ IH]; [done|]. apply IH. by econstructor. Qed.

(** Everything on the way can be delivered. *)
Lemma deliver_all x s e l : forall wi t, reachable x (MkWorld s t wi e l) -> exists t', rtc step (MkWorld s t wi e l) (MkWorld s t' [] e l).
Proof.
  induction wi as [|m wi IH]; intros t Hr; [by exists t|].
  assert (exists t1, step (MkWorld s t (m :: wi) e l) (MkWorld s t1 wi e l)) as [t1 H1].
  { destruct m as [b|cs]; [|eexists; apply SReplay]. destruct (handoff_inv _ _ Hr) as [_ _ _ H4 _ _ _ H8 H9 _]. cbn [tgt wire] in *.
    assert (tphase t = PhaseImporting) as Hp.
    { destruct H4 as [|Hp]; [done|]. destruct (tstate t) as [y|] eqn:E; [by destruct (H8 y eq_refl) as ([? _]%Forall_cons & _)|by specialize (H9 Hp)]. }
    eexists. eapply SImport. unfold Import_. by rewrite bool_decide_true. }
  destruct (IH t1) as [t' Ht]; [by econstructor|]. exists t'. by econstructor.
Qed.

Lemma sent_state x s t e l : reachable x (MkWorld s t [] e l) -> e = true -> tstate t <> None.
Proof.
  intros Hr%handoff_inv He Et. destruct Hr as [_ _ _ _ _ _ H7 _ _ _]. cbn [tgt wire sent] in *. by destruct (H7 He Et) as (b & cs & ? & _).
Qed.

(** The target accepts unless it has. *)
Lemma accept_step x s t e l : reachable x (MkWorld s t [] e l) -> e = true ->
  exists t', rtc step (MkWorld s t [] e l) (MkWorld s t' [] e l) /\ tphase t' = PhaseOwned.
Proof.
  intros Hr He. pose proof (sent_state x s t e l Hr He) as Hn. destruct (in_target _ _ (handoff_inv _ _ Hr)) as [Hp|Hp]; cbn [tgt] in Hp; [|by exists t].
  exists (MkTarget PhaseOwned (tstate t)). split; [|done]. apply rtc_once. apply SAccept; [done|]. unfold Accept. by rewrite bool_decide_true.
Qed.

Lemma drain_release x s t l : reachable x (MkWorld s t [] true l) -> phase s = PhaseExporting ->
  exists w', rtc step (MkWorld s t [] true l) w' /\ phase (src w') = PhaseReleased /\ wire w' = [] /\ log w' = l.
Proof.
  intros Hr Hp. assert (exporting s = true) as Ee by (by apply exporting_true).
  assert (step (MkWorld s t [] true l) (MkWorld (with_phase (phase s) s) t [MCommands (buffer s)] true l)) as H1.
  { apply (SDrain _ _ (buffer s) _ []). unfold DrainBuffer. by rewrite Ee. }
  pose proof (reach_step _ _ _ Hr H1) as Hr1. destruct (deliver_all _ _ _ _ _ _ Hr1) as [t2 H2].
  pose proof (reachable_rtc _ _ _ Hr1 H2) as Hr2. destruct (accept_step _ _ _ _ _ Hr2 eq_refl) as (t3 & H3 & Ht3).
  eexists. split.
  - eapply rtc_l; [exact H1|]. etrans; [exact H2|]. etrans; [exact H3|]. apply rtc_once. apply SRelease; [done|done|].
    unfold Release. rewrite (proj2 (exporting_true _)); done.
  - done.
Qed.

(** A migration that has begun can always be completed, whatever has happened since: the source
    releases, the target owns the entity and has applied every command buffered, nothing is on the way. *)
Theorem handoff_completes x w : reachable x w -> phase (src w) = PhaseExporting ->
  exists w', rtc step w w' /\ phase (src w') = PhaseReleased /\ tphase (tgt w') = PhaseOwned /\ wire w' = [] /\
  log w' = log w /\ tstate (tgt w') = Some (replay_all (log w) x).
Proof.
  intros Hr Hp. destruct w as [s t wi e l]. cbn [src log] in *.
  assert (exists s1 wi1, rtc step (MkWorld s t wi e l) (MkWorld s1 t wi1 true l) /\ phase s1 = PhaseExporting) as (s1 & wi1 & H1 & Hp1).
  { destruct e; [by exists s, wi|]. eexists _, _. split; [apply rtc_once, SExport; unfold Export; by rewrite (proj2 (exporting_true s) Hp)|done]. }
  pose proof (reachable_rtc _ _ _ Hr H1) as Hr1. destruct (deliver_all _ _ _ _ _ _ Hr1) as [t2 H2].
  pose proof (reachable_rtc _ _ _ Hr1 H2) as Hr2. destruct (drain_release _ _ _ _ Hr2 Hp1) as (w' & H3 & Hp' & Hw' & El).
  pose proof (reachable_rtc _ _ _ Hr2 H3) as Hr3. exists w'. split; [etrans; [exact H1|]; by etrans|].
  destruct (handoff_inv _ _ Hr3) as [_ Hc _ _ _ _ _ H8 H9 H10]. specialize (H9 (H10 Hp')). split_and!; [done|by apply H10|done|done|].
  destruct (tstate (tgt w')) as [y|]; [|done]. destruct (H8 y eq_refl) as (_ & _ & E).
  rewrite Hw', (Hc ltac:(by rewrite Hp')), El in E. cbn in E. by subst.
Qed.
End handoff.

(** * Runs *)

(** An entity that sums what it is told. *)
Lemma demo_reachable : reachable Z.add 10 (MkWorld (MkSource PhaseExporting 10 [3] 5) (MkTarget PhaseImporting (Some 11)) [MCommands [2]] true [1; 2; 3]).
Proof.
  eapply (reach_step _ _ (MkWorld (MkSource PhaseExporting 10 [3] 5) NewTarget [MBundle (MkBundle 10 [1]); MCommands [2]] true [1; 2; 3])).
  2: by apply (SImport Z.add (MkBundle 10 [1]) [1] _ NewTarget (MkTarget PhaseImporting (Some 10))).
  apply (reach_step _ _ (MkWorld (MkSource PhaseExporting 10 [] 5) NewTarget [MBundle (MkBundle 10 [1]); MCommands [2]] true [1; 2])).
  2: by apply (SBuffer _ 3 _ _ true _ _ _ [1; 2]).
  apply (reach_step _ _ (MkWorld (MkSource PhaseExporting 10 [2] 5) NewTarget [MBundle (MkBundle 10 [1])] true [1; 2])).
  2: by apply (SDrain _ _ _ [2] _ [_]).
  apply (reach_step _ _ (MkWorld (MkSource PhaseExporting 10 [] 5) NewTarget [MBundle (MkBundle 10 [1])] true [1])).
  2: by apply (SBuffer _ 2 _ _ true _ _ _ [1]).
  apply (reach_step _ _ (MkWorld (MkSource PhaseExporting 10 [1] 5) NewTarget [] false [1])).
  2: by apply (SExport _ _ _ _ _ []).
  apply (reach_step _ _ (MkWorld (MkSource PhaseExporting 10 [] 5) NewTarget [] false [])).
  2: by apply (SBuffer _ 1 _ _ true _ _ _ []).
  apply (reach_step _ _ (start 10)); [constructor|]. by apply (SBegin _ 5).
Qed.

Lemma handoff_once_witness : reachable Z.add 10 (MkWorld (MkSource PhaseExporting 10 [3] 5) (MkTarget PhaseImporting (Some 11)) [MCommands [2]] true [1; 2; 3]) /\
  replay_all Z.add [2; 3] 11 = replay_all Z.add [1; 2; 3] 10.
Proof. split; [exact demo_reachable|]. destruct (handoff_once Z.add 10 _ demo_reachable) as (_ & _ & H & _). apply (H 11 eq_refl). Defined.

Lemma handoff_completes_witness : exists w', rtc (step Z.add) (MkWorld (MkSource PhaseExporting 10 [3] 5) (MkTarget PhaseImporting (Some 11)) [MCommands [2]] true [1; 2; 3]) w' /\
  tstate (tgt w') = Some 16.
Proof. destruct (handoff_completes Z.add 10 _ demo_reachable eq_refl) as (w' & Hs & _ & _ & _ & _ & E). exists w'. split; [exact Hs|exact E]. Defined.

(** What the calls themselves allow. Giving up after the export leaves two owners once the target
    accepts, and the commands exported are not given back. *)
Lemma abort_after_export :
  let '(s, l) := run [OBegin 1; OBuffer 7; OExport; OAbort] (NewSource 10) in
  let t := (Accept (Import_ (MkBundle 10 [7]) NewTarget).1).1 in
  phase s = PhaseOwned /\ tphase t = PhaseOwned /\ last (given <$> l) = Some [].
Proof. vm_compute. done. Qed.

(** A release drops what was buffered after the last drain. *)
Lemma release_drops : let '(s, l) := run [OBegin 1; OExport; OBuffer 7; ORelease] (NewSource 10) in
  phase s = PhaseReleased /\ mjoin (given <$> l) = [] /\ mjoin (dropped <$> l) = [7].
Proof. vm_compute. done. Qed.

(** A target that has not been given anything accepts. *)
Lemma accepts_nothing : Accept (NewTarget (S := Z)) = (MkTarget PhaseOwned None, None).
Proof. done. Qed.
