(* ===== verification/Lru.v ===== *)
(** Bounded caches ([pkg/store/cache/cache.go]): the interface [Cache] with what it promises, the linked
    lists ([container/list]) and the index of elements the caches are made of, and the cache that
    evicts what was least recently used. *)
From Stdlib Require Import ZArith Lia Bool.
From stdpp Require Import base numbers strings list gmap sets.
From S2P Require Import Prelude.

Open Scope Z_scope.

(** * The interface *)

(** A cache is a state and operations on it that may panic. *)
Class Cache (K V C : Type) := {
  Get : K -> C -> go (C * option V);
  Set_ : K -> V -> C -> go C;
  Delete : K -> C -> go C;
  Len : C -> Z
}.

(** What a cache promises: [holds c m] says that what [c] holds is of the map [m] of everything set and
    not deleted. A cache may forget, it does not invent. *)
Class CacheLaws (K V C : Type) `{Countable K} `{Cache K V C} := {
  bound : Z;
  holds : C -> gmap K V -> Prop;
  holds_Get c m k : holds c m -> exists c' o, Get k c = Ret (c', o) /\ holds c' m /\ forall v, o = Some v -> m !! k = Some v;
  holds_Set c m k v : holds c m -> exists c', Set_ k v c = Ret c' /\ holds c' (<[k := v]> m) /\ exists c'', Get k c' = Ret (c'', Some v);
  holds_Delete c m k : holds c m -> exists c', Delete k c = Ret c' /\ holds c' (delete k m) /\ exists c'', Get k c' = Ret (c'', None);
  holds_Len c m : holds c m -> 0 <= Len c <= bound
}.

(** * Linked lists *)

(** An element is the place of a value in a list: its identity and the value. *)
Section elements.
Context {X : Type}.

Definition Value (e : nat) (l : list (nat * X)) : go X :=
  match list_find (fun p => p.1 = e) l with Some (_, p) => Ret p.2 | None => Panic "element not in the list" end.
Definition Remove (e : nat) (l : list (nat * X)) : list (nat * X) := List.filter (fun p => negb (bool_decide (p.1 = e))) l.
Definition PushFront (e : nat) (x : X) (l : list (nat * X)) : list (nat * X) := (e, x) :: l.
Definition MoveToFront (e : nat) (l : list (nat * X)) : list (nat * X) :=
  match list_find (fun p => p.1 = e) l with Some (_, p) => p :: Remove e l | None => l end.
Definition set_Value (e : nat) (f : X -> X) (l : list (nat * X)) : list (nat * X) := (fun p => if decide (p.1 = e) then (p.1, f p.2) else p) <$> l.

Lemma Remove_not_in e (l : list (nat * X)) : e ∉ l.*1 -> Remove e l = l.
Proof.
  induction l as [|[e' x] l IH]; intros Hn; [done|]. unfold Remove in *. rewrite fmap_cons in Hn. cbn. rewrite bool_decide_false by set_solver. cbn. f_equal. apply IH. set_solver.
Qed.
Lemma Remove_middle e x (l l' : list (nat * X)) : e ∉ l.*1 -> e ∉ l'.*1 -> Remove e (l ++ (e, x) :: l') = l ++ l'.
Proof.
  intros H1 H2. unfold Remove. rewrite List.filter_app. cbn. rewrite bool_decide_true by done. cbn. f_equal; by apply Remove_not_in.
Qed.
Lemma find_middle e x (l l' : list (nat * X)) : e ∉ l.*1 -> list_find (fun p => p.1 = e) (l ++ (e, x) :: l') = Some (length l, (e, x)).
Proof.
  intros Hn. apply list_find_Some. rewrite list_lookup_middle by done. split_and!; [done|done|]. intros j y Hj Hlt He.
  rewrite lookup_app_l in Hj by lia. apply Hn. rewrite <- He. apply list_elem_of_fmap_2. by eapply list_elem_of_lookup_2.
Qed.
Lemma Value_middle e x (l l' : list (nat * X)) : e ∉ l.*1 -> Value e (l ++ (e, x) :: l') = Ret x.
Proof. intros Hn. unfold Value. by rewrite find_middle. Qed.
Lemma MoveToFront_middle e x (l l' : list (nat * X)) : e ∉ l.*1 -> e ∉ l'.*1 -> MoveToFront e (l ++ (e, x) :: l') = (e, x) :: l ++ l'.
Proof. intros H1 H2. unfold MoveToFront. by rewrite find_middle, Remove_middle. Qed.
Lemma set_Value_not_in e f (l : list (nat * X)) : e ∉ l.*1 -> set_Value e f l = l.
Proof.
  induction l as [|[e' x] l IH]; intros Hn; [done|]. unfold set_Value in *. rewrite fmap_cons in *. cbn [fst snd]. rewrite decide_False by set_solver. f_equal. apply IH. set_solver.
Qed.
Lemma set_Value_middle e x f (l l' : list (nat * X)) : e ∉ l.*1 -> e ∉ l'.*1 -> set_Value e f (l ++ (e, x) :: l') = l ++ (e, f x) :: l'.
Proof.
  intros H1 H2. unfold set_Value. rewrite fmap_app, fmap_cons. cbn [fst snd]. rewrite decide_True by done. f_equal; [by apply set_Value_not_in|]. f_equal. by apply set_Value_not_in.
Qed.
Lemma length_set_Value e f (l : list (nat * X)) : length (set_Value e f l) = length l.
Proof. apply length_fmap. Qed.
End elements.

(** ** The index of the elements by key *)

Section index.
Context {K X : Type} `{Countable K} (key : X -> K).

(** One element per key, and the index says which; the elements made so far are those below [fresh]. *)
Record indexed (l : list (nat * X)) (items : gmap K nat) (fresh : nat) : Prop := {
  ix_ids : NoDup l.*1;
  ix_keys : NoDup (key <$> l.*2);
  ix_items : forall k e, items !! k = Some e <-> exists x, (e, x) ∈ l /\ key x = k;
  ix_fresh : forall e, e ∈ l.*1 -> (e < fresh)%nat
}.

Lemma indexed_nil fresh : indexed [] ∅ fresh.
Proof.
  split; [constructor|constructor| |by intros e ?%elem_of_nil]. intros k e. rewrite lookup_empty. split; [done|]. by intros (x & ?%elem_of_nil & _).
Qed.

Lemma indexed_perm l l' items fresh : l ≡ₚ l' -> indexed l items fresh -> indexed l' items fresh.
Proof. intros Hp [H1 H2 H3 H4]. split; [by rewrite <- Hp|by rewrite <- Hp| |]; setoid_rewrite <- Hp; done. Qed.

#[export] Instance indexed_proper : Proper ((≡ₚ) ==> (=) ==> (=) ==> iff) indexed.
Proof. intros l l' Hl ? ? <- ? ? <-. split; [|symmetry in Hl]; by apply indexed_perm. Qed.

Lemma indexed_snd l items fresh e x : indexed ((e, x) :: l) items fresh -> items !! key x = Some e /\ (e ∉ l.*1) /\ (key x ∉ key <$> l.*2).
Proof.
  intros [H1 H2 H3 H4]. rewrite !fmap_cons in *. apply NoDup_cons in H1 as [? _], H2 as [? _]. split; [|done]. apply H3. exists x. split; [left|done].
Qed.

Lemma indexed_remove l items fresh e x : indexed ((e, x) :: l) items fresh -> indexed l (delete (key x) items) fresh.
Proof.
  intros Hi. destruct (indexed_snd _ _ _ _ _ Hi) as (Hx & Hne & Hnk). destruct Hi as [H1 H2 H3 H4]. rewrite !fmap_cons in *. apply NoDup_cons in H1 as [_ H1], H2 as [_ H2].
  split; [done|done| |intros e' He; apply H4; by right]. intros k e'. rewrite lookup_delete_Some, H3. split.
  - intros [Hk (y & [[= -> ->]|Hy]%elem_of_cons & <-)]; [done|by exists y].
  - intros (y & Hy & <-). split; [|exists y; split; [by right|done]]. intros E. apply Hnk. rewrite E. by apply list_elem_of_fmap_2, (list_elem_of_fmap_2 snd l (e', y)).
Qed.

Lemma indexed_add l items fresh x : indexed l items fresh -> items !! key x = None -> indexed ((fresh, x) :: l) (<[key x := fresh]> items) (S fresh).
Proof.
  intros [H1 H2 H3 H4] Hn. split; rewrite ?fmap_cons.
  - apply NoDup_cons. split; [|done]. intros Hin%H4. cbn in Hin. lia.
  - apply NoDup_cons. split; [|done]. cbn. intros (y & Ey & ([e z] & -> & Hz)%list_elem_of_fmap)%list_elem_of_fmap.
    assert (items !! key x = Some e) as E by (apply H3; exists z; by split). by rewrite Hn in E.
  - intros k e. rewrite lookup_insert_Some, H3. split.
    + intros [[<- <-]|[Hk (y & Hy & Ey)]]; [exists x; split; [left|done]|exists y; split; [by right|done]].
    + intros (y & [[= -> ->]|Hy]%elem_of_cons & <-); [by left|]. right. split; [|by exists y]. intros E.
      assert (items !! key x = Some e) as E' by (apply H3; exists y; by split). by rewrite Hn in E'.
  - intros e [->|He]%elem_of_cons; [cbn; lia|specialize (H4 e He); lia].
Qed.

(** The element of a key, and the rest of the list. *)
Lemma indexed_find l items fresh k e : indexed l items fresh -> items !! k = Some e ->
  exists l1 x l2, l = l1 ++ (e, x) :: l2 /\ key x = k /\ (e ∉ l1.*1) /\ (e ∉ l2.*1).
Proof.
  intros [H1 _ H3 _] (x & (l1 & l2 & ->)%list_elem_of_split & Ex)%H3. exists l1, x, l2. split; [done|]. split; [done|].
  rewrite fmap_app, fmap_cons in H1. cbn [fst] in H1. apply NoDup_app in H1 as (_ & H12 & [Hn _]%NoDup_cons). split; [|done]. intros Hin. apply (H12 e Hin). left.
Qed.

Lemma indexed_none l items fresh k : indexed l items fresh -> items !! k = None <-> (k ∉ key <$> l.*2).
Proof.
  intros [_ _ H3 _]. split.
  - intros Hn (y & -> & ([e z] & -> & Hz)%list_elem_of_fmap)%list_elem_of_fmap.
    assert (items !! key z = Some e) as E by (apply H3; exists z; by split). cbn in Hn. by rewrite Hn in E.
  - intros Hn. destruct (items !! k) as [e|] eqn:E; [|done]. exfalso. apply H3 in E as (x & Hx & <-). apply Hn.
    by apply list_elem_of_fmap_2, (list_elem_of_fmap_2 snd l (e, x)).
Qed.
End index.

(** * The cache of what was used last *)

Section lru.
Context {K V : Type} `{Countable K}.

Record lruEntry := MkEntry { key : K; val : V }.

(** [fresh] is the identity of the next element made. *)
Record LRU := MkLRU { cap : Z; ll : list (nat * lruEntry); items : gmap K nat; fresh : nat }.

Definition NewLRU (capacity : Z) : LRU := MkLRU (if capacity <=? 0 then 1 else capacity) [] ∅ 0.

Definition with_list (l : list (nat * lruEntry)) (c : LRU) : LRU := MkLRU (cap c) l (items c) (fresh c).

Definition lru_Get (k : K) (c : LRU) : go (LRU * option V) :=
  match items c !! k with
  | Some e => let l := MoveToFront e (ll c) in en ← Value e l; Ret (with_list l c, Some (val en))
  | None => Ret (c, None)
  end.

Definition removeElement (e : nat) (c : LRU) : go LRU :=
  en ← Value e (ll c); Ret (MkLRU (cap c) (Remove e (ll c)) (delete (key en) (items c)) (fresh c)).

Definition removeOldest (c : LRU) : go LRU :=
  match last (ll c) with Some (e, _) => removeElement e c | None => Ret c end.

Definition lru_Set (k : K) (v : V) (c : LRU) : go LRU :=
  match items c !! k with
  | Some e => Ret (with_list (MoveToFront e (set_Value e (fun en => MkEntry (key en) v) (ll c))) c)
  | None =>
      let c := MkLRU (cap c) (PushFront (fresh c) (MkEntry k v) (ll c)) (<[k := fresh c]> (items c)) (S (fresh c)) in
      if cap c <? Z.of_nat (length (ll c)) then removeOldest c else Ret c
  end.

Definition lru_Delete (k : K) (c : LRU) : go LRU :=
  match items c !! k with Some e => removeElement e c | None => Ret c end.
Definition lru_Len (c : LRU) : Z := Z.of_nat (length (ll c)).

#[export] Instance LRU_Cache : Cache K V LRU := { Get := lru_Get; Set_ := lru_Set; Delete := lru_Delete; Len := lru_Len }.

(** ** The specification: the entries, those used last first *)

Definition others (k : K) (l : list (K * V)) : list (K * V) := List.filter (fun p => negb (bool_decide (p.1 = k))) l.
Definition look (k : K) (l : list (K * V)) : option V := snd <$> (snd <$> list_find (fun p => p.1 = k) l).
Definition spec_get (k : K) (l : list (K * V)) : list (K * V) * option V :=
  match look k l with Some v => ((k, v) :: others k l, Some v) | None => (l, None) end.
Definition spec_set (n : Z) (k : K) (v : V) (l : list (K * V)) : list (K * V) := take (Z.to_nat n) ((k, v) :: others k l).

Definition entry_of (p : nat * lruEntry) : K * V := (key p.2, val p.2).
Definition entries (c : LRU) : list (K * V) := entry_of <$> ll c.
Record lru_inv (c : LRU) : Prop := {
  li_cap : 0 < cap c;
  li_len : Z.of_nat (length (ll c)) <= cap c;
  li_index : indexed key (ll c) (items c) (fresh c)
}.

Lemma others_not_in k (l : list (K * V)) : k ∉ l.*1 -> others k l = l.
Proof.
  induction l as [|p l IH]; intros Hn; [done|]. rewrite fmap_cons in Hn. unfold others in *. cbn [List.filter]. rewrite bool_decide_false by set_solver. cbn. f_equal. apply IH. set_solver.
Qed.
Lemma others_middle k v (l l' : list (K * V)) : k ∉ l.*1 -> k ∉ l'.*1 -> others k (l ++ (k, v) :: l') = l ++ l'.
Proof.
  intros H1 H2. unfold others. rewrite List.filter_app. cbn. rewrite bool_decide_true by done. cbn. f_equal; by apply others_not_in.
Qed.
Lemma look_middle k v (l l' : list (K * V)) : k ∉ l.*1 -> look k (l ++ (k, v) :: l') = Some v.
Proof.
  intros Hn. unfold look. erewrite (proj2 (list_find_Some _ _ (length l) (k, v))); [done|]. rewrite list_lookup_middle by done. split_and!; [done|done|].
  intros j y Hj Hlt He. rewrite lookup_app_l in Hj by lia. apply Hn. rewrite <- He. apply list_elem_of_fmap_2. by eapply list_elem_of_lookup_2.
Qed.
Lemma look_not_in k (l : list (K * V)) : k ∉ l.*1 -> look k l = None.
Proof.
  intros Hn. unfold look. rewrite (proj2 (list_find_None _ _)); [done|]. apply Forall_forall. intros p Hp He. apply Hn. rewrite <- He. by apply list_elem_of_fmap_2.
Qed.

Lemma entries_keys (l : list (nat * lruEntry)) : (entry_of <$> l).*1 = key <$> l.*2.
Proof. by rewrite <- !list_fmap_compose. Qed.

(** The element of a key in the list, and what the specification sees. *)
Lemma lru_find c k e : lru_inv c -> items c !! k = Some e -> exists l1 v l2,
  ll c = l1 ++ (e, MkEntry k v) :: l2 /\ (e ∉ l1.*1) /\ (e ∉ l2.*1) /\ (k ∉ (entry_of <$> l1).*1) /\ (k ∉ (entry_of <$> l2).*1).
Proof.
  intros [_ _ Hi] He. destruct (indexed_find key _ _ _ _ _ Hi He) as (l1 & [k' v] & l2 & El & Ek & H1 & H2). cbn in Ek. subst k'. exists l1, v, l2.
  split_and!; [done..| |]; rewrite entries_keys; pose proof (ix_keys _ _ _ _ Hi) as Hk; rewrite El, fmap_app, fmap_cons, fmap_app, fmap_cons in Hk; cbn [key snd] in Hk.
  - apply NoDup_app in Hk as (_ & Hk & _). intros Hin. apply (Hk k Hin). left.
  - by apply NoDup_app in Hk as (_ & _ & [? _]%NoDup_cons).
Qed.

Lemma index_perm_front c l1 e en l2 : ll c = l1 ++ (e, en) :: l2 -> indexed key (ll c) (items c) (fresh c) -> indexed key ((e, en) :: l1 ++ l2) (items c) (fresh c).
Proof. intros -> Hi. eapply indexed_perm; [|exact Hi]. by rewrite Permutation_middle. Qed.

Lemma lru_Get_spec k c : lru_inv c -> exists c', lru_Get k c = Ret (c', (spec_get k (entries c)).2) /\ lru_inv c' /\ cap c' = cap c /\ entries c' = (spec_get k (entries c)).1.
Proof.
  intros Hi. unfold lru_Get, spec_get. destruct (items c !! k) as [e|] eqn:E.
  - destruct (lru_find c k e Hi E) as (l1 & v & l2 & El & H1 & H2 & H3 & H4). rewrite El, MoveToFront_middle by done.
    pose proof (Value_middle e (MkEntry k v) [] (l1 ++ l2)) as Ev. cbn [app] in Ev. rewrite Ev by (by intros ?%elem_of_nil). cbn [mbind go_bind].
    assert (entries c = (entry_of <$> l1) ++ (k, v) :: (entry_of <$> l2)) as Ee by (unfold entries; by rewrite El, fmap_app, fmap_cons).
    rewrite Ee, look_middle, others_middle by done. eexists. split; [done|]. split; [|split; [done|]].
    + destruct Hi as [Hc Hl Hix]. split; cbn; [done| |by eapply index_perm_front]. rewrite El, length_app in Hl. cbn in Hl. rewrite length_app. lia.
    + unfold entries. cbn. f_equal. apply fmap_app.
  - assert (k ∉ (entries c).*1) as Hn by (change (entries c) with (entry_of <$> ll c); rewrite entries_keys; by eapply indexed_none, E; apply Hi).
    rewrite look_not_in by done. by exists c.
Qed.

Lemma removeElement_spec c l1 e en l2 : ll c = l1 ++ (e, en) :: l2 -> indexed key (ll c) (items c) (fresh c) -> exists c',
  removeElement e c = Ret c' /\ indexed key (ll c') (items c') (fresh c') /\ cap c' = cap c /\ ll c' = l1 ++ l2.
Proof.
  intros El Hi. pose proof (ix_ids _ _ _ _ Hi) as Hn. rewrite El, fmap_app, fmap_cons in Hn. cbn [fst] in Hn. apply NoDup_app in Hn as (_ & H1 & [H2 _]%NoDup_cons).
  assert (e ∉ l1.*1) as H1' by (intros Hin; apply (H1 e Hin); left).
  unfold removeElement. rewrite El, Value_middle, Remove_middle by done. cbn [mbind go_bind]. eexists. split; [done|]. cbn. split; [|done].
  eapply indexed_remove. by eapply index_perm_front.
Qed.

Lemma lru_Delete_spec k c : lru_inv c -> exists c', lru_Delete k c = Ret c' /\ lru_inv c' /\ cap c' = cap c /\ entries c' = others k (entries c).
Proof.
  intros Hi. unfold lru_Delete. destruct (items c !! k) as [e|] eqn:E.
  - destruct (lru_find c k e Hi E) as (l1 & v & l2 & El & H1 & H2 & H3 & H4). destruct Hi as [Hc Hl Hix].
    destruct (removeElement_spec c l1 e _ l2 El Hix) as (c' & -> & Hix' & Ec & El'). exists c'. split; [done|]. split; [split; [lia| |done]|split; [done|]].
    + rewrite Ec, El'. rewrite El, length_app in Hl. cbn in Hl. rewrite length_app. lia.
    + unfold entries. rewrite El, El', !fmap_app, fmap_cons. by rewrite (others_middle k v).
  - exists c. split; [done|]. split; [done|]. split; [done|]. symmetry. apply others_not_in.
    change (entries c) with (entry_of <$> ll c). rewrite entries_keys. by eapply indexed_none, E; apply Hi.
Qed.

Lemma lru_Set_spec k v c : lru_inv c -> exists c', lru_Set k v c = Ret c' /\ lru_inv c' /\ cap c' = cap c /\ entries c' = spec_set (cap c) k v (entries c).
Proof.
  intros Hi. unfold lru_Set, spec_set. destruct (items c !! k) as [e|] eqn:E.
  - destruct (lru_find c k e Hi E) as (l1 & v0 & l2 & El & H1 & H2 & H3 & H4). destruct Hi as [Hc Hl Hix]. rewrite El in Hl. rewrite length_app in Hl. cbn in Hl.
    rewrite El, set_Value_middle, MoveToFront_middle by done. eexists. split; [done|]. split; [split; cbn; [done|rewrite length_app; lia|]|split; [done|]].
    + pose proof (index_perm_front c l1 e _ l2 El Hix) as Hix'. destruct Hix' as [P1 P2 P3 P4]. split; [done|done| |done].
      intros k' e'. rewrite P3. split; intros (x & [[= -> ->]|Hx]%elem_of_cons & <-); try (eexists; split; [by right|done]); eexists; (split; [left|done]).
    + unfold entries. rewrite El, fmap_app, fmap_cons. change (entry_of (e, MkEntry k v0)) with (k, v0).
      rewrite others_middle by done. cbn [ll with_list]. rewrite fmap_cons, fmap_app, take_ge; [done|]. cbn. rewrite length_app, !length_fmap. lia.
  - destruct Hi as [Hc Hl Hix]. assert (k ∉ (entries c).*1) as Hn by (change (entries c) with (entry_of <$> ll c); rewrite entries_keys; by eapply indexed_none, E).
    rewrite (others_not_in _ _ Hn). set (c1 := MkLRU _ _ _ _). assert (indexed key (ll c1) (items c1) (fresh c1)) as Hix1 by (by apply (indexed_add key _ _ _ (MkEntry k v))).
    assert (entries c1 = (k, v) :: entries c) as Ee by done. assert (cap c1 = cap c /\ length (ll c1) = S (length (ll c))) as [Ec1 El1] by done. cbv zeta. fold c1.
    destruct (Z.ltb_spec (cap c1) (Z.of_nat (length (ll c1)))) as [Hlt|Hge]; rewrite Ec1, El1 in *.
    + unfold removeOldest. destruct (last (ll c1)) as [[e en]|] eqn:El; [|by apply last_None in El]. apply last_Some in El as [l1 El].
      destruct (removeElement_spec c1 l1 e en [] El Hix1) as (c' & -> & Hix' & Ec & El'). rewrite app_nil_r in El'. exists c'. split; [done|].
      apply (f_equal length) in El as En. rewrite length_app in En. cbn in En.
      split; [split; [by rewrite Ec|rewrite Ec, El'; cbn; lia|done]|]. split; [done|]. rewrite <- Ee. unfold entries. rewrite El, El', fmap_app.
      rewrite take_app_le by (rewrite length_fmap; lia). symmetry. apply take_ge. rewrite length_fmap. lia.
    + exists c1. split; [done|]. split; [split; cbn; [done|lia|done]|]. split; [done|]. rewrite <- Ee, take_ge; [done|]. unfold entries. rewrite length_fmap. cbn. lia.
Qed.

Lemma look_elem k v (l : list (K * V)) : look k l = Some v -> (k, v) ∈ l.
Proof.
  unfold look. destruct (list_find _ l) as [[i [k' v']]|] eqn:E; [|done]. intros [= <-]. apply list_find_Some in E as (Hi & <- & _). by eapply list_elem_of_lookup_2.
Qed.
Lemma others_elem k p (l : list (K * V)) : p ∈ others k l -> p ∈ l /\ p.1 <> k.
Proof. intros [Hp Hk%negb_true_iff%bool_decide_eq_false]%list_elem_of_In%filter_In. split; [by apply list_elem_of_In|done]. Qed.

(** ** What it promises *)

(** What a cache of [n] holds of a map. *)
Definition lru_holds (n : Z) (c : LRU) (m : gmap K V) : Prop := lru_inv c /\ cap c = n /\ forall p, p ∈ entries c -> m !! p.1 = Some p.2.

Lemma lru_get_found k c v m n : lru_holds n c m -> look k (entries c) = Some v -> m !! k = Some v.
Proof. intros (_ & _ & Hm) Hv%look_elem. by apply (Hm (k, v)). Qed.

#[export] Program Instance LRU_Laws (n : Z) : CacheLaws K V LRU := { bound := n; holds := lru_holds n }.
Next Obligation.
  intros n c m k Hh. pose proof Hh as (Hi & Hc & Hm). destruct (lru_Get_spec k c Hi) as (c' & E & Hi' & Hc' & He'). exists c', (spec_get k (entries c)).2. split; [exact E|].
  unfold spec_get in *. destruct (look k (entries c)) as [v|] eqn:El; cbn in *.
  - pose proof (lru_get_found k c v m n Hh El) as Hv. split; [split; [done|split; [congruence|]]|by intros ? [= <-]].
    rewrite He'. intros p [->|[Hp _]%others_elem]%elem_of_cons; [done|by apply Hm].
  - split; [split; [done|split; [congruence|by rewrite He']]|done].
Qed.
Next Obligation.
  intros n c m k v (Hi & Hc & Hm). destruct (lru_Set_spec k v c Hi) as (c' & E & Hi' & Hc' & He'). exists c'. split; [exact E|]. split; [split; [done|split; [congruence|]]|].
  - rewrite He'. unfold spec_set. intros p Hp%subseteq_take.
    apply elem_of_cons in Hp as [->|[Hp Hk]%others_elem]; [by rewrite lookup_insert_eq|rewrite lookup_insert_ne by done; by apply Hm].
  - destruct (lru_Get_spec k c' Hi') as (c'' & E' & _). exists c''. unfold spec_get, spec_set in E'. rewrite He' in E'. unfold spec_set in E'.
    pose proof (li_cap _ Hi). destruct (Z.to_nat (cap c)) as [|j] eqn:Ej; [lia|]. cbn [take] in E'. pose proof (look_middle k v [] (take j (others k (entries c)))) as Hl. cbn [app] in Hl.
    rewrite Hl in E' by (by intros ?%elem_of_nil). exact E'.
Qed.
Next Obligation.
  intros n c m k (Hi & Hc & Hm). destruct (lru_Delete_spec k c Hi) as (c' & E & Hi' & Hc' & He'). exists c'. split; [exact E|]. split; [split; [done|split; [congruence|]]|].
  - rewrite He'. intros p [Hp Hk]%others_elem. rewrite lookup_delete_ne by done. by apply Hm.
  - destruct (lru_Get_spec k c' Hi') as (c'' & E' & _). exists c''. unfold spec_get in E'. rewrite look_not_in in E'; [exact E'|].
    rewrite He'. intros ([k' v'] & -> & [_ ?]%others_elem)%list_elem_of_fmap. done.
Qed.
Next Obligation. intros n c m ([Hc Hl _] & <- & _). cbn. unfold lru_Len. lia. Qed.

(** ** Histories *)

Inductive op := OGet (k : K) | OSet (k : K) (v : V) | ODelete (k : K).

Definition exec (o : op) (c : LRU) : go (LRU * list (option V)) :=
  match o with
  | OGet k => y ← lru_Get k c; Ret (y.1, [y.2])
  | OSet k v => c ← lru_Set k v c; Ret (c, [])
  | ODelete k => c ← lru_Delete k c; Ret (c, [])
  end.
Fixpoint run (ops : list op) (c : LRU) : go (LRU * list (option V)) :=
  match ops with
  | [] => Ret (c, [])
  | o :: ops => y ← exec o c; z ← run ops y.1; Ret (z.1, y.2 ++ z.2)
  end.
Fixpoint spec_run (n : Z) (ops : list op) (l : list (K * V)) : list (K * V) * list (option V) :=
  match ops with
  | [] => (l, [])
  | OGet k :: ops => let '(l, o) := spec_get k l in let '(l, out) := spec_run n ops l in (l, o :: out)
  | OSet k v :: ops => spec_run n ops (spec_set n k v l)
  | ODelete k :: ops => spec_run n ops (others k l)
  end.

Lemma lru_run_spec ops : forall c, lru_inv c -> exists c', run ops c = Ret (c', (spec_run (cap c) ops (entries c)).2) /\ lru_inv c' /\ cap c' = cap c /\
  entries c' = (spec_run (cap c) ops (entries c)).1.
Proof.
  induction ops as [|o ops IH]; intros c Hi; [by exists c|]. destruct o as [k|k v|k]; cbn [run exec spec_run].
  - destruct (lru_Get_spec k c Hi) as (c1 & -> & Hi1 & Hc1 & He1). cbn [mbind go_bind fst snd]. destruct (IH c1 Hi1) as (c' & -> & Hi' & Hc' & He').
    rewrite Hc1, He1 in *. destruct (spec_get k (entries c)) as [l o]. cbn [fst snd] in *. destruct (spec_run _ ops l) as [l' out]. by exists c'.
  - destruct (lru_Set_spec k v c Hi) as (c1 & -> & Hi1 & Hc1 & He1). cbn [mbind go_bind fst snd]. destruct (IH c1 Hi1) as (c' & -> & Hi' & Hc' & He').
    rewrite Hc1, He1 in *. by exists c'.
  - destruct (lru_Delete_spec k c Hi) as (c1 & -> & Hi1 & Hc1 & He1). cbn [mbind go_bind fst snd]. destruct (IH c1 Hi1) as (c' & -> & Hi' & Hc' & He').
    rewrite Hc1, He1 in *. by exists c'.
Qed.

Lemma NewLRU_inv n : lru_inv (NewLRU n).
Proof.
  unfold NewLRU. destruct (Z.leb_spec n 0); split; cbn; try lia; apply indexed_nil.
Qed.

(** C21: In every history of calls the cache answers as a list of its entries in the order of their last
    use: a read or a write moves a key to the front, what does not fit is cut off at the end; it never
    holds more than its capacity, at least one, and never panics. *)
Theorem lru_refines n ops : exists c, run ops (NewLRU n) = Ret (c, (spec_run (Z.max 1 n) ops []).2) /\
  entries c = (spec_run (Z.max 1 n) ops []).1 /\ lru_Len c <= Z.max 1 n.
Proof.
  destruct (lru_run_spec ops (NewLRU n) (NewLRU_inv n)) as (c & E & Hi & Hc & He). assert (cap (NewLRU n) = Z.max 1 n) as En by (unfold NewLRU; cbn; destruct (Z.leb_spec n 0); lia).
  rewrite En in *. exists c. split; [exact E|]. split; [exact He|]. unfold lru_Len. rewrite <- Hc. apply Hi.
Qed.

End lru.
