(* ===== verification/TinyLfu.v ===== *)
(** The cache that admits by frequency ([pkg/store/cache/tinylfu.go]): the sketch that estimates how often
    a key was used, and a window and two segments on the lists and the index of [Lru]. *)
From Stdlib Require Import ZArith Lia Bool.
From stdpp Require Import base numbers strings list gmap sets.
From S2P Require Import Prelude Lru.

Open Scope Z_scope.

(** * The sketch *)

Record cmSketch := MkSketch { rows : list (list Z); mask : Z; additions : Z; sampleSize : Z }.

Definition depth : nat := 4.

(** [|=] with the shifts 1, 2, 4, 8, 16 and 32. *)
Definition smear (n : Z) : Z := foldl (fun n k => Z.lor n (Z.shiftr n k)) n [1; 2; 4; 8; 16; 32].
Definition nextPow2 (n : Z) : Z := if n <? 1 then 1 else wrapu64 (smear (n - 1) + 1).

Definition newCMSketch (width sampleSize : Z) : cmSketch :=
  let w := nextPow2 (wrapu64 width) in
  MkSketch (replicate depth (replicate (Z.to_nat w) 0)) (wrapu64 (w - 1)) 0 sampleSize.

Definition pos (s : cmSketch) (h : Z) (i : nat) : Z :=
  let h2 := Z.lor (Z.shiftr h 32) 1 in
  Z.land (wrapu64 (h + Z.of_nat i * h2)) (mask s).

(** [>>=] of every counter, and of their number. *)
Definition reset (s : cmSketch) : cmSketch :=
  MkSketch (fmap (M := list) (fmap (M := list) (fun c => Z.shiftr c 1)) (rows s)) (mask s) (Z.shiftr (additions s) 1) (sampleSize s).

(** The loop over the rows. *)
Fixpoint bump_loop (s : cmSketch) (h : Z) (i : nat) (l : list (list Z)) : go (list (list Z)) :=
  match l with
  | [] => Ret []
  | row :: l =>
      c ← index row (pos s h i);
      row ← (if c <? 15 then set_index row (pos s h i) (c + 1) else Ret row);
      l ← bump_loop s h (S i) l; Ret (row :: l)
  end.
Definition increment (h : Z) (s : cmSketch) : go cmSketch :=
  l ← bump_loop s h 0 (rows s);
  let s := MkSketch l (mask s) (wrap64 (additions s + 1)) (sampleSize s) in
  Ret (if sampleSize s <=? additions s then reset s else s).

Fixpoint min_loop (s : cmSketch) (h : Z) (i : nat) (min : Z) (l : list (list Z)) : go Z :=
  match l with
  | [] => Ret min
  | row :: l => v ← index row (pos s h i); min_loop s h (S i) (if v <? min then v else min) l
  end.
Definition estimate (h : Z) (s : cmSketch) : go Z := min_loop s h 0 15 (rows s).

(** ** The width is a power of two *)

(** A bit is set when one of the [w] bits from it on is set in [n]. *)
Definition smeared (n x w : Z) : Prop := forall i, 0 <= i -> Z.testbit x i = true <-> exists d, 0 <= d < w /\ Z.testbit n (i + d) = true.

Lemma smeared_step n x w : 0 < w -> smeared n x w -> smeared n (Z.lor x (Z.shiftr x w)) (2 * w).
Proof.
  intros Hw Hx i Hi. rewrite Z.lor_spec, Z.shiftr_spec, orb_true_iff, (Hx i), (Hx (i + w)) by lia. split.
  - intros [(d & Hd & E)|(d & Hd & E)]; [exists d|exists (w + d)]; (split; [lia|]); [done|by rewrite Z.add_assoc].
  - intros (d & Hd & E). destruct (Z.lt_ge_cases d w); [left; exists d; split; [lia|done]|right]. exists (d - w). split; [lia|]. by replace (i + w + (d - w)) with (i + d) by lia.
Qed.

Lemma smear_ones n : 0 < n < 2 ^ 64 -> smear n = Z.ones (Z.log2 n + 1).
Proof.
  intros Hn. assert (smeared n (smear n) 64) as Hs.
  { unfold smear. cbn [foldl]. refine (smeared_step n _ 32 ltac:(lia) _). refine (smeared_step n _ 16 ltac:(lia) _). refine (smeared_step n _ 8 ltac:(lia) _).
    refine (smeared_step n _ 4 ltac:(lia) _). refine (smeared_step n _ 2 ltac:(lia) _). refine (smeared_step n _ 1 ltac:(lia) _).
    intros i Hi. split; [intros E; exists 0; split; [lia|by rewrite Z.add_0_r]|]. intros (d & Hd & E). by replace (i + d) with i in E by lia. }
  assert (Z.log2 n < 64) as Hl by (apply Z.log2_lt_pow2; lia). apply Z.bits_inj'. intros i Hi. pose proof (Z.log2_nonneg n).
  rewrite Z.testbit_ones_nonneg by lia. apply eq_true_iff_eq. rewrite (Hs i Hi), Z.ltb_lt. split.
  - intros (d & Hd & E). destruct (Z.lt_ge_cases i (Z.log2 n + 1)); [done|]. rewrite Z.bits_above_log2 in E by lia. done.
  - intros Hlt. exists (Z.log2 n - i). split; [lia|]. replace (i + (Z.log2 n - i)) with (Z.log2 n) by lia. apply Z.bit_log2. lia.
Qed.

Lemma nextPow2_spec n : 1 <= n <= 2 ^ 63 -> nextPow2 n = 2 ^ Z.log2_up n.
Proof.
  intros Hn. unfold nextPow2. rewrite (proj2 (Z.ltb_ge _ _)) by lia. destruct (decide (n = 1)) as [->|H1]; [reflexivity|].
  rewrite smear_ones by lia. rewrite Z.ones_equiv. replace (Z.pred (2 ^ (Z.log2 (n - 1) + 1)) + 1) with (2 ^ (Z.log2 (n - 1) + 1)) by lia.
  unfold Z.log2_up. rewrite (proj2 (Z.compare_lt_iff 1 n)) by lia. rewrite <- Z.sub_1_r. change (Z.succ ?x) with (x + 1).
  apply wrapu64_id. unfold uint64. pose proof (Z.log2_nonneg (n - 1)). assert (Z.log2 (n - 1) < 63) by (apply Z.log2_lt_pow2; lia).
  pose proof (Z.pow_pos_nonneg 2 (Z.log2 (n - 1) + 1)). pose proof (Z.pow_le_mono_r 2 (Z.log2 (n - 1) + 1) 63). lia.
Qed.

(** ** Never below the count *)

(** The rows have one counter for each value of the mask. *)
Record sketch_ok (s : cmSketch) : Prop := {
  sk_depth : length (rows s) = depth;
  sk_width : forall row, row ∈ rows s -> length row = Z.to_nat (mask s + 1);
  sk_mask : exists k, 0 <= k <= 63 /\ mask s = Z.ones k;
  sk_range : forall row c, row ∈ rows s -> c ∈ row -> 0 <= c <= 15
}.

Lemma pos_range s h i : sketch_ok s -> (0 <= pos s h i) /\ (Z.to_nat (pos s h i) < Z.to_nat (mask s + 1))%nat.
Proof.
  intros [_ _ (k & Hk & E) _]. unfold pos. rewrite E. rewrite Z.land_ones by lia. pose proof (Z.mod_pos_bound (wrapu64 (h + Z.of_nat i * Z.lor (Z.shiftr h 32) 1)) (2 ^ k)).
  rewrite Z.ones_equiv. lia.
Qed.

(** The counter of a hash in a row. *)
Definition counter (s : cmSketch) (h : Z) (i : nat) (row : list Z) : Z := default 0 (row !! Z.to_nat (pos s h i)).

Lemma index_counter s h i row : sketch_ok s -> row ∈ rows s -> index row (pos s h i) = Ret (counter s h i row).
Proof.
  intros Hs Hr. destruct (pos_range s h i Hs) as [H0 Hlt]. rewrite <- (sk_width s Hs row Hr) in Hlt. apply lookup_lt_is_Some_2 in Hlt as [c Hc].
  unfold counter. rewrite Hc. replace (pos s h i) with (Z.of_nat (Z.to_nat (pos s h i))) by lia. by apply index_lookup.
Qed.

Lemma counter_range s h i row : sketch_ok s -> row ∈ rows s -> 0 <= counter s h i row <= 15.
Proof.
  intros Hs Hr. unfold counter. destruct (row !! _) as [c|] eqn:E; [|cbn; lia]. apply (sk_range s Hs row); [done|]. by eapply list_elem_of_lookup_2.
Qed.

(** The smallest of the counters of a hash. *)
Fixpoint lowest (s : cmSketch) (h : Z) (i : nat) (l : list (list Z)) : Z :=
  match l with [] => 15 | row :: l => Z.min (counter s h i row) (lowest s h (S i) l) end.

Lemma min_loop_spec s h l : sketch_ok s -> (forall row, row ∈ l -> row ∈ rows s) -> forall i m, m <= 15 -> min_loop s h i m l = Ret (Z.min m (lowest s h i l)).
Proof.
  intros Hs. induction l as [|row l IH]; intros Hl i m Hm; cbn [min_loop lowest]; [by rewrite Z.min_l|].
  rewrite index_counter by (done || apply Hl; left). cbn [mbind go_bind]. pose proof (counter_range s h i row Hs ltac:(apply Hl; left)).
  rewrite IH; [|intros r Hr; apply Hl; by right|destruct (Z.ltb_spec (counter s h i row) m); lia]. f_equal. destruct (Z.ltb_spec (counter s h i row) m); lia.
Qed.

Lemma estimate_spec s h : sketch_ok s -> estimate h s = Ret (lowest s h 0 (rows s)).
Proof.
  intros Hs. unfold estimate. rewrite min_loop_spec by done. f_equal.
  assert (forall l i, lowest s h i l <= 15) as Hl by (induction l as [|row l IH]; intros i; cbn; [lia|specialize (IH (S i)); lia]). specialize (Hl (rows s) 0%nat). lia.
Qed.

(** A row with the counter of a hash one higher. *)
Definition bumped (s : cmSketch) (h : Z) (i : nat) (row : list Z) : list Z :=
  <[Z.to_nat (pos s h i) := Z.min 15 (counter s h i row + 1)]> row.
Fixpoint bump_all (s : cmSketch) (h : Z) (i : nat) (l : list (list Z)) : list (list Z) :=
  match l with [] => [] | row :: l => bumped s h i row :: bump_all s h (S i) l end.

Lemma bump_loop_spec s h l : sketch_ok s -> (forall row, row ∈ l -> row ∈ rows s) -> forall i, bump_loop s h i l = Ret (bump_all s h i l).
Proof.
  intros Hs. induction l as [|row l IH]; intros Hl i; cbn [bump_loop bump_all]; [done|].
  assert (row ∈ rows s) as Hr by (apply Hl; left). rewrite index_counter by done. cbn [mbind go_bind]. pose proof (counter_range s h i row Hs Hr).
  destruct (pos_range s h i Hs) as [H0 Hlt]. rewrite <- (sk_width s Hs row Hr) in Hlt.
  assert ((if counter s h i row <? 15 then set_index row (pos s h i) (counter s h i row + 1) else Ret row) = Ret (bumped s h i row)) as ->.
  { unfold bumped. destruct (Z.ltb_spec (counter s h i row) 15).
    - rewrite Z.min_r by lia. replace (pos s h i) with (Z.of_nat (Z.to_nat (pos s h i))) at 1 by lia. by apply set_index_lt.
    - f_equal. symmetry. apply list_insert_id. replace (Z.min _ _) with (counter s h i row) by lia. unfold counter. by apply lookup_lt_is_Some_2 in Hlt as [c ->]. }
  cbn [mbind go_bind]. rewrite IH by (intros r Hr'; apply Hl; by right). done.
Qed.

Lemma bump_all_elem s h l : forall i row, row ∈ bump_all s h i l -> exists j r, r ∈ l /\ row = bumped s h j r.
Proof.
  induction l as [|r l IH]; intros i row; cbn; [by intros ?%elem_of_nil|]. intros [->|Hr]%elem_of_cons; [exists i, r; split; [left|done]|].
  destruct (IH (S i) row Hr) as (j & r' & ? & ?). exists j, r'. split; [by right|done].
Qed.

Lemma bump_all_length s h l : forall i, length (bump_all s h i l) = length l.
Proof. induction l as [|r l IH]; intros i; cbn; [done|]. by rewrite IH. Qed.

(** The counters after a bump: that of the hash one higher, none lower. *)
Lemma counter_bumped s h h' i row : sketch_ok s -> row ∈ rows s ->
  counter s h' i row <= counter s h' i (bumped s h i row) /\ (h = h' -> counter s h' i (bumped s h i row) = Z.min 15 (counter s h' i row + 1)).
Proof.
  intros Hs Hr. destruct (pos_range s h i Hs) as [H0 Hlt]. rewrite <- (sk_width s Hs row Hr) in Hlt. pose proof (counter_range s h i row Hs Hr).
  unfold bumped, counter at 2 4. destruct (decide (Z.to_nat (pos s h i) = Z.to_nat (pos s h' i))) as [E|E].
  - rewrite <- E, list_lookup_insert_eq by done. cbn. unfold counter in *. rewrite <- E. split; [lia|]. intros ->. done.
  - rewrite list_lookup_insert_ne by done. split; [done|]. by intros ->.
Qed.

Lemma lowest_bump s h h' l : sketch_ok s -> (forall row, row ∈ l -> row ∈ rows s) -> forall i,
  lowest s h' i l <= lowest s h' i (bump_all s h i l) /\ (h = h' -> lowest s h' i (bump_all s h i l) = Z.min 15 (lowest s h' i l + 1)).
Proof.
  intros Hs. induction l as [|row l IH]; intros Hl i; cbn [lowest bump_all]; [lia|].
  destruct (counter_bumped s h h' i row Hs) as [H1 H2]; [apply Hl; left|]. destruct (IH ltac:(intros r Hr; apply Hl; by right) (S i)) as [H3 H4].
  split; [lia|]. intros Hh. rewrite (H2 Hh), (H4 Hh). lia.
Qed.

(** The position depends on the mask alone. *)
Lemma lowest_mask s s' h l : mask s = mask s' -> forall i, lowest s h i l = lowest s' h i l.
Proof. intros E. induction l as [|row l IH]; intros i; cbn [lowest]; [done|]. rewrite IH. unfold counter, pos. by rewrite E. Qed.

Lemma sketch_bump s h n : sketch_ok s -> sketch_ok (MkSketch (bump_all s h 0 (rows s)) (mask s) n (sampleSize s)).
Proof.
  intros Hs. pose proof Hs as [Hd Hw Hm Hr]. split; cbn [rows mask]; [by rewrite bump_all_length| |done|].
  - intros row (j & r & Hin & ->)%bump_all_elem. unfold bumped. rewrite length_insert. by apply Hw.
  - intros row c (j & r & Hin & ->)%bump_all_elem Hc. pose proof (counter_range s h j r Hs Hin). unfold bumped in Hc.
    apply list_elem_of_lookup in Hc as [m Hc]. apply list_lookup_insert_Some in Hc as [(_ & <- & _)|[_ Hc]]; [lia|]. apply (Hr r); [done|by eapply list_elem_of_lookup_2].
Qed.

Lemma sketch_reset s : sketch_ok s -> sketch_ok (reset s).
Proof.
  intros [Hd Hw Hm Hr]. split; cbn [reset rows mask]; [by rewrite length_fmap| |done|].
  - intros row (r & -> & Hin)%list_elem_of_fmap. rewrite length_fmap. by apply Hw.
  - intros row c (r & -> & Hin)%list_elem_of_fmap (x & -> & Hx)%list_elem_of_fmap. pose proof (Hr r x Hin Hx). rewrite Z.shiftr_div_pow2 by lia.
    change (2 ^ 1) with 2. pose proof (Z.div_pos x 2). pose proof (Z.div_le_mono x 15 2). change (15 / 2) with 7 in *. lia.
Qed.

Lemma lowest_reset s h l : forall i, lowest (reset s) h i (fmap (M := list) (fmap (M := list) (fun c => Z.shiftr c 1)) l) >= Z.shiftr (lowest s h i l) 1.
Proof.
  assert (forall a b, Z.shiftr (Z.min a b) 1 = Z.min (Z.shiftr a 1) (Z.shiftr b 1)) as Hmin.
  { intros a b. rewrite !Z.shiftr_div_pow2 by lia. change (2 ^ 1) with 2. destruct (Z.min_spec a b) as [[? ->]|[? ->]]; pose proof (Z.div_le_mono a b 2); pose proof (Z.div_le_mono b a 2); lia. }
  induction l as [|row l IH]; intros i; [by vm_compute|]. rewrite fmap_cons. cbn [lowest]. rewrite Hmin. specialize (IH (S i)).
  assert (counter (reset s) h i ((fun c => Z.shiftr c 1) <$> row) = Z.shiftr (counter s h i row) 1) as ->; [|lia].
  unfold counter, pos. cbn [reset mask]. rewrite list_lookup_fmap. by destruct (row !! _).
Qed.

(** The exact count of a key with the same aging: 15 at most, halved when the sketch is. *)
Record ideal := MkIdeal { icount : Z -> Z; iadditions : Z }.
Definition ideal_increment (sample : Z) (h : Z) (i : ideal) : ideal :=
  let count := fun h' => if h' =? h then Z.min 15 (icount i h' + 1) else icount i h' in
  let n := wrap64 (iadditions i + 1) in
  if sample <=? n then MkIdeal (fun h' => Z.shiftr (count h') 1) (Z.shiftr n 1) else MkIdeal count n.

Definition estimates (s : cmSketch) (i : ideal) : Prop := iadditions i = additions s /\ forall h, icount i h <= lowest s h 0 (rows s).

Lemma increment_spec s h i : sketch_ok s -> estimates s i -> exists s', increment h s = Ret s' /\ sketch_ok s' /\
  mask s' = mask s /\ sampleSize s' = sampleSize s /\ estimates s' (ideal_increment (sampleSize s) h i).
Proof.
  intros Hs [Ha He]. unfold increment, ideal_increment. rewrite bump_loop_spec by done. cbn [mbind go_bind additions sampleSize]. rewrite Ha.
  set (s1 := MkSketch (bump_all s h 0 (rows s)) (mask s) (wrap64 (additions s + 1)) (sampleSize s)). pose proof (sketch_bump s h (wrap64 (additions s + 1)) Hs) as Hs1. fold s1 in Hs1.
  assert (forall h', (if h' =? h then Z.min 15 (icount i h' + 1) else icount i h') <= lowest s1 h' 0 (rows s1)) as Hc.
  { intros h'. rewrite (lowest_mask s1 s) by done. destruct (lowest_bump s h h' (rows s) Hs (fun _ H => H) 0) as [H1 H2]. cbn [rows s1]. specialize (He h').
    destruct (Z.eqb_spec h' h) as [->|]; [rewrite H2 by done; lia|lia]. }
  destruct (sampleSize s <=? wrap64 (additions s + 1)).
  - exists (reset s1). split; [done|]. split; [by apply sketch_reset|]. split_and!; [done|done|]. split; [done|]. intros h'. cbn [icount]. etrans; [|apply Z.ge_le, lowest_reset].
    rewrite !Z.shiftr_div_pow2 by lia. apply Z.div_le_mono; [done|]. apply Hc.
  - exists s1. split; [done|]. split; [done|]. split_and!; [done|done|]. split; [done|exact Hc].
Qed.

Fixpoint increments (hs : list Z) (s : cmSketch) : go cmSketch :=
  match hs with [] => Ret s | h :: hs => s ← increment h s; increments hs s end.
Definition ideal_increments (sample : Z) (hs : list Z) : ideal := foldl (fun i h => ideal_increment sample h i) (MkIdeal (fun _ => 0) 0) hs.

Lemma newCMSketch_ok width sample : 1 <= width <= 2 ^ 62 -> sketch_ok (newCMSketch width sample) /\ estimates (newCMSketch width sample) (MkIdeal (fun _ => 0) 0) /\
  mask (newCMSketch width sample) = Z.ones (Z.log2_up width).
Proof.
  intros Hw. unfold newCMSketch. rewrite (wrapu64_id width) by (unfold uint64; lia). rewrite nextPow2_spec by lia.
  pose proof (Z.log2_up_nonneg width). assert (Z.log2_up width <= 62) as Hl by (apply Z.log2_up_le_pow2; lia).
  pose proof (Z.pow_pos_nonneg 2 (Z.log2_up width)). pose proof (Z.pow_le_mono_r 2 (Z.log2_up width) 62).
  rewrite (wrapu64_id (_ - 1)) by (unfold uint64; lia). assert (2 ^ Z.log2_up width - 1 = Z.ones (Z.log2_up width)) as Eo by (rewrite Z.ones_equiv; lia).
  assert (sketch_ok (MkSketch (replicate depth (replicate (Z.to_nat (2 ^ Z.log2_up width)) 0)) (2 ^ Z.log2_up width - 1) 0 sample)) as Hs.
  { split; cbn [rows mask]; [apply length_replicate| | |].
    - intros row [-> _]%elem_of_replicate. rewrite length_replicate. f_equal. lia.
    - exists (Z.log2_up width). split; [lia|done].
    - intros row c [-> _]%elem_of_replicate [-> _]%elem_of_replicate. lia. }
  split; [exact Hs|]. split; [split; [done|]|exact Eo]. intros h. cbn [icount rows].
  assert (forall l i, (forall row, row ∈ l -> row ∈ rows (MkSketch (replicate depth (replicate (Z.to_nat (2 ^ Z.log2_up width)) 0)) (2 ^ Z.log2_up width - 1) 0 sample)) ->
    0 <= lowest (MkSketch (replicate depth (replicate (Z.to_nat (2 ^ Z.log2_up width)) 0)) (2 ^ Z.log2_up width - 1) 0 sample) h i l) as Hpos; [|by apply Hpos].
  intros l. induction l as [|row l IH]; intros i Hrows; cbn [lowest]; [lia|]. pose proof (counter_range _ h i row Hs ltac:(apply Hrows; left)).
  specialize (IH (S i) ltac:(intros r Hr; apply Hrows; by right)). lia.
Qed.

(** A sketch made for 1 to 2^62 keys never panics and never underestimates: after any sequence of
    increments the estimate of a hash is between its exact count, with the same aging, and 15. *)
Theorem sketch_never_under width sample hs h : 1 <= width <= 2 ^ 62 -> exists s n, increments hs (newCMSketch width sample) = Ret s /\
  estimate h s = Ret n /\ icount (ideal_increments sample hs) h <= n <= 15.
Proof.
  intros Hw. destruct (newCMSketch_ok width sample Hw) as (Hs & He & _). unfold ideal_increments.
  assert (sampleSize (newCMSketch width sample) = sample) as Esz by done. revert Hs He Esz. generalize (newCMSketch width sample) as s, (MkIdeal (fun _ => 0) 0) as i.
  induction hs as [|h' hs IH]; intros s i Hs He Esz; cbn [increments foldl].
  - exists s, (lowest s h 0 (rows s)). split; [done|]. split; [by apply estimate_spec|]. split; [apply He|].
    assert (forall l i, lowest s h i l <= 15) as Hl by (induction l as [|row l IH]; intros j; cbn; [lia|specialize (IH (S j)); lia]). apply Hl.
  - destruct (increment_spec s h' i Hs He) as (s' & -> & Hs' & _ & Esz' & He'). cbn [mbind go_bind]. rewrite Esz in *. by apply IH.
Qed.

Lemma sketch_never_under_witness : exists s n, increments [7; 9; 7] (newCMSketch 4 100) = Ret s /\ estimate 7 s = Ret n /\ 2 <= n <= 15.
Proof. apply (sketch_never_under 4 100 [7; 9; 7] 7). lia. Defined.

(** * The cache *)

Inductive segKind := segWindow | segProbation | segProtected.

Section tinylfu.
Context {K V : Type} `{Countable K}.
(** The seeded hash of the library. *)
Context (hash : K -> Z).

Record tlItem := MkItem { tkey : K; tval : V; seg : segKind }.
Definition with_seg (s : segKind) (it : tlItem) : tlItem := MkItem (tkey it) (tval it) s.
Definition with_val (v : V) (it : tlItem) : tlItem := MkItem (tkey it) v (seg it).

Record TinyLFU := MkTiny {
  titems : gmap K nat; window : list (nat * tlItem); probation : list (nat * tlItem); protected : list (nat * tlItem);
  windowCap : Z; mainCap : Z; protectedCap : Z; sketch : cmSketch; tfresh : nat
}.

Definition NewTinyLFU (capacity : Z) : TinyLFU :=
  let capacity := if capacity <=? 0 then 1 else capacity in
  let windowCap := Z.quot capacity 100 in
  let windowCap := if windowCap <? 1 then 1 else windowCap in
  let mainCap := wrap64 (capacity - windowCap) in
  let protectedCap := Z.quot (wrap64 (mainCap * 80)) 100 in
  let sampleSize := wrap64 (10 * capacity) in
  let sampleSize := if sampleSize <? 100 then 100 else sampleSize in
  MkTiny ∅ [] [] [] windowCap mainCap protectedCap (newCMSketch capacity sampleSize) 0.

Definition with_lists (it : gmap K nat) (w p q : list (nat * tlItem)) (f : nat) (c : TinyLFU) : TinyLFU :=
  MkTiny it w p q (windowCap c) (mainCap c) (protectedCap c) (sketch c) f.
Definition with_sketch (s : cmSketch) (c : TinyLFU) : TinyLFU :=
  MkTiny (titems c) (window c) (probation c) (protected c) (windowCap c) (mainCap c) (protectedCap c) s (tfresh c).

(** The value of an element, wherever it is. *)
Definition elements (c : TinyLFU) : list (nat * tlItem) := window c ++ probation c ++ protected c.

(** The element keeps its item when it is taken out of its list; [touch] and [Get] read the same item. The
    end of [touch]: a protected segment that is too long gives its last item back. *)
Definition demote (c : TinyLFU) : TinyLFU :=
  if protectedCap c <? Z.of_nat (length (protected c)) then
    match last (protected c) with
    | Some (b, bit) =>
        with_lists (<[tkey bit := tfresh c]> (titems c)) (window c) (PushFront (tfresh c) (with_seg segProbation bit) (probation c))
          (Remove b (protected c)) (S (tfresh c)) c
    | None => c
    end
  else c.

Definition touch (e : nat) (c : TinyLFU) : go TinyLFU :=
  it ← Value e (elements c);
  match seg it with
  | segWindow => Ret (with_lists (titems c) (MoveToFront e (window c)) (probation c) (protected c) (tfresh c) c)
  | segProtected => Ret (with_lists (titems c) (window c) (probation c) (MoveToFront e (protected c)) (tfresh c) c)
  | segProbation =>
      Ret (demote (with_lists (<[tkey it := tfresh c]> (titems c)) (window c) (Remove e (probation c))
        (PushFront (tfresh c) (with_seg segProtected it) (protected c)) (S (tfresh c)) c))
  end.

Definition remove (e : nat) (c : TinyLFU) : go TinyLFU :=
  it ← Value e (elements c);
  let items := delete (tkey it) (titems c) in
  Ret (match seg it with
       | segWindow => with_lists items (Remove e (window c)) (probation c) (protected c) (tfresh c) c
       | segProbation => with_lists items (window c) (Remove e (probation c)) (protected c) (tfresh c) c
       | segProtected => with_lists items (window c) (probation c) (Remove e (protected c)) (tfresh c) c
       end).

Definition push_probation (it : tlItem) (c : TinyLFU) : TinyLFU :=
  with_lists (<[tkey it := tfresh c]> (titems c)) (window c) (PushFront (tfresh c) (with_seg segProbation it) (probation c)) (protected c) (S (tfresh c)) c.
Definition drop_item (it : tlItem) (c : TinyLFU) : TinyLFU :=
  with_lists (delete (tkey it) (titems c)) (window c) (probation c) (protected c) (tfresh c) c.

Definition admitFromWindow (c : TinyLFU) : go TinyLFU :=
  match last (window c) with
  | None => Ret c
  | Some (e, cand) =>
      let c := with_lists (titems c) (Remove e (window c)) (probation c) (protected c) (tfresh c) c in
      if mainCap c <=? 0 then Ret (drop_item cand c)
      else if Z.of_nat (length (probation c)) + Z.of_nat (length (protected c)) <? mainCap c then Ret (push_probation cand c)
      else
        match match last (probation c) with Some x => Some x | None => last (protected c) end with
        | None => Panic "runtime error: invalid memory address or nil pointer dereference"
        | Some (v, victim) =>
            a ← estimate (hash (tkey cand)) (sketch c);
            b ← estimate (hash (tkey victim)) (sketch c);
            if b <? a then c ← remove v c; Ret (push_probation cand c) else Ret (drop_item cand c)
        end
  end.

Definition tl_Get (k : K) (c : TinyLFU) : go (TinyLFU * option V) :=
  match titems c !! k with
  | None => Ret (c, None)
  | Some e =>
      s ← increment (hash k) (sketch c);
      it ← Value e (elements c);
      c ← touch e (with_sketch s c);
      Ret (c, Some (tval it))
  end.

Definition set_elements (e : nat) (v : V) (c : TinyLFU) : TinyLFU :=
  with_lists (titems c) (set_Value e (with_val v) (window c)) (set_Value e (with_val v) (probation c)) (set_Value e (with_val v) (protected c)) (tfresh c) c.

Definition tl_Set (k : K) (v : V) (c : TinyLFU) : go TinyLFU :=
  s ← increment (hash k) (sketch c);
  let c := with_sketch s c in
  match titems c !! k with
  | Some e => touch e (set_elements e v c)
  | None =>
      let c := with_lists (<[k := tfresh c]> (titems c)) (PushFront (tfresh c) (MkItem k v segWindow) (window c)) (probation c) (protected c) (S (tfresh c)) c in
      if windowCap c <? Z.of_nat (length (window c)) then admitFromWindow c else Ret c
  end.

Definition tl_Delete (k : K) (c : TinyLFU) : go TinyLFU :=
  match titems c !! k with Some e => remove e c | None => Ret c end.
Definition tl_Len (c : TinyLFU) : Z := Z.of_nat (length (window c)) + Z.of_nat (length (probation c)) + Z.of_nat (length (protected c)).
(** ** The invariant *)

Definition in_seg (s : segKind) (l : list (nat * tlItem)) : Prop := Forall (fun p => seg p.2 = s) l.

Record tl_inv (c : TinyLFU) : Prop := {
  ti_index : indexed tkey (elements c) (titems c) (tfresh c);
  ti_window : in_seg segWindow (window c);
  ti_probation : in_seg segProbation (probation c);
  ti_protected : in_seg segProtected (protected c);
  ti_caps : 1 <= windowCap c /\ 0 <= mainCap c /\ 0 <= protectedCap c;
  ti_wlen : Z.of_nat (length (window c)) <= windowCap c;
  ti_mlen : Z.of_nat (length (probation c)) + Z.of_nat (length (protected c)) <= mainCap c;
  ti_sketch : sketch_ok (sketch c)
}.

Definition pair_of (p : nat * tlItem) : K * V := (tkey p.2, tval p.2).
Definition pairs (c : TinyLFU) : list (K * V) := pair_of <$> elements c.

(** The capacities and the sketch stay. *)
Definition same_caps (c c' : TinyLFU) : Prop :=
  windowCap c' = windowCap c /\ mainCap c' = mainCap c /\ protectedCap c' = protectedCap c /\ sketch c' = sketch c.

Lemma in_seg_app s l l' : in_seg s (l ++ l') <-> in_seg s l /\ in_seg s l'.
Proof. apply Forall_app. Qed.
Lemma in_seg_cons s p l : in_seg s (p :: l) <-> seg p.2 = s /\ in_seg s l.
Proof. apply Forall_cons_iff. Qed.

(** An item moved to a new element. *)
Lemma indexed_move l items fresh e (x x' : tlItem) : tkey x' = tkey x -> indexed tkey ((e, x) :: l) items fresh ->
  indexed tkey ((fresh, x') :: l) (<[tkey x := fresh]> items) (S fresh).
Proof.
  intros Ek Hi. pose proof (indexed_remove _ _ _ _ _ _ Hi) as Hr. rewrite <- insert_delete_eq, <- Ek. apply indexed_add; [by rewrite Ek|]. rewrite Ek. apply lookup_delete_eq.
Qed.

(** The list that holds an element, and the element in it. *)
Definition held (c : TinyLFU) (s : segKind) : list (nat * tlItem) := match s with segWindow => window c | segProbation => probation c | segProtected => protected c end.

Lemma element_held c e it : tl_inv c -> (e, it) ∈ elements c -> exists l1 l2, held c (seg it) = l1 ++ (e, it) :: l2 /\ (e ∉ l1.*1) /\ (e ∉ l2.*1).
Proof.
  intros [Hi Hw Hp Hq _ _ _ _] Hin.
  assert ((e, it) ∈ held c (seg it)) as Hh.
  { unfold elements in Hin. apply elem_of_app in Hin as [Hin|[Hin|Hin]%elem_of_app].
    - rewrite (proj1 (Forall_forall _ _) Hw _ Hin : seg it = _). done.
    - rewrite (proj1 (Forall_forall _ _) Hp _ Hin : seg it = _). done.
    - rewrite (proj1 (Forall_forall _ _) Hq _ Hin : seg it = _). done. }
  assert (NoDup (held c (seg it)).*1) as Hn.
  { pose proof (ix_ids _ _ _ _ Hi) as Hn. unfold elements in Hn. rewrite !fmap_app, !NoDup_app in Hn. by destruct (seg it); cbn; apply Hn. }
  apply list_elem_of_split in Hh as (l1 & l2 & E). exists l1, l2. split; [done|]. rewrite E, fmap_app, fmap_cons in Hn. apply NoDup_app in Hn as (_ & H1 & [H2 _]%NoDup_cons).
  split; [|done]. intros Hin'. apply (H1 e Hin'). left.
Qed.

Lemma key_element c k e : tl_inv c -> titems c !! k = Some e -> exists it, (e, it) ∈ elements c /\ tkey it = k.
Proof. intros Hi He. by apply (ix_items _ _ _ _ (ti_index _ Hi)). Qed.

Lemma Value_element c e it : tl_inv c -> (e, it) ∈ elements c -> Value e (elements c) = Ret it.
Proof.
  intros Hi (l1 & l2 & E)%list_elem_of_split. rewrite E. apply Value_middle. pose proof (ix_ids _ _ _ _ (ti_index _ Hi)) as Hn.
  rewrite E, fmap_app, fmap_cons in Hn. apply NoDup_app in Hn as (_ & H1 & _). intros Hin. apply (H1 e Hin). left.
Qed.

(** ** Moving within the cache *)

Definition kept (c c' : TinyLFU) : Prop := tl_inv c' /\ same_caps c c' /\ pairs c' ≡ₚ pairs c.

Lemma kept_trans c1 c2 c3 : kept c1 c2 -> kept c2 c3 -> kept c1 c3.
Proof. intros (? & (E1 & E2 & E3 & E4) & ?) (? & (F1 & F2 & F3 & F4) & ?). split_and!; [done|split_and!; congruence|by etrans]. Qed.

Lemma perm_front {A} (x : A) w p l1 l2 : w ++ p ++ l1 ++ x :: l2 ≡ₚ x :: w ++ p ++ l1 ++ l2.
Proof. rewrite !app_assoc. symmetry. apply Permutation_middle. Qed.

Lemma demote_kept c : tl_inv c -> kept c (demote c).
Proof.
  intros Hi. unfold demote. destruct (protectedCap c <? _); [|by split]. destruct (last (protected c)) as [[b bit]|] eqn:El; [|by split].
  apply last_Some in El as [l El]. destruct Hi as [Hix Hw Hp Hq Hc Hwl Hml Hs].
  assert (elements c ≡ₚ (b, bit) :: window c ++ probation c ++ l) as Ep by (unfold elements; rewrite El, perm_front; by rewrite app_nil_r).
  assert (b ∉ l.*1) as Hb.
  { pose proof (ix_ids _ _ _ _ Hix) as Hn. unfold elements in Hn. rewrite El, !fmap_app, !NoDup_app in Hn. destruct Hn as (_ & _ & _ & _ & _ & Hn & _).
    intros Hin. apply (Hn b Hin). left. }
  assert (Remove b (protected c) = l) as Er by (rewrite El, Remove_middle by (done || by intros ?%elem_of_nil); by rewrite app_nil_r).
  rewrite Er. rewrite El in Hq, Hml. apply in_seg_app in Hq as [Hq Hb']. apply in_seg_cons in Hb' as [Hseg _]. cbn in Hseg.
  rewrite length_app in Hml. cbn [length] in Hml. unfold with_lists, PushFront, kept. cbn. split; [split; cbn; try done|split; [done|]].
  - unfold elements. cbn. rewrite <- Permutation_middle. apply (indexed_move _ _ _ b bit (with_seg segProbation bit)); [done|]. by eapply indexed_perm.
  - by apply in_seg_cons.
  - lia.
  - unfold pairs. rewrite Ep. unfold elements. cbn. rewrite <- Permutation_middle. by rewrite !fmap_cons.
Qed.
Definition main_len (c : TinyLFU) : Z := Z.of_nat (length (probation c)) + Z.of_nat (length (protected c)).

Lemma remove_spec c e it : tl_inv c -> (e, it) ∈ elements c -> exists c', remove e c = Ret c' /\ elements c ≡ₚ (e, it) :: elements c' /\
  tl_inv c' /\ same_caps c c' /\ (seg it <> segWindow -> window c' = window c /\ main_len c' = main_len c - 1).
Proof.
  intros Hi Hin. pose proof (Value_element c e it Hi Hin) as Ev. destruct (element_held c e it Hi Hin) as (l1 & l2 & El & H1 & H2).
  unfold remove. rewrite Ev. cbn [mbind go_bind]. destruct Hi as [Hix Hw Hp Hq Hc Hwl Hml Hs]. unfold same_caps, main_len in *.
  destruct (seg it) eqn:Es; cbn [held] in El; rewrite El, Remove_middle by done; (eexists; split; [done|]); unfold elements in *; cbn;
    rewrite El in *; rewrite ?length_app in *; cbn [length] in *; rewrite ?in_seg_app, ?in_seg_cons in *.
  - assert ((l1 ++ (e, it) :: l2) ++ probation c ++ protected c ≡ₚ (e, it) :: (l1 ++ l2) ++ probation c ++ protected c) as Ep by (symmetry; rewrite <- !app_assoc; apply Permutation_middle).
    split; [done|]. split; [|by split]. rewrite Ep in Hix. apply indexed_remove in Hix. split; unfold elements; cbn; rewrite ?in_seg_app, ?length_app; try done; try lia; tauto.
  - assert (window c ++ (l1 ++ (e, it) :: l2) ++ protected c ≡ₚ (e, it) :: window c ++ (l1 ++ l2) ++ protected c) as Ep.
    { rewrite <- !app_assoc. cbn [app]. by rewrite <- !Permutation_middle. }
    split; [done|]. split; [|split; [done|intros _; split; [done|lia]]]. rewrite Ep in Hix. apply indexed_remove in Hix. split; unfold elements; cbn; rewrite ?in_seg_app, ?length_app; try done; try lia; tauto.
  - assert (window c ++ probation c ++ l1 ++ (e, it) :: l2 ≡ₚ (e, it) :: window c ++ probation c ++ l1 ++ l2) as Ep by apply perm_front.
    split; [done|]. split; [|split; [done|intros _; split; [done|lia]]]. rewrite Ep in Hix. apply indexed_remove in Hix. split; unfold elements; cbn; rewrite ?in_seg_app, ?length_app; try done; try lia; tauto.
Qed.

(** A list with one of its elements in front. *)
Lemma front_perm {A} (x : A) l1 l2 : x :: l1 ++ l2 ≡ₚ l1 ++ x :: l2.
Proof. apply Permutation_middle. Qed.

Lemma touch_kept c e it : tl_inv c -> (e, it) ∈ elements c -> exists c', touch e c = Ret c' /\ kept c c'.
Proof.
  intros Hi Hin. pose proof (Value_element c e it Hi Hin) as Ev. destruct (element_held c e it Hi Hin) as (l1 & l2 & El & H1 & H2).
  unfold touch. rewrite Ev. cbn [mbind go_bind]. destruct (seg it) eqn:Es; cbn [held] in El.
  - rewrite El, MoveToFront_middle by done. eexists. split; [done|]. destruct Hi as [Hix Hw Hp Hq Hc Hwl Hml Hs].
    set (c' := with_lists _ _ _ _ _ _). assert (elements c' ≡ₚ elements c) as Ep by (unfold elements; cbn; rewrite El; rewrite app_comm_cons; by rewrite front_perm).
    split; [|split; [done|unfold pairs; by rewrite Ep]]. rewrite El in Hw, Hwl. apply in_seg_app in Hw as [? [? ?]%in_seg_cons]. rewrite length_app in Hwl. cbn in Hwl.
    split; cbn; try done; [change (indexed tkey (elements c') (titems c) (tfresh c)); by rewrite Ep|by rewrite in_seg_cons, in_seg_app|rewrite length_app; lia].
  - rewrite El, Remove_middle by done. eexists. split; [done|]. set (c1 := with_lists _ _ _ _ _ _).
    assert (kept c c1) as Hk; [|eapply kept_trans; [exact Hk|apply demote_kept, Hk]].
    destruct Hi as [Hix Hw Hp Hq Hc Hwl Hml Hs]. rewrite El in Hp, Hml. apply in_seg_app in Hp as [? [? ?]%in_seg_cons]. rewrite length_app in Hml. cbn in Hml.
    assert (elements c ≡ₚ (e, it) :: window c ++ (l1 ++ l2) ++ protected c) as Ep by (unfold elements; rewrite El, <- !app_assoc; cbn [app]; by rewrite <- !Permutation_middle).
    assert (elements c1 ≡ₚ (tfresh c, with_seg segProtected it) :: window c ++ (l1 ++ l2) ++ protected c) as Ep1 by (unfold elements; cbn; unfold PushFront; by rewrite <- !Permutation_middle).
    split; [|split; [done|unfold pairs; by rewrite Ep, Ep1]]. split; cbn; try done.
    + change (indexed tkey (elements c1) (titems c1) (tfresh c1)). rewrite Ep1. apply (indexed_move _ _ _ e it); [done|]. by rewrite <- Ep.
    + by apply in_seg_app.
    + by apply in_seg_cons.
    + rewrite length_app. lia.
  - rewrite El, MoveToFront_middle by done. eexists. split; [done|]. destruct Hi as [Hix Hw Hp Hq Hc Hwl Hml Hs].
    set (c' := with_lists _ _ _ _ _ _). assert (elements c' ≡ₚ elements c) as Ep by (unfold elements; cbn; rewrite El; by rewrite front_perm).
    split; [|split; [done|unfold pairs; by rewrite Ep]]. rewrite El in Hq, Hml. apply in_seg_app in Hq as [? [? ?]%in_seg_cons]. rewrite length_app in Hml. cbn in Hml.
    split; cbn; try done; [change (indexed tkey (elements c') (titems c) (tfresh c)); by rewrite Ep|by rewrite in_seg_cons, in_seg_app|rewrite length_app; lia].
Qed.
(** ** Admission *)

Lemma push_probation_spec c it : tl_inv c -> titems c !! tkey it = None -> main_len c < mainCap c ->
  tl_inv (push_probation it c) /\ same_caps c (push_probation it c) /\ pairs (push_probation it c) ≡ₚ (tkey it, tval it) :: pairs c.
Proof.
  intros Hi Hn Hlt. set (c' := push_probation it c). assert (elements c' ≡ₚ (tfresh c, with_seg segProbation it) :: elements c) as Ep by (unfold elements; cbn; unfold PushFront; by rewrite <- !Permutation_middle).
  destruct Hi as [Hix Hw Hp Hq Hc Hwl Hml Hs]. split; [|split; [done|unfold pairs; by rewrite Ep]]. unfold main_len in Hlt. split; cbn; try done.
  - change (indexed tkey (elements c') (<[tkey (with_seg segProbation it) := tfresh c]> (titems c)) (S (tfresh c))). rewrite Ep. by apply indexed_add.
  - by apply in_seg_cons.
  - lia.
Qed.

(** The candidate taken out of the window and out of the index. *)
Lemma take_candidate c w e cand : indexed tkey (elements c) (titems c) (tfresh c) -> window c = w ++ [(e, cand)] ->
  Remove e (window c) = w /\ elements c ≡ₚ (e, cand) :: w ++ probation c ++ protected c /\
  indexed tkey (w ++ probation c ++ protected c) (delete (tkey cand) (titems c)) (tfresh c).
Proof.
  intros Hix El. assert (elements c ≡ₚ (e, cand) :: w ++ probation c ++ protected c) as Ep by (unfold elements; rewrite El, <- app_assoc; symmetry; apply Permutation_middle).
  split; [|split; [done|by rewrite Ep in Hix; apply indexed_remove in Hix]]. rewrite El, Remove_middle by (first [by intros ?%elem_of_nil|
    pose proof (ix_ids _ _ _ _ Hix) as Hn; unfold elements in Hn; rewrite El, !fmap_app, !NoDup_app in Hn; destruct Hn as ((_ & Hn & _) & _); intros Hin; apply (Hn e Hin); left]).
  apply app_nil_r.
Qed.

(** The index entry of the candidate does not matter to what follows. *)
Lemma remove_push c v cand c' : remove v (drop_item cand c) = Ret c' -> exists c2, remove v c = Ret c2 /\ push_probation cand c2 = push_probation cand c'.
Proof.
  unfold remove. change (elements (drop_item cand c)) with (elements c). destruct (Value v (elements c)) as [it|]; [|done]. cbn [mbind go_bind].
  intros [= <-]. eexists. split; [done|]. unfold push_probation. destruct (seg it); cbn; rewrite (delete_delete _ (tkey it) (tkey cand)); by rewrite insert_delete_eq.
Qed.

(** What may leave the cache when the window overflows with a candidate [q]. *)
Definition leaves (c : TinyLFU) (q : K * V) (gone : list (K * V)) : Prop :=
  gone = [] \/ gone = [q] \/
  (exists p a b, gone = [p] /\ (p ∈ pair_of <$> (probation c ++ protected c)) /\ main_len c = mainCap c /\
     estimate (hash p.1) (sketch c) = Ret a /\ estimate (hash q.1) (sketch c) = Ret b /\ a < b).

Lemma admit_spec c w e cand : window c = w ++ [(e, cand)] -> tl_inv (drop_item cand (with_lists (titems c) w (probation c) (protected c) (tfresh c) c)) ->
  indexed tkey (elements c) (titems c) (tfresh c) ->
  exists c' gone, admitFromWindow c = Ret c' /\ tl_inv c' /\ same_caps c c' /\ pairs c ≡ₚ gone ++ pairs c' /\ leaves c (pair_of (e, cand)) gone /\
    forall p, p ∈ pair_of <$> w -> p ∈ pairs c'.
Proof.
  intros El Hi1 Hix. destruct (take_candidate c w e cand Hix El) as (Er & Ep & Hix1). unfold admitFromWindow.
  assert (last (window c) = Some (e, cand)) as Elast by (rewrite El; apply last_snoc). rewrite Elast, Er.
  set (c1 := with_lists _ _ _ _ _ _) in *. set (c0 := drop_item cand c1) in *.
  assert (pairs c ≡ₚ (tkey cand, tval cand) :: pairs c0) as Ec by (unfold pairs; by rewrite Ep).
  assert (forall p, p ∈ pair_of <$> w -> p ∈ pairs c0) as Hw0 by (intros p Hp; unfold pairs, elements; cbn; rewrite fmap_app; apply elem_of_app; by left).
  assert (leaves c (pair_of (e, cand)) [pair_of (e, cand)]) as Hdrop by (right; by left).
  assert (titems c0 !! tkey cand = None) as Hn by apply lookup_delete_eq.
  change (mainCap c1) with (mainCap c). change (probation c1) with (probation c). change (protected c1) with (protected c). change (sketch c1) with (sketch c).
  destruct (Z.leb_spec (mainCap c) 0) as [Hz|Hz].
  { exists c0, [pair_of (e, cand)]. split_and!; done. }
  destruct (Z.ltb_spec (Z.of_nat (length (probation c)) + Z.of_nat (length (protected c))) (mainCap c)) as [Hlt|Hge].
  { exists (push_probation cand c1), []. assert (push_probation cand c1 = push_probation cand c0) as -> by (unfold push_probation; cbn; by rewrite insert_delete_eq).
    destruct (push_probation_spec c0 cand Hi1 Hn Hlt) as (? & ? & Epp). split; [done|]. split; [done|]. split; [done|]. split; [by rewrite Epp|]. split; [by left|]. intros p Hp. rewrite Epp. right. by apply Hw0. }
  pose proof (ti_mlen _ Hi1) as Hml. cbn in Hml.
  assert (exists v victim, match last (probation c) with Some x => Some x | None => last (protected c) end = Some (v, victim) /\ (v, victim) ∈ probation c ++ protected c) as (v & victim & Ev & Hv).
  { destruct (last (probation c)) as [[v victim]|] eqn:E1; [exists v, victim; split; [done|]; apply elem_of_app; left; apply last_Some in E1 as [? ->]; apply elem_of_app; right; left|].
    destruct (last (protected c)) as [[v victim]|] eqn:E2; [exists v, victim; split; [done|]; apply elem_of_app; right; apply last_Some in E2 as [? ->]; apply elem_of_app; right; left|].
    apply last_None in E1, E2. rewrite E1, E2 in Hge. cbn in Hge. lia. }
  rewrite Ev, !estimate_spec by apply (ti_sketch _ Hi1). cbn [mbind go_bind].
  destruct (Z.ltb_spec (lowest (sketch c) (hash (tkey victim)) 0 (rows (sketch c))) (lowest (sketch c) (hash (tkey cand)) 0 (rows (sketch c)))) as [Hl|Hl].
  2: { exists c0, [pair_of (e, cand)]. split_and!; done. }
  assert ((v, victim) ∈ elements c0) as Hv0 by (apply elem_of_app; by right).
  assert (seg victim <> segWindow) as Hseg.
  { apply elem_of_app in Hv as [Hv|Hv]; [pose proof (ti_probation _ Hi1) as Hf|pose proof (ti_protected _ Hi1) as Hf]; unfold in_seg in Hf; rewrite Forall_forall in Hf; by rewrite (Hf _ Hv : seg victim = _). }
  destruct (remove_spec c0 v victim Hi1 Hv0) as (c2 & E2 & Ep2 & Hi2 & Hs2 & Hw2). destruct (Hw2 Hseg) as [Ew2 Em2]. destruct (remove_push c1 v cand c2 E2) as (c2' & -> & Epush). cbn [mbind go_bind]. rewrite Epush.
  assert (titems c2 !! tkey cand = None) as Hn2.
  { apply (indexed_none _ _ _ _ _ (ti_index _ Hi2)). intros Hin. apply (indexed_none _ _ _ _ _ (ti_index _ Hi1)) in Hn. apply Hn. rewrite Ep2, !fmap_cons. by right. }
  destruct Hs2 as (S1 & S2 & S3 & S4). destruct (push_probation_spec c2 cand Hi2 Hn2) as (Hi3 & (T1 & T2 & T3 & T4) & Epp).
  { rewrite Em2, S2. unfold main_len. cbn. lia. }
  assert (pairs c0 ≡ₚ pair_of (v, victim) :: pairs c2) as Ec2 by (unfold pairs; by rewrite Ep2).
  exists (push_probation cand c2), [pair_of (v, victim)]. split; [done|]. split; [done|]. split; [unfold same_caps; rewrite T1, T2, T3, T4; exact (conj S1 (conj S2 (conj S3 S4)))|]. split.
  - rewrite Ec, Ec2, Epp. cbn [app]. apply perm_swap.
  - split.
    + right. right. exists (pair_of (v, victim)), (lowest (sketch c) (hash (tkey victim)) 0 (rows (sketch c))), (lowest (sketch c) (hash (tkey cand)) 0 (rows (sketch c))).
      split_and!; [done|by apply list_elem_of_fmap_2|unfold main_len; lia|cbn [pair_of fst snd]; apply estimate_spec, (ti_sketch _ Hi1)|apply estimate_spec, (ti_sketch _ Hi1)|done].
    + intros p Hp. rewrite Epp. right. unfold pairs, elements. rewrite Ew2, fmap_app. apply elem_of_app. by left.
Qed.
(** ** The calls *)

Lemma key_none c k : tl_inv c -> titems c !! k = None <-> (k ∉ (pairs c).*1).
Proof. intros Hi. rewrite (indexed_none _ _ _ _ _ (ti_index _ Hi)). unfold pairs. by rewrite <- !list_fmap_compose. Qed.

Lemma pairs_unique c k v v' : tl_inv c -> (k, v) ∈ pairs c -> (k, v') ∈ pairs c -> v = v'.
Proof.
  intros Hi (x & Ex & Hx)%list_elem_of_fmap (y & Ey & Hy)%list_elem_of_fmap. pose proof (ix_items _ _ _ _ (ti_index _ Hi)) as Hix.
  destruct x as [e x], y as [e' y]. injection Ex as -> ->. injection Ey as Ek ->. cbn in *.
  assert (titems c !! tkey x = Some e) as E1 by (apply Hix; by exists x). assert (titems c !! tkey x = Some e') as E2 by (apply Hix; by exists y).
  rewrite E1 in E2. injection E2 as <-. apply list_elem_of_split in Hx as (l1 & l2 & El). pose proof (ix_ids _ _ _ _ (ti_index _ Hi)) as Hn.
  rewrite El in Hy, Hn. rewrite fmap_app, fmap_cons in Hn. apply NoDup_app in Hn as (_ & H1 & [H2 _]%NoDup_cons).
  apply elem_of_app in Hy as [Hy|[[= ->]|Hy]%elem_of_cons]; [|done|].
  - exfalso. apply (H1 e); [by apply (list_elem_of_fmap_2 fst _ (e, y))|left].
  - exfalso. apply H2. by apply (list_elem_of_fmap_2 fst _ (e, y)).
Qed.

Lemma with_sketch_inv c s : tl_inv c -> sketch_ok s -> tl_inv (with_sketch s c).
Proof. intros [Hix Hw Hp Hq Hc Hwl Hml _] Hs. by split. Qed.

Lemma increment_ok c h : tl_inv c -> exists s, increment h (sketch c) = Ret s /\ sketch_ok s.
Proof.
  intros Hi. destruct (increment_spec (sketch c) h (MkIdeal (fun h => lowest (sketch c) h 0 (rows (sketch c))) (additions (sketch c))) (ti_sketch _ Hi)) as (s & E & Hs & _); [by split|]. by exists s.
Qed.

Lemma kept_pairs c c' p : kept c c' -> p ∈ pairs c' <-> p ∈ pairs c.
Proof. intros (_ & _ & E). by rewrite E. Qed.

Definition total (c : TinyLFU) : Z := windowCap c + mainCap c.
Lemma kept_total c c' : kept c c' -> total c' = total c.
Proof. intros (_ & (E1 & E2 & _) & _). unfold total. by rewrite E1, E2. Qed.

Lemma tl_Get_spec k c : tl_inv c -> exists c' o, tl_Get k c = Ret (c', o) /\ tl_inv c' /\ total c' = total c /\ (forall p, p ∈ pairs c' <-> p ∈ pairs c) /\
  match o with Some v => (k, v) ∈ pairs c | None => k ∉ (pairs c).*1 end.
Proof.
  intros Hi. unfold tl_Get. destruct (titems c !! k) as [e|] eqn:E.
  - destruct (increment_ok c (hash k) Hi) as (s & -> & Hs). destruct (key_element c k e Hi E) as (it & Hin & <-). cbn [mbind go_bind]. rewrite (Value_element c e it Hi Hin). cbn [mbind go_bind].
    destruct (touch_kept (with_sketch s c) e it (with_sketch_inv c s Hi Hs) Hin) as (c' & -> & Hk). cbn [mbind go_bind]. exists c', (Some (tval it)). split; [done|]. split; [apply Hk|].
    split; [by rewrite (kept_total _ _ Hk)|]. split; [intros p; by rewrite (kept_pairs _ _ p Hk)|]. by apply (list_elem_of_fmap_2 pair_of _ (e, it)).
  - exists c, None. split_and!; try done. by apply key_none.
Qed.

Lemma tl_Delete_spec k c : tl_inv c -> exists c', tl_Delete k c = Ret c' /\ tl_inv c' /\ total c' = total c /\ forall p, p ∈ pairs c' <-> p ∈ pairs c /\ p.1 <> k.
Proof.
  intros Hi. unfold tl_Delete. destruct (titems c !! k) as [e|] eqn:E.
  - destruct (key_element c k e Hi E) as (it & Hin & <-). destruct (remove_spec c e it Hi Hin) as (c' & -> & Ep & Hi' & (S1 & S2 & _) & _). exists c'. split; [done|]. split; [done|].
    split; [unfold total; by rewrite S1, S2|]. intros p. assert (p ∈ pairs c <-> p = pair_of (e, it) \/ p ∈ pairs c') as -> by (unfold pairs; rewrite Ep, fmap_cons; apply elem_of_cons).
    assert (tkey it ∉ (pairs c').*1) as Hn.
    { pose proof (ix_keys _ _ _ _ (ti_index _ Hi)) as Hk. rewrite Ep, !fmap_cons in Hk. apply NoDup_cons in Hk as [Hk _]. unfold pairs. by rewrite <- !list_fmap_compose in *. }
    split; [intros Hp; split; [by right|]|intros [[->|Hp] Hne]; done]. intros Ek. apply Hn. rewrite <- Ek. by apply list_elem_of_fmap_2.
  - exists c. split_and!; try done. intros p. split; [|tauto]. intros Hp. split; [done|]. intros Ek. apply (key_none c k Hi) in E. apply E. rewrite <- Ek. by apply list_elem_of_fmap_2.
Qed.

Lemma set_elements_spec c e it v : tl_inv c -> (e, it) ∈ elements c -> tl_inv (set_elements e v c) /\ (e, with_val v it) ∈ elements (set_elements e v c) /\
  forall p, p ∈ pairs (set_elements e v c) <-> p = (tkey it, v) \/ (p ∈ pairs c /\ p.1 <> tkey it).
Proof.
  intros Hi Hin. assert (elements (set_elements e v c) = set_Value e (with_val v) (elements c)) as Ee by (unfold elements, set_Value; cbn; by rewrite !fmap_app).
  pose proof (ti_index _ Hi) as Hix. pose proof Hin as (l1 & l2 & El)%list_elem_of_split.
  pose proof (ix_ids _ _ _ _ Hix) as Hn. pose proof (ix_keys _ _ _ _ Hix) as Hk. rewrite El in Hn, Hk. rewrite fmap_app, fmap_cons in Hn. rewrite !fmap_app, !fmap_cons in Hk. cbn [fst snd] in Hn, Hk.
  apply NoDup_app in Hn as (_ & N1 & [N2 _]%NoDup_cons). assert (e ∉ l1.*1) as N1' by (intros Hx; apply (N1 e Hx); left).
  apply NoDup_app in Hk as (_ & K1 & [K2 _]%NoDup_cons). assert (tkey it ∉ tkey <$> l1.*2) as K1' by (intros Hx; apply (K1 _ Hx); left).
  rewrite El, set_Value_middle in Ee by done.
  assert (forall s l, in_seg s l -> in_seg s (set_Value e (with_val v) l)) as Hseg.
  { intros s l Hs. unfold in_seg, set_Value in *. rewrite Forall_fmap. eapply Forall_impl; [exact Hs|]. intros x Hx. cbn. by case_decide. }
  split; [|split].
  - destruct Hi as [_ Hw Hp Hq Hc Hwl Hml Hs]. split; cbn; rewrite ?length_set_Value; try done; [|by apply Hseg..].
    change (indexed tkey (elements (set_elements e v c)) (titems c) (tfresh c)). rewrite Ee. destruct Hix as [I1 I2 I3 I4]. rewrite El in I1, I2, I3, I4.
    split; [by rewrite fmap_app, fmap_cons in *|by rewrite !fmap_app, !fmap_cons in *| |intros e' He'; apply I4; by rewrite fmap_app, fmap_cons in *].
    intros k e'. rewrite I3. setoid_rewrite elem_of_app. setoid_rewrite elem_of_cons.
    split; (intros (x & [Hx|[[= -> ->]|Hx]] & <-); [exists x; tauto|eexists; split; [right; left; reflexivity|done]|exists x; tauto]).
  - rewrite Ee. apply elem_of_app. right. left.
  - intros p. unfold pairs. rewrite Ee, El, !fmap_app, !fmap_cons, !elem_of_app, !elem_of_cons. cbn [pair_of fst snd with_val tkey tval].
    assert (forall l, p ∈ pair_of <$> l -> p.1 ∈ tkey <$> l.*2) as Hl by (intros l (y & -> & Hy)%list_elem_of_fmap; cbn; rewrite <- list_fmap_compose; by apply (list_elem_of_fmap_2 (tkey ∘ snd))).
    split.
    + intros [Hp|[->|Hp]]; [right; split; [by left|]|by left|right; split; [by do 2 right|]]; intros E; [apply K1'|apply K2]; rewrite <- E; by apply Hl.
    + intros [->|[[Hp|[->|Hp]] Hne]]; [right; by left|by left|done|by do 2 right].
Qed.
(** What a write may push out: an item of the window, or one of a full main area that is estimated to be
    used less than the item of the window that takes its place. *)
Definition evicted (c : TinyLFU) (s : cmSketch) (p : K * V) : Prop :=
  p ∈ pair_of <$> window c \/
  (main_len c = mainCap c /\ (p ∈ pair_of <$> (probation c ++ protected c)) /\
   exists q a b, q ∈ pair_of <$> window c /\ estimate (hash p.1) s = Ret a /\ estimate (hash q.1) s = Ret b /\ a < b).

(** The write of a new key, when it is in the window. *)
Lemma overflow_spec k v c : tl_inv c -> titems c !! k = None ->
  let c2 := with_lists (<[k := tfresh c]> (titems c)) (PushFront (tfresh c) (MkItem k v segWindow) (window c)) (probation c) (protected c) (S (tfresh c)) c in
  exists c', (if windowCap c2 <? Z.of_nat (length (window c2)) then admitFromWindow c2 else Ret c2) = Ret c' /\ tl_inv c' /\ total c' = total c /\ (k, v) ∈ pairs c' /\
    (forall p, p ∈ pairs c' -> p = (k, v) \/ p ∈ pairs c) /\ forall p, p ∈ pairs c -> p ∉ pairs c' -> evicted c (sketch c) p.
Proof.
  intros Hi Hn c2. assert (indexed tkey (elements c2) (titems c2) (tfresh c2)) as Hix2 by (apply (indexed_add tkey (elements c) (titems c) (tfresh c) (MkItem k v segWindow)); [apply Hi|done]).
  assert (pairs c2 = (k, v) :: pairs c) as Ep2 by done. pose proof Hi as [Hix Hw Hp Hq Hc Hwl Hml Hs].
  destruct (Z.ltb_spec (windowCap c2) (Z.of_nat (length (window c2)))) as [Hlt|Hge].
  2: { exists c2. split; [done|]. split; [split; try done; first [by apply in_seg_cons|exact Hge]|]. split; [done|]. rewrite Ep2. split; [left|]. split; [by intros p [->|?]%elem_of_cons; [left|right]|].
       intros p Hp' Hnp. exfalso. apply Hnp. by right. }
  cbn [c2 with_lists window PushFront length windowCap] in Hlt. destruct (window c) as [|x w0] eqn:Ew; [cbn in Hlt; lia|].
  destruct (exists_last (l := x :: w0) ltac:(done)) as (w & [e cand] & Ewl). rewrite Ewl in *.
  assert (window c2 = ((tfresh c, MkItem k v segWindow) :: w) ++ [(e, cand)]) as Ew2 by (unfold c2; cbn; unfold PushFront; cbn; by rewrite Ewl).
  destruct (take_candidate c2 _ e cand Hix2 Ew2) as (_ & _ & Hix3). rewrite !length_app in *. cbn [length] in *. apply in_seg_app in Hw as [Hw _].
  destruct (admit_spec c2 _ e cand Ew2) as (c' & gone & E & Hi' & (S1 & S2 & _) & Epp & Hl & Hkeep); [|exact Hix2|].
  { split; cbn; try done; [by apply in_seg_cons|lia]. }
  exists c'. split; [exact E|]. split; [done|]. split; [unfold total; by rewrite S1, S2|].
  assert ((k, v) ∈ pairs c') as Hkv by (apply Hkeep; left). split; [done|]. split.
  - intros p Hp'. assert (p ∈ pairs c2) as Hp2 by (rewrite Epp; apply elem_of_app; by right). rewrite Ep2 in Hp2. by apply elem_of_cons in Hp2 as [->|?]; [left|right].
  - intros p Hpc Hnp. assert (p ∈ gone) as Hg by (assert (p ∈ pairs c2) as Hp2 by (rewrite Ep2; by right); rewrite Epp in Hp2; by apply elem_of_app in Hp2 as [?|?]).
    assert (pair_of (e, cand) ∈ pair_of <$> window c) as Hcand by (rewrite Ew; apply list_elem_of_fmap_2, elem_of_app; right; left).
    destruct Hl as [->|[->|(p' & a & b & -> & Hm & Hfull & Ea & Eb & Hab)]]; [by apply elem_of_nil in Hg| |]; apply list_elem_of_singleton in Hg as ->.
    + by left.
    + right. split; [done|]. split; [done|]. by exists (pair_of (e, cand)), a, b.
Qed.
Lemma tl_Set_spec k v c : tl_inv c -> exists c' s, increment (hash k) (sketch c) = Ret s /\ tl_Set k v c = Ret c' /\ tl_inv c' /\ total c' = total c /\
  (k, v) ∈ pairs c' /\ (forall p, p ∈ pairs c' -> p = (k, v) \/ (p ∈ pairs c /\ p.1 <> k)) /\
  forall p, p ∈ pairs c -> p.1 <> k -> p ∉ pairs c' -> evicted c s p.
Proof.
  intros Hi. destruct (increment_ok c (hash k) Hi) as (s & E & Hs). pose proof (with_sketch_inv c s Hi Hs) as His. unfold tl_Set. rewrite E. cbn [mbind go_bind].
  change (titems (with_sketch s c)) with (titems c). destruct (titems c !! k) as [e|] eqn:Ek.
  - destruct (key_element c k e Hi Ek) as (it & Hin & <-). destruct (set_elements_spec (with_sketch s c) e it v His Hin) as (His' & Hin' & Hp).
    destruct (touch_kept _ e _ His' Hin') as (c' & Et & Hk). exists c', s. split; [done|]. split; [exact Et|]. split; [apply Hk|]. split; [by rewrite (kept_total _ _ Hk)|].
    split; [apply (kept_pairs _ _ _ Hk), Hp; by left|]. split; [intros p Hp'%(kept_pairs _ _ _ Hk)%Hp; done|].
    intros p Hpc Hne Hnp. exfalso. apply Hnp. apply (kept_pairs _ _ _ Hk), Hp. by right.
  - destruct (overflow_spec k v (with_sketch s c) His Ek) as (c' & Eo & Hi' & Ht & Hkv & Hin & Hout). exists c', s. split; [done|]. split; [exact Eo|]. split; [done|]. split; [done|]. split; [done|].
    split; [|intros p Hp _; by apply Hout]. intros p Hp. destruct (Hin p Hp) as [->|Hpc]; [by left|]. right. split; [done|]. intros E1. apply (key_none c k Hi) in Ek. apply Ek. rewrite <- E1. by apply list_elem_of_fmap_2.
Qed.

(** ** What the cache promises *)

#[export] Instance TinyLFU_Cache : Cache K V TinyLFU := { Get := tl_Get; Set_ := tl_Set; Delete := tl_Delete; Len := tl_Len }.

Definition tl_holds (n : Z) (c : TinyLFU) (m : gmap K V) : Prop := tl_inv c /\ total c = n /\ forall p, p ∈ pairs c -> m !! p.1 = Some p.2.

Lemma tl_Get_pair c k v : tl_inv c -> (k, v) ∈ pairs c -> exists c', tl_Get k c = Ret (c', Some v).
Proof.
  intros Hi Hp. destruct (tl_Get_spec k c Hi) as (c' & o & E & _ & _ & _ & Ho). exists c'. rewrite E. do 2 f_equal.
  destruct o as [v'|]; [f_equal; by eapply pairs_unique|]. exfalso. apply Ho. by apply (list_elem_of_fmap_2 fst _ (k, v)).
Qed.

#[export] Program Instance TinyLFU_Laws (n : Z) : CacheLaws K V TinyLFU := { bound := n; holds := tl_holds n }.
Next Obligation.
  intros n c m k (Hi & Ht & Hm). destruct (tl_Get_spec k c Hi) as (c' & o & E & Hi' & Ht' & Hp & Ho). exists c', o. split; [exact E|]. split.
  - split; [done|]. split; [congruence|]. intros p Hp'%Hp. by apply Hm.
  - intros v ->. by apply (Hm (k, v)).
Qed.
Next Obligation.
  intros n c m k v (Hi & Ht & Hm). destruct (tl_Set_spec k v c Hi) as (c' & s & _ & E & Hi' & Ht' & Hkv & Hp & _). exists c'. split; [exact E|]. split; [|by apply tl_Get_pair].
  split; [done|]. split; [congruence|]. intros p Hp'. destruct (Hp p Hp') as [->|[Hpc Hne]]; [by rewrite lookup_insert_eq|]. rewrite lookup_insert_ne by done. by apply Hm.
Qed.
Next Obligation.
  intros n c m k (Hi & Ht & Hm). destruct (tl_Delete_spec k c Hi) as (c' & E & Hi' & Ht' & Hp). exists c'. split; [exact E|]. split.
  - split; [done|]. split; [congruence|]. intros p [Hpc Hne]%Hp. rewrite lookup_delete_ne by done. by apply Hm.
  - destruct (tl_Get_spec k c' Hi') as (c'' & o & E' & _ & _ & _ & Ho). exists c''. destruct o as [v|]; [|exact E']. by apply Hp in Ho as [_ ?].
Qed.
Next Obligation. intros n c m ([_ _ _ _ _ Hwl Hml _] & <- & _). cbn. unfold tl_Len, total. lia. Qed.

Lemma NewTinyLFU_inv n : n <= 2 ^ 50 -> tl_inv (NewTinyLFU n) /\ total (NewTinyLFU n) = Z.max 1 n.
Proof.
  intros Hn. set (m := Z.max 1 n). assert (1 <= m <= 2 ^ 50) as Hm by lia. unfold NewTinyLFU.
  assert ((if n <=? 0 then 1 else n) = m) as -> by (destruct (Z.leb_spec n 0); lia). cbv zeta. rewrite (Z.quot_div_nonneg m 100) by lia.
  set (w := if m / 100 <? 1 then 1 else m / 100). assert (1 <= w <= m) as Hw.
  { unfold w. pose proof (Z.div_le_upper_bound m 100 m). destruct (Z.ltb_spec (m / 100) 1); lia. }
  rewrite (wrap64_id (m - w)), (wrap64_id ((m - w) * 80)) by (unfold int64; lia).
  pose proof (Z.quot_pos ((m - w) * 80) 100). destruct (newCMSketch_ok m (if wrap64 (10 * m) <? 100 then 100 else wrap64 (10 * m))) as (Hs & _); [lia|].
  split; [|unfold total; cbn; lia]. split; cbn; try done; try lia; try (by constructor). apply indexed_nil.
Qed.

(** ** Histories *)

Fixpoint tl_run (ops : list op) (c : TinyLFU) : go (TinyLFU * list (option V)) :=
  match ops with
  | [] => Ret (c, [])
  | OGet k :: ops => y ← tl_Get k c; z ← tl_run ops y.1; Ret (z.1, y.2 :: z.2)
  | OSet k v :: ops => c ← tl_Set k v c; tl_run ops c
  | ODelete k :: ops => c ← tl_Delete k c; tl_run ops c
  end.

Lemma tl_run_inv ops : forall c, tl_inv c -> exists c' out, tl_run ops c = Ret (c', out) /\ tl_inv c' /\ total c' = total c.
Proof.
  induction ops as [|[k|k v|k] ops IH]; intros c Hi; cbn [tl_run]; [by exists c, []| | |].
  - destruct (tl_Get_spec k c Hi) as (c1 & o & -> & Hi1 & Ht & _). cbn [mbind go_bind fst snd]. destruct (IH c1 Hi1) as (c' & out & -> & Hi' & Ht'). cbn. eexists _, _. split; [done|]. split; [done|congruence].
  - destruct (tl_Set_spec k v c Hi) as (c1 & s & _ & -> & Hi1 & Ht & _). cbn [mbind go_bind]. destruct (IH c1 Hi1) as (c' & out & -> & Hi' & Ht'). eexists _, _. split; [done|]. split; [done|congruence].
  - destruct (tl_Delete_spec k c Hi) as (c1 & -> & Hi1 & Ht & _). cbn [mbind go_bind]. destruct (IH c1 Hi1) as (c' & out & -> & Hi' & Ht'). eexists _, _. split; [done|]. split; [done|congruence].
Qed.

(** After any calls of a cache of at most 2^50 keys nothing has panicked and it holds no more than its
    capacity; a write keeps what it writes and, of the other keys, pushes out only one of the window or,
    when the main area is full, one of that area whose estimated use is below that of the key of the
    window that takes its place: keys used once do not displace the ones used often. *)
Theorem tinylfu_admission n ops k v : n <= 2 ^ 50 -> exists c out, tl_run ops (NewTinyLFU n) = Ret (c, out) /\ tl_Len c <= Z.max 1 n /\
  exists c' s, increment (hash k) (sketch c) = Ret s /\ tl_Set k v c = Ret c' /\ tl_Len c' <= Z.max 1 n /\ (k, v) ∈ pairs c' /\
  (forall p, p ∈ pairs c' -> p = (k, v) \/ (p ∈ pairs c /\ p.1 <> k)) /\
  forall p, p ∈ pairs c -> p.1 <> k -> p ∉ pairs c' -> evicted c s p.
Proof.
  intros Hn. destruct (NewTinyLFU_inv n Hn) as [Hi0 Ht0]. destruct (tl_run_inv ops _ Hi0) as (c & out & E & Hi & Ht). exists c, out. split; [exact E|].
  assert (forall c, tl_inv c -> tl_Len c <= total c) as Hlen by (intros c0 [_ _ _ _ _ Hwl Hml _]; unfold tl_Len, total; lia).
  split; [rewrite <- Ht0, <- Ht; by apply Hlen|]. destruct (tl_Set_spec k v c Hi) as (c' & s & Es & Ec & Hi' & Ht' & Hr). exists c', s. split; [done|]. split; [done|].
  split; [rewrite <- Ht0, <- Ht, <- Ht'; by apply Hlen|done].
Qed.
End tinylfu.

(** * Runs *)

(** One key used often, then keys used once. *)
Definition demo_ops : list (op (K := Z) (V := Z)) :=
  [OSet 1 10; OGet 1; OGet 1; OSet 2 20; OSet 3 30; OSet 4 40; OSet 5 50; OSet 6 60].

Lemma tinylfu_admission_witness : exists c out, tl_run (fun k => k) demo_ops (NewTinyLFU 3) = Ret (c, out) /\ tl_Len c <= 3 /\
  exists c', tl_Set (fun k => k) 7 70 c = Ret c' /\ (7, 70) ∈ pairs c' /\ tl_Len c' <= 3.
Proof.
  destruct (tinylfu_admission (fun k => k) 3 demo_ops 7 70) as (c & out & E & Hl & c' & s & _ & E' & Hl' & Hin & _); [lia|].
  exists c, out. split; [exact E|]. split; [exact Hl|]. exists c'. split; [exact E'|]. split; [exact Hin|exact Hl'].
Defined.

(** The key used often outlives the others; a cache of what was used last loses it. *)
Lemma scan_resisted :
  match tl_run (fun k => k) (demo_ops ++ [OGet 1]) (NewTinyLFU 3), run (demo_ops ++ [OGet 1]) (NewLRU 3) with
  | Ret (_, out), Ret (_, out') => last out = Some (Some 10) /\ last out' = Some None
  | _, _ => False end.
Proof. vm_compute. by split. Qed.
