(* ===== verification/Loader.v ===== *)
(** The loader in front of a cache ([pkg/store/cache/loader.go]): results and failures kept for a time, and
    one load for those who ask for a key at once. It is proved against the promise of [Lru.CacheLaws], which
    both caches keep. *)
From Stdlib Require Import ZArith Lia Bool.
From stdpp Require Import base numbers strings list gmap sets.
From S2P Require Import Prelude Lru TinyLfu.

Open Scope Z_scope.

Section loader.
(** The values and the errors of the load function. *)
Context {V Er C : Type}.

(** The pair a load returns. *)
Definition answer : Type := V * option Er.
Record item := MkItem { ival : V; ierr : option Er; iexp : Z }.
Definition answer_of (it : item) : answer := (ival it, ierr it).

Context `{Cache string item C}.

Record config := MkConfig { ttl : Z; negTTL : Z }.
Definition WithTTL (d : Z) (c : config) : config := MkConfig d (negTTL c).
Definition WithNegativeTTL (d : Z) (c : config) : config := MkConfig (ttl c) d.
(** A minute. *)
Definition NewLoader (opts : list (config -> config)) : config := foldl (fun c o => o c) (MkConfig 60000000000 0) opts.

(** The check before the flight and again within it. *)
Definition lookup_ (key : string) (now : Z) (c : C) : go (C * option answer) :=
  y ← Get key c;
  let '(c, o) := y in
  Ret (c, match o with Some it => if now <? iexp it then Some (answer_of it) else None | None => None end).

(** How long an answer is kept. *)
Definition kept_for (cfg : config) (a : answer) : Z := match a.2 with Some _ => negTTL cfg | None => ttl cfg end.

(** The end of the flight: the answer of the load is stored. *)
Definition store (cfg : config) (key : string) (a : answer) (now : Z) (c : C) : go C :=
  if 0 <? kept_for cfg a then Set_ key (MkItem a.1 a.2 (now + kept_for cfg a)) c else Ret c.

(** [Get] of one caller alone: the readings of the clock and the answer of the load, should there be one,
    are arguments. The result says whether there was. *)
Definition Get_ (cfg : config) (key : string) (t1 t2 t3 : Z) (load : answer) (c : C) : go (C * answer * bool) :=
  y ← lookup_ key t1 c;
  match y with
  | (c, Some a) => Ret (c, a, false)
  | (c, None) =>
      y ← lookup_ key t2 c;
      match y with
      | (c, Some a) => Ret (c, a, false)
      | (c, None) => c ← store cfg key load t3 c; Ret (c, load, true)
      end
  end.

(** [Forget] of the cache; what it does to the flights is the library's. *)
Definition Forget (key : string) (c : C) : go C := Delete key c.

(** * Many callers *)

(** A flight is a run of the function passed to the library that keeps one per key; whether there are
    two of a key at once is up to it. *)
Inductive flight := FStart (key : string) | FLoad (key : string) | FGot (key : string) (a : answer) | FDone (key : string) (a : answer).

(** What the load function has returned, what was stored and when, and what callers were given. *)
Record world := MkWorld {
  cache : C; flights : gmap nat flight; loads : list (string * answer); stored : list (string * answer * Z);
  served : list (string * answer * option Z)
}.

Inductive step (cfg : config) : world -> world -> Prop :=
| SHit key t a c c' fs lo st se : lookup_ key t c = Ret (c', Some a) -> step cfg (MkWorld c fs lo st se) (MkWorld c' fs lo st ((key, a, Some t) :: se))
| SMiss key t c c' n fs lo st se : lookup_ key t c = Ret (c', None) -> fs !! n = None -> step cfg (MkWorld c fs lo st se) (MkWorld c' (<[n := FStart key]> fs) lo st se)
| SCheck key n t c c' o fs lo st se : fs !! n = Some (FStart key) -> lookup_ key t c = Ret (c', o) ->
    step cfg (MkWorld c fs lo st se)
      (MkWorld c' (<[n := match o with Some a => FDone key a | None => FLoad key end]> fs) lo st
         (match o with Some a => [(key, a, Some t)] | None => [] end ++ se))
| SLoad key n a c fs lo st se : fs !! n = Some (FLoad key) -> step cfg (MkWorld c fs lo st se) (MkWorld c (<[n := FGot key a]> fs) ((key, a) :: lo) st se)
| SStore key n a t c c' fs lo st se : fs !! n = Some (FGot key a) -> store cfg key a t c = Ret c' ->
    step cfg (MkWorld c fs lo st se) (MkWorld c' (<[n := FDone key a]> fs) lo ((key, a, t) :: st) se)
| SShare key n a c fs lo st se : fs !! n = Some (FDone key a) -> step cfg (MkWorld c fs lo st se) (MkWorld c fs lo st ((key, a, None) :: se))
| SForget key c c' fs lo st se : Forget key c = Ret c' -> step cfg (MkWorld c fs lo st se) (MkWorld c' fs lo st se).

Inductive reachable (cfg : config) (c0 : C) : world -> Prop :=
| reach_start : reachable cfg c0 (MkWorld c0 ∅ [] [] [])
| reach_step w w' : reachable cfg c0 w -> step cfg w w' -> reachable cfg c0 w'.

Context `{!CacheLaws string item C}.

(** An item is an answer stored, and stored answers were loaded. *)
Definition item_ok (cfg : config) (st : list (string * answer * Z)) (key : string) (it : item) : Prop :=
  exists t, (key, answer_of it, t) ∈ st /\ 0 < kept_for cfg (answer_of it) /\ iexp it = t + kept_for cfg (answer_of it).

Record inv (cfg : config) (w : world) : Prop := {
  in_cache : exists m, holds (cache w) m /\ forall key it, m !! key = Some it -> item_ok cfg (stored w) key it;
  in_stored : forall key a t, (key, a, t) ∈ stored w -> (key, a) ∈ loads w;
  in_flights : forall n f, flights w !! n = Some f -> match f with FGot key a => (key, a) ∈ loads w | FDone key a => (key, a) ∈ loads w | _ => True end;
  in_served : forall key a o, (key, a, o) ∈ served w -> (key, a) ∈ loads w /\
    match o with Some t => exists ts, (key, a, ts) ∈ stored w /\ t < ts + kept_for cfg a | None => True end
}.

Lemma lookup_spec cfg w key t c' o : inv cfg w -> lookup_ key t (cache w) = Ret (c', o) ->
  (exists m, holds c' m /\ forall key it, m !! key = Some it -> item_ok cfg (stored w) key it) /\
  forall a, o = Some a -> exists ts, (key, a, ts) ∈ stored w /\ t < ts + kept_for cfg a.
Proof.
  intros [(m & Hm & Hit) _ _ _]. unfold lookup_. destruct (holds_Get _ m key Hm) as (c1 & o1 & -> & Hm1 & Hv). cbn [mbind go_bind]. intros [= <- <-].
  split; [by exists m|]. intros a. destruct o1 as [it|]; [|done]. destruct (Z.ltb_spec t (iexp it)) as [Hlt|]; [|done]. intros [= <-].
  destruct (Hit key it (Hv it eq_refl)) as (ts & Hts & _ & Hexp). exists ts. split; [done|lia].
Qed.

Lemma item_ok_mono cfg st st' key it : item_ok cfg st key it -> (forall x, x ∈ st -> x ∈ st') -> item_ok cfg st' key it.
Proof. intros (t & Ht & Hr) Hs. exists t. split; [by apply Hs|done]. Qed.

Lemma flights_insert (P : flight -> Prop) (fs : gmap nat flight) n f : (forall n f, fs !! n = Some f -> P f) -> P f -> forall n' f', <[n := f]> fs !! n' = Some f' -> P f'.
Proof. intros Hf Hp n' f' [[_ <-]|[_ E]]%lookup_insert_Some; [done|by eapply Hf]. Qed.

Lemma loader_step_inv cfg w w' : inv cfg w -> step cfg w w' -> inv cfg w'.
Proof.
  intros Hi Hs. destruct Hs as [key t a c c' fs lo st se Hl|key t c c' n fs lo st se Hl Hn|key n t c c' o fs lo st se Hn Hl|key n a c fs lo st se Hn|key n a t c c' fs lo st se Hn Hl|key n a c fs lo st se Hn|key c c' fs lo st se Hl].
  - destruct (lookup_spec _ _ _ _ _ _ Hi Hl) as (Hc & Ha). destruct (Ha a eq_refl) as (ts & Hts & Hlt). destruct Hi as [_ H2 H3 H4]. split; cbn in *; [done|done|done|].
    intros k b o [[= -> -> ->]|Hin]%elem_of_cons; [|by apply H4]. split; [by eapply H2|by exists ts].
  - destruct (lookup_spec _ _ _ _ _ _ Hi Hl) as (Hc & _). destruct Hi as [_ H2 H3 H4]. split; cbn in *; [done|done| |done]. by apply flights_insert.
  - destruct (lookup_spec _ _ _ _ _ _ Hi Hl) as (Hc & Ha). destruct Hi as [_ H2 H3 H4]. split; cbn in *; [done|done| |].
    + apply flights_insert; [done|]. destruct o as [a|]; [|done]. destruct (Ha a eq_refl) as (ts & Hts & _). by eapply H2.
    + intros k b o' Hin. apply elem_of_app in Hin as [Hin|Hin]; [|by apply H4]. destruct o as [a|]; [|by apply elem_of_nil in Hin].
      apply list_elem_of_singleton in Hin as [= -> -> ->]. destruct (Ha a eq_refl) as (ts & Hts & Hlt). split; [by eapply H2|by exists ts].
  - destruct Hi as [H1 H2 H3 H4]. split; cbn in *; [done| | |].
    + intros k b t Hin. right. by eapply H2.
    + apply flights_insert; [|left]. intros n' f Hf. specialize (H3 n' f Hf). destruct f; try done; by right.
    + intros k b o Hin. destruct (H4 k b o Hin). split; [by right|done].
  - destruct Hi as [(m & Hm & Hit) H2 H3 H4]. pose proof (H3 n _ Hn) as Hload. cbn in Hload, Hm, Hit. split; cbn in *.
    + unfold store in Hl. destruct (Z.ltb_spec 0 (kept_for cfg a)) as [Hk|].
      * destruct (holds_Set _ m key (MkItem a.1 a.2 (t + kept_for cfg a)) Hm) as (c1 & E & Hm1 & _). rewrite E in Hl. injection Hl as <-. eexists. split; [exact Hm1|].
        intros k it [[<- <-]|[_ Ek]]%lookup_insert_Some; [|
      eapply item_ok_mono; [by apply Hit|intros x Hx; by right]].
        exists t. unfold answer_of. cbn. destruct a as [v e]. split; [left|done].
      * injection Hl as <-. exists m. split; [done|]. intros k it Ek. eapply item_ok_mono; [by apply Hit|intros x Hx; by right].
    + intros k b t' [[= -> -> ->]|Hin]%elem_of_cons; [done|by eapply H2].
    + by apply flights_insert.
    + intros k b o Hin. destruct (H4 k b o Hin) as [Hlo Ho]. split; [done|]. destruct o as [t'|]; [|done]. destruct Ho as (ts & Hts & Hlt). exists ts. split; [by right|done].
  - destruct Hi as [H1 H2 H3 H4]. pose proof (H3 n _ Hn) as Hload. split; cbn in *; [done|done|done|]. intros k b o [[= -> -> ->]|Hin]%elem_of_cons; [done|by apply H4].
  - destruct Hi as [(m & Hm & Hit) H2 H3 H4]. split; cbn in *; [|done|done|done]. destruct (holds_Delete _ m key Hm) as (c1 & E & Hm1 & _). unfold Forget in Hl. rewrite E in Hl. injection Hl as <-.
    eexists. split; [exact Hm1|]. intros k it [_ Ek]%lookup_delete_Some. by apply Hit.
Qed.

(** However the flights interleave, on any cache that keeps its promise: what a caller is given for a
    key was returned by a load of that key; what it is given from the cache was stored less than the time
    to live before, the one of successes or of failures. *)
Theorem loader_serves cfg c0 w : holds c0 ∅ -> reachable cfg c0 w -> forall key a o, (key, a, o) ∈ served w -> (key, a) ∈ loads w /\
  match o with Some t => exists ts, (key, a, ts) ∈ stored w /\ t < ts + kept_for cfg a | None => True end.
Proof.
  intros H0 Hr. enough (inv cfg w) as [_ _ _ Hs] by exact Hs. induction Hr as [|w w' _ IH Hs]; [|by eapply loader_step_inv].
  split; cbn; [exists ∅; split; [done|]; intros key it E; by rewrite lookup_empty in E|by intros key a t ?%elem_of_nil|intros n f E; by rewrite lookup_empty in E|by intros key a o ?%elem_of_nil].
Qed.

(** A check that finds nothing, or only what is out of date. *)
Lemma lookup_miss c m key t : holds c m -> (forall it, m !! key = Some it -> iexp it <= t) -> exists c', lookup_ key t c = Ret (c', None) /\ holds c' m.
Proof.
  intros Hc Hn. unfold lookup_. destruct (holds_Get c m key Hc) as (c' & o & -> & Hc' & Ho). cbn [mbind go_bind]. exists c'. split; [|done].
  destruct o as [it|]; [|done]. specialize (Hn it (Ho it eq_refl)). by rewrite (proj2 (Z.ltb_ge _ _)).
Qed.

Lemma Get_miss cfg c m key t1 t2 t3 a : holds c m -> (forall it, m !! key = Some it -> iexp it <= t1 /\ iexp it <= t2) ->
  exists c0, holds c0 m /\ Get_ cfg key t1 t2 t3 a c = (c ← store cfg key a t3 c0; Ret (c, a, true)).
Proof.
  intros Hc Hn. unfold Get_. destruct (lookup_miss c m key t1 Hc) as (ca & -> & Hca); [intros it Hit; by apply Hn|]. cbn [mbind go_bind].
  destruct (lookup_miss ca m key t2 Hca) as (cb & -> & Hcb); [intros it Hit; by apply Hn|]. cbn [mbind go_bind]. by exists cb.
Qed.

(** One caller alone, on any cache that keeps its promise: a key that is not there is loaded; while its
    answer lives it is given again without a load, a failure like a success; when it does not live
    any more, or was not to be kept, it is loaded again. *)
Theorem loader_caches cfg c m key t1 t2 t3 a : holds c m -> m !! key = None ->
  exists c1, Get_ cfg key t1 t2 t3 a c = Ret (c1, a, true) /\ forall u1 u2 u3 b,
  (0 < kept_for cfg a -> u1 < t3 + kept_for cfg a -> exists c2, Get_ cfg key u1 u2 u3 b c1 = Ret (c2, a, false)) /\
  (kept_for cfg a <= 0 \/ (t3 + kept_for cfg a <= u1 /\ t3 + kept_for cfg a <= u2) -> exists c2, Get_ cfg key u1 u2 u3 b c1 = Ret (c2, b, true)).
Proof.
  intros Hm Hn. destruct (Get_miss cfg c m key t1 t2 t3 a Hm) as (c0 & Hc0 & ->); [intros it Hit; by rewrite Hn in Hit|].
  assert (forall c m key t b, holds c m -> exists c', store cfg key b t c = Ret c') as Hstore.
  { intros c' m' k t b Hc. unfold store. destruct (0 <? _); [|by eexists]. destruct (holds_Set c' m' k (MkItem b.1 b.2 (t + kept_for cfg b)) Hc) as (c2 & E & _). by exists c2. }
  assert (forall c m u1 u2 u3 b, holds c m -> (forall it, m !! key = Some it -> iexp it <= u1 /\ iexp it <= u2) -> exists c2, Get_ cfg key u1 u2 u3 b c = Ret (c2, b, true)) as Hagain.
  { intros c' m' u1 u2 u3 b Hc Hit. destruct (Get_miss cfg c' m' key u1 u2 u3 b Hc Hit) as (c2 & Hc2 & ->). destruct (Hstore c2 m' key u3 b Hc2) as [c3 ->]. by exists c3. }
  unfold store. destruct (Z.ltb_spec 0 (kept_for cfg a)) as [Hk|Hk].
  - destruct (holds_Set c0 m key (MkItem a.1 a.2 (t3 + kept_for cfg a)) Hc0) as (c1 & -> & Hc1 & c2 & E2). cbn [mbind go_bind]. exists c1. split; [done|]. intros u1 u2 u3 b. split.
    + intros _ Hu. exists c2. unfold Get_, lookup_. rewrite E2. cbn [mbind go_bind iexp]. rewrite (proj2 (Z.ltb_lt _ _)) by done. by destruct a.
    + intros [Hz|[Hu1 Hu2]]; [lia|]. eapply Hagain; [exact Hc1|]. intros it Hit. rewrite lookup_insert_eq in Hit. injection Hit as <-. cbn. lia.
  - cbn [mbind go_bind]. exists c0. split; [done|]. intros u1 u2 u3 b. split; [lia|]. intros _. eapply Hagain; [exact Hc0|]. intros it Hit. by rewrite Hn in Hit.
Qed.
End loader.

(** * Runs *)

Definition demo_cache : Type := LRU (K := string) (V := item (V := Z) (Er := string)).
Definition tiny_cache : Type := TinyLFU (K := string) (V := item (V := Z) (Er := string)).
#[export] Instance demo_Cache : Cache string (item (V := Z) (Er := string)) demo_cache := LRU_Cache.

Lemma NewLRU_holds n : 0 < n -> lru_holds n (NewLRU n : demo_cache) ∅.
Proof. intros Hn. split; [apply NewLRU_inv|]. split; [unfold NewLRU; cbn; by rewrite (proj2 (Z.leb_gt _ _))|]. by intros p ?%elem_of_nil. Qed.

Lemma NewTinyLFU_holds n : n <= 2 ^ 50 ->
  tl_holds (Z.max 1 n) (NewTinyLFU n : tiny_cache) ∅.
Proof. intros Hn. destruct (NewTinyLFU_inv (K := string) (V := item (V := Z) (Er := string)) n Hn) as [Hi Ht]. split; [done|]. split; [done|]. by intros p ?%elem_of_nil. Qed.

Definition demo_cfg : config := MkConfig 100 10.

Lemma loader_serves_witness : exists w, reachable demo_cfg (NewLRU 2 : demo_cache) w /\ ("k", (7, None), Some 50) ∈ served w /\
  exists ts, ("k", (7, None), ts) ∈ stored w /\ 50 < ts + 100.
Proof.
  assert (exists w, reachable demo_cfg (NewLRU 2 : demo_cache) w /\ ("k", (7, None), Some 50) ∈ served w) as (w & Hw & Hin).
  { eexists. split.
    - eapply reach_step; [eapply reach_step; [eapply reach_step; [eapply reach_step; [eapply reach_step; [apply reach_start|
      eapply (SMiss demo_cfg "k" 3 _ _ 0%nat); [vm_compute; reflexivity|apply lookup_empty]]|
      eapply (SCheck demo_cfg "k" 0%nat 4); [apply lookup_insert_eq|vm_compute; reflexivity]]|
      eapply (SLoad demo_cfg "k" 0%nat (7, None)); apply lookup_insert_eq]|
      eapply (SStore demo_cfg "k" 0%nat (7, None) 5); [apply lookup_insert_eq|vm_compute; reflexivity]]|
      apply (SHit demo_cfg "k" 50 (7, None)); vm_compute; reflexivity].
    - left. }
  exists w. split; [exact Hw|]. split; [exact Hin|].
  destruct (loader_serves (CacheLaws0 := LRU_Laws 2) demo_cfg (NewLRU 2) w (NewLRU_holds 2 eq_refl) Hw "k" (7, None) (Some 50) Hin) as (_ & ts & Hts & Hlt).
  exists ts. split; [exact Hts|exact Hlt].
Defined.

Lemma loader_caches_witness (hash := fun _ : string => 0) : exists c1, Get_ (H := TinyLFU_Cache hash) demo_cfg "k" 1 2 3 (0, Some "gone") (NewTinyLFU 8 : tiny_cache) = Ret (c1, (0, Some "gone"), true) /\
  exists c2, Get_ (H := TinyLFU_Cache hash) demo_cfg "k" 4 5 6 (9, None) c1 = Ret (c2, (0, Some "gone"), false).
Proof.
  destruct (loader_caches (CacheLaws0 := TinyLFU_Laws hash 8) demo_cfg (NewTinyLFU 8) ∅ "k" 1 2 3 (0, Some "gone")) as (c1 & E & Hr); [apply (NewTinyLFU_holds 8); lia|apply lookup_empty|].
  exists c1. split; [exact E|]. destruct (Hr 4 5 6 (9, None)) as [H1 _]. apply H1; vm_compute; reflexivity.
Defined.

(** A load that began before [Forget] stores what it loaded afterwards, and callers are given it. *)
Lemma stale_after_forget : exists w, reachable demo_cfg (NewLRU 2 : demo_cache) w /\
  served w = [("k", (1, None), Some 9)] /\ stored w = [("k", (1, None), 8)].
Proof.
  eexists. split.
  - eapply reach_step; [eapply reach_step; [eapply reach_step; [eapply reach_step; [eapply reach_step; [eapply reach_step; [apply reach_start|
      eapply (SMiss demo_cfg "k" 3 _ _ 0%nat); [vm_compute; reflexivity|apply lookup_empty]]|
      eapply (SCheck demo_cfg "k" 0%nat 4); [apply lookup_insert_eq|vm_compute; reflexivity]]|
      eapply (SLoad demo_cfg "k" 0%nat (1, None)); apply lookup_insert_eq]|
      apply (SForget demo_cfg "k"); vm_compute; reflexivity]|
      eapply (SStore demo_cfg "k" 0%nat (1, None) 8); [apply lookup_insert_eq|vm_compute; reflexivity]]|
      apply (SHit demo_cfg "k" 9 (1, None)); vm_compute; reflexivity].
  - split; reflexivity.
Qed.
