(* ===== verification/Leveling.v ===== *)
(** Experience and levels ([pkg/game/leveling/leveling.go]): the interface of a curve with what it
    promises, the curves of the package, and the conversion of experience to levels on any curve that
    keeps the promise. *)
From Stdlib Require Import ZArith Lia Bool Sorted.
From stdpp Require Import base numbers strings list.
From S2P Require Import Prelude Float64.

Open Scope Z_scope.

(** * The interface *)

Class Curve (C : Type) := {
  CumulativeExp : C -> Z -> go Z;
  MaxLevel : C -> Z
}.

(** The documented promise, for a curve with at least one level: the experience needed starts at zero
    and does not decrease; [cum] gives it for the levels there are. *)
Class CurveLaws C `{Curve C} (c : C) (cum : Z -> Z) := {
  MaxLevel_range : 1 <= MaxLevel c < 2 ^ 62;
  CumulativeExp_cum l : 1 <= l <= MaxLevel c -> CumulativeExp c l = Ret (cum l);
  cum_first : cum 1 = 0;
  cum_mono l l' : 1 <= l <= l' -> l' <= MaxLevel c -> cum l <= cum l';
  cum_int64 l : 1 <= l <= MaxLevel c -> int64 (cum l)
}.

Record Result := {
  Level : Z;
  LeveledUp : bool;
  LevelsGain : Z;
  TotalExp : Z;
  CurExp : Z;
  NextExp : Z;
  IsMax : bool
}.

(** * Levels of an experience *)

Section leveler.
Context `{Curve C} (curve : C).

(** A range of levels at least halves, so that one turn for each bit is enough. *)
Fixpoint level_loop (fuel : nat) (totalExp lo hi : Z) : go Z :=
  match fuel with
  | O => Ret lo
  | S fuel =>
      if negb (lo <? hi) then Ret lo
      else
        let mid := wrap64 (wrap64 (lo + hi) + 1) ÷ 2 in
        e ← CumulativeExp curve mid;
        if e <=? totalExp : bool then level_loop fuel totalExp mid hi
        else level_loop fuel totalExp lo (wrap64 (mid - 1))
  end.

Definition LevelAt (totalExp : Z) : go Z :=
  if totalExp <=? 0 then Ret 1
  else
    let maxLv := MaxLevel curve in
    level_loop 64 totalExp 1 maxLv.

Definition resultAt (newTotal oldLevel : Z) : go Result :=
  newLevel ← LevelAt newTotal;
  let maxLv := MaxLevel curve in
  let isMax := maxLv <=? newLevel in
  base ← CumulativeExp curve newLevel;
  next ← (if negb isMax then e ← CumulativeExp curve (wrap64 (newLevel + 1)); Ret (wrap64 (e - base)) else Ret 0);
  let gain := wrap64 (newLevel - oldLevel) in
  Ret {| Level := newLevel;
         LeveledUp := if gain <? 0 then false else oldLevel <? newLevel;
         LevelsGain := if gain <? 0 then 0 else gain;
         TotalExp := newTotal;
         CurExp := wrap64 (newTotal - base);
         NextExp := next;
         IsMax := isMax |}.

Definition Gain (totalExp delta : Z) : go Result :=
  let newTotal := Z.max (wrap64 (totalExp + delta)) 0 in
  oldLevel ← LevelAt totalExp;
  resultAt newTotal oldLevel.

Definition Stat (totalExp : Z) : go Result :=
  let totalExp := if totalExp <? 0 then 0 else totalExp in
  l ← LevelAt totalExp;
  resultAt totalExp l.
End leveler.

(** * The curves of the package *)

Record linearCurve := { perLevel : Z; maxLevel : Z }.

Definition Linear (perLevel maxLevel : Z) : linearCurve :=
  let perLevel := if perLevel <? 1 then 1 else perLevel in
  let maxLevel := if maxLevel <? 1 then 1 else maxLevel in
  {| perLevel := perLevel; maxLevel := maxLevel |}.

#[export] Instance linear_Curve : Curve linearCurve := {
  CumulativeExp c level :=
    if level <=? 1 then Ret 0
    else
      let level := if maxLevel c <? level then maxLevel c else level in
      Ret (wrap64 ((level - 1) * perLevel c));
  MaxLevel := maxLevel
}.

Record tableCurve := { tcum : list Z }.

(** Each entry is raised to the one before. *)
Fixpoint monotone (prev : Z) (l : list Z) : list Z :=
  match l with
  | [] => []
  | x :: l => let x := if x <? prev then prev else x in x :: monotone x l
  end.

Definition raised (l : list Z) : list Z := match l with [] => [] | x :: l => x :: monotone x l end.

Definition Table (cumulative : list Z) : tableCurve :=
  match cumulative with
  | [] => {| tcum := [0] |}
  | _ :: l => {| tcum := raised (0 :: l) |}
  end.

#[export] Instance table_Curve : Curve tableCurve := {
  CumulativeExp c level :=
    if level <=? 1 then Ret 0
    else
      let level := if Z.of_nat (length (tcum c)) <? level then Z.of_nat (length (tcum c)) else level in
      index (tcum c) (level - 1);
  MaxLevel c := Z.of_nat (length (tcum c))
}.

(** [math.Pow] and the conversion to [int64], which the language leaves open out of range, are arguments. *)
Record polyCurve := { base : float64; exp : float64; pmaxLevel : Z; cache : list Z }.

Definition Poly (pow : float64 -> float64 -> float64) (to_int64 : float64 -> Z) (base exp : float64) (maxLevel : Z) : polyCurve :=
  let base := if fleb base (of_int 0) then of_int 1 else base in
  let exp := if fltb exp (of_int 1) then of_int 1 else exp in
  let maxLevel := if maxLevel <? 1 then 1 else maxLevel in
  let cache := (fun i => to_int64 (fmul base (pow (of_int i) exp))) <$> seqZ 0 maxLevel in
  {| base := base; exp := exp; pmaxLevel := maxLevel; cache := raised cache |}.

#[export] Instance poly_Curve : Curve polyCurve := {
  CumulativeExp c level :=
    if level <=? 1 then Ret 0
    else
      let level := if pmaxLevel c <? level then pmaxLevel c else level in
      index (cache c) (level - 1);
  MaxLevel := pmaxLevel
}.

(** * Levels *)

Section levels.
Context `{HL : CurveLaws C curve cum}.

Lemma level_loop_spec T fuel : forall lo hi, 1 <= lo <= hi -> hi <= MaxLevel curve -> hi - lo < 2 ^ Z.of_nat fuel -> cum lo <= T ->
  exists r, level_loop curve fuel T lo hi = Ret r /\ lo <= r <= hi /\ cum r <= T /\ forall k, r < k <= hi -> T < cum k.
Proof.
  pose proof MaxLevel_range as HM. induction fuel as [|fuel IH]; intros lo hi Hlh Hhi Hf Hlo.
  - exists lo. change (2 ^ Z.of_nat 0) with 1 in Hf. split_and!; lia || done.
  - cbn [level_loop]. destruct (Z.ltb_spec lo hi) as [E|E]; cbn [negb]; [|exists lo; split_and!; try done; lia].
    rewrite (wrap64_id (lo + hi)), wrap64_id, Z.quot_div_nonneg by (unfold int64; lia).
    pose proof (Z.div_mod (lo + hi + 1) 2 ltac:(lia)). pose proof (Z.mod_pos_bound (lo + hi + 1) 2 ltac:(lia)).
    set (mid := (lo + hi + 1) / 2) in *. rewrite Nat2Z.inj_succ, Z.pow_succ_r in Hf by lia.
    rewrite CumulativeExp_cum by lia. cbn [mbind go_bind]. destruct (Z.leb_spec (cum mid) T) as [Ec|Ec].
    + destruct (IH mid hi) as (r & -> & Hr & Hc1 & Hc2); [lia..|]. exists r. split_and!; (done || lia).
    + rewrite wrap64_id by (unfold int64; lia). destruct (IH lo (mid - 1)) as (r & -> & Hr & Hc1 & Hc2); [lia..|].
      exists r. split_and!; try done; try lia. intros k Hk. destruct (Z.le_gt_cases k (mid - 1)); [apply Hc2; lia|].
      assert (cum mid <= cum k) by (apply (cum_mono (c:=curve)); lia). lia.
Qed.


(** [level_at T l]: [l] is the greatest level whose experience is there, the first without any. *)
Definition level_at (T l : Z) : Prop :=
  1 <= l <= MaxLevel curve /\ if T <=? 0 then l = 1 else forall k, 1 <= k <= MaxLevel curve -> (k <= l <-> cum k <= T).

Lemma level_at_fun T l l' : level_at T l -> level_at T l' -> l = l'.
Proof.
  intros [Hr Hk1] [Hr' Hk2]. destruct (T <=? 0); [congruence|]. pose proof (proj1 (Hk1 l ltac:(lia)) ltac:(lia)). pose proof (proj1 (Hk2 l' ltac:(lia)) ltac:(lia)).
  pose proof (proj2 (Hk2 l ltac:(lia)) ltac:(lia)). pose proof (proj2 (Hk1 l' ltac:(lia)) ltac:(lia)). lia.
Qed.

Lemma level_at_cum T l : 0 <= T -> level_at T l -> cum l <= T.
Proof.
  intros HT [Hr Hl]. destruct (Z.leb_spec T 0); [subst; rewrite cum_first; lia|]. by apply (Hl l); lia.
Qed.

Lemma level_at_mono T T' l l' : T <= T' -> level_at T l -> level_at T' l' -> l <= l'.
Proof.
  intros HT Hl Hl'. pose proof Hl as [Hr Hk1]. pose proof Hl' as [Hr' Hk2]. destruct (Z.leb_spec T 0); [lia|].
  pose proof (level_at_cum T l ltac:(lia) Hl). destruct (Z.leb_spec T' 0); [lia|]. apply Hk2; lia.
Qed.

Lemma LevelAt_level_at T : exists l, LevelAt curve T = Ret l /\ level_at T l.
Proof.
  pose proof MaxLevel_range as HM. unfold LevelAt, level_at. destruct (Z.leb_spec T 0); [exists 1; split_and!; (done || lia)|].
  destruct (level_loop_spec T 64 1 (MaxLevel curve)) as (r & -> & Hr & Hc & Hk); [lia|lia|cbn; lia|rewrite cum_first; lia|].
  exists r. split_and!; [done|lia|lia|]. intros k Hk'. split; intros.
  - assert (cum k <= cum r) by (apply (cum_mono (c:=curve)); lia). lia.
  - destruct (Z.le_gt_cases k r); [done|]. specialize (Hk k ltac:(lia)). lia.
Qed.

Definition result_ok (T l0 : Z) (r : Result) : Prop :=
  TotalExp r = T /\ level_at T (Level r) /\ LevelsGain r = Z.max 0 (Level r - l0) /\ (LeveledUp r = true <-> l0 < Level r) /\
  CurExp r = T - cum (Level r) /\ 0 <= CurExp r /\ (IsMax r = true <-> Level r = MaxLevel curve) /\
  if IsMax r then NextExp r = 0
  else NextExp r = cum (Level r + 1) - cum (Level r) /\ (0 < T -> CurExp r < NextExp r).

Lemma resultAt_ok T l0 : 0 <= T -> int64 T -> 1 <= l0 <= MaxLevel curve -> exists r, resultAt curve T l0 = Ret r /\ result_ok T l0 r.
Proof.
  intros HT Hi Hl0. pose proof MaxLevel_range as HM. unfold resultAt. destruct (LevelAt_level_at T) as (l & -> & Hl). cbn [mbind go_bind].
  pose proof Hl as [Hr Hk]. pose proof (level_at_cum T l HT Hl). assert (cum 1 <= cum l) by (apply (cum_mono (c:=curve)); lia). rewrite cum_first in *.
  assert (int64 (cum l)) by (apply (cum_int64 (c:=curve)); lia). unfold int64 in *.
  rewrite (CumulativeExp_cum l) by lia. cbn [mbind go_bind]. rewrite (wrap64_id (l - l0)), (wrap64_id (T - cum l)) by (unfold int64; lia).
  destruct (Z.leb_spec (MaxLevel curve) l) as [E|E]; cbn [negb mbind go_bind].
  - eexists. split; [done|]. unfold result_ok; cbn. split_and!; try done; try lia; destruct (Z.ltb_spec (l - l0) 0); try lia; split; intros; bool_prop; try done; lia.
  - rewrite (wrap64_id (l + 1)), CumulativeExp_cum by (unfold int64; lia). cbn [mbind go_bind].
    assert (int64 (cum (l + 1))) by (apply (cum_int64 (c:=curve)); lia). assert (cum l <= cum (l + 1)) by (apply (cum_mono (c:=curve)); lia). unfold int64 in *.
    rewrite wrap64_id by (unfold int64; lia). eexists. split; [done|]. unfold result_ok; cbn.
    split_and!; try done; try lia; [destruct (Z.ltb_spec (l - l0) 0); try lia; split; intros; bool_prop; try done; lia..|].
    intros HT0. destruct (Z.leb_spec T 0); [lia|]. destruct (Z.le_gt_cases (cum (l + 1)) T) as [Hc|Hc]; [|lia]. apply (Hk (l + 1)) in Hc; lia.
Qed.

Lemma Gain_ok T d : int64 (T + d) -> exists l0 r, LevelAt curve T = Ret l0 /\ level_at T l0 /\ Gain curve T d = Ret r /\ result_ok (Z.max (T + d) 0) l0 r.
Proof.
  intros Hi. unfold Gain. rewrite wrap64_id by done. destruct (LevelAt_level_at T) as (l0 & -> & Hl). cbn [mbind go_bind].
  destruct (resultAt_ok (Z.max (T + d) 0) l0) as (r & Hr & Hok); [lia|unfold int64 in *; lia|apply Hl|]. by exists l0, r.
Qed.
End levels.

(** * The curves keep the promise *)

Lemma linear_laws p m : 1 <= p -> 1 <= m < 2 ^ 62 -> (m - 1) * p < 2 ^ 63 -> CurveLaws linearCurve (Linear p m) (fun l => (l - 1) * p).
Proof.
  intros Hp Hm Hb. unfold Linear. rewrite (proj2 (Z.ltb_ge p 1)), (proj2 (Z.ltb_ge m 1)) by lia.
  split; cbn; intros; try nia; [|unfold int64; nia].
  destruct (Z.leb_spec l 1); [replace l with 1 by lia; done|]. rewrite (proj2 (Z.ltb_ge m l)) by lia. rewrite wrap64_id; [done|unfold int64; nia].
Qed.

Lemma monotone_length l : forall prev, length (monotone prev l) = length l.
Proof. induction l as [|x l IH]; intros prev; cbn; [done|]. by rewrite IH. Qed.

Lemma monotone_sorted l : forall prev, StronglySorted Z.le (prev :: monotone prev l).
Proof.
  induction l as [|x l IH]; intros prev; cbn; [by repeat constructor|]. specialize (IH (if x <? prev then prev else x)).
  constructor; [done|]. inversion IH as [|?? _ Hf]; subst. assert (prev <= if x <? prev then prev else x) by (destruct (Z.ltb_spec x prev); lia).
  constructor; [done|]. eapply Forall_impl; [done|]. cbn. lia.
Qed.

Lemma monotone_int64 l : forall prev, int64 prev -> Forall int64 l -> Forall int64 (monotone prev l).
Proof.
  induction l as [|x l IH]; intros prev Hp Hl; cbn; [done|]. inversion Hl; subst.
  assert (int64 (if x <? prev then prev else x)) by (by destruct (x <? prev)). constructor; [done|]. by apply IH.
Qed.

(** A curve of a nonempty table whose first entry is zero. *)
Lemma listed_laws {C} `{Curve C} (c : C) (l : list Z) :
  Z.of_nat (length (0 :: l)) < 2 ^ 62 -> Forall int64 l -> MaxLevel c = Z.of_nat (length (0 :: l)) ->
  (forall k, 1 <= k <= MaxLevel c -> CumulativeExp c k = if k <=? 1 then Ret 0 else index (raised (0 :: l)) (k - 1)) ->
  CurveLaws C c (fun k => default 0 (raised (0 :: l) !! Z.to_nat (k - 1))).
Proof.
  intros Hlen Hl HM HC. cbn [length raised] in *.
  assert (forall k, 1 <= k <= MaxLevel c -> is_Some ((0 :: monotone 0 l) !! Z.to_nat (k - 1))) as Hin.
  { intros k Hk. apply lookup_lt_is_Some_2. cbn. rewrite monotone_length. lia. }
  split; [lia| |done| |].
  - intros k Hk. rewrite HC by done. destruct (Z.leb_spec k 1); [by replace k with 1 by lia|].
    destruct (Hin k Hk) as [x Hx]. rewrite Hx. apply index_lookup in Hx. by rewrite Z2Nat.id in Hx by lia.
  - intros k k' Hk Hk'. destruct (Hin k ltac:(lia)) as [x Hx]. destruct (Hin k' ltac:(lia)) as [x' Hx']. rewrite Hx, Hx'. cbn.
    destruct (decide (k = k')) as [->|Hd]; [assert (x = x') by congruence; lia|]. eapply (StronglySorted_lookup Z.le); [apply (monotone_sorted l 0)|done|done|lia].
  - intros k Hk. destruct (Hin k Hk) as [x Hx]. rewrite Hx. cbn. eapply (proj1 (Forall_forall int64 (0 :: monotone 0 l))); [|by eapply list_elem_of_lookup_2].
    constructor; [done|]. by apply monotone_int64.
Qed.

Lemma table_laws (t : list Z) : Z.of_nat (length t) < 2 ^ 62 -> Forall int64 t ->
  CurveLaws tableCurve (Table t) (fun k => default 0 (raised (0 :: drop 1 t) !! Z.to_nat (k - 1))).
Proof.
  intros Hlen Ht. apply listed_laws.
  - rewrite length_cons, length_drop. destruct t; cbn [length] in *; lia.
  - by apply Forall_drop.
  - unfold Table. destruct t as [|x t]; cbn; [done|]. by rewrite monotone_length, drop_0.
  - intros k Hk. cbn [CumulativeExp table_Curve]. cbn [MaxLevel table_Curve] in Hk. rewrite (proj2 (Z.ltb_ge _ k)) by lia.
    unfold Table. destruct t as [|x t]; cbn [tcum drop]; [done|]. by rewrite drop_0.
Qed.

Lemma poly_laws pow conv b e m : m < 2 ^ 62 -> (forall x, int64 (conv x)) ->
  (let b := if fleb b (of_int 0) then of_int 1 else b in let e := if fltb e (of_int 1) then of_int 1 else e in conv (fmul b (pow (of_int 0) e)) = 0) ->
  exists cum, CurveLaws polyCurve (Poly pow conv b e m) cum.
Proof.
  intros Hm Hc H0. cbv zeta in H0. set (f := fun i => conv (fmul (if fleb b (of_int 0) then of_int 1 else b) (pow (of_int i) (if fltb e (of_int 1) then of_int 1 else e)))).
  set (M := if m <? 1 then 1 else m). assert (1 <= M < 2 ^ 62) by (unfold M; destruct (Z.ltb_spec m 1); lia).
  assert (f <$> seqZ 0 M = 0 :: (f <$> seqZ 1 (M - 1))) as Ef.
  { rewrite seqZ_cons by lia. rewrite fmap_cons. unfold f at 1. rewrite H0. by replace (Z.pred M) with (M - 1) by lia. }
  eexists. apply (listed_laws _ (f <$> seqZ 1 (M - 1))).
  - rewrite length_cons, length_fmap, length_seqZ. lia.
  - apply Forall_fmap, Forall_forall. intros x _. apply Hc.
  - rewrite length_cons, length_fmap, length_seqZ. change (M = Z.of_nat (S (Z.to_nat (M - 1)))). lia.
  - intros k Hk. cbn [CumulativeExp poly_Curve]. change (MaxLevel _) with M in Hk. change (pmaxLevel (Poly pow conv b e m)) with M.
    rewrite (proj2 (Z.ltb_ge M k)) by lia. rewrite <- Ef. done.
Qed.

(** * Properties *)

(** On any curve that keeps its promise, adding experience never panics: the new total is that of the
    two, at least zero, the level the greatest whose experience is there, the levels gained those between,
    the progress what is above the level's, below what the next one takes; and two gains in turn give the
    level, and together the levels, of their sum. *)
Theorem gain_levels {C} `{Curve C} (c : C) (cum : Z -> Z) (T a b : Z) :
  CurveLaws C c cum -> 0 <= T -> 0 <= b -> int64 (T + a) -> int64 (T + (a + b)) -> 0 <= T + a -> int64 (a + b) ->
  exists l0 r1 r2 r3, LevelAt c T = Ret l0 /\ level_at (cum := cum) (curve := c) T l0 /\
    Gain c T a = Ret r1 /\ result_ok (cum := cum) (curve := c) (T + a) l0 r1 /\
    Gain c (TotalExp r1) b = Ret r2 /\ Gain c T (a + b) = Ret r3 /\ Level r2 = Level r3 /\
    CurExp r2 = CurExp r3 /\ (0 <= a -> LevelsGain r1 + LevelsGain r2 = LevelsGain r3).
Proof.
  intros HL HT Hb H1 H2 Ha Hab. destruct (Gain_ok (cum := cum) (curve := c) T a H1) as (l0 & r1 & E0 & Hl0 & E1 & Hr1).
  rewrite Z.max_l in Hr1 by lia. pose proof Hr1 as (HT1 & Hl1 & Hg1 & _).
  destruct (Gain_ok (cum := cum) (curve := c) (T + a) b) as (l1 & r2 & E0' & Hl1' & E2 & Hr2); [by rewrite <- Z.add_assoc|].
  destruct (Gain_ok (cum := cum) (curve := c) T (a + b) H2) as (l0' & r3 & E0'' & _ & E3 & Hr3).
  assert (l0' = l0) as -> by congruence. rewrite Z.max_l in Hr2, Hr3 by lia. rewrite <- Z.add_assoc in Hr2.
  destruct Hr2 as (_ & Hl2 & Hg2 & _ & Hc2 & _). destruct Hr3 as (_ & Hl3 & Hg3 & _ & Hc3 & _).
  pose proof (level_at_fun _ _ _ Hl1 Hl1'). pose proof (level_at_fun _ _ _ Hl2 Hl3) as E23.
  exists l0, r1, r2, r3. rewrite HT1. split_and!; try done; [by rewrite Hc2, Hc3, E23|]. intros Ha0.
  assert (l0 <= l1) by (eapply (level_at_mono T (T + a)); (done || lia)). assert (l1 <= Level r2) by (eapply (level_at_mono (T + a) (T + (a + b))); (done || lia)). lia.
Qed.
Lemma gain_levels_witness : exists l0 r1 r2 r3, LevelAt (Table [0; 100; 250]) 30 = Ret l0 /\
    level_at (cum := fun k => default 0 (raised (0 :: [100; 250]) !! Z.to_nat (k - 1))) (curve := Table [0; 100; 250]) 30 l0 /\
    Gain (Table [0; 100; 250]) 30 80 = Ret r1 /\
    result_ok (cum := fun k => default 0 (raised (0 :: [100; 250]) !! Z.to_nat (k - 1))) (curve := Table [0; 100; 250]) (30 + 80) l0 r1 /\
    Gain (Table [0; 100; 250]) (TotalExp r1) 200 = Ret r2 /\ Gain (Table [0; 100; 250]) 30 (80 + 200) = Ret r3 /\ Level r2 = Level r3 /\
    CurExp r2 = CurExp r3 /\ (0 <= 80 -> LevelsGain r1 + LevelsGain r2 = LevelsGain r3).
Proof.
  apply (gain_levels (Table [0; 100; 250]) _ 30 80 200); try (unfold int64; lia). apply (table_laws [0; 100; 250]); [cbn; lia|].
  repeat constructor; unfold int64; lia.
Defined.

(** The level of a linear curve is one for every [p] of experience, up to the last. *)
Theorem linear_level p m T : 1 <= p -> 1 <= m < 2 ^ 62 -> (m - 1) * p < 2 ^ 63 -> 0 <= T ->
  LevelAt (Linear p m) T = Ret (Z.min m (T / p + 1)).
Proof.
  intros Hp Hm Hb HT. pose proof (linear_laws p m Hp Hm Hb) as HL. destruct (LevelAt_level_at (curve := Linear p m) T) as (l & -> & Hl). f_equal.
  assert (MaxLevel (Linear p m) = m) as EM by (unfold Linear; rewrite (proj2 (Z.ltb_ge m 1)) by lia; done).
  apply (level_at_fun _ _ _ Hl). pose proof (Z.div_mod T p ltac:(lia)). pose proof (Z.mod_pos_bound T p ltac:(lia)). pose proof (Z.div_pos T p HT ltac:(lia)).
  set (q := T / p) in *. unfold level_at. rewrite EM. split; [lia|]. destruct (Z.leb_spec T 0); [nia|].
  intros k Hk. split; intros; [nia|]. assert (k - 1 < q + 1) by nia. lia.
Qed.
Lemma linear_level_witness : LevelAt (Linear 100 50) 1234 = Ret (Z.min 50 (1234 / 100 + 1)).
Proof. apply (linear_level 100 50 1234); lia. Defined.

(** Experience that overflows falls back to none and to the first level. *)
Theorem gain_wraps : exists r, Gain (Linear 100 50) (2 ^ 63 - 1) 1 = Ret r /\ TotalExp r = 0 /\ Level r = 1.
Proof. eexists. split; [vm_compute; reflexivity|done]. Qed.

(** A linear curve whose last levels take more than an [int64] holds wraps, and a little experience is
    enough for the last level. *)
Theorem linear_overflow : LevelAt (Linear (2 ^ 62) 4) 1 = Ret 4.
Proof. reflexivity. Qed.

(** Levels that take no experience are given to whoever has some, not to whoever has none. *)
Theorem free_levels : LevelAt (Table [0; 0; 10]) 0 = Ret 1 /\ LevelAt (Table [0; 0; 10]) 1 = Ret 2.
Proof. split; reflexivity. Qed.
