(* ===== verification/Gameroom.v ===== *)
(** Game rooms ([pkg/game/gameroom/gameroom.go]): rooms with players and a life cycle, each a machine of
    [Fsm], and starts put off on the queue of [DelayQueue]. *)
From Stdlib Require Import ZArith Lia Bool.
From stdpp Require Import base numbers strings list gmap fin_maps sets relations.
From S2P Require Import Prelude Fsm DelayQueue.

Open Scope Z_scope.

Inductive Phase := PhaseWaiting | PhaseReady | PhaseRunning | PhaseDraining | PhaseClosed.
Inductive Event := EventPlayerJoined | EventAllReady | EventStart | EventDrain | EventEmpty | EventClose.

#[global] Instance Phase_eq_dec : EqDecision Phase.
Proof. solve_decision. Defined.
#[global] Instance Event_eq_dec : EqDecision Event.
Proof. solve_decision. Defined.
#[global] Instance Phase_countable : Countable Phase.
Proof.
  refine (inj_countable' (fun s => match s with PhaseWaiting => 0 | PhaseReady => 1 | PhaseRunning => 2 | PhaseDraining => 3 | PhaseClosed => 4 end)%nat
    (fun n => match n with O => PhaseWaiting | 1 => PhaseReady | 2 => PhaseRunning | 3 => PhaseDraining | _ => PhaseClosed end)%nat _).
  by intros [].
Defined.
#[global] Instance Event_countable : Countable Event.
Proof.
  refine (inj_countable' (fun s => match s with EventPlayerJoined => 0 | EventAllReady => 1 | EventStart => 2 | EventDrain => 3 | EventEmpty => 4 | EventClose => 5 end)%nat
    (fun n => match n with O => EventPlayerJoined | 1 => EventAllReady | 2 => EventStart | 3 => EventDrain | 4 => EventEmpty | _ => EventClose end)%nat _).
  by intros [].
Defined.

Definition machine : Type := FSM Phase Event unit Empty_set.

Record Spec := MkSpec { ID : string; MaxPlayers : Z; Meta : gmap string string }.

(** [OnRunning] may return an error; the other hooks are present or not. *)
Record Hooks := MkHooks { OnRunning : option (string -> option string); OnDrain : bool; OnClose : bool }.
Record Handle := MkHandle { hID : string; hPhase : Phase }.
Record roomState := MkRoom { spec : Spec; players : gset string; fsm : machine }.

(** A callback of the queue starts the room it names. *)
Record Manager := MkManager { rooms : gmap string roomState; queue : Queue (F := string); hooks : Hooks }.

(** The hooks a call runs. *)
Inductive effect := Running (id : string) | Drained (id : string) | Closed (id : string).

Inductive rErr :=
| EmptyRoomID | AlreadyExists | EmptyPlayerID | UnknownRoom | NotJoinable | RoomFull | NotReady | NotRunning
| Fired (e : @fErr Phase Event Empty_set) | HookError (e : string).

Definition New (h : Hooks) : Manager := MkManager ∅ DelayQueue.New h.
Definition Stop (m : Manager) : Manager := MkManager (rooms m) (DelayQueue.Stop (queue m)) (hooks m).

Definition newRoomFSM : machine :=
  Build (Allow PhaseReady EventClose PhaseClosed
    (Allow PhaseWaiting EventClose PhaseClosed
    (Allow PhaseDraining EventClose PhaseClosed
    (Allow PhaseDraining EventEmpty PhaseClosed
    (Allow PhaseRunning EventEmpty PhaseClosed
    (Allow PhaseRunning EventDrain PhaseDraining
    (Allow PhaseReady EventStart PhaseRunning
    (Allow PhaseWaiting EventAllReady PhaseReady
    (Allow PhaseWaiting EventPlayerJoined PhaseWaiting (NewBuilder PhaseWaiting)))))))))).

(** The error and the state a [Fire] returns are dropped by most callers. *)
Definition fire (e : Event) (f : machine) : machine := (Fire f e tt).1.1.1.

Definition set_room (id : string) (rs : roomState) (m : Manager) : Manager := MkManager (<[id := rs]> (rooms m)) (queue m) (hooks m).
Definition drop_room (id : string) (m : Manager) : Manager := MkManager (delete id (rooms m)) (queue m) (hooks m).
Definition set_fsm (f : machine) (rs : roomState) : roomState := MkRoom (spec rs) (players rs) f.
Definition set_players (p : gset string) (rs : roomState) : roomState := MkRoom (spec rs) p (fsm rs).
Definition set_queue (q : Queue) (m : Manager) : Manager := MkManager (rooms m) q (hooks m).
Definition len (p : gset string) : Z := Z.of_nat (size p).

Definition Allocate (sp : Spec) (m : Manager) : Manager * result rErr Handle :=
  if decide (ID sp = EmptyString) then (m, Err EmptyRoomID)
  else
    let sp := if MaxPlayers sp <=? 0 then MkSpec (ID sp) 16 (Meta sp) else sp in
    match rooms m !! ID sp with
    | Some _ => (m, Err AlreadyExists)
    | None =>
        let rs := MkRoom sp ∅ newRoomFSM in
        (set_room (ID sp) rs m, Ok (MkHandle (ID sp) (Current (fsm rs))))
    end.

Definition Join (roomID playerID : string) (m : Manager) : Manager * option rErr :=
  if decide (playerID = EmptyString) then (m, Some EmptyPlayerID)
  else
    match rooms m !! roomID with
    | None => (m, Some UnknownRoom)
    | Some rs =>
        if Is (fsm rs) PhaseClosed || Is (fsm rs) PhaseDraining then (m, Some NotJoinable)
        else if MaxPlayers (spec rs) <=? len (players rs) then (m, Some RoomFull)
        else
          let rs := set_players (players rs ∪ {[playerID]}) rs in
          let rs :=
            if Is (fsm rs) PhaseWaiting then
              let rs := set_fsm (fire EventPlayerJoined (fsm rs)) rs in
              if MaxPlayers (spec rs) <=? len (players rs) then set_fsm (fire EventAllReady (fsm rs)) rs else rs
            else rs in
          (set_room roomID rs m, None)
    end.

(** The machine of a room that is dropped is moved first; nobody sees it again. *)
Definition closeEmptyRoomLocked (rs : roomState) (roomID : string) (m : Manager) : Manager * list effect :=
  if negb (len (players rs) =? 0) then (m, [])
  else if Is (fsm rs) PhaseClosed then (drop_room roomID m, [])
  else
    let rs := set_fsm (fire (if Is (fsm rs) PhaseDraining || Is (fsm rs) PhaseRunning then EventEmpty else EventClose) (fsm rs)) rs in
    let m := set_room roomID rs m in
    (drop_room roomID m, if OnClose (hooks m) then [Closed roomID] else []).

Definition Leave (roomID playerID : string) (m : Manager) : Manager * list effect * option rErr :=
  match rooms m !! roomID with
  | None => (m, [], Some UnknownRoom)
  | Some rs =>
      let rs := set_players (players rs ∖ {[playerID]}) rs in
      let m := set_room roomID rs m in
      let '(m, ef) := if len (players rs) =? 0 then closeEmptyRoomLocked rs roomID m else (m, []) in
      (m, ef, None)
  end.

(** [ScheduleStart] gives the lock back between its test and the queue. *)
Definition may_schedule (roomID : string) (m : Manager) : option rErr :=
  match rooms m !! roomID with
  | None => Some UnknownRoom
  | Some rs => if negb (Is (fsm rs) PhaseReady) && negb (Is (fsm rs) PhaseWaiting) then Some NotReady else None
  end.
Definition start_key (roomID : string) : string := "start:" +:+ roomID.
Definition schedule (roomID : string) (delay clock : Z) (m : Manager) : go Manager :=
  '(q, _, wk) ← Schedule (start_key roomID) delay (Some roomID) clock (queue m);
  Ret (set_queue (if wk : bool then wake q else q) m).

(** The locked part of [Start]; the hook is called after it. *)
Definition Start_locked (roomID : string) (m : Manager) : Manager * option rErr :=
  match rooms m !! roomID with
  | None => (m, Some UnknownRoom)
  | Some rs =>
      let rs := if Is (fsm rs) PhaseWaiting && (0 <? len (players rs)) then set_fsm (fire EventAllReady (fsm rs)) rs else rs in
      let '(f, err) := if Is (fsm rs) PhaseReady then let '(f, _, _, err) := Fire (fsm rs) EventStart tt in (f, err) else (fsm rs, None) in
      let rs := set_fsm f rs in
      let m := set_room roomID rs m in
      match err with
      | Some e => (m, Some (Fired e))
      | None => if negb (Is (fsm rs) PhaseRunning) then (m, Some NotRunning) else (m, None)
      end
  end.
Definition Start (roomID : string) (m : Manager) : Manager * list effect * option rErr :=
  match Start_locked roomID m with
  | (m, Some e) => (m, [], Some e)
  | (m, None) =>
      match OnRunning (hooks m) with
      | Some h => (m, [Running roomID], HookError <$> h roomID)
      | None => (m, [], None)
      end
  end.

Definition Drain (roomID : string) (m : Manager) : Manager * list effect * option rErr :=
  match rooms m !! roomID with
  | None => (m, [], Some UnknownRoom)
  | Some rs =>
      if Is (fsm rs) PhaseClosed then (m, [], None)
      else
        let drained := Is (fsm rs) PhaseRunning in
        let '(f, err) := if drained then let '(f, _, _, err) := Fire (fsm rs) EventDrain tt in (f, err) else (fsm rs, None) in
        let rs := set_fsm f rs in
        let m := set_room roomID rs m in
        match err with
        | Some e => (m, [], Some (Fired e))
        | None =>
            let '(m, ef) := closeEmptyRoomLocked rs roomID m in
            (m, (if drained && OnDrain (hooks m) then [Drained roomID] else []) ++ ef, None)
        end
  end.

Definition Close (roomID : string) (m : Manager) : Manager * list effect * option rErr :=
  match rooms m !! roomID with
  | None => (m, [], Some UnknownRoom)
  | Some rs =>
      let '(q, found) := Cancel (start_key roomID) (queue m) in
      let m := set_queue (if found : bool then wake q else q) m in
      let '(m, ef) :=
        if negb (Is (fsm rs) PhaseClosed) then
          let m := set_room roomID (set_fsm (fire EventClose (fsm rs)) rs) m in
          (m, if OnClose (hooks m) then [Closed roomID] else [])
        else (m, []) in
      (drop_room roomID m, ef, None)
  end.

Definition Get (roomID : string) (m : Manager) : option Handle :=
  rs ← rooms m !! roomID; Some (MkHandle roomID (Current (fsm rs))).
(** In the order of a map range. *)
Definition Players (roomID : string) (m : Manager) : list string :=
  match rooms m !! roomID with None => [] | Some rs => elements (players rs) end.

(** ** Interleavings *)

(** [checked]: the [ScheduleStart] calls between their test and the queue; [due]: the callbacks the queue
    has fired; [starting]: the [Start] calls that have left the lock and not yet called the hook. *)
Record system := MkSys { mgr : Manager; checked : list string; due : list string; starting : list string }.

Definition start (h : Hooks) : system := MkSys (New h) [] [] [].

Inductive action :=
| AAllocate (sp : Spec) | AJoin (room player : string) | ALeave (room player : string)
| ACheck (room : string) | ASchedule (n : nat) (delay clock : Z) | ATurn (now : Z) | ACallback (n : nat)
| AStart (room : string) | AHook (n : nat) | ADrain (room : string) | AClose (room : string) | AStop.

Inductive event := Opened (id : string) | Hook (e : effect).

Definition begin_start (r : string) (s : system) : system :=
  match Start_locked r (mgr s) with
  | (m, Some _) => MkSys m (checked s) (due s) (starting s)
  | (m, None) => MkSys m (checked s) (due s) (starting s ++ [r])
  end.

(** The queue fires at any reading of the clock, which covers what its driver does. *)
Definition act (a : action) (s : system) : go (system * list event) :=
  let keep m ef := Ret (MkSys m (checked s) (due s) (starting s), Hook <$> ef) in
  match a with
  | AAllocate sp => let '(m, r) := Allocate sp (mgr s) in
      Ret (MkSys m (checked s) (due s) (starting s), match r with Ok _ => [Opened (ID sp)] | Err _ => [] end)
  | AJoin r p => keep (Join r p (mgr s)).1 []
  | ALeave r p => let '(m, ef, _) := Leave r p (mgr s) in keep m ef
  | ACheck r =>
      Ret (match may_schedule r (mgr s) with None => MkSys (mgr s) (checked s ++ [r]) (due s) (starting s) | Some _ => s end, [])
  | ASchedule n delay clock =>
      match checked s !! n with
      | None => Ret (s, [])
      | Some r => m ← schedule r delay clock (mgr s); Ret (MkSys m (delete n (checked s)) (due s) (starting s), [])
      end
  | ATurn now =>
      '(q, ready, _) ← turn now (queue (mgr s));
      Ret (MkSys (set_queue q (mgr s)) (checked s) (due s ++ map fn ready) (starting s), [])
  | ACallback n =>
      match due s !! n with
      | None => Ret (s, [])
      | Some r => Ret (begin_start r (MkSys (mgr s) (checked s) (delete n (due s)) (starting s)), [])
      end
  | AStart r => Ret (begin_start r s, [])
  | AHook n =>
      match starting s !! n with
      | None => Ret (s, [])
      | Some r => Ret (MkSys (mgr s) (checked s) (due s) (delete n (starting s)),
                       match OnRunning (hooks (mgr s)) with Some _ => [Hook (Running r)] | None => [] end)
      end
  | ADrain r => let '(m, ef, _) := Drain r (mgr s) in keep m ef
  | AClose r => let '(m, ef, _) := Close r (mgr s) in keep m ef
  | AStop => keep (Stop (mgr s)) []
  end.

Fixpoint run (acts : list action) (s : system) : go (system * list event) :=
  match acts with
  | [] => Ret (s, [])
  | a :: acts => '(s, e) ← act a s; '(s, es) ← run acts s; Ret (s, e ++ es)
  end.

(** * Rooms *)

(** A room fills up while it waits, has players from then on, and is gone when it is closed. *)
Record room_ok (id : string) (rs : roomState) : Prop := {
  r_id : ID (spec rs) = id;
  r_table : transit (fsm rs) = transit newRoomFSM;
  r_hooks : cb (fsm rs) = cb newRoomFSM;
  r_max : 1 <= MaxPlayers (spec rs);
  r_len : len (players rs) <= MaxPlayers (spec rs);
  r_waiting : state (fsm rs) = PhaseWaiting -> len (players rs) < MaxPlayers (spec rs);
  r_peopled : state (fsm rs) <> PhaseWaiting -> 0 < len (players rs);
  r_open : state (fsm rs) <> PhaseClosed
}.

Definition rooms_ok (m : Manager) : Prop := map_Forall room_ok (rooms m).

(** The table, read. *)
Definition next_phase (p : Phase) (e : Event) : option Phase :=
  match p, e with
  | PhaseWaiting, EventPlayerJoined => Some PhaseWaiting
  | PhaseWaiting, EventAllReady => Some PhaseReady
  | PhaseReady, EventStart => Some PhaseRunning
  | PhaseRunning, EventDrain => Some PhaseDraining
  | PhaseRunning, EventEmpty | PhaseDraining, EventEmpty => Some PhaseClosed
  | PhaseDraining, EventClose | PhaseWaiting, EventClose | PhaseReady, EventClose => Some PhaseClosed
  | _, _ => None
  end.

Lemma newRoomFSM_table p e : transit newRoomFSM !! (p, e) = next_phase p e.
Proof. destruct p, e; reflexivity. Qed.

Definition at_phase (p : Phase) : machine := MkFSM p (transit newRoomFSM) (cb newRoomFSM).

Lemma at_phase_eq id rs : room_ok id rs -> fsm rs = at_phase (state (fsm rs)).
Proof. intros Hr. pose proof (r_table _ _ Hr). pose proof (r_hooks _ _ Hr). destruct (fsm rs); cbn in *. by subst. Qed.

Lemma Fire_at p e : Fire (at_phase p) e tt =
  match next_phase p e with
  | Some q => (at_phase q, tt, q, None)
  | None => (at_phase p, tt, p, Some (ErrInvalidTransition p e))
  end.
Proof. unfold Fire. cbn [transit state at_phase]. rewrite newRoomFSM_table. by destruct (next_phase p e). Qed.

Lemma fire_at p e : fire e (at_phase p) = at_phase (default p (next_phase p e)).
Proof. unfold fire. rewrite Fire_at. by destruct (next_phase p e). Qed.

Lemma Is_at p q : Is (at_phase p) q = bool_decide (p = q).
Proof. done. Qed.

Lemma room_ok_intro id sp p ph : ID sp = id -> 1 <= MaxPlayers sp -> len p <= MaxPlayers sp ->
  (ph = PhaseWaiting -> len p < MaxPlayers sp) -> (ph <> PhaseWaiting -> 0 < len p) -> ph <> PhaseClosed ->
  room_ok id (MkRoom sp p (at_phase ph)).
Proof. by split. Qed.

Lemma room_destruct id rs : room_ok id rs -> exists sp p ph, rs = MkRoom sp p (at_phase ph) /\ ID sp = id /\ 1 <= MaxPlayers sp /\
  len p <= MaxPlayers sp /\ (ph = PhaseWaiting -> len p < MaxPlayers sp) /\ (ph <> PhaseWaiting -> 0 < len p) /\ ph <> PhaseClosed.
Proof.
  intros Hr. pose proof (at_phase_eq _ _ Hr) as E. destruct Hr as [H1 H2 H3 H4 H5 H6 H7 H8]. destruct rs as [sp p f]; cbn in *.
  exists sp, p, (state f). by rewrite <- E.
Qed.

(** ** What a call changes *)

Abbreviation steps := (rtc (edge (transit newRoomFSM))).

Definition local_ok (id : string) (o o' : option roomState) (es : list event) : Prop :=
  match o, o' with
  | None, None => es = []
  | None, Some rs' => room_ok id rs' /\ state (fsm rs') = PhaseWaiting /\ players rs' = ∅ /\ es = [Opened id]
  | Some rs, Some rs' => room_ok id rs' /\ spec rs' = spec rs /\ steps (state (fsm rs)) (state (fsm rs')) /\
      (state (fsm rs) = PhaseDraining -> players rs' ⊆ players rs) /\
      es = (if decide (state (fsm rs) <> PhaseDraining /\ state (fsm rs') = PhaseDraining) then [Hook (Drained id)] else [])
  | Some rs, None => es = [Hook (Closed id)]
  end.

Record changed (id : string) (m m' : Manager) (es : list event) : Prop := {
  c_others : forall id', id' <> id -> rooms m' !! id' = rooms m !! id';
  c_local : local_ok id (rooms m !! id) (rooms m' !! id) es;
  c_hooks : hooks m' = hooks m;
  c_queue : inv_q (queue m) -> inv_q (queue m')
}.

Lemma unchanged id m : rooms_ok m -> changed id m m [].
Proof.
  intros Hm. split; try done. unfold local_ok. destruct (rooms m !! id) as [rs|] eqn:E; [|done]. split; [by apply Hm|].
  split_and!; try done. by rewrite decide_False by naive_solver.
Qed.

Lemma changed_set id rs m es : local_ok id (rooms m !! id) (Some rs) es -> changed id m (set_room id rs m) es.
Proof. intros Hl. split; cbn; try done; [intros; by rewrite lookup_insert_ne|by rewrite lookup_insert_eq]. Qed.

(** A room that stays and does not start to drain. *)
Lemma changed_keep id sp p ph p' ph' m : rooms m !! id = Some (MkRoom sp p (at_phase ph)) ->
  room_ok id (MkRoom sp p' (at_phase ph')) -> steps ph ph' -> (ph = PhaseDraining -> p' ⊆ p) -> (ph' = PhaseDraining -> ph = PhaseDraining) ->
  changed id m (set_room id (MkRoom sp p' (at_phase ph')) m) [].
Proof.
  intros E Hr Hs Hp Hd. apply changed_set. rewrite E. split; [done|]. cbn. split_and!; try done. rewrite decide_False; [done|]. naive_solver.
Qed.

Lemma step_to p e q : next_phase p e = Some q -> edge (transit newRoomFSM) p q.
Proof. intros E. exists e. by rewrite newRoomFSM_table. Qed.

Lemma Allocate_changed sp m : rooms_ok m -> let '(m', r) := Allocate sp m in
  changed (ID sp) m m' (match r with Ok _ => [Opened (ID sp)] | Err _ => [] end).
Proof.
  intros Hm. unfold Allocate. destruct (decide _); [by apply unchanged|].
  set (sp' := if MaxPlayers sp <=? 0 then _ else sp). assert (ID sp' = ID sp /\ 1 <= MaxPlayers sp') as [-> HM] by (unfold sp'; destruct (Z.leb_spec (MaxPlayers sp) 0); cbn; split; (done || lia)).
  destruct (rooms m !! ID sp) as [rs|] eqn:E; [by apply unchanged|]. apply changed_set. rewrite E.
  split_and!; try done. apply room_ok_intro; try done; unfold len; try rewrite size_empty; try lia.
  unfold sp'. by destruct (_ <=? 0).
Qed.

Lemma len_add p x : len p <= len (p ∪ {[x]}) <= len p + 1 /\ 0 < len (p ∪ {[x]}).
Proof.
  unfold len. destruct (decide (x ∈ p)).
  - replace (p ∪ {[x]}) with p by set_solver. split; [lia|]. assert (size p <> 0)%nat; [|lia]. rewrite size_non_empty_iff. set_solver.
  - rewrite size_union, size_singleton by set_solver. lia.
Qed.

Lemma Join_changed id p m : rooms_ok m -> changed id m (Join id p m).1 [].
Proof.
  intros Hm. unfold Join. destruct (decide _); [by apply unchanged|]. destruct (rooms m !! id) as [rs|] eqn:E; [|by apply unchanged].
  destruct (room_destruct id rs) as (sp & ps & ph & -> & Hid & HM & Hl & Hw & Hpe & Hc); [by apply Hm|]. cbn [fsm spec players set_players].
  rewrite !Is_at. destruct (decide (ph = PhaseDraining)) as [->|Hd]; [by apply unchanged|]. rewrite (bool_decide_false (ph = PhaseClosed)), (bool_decide_false (ph = PhaseDraining)) by done.
  cbn [orb]. destruct (Z.leb_spec (MaxPlayers sp) (len ps)); [by apply unchanged|]. pose proof (len_add ps p) as [HA HA'].
  case_bool_decide as Ew; cbn [fst].
  - subst ph. specialize (Hw eq_refl). unfold set_fsm, set_players. cbn [spec players fsm]. rewrite !fire_at. cbn [next_phase from_option Datatypes.id].
    destruct (Z.leb_spec (MaxPlayers sp) (len (ps ∪ {[p]}))); eapply changed_keep; try done; try (apply room_ok_intro; (done || lia)).
    apply rtc_once. by apply (step_to _ EventAllReady).
  - unfold set_players; cbn [spec players fsm]. eapply changed_keep; try done. apply room_ok_intro; try done; intros; (congruence || lia).
Qed.

Lemma dropped id m m' es : rooms m' = delete id (rooms m) -> is_Some (rooms m !! id) -> hooks m' = hooks m ->
  (inv_q (queue m) -> inv_q (queue m')) -> es = [Hook (Closed id)] -> changed id m m' es.
Proof.
  intros Hr [rs Hs] Hh Hq ->. split; try done; rewrite Hr; [intros; by rewrite lookup_delete_ne|]. by rewrite Hs, lookup_delete_eq.
Qed.

(** An empty room is dropped with one call of the hook. *)
Lemma close_empty sp p ph id m : OnClose (hooks m) = true -> len p = 0 -> ph <> PhaseClosed ->
  exists m', closeEmptyRoomLocked (MkRoom sp p (at_phase ph)) id m = (m', [Closed id]) /\
  rooms m' = delete id (rooms m) /\ hooks m' = hooks m /\ queue m' = queue m.
Proof.
  intros Ho Hp Hph. unfold closeEmptyRoomLocked. cbn [players fsm]. rewrite Hp, !Is_at, (bool_decide_false (ph = PhaseClosed)) by done. cbn [Z.eqb negb].
  eexists. cbn [hooks set_room]. rewrite Ho. split; [done|]. cbn. by rewrite delete_insert_eq.
Qed.

Lemma Leave_changed id p m : rooms_ok m -> OnClose (hooks m) = true -> let '(m', ef, _) := Leave id p m in changed id m m' (Hook <$> ef).
Proof.
  intros Hm Ho. unfold Leave. destruct (rooms m !! id) as [rs|] eqn:E; [|by apply unchanged].
  destruct (room_destruct id rs) as (sp & ps & ph & -> & Hid & HM & Hl & Hw & Hpe & Hc); [by apply Hm|]. unfold set_players; cbn [spec players fsm].
  assert (len (ps ∖ {[p]}) <= len ps) by (unfold len; assert (size (ps ∖ {[p]}) <= size ps)%nat by (apply subseteq_size; set_solver); lia).
  destruct (Z.eqb_spec (len (ps ∖ {[p]})) 0) as [E0|E0].
  - destruct (close_empty sp (ps ∖ {[p]}) ph id (set_room id (MkRoom sp (ps ∖ {[p]}) (at_phase ph)) m)) as (m' & -> & Hr & Hh & Hq); [done..|].
    apply (dropped id); try done; [|by rewrite Hq]. rewrite Hr. cbn. by rewrite delete_insert_eq.
  - eapply changed_keep; try done; [|set_solver]. assert (0 <= len (ps ∖ {[p]})) by (unfold len; lia). apply room_ok_intro; try done; try lia.
    intros Ew. specialize (Hw Ew). lia.
Qed.

Lemma Start_changed id m : rooms_ok m -> changed id m (Start_locked id m).1 [].
Proof.
  intros Hm. unfold Start_locked. destruct (rooms m !! id) as [rs|] eqn:E; [|by apply unchanged].
  destruct (room_destruct id rs) as (sp & ps & ph & -> & Hid & HM & Hl & Hw & Hpe & Hc); [by apply Hm|]. unfold set_fsm; cbn [spec players fsm].
  rewrite Is_at, fire_at. assert (ph = PhaseWaiting \/ ph <> PhaseWaiting) as [->|Hn] by (destruct ph; auto).
  - rewrite bool_decide_true by done. cbn [andb next_phase from_option Datatypes.id]. destruct (Z.ltb_spec 0 (len ps)) as [Ep|Ep].
    + cbn. rewrite Fire_at. cbn. eapply changed_keep; try done.
      eapply rtc_l; [by apply (step_to _ EventAllReady)|]. apply rtc_once. by apply (step_to _ EventStart).
    + cbn. eapply changed_keep; try done.
  - rewrite bool_decide_false by done. cbn [andb spec players fsm]. rewrite Is_at. case_bool_decide as Er.
    + subst ph. rewrite Fire_at. cbn. eapply changed_keep; try done; [apply room_ok_intro; (done || intros; by apply Hpe)|].
      apply rtc_once. by apply (step_to _ EventStart).
    + cbn [negb]. assert (changed id m (set_room id (MkRoom sp ps (at_phase ph)) m) []); [|by case_match].
      eapply changed_keep; try done.
Qed.

Lemma Drain_changed id m : rooms_ok m -> OnClose (hooks m) = true -> OnDrain (hooks m) = true ->
  let '(m', ef, _) := Drain id m in changed id m m' (Hook <$> ef).
Proof.
  intros Hm Ho Hod. unfold Drain. destruct (rooms m !! id) as [rs|] eqn:E; [|by apply unchanged].
  destruct (room_destruct id rs) as (sp & ps & ph & -> & Hid & HM & Hl & Hw & Hpe & Hc); [by apply Hm|]. unfold set_fsm; cbn [spec players fsm].
  rewrite !Is_at, (bool_decide_false (ph = PhaseClosed)) by done. case_bool_decide as Er.
  - subst ph. rewrite Fire_at. cbn [next_phase]. unfold closeEmptyRoomLocked. cbn [players].
    specialize (Hpe ltac:(done)). rewrite (proj2 (Z.eqb_neq _ 0)) by lia. cbn. rewrite Hod. cbn. apply changed_set. rewrite E. cbn.
    split_and!; try done. apply rtc_once. by apply (step_to _ EventDrain).
  - cbn [andb app]. destruct (Z.eqb_spec (len ps) 0) as [E0|E0].
    + destruct (close_empty sp ps ph id (set_room id (MkRoom sp ps (at_phase ph)) m)) as (m' & -> & Hr & Hh & Hq); [done..|].
      apply (dropped id); try done; [|by rewrite Hq]. rewrite Hr. cbn. by rewrite delete_insert_eq.
    + unfold closeEmptyRoomLocked. cbn [players]. rewrite (proj2 (Z.eqb_neq _ 0)) by done. cbn [negb].
      eapply changed_keep; try done.
Qed.

Lemma Close_changed id m : rooms_ok m -> OnClose (hooks m) = true -> let '(m', ef, _) := Close id m in changed id m m' (Hook <$> ef).
Proof.
  intros Hm Ho. unfold Close. destruct (rooms m !! id) as [rs|] eqn:E; [|by apply unchanged].
  destruct (room_destruct id rs) as (sp & ps & ph & -> & Hid & HM & Hl & Hw & Hpe & Hc); [by apply Hm|]. unfold set_fsm; cbn [spec players fsm].
  pose proof (Cancel_spec (start_key id) (queue m)) as HC. destruct (Cancel (start_key id) (queue m)) as [q found].
  rewrite Is_at, bool_decide_false by done. cbn [negb]. cbn [hooks set_queue set_room]. rewrite Ho. apply (dropped id); try done.
  - cbn. by rewrite delete_insert_eq.
  - cbn. intros Hq. destruct (HC Hq) as [Hq' _]. destruct found; [by apply set_wake_inv|done].
Qed.

(** * Lives *)

(** What the hooks let one see of a room: nothing of it, a room, a room that drains. *)
Inductive life := Gone | Live | Leaving.

Definition about (e : event) : string :=
  match e with Opened id | Hook (Running id) | Hook (Drained id) | Hook (Closed id) => id end.

Definition life_next (id : string) (l : life) (e : event) : option life :=
  if decide (about e = id) then
    match e, l with
    | Opened _, Gone => Some Live
    | Hook (Running _), l => Some l
    | Hook (Drained _), Live => Some Leaving
    | Hook (Closed _), (Live | Leaving) => Some Gone
    | _, _ => None
    end
  else Some l.

Fixpoint lives (id : string) (l : life) (es : list event) : option life :=
  match es with [] => Some l | e :: es => l ← life_next id l e; lives id l es end.

Definition life_of (o : option roomState) : life :=
  match o with None => Gone | Some rs => if decide (Current (fsm rs) = PhaseDraining) then Leaving else Live end.

Lemma lives_app id es es' : forall l, lives id l (es ++ es') = (l ← lives id l es; lives id l es').
Proof. induction es as [|e es IH]; intros l; cbn; [done|]. destruct (life_next id l e); cbn; [apply IH|done]. Qed.

Lemma lives_other id es : forall l, Forall (fun e => about e <> id) es -> lives id l es = Some l.
Proof.
  induction es as [|e es IH]; intros l Hf; [done|]. inversion Hf; subst. cbn. unfold life_next. rewrite decide_False by done. cbn. by apply IH.
Qed.

Lemma local_lives id o o' es : local_ok id o o' es -> match o with Some rs => room_ok id rs | None => True end ->
  lives id (life_of o) es = Some (life_of o') /\ Forall (fun e => about e = id) es.
Proof.
  unfold local_ok, life_of, Current. destruct o as [rs|], o' as [rs'|].
  - intros (Hr & Hs & Hst & Hp & ->) Hr0. destruct (decide (state (fsm rs) = PhaseDraining)) as [E|E].
    + rewrite decide_False by naive_solver. assert (state (fsm rs') = PhaseDraining) as ->; [|by rewrite decide_True].
      rewrite E in Hst. apply rtc_inv in Hst as [?|(p & [e He] & Hst)]; [done|]. exfalso. rewrite newRoomFSM_table in He.
      assert (p = PhaseClosed) as -> by (destruct e; naive_solver). apply rtc_inv in Hst as [Hc|(q & [e' He'] & _)]; [by destruct Hr|].
      rewrite newRoomFSM_table in He'. by destruct e'.
    + destruct (decide (state (fsm rs') = PhaseDraining)); [rewrite decide_True by done|rewrite decide_False by naive_solver; done].
      cbn. unfold life_next. rewrite decide_True by done. split; [done|]. by repeat constructor.
  - intros -> Hr0. cbn. unfold life_next. rewrite decide_True by done. split; [by destruct (decide (state (fsm rs) = PhaseDraining))|]. by repeat constructor.
  - intros (Hr & Hw & Hp & ->) _. cbn. unfold life_next. rewrite decide_True by done. rewrite Hw. split; [done|]. by repeat constructor.
  - intros -> _. done.
Qed.

(** ** Every step *)

Definition sys_ok (h : Hooks) (s : system) : Prop := rooms_ok (mgr s) /\ hooks (mgr s) = h /\ inv_q (queue (mgr s)).

(** The phases of a room that stays follow the table; while it drains nobody comes in. *)
Definition forward (o o' : option roomState) : Prop :=
  match o, o' with
  | Some rs, Some rs' => spec rs' = spec rs /\ steps (state (fsm rs)) (state (fsm rs')) /\
      (state (fsm rs) = PhaseDraining -> players rs' ⊆ players rs)
  | None, Some rs' => state (fsm rs') = PhaseWaiting /\ players rs' = ∅
  | _, None => True
  end.

Record advanced (s s' : system) (es : list event) : Prop := {
  a_lives : forall id, lives id (life_of (rooms (mgr s) !! id)) es = Some (life_of (rooms (mgr s') !! id));
  a_forward : forall id, forward (rooms (mgr s) !! id) (rooms (mgr s') !! id)
}.

Lemma changed_advanced h id s s' es : sys_ok h s -> changed id (mgr s) (mgr s') es -> advanced s s' es /\ sys_ok h s'.
Proof.
  intros (Hm & Hh & Hq) [Ho Hl Hk Hq']. assert (match rooms (mgr s) !! id with Some rs => room_ok id rs | None => True end) as H0 by (case_match; [by apply Hm|done]).
  destruct (local_lives id _ _ _ Hl H0) as [Hv Hf]. split; [split|split; [|split]].
  - intros id'. destruct (decide (id' = id)) as [->|Hd]; [done|]. rewrite Ho by done. apply lives_other. eapply Forall_impl; [done|]. cbn. congruence.
  - intros id'. destruct (decide (id' = id)) as [->|Hd].
    + unfold local_ok, forward in *. destruct (rooms (mgr s) !! id), (rooms (mgr s') !! id); naive_solver.
    + rewrite Ho by done. destruct (rooms (mgr s) !! id'); [|done]. done.
  - intros id' rs' E. destruct (decide (id' = id)) as [->|Hd]; [|rewrite Ho in E by done; by apply Hm].
    unfold local_ok in Hl. rewrite E in Hl. destruct (rooms (mgr s) !! id); naive_solver.
  - congruence.
  - by apply Hq'.
Qed.

Lemma same_advanced h s s' es : sys_ok h s -> rooms (mgr s') = rooms (mgr s) -> hooks (mgr s') = hooks (mgr s) ->
  inv_q (queue (mgr s')) -> (forall e, e ∈ es -> exists r, e = Hook (Running r)) -> advanced s s' es /\ sys_ok h s'.
Proof.
  intros (Hm & Hh & Hq) Hr Hh' Hq' He. split; [split|].
  - intros id. rewrite Hr. induction es as [|e es IH]; [done|]. destruct (He e) as [r ->]; [set_solver|]. cbn. unfold life_next.
    rewrite <- IH at 1 by set_solver. by destruct (decide _).
  - intros id. rewrite Hr. by destruct (rooms (mgr s) !! id).
  - split; [by unfold rooms_ok; rewrite Hr|]. split; [congruence|done].
Qed.

Lemma begin_advanced h r s : sys_ok h s -> advanced s (begin_start r s) [] /\ sys_ok h (begin_start r s).
Proof.
  intros Hs. apply (changed_advanced h r); [done|]. pose proof (Start_changed r (mgr s) (proj1 Hs)) as H. unfold begin_start.
  destruct (Start_locked r (mgr s)) as [m [e|]]; done.
Qed.

Lemma act_advanced h a s : OnClose h = true -> OnDrain h = true -> sys_ok h s ->
  exists s' es, act a s = Ret (s', es) /\ advanced s s' es /\ sys_ok h s'.
Proof.
  intros Hc Hd Hs. pose proof Hs as (Hm & Hh & Hq). rewrite <- Hh in Hc, Hd.
  destruct a as [sp|r p|r p|r|n delay clock|now|n|r|n|r|r|]; cbn [act].
  - pose proof (Allocate_changed sp (mgr s) Hm) as H. destruct (Allocate sp (mgr s)) as [m r]. eexists _, _. split; [done|]. by apply (changed_advanced h (ID sp)).
  - eexists _, _. split; [done|]. apply (changed_advanced h r); [done|]. by apply Join_changed.
  - pose proof (Leave_changed r p (mgr s) Hm Hc) as H. destruct (Leave r p (mgr s)) as [[m ef] e]. eexists _, _. split; [done|]. by apply (changed_advanced h r).
  - eexists _, _. split; [done|]. case_match; by apply same_advanced; try set_solver.
  - destruct (checked s !! n) as [r|]; [|eexists _, _; split; [done|]; by apply same_advanced; try set_solver].
    unfold schedule. destruct (Schedule_spec (start_key r) delay (Some r) clock (queue (mgr s)) Hq) as (q & b & wk & -> & Hq' & _).
    cbn [mbind go_bind]. eexists _, _. split; [done|]. apply same_advanced; try done; [|set_solver]. destruct wk; [by apply set_wake_inv|done].
  - destruct (turn_spec now (queue (mgr s)) Hq) as (q & fired & wait & -> & Hdr). cbn [mbind go_bind]. eexists _, _. split; [done|].
    apply same_advanced; try done; [apply Hdr|set_solver].
  - destruct (due s !! n) as [r|]; [|eexists _, _; split; [done|]; by apply same_advanced; try set_solver].
    eexists _, _. split; [done|]. destruct (begin_advanced h r (MkSys (mgr s) (checked s) (delete n (due s)) (starting s))) as [[Hl Hf] Hs']; [done|]. by split.
  - eexists _, _. split; [done|]. by apply begin_advanced.
  - destruct (starting s !! n) as [r|]; [|eexists _, _; split; [done|]; by apply same_advanced; try set_solver].
    eexists _, _. split; [done|]. apply same_advanced; try done. destruct (OnRunning _); [|set_solver]. intros e ->%list_elem_of_singleton. by exists r.
  - pose proof (Drain_changed r (mgr s) Hm Hc Hd) as H. destruct (Drain r (mgr s)) as [[m ef] e]. eexists _, _. split; [done|]. by apply (changed_advanced h r).
  - pose proof (Close_changed r (mgr s) Hm Hc) as H. destruct (Close r (mgr s)) as [[m ef] e]. eexists _, _. split; [done|]. by apply (changed_advanced h r).
  - eexists _, _. split; [done|]. apply same_advanced; try done; [by destruct Hq|set_solver].
Qed.

Lemma run_advanced h acts : OnClose h = true -> OnDrain h = true -> forall s, sys_ok h s ->
  exists s' es, run acts s = Ret (s', es) /\ sys_ok h s' /\
  forall id, lives id (life_of (rooms (mgr s) !! id)) es = Some (life_of (rooms (mgr s') !! id)).
Proof.
  intros Hc Hd. induction acts as [|a acts IH]; intros s Hs; [by exists s, []|]. cbn.
  destruct (act_advanced h a s Hc Hd Hs) as (s1 & e & -> & [Hl _] & Hs1). cbn [mbind go_bind].
  destruct (IH s1 Hs1) as (s2 & es & -> & Hs2 & Hl2). cbn [mbind go_bind]. exists s2, (e ++ es). split; [done|]. split; [done|].
  intros id. rewrite lives_app, Hl. apply Hl2.
Qed.

Lemma start_ok h : sys_ok h (start h).
Proof. split; [by intros ? ? ?|]. split; [done|]. apply New_inv. Qed.

(** * Properties *)

(** In every state that calls, callbacks and timers reach in any order, without a panic, a room has at
    most its players and at least one once it no longer waits, is not full while it waits, and is not
    closed: a closed room is gone. *)
Theorem room_invariant h acts : OnClose h = true -> OnDrain h = true ->
  exists s es, run acts (start h) = Ret (s, es) /\
  forall id rs, rooms (mgr s) !! id = Some rs -> room_ok id rs.
Proof.
  intros Hc Hd. destruct (run_advanced h acts Hc Hd _ (start_ok h)) as (s & es & -> & (Hm & _) & _). exists s, es. split; [done|]. intros id rs. apply Hm.
Qed.
Lemma room_invariant_witness : exists s es, run [AAllocate (MkSpec "a" 1 ∅); AJoin "a" "p"] (start (MkHooks None true true)) = Ret (s, es) /\
  forall id rs, rooms (mgr s) !! id = Some rs -> room_ok id rs.
Proof. apply (room_invariant (MkHooks None true true)); reflexivity. Defined.

(** What the hooks show of a room is its life: in every history, and for every name, the room is opened,
    perhaps drained once, closed once, perhaps opened again; it is in the table exactly between the two,
    and in its draining phase exactly from the drain hook to the close hook. *)
Theorem hooks_show_lives h acts s es : OnClose h = true -> OnDrain h = true -> run acts (start h) = Ret (s, es) ->
  forall id, lives id Gone es = Some (life_of (rooms (mgr s) !! id)).
Proof.
  intros Hc Hd E id. destruct (run_advanced h acts Hc Hd _ (start_ok h)) as (s' & es' & E' & _ & Hl). rewrite E in E'. injection E' as -> ->. apply (Hl id).
Qed.
Definition demo_hooks : Hooks := MkHooks (Some (fun _ => None)) true true.
Definition demo : list action :=
  [AAllocate (MkSpec "a" 2 ∅); AJoin "a" "p"; AStart "a"; AHook 0; ADrain "a"; ALeave "a" "p"; AAllocate (MkSpec "a" 0 ∅)].
Lemma hooks_show_lives_witness : exists s es, run demo (start demo_hooks) = Ret (s, es) /\ lives "a" Gone es = Some Live /\
  es = [Opened "a"; Hook (Running "a"); Hook (Drained "a"); Hook (Closed "a"); Opened "a"].
Proof.
  eexists _, _. split; [vm_compute; reflexivity|]. split; [|reflexivity].
  exact (hooks_show_lives demo_hooks demo _ _ eq_refl eq_refl ltac:(vm_compute; reflexivity) "a").
Defined.

(** No step takes a room back: while it stays its phases follow the documented transitions, and from
    the drain on nobody joins it; a new room waits and is empty. *)
Theorem rooms_go_forward h acts s es a s' es' : OnClose h = true -> OnDrain h = true -> run acts (start h) = Ret (s, es) ->
  act a s = Ret (s', es') -> forall id, forward (rooms (mgr s) !! id) (rooms (mgr s') !! id).
Proof.
  intros Hc Hd E Ea. destruct (run_advanced h acts Hc Hd _ (start_ok h)) as (s1 & es1 & E1 & Hs & _). rewrite E in E1. injection E1 as <- <-.
  destruct (act_advanced h a s Hc Hd Hs) as (s2 & es2 & E2 & [_ Hf] & _). rewrite Ea in E2. by injection E2 as <- <-.
Qed.
Lemma rooms_go_forward_witness : exists s es s' es', run (take 3 demo) (start demo_hooks) = Ret (s, es) /\ act (ADrain "a") s = Ret (s', es') /\
  forall id, forward (rooms (mgr s) !! id) (rooms (mgr s') !! id).
Proof.
  eexists _, _, _, _. split; [vm_compute; reflexivity|]. split; [vm_compute; reflexivity|].
  apply (rooms_go_forward demo_hooks (take 3 demo) _ [Opened "a"] (ADrain "a") _ [Hook (Drained "a")]); vm_compute; reflexivity.
Defined.

(** A start put off outlives its room: the players leave, the room closes, and when the time comes the
    next room of that name is started, with one player of four. *)
Theorem stale_start : exists s es, run [AAllocate (MkSpec "a" 1 ∅); AJoin "a" "p"; ACheck "a"; ASchedule 0 5 0; ALeave "a" "p";
    AAllocate (MkSpec "a" 4 ∅); AJoin "a" "q"; ATurn 5; ACallback 0; AHook 0] (start demo_hooks) = Ret (s, es) /\
  es = [Opened "a"; Hook (Closed "a"); Opened "a"; Hook (Running "a")] /\ Get "a" (mgr s) = Some (MkHandle "a" PhaseRunning).
Proof. eexists _, _. split; [vm_compute; reflexivity|]. split; reflexivity. Qed.

(** A room that still waits is not drained: the call succeeds, and players go on joining. *)
Theorem drain_waiting : exists s es, run [AAllocate (MkSpec "a" 4 ∅); AJoin "a" "p"; ADrain "a"; AJoin "a" "q"; AStart "a"; AHook 0] (start demo_hooks) = Ret (s, es) /\
  es = [Opened "a"; Hook (Running "a")] /\ length (Players "a" (mgr s)) = 2%nat.
Proof. eexists _, _. split; [vm_compute; reflexivity|]. split; reflexivity. Qed.

(** A second start calls the hook again, and the hook may come after the room is closed. *)
Theorem running_hook_again : exists s es, run [AAllocate (MkSpec "a" 4 ∅); AJoin "a" "p"; AStart "a"; AHook 0; AStart "a"; AClose "a"; AHook 0] (start demo_hooks) = Ret (s, es) /\
  es = [Opened "a"; Hook (Running "a"); Hook (Closed "a"); Hook (Running "a")].
Proof. eexists _, _. split; [vm_compute; reflexivity|]. reflexivity. Qed.

(** Whoever leaves a room that waits for its first player closes it. *)
Theorem stranger_closes : exists s es, run [AAllocate (MkSpec "a" 4 ∅); ALeave "a" "nobody"] (start demo_hooks) = Ret (s, es) /\
  es = [Opened "a"; Hook (Closed "a")] /\ Get "a" (mgr s) = None.
Proof. eexists _, _. split; [vm_compute; reflexivity|]. split; reflexivity. Qed.
