(* ===== verification/Scheduler.v ===== *)
(** The worker pool ([pkg/orchestration/scheduler/scheduler.go]): clients that submit, pause, resume and
    stop, and workers that sleep while the pool is paused, interleaved at the accesses to what they share. *)
From Stdlib Require Import ZArith Lia Bool.
From stdpp Require Import base numbers strings list gmap sets.
From S2P Require Import Prelude.

Open Scope Z_scope.

(** What a run of a task ends with, and what the handler is told: the name, the error, the stack. *)
Inductive outcome := Done | Failed (e : string) | Panicked.
Record Task := MkTask { Name : string; Fn : outcome }.
Definition report : Type := string * option string * option string.

#[global] Instance outcome_eq_dec : EqDecision outcome.
Proof. solve_decision. Defined.
#[global] Instance Task_eq_dec : EqDecision Task.
Proof. solve_decision. Defined.

Record config := MkConfig { queueSize : Z; cworkers : Z; onError : bool }.
Definition default_config : config := MkConfig 256 4 false.
Definition WithQueueSize (n : Z) (c : config) : config := if 0 <? n then MkConfig n (cworkers c) (onError c) else c.
Definition WithWorkers (n : Z) (c : config) : config := if 0 <=? n then MkConfig (queueSize c) n (onError c) else c.
Definition WithErrorHandler (c : config) : config := MkConfig (queueSize c) (cworkers c) true.

Definition panicStack : option string := None.

Definition exec (c : config) (t : Task) : list report :=
  match Fn t with
  | Done => []
  | Failed e => if onError c then [(Name t, Some e, None)] else []
  | Panicked => if onError c then [(Name t, None, panicStack)] else []
  end.

(** Where a worker is: before the test of [paused]; it has seen the pause and takes [pauseMu]; it has
    found the loop's condition true and is about to wait; asleep in [Wait]; at the receive; running a
    task; gone. *)
Inductive worker := Top | Locking | Committed | Asleep | Receiving | Executing (t : Task) | Exited.

(** Where the one [Stop] that goes on is. *)
Inductive stopping := NotStopping | Resuming | Broadcasting | Closing | LockingQueue | Waiting | Stopped.

#[global] Instance worker_eq_dec : EqDecision worker.
Proof. solve_decision. Defined.
#[global] Instance stopping_eq_dec : EqDecision stopping.
Proof. solve_decision. Defined.

(** [submitting]: the clients that hold the read lock in the [select] of [Submit]; [accepted], [received],
    [finished]: what has gone into and out of the queue, what has been run, and what the handler was told
    of it; [broadcasts]: the [Resume] calls between their swap and their broadcast. *)
Record Scheduler := MkScheduler {
  cfg : config;
  queue : list Task; closed : bool;
  paused : bool; stopped : bool; stopCh : bool;
  started : bool; workers : list worker;
  submitting : list Task; stage : stopping;
  accepted : list Task; received : list Task; finished : list (Task * list report); broadcasts : nat
}.

Definition New (c : config) : Scheduler := MkScheduler c [] false false false false false [] [] NotStopping [] [] [] 0.

Definition set_queue (q : list Task) (s : Scheduler) : Scheduler :=
  MkScheduler (cfg s) q (closed s) (paused s) (stopped s) (stopCh s) (started s) (workers s) (submitting s) (stage s) (accepted s) (received s) (finished s) (broadcasts s).
Definition set_paused (b : bool) (s : Scheduler) : Scheduler :=
  MkScheduler (cfg s) (queue s) (closed s) b (stopped s) (stopCh s) (started s) (workers s) (submitting s) (stage s) (accepted s) (received s) (finished s) (broadcasts s).
Definition set_workers (w : list worker) (s : Scheduler) : Scheduler :=
  MkScheduler (cfg s) (queue s) (closed s) (paused s) (stopped s) (stopCh s) (started s) w (submitting s) (stage s) (accepted s) (received s) (finished s) (broadcasts s).
Definition set_submitting (l : list Task) (s : Scheduler) : Scheduler :=
  MkScheduler (cfg s) (queue s) (closed s) (paused s) (stopped s) (stopCh s) (started s) (workers s) l (stage s) (accepted s) (received s) (finished s) (broadcasts s).
Definition set_stage (st : stopping) (s : Scheduler) : Scheduler :=
  MkScheduler (cfg s) (queue s) (closed s) (paused s) (stopped s) (stopCh s) (started s) (workers s) (submitting s) st (accepted s) (received s) (finished s) (broadcasts s).

(** [Start] takes effect once. *)
Definition Start (s : Scheduler) : Scheduler :=
  if started s then s
  else MkScheduler (cfg s) (queue s) (closed s) (paused s) (stopped s) (stopCh s) true (replicate (Z.to_nat (cworkers (cfg s))) Top)
         (submitting s) (stage s) (accepted s) (received s) (finished s) (broadcasts s).

(** The send of a task: not enabled when the queue is full, a panic when it is closed. *)
Definition room (s : Scheduler) : bool := Z.of_nat (length (queue s)) <? queueSize (cfg s).
Definition send (t : Task) (s : Scheduler) : go Scheduler :=
  if closed s then Panic "send on closed channel"
  else Ret (MkScheduler (cfg s) (queue s ++ [t]) (closed s) (paused s) (stopped s) (stopCh s) (started s) (workers s) (submitting s) (stage s)
              (accepted s ++ [t]) (received s) (finished s) (broadcasts s)).

(** [Submit] up to its [select], and the two ways out of it. *)
Definition Submit (t : Task) (s : Scheduler) : Scheduler :=
  if stopped s then s else set_submitting (submitting s ++ [t]) s.
Definition submit_sent (n : nat) (s : Scheduler) : option (go Scheduler) :=
  match submitting s !! n with
  | Some t => if closed s || room s then Some (send t (set_submitting (delete n (submitting s)) s)) else None
  | None => None
  end.
Definition submit_refused (n : nat) (s : Scheduler) : option Scheduler :=
  match submitting s !! n with
  | Some _ => if stopCh s then Some (set_submitting (delete n (submitting s)) s) else None
  | None => None
  end.
(** The read lock is held from start to end, and nothing in between waits. *)
Definition TrySubmit (t : Task) (s : Scheduler) : go Scheduler :=
  if stopped s then Ret s
  else if closed s || room s then send t s else Ret s.

Definition Pause (s : Scheduler) : Scheduler := set_paused true s.
Definition broadcast (ws : list worker) : list worker := (fun w => if decide (w = Asleep) then Locking else w) <$> ws.
Definition set_broadcasts (n : nat) (s : Scheduler) : Scheduler :=
  MkScheduler (cfg s) (queue s) (closed s) (paused s) (stopped s) (stopCh s) (started s) (workers s) (submitting s) (stage s) (accepted s) (received s) (finished s) n.
(** [Resume] up to its broadcast, and the broadcast. *)
Definition Resume (s : Scheduler) : Scheduler :=
  if paused s then set_broadcasts (S (broadcasts s)) (set_paused false s) else s.
Definition Broadcast (s : Scheduler) : option Scheduler :=
  match broadcasts s with
  | O => None
  | S n => Some (set_broadcasts n (set_workers (broadcast (workers s)) s))
  end.

(** [Stop], from one wait to the next: the swap; [Resume], in two; the closing of [stopCh]; the closing of the queue
    under the write lock; the wait for the workers. *)
Definition Stop (s : Scheduler) : Scheduler :=
  if stopped s then s
  else MkScheduler (cfg s) (queue s) (closed s) (paused s) true (stopCh s) (started s) (workers s) (submitting s) Resuming (accepted s) (received s) (finished s) (broadcasts s).
Definition stop_step (s : Scheduler) : option Scheduler :=
  match stage s with
  | Resuming => Some (if paused s then set_stage Broadcasting (set_paused false s) else set_stage Closing s)
  | Broadcasting => Some (set_stage Closing (set_workers (broadcast (workers s)) s))
  | Closing => Some (MkScheduler (cfg s) (queue s) (closed s) (paused s) (stopped s) true (started s) (workers s) (submitting s) LockingQueue (accepted s) (received s) (finished s) (broadcasts s))
  | LockingQueue =>
      if decide (submitting s = []) then
        Some (MkScheduler (cfg s) (queue s) true (paused s) (stopped s) (stopCh s) (started s) (workers s) (submitting s) Waiting (accepted s) (received s) (finished s) (broadcasts s))
      else None
  | Waiting => if forallb (fun w => bool_decide (w = Exited)) (workers s) then Some (set_stage Stopped s) else None
  | NotStopping | Stopped => None
  end.

(** One step of a worker; a woken worker takes [pauseMu] again and evaluates the condition of its loop.
    Nothing else is done under that mutex. *)
Definition work (n : nat) (s : Scheduler) : option Scheduler :=
  let at_ w := Some (set_workers (<[n := w]> (workers s)) s) in
  match workers s !! n with
  | Some Top => at_ (if paused s then Locking else Receiving)
  | Some Locking => at_ (if paused s && negb (stopped s) then Committed else Receiving)
  | Some Committed => at_ Asleep
  | Some Receiving =>
      match queue s with
      | t :: q => Some (MkScheduler (cfg s) q (closed s) (paused s) (stopped s) (stopCh s) (started s) (<[n := Executing t]> (workers s)) (submitting s) (stage s)
                          (accepted s) (received s ++ [t]) (finished s) (broadcasts s))
      | [] => if closed s then at_ Exited else None
      end
  | Some (Executing t) =>
      Some (MkScheduler (cfg s) (queue s) (closed s) (paused s) (stopped s) (stopCh s) (started s) (<[n := Top]> (workers s)) (submitting s) (stage s)
              (accepted s) (received s) (finished s ++ [(t, exec (cfg s) t)]) (broadcasts s))
  | Some Asleep | Some Exited | None => None
  end.

Definition Paused (s : Scheduler) : bool := paused s.
Definition Pending (s : Scheduler) : Z := Z.of_nat (length (queue s)).

Inductive action :=
| AStart | ASubmit (t : Task) | ASent (n : nat) | ARefused (n : nat) | ATrySubmit (t : Task)
| APause | AResume | ABroadcast | AStop | AStopStep | AWork (n : nat).

(** A step, if it is enabled. *)
Definition act (a : action) (s : Scheduler) : option (go Scheduler) :=
  match a with
  | AStart => Some (Ret (Start s))
  | ASubmit t => Some (Ret (Submit t s))
  | ASent n => submit_sent n s
  | ARefused n => Ret <$> submit_refused n s
  | ATrySubmit t => Some (TrySubmit t s)
  | APause => Some (Ret (Pause s))
  | AResume => Some (Ret (Resume s))
  | ABroadcast => Ret <$> Broadcast s
  | AStop => Some (Ret (Stop s))
  | AStopStep => Ret <$> stop_step s
  | AWork n => Ret <$> work n s
  end.

(** A step that is not enabled waits: the others go on. *)
Fixpoint run (acts : list action) (s : Scheduler) : go Scheduler :=
  match acts with
  | [] => Ret s
  | a :: acts => match act a s with Some g => s' ← g; run acts s' | None => run acts s end
  end.

(** * What is kept *)

Definition running (w : worker) : list Task := match w with Executing t => [t] | _ => [] end.
Definition executing (ws : list worker) : list Task := ws ≫= running.

Definition past_close (st : stopping) : bool := match st with Waiting | Stopped => true | _ => false end.
Definition past_channel (st : stopping) : bool := match st with LockingQueue | Waiting | Stopped => true | _ => false end.

Record kept (s : Scheduler) : Prop := {
  k_order : accepted s = received s ++ queue s;
  k_once : received s ≡ₚ (finished s).*1 ++ executing (workers s);
  k_told : Forall (fun p => p.2 = exec (cfg s) p.1) (finished s);
  k_room : Z.of_nat (length (queue s)) <= Z.max 0 (queueSize (cfg s));
  k_stopped : stopped s = negb (bool_decide (stage s = NotStopping));
  k_channel : stopCh s = past_channel (stage s);
  k_closed : closed s = past_close (stage s);
  k_senders : closed s = true -> submitting s = [];
  k_gone : Exited ∈ workers s -> closed s = true /\ queue s = [];
  k_started : started s = false -> workers s = []
}.

Lemma New_kept c : kept (New c).
Proof. split; cbn; try done; try lia. set_solver. Qed.

Lemma executing_insert (n : nat) w w' (ws : list worker) : ws !! n = Some w -> executing (<[n := w']> ws) ++ running w ≡ₚ executing ws ++ running w'.
Proof.
  intros E. apply list_elem_of_split_length in E as (l1 & l2 & -> & ->). rewrite insert_app_r_alt, Nat.sub_diag by lia.
  unfold executing. cbn. rewrite !bind_app. cbn. solve_Permutation.
Qed.

Lemma executing_broadcast ws : executing (broadcast ws) = executing ws.
Proof. unfold executing, broadcast. induction ws as [|w ws IH]; cbn; [done|]. rewrite IH. by destruct w. Qed.

Lemma gone_insert (n : nat) (w : worker) (ws : list worker) : w <> Exited -> Exited ∈ <[n := w]> ws -> Exited ∈ ws.
Proof.
  intros Hw [i Hi]%list_elem_of_lookup. apply list_lookup_insert_Some in Hi as [(-> & ? & _)|[_ Hi]]; [done|]. by eapply list_elem_of_lookup_2.
Qed.
Lemma gone_broadcast (ws : list worker) : Exited ∈ broadcast ws -> Exited ∈ ws.
Proof. intros (w & E & Hw)%list_elem_of_fmap. destruct (decide (w = Asleep)); by subst. Qed.

(** A step of a worker that neither takes nor finishes a task. *)
Lemma kept_at n w w' s : kept s -> workers s !! n = Some w -> running w = [] -> running w' = [] ->
  (w' = Exited -> closed s = true /\ queue s = []) -> kept (set_workers (<[n := w']> (workers s)) s).
Proof.
  intros [] E Hw Hw' He. split; cbn; try done.
  - pose proof (executing_insert n w w' _ E) as HP. rewrite Hw, Hw', !app_nil_r in HP. by rewrite HP.
  - intros Hg. destruct (decide (w' = Exited)) as [->|]; [by apply He|]. apply k_gone0. by eapply gone_insert.
  - intros Hs. rewrite k_started0 in E by done. done.
Qed.

Lemma kept_send t s : kept s -> closed s = false -> room s = true -> exists s', send t s = Ret s' /\ kept s'.
Proof.
  intros [] Hc Hr. unfold send, room in *. rewrite Hc. eexists. split; [done|]. bool_prop. split; cbn; try done; try congruence.
  - by rewrite k_order0, app_assoc.
  - rewrite length_app. cbn. lia.
  - intros [Hcl _]%k_gone0. congruence.
Qed.

Lemma kept_submitting l s : kept s -> (closed s = true -> l = []) -> kept (set_submitting l s).
Proof. intros [] Hl. by split. Qed.

Lemma kept_broadcast s : kept s -> kept (set_workers (broadcast (workers s)) s).
Proof.
  intros []. split; cbn; try done; [by rewrite executing_broadcast|intros ?; by apply k_gone0, gone_broadcast|].
  intros Hs. by rewrite k_started0.
Qed.

Lemma kept_work n s s' : kept s -> work n s = Some s' -> kept s'.
Proof.
  intros Hk. unfold work. destruct (workers s !! n) as [w|] eqn:E; [|done]. destruct w as [| | | | |t|]; try done; intros Hw; injection Hw as <- || idtac.
  - eapply kept_at; try done; by destruct (paused s).
  - eapply kept_at; try done; by destruct (_ && _).
  - by eapply kept_at.
  - destruct (queue s) as [|t q] eqn:Eq.
    + destruct (closed s) eqn:Ec; [|done]. injection Hw as <-. by eapply kept_at.
    + injection Hw as <-. destruct Hk. split; cbn; try done.
      * rewrite k_order0, Eq. by rewrite <- app_assoc.
      * pose proof (executing_insert n _ (Executing t) _ E) as HP. cbn in HP. rewrite app_nil_r in HP. rewrite HP, app_assoc. by rewrite <- k_once0.
      * rewrite Eq in k_room0. cbn in k_room0. lia.
      * intros Hg%gone_insert; [|done]. apply k_gone0 in Hg as [_ Hg]. congruence.
      * intros Hs. rewrite k_started0 in E by done. done.
  - destruct Hk. split; cbn; try done.
    + pose proof (executing_insert n _ Top _ E) as HP. cbn in HP. rewrite app_nil_r in HP. rewrite fmap_app, k_once0, <- HP. cbn. solve_Permutation.
    + apply Forall_app. split; [done|]. by repeat constructor.
    + intros Hg%gone_insert; [|done]. by apply k_gone0.
    + intros Hs. rewrite k_started0 in E by done. done.
Qed.

Lemma kept_stop_step s s' : kept s -> stop_step s = Some s' -> kept s'.
Proof.
  intros Hk. unfold stop_step. destruct (stage s) eqn:E; try done.
  - intros H. injection H as <-. destruct Hk; rewrite E in *. destruct (paused s); split; cbn; done.
  - intros H. injection H as <-. destruct (kept_broadcast s Hk); cbn in *; rewrite E in *. split; cbn; done.
  - intros H. injection H as <-. destruct Hk; rewrite E in *. split; cbn; done.
  - destruct (decide _) as [Es|]; [|done]. intros H. injection H as <-. destruct Hk; rewrite E in *. split; cbn; try done. intros [? ?]%k_gone0. done.
  - destruct (forallb _ _); [|done]. intros H. injection H as <-. destruct Hk; rewrite E in *. split; cbn; done.
Qed.

Lemma kept_act a s : kept s -> match act a s with Some g => exists s', g = Ret s' /\ kept s' | None => True end.
Proof.
  intros Hk. destruct a as [|t|n|n|t| | | | | |n]; cbn [act].
  - eexists. split; [done|]. unfold Start. destruct (started s) eqn:E; [done|]. destruct Hk. rewrite k_started0 in * by done. split; cbn; try done.
    + rewrite k_once0. f_equiv. by induction (Z.to_nat _).
    + intros [Hx _]%elem_of_replicate. done.
  - eexists. split; [done|]. unfold Submit. destruct (stopped s) eqn:E; [done|]. apply kept_submitting; [done|]. intros Hc.
    destruct Hk. rewrite Hc in *. rewrite E in *. destruct (stage s); cbn in *; done.
  - unfold submit_sent. destruct (submitting s !! n) as [t|] eqn:E; [|done]. assert (closed s = false) as Hc.
    { destruct (closed s) eqn:Hc; [|done]. apply (k_senders s Hk) in Hc. by rewrite Hc in E. }
    rewrite Hc. cbn [orb]. destruct (room s) eqn:Er; [|done]. apply kept_send; [|done..]. apply kept_submitting; [done|]. congruence.
  - unfold submit_refused. destruct (submitting s !! n) as [t|] eqn:E; [|done]. destruct (stopCh s); [|done]. cbn. eexists. split; [done|].
    apply kept_submitting; [done|]. intros Hc. apply (k_senders s Hk) in Hc. by rewrite Hc in E.
  - unfold TrySubmit. destruct (stopped s) eqn:E; [by eexists|]. assert (closed s = false) as Hc.
    { destruct Hk. rewrite k_closed0. rewrite E in *. by destruct (stage s). }
    rewrite Hc. cbn [orb]. destruct (room s) eqn:Er; [|by eexists]. by apply kept_send.
  - eexists. split; [done|]. by destruct Hk.
  - eexists. split; [done|]. unfold Resume. destruct (paused s); [|done]. by destruct Hk.
  - unfold Broadcast. destruct (broadcasts s); [done|]. cbn. eexists. split; [done|]. by destruct (kept_broadcast s Hk).
  - eexists. split; [done|]. unfold Stop. destruct (stopped s) eqn:E; [done|]. destruct Hk. rewrite E in *. split; cbn; try done; destruct (stage s); done.
  - destruct (stop_step s) as [s'|] eqn:E; [|done]. eexists. split; [done|]. by eapply kept_stop_step.
  - destruct (work n s) as [s'|] eqn:E; [|done]. eexists. split; [done|]. by eapply kept_work.
Qed.

Lemma run_kept acts : forall s, kept s -> exists s', run acts s = Ret s' /\ kept s'.
Proof.
  induction acts as [|a acts IH]; intros s Hk; [by exists s|]. cbn. pose proof (kept_act a s Hk) as H. destruct (act a s) as [g|]; [|by apply IH].
  destruct H as (s1 & -> & Hk1). by apply IH.
Qed.

(** * A pause *)

Definition receiving (ws : list worker) : nat := length (filter (fun w => w = Receiving) ws).

Lemma receiving_insert (n : nat) w w' (ws : list worker) : ws !! n = Some w ->
  (receiving (<[n := w']> ws) + (if decide (w = Receiving) then 1 else 0) = receiving ws + (if decide (w' = Receiving) then 1 else 0))%nat.
Proof.
  intros E. apply list_elem_of_split_length in E as (l1 & l2 & -> & ->). rewrite insert_app_r_alt, Nat.sub_diag by lia.
  unfold receiving. cbn. rewrite !filter_app, !filter_cons, !length_app. repeat destruct (decide _); cbn; lia.
Qed.

Lemma receiving_broadcast ws : receiving (broadcast ws) = receiving ws.
Proof. unfold receiving, broadcast. induction ws as [|w ws IH]; [done|]. rewrite fmap_cons, !filter_cons. destruct w; cbn [decide worker_eq_dec]; repeat destruct (decide _); try done; cbn [length]; by rewrite ?IH. Qed.

Lemma receiving_top j : receiving (replicate j Top) = 0%nat.
Proof. unfold receiving. induction j as [|j IH]; [done|]. cbn [replicate]. rewrite filter_cons_False by done. exact IH. Qed.

(** The calls that end a pause. *)
Definition pausing (a : action) : bool := match a with AResume | AStop => false | _ => true end.

(** From a paused state on: what is taken is paid for by a worker at the receive. *)
Definition held (r : list Task) (k : nat) (s : Scheduler) : Prop :=
  kept s /\ paused s = true /\ stopped s = false /\ exists l, received s = r ++ l /\ (length l + receiving (workers s) <= k)%nat.

Lemma held_at r k (n : nat) w w' s : workers s !! n = Some w -> w' <> Receiving -> held r k s ->
  paused s = true /\ stopped s = false /\ exists l, received s = r ++ l /\ (length l + receiving (<[n := w']> (workers s)) <= k)%nat.
Proof.
  intros E Hw (_ & Hp & Hs & l & Hr & Hl). split; [done|]. split; [done|]. exists l. split; [done|].
  pose proof (receiving_insert n w w' _ E) as HR. destruct (decide (w' = Receiving)); [done|]. destruct (decide (w = Receiving)); lia.
Qed.

Lemma held_work r k n s s' : held r k s -> work n s = Some s' -> held r k s'.
Proof.
  intros Hh Hw. pose proof Hh as (Hk & Hp & Hs & l & Hr & Hl). split; [by eapply kept_work|]. unfold work in Hw. rewrite Hp, Hs in Hw. cbn in Hw.
  destruct (workers s !! n) as [w|] eqn:E; [|done]. destruct w as [| | | | |t|]; try done; try injection Hw as <-.
  - by apply (held_at r k n Top Locking s).
  - by apply (held_at r k n Locking Committed s).
  - by apply (held_at r k n Committed Asleep s).
  - destruct (queue s) as [|t q].
    + destruct (closed s); [|done]. injection Hw as <-. split_and!; try done. exists l. split; [done|]. cbn [workers set_workers]. pose proof (receiving_insert n _ Exited _ E) as HR. repeat case_decide; try done; lia.
    + injection Hw as <-. split_and!; try done. exists (l ++ [t]). cbn [received workers]. rewrite Hr, app_assoc, length_app. split; [done|]. cbn [length].
      pose proof (receiving_insert n _ (Executing t) _ E) as HR. repeat case_decide; try done; lia.
  - split_and!; try done. exists l. split; [done|]. cbn [workers set_workers]. pose proof (receiving_insert n _ Top _ E) as HR. repeat case_decide; try done; lia.
Qed.

Lemma held_act r k a s : held r k s -> pausing a = true -> match act a s with Some g => exists s', g = Ret s' /\ held r k s' | None => True end.
Proof.
  intros Hh Ha. pose proof Hh as (Hk & Hp & Hs & l & Hr & Hl). pose proof (kept_act a s Hk) as HK. destruct (act a s) as [g|] eqn:E; [|done].
  destruct HK as (s' & -> & Hk'). exists s'. split; [done|]. destruct a as [|t|n|n|t| | | | | |n]; try done; cbn [act] in E.
  - injection E as <-. unfold Start in *. destruct (started s) eqn:Est; [done|]. split_and!; try done. exists l. split; [done|]. cbn [workers].
    rewrite receiving_top. lia.
  - injection E as <-. unfold Submit in *. rewrite Hs in *. split_and!; try done. by exists l.
  - unfold submit_sent in E. destruct (submitting s !! n); [|done]. destruct (_ || _); [|done]. injection E as E. unfold send in E. cbn in E.
    destruct (closed s); [done|]. injection E as <-. split_and!; try done. by exists l.
  - unfold submit_refused in E. destruct (submitting s !! n); [|done]. destruct (stopCh s); [|done]. injection E as <-. split_and!; try done. by exists l.
  - injection E as E. unfold TrySubmit, send in E. rewrite Hs in E. destruct (closed s); [done|]. cbn [orb] in E. destruct (room s); injection E as <-; [|done].
    split_and!; try done. by exists l.
  - injection E as <-. split_and!; try done. by exists l.
  - unfold Broadcast in E. destruct (broadcasts s); [done|]. injection E as <-. split_and!; try done. exists l. cbn [workers set_workers set_broadcasts received]. by rewrite receiving_broadcast.
  - destruct (stop_step s) as [s1|] eqn:E1; [|done]. injection E as <-. destruct Hk. rewrite Hs in *. unfold stop_step in E1. destruct (stage s); done.
  - destruct (work n s) as [s1|] eqn:E1; [|done]. injection E as <-. by eapply held_work.
Qed.

Lemma run_held r k acts : forall s, held r k s -> forallb pausing acts = true -> exists s', run acts s = Ret s' /\ held r k s'.
Proof.
  induction acts as [|a acts IH]; intros s Hh Ha; [by exists s|]. cbn in *. apply andb_true_iff in Ha as [Ha Has].
  pose proof (held_act r k a s Hh Ha) as H. destruct (act a s) as [g|]; [|by apply IH]. destruct H as (s1 & -> & Hs1). by apply IH.
Qed.

(** * A stop *)

Definition awake (w : worker) : Prop := w <> Committed /\ w <> Asleep.
#[local] Instance awake_dec w : Decision (awake w).
Proof. unfold awake. apply _. Defined.
Definition weight (w : worker) : nat := match w with Exited => 0 | Receiving => 1 | Locking => 2 | Top => 3 | Executing _ => 4 | _ => 0 end.
Definition left_to_do (s : Scheduler) : nat := 5 * length (queue s) + list_sum (weight <$> workers s).

Definition draining (s : Scheduler) : Prop := kept s /\ stage s = Waiting /\ Forall awake (workers s).

Lemma sum_insert (n : nat) w w' (ws : list worker) : ws !! n = Some w ->
  (list_sum (weight <$> <[n := w']> ws) + weight w = list_sum (weight <$> ws) + weight w')%nat.
Proof.
  intros E. apply list_elem_of_split_length in E as (l1 & l2 & -> & ->). rewrite insert_app_r_alt, Nat.sub_diag by lia.
  cbn. rewrite !fmap_app, !list_sum_app, !fmap_cons. cbn. lia.
Qed.

(** A worker that is not gone can go on, and there is less to do afterwards. *)
Lemma draining_work n w s : draining s -> workers s !! n = Some w -> w <> Exited ->
  exists s', work n s = Some s' /\ draining s' /\ (left_to_do s' < left_to_do s)%nat.
Proof.
  intros (Hk & Hst & Ha) E Hw. assert (awake w) as [H1 H2] by (eapply Forall_lookup_1; done).
  assert (closed s = true /\ stopped s = true) as [Hc Hs] by (destruct Hk; rewrite k_closed0, k_stopped0, Hst; done).
  enough (exists s', work n s = Some s' /\ stage s' = stage s /\ Forall awake (workers s') /\ (left_to_do s' < left_to_do s)%nat) as (s' & E' & Hs' & Ha' & Hl).
  { exists s'. split; [done|]. split; [|done]. split; [by eapply kept_work|]. split; [congruence|done]. }
  assert (forall w', awake w' -> Forall awake (<[n := w']> (workers s))) as Hins by (intros; by apply Forall_insert).
  unfold work. rewrite E, Hs, Hc, andb_false_r. unfold left_to_do. destruct w as [| | | | |t|]; try done.
  - eexists. split; [done|]. cbn [workers queue stage set_workers]. split; [done|]. split; [apply Hins; by destruct (paused s)|]. pose proof (sum_insert n _ (if paused s then Locking else Receiving) _ E) as HS. destruct (paused s); cbn [weight] in HS; lia.
  - eexists. split; [done|]. cbn [workers queue stage set_workers]. split; [done|]. split; [by apply Hins|]. pose proof (sum_insert n _ Receiving _ E) as HS. cbn [weight] in HS. lia.
  - destruct (queue s) as [|t q] eqn:Eq.
    + eexists. split; [done|]. cbn [workers queue stage set_workers]. split; [done|]. split; [by apply Hins|]. pose proof (sum_insert n _ Exited _ E) as HS. cbn [weight] in HS. rewrite Eq. lia.
    + eexists. split; [done|]. cbn [workers queue stage set_workers]. split; [done|]. split; [by apply Hins|]. pose proof (sum_insert n _ (Executing t) _ E) as HS. cbn [weight] in HS. cbn [length]. lia.
  - eexists. split; [done|]. cbn [workers queue stage set_workers]. split; [done|]. split; [by apply Hins|]. pose proof (sum_insert n _ Top _ E) as HS. cbn [weight] in HS. lia.
Qed.

Lemma run_app acts acts' s s1 : run acts s = Ret s1 -> run (acts ++ acts') s = run acts' s1.
Proof.
  revert s. induction acts as [|a acts IH]; intros s H; cbn in *; [congruence|]. destruct (act a s) as [g|]; [|by apply IH].
  destruct g as [s2|]; [|done]. by apply IH.
Qed.

Lemma all_gone ws : Forall (fun w => w = Exited) ws -> forallb (fun w => bool_decide (w = Exited)) ws = true.
Proof. intros Hf. apply List.forallb_forall. intros w Hw. apply bool_decide_true. rewrite Forall_forall in Hf. apply Hf. by apply list_elem_of_In. Qed.

Lemma draining_ends k : forall s, (left_to_do s < k)%nat -> draining s -> exists acts s', run acts s = Ret s' /\ kept s' /\ stage s' = Stopped /\ Forall (fun w => w = Exited) (workers s').
Proof.
  induction k as [|k IH]; intros s Hl Hd; [lia|]. destruct (decide (Forall (fun w => w = Exited) (workers s))) as [Hf|Hf].
  - destruct Hd as (Hk & Hst & _). exists [AStopStep], (set_stage Stopped s). cbn. unfold stop_step. rewrite Hst.
    pose proof (all_gone _ Hf) as Hg. rewrite Hg. cbn. split; [done|]. split; [|done]. eapply (kept_stop_step s); [done|].
    unfold stop_step. by rewrite Hst, Hg.
  - apply not_Forall_Exists in Hf; [|apply _]. apply Exists_exists in Hf as (w & Hw & Hne). apply list_elem_of_lookup in Hw as [n Hn].
    destruct (draining_work n w s Hd Hn Hne) as (s1 & E & Hd1 & Hlt). destruct (IH s1 ltac:(lia) Hd1) as (acts & s' & Hr & H).
    exists (AWork n :: acts), s'. split; [|done]. cbn. rewrite E. done.
Qed.

Lemma all_run s : kept s -> workers s <> [] -> Forall (fun w => w = Exited) (workers s) -> queue s = [] /\ (finished s).*1 ≡ₚ accepted s.
Proof.
  intros [] Hne Hf. assert (executing (workers s) = []) as He.
  { unfold executing. clear -Hf. induction Hf as [|w ws -> Hf IH]; [done|]. cbn. done. }
  assert (Exited ∈ workers s) as Hg by (destruct Hf as [|w ws -> Hf]; [done|set_solver]).
  destruct (k_gone0 Hg) as [_ Hq]. split; [done|]. by rewrite k_order0, Hq, app_nil_r, k_once0, He, app_nil_r.
Qed.

Lemma refuse_all l : forall s, submitting s = l -> kept s -> stopCh s = true ->
  exists acts s', run acts s = Ret s' /\ kept s' /\ submitting s' = [] /\ stage s' = stage s /\ workers s' = workers s.
Proof.
  induction l as [|t l IH]; intros s Hl Hk Hc; [by exists [], s|].
  set (s1 := set_submitting l s). destruct (IH s1) as (acts & s' & Hr & H); [done| |done|].
  { apply kept_submitting; [done|]. intros Hcl. apply (k_senders s Hk) in Hcl. by rewrite Hl in Hcl. }
  exists (ARefused 0 :: acts), s'. split; [|done]. cbn. unfold submit_refused. rewrite Hl, Hc. cbn. exact Hr.
Qed.

Lemma locking_ends s : kept s -> stage s = LockingQueue -> Forall awake (workers s) ->
  exists acts s', run acts s = Ret s' /\ kept s' /\ stage s' = Stopped /\ Forall (fun w => w = Exited) (workers s').
Proof.
  intros Hk Hst Ha. destruct (refuse_all _ s eq_refl Hk) as (acts & s1 & Hr & Hk1 & He & Hst1 & Hw1); [by destruct Hk; rewrite k_channel0, Hst|].
  assert (exists s2, stop_step s1 = Some s2 /\ workers s2 = workers s1 /\ stage s2 = Waiting) as (s2 & E2 & Hw2 & Hst2).
  { unfold stop_step. rewrite Hst1, Hst, decide_True by done. by eexists. }
  destruct (draining_ends _ s2 (Nat.lt_succ_diag_r _)) as (acts2 & s3 & Hr2 & H).
  { split; [by eapply kept_stop_step|]. split; [done|]. by rewrite Hw2, Hw1. }
  exists (acts ++ AStopStep :: acts2), s3. split; [|done]. rewrite (run_app _ _ _ _ Hr). cbn. rewrite E2. done.
Qed.

(** * Properties *)

(** Whatever clients, workers and [Stop] do in any order, nothing panics, the queue keeps to its bound;
    the tasks accepted are taken in order and run once each, by one worker; and when the workers are gone,
    which [Stop] waits for, every task accepted has been run. *)
Theorem scheduler_conserves c acts : exists s, run acts (New c) = Ret s /\
  accepted s = received s ++ queue s /\ Z.of_nat (length (queue s)) <= Z.max 0 (queueSize (cfg s)) /\
  received s ≡ₚ (finished s).*1 ++ executing (workers s) /\ Forall (fun p => p.2 = exec (cfg s) p.1) (finished s) /\
  (workers s <> [] -> Forall (fun w => w = Exited) (workers s) -> queue s = [] /\ (finished s).*1 ≡ₚ accepted s).
Proof.
  destruct (run_kept acts _ (New_kept c)) as (s & -> & Hk). exists s. split; [done|].
  pose proof (all_run s Hk). by destruct Hk.
Qed.

(** While the pool is paused, whatever else is called, each worker that was at the receive takes one
    task at most, and the others none. *)
Theorem pause_bound c acts s acts' : run acts (New c) = Ret s -> paused s = true -> stopped s = false -> forallb pausing acts' = true ->
  exists s' l, run acts' s = Ret s' /\ received s' = received s ++ l /\ (length l <= receiving (workers s))%nat.
Proof.
  intros E Hp Hs Ha. destruct (run_kept acts _ (New_kept c)) as (s0 & E0 & Hk). rewrite E in E0. injection E0 as <-.
  destruct (run_held (received s) (receiving (workers s)) acts' s) as (s' & Hr & _ & _ & _ & l & Hl & Hn); [|done|].
  - split; [done|]. split; [done|]. split; [done|]. exists []. rewrite app_nil_r. split; [done|]. cbn. lia.
  - exists s', l. split; [done|]. split; [done|]. lia.
Qed.
Definition two : config := WithWorkers 2 (WithQueueSize 1 default_config).
Lemma pause_bound_witness : exists s s' l, run [AStart; AWork 0; APause; AWork 1] (New two) = Ret s /\
  run [ASubmit (MkTask "a" Done); ASent 0; AWork 0; AWork 0; AWork 0; AWork 0; AWork 1; ATrySubmit (MkTask "b" Done); AWork 0; AWork 1] s = Ret s' /\
  received s' = received s ++ l /\ (length l <= 1)%nat.
Proof.
  eexists. destruct (pause_bound two [AStart; AWork 0; APause; AWork 1] _
    [ASubmit (MkTask "a" Done); ASent 0; AWork 0; AWork 0; AWork 0; AWork 0; AWork 1; ATrySubmit (MkTask "b" Done); AWork 0; AWork 1]
    ltac:(vm_compute; reflexivity) eq_refl eq_refl eq_refl) as (s' & l & H1 & H2 & H3).
  exists s', l. split; [vm_compute; reflexivity|]. split; [exact H1|]. split; [exact H2|exact H3].
Defined.

(** A [Stop] that has resumed the pool can always complete when no worker sleeps or is about to, and then
    the tasks accepted have been run. *)
Theorem stop_completes c acts s : run acts (New c) = Ret s -> stage s = Closing \/ stage s = LockingQueue \/ stage s = Waiting -> Forall awake (workers s) ->
  exists acts' s', run acts' s = Ret s' /\ stage s' = Stopped /\ (workers s' <> [] -> queue s' = [] /\ (finished s').*1 ≡ₚ accepted s').
Proof.
  intros E Hst Ha. destruct (run_kept acts _ (New_kept c)) as (s0 & E0 & Hk). rewrite E in E0. injection E0 as <-.
  assert (exists acts' s', run acts' s = Ret s' /\ kept s' /\ stage s' = Stopped /\ Forall (fun w => w = Exited) (workers s')) as (acts' & s' & Hr & Hk' & Hs & Hf).
  { destruct Hst as [Hst|[Hst|Hst]]; [|by apply locking_ends|apply (draining_ends (S (left_to_do s))); [lia|by split]].
    assert (exists s1, stop_step s = Some s1 /\ workers s1 = workers s /\ stage s1 = LockingQueue) as (s1 & E1 & Hw1 & Hst1) by (unfold stop_step; rewrite Hst; by eexists).
    destruct (locking_ends s1) as (acts2 & s2 & Hr2 & H2); [by eapply kept_stop_step|done|by rewrite Hw1|]. exists (AStopStep :: acts2), s2. split; [|done]. cbn. by rewrite E1. }
  exists acts', s'. split; [done|]. split; [done|]. intros Hne. by apply all_run.
Qed.
Lemma stop_completes_witness : exists s acts' s', run [AStart; AWork 0; ATrySubmit (MkTask "a" Done); AStop; AStopStep] (New two) = Ret s /\
  run acts' s = Ret s' /\ stage s' = Stopped /\ (workers s' <> [] -> queue s' = [] /\ (finished s').*1 ≡ₚ accepted s').
Proof.
  eexists. destruct (stop_completes two [AStart; AWork 0; ATrySubmit (MkTask "a" Done); AStop; AStopStep] _ ltac:(vm_compute; reflexivity) (or_introl eq_refl)) as (acts' & s' & H).
  - repeat constructor; discriminate.
  - exists acts', s'. split; [vm_compute; reflexivity|exact H].
Defined.

(** A worker that slept through the only wake-up. *)
Definition asleep_for_good (s : Scheduler) : Prop :=
  workers s = [Asleep] /\ paused s = false /\ broadcasts s = 0%nat /\ started s = true /\ stage s <> Broadcasting /\ stage s <> Stopped.

Lemma asleep_act a s : asleep_for_good s -> a <> APause -> match act a s with Some (Ret s') => asleep_for_good s' | _ => True end.
Proof.
  intros (Hw & Hp & Hb & Hs & H1 & H2) Ha. unfold asleep_for_good. destruct a as [|t|n|n|t| | | | | |n]; cbn [act]; try done.
  - unfold Start. by rewrite Hs.
  - unfold Submit. destruct (stopped s); by split_and!.
  - unfold submit_sent, send. destruct (submitting s !! n); [|done]. destruct (_ || _); [|done]. cbn. destruct (closed s); [done|by split_and!].
  - unfold submit_refused. destruct (submitting s !! n); [|done]. destruct (stopCh s); [by split_and!|done].
  - unfold TrySubmit, send. destruct (stopped s); [by split_and!|]. destruct (_ || _); [|by split_and!]. destruct (closed s); [done|by split_and!].
  - unfold Resume. rewrite Hp. by split_and!.
  - unfold Broadcast. by rewrite Hb.
  - unfold Stop. destruct (stopped s); by split_and!.
  - unfold stop_step. destruct (stage s) eqn:E; try done; cbn; rewrite ?Hp; cbn; try (by split_and!).
    + destruct (decide _); [|done]. by split_and!.
    + rewrite Hw. cbn. done.
  - unfold work. rewrite Hw. by destruct n as [|[|n]].
Qed.

Lemma asleep_run acts : forall s s', asleep_for_good s -> APause ∉ acts -> run acts s = Ret s' -> asleep_for_good s'.
Proof.
  induction acts as [|a acts IH]; intros s s' Hs Ha Hr; cbn in Hr; [by injection Hr as <-|].
  pose proof (asleep_act a s Hs ltac:(set_solver)) as H. destruct (act a s) as [[s1|]|]; [|done|].
  - eapply IH; [exact H|set_solver|done].
  - eapply IH; [exact Hs|set_solver|done].
Qed.

(** The only wake-up can be missed: [Resume] takes no lock, a worker that has tested [paused] waits after
    its broadcast, and from then on, until someone pauses again, the pool is not paused, the worker sleeps,
    and [Stop] does not return. *)
Theorem lost_wakeup : exists s, run [AStart; APause; AWork 0; AWork 0; AResume; ABroadcast; AWork 0; ATrySubmit (MkTask "a" Done); AStop] (New (WithWorkers 1 default_config)) = Ret s /\
  forall acts s', APause ∉ acts -> run acts s = Ret s' -> paused s' = false /\ workers s' = [Asleep] /\ stage s' <> Stopped.
Proof.
  eexists. split; [vm_compute; reflexivity|]. intros acts s' Ha Hr. eapply asleep_run in Hr; [by destruct Hr as (? & ? & _ & _ & _ & ?)|by split_and!|done].
Qed.

(** A worker at the receive takes a task submitted after the pause. *)
Theorem pause_takes_one : exists s s', run [AStart; AWork 0; APause] (New (WithWorkers 1 default_config)) = Ret s /\ paused s = true /\ accepted s = [] /\
  run [ATrySubmit (MkTask "a" Done); AWork 0; AWork 0] s = Ret s' /\ paused s' = true /\ (finished s').*1 = [MkTask "a" Done].
Proof. eexists _, _. split; [vm_compute; reflexivity|]. repeat (split; [vm_compute; reflexivity|]). reflexivity. Qed.

(** Without a worker [Stop] returns and leaves tasks it has accepted. *)
Theorem stop_without_workers : exists s, run [ATrySubmit (MkTask "a" Done); AStop; AStopStep; AStopStep; AStopStep; AStopStep] (New default_config) = Ret s /\
  stage s = Stopped /\ queue s = [MkTask "a" Done].
Proof. eexists. split; [vm_compute; reflexivity|]. split; reflexivity. Qed.

(** A panic is reported with neither an error nor a stack. *)
Theorem panic_reported_bare t : Fn t = Panicked -> exec (WithErrorHandler default_config) t = [(Name t, None, None)].
Proof. intros E. unfold exec. by rewrite E. Qed.
Lemma panic_reported_bare_witness : exec (WithErrorHandler default_config) (MkTask "a" Panicked) = [("a"%string, None, None)].
Proof. apply (panic_reported_bare (MkTask "a" Panicked)). reflexivity. Defined.
