(* ===== verification/Broadcast.v ===== *)
(** The broadcaster ([pkg/messaging/stream/broadcaster.go]): a value is put into the bounded queue of every
    subscriber, which drops when it is full. Publishers hold the read lock together, so that their sends
    interleave with each other and with what the subscribers receive. *)
From Stdlib Require Import ZArith Lia Bool.
From stdpp Require Import base numbers strings list gmap sets.
From S2P Require Import Prelude.

Section broadcaster.
Context {T : Type}.

Inductive DropMode := DropOldest | DropNewest.

Record config := MkConfig { bufSize : Z; dropMode : DropMode }.
Definition default_config : config := MkConfig 16 DropOldest.
Definition WithBufferSize (n : Z) (c : config) : config := if (0 <? n)%Z then MkConfig n (dropMode c) else c.
Definition WithDropMode (m : DropMode) (c : config) : config := MkConfig (bufSize c) m.

(** A channel: what is in it, whether it is closed; and, for the statements, what was put in and what came
    out, with whether the subscriber received it or it was dropped. *)
Record channel := MkChan { buf : list T; cclosed : bool; sent : list T; out : list (T * bool) }.
Definition fresh (closed : bool) : channel := MkChan [] closed [] [].

(** The three steps of [send]: the first try, the dropping of the oldest, the second try. *)
Inductive sending := Try | Drop | Retry.

(** A [Publish] that holds the read lock: its value, the subscribers still to come, where it is with the
    first of them, and how many it has delivered to. *)
Record publishing := MkPub { value : T; todo : list nat; at_ : sending; delivered : Z }.

(** A subscriber is its channel, a pointer. [returned] are the results of the calls that have ended. *)
Record Broadcaster := MkB {
  cfg : config; chans : gmap nat channel; subs : gset nat; closed : bool; next : nat;
  publishers : list publishing; returned : list Z
}.

Definition New (c : config) : Broadcaster := MkB c ∅ ∅ false 0 [] [].

Definition set_chan (s : nat) (c : channel) (b : Broadcaster) : Broadcaster :=
  MkB (cfg b) (<[s := c]> (chans b)) (subs b) (closed b) (next b) (publishers b) (returned b).
Definition set_publishers (l : list publishing) (b : Broadcaster) : Broadcaster :=
  MkB (cfg b) (chans b) (subs b) (closed b) (next b) l (returned b).

(** Operations under the write lock wait for the publishers. *)
Definition write_locked (b : Broadcaster) : bool := match publishers b with [] => true | _ => false end.

Definition Subscribe (b : Broadcaster) : Broadcaster * nat :=
  let s := next b in
  if closed b then (MkB (cfg b) (<[s := fresh true]> (chans b)) (subs b) (closed b) (S s) (publishers b) (returned b), s)
  else (MkB (cfg b) (<[s := fresh false]> (chans b)) (subs b ∪ {[s]}) (closed b) (S s) (publishers b) (returned b), s).

Definition close_chan (c : channel) : channel := MkChan (buf c) true (sent c) (out c).

(** [unsubscribe], which the cancel function and the context call. *)
Definition unsubscribe (s : nat) (b : Broadcaster) : Broadcaster :=
  if decide (s ∈ subs b) then
    MkB (cfg b) (alter close_chan s (chans b)) (subs b ∖ {[s]}) (closed b) (next b) (publishers b) (returned b)
  else b.

Definition Close (b : Broadcaster) : Broadcaster :=
  if closed b then b
  else MkB (cfg b) (set_fold (fun s m => alter close_chan s m) (chans b) (subs b)) ∅ true (next b) (publishers b) (returned b).

(** [Publish] up to its loop; a map range visits the subscribers in some order. *)
Definition Publish (v : T) (order : list nat) (b : Broadcaster) : Broadcaster :=
  if closed b then MkB (cfg b) (chans b) (subs b) (closed b) (next b) (publishers b) (returned b ++ [0%Z])
  else set_publishers (publishers b ++ [MkPub v order Try 0%Z]) b.

Definition full (b : Broadcaster) (c : channel) : bool := (bufSize (cfg b) <=? Z.of_nat (length (buf c)))%Z.
Definition put (v : T) (c : channel) : channel := MkChan (buf c ++ [v]) (cclosed c) (sent c ++ [v]) (out c).
(** What leaves the channel, to the subscriber or to nobody. *)
Definition take_out (received : bool) (c : channel) : channel :=
  match buf c with [] => c | v :: l => MkChan l (cclosed c) (sent c) (out c ++ [(v, received)]) end.

Definition next_sub (p : publishing) (n : Z) : publishing := MkPub (value p) (tail (todo p)) Try (delivered p + n)%Z.

(** One step of publisher [n]; a send on a closed channel panics. *)
Definition send_step (n : nat) (b : Broadcaster) : go Broadcaster :=
  match publishers b !! n with
  | None => Ret b
  | Some p =>
      match todo p with
      | [] => Ret (MkB (cfg b) (chans b) (subs b) (closed b) (next b) (delete n (publishers b)) (returned b ++ [delivered p]))
      | s :: _ =>
          let go_on p' b := set_publishers (<[n := p']> (publishers b)) b in
          let c := default (fresh true) (chans b !! s) in
          match at_ p with
          | Try =>
              if cclosed c then Panic "send on closed channel"
              else if negb (full b c) then Ret (go_on (next_sub p 1) (set_chan s (put (value p) c) b))
              else match dropMode (cfg b) with
                   | DropNewest => Ret (go_on (next_sub p 0) b)
                   | DropOldest => Ret (go_on (MkPub (value p) (todo p) Drop (delivered p)) b)
                   end
          | Drop => Ret (go_on (MkPub (value p) (todo p) Retry (delivered p)) (set_chan s (take_out false c) b))
          | Retry =>
              if cclosed c then Panic "send on closed channel"
              else if negb (full b c) then Ret (go_on (next_sub p 1) (set_chan s (put (value p) c) b))
              else Ret (go_on (next_sub p 0) b)
          end
      end
  end.

Definition receive (s : nat) (b : Broadcaster) : Broadcaster :=
  match chans b !! s with Some c => set_chan s (take_out true c) b | None => b end.

Definition SubscriberCount (b : Broadcaster) : Z := Z.of_nat (size (subs b)).

Inductive action :=
| ASubscribe | AUnsubscribe (s : nat) | AClose | APublish (v : T) (order : list nat) | ASend (n : nat) | AReceive (s : nat).

Definition act (a : action) (b : Broadcaster) : go Broadcaster :=
  match a with
  | ASubscribe => Ret (if write_locked b then (Subscribe b).1 else b)
  | AUnsubscribe s => Ret (if write_locked b then unsubscribe s b else b)
  | AClose => Ret (if write_locked b then Close b else b)
  | APublish v order => Ret (if decide (order ≡ₚ elements (subs b)) then Publish v order b else b)
  | ASend n => send_step n b
  | AReceive s => Ret (receive s b)
  end.

Fixpoint run (acts : list action) (b : Broadcaster) : go Broadcaster :=
  match acts with [] => Ret b | a :: acts => b ← act a b; run acts b end.

(** * What is kept *)

Record chan_ok (c : channel) (n : Z) : Prop := {
  c_flow : sent c = (out c).*1 ++ buf c;
  c_room : (Z.of_nat (length (buf c)) <= n)%Z
}.

Record kept (b : Broadcaster) : Prop := {
  k_size : (0 < bufSize (cfg b))%Z;
  k_chans : forall s c, chans b !! s = Some c -> (s < next b)%nat /\ chan_ok c (bufSize (cfg b));
  k_subs : forall s, s ∈ subs b -> exists c, chans b !! s = Some c /\ cclosed c = false;
  k_closed : closed b = true -> subs b = ∅;
  k_todo : forall p, p ∈ publishers b -> NoDup (todo p) /\ forall s, s ∈ todo p -> s ∈ subs b
}.

Lemma broadcast_New_kept c : (0 < bufSize c)%Z -> kept (New c).
Proof. intros Hc. split; cbn; try done; set_solver. Qed.

Lemma broadcast_fresh_ok b n : (0 < n)%Z -> chan_ok (fresh b) n.
Proof. intros Hn. split; cbn; [done|lia]. Qed.

Lemma take_out_ok r c n : chan_ok c n -> chan_ok (take_out r c) n.
Proof.
  intros [Hf Hr]. unfold take_out. destruct (buf c) as [|v l] eqn:E; [split; [by rewrite E|by rewrite E]|]. split; cbn in *.
  - rewrite Hf, fmap_app, <- app_assoc. done.
  - lia.
Qed.

Lemma put_ok v c n : chan_ok c n -> (Z.of_nat (length (buf c)) < n)%Z -> chan_ok (put v c) n.
Proof. intros [Hf Hr] Hl. split; cbn; [by rewrite Hf, app_assoc|rewrite length_app; cbn; lia]. Qed.

Lemma close_chan_ok c n : chan_ok c n -> chan_ok (close_chan c) n.
Proof. by intros []. Qed.

Lemma kept_set s c c' b : kept b -> chans b !! s = Some c -> chan_ok c' (bufSize (cfg b)) -> cclosed c' = cclosed c -> kept (set_chan s c' b).
Proof.
  intros [] E Hc He. split; cbn; try done.
  - intros s' c1. destruct (decide (s' = s)) as [->|]; [rewrite lookup_insert_eq; intros [= <-]; split; [by eapply k_chans0|done]|].
    rewrite lookup_insert_ne by done. apply k_chans0.
  - intros s' Hs'. destruct (decide (s' = s)) as [->|]; [rewrite lookup_insert_eq; eexists; split; [done|]; apply k_subs0 in Hs' as (c1 & E1 & H1); congruence|].
    rewrite lookup_insert_ne by done. by apply k_subs0.
Qed.

Lemma kept_publishers l b : kept b -> (forall p, p ∈ l -> NoDup (todo p) /\ forall s, s ∈ todo p -> s ∈ subs b) -> kept (set_publishers l b).
Proof. intros [] Hl. by split. Qed.

Lemma close_all (l : list nat) : forall m : gmap nat channel, forall s,
  foldr (fun s m => alter close_chan s m) m l !! s = (if decide (s ∈ l) then close_chan else id) <$> m !! s.
Proof.
  induction l as [|x l IH]; intros m s; cbn.
  - rewrite decide_False by set_solver. by destruct (m !! s).
  - destruct (decide (s = x)) as [->|Hd].
    + rewrite lookup_alter_eq, IH, (decide_True (P := x ∈ x :: l)) by set_solver. destruct (m !! x); cbn; [|done]. by case_decide.
    + rewrite lookup_alter_ne, IH by done. by destruct (decide (s ∈ l)); [rewrite decide_True by set_solver|rewrite decide_False by set_solver].
Qed.

Lemma Close_lookup b s : closed b = false -> chans (Close b) !! s = (if decide (s ∈ subs b) then close_chan else id) <$> chans b !! s.
Proof.
  intros Hc. unfold Close. rewrite Hc. cbn. unfold set_fold. cbn. rewrite close_all.
  by destruct (decide (s ∈ subs b)); [rewrite decide_True by set_solver|rewrite decide_False by set_solver].
Qed.

Lemma write_locked_nil b : write_locked b = true -> publishers b = [].
Proof. unfold write_locked. by destruct (publishers b). Qed.

Lemma broadcast_kept_Subscribe b : kept b -> write_locked b = true -> kept (Subscribe b).1.
Proof.
  intros [] Hp%write_locked_nil. unfold Subscribe.
  assert (forall cl s c, <[next b := fresh cl]> (chans b) !! s = Some c -> (s < S (next b))%nat /\ chan_ok c (bufSize (cfg b))) as Hc.
  { intros cl s c [[<- <-]|[_ E]]%lookup_insert_Some; [split; [lia|by apply (broadcast_fresh_ok cl)]|]. apply k_chans0 in E as [? ?]. split; [lia|done]. }
  destruct (closed b) eqn:Ec; cbn; split; cbn; try done; try (rewrite Hp; set_solver).
  - by apply Hc.
  - intros s Hs. rewrite k_closed0 in Hs by done. set_solver.
  - by apply Hc.
  - intros s Hs. destruct (decide (s = next b)) as [->|Hd]; [rewrite lookup_insert_eq; by eexists|]. rewrite lookup_insert_ne by done. apply k_subs0. set_solver.
Qed.

Lemma kept_unsubscribe s b : kept b -> write_locked b = true -> kept (unsubscribe s b).
Proof.
  intros [] Hp%write_locked_nil. unfold unsubscribe. destruct (decide _); [|done]. split; cbn; try done.
  - intros s' c E. destruct (decide (s' = s)) as [->|Hd].
    + rewrite lookup_alter_eq in E. destruct (chans b !! s) as [c0|] eqn:E0; [|done]. injection E as <-. apply k_chans0 in E0 as [? ?]. split; [done|by apply close_chan_ok].
    + rewrite lookup_alter_ne in E by done. by apply k_chans0.
  - intros s' Hs'. rewrite lookup_alter_ne by set_solver. apply k_subs0. set_solver.
  - intros Hc. rewrite k_closed0 by done. set_solver.
  - rewrite Hp. set_solver.
Qed.

Lemma kept_Close b : kept b -> write_locked b = true -> kept (Close b).
Proof.
  intros Hk Hp%write_locked_nil. destruct (closed b) eqn:Ec; [unfold Close; by rewrite Ec|]. pose proof (fun s => Close_lookup b s Ec) as HL.
  destruct Hk. unfold Close in *. rewrite Ec in *. split; cbn in *; try done; try (rewrite Hp; set_solver).
  - intros s c. rewrite HL. intros E. destruct (chans b !! s) as [c0|] eqn:E0; [|done]. injection E as <-. apply k_chans0 in E0 as [? ?].
    split; [done|]. case_decide; [by apply close_chan_ok|done].
Qed.

(** A publisher steps on. *)
Lemma todo_step b n p p' : kept b -> publishers b !! n = Some p -> (todo p' = todo p \/ todo p' = tail (todo p)) ->
  forall q, q ∈ <[n := p']> (publishers b) -> NoDup (todo q) /\ forall s, s ∈ todo q -> s ∈ subs b.
Proof.
  intros Hk E Ht q [i Hi]%list_elem_of_lookup. apply list_lookup_insert_Some in Hi as [(-> & -> & _)|[_ Hi]]; [|apply (k_todo b Hk); by eapply list_elem_of_lookup_2].
  destruct (k_todo b Hk p) as [Hn Hs]; [by eapply list_elem_of_lookup_2|]. destruct Ht as [->|Ht]; [done|]. rewrite Ht.
  destruct (todo p) as [|x l]; [done|]. cbn. apply NoDup_cons in Hn as [? ?]. split; [done|]. intros s Hs'. apply Hs. set_solver.
Qed.

Lemma kept_step b n p s c p' c' : kept b -> publishers b !! n = Some p -> (todo p' = todo p \/ todo p' = tail (todo p)) ->
  chans b !! s = Some c -> chan_ok c' (bufSize (cfg b)) -> cclosed c' = cclosed c ->
  kept (set_publishers (<[n := p']> (publishers b)) (set_chan s c' b)).
Proof.
  intros Hk E Ht Ec Hok Hcl. apply (kept_publishers (<[n := p']> (publishers b)) (set_chan s c' b)); [by eapply kept_set|]. by eapply (todo_step b).
Qed.

Lemma broadcast_kept_send n b : kept b -> exists b', send_step n b = Ret b' /\ kept b'.
Proof.
  intros Hk. unfold send_step. destruct (publishers b !! n) as [p|] eqn:E; [|by eexists].
  destruct (k_todo b Hk p) as [Hn Hs]; [by eapply list_elem_of_lookup_2|]. destruct (todo p) as [|s l] eqn:Et.
  - eexists. split; [done|]. destruct Hk. split; cbn; try done. intros q Hq. apply k_todo0. by eapply elem_of_sublist; [|apply sublist_delete].
  - destruct (k_subs b Hk s) as (c & Ec & Hc); [set_solver|]. rewrite Ec. cbn [default from_option id]. unfold id; rewrite Hc.
    destruct (k_chans b Hk s c Ec) as [_ Hok].
    assert (forall k, kept (set_publishers (<[n := next_sub p k]> (publishers b)) b)) as Hskip.
    { intros k. apply kept_publishers; [done|]. eapply todo_step; [done|done|]. by right. }
    assert (full b c = false -> kept (set_publishers (<[n := next_sub p 1]> (publishers b)) (set_chan s (put (value p) c) b))) as Hput.
    { unfold full. intros Hf%Z.leb_gt. apply (kept_step b n p s c _ (put (value p) c) Hk E); [by right|done|by apply put_ok|done]. }
    destruct (at_ p).
    + destruct (full b c) eqn:Ef; cbn [negb]; [|eexists; split; [done|]; by apply Hput]. destruct (dropMode (cfg b)); eexists; (split; [done|]).
      * apply kept_publishers; [done|]. eapply todo_step; [done|done|]. left. cbn. done.
      * apply Hskip.
    + eexists. split; [done|]. apply (kept_step b n p s c _ (take_out false c) Hk E); [by left|done|by apply take_out_ok|]. unfold take_out. by destruct (buf c).
    + destruct (full b c) eqn:Ef; cbn [negb]; eexists; (split; [done|]); [apply Hskip|by apply Hput].
Qed.

Lemma broadcast_kept_act a b : kept b -> exists b', act a b = Ret b' /\ kept b'.
Proof.
  intros Hk. destruct a as [|s| |v order|n|s]; cbn [act].
  - eexists. split; [done|]. destruct (write_locked b) eqn:E; [by apply broadcast_kept_Subscribe|done].
  - eexists. split; [done|]. destruct (write_locked b) eqn:E; [by apply kept_unsubscribe|done].
  - eexists. split; [done|]. destruct (write_locked b) eqn:E; [by apply kept_Close|done].
  - eexists. split; [done|]. case_decide as Hp; [|done]. unfold Publish. destruct (closed b) eqn:Ecl; [by destruct Hk; split; cbn; rewrite ?Ecl in *|].
    apply kept_publishers; [done|]. intros p [Hin|Hin]%elem_of_app; [by apply (k_todo b Hk)|]. apply list_elem_of_singleton in Hin as ->. cbn.
    split; [rewrite Hp; apply NoDup_elements|]. intros s. rewrite Hp. apply elem_of_elements.
  - by apply broadcast_kept_send.
  - eexists. split; [done|]. unfold receive. destruct (chans b !! s) as [c|] eqn:E; [|done]. destruct (k_chans b Hk s c E).
    eapply kept_set; [done|done|by apply take_out_ok|]. unfold take_out. by destruct (buf c).
Qed.

Lemma broadcast_run_kept acts : forall b, kept b -> exists b', run acts b = Ret b' /\ kept b'.
Proof.
  induction acts as [|a acts IH]; intros b Hk; [by exists b|]. cbn. destruct (broadcast_kept_act a b Hk) as (b1 & -> & Hk1). cbn. by apply IH.
Qed.

(** * One publisher *)

(** What a send alone does to a queue, and whether it delivers. *)
Definition sent_alone (b : Broadcaster) (v : T) (c : channel) : channel :=
  if full b c then match dropMode (cfg b) with DropOldest => put v (take_out false c) | DropNewest => c end else put v c.
Definition delivers (b : Broadcaster) (c : channel) : bool := negb (full b c) || match dropMode (cfg b) with DropOldest => true | DropNewest => false end.

Definition chan_of (b : Broadcaster) (s : nat) : channel := default (fresh true) (chans b !! s).

Lemma broadcast_run_app acts acts' b b1 : run acts b = Ret b1 -> run (acts ++ acts') b = run acts' b1.
Proof.
  revert b. induction acts as [|a acts IH]; intros b H; cbn in *; [congruence|]. destruct (act a b) as [b2|]; [|done]. by apply IH.
Qed.

Lemma run_send k b b1 b2 : send_step 0 b = Ret b1 -> run (replicate k (ASend 0)) b1 = Ret b2 -> run (replicate (S k) (ASend 0)) b = Ret b2.
Proof. intros E Hr. cbn. by rewrite E. Qed.

(** The step of the only publisher, at a subscriber whose channel is open. *)
Lemma send_step_one b v s l n st c : publishers b = [MkPub v (s :: l) st n] -> chans b !! s = Some c -> cclosed c = false ->
  send_step 0 b = Ret (match st with
    | Drop => set_publishers [MkPub v (s :: l) Retry n] (set_chan s (take_out false c) b)
    | Try | Retry =>
        if full b c then
          match st, dropMode (cfg b) with
          | Try, DropOldest => set_publishers [MkPub v (s :: l) Drop n] b
          | _, _ => set_publishers [MkPub v l Try (n + 0)%Z] b
          end
        else set_publishers [MkPub v l Try (n + 1)%Z] (set_chan s (put v c) b)
    end).
Proof.
  intros E Ec Hc. unfold send_step. rewrite E. cbn [lookup list_lookup todo at_]. rewrite Ec. cbn [default from_option]. unfold id. rewrite Hc.
  destruct st, (full b c), (dropMode (cfg b)); cbn; by rewrite ?E.
Qed.

(** The publisher goes past the first of its subscribers. *)
Lemma send_one b v s l n : kept b -> publishers b = [MkPub v (s :: l) Try n] ->
  exists k, (0 < k <= 3)%nat /\ run (replicate k (ASend 0)) b =
    Ret (set_publishers [MkPub v l Try (n + (if delivers b (chan_of b s) then 1 else 0))%Z] (set_chan s (sent_alone b v (chan_of b s)) b)).
Proof.
  intros Hk E. destruct (k_todo b Hk (MkPub v (s :: l) Try n)) as [_ Hs]; [rewrite E; set_solver|].
  destruct (k_subs b Hk s) as (c & Ec & Hc); [cbn in Hs; set_solver|]. destruct (k_chans b Hk s c Ec) as [_ [_ Hr]]. pose proof (k_size b Hk).
  unfold chan_of, delivers, sent_alone. rewrite Ec. cbn [default from_option]. unfold id. pose proof (send_step_one b v s l n Try c E Ec Hc) as H1.
  destruct (full b c) eqn:Ef; cbn [negb orb] in *; [|exists 1%nat; split; [lia|]; by eapply run_send].
  destruct (dropMode (cfg b)) eqn:Ed.
  - exists 3%nat. split; [lia|]. eapply run_send; [exact H1|]. eapply run_send; [by apply (send_step_one _ v s l n Drop c)|].
    assert (cclosed (take_out false c) = false) as Hc' by (unfold take_out; by destruct (buf c)).
    eapply run_send; [apply (send_step_one _ v s l n Retry (take_out false c)); [done|cbn; by rewrite lookup_insert_eq|done]|].
    unfold full. cbn [cfg set_publishers set_chan]. rewrite (proj2 (Z.leb_gt _ _)); [|unfold take_out; destruct (buf c) eqn:Eb; rewrite ?Eb; cbn in *; lia].
    cbn. unfold set_publishers, set_chan; cbn. by rewrite insert_insert_eq.
  - exists 1%nat. split; [lia|]. eapply run_send; [exact H1|]. unfold set_publishers, set_chan; cbn. by rewrite insert_id.
Qed.

Fixpoint deliveries (b : Broadcaster) (l : list nat) : Z :=
  match l with [] => 0 | s :: l => (if delivers b (chan_of b s) then 1 else 0) + deliveries b l end%Z.

Lemma deliveries_ext b b' l : cfg b' = cfg b -> (forall s, s ∈ l -> chan_of b' s = chan_of b s) -> deliveries b' l = deliveries b l.
Proof.
  intros Hc Hs. induction l as [|s l IH]; [done|]. cbn. rewrite IH, Hs by set_solver. unfold delivers, full. by rewrite Hc.
Qed.

Lemma send_all v l : forall b n, kept b -> publishers b = [MkPub v l Try n] ->
  exists k b', (k <= 3 * length l + 1)%nat /\ run (replicate k (ASend 0)) b = Ret b' /\ publishers b' = [] /\ subs b' = subs b /\
    returned b' = returned b ++ [(n + deliveries b l)%Z] /\
    forall s, chan_of b' s = if decide (s ∈ l) then sent_alone b v (chan_of b s) else chan_of b s.
Proof.
  induction l as [|s l IH]; intros b n Hk E.
  - exists 1%nat. eexists. split; [cbn; lia|]. cbn [replicate run act]. unfold send_step. rewrite E. cbn. split; [done|]. cbn. split; [done|]. split; [done|]. split; [by rewrite Z.add_0_r|].
    intros s. rewrite decide_False by set_solver. done.
  - destruct (send_one b v s l n Hk E) as (k & Hkk & Hr). set (b1 := set_publishers _ _) in Hr.
    destruct (broadcast_run_kept (replicate k (ASend 0)) b Hk) as (b1' & Hr' & Hk1). rewrite Hr in Hr'. injection Hr' as <-.
    destruct (k_todo b Hk (MkPub v (s :: l) Try n)) as [Hnd _]; [rewrite E; set_solver|]. cbn in Hnd. apply NoDup_cons in Hnd as [Hnin Hnd].
    assert (forall s', chan_of b1 s' = if decide (s' = s) then sent_alone b v (chan_of b s) else chan_of b s') as Hch.
    { intros s'. unfold chan_of at 1. cbn. case_decide as Hd; [subst; by rewrite lookup_insert_eq|by rewrite lookup_insert_ne]. }
    destruct (IH b1 _ Hk1 eq_refl) as (k' & b' & Hk' & Hr1 & Hp & Hsu & Hre & Hc). exists (k + k')%nat, b'. split; [cbn; lia|].
    rewrite replicate_add, (broadcast_run_app (replicate k (ASend 0)) (replicate k' (ASend 0)) b b1 Hr). split; [done|]. split; [done|]. split; [done|]. split.
    + rewrite Hre. cbn [deliveries]. rewrite (deliveries_ext b b1 l) by (done || (intros s' Hs'; rewrite Hch; by rewrite decide_False by (intros ->; done))). by rewrite Z.add_assoc.
    + intros s'. rewrite Hc, Hch. destruct (decide (s' = s)) as [->|Hd].
      * rewrite decide_False by done. by rewrite decide_True by set_solver.
      * destruct (decide (s' ∈ l)); [rewrite decide_True by set_solver|rewrite decide_False by set_solver]; done.
Qed.
End broadcaster.

Arguments Broadcaster : clear implicits.
Arguments channel : clear implicits.

(** * Properties *)

(** However publishers, subscribers and [Close] interleave, no send panics, no queue grows past its
    bound, and what a subscriber receives is, in order and each once, of what was put into its queue: what
    is missing was dropped or is still there. *)
Theorem broadcast_order {T} (c : config) (acts : list (@action T)) : (0 < bufSize c)%Z ->
  exists b, run acts (New c) = Ret b /\ forall s ch, chans b !! s = Some ch ->
    sent ch = (out ch).*1 ++ buf ch /\ (Z.of_nat (length (buf ch)) <= bufSize (cfg b))%Z /\ (s ∈ subs b -> cclosed ch = false).
Proof.
  intros Hc. destruct (broadcast_run_kept acts _ (broadcast_New_kept c Hc)) as (b & -> & Hk). exists b. split; [done|]. intros s ch E.
  destruct (k_chans b Hk s ch E) as [_ [H1 H2]]. split_and!; [done|done|]. intros Hs. destruct (k_subs b Hk s Hs) as (c' & E' & ?). congruence.
Qed.
Lemma broadcast_order_witness : exists b, run [ASubscribe; APublish 7%nat [0%nat]; ASend 0; ASend 0; AReceive 0; AClose] (New (WithBufferSize 2 default_config)) = Ret b /\
  forall s ch, chans b !! s = Some ch ->
    sent ch = (out ch).*1 ++ buf ch /\ (Z.of_nat (length (buf ch)) <= bufSize (cfg b))%Z /\ (s ∈ subs b -> cclosed ch = false).
Proof. apply (broadcast_order (WithBufferSize 2 default_config)). done. Defined.

(** A publisher alone comes back within three steps for each subscriber, and one: every subscriber has
    the value, the oldest in its queue making room for it if need be, or, to drop the newest, every one whose
    queue is not full; and it returns how many that are. *)
Theorem publish_alone {T} (c : config) (acts : list (@action T)) b v order : (0 < bufSize c)%Z -> run acts (New c) = Ret b ->
  publishers b = [] -> closed b = false -> order ≡ₚ elements (subs b) ->
  exists k b', (k <= 3 * length order + 1)%nat /\ run (APublish v order :: replicate k (ASend 0)) b = Ret b' /\ subs b' = subs b /\
    returned b' = returned b ++ [deliveries b order] /\
    forall s, chan_of b' s = if decide (s ∈ subs b) then sent_alone b v (chan_of b s) else chan_of b s.
Proof.
  intros Hc Hr Hp Hcl Ho. destruct (broadcast_run_kept acts _ (broadcast_New_kept c Hc)) as (b0 & E0 & Hk). rewrite Hr in E0. injection E0 as <-.
  destruct (broadcast_kept_act (APublish v order) b Hk) as (b1 & E1 & Hk1). cbn in E1. rewrite decide_True in E1 by done. unfold Publish in E1. rewrite Hcl, Hp in E1. injection E1 as <-.
  destruct (send_all v order _ 0 Hk1 eq_refl) as (k & b' & Hle & Hr' & _ & Hs & Hre & Hch). exists k, b'. split; [done|]. cbn [run act].
  rewrite decide_True by done. unfold Publish. rewrite Hcl, Hp. split; [exact Hr'|]. split; [done|]. split; [rewrite Hre, Z.add_0_l; cbn; do 2 f_equal; by apply deliveries_ext|].
  intros s. rewrite Hch. destruct (decide (s ∈ order)) as [Hi|Hi].
  - rewrite Ho, elem_of_elements in Hi. by rewrite decide_True.
  - rewrite Ho, elem_of_elements in Hi. by rewrite decide_False.
Qed.
Lemma publish_alone_witness : exists b k b', run [ASubscribe; ASubscribe] (New (WithBufferSize 1 default_config)) = Ret b /\
  run (APublish 7%nat [1%nat; 0%nat] :: replicate k (ASend 0)) b = Ret b' /\ returned b' = [2%Z].
Proof.
  eexists. destruct (publish_alone (WithBufferSize 1 default_config) [ASubscribe; ASubscribe] _ 7%nat [1%nat; 0%nat] eq_refl ltac:(vm_compute; reflexivity) eq_refl eq_refl) as (k & b' & _ & H1 & _ & H2 & _).
  - vm_compute. reflexivity.
  - exists k, b'. split; [vm_compute; reflexivity|]. split; [exact H1|]. exact H2.
Defined.

(** With two publishers the newest value can be the one that is dropped: the place one has made is
    taken by the other. *)
Theorem race_drops_newest : exists b ch, run [ASubscribe; APublish 0%nat [0%nat]; ASend 0; ASend 0;
    APublish 1%nat [0%nat]; ASend 0; ASend 0; APublish 2%nat [0%nat]; ASend 1; ASend 1; ASend 0; ASend 0] (New (WithBufferSize 1 default_config)) = Ret b /\
  chans b !! 0%nat = Some ch /\ buf ch = [2%nat] /\ sent ch = [0%nat; 2%nat] /\ returned b = [1; 1; 0]%Z.
Proof. eexists _, _. split; [vm_compute; reflexivity|]. split; [vm_compute; reflexivity|]. split_and!; reflexivity. Qed.
