(* ===== verification/Lagcomp.v ===== *)
(** Lag compensation: the frames a player's inputs were made in and the round trip of each player
    ([pkg/game/inputclock/inputclock.go]), and the world to judge a shot by
    ([pkg/game/lagcomp/lagcomp.go]), on the ring of [SnapBuf]. *)
From Stdlib Require Import ZArith Lia Bool.
From stdpp Require Import base numbers strings list gmap fin_maps.
From S2P Require Import Prelude RingBuffer SnapBuf.

Open Scope Z_scope.

(** * The clock of inputs *)

(** [ReceivedAt] is absent for the zero time. *)
Record Sample := MkSample { Player : string; ClientFrame : Z; ServerFrame_ : Z; ReceivedAt : option Z }.
Record Clock := MkClock { byKey : gmap (string * Z) Sample; rtt : gmap string Z }.

Definition NewClock : Clock := MkClock ∅ ∅.

Definition Record_ (now : Z) (s : Sample) (c : Clock) : Clock :=
  let s := if bool_decide (Player s = EmptyString) || bool_decide (ReceivedAt s = None)
           then MkSample (Player s) (ClientFrame s) (ServerFrame_ s) (Some now) else s in
  MkClock (<[(Player s, ClientFrame s) := s]> (byKey c)) (rtt c).

Definition ServerFrame (player : string) (clientFrame : Z) (c : Clock) : Z * bool :=
  match byKey c !! (player, clientFrame) with
  | None => (0, false)
  | Some s => (ServerFrame_ s, true)
  end.

Definition UpdateRTT (player : string) (r : Z) (c : Clock) : Clock :=
  if bool_decide (player = EmptyString) || (r <=? 0) then c
  else
    match rtt c !! player with
    | Some prev => MkClock (byKey c) (<[player := wrap64 (wrap64 (prev * 3) + r) ÷ 4]> (rtt c))
    | None => MkClock (byKey c) (<[player := r]> (rtt c))
    end.

Definition RTT (player : string) (c : Clock) : Z := default 0 (rtt c !! player).

Definition RewindFrames (player : string) (tick : Z) (c : Clock) : Z :=
  if tick <=? 0 then 1
  else
    let rtt := RTT player c in
    if rtt <=? 0 then 1
    else
      let n := wrapu64 (rtt ÷ tick) in
      if n <? 1 then 1 else n.

Definition CompensatedFrame (player : string) (clientFrame tick : Z) (c : Clock) : Z * bool :=
  let '(sf, ok) := ServerFrame player clientFrame c in
  if negb ok then (0, false)
  else
    let rewind := RewindFrames player tick c in
    if sf <=? rewind then (1, true) else (wrapu64 (sf - rewind), true).

(** * The compensator *)

Section compensator.
Context {S : Type} (zero : S).

Record Compensator := MkComp { clock : option Clock; cring : option (@Ring S); Tick : Z }.

Definition WorldAt (shooter : string) (clientFrame : Z) (c : option Compensator) : go (S * Z * bool) :=
  match c with
  | Some {| clock := Some ck; cring := Some r; Tick := t |} =>
      let tick := if t <=? 0 then 50 * 10 ^ 6 else t in
      let '(target, ok) := CompensatedFrame shooter clientFrame tick ck in
      if negb ok then Ret (zero, 0, false) else Nearest zero target r
  | _ => Ret (zero, 0, false)
  end.

Definition ExactAt (frame : Z) (c : option Compensator) : go (S * bool) :=
  match c with
  | Some {| cring := Some r |} => At zero frame r
  | _ => Ret (zero, false)
  end.
End compensator.

(** * Round trips *)

Inductive cop := ORecord (now : Z) (s : Sample) | OUpdate (player : string) (r : Z).

Definition cstep (o : cop) (c : Clock) : Clock :=
  match o with ORecord now s => Record_ now s c | OUpdate p r => UpdateRTT p r c end.
Definition cplay (ops : list cop) (c : Clock) : Clock := foldl (fun c o => cstep o c) c ops.

(** The samples of a player that count. *)
Definition samples (p : string) (ops : list cop) : list Z :=
  omap (fun o => match o with
    | OUpdate q r => if decide (q = p /\ q <> EmptyString /\ 0 < r) then Some r else None
    | ORecord _ _ => None end) ops.

Definition average (prev : option Z) (r : Z) : option Z :=
  Some (match prev with Some p => (3 * p + r) / 4 | None => r end).

(** Round trips below two decades do not overflow. *)
Definition sane (o : cop) : Prop := match o with OUpdate _ r => r < 2 ^ 60 | _ => True end.

Lemma average_range o r : 0 < r < 2 ^ 60 -> match o with Some p => 0 < p < 2 ^ 60 | None => True end ->
  match average o r with Some p => 0 < p < 2 ^ 60 | None => False end.
Proof.
  intros Hr Ho. destruct o as [p|]; cbn [average]; [|done]. pose proof (Z.div_mod (3 * p + r) 4 ltac:(lia)). pose proof (Z.mod_pos_bound (3 * p + r) 4 ltac:(lia)). lia.
Qed.

Lemma cplay_rtt ops p : Forall sane ops -> forall c, match rtt c !! p with Some x => 0 < x < 2 ^ 60 | None => True end ->
  rtt (cplay ops c) !! p = foldl average (rtt c !! p) (samples p ops).
Proof.
  induction 1 as [|o ops Ho Hops IH]; intros c Hc; [done|]. cbn [cplay foldl]. change (foldl _ (cstep o c) ops) with (cplay ops (cstep o c)).
  destruct o as [now s|q r]; cbn [cstep samples omap list_omap]; [rewrite IH; done|]. unfold UpdateRTT. cbn in Ho.
  destruct (decide (q = p /\ q <> EmptyString /\ 0 < r)) as [(-> & He & Hr)|Hn]; cbn [foldl].
  - rewrite bool_decide_false by done. rewrite (proj2 (Z.leb_gt r 0)) by lia. cbn [orb]. rewrite IH.
    + f_equal. destruct (rtt c !! p) as [x|] eqn:E; rewrite ?E in Hc; cbn; rewrite lookup_insert_eq; cbn [foldl]; [|done].
      rewrite (wrap64_id (x * 3)), wrap64_id, Z.quot_div_nonneg by (unfold int64; lia). unfold average. do 2 f_equal. lia.
    + destruct (rtt c !! p) as [x|] eqn:E; rewrite ?E in Hc; cbn; rewrite lookup_insert_eq; [|lia].
      rewrite (wrap64_id (x * 3)), wrap64_id, Z.quot_div_nonneg by (unfold int64; lia).
      pose proof (Z.div_mod (x * 3 + r) 4 ltac:(lia)). pose proof (Z.mod_pos_bound (x * 3 + r) 4 ltac:(lia)). lia.
  - destruct (bool_decide (q = EmptyString) || (r <=? 0)) eqn:E; [by apply IH|]. apply orb_false_iff in E as [E1%bool_decide_eq_false E2%Z.leb_gt].
    assert (q <> p) by naive_solver. destruct (rtt c !! q); rewrite IH; cbn; rewrite lookup_insert_ne by done; done.
Qed.

(** The last sample for a frame. *)
Definition recorded (p : string) (f : Z) (ops : list cop) : option Z :=
  last (omap (fun o => match o with
    | ORecord _ s => if decide (Player s = p /\ ClientFrame s = f) then Some (ServerFrame_ s) else None
    | OUpdate _ _ => None end) ops).

Lemma cplay_recorded ops p f : ServerFrame_ <$> byKey (cplay ops NewClock) !! (p, f) = recorded p f ops.
Proof.
  unfold recorded. induction ops as [|o ops IH] using rev_ind; [done|]. unfold cplay in *. rewrite foldl_app, omap_app. cbn. rewrite last_app.
  destruct o as [now s|q r]; cbn.
  - set (s' := if _ : bool then _ else s). assert (Player s' = Player s /\ ClientFrame s' = ClientFrame s /\ ServerFrame_ s' = ServerFrame_ s) as (E1 & E2 & E3) by (unfold s'; by case_match).
    rewrite E1, E2. case_decide as Hd; cbn.
    + destruct Hd as [<- <-]. rewrite lookup_insert_eq. cbn. by rewrite E3.
    + rewrite lookup_insert_ne by (intros [= ? ?]; tauto). done.
  - unfold UpdateRTT. destruct (_ || _); [done|]. by destruct (rtt _ !! q).
Qed.

Lemma average_between lo hi p r : lo <= p <= hi -> lo <= r <= hi -> lo <= (3 * p + r) / 4 <= hi.
Proof. intros. pose proof (Z.div_mod (3 * p + r) 4 ltac:(lia)). pose proof (Z.mod_pos_bound (3 * p + r) 4 ltac:(lia)). lia. Qed.

Lemma averages_between lo hi l : Forall (fun r => lo <= r <= hi) l -> forall p, lo <= p <= hi ->
  exists q, foldl average (Some p) l = Some q /\ lo <= q <= hi.
Proof.
  induction 1 as [|r l Hr Hl IH]; intros p Hp; [by exists p|]. cbn [foldl]. apply IH. by apply average_between.
Qed.

Lemma RTT_samples ops p : Forall sane ops -> RTT p (cplay ops NewClock) = default 0 (foldl average None (samples p ops)).
Proof. intros Hs. unfold RTT. by rewrite (cplay_rtt ops p Hs NewClock). Qed.

(** A sample brings the estimate a quarter of the way, to the nanosecond. *)
Lemma average_closer p r : 4 * Z.abs ((3 * p + r) / 4 - r) <= 3 * Z.abs (p - r) + 3.
Proof. pose proof (Z.div_mod (3 * p + r) 4 ltac:(lia)). pose proof (Z.mod_pos_bound (3 * p + r) 4 ltac:(lia)). lia. Qed.

Lemma averages_closer r k : forall p, exists q, foldl average (Some p) (replicate k r) = Some q /\
  4 ^ Z.of_nat k * Z.abs (q - r) <= 3 ^ Z.of_nat k * Z.abs (p - r) + 3 * (4 ^ Z.of_nat k - 3 ^ Z.of_nat k).
Proof.
  induction k as [|k IH]; intros p; [exists p; cbn; split; [done|lia]|]. cbn [replicate foldl].
  change (average (Some p) r) with (Some ((3 * p + r) / 4)). destruct (IH ((3 * p + r) / 4)) as (q & -> & Hq). exists q. split; [done|].
  pose proof (average_closer p r). set (a := (3 * p + r) / 4) in *. rewrite Nat2Z.inj_succ, !Z.pow_succ_r by lia.
  assert (0 < 3 ^ Z.of_nat k) by (apply Z.pow_pos_nonneg; lia). nia.
Qed.

(** * Properties *)

(** The estimate of a player's round trip lies between the least and the greatest of the samples that
    count, and each sample more of the same value takes a quarter off its distance, down to three
    nanoseconds. *)
Theorem rtt_follows ops p lo hi r k : Forall sane ops -> Forall (fun x => lo <= x <= hi) (samples p ops) -> samples p ops <> [] ->
  p <> EmptyString -> 0 < r < 2 ^ 60 ->
  let before := RTT p (cplay ops NewClock) in
  let after := RTT p (cplay (ops ++ replicate k (OUpdate p r)) NewClock) in
  lo <= before <= hi /\ 4 ^ Z.of_nat k * Z.abs (after - r) <= 3 ^ Z.of_nat k * Z.abs (before - r) + 3 * (4 ^ Z.of_nat k - 3 ^ Z.of_nat k).
Proof.
  intros Hs Hl Hne Hp Hr before after. unfold before, after. rewrite !RTT_samples; [|apply Forall_app; split; [done|]; apply Forall_replicate; cbn; lia|done].
  assert (samples p (ops ++ replicate k (OUpdate p r)) = samples p ops ++ replicate k r) as ->.
  { unfold samples. rewrite omap_app. f_equal. induction k as [|k IH]; [done|]. cbn. rewrite decide_True by (split_and!; (done || lia)). by f_equal. }
  destruct (samples p ops) as [|x l]; [done|]. inversion Hl; subst. cbn [foldl app]. rewrite foldl_app. change (average None x) with (Some x).
  destruct (averages_between lo hi l) with (p := x) as (q & -> & Hq); [done..|]. split; [done|]. destruct (averages_closer r k q) as (q' & -> & Hq'). exact Hq'.
Qed.
Lemma rtt_follows_witness : let ops := [OUpdate "p" 80; OUpdate "p" 40] in
  40 <= RTT "p" (cplay ops NewClock) <= 80 /\
  4 ^ 3 * Z.abs (RTT "p" (cplay (ops ++ replicate 3 (OUpdate "p" 20)) NewClock) - 20) <= 3 ^ 3 * Z.abs (RTT "p" (cplay ops NewClock) - 20) + 3 * (4 ^ 3 - 3 ^ 3).
Proof. apply (rtt_follows [OUpdate "p" 80; OUpdate "p" 40] "p" 40 80 20 3); try done; repeat constructor; cbn; lia. Defined.

(** A shot is judged in the world of the frame that its input was recorded in last, less the frames its
    player's round trip takes, at least one: the snapshot kept that is the nearest at or before, and none
    if nothing was recorded or kept. *)
Theorem world_at_compensates {S} (zero : S) ops d es r p f t sf : Forall (fun e => 0 <= frame e) es -> PushAll (New zero d) es = Ret r ->
  recorded p f ops = Some sf -> uint64 sf -> 0 < t -> int64 (RTT p (cplay ops NewClock)) ->
  let rewind := Z.max 1 (RTT p (cplay ops NewClock) ÷ t) in
  let target := if sf <=? rewind then 1 else sf - rewind in
  exists best, nearest_in (lastn (Z.to_nat (if d <=? 0 then 64 else d)) es) target best /\
  WorldAt zero p f (Some (MkComp (Some (cplay ops NewClock)) (Some r) t)) =
    Ret match best with Some e => (snap e, frame e, true) | None => (zero, 0, false) end.
Proof.
  intros Hes Hr Hrec Hsf Ht Hi rewind target. unfold WorldAt. rewrite (proj2 (Z.leb_gt t 0)) by done.
  assert (RewindFrames p t (cplay ops NewClock) = rewind) as Erw.
  { unfold RewindFrames, rewind. rewrite (proj2 (Z.leb_gt t 0)) by done. set (x := RTT p _) in *. destruct (Z.leb_spec x 0).
    - assert (x ÷ t <= 0); [|lia]. destruct (Z.eq_dec x 0) as [->|]; [by rewrite Z.quot_0_l by lia|].
      pose proof (Z.quot_opp_l (- x) t ltac:(lia)) as Hq. rewrite Z.opp_involutive in Hq. rewrite Hq. pose proof (Z.quot_pos (- x) t ltac:(lia) ltac:(lia)). lia.
    - rewrite Z.quot_div_nonneg by lia. pose proof (Z.div_pos x t ltac:(lia) Ht). assert (x / t <= x) by (apply Z.div_le_upper_bound; nia).
      rewrite wrapu64_id by (unfold uint64, int64 in *; lia). destruct (Z.ltb_spec (x / t) 1); lia. }
  assert (CompensatedFrame p f t (cplay ops NewClock) = (target, true)) as ->.
  { unfold CompensatedFrame, ServerFrame. rewrite <- cplay_recorded in Hrec. destruct (byKey _ !! (p, f)) as [s|]; [|done]. injection Hrec as ->. cbn [negb].
    rewrite Erw. unfold target. destruct (Z.leb_spec sf rewind); [done|]. rewrite wrapu64_id; [done|]. unfold uint64 in *. unfold rewind in *. lia. }
  cbn [negb]. destruct (snapshots_kept zero d es target Hes) as (r' & Hr' & _ & (best & Hb & Hn) & _).
  - unfold target, uint64 in *. destruct (Z.leb_spec sf rewind); unfold rewind in *; lia.
  - rewrite Hr in Hr'. injection Hr' as <-. by exists best.
Qed.
Lemma world_at_compensates_witness : exists r best, PushAll (New ""%string 4) [MkEntry 7 "a"%string; MkEntry 8 "b"%string; MkEntry 10 "c"%string] = Ret r /\
  nearest_in [MkEntry 7 "a"%string; MkEntry 8 "b"%string; MkEntry 10 "c"%string] 9 best /\
  WorldAt ""%string "p" 3 (Some (MkComp (Some (cplay [ORecord 0 (MkSample "p" 3 11 (Some 5)); OUpdate "p" 100] NewClock)) (Some r) 50)) =
    Ret match best with Some e => (snap e, frame e, true) | None => (""%string, 0, false) end.
Proof.
  assert (exists r, PushAll (New ""%string 4) [MkEntry 7 "a"%string; MkEntry 8 "b"%string; MkEntry 10 "c"%string] = Ret r) as [r E] by (eexists; vm_compute; reflexivity).
  exists r. destruct (world_at_compensates ""%string [ORecord 0 (MkSample "p" 3 11 (Some 5)); OUpdate "p" 100] 4
    [MkEntry 7 "a"%string; MkEntry 8 "b"%string; MkEntry 10 "c"%string] r "p" 3 50 11) as (best & H1 & H2);
    [repeat constructor; cbn; lia|exact E|reflexivity|unfold uint64; lia|lia|vm_compute; split; [discriminate|reflexivity]|].
  exists best. split; [exact E|]. split; [exact H1|exact H2].
Defined.

(** A round trip of a century and another overflow the average: the estimate is negative, and the shot
    is rewound by one frame. *)
Theorem rtt_overflow : let c := cplay [OUpdate "p" (2 ^ 62); OUpdate "p" 1] NewClock in RTT "p" c < 0 /\ RewindFrames "p" 50 c = 1.
Proof. vm_compute. split; reflexivity. Qed.
