(* ===== verification/Match.v ===== *)
(** The session actor ([pkg/game/match/match.go]): one loop owns the state, runs a handler on batches of
    queued inputs, and fans its outputs out to the bounded queues of [Broadcast]; callers and loop interleave. *)
From Stdlib Require Import ZArith Lia Bool.
From stdpp Require Import base numbers strings list gmap sets.
From S2P Require Import Prelude Broadcast.

Open Scope Z_scope.

Section match_actor.
(** [S]: states, [I]: inputs, [O]: outputs, [P]: presences, [X]: the handler's errors. *)
Context {S I O P X : Type}.

Record Handler := MkHandler {
  Init : result X (S * Z);
  Tick : S -> list I -> list P -> list P -> result X (S * list O)
}.

Record config := MkConfig {
  tickRate : Z; inputQueue : Z; joinQueue : Z; leaveQueue : Z; callQueue : Z; subBufSize : Z; maxIdleSec : Z; subDropOldest : bool
}.
Definition default_config : config := MkConfig 10 128 64 64 64 64 0 true.
Definition WithTickRate (hz : Z) (c : config) : config :=
  if 0 <? hz then MkConfig hz (inputQueue c) (joinQueue c) (leaveQueue c) (callQueue c) (subBufSize c) (maxIdleSec c) (subDropOldest c) else c.
Definition WithInputQueue (n : Z) (c : config) : config :=
  if 0 <? n then MkConfig (tickRate c) n (joinQueue c) (leaveQueue c) (callQueue c) (subBufSize c) (maxIdleSec c) (subDropOldest c) else c.
Definition WithCallQueue (n : Z) (c : config) : config :=
  if 0 <? n then MkConfig (tickRate c) (inputQueue c) (joinQueue c) (leaveQueue c) n (subBufSize c) (maxIdleSec c) (subDropOldest c) else c.
Definition WithMaxIdleSec (sec : Z) (c : config) : config :=
  MkConfig (tickRate c) (inputQueue c) (joinQueue c) (leaveQueue c) (callQueue c) (subBufSize c) sec (subDropOldest c).
Definition WithSubBufferSize (n : Z) (c : config) : config :=
  if 0 <? n then MkConfig (tickRate c) (inputQueue c) (joinQueue c) (leaveQueue c) (callQueue c) n (maxIdleSec c) (subDropOldest c) else c.
Definition WithSubDropOldest (b : bool) (c : config) : config :=
  MkConfig (tickRate c) (inputQueue c) (joinQueue c) (leaveQueue c) (callQueue c) (subBufSize c) (maxIdleSec c) b.

Inductive mErr := Overloaded | HandlerErr (e : X).

(** What the loop executes: a frame, or a signal, known by its number. *)
Inductive call := CTick | CSignal (n : nat).

(** [state] is there once [Init] has succeeded; [alive] while the loop runs. *)
Record Match := MkMatch {
  cfg : config;
  inputCh : list I; joinCh : list P; leaveCh : list P; callCh : list call;
  stopped : bool; stopCh : bool;
  started : bool; alive : bool; done : bool;
  state : option S; rate : Z; tick : Z; err : option mErr;
  emptyTicks : Z; maxEmptyTicks : Z;
  chans : gmap nat (Broadcast.channel O); subs : gset nat; nextSub : nat
}.

Definition New (c : config) : Match :=
  MkMatch c [] [] [] [] false false false false false None 0 0 None 0 0 ∅ ∅ 0.

Definition set_queues (i : list I) (j l : list P) (c : list call) (m : Match) : Match :=
  MkMatch (cfg m) i j l c (stopped m) (stopCh m) (started m) (alive m) (done m) (state m) (rate m) (tick m) (err m)
    (emptyTicks m) (maxEmptyTicks m) (chans m) (subs m) (nextSub m).
Definition set_life (st sc a d : bool) (e : option mErr) (m : Match) : Match :=
  MkMatch (cfg m) (inputCh m) (joinCh m) (leaveCh m) (callCh m) st sc (started m) a d (state m) (rate m) (tick m) e
    (emptyTicks m) (maxEmptyTicks m) (chans m) (subs m) (nextSub m).
Definition set_subs (ch : gmap nat (Broadcast.channel O)) (ss : gset nat) (n : nat) (m : Match) : Match :=
  MkMatch (cfg m) (inputCh m) (joinCh m) (leaveCh m) (callCh m) (stopped m) (stopCh m) (started m) (alive m) (done m) (state m) (rate m) (tick m) (err m)
    (emptyTicks m) (maxEmptyTicks m) ch ss n.
Definition set_state (s : S) (n : Z) (m : Match) : Match :=
  MkMatch (cfg m) (inputCh m) (joinCh m) (leaveCh m) (callCh m) (stopped m) (stopCh m) (started m) (alive m) (done m) (Some s) (rate m) n (err m)
    (emptyTicks m) (maxEmptyTicks m) (chans m) (subs m) (nextSub m).
Definition set_empty (n : Z) (m : Match) : Match :=
  MkMatch (cfg m) (inputCh m) (joinCh m) (leaveCh m) (callCh m) (stopped m) (stopCh m) (started m) (alive m) (done m) (state m) (rate m) (tick m) (err m)
    n (maxEmptyTicks m) (chans m) (subs m) (nextSub m).

Definition Stop (m : Match) : Match := if stopCh m then m else set_life true true (alive m) (done m) (err m) m.

(** [Start], with the error it returns; the goroutine makes its ticker first, which panics on an interval
    of nothing. *)
Definition Start (h : Handler) (m : Match) : go (Match * option X) :=
  if started m then Ret (m, None)
  else
    match Init h with
    | Err e =>
        Ret (MkMatch (cfg m) (inputCh m) (joinCh m) (leaveCh m) (callCh m) true (stopCh m) true (alive m) true (state m) (rate m) (tick m) (err m)
               (emptyTicks m) (maxEmptyTicks m) (chans m) (subs m) (nextSub m), Some e)
    | Ok (s, r) =>
        let r := if r <=? 0 then tickRate (cfg m) else r in
        if 10 ^ 9 ÷ r <=? 0 then Panic "non-positive interval for NewTicker"
        else
          Ret (MkMatch (cfg m) (inputCh m) (joinCh m) (leaveCh m) (callCh m) (stopped m) (stopCh m) true true (done m) (Some s) r (tick m) (err m)
                 (emptyTicks m) (wrap64 (r * maxIdleSec (cfg m))) (chans m) (subs m) (nextSub m), None)
    end.

(** A send that does not wait. *)
Definition offer {A} (cap : Z) (x : A) (q : list A) : option (list A) :=
  if Z.of_nat (length q) <? cap then Some (q ++ [x]) else None.

Definition QueueInput (x : I) (m : Match) : Match * bool :=
  if stopped m then (m, false)
  else match offer (inputQueue (cfg m)) x (inputCh m) with
       | Some q => (set_queues q (joinCh m) (leaveCh m) (callCh m) m, true)
       | None => (m, false)
       end.
Definition QueueJoin (p : P) (m : Match) : Match * bool :=
  if stopped m then (m, false)
  else match offer (joinQueue (cfg m)) p (joinCh m) with
       | Some q => (set_queues (inputCh m) q (leaveCh m) (callCh m) m, true)
       | None => (m, false)
       end.
Definition QueueLeave (p : P) (m : Match) : Match * bool :=
  if stopped m then (m, false)
  else match offer (leaveQueue (cfg m)) p (leaveCh m) with
       | Some q => (set_queues (inputCh m) (joinCh m) q (callCh m) m, true)
       | None => (m, false)
       end.

Definition queueCall (c : call) (m : Match) : Match * bool :=
  if stopped m then (m, false)
  else match offer (callQueue (cfg m)) c (callCh m) with
       | Some q => (set_queues (inputCh m) (joinCh m) (leaveCh m) q m, true)
       | None => (Stop (set_life (stopped m) (stopCh m) (alive m) (done m) (Some Overloaded) m), false)
       end.
Definition Signal (n : nat) (m : Match) : Match * bool :=
  if stopped m then (m, false) else queueCall (CSignal n) m.

(** [Subscribe] after its test, which a stopped session answers with a closed channel. *)
Definition subscribe (m : Match) : Match := set_subs (<[nextSub m := Broadcast.fresh false]> (chans m)) (subs m ∪ {[nextSub m]}) (nextSub m + 1)%nat m.
Definition unsubscribe (s : nat) (m : Match) : Match :=
  if decide (s ∈ subs m) then set_subs (alter Broadcast.close_chan s (chans m)) (subs m ∖ {[s]}) (nextSub m) m else m.
Definition closeSubs (m : Match) : Match :=
  set_subs (foldr (fun s ch => alter Broadcast.close_chan s ch) (chans m) (elements (subs m))) ∅ (nextSub m) m.

(** The only sender is the loop; what a subscriber receives meanwhile counts as before or after. *)
Definition send (o : O) (s : nat) (m : Match) : go Match :=
  match chans m !! s with
  | None => Ret m
  | Some c =>
      let room c := Z.of_nat (length (Broadcast.buf c)) <? subBufSize (cfg m) in
      let set c := set_subs (<[s := c]> (chans m)) (subs m) (nextSub m) m in
      if Broadcast.cclosed c then Panic "send on closed channel"
      else if room c then Ret (set (Broadcast.put o c))
      else if negb (subDropOldest (cfg m)) then Ret m
      else
        let c := Broadcast.take_out false c in
        Ret (if room c then set (Broadcast.put o c) else set c)
  end.
Fixpoint send_each (o : O) (l : list nat) (m : Match) : go Match :=
  match l with [] => Ret m | s :: l => m ← send o s m; send_each o l m end.
(** Each subscriber has a channel of its own, so that the order of the range does not matter. *)
Definition fanout (o : O) (m : Match) : go Match := send_each o (elements (subs m)) m.
Fixpoint fanout_all (outs : list O) (m : Match) : go Match :=
  match outs with [] => Ret m | o :: outs => m ← fanout o m; fanout_all outs m end.

Definition subscriberCount (m : Match) : Z := Z.of_nat (size (subs m)).

Definition is_nil {A} (l : list A) : bool := match l with [] => true | _ => false end.

(** One frame; a batch is what is queued when it begins. *)
Definition drainAndTick (h : Handler) (s : S) (m : Match) : go Match :=
  let inputs := inputCh m in
  let joins := joinCh m in
  let leaves := leaveCh m in
  let m := set_queues [] [] [] (callCh m) m in
  match Tick h s inputs joins leaves with
  | Err e => Ret (Stop (set_life (stopped m) (stopCh m) (alive m) (done m) (Some (HandlerErr e)) m))
  | Ok (s', outs) =>
      let m := set_state s' (tick m + 1) m in
      m ← fanout_all outs m;
      Ret (if is_nil inputs && is_nil outs && (subscriberCount m =? 0) then
        let m := set_empty (emptyTicks m + 1) m in
        if (0 <? maxEmptyTicks m) && (maxEmptyTicks m <=? emptyTicks m) then Stop m else m
      else set_empty 0 m)
  end.

(** The end of the loop: its deferred calls. *)
Definition leave_loop (m : Match) : Match :=
  let m := closeSubs m in set_life (stopped m) (stopCh m) false true (err m) m.

Definition Wait (m : Match) : option (option mErr) := if done m then Some (err m) else None.
Definition Stopped (m : Match) : bool := stopped m.
Definition TickCount (m : Match) : Z := tick m.
Definition Rate (m : Match) : Z := rate m.

(** ** Interleavings *)

(** What was handed to one frame. *)
Record batch := MkBatch { b_inputs : list I; b_joins : list P; b_leaves : list P }.

(** With the session: the inputs, joins and leaves accepted, the batches handed to the handler, the outputs
    fanned out, the signals executed and the states they saw, the [Subscribe] calls past their test. *)
Record system := MkSys {
  mt : Match; acc : batch; batches : list batch; outputs : list O; signals : list (nat * S); subscribing : nat
}.

Definition start (c : config) : system := MkSys (New c) (MkBatch [] [] []) [] [] [] 0.

Inductive action :=
| AStart | AInput (x : I) | AJoin (p : P) | ALeave (p : P) | ASignal (n : nat)
| ASubCheck | ASubscribe | AUnsubscribe (s : nat) | AReceive (s : nat) | AStop
| ATicker | ACall | AExit.

Definition with_mt (m : Match) (y : system) : system := MkSys m (acc y) (batches y) (outputs y) (signals y) (subscribing y).

Definition frame_outputs (h : Handler) (s : S) (b : batch) : list O :=
  match Tick h s (b_inputs b) (b_joins b) (b_leaves b) with Ok (_, outs) => outs | Err _ => [] end.

(** The loop executes the first call of its queue. *)
Definition execute (h : Handler) (y : system) : go system :=
  let m := mt y in
  match callCh m, state m with
  | c :: q, Some s =>
      let m := set_queues (inputCh m) (joinCh m) (leaveCh m) q m in
      match c with
      | CSignal n => Ret (MkSys m (acc y) (batches y) (outputs y) (signals y ++ [(n, s)]) (subscribing y))
      | CTick =>
          let b := MkBatch (inputCh m) (joinCh m) (leaveCh m) in
          m ← drainAndTick h s m;
          Ret (MkSys m (acc y) (batches y ++ [b]) (outputs y ++ frame_outputs h s b) (signals y) (subscribing y))
      end
  | _, _ => Ret y
  end.

Definition act (h : Handler) (a : action) (y : system) : go system :=
  let m := mt y in
  match a with
  | AStart => '(m, _) ← Start h m; Ret (with_mt m y)
  | AInput x => let '(m, ok) := QueueInput x m in
      Ret (MkSys m (if ok then MkBatch (b_inputs (acc y) ++ [x]) (b_joins (acc y)) (b_leaves (acc y)) else acc y) (batches y) (outputs y) (signals y) (subscribing y))
  | AJoin p => let '(m, ok) := QueueJoin p m in
      Ret (MkSys m (if ok then MkBatch (b_inputs (acc y)) (b_joins (acc y) ++ [p]) (b_leaves (acc y)) else acc y) (batches y) (outputs y) (signals y) (subscribing y))
  | ALeave p => let '(m, ok) := QueueLeave p m in
      Ret (MkSys m (if ok then MkBatch (b_inputs (acc y)) (b_joins (acc y)) (b_leaves (acc y) ++ [p]) else acc y) (batches y) (outputs y) (signals y) (subscribing y))
  | ASignal n => Ret (with_mt (Signal n m).1 y)
  | ASubCheck => Ret (if stopped m then y else MkSys m (acc y) (batches y) (outputs y) (signals y) (Datatypes.S (subscribing y)))
  | ASubscribe =>
      Ret (match subscribing y with
           | 0%nat => y
           | Datatypes.S k => MkSys (subscribe m) (acc y) (batches y) (outputs y) (signals y) k end)
  | AUnsubscribe s => Ret (with_mt (unsubscribe s m) y)
  | AReceive s => Ret (with_mt (set_subs (alter (Broadcast.take_out true) s (chans m)) (subs m) (nextSub m) m) y)
  | AStop => Ret (with_mt (Stop m) y)
  | ATicker =>
      if alive m then
        let '(m, ok) := queueCall CTick m in Ret (with_mt (if ok : bool then m else leave_loop m) y)
      else Ret y
  | ACall => if alive m then execute h y else Ret y
  | AExit => Ret (if alive m && stopCh m then with_mt (leave_loop m) y else y)
  end.

Fixpoint run (h : Handler) (acts : list action) (y : system) : go system :=
  match acts with [] => Ret y | a :: acts => y ← act h a y; run h acts y end.

(** * What is kept *)

(** The session against its history: a frame that fails leaves the state. *)
Definition frame (h : Handler) (s : S) (b : batch) : S :=
  match Tick h s (b_inputs b) (b_joins b) (b_leaves b) with Ok (s', _) => s' | Err _ => s end.
Fixpoint frames_done (h : Handler) (s : S) (bs : list batch) : Z :=
  match bs with
  | [] => 0
  | b :: bs => (match Tick h s (b_inputs b) (b_joins b) (b_leaves b) with Ok _ => 1 | Err _ => 0 end) + frames_done h (frame h s b) bs
  end.

Definition history_ok (h : Handler) (y : system) : Prop :=
  match state (mt y) with
  | Some s => exists s0 r, Init h = Ok (s0, r) /\ s = foldl (frame h) s0 (batches y) /\ tick (mt y) = frames_done h s0 (batches y)
  | None => batches y = [] /\ tick (mt y) = 0 /\ alive (mt y) = false /\ outputs y = []
  end.

Definition queues_ok (y : system) : Prop :=
  let m := mt y in
  b_inputs (acc y) = (batches y ≫= b_inputs) ++ inputCh m /\
  b_joins (acc y) = (batches y ≫= b_joins) ++ joinCh m /\
  b_leaves (acc y) = (batches y ≫= b_leaves) ++ leaveCh m /\
  Z.of_nat (length (inputCh m)) <= Z.max 0 (inputQueue (cfg m)) /\ Z.of_nat (length (joinCh m)) <= Z.max 0 (joinQueue (cfg m)) /\
  Z.of_nat (length (leaveCh m)) <= Z.max 0 (leaveQueue (cfg m)) /\ Z.of_nat (length (callCh m)) <= Z.max 0 (callQueue (cfg m)).

(** A subscriber's channel is open as long as it is registered; with the oldest dropped, everything fanned
    out since goes into it. *)
Definition chan_kept (m : Match) (outs : list O) (s : nat) (c : Broadcast.channel O) : Prop :=
  (s < nextSub m)%nat /\ Broadcast.chan_ok c (Z.max 0 (subBufSize (cfg m))) /\ (Broadcast.cclosed c = false <-> s ∈ subs m) /\
  (subDropOldest (cfg m) = true -> 0 < subBufSize (cfg m) ->
     exists pre post, outs = pre ++ Broadcast.sent c ++ post /\ (s ∈ subs m -> post = [])).

Definition subs_ok (y : system) : Prop :=
  (forall s c, chans (mt y) !! s = Some c -> chan_kept (mt y) (outputs y) s c) /\
  (forall s, s ∈ subs (mt y) -> is_Some (chans (mt y) !! s)).

Definition life_ok (y : system) : Prop :=
  let m := mt y in
  (stopCh m = true -> stopped m = true) /\ (done m = true -> alive m = false /\ stopped m = true /\ started m = true) /\ (alive m = true -> started m = true /\ state m <> None) /\
  (started m = false -> state m = None).

Definition kept (h : Handler) (y : system) : Prop := history_ok h y /\ queues_ok y /\ subs_ok y /\ life_ok y.

Lemma start_kept h c : kept h (start c).
Proof.
  split; [done|]. split; [unfold queues_ok; cbn; split_and!; (done || lia)|]. split; [split; [done|set_solver]|]. unfold life_ok; cbn. split_and!; done.
Qed.

Lemma offer_room {A} cap (x : A) q q' : offer cap x q = Some q' -> q' = q ++ [x] /\ Z.of_nat (length q') <= Z.max 0 cap.
Proof. unfold offer. destruct (Z.ltb_spec (Z.of_nat (length q)) cap); [|done]. intros [= <-]. rewrite length_app; cbn. split; [done|lia]. Qed.

(** *** Subscribers *)

Lemma chan_kept_frame m m' outs s c : nextSub m' = nextSub m -> cfg m' = cfg m -> subs m' = subs m -> chan_kept m outs s c -> chan_kept m' outs s c.
Proof. unfold chan_kept. by intros -> -> ->. Qed.

(** What is said of the subscribers of a session, its outputs and the number of the next. *)
Definition subs_kept (m : Match) (outs : list O) : Prop :=
  (forall s c, chans m !! s = Some c -> chan_kept m outs s c) /\ (forall s, s ∈ subs m -> is_Some (chans m !! s)).

Lemma subs_frame m m' outs : nextSub m' = nextSub m -> cfg m' = cfg m -> subs m' = subs m -> chans m' = chans m -> subs_kept m outs -> subs_kept m' outs.
Proof. intros H1 H2 H3 H4 [Hc Hs]. split; rewrite H4, ?H3; [|done]. intros s c E. by apply (chan_kept_frame m), Hc. Qed.

Lemma Stop_subs m : chans (Stop m) = chans m /\ subs (Stop m) = subs m /\ nextSub (Stop m) = nextSub m /\ cfg (Stop m) = cfg m.
Proof. unfold Stop. by destruct (stopCh m). Qed.

Lemma subscribe_kept m outs : subs_kept m outs -> subs_kept (subscribe m) outs.
Proof.
  intros [Hc Hs]. split; cbn.
  - intros s c [[<- <-]|[Hn E]]%lookup_insert_Some.
    + unfold chan_kept; cbn. split; [lia|]. split; [split; cbn; [done|lia]|]. split; [clear; set_solver|]. intros _ _. exists outs, []. by rewrite app_nil_r.
    + destruct (Hc s c E) as (H1 & H2 & H3 & H4). unfold chan_kept; cbn. split; [lia|]. assert (s ∈ subs m ∪ {[nextSub m]} <-> s ∈ subs m) as Hi by (clear -Hn; set_solver). split; [done|]. split; [by rewrite H3, Hi|].
      intros Hd Hb. destruct (H4 Hd Hb) as (pre & post & E' & Hp). exists pre, post. split; [done|]. by rewrite Hi.
  - intros s Hin. destruct (decide (s = nextSub m)) as [->|Hn]; [by rewrite lookup_insert_eq|]. rewrite lookup_insert_ne by done. apply Hs. clear -Hin Hn. set_solver.
Qed.

Lemma closed_kept m outs s c (ss : gset nat) : chan_kept m outs s c -> s ∉ ss -> chan_kept (set_subs (chans m) ss (nextSub m) m) outs s (Broadcast.close_chan c).
Proof.
  intros (H1 & H2 & H3 & H4) Hn. unfold chan_kept; cbn. split; [done|]. split; [by destruct H2|]. split; [by split|].
  intros Hd Hb. destruct (H4 Hd Hb) as (pre & post & E & Hp). exists pre, post. by split.
Qed.

Lemma unsubscribe_kept s m outs : subs_kept m outs -> subs_kept (unsubscribe s m) outs.
Proof.
  intros [Hc Hs]. unfold unsubscribe. destruct (decide (s ∈ subs m)) as [Hin|]; [|done]. split; cbn.
  - intros s' c'. destruct (decide (s' = s)) as [->|Hn].
    + rewrite lookup_alter_eq. destruct (chans m !! s) as [c|] eqn:E; [|done]. intros [= <-]. apply (closed_kept m outs s c (subs m ∖ {[s]})); [by apply Hc|clear; set_solver].
    + rewrite lookup_alter_ne by done. intros E. destruct (Hc s' c' E) as (H1 & H2 & H3 & H4). unfold chan_kept; cbn. assert (s' ∈ subs m ∖ {[s]} <-> s' ∈ subs m) as Hi by (clear -Hn; set_solver). split; [done|]. split; [done|]. split; [by rewrite H3, Hi|].
      intros Hd Hb. destruct (H4 Hd Hb) as (pre & post & E' & Hp). exists pre, post. split; [done|]. by rewrite Hi.
  - intros s' [Hs' Hn]%elem_of_difference. rewrite lookup_alter_ne by (intros ->; apply Hn; by apply elem_of_singleton). by apply Hs.
Qed.

Lemma closeSubs_lookup m s : chans (closeSubs m) !! s = (if decide (s ∈ subs m) then Broadcast.close_chan else id) <$> chans m !! s.
Proof.
  unfold closeSubs. cbn. rewrite Broadcast.close_all. by destruct (decide (s ∈ subs m)); [rewrite decide_True by set_solver|rewrite decide_False by set_solver].
Qed.

Lemma closeSubs_kept m outs : subs_kept m outs -> subs_kept (closeSubs m) outs /\ forall s c, chans (closeSubs m) !! s = Some c -> Broadcast.cclosed c = true.
Proof.
  intros [Hc Hs].
  assert (forall s c, chans (closeSubs m) !! s = Some c -> chan_kept (closeSubs m) outs s c) as Hk.
  { intros s c. rewrite closeSubs_lookup. destruct (chans m !! s) as [c0|] eqn:E; [|done]. intros [= <-]. destruct (Hc s c0 E) as (H1 & H2 & H3 & H4).
    case_decide as Hin; [apply (closed_kept m outs s c0 ∅); [by apply Hc|apply not_elem_of_empty]|]. unfold id, chan_kept; cbn. split; [done|]. split; [done|].
    split; [rewrite H3; split; [done|by intros ?%not_elem_of_empty]|]. intros Hd Hb. destruct (H4 Hd Hb) as (pre & post & E' & Hp). exists pre, post. split; [done|]. by intros ?%not_elem_of_empty. }
  split; [split; [exact Hk|by intros s ?%not_elem_of_empty]|]. intros s c E. destruct (Hk s c E) as (_ & _ & H3 & _). destruct (Broadcast.cclosed c); [done|]. exfalso. destruct H3 as [H3 _]. by specialize (H3 eq_refl) as ?%not_elem_of_empty.
Qed.

Lemma receive_kept s m outs : subs_kept m outs -> subs_kept (set_subs (alter (Broadcast.take_out true) s (chans m)) (subs m) (nextSub m) m) outs.
Proof.
  intros [Hc Hs]. split; cbn.
  - intros s' c'. destruct (decide (s' = s)) as [->|Hn]; [|rewrite lookup_alter_ne by done; by apply Hc].
    rewrite lookup_alter_eq. destruct (chans m !! s) as [c|] eqn:E; [|done]. intros [= <-]. destruct (Hc s c E) as (H1 & H2 & H3 & H4).
    unfold chan_kept; cbn. split; [done|]. split; [by apply Broadcast.take_out_ok|]. split; unfold Broadcast.take_out; by destruct (Broadcast.buf c).
  - intros s' Hin. destruct (decide (s' = s)) as [->|Hn]; [rewrite lookup_alter_eq; apply fmap_is_Some; by apply Hs|]. rewrite lookup_alter_ne by done. by apply Hs.
Qed.

(** *** The fan-out *)

(** Only the channels differ. *)
Definition same_but_chans (m m' : Match) : Prop := m' = set_subs (chans m') (subs m) (nextSub m) m.

Lemma same_refl m : same_but_chans m m.
Proof. by destruct m. Qed.
Lemma same_set ch m : same_but_chans m (set_subs ch (subs m) (nextSub m) m).
Proof. done. Qed.
Lemma same_trans m1 m2 m3 : same_but_chans m1 m2 -> same_but_chans m2 m3 -> same_but_chans m1 m3.
Proof. unfold same_but_chans. intros E2 E3. rewrite E3, E2. done. Qed.

Lemma chan_kept_closed m outs o s c : chan_kept m outs s c -> s ∉ subs m -> chan_kept m (outs ++ [o]) s c.
Proof.
  intros (H1 & H2 & H3 & H4) Hn. split; [done|]. split; [done|]. split; [done|]. intros Hd Hb. destruct (H4 Hd Hb) as (pre & post & -> & _).
  exists pre, (post ++ [o]). by rewrite <- !app_assoc.
Qed.

(** The queue has the output now, or drops it when that is the policy. *)
Lemma chan_kept_put m outs o s c : chan_kept m outs s c -> s ∈ subs m -> Z.of_nat (length (Broadcast.buf c)) < Z.max 0 (subBufSize (cfg m)) -> chan_kept m (outs ++ [o]) s (Broadcast.put o c).
Proof.
  intros (H1 & H2 & H3 & H4) Hin Hr. split; [done|]. split; [by apply Broadcast.put_ok|]. split; [done|]. intros Hd Hb. destruct (H4 Hd Hb) as (pre & post & -> & Hp).
  exists pre, []. rewrite (Hp Hin), !app_nil_r. cbn. by rewrite app_assoc.
Qed.
Lemma chan_kept_take m outs s c : chan_kept m outs s c -> chan_kept m outs s (Broadcast.take_out false c).
Proof.
  intros (H1 & H2 & H3 & H4). split; [done|]. split; [by apply Broadcast.take_out_ok|]. unfold Broadcast.take_out. by destruct (Broadcast.buf c).
Qed.
Lemma chan_kept_drop m outs o s c : chan_kept m outs s c -> subDropOldest (cfg m) = false \/ subBufSize (cfg m) <= 0 -> chan_kept m (outs ++ [o]) s c.
Proof. intros (H1 & H2 & H3 & H4) Hd. split; [done|]. split; [done|]. split; [done|]. intros. destruct Hd; [congruence|lia]. Qed.

Lemma match_send_spec o s c m outs : chans m !! s = Some c -> chan_kept m outs s c -> s ∈ subs m ->
  exists m' c', send o s m = Ret m' /\ same_but_chans m m' /\ chans m' = <[s := c']> (chans m) /\ chan_kept m (outs ++ [o]) s c'.
Proof.
  intros E Hk Hin. pose proof Hk as (_ & Hok & Hcl & _). unfold send. rewrite E. rewrite (proj2 Hcl Hin).
  destruct (Z.ltb_spec (Z.of_nat (length (Broadcast.buf c))) (subBufSize (cfg m))) as [Hr|Hr].
  { eexists _, _. split; [done|]. split; [apply same_set|]. split; [done|]. apply chan_kept_put; (done || lia). }
  destruct (subDropOldest (cfg m)) eqn:Ed; cbn [negb].
  2:{ exists m, c. split; [done|]. split; [apply same_refl|]. split; [by rewrite insert_id|]. apply chan_kept_drop; auto. }
  set (c1 := Broadcast.take_out false c). pose proof (chan_kept_take m outs s c Hk) as Hk1. fold c1 in Hk1.
  destruct (Z.ltb_spec (Z.of_nat (length (Broadcast.buf c1))) (subBufSize (cfg m))) as [Hr1|Hr1].
  - eexists _, _. split; [done|]. split; [apply same_set|]. split; [done|]. apply chan_kept_put; (done || lia).
  - eexists _, _. split; [done|]. split; [apply same_set|]. split; [done|]. apply chan_kept_drop; [done|]. right.
    destruct Hok as [_ Hl]. unfold c1, Broadcast.take_out in Hr1. destruct (Broadcast.buf c) eqn:Eb; [rewrite Eb in Hr1|]; cbn in *; lia.
Qed.

Lemma send_each_spec o l : forall m outs, NoDup l -> (forall s, s ∈ l -> s ∈ subs m) -> (forall s, s ∈ subs m -> is_Some (chans m !! s)) ->
  (forall s c, chans m !! s = Some c -> chan_kept m (if decide (s ∈ l) then outs else outs ++ [o]) s c) ->
  exists m', send_each o l m = Ret m' /\ same_but_chans m m' /\ subs_kept m' (outs ++ [o]).
Proof.
  induction l as [|s l IH]; intros m outs Hnd Hl Hs Hc; cbn [send_each].
  - exists m. split; [done|]. split; [apply same_refl|]. split; [|done]. intros s c E. specialize (Hc s c E). by rewrite decide_False in Hc by apply not_elem_of_nil.
  - apply NoDup_cons in Hnd as [Hni Hnd]. assert (s ∈ subs m) as Hin by (apply Hl; left). destruct (Hs s Hin) as [c E].
    pose proof (Hc s c E) as Hk. rewrite decide_True in Hk by left. destruct (match_send_spec o s c m outs E Hk Hin) as (m1 & c1 & -> & Hm1 & Hch & Hk1). cbn [mbind go_bind].
    destruct (IH m1 outs Hnd) as (m2 & E2 & Hm2 & Hk2).
    + rewrite Hm1. cbn. intros s' Hs'. apply Hl. by right.
    + rewrite Hm1. cbn. rewrite Hch. intros s' Hs'. destruct (decide (s' = s)) as [->|Hd]; [by rewrite lookup_insert_eq|]. rewrite lookup_insert_ne by done. by apply Hs.
    + intros s' c' E'. rewrite Hch in E'. apply (chan_kept_frame m); [by rewrite Hm1..|]. apply lookup_insert_Some in E' as [[<- <-]|[Hd E']].
      * by rewrite decide_False.
      * specialize (Hc s' c' E'). destruct (decide (s' ∈ l)); [by rewrite decide_True in Hc by (by right)|].
        rewrite decide_False in Hc; [done|]. by intros [->|?]%elem_of_cons.
    + exists m2. split; [done|]. split; [by eapply same_trans|done].
Qed.

Lemma fanout_spec o m outs : subs_kept m outs -> exists m', fanout o m = Ret m' /\ same_but_chans m m' /\ subs_kept m' (outs ++ [o]).
Proof.
  intros [Hc Hs]. apply send_each_spec; [apply NoDup_elements|intros s; by rewrite elem_of_elements|done|]. intros s c E. specialize (Hc s c E).
  case_decide as Hd; [done|]. rewrite elem_of_elements in Hd. by apply chan_kept_closed.
Qed.

Lemma fanout_all_spec l : forall m outs, subs_kept m outs -> exists m', fanout_all l m = Ret m' /\ same_but_chans m m' /\ subs_kept m' (outs ++ l).
Proof.
  induction l as [|o l IH]; intros m outs Hk; cbn.
  - exists m. rewrite app_nil_r. split; [done|]. split; [apply same_refl|done].
  - destruct (fanout_spec o m outs Hk) as (m1 & -> & Hm1 & Hk1). cbn. destruct (IH m1 _ Hk1) as (m2 & -> & Hm2 & Hk2). exists m2. split; [done|].
    split; [by eapply same_trans|]. by rewrite <- app_assoc in Hk2.
Qed.

(** *** A frame *)

(** What a frame leaves of the session. *)
Lemma drainAndTick_spec h s m outs : subs_kept m outs -> exists m', drainAndTick h s m = Ret m' /\
  subs_kept m' (outs ++ frame_outputs h s (MkBatch (inputCh m) (joinCh m) (leaveCh m))) /\
  state m' = match Tick h s (inputCh m) (joinCh m) (leaveCh m) with Ok (s', _) => Some s' | Err _ => state m end /\
  tick m' = tick m + match Tick h s (inputCh m) (joinCh m) (leaveCh m) with Ok _ => 1 | Err _ => 0 end /\
  cfg m' = cfg m /\ inputCh m' = [] /\ joinCh m' = [] /\ leaveCh m' = [] /\ callCh m' = callCh m /\
  started m' = started m /\ alive m' = alive m /\ done m' = done m /\ (stopped m = true -> stopped m' = true) /\ (stopCh m' = true -> stopCh m = true \/ stopped m' = true).
Proof.
  intros Hk. unfold drainAndTick, frame_outputs. cbn [b_inputs b_joins b_leaves]. set (m0 := set_queues [] [] [] (callCh m) m).
  destruct (Tick h s (inputCh m) (joinCh m) (leaveCh m)) as [[s' l]|e].
  - destruct (fanout_all_spec l (set_state s' (tick m0 + 1) m0) outs) as (m1 & -> & Hm1 & Hk1); [by apply (subs_frame m)|]. cbn [mbind go_bind]. eexists. split; [done|].
    assert (forall m2, m2 = m1 \/ m2 = Stop m1 -> forall n, let m3 := set_empty n m2 in subs_kept m3 (outs ++ l) /\ state m3 = Some s' /\ tick m3 = tick m + 1 /\
      cfg m3 = cfg m /\ inputCh m3 = [] /\ joinCh m3 = [] /\ leaveCh m3 = [] /\ callCh m3 = callCh m /\
      started m3 = started m /\ alive m3 = alive m /\ done m3 = done m /\ (stopped m = true -> stopped m3 = true) /\ (stopCh m3 = true -> stopCh m = true \/ stopped m3 = true)) as Hg.
    { intros m2 Hm2 n. cbv zeta. assert (subs_kept (set_empty n m2) (outs ++ l)) as Hk2.
      { destruct Hm2 as [->| ->]; [by apply (subs_frame m1)|]. destruct (Stop_subs m1) as (? & ? & ? & ?). by apply (subs_frame m1). }
      split; [exact Hk2|]. clear Hk2 Hk1. destruct Hm2 as [->| ->]; [rewrite Hm1; cbn; split_and!; auto|]. unfold Stop. rewrite Hm1. cbn. destruct (stopCh m) eqn:Es; cbn; split_and!; auto. }
    assert (forall n, Stop (set_empty n m1) = set_empty n (Stop m1)) as HS by (intros n; unfold Stop; cbn; by destruct (stopCh m1)).
    destruct (_ && _); [|apply Hg; auto]. destruct (_ && _); [rewrite HS|]; apply Hg; auto.
  - eexists. split; [done|]. rewrite app_nil_r. split.
    { destruct (Stop_subs (set_life (stopped m0) (stopCh m0) (alive m0) (done m0) (Some (HandlerErr e)) m0)) as (? & ? & ? & ?). by apply (subs_frame m). }
    unfold Stop; cbn. destruct (stopCh m) eqn:Es; cbn; split_and!; auto; lia.
Qed.

(** *** Every step *)

(** A change of the session that keeps its queues, its state and what it hands out. *)
Definition same_core (m m' : Match) : Prop :=
  inputCh m' = inputCh m /\ joinCh m' = joinCh m /\ leaveCh m' = leaveCh m /\ state m' = state m /\ tick m' = tick m /\ cfg m' = cfg m /\
  Z.of_nat (length (callCh m')) <= Z.max 0 (callQueue (cfg m)).

Lemma kept_core h m' y : kept h y -> same_core (mt y) m' -> (alive (mt y) = false -> alive m' = false) ->
  subs_kept m' (outputs y) -> life_ok (with_mt m' y) -> kept h (with_mt m' y).
Proof.
  intros (Hh & Hq & Hs & _) (E1 & E2 & E3 & E4 & E5 & E6 & E7) Ha Hs' Hl. split; [|split; [|split; [exact Hs'|done]]].
  - unfold history_ok in *. cbn. rewrite E4, E5. destruct (state (mt y)); [done|]. destruct Hh as (? & ? & ? & ?). split_and!; auto.
  - unfold queues_ok in *. cbn. rewrite E1, E2, E3, E6. destruct Hq as (? & ? & ? & ? & ? & ? & _). split_and!; done.
Qed.

Lemma Stop_core m : Z.of_nat (length (callCh m)) <= Z.max 0 (callQueue (cfg m)) -> same_core m (Stop m).
Proof. intros Hc. unfold Stop. destruct (stopCh m); by split_and!. Qed.

Lemma kept_calls h y : kept h y -> Z.of_nat (length (callCh (mt y))) <= Z.max 0 (callQueue (cfg (mt y))).
Proof. by intros (_ & (_ & _ & _ & _ & _ & _ & H) & _). Qed.

Lemma kept_stop h y : kept h y -> kept h (with_mt (Stop (mt y)) y).
Proof.
  intros Hk. pose proof Hk as (_ & _ & Hs & Hl). pose proof Hl as (Hl1 & Hl2 & Hl3 & Hl4). destruct (Stop_subs (mt y)) as (? & ? & ? & ?). apply kept_core; [done|apply Stop_core; by eapply kept_calls| |by apply (subs_frame (mt y))|].
  - unfold Stop. by destruct (stopCh (mt y)).
  - unfold Stop. destruct (stopCh (mt y)) eqn:E; [by destruct y|]. unfold life_ok; cbn. split_and!; try done. intros Hd. by destruct (Hl2 Hd) as (? & ? & ?).
Qed.

Lemma kept_call h c y : kept h y -> let '(m, ok) := queueCall c (mt y) in kept h (with_mt m y) /\ (ok = false -> stopped m = true) /\ alive m = alive (mt y).
Proof.
  intros Hk. pose proof Hk as (_ & _ & Hs & Hl). unfold queueCall. destruct (stopped (mt y)) eqn:Est; [by destruct y|]. destruct (offer _ c (callCh (mt y))) as [q|] eqn:E.
  - apply offer_room in E as [-> Hr]. split; [|done]. apply kept_core; try done.
  - set (m0 := set_life _ _ _ _ (Some Overloaded) (mt y)). split; [|split; [intros _; unfold Stop; cbn; destruct Hl as [Hl _]; destruct (stopCh (mt y)) eqn:Esc; [by rewrite Hl in Est|done]|unfold Stop; by destruct (stopCh m0)]].
    assert (kept h (with_mt m0 y)) as Hk0.
    { apply kept_core; try done; [by split_and!; try done; eapply kept_calls|unfold life_ok in *; rewrite Est in Hl; exact Hl]. }
    exact (kept_stop h _ Hk0).
Qed.

Lemma kept_leave h y : kept h y -> stopped (mt y) = true -> alive (mt y) = true -> kept h (with_mt (leave_loop (mt y)) y).
Proof.
  intros Hk Hst Ha. pose proof Hk as (_ & _ & Hs & Hl). pose proof Hl as (Hl1 & Hl2 & Hl3 & Hl4). apply kept_core; [done| |done| |].
  - split_and!; try done. by eapply kept_calls.
  - destruct (closeSubs_kept (mt y) (outputs y) Hs) as [Hc _]. by apply (subs_frame (closeSubs (mt y))).
  - split; [by intros _|]. cbn. split; [|by split_and!]. intros _. split; [done|]. split; [done|]. by apply Hl3.
Qed.

Lemma foldl_frame h s bs b : foldl (frame h) s (bs ++ [b]) = frame h (foldl (frame h) s bs) b.
Proof. by rewrite foldl_app. Qed.

Lemma frames_done_app h b bs : forall s, frames_done h s (bs ++ [b]) = frames_done h s bs +
  match Tick h (foldl (frame h) s bs) (b_inputs b) (b_joins b) (b_leaves b) with Ok _ => 1 | Err _ => 0 end.
Proof. induction bs as [|b' bs IH]; intros s; cbn; [lia|]. rewrite IH. lia. Qed.

Lemma kept_execute h y : kept h y -> alive (mt y) = true -> exists y', execute h y = Ret y' /\ kept h y'.
Proof.
  intros Hk Ha. pose proof Hk as (Hh & Hq & Hs & Hl). unfold execute. destruct (callCh (mt y)) as [|c q] eqn:Ec; [by exists y|].
  destruct (state (mt y)) as [s|] eqn:Es; [|by exists y]. unfold history_ok in Hh. rewrite Es in Hh. destruct Hh as (s0 & r & Hi & Hst & Htk).
  destruct Hq as (Q1 & Q2 & Q3 & Q4 & Q5 & Q6 & Q7). rewrite Ec in Q7. cbn in Q7.
  set (m := set_queues (inputCh (mt y)) (joinCh (mt y)) (leaveCh (mt y)) q (mt y)).
  destruct c as [|n].
  - destruct (drainAndTick_spec h s m (outputs y)) as (m' & -> & Hs' & E1 & E2 & E3 & E4 & E5 & E6 & E7 & E8 & E9 & E10 & E11 & E12); [by apply (subs_frame (mt y))|].
    cbn [mbind go_bind]. eexists. split; [done|]. cbn in *. split; [|split; [|split; [exact Hs'|]]].
    + unfold history_ok. cbn. rewrite E1, E2, Es. assert (forall o, o = Some (frame h s (MkBatch (inputCh (mt y)) (joinCh (mt y)) (leaveCh (mt y)))) ->
        match o with Some s' => exists s0 r, Init h = Ok (s0, r) /\ s' = foldl (frame h) s0 (batches y ++ [MkBatch (inputCh (mt y)) (joinCh (mt y)) (leaveCh (mt y))]) /\
          tick (mt y) + match Tick h s (inputCh (mt y)) (joinCh (mt y)) (leaveCh (mt y)) with Ok _ => 1 | Err _ => 0 end =
          frames_done h s0 (batches y ++ [MkBatch (inputCh (mt y)) (joinCh (mt y)) (leaveCh (mt y))]) | None => False end) as Hg.
      { intros o ->. exists s0, r. split; [done|]. by rewrite foldl_frame, frames_done_app, <- Hst, Htk. }
      unfold frame in Hg. cbn in Hg. destruct (Tick h s (inputCh (mt y)) (joinCh (mt y)) (leaveCh (mt y))) as [[s' outs]|e]; exact (Hg _ eq_refl).
    + unfold queues_ok. cbn. rewrite E3, E4, E5, E6, E7, !bind_app. cbn. rewrite !app_nil_r. split_and!; try done; lia.
    + destruct Hl as (L1 & L2 & L3 & L4). unfold life_ok; cbn. rewrite E8, E9, E10. split; [|split; [|split]].
      * intros Hsc. destruct (E12 Hsc) as [Hsc'|]; [|done]. apply E11. by apply L1.
      * intros Hd. destruct (L2 Hd) as (? & ? & ?). split_and!; auto.
      * intros Ha'. destruct (L3 Ha') as [? _]. split; [done|]. rewrite E1. destruct (Tick _ _ _ _ _) as [[? ?]|]; by rewrite ?Es.
      * intros Hst'. by rewrite L4 in Es.
  - eexists. split; [done|]. split; [|split; [|split]]; [| |by apply (subs_frame (mt y))|done].
    + unfold history_ok. cbn. rewrite Es. by exists s0, r.
    + unfold queues_ok. cbn. split_and!; try done. lia.
Qed.

Lemma match_kept_act h a y : (forall s r, Init h = Ok (s, r) -> r <= 10 ^ 9) -> 0 < tickRate (cfg (mt y)) <= 10 ^ 9 -> kept h y ->
  exists y', act h a y = Ret y' /\ kept h y'.
Proof.
  intros Hr Hc Hk. pose proof Hk as (Hh & Hq & Hs & Hl). pose proof Hl as (L1 & L2 & L3 & L4). destruct Hq as (Q1 & Q2 & Q3 & Q4 & Q5 & Q6 & Q7).
  destruct a as [|x|p|p|n| | |s|s| | | |]; cbn [act].
  - unfold Start. destruct (started (mt y)) eqn:Est; [by exists y; destruct y|].
    assert (alive (mt y) = false) as Ha by (destruct (alive (mt y)) eqn:Ea; [by destruct L3 as [? _]|done]).
    assert (done (mt y) = false) as Hd by (destruct (done (mt y)) eqn:Ed; [by destruct L2 as (_ & _ & ?)|done]).
    destruct (Init h) as [[s r]|e] eqn:Ei.
    + set (r' := if r <=? 0 then _ else r). assert (0 < r' <= 10 ^ 9) by (unfold r'; specialize (Hr s r eq_refl); destruct (Z.leb_spec r 0); lia).
      assert (1 <= 10 ^ 9 ÷ r') by (rewrite Z.quot_div_nonneg by lia; apply Z.div_le_lower_bound; lia). rewrite (proj2 (Z.leb_gt _ 0)) by lia.
      cbn [mbind go_bind]. eexists. split; [done|]. split; [|split; [|split]]; [|by split_and!|by apply (subs_frame (mt y))|].
      * unfold history_ok in *. cbn. rewrite (L4 eq_refl) in Hh. destruct Hh as (-> & -> & _). by exists s, r.
      * unfold life_ok; cbn. rewrite Hd. split_and!; try done.
    + cbn [mbind go_bind]. eexists. split; [done|]. split; [|split; [|split]]; [|by split_and!|by apply (subs_frame (mt y))|].
      * unfold history_ok in *. cbn. rewrite (L4 eq_refl) in *. exact Hh.
      * unfold life_ok; cbn. rewrite Ha. by split_and!.
  - unfold QueueInput. destruct (stopped (mt y)) eqn:Est; [by exists y; destruct y|]. destruct (offer _ x _) as [q|] eqn:E; [|by exists y; destruct y].
    apply offer_room in E as [-> Hq]. eexists. split; [done|]. split; [exact Hh|]. split; [|split; [by apply (subs_frame (mt y))|done]].
    unfold queues_ok; cbn. rewrite Q1, <- app_assoc. by split_and!.
  - unfold QueueJoin. destruct (stopped (mt y)) eqn:Est; [by exists y; destruct y|]. destruct (offer _ p _) as [q|] eqn:E; [|by exists y; destruct y].
    apply offer_room in E as [-> Hq]. eexists. split; [done|]. split; [exact Hh|]. split; [|split; [by apply (subs_frame (mt y))|done]].
    unfold queues_ok; cbn. rewrite Q2, <- app_assoc. by split_and!.
  - unfold QueueLeave. destruct (stopped (mt y)) eqn:Est; [by exists y; destruct y|]. destruct (offer _ p _) as [q|] eqn:E; [|by exists y; destruct y].
    apply offer_room in E as [-> Hq]. eexists. split; [done|]. split; [exact Hh|]. split; [|split; [by apply (subs_frame (mt y))|done]].
    unfold queues_ok; cbn. rewrite Q3, <- app_assoc. by split_and!.
  - eexists. split; [done|]. unfold Signal. destruct (stopped (mt y)); [by destruct y|]. pose proof (kept_call h (CSignal n) y Hk) as H. destruct (queueCall _ _). apply H.
  - eexists. split; [done|]. destruct (stopped (mt y)); [done|]. by split_and!.
  - eexists. split; [done|]. destruct (subscribing y); [done|]. split; [exact Hh|]. split; [by split_and!|]. split; [by apply subscribe_kept|done].
  - eexists. split; [done|]. unfold unsubscribe. pose proof (unsubscribe_kept s (mt y) (outputs y) Hs) as H. unfold unsubscribe in H.
    destruct (decide _); [|by destruct y]. apply kept_core; try done; by split_and!.
  - eexists. split; [done|]. apply kept_core; try done; by apply receive_kept.
  - eexists. split; [done|]. by apply kept_stop.
  - destruct (alive (mt y)) eqn:Ea; [|by exists y]. pose proof (kept_call h CTick y Hk) as H. destruct (queueCall CTick (mt y)) as [m ok]. destruct H as (Hk' & Hst & Ha).
    destruct ok; eexists; (split; [done|]); [done|]. apply (kept_leave h _ Hk'); [by apply Hst|]. cbn. congruence.
  - destruct (alive (mt y)) eqn:Ea; [|by exists y]. by apply kept_execute.
  - eexists. split; [done|]. destruct (alive (mt y)) eqn:Ea; [|done]. destruct (stopCh (mt y)) eqn:Esc; [|done]. apply kept_leave; auto.
Qed.

Lemma act_cfg h a y y' : act h a y = Ret y' -> kept h y -> cfg (mt y') = cfg (mt y).
Proof.
  intros E (_ & _ & Hs & _). destruct a as [|x|p|p|n| | |s|s| | | |]; cbn [act] in E.
  - unfold Start in E. destruct (started (mt y)); [by injection E as <-|]. destruct (Init h) as [[s r]|e]; [|by injection E as <-]. destruct (10 ^ 9 ÷ _ <=? 0); [done|by injection E as <-].
  - unfold QueueInput in E. destruct (stopped (mt y)); [by injection E as <-|]. destruct (offer _ _ _); by injection E as <-.
  - unfold QueueJoin in E. destruct (stopped (mt y)); [by injection E as <-|]. destruct (offer _ _ _); by injection E as <-.
  - unfold QueueLeave in E. destruct (stopped (mt y)); [by injection E as <-|]. destruct (offer _ _ _); by injection E as <-.
  - injection E as <-. unfold Signal, queueCall, Stop; cbn. destruct (stopped (mt y)); [done|]. destruct (offer _ _ _); [done|]. cbn. by destruct (stopCh (mt y)).
  - injection E as <-. by destruct (stopped (mt y)).
  - injection E as <-. by destruct (subscribing y).
  - injection E as <-. unfold unsubscribe; cbn. by destruct (decide _).
  - by injection E as <-.
  - injection E as <-. unfold Stop; cbn. by destruct (stopCh (mt y)).
  - destruct (alive (mt y)); [|by injection E as <-]. unfold queueCall, Stop in E. destruct (stopped (mt y)); [by injection E as <-|].
    destruct (offer _ _ _); [by injection E as <-|]. cbn in E. destruct (stopCh (mt y)); by injection E as <-.
  - destruct (alive (mt y)); [|by injection E as <-]. unfold execute in E. destruct (callCh (mt y)) as [|c q]; [by injection E as <-|]. destruct (state (mt y)) as [s|]; [|by injection E as <-].
    destruct c; [|by injection E as <-]. destruct (drainAndTick_spec h s (set_queues (inputCh (mt y)) (joinCh (mt y)) (leaveCh (mt y)) q (mt y)) (outputs y)) as (m' & E' & _ & _ & _ & Hc & _); [by apply (subs_frame (mt y))|].
    rewrite E' in E. by injection E as <-.
  - injection E as <-. by destruct (alive (mt y) && stopCh (mt y)).
Qed.

Lemma match_run_kept h acts : (forall s r, Init h = Ok (s, r) -> r <= 10 ^ 9) -> forall y, 0 < tickRate (cfg (mt y)) <= 10 ^ 9 -> kept h y ->
  exists y', run h acts y = Ret y' /\ kept h y' /\ cfg (mt y') = cfg (mt y).
Proof.
  intros Hr. induction acts as [|a acts IH]; intros y Hc Hk; [by exists y|]. cbn. destruct (match_kept_act h a y Hr Hc Hk) as (y1 & E & Hk1).
  pose proof (act_cfg h a y y1 E Hk) as Ec. rewrite E. cbn. destruct (IH y1) as (y2 & E2 & Hk2 & Ec2); [by rewrite Ec|done|]. exists y2. by rewrite <- Ec.
Qed.
End match_actor.

Arguments Handler : clear implicits.
Arguments MkHandler {_ _ _ _ _}.
Arguments Match : clear implicits.
Arguments system : clear implicits.
Arguments batch : clear implicits.

(** * Properties *)

Section properties.
Context {S I O P X : Type} (h : Handler S I O P X) (c : config).

(** Frames of a nanosecond or more. *)
Definition sane_rates : Prop := (forall s r, Init h = Ok (s, r) -> r <= 10 ^ 9) /\ 0 < tickRate c <= 10 ^ 9.

(** However callers, ticker and loop interleave, nothing panics, no queue grows past its bound, the inputs,
    joins and leaves accepted are handed to the handler in order and each once, but for those still queued,
    and the state is what the handler makes of these batches one after the other, from the initial one. *)
Theorem match_replays acts : sane_rates -> exists y : system S I O P X, run h acts (start c) = Ret y /\
  b_inputs (acc y) = (batches y ≫= b_inputs) ++ inputCh (mt y) /\ b_joins (acc y) = (batches y ≫= b_joins) ++ joinCh (mt y) /\
  b_leaves (acc y) = (batches y ≫= b_leaves) ++ leaveCh (mt y) /\
  Z.of_nat (length (inputCh (mt y))) <= Z.max 0 (inputQueue c) /\ Z.of_nat (length (callCh (mt y))) <= Z.max 0 (callQueue c) /\
  match state (mt y) with
  | Some s => exists s0 r, Init h = Ok (s0, r) /\ s = foldl (frame h) s0 (batches y) /\ tick (mt y) = frames_done h s0 (batches y)
  | None => batches y = [] /\ tick (mt y) = 0
  end.
Proof.
  intros [Hr Hc]. destruct (match_run_kept h acts Hr (start c) Hc (start_kept h c)) as (y & -> & (Hh & Hq & _) & Hcfg). cbn in Hcfg. exists y. split; [done|].
  destruct Hq as (Q1 & Q2 & Q3 & Q4 & _ & _ & Q7). rewrite Hcfg in *. split_and!; try done. unfold history_ok in Hh. destruct (state (mt y)); [done|]. by destruct Hh as (? & ? & _).
Qed.

(** A subscriber whose queue drops the oldest gets, in order and each once, outputs that the loop handed
    out from its subscription to its end, all of them but those dropped or still queued; its channel is open
    exactly while it is registered, and when the loop has ended the channels registered then are closed. *)
Theorem subscribers_follow acts y : sane_rates -> subDropOldest c = true -> 0 < subBufSize c -> run h acts (start c) = Ret y ->
  (forall s ch, chans (mt y) !! s = Some ch -> (cclosed ch = false <-> s ∈ subs (mt y)) /\
     Z.of_nat (length (buf ch)) <= subBufSize c /\
     exists pre post, outputs y = pre ++ (out ch).*1 ++ buf ch ++ post /\ (s ∈ subs (mt y) -> post = [])) /\
  (alive (mt y) = true -> stopCh (mt y) = true -> exists y', act h AExit y = Ret y' /\ done (mt y') = true /\ forall s ch, chans (mt y') !! s = Some ch -> cclosed ch = true).
Proof.
  intros [Hr Hc] Hd Hb E. destruct (match_run_kept h acts Hr (start c) Hc (start_kept h c)) as (y1 & E1 & (_ & _ & Hs & _) & Hcfg). rewrite E in E1. injection E1 as <-. cbn in Hcfg. split.
  - intros s ch Ech. destruct (proj1 Hs s ch Ech) as (_ & [Hf Hl] & Hcl & Ho). rewrite Hcfg in *. split; [done|]. split; [lia|].
    destruct (Ho Hd Hb) as (pre & post & Eo & Hp). exists pre, post. split; [|done]. by rewrite Eo, Hf, <- app_assoc.
  - intros Ha Hst. cbn [act]. rewrite Ha, Hst. eexists. split; [done|]. split; [done|]. intros s ch. cbn. apply (closeSubs_kept (mt y) (outputs y) Hs).
Qed.
End properties.

(** A handler that adds its inputs up, hands each out, and fails on zero. *)
Definition adder : Handler Z Z Z string string :=
  MkHandler (Ok (0, 20)) (fun s inputs _ _ => if bool_decide (0 ∈ inputs) then Err "zero"%string else Ok (s + foldr Z.add 0 inputs, inputs)).
Definition session : list (@action Z string) := [AStart; ASubCheck; ASubscribe; AInput 3; AInput 4; ATicker; AInput 5; ACall; ATicker; ACall; AReceive 0; AStop].

Lemma match_replays_witness : exists y : system Z Z Z string string, run adder session (start default_config) = Ret y /\
  b_inputs (acc y) = (batches y ≫= b_inputs) ++ inputCh (mt y) /\ b_joins (acc y) = (batches y ≫= b_joins) ++ joinCh (mt y) /\
  b_leaves (acc y) = (batches y ≫= b_leaves) ++ leaveCh (mt y) /\
  Z.of_nat (length (inputCh (mt y))) <= Z.max 0 (inputQueue default_config) /\ Z.of_nat (length (callCh (mt y))) <= Z.max 0 (callQueue default_config) /\
  match state (mt y) with
  | Some s => exists s0 r, Init adder = Ok (s0, r) /\ s = foldl (frame adder) s0 (batches y) /\ tick (mt y) = frames_done adder s0 (batches y)
  | None => batches y = [] /\ tick (mt y) = 0
  end.
Proof. apply (match_replays adder default_config session). split; [intros s r [= <- <-]; lia|cbn; lia]. Defined.

Lemma subscribers_follow_witness : exists y : system Z Z Z string string, run adder session (start default_config) = Ret y /\ outputs y = [3; 4; 5] /\
  exists ch pre post, chans (mt y) !! 0%nat = Some ch /\ outputs y = pre ++ (out ch).*1 ++ buf ch ++ post.
Proof.
  eexists. split; [vm_compute; reflexivity|]. split; [reflexivity|].
  destruct (subscribers_follow adder default_config session _ ltac:(split; [intros s r [= <- <-]; lia|cbn; lia]) eq_refl eq_refl ltac:(vm_compute; reflexivity)) as [H _].
  destruct (H 0%nat _ ltac:(vm_compute; reflexivity)) as (_ & _ & pre & post & E & _). eexists _, pre, post. split; [vm_compute; reflexivity|exact E].
Defined.

(** A session whose [Init] fails does not tell it to who waits: [Start] returns the error, [Wait] nothing;
    and a second [Start] succeeds. *)
Theorem init_error_lost {S I O P X} (t : S -> list I -> list P -> list P -> result X (S * list O)) e (c : config) :
  exists m, Start (MkHandler (Err e) t) (@New S I O P X c) = Ret (m, Some e) /\ Wait m = Some None /\ Start (MkHandler (Err e) t) m = Ret (m, None).
Proof. eexists. by split_and!. Qed.

(** Who waits for a session stopped before it was started waits until it is started. *)
Theorem stop_before_start_waits (acts : list (@action Z string)) y : run adder (AStop :: acts) (start default_config) = Ret y -> AStart ∉ acts -> Wait (mt y) = None.
Proof.
  intros E Hn. enough (forall (acts : list (@action Z string)) y0, AStart ∉ acts -> stopped (mt y0) = true /\ alive (mt y0) = false /\ done (mt y0) = false ->
    run adder acts y0 = Ret y -> done (mt y) = false) as Hg.
  { unfold Wait. cbn [run act] in E. cbn [mbind go_bind] in E. apply Hg in E; [by rewrite E|done|by split_and!]. }
  clear. induction acts as [|a acts IH]; intros y0 Hn (H1 & H2 & H3) E; [by injection E as <-|]. cbn [run] in E.
  assert (exists y1, act adder a y0 = Ret y1 /\ stopped (mt y1) = true /\ alive (mt y1) = false /\ done (mt y1) = false) as (y1 & E1 & Hy1).
  { destruct a; cbn [act]; unfold QueueInput, QueueJoin, QueueLeave, Signal; rewrite ?H1, ?H2; cbn [andb]; try (by eexists).
    - exfalso. apply Hn. left.
    - eexists. split; [done|]. by destruct (subscribing y0).
    - eexists. split; [done|]. unfold unsubscribe; cbn. by destruct (decide _).
    - eexists. split; [done|]. unfold Stop; cbn. by destruct (stopCh (mt y0)). }
  rewrite E1 in E. cbn in E. eapply IH; [|exact Hy1|exact E]. intros Hin. apply Hn. by right.
Qed.
Lemma stop_before_start_waits_witness : exists y : system Z Z Z string string, run adder [AStop; AExit; ATicker] (start default_config) = Ret y /\ Wait (mt y) = None.
Proof.
  eexists. split; [vm_compute; reflexivity|]. apply (stop_before_start_waits [AExit; ATicker]); [vm_compute; reflexivity|]. rewrite !not_elem_of_cons. split_and!; try discriminate. apply not_elem_of_nil.
Defined.

(** The error of a frame ends the session, but a frame already queued is run after it. *)
Theorem frame_after_error : exists y : system Z Z Z string string,
  run adder [AStart; AInput 0; ATicker; ATicker; ACall; AExit] (start default_config) = Ret y /\ Wait (mt y) = Some (Some (HandlerErr "zero"%string)) /\
  exists y' : system Z Z Z string string, run adder [AStart; AInput 0; ATicker; ATicker; ACall; ACall; AExit] (start default_config) = Ret y' /\
    length (batches y') = 2%nat /\ tick (mt y') = 1.
Proof. eexists. split; [vm_compute; reflexivity|]. split; [reflexivity|]. eexists. split; [vm_compute; reflexivity|]. split; reflexivity. Qed.

(** Who subscribes while the loop ends can be left with a channel that is never closed. *)
Theorem late_subscriber : exists y (ch : channel Z), run adder [AStart; ASubCheck; AStop; AExit; ASubscribe] (start default_config) = Ret (y : system Z Z Z string string) /\
  done (mt y) = true /\ chans (mt y) !! 0%nat = Some ch /\ cclosed ch = false.
Proof. eexists _, _. split; [vm_compute; reflexivity|]. split; [reflexivity|]. split; reflexivity. Qed.

(** An input that was accepted can be left unhandled by a stop. *)
Theorem accepted_unhandled : exists y : system Z Z Z string string, run adder [AStart; AInput 7; AStop; AExit] (start default_config) = Ret y /\
  b_inputs (acc y) = [7] /\ batches y = [] /\ Wait (mt y) = Some None.
Proof. eexists. split; [vm_compute; reflexivity|]. split_and!; reflexivity. Qed.

(** A frame rate above a frame in a nanosecond takes the process down. *)
Theorem rate_panics {S I O P X} (s : S) (t : S -> list I -> list P -> list P -> result X (S * list O)) (c : config) :
  Start (MkHandler (Ok (s, 10 ^ 9 + 1)) t) (@New S I O P X c) = Panic "non-positive interval for NewTicker".
Proof. reflexivity. Qed.

(** A session in which members come and go, but give no input, is idle. *)
Theorem joins_are_idle : exists y : system Z Z Z string string,
  run adder [AStart; AJoin "p"; ATicker; ACall; ALeave "p"; ATicker; ACall] (start (WithMaxIdleSec 1 (WithTickRate 2 default_config))) = Ret y /\ maxEmptyTicks (mt y) = 20 /\ emptyTicks (mt y) = 2.
Proof. eexists. split; [vm_compute; reflexivity|]. split; reflexivity. Qed.
