(* ===== verification/Eventbus.v ===== *)
(** The event bus ([pkg/messaging/eventbus/eventbus.go]): handlers by topic, called in turn by who publishes
    or in goroutines of their own. A handler may subscribe, unsubscribe and publish on the bus that calls it. *)
From Stdlib Require Import ZArith Lia Bool.
From stdpp Require Import base numbers strings list gmap sets.
From S2P Require Import Prelude.

Open Scope Z_scope.

Section eventbus.
(** [T]: payloads; [H]: handlers, which [code] gives the meaning of. *)
Context {T H : Type}.

(** What a handler does on the bus before it returns, or panics. *)
Inductive op := OSubscribe (topic : string) (h : H) | OUnsubscribe (topic : string) (id : Z) | OPublish (topic : string) (payload : T) | OPanic.
Variable code : H -> string -> T -> list op.

Record subscription := MkSub { id : Z; handler : H }.
Record config := MkConfig { async : bool; onPanic : bool }.

(** With the bus: the calls of handlers so far, those of the panic hook, the goroutines not yet run, and how
    many subscriptions there have been. *)
Record Bus := MkBus {
  cfg : config; topics : gmap string (list subscription); nextID : Z;
  called : list (H * string * T); panics : list string; spawned : list (H * string * T); given : Z
}.

Definition New (c : config) : Bus := MkBus c ∅ 0 [] [] [] 0.

Definition set_topics (t : gmap string (list subscription)) (n g : Z) (b : Bus) : Bus := MkBus (cfg b) t n (called b) (panics b) (spawned b) g.
Definition subs_of (topic : string) (b : Bus) : list subscription := default [] (topics b !! topic).

(** The identifier is what the function that unsubscribes holds. *)
Definition Subscribe (topic : string) (h : H) (b : Bus) : Bus * Z :=
  let n := wrapu64 (nextID b + 1) in
  (set_topics (<[topic := subs_of topic b ++ [MkSub n h]]> (topics b)) n (given b + 1) b, n).

(** The loop stops at the first of that identifier. *)
Fixpoint without (i : Z) (l : list subscription) : list subscription :=
  match l with [] => [] | s :: l => if id s =? i then l else s :: without i l end.
Definition remove (topic : string) (i : Z) (b : Bus) : Bus :=
  let t := match topics b !! topic with Some l => <[topic := without i l]> (topics b) | None => topics b end in
  set_topics (if decide (default [] (t !! topic) = []) then delete topic t else t) (nextID b) (given b) b.

Definition log_call (h : H) (topic : string) (x : T) (b : Bus) : Bus := MkBus (cfg b) (topics b) (nextID b) (called b ++ [(h, topic, x)]) (panics b) (spawned b) (given b).
Definition log_panic (topic : string) (b : Bus) : Bus :=
  if onPanic (cfg b) then MkBus (cfg b) (topics b) (nextID b) (called b) (panics b ++ [topic]) (spawned b) (given b) else b.
Definition spawn (h : H) (topic : string) (x : T) (b : Bus) : Bus := MkBus (cfg b) (topics b) (nextID b) (called b) (panics b) (spawned b ++ [(h, topic, x)]) (given b).

(** The body of a handler, in which [pub] is what publishing does; a panic ends it and is recovered. *)
Section body.
Variable pub : string -> T -> Bus -> option (Bus * Z).

Fixpoint body (topic : string) (ops : list op) (b : Bus) : option Bus :=
  match ops with
  | [] => Some b
  | OSubscribe t h :: ops => body topic ops (Subscribe t h b).1
  | OUnsubscribe t i :: ops => body topic ops (remove t i b)
  | OPublish t x :: ops => '(b, _) ← pub t x b; body topic ops b
  | OPanic :: _ => Some (log_panic topic b)
  end.

Definition invoke (h : H) (topic : string) (x : T) (b : Bus) : option Bus := body topic (code h topic x) (log_call h topic x b).

Definition dispatch (topic : string) (h : H) (x : T) (b : Bus) : option Bus :=
  if async (cfg b) then Some (spawn h topic x b) else invoke h topic x b.

Fixpoint dispatch_all (topic : string) (hs : list H) (x : T) (b : Bus) : option Bus :=
  match hs with [] => Some b | h :: hs => b ← dispatch topic h x b; dispatch_all topic hs x b end.
End body.

(** [fuel] bounds how deep handlers publish from handlers; none is returned when it is not enough. *)
Fixpoint Publish (fuel : nat) (topic : string) (x : T) (b : Bus) : option (Bus * Z) :=
  match fuel with
  | O => None
  | S fuel =>
      let handlers := handler <$> subs_of topic b in
      b ← dispatch_all (Publish fuel) topic handlers x b;
      Some (b, Z.of_nat (length handlers))
  end.

(** One of the goroutines runs. *)
Definition run_spawned (fuel : nat) (n : nat) (b : Bus) : option Bus :=
  match spawned b !! n with
  | None => Some b
  | Some (h, topic, x) => invoke (Publish fuel) h topic x (MkBus (cfg b) (topics b) (nextID b) (called b) (panics b) (delete n (spawned b)) (given b))
  end.

Definition SubscriberCount (topic : string) (b : Bus) : Z := Z.of_nat (length (subs_of topic b)).
(** In the order of a map range. *)
Definition Topics (b : Bus) : list string := (map_to_list (topics b)).*1.

(** * Subscriptions *)

(** A topic in the table has subscriptions, each identifier was given once. *)
Record subs_ok (b : Bus) : Prop := {
  s_some : map_Forall (fun _ l => l <> []) (topics b);
  s_ids : forall t l s, topics b !! t = Some l -> s ∈ l -> 1 <= id s <= nextID b;
  s_nodup : forall t l, topics b !! t = Some l -> NoDup (id <$> l);
  s_apart : forall t t' l l' i, topics b !! t = Some l -> topics b !! t' = Some l' -> i ∈ id <$> l -> i ∈ id <$> l' -> t = t';
  s_next : 0 <= nextID b /\ nextID b = given b
}.

Lemma New_ok c : subs_ok (New c).
Proof. split; cbn; try done. Qed.

Lemma subs_of_ids b s t : subs_ok b -> s ∈ subs_of t b -> 1 <= id s <= nextID b.
Proof. intros Hb. unfold subs_of. destruct (topics b !! t) as [l|] eqn:E; cbn; [by eapply s_ids|set_solver]. Qed.

Lemma Subscribe_ok t h b : subs_ok b -> given b < 2 ^ 64 - 1 -> subs_ok (Subscribe t h b).1.
Proof.
  intros Hb Hn. pose proof (s_next b Hb) as [H0 Hg]. unfold Subscribe. rewrite wrapu64_id by (unfold uint64; lia). cbn.
  assert (forall t' l, <[t := subs_of t b ++ [MkSub (nextID b + 1) h]]> (topics b) !! t' = Some l ->
    l = (if decide (t' = t) then subs_of t b ++ [MkSub (nextID b + 1) h] else subs_of t' b)) as HL.
  { intros t' l. destruct (decide (t' = t)) as [->|]; [rewrite lookup_insert_eq; by intros [= <-]|]. rewrite lookup_insert_ne by done. unfold subs_of. by intros ->. }
  assert (forall t', NoDup (id <$> subs_of t' b)) as Hnd by (intros t'; unfold subs_of; destruct (topics b !! t') eqn:E; cbn; [by eapply s_nodup|constructor]).
  assert (forall t' i, i ∈ id <$> subs_of t' b -> i <= nextID b) as Hold by (intros t' i (s & -> & Hs)%list_elem_of_fmap; eapply subs_of_ids in Hs; [lia|done]).
  split; cbn.
  - intros t' l E. destruct (decide (t' = t)) as [->|]; [rewrite lookup_insert_eq in E; injection E as <-; by destruct (subs_of t b)|]. rewrite lookup_insert_ne in E by done. by apply (s_some b Hb t').
  - intros t' l s E Hs. rewrite (HL _ _ E) in Hs. destruct (decide (t' = t)); [apply elem_of_app in Hs as [Hs|Hs%list_elem_of_singleton]|]; [|subst; cbn; lia|]; eapply subs_of_ids in Hs; (done || lia).
  - intros t' l E. rewrite (HL _ _ E). destruct (decide (t' = t)); [|done]. rewrite fmap_app. apply NoDup_app. split; [done|]. split; [|apply NoDup_singleton].
    intros i Hi%Hold Hi'%list_elem_of_singleton. cbn in Hi'. lia.
  - intros t1 t2 l1 l2 i E1 E2 H1 H2. rewrite (HL _ _ E1) in H1. rewrite (HL _ _ E2) in H2.
    assert (forall t', i ∈ id <$> (if decide (t' = t) then subs_of t b ++ [MkSub (nextID b + 1) h] else subs_of t' b) -> (i = nextID b + 1 /\ t' = t) \/ i ∈ id <$> subs_of t' b) as Hc.
    { intros t'. destruct (decide (t' = t)) as [Hd|Hd]; [subst t'; rewrite fmap_app; intros [?|Hi%list_elem_of_singleton]%elem_of_app; auto|auto]. }
    apply Hc in H1 as [[-> ->]|H1]; apply Hc in H2 as [[Ei ->]|H2]; try done; [apply Hold in H2; lia|apply Hold in H1; lia|].
    unfold subs_of in *. destruct (topics b !! t1) as [l1'|] eqn:F1; [|set_solver]. destruct (topics b !! t2) as [l2'|] eqn:F2; [|set_solver].
    by eapply (s_apart b Hb).
  - lia.
Qed.

Lemma without_sublist i l : without i l `sublist_of` l.
Proof. induction l as [|s l IH]; cbn; [done|]. destruct (id s =? i); [by constructor|by constructor]. Qed.

Lemma without_filter i l : NoDup (id <$> l) -> without i l = filter (fun s => id s <> i) l.
Proof.
  induction l as [|s l IH]; intros Hnd; [done|]. rewrite fmap_cons in Hnd. apply NoDup_cons in Hnd as [Hni Hnd]. rewrite filter_cons. cbn [without].
  destruct (Z.eqb_spec (id s) i) as [E|E].
  - rewrite decide_False by tauto. symmetry. apply filter_every. intros s' Hs' E'. apply Hni. rewrite E, <- E'. by apply list_elem_of_fmap_2.
  - rewrite decide_True by done. by rewrite IH.
Qed.

Lemma remove_lookup t i b t' : subs_of t' (remove t i b) = if decide (t' = t) then without i (subs_of t b) else subs_of t' b.
Proof.
  unfold remove, subs_of. cbn. destruct (topics b !! t) as [l|] eqn:E; cbn.
  - rewrite lookup_insert_eq. cbn. destruct (decide (without i l = [])) as [En|En]; destruct (decide (t' = t)) as [->|Hd].
    + by rewrite lookup_delete_eq, En.
    + by rewrite lookup_delete_ne, lookup_insert_ne by done.
    + by rewrite lookup_insert_eq.
    + by rewrite lookup_insert_ne by done.
  - rewrite decide_True by (by rewrite E). destruct (decide (t' = t)) as [->|Hd]; [by rewrite lookup_delete_eq|by rewrite lookup_delete_ne by done].
Qed.

Lemma remove_topics t i b t' l : topics (remove t i b) !! t' = Some l -> l = subs_of t' (remove t i b) /\ (map_Forall (fun _ l => l <> []) (topics b) -> l <> []).
Proof.
  intros E. split; [unfold subs_of; by rewrite E|]. intros Hs. unfold remove in E. cbn in E. set (m := match topics b !! t with Some l => _ | None => _ end) in *.
  destruct (decide (default [] (m !! t) = [])) as [Ed|Ed].
  - apply lookup_delete_Some in E as [Hd E]. unfold m in E. destruct (topics b !! t); [rewrite lookup_insert_ne in E by done|]; by apply (Hs t').
  - destruct (decide (t' = t)) as [->|Hd]; [by rewrite E in Ed|]. unfold m in E. destruct (topics b !! t); [rewrite lookup_insert_ne in E by done|]; by apply (Hs t').
Qed.

Lemma remove_ok t i b : subs_ok b -> subs_ok (remove t i b).
Proof.
  intros Hb. assert (forall t' s, s ∈ subs_of t' (remove t i b) -> s ∈ subs_of t' b) as Hsub.
  { intros t' s. rewrite remove_lookup. destruct (decide (t' = t)) as [->|Hd]; [|done]. intros Hs. eapply elem_of_sublist; [exact Hs|apply without_sublist]. }
  assert (forall t' l, topics (remove t i b) !! t' = Some l -> forall s, s ∈ l -> s ∈ subs_of t' b) as HL.
  { intros t' l E s Hs. apply Hsub. by destruct (remove_topics _ _ _ _ _ E) as [<- _]. }
  assert (forall t' i', i' ∈ id <$> subs_of t' b -> exists l, topics b !! t' = Some l /\ i' ∈ id <$> l) as Hin.
  { intros t' i'. unfold subs_of. destruct (topics b !! t') as [l|]; [by exists l|set_solver]. }
  assert (forall t', NoDup (id <$> subs_of t' b)) as Hnd by (intros t'; unfold subs_of; destruct (topics b !! t') eqn:E; cbn; [by eapply s_nodup|constructor]).
  split; cbn.
  - intros t' l E. apply (remove_topics _ _ _ _ _ E). apply Hb.
  - intros t' l s E Hs. eapply subs_of_ids; [done|]. by eapply HL.
  - intros t' l E. destruct (remove_topics _ _ _ _ _ E) as [-> _]. rewrite remove_lookup. destruct (decide (t' = t)); [|apply Hnd]. eapply sublist_NoDup; [apply Hnd|apply fmap_sublist, without_sublist].
  - intros t1 t2 l1 l2 i' E1 E2 (s1 & -> & H1)%list_elem_of_fmap (s2 & E3 & H2)%list_elem_of_fmap.
    destruct (Hin t1 (id s1)) as (l1' & F1 & G1); [apply list_elem_of_fmap_2; by eapply HL|]. destruct (Hin t2 (id s1)) as (l2' & F2 & G2); [rewrite E3; apply list_elem_of_fmap_2; by eapply HL|].
    exact (s_apart b Hb t1 t2 l1' l2' (id s1) F1 F2 G1 G2).
  - apply Hb.
Qed.

(** * Publishing *)

(** A bus with the same subscriptions. *)
Definition calm (b b' : Bus) : Prop := cfg b' = cfg b /\ topics b' = topics b /\ nextID b' = nextID b.

(** What runs only adds to the calls. *)
Definition extends (b b' : Bus) : Prop := cfg b' = cfg b /\ exists l, called b' = called b ++ l.
Lemma extends_trans b1 b2 b3 : extends b1 b2 -> extends b2 b3 -> extends b1 b3.
Proof. intros [E1 [l1 H1]] [E2 [l2 H2]]. split; [congruence|]. exists (l1 ++ l2). by rewrite H2, H1, app_assoc. Qed.

Lemma body_extends pub topic : (forall t x b b' n, pub t x b = Some (b', n) -> extends b b') ->
  forall ops b b', body pub topic ops b = Some b' -> extends b b'.
Proof.
  intros Hp. induction ops as [|o ops IH]; intros b b' E; cbn in E; [injection E as <-; split; [done|]; exists []; by rewrite app_nil_r|].
  destruct o as [t h|t i|t x|].
  - apply IH in E as [E1 [l E2]]. split; [done|]. by exists l.
  - apply IH in E as [E1 [l E2]]. split; [done|]. by exists l.
  - destruct (pub t x b) as [[b1 n]|] eqn:E1; [|done]. cbn in E. eapply extends_trans; [by eapply Hp|by apply IH].
  - injection E as <-. unfold log_panic. destruct (onPanic (cfg b)); split; try done; exists []; by rewrite app_nil_r.
Qed.

(** The calls that a publication makes itself, among those its handlers cause. *)
Lemma dispatch_all_calls pub topic x : (forall t x b b' n, pub t x b = Some (b', n) -> extends b b') ->
  forall hs b b', dispatch_all pub topic hs x b = Some b' -> async (cfg b) = false ->
  extends b b' /\ exists l, called b' = called b ++ l /\ ((fun h => (h, topic, x)) <$> hs) `sublist_of` l.
Proof.
  intros Hp. induction hs as [|h hs IH]; intros b b' E Ha; cbn in E.
  - injection E as <-. split; [split; [done|]|]; exists []; by rewrite app_nil_r.
  - unfold dispatch in E. rewrite Ha in E. destruct (invoke pub h topic x b) as [b1|] eqn:E1; [|done]. cbn in E. unfold invoke in E1.
    apply (body_extends pub topic Hp) in E1 as [Hc [l1 Hl1]]. cbn in Hl1, Hc. destruct (IH b1 b' E) as [[Hc2 [l2' Hl2']] (l2 & Hl2 & Hs)]; [by rewrite Hc|].
    assert (called b' = called b ++ (h, topic, x) :: l1 ++ l2) as Hcall by (rewrite Hl2, Hl1, <- !app_assoc; done).
    split; [split; [congruence|by eexists]|]. eexists. split; [exact Hcall|]. cbn. apply sublist_skip. by apply sublist_inserts_l.
Qed.

(** With goroutines a publication only spawns. *)
Lemma dispatch_all_spawns pub topic x : forall hs b, async (cfg b) = true ->
  dispatch_all pub topic hs x b = Some (MkBus (cfg b) (topics b) (nextID b) (called b) (panics b) (spawned b ++ ((fun h => (h, topic, x)) <$> hs)) (given b)).
Proof.
  induction hs as [|h hs IH]; intros b Ha; cbn; [by rewrite app_nil_r; destruct b|]. unfold dispatch. rewrite Ha. cbn. rewrite IH by done. cbn. by rewrite <- app_assoc.
Qed.

Lemma Publish_extends fuel : forall t x b b' n, Publish fuel t x b = Some (b', n) -> extends b b'.
Proof.
  induction fuel as [|fuel IH]; intros t x b b' n E; [done|]. cbn in E. destruct (async (cfg b)) eqn:Ha.
  - rewrite dispatch_all_spawns in E by done. injection E as <- <-. split; [done|]. exists []. by rewrite app_nil_r.
  - destruct (dispatch_all _ _ _ _ _) as [b1|] eqn:E1; [|done]. cbn in E. injection E as <- <-. by eapply dispatch_all_calls.
Qed.

(** ** What handlers do to the subscriptions *)

Definition kept (b b' : Bus) : Prop := given b <= given b' /\ (given b' < 2 ^ 64 - 1 -> subs_ok b -> subs_ok b').
Lemma kept_refl b : kept b b.
Proof. split; [lia|done]. Qed.
Lemma eventbus_kept_trans b1 b2 b3 : kept b1 b2 -> kept b2 b3 -> kept b1 b3.
Proof. intros [H1 H1'] [H2 H2']. split; [lia|]. intros Hg Hb. apply H2', H1'; (done || lia). Qed.
Lemma kept_same b b' : given b' = given b -> topics b' = topics b -> nextID b' = nextID b -> kept b b'.
Proof. intros Hg Ht Hn. split; [lia|]. intros _ []. split; rewrite ?Hg, ?Ht, ?Hn; done. Qed.
Lemma eventbus_kept_Subscribe t h b : kept b (Subscribe t h b).1.
Proof. split; [cbn; lia|]. intros Hg Hb. apply Subscribe_ok; [done|]. cbn in Hg. lia. Qed.
Lemma kept_remove t i b : kept b (remove t i b).
Proof. split; [cbn; lia|]. intros _. apply remove_ok. Qed.

Lemma body_kept pub topic : (forall t x b b' n, pub t x b = Some (b', n) -> kept b b') -> forall ops b b', body pub topic ops b = Some b' -> kept b b'.
Proof.
  intros Hp. induction ops as [|o ops IH]; intros b b' E; cbn in E; [injection E as <-; apply kept_refl|]. destruct o as [t h|t i|t x|].
  - eapply eventbus_kept_trans; [|by apply IH]. apply eventbus_kept_Subscribe.
  - eapply eventbus_kept_trans; [|by apply IH]. apply kept_remove.
  - destruct (pub t x b) as [[b1 n]|] eqn:E1; [|done]. eapply eventbus_kept_trans; [by eapply Hp|by apply IH].
  - injection E as <-. unfold log_panic. destruct (onPanic (cfg b)); [by apply kept_same|apply kept_refl].
Qed.

Lemma dispatch_all_kept pub topic x : (forall t x b b' n, pub t x b = Some (b', n) -> kept b b') -> forall hs b b', dispatch_all pub topic hs x b = Some b' -> kept b b'.
Proof.
  intros Hp. induction hs as [|h hs IH]; intros b b' E; cbn in E; [injection E as <-; apply kept_refl|].
  destruct (dispatch pub topic h x b) as [b1|] eqn:E1; [|done]. eapply eventbus_kept_trans; [|by apply IH]. unfold dispatch in E1. destruct (async (cfg b)).
  - injection E1 as <-. by apply kept_same.
  - eapply eventbus_kept_trans; [|by eapply body_kept]. by apply kept_same.
Qed.

Lemma Publish_kept fuel : forall t x b b' n, Publish fuel t x b = Some (b', n) -> kept b b'.
Proof.
  induction fuel as [|fuel IH]; intros t x b b' n E; [done|]. cbn in E. destruct (dispatch_all _ _ _ _ _) as [b1|] eqn:E1; [|done]. cbn in E. injection E as <- <-.
  by eapply dispatch_all_kept.
Qed.
End eventbus.

Arguments Bus : clear implicits.
Arguments Publish {T H} code fuel topic x b.
Arguments run_spawned {T H} code fuel n b.
Arguments subscription : clear implicits.
Arguments op : clear implicits.

(** * Histories *)

Section histories.
Context {T H : Type} (code : H -> string -> T -> list (op T H)).

(** Calls from outside, with the fuel for the publications. *)
Inductive call := CSubscribe (t : string) (h : H) | CUnsubscribe (t : string) (i : Z) | CPublish (t : string) (x : T) | CRun (n : nat).

Definition act (fuel : nat) (c : call) (b : Bus T H) : option (Bus T H) :=
  match c with
  | CSubscribe t h => Some (Subscribe t h b).1
  | CUnsubscribe t i => Some (remove t i b)
  | CPublish t x => fst <$> Publish code fuel t x b
  | CRun n => run_spawned code fuel n b
  end.
Fixpoint run (fuel : nat) (cs : list call) (b : Bus T H) : option (Bus T H) :=
  match cs with [] => Some b | c :: cs => b ← act fuel c b; run fuel cs b end.

Lemma act_kept fuel c b b' : act fuel c b = Some b' -> kept b b'.
Proof.
  destruct c as [t h|t i|t x|n]; cbn; intros E.
  - injection E as <-. apply eventbus_kept_Subscribe.
  - injection E as <-. apply kept_remove.
  - destruct (Publish code fuel t x b) as [[b1 k]|] eqn:E1; [|done]. injection E as <-. by eapply Publish_kept.
  - unfold run_spawned in E. destruct (spawned b !! n) as [[[h t] x]|]; [|injection E as <-; apply kept_refl].
    eapply eventbus_kept_trans; [|eapply body_kept; [|exact E]]; [by apply kept_same|]. apply Publish_kept.
Qed.

Lemma eventbus_run_kept fuel cs : forall b b', run fuel cs b = Some b' -> kept b b'.
Proof.
  induction cs as [|c cs IH]; intros b b' E; cbn in E; [injection E as <-; apply kept_refl|]. destruct (act fuel c b) as [b1|] eqn:E1; [|done].
  eapply eventbus_kept_trans; [by eapply act_kept|by apply IH].
Qed.

(** * Properties *)

(** Whatever handlers do from within, in every reachable state an identifier names one subscription of
    one topic, and a function that unsubscribes takes out that one, once, and leaves the order of the others. *)
Theorem unsubscribe_one fuel c cs b t i : run fuel cs (New c) = Some b -> given b < 2 ^ 64 - 1 ->
  (forall t', subs_of t' (remove t i b) = if decide (t' = t) then filter (fun s => id s <> i) (subs_of t b) else subs_of t' b) /\
  (forall t', NoDup (id <$> subs_of t' b)) /\ (forall t' s s', t' <> t -> s ∈ subs_of t b -> s' ∈ subs_of t' b -> id s <> id s') /\
  forall t', t' ∈ Topics b <-> SubscriberCount t' b <> 0.
Proof.
  intros E Hg. destruct (eventbus_run_kept fuel cs _ _ E) as [_ Hk]. pose proof (Hk Hg (New_ok c)) as Hb.
  assert (forall t', NoDup (id <$> subs_of t' b)) as Hnd by (intros t'; unfold subs_of; destruct (topics b !! t') eqn:El; cbn; [by eapply s_nodup|constructor]).
  split; [|split; [exact Hnd|split]].
  - intros t'. rewrite remove_lookup. by rewrite without_filter.
  - intros t' s s' Hd Hs Hs' Ei. unfold subs_of in Hs, Hs'. destruct (topics b !! t) as [l|] eqn:El; cbn in Hs; [|set_solver]. destruct (topics b !! t') as [l'|] eqn:El'; cbn in Hs'; [|set_solver].
    apply Hd. apply (s_apart b Hb t' t l' l (id s')); try done; [by apply list_elem_of_fmap_2|]. rewrite <- Ei. by apply list_elem_of_fmap_2.
  - intros t'. unfold Topics, SubscriberCount, subs_of. rewrite list_elem_of_fmap. split.
    + intros ([t1 l] & -> & Hl%elem_of_map_to_list). cbn. rewrite Hl. cbn. pose proof (s_some b Hb t1 l Hl). by destruct l.
    + destruct (topics b !! t') as [l|] eqn:El; [|done]. intros _. exists (t', l). split; [done|]. by apply elem_of_map_to_list.
Qed.

(** A publication calls every handler its topic had when it began, in the order of their subscription,
    each once, whatever the handlers do, also when one unsubscribes another or panics; and it says how many.
    With goroutines it leaves one for each of them instead, and calls none. *)
Theorem publish_calls_each fuel t x b b' n : Publish code fuel t x b = Some (b', n) ->
  n = SubscriberCount t b /\
  if async (cfg b) then b' = MkBus (cfg b) (topics b) (nextID b) (called b) (panics b) (spawned b ++ ((fun s => (handler s, t, x)) <$> subs_of t b)) (given b)
  else exists l, called b' = called b ++ l /\ ((fun s => (handler s, t, x)) <$> subs_of t b) `sublist_of` l.
Proof.
  destruct fuel as [|fuel]; [done|]. cbn [Publish]. unfold SubscriberCount. intros E. assert (forall l : list (subscription H), (fun h => (h, t, x)) <$> (handler <$> l) = (fun s => (handler s, t, x)) <$> l) as Hm by (intros l; by rewrite <- list_fmap_compose).
  destruct (async (cfg b)) eqn:Ha.
  - rewrite dispatch_all_spawns in E by done. injection E as <- <-. rewrite length_fmap, Hm. done.
  - destruct (dispatch_all _ _ _ _ _ _) as [b1|] eqn:E1; [|done]. cbn in E. injection E as <- <-. rewrite length_fmap. split; [done|].
    apply dispatch_all_calls in E1 as [_ (l & Hl & Hs)]; [|apply Publish_extends|done]. exists l. split; [done|]. by rewrite <- Hm.
Qed.

(** What the panic hook is told by handlers that at most panic. *)
Definition told (t : string) (x : T) (hs : list H) : list string := hs ≫= fun h => match code h t x with [] => [] | _ => [t] end.

Lemma plain_all pub t x hs : (forall h, h ∈ hs -> code h t x = [] \/ code h t x = [OPanic]) -> forall b : Bus T H, async (cfg b) = false ->
  dispatch_all code pub t hs x b = Some (MkBus (cfg b) (topics b) (nextID b) (called b ++ ((fun h => (h, t, x)) <$> hs))
    (panics b ++ if onPanic (cfg b) then told t x hs else []) (spawned b) (given b)).
Proof.
  induction hs as [|h hs IH]; intros Hp b Ha; cbn.
  - rewrite app_nil_r. destruct (onPanic (cfg b)); rewrite ?app_nil_r; by destruct b.
  - unfold dispatch. rewrite Ha. unfold invoke. destruct (Hp h ltac:(left)) as [E|E]; rewrite E; cbn.
    + rewrite IH by (done || (intros; apply Hp; by right)). cbn. by rewrite <- app_assoc.
    + unfold log_panic. cbn. destruct (onPanic (cfg b)) eqn:Eo; rewrite IH by (done || (intros; apply Hp; by right)); cbn; rewrite Eo, <- ?app_assoc; done.
Qed.

(** Handlers that do nothing on the bus but panic are called each exactly once, in order, and the hook,
    if there is one, is told of each that panics; publishing comes back to the caller. *)
Theorem plain_handlers fuel t x b : async (cfg b) = false -> (forall s, s ∈ subs_of t b -> code (handler s) t x = [] \/ code (handler s) t x = [OPanic]) ->
  exists b', Publish code (S fuel) t x b = Some (b', SubscriberCount t b) /\ topics b' = topics b /\
  called b' = called b ++ ((fun s => (handler s, t, x)) <$> subs_of t b) /\ panics b' = panics b ++ (if onPanic (cfg b) then told t x (handler <$> subs_of t b) else []).
Proof.
  intros Ha Hp. cbn [Publish]. rewrite plain_all; [|intros h (s & -> & Hs)%list_elem_of_fmap; by apply Hp|done]. cbn. eexists. split; [unfold SubscriberCount; by rewrite length_fmap|].
  split; [done|]. split; [|done]. cbn. f_equal. by rewrite <- list_fmap_compose.
Qed.
End histories.

(** Handlers: 0 panics, 1 does nothing, 2 unsubscribes the third of its topic, 3 publishes what it is given. *)
Definition demo_code (h : nat) (t : string) (x : nat) : list (op nat nat) :=
  match h with 0 => [OPanic] | 2 => [OUnsubscribe t 3] | 3 => [OPublish t x] | _ => [] end%nat.
Definition demo : list (@call nat nat) := [CSubscribe "a" 2; CSubscribe "a" 0; CSubscribe "a" 1]%nat.

Lemma unsubscribe_one_witness : exists b, run demo_code 5 (demo ++ [CPublish "a" 7%nat]) (New (MkConfig false true)) = Some b /\
  subs_of "a" b = [MkSub 1 2%nat; MkSub 2 0%nat] /\ subs_of "a" (remove "a" 1 b) = filter (fun s => id s <> 1) (subs_of "a" b).
Proof.
  eexists. split; [vm_compute; reflexivity|]. split; [vm_compute; reflexivity|].
  destruct (unsubscribe_one demo_code 5 (MkConfig false true) (demo ++ [CPublish "a" 7%nat]) _ "a" 1 ltac:(vm_compute; reflexivity) eq_refl) as [Hr _].
  exact (Hr "a"%string).
Defined.

Lemma publish_calls_each_witness : exists b b', run demo_code 5 demo (New (MkConfig false true)) = Some b /\
  Publish demo_code 5 "a" 7%nat b = Some (b', SubscriberCount "a" b) /\ called b' = [(2, "a"%string, 7); (0, "a"%string, 7); (1, "a"%string, 7)]%nat /\
  exists l, called b' = called b ++ l /\ ((fun s => (handler s, "a"%string, 7%nat)) <$> subs_of "a" b) `sublist_of` l.
Proof.
  eexists _, _. split; [vm_compute; reflexivity|]. split; [vm_compute; reflexivity|]. split; [vm_compute; reflexivity|].
  match goal with |- exists l, called ?b1 = called ?b0 ++ l /\ _ => exact (proj2 (publish_calls_each demo_code 5 "a" 7%nat b0 b1 3 ltac:(vm_compute; reflexivity))) end.
Defined.

Lemma plain_handlers_witness : exists b b', run demo_code 5 (drop 1 demo) (New (MkConfig false true)) = Some b /\
  Publish demo_code 1 "a" 7%nat b = Some (b', SubscriberCount "a" b) /\ panics b' = ["a"%string].
Proof.
  eexists. destruct (plain_handlers demo_code 0 "a" 7%nat (MkBus (MkConfig false true) {["a"%string := [MkSub 1 0%nat; MkSub 2 1%nat]]} 2 [] [] [] 2) eq_refl) as (b' & H1 & _ & _ & H2).
  - intros s [->|Hs]%elem_of_cons; [by right|]. apply list_elem_of_singleton in Hs as ->. by left.
  - exists b'. split; [vm_compute; reflexivity|]. split; [exact H1|exact H2].
Defined.

(** A handler that publishes on its own topic never comes back: no depth of calls is enough. *)
Theorem self_publish_spins fuel b : async (cfg b) = false -> handler <$> subs_of "a" b = [3%nat] -> Publish demo_code fuel "a" 7%nat b = None.
Proof.
  revert b. induction fuel as [|fuel IH]; intros b Ha Hs; [done|]. cbn [Publish]. rewrite Hs. cbn. unfold dispatch, invoke. rewrite Ha. cbn. by rewrite IH.
Qed.
Lemma self_publish_spins_witness : Publish demo_code 100 "a" 7%nat (Subscribe "a" 3%nat (New (MkConfig false false))).1 = None.
Proof. apply (self_publish_spins 100); vm_compute; reflexivity. Defined.
