(* ===== verification/Loot.v ===== *)
(** Weighted draws ([pkg/game/loot/loot.go], [pity.go]): the alias table and the draws from it, and the
    draws with a guarantee. The program computes with [float64]; the definitions are for any numbers, so
    that the method can also be judged on the rationals, where nothing is rounded. *)
From Stdlib Require Import ZArith Lia Lqa Bool QArith Qcanon Field.
From stdpp Require Import base numbers strings list sets.
From S2P Require Import Prelude Float64.

Open Scope Z_scope.

(** * Numbers *)

Class Num (F : Type) := {
  nadd : F -> F -> F; nsub : F -> F -> F; nmul : F -> F -> F; ndiv : F -> F -> F;
  nltb : F -> F -> bool; nleb : F -> F -> bool; nofint : Z -> F
}.

#[export] Instance float64_Num : Num float64 := {
  nadd := fadd; nsub := fsub; nmul := fmul; ndiv := fdiv; nltb := fltb; nleb := fleb; nofint := of_int
}.
#[export] Instance Qc_Num : Num Qc := {
  nadd := Qcplus; nsub := Qcminus; nmul := Qcmult; ndiv := Qcdiv;
  nltb a b := bool_decide (a < b)%Qc; nleb a b := bool_decide (a <= b)%Qc; nofint z := Q2Qc (inject_Z z)
}.

Section loot.
Context {T F : Type} `{Num F}.

Record Item := MkItem { Value : T; Weight : F; Rarity : Z }.
Record Table := MkTable { items : list Item; prob : list F; alias : list Z; totalW : F }.
Inductive lErr := ErrEmptyTable.

(** Only positive weights count, in the order given. *)
Definition positive (it : Item) : bool := nltb (nofint 0) (Weight it).

(** The stacks [small] and [large] have their tops first. *)
Fixpoint split_loop (i : Z) (scaled : list F) (small large : list Z) : list Z * list Z :=
  match scaled with
  | [] => (small, large)
  | p :: scaled => if nltb p (nofint 1) then split_loop (i + 1) scaled (i :: small) large else split_loop (i + 1) scaled small (i :: large)
  end.

(** Each turn settles one bucket, so that one for each is enough. *)
Fixpoint alias_loop (fuel : nat) (scaled : list F) (small large : list Z) (prob : list F) (alias : list Z) : go (list F * list Z * list Z * list Z) :=
  match fuel, small, large with
  | S fuel, s :: small, l :: large =>
      ps ← index scaled s;
      prob ← set_index prob s ps;
      alias ← set_index alias s l;
      pl ← index scaled l;
      let pl := nsub (nadd pl ps) (nofint 1) in
      scaled ← set_index scaled l pl;
      if nltb pl (nofint 1) : bool then alias_loop fuel scaled (l :: small) large prob alias
      else alias_loop fuel scaled small (l :: large) prob alias
  | _, _, _ => Ret (prob, alias, small, large)
  end.

Fixpoint set_ones (l : list Z) (prob : list F) : go (list F) :=
  match l with [] => Ret prob | i :: l => prob ← set_index prob i (nofint 1); set_ones l prob end.

Definition buildAlias (items : list Item) (totalW : F) : go (list F * list Z) :=
  let n := length items in
  let scaled := (fun it => nmul (ndiv (Weight it) totalW) (nofint (Z.of_nat n))) <$> items in
  let '(small, large) := split_loop 0 scaled [] [] in
  '(prob, alias, small, large) ← alias_loop n scaled small large (replicate n (nofint 0)) (replicate n 0);
  prob ← set_ones (rev large) prob;
  prob ← set_ones (rev small) prob;
  Ret (prob, alias).

Definition NewTable (its : list Item) : go (result lErr Table) :=
  let its := List.filter positive its in
  let totalW := foldl (fun t it => nadd t (Weight it)) (nofint 0) its in
  if decide (its = []) then Ret (Err ErrEmptyTable)
  else '(prob, alias) ← buildAlias its totalW; Ret (Ok (MkTable its prob alias totalW)).

(** The random numbers are arguments: what [IntN] answers for its bound, and [u] of [Float64]. *)
Definition drawIndex (intn : Z -> Z) (u : F) (t : Table) : go Z :=
  let n := Z.of_nat (length (items t)) in
  let col := intn n in
  p ← index (prob t) col;
  if nltb u p : bool then Ret col else index (alias t) col.
Definition DrawItem (intn : Z -> Z) (u : F) (t : Table) : go Item := i ← drawIndex intn u t; index (items t) i.
Definition Draw (intn : Z -> Z) (u : F) (t : Table) : go T := it ← DrawItem intn u t; Ret (Value it).
Fixpoint DrawN (rs : list ((Z -> Z) * F)) (t : Table) : go (list T) :=
  match rs with [] => Ret [] | (intn, u) :: rs => v ← Draw intn u t; vs ← DrawN rs t; Ret (v :: vs) end.

(** The scan for the first bucket that [r] falls into, and the one for the last that is left. *)
Fixpoint pick_loop (r acc : F) (i : nat) (remaining : list F) : option nat :=
  match remaining with
  | [] => None
  | w :: remaining =>
      if nleb w (nofint 0) then pick_loop r acc (S i) remaining
      else
        let acc := nadd acc w in
        if nltb r acc then Some i else pick_loop r acc (S i) remaining
  end.
Definition last_left (remaining : list F) : option nat :=
  last (omap (fun p => if nltb (nofint 0) p.2 then Some p.1 else None) (imap pair remaining)).

(** One turn for each random number; the values are those of the indices drawn. *)
Fixpoint distinct_loop (us : list F) (remaining : list F) (total : F) : list nat :=
  match us with
  | [] => []
  | u :: us =>
      let r := nmul u total in
      match match pick_loop r (nofint 0) 0 remaining with Some i => Some i | None => last_left remaining end with
      | None => []
      | Some pick =>
          let w := default (nofint 0) (remaining !! pick) in
          pick :: distinct_loop us (<[pick := nofint 0]> remaining) (nsub total w)
      end
  end.
Definition DrawDistinct (us : list F) (t : Table) : list T :=
  let us := take (length (items t)) us in
  let total := foldl (fun a it => nadd a (Weight it)) (nofint 0) (items t) in
  omap (fun i => Value <$> items t !! i) (distinct_loop us (Weight <$> items t) total).

Definition Len (t : Table) : Z := Z.of_nat (length (items t)).
Definition TotalWeight (t : Table) : F := totalW t.

(** ** The guarantee *)

Record Puller := MkPuller { table : Table; highTable : option Table; pityLimit : Z; pityRare : Z; miss : Z }.

Definition NewPuller (t : Table) (limit rarity : Z) : go Puller :=
  if 0 <? limit then
    let high := List.filter (fun it => rarity <=? Rarity it) (items t) in
    match high with
    | [] => Ret (MkPuller t None limit rarity 0)
    | _ => r ← NewTable high; Ret (MkPuller t (match r with Ok h => Some h | Err _ => None end) limit rarity 0)
    end
  else Ret (MkPuller t None limit rarity 0).

Definition set_miss (n : Z) (p : Puller) : Puller := MkPuller (table p) (highTable p) (pityLimit p) (pityRare p) n.

Definition pDraw (intn : Z -> Z) (u : F) (p : Puller) : go (Puller * Item * bool) :=
  let natural :=
    it ← DrawItem intn u (table p);
    Ret (if (0 <? pityLimit p) && (pityRare p <=? Rarity it) then set_miss 0 p
         else if 0 <? pityLimit p then set_miss (wrap64 (miss p + 1)) p else p, it, false) in
  match highTable p with
  | Some h =>
      if (0 <? pityLimit p) && (pityLimit p <=? miss p) then it ← DrawItem intn u h; Ret (set_miss 0 p, it, true)
      else natural
  | None => natural
  end.
Fixpoint pDrawN (rs : list ((Z -> Z) * F)) (p : Puller) : go (Puller * list (Item * bool)) :=
  match rs with
  | [] => Ret (p, [])
  | (intn, u) :: rs => '(p, it, b) ← pDraw intn u p; '(p, l) ← pDrawN rs p; Ret (p, (it, b) :: l)
  end.
Definition Misses (p : Puller) : Z := miss p.
Definition Reset (p : Puller) : Puller := set_miss 0 p.
End loot.

Arguments Item : clear implicits.
Arguments Table : clear implicits.
Arguments Puller : clear implicits.

(** * The table is well-formed *)

Section shape.
Context {T F : Type} `{Num F}.

Lemma index_nat {A} (l : list A) (i : nat) x : l !! i = Some x -> index l (Z.of_nat i) = Ret x.
Proof. apply index_lookup. Qed.
Lemma set_index_nat {A} (l : list A) (i : nat) x : (i < length l)%nat -> set_index l (Z.of_nat i) x = Ret (<[i := x]> l).
Proof. apply set_index_lt. Qed.

Definition zs (l : list nat) : list Z := Z.of_nat <$> l.

(** A turn of the loop, on natural numbers. *)
Lemma alias_loop_inv (R : list F -> list nat -> list nat -> list F -> list nat -> Prop) (n : nat) :
  (forall scaled s small l large prob alias ps pl, R scaled (s :: small) (l :: large) prob alias -> NoDup ((s :: small) ++ l :: large) ->
     length prob = n -> length alias = n -> (s < n)%nat -> (l < n)%nat -> scaled !! s = Some ps -> scaled !! l = Some pl ->
     let pl' := nsub (nadd pl ps) (nofint 1) in
     R (<[l := pl']> scaled) (if nltb pl' (nofint 1) then l :: small else small) (if nltb pl' (nofint 1) then large else l :: large)
       (<[s := ps]> prob) (<[s := l]> alias)) ->
  forall fuel scaled small large prob alias, length scaled = n -> length prob = n -> length alias = n ->
    Forall (fun i => (i < n)%nat) (small ++ large) -> NoDup (small ++ large) -> (length small + length large <= fuel)%nat ->
    R scaled small large prob alias ->
    exists scaled' small' large' prob' alias', alias_loop fuel scaled (zs small) (zs large) prob (zs alias) = Ret (prob', zs alias', zs small', zs large') /\
      R scaled' small' large' prob' alias' /\ length scaled' = n /\ length prob' = n /\ length alias' = n /\
      Forall (fun i => (i < n)%nat) (small' ++ large') /\ NoDup (small' ++ large') /\ (small' = [] \/ large' = []).
Proof.
  intros Hstep. induction fuel as [|fuel IH]; intros scaled small large prob alias Hs Hp Ha Hr Hd Hf HR.
  { destruct small, large; try (cbn in Hf; lia). exists scaled, [], [], prob, alias. split_and!; auto. }
  destruct small as [|s small]; [exists scaled, [], large, prob, alias; split_and!; auto|].
  destruct large as [|l large]; [exists scaled, (s :: small), [], prob, alias; split_and!; auto|].
  assert (s < n)%nat as Hsn by (rewrite Forall_forall in Hr; apply Hr; set_solver).
  assert (l < n)%nat as Hln by (rewrite Forall_forall in Hr; apply Hr; set_solver).
  destruct (lookup_lt_is_Some_2 scaled s ltac:(lia)) as [ps Eps]. destruct (lookup_lt_is_Some_2 scaled l ltac:(lia)) as [pl Epl].
  change (zs (s :: small)) with (Z.of_nat s :: zs small). change (zs (l :: large)) with (Z.of_nat l :: zs large). cbn [alias_loop]. rewrite (index_nat _ _ _ Eps). cbn [mbind go_bind]. rewrite (set_index_nat prob) by lia. cbn [mbind go_bind].
  rewrite (set_index_nat (zs alias)) by (unfold zs; rewrite length_fmap; lia). cbn [mbind go_bind]. rewrite (index_nat _ _ _ Epl). cbn [mbind go_bind]. rewrite (set_index_nat scaled) by lia. cbn [mbind go_bind].
  specialize (Hstep scaled s small l large prob alias ps pl HR Hd Hp Ha Hsn Hln Eps Epl). cbv zeta in Hstep. set (pl' := nsub (nadd pl ps) (nofint 1)) in *.
  assert (<[s := Z.of_nat l]> (zs alias) = zs (<[s := l]> alias)) as -> by (unfold zs; by rewrite list_fmap_insert). cbn [app] in Hd, Hr. apply NoDup_cons in Hd as [Hni Hd].
  destruct (nltb pl' (nofint 1)).
  - apply (IH (<[l := pl']> scaled) (l :: small) large (<[s := ps]> prob) (<[s := l]> alias)); rewrite ?length_insert; try done.
    + rewrite Forall_forall in *. intros i Hi. apply Hr. set_solver.
    + cbn. by rewrite Permutation_middle.
    + cbn in *; lia.
  - apply (IH (<[l := pl']> scaled) small (l :: large) (<[s := ps]> prob) (<[s := l]> alias)); rewrite ?length_insert; try done.
    + rewrite Forall_forall in *. intros i Hi. apply Hr. set_solver.
    + cbn in *; lia.
Qed.

Lemma split_loop_spec (scaled : list F) : forall k small large, exists sm lg, split_loop (Z.of_nat k) scaled small large = (zs sm ++ small, zs lg ++ large) /\
  sm ++ lg ≡ₚ seq k (length scaled) /\
  Forall (fun i => exists p, scaled !! (i - k)%nat = Some p /\ nltb p (nofint 1) = true) sm /\ Forall (fun i => exists p, scaled !! (i - k)%nat = Some p /\ nltb p (nofint 1) = false) lg.
Proof.
  induction scaled as [|p scaled IH]; intros k small large; cbn [split_loop]; [exists [], []; by split_and!|].
  replace (Z.of_nat k + 1) with (Z.of_nat (S k)) by lia.
  assert (forall (P : F -> Prop) l, Forall (fun i => (S k <= i)%nat) l -> Forall (fun i => exists q, scaled !! (i - S k)%nat = Some q /\ P q) l -> Forall (fun i => exists q, (p :: scaled) !! (i - k)%nat = Some q /\ P q) l) as Hs.
  { intros P l Hk Hl. rewrite Forall_forall in *. intros i Hi. destruct (Hl i Hi) as (q & Hq & HP). exists q. split; [|done].
    specialize (Hk i Hi). replace (i - k)%nat with (S (i - S k)) by lia. done. }
  assert (forall sm lg, sm ++ lg ≡ₚ seq (S k) (length scaled) -> Forall (fun i => (S k <= i)%nat) sm /\ Forall (fun i => (S k <= i)%nat) lg) as Hr.
  { intros sm lg Hp. apply Forall_app. rewrite Hp. apply Forall_forall. intros i Hi%elem_of_seq. lia. }
  destruct (nltb p (nofint 1)) eqn:E.
  - destruct (IH (S k) (Z.of_nat k :: small) large) as (sm & lg & -> & Hp & H1 & H2). destruct (Hr _ _ Hp) as [R1 R2]. exists (sm ++ [k]), lg. split_and!.
    + unfold zs. by rewrite fmap_app, <- app_assoc.
    + rewrite <- app_assoc. cbn. rewrite <- Permutation_middle. by rewrite Hp.
    + apply Forall_app. split; [by apply (Hs (fun p => nltb p (nofint 1) = true))|]. constructor; [|done]. exists p. by rewrite Nat.sub_diag.
    + by apply (Hs (fun p => nltb p (nofint 1) = false)).
  - destruct (IH (S k) small (Z.of_nat k :: large)) as (sm & lg & -> & Hp & H1 & H2). destruct (Hr _ _ Hp) as [R1 R2]. exists sm, (lg ++ [k]). split_and!.
    + unfold zs. by rewrite fmap_app, <- app_assoc.
    + rewrite app_assoc, <- (Permutation_cons_append (sm ++ lg)). cbn. by rewrite Hp.
    + by apply (Hs (fun p => nltb p (nofint 1) = true)).
    + apply Forall_app. split; [by apply (Hs (fun p => nltb p (nofint 1) = false))|]. constructor; [|done]. exists p. by rewrite Nat.sub_diag.
Qed.

Definition ones (l : list nat) (prob : list F) : list F := foldl (fun prob i => <[i := nofint 1]> prob) prob l.
Lemma set_ones_spec l : forall prob : list F, Forall (fun i => (i < length prob)%nat) l -> set_ones (zs l) prob = Ret (ones l prob).
Proof.
  induction l as [|i l IH]; intros prob Hl; [done|]. inversion Hl; subst. cbn. rewrite set_index_nat by done. cbn. apply IH. by rewrite length_insert.
Qed.
Lemma loot_ones_length l (prob : list F) : length (ones l prob) = length prob.
Proof. revert prob. induction l as [|i l IH]; intros prob; [done|]. etrans; [apply (IH (<[i := nofint 1]> prob))|apply length_insert]. Qed.
Lemma ones_lookup l : forall (prob : list F) i, (i < length prob)%nat -> ones l prob !! i = if decide (i ∈ l) then Some (nofint 1) else prob !! i.
Proof.
  induction l as [|j l IH]; intros prob i Hi; cbn [ones foldl]; [by rewrite decide_False by apply not_elem_of_nil|].
  change (foldl _ (<[j:=nofint 1]> prob) l) with (ones l (<[j:=nofint 1]> prob)). rewrite IH by (by rewrite length_insert).
  destruct (decide (i ∈ l)); [by rewrite decide_True by (by right)|]. destruct (decide (i = j)) as [->|Hd].
  - rewrite list_lookup_insert_eq by done. by rewrite decide_True by left.
  - rewrite list_lookup_insert_ne by done. rewrite decide_False; [done|]. by intros [->|?]%elem_of_cons.
Qed.
End shape.

Section built.
Context {T F : Type} `{Num F}.

Definition scaled_of (its : list (Item T F)) (W : F) : list F := (fun it => nmul (ndiv (Weight it) W) (nofint (Z.of_nat (length its)))) <$> its.
Definition below (scaled : list F) (b : bool) (i : nat) : Prop := exists p, scaled !! i = Some p /\ nltb p (nofint 1) = b.

Lemma buildAlias_inv (R : list F -> list nat -> list nat -> list F -> list nat -> Prop) (its : list (Item T F)) (W : F) :
  let n := length its in
  (forall scaled s small l large prob alias ps pl, R scaled (s :: small) (l :: large) prob alias -> NoDup ((s :: small) ++ l :: large) ->
     length prob = n -> length alias = n -> (s < n)%nat -> (l < n)%nat -> scaled !! s = Some ps -> scaled !! l = Some pl ->
     let pl' := nsub (nadd pl ps) (nofint 1) in
     R (<[l := pl']> scaled) (if nltb pl' (nofint 1) then l :: small else small) (if nltb pl' (nofint 1) then large else l :: large)
       (<[s := ps]> prob) (<[s := l]> alias)) ->
  (forall sm lg, sm ++ lg ≡ₚ seq 0 n -> Forall (below (scaled_of its W) true) sm -> Forall (below (scaled_of its W) false) lg ->
     R (scaled_of its W) sm lg (replicate n (nofint 0)) (replicate n 0%nat)) ->
  exists scaled sm lg prob alias, buildAlias its W = Ret (ones (rev sm) (ones (rev lg) prob), zs alias) /\ R scaled sm lg prob alias /\
    length prob = n /\ length alias = n /\ Forall (fun i => (i < n)%nat) (sm ++ lg) /\ NoDup (sm ++ lg) /\ (sm = [] \/ lg = []).
Proof.
  intros n Hstep Hinit. unfold buildAlias. change ((fun it => nmul (ndiv (Weight it) W) (nofint (Z.of_nat (length its)))) <$> its) with (scaled_of its W).
  assert (length (scaled_of its W) = n) as Hl by apply length_fmap.
  destruct (split_loop_spec (scaled_of its W) 0 [] []) as (sm & lg & E & Hp & H1 & H2). change (Z.of_nat 0) with 0 in E. rewrite E, !app_nil_r. rewrite Hl in Hp.
  assert (Forall (below (scaled_of its W) true) sm /\ Forall (below (scaled_of its W) false) lg) as [B1 B2].
  { split; [eapply Forall_impl; [exact H1|]|eapply Forall_impl; [exact H2|]]; cbn; intros i (p & Hi & Hb); rewrite Nat.sub_0_r in Hi; by exists p. }
  fold n. assert (zs (replicate n 0%nat) = replicate n 0) as <- by (unfold zs; by rewrite fmap_replicate).
  destruct (alias_loop_inv R n Hstep n (scaled_of its W) sm lg (replicate n (nofint 0)) (replicate n 0%nat)) as (sc & sm' & lg' & pr & al & -> & HR & Hs & Hpr & Hal & Hr & Hnd & He);
    rewrite ?length_replicate; try done.
  - rewrite Hp. apply Forall_forall. intros i Hi%elem_of_seq. lia.
  - rewrite Hp. apply NoDup_seq.
  - pose proof (Permutation_length Hp) as HL. rewrite length_app, length_seq in HL. lia.
  - by apply Hinit.
  - cbn [mbind go_bind]. exists sc, sm', lg', pr, al. assert (forall l, rev (zs l) = zs (rev l)) as Hrev by (intros l; unfold zs; symmetry; apply map_rev).
    apply Forall_app in Hr as [Hr1 Hr2]. assert (forall (P : nat -> Prop) l, Forall P l -> Forall P (rev l)) as Hfr.
    { intros P l Hl'. rewrite Forall_forall in *. intros i Hi. apply Hl'. apply list_elem_of_In. apply in_rev. by apply list_elem_of_In. }
    rewrite !Hrev. rewrite set_ones_spec by (rewrite Hpr; by apply Hfr). cbn [mbind go_bind]. rewrite set_ones_spec by (rewrite loot_ones_length, Hpr; by apply Hfr).
    cbn [mbind go_bind]. split_and!; try done. by apply Forall_app.
Qed.

(** Every bucket leads to an item, whatever the numbers do. *)
Record table_ok (t : Table T F) : Prop := {
  t_items : items t <> [];
  t_positive : Forall (fun it => positive it = true) (items t);
  t_prob : length (prob t) = length (items t);
  t_alias : length (alias t) = length (items t);
  t_range : Forall (fun a => 0 <= a < Z.of_nat (length (items t))) (alias t)
}.

Lemma NewTable_ok (its : list (Item T F)) : exists r, NewTable its = Ret r /\
  match r with Ok t => table_ok t /\ items t = List.filter positive its | Err _ => List.filter positive its = [] end.
Proof.
  unfold NewTable. set (l := List.filter positive its). destruct (decide (l = [])) as [E|E]; [by eexists|].
  destruct (buildAlias_inv (fun _ _ _ _ alias => Forall (fun a => (a < length l)%nat) alias) l (foldl (fun t it => nadd t (Weight it)) (nofint 0) l))
    as (sc & sm & lg & pr & al & -> & HR & Hp & Ha & _).
  - intros scaled s small l' large prob alias ps pl HR _ _ _ Hs Hl _ _ pl'. by apply Forall_insert.
  - intros sm lg _ _ _. apply Forall_replicate. apply Nat.neq_0_lt_0. by intros E0%nil_length_inv.
  - cbn [mbind go_bind]. eexists. split; [done|]. split; [|done]. split; cbn; try done.
    + apply Forall_forall. intros it Hit. apply list_elem_of_In in Hit. unfold l in Hit. by apply List.filter_In in Hit as [_ Hit].
    + by rewrite !loot_ones_length.
    + unfold zs. by rewrite length_fmap.
    + unfold zs. apply Forall_fmap. eapply Forall_impl; [exact HR|]. cbn. lia.
Qed.

(** What [drawIndex] draws. *)
Definition drawn (col : nat) (u : F) (t : Table T F) : nat :=
  match prob t !! col, alias t !! col with
  | Some p, Some a => if nltb u p then col else Z.to_nat a
  | _, _ => col
  end.

Definition fair (intn : Z -> Z) : Prop := forall n, 0 < n -> 0 <= intn n < n.

Lemma DrawItem_ok t intn u : table_ok t -> fair intn ->
  let col := Z.to_nat (intn (Z.of_nat (length (items t)))) in
  (col < length (items t))%nat /\ exists it, items t !! drawn col u t = Some it /\
  drawIndex intn u t = Ret (Z.of_nat (drawn col u t)) /\ DrawItem intn u t = Ret it.
Proof.
  intros [] Hf col. assert (0 < Z.of_nat (length (items t))) as Hn by (destruct (items t); [done|cbn; lia]). specialize (Hf _ Hn).
  assert (intn (Z.of_nat (length (items t))) = Z.of_nat col) as Ei by (unfold col; lia). assert (col < length (items t))%nat as Hc by lia. split; [done|].
  unfold DrawItem, drawIndex, drawn. rewrite Ei. destruct (lookup_lt_is_Some_2 (prob t) col ltac:(lia)) as [p Ep]. destruct (lookup_lt_is_Some_2 (alias t) col ltac:(lia)) as [a Ea].
  pose proof (Forall_lookup_1 _ _ _ _ t_range0 Ea) as Hr. cbn in Hr. rewrite (index_nat _ _ _ Ep), Ep, Ea. cbn [mbind go_bind].
  set (j := if nltb u p then col else Z.to_nat a). assert ((if nltb u p then Ret (Z.of_nat col) else index (alias t) (Z.of_nat col)) = Ret (Z.of_nat j)) as ->.
  { unfold j. destruct (nltb u p); [done|]. rewrite (index_nat _ _ _ Ea). f_equal. lia. }
  assert ((j < length (items t))%nat) as Hj by (unfold j; destruct (nltb u p); lia). destruct (lookup_lt_is_Some_2 _ _ Hj) as [it Eit]. exists it. split; [done|]. split; [done|].
  cbn [mbind go_bind]. by apply index_nat.
Qed.

(** ** The guarantee *)

Definition rare (p : Puller T F) (it : Item T F) : Prop := pityRare p <= Rarity it.

Record puller_ok (p : Puller T F) : Prop := {
  p_table : table_ok (table p);
  p_high : exists h, highTable p = Some h /\ table_ok h /\ Forall (rare p) (items h) /\ forall it, it ∈ items h -> it ∈ items (table p);
  p_limit : 0 < pityLimit p < 2 ^ 62;
  p_miss : 0 <= miss p <= pityLimit p
}.

Lemma NewPuller_ok t limit rarity : table_ok t -> 0 < limit < 2 ^ 62 -> Exists (fun it => rarity <= Rarity it) (items t) ->
  exists p, NewPuller t limit rarity = Ret p /\ puller_ok p /\ pityLimit p = limit /\ pityRare p = rarity /\ table p = t /\ miss p = 0.
Proof.
  intros Ht Hl He. unfold NewPuller. rewrite (proj2 (Z.ltb_lt 0 limit)) by lia. set (high := List.filter _ (items t)).
  assert (forall it, it ∈ high <-> it ∈ items t /\ rarity <= Rarity it) as Hin.
  { intros it. unfold high. rewrite !list_elem_of_In, List.filter_In. by rewrite Z.leb_le. }
  assert (high <> []) as Hne.
  { apply Exists_exists in He as (it & Hit & Hr). intros E. assert (it ∈ high) as Hi by (apply Hin; done). rewrite E in Hi. set_solver. }
  destruct (NewTable_ok high) as (r & Er & Hok). assert (List.filter positive high = high) as Ef.
  { assert (Forall (fun it => positive it = true) high) as Hp. { apply Forall_forall. intros it [Hit _]%Hin. pose proof (t_positive t Ht) as Hp. rewrite Forall_forall in Hp. by apply Hp. }
    clear -Hp. induction Hp as [|it l Hi Hp IH]; [done|]. cbn. by rewrite Hi, IH. }
  destruct high as [|it0 l0] eqn:Eh; [done|]. rewrite Er. cbn [mbind go_bind]. destruct r as [h|]; [|by rewrite Hok in Ef]. destruct Hok as [Hok Ei]. rewrite Ef in Ei.
  eexists. split; [done|]. split; [|done]. split; cbn; try done; [|lia]. exists h. split; [done|]. split; [done|]. rewrite Ei. split.
  - apply Forall_forall. intros it Hit. by apply Hin.
  - intros it Hit. by apply Hin.
Qed.

Lemma pDraw_ok p intn u : puller_ok p -> fair intn -> exists p' it b, pDraw intn u p = Ret (p', it, b) /\ puller_ok p' /\
  pityLimit p' = pityLimit p /\ pityRare p' = pityRare p /\ table p' = table p /\ it ∈ items (table p) /\ (b = true <-> miss p = pityLimit p) /\
  (rare p it /\ miss p' = 0 \/ ~ rare p it /\ miss p' = miss p + 1 /\ miss p < pityLimit p).
Proof.
  intros Hp Hf. destruct (p_high p Hp) as (h & Eh & Hh & Hr & Hs). pose proof (p_limit p Hp). pose proof (p_miss p Hp). unfold pDraw. rewrite Eh, (proj2 (Z.ltb_lt 0 (pityLimit p))) by lia.
  cbn [andb]. destruct (Z.leb_spec (pityLimit p) (miss p)) as [E|E].
  - destruct (DrawItem_ok h intn u Hh Hf) as (_ & it & Hit & _ & ->). cbn [mbind go_bind]. apply list_elem_of_lookup_2 in Hit. eexists _, it, true. split; [done|].
    split; [destruct Hp; split; cbn; (done || lia)|]. do 3 (split; [done|]). split; [by apply Hs|]. split; [lia|]. left. split; [|done]. rewrite Forall_forall in Hr. by apply Hr.
  - destruct (DrawItem_ok (table p) intn u (p_table p Hp) Hf) as (_ & it & Hit & _ & ->). cbn [mbind go_bind]. apply list_elem_of_lookup_2 in Hit.
    cbn [andb]. rewrite wrap64_id by (unfold int64; lia). eexists _, it, false. split; [done|].
    destruct (Z.leb_spec (pityRare p) (Rarity it)) as [Er|Er]; (split; [destruct Hp; split; cbn; (done || lia)|]); do 3 (split; [done|]); (split; [done|]); (split; [split; [done|lia]|]).
    + by left.
    + right. split; [unfold rare; lia|]. cbn. lia.
Qed.

Lemma pDrawN_ok rs : forall p, puller_ok p -> Forall (fun r => fair r.1) rs -> exists p' l, pDrawN rs p = Ret (p', l) /\ puller_ok p' /\ length l = length rs /\
  Forall (fun r => r.1 ∈ items (table p)) l /\ ((Z.to_nat (pityLimit p - miss p + 1) <= length rs)%nat -> Exists (fun r => rare p r.1) (take (Z.to_nat (pityLimit p - miss p + 1)) l)) /\
  forall k, (k + Z.to_nat (pityLimit p + 1) <= length rs)%nat -> Exists (fun r => rare p r.1) (take (Z.to_nat (pityLimit p + 1)) (drop k l)).
Proof.
  induction rs as [|[intn u] rs IH]; intros p Hp Hf; pose proof (p_limit p Hp) as Hl; pose proof (p_miss p Hp) as Hm.
  - exists p, []. split; [done|]. split; [done|]. split; [done|]. split; [done|]. split; [cbn; lia|]. intros k Hk. cbn in Hk. lia.
  - inversion Hf as [|? ? Hf1 Hf2]; subst. cbn [pDrawN]. destruct (pDraw_ok p intn u Hp Hf1) as (p1 & it & b & -> & Hp1 & El & Er & Et & Hit & _ & Hcase). cbn [mbind go_bind].
    destruct (IH p1 Hp1 Hf2) as (p2 & l & -> & Hp2 & Hlen & Hall & Hfirst & Hw). cbn [mbind go_bind]. exists p2, ((it, b) :: l). rewrite Et, El in *. unfold rare in *. rewrite Er in *.
    split; [done|]. split; [done|]. split; [cbn; by rewrite Hlen|]. split; [by constructor|].
    assert (forall j, 0 < j -> pityRare p <= Rarity it \/ (0 < j - 1 /\ Exists (fun r => pityRare p <= Rarity r.1) (take (Z.to_nat (j - 1)) l)) -> Exists (fun r => pityRare p <= Rarity r.1) (take (Z.to_nat j) ((it, b) :: l))) as Hj.
    { intros j Hj Hc. replace (Z.to_nat j) with (S (Z.to_nat (j - 1))) by lia. cbn. destruct Hc as [Hc|[_ Hc]]; [by left|by right]. }
    assert ((Z.to_nat (pityLimit p - miss p + 1) <= S (length rs))%nat -> Exists (fun r => pityRare p <= Rarity r.1) (take (Z.to_nat (pityLimit p - miss p + 1)) ((it, b) :: l))) as Hfst.
    { intros Hle. apply Hj; [lia|]. destruct Hcase as [[Hr _]|(_ & Hm1 & Hlt)]; [by left|]. right. split; [lia|]. rewrite Hm1 in Hfirst.
      replace (pityLimit p - (miss p + 1) + 1) with (pityLimit p - miss p + 1 - 1) in Hfirst by lia. apply Hfirst. lia. }
    split; [exact Hfst|]. intros k Hk. destruct k as [|k]; [|apply Hw; cbn in Hk; lia]. rewrite drop_0.
    assert (Exists (fun r => pityRare p <= Rarity r.1) (take (Z.to_nat (pityLimit p - miss p + 1)) ((it, b) :: l))) as He by (apply Hfst; cbn in Hk; lia).
    replace (Z.to_nat (pityLimit p + 1)) with (Z.to_nat (pityLimit p - miss p + 1) + Z.to_nat (miss p))%nat by lia.
    rewrite <- (take_take_drop ((it, b) :: l) (Z.to_nat (pityLimit p - miss p + 1)) (Z.to_nat (miss p))). apply Exists_app. by left.
Qed.
End built.

(** * Draws without putting back *)

(** What the program uses of the order: zero is not positive, positive is not at most zero. *)
Class NumLaws F `{Num F} := {
  zero_not_positive : nltb (nofint 0 : F) (nofint 0) = false;
  zero_at_most : nleb (nofint 0 : F) (nofint 0) = true;
  positive_above (w : F) : nltb (nofint 0) w = true -> nleb w (nofint 0) = false
}.

#[export] Instance float64_NumLaws : NumLaws float64.
Proof.
  split; [reflexivity|reflexivity|]. intros w. cbn. change (of_int 0) with (SpecFloat.S754_zero false). destruct w as [s|s| |s m e]; try done; destruct s; done.
Qed.
#[export] Instance Qc_NumLaws : NumLaws Qc.
Proof.
  split; cbn; [by rewrite bool_decide_false|by rewrite bool_decide_true|]. intros w Hw%bool_decide_eq_true. apply bool_decide_eq_false. by apply Qclt_not_le.
Qed.

Section distinct.
Context {T F : Type} `{NumLaws F}.

(** The weights that are left are positive, those drawn are zero. *)
Definition weights_ok (drawn : list nat) (remaining : list F) : Prop :=
  forall i w, remaining !! i = Some w -> if decide (i ∈ drawn) then w = nofint 0 else nltb (nofint 0) w = true.

Lemma pick_loop_spec r (rem : list F) : forall acc k i, pick_loop r acc k rem = Some i -> (k <= i)%nat /\ exists w, rem !! (i - k)%nat = Some w /\ nleb w (nofint 0) = false.
Proof.
  induction rem as [|w rem IH]; intros acc k i E; [done|]. cbn in E.
  assert (forall acc, pick_loop r acc (S k) rem = Some i -> (k <= i)%nat /\ exists w', (w :: rem) !! (i - k)%nat = Some w' /\ nleb w' (nofint 0) = false) as Hs.
  { intros acc' E'. apply IH in E' as (Hk & w' & Hw & Hl). split; [lia|]. exists w'. replace (i - k)%nat with (S (i - S k)) by lia. done. }
  destruct (nleb w (nofint 0)) eqn:Ew; [by eapply Hs|]. destruct (nltb r (nadd acc w)); [|by eapply Hs]. injection E as <-. split; [done|]. exists w. by rewrite Nat.sub_diag.
Qed.

Lemma last_left_spec (rem : list F) : match last_left rem with
  | Some i => exists w, rem !! i = Some w /\ nltb (nofint 0) w = true
  | None => forall i w, rem !! i = Some w -> nltb (nofint 0) w = false end.
Proof.
  unfold last_left. assert (forall i, i ∈ omap (fun p : nat * F => if nltb (nofint 0) p.2 then Some p.1 else None) (imap pair rem) <-> exists w, rem !! i = Some w /\ nltb (nofint 0) w = true) as Hin.
  { intros i. rewrite list_elem_of_omap. split.
    - intros ([j w] & Hj & E). cbn in E. destruct (nltb (nofint 0) w) eqn:Ew; [|done]. injection E as <-. apply list_elem_of_lookup in Hj as [m Hm].
      rewrite list_lookup_imap in Hm. destruct (rem !! m) as [w'|] eqn:Ew'; [|done]. cbn in Hm. injection Hm as <- <-. by exists w'.
    - intros (w & Hw & Ew). exists (i, w). cbn. rewrite Ew. split; [|done]. apply list_elem_of_lookup. exists i. rewrite list_lookup_imap, Hw. done. }
  destruct (last _) as [i|] eqn:El.
  - apply Hin. by apply last_Some_elem_of.
  - apply last_None in El. intros i w Hw. destruct (nltb (nofint 0) w) eqn:Ew; [|done]. assert (i ∈ ([] : list nat)) as Hi by (rewrite <- El; apply Hin; by exists w). by apply not_elem_of_nil in Hi.
Qed.

Lemma indices_le (l : list nat) n : NoDup l -> Forall (fun i => (i < n)%nat) l -> (length l <= n)%nat.
Proof.
  intros Hnd Hr. assert (l ⊆+ seq 0 n) as Hsub; [|apply submseteq_length in Hsub; by rewrite length_seq in Hsub]. apply NoDup_submseteq; [done|].
  intros i Hi. rewrite Forall_forall in Hr. apply elem_of_seq. specialize (Hr i Hi). lia.
Qed.

Lemma distinct_loop_ok us : forall (rem : list F) total dr, weights_ok dr rem -> NoDup dr -> Forall (fun i => (i < length rem)%nat) dr ->
  let l := distinct_loop us rem total in
  NoDup (l ++ dr) /\ Forall (fun i => (i < length rem)%nat) l /\ length l = Nat.min (length us) (length rem - length dr).
Proof.
  induction us as [|u us IH]; intros rem total dr Hw Hnd Hr l; unfold l; cbn [distinct_loop].
  { split; [done|]. split; [done|]. cbn. lia. }
  set (pk := match pick_loop _ _ _ _ with Some i => Some i | None => last_left rem end). destruct pk as [i|] eqn:Epk; unfold pk in Epk.
  - assert (exists w, rem !! i = Some w /\ i ∉ dr) as (w & Ew & Hni).
    { destruct (pick_loop _ _ _ _) as [j|] eqn:Ep.
      - injection Epk as ->. apply pick_loop_spec in Ep as (_ & w & Ew & Hl). rewrite Nat.sub_0_r in Ew. exists w. split; [done|]. intros Hin. specialize (Hw i w Ew). rewrite decide_True in Hw by done. subst w. by rewrite zero_at_most in Hl.
      - pose proof (last_left_spec rem) as Hl. rewrite Epk in Hl. destruct Hl as (w & Ew & Hp). exists w. split; [done|]. intros Hin. specialize (Hw i w Ew). rewrite decide_True in Hw by done. subst w. by rewrite zero_not_positive in Hp. }
    pose proof (lookup_lt_Some _ _ _ Ew) as Hlt. rewrite Ew. cbn [default from_option]. unfold id.
    destruct (IH (<[i := nofint 0]> rem) (nsub total w) (i :: dr)) as (H1 & H2 & H3).
    + intros j w' Ej. destruct (decide (j = i)) as [->|Hd].
      * rewrite list_lookup_insert_eq in Ej by done. injection Ej as <-. by rewrite decide_True by left.
      * rewrite list_lookup_insert_ne in Ej by done. specialize (Hw j w' Ej). destruct (decide (j ∈ dr)); [by rewrite decide_True by (by right)|]. rewrite decide_False; [done|]. by intros [->|?]%elem_of_cons.
    + by constructor.
    + rewrite length_insert. by constructor.
    + rewrite length_insert in *. pose proof (indices_le (i :: dr) (length rem) ltac:(by constructor) ltac:(by constructor)). cbn [length app] in *. split; [|split; [by constructor|lia]].
      rewrite <- Permutation_middle in H1. exact H1.
  - pose proof (indices_le dr (length rem) Hnd Hr) as Hle. assert (length dr = length rem) as Heq; [|split; [done|split; [done|]]; rewrite Heq; cbn [length]; lia].
    destruct (pick_loop _ _ _ _); [done|]. pose proof (last_left_spec rem) as Hl. rewrite Epk in Hl.
    assert (seq 0 (length rem) ⊆+ dr) as Hsub; [|apply submseteq_length in Hsub; rewrite length_seq in Hsub; lia].
    apply NoDup_submseteq; [apply NoDup_seq|]. intros i [_ Hi]%elem_of_seq. destruct (lookup_lt_is_Some_2 rem i Hi) as [w Ew]. destruct (decide (i ∈ dr)) as [|Hn]; [done|].
    specialize (Hw i w Ew). rewrite decide_False in Hw by done. by rewrite (Hl i w Ew) in Hw.
Qed.
End distinct.

(** * The method is exact on the rationals *)

(** To the order of [Q], where the arithmetic is decided. *)
Definition nq (n : nat) : Qc := nofint (Z.of_nat n).
Lemma this_plus a b : (this (a + b)%Qc == this a + this b)%Q.
Proof. apply Qred_correct. Qed.
Lemma this_minus a b : (this (a - b)%Qc == this a - this b)%Q.
Proof. unfold Qcminus. rewrite this_plus. unfold Qminus. apply Qplus_inj_l. apply Qred_correct. Qed.
Lemma this_nq n : (this (nq n) == inject_Z (Z.of_nat n))%Q.
Proof. apply Qred_correct. Qed.
Lemma this_eq (a b : Qc) : a = b -> (this a == this b)%Q.
Proof. by intros ->. Qed.
Lemma this_0 : (this 0%Qc == 0)%Q.
Proof. done. Qed.
Lemma this_1 : (this 1%Qc == 1)%Q.
Proof. done. Qed.
Ltac qc :=
  repeat match goal with E : @eq Qc _ _ |- _ => apply this_eq in E end;
  unfold Qcle, Qclt in *; try apply Qc_is_canon;
  repeat rewrite ?this_plus, ?this_minus, ?this_nq, ?this_0, ?this_1 in *; lra.
Lemma nq_S n : nq (S n) = (nq n + 1)%Qc.
Proof. apply Qc_is_canon. rewrite this_plus, !this_nq, Nat2Z.inj_succ. unfold Z.succ. by rewrite inject_Z_plus. Qed.

Definition qsum (f : nat -> Qc) (l : list nat) : Qc := foldr (fun j a => (f j + a)%Qc) 0%Qc l.

Lemma qsum_cons f j l : qsum f (j :: l) = (f j + qsum f l)%Qc.
Proof. done. Qed.
Lemma qsum_ext f g l : (forall j, j ∈ l -> f j = g j) -> qsum f l = qsum g l.
Proof. induction l as [|j l IH]; intros Hf; [done|]. rewrite !qsum_cons, Hf by left. f_equal. apply IH. intros k Hk. apply Hf. by right. Qed.
Lemma qsum_app f l k : qsum f (l ++ k) = (qsum f l + qsum f k)%Qc.
Proof. induction l as [|j l IH]; [cbn [app]; change (qsum f []) with 0%Qc; ring|]. cbn [app]. rewrite !qsum_cons, IH. ring. Qed.
Lemma qsum_perm f l k : l ≡ₚ k -> qsum f l = qsum f k.
Proof. induction 1 as [|j l k _ IH|i j l|? ? ? _ IH1 _ IH2]; rewrite ?qsum_cons; [done|by rewrite IH|ring|congruence]. Qed.
Lemma qsum_at f i l : NoDup l -> qsum (fun j => if decide (j = i) then f j else 0%Qc) l = if decide (i ∈ l) then f i else 0%Qc.
Proof.
  induction 1 as [|j l Hj Hnd IH]; [by rewrite decide_False by apply not_elem_of_nil|]. rewrite qsum_cons, IH. destruct (decide (j = i)) as [->|Hd].
  - rewrite decide_False by done. rewrite decide_True by left. ring.
  - destruct (decide (i ∈ l)); [rewrite decide_True by (by right)|rewrite decide_False by (by intros [->|?]%elem_of_cons)]; ring.
Qed.
Lemma qsum_at_least l : forall f, (forall j, j ∈ l -> (1 <= f j)%Qc) -> (nq (length l) <= qsum f l)%Qc /\ (qsum f l = nq (length l) -> forall j, j ∈ l -> f j = 1%Qc).
Proof.
  induction l as [|j l IH]; intros f Hf; [split; [done|]; intros _ j Hin; by apply not_elem_of_nil in Hin|]. assert (1 <= f j)%Qc as H1 by (apply Hf; left).
  destruct (IH f) as [H2 H3]; [intros k Hk; apply Hf; by right|]. rewrite qsum_cons. cbn [length]. rewrite nq_S. split; [clear -H1 H2; qc|].
  intros Hs k [->|Hk]%elem_of_cons; [clear -H1 H2 Hs; qc|]. apply H3; [clear -H1 H2 Hs; qc|done].
Qed.
Lemma qsum_below l : forall f, (forall j, j ∈ l -> (f j < 1)%Qc) -> (qsum f l <= nq (length l))%Qc /\ (qsum f l = nq (length l) -> l = []).
Proof.
  induction l as [|j l IH]; intros f Hf; [done|]. assert (f j < 1)%Qc as H1 by (apply Hf; left).
  destruct (IH f) as [H2 H3]; [intros k Hk; apply Hf; by right|]. rewrite qsum_cons. cbn [length]. rewrite nq_S. split; [clear -H1 H2; qc|].
  intros Hs. exfalso. clear -H1 H2 Hs. qc.
Qed.

(** The chance that a draw that fell on bucket [j] gives item [i]: its random number is below [prob[j]] and the
    bucket is its own, or it is not and the alias is. *)
Definition at_ (l : list Qc) (j : nat) : Qc := default 0%Qc (l !! j).
Definition chance (prob : list Qc) (alias : list Z) (i j : nat) : Qc :=
  ((if decide (j = i) then at_ prob j else 0) + (if decide (alias !! j = Some (Z.of_nat i)) then 1 - at_ prob j else 0))%Qc.
Definition keep (i : nat) (l : list nat) (x : Qc) : Qc := if decide (i ∈ l) then x else 0%Qc.

(** Buckets [dn] are settled: their chances and what the others still carry make up the share of each item. *)
Record exact (sc0 : list Qc) (n : nat) (scaled : list Qc) (small large : list nat) (prob : list Qc) (alias : list nat) (dn : list nat) : Prop := {
  e_perm : dn ++ small ++ large ≡ₚ seq 0 n;
  e_small : forall i, i ∈ small -> (0 <= at_ scaled i)%Qc /\ (at_ scaled i < 1)%Qc;
  e_large : forall i, i ∈ large -> (1 <= at_ scaled i)%Qc;
  e_done : forall i, i ∈ dn -> (0 <= at_ prob i)%Qc /\ (at_ prob i <= 1)%Qc;
  e_sum : qsum (at_ scaled) (small ++ large) = nq (length (small ++ large));
  e_share : forall i, (i < n)%nat -> (keep i (small ++ large) (at_ scaled i) + qsum (chance prob (zs alias) i) dn)%Qc = at_ sc0 i
}.

Lemma at_insert l i x j : (i < length l)%nat -> at_ (<[i := x]> l) j = if decide (j = i) then x else at_ l j.
Proof.
  intros Hi. unfold at_. destruct (decide (j = i)) as [->|Hd]; [by rewrite list_lookup_insert_eq|]. by rewrite list_lookup_insert_ne.
Qed.
Lemma chance_ne prob alias s x a i j : j <> s -> chance (<[s := x]> prob) (zs (<[s := a]> alias)) i j = chance prob (zs alias) i j.
Proof. intros Hj. unfold chance, at_, zs. by rewrite list_fmap_insert, !list_lookup_insert_ne. Qed.
Lemma chance_eq prob alias s x a i : (s < length prob)%nat -> (s < length alias)%nat ->
  chance (<[s := x]> prob) (zs (<[s := a]> alias)) i s = ((if decide (s = i) then x else 0) + (if decide (a = i) then 1 - x else 0))%Qc.
Proof.
  intros H1 H2. unfold chance. rewrite at_insert by done. rewrite (decide_True (P := s = s)) by done. unfold zs. rewrite list_fmap_insert, list_lookup_insert_eq by (by rewrite length_fmap).
  f_equal. destruct (decide (a = i)) as [->|]; [by rewrite decide_True|]. rewrite decide_False; [done|]. intros E. injection E as E. lia.
Qed.
Lemma keep_perm i l k x : l ≡ₚ k -> keep i l x = keep i k x.
Proof. intros Hp. unfold keep. apply decide_ext. by rewrite Hp. Qed.
Lemma keep_cons i j l x : j ∉ l -> keep i (j :: l) x = ((if decide (i = j) then x else 0) + keep i l x)%Qc.
Proof.
  intros Hj. unfold keep. destruct (decide (i = j)) as [->|Hd].
  - rewrite decide_True by left. rewrite decide_False by done. ring.
  - destruct (decide (i ∈ l)); [rewrite decide_True by (by right)|rewrite decide_False by (by intros [->|?]%elem_of_cons)]; ring.
Qed.
Lemma keep_ext i l x y : (i ∈ l -> x = y) -> keep i l x = keep i l y.
Proof. intros Hx. unfold keep. destruct (decide (i ∈ l)); [by apply Hx|done]. Qed.

Section exact.
Context (sc0 : list Qc) (n : nat).

Lemma exact_step scaled s small l large prob alias dn : exact sc0 n scaled (s :: small) (l :: large) prob alias dn ->
  length scaled = n -> length prob = n -> length alias = n -> (s < n)%nat -> (l < n)%nat ->
  let ps := at_ scaled s in
  let pl' := (at_ scaled l + ps - 1)%Qc in
  let b := bool_decide (pl' < 1)%Qc in
  exact sc0 n (<[l := pl']> scaled) (if b then l :: small else small) (if b then large else l :: large) (<[s := ps]> prob) (<[s := l]> alias) (s :: dn).
Proof.
  intros [Hp Hsm Hlg Hdn Hsum Hsh] Ls Lp La Hs Hl ps pl' b. set (U := small ++ large).
  assert ((if b then l :: small else small) ++ (if b then large else l :: large) ≡ₚ l :: U) as HU.
  { unfold U. destruct b; [done|]. by rewrite Permutation_middle. }
  assert ((s :: small) ++ l :: large ≡ₚ s :: l :: U) as HU0 by (unfold U; cbn; apply perm_skip; symmetry; apply Permutation_middle).
  assert (NoDup (dn ++ s :: l :: U)) as Hnd by (rewrite <- HU0, Hp; apply NoDup_seq). apply NoDup_app in Hnd as (_ & Hdisj & Hnd).
  apply NoDup_cons in Hnd as [Hsni Hnd]. apply NoDup_cons in Hnd as [Hlni _]. assert (s <> l /\ s ∉ U) as [Hsl HsU] by (clear -Hsni; set_solver).
  assert (forall i, i ∈ U -> at_ (<[l := pl']> scaled) i = at_ scaled i) as Hat by (intros i Hi; rewrite at_insert by lia; rewrite decide_False; [done|]; intros ->; done).
  assert (at_ (<[l := pl']> scaled) l = pl') as Hatl by (rewrite at_insert by lia; by rewrite decide_True).
  destruct (Hsm s) as [H0 H1]; [left|]. assert (1 <= at_ scaled l)%Qc as H2 by (apply Hlg; left).
  split.
  - rewrite HU. rewrite <- Hp, HU0. cbn [app]. by rewrite Permutation_middle.
  - intros i Hi. destruct b eqn:Eb; [apply elem_of_cons in Hi as [->|Hi]|].
    + rewrite Hatl. apply bool_decide_eq_true in Eb. split; [|done]. unfold pl', ps in *. clear -H0 H2. qc.
    + rewrite Hat by (by apply elem_of_app; auto). apply Hsm. by right.
    + rewrite Hat by (by apply elem_of_app; auto). apply Hsm. by right.
  - intros i Hi. destruct b eqn:Eb; [|apply elem_of_cons in Hi as [->|Hi]].
    + rewrite Hat by (by apply elem_of_app; auto). apply Hlg. by right.
    + rewrite Hatl. apply bool_decide_eq_false in Eb. by apply Qcnot_lt_le.
    + rewrite Hat by (by apply elem_of_app; auto). apply Hlg. by right.
  - intros i Hi. rewrite at_insert by lia. destruct (decide (i = s)) as [->|Hd]; [split; [done|by apply Qclt_le_weak]|]. apply Hdn. by apply elem_of_cons in Hi as [->|Hi].
  - rewrite (qsum_perm _ _ _ HU), (Permutation_length HU), qsum_cons, Hatl, (qsum_ext _ (at_ scaled) U Hat). cbn [length]. rewrite nq_S.
    rewrite (qsum_perm _ _ _ HU0), (Permutation_length HU0), !qsum_cons in Hsum. cbn [length] in Hsum. rewrite !nq_S in Hsum. unfold pl', ps. clear -Hsum. qc.
  - intros i Hi. rewrite <- (Hsh i Hi). rewrite (keep_perm _ _ _ _ HU), (keep_perm _ _ _ _ HU0), qsum_cons, chance_eq by lia.
    rewrite (qsum_ext _ (chance prob (zs alias) i) dn) by (intros j Hj; apply chance_ne; intros ->; apply (Hdisj s Hj); left).
    rewrite (keep_cons _ s) by (intros [->|?]%elem_of_cons; done). rewrite !(keep_cons _ l) by done. rewrite (keep_ext i U (at_ (<[l:=pl']> scaled) i) (at_ scaled i)) by apply Hat.
    rewrite !(decide_ext (i = l) (l = i)), !(decide_ext (i = s) (s = i)) by (split; congruence).
    destruct (decide (s = i)) as [<-|]; [rewrite !decide_False by done; fold ps; ring|]. destruct (decide (l = i)) as [<-|]; [rewrite Hatl; unfold pl'|]; ring.
Qed.

Lemma exact_start sm lg k : sm ++ lg ≡ₚ seq 0 n -> Forall (below sc0 true) sm -> Forall (below sc0 false) lg -> Forall (fun x => (0 <= x)%Qc) sc0 -> length sc0 = n ->
  qsum (at_ sc0) (seq 0 n) = nq n -> exact sc0 n sc0 sm lg (replicate n k) (replicate n 0%nat) [].
Proof.
  intros Hp H1 H2 H0 Hl Hs. rewrite Forall_forall in H1, H2. assert (forall i b, below sc0 b i -> (0 <= at_ sc0 i)%Qc /\ bool_decide (at_ sc0 i < 1)%Qc = b) as Hb.
  { intros i b (p & Ep & E). unfold at_. rewrite Ep. split; [|exact E]. by eapply (Forall_lookup_1 _ _ _ _ H0). }
  split.
  - done.
  - intros i Hi. destruct (Hb i true (H1 i Hi)) as [? E%bool_decide_eq_true]. done.
  - intros i Hi. destruct (Hb i false (H2 i Hi)) as [_ E%bool_decide_eq_false]. by apply Qcnot_lt_le.
  - intros i Hi. by apply not_elem_of_nil in Hi.
  - by rewrite (qsum_perm _ _ _ Hp), (Permutation_length Hp), length_seq.
  - intros i Hi. unfold keep. rewrite decide_True by (rewrite Hp; apply elem_of_seq; lia). cbn [qsum foldr]. ring.
Qed.

(** What is left at the end carries exactly one, which is what the last loops write. *)
Lemma exact_end scaled sm lg prob alias dn : exact sc0 n scaled sm lg prob alias dn -> sm = [] \/ lg = [] -> length prob = n ->
  let pr := ones (rev sm) (ones (rev lg) prob) in
  (forall j, (j < n)%nat -> (0 <= at_ pr j)%Qc /\ (at_ pr j <= 1)%Qc) /\ forall i, (i < n)%nat -> qsum (chance pr (zs alias) i) (seq 0 n) = at_ sc0 i.
Proof.
  intros [Hp Hsm Hlg Hdn Hsum Hsh] He Lp pr.
  assert (forall j, j ∈ sm ++ lg -> at_ scaled j = 1%Qc) as H1.
  { destruct He as [-> | ->].
    - apply qsum_at_least; [|exact Hsum]. intros j Hj. by apply Hlg.
    - rewrite app_nil_r in Hsum |- *. assert (sm = []) as -> by (apply (qsum_below sm (at_ scaled)); [intros j Hj; by apply Hsm|done]). intros j Hj. by apply not_elem_of_nil in Hj. }
  assert (NoDup (dn ++ sm ++ lg)) as Hnd by (rewrite Hp; apply NoDup_seq). apply NoDup_app in Hnd as (_ & Hdisj & Hnd).
  assert (forall j, j ∈ dn ++ sm ++ lg -> (j < n)%nat) as Hlt by (intros j; rewrite Hp, elem_of_seq; lia).
  assert (forall j, (j < n)%nat -> at_ pr j = if decide (j ∈ sm ++ lg) then 1%Qc else at_ prob j) as Hpr.
  { intros j Hj. unfold at_, pr. rewrite ones_lookup by (by rewrite loot_ones_length, Lp). rewrite ones_lookup by by rewrite Lp.
    assert (forall l : list nat, j ∈ rev l <-> j ∈ l) as Hrev by (intros l; rewrite !list_elem_of_In; symmetry; apply in_rev).
    rewrite !(decide_ext _ _ _ _ (Hrev _)). destruct (decide (j ∈ sm)) as [Hs|Hs]; [by rewrite decide_True by (apply elem_of_app; auto)|].
    destruct (decide (j ∈ lg)) as [Hg|Hg]; [by rewrite decide_True by (apply elem_of_app; auto)|]. rewrite decide_False; [done|]. by intros [?|?]%elem_of_app. }
  split.
  - intros j Hj. rewrite Hpr by done. destruct (decide (j ∈ sm ++ lg)) as [|Hn]; [done|]. apply Hdn. assert (j ∈ seq 0 n) as Hin by (apply elem_of_seq; lia).
    rewrite <- Hp in Hin. apply elem_of_app in Hin as [?|?]; done.
  - intros i Hi. rewrite <- (Hsh i Hi), <- (qsum_perm _ _ _ Hp), qsum_app, Qcplus_comm. f_equal.
    + trans (qsum (fun j => if decide (j = i) then 1%Qc else 0%Qc) (sm ++ lg)).
      * apply qsum_ext. intros j Hj. unfold chance. rewrite Hpr by (apply Hlt; apply elem_of_app; by right). rewrite (decide_True (P := j ∈ sm ++ lg)) by done. destruct (decide (zs alias !! j = _)); destruct (decide (j = i)); ring.
      * rewrite (qsum_at (fun _ => 1%Qc)) by done. unfold keep. destruct (decide (i ∈ sm ++ lg)) as [Hin|]; [|done]. symmetry. by apply H1.
    + apply qsum_ext. intros j Hj. unfold chance. rewrite Hpr by (apply Hlt; apply elem_of_app; by left). rewrite (decide_False (P := j ∈ sm ++ lg)); [done|]. by apply Hdisj.
Qed.
End exact.

Lemma qsum_fmap f l : qsum f (S <$> l) = qsum (fun j => f (S j)) l.
Proof. induction l as [|j l IH]; [done|]. rewrite fmap_cons, !qsum_cons, IH. done. Qed.
Lemma qsum_at_all (l : list Qc) : qsum (at_ l) (seq 0 (length l)) = foldr Qcplus 0%Qc l.
Proof.
  induction l as [|x l IH]; [done|]. change (seq 0 (length (x :: l))) with (0%nat :: seq 1 (length l)). rewrite qsum_cons, <- (fmap_S_seq 0), qsum_fmap. cbn [foldr]. rewrite <- IH. done.
Qed.

Section weights.
Context {T : Type}.
Implicit Types its : list (Item T Qc).
Definition wsum its : Qc := foldr (fun it a => (Weight it + a)%Qc) 0%Qc its.

Lemma total_wsum its : foldl (fun t it => nadd t (Weight it)) (nofint 0) its = wsum its.
Proof.
  assert (forall z, foldl (fun t it => nadd t (Weight it)) z its = (z + wsum its)%Qc) as Hz; [|rewrite Hz; cbn [nofint Qc_Num]; apply Qcplus_0_l].
  induction its as [|it its IH]; intros z; [symmetry; apply Qcplus_0_r|]. cbn [foldl]. rewrite IH. change (wsum (it :: its)) with (Weight it + wsum its)%Qc. cbn [nadd Qc_Num]. ring.
Qed.
Lemma wsum_positive its : Forall (fun it => positive it = true) its -> (0 <= wsum its)%Qc /\ (its <> [] -> (0 < wsum its)%Qc).
Proof.
  induction 1 as [|it its Hp Hi IH]; [done|]. destruct IH as [IH _]. apply bool_decide_eq_true in Hp. change (wsum (it :: its)) with (Weight it + wsum its)%Qc. cbn [nofint Qc_Num] in Hp.
  change (Q2Qc (inject_Z 0)) with 0%Qc in Hp. split; [|intros _]; clear -Hp IH; qc.
Qed.
Lemma scaled_sum its W : foldr Qcplus 0%Qc (scaled_of its W) = (wsum its / W * nq (length its))%Qc.
Proof.
  unfold scaled_of. fold (nq (length its)). generalize (nq (length its)) as k. intros k. induction its as [|it its IH]; cbn [fmap list_fmap foldr]; [unfold wsum, Qcdiv; cbn [foldr]; ring|].
  rewrite IH. change (wsum (it :: its)) with (Weight it + wsum its)%Qc. cbn [nmul ndiv Qc_Num]. unfold Qcdiv. ring.
Qed.

Lemma Qcmult_le_0_compat (a b : Qc) : (0 <= a)%Qc -> (0 <= b)%Qc -> (0 <= a * b)%Qc.
Proof. intros Ha Hb. unfold Qcle in *. change (this (a * b)%Qc) with (Qred (a * b)). rewrite (Qred_correct (a * b)). by apply Qmult_le_0_compat. Qed.
Lemma Qcdiv_le_0 (a b : Qc) : (0 <= a)%Qc -> (0 < b)%Qc -> (0 <= a / b)%Qc.
Proof. intros Ha Hb. apply Qcmult_le_0_compat; [done|]. unfold Qcle, Qclt in *. change (this (/ b)%Qc) with (Qred (/ b)). rewrite (Qred_correct (/ b)). apply Qinv_le_0_compat. by apply Qlt_le_weak. Qed.

Lemma buildAlias_exact its : its <> [] -> Forall (fun it => positive it = true) its ->
  let n := length its in exists pr al, buildAlias its (wsum its) = Ret (pr, al) /\ length pr = n /\
    (forall j, (j < n)%nat -> (0 <= at_ pr j)%Qc /\ (at_ pr j <= 1)%Qc) /\
    forall i, (i < n)%nat -> qsum (chance pr al i) (seq 0 n) = at_ (scaled_of its (wsum its)) i.
Proof.
  intros Hne Hp n. destruct (wsum_positive its Hp) as [_ HW]. specialize (HW Hne). set (sc := scaled_of its (wsum its)).
  assert (length sc = n) as Hl by apply length_fmap. assert (0 < nq n)%Qc as Hn.
  { destruct its; [done|]. unfold n. cbn [length]. rewrite nq_S. assert (0 <= nq (length its))%Qc; [|qc]. unfold Qcle. rewrite this_nq. change (this 0%Qc) with (inject_Z 0). rewrite <- Zle_Qle. lia. }
  assert (wsum its <> 0%Qc) as HW0 by (intros E; rewrite E in HW; done).
  destruct (buildAlias_inv (fun scaled sm lg prob alias => length scaled = n /\ exists dn, exact sc n scaled sm lg prob alias dn) its (wsum its)) as (scaled & sm & lg & pr & al & E & (Hs & dn & HR) & H1 & H2 & _ & _ & He).
  - intros scaled s small l large prob alias ps pl [Ls [dn HR]] _ H1 H2 H3 H4 Es El pl'. split; [by rewrite length_insert|].
    exists (s :: dn). pose proof (exact_step sc n scaled s small l large prob alias dn HR Ls H1 H2 H3 H4) as Hx. cbv zeta in Hx. unfold at_ in Hx. rewrite Es, El in Hx. exact Hx.
  - intros sm lg H1 H2 H3. split; [done|]. exists []. apply exact_start; try done.
    + apply Forall_fmap. eapply Forall_impl; [exact Hp|]. intros it Hit. apply bool_decide_eq_true in Hit. change (nofint 0 : Qc) with 0%Qc in Hit.
      cbn [nmul ndiv Qc_Num]. fold (nq (length its)). apply Qclt_le_weak in Hit, Hn. apply (Qcmult_le_0_compat _ _ (Qcdiv_le_0 _ _ Hit HW) Hn).
    + fold sc n. rewrite <- Hl, qsum_at_all. unfold sc. rewrite scaled_sum. fold sc. rewrite Hl. fold n. field. done.
  - destruct (exact_end sc n scaled sm lg pr al dn HR He H1) as [Hb Hx]. eexists _, _. split; [exact E|]. split; [by rewrite !loot_ones_length|]. done.
Qed.
End weights.

(** * Properties *)

(** On numbers that do not round the alias table is exact: every item is drawn with the share its weight has in
    the total, a bucket's threshold being a probability that its random number falls below. *)
Theorem alias_exact {T} (its : list (Item T Qc)) : exists r, NewTable its = Ret r /\ match r with
  | Err e => e = ErrEmptyTable /\ List.filter positive its = []
  | Ok t => items t = List.filter positive its /\ (0 < totalW t)%Qc /\
      (forall j u i, (j < length (items t))%nat ->
         (drawIndex (fun _ => Z.of_nat j) u t = Ret (Z.of_nat i) <-> if bool_decide (u < at_ (prob t) j)%Qc then j = i else alias t !! j = Some (Z.of_nat i))) /\
      (forall j, (j < length (items t))%nat -> (0 <= at_ (prob t) j)%Qc /\ (at_ (prob t) j <= 1)%Qc) /\
      forall i it, items t !! i = Some it ->
        (qsum (chance (prob t) (alias t) i) (seq 0 (length (items t))) / nq (length (items t)) = Weight it / totalW t)%Qc
  end.
Proof.
  destruct (NewTable_ok its) as (r & E & Hr). exists r. split; [done|]. unfold NewTable in E. set (l := List.filter positive its) in *. destruct (decide (l = [])) as [E0|E0]; [by injection E as <-|].
  rewrite total_wsum in E. assert (Forall (fun it => positive it = true) l) as Hp.
  { apply Forall_forall. intros it Hit. apply list_elem_of_In in Hit. unfold l in Hit. by apply List.filter_In in Hit as [_ Hit]. }
  destruct (buildAlias_exact l E0 Hp) as (pr & al & Eb & Hl & Hb & Hx). rewrite Eb in E. cbn [mbind go_bind] in E. injection E as <-. destruct Hr as [Hok _].
  destruct (wsum_positive l Hp) as [_ HW]. specialize (HW E0). cbn [items prob alias totalW]. split; [done|]. split; [done|]. split; [|split; [done|]].
  - intros j u i Hj. unfold drawIndex. cbn [prob alias]. destruct (lookup_lt_is_Some_2 pr j ltac:(lia)) as [p Ep]. destruct (lookup_lt_is_Some_2 al j) as [a Ea]; [pose proof (t_alias _ Hok) as Ha; cbn in Ha; lia|].
    rewrite (index_nat _ _ _ Ep). cbn [mbind go_bind nltb Qc_Num]. unfold at_. rewrite Ep. cbn [default from_option]. unfold Datatypes.id. destruct (bool_decide _); [split; [intros [=]; lia|by intros ->]|].
    rewrite (index_nat _ _ _ Ea), Ea. split; congruence.
  - intros i it Hi. rewrite (Hx i) by by eapply lookup_lt_Some. unfold scaled_of, at_. rewrite list_lookup_fmap, Hi. cbn [fmap option_fmap option_map default from_option nmul ndiv Qc_Num]. fold (nq (length l)).
    assert (nq (length l) <> 0%Qc) as Hn; [|unfold Datatypes.id; field; split; [|done]; intros E; by rewrite E in HW].
    destruct l as [|it0 l0]; [done|]. cbn [length]. rewrite nq_S. intros E. assert (0 <= nq (length l0))%Qc; [|clear Hx Hb; qc].
    unfold Qcle. rewrite this_nq. change (this 0%Qc) with (inject_Z 0). rewrite <- Zle_Qle. lia.
Qed.

Section properties.
Context {T F : Type} `{NumLaws F}.

(** Whatever the weights, a table of numbers that may round draws without a panic, and only items given to it
    whose weight is positive; without such items there is no table. *)
Theorem draws_in_table (its : list (Item T F)) : exists r, NewTable its = Ret r /\ match r with
  | Err e => forall it, it ∈ its -> positive it = false
  | Ok t => forall intn u, fair intn -> exists it, DrawItem intn u t = Ret it /\ Draw intn u t = Ret (Value it) /\ it ∈ its /\ positive it = true
  end.
Proof.
  destruct (NewTable_ok its) as (r & -> & Hr). exists r. split; [done|]. destruct r as [t|e].
  - destruct Hr as [Hok Ei]. intros intn u Hf. destruct (DrawItem_ok t intn u Hok Hf) as (_ & it & Hit & _ & E). exists it. split; [done|]. split; [unfold Draw; by rewrite E|].
    apply list_elem_of_lookup_2 in Hit. rewrite Ei in Hit. apply list_elem_of_In, List.filter_In in Hit as [Hit Hp]. split; [by apply list_elem_of_In|done].
  - intros it Hit. destruct (positive it) eqn:Ep; [|done]. apply list_elem_of_In in Hit. assert (In it (List.filter positive its)) as Hin by by apply List.filter_In. by rewrite Hr in Hin.
Qed.

(** Draws without putting back give different places of the table, as many as asked for or all there are. *)
Theorem distinct_draws (its : list (Item T F)) : exists r, NewTable its = Ret r /\ match r with
  | Err e => True
  | Ok t => forall us, exists l, DrawDistinct us t = omap (fun i => Value <$> items t !! i) l /\ NoDup l /\
      Forall (fun i => (i < length (items t))%nat) l /\ length (DrawDistinct us t) = Nat.min (length us) (length (items t))
  end.
Proof.
  destruct (NewTable_ok its) as (r & -> & Hr). exists r. split; [done|]. destruct r as [t|e]; [|done]. destruct Hr as [Hok _]. intros us.
  destruct (distinct_loop_ok (take (length (items t)) us) (Weight <$> items t) (foldl (fun a it => nadd a (Weight it)) (nofint 0) (items t)) []) as (H1 & H2 & H3).
  - intros i w Hw. rewrite decide_False by apply not_elem_of_nil. rewrite list_lookup_fmap in Hw. destruct (items t !! i) as [it|] eqn:Ei; [|done]. injection Hw as <-.
    exact (Forall_lookup_1 _ _ _ _ (t_positive t Hok) Ei).
  - constructor.
  - constructor.
  - rewrite app_nil_r in H1. rewrite length_fmap in H2, H3. eexists. split; [done|]. split; [done|]. split; [done|]. unfold DrawDistinct.
    set (l := distinct_loop _ _ _) in *. assert (length (omap (fun i => Value <$> items t !! i) l) = length l) as ->.
    { clear -H2. induction H2 as [|i l Hi Hl IH]; [done|]. destruct (lookup_lt_is_Some_2 _ _ Hi) as [it Ei]. cbn [omap list_omap]. rewrite Ei. cbn. by rewrite IH. }
    rewrite H3, length_take. cbn. lia.
Qed.

(** With a guarantee, every run of draws one longer than the limit contains a rare item, wherever it begins, and
    drawing never panics. *)
Theorem pity_bound (its : list (Item T F)) t limit rarity rs : NewTable its = Ret (Ok t) -> 0 < limit < 2 ^ 62 ->
  Exists (fun it => rarity <= Rarity it) (items t) -> Forall (fun r => fair r.1) rs ->
  exists p p' l, NewPuller t limit rarity = Ret p /\ pDrawN rs p = Ret (p', l) /\ length l = length rs /\ Forall (fun r => r.1 ∈ items t) l /\
    forall k, (k + Z.to_nat (limit + 1) <= length rs)%nat -> Exists (fun r => rarity <= Rarity r.1) (take (Z.to_nat (limit + 1)) (drop k l)).
Proof.
  intros Et Hl He Hf. destruct (NewTable_ok its) as (r & Er & Hok). rewrite Et in Er. injection Er as <-. destruct Hok as [Hok _].
  destruct (NewPuller_ok t limit rarity Hok Hl He) as (p & -> & Hp & E1 & E2 & E3 & _). destruct (pDrawN_ok rs p Hp Hf) as (p' & l & E & _ & Hlen & Hall & _ & Hw).
  exists p, p', l. split; [done|]. split; [done|]. split; [done|]. rewrite E3 in Hall. split; [done|]. rewrite E1 in Hw. unfold rare in Hw. by rewrite E2 in Hw.
Qed.
End properties.

(** * Boundaries *)

Section boundaries.
Definition w_of (z : Z) : float64 := of_int z.
Definition chest : list (Item string float64) := [MkItem "common" (w_of 3) 1; MkItem "rare" (w_of 1) 5].

Lemma pity_bound_witness : exists t, NewTable chest = Ret (Ok t) /\ exists p p' l, NewPuller t 2 5 = Ret p /\
  pDrawN (replicate 6 (fun _ => 0, w_of 0)) p = Ret (p', l) /\ length l = 6%nat /\ Forall (fun r => r.1 ∈ items t) l /\
  forall k, (k + 3 <= 6)%nat -> Exists (fun r => 5 <= Rarity r.1) (take 3 (drop k l)).
Proof.
  eexists. split; [vm_compute; reflexivity|]. eapply (pity_bound chest); [vm_compute; reflexivity|lia| |].
  - apply Exists_cons_tl, Exists_cons_hd. cbn. lia.
  - apply Forall_replicate. intros n Hn. cbn. lia.
Defined.

(** Weights whose sum is beyond [float64] are drawn evenly, and without putting back the last comes first. *)
Definition huge : list (Item string float64) := [MkItem "a" (w_of (2 ^ 1023 + 2 ^ 1022)) 0; MkItem "b" (w_of (2 ^ 1022)) 0].
Example overflow_draws_evenly : exists t, NewTable huge = Ret (Ok t) /\ prob t = [w_of 1; w_of 1] /\ DrawDistinct [w_of 0 ; w_of 0] t = ["b"; "a"]%string.
Proof. eexists. split; [vm_compute; reflexivity|]. split; vm_compute; reflexivity. Qed.
End boundaries.
