(* ===== verification/Hyperloglog.v ===== *)
(** HyperLogLog ([pkg/foundation/sketch/hyperloglog.go], [sketch.go]): how many different elements a stream has,
    from the greatest rank of the hashes that fall on each register. *)
From Stdlib Require Import ZArith Lia Bool Ascii.
From stdpp Require Import base numbers strings list sets.
From S2P Require Import Prelude Float64.

Open Scope Z_scope.

(** * Hashes *)

Definition mix64 (z : Z) : Z :=
  let z := wrapu64 (z + 0x9e3779b97f4a7c15) in
  let z := wrapu64 (Z.lxor z (Z.shiftr z 30) * 0xbf58476d1ce4e5b9) in
  let z := wrapu64 (Z.lxor z (Z.shiftr z 27) * 0x94d049bb133111eb) in
  Z.lxor z (Z.shiftr z 31).
Fixpoint fnv_loop (s : string) (h : Z) : Z :=
  match s with
  | EmptyString => h
  | String c s => fnv_loop s (wrapu64 (Z.lxor h (Z.of_N (N_of_ascii c)) * 1099511628211))
  end.
Definition hashString (s : string) : Z := mix64 (fnv_loop s 1469598103934665603).

Lemma uint64_testbit x : 0 <= x -> (uint64 x <-> forall i, 64 <= i -> Z.testbit x i = false).
Proof.
  intros H0. unfold uint64. split.
  - intros [_ H] i Hi. rewrite <- (Z.mod_small x (2 ^ 64)) by lia. by apply Z.mod_pow2_bits_high.
  - intros H. split; [done|]. assert (x = x mod 2 ^ 64) as ->; [|apply Z.mod_pos_bound; lia].
    apply Z.bits_inj'. intros i Hi. destruct (Z.lt_ge_cases i 64); [by rewrite Z.mod_pow2_bits_low|]. rewrite Z.mod_pow2_bits_high by lia. by apply H.
Qed.
Lemma mix64_range z : uint64 (mix64 z).
Proof.
  unfold mix64. set (y := wrapu64 (_ * 0x94d049bb133111eb)). assert (uint64 y) as Hy by apply wrapu64_range. assert (0 <= y) as H0 by apply Hy.
  apply uint64_testbit; [apply Z.lxor_nonneg; split; intros; [by apply Z.shiftr_nonneg|done]|]. intros i Hi. rewrite uint64_testbit in Hy by done.
  rewrite Z.lxor_spec, Z.shiftr_spec, !Hy by lia. done.
Qed.
Lemma hashString_range s : uint64 (hashString s).
Proof. apply mix64_range. Qed.

(** * The registers *)

Record HyperLogLog := MkHll { p : Z; m : Z; reg : list Z }.

(** [bits.LeadingZeros64]. *)
Definition LeadingZeros64 (w : Z) : Z := if w =? 0 then 64 else 63 - Z.log2 w.


Definition AddHash (x : Z) (h : HyperLogLog) : go HyperLogLog :=
  let idx := Z.shiftr x (64 - p h) in
  let w := Z.lor (wrapu64 (Z.shiftl x (p h))) (Z.shiftl 1 (p h - 1)) in
  let rho := LeadingZeros64 w + 1 in
  r ← index (reg h) idx;
  if r <? rho then reg' ← set_index (reg h) idx rho; Ret (MkHll (p h) (m h) reg') else Ret h.
Definition AddString (s : string) (h : HyperLogLog) : go HyperLogLog := AddHash (hashString s) h.


Definition alpha (m : Z) : float64 :=
  if m =? 16 then decimal 673 1000 else if m =? 32 then decimal 697 1000 else if m =? 64 then decimal 709 1000
  else fdiv (decimal 7213 10000) (fadd (of_int 1) (fdiv (decimal 1079 1000) (of_int m))).

(** [math.Log] is an argument. *)
Definition Count (log : float64 -> float64) (h : HyperLogLog) : Z :=
  let mf := of_int (m h) in
  let '(sum, zeros) := foldl (fun '(sum, zeros) v =>
    (fadd sum (fdiv (of_int 1) (of_int (wrapu64 (Z.shiftl 1 v)))), if v =? 0 then zeros + 1 else zeros)) (of_int 0, 0) (reg h) in
  let est := fdiv (fmul (fmul (alpha (m h)) mf) mf) sum in
  let est := if fleb est (fmul (decimal 25 10) mf) && (0 <? zeros) then fmul mf (log (fdiv mf (of_int zeros))) else est in
  to_int (fadd est (decimal 5 10)).


(** What the registers stand for: the greatest rank among the hashes that fall on each. *)
Section spec.
Context (prec : Z) (Hp : 4 <= prec <= 16).







End spec.



