(* ===== verification/Countmin.v ===== *)
(** Count-Min ([pkg/foundation/sketch/countmin.go]): how often each element of a stream came, never too low. *)
From Stdlib Require Import ZArith Lia Bool.
From stdpp Require Import base numbers strings list sets.
From S2P Require Import Prelude Float64 Hyperloglog.

Open Scope Z_scope.

Record CountMin := MkCms { d : Z; w : Z; counts : list (list Z) }.

Definition NewCountMin (width depth : Z) : CountMin :=
  let width := if width <? 1 then 1 else width in
  let depth := if depth <? 1 then 1 else depth in
  MkCms (wrapu32 depth) (wrapu32 width) (replicate (Z.to_nat depth) (replicate (Z.to_nat width) 0)).

(** [math.E], [math.Ceil] and [math.Log]; the last two are arguments. *)
Definition E : float64 := fdiv (of_int 6121026514868073) (of_int (2 ^ 51)).
Definition NewCountMinWithError (ceil log : float64 -> float64) (epsilon delta : float64) : CountMin :=
  let epsilon := if fleb epsilon (of_int 0) then decimal 1 1000 else epsilon in
  let delta := if fleb delta (of_int 0) || fleb (of_int 1) delta then decimal 1 100 else delta in
  NewCountMin (to_int (ceil (fdiv E epsilon))) (to_int (ceil (log (fdiv (of_int 1) delta)))).

Definition pos (c : CountMin) (h i : Z) : go Z :=
  let h2 := Z.lor (mix64 h) 1 in
  if w c =? 0 then Panic "runtime error: integer divide by zero"
  else Ret (wrapu32 (wrapu64 (h + wrapu64 (i * h2)) mod w c)).

(** The loops over the rows from [i] on, of which [k] are left. *)
Fixpoint add_loop (c : CountMin) (h n : Z) (k : nat) (i : Z) (counts : list (list Z)) : go (list (list Z)) :=
  match k with
  | O => Ret counts
  | S k =>
      row ← index counts i;
      j ← pos c h i;
      v ← index row j;
      row ← set_index row j (wrapu64 (v + n));
      counts ← set_index counts i row;
      add_loop c h n k (i + 1) counts
  end.
Definition AddHash (h n : Z) (c : CountMin) : go CountMin :=
  l ← add_loop c h n (Z.to_nat (d c)) 0 (counts c); Ret (MkCms (d c) (w c) l).
Definition Add (key : string) (n : Z) (c : CountMin) : go CountMin := AddHash (hashString key) n c.

Fixpoint count_loop (c : CountMin) (h : Z) (k : nat) (i min : Z) : go Z :=
  match k with
  | O => Ret min
  | S k =>
      row ← index (counts c) i;
      j ← pos c h i;
      v ← index row j;
      count_loop c h k (i + 1) (if v <? min then v else min)
  end.
Definition CountHash (h : Z) (c : CountMin) : go Z := count_loop c h (Z.to_nat (d c)) 0 (2 ^ 64 - 1).
Definition Count (key : string) (c : CountMin) : go Z := CountHash (hashString key) c.

Definition Reset (c : CountMin) : CountMin :=
  MkCms (d c) (w c) (fmap (M := list) (fmap (M := list) (fun _ => 0)) (counts c)).

Fixpoint add_all (l : list (Z * Z)) (c : CountMin) : go CountMin :=
  match l with [] => Ret c | (h, n) :: l => c ← AddHash h n c; add_all l c end.

(** What a counter stands for: the total of the hashes that fall on it. *)
Section spec.
Context (W D : Z) (HW : 1 <= W < 2 ^ 32) (HD : 1 <= D < 2 ^ 32).

Definition cell (h : Z) (i : nat) : nat := Z.to_nat (wrapu64 (h + wrapu64 (Z.of_nat i * Z.lor (mix64 h) 1)) mod W).
Definition total (P : Z -> bool) (l : list (Z * Z)) : Z := foldr (fun hn t => if P hn.1 then hn.2 + t else t) 0 l.
Definition row_of (l : list (Z * Z)) (i : nat) : list Z :=
  (fun j => wrapu64 (total (fun h => bool_decide (cell h i = j)) l)) <$> seq 0 (Z.to_nat W).
Definition of_adds (l : list (Z * Z)) : CountMin := MkCms D W (row_of l <$> seq 0 (Z.to_nat D)).

Lemma cell_lt h i : (cell h i < Z.to_nat W)%nat.
Proof. unfold cell. pose proof (Z.mod_pos_bound (wrapu64 (h + wrapu64 (Z.of_nat i * Z.lor (mix64 h) 1))) W ltac:(lia)). lia. Qed.
Lemma pos_cell l h i : pos (of_adds l) h (Z.of_nat i) = Ret (Z.of_nat (cell h i)).
Proof.
  unfold pos, cell. cbn [w of_adds]. rewrite (proj2 (Z.eqb_neq W 0)) by lia. pose proof (Z.mod_pos_bound (wrapu64 (h + wrapu64 (Z.of_nat i * Z.lor (mix64 h) 1))) W ltac:(lia)).
  f_equal. unfold wrapu32. rewrite Z.mod_small by lia. lia.
Qed.
Lemma row_lookup l i j : (j < Z.to_nat W)%nat -> row_of l i !! j = Some (wrapu64 (total (fun h => bool_decide (cell h i = j)) l)).
Proof. intros Hj. unfold row_of. by rewrite list_lookup_fmap, lookup_seq_lt. Qed.

Lemma bump_row h n l i : <[cell h i := wrapu64 (wrapu64 (total (fun h' => bool_decide (cell h' i = cell h i)) l) + n)]> (row_of l i) = row_of ((h, n) :: l) i.
Proof.
  pose proof (cell_lt h i) as Hc. apply list_eq. intros j. destruct (decide (j < Z.to_nat W)%nat) as [Hj|Hj].
  - rewrite (row_lookup _ _ j) by done. cbn [total foldr fst snd]. fold (total (fun h' => bool_decide (cell h' i = j)) l). destruct (decide (j = cell h i)) as [->|Hd].
    + rewrite list_lookup_insert_eq by (unfold row_of; rewrite length_fmap, length_seq; done). rewrite bool_decide_true by done. f_equal. unfold wrapu64. rewrite Zplus_mod_idemp_l. f_equal. lia.
    + rewrite list_lookup_insert_ne by done. rewrite row_lookup by done. by rewrite bool_decide_false by congruence.
  - rewrite !lookup_ge_None_2; [done|unfold row_of; rewrite length_fmap, length_seq; lia|rewrite length_insert; unfold row_of; rewrite length_fmap, length_seq; lia].
Qed.

Lemma add_loop_spec h n l0 l k : forall pre,
  add_loop (of_adds l0) h n k (Z.of_nat (length pre)) (pre ++ (row_of l <$> seq (length pre) k)) = Ret (pre ++ (row_of ((h, n) :: l) <$> seq (length pre) k)).
Proof.
  induction k as [|k IH]; intros pre; [done|]. cbn [seq add_loop]. rewrite !fmap_cons. rewrite (index_lookup _ _ (row_of l (length pre))) by (by apply list_lookup_middle).
  cbn [mbind go_bind]. rewrite pos_cell. cbn [mbind go_bind]. pose proof (cell_lt h (length pre)) as Hc. rewrite (index_lookup _ _ _ (row_lookup l (length pre) _ Hc)). cbn [mbind go_bind].
  rewrite set_index_lt by (unfold row_of; rewrite length_fmap, length_seq; done). cbn [mbind go_bind]. rewrite bump_row. rewrite set_index_lt by (rewrite length_app; cbn; lia). cbn [mbind go_bind].
  rewrite insert_app_r_alt, Nat.sub_diag by lia. cbn [insert list_insert]. specialize (IH (pre ++ [row_of ((h, n) :: l) (length pre)])).
  rewrite length_app in IH. cbn [length] in IH. rewrite Nat2Z.inj_add, Nat.add_1_r in IH. change (Z.of_nat 1) with 1 in IH. rewrite <- !app_assoc in IH. exact IH.
Qed.
Lemma AddHash_of_adds h n l : AddHash h n (of_adds l) = Ret (of_adds ((h, n) :: l)).
Proof. unfold AddHash. cbn [d w counts of_adds]. pose proof (add_loop_spec h n l l (Z.to_nat D) []) as E. cbn [length app] in E. change (Z.of_nat 0) with 0 in E. by rewrite E. Qed.
Lemma add_all_of_adds l : forall l0, add_all l (of_adds l0) = Ret (of_adds (rev l ++ l0)).
Proof.
  induction l as [|[h n] l IH]; intros l0; [done|]. cbn [add_all]. rewrite AddHash_of_adds. cbn [mbind go_bind]. rewrite IH. cbn [rev]. by rewrite <- app_assoc.
Qed.

Definition estimate (l : list (Z * Z)) (h : Z) : Z :=
  foldl (fun t i => Z.min t (wrapu64 (total (fun h' => bool_decide (cell h' i = cell h i)) l))) (2 ^ 64 - 1) (seq 0 (Z.to_nat D)).
Lemma count_loop_spec l h k : forall i t, (i + k <= Z.to_nat D)%nat ->
  count_loop (of_adds l) h k (Z.of_nat i) t = Ret (foldl (fun t i => Z.min t (wrapu64 (total (fun h' => bool_decide (cell h' i = cell h i)) l))) t (seq i k)).
Proof.
  induction k as [|k IH]; intros i t Hk; [done|]. cbn [count_loop seq foldl]. rewrite (index_lookup _ _ (row_of l i)) by (cbn [counts of_adds]; rewrite list_lookup_fmap, lookup_seq_lt by lia; done).
  cbn [mbind go_bind]. rewrite pos_cell. cbn [mbind go_bind]. rewrite (index_lookup _ _ _ (row_lookup l i _ (cell_lt h i))). cbn [mbind go_bind].
  replace (Z.of_nat i + 1) with (Z.of_nat (S i)) by lia. rewrite IH by lia. do 2 f_equal. destruct (Z.ltb_spec (wrapu64 (total (fun h' => bool_decide (cell h' i = cell h i)) l)) t); lia.
Qed.
Lemma CountHash_of_adds l h : CountHash h (of_adds l) = Ret (estimate l h).
Proof. unfold CountHash. cbn [d of_adds]. apply (count_loop_spec l h (Z.to_nat D) 0). lia. Qed.

Lemma total_mono (P Q : Z -> bool) l : Forall (fun hn => 0 <= hn.2) l -> (forall hn, hn ∈ l -> P hn.1 = true -> Q hn.1 = true) -> 0 <= total P l <= total Q l.
Proof.
  induction 1 as [|[h n] l Hn Hl IH]; intros Hpq; [done|]. cbn [total foldr fst snd]. fold (total P l) (total Q l). cbn in Hn.
  assert (0 <= total P l <= total Q l) by (apply IH; intros hn Hin; apply Hpq; by right). pose proof (Hpq (h, n) ltac:(left)) as H0. cbn in H0.
  destruct (P h); [rewrite H0 by done|destruct (Q h)]; lia.
Qed.
Lemma total_rev P l : total P (rev l) = total P l.
Proof.
  assert (forall l l', total P (l ++ l') = total P l + total P l') as Happ.
  { intros k k'. induction k as [|[h n] k IH]; [done|]. cbn [app total foldr fst snd]. fold (total P (k ++ k')) (total P k). rewrite IH. destruct (P h); lia. }
  induction l as [|[h n] l IH]; [done|]. cbn [rev]. rewrite Happ, IH. cbn [total foldr fst snd]. fold (total P l). destruct (P h); lia.
Qed.

Lemma fold_min_le f l : forall t : Z, foldl (fun t i => Z.min t (f i)) t l <= t /\ (forall i : nat, i ∈ l -> foldl (fun t i => Z.min t (f i)) t l <= f i) /\
  forall b, b <= t -> (forall i, i ∈ l -> b <= f i) -> b <= foldl (fun t i => Z.min t (f i)) t l.
Proof.
  induction l as [|i l IH]; intros t; cbn [foldl]; [split; [lia|]; split; [intros i Hi; by apply not_elem_of_nil in Hi|done]|].
  destruct (IH (Z.min t (f i))) as (H1 & H2 & H3). split; [lia|]. split.
  - intros j [->|Hj]%elem_of_cons; [lia|by apply H2].
  - intros b Hb Hf. apply H3; [pose proof (Hf i ltac:(left)); lia|]. intros j Hj. apply Hf. by right.
Qed.

Definition count_of (h : Z) (l : list (Z * Z)) : Z := total (fun h' => h' =? h) l.
Definition grand (l : list (Z * Z)) : Z := total (fun _ => true) l.

Lemma estimate_bounds l h : Forall (fun hn => 0 <= hn.2) l -> grand l < 2 ^ 64 ->
  count_of h l <= estimate l h <= grand l /\
  forall i, (i < Z.to_nat D)%nat -> (forall hn, hn ∈ l -> cell hn.1 i = cell h i -> hn.1 = h) -> estimate l h = count_of h l.
Proof.
  intros Hl Hg. set (f := fun i => wrapu64 (total (fun h' => bool_decide (cell h' i = cell h i)) l)).
  assert (forall i, f i = total (fun h' => bool_decide (cell h' i = cell h i)) l /\ count_of h l <= f i <= grand l) as Hf.
  { intros i. pose proof (total_mono (fun h' => bool_decide (cell h' i = cell h i)) (fun _ => true) l Hl ltac:(done)) as H1. fold (grand l) in H1.
    pose proof (total_mono (fun h' => h' =? h) (fun h' => bool_decide (cell h' i = cell h i)) l Hl) as H2. fold (count_of h l) in H2. unfold f. rewrite wrapu64_id by (unfold uint64; lia).
    split; [done|]. split; [|lia]. apply H2. intros hn _ ->%Z.eqb_eq. by apply bool_decide_eq_true. }
  destruct (fold_min_le f (seq 0 (Z.to_nat D)) (2 ^ 64 - 1)) as (H1 & H2 & H3). fold f in H1, H2, H3.
  assert (forall i, (i < Z.to_nat D)%nat -> count_of h l <= estimate l h <= f i) as Hi.
  { intros i Hi. split; [|apply H2, elem_of_seq; lia]. apply H3; [destruct (Hf i); lia|]. intros j _. apply Hf. }
  split; [destruct (Hi 0%nat ltac:(lia)), (Hf 0%nat); lia|]. intros i Hlt Hc. destruct (Hi i Hlt) as [Ha Hb]. destruct (Hf i) as [Ef _].
  pose proof (total_mono (fun h' => bool_decide (cell h' i = cell h i)) (fun h' => h' =? h) l Hl) as [_ Hle]; [|fold (count_of h l) in Hle; lia].
  intros hn Hin E'%bool_decide_eq_true. apply Z.eqb_eq. by apply Hc.
Qed.
Lemma estimate_ext l l' h : (forall P, total P l = total P l') -> estimate l h = estimate l' h.
Proof. intros E'. unfold estimate. generalize (2 ^ 64 - 1). induction (seq 0 (Z.to_nat D)) as [|i s IH]; intros t; [done|]. cbn [foldl]. by rewrite E', IH. Qed.
End spec.

Lemma New_of_adds width depth : width < 2 ^ 32 -> depth < 2 ^ 32 -> NewCountMin width depth = of_adds (Z.max 1 width) (Z.max 1 depth) [].
Proof.
  intros Hw Hd. unfold NewCountMin. replace (if width <? 1 then 1 else width) with (Z.max 1 width) by (destruct (Z.ltb_spec width 1); lia).
  replace (if depth <? 1 then 1 else depth) with (Z.max 1 depth) by (destruct (Z.ltb_spec depth 1); lia). unfold wrapu32. rewrite !Z.mod_small by lia. unfold of_adds. f_equal.
  assert (forall {A} (f : nat -> A) x n, (forall i, f i = x) -> replicate n x = f <$> seq 0 n) as Hr.
  { intros A f x n Hf. generalize 0%nat. induction n as [|n IH]; intros k; [done|]. cbn [seq fmap list_fmap replicate]. rewrite Hf. f_equal. apply IH. }
  apply Hr. intros i. unfold row_of. symmetry. by apply Hr.
Qed.

(** While all that was counted stays below [2^64] a Count-Min sketch never panics, estimates every element at
    least as often as it came and at most as all that came, exactly when a row keeps it apart from the others,
    and resetting it empties it. *)
Theorem countmin_over width depth l : width < 2 ^ 32 -> depth < 2 ^ 32 -> Forall (fun hn => 0 <= hn.2) l -> grand l < 2 ^ 64 ->
  exists c, add_all l (NewCountMin width depth) = Ret c /\ Reset c = NewCountMin width depth /\
    forall h, exists e, CountHash h c = Ret e /\ count_of h l <= e <= grand l /\
      forall i, (i < Z.to_nat (Z.max 1 depth))%nat ->
        (forall hn, hn ∈ l -> cell (Z.max 1 width) hn.1 i = cell (Z.max 1 width) h i -> hn.1 = h) -> e = count_of h l.
Proof.
  intros Hw Hd Hl Hg. rewrite New_of_adds by done. assert (1 <= Z.max 1 width < 2 ^ 32) as HW by lia. assert (1 <= Z.max 1 depth < 2 ^ 32) as HD by lia.
  rewrite (add_all_of_adds _ _ HW), app_nil_r. eexists. split; [done|]. split.
  - unfold Reset, of_adds. cbn [d w counts]. f_equal. rewrite <- list_fmap_compose. apply list_fmap_ext. intros _ i _. cbn. unfold row_of. rewrite <- list_fmap_compose. by apply list_fmap_ext.
  - intros h. rewrite (CountHash_of_adds _ _ HW HD). eexists. split; [done|]. rewrite (estimate_ext _ _ (rev l) l) by (intros P; apply total_rev). by apply (estimate_bounds _ _ HD).
Qed.
Lemma countmin_over_witness : exists c, add_all [(5, 2); (7, 3); (5, 4)] (NewCountMin 8 2) = Ret c /\ Reset c = NewCountMin 8 2 /\ exists e, CountHash 5 c = Ret e /\ 6 <= e <= 9.
Proof.
  destruct (countmin_over 8 2 [(5, 2); (7, 3); (5, 4)]) as (c & E1 & E2 & Hc); [lia|lia|repeat constructor; cbn; lia|vm_compute; reflexivity|].
  exists c. split; [done|]. split; [done|]. destruct (Hc 5) as (e & E3 & He & _). exists e. split; [done|exact He].
Defined.

(** Beyond [2^64] a counter wraps and the estimate is below the count. *)
Example countmin_wraps : exists c, add_all [(5, 2 ^ 64 - 1); (5, 3)] (NewCountMin 4 2) = Ret c /\ CountHash 5 c = Ret 2.
Proof. eexists. split; [vm_compute; reflexivity|vm_compute; reflexivity]. Qed.
