(* ===== verification/Reservoir.v ===== *)
(** The reservoir ([pkg/foundation/sketch/reservoir.go]): a sample of a stream in which every element seen is kept
    with the same probability. *)
From Stdlib Require Import ZArith Lia Bool.
From stdpp Require Import base numbers strings list sets.
From S2P Require Import Prelude.

Open Scope Z_scope.

Section reservoir.
Context {A : Type}.
Record Reservoir := MkRes { k : Z; n : Z; items : list A }.

Definition NewReservoir (k : Z) : Reservoir := let k := if k <? 1 then 1 else k in MkRes k 0 [].

(** A random integer below a bound, asked of [rand.IntN], which panics when the bound is not positive. *)
Inductive draw (B : Type) := Pure (b : B) | IntN (bound : Z) (go_on : Z -> B).
Arguments Pure {B}.
Arguments IntN {B}.

Definition Add (x : A) (r : Reservoir) : draw (go Reservoir) :=
  let n := wrap64 (n r + 1) in
  if Z.of_nat (length (items r)) <? k r then Pure (Ret (MkRes (k r) n (items r ++ [x])))
  else
    IntN n (fun j =>
      if j <? k r then items ← set_index (items r) j x; Ret (MkRes (k r) n items) else Ret (MkRes (k r) n (items r))).
Definition Sample (r : Reservoir) : list A := items r.
Definition Count (r : Reservoir) : Z := n r.
Definition Len (r : Reservoir) : Z := Z.of_nat (length (items r)).
Definition Reset (r : Reservoir) : Reservoir := MkRes (k r) 0 [].

(** What every answer of the random source leads to, once each. *)
Definition answers {B} (d : draw (go B)) : list (go B) :=
  match d with
  | Pure g => [g]
  | IntN bound go_on => if bound <=? 0 then [Panic "invalid argument to IntN"] else (fun j => go_on (Z.of_nat j)) <$> seq 0 (Z.to_nat bound)
  end.
Definition adds (x : A) (r : Reservoir) : list (go Reservoir) := answers (Add x r).
Definition outcomes (k : Z) (xs : list A) : list (go Reservoir) :=
  foldl (fun gs x => gs ≫= (fun g => match g with Ret r => adds x r | Panic m => [Panic m] end)) [Ret (NewReservoir k)] xs.

Lemma outcomes_snoc k xs x : outcomes k (xs ++ [x]) = outcomes k xs ≫= (fun g => match g with Ret r => adds x r | Panic m => [Panic m] end).
Proof. unfold outcomes. by rewrite foldl_app. Qed.

(** What a reservoir that has seen [xs] holds. *)
Definition holds (K : nat) (xs : list A) (g : go Reservoir) : Prop :=
  exists l, g = Ret (MkRes (Z.of_nat K) (Z.of_nat (length xs)) l) /\ length l = Nat.min K (length xs) /\ (forall x, x ∈ l -> x ∈ xs) /\
    (NoDup xs -> NoDup l) /\ (length xs <= K -> l = xs)%nat.

Lemma adds_room K m l x : (length l < K)%nat -> Z.of_nat m < 2 ^ 62 ->
  adds x (MkRes (Z.of_nat K) (Z.of_nat m) l) = [Ret (MkRes (Z.of_nat K) (Z.of_nat (S m)) (l ++ [x]))].
Proof.
  intros Hl Hm. unfold adds, Add. cbn [k n items]. rewrite (proj2 (Z.ltb_lt _ _)) by lia. rewrite wrap64_id by (unfold int64; lia). cbn [answers]. do 3 f_equal. lia.
Qed.
Lemma adds_full K m l x : (length l = K)%nat -> Z.of_nat m < 2 ^ 62 ->
  adds x (MkRes (Z.of_nat K) (Z.of_nat m) l) = (fun j => Ret (MkRes (Z.of_nat K) (Z.of_nat (S m)) (if decide (j < K)%nat then <[j := x]> l else l))) <$> seq 0 (S m).
Proof.
  intros Hl Hm. unfold adds, Add. cbn [k n items]. rewrite (proj2 (Z.ltb_ge _ _)) by lia. rewrite wrap64_id by (unfold int64; lia). replace (Z.of_nat m + 1) with (Z.of_nat (S m)) by lia.
  cbn [answers]. rewrite (proj2 (Z.leb_gt _ _)) by lia. rewrite Nat2Z.id. apply list_fmap_ext. intros _ j _. destruct (decide (j < K)%nat).
  - rewrite (proj2 (Z.ltb_lt _ _)) by lia. by rewrite set_index_lt by lia.
  - by rewrite (proj2 (Z.ltb_ge _ _)) by lia.
Qed.

Lemma NoDup_replace (l : list A) j x : NoDup l -> x ∉ l -> NoDup (<[j := x]> l).
Proof.
  intros Hl Hx. destruct (decide (j < length l)%nat); [|by rewrite list_insert_ge by lia]. rewrite insert_take_drop by done. rewrite <- (take_drop j l) in Hl, Hx.
  assert (drop j l = default x (l !! j) :: drop (S j) l) as Ed. { destruct (lookup_lt_is_Some_2 l j) as [y Ey]; [done|]. rewrite Ey. by apply drop_S. }
  rewrite Ed in Hl, Hx. apply NoDup_app in Hl as (H1 & H2 & H3). apply NoDup_cons in H3 as [_ H3]. apply NoDup_app. split; [done|]. split.
  - intros y Hy. apply not_elem_of_cons. split; [intros ->; apply Hx, elem_of_app; by left|]. intros Hd. apply (H2 y Hy). by right.
  - apply NoDup_cons. split; [|done]. intros Hd. apply Hx, elem_of_app. right. by right.
Qed.

Lemma outcomes_hold K k xs : Z.of_nat K = Z.max 1 k -> Z.of_nat (length xs) < 2 ^ 62 -> Forall (holds K xs) (outcomes k xs).
Proof.
  intros HK. induction xs as [|x xs IH] using rev_ind; intros Hn.
  { constructor; [|done]. exists []. split; [|split; [cbn; lia|split; [done|split; [done|done]]]]. unfold NewReservoir. do 2 f_equal. destruct (Z.ltb_spec k 1); lia. }
  rewrite length_app in Hn. cbn [length] in Hn. specialize (IH ltac:(lia)). rewrite outcomes_snoc. apply Forall_bind. eapply Forall_impl; [exact IH|].
  intros g (l & -> & Hl & Hs & Hd & Ha). unfold compose. cbv beta iota. assert (length (xs ++ [x]) = S (length xs)) as El by (rewrite length_app; cbn; lia). destruct (decide (length xs < K)%nat) as [Hr|Hr].
  - rewrite adds_room by lia. constructor; [|done]. exists (l ++ [x]). rewrite El. split; [done|]. split; [rewrite length_app; cbn; lia|]. rewrite (Ha ltac:(lia)). done.
  - rewrite adds_full by lia. apply Forall_fmap, Forall_forall. intros j _. cbn. eexists. rewrite El. split; [done|]. assert (length (if decide (j < K)%nat then <[j:=x]> l else l) = length l) as -> by (destruct (decide _); [apply length_insert|done]).
    split; [lia|]. split; [|split; [|lia]].
    + intros y Hy. apply elem_of_app. destruct (decide (j < K)%nat); [|left; by apply Hs]. apply list_elem_of_lookup in Hy as [i Hi]. destruct (decide (i = j)) as [->|].
      * rewrite list_lookup_insert_eq in Hi by lia. injection Hi as ->. right. by left.
      * rewrite list_lookup_insert_ne in Hi by done. left. apply Hs. by eapply list_elem_of_lookup_2.
    + intros Hx. apply NoDup_app in Hx as (H1 & H2 & _). destruct (decide (j < K)%nat); [|by apply Hd]. apply NoDup_replace; [by apply Hd|]. intros Hin. apply (H2 x (Hs x Hin)). by left.
Qed.

(** ** Counting the outcomes *)

Context `{EqDecision A}.
Definition has (x : A) (g : go Reservoir) : nat := match g with Ret r => if decide (x ∈ items r) then 1%nat else 0%nat | Panic _ => 0%nat end.
Definition count_has (x : A) (gs : list (go Reservoir)) : nat := sum_list_with (has x) gs.

Lemma sum_bind {B C} (f : C -> nat) (h : B -> list C) l : sum_list_with f (l ≫= h) = sum_list_with (fun b => sum_list_with f (h b)) l.
Proof. induction l as [|b l IH]; [done|]. cbn [mbind list_bind sum_list_with]. by rewrite sum_list_with_app, <- IH. Qed.
Lemma sum_ext {B} (f h : B -> nat) l : (forall b, b ∈ l -> f b = h b) -> sum_list_with f l = sum_list_with h l.
Proof. induction l as [|b l IH]; intros Hf; [done|]. cbn. rewrite Hf by left. f_equal. apply IH. intros c Hc. apply Hf. by right. Qed.
Lemma sum_scale {B} (f : B -> nat) c l : sum_list_with (fun b => f b * c)%nat l = (sum_list_with f l * c)%nat.
Proof. induction l as [|b l IH]; [done|]. cbn. rewrite IH. lia. Qed.
Lemma sum_const {B} c (l : list B) : sum_list_with (fun _ => c) l = (length l * c)%nat.
Proof. induction l as [|b l IH]; [done|]. cbn. by rewrite IH. Qed.
Lemma sum_fmap {B C} (f : C -> nat) (h : B -> C) l : sum_list_with f (h <$> l) = sum_list_with (fun b => f (h b)) l.
Proof. induction l as [|b l IH]; [done|]. cbn. by rewrite <- IH. Qed.
Lemma sum_below K M : sum_list_with (fun j => if decide (j < K)%nat then 1%nat else 0%nat) (seq 0 M) = Nat.min K M.
Proof.
  induction M as [|M IH]; [by rewrite Nat.min_0_r|]. rewrite seq_S, sum_list_with_app, IH. cbn. destruct (decide (M < K)%nat); lia.
Qed.
Lemma sum_but i M : (i < M)%nat -> S (sum_list_with (fun j => if decide (j = i) then 0%nat else 1%nat) (seq 0 M)) = M.
Proof.
  intros Hi. induction M as [|M IH]; [lia|]. rewrite seq_S, sum_list_with_app. cbn. destruct (decide (M = i)) as [->|].
  - rewrite (sum_ext _ (fun _ => 1%nat)); [rewrite sum_const, length_seq; lia|]. intros j Hj%elem_of_seq. rewrite decide_False by lia. done.
  - specialize (IH ltac:(lia)). lia.
Qed.

(** The successors of a full reservoir. *)
Lemma has_new K m l x : (length l = K)%nat -> (K <= S m)%nat -> Z.of_nat m < 2 ^ 62 -> x ∉ l ->
  count_has x (adds x (MkRes (Z.of_nat K) (Z.of_nat m) l)) = K.
Proof.
  intros Hl Hk Hm Hx. unfold count_has. rewrite adds_full, sum_fmap by done. trans (Nat.min K (S m)); [|lia]. rewrite <- sum_below. apply sum_ext. intros j _. cbn [has items].
  destruct (decide (j < K)%nat); [rewrite decide_True; [done|]|by rewrite decide_False]. apply list_elem_of_lookup. exists j. apply list_lookup_insert_eq. lia.
Qed.
Lemma has_old K m l x y : (length l = K)%nat -> (K <= m)%nat -> Z.of_nat m < 2 ^ 62 -> NoDup l -> y <> x ->
  count_has y (adds x (MkRes (Z.of_nat K) (Z.of_nat m) l)) = ((if decide (y ∈ l) then 1 else 0) * m)%nat.
Proof.
  intros Hl Hk Hm Hd Hne. unfold count_has. rewrite adds_full, sum_fmap by done. assert (forall j, y ∈ <[j := x]> l <-> exists i, i <> j /\ l !! i = Some y) as Hin.
  { intros j. rewrite list_elem_of_lookup. split.
    - intros [i Hi]. destruct (decide (i = j)) as [->|Hij]; [|exists i; by rewrite list_lookup_insert_ne in Hi by done]. destruct (decide (j < length l)%nat).
      + rewrite list_lookup_insert_eq in Hi by done. congruence.
      + rewrite list_insert_ge in Hi by lia. apply lookup_lt_Some in Hi. lia.
    - intros (i & Hij & Hi). exists i. by rewrite list_lookup_insert_ne by done. }
  destruct (decide (y ∈ l)) as [Hy|Hy].
  - pose proof Hy as (i & Hi)%list_elem_of_lookup. pose proof (lookup_lt_Some _ _ _ Hi). pose proof (sum_but i (S m) ltac:(lia)) as Hs. rewrite Nat.mul_1_l. trans (sum_list_with (fun j => if decide (j = i) then 0%nat else 1%nat) (seq 0 (S m))); [|lia]. apply sum_ext. intros j _. cbn [has items].
    destruct (decide (j < K)%nat) as [Hj|Hj]; [|rewrite decide_True by done; rewrite decide_False by lia; done]. destruct (decide (j = i)) as [->|Hji].
    + rewrite decide_False; [done|]. intros (i' & Hi' & Ei)%Hin. apply Hi'. by eapply NoDup_lookup.
    + rewrite decide_True; [done|]. apply Hin. exists i. split; [congruence|done].
  - rewrite (sum_ext _ (fun _ => 0%nat)); [rewrite sum_const; lia|]. intros j _. cbn [has items]. rewrite decide_False; [done|]. destruct (decide (j < K)%nat); [|done].
    intros (i & _ & Hi)%Hin. apply Hy. by eapply list_elem_of_lookup_2.
Qed.

(** What each outcome adds up to over the next element. *)
Lemma sum_outcomes K k xs y f c : Z.of_nat K = Z.max 1 k -> Z.of_nat (length xs) < 2 ^ 62 ->
  (forall l, holds K xs (Ret (MkRes (Z.of_nat K) (Z.of_nat (length xs)) l)) ->
     sum_list_with f (adds y (MkRes (Z.of_nat K) (Z.of_nat (length xs)) l)) = c (Ret (MkRes (Z.of_nat K) (Z.of_nat (length xs)) l))) ->
  sum_list_with f (outcomes k (xs ++ [y])) = sum_list_with c (outcomes k xs).
Proof.
  intros HK Hn Hc. rewrite outcomes_snoc, sum_bind. apply sum_ext. intros g Hg. pose proof (outcomes_hold K k xs HK Hn) as Ho. rewrite Forall_forall in Ho.
  specialize (Ho g Hg). pose proof Ho as (l & -> & _). by apply Hc.
Qed.
Lemma length_sum {B} (l : list B) : length l = sum_list_with (fun _ => 1%nat) l.
Proof. rewrite sum_const. lia. Qed.

Lemma outcomes_uniform K k xs : Z.of_nat K = Z.max 1 k -> Z.of_nat (length xs) < 2 ^ 62 -> NoDup xs -> (0 < length (outcomes k xs))%nat /\
  forall x, x ∈ xs -> (count_has x (outcomes k xs) * length xs = Nat.min K (length xs) * length (outcomes k xs))%nat.
Proof.
  intros HK. induction xs as [|y xs IH] using rev_ind; intros Hn Hd; [split; [cbn; lia|]; intros x Hx; by apply not_elem_of_nil in Hx|].
  assert (length (xs ++ [y]) = S (length xs)) as El by (rewrite length_app; cbn; lia). rewrite El in *. apply NoDup_app in Hd as (Hd & Hy & _).
  assert (y ∉ xs) as Hyx by (intros Hin; apply (Hy y Hin); by left). specialize (IH ltac:(lia) Hd) as [Hpos IH]. set (m := length xs) in *. destruct (decide (m < K)%nat) as [Hr|Hr].
  - assert (length (outcomes k (xs ++ [y])) = length (outcomes k xs)) as EN.
    { rewrite !length_sum. apply (sum_outcomes K); [done|lia|]. intros l (l' & E & Hl & _). injection E as <-. fold m in Hl. rewrite adds_room by lia. done. }
    rewrite EN. split; [done|]. intros x Hx. assert (count_has x (outcomes k (xs ++ [y])) = length (outcomes k xs)) as ->; [|rewrite Nat.min_r by lia; lia].
    rewrite length_sum. apply (sum_outcomes K); [done|lia|]. intros l (l' & E & Hl & _ & _ & Ha). injection E as <-. fold m in Hl, Ha. rewrite adds_room by lia. rewrite (Ha ltac:(lia)).
    cbn [sum_list_with has items]. by rewrite decide_True.
  - assert (length (outcomes k (xs ++ [y])) = (length (outcomes k xs) * S m))%nat as EN.
    { rewrite (length_sum (outcomes k (xs ++ [y]))). rewrite <- sum_const. apply (sum_outcomes K); [done|lia|]. intros l (l' & E & Hl & _). injection E as <-. fold m in Hl.
      rewrite <- length_sum, adds_full by lia. by rewrite length_fmap, length_seq. }
    rewrite EN. split; [nia|]. rewrite Nat.min_l by lia. rewrite Nat.min_l in IH by lia. intros x [Hx|Hx]%elem_of_app.
    + assert (count_has x (outcomes k (xs ++ [y])) = count_has x (outcomes k xs) * m)%nat as ->; [|specialize (IH x Hx); nia].
      unfold count_has. rewrite <- sum_scale. apply (sum_outcomes K); [done|lia|]. intros l (l' & E & Hl & _ & Hdl & _). injection E as <-. fold m in Hl.
      change (sum_list_with (has x) (adds y ?r)) with (count_has x (adds y r)). apply has_old; [lia|lia|lia|by apply Hdl|intros ->; done].
    + apply list_elem_of_singleton in Hx as ->. assert (count_has y (outcomes k (xs ++ [y])) = length (outcomes k xs) * K)%nat as ->; [|lia].
      rewrite <- sum_const. apply (sum_outcomes K); [done|lia|]. intros l (l' & E & Hl & Hs & _). injection E as <-. fold m in Hl. apply has_new; [lia|lia|lia|]. intros Hin. apply Hyx. by apply Hs.
Qed.

(** C29: Given a stream of fewer than [2 ^ 62] elements, no two alike, a reservoir never panics, whatever the random source answers, and
    holds as many different elements of the stream as fit, all of them while they fit; and over all the equally likely answers every
    element is kept in the same share of them, the size over the elements seen. A size below one counts as one. *)
Theorem reservoir_fair k xs : Z.of_nat (length xs) < 2 ^ 62 -> NoDup xs ->
  let K := Z.to_nat (Z.max 1 k) in
  Forall (fun g => exists r, g = Ret r /\ Count r = Z.of_nat (length xs) /\ length (Sample r) = Nat.min K (length xs) /\ NoDup (Sample r) /\
    (forall x, x ∈ Sample r -> x ∈ xs) /\ ((length xs <= K)%nat -> Sample r = xs)) (outcomes k xs) /\
  (0 < length (outcomes k xs))%nat /\
  forall x, x ∈ xs -> (count_has x (outcomes k xs) * length xs = Nat.min K (length xs) * length (outcomes k xs))%nat.
Proof.
  intros Hn Hd K. assert (Z.of_nat K = Z.max 1 k) as HK by (unfold K; lia). split; [|by apply outcomes_uniform].
  eapply Forall_impl; [by apply (outcomes_hold K)|]. intros g (l & -> & Hl & Hs & Hdl & Ha). eexists. split; [done|]. cbn [Count Sample n items]. auto 6.
Qed.
End reservoir.

Lemma reservoir_fair_witness : length (outcomes 2 [1; 2; 3; 4]) = 12%nat /\ (count_has 3 (outcomes 2 [1; 2; 3; 4]) * 4 = 2 * 12)%nat.
Proof.
  destruct (reservoir_fair 2 [1; 2; 3; 4]) as (_ & _ & Hc); [done|by apply (bool_decide_unpack _)|]. split; [vm_compute; reflexivity|].
  apply (Hc 3). apply (bool_decide_unpack _). vm_compute. exact I.
Defined.
