(* ===== verification/Tournament.v ===== *)
(** Tournaments ([pkg/domain/tournament/tournament.go]): the rank cache of [Leaderboard] with a board for each
    period of a schedule. The schedule is a third-party parser's: the next reset after a time is an argument. *)
From Stdlib Require Import ZArith Lia Bool.
From stdpp Require Import base numbers strings list gmap fin_maps.
From S2P Require Import Prelude Leaderboard.

Open Scope Z_scope.

(** Times are counts of nanoseconds since 1970; the zero time is the first of January of year 1. *)
Definition second : Z := 10 ^ 9.
Definition zeroTime : Z := - 62135596800 * second.
Definition unix (t : Z) : Z := t / second.

Record config := MkConfig { c_durationSec : Z; c_startDelay : Z; c_rankCache : option RankCache }.
Definition option_ : Type := config -> config.
Definition WithDuration (sec : Z) : option_ := fun c => MkConfig sec (c_startDelay c) (c_rankCache c).
Definition WithStartDelay (sec : Z) : option_ := fun c => MkConfig (c_durationSec c) sec (c_rankCache c).
Definition WithRankCache (rc : RankCache) : option_ := fun c => MkConfig (c_durationSec c) (c_startDelay c) (Some rc).

(** [cron.Schedule]: its next activation after a time. *)
Definition Schedule : Type := Z -> Z.

Record Tournament := MkTournament {
  id : string; order : SortOrder; schedule : Schedule; durationSec : Z; startDelay : Z; rc : RankCache
}.
Inductive tErr := ErrParse.
Definition New (Parse : string -> option Schedule) (id : string) (o : SortOrder) (resetCron : string) (opts : list option_) : result tErr Tournament :=
  let cfg := foldl (fun c o => o c) (MkConfig 0 0 None) opts in
  match Parse resetCron with
  | None => Err ErrParse
  | Some sched => Ok (MkTournament id o sched (c_durationSec cfg) (c_startDelay cfg) (default (Leaderboard.New []) (c_rankCache cfg)))
  end.

(** The loops need as many turns as there are resets in the time they look back; [None] is out of turns. *)
Fixpoint previous_loop (fuel : nat) (Next : Schedule) (before probe last : Z) : option Z :=
  match fuel with
  | O => None
  | S fuel =>
      let n := Next probe in
      if before <? n then Some last
      else previous_loop fuel Next before (if n <=? probe then probe + second else n) n
  end.
Definition previousReset (fuel : nat) (before : Z) (t : Tournament) : option Z :=
  previous_loop fuel (schedule t) before (before - 366 * 24 * 3600 * second) zeroTime.

Fixpoint current_loop (fuel' fuel : nat) (dur now next : Z) (t : Tournament) : option Z :=
  match fuel' with
  | O => None
  | S fuel' =>
      let start := next + wrap64 (- dur) in
      if start <=? now then Some (unix next)
      else
        prev ← previousReset fuel start t;
        if (prev =? zeroTime) || negb (prev <? next) then Some (unix next) else current_loop fuel' fuel dur now prev t
  end.
Definition currentExpiry (fuel : nat) (now : Z) (t : Tournament) : option Z :=
  let next := schedule t now in
  if durationSec t <=? 0 then Some (unix next)
  else let dur := wrap64 (durationSec t * second) in current_loop fuel fuel dur now next t.
Definition CurrentExpiry := currentExpiry.

(** Every operation reads the clock once. *)
Definition set_rc (rc : RankCache) (t : Tournament) : Tournament := MkTournament (id t) (order t) (schedule t) (durationSec t) (startDelay t) rc.
Section operations.
Context (fuel : nat) (now : Z).

Definition Fill (records : list Record_) (enable : bool) (t : Tournament) : option (go (Tournament * Z)) :=
  expiry ← CurrentExpiry fuel now t; Some ('(rc, n) ← Leaderboard.Fill (id t) expiry (order t) records enable (rc t); Ret (set_rc rc t, n)).
Definition Insert (rec : Record_) (enable : bool) (t : Tournament) : option (go (Tournament * Z)) :=
  expiry ← CurrentExpiry fuel now t; Some ('(rc, n) ← Leaderboard.Insert (id t) expiry (order t) rec enable (rc t); Ret (set_rc rc t, n)).
Definition Get (owner : string) (t : Tournament) : option (go Z) :=
  expiry ← CurrentExpiry fuel now t; Some (Leaderboard.Get (id t) expiry owner (rc t)).
Definition TopN (sort : sorter) (n : Z) (t : Tournament) : option (go (list Record_)) :=
  expiry ← CurrentExpiry fuel now t; Some (Leaderboard.TopN sort (id t) expiry n (rc t)).
Definition Around (sort : sorter) (owner : string) (around : Z) (t : Tournament) : option (go (list Record_)) :=
  expiry ← CurrentExpiry fuel now t; Some (Leaderboard.Around sort (id t) expiry owner around (rc t)).
Definition Size (t : Tournament) : option Z :=
  expiry ← CurrentExpiry fuel now t; Some (Leaderboard.Size (id t) expiry (rc t)).
Definition Delete (owner : string) (t : Tournament) : option (go (Tournament * bool)) :=
  expiry ← CurrentExpiry fuel now t; Some ('(rc, b) ← Leaderboard.Delete (id t) expiry owner (rc t); Ret (set_rc rc t, b)).
End operations.
Definition NextReset (now : Z) (t : Tournament) : Z := schedule t now.

(** * The period of a time *)

Section schedules.
(** What a schedule promises: its activations, the least of which after a time is the next. *)
Context (resets : Z -> Prop) (Next : Schedule).
Context (Next_after : forall t, t < Next t) (Next_resets : forall t, resets (Next t)) (Next_least : forall t s, resets s -> t < s -> Next t <= s) (resets_later : ~ resets zeroTime).

Definition latest (before t : Z) : Prop := resets t /\ t <= before /\ forall s, resets s -> s <= before -> s <= t.

Lemma previous_loop_spec n : forall before probe last, (Z.to_nat (before - probe + 1) <= n)%nat -> (resets last -> last <= probe) ->
  exists p, (forall fuel, (n < fuel)%nat -> previous_loop fuel Next before probe last = Some p) /\
    (p = last /\ (forall s, resets s -> probe < s -> before < s) \/ probe < p /\ latest before p).
Proof.
  induction n as [|n IH]; intros before probe last Hn Hl; pose proof (Next_after probe) as Ha; pose proof (Next_least probe) as Hleast.
  - exists last. split; [|left; split; [done|]; intros s Hs ?; lia]. intros [|fuel] Hf; [lia|]. cbn [previous_loop]. by rewrite (proj2 (Z.ltb_lt before (Next probe))) by lia.
  - destruct (Z.lt_ge_cases before (Next probe)) as [Hb|Hb].
    + exists last. split; [|left; split; [done|]; intros s Hs Hp; specialize (Hleast s Hs Hp); lia]. intros [|fuel] Hf; [lia|]. cbn [previous_loop]. by rewrite (proj2 (Z.ltb_lt before (Next probe))) by lia.
    + destruct (IH before (Next probe) (Next probe)) as (p & Hp & Hc); [lia|done|]. exists p. split.
      * intros [|fuel] Hf; [lia|]. cbn [previous_loop]. rewrite (proj2 (Z.ltb_ge before (Next probe))), (proj2 (Z.leb_gt (Next probe) probe)) by lia. apply Hp. lia.
      * right. destruct Hc as [[-> Hc]|[Hlt Hc]]; [|split; [lia|done]]. split; [done|]. split; [apply Next_resets|]. split; [done|].
        intros s Hs Hsb. destruct (Z.lt_ge_cases (Next probe) s) as [Hlt|]; [specialize (Hc s Hs Hlt); lia|done].
Qed.

(** The period of [now]: the one that ends at the next reset when it has begun, the one that ended at the last reset when
    it has not, unless the last reset is more than 366 days before that beginning. *)
Definition period (dur now e : Z) : Prop :=
  if dur <=? 0 then e = Next now
  else if Next now - dur <=? now then e = Next now
  else latest now e /\ Next now - dur - 366 * 24 * 3600 * second < e \/
       e = Next now /\ forall s, resets s -> s <= now -> s <= Next now - dur - 366 * 24 * 3600 * second.

Lemma currentExpiry_spec now t : schedule t = Next -> durationSec t * second < 2 ^ 63 ->
  exists e n, period (durationSec t * second) now e /\ forall fuel, (n < fuel)%nat -> currentExpiry fuel now t = Some (unix e).
Proof.
  intros Es Hd. unfold currentExpiry, period. rewrite Es. assert (0 < second) as Hs by (by vm_compute). destruct (Z.leb_spec (durationSec t) 0) as [H0|H0].
  { exists (Next now), 0%nat. rewrite (proj2 (Z.leb_le (durationSec t * second) 0)) by nia. done. }
  rewrite (proj2 (Z.leb_gt (durationSec t * second) 0)) by nia. set (dur := durationSec t * second) in *. assert (0 < dur) as Hdur by (unfold dur; nia).
  cbn zeta. rewrite (wrap64_id dur) by (unfold int64; lia). pose proof (Next_after now) as Ha.
  assert (forall next fo fi, next - dur <= now -> (0 < fo)%nat -> current_loop fo fi dur now next t = Some (unix next)) as Hbegun.
  { intros next [|fo] fi Hn Hf; [lia|]. cbn [current_loop]. rewrite wrap64_id by (unfold int64; lia). by rewrite (proj2 (Z.leb_le (next + - dur) now)) by lia. }
  destruct (Z.leb_spec (Next now - dur) now) as [Hb|Hb]; [exists (Next now), 0%nat; split; [done|]; intros fuel Hf; by apply Hbegun|].
  set (start := Next now - dur) in *. set (probe := start - 366 * 24 * 3600 * second).
  assert (forall s, resets s -> s <= start -> s <= now) as Hnow. { intros s Hsr Hle. destruct (Z.lt_ge_cases now s) as [Hlt|]; [|done]. pose proof (Next_least now s Hsr Hlt). lia. }
  destruct (previous_loop_spec (Z.to_nat (start - probe + 1)) start probe zeroTime) as (p & Hp & Hc); [done|intros Hz; by apply resets_later in Hz|].
  assert (forall fo fi, (Z.to_nat (start - probe + 1) < fi)%nat -> current_loop (S fo) fi dur now (Next now) t =
    if (p =? zeroTime) || negb (p <? Next now) then Some (unix (Next now)) else current_loop fo fi dur now p t) as Hstep.
  { intros fo fi Hf. cbn [current_loop]. rewrite wrap64_id by (unfold int64; lia). change (Next now + - dur) with start. rewrite (proj2 (Z.leb_gt start now)) by lia.
    unfold previousReset. rewrite Es. fold probe. by rewrite (Hp fi Hf). }
  exists (if p =? zeroTime then Next now else p), (S (Z.to_nat (start - probe + 1))). destruct Hc as [[-> Hc]|[Hlt (Hr & Hle & Hl)]].
  - rewrite Z.eqb_refl in *. split; [right; split; [done|]|]; [|intros [|fo] Hf; [lia|]; apply Hstep; lia].
    intros s Hsr Hle. destruct (Z.lt_ge_cases probe s) as [Hlt|]; [|lia]. specialize (Hc s Hsr Hlt). lia.
  - assert (p <> zeroTime) as Hz by congruence. rewrite (proj2 (Z.eqb_neq p zeroTime)) in * by done. specialize (Hnow p Hr Hle). split.
    + left. split; [|unfold probe in Hlt; lia]. split; [done|]. split; [done|]. intros s Hsr Hsn. apply Hl; [done|lia].
    + intros [|fo] Hf; [lia|]. rewrite Hstep by lia. rewrite (proj2 (Z.ltb_lt p (Next now))) by lia. apply Hbegun; lia.
Qed.

(** * A board for each period *)

Inductive top :=
| TFill (records : list Record_) (enable : bool)
| TInsert (rec : Record_) (enable : bool)
| TDelete (owner : string)
| TGet (owner : string)
| TSize.

Definition texec (fuel : nat) (now : Z) (c : top) (t : Tournament) : option (go (Tournament * Z)) :=
  match c with
  | TFill recs en => Fill fuel now recs en t
  | TInsert rec en => Insert fuel now rec en t
  | TDelete owner => g ← Delete fuel now owner t; Some ('(t, b) ← g; Ret (t, if b : bool then 1 else 0))
  | TGet owner => g ← Get fuel now owner t; Some (n ← g; Ret (t, n))
  | TSize => n ← Size fuel now t; Some (Ret (t, n))
  end.
Fixpoint trun (fuel : nat) (ops : list (Z * top)) (t : Tournament) : option (go (Tournament * list Z)) :=
  match ops with
  | [] => Some (Ret (t, []))
  | (now, c) :: ops =>
      g ← texec fuel now c t;
      match g with
      | Ret (t, x) => g ← trun fuel ops t; Some ('(t, xs) ← g; Ret (t, x :: xs))
      | Panic m => Some (Panic m)
      end
  end.

(** Scores by season: each operation acts on the one of its time, and on no other. *)
Local Abbreviation seasons := (gmap Z (gmap string (Z * Z))).
Definition season_step (o : SortOrder) (e : Z) (c : top) (ss : seasons) : seasons * Z :=
  match c with
  | TFill recs en => if en then (<[e := list_to_map (map pair_of recs)]> ss, Z.of_nat (length recs)) else (ss, 0)
  | TInsert rec en =>
      if en then let m := <[OwnerID rec := (Score rec, Subscore rec)]> (default ∅ (ss !! e)) in (<[e := m]> ss, rank_of o m (OwnerID rec)) else (ss, -1)
  | TDelete owner => let m := default ∅ (ss !! e) in if decide (is_Some (m !! owner)) then (<[e := delete owner m]> ss, 1) else (ss, 0)
  | TGet owner => (ss, rank_of o (default ∅ (ss !! e)) owner)
  | TSize => (ss, Z.of_nat (size (default ∅ (ss !! e))))
  end.
Fixpoint season_run (o : SortOrder) (ending : Z -> Z) (ops : list (Z * top)) (ss : seasons) : list Z :=
  match ops with [] => [] | (now, c) :: ops => let '(ss, x) := season_step o (ending now) c ss in x :: season_run o ending ops ss end.

Definition tlegal (c : top) : Prop := match c with TFill recs _ => NoDup (map OwnerID recs) | _ => True end.

Record plays (t : Tournament) (ss : seasons) : Prop := {
  pl_list : blacklist (rc t) = ∅ /\ blacklistAll (rc t) = false;
  pl_boards : exists bs, stands (rc t) bs /\ forall e, bs !! (id t, e) = (fun m => (order t, m)) <$> ss !! e
}.

Lemma plays_exec t ss c : plays t ss -> legal c -> exists bs, stands (rc t) bs /\ (forall e, bs !! (id t, e) = (fun m => (order t, m)) <$> ss !! e) /\
  exists r x, exec c (rc t) = Ret (r, x) /\ x = (board_step (fun _ en => negb en) c bs).2 /\ forall ss', (forall e, (board_step (fun _ en => negb en) c bs).1 !! (id t, e) = (fun m => (order t, m)) <$> ss' !! e) -> plays (set_rc r t) ss'.
Proof.
  intros [[Hl1 Hl2] (bs & Hs & Hb)] Hl. exists bs. split; [done|]. split; [done|]. destruct (exec_spec c (rc t) bs Hl Hs) as (r & E & Hs' & E1 & E2).
  assert (forall i en, skipped (rc t) i en = negb en) as Hk. { intros i en. unfold skipped. rewrite Hl1, Hl2, bool_decide_false by set_solver. by destruct en. }
  assert (board_step (skipped (rc t)) c bs = board_step (fun _ en => negb en) c bs) as Ek. { destruct c; cbn [board_step]; rewrite ?Hk; done. }
  rewrite Ek in *. eexists _, _. split; [exact E|]. split; [done|]. intros ss' Hss. split; [cbn [rc set_rc]; by rewrite E1, E2|]. exists (board_step (fun _ en => negb en) c bs).1. done.
Qed.

Lemma plays_get t ss e owner : plays t ss -> Leaderboard.Get (id t) e owner (rc t) = Ret (rank_of (order t) (default ∅ (ss !! e)) owner) /\
  Leaderboard.Size (id t) e (rc t) = Z.of_nat (size (default ∅ (ss !! e))).
Proof.
  intros [_ (bs & Hs & Hb)]. pose proof (st_boards _ _ Hs (id t) e) as Hx. rewrite Hb in Hx. unfold Leaderboard.Get, Leaderboard.Size.
  destruct (caches (rc t) !! cacheKey (id t) e) as [en|], (ss !! e) as [m|]; cbn [fmap option_fmap option_map default from_option] in *; try done. destruct Hx as [Eo Hg]. rewrite <- Eo. split; [by apply rankLocked_spec|].
  rewrite (g_items en m Hg). unfold items_of. by rewrite length_map, length_map_to_list.
Qed.

(** A tournament but for its cache. *)
Definition alike (t t' : Tournament) : Prop := id t' = id t /\ order t' = order t /\ schedule t' = schedule t /\ durationSec t' = durationSec t.
Lemma alike_expiry fuel now t t' : alike t t' -> currentExpiry fuel now t' = currentExpiry fuel now t.
Proof.
  intros (_ & _ & E1 & E2). unfold currentExpiry. rewrite E1, E2. destruct (durationSec t <=? 0); [done|]. cbn zeta. generalize (schedule t now) as next, (wrap64 (durationSec t * second)) as dur. intros next dur.
  generalize fuel at 1 3 as f. intros f. revert next. induction f as [|f IH]; intros next; [done|]. cbn [current_loop]. destruct (next + wrap64 (- dur) <=? now); [done|]. unfold previousReset. rewrite E1.
  destruct (previous_loop _ _ _ _ _) as [p|]; [|done]. cbn. destruct ((p =? zeroTime) || negb (p <? next)); [done|apply IH].
Qed.

Lemma texec_spec fuel now c t ss e : plays t ss -> tlegal c -> currentExpiry fuel now t = Some e ->
  exists t', texec fuel now c t = Some (Ret (t', (season_step (order t) e c ss).2)) /\ plays t' (season_step (order t) e c ss).1 /\ alike t t'.
Proof.
  intros Hp Hl He. destruct c as [recs en|rec en|owner|owner|]; cbn [texec season_step].
  - unfold Fill, CurrentExpiry. rewrite He. cbn [mbind option_bind]. destruct (plays_exec t ss (CFill (id t) e (order t) recs en) Hp Hl) as (bs & _ & Hb & r & x & E & -> & Hs). cbn [exec] in E. rewrite E. cbn [mbind go_bind].
    exists (set_rc r t). cbn [board_step] in *. destruct en; cbn [negb fst snd] in *; (split; [done|split; [apply Hs|done]]); [|done]. intros e'. destruct (decide (e' = e)) as [->|]; [by rewrite !lookup_insert_eq|]. rewrite !lookup_insert_ne by congruence. apply Hb.
  - unfold Insert, CurrentExpiry. rewrite He. cbn [mbind option_bind]. destruct (plays_exec t ss (CInsert (id t) e (order t) rec en) Hp Logic.I) as (bs & _ & Hb & r & x & E & -> & Hs). cbn [exec] in E. rewrite E. cbn [mbind go_bind].
    assert (default (order t, ∅) (bs !! (id t, e)) = (order t, default ∅ (ss !! e))) as Ed by (rewrite Hb; by destruct (ss !! e)).
    exists (set_rc r t). cbn [board_step] in *. rewrite Ed in *. destruct en; cbn [negb fst snd] in *; (split; [done|split; [apply Hs|done]]); [|done]. intros e'. destruct (decide (e' = e)) as [->|]; [by rewrite !lookup_insert_eq|]. rewrite !lookup_insert_ne by congruence. apply Hb.
  - unfold Delete, CurrentExpiry. rewrite He. cbn [mbind option_bind]. destruct (plays_exec t ss (CDelete (id t) e owner) Hp Logic.I) as (bs & _ & Hb & r & x & E & Ex & Hs). cbn [exec] in E.
    destruct (Leaderboard.Delete (id t) e owner (rc t)) as [[r' b]|]; [|done]. cbn [mbind go_bind] in *. injection E as <- <-. exists (set_rc r' t). cbn [board_step] in Ex, Hs. rewrite Hb in Ex, Hs.
    destruct (ss !! e) as [m|] eqn:Es; cbn [fmap option_fmap option_map default from_option] in *; [|rewrite Ex, decide_False by (rewrite lookup_empty; by intros [? ?]); split; [done|split; [by apply Hs|done]]].
    unfold Datatypes.id. destruct (decide (is_Some (m !! owner))); rewrite Ex; (split; [done|split; [|done]]); apply Hs; [|done]. cbn [fst]. intros e'. destruct (decide (e' = e)) as [->|]; [by rewrite !lookup_insert_eq|]. rewrite !lookup_insert_ne by congruence. apply Hb.
  - unfold Get, CurrentExpiry. rewrite He. cbn [mbind option_bind]. destruct (plays_get t ss e owner Hp) as [-> _]. by exists t.
  - unfold Size, CurrentExpiry. rewrite He. cbn [mbind option_bind]. destruct (plays_get t ss e "" Hp) as [_ ->]. by exists t.
Qed.

Lemma trun_spec fuel (ending : Z -> Z) ops : forall t ss, plays t ss -> Forall (fun op => tlegal op.2 /\ currentExpiry fuel op.1 t = Some (ending op.1)) ops ->
  exists t', trun fuel ops t = Some (Ret (t', season_run (order t) ending ops ss)).
Proof.
  induction ops as [|[now c] ops IH]; intros t ss Hp Ho; [by exists t|]. apply Forall_cons in Ho as [[Hl He] Ho]. cbn [fst snd] in *. cbn [trun season_run].
  destruct (texec_spec fuel now c t ss (ending now) Hp Hl He) as (t1 & -> & Hp1 & Ha). cbn [mbind option_bind]. destruct (season_step (order t) (ending now) c ss) as [ss1 x]. cbn [fst snd] in *.
  destruct (IH t1 ss1 Hp1) as (t2 & E). { eapply Forall_impl; [exact Ho|]. intros op [H1 H2]. split; [done|]. by rewrite (alike_expiry fuel op.1 t t1 Ha). }
  rewrite E. cbn [mbind option_bind go_bind]. exists t2. destruct Ha as (_ & -> & _). done.
Qed.

(** On a schedule that keeps its promise every operation of a tournament ends and does not panic, and the answers
    are those of one table of scores for each period, the one that the time of the operation belongs to; a reset begins
    with an empty table and leaves the others as they are. *)
Theorem tournament_seasons t ops : schedule t = Next -> durationSec t * second < 2 ^ 63 -> rc t = Leaderboard.New [] -> Forall (fun op => tlegal op.2) ops ->
  exists n ending, Forall (fun op => exists e, period (durationSec t * second) op.1 e /\ ending op.1 = unix e) ops /\
    forall fuel, (n < fuel)%nat -> exists t', trun fuel ops t = Some (Ret (t', season_run (order t) ending ops ∅)).
Proof.
  intros Es Hd Hrc Hl.
  assert (exists n, forall op, op ∈ ops -> exists e, period (durationSec t * second) op.1 e /\ forall fuel, (n < fuel)%nat -> currentExpiry fuel op.1 t = Some (unix e)) as [n Hn].
  { clear Hl. induction ops as [|op ops [n IH]]; [exists 0%nat; intros op Hin; by apply not_elem_of_nil in Hin|]. destruct (currentExpiry_spec op.1 t Es Hd) as (e & m & He & Hm).
    exists (n + m)%nat. intros op' [->|Hin]%elem_of_cons; [exists e; split; [done|]; intros fuel Hf; apply Hm; lia|].
    destruct (IH op' Hin) as (e' & He' & Hm'). exists e'. split; [done|]. intros fuel Hf. apply Hm'. lia. }
  exists n, (fun now => default 0 (currentExpiry (S n) now t)). split.
  - apply Forall_forall. intros op Hin. destruct (Hn op Hin) as (e & He & Hf). exists e. split; [done|]. by rewrite (Hf (S n)) by lia.
  - intros fuel Hf. apply trun_spec.
    + split; [rewrite Hrc; done|]. exists ∅. split; [rewrite Hrc; apply New_stands|]. intros e. by rewrite !lookup_empty.
    + apply Forall_forall. intros op Hin. rewrite Forall_forall in Hl. split; [by apply Hl|]. destruct (Hn op Hin) as (e & He & Hx). by rewrite (Hx fuel), (Hx (S n)) by lia.
Qed.
End schedules.

(** * At concrete times *)

Section examples.
Definition hour : Z := 3600 * second.
(** Every day at nine. *)
Definition daily : Schedule := fun t => ((t - 9 * hour) / (24 * hour) + 1) * (24 * hour) + 9 * hour.
Definition at_nine (t : Z) : Prop := t mod (24 * hour) = 9 * hour.
Definition demo (dur : Z) : Tournament := MkTournament "t" SortDescending daily dur 0 (Leaderboard.New []).
Definition day (n h : Z) : Z := n * 24 * hour + h * hour.


Lemma daily_schedule : (forall t, t < daily t) /\ (forall t, at_nine (daily t)) /\ (forall t s, at_nine s -> t < s -> daily t <= s) /\ ~ at_nine zeroTime.
Proof.
  assert (~ at_nine zeroTime) as Hz by (by vm_compute). unfold daily, at_nine in *. assert (0 < 24 * hour) as Hd by (by vm_compute). assert (0 <= 9 * hour < 24 * hour) as H9 by (by vm_compute).
  generalize dependent (24 * hour). intros d Hz Hd. generalize dependent (9 * hour). intros h Hz Hh. split; [|split; [|split; [|done]]].
  - intros t. pose proof (Z.mul_succ_div_gt (t - h) d Hd). lia.
  - intros t. rewrite Z.add_comm, Z_mod_plus_full. apply Z.mod_small. lia.
  - intros t s Hs Hlt. pose proof (Z.div_mod s d ltac:(lia)) as E. rewrite Hs in E. assert ((t - h) / d < s / d); [|nia]. apply Z.div_lt_upper_bound; lia.
Qed.

(** A score is there until the reset and gone after it. *)
Definition demo_ops : list (Z * top) := [(day 0 10, TInsert (MkRecord "a" 5 0) true); (day 1 8, TGet "a"); (day 1 10, TGet "a")].
Lemma tournament_seasons_witness : exists n, forall fuel, (n < fuel)%nat -> exists t', trun fuel demo_ops (demo 0) = Some (Ret (t', [1; 1; -1])).
Proof.
  destruct daily_schedule as (H1 & H2 & H3 & H4).
  destruct (tournament_seasons at_nine daily H1 H2 H3 H4 (demo 0) demo_ops) as (n & ending & Hp & Hr); [done|by vm_compute|done|by repeat constructor|].
  exists n. intros fuel Hf. destruct (Hr fuel Hf) as [t' E]. exists t'. rewrite E. do 3 f_equal. clear -Hp.
  inversion Hp as [|? ? (e1 & P1 & E1) Hp1]; subst. inversion Hp1 as [|? ? (e2 & P2 & E2) Hp2]; subst. inversion Hp2 as [|? ? (e3 & P3 & E3) _]; subst.
  cbn [fst] in *. unfold period in *. vm_compute in P1, P2, P3. subst. cbn [demo_ops season_run]. rewrite E1, E2, E3. vm_compute. reflexivity.
Defined.

(** Between two periods the board of the one that has ended is written: with periods of an hour a score handed in at ten, an hour
    after the reset, is on the board that ended at nine. *)
Example after_the_period : currentExpiry 400 (day 20 10) (demo 3600) = Some (unix (day 20 9)) /\ currentExpiry 400 (day 20 8) (demo 3600) = Some (unix (day 20 9)).
Proof. split; vm_compute; reflexivity. Qed.

(** A delay of the start changes nothing. *)
Lemma start_delay_ignored Parse name o cron opts sec : match New Parse name o cron (opts ++ [WithStartDelay sec]), New Parse name o cron opts with
  | Ok t, Ok t' => alike t' t /\ rc t = rc t' /\ forall fuel now, currentExpiry fuel now t = currentExpiry fuel now t'
  | Err _, Err _ => True
  | _, _ => False
  end.
Proof. unfold New. destruct (Parse cron); [|done]. rewrite foldl_app. cbn. split; [done|]. split; [done|]. intros fuel now. by apply alike_expiry. Qed.

End examples.
