(* ===== verification/Syncx.v ===== *)
(** Helpers of concurrency ([pkg/foundation/syncx]): the batcher, whose callers, timer and goroutine are interleaved
    at the accesses to its channels; the throttle and the debouncer on the times of their calls. *)
From Stdlib Require Import ZArith Lia Bool Sorted.
From stdpp Require Import base numbers strings list relations.
From S2P Require Import Prelude.

Open Scope Z_scope.

(** * Batcher *)

Section batcher.
Context {T : Type}.

(** Where [run] is: at the select of its loop, emptying the channel after [quit], returned. *)
Inductive phase := Collecting | Draining | Gone.

(** [flushed] is what was handed to [flush], [accepted] what went into the channel. *)
Record Batcher := MkBatcher {
  in_ : list T; maxSize : Z; maxWait : Z; quit : bool;
  at_ : phase; buf : list T; timerOn : bool; flushed : list (list T); accepted : list T
}.

Definition NewBatcher (maxSize maxWait : Z) : Batcher :=
  MkBatcher [] (if maxSize <=? 0 then 1 else maxSize) maxWait false Collecting [] false [] [].

Definition set_run (i : list T) (p : phase) (bf : list T) (tm : bool) (fl : list (list T)) (b : Batcher) : Batcher :=
  MkBatcher i (maxSize b) (maxWait b) (quit b) p bf tm fl (accepted b).

Definition doFlush (b : Batcher) : Batcher :=
  set_run (in_ b) (at_ b) [] false (match buf b with [] => flushed b | _ => flushed b ++ [buf b] end) b.
Definition append (x : T) (b : Batcher) : Batcher := set_run (in_ b) (at_ b) (buf b ++ [x]) (timerOn b) (flushed b) b.
Definition arm (b : Batcher) : Batcher :=
  if (Z.of_nat (length (buf b)) =? 1) && (0 <? maxWait b) then set_run (in_ b) (at_ b) (buf b) true (flushed b) b else b.
Definition flush_full (b : Batcher) : Batcher := if maxSize b <=? Z.of_nat (length (buf b)) then doFlush b else b.
Definition take_in (l : list T) (b : Batcher) : Batcher := set_run l (at_ b) (buf b) (timerOn b) (flushed b) b.
Definition goto (p : phase) (b : Batcher) : Batcher := set_run (in_ b) p (buf b) (timerOn b) (flushed b) b.

(** The cases of the selects of [run]. *)
Definition collect (x : T) (b : Batcher) : Batcher := flush_full (arm (append x b)).
Definition fire (b : Batcher) : Batcher := doFlush (set_run (in_ b) (at_ b) (buf b) false (flushed b) b).
Definition drain (x : T) (b : Batcher) : Batcher := flush_full (append x b).
Definition drained (b : Batcher) : Batcher := goto Gone (doFlush b).

(** [Add] sends when there is room, in any phase, and is dropped when [quit] is closed; [Close] closes it. *)
Definition Add (x : T) (b : Batcher) : Batcher :=
  MkBatcher (in_ b ++ [x]) (maxSize b) (maxWait b) (quit b) (at_ b) (buf b) (timerOn b) (flushed b) (accepted b ++ [x]).
Definition Close (b : Batcher) : Batcher :=
  MkBatcher (in_ b) (maxSize b) (maxWait b) true (at_ b) (buf b) (timerOn b) (flushed b) (accepted b).

Inductive run : Batcher -> Batcher -> Prop :=
| run_collect x l b : at_ b = Collecting -> in_ b = x :: l -> run b (collect x (take_in l b))
| run_fire b : at_ b = Collecting -> timerOn b = true -> run b (fire b)
| run_quit b : at_ b = Collecting -> quit b = true -> run b (goto Draining b)
| run_drain x l b : at_ b = Draining -> in_ b = x :: l -> run b (drain x (take_in l b))
| run_drained b : at_ b = Draining -> in_ b = [] -> run b (drained b).
Inductive step : Batcher -> Batcher -> Prop :=
| step_run b b' : run b b' -> step b b'
| step_add x b : Z.of_nat (length (in_ b)) < maxSize b -> step b (Add x b)
| step_drop (x : T) b : quit b = true -> step b b
| step_close b : step b (Close b).

(** ** Nothing is lost and nothing is early *)

Record batches_ok (b : Batcher) : Prop := {
  b_size : 1 <= maxSize b;
  b_flow : concat (flushed b) ++ buf b ++ in_ b = accepted b;
  b_batches : Forall (fun l => 1 <= Z.of_nat (length l) <= maxSize b) (flushed b);
  b_buf : Z.of_nat (length (buf b)) < maxSize b;
  b_in : Z.of_nat (length (in_ b)) <= maxSize b;
  b_timer : at_ b = Collecting -> 0 < maxWait b -> buf b <> [] -> timerOn b = true;
  b_quit : at_ b <> Collecting -> quit b = true;
  b_gone : at_ b = Gone -> buf b = []
}.

Lemma doFlush_ok b : batches_ok b -> batches_ok (doFlush b).
Proof.
  intros []. split; cbn; try done; try lia.
  - rewrite <- b_flow0. destruct (buf b) as [|y k]; [done|]. rewrite concat_app, <- !app_assoc. cbn [concat]. by rewrite app_nil_r.
  - destruct (buf b) eqn:E; [done|]. apply Forall_app. split; [done|]. constructor; [|done]. cbn in *. lia.
Qed.
(** One more element, and perhaps the timer. *)
Lemma grow_ok x l b tm : batches_ok b -> at_ b <> Gone -> in_ b = x :: l -> (at_ b = Collecting -> 0 < maxWait b -> tm = true) ->
  batches_ok (flush_full (set_run l (at_ b) (buf b ++ [x]) tm (flushed b) b)).
Proof.
  intros [] Hg Hi Ht. rewrite Hi in *. cbn in b_in0. unfold flush_full. cbn [maxSize buf set_run]. rewrite length_app. cbn [length].
  assert (concat (flushed b) ++ (buf b ++ [x]) ++ l = accepted b) as Hf by (rewrite <- b_flow0, <- !app_assoc; done).
  destruct (Z.leb_spec (maxSize b) (Z.of_nat (length (buf b) + 1))) as [Hs|Hs].
  - split; cbn; try done; try lia.
    + rewrite <- Hf. destruct (buf b ++ [x]) eqn:E; [by destruct (buf b)|]. rewrite concat_app, <- !app_assoc. cbn [concat]. by rewrite app_nil_r.
    + destruct (buf b ++ [x]) eqn:E; [done|]. apply Forall_app. split; [done|]. constructor; [|done]. rewrite <- E, length_app. cbn. lia.
  - split; cbn; try done; try lia; try (rewrite length_app; cbn; lia). by auto.
Qed.

Lemma run_ok b b' : batches_ok b -> run b b' -> batches_ok b' /\ accepted b' = accepted b /\ quit b' = quit b.
Proof.
  intros Hb Hr. destruct Hr as [x l b Ha Hi|b Ha Ht|b Ha Hq|x l b Ha Hi|b Ha Hi].
  - assert (collect x (take_in l b) = flush_full (set_run l (at_ b) (buf b ++ [x]) (((Z.of_nat (length (buf b ++ [x])) =? 1) && (0 <? maxWait b)) || timerOn b) (flushed b) b)) as ->.
    { unfold collect, arm, append, take_in. cbn. destruct (_ && _); done. }
    split; [|split; unfold flush_full; destruct (_ <=? _); done]. apply grow_ok; [done|congruence|done|]. intros _ Hw. rewrite length_app. cbn [length]. rewrite (proj2 (Z.ltb_lt 0 (maxWait b))) by done.
    destruct (buf b) eqn:E; [done|]. rewrite (b_timer b Hb Ha Hw) by by rewrite E. apply orb_true_r.
  - split; [|done]. unfold fire. assert (doFlush (set_run (in_ b) (at_ b) (buf b) false (flushed b) b) = doFlush b) as -> by done. by apply doFlush_ok.
  - split; [|done]. destruct Hb. split; cbn; try done.
  - assert (drain x (take_in l b) = flush_full (set_run l (at_ b) (buf b ++ [x]) (timerOn b) (flushed b) b)) as -> by done.
    split; [|split; unfold flush_full; destruct (_ <=? _); done]. apply grow_ok; [done|congruence|done|]. congruence.
  - split; [|done]. pose proof (doFlush_ok b Hb) as Hd. destruct Hd as [H1 H2 H3 H4 H5 H6 H7 H8]. split; cbn in *; try done. intros _. apply H7. congruence.
Qed.
Lemma step_ok b b' : batches_ok b -> step b b' -> batches_ok b' /\ (exists l, accepted b' = accepted b ++ l) /\ (quit b = true -> quit b' = true).
Proof.
  intros Hb Hs. destruct Hs as [b b' Hr|x b Hlt|x b Hq|b].
  - destruct (run_ok b b' Hb Hr) as (? & -> & ->). split; [done|]. split; [|done]. exists []. by rewrite app_nil_r.
  - split; [|split; [by exists [x]|done]]. destruct Hb. split; cbn; try done; [|rewrite length_app; cbn; lia]. by rewrite <- b_flow0, <- !app_assoc.
  - split; [done|]. split; [|done]. exists []. by rewrite app_nil_r.
  - split; [|split; [exists []; by rewrite app_nil_r|done]]. destruct Hb. by split.
Qed.
Lemma batcher_New_ok size wait : batches_ok (NewBatcher size wait).
Proof. split; cbn; try done; destruct (Z.leb_spec size 0); lia. Qed.

Lemma reach_ok size wait b : rtc step (NewBatcher size wait) b -> batches_ok b /\ maxSize b = (if size <=? 0 then 1 else size) /\ maxWait b = wait.
Proof.
  assert (forall a b, step a b -> maxSize b = maxSize a /\ maxWait b = maxWait a) as Hk.
  { intros a c Hs. destruct Hs as [a c Hr| | |]; [|done..]. destruct Hr; unfold collect, drain, flush_full, arm; cbn; repeat case_match; done. }
  apply (rtc_ind_r (fun b => batches_ok b /\ maxSize b = (if size <=? 0 then 1 else size) /\ maxWait b = wait)).
  - split; [apply batcher_New_ok|done].
  - intros y z _ Hs (Hb & E1 & E2). destruct (step_ok y z Hb Hs) as [Hz _]. destruct (Hk y z Hs) as [-> ->]. done.
Qed.

(** However callers, the timer and [Close] interleave, what was handed to [flush], what is in the batch begun and what
    is in the channel are together what was accepted, in order; no batch is empty or too large, and while elements
    wait in a batch begun the timer runs. *)
Theorem batcher_conserves size wait b : rtc step (NewBatcher size wait) b ->
  concat (flushed b) ++ buf b ++ in_ b = accepted b /\
  Forall (fun l => 1 <= Z.of_nat (length l) <= Z.max 1 size) (flushed b) /\ Z.of_nat (length (buf b)) < Z.max 1 size /\ Z.of_nat (length (in_ b)) <= Z.max 1 size /\
  (at_ b = Collecting -> 0 < wait -> buf b <> [] -> timerOn b = true /\ run b (fire b) /\ concat (flushed (fire b)) = concat (flushed b) ++ buf b) /\
  (at_ b = Gone -> quit b = true /\ buf b = []).
Proof.
  intros Hr. destruct (reach_ok size wait b Hr) as (Hb & Es & Ew). assert (maxSize b = Z.max 1 size) as E by (rewrite Es; destruct (Z.leb_spec size 0); lia). rewrite <- E, <- Ew.
  pose proof Hb as []. do 4 (split; [done|]). split; [|intros Hg; split; [apply b_quit0; congruence|auto]]. intros Ha Hw Hn. specialize (b_timer0 Ha Hw Hn). split; [done|]. split; [by constructor|].
  unfold fire, doFlush. cbn. destruct (buf b) as [|y k] eqn:Eb; [done|]. rewrite concat_app. cbn [concat]. by rewrite app_nil_r.
Qed.

Lemma drains l : forall b, batches_ok b -> at_ b = Draining -> in_ b = l -> exists b', nsteps run (S (length l)) b b' /\ at_ b' = Gone /\ concat (flushed b') = accepted b.
Proof.
  induction l as [|x l IH]; intros b Hb Ha Hi.
  - pose proof (run_drained b Ha Hi) as Hr. destruct (run_ok b _ Hb Hr) as (Hb' & E & _). exists (drained b). split; [by apply nsteps_once|]. split; [done|]. rewrite <- E, <- (b_flow _ Hb').
    cbn. by rewrite Hi, app_nil_r.
  - pose proof (run_drain x l b Ha Hi) as Hr. destruct (run_ok b _ Hb Hr) as (Hb' & E & _). destruct (IH (drain x (take_in l b)) Hb') as (b' & Hn & Hg & Hf).
    + unfold drain, flush_full. destruct (_ <=? _); done.
    + unfold drain, flush_full. destruct (_ <=? _); done.
    + exists b'. split; [by eapply nsteps_l|]. split; [done|]. by rewrite Hf, E.
Qed.

(** After [Close] the goroutine alone returns within two steps more than the channel holds elements, and by then all
    that was accepted has been flushed. *)
Theorem close_flushes size wait b : rtc step (NewBatcher size wait) b -> quit b = true -> at_ b <> Gone ->
  exists n b', (n <= length (in_ b) + 2)%nat /\ nsteps run n b b' /\ at_ b' = Gone /\ concat (flushed b') = accepted b.
Proof.
  intros Hr Hq Hg. destruct (reach_ok size wait b Hr) as (Hb & _). destruct (at_ b) eqn:Ha; [| |done].
  - pose proof (run_quit b Ha Hq) as Hs. destruct (run_ok b _ Hb Hs) as (Hb' & E & _). destruct (drains (in_ b) (goto Draining b) Hb' eq_refl eq_refl) as (b' & Hn & H1 & H2).
    exists (S (S (length (in_ b)))), b'. split; [lia|]. split; [by eapply nsteps_l|]. by rewrite H2, E.
  - destruct (drains (in_ b) b Hb Ha eq_refl) as (b' & Hn & H1 & H2). exists (S (length (in_ b))), b'. split; [lia|done].
Qed.
End batcher.

Arguments Batcher : clear implicits.

(** * Throttle and debounce *)

(** The time of the last call let through; a call at [now] is let through when [d] has passed since. *)
Definition Throttle (d now : Z) (last : option Z) : option Z * bool :=
  let ok := match last with None => true | Some l => d <=? time_sub now l end in (if ok then Some now else last, ok).
Fixpoint throttled (d : Z) (calls : list Z) (last : option Z) : list Z :=
  match calls with
  | [] => []
  | now :: calls => let '(last, ok) := Throttle d now last in if ok : bool then now :: throttled d calls last else throttled d calls last
  end.

(** The deadline of the timer that is armed. *)
Inductive dop := DCall | DCancel | DFire.
Definition Debounce (d : Z) (o : dop) (now : Z) (t : option Z) : option Z * bool :=
  match o with
  | DCall => (Some (now + d), false)
  | DCancel => (None, false)
  | DFire => match t with Some dl => if dl <=? now then (None, true) else (t, false) | None => (t, false) end
  end.
Fixpoint debounced (d : Z) (ops : list (dop * Z)) (t : option Z) : list Z :=
  match ops with
  | [] => []
  | (o, now) :: ops => let '(t, run) := Debounce d o now t in if run : bool then now :: debounced d ops t else debounced d ops t
  end.

Definition spaced (d : Z) : list Z -> Prop := StronglySorted (fun a b => d <= b - a).

Lemma throttled_spec d calls : 0 <= d -> Forall (fun t => 0 <= t < 2 ^ 62) calls -> StronglySorted Z.le calls -> forall last, (forall l, last = Some l -> 0 <= l /\ Forall (Z.le l) calls) ->
  spaced d (throttled d calls last) /\ (forall l, last = Some l -> Forall (fun f => d <= f - l) (throttled d calls last)) /\
  forall t, t ∈ calls -> exists f, (last = Some f \/ f ∈ throttled d calls last) /\ f <= t < f + Z.max 1 d.
Proof.
  intros Hd. induction calls as [|now calls IH]; intros Hr Hs last Hl; [split; [constructor|]; split; [by constructor|]; intros t Ht; by apply not_elem_of_nil in Ht|].
  apply Forall_cons in Hr as [Hn Hr]. apply StronglySorted_inv in Hs as [Hs Hle]. cbn [throttled]. unfold Throttle.
  assert (forall l, last = Some l -> time_sub now l = now - l) as Ht. { intros l E. destruct (Hl l E) as [H0 Hf]. apply Forall_cons in Hf as [Hf _]. apply time_sub_id. unfold int64. lia. }
  set (ok := match last with None => true | Some l => d <=? time_sub now l end). assert (ok = true \/ exists l, last = Some l /\ ok = false /\ now - l < d) as Hok.
  { unfold ok. destruct last as [l|]; [|by left]. rewrite (Ht l eq_refl). destruct (Z.leb_spec d (now - l)); [by left|right; by exists l]. }
  destruct Hok as [Eo|(l & El & Eo & Hlt)]; rewrite Eo.
  - destruct (IH Hr Hs (Some now)) as (H1 & H2 & H3). { intros l [= <-]. split; [lia|done]. } specialize (H2 now eq_refl). split; [|split].
    + constructor; [done|]. eapply Forall_impl; [exact H2|]. cbn. lia.
    + intros l El. assert (d <= now - l) as Hdl. { unfold ok in Eo. rewrite El, (Ht l El) in Eo. by apply Z.leb_le. } constructor; [done|]. eapply Forall_impl; [exact H2|]. cbn. lia.
    + intros t [->|Hin]%elem_of_cons; [exists now; split; [right; left|lia]|]. destruct (H3 t Hin) as (f & [[= <-]|Hf] & Hft); [exists now; split; [right; left|done]|exists f; split; [right; by right|done]].
  - subst last. destruct (Hl l eq_refl) as [H0 Hf]. apply Forall_cons in Hf as [Hf1 Hf2]. destruct (IH Hr Hs (Some l)) as (H1 & H2 & H3). { intros l' [= <-]. done. }
    split; [done|]. split; [done|]. intros t [->|Hin]%elem_of_cons; [exists l; split; [by left|lia]|]. by apply H3.
Qed.

(** Calls let through by a throttle are [d] apart, and every call falls in the [d] that begin with one that was. *)
Theorem throttle_spaces d calls : 0 < d -> Forall (fun t => 0 <= t < 2 ^ 62) calls -> StronglySorted Z.le calls ->
  spaced d (throttled d calls None) /\ forall t, t ∈ calls -> exists f, f ∈ throttled d calls None /\ f <= t < f + d.
Proof.
  intros Hd Hr Hs. destruct (throttled_spec d calls ltac:(lia) Hr Hs None) as (H1 & _ & H2); [done|]. split; [done|].
  intros t Ht. destruct (H2 t Ht) as (f & [?|Hf] & Hft); [done|]. exists f. split; [done|]. lia.
Qed.

Definition timer_after (d : Z) (ops : list (dop * Z)) : option Z := foldl (fun t o => (Debounce d o.1 o.2 t).1) None ops.
Lemma timer_after_Some d ops dl : timer_after d ops = Some dl <->
  exists pre c mid, ops = pre ++ (DCall, c) :: mid /\ dl = c + d /\ Forall (fun o => o.1 = DFire /\ o.2 < c + d) mid.
Proof.
  revert dl. induction ops as [|[o now] ops IH] using rev_ind; intros dl; [split; [done|intros ([|] & ? & ? & ? & _); done]|].
  unfold timer_after in *. rewrite foldl_app. cbn [foldl fst snd]. set (t := foldl _ None ops) in *.
  assert (forall pre c mid p, ops ++ [p] = pre ++ (DCall, c) :: mid -> (mid = [] /\ p = (DCall, c) /\ ops = pre) \/ exists mid', mid = mid' ++ [p] /\ ops = pre ++ (DCall, c) :: mid') as Hsplit.
  { intros pre c mid p E. destruct mid as [|q mid] using rev_ind; [left; apply app_inj_tail in E as [-> ->]; done|]. right. exists mid. rewrite app_comm_cons, app_assoc in E. apply app_inj_tail in E as [-> ->]. done. }
  destruct o; cbn [Debounce fst].
  - split; [intros [= <-]; exists ops, now, []; done|]. intros (pre & c & mid & E & -> & Hm). destruct (Hsplit pre c mid _ E) as [(-> & [= ->] & _)|(mid' & -> & _)]; [done|]. apply Forall_app in Hm as [_ Hm]. apply Forall_singleton in Hm as [Hm _]. done.
  - split; [done|]. intros (pre & c & mid & E & -> & Hm). destruct (Hsplit pre c mid _ E) as [(-> & [=] & _)|(mid' & -> & _)]. apply Forall_app in Hm as [_ Hm]. apply Forall_singleton in Hm as [Hm _]. done.
  - assert ((match t with Some d0 => if d0 <=? now then (None, true) else (t, false) | None => (t, false) end).1 = Some dl <-> t = Some dl /\ now < dl) as ->.
    { destruct t as [dl'|]; [destruct (Z.leb_spec dl' now)|]; cbn; split; try done; intros [[= ->] ?] || intros [= ->] || intros [? ?]; try lia; done. }
    rewrite IH. split.
    + intros ((pre & c & mid & -> & -> & Hm) & Hlt). exists pre, c, (mid ++ [(DFire, now)]). rewrite <- app_assoc. split; [done|]. split; [done|]. apply Forall_app. split; [done|]. by constructor.
    + intros (pre & c & mid & E & -> & Hm). destruct (Hsplit pre c mid _ E) as [(-> & [=] & _)|(mid' & -> & ->)]. apply Forall_app in Hm as [Hm Hl]. apply Forall_singleton in Hl as [_ Hl]. split; [|done]. by exists pre, c, mid'.
Qed.

(** A debounced function runs exactly when its timer comes due [d] after a call with no call, cancel or run since. *)
Theorem debounce_quiet d ops now : (Debounce d DFire now (timer_after d ops)).2 = true <->
  exists pre c mid, ops = pre ++ (DCall, c) :: mid /\ c + d <= now /\ Forall (fun o => o.1 = DFire /\ o.2 < c + d) mid.
Proof.
  cbn [Debounce]. split.
  - destruct (timer_after d ops) as [dl|] eqn:E; [|done]. destruct (Z.leb_spec dl now) as [Hle|]; [|done]. intros _. apply timer_after_Some in E as (pre & c & mid & -> & -> & Hm). by exists pre, c, mid.
  - intros (pre & c & mid & -> & Hle & Hm). rewrite (proj2 (timer_after_Some d (pre ++ (DCall, c) :: mid) (c + d))) by (by exists pre, c, mid). by rewrite (proj2 (Z.leb_le (c + d) now)).
Qed.

(** * Witnesses *)

Section witnesses.
(** Two elements in batches of two, and one more that is still in the channel when [Close] is called. *)
Definition demo : Batcher Z := Close (Add 3 (collect 2 (take_in [] (collect 1 (take_in [2] (Add 2 (Add 1 (NewBatcher 2 5)))))))).
Lemma demo_reached : rtc step (NewBatcher 2 5) demo.
Proof.
  eapply rtc_l; [apply (step_add 1); by vm_compute|]. eapply rtc_l; [apply (step_add 2); by vm_compute|]. eapply rtc_l; [apply step_run, (run_collect 1 [2]); done|].
  eapply rtc_l; [apply step_run, (run_collect 2 []); done|]. eapply rtc_l; [apply (step_add 3); by vm_compute|]. eapply rtc_l; [apply step_close|]. apply rtc_refl.
Qed.
Lemma batcher_conserves_witness : concat (flushed demo) ++ buf demo ++ in_ demo = [1; 2; 3] /\ flushed demo = [[1; 2]].
Proof. destruct (batcher_conserves 2 5 demo demo_reached) as (E & _). split; [exact E|reflexivity]. Defined.
Lemma close_flushes_witness : exists n b, (n <= 3)%nat /\ nsteps run n demo b /\ at_ b = Gone /\ concat (flushed b) = [1; 2; 3].
Proof. apply (close_flushes 2 5 demo demo_reached); [reflexivity|]. done. Defined.
Lemma throttle_spaces_witness : throttled 10 [0; 3; 10; 25] None = [0; 10; 25] /\ spaced 10 [0; 10; 25].
Proof.
  split; [reflexivity|]. refine (proj1 (throttle_spaces 10 [0; 3; 10; 25] _ _ _)); [lia|repeat constructor; lia|repeat constructor; lia].
Defined.
End witnesses.
