(* ===== verification/Selector.v ===== *)
(** Label selectors ([pkg/utils/selector/label_selector.go]): exact labels and requirements, all of which must hold. *)
From Stdlib Require Import ZArith Lia Bool.
From stdpp Require Import base strings list gmap fin_maps.
From S2P Require Import Prelude.

Open Scope string_scope.

(** [FilterOperator] is a string; the constants are named, any other is unknown. *)
Definition FilterOpEquals := "=".
Definition FilterOpNotEquals := "!=".
Definition FilterOpIn := "in".
Definition FilterOpNotIn := "notin".
Definition FilterOpExists := "exists".
Definition FilterOpNotExist := "notexist".

Record LabelSelectorRequirement := MkReq { Key : string; Operator : string; Values : list string }.
Record LabelSelector := MkSelector { MatchLabels : gmap string string; MatchExpressions : list LabelSelectorRequirement }.
(** The filter: [None] is a nil selector. *)
Record LabelFilter := MkFilter { selector : option LabelSelector }.

Definition NewLabelFilter : LabelFilter := MkFilter (Some (MkSelector ∅ [])).

(** A nil selector panics in the builders. *)
Definition nil_panic : string := "runtime error: invalid memory address or nil pointer dereference".
Definition with_selector (f : LabelFilter) (g : LabelSelector -> LabelSelector) : go LabelFilter :=
  match selector f with Some s => Ret (MkFilter (Some (g s))) | None => Panic nil_panic end.
Definition WithMatchLabels (labels : gmap string string) (f : LabelFilter) : go LabelFilter :=
  with_selector f (fun s => MkSelector (labels ∪ MatchLabels s) (MatchExpressions s)).
Definition WithMatchLabel (key value : string) (f : LabelFilter) : go LabelFilter :=
  with_selector f (fun s => MkSelector (<[key := value]> (MatchLabels s)) (MatchExpressions s)).
Definition WithExpression (key operator : string) (values : list string) (f : LabelFilter) : go LabelFilter :=
  with_selector f (fun s => MkSelector (MatchLabels s) (MatchExpressions s ++ [MkReq key operator values])).
Definition with_in (key : string) (values : list string) (f : LabelFilter) : go LabelFilter :=
  match values with [] => Ret f | _ => WithExpression key FilterOpIn values f end.
Definition WithRegionIn := with_in "region".
Definition WithZoneIn := with_in "zone".
Definition WithCampusIn := with_in "campus".
Definition WithEnvironmentIn := with_in "environment".

Fixpoint contains (slice : list string) (item : string) : bool :=
  match slice with [] => false | s :: slice => if bool_decide (s = item) then true else contains slice item end.

Definition matchesRequirement (metadata : gmap string string) (req : LabelSelectorRequirement) : bool :=
  let value := metadata !! Key req in
  let exists_ := bool_decide (is_Some value) in
  let v := default "" value in
  if bool_decide (Operator req = FilterOpEquals) then
    match Values req with [w] => exists_ && bool_decide (v = w) | _ => false end
  else if bool_decide (Operator req = FilterOpNotEquals) then
    match Values req with [w] => negb exists_ || negb (bool_decide (v = w)) | _ => false end
  else if bool_decide (Operator req = FilterOpIn) then if negb exists_ then false else contains (Values req) v
  else if bool_decide (Operator req = FilterOpNotIn) then if negb exists_ then true else negb (contains (Values req) v)
  else if bool_decide (Operator req = FilterOpExists) then exists_
  else if bool_decide (Operator req = FilterOpNotExist) then negb exists_
  else false.

(** The order in which the range visits the labels is an argument. *)
Fixpoint labels_loop (metadata : gmap string string) (labels : list (string * string)) : bool :=
  match labels with
  | [] => true
  | (key, value) :: labels => if bool_decide (default "" (metadata !! key) <> value) then false else labels_loop metadata labels
  end.
Fixpoint requirements_loop (metadata : gmap string string) (reqs : list LabelSelectorRequirement) : bool :=
  match reqs with
  | [] => true
  | r :: reqs => if negb (matchesRequirement metadata r) then false else requirements_loop metadata reqs
  end.
Definition range : Type := gmap string string -> list (string * string).
Definition matches (order : range) (s : LabelSelector) (metadata : gmap string string) : bool :=
  labels_loop metadata (order (MatchLabels s)) && requirements_loop metadata (MatchExpressions s).

Definition no_filter (f : LabelFilter) : option LabelSelector :=
  match selector f with
  | None => None
  | Some s => if bool_decide (MatchLabels s = ∅) && bool_decide (length (MatchExpressions s) = 0%nat) then None else Some s
  end.
Definition Matches (order : range) (f : LabelFilter) (labels : gmap string string) : bool :=
  match no_filter f with None => true | Some s => matches order s labels end.

(** [items] is [Some] when its type is [[]any]. *)
Definition FilterMap {A} (order : range) (items : option (list A)) (getLabelsFn : A -> gmap string string) (f : LabelFilter) : list A :=
  match no_filter f, items with
  | None, Some slice => slice
  | None, None => []
  | Some s, Some v => List.filter (fun item => matches order s (getLabelsFn item)) v
  | Some s, None => []
  end.

Definition label_part (kv : string * string) : string := kv.1 +:+ "=" +:+ kv.2.
Definition requirement_part (r : LabelSelectorRequirement) : option string :=
  if bool_decide (Operator r = FilterOpEquals) then match Values r with [v] => Some (Key r +:+ "=" +:+ v) | _ => None end
  else if bool_decide (Operator r = FilterOpNotEquals) then match Values r with [v] => Some (Key r +:+ "!=" +:+ v) | _ => None end
  else if bool_decide (Operator r = FilterOpIn) then Some (Key r +:+ " in (" +:+ String.concat "," (Values r) +:+ ")")
  else if bool_decide (Operator r = FilterOpNotIn) then Some (Key r +:+ " notin (" +:+ String.concat "," (Values r) +:+ ")")
  else if bool_decide (Operator r = FilterOpExists) then Some (Key r)
  else if bool_decide (Operator r = FilterOpNotExist) then Some ("!" +:+ Key r)
  else None.
Definition String_ (order : range) (f : LabelFilter) : string :=
  match selector f with
  | None => "{}"
  | Some s => String.concat "," (map label_part (order (MatchLabels s)) ++ omap requirement_part (MatchExpressions s))
  end.

(** * What a selector means *)

Definition meets (metadata : gmap string string) (r : LabelSelectorRequirement) : Prop :=
  let at_ := metadata !! Key r in
  Operator r = FilterOpEquals /\ (exists v, Values r = [v] /\ at_ = Some v) \/
  Operator r = FilterOpNotEquals /\ (exists v, Values r = [v] /\ at_ <> Some v) \/
  Operator r = FilterOpIn /\ (exists v, at_ = Some v /\ v ∈ Values r) \/
  Operator r = FilterOpNotIn /\ (forall v, at_ = Some v -> v ∉ Values r) \/
  Operator r = FilterOpExists /\ is_Some at_ \/
  Operator r = FilterOpNotExist /\ at_ = None.

Definition selects (s : LabelSelector) (metadata : gmap string string) : Prop :=
  (forall k v, MatchLabels s !! k = Some v -> default "" (metadata !! k) = v) /\ Forall (meets metadata) (MatchExpressions s).

Lemma contains_elem l x : contains l x = true <-> x ∈ l.
Proof.
  induction l as [|y l IH]; cbn; [split; [done|intros H; by apply not_elem_of_nil in H]|]. rewrite elem_of_cons. destruct (bool_decide_reflect (y = x)); [|rewrite IH]; intuition.
Qed.
Lemma matchesRequirement_meets m r : matchesRequirement m r = true <-> meets m r.
Proof.
  unfold matchesRequirement, meets. destruct r as [k op vs]. cbn [Key Operator Values].
  destruct (decide (op = FilterOpEquals)) as [->|N1]; [rewrite bool_decide_true by done|rewrite bool_decide_false by done].
  { destruct vs as [|v [|]]; (split; [try done|intros [[_ (w & [= ] & E)]|[[? _]|[[? _]|[[? _]|[[? _]|[? _]]]]]]; try done]).
    - intros [[w E]%bool_decide_eq_true Ev%bool_decide_eq_true]%andb_true_iff. rewrite E in Ev. cbn in Ev. subst w. left. split; [done|]. by exists v.
    - subst w. rewrite E. cbn. by rewrite bool_decide_true. }
  destruct (decide (op = FilterOpNotEquals)) as [->|N2]; [rewrite (bool_decide_true (_ = FilterOpNotEquals)) by done|rewrite (bool_decide_false (op = FilterOpNotEquals)) by done].
  { destruct vs as [|v [|]]; (split; [try done|intros [[? _]|[[_ (w & [= ] & E)]|[[? _]|[[? _]|[[? _]|[? _]]]]]]; try done]).
    - intros Hx. right; left. split; [done|]. exists v. split; [done|]. intros E. rewrite E in Hx. cbn in Hx. by rewrite bool_decide_true in Hx.
    - subst w. destruct (m !! k) as [u|]; cbn; [|done]. rewrite bool_decide_false by congruence. done. }
  destruct (decide (op = FilterOpIn)) as [->|N3]; [rewrite (bool_decide_true (_ = FilterOpIn)) by done|rewrite (bool_decide_false (op = FilterOpIn)) by done].
  { destruct (m !! k) as [u|]; cbn; [rewrite contains_elem|]; (split; [try done|intros [[? _]|[[? _]|[[_ (w & [= ] & E)]|[[? _]|[[? _]|[? _]]]]]]; try done]).
    - intros Hu. right; right; left. split; [done|]. by exists u.
    - by subst. }
  destruct (decide (op = FilterOpNotIn)) as [->|N4]; [rewrite (bool_decide_true (_ = FilterOpNotIn)) by done|rewrite (bool_decide_false (op = FilterOpNotIn)) by done].
  { destruct (m !! k) as [u|]; cbn; [rewrite negb_true_iff, <- not_true_iff_false, contains_elem|]; (split; [|intros [[? _]|[[? _]|[[? _]|[[_ E]|[[? _]|[? _]]]]]]; try done; by apply E]).
    - intros Hu. do 3 right; left. split; [done|]. by intros v [= ->].
    - intros _. do 3 right; left. by split. }
  destruct (decide (op = FilterOpExists)) as [->|N5]; [rewrite (bool_decide_true (_ = FilterOpExists)) by done|rewrite (bool_decide_false (op = FilterOpExists)) by done].
  { rewrite bool_decide_eq_true. split; [intros Hu; do 4 right; left; done|intros [[? _]|[[? _]|[[? _]|[[? _]|[[_ E]|[? _]]]]]]; done]. }
  destruct (decide (op = FilterOpNotExist)) as [->|N6]; [rewrite (bool_decide_true (_ = FilterOpNotExist)) by done|rewrite (bool_decide_false (op = FilterOpNotExist)) by done].
  { rewrite negb_true_iff, bool_decide_eq_false, <- eq_None_not_Some. split; [intros Hu; do 5 right; done|intros [[? _]|[[? _]|[[? _]|[[? _]|[[? _]|[_ E]]]]]]; done]. }
  split; [done|]. intros [[? _]|[[? _]|[[? _]|[[? _]|[[? _]|[? _]]]]]]; done.
Qed.

(** A range visits every label once, in any order. *)
Definition valid_range (order : range) : Prop := forall m, order m ≡ₚ map_to_list m.

Lemma matches_selects order s m : valid_range order -> matches order s m = true <-> selects s m.
Proof.
  intros Ho. unfold matches, selects. rewrite andb_true_iff. assert (forall l, labels_loop m l = true <-> Forall (fun kv => default "" (m !! kv.1) = kv.2) l) as ->.
  { intros l. induction l as [|[k v] l IH]; cbn [labels_loop]; [split; [constructor|done]|]. rewrite Forall_cons. cbn [fst snd]. destruct (decide (default "" (m !! k) = v)) as [E|E].
    - rewrite bool_decide_false by (by intros []). rewrite IH. intuition.
    - rewrite bool_decide_true by done. split; [done|]. by intros []. }
  assert (forall l, requirements_loop m l = true <-> Forall (meets m) l) as ->.
  { intros l. induction l as [|r l IH]; cbn [requirements_loop]; [split; [constructor|done]|]. rewrite Forall_cons, <- matchesRequirement_meets. destruct (matchesRequirement m r); cbn; [rewrite IH; intuition|split; [done|by intros []]]. }
  rewrite (Ho _), Forall_forall. f_equiv. split; [intros Hx k v Hk; by apply (Hx (k, v)), elem_of_map_to_list|]. intros Hx [k v] Hk%elem_of_map_to_list. by apply Hx.
Qed.

(** A selector matches exactly the labels that have all its pairs, a missing label counting as empty, and meet all its
    requirements, whatever the order in which its pairs are visited; without either it matches all. [FilterMap]
    keeps exactly what matches, in order. *)
Theorem matches_means {A} order (f : LabelFilter) (labels : gmap string string) (items : list A) get : valid_range order ->
  (Matches order f labels = true <-> match selector f with Some s => selects s labels | None => True end) /\
  FilterMap order (Some items) get f = List.filter (fun a => Matches order f (get a)) items.
Proof.
  intros Ho. unfold Matches, FilterMap, no_filter. destruct (selector f) as [s|].
  - destruct (bool_decide_reflect (MatchLabels s = ∅)) as [E1|E1]; cbn [andb].
    + destruct (bool_decide_reflect (length (MatchExpressions s) = 0%nat)) as [E2|E2]; cbn [andb]; [|by rewrite matches_selects].
      apply nil_length_inv in E2. split; [|symmetry; by apply forallb_filter_id, forallb_forall]. split; [|done]. intros _. split; [by rewrite E1|by rewrite E2].
    + by rewrite matches_selects.
  - split; [done|]. symmetry. by apply forallb_filter_id, forallb_forall.
Qed.

(** The builders add to what a selector asks for: a label map takes precedence key by key over what was set before, a
    requirement is asked for besides the others, and a set of values that is empty asks for nothing. *)
Theorem builders_narrow f s m key op values labels : selector f = Some s ->
  (exists f', WithMatchLabels labels f = Ret f' /\ forall s', selector f' = Some s' -> selects s' m <-> (forall k v, labels !! k = Some v -> default "" (m !! k) = v) /\
     (forall k v, labels !! k = None -> MatchLabels s !! k = Some v -> default "" (m !! k) = v) /\ Forall (meets m) (MatchExpressions s)) /\
  (exists f', WithExpression key op values f = Ret f' /\ forall s', selector f' = Some s' -> selects s' m <-> selects s m /\ meets m (MkReq key op values)) /\
  (exists f', WithRegionIn values f = Ret f' /\ forall s', selector f' = Some s' -> selects s' m <-> selects s m /\ (values = [] \/ exists v, m !! "region" = Some v /\ v ∈ values)).
Proof.
  intros Es. assert (forall key op values, exists f', WithExpression key op values f = Ret f' /\ forall s', selector f' = Some s' -> selects s' m <-> selects s m /\ meets m (MkReq key op values)) as Hx.
  { intros key' op' values'. unfold WithExpression, with_selector. rewrite Es. eexists. split; [done|]. intros s' [= <-]. unfold selects. cbn [MatchLabels MatchExpressions]. rewrite Forall_app, Forall_singleton. tauto. }
  split; [|split; [apply Hx|]].
  - unfold WithMatchLabels, with_selector. rewrite Es. eexists. split; [done|]. intros s' [= <-]. unfold selects. cbn [MatchLabels MatchExpressions]. split.
    + intros [H1 H2]. split; [intros k v Hk; apply H1, lookup_union_Some_l, Hk|]. split; [|done]. intros k v Hn Hk. apply H1. rewrite lookup_union_r by done. done.
    + intros (H1 & H2 & H3). split; [|done]. intros k v Hk. apply lookup_union_Some_raw in Hk as [Hk|[Hn Hk]]; eauto.
  - unfold WithRegionIn, with_in. destruct values as [|v vs]; [exists f; split; [done|]; intros s' E; rewrite Es in E; injection E as <-; split; [intros; split; [done|by left]|by intros []]|].
    destruct (Hx "region" FilterOpIn (v :: vs)) as (f' & E & Hs). exists f'. split; [done|]. intros s' E'. rewrite (Hs s' E'). unfold meets. cbn [Key Operator Values]. split; (intros [H1 H2]; split; [done|]).
    + right. destruct H2 as [[? _]|[[? _]|[[_ E2]|[[? _]|[[? _]|[? _]]]]]]; done.
    + right; right; left. split; [done|]. by destruct H2.
Qed.

(** * Boundaries *)

Lemma map_to_list_range : valid_range map_to_list.
Proof. by intros m. Qed.

Lemma matches_means_witness : Matches map_to_list (MkFilter (Some (MkSelector {[ "a" := "1" ]} [MkReq "b" FilterOpIn ["x"; "y"]]))) (<[ "a" := "1" ]> {[ "b" := "y" ]}) = true /\
  FilterMap map_to_list (Some [({[ "b" := "x" ]} : gmap string string)]) Datatypes.id (MkFilter (Some (MkSelector ∅ [MkReq "b" FilterOpNotExist []]))) = [].
Proof.
  split.
  - apply (proj1 (matches_means (A := nat) map_to_list (MkFilter (Some (MkSelector {[ "a" := "1" ]} [MkReq "b" FilterOpIn ["x"; "y"]]))) _ [] (fun _ => ∅) map_to_list_range)).
    cbn [selector]. split; [intros k v Hk; cbn [MatchLabels] in Hk; apply lookup_singleton_Some in Hk as [<- <-]; reflexivity|]. constructor; [|constructor]. right; right; left. split; [done|]. exists "y". split; [reflexivity|]. right; left.
  - reflexivity.
Defined.
Lemma builders_narrow_witness : exists f, WithRegionIn ["eu"] NewLabelFilter = Ret f /\ forall s, selector f = Some s -> selects s {[ "region" := "eu" ]}.
Proof.
  destruct (builders_narrow NewLabelFilter (MkSelector ∅ []) {[ "region" := "eu" ]} "" "" ["eu"] ∅ eq_refl) as (_ & _ & f & E & Hf). exists f. split; [done|]. intros s Es. apply Hf; [done|].
  split; [split; [intros k v Hk; cbn in Hk; by rewrite lookup_empty in Hk|constructor]|]. right. exists "eu". split; [reflexivity|left].
Defined.

(** A pair with an empty value matches labels that lack its key; the operator for equality does not. *)
Example empty_matches_missing : Matches map_to_list (MkFilter (Some (MkSelector {[ "k" := "" ]} []))) ∅ = true /\
  Matches map_to_list (MkFilter (Some (MkSelector ∅ [MkReq "k" FilterOpEquals [""]]))) ∅ = false.
Proof. split; reflexivity. Qed.
(** Without conditions a slice of another type is lost. *)
Example other_types_lost : FilterMap map_to_list (None : option (list nat)) (fun _ => ∅) NewLabelFilter = [].
Proof. reflexivity. Qed.
