(* ===== verification/Route.v ===== *)
(** Routing of messages ([pkg/transport/router/router.go]) to sessions, to other nodes, and to streams by the tracker of
    [Presence]. *)
From Stdlib Require Import ZArith Lia Bool.
From stdpp Require Import base numbers strings list gmap fin_maps.
From S2P Require Import Prelude Presence.

Open Scope Z_scope.

Record Message := MkMessage { Data : list Z; Reliable : bool }.
Record deferredItem := MkDeferred { targets : list string; msg : Message }.

(** What leaves the router: a message to the sink of a session, or to a node for identifiers of it. *)
Inductive delivery := ToSink (sid : string) (m : Message) | ToNode (node : string) (ids : list ID) (m : Message).

Section router.
(** The registry finds a sink or not; a sink answers whether it took the message, a forwarder how many it reached, and
    both may depend on all that went out before. *)
Context (found : string -> bool) (takes : list delivery -> string -> Message -> bool)
  (forwards : list delivery -> string -> list ID -> Message -> Z).

Record Router := MkRouter { tracker : option Tracker; localNode : string; forwarder : bool; deferred : list deferredItem }.
Record config := MkConfig { cNode : string; cForwarder : bool }.
Definition WithLocalNode (name : string) (c : config) : config := MkConfig name (cForwarder c).
Definition WithForwarder (c : config) : config := MkConfig (cNode c) true.
Definition New (tracker : option Tracker) (opts : list (config -> config)) : Router :=
  let cfg := foldl (fun c o => o c) (MkConfig "" false) opts in MkRouter tracker (cNode cfg) (cForwarder cfg) [].
Definition SetTracker (t : option Tracker) (r : Router) : Router := MkRouter t (localNode r) (forwarder r) (deferred r).

(** What is out so far and the count. *)
Definition out : Type := list delivery * Z.
Definition sink (sid : string) (m : Message) (o : out) : out :=
  if found sid then (o.1 ++ [ToSink sid m], if takes o.1 sid m then o.2 + 1 else o.2) else o.

Definition is_local (r : Router) (id : ID) : bool :=
  bool_decide (localNode r = "") || bool_decide (Node id = "") || bool_decide (Node id = localNode r).
Fixpoint send_loop (r : Router) (ids : list ID) (m : Message) (o : out) (remote : gmap string (list ID)) : out * gmap string (list ID) :=
  match ids with
  | [] => (o, remote)
  | id :: ids =>
      if is_local r id then send_loop r ids m (sink (SessionID id) m o) remote
      else send_loop r ids m o (<[Node id := default [] (remote !! Node id) ++ [id]]> remote)
  end.
Fixpoint forward_loop (nodes : list (string * list ID)) (m : Message) (o : out) : out :=
  match nodes with
  | [] => o
  | (node, ids) :: nodes => forward_loop nodes m (o.1 ++ [ToNode node ids m], o.2 + forwards o.1 node ids m)
  end.
(** [order] is the order of the map of nodes. *)
Definition SendToPresenceIDs (order : gmap string (list ID) -> list (string * list ID)) (ids : list ID) (m : Message) (log : list delivery) (r : Router) : out :=
  let '(o, remote) := send_loop r ids m (log, 0) ∅ in
  if forwarder r then forward_loop (order remote) m o else o.

Fixpoint sessions_loop (sids : list string) (m : Message) (o : out) : out :=
  match sids with [] => o | sid :: sids => sessions_loop sids m (sink sid m o) end.
Definition SendToSessionIDs (sids : list string) (m : Message) (log : list delivery) (r : Router) : out := sessions_loop sids m (log, 0).

Definition SendToStream (order : gmap string (list ID) -> list (string * list ID)) (walk : gmap ID Presence -> list (ID * Presence))
    (stream : Stream) (m : Message) (includeHidden : bool) (log : list delivery) (r : Router) : out :=
  match tracker r with
  | None => (log, 0)
  | Some t =>
      let members := ListByStream stream includeHidden walk t in
      match members with [] => (log, 0) | _ => SendToPresenceIDs order (pID <$> members) m log r end
  end.
Definition SendToAll (all : option (list string)) (m : Message) (log : list delivery) (r : Router) : out :=
  match all with None => (log, 0) | Some sids => SendToSessionIDs sids m log r end.

Definition QueueDeferred (targets : list string) (m : Message) (r : Router) : Router :=
  MkRouter (tracker r) (localNode r) (forwarder r) (deferred r ++ [MkDeferred targets m]).
(** The two halves of [FlushDeferred]: what is done under the lock, and the rest. *)
Definition swap_deferred (r : Router) : Router * list deferredItem := (MkRouter (tracker r) (localNode r) (forwarder r) [], deferred r).
Fixpoint group_targets (sids : list string) (m : Message) (by_ : gmap string (list Message)) : gmap string (list Message) :=
  match sids with [] => by_ | sid :: sids => group_targets sids m (<[sid := default [] (by_ !! sid) ++ [m]]> by_) end.
Fixpoint group_items (items : list deferredItem) (by_ : gmap string (list Message)) : gmap string (list Message) :=
  match items with [] => by_ | it :: items => group_items items (group_targets (targets it) (msg it) by_) end.
(** The sink is looked up once for all its messages. *)
Fixpoint sink_all (sid : string) (ms : list Message) (o : out) : out :=
  match ms with [] => o | m :: ms => sink_all sid ms (o.1 ++ [ToSink sid m], if takes o.1 sid m then o.2 + 1 else o.2) end.
Fixpoint flush_loop (l : list (string * list Message)) (o : out) : out :=
  match l with
  | [] => o
  | (sid, ms) :: l => flush_loop l (if found sid then sink_all sid ms o else o)
  end.
Definition deliver_deferred (order : gmap string (list Message) -> list (string * list Message)) (items : list deferredItem) (log : list delivery) : out :=
  flush_loop (order (group_items items ∅)) (log, 0).
Definition FlushDeferred (order : gmap string (list Message) -> list (string * list Message)) (log : list delivery) (r : Router) : Router * out :=
  let '(r, items) := swap_deferred r in (r, deliver_deferred order items log).

(** * Who gets what *)

Definition visits {V} (order : gmap string V -> list (string * V)) : Prop := forall m, order m ≡ₚ map_to_list m.
(** What a node is given: the identifiers of it, in order. *)
Definition of_node (n : string) (r : Router) (ids : list ID) : list ID := List.filter (fun id => negb (is_local r id) && bool_decide (Node id = n)) ids.
(** The messages queued for a session, in order. *)
Definition queued_for (sid : string) (items : list deferredItem) : list Message :=
  items ≫= (fun it => (fun _ => msg it) <$> List.filter (fun t => bool_decide (t = sid)) (targets it)).
Definition sent_to (sid : string) (log : list delivery) : list Message :=
  omap (fun d => match d with ToSink s m => if decide (s = sid) then Some m else None | ToNode _ _ _ => None end) log.
Fixpoint count_taken (log more : list delivery) : Z :=
  match more with
  | [] => 0
  | ToSink s m :: more => (if takes log s m then 1 else 0) + count_taken (log ++ [ToSink s m]) more
  | ToNode n ids m :: more => forwards log n ids m + count_taken (log ++ [ToNode n ids m]) more
  end.

(** What a loop adds to the log, and that its count is what was taken of it. *)
Definition adds (o : out) (more : list delivery) (o' : out) : Prop := o' = (o.1 ++ more, o.2 + count_taken o.1 more).
Lemma taken_app more : forall log more', count_taken log (more ++ more') = count_taken log more + count_taken (log ++ more) more'.
Proof. induction more as [|[sid m|n ids m] more IH]; intros log more'; [by rewrite app_nil_r|..]; cbn [app count_taken]; rewrite IH, <- app_assoc; cbn [app]; lia. Qed.
Lemma adds_nil o : adds o [] o.
Proof. unfold adds. destruct o. cbn. by rewrite app_nil_r, Z.add_0_r. Qed.
Lemma adds_app o1 o2 o3 l k : adds o1 l o2 -> adds o2 k o3 -> adds o1 (l ++ k) o3.
Proof. unfold adds. intros -> ->. cbn [fst snd]. rewrite taken_app, app_assoc. f_equal. lia. Qed.
Lemma adds_sink sid m o : adds o (if found sid then [ToSink sid m] else []) (sink sid m o).
Proof. unfold sink, adds. destruct o as [log n]. cbn [fst snd]. destruct (found sid); cbn; [|by rewrite app_nil_r, Z.add_0_r]. f_equal. destruct (takes log sid m); lia. Qed.

Definition sinks (sids : list string) (m : Message) : list delivery := (fun sid => ToSink sid m) <$> List.filter found sids.
Lemma sessions_adds sids m : forall o, adds o (sinks sids m) (sessions_loop sids m o).
Proof.
  induction sids as [|sid sids IH]; intros o; [apply adds_nil|]. cbn [sessions_loop]. unfold sinks. cbn [List.filter].
  replace (_ <$> (if found sid then sid :: List.filter found sids else List.filter found sids)) with ((if found sid then [ToSink sid m] else []) ++ sinks sids m) by (by destruct (found sid)).
  eapply adds_app; [apply adds_sink|apply IH].
Qed.
Lemma forward_adds nodes m : forall o, adds o ((fun nl => ToNode nl.1 nl.2 m) <$> nodes) (forward_loop nodes m o).
Proof.
  induction nodes as [|[n l] nodes IH]; intros o; [apply adds_nil|]. cbn [forward_loop]. change ((fun nl => ToNode nl.1 nl.2 m) <$> (n, l) :: nodes) with ([ToNode n l m] ++ ((fun nl => ToNode nl.1 nl.2 m) <$> nodes)).
  eapply adds_app; [|apply IH]. unfold adds. cbn. f_equal. lia.
Qed.
Lemma send_loop_adds r ids m : forall o remote, adds o (sinks (SessionID <$> List.filter (is_local r) ids) m) (send_loop r ids m o remote).1 /\
  forall n, default [] ((send_loop r ids m o remote).2 !! n) = default [] (remote !! n) ++ of_node n r ids /\
    (is_Some ((send_loop r ids m o remote).2 !! n) <-> is_Some (remote !! n) \/ of_node n r ids <> []).
Proof.
  induction ids as [|id ids IH]; intros o remote; [split; [apply adds_nil|]; intros n; cbn; rewrite app_nil_r; split; [done|]; split; [by left|by intros [|]]|].
  cbn [send_loop]. unfold of_node. cbn [List.filter]. destruct (is_local r id); cbn [negb andb].
  - destruct (IH (sink (SessionID id) m o) remote) as [H1 H2]. split; [|exact H2]. rewrite fmap_cons. unfold sinks. cbn [List.filter].
    replace (_ <$> (if found (SessionID id) then _ else _)) with ((if found (SessionID id) then [ToSink (SessionID id) m] else []) ++ sinks (SessionID <$> List.filter (is_local r) ids) m) by (by destruct (found (SessionID id))).
    eapply adds_app; [apply adds_sink|apply H1].
  - destruct (IH o (<[Node id := default [] (remote !! Node id) ++ [id]]> remote)) as [H1 H2]. split; [exact H1|]. intros n. destruct (H2 n) as [H3 H4]. rewrite H3, H4. destruct (decide (Node id = n)) as [->|Hn].
    + rewrite bool_decide_true, lookup_insert_eq by done. cbn. rewrite <- app_assoc. split; [done|]. split; [by right|]. intros _. left. by eexists.
    + rewrite bool_decide_false, lookup_insert_ne by done. done.
Qed.

(** ** The messages put off *)

Lemma group_targets_spec sids m : forall by_ sid, default [] (group_targets sids m by_ !! sid) = default [] (by_ !! sid) ++ ((fun _ => m) <$> List.filter (fun t => bool_decide (t = sid)) sids).
Proof.
  induction sids as [|s sids IH]; intros by_ sid; cbn [group_targets List.filter]; [by rewrite app_nil_r|]. rewrite IH. destruct (decide (s = sid)) as [->|Hn].
  - rewrite lookup_insert_eq, bool_decide_true by done. cbn. by rewrite <- app_assoc.
  - by rewrite lookup_insert_ne, bool_decide_false by done.
Qed.
Lemma group_items_spec items : forall by_ sid, default [] (group_items items by_ !! sid) = default [] (by_ !! sid) ++ queued_for sid items.
Proof.
  induction items as [|it items IH]; intros by_ sid; [by rewrite app_nil_r|]. cbn [group_items]. rewrite IH, group_targets_spec, <- app_assoc. done.
Qed.
Lemma sink_all_adds sid ms : forall o, adds o (ToSink sid <$> ms) (sink_all sid ms o).
Proof.
  induction ms as [|m ms IH]; intros o; [apply adds_nil|]. cbn [sink_all]. rewrite fmap_cons. change (ToSink sid m :: ?l) with ([ToSink sid m] ++ l). eapply adds_app; [|apply IH].
  unfold adds. cbn. f_equal. destruct (takes o.1 sid m); lia.
Qed.
Definition flushes (l : list (string * list Message)) : list delivery := l ≫= (fun kv => if found kv.1 then ToSink kv.1 <$> kv.2 else []).
Lemma flush_adds l : forall o, adds o (flushes l) (flush_loop l o).
Proof.
  induction l as [|[sid ms] l IH]; intros o; [apply adds_nil|]. cbn [flush_loop]. change (flushes ((sid, ms) :: l)) with ((if found sid then ToSink sid <$> ms else []) ++ flushes l).
  eapply adds_app; [|apply IH]. destruct (found sid); [apply sink_all_adds|apply adds_nil].
Qed.
Lemma sent_to_app sid l k : sent_to sid (l ++ k) = sent_to sid l ++ sent_to sid k.
Proof. apply omap_app. Qed.
Lemma sent_to_sinks sid s ms : sent_to sid (ToSink s <$> ms) = if decide (s = sid) then ms else [].
Proof. induction ms as [|m ms IH]; [by destruct (decide _)|]. rewrite fmap_cons. unfold sent_to in *. cbn [omap list_omap]. rewrite IH. by destruct (decide (s = sid)). Qed.
Lemma sent_to_flushes sid l : NoDup l.*1 -> sent_to sid (flushes l) = if found sid then default [] ((list_to_map l : gmap string (list Message)) !! sid) else [].
Proof.
  induction l as [|[s ms] l IH]; intros Hd; [cbn; rewrite lookup_empty; by destruct (found sid)|]. rewrite fmap_cons in Hd. apply NoDup_cons in Hd as [Hni Hd]. specialize (IH Hd).
  change (flushes ((s, ms) :: l)) with ((if found s then ToSink s <$> ms else []) ++ flushes l). rewrite sent_to_app, IH. cbn [list_to_map foldr]. destruct (decide (s = sid)) as [->|Hn].
  - rewrite lookup_insert_eq. cbn in Hni. rewrite (not_elem_of_list_to_map_1 (M := gmap string)) by done. destruct (found sid); [|done]. cbn. rewrite app_nil_r, sent_to_sinks. by rewrite decide_True.
  - rewrite lookup_insert_ne by done. destruct (found s); [|done]. by rewrite sent_to_sinks, decide_False.
Qed.
Lemma flushes_sinks l : Forall (fun d => match d with ToSink _ _ => True | ToNode _ _ _ => False end) (flushes l).
Proof. apply Forall_bind, Forall_forall. intros [s ms] _. cbn. destruct (found s); [|constructor]. by apply Forall_fmap, Forall_forall. Qed.

Lemma send_ids_spec order ids m log r : visits order -> exists nodes,
  let more := sinks (SessionID <$> List.filter (is_local r) ids) m ++ (if forwarder r then (fun n => ToNode n (of_node n r ids) m) <$> nodes else []) in
  SendToPresenceIDs order ids m log r = (log ++ more, count_taken log more) /\ NoDup nodes /\ forall n, n ∈ nodes <-> of_node n r ids <> [].
Proof.
  intros Ho. destruct (send_loop_adds r ids m (log, 0) ∅) as [H1 H2]. unfold SendToPresenceIDs. destruct (send_loop r ids m (log, 0) ∅) as [o remote]. cbn [fst snd] in *.
  assert (forall n l, (n, l) ∈ order remote -> l = of_node n r ids) as Hl.
  { intros n l Hin. rewrite (Ho remote) in Hin. apply elem_of_map_to_list in Hin. destruct (H2 n) as [H3 _]. rewrite Hin, lookup_empty in H3. exact H3. }
  exists (order remote).*1. split; [|split].
  - assert (adds (log, 0) (sinks (SessionID <$> List.filter (is_local r) ids) m ++ (if forwarder r then (fun n => ToNode n (of_node n r ids) m) <$> (order remote).*1 else [])) (if forwarder r then forward_loop (order remote) m o else o)) as Ha.
    { eapply adds_app; [exact H1|]. destruct (forwarder r); [|apply adds_nil]. replace ((fun n => ToNode n (of_node n r ids) m) <$> (order remote).*1) with ((fun nl => ToNode nl.1 nl.2 m) <$> order remote); [apply forward_adds|].
      rewrite <- list_fmap_compose. apply list_fmap_ext. intros i [n l] Hi. cbn. by rewrite (Hl n l) by (by eapply list_elem_of_lookup_2). }
    unfold adds in Ha. cbn [fst snd] in Ha. by rewrite Z.add_0_l in Ha.
  - rewrite (Ho remote). apply NoDup_fst_map_to_list.
  - intros n. destruct (H2 n) as [_ H4]. rewrite lookup_empty in H4. split.
    + intros ([n' l] & -> & Hin)%list_elem_of_fmap. cbn in *. rewrite (Ho remote) in Hin. apply elem_of_map_to_list in Hin. destruct (proj1 H4) as [[? ?]|?]; done.
    + intros Hn. destruct (proj2 H4 (or_intror Hn)) as [l El]. apply list_elem_of_fmap. exists (n, l). split; [done|]. rewrite (Ho remote). by apply elem_of_map_to_list.
Qed.

(** A message for presence identifiers goes once to the sink of each local one, in their order, and once to each other
    node with all its identifiers, in their order; the answer counts what took it. *)
Theorem send_reaches order ids m log r : visits order -> exists nodes,
  let more := sinks (SessionID <$> List.filter (is_local r) ids) m ++ (if forwarder r then (fun n => ToNode n (of_node n r ids) m) <$> nodes else []) in
  SendToPresenceIDs order ids m log r = (log ++ more, count_taken log more) /\ NoDup nodes /\ forall n, n ∈ nodes <-> of_node n r ids <> [].
Proof. apply send_ids_spec. Qed.

(** A flush empties the queue and gives every session that has a sink the messages queued for it, each once and in the
    order they were queued, and the others nothing; the answer counts what was taken. *)
Theorem flush_fifo order log r : visits order -> exists more,
  FlushDeferred order log r = (MkRouter (tracker r) (localNode r) (forwarder r) [], (log ++ more, count_taken log more)) /\
  Forall (fun d => match d with ToSink _ _ => True | ToNode _ _ _ => False end) more /\
  forall sid, sent_to sid more = if found sid then queued_for sid (deferred r) else [].
Proof.
  intros Ho. unfold FlushDeferred, swap_deferred, deliver_deferred. set (g := group_items (deferred r) ∅). pose proof (flush_adds (order g) (log, 0)) as Ha. unfold adds in Ha. cbn [fst snd] in Ha. rewrite Z.add_0_l in Ha.
  exists (flushes (order g)). split; [by rewrite Ha|]. split; [apply flushes_sinks|]. intros sid. rewrite sent_to_flushes by (rewrite (Ho g); apply NoDup_fst_map_to_list).
  destruct (found sid); [|done]. assert ((list_to_map (order g) : gmap string (list Message)) = g) as ->.
  { rewrite <- (list_to_map_to_list g) at 2. apply list_to_map_proper; [|apply Ho]. rewrite (Ho g). apply NoDup_fst_map_to_list. }
  unfold g. rewrite group_items_spec, lookup_empty. done.
Qed.
End router.

(** ** Streams *)

Section streams.
Context (found : string -> bool) (takes : list delivery -> string -> Message -> bool) (forwards : list delivery -> string -> list ID -> Message -> Z).

Lemma list_by_stream A t s hidden walk : tracks A t -> (forall m, walk m ≡ₚ map_to_list m) ->
  ListByStream s hidden walk t ≡ₚ List.filter (fun p => negb (Hidden (pMeta p)) || hidden) (map_to_list (of_stream s A)).*2.
Proof.
  intros Ht Hw. unfold ListByStream. rewrite (tr_stream A t Ht s). unfold nonempty. change (filter _ A) with (of_stream s A). destruct (decide _) as [E|E].
  - apply map_size_empty_inv in E. by rewrite E, map_to_list_empty.
  - apply Permutation_bfilter. by rewrite (Hw (of_stream s A)).
Qed.

(** A message to a stream goes once to the sink of each of its members, the hidden ones only when asked, whatever the
    tracker was through. *)
Theorem stream_reaches order walk A t s m hidden log r : tracks A t -> (forall m, walk m ≡ₚ map_to_list m) -> visits order -> tracker r = Some t -> exists members,
  members ≡ₚ List.filter (fun p => negb (Hidden (pMeta p)) || hidden) (map_to_list (of_stream s A)).*2 /\
  SendToStream found takes forwards order walk s m hidden log r = (log ++ sinks found (SessionID ∘ pID <$> members) m, count_taken takes forwards log (sinks found (SessionID ∘ pID <$> members) m)).
Proof.
  intros Ht Hw Ho Er. pose proof (list_by_stream A t s hidden walk Ht Hw) as Hp. exists (ListByStream s hidden walk t). split; [done|]. unfold SendToStream. rewrite Er.
  assert (Forall (fun p => Node (pID p) = "") (ListByStream s hidden walk t)) as Hn.
  { rewrite Hp. apply Forall_forall. intros p Hq. apply list_elem_of_In, List.filter_In in Hq as [Hq _]. apply list_elem_of_In, list_elem_of_fmap in Hq as ([id q] & -> & Hin).
    apply elem_of_map_to_list, map_lookup_filter_Some in Hin as [Hin _]. cbn. by destruct (tr_id A t Ht id q Hin) as [-> ?]. }
  set (ps := ListByStream s hidden walk t) in *. assert (SendToPresenceIDs found takes forwards order (pID <$> ps) m log r = (log ++ sinks found (SessionID ∘ pID <$> ps) m, count_taken takes forwards log (sinks found (SessionID ∘ pID <$> ps) m))) as E.
  - assert (forall id, id ∈ pID <$> ps -> is_local r id = true) as Hl.
    { intros id (p & -> & Hin)%list_elem_of_fmap. rewrite Forall_forall in Hn. unfold is_local. rewrite (Hn p Hin), (bool_decide_true ("" = "")%string) by done. by rewrite orb_true_r. }
    destruct (send_ids_spec found takes forwards order (pID <$> ps) m log r Ho) as (nodes & E & _ & Hnodes). rewrite E. assert (List.filter (is_local r) (pID <$> ps) = pID <$> ps) as ->.
    { apply forallb_filter_id, forallb_forall. intros id Hin. by apply Hl, list_elem_of_In. }
    assert (nodes = []) as ->.
    { destruct nodes as [|n nodes]; [done|]. exfalso. apply (Hnodes n); [left|]. unfold of_node. assert (forall l, (forall id, id ∈ l -> is_local r id = true) -> List.filter (fun id => negb (is_local r id) && bool_decide (Node id = n)) l = []) as Hf; [|by apply Hf].
      induction l as [|id l IH]; intros Hx; [done|]. cbn. rewrite (Hx id) by left. apply IH. intros id' Hid. apply Hx. by right. }
    assert ((if forwarder r then (fun n => ToNode n (of_node n r (pID <$> ps)) m) <$> [] else []) = []) as -> by (by destruct (forwarder r)). rewrite app_nil_r, <- list_fmap_compose. done.
  - destruct ps as [|p0 ps']; [cbn; by rewrite app_nil_r|exact E].
Qed.
End streams.

(** * Runs *)

Section runs.
Definition all_found : string -> bool := fun _ => true.
Definition all_take : list delivery -> string -> Message -> bool := fun _ _ _ => true.
Definition all_reached : list delivery -> string -> list ID -> Message -> Z := fun _ _ ids _ => Z.of_nat (length ids).
Definition hello : Message := MkMessage [104] false.
Definition bye : Message := MkMessage [98] false.
Definition lobby : Stream := MkStream 2 "lobby" "".
Lemma map_visits {V} : visits (V := V) map_to_list.
Proof. by intros m. Qed.

Lemma send_reaches_witness : SendToPresenceIDs all_found all_take all_reached map_to_list [MkID "a" lobby ""; MkID "b" lobby "n2"; MkID "c" lobby "n2"] hello [] (New None [WithLocalNode "n1"; WithForwarder]) =
  ([ToSink "a" hello; ToNode "n2" [MkID "b" lobby "n2"; MkID "c" lobby "n2"] hello], 3).
Proof.
  destruct (send_reaches all_found all_take all_reached map_to_list [MkID "a" lobby ""; MkID "b" lobby "n2"; MkID "c" lobby "n2"] hello [] (New None [WithLocalNode "n1"; WithForwarder]) map_visits)
    as (nodes & E & Hd & Hn). rewrite E. assert (nodes = ["n2"]) as ->; [|reflexivity].
  assert (forall n, n ∈ nodes <-> n = "n2") as Hn2.
  { intros n. rewrite Hn. unfold of_node. cbn. destruct (decide (n = "n2")) as [->|Hne]; [split; [done|intros _; by vm_compute]|]. split; [|done]. rewrite !(bool_decide_false ("n2"%string = n)) by congruence. by rewrite !andb_false_r. }
  destruct nodes as [|n [|n' nodes]]; [pose proof (proj2 (Hn2 "n2") eq_refl) as Hx; by apply not_elem_of_nil in Hx|f_equal; apply Hn2; left|]. exfalso. apply NoDup_cons in Hd as [Hd _]. apply Hd.
  assert (n = "n2") as -> by (apply Hn2; left). assert (n' = "n2") as -> by (apply Hn2; right; left). left.
Defined.

Definition queued : Router := QueueDeferred ["a"] bye (QueueDeferred ["b"; "a"] hello (New None [])).
Lemma flush_fifo_witness : exists more, (FlushDeferred all_found all_take map_to_list [] queued).2 = (more, 3) /\ sent_to "a" more = [hello; bye] /\ sent_to "b" more = [hello].
Proof.
  destruct (flush_fifo all_found all_take all_reached map_to_list [] queued map_visits) as (more & E & _ & Hs). exists more. rewrite E. split; [|split; [exact (Hs "a")|exact (Hs "b")]].
  assert ((FlushDeferred all_found all_take map_to_list [] queued).2.2 = 3) as E2 by reflexivity. rewrite E in E2. cbn [snd fst] in *. by rewrite E2.
Defined.

Lemma stream_reaches_witness : exists members, members ≡ₚ [MkPresence (MkID "a" lobby "") (MkMeta "u" "x" false)] /\
  SendToStream all_found all_take all_reached map_to_list map_to_list lobby hello false [] (New (Some (Track "a" lobby (MkMeta "u" "x" false) (Presence.New false 0)).1) []) = (sinks all_found (SessionID ∘ pID <$> members) hello, 1).
Proof.
  assert (tracks ∅ (Presence.New false 0)) as H0 by (split; [intros ? ?; by rewrite lookup_empty|apply groups_empty|apply groups_empty|done]).
  pose proof (track_tracks ∅ _ "a" lobby (MkMeta "u" "x" false) H0) as Hk. cbv zeta in Hk. rewrite lookup_empty in Hk. set (t := (Track "a" lobby (MkMeta "u" "x" false) (Presence.New false 0)).1).
  assert (tracks (<[MkID "a" lobby "" := MkPresence (MkID "a" lobby "") (MkMeta "u" "x" false)]> ∅) t) as Ht.
  { unfold t, Track. destruct (track_index _ _ _ _) as [[t1 x] e]. cbn [fst]. apply tracks_queue. by destruct Hk. }
  destruct (stream_reaches all_found all_take all_reached map_to_list map_to_list _ t lobby hello false [] (New (Some t) []) Ht) as (members & Hm & E); [done|exact map_visits|reflexivity|].
  exists members. split; [rewrite Hm; by vm_compute|]. rewrite E. cbn [app]. f_equal. assert (length members = 1%nat) as Hl by (rewrite Hm; by vm_compute). destruct members as [|p [|]]; done.
Defined.

(** Two flushes at once: the second is delivered before the first, and the session gets its messages out of order. *)
Example flush_race : let '(r1, first) := swap_deferred (QueueDeferred ["a"] hello (New None [])) in let '(r2, second) := swap_deferred (QueueDeferred ["a"] bye r1) in
  let '(log, _) := deliver_deferred all_found all_take map_to_list second [] in sent_to "a" (deliver_deferred all_found all_take map_to_list first log).1 = [bye; hello].
Proof. reflexivity. Qed.
End runs.
