(* ===== verification/Resume.v ===== *)
(** Resumption of sessions ([pkg/transport/resume/resume.go]): the streams a session is in, by the tracker of [Presence]. *)
From Stdlib Require Import ZArith Lia Bool.
From stdpp Require Import base numbers strings list gmap fin_maps.
From S2P Require Import Prelude Presence.

Open Scope Z_scope.

Record Stream := MkStream { Mode : Z; Subject : string; Label : string }.
Record PresenceInfo := MkInfo { UserID : string; TokenID : string; Streams : list Stream }.
(** What is read of the claims of a token. *)
Record Claims := MkClaims { cUserID : string; cTokenID : string }.

Section resume.
(** The token manager: what it answers for a refresh token. *)
Context {E : Type}.
Record Resolver := MkResolver { tm : option (string -> result E Claims); rtracker : option Tracker }.
Inductive rErr := ErrNotConfigured | ErrToken (e : E).

Definition toPresenceStream (s : Stream) : Presence.Stream := Presence.MkStream (Mode s) (Subject s) (Label s).
Definition stream_of (p : Presence) : Stream := let s := idStream (pID p) in MkStream (Presence.Mode s) (Presence.Subject s) (Presence.Label s).
Definition streamsOf (walk : gmap ID Presence -> list (ID * Presence)) (sessionID : string) (t : Tracker) : list Stream := stream_of <$> ListBySession sessionID walk t.
Definition resolveByClaims (walk : gmap ID Presence -> list (ID * Presence)) (c : Claims) (t : Tracker) : PresenceInfo :=
  MkInfo (cUserID c) (cTokenID c) (streamsOf walk (cTokenID c) t).
Definition Resolve (walk : gmap ID Presence -> list (ID * Presence)) (refreshToken : string) (r : Resolver) : result rErr PresenceInfo :=
  match tm r, rtracker r with
  | Some verify, Some t => match verify refreshToken with Ok c => Ok (resolveByClaims walk c t) | Err e => Err (ErrToken e) end
  | _, _ => Err ErrNotConfigured
  end.
Definition ResolveBySessionID (walk : gmap ID Presence -> list (ID * Presence)) (sessionID : string) (r : Resolver) : result rErr PresenceInfo :=
  match rtracker r with None => Err ErrNotConfigured | Some t => Ok (MkInfo "" sessionID (streamsOf walk sessionID t)) end.
Definition MarkOnline (sessionID userID username : string) (streams : list Stream) (hidden : bool) (r : Resolver) : Resolver :=
  match rtracker r with
  | None => r
  | Some t => MkResolver (tm r) (Some (foldl (fun t s => (Track sessionID (toPresenceStream s) (MkMeta userID username hidden) t).1) t streams))
  end.

Lemma toPresenceStream_inv p s : stream_of p = s <-> idStream (pID p) = toPresenceStream s.
Proof. unfold stream_of, toPresenceStream. destruct (idStream (pID p)) as [a b c], s as [a' b' c']. cbn. split; intros [= -> -> ->]; done. Qed.

Lemma tracked sid meta streams : forall A t, tracks A t -> exists A', tracks A' (foldl (fun t s => (Track sid (toPresenceStream s) meta t).1) t streams) /\
  forall id, is_Some (A' !! id) <-> is_Some (A !! id) \/ exists s, s ∈ streams /\ id = MkID sid (toPresenceStream s) "".
Proof.
  induction streams as [|s streams IH]; intros A t Ht; [exists A; split; [done|]; intros id; split; [by left|]; intros [?|(s & Hs & _)]; [done|by apply not_elem_of_nil in Hs]|].
  cbn [foldl]. unfold Track at 2. pose proof (track_tracks A t sid (toPresenceStream s) meta Ht) as Hk. cbv zeta in Hk. destruct (track_index sid (toPresenceStream s) meta t) as [[t1 x] e]. cbn [fst].
  set (id0 := MkID sid (toPresenceStream s) "") in *. assert (exists A1, tracks A1 t1 /\ forall id, is_Some (A1 !! id) <-> is_Some (A !! id) \/ id = id0) as (A1 & H1 & Hd).
  { destruct (A !! id0) as [p|] eqn:Ep; [destruct Hk as (-> & _)|destruct Hk as (Hk & _)].
    - exists A. split; [done|]. intros id. split; [by left|]. intros [?| ->]; [done|by rewrite Ep].
    - eexists. split; [exact Hk|]. intros id. rewrite lookup_insert_is_Some. destruct (decide (id = id0)) as [->|]; naive_solver. }
  destruct (IH A1 (queue_opt e t1)) as (A' & H2 & H3); [by apply tracks_queue|]. exists A'. split; [done|]. intros id. rewrite H3, Hd. split.
  - intros [[?| ->]|(s' & Hs & ->)]; [by left|right; exists s; split; [left|done]|right; exists s'; split; [by right|done]].
  - intros [?|(s' & [->|Hs]%elem_of_cons & ->)]; [auto|auto|right; by exists s'].
Qed.

Lemma session_streams walk A t sid : tracks A t -> (forall m, walk m ≡ₚ map_to_list m) -> NoDup (streamsOf walk sid t) /\
  forall s, s ∈ streamsOf walk sid t <-> is_Some (A !! MkID sid (toPresenceStream s) "").
Proof.
  intros Ht Hw. assert (ListBySession sid walk t ≡ₚ (map_to_list (of_session sid A)).*2) as Hp.
  { unfold ListBySession. rewrite (tr_session A t Ht sid). unfold nonempty. change (filter _ A) with (of_session sid A). destruct (decide _) as [Ez|Ez]; [apply map_size_empty_inv in Ez; by rewrite Ez, map_to_list_empty|by rewrite (Hw (of_session sid A))]. }
  assert (forall id p, (id, p) ∈ map_to_list (of_session sid A) <-> A !! id = Some p /\ SessionID id = sid) as Hin by (intros id p; rewrite elem_of_map_to_list; unfold of_session; by rewrite map_lookup_filter_Some).
  assert (forall id p, A !! id = Some p -> SessionID id = sid -> id = MkID sid (toPresenceStream (stream_of p)) "") as Hid.
  { intros id p Ea Es. destruct (tr_id A t Ht id p Ea) as [Ei En]. pose proof (proj1 (toPresenceStream_inv p _) eq_refl) as Hs. rewrite Ei in Hs. destruct id as [n st nd]. cbn in *. by subst. }
  unfold streamsOf. split.
  - rewrite Hp, <- list_fmap_compose. apply NoDup_fmap_2_strong; [|apply NoDup_map_to_list]. intros [i p] [j q] [H1 H2]%Hin [H3 H4]%Hin Heq. cbn in Heq.
    rewrite (Hid i p H1 H2), (Hid j q H3 H4), Heq in *. f_equal. rewrite (Hid i p H1 H2), Heq in H1. rewrite (Hid j q H3 H4) in H3. congruence.
  - intros s. rewrite Hp, list_elem_of_fmap. split.
    + intros (p & -> & ([id q] & -> & [H1 H2]%Hin)%list_elem_of_fmap). cbn. rewrite <- (Hid id q H1 H2). by eexists.
    + intros [p Ep]. exists p. destruct (tr_id A t Ht _ p Ep) as [Ei _]. split; [symmetry; apply toPresenceStream_inv; by rewrite Ei|]. apply list_elem_of_fmap. exists (MkID sid (toPresenceStream s) "", p). split; [done|]. by apply Hin.
Qed.

(** A session marked online in streams is found in exactly these and those it was in, each once, by its identifier and
    by a token that names it; a resolver without its parts answers that it is not configured. *)
Theorem resume_finds walk A t verify token c sid userID username streams hidden : tracks A t -> (forall m, walk m ≡ₚ map_to_list m) ->
  verify token = Ok c -> cTokenID c = sid ->
  let r := MkResolver (Some verify) (Some t) in
  exists before after, ResolveBySessionID walk sid r = Ok (MkInfo "" sid before) /\
    ResolveBySessionID walk sid (MarkOnline sid userID username streams hidden r) = Ok (MkInfo "" sid after) /\
    Resolve walk token (MarkOnline sid userID username streams hidden r) = Ok (MkInfo (cUserID c) sid after) /\
    NoDup after /\ (forall s, s ∈ after <-> s ∈ before \/ s ∈ streams) /\
    Resolve walk token (MkResolver None (Some t)) = Err ErrNotConfigured /\ Resolve walk token (MkResolver (Some verify) None) = Err ErrNotConfigured.
Proof.
  intros Ht Hw Hv Hc r. destruct (tracked sid (MkMeta userID username hidden) streams A t Ht) as (A' & Ht' & Hd). set (t' := foldl _ t streams) in *.
  destruct (session_streams walk A t sid Ht Hw) as [_ H1]. destruct (session_streams walk A' t' sid Ht' Hw) as [H2 H3]. exists (streamsOf walk sid t), (streamsOf walk sid t').
  split; [done|]. split; [done|]. split; [unfold Resolve; cbn [tm rtracker MarkOnline r]; rewrite Hv; unfold resolveByClaims; by rewrite Hc|]. split; [done|]. split; [|done].
  intros s. rewrite H3, H1, Hd. split; (intros [?|Hs]; [by left|right]).
  - destruct Hs as (s' & Hs & Heq). injection Heq as E1 E2 E3. destruct s as [a b d], s' as [a' b' d']. cbn in *. by subst.
  - by exists s.
Qed.
End resume.

Lemma resume_finds_witness : exists after, ResolveBySessionID map_to_list "s" (MarkOnline "s" "u" "n" [MkStream 1 "room" ""; MkStream 2 "team" ""] false
    (MkResolver (E := nat) (Some (fun _ => Ok (MkClaims "u" "s"))) (Some (Presence.New false 0)))) = Ok (MkInfo "" "s" after) /\ MkStream 1 "room" "" ∈ after.
Proof.
  assert (tracks ∅ (Presence.New false 0)) as H0 by (split; [intros ? ?; by rewrite lookup_empty|apply groups_empty|apply groups_empty|done]).
  destruct (resume_finds (E := nat) map_to_list ∅ _ (fun _ => Ok (MkClaims "u" "s")) "t" (MkClaims "u" "s") "s" "u" "n" [MkStream 1 "room" ""; MkStream 2 "team" ""] false H0) as (before & after & _ & E & _ & _ & Hs & _); [done|done|done|].
  exists after. split; [exact E|]. apply Hs. right. left.
Defined.
