(* ===== verification/Token.v ===== *)
(** Session tokens ([pkg/api/token/token.go]): issue, verification, renewal and revocation. The signed format is a
    third-party library's: an interface with the laws the manager relies on. *)
From Stdlib Require Import ZArith Lia Bool.
From stdpp Require Import base numbers strings list gmap fin_maps.
From S2P Require Import Prelude.

Open Scope Z_scope.

(** Times are nanoseconds since 1970 and not before; the dates in a token are whole seconds. *)
Definition second : Z := 10 ^ 9.
Definition unix (t : Z) : Z := t / second.

Definition key : Type := list Z.
Record Claims := MkClaims { TokenID : string; UserID : string; Username : string; Vars : gmap string string; IssuedAt : option Z; ExpiresAt : Z }.

(** What parsing reports: the library's expiry error, or another. *)
Inductive jErr := TokenExpired | OtherError.
Class Jwt (Tok : Type) := {
  SignedString : key -> Claims -> option Tok;
  ParseWithClaims : key -> Z -> Tok -> result jErr Claims
}.
(** Signing succeeds; what one key has signed that key reads back until it expires, and another refuses. *)
Class JwtLaws Tok `{Jwt Tok} := {
  sign_ok k c : is_Some (SignedString k c);
  parse_signed k c s now : SignedString k c = Some s -> ParseWithClaims k now s = if now <? ExpiresAt c * second then Ok c else Err TokenExpired;
  parse_other k k' c s now : SignedString k' c = Some s -> k <> k' -> ParseWithClaims k now s = Err OtherError
}.

Inductive tErr := ErrInvalidToken | ErrExpired | ErrRevoked | ErrKicked | ErrSign.

Record config := MkConfig { c_sessionKey : key; c_refreshKey : key; c_sessTTL : Z; c_refreshTTL : Z }.
Definition WithSessionKey (k : key) (c : config) : config := MkConfig k (c_refreshKey c) (c_sessTTL c) (c_refreshTTL c).
Definition WithRefreshKey (k : key) (c : config) : config := MkConfig (c_sessionKey c) k (c_sessTTL c) (c_refreshTTL c).
Definition WithSessionTTL (d : Z) (c : config) : config := MkConfig (c_sessionKey c) (c_refreshKey c) d (c_refreshTTL c).
Definition WithRefreshTTL (d : Z) (c : config) : config := MkConfig (c_sessionKey c) (c_refreshKey c) (c_sessTTL c) d.

Record Manager := MkManager {
  sessionKey : key; refreshKey : key; sessTTL : Z; refreshTTL : Z;
  revoked : gmap string Z; kickedAt : gmap string Z
}.

(** The random bytes of the keys are arguments. *)
Definition New (rand1 rand2 : key) (opts : list (config -> config)) : Manager :=
  let cfg := foldl (fun c o => o c) (MkConfig [] [] (3600 * second) (7 * 24 * 3600 * second)) opts in
  MkManager (match c_sessionKey cfg with [] => rand1 | k => k end) (match c_refreshKey cfg with [] => rand2 | k => k end) (c_sessTTL cfg) (c_refreshTTL cfg) ∅ ∅.

Definition alphabet : list Ascii.ascii := String.list_ascii_of_string "abcdefghijklmnopqrstuvwxyzABCDEFGHIJKLMNOPQRSTUVWXYZ0123456789".
Definition randID (bytes : list Z) : go string :=
  l ← mapG (fun b => index alphabet (b mod Z.of_nat (length alphabet))) bytes; Ret (String.string_of_list_ascii l).

Section manager.
Context {Tok : Type} `{Jwt Tok}.

Definition signSession (userID username tokenID : string) (vars : gmap string string) (now ttl : Z) (m : Manager) : option Tok :=
  SignedString (sessionKey m) (MkClaims tokenID userID username vars (Some (unix now)) (unix (now + ttl))).
Definition signRefresh (userID username tokenID : string) (vars : gmap string string) (now ttl : Z) (m : Manager) : option Tok :=
  SignedString (refreshKey m) (MkClaims tokenID userID username vars (Some (unix now)) (unix (now + ttl))).

Definition parse (k : key) (now : Z) (tokenStr : Tok) : result tErr Claims :=
  match ParseWithClaims k now tokenStr with Ok c => Ok c | Err TokenExpired => Err ErrExpired | Err OtherError => Err ErrInvalidToken end.

(** [fresh]: the random identifier for an empty one. *)
Definition Issue (fresh : string) (now : Z) (userID username : string) (vars : gmap string string) (tokenID : string) (m : Manager) : result tErr (Tok * Tok) :=
  let tokenID := if bool_decide (tokenID = "") then fresh else tokenID in
  match signSession userID username tokenID vars now (sessTTL m) m with
  | None => Err ErrSign
  | Some session => match signRefresh userID username tokenID vars now (refreshTTL m) m with None => Err ErrSign | Some refresh => Ok (session, refresh) end
  end.

Definition with_revoked (rv : gmap string Z) (m : Manager) : Manager := MkManager (sessionKey m) (refreshKey m) (sessTTL m) (refreshTTL m) rv (kickedAt m).
Definition check_kicked (c : Claims) (m : Manager) : option tErr :=
  match IssuedAt c, kickedAt m !! UserID c with
  | Some iat, Some kicked => if iat <=? kicked then Some ErrKicked else None
  | _, _ => None
  end.
Definition checkRevoked (now : Z) (c : Claims) (m : Manager) : Manager * option tErr :=
  match revoked m !! TokenID c with
  | Some e =>
      if unix now <? e then (m, Some ErrRevoked)
      else let m := with_revoked (delete (TokenID c) (revoked m)) m in (m, check_kicked c m)
  | None => (m, check_kicked c m)
  end.
Definition verify (k : key) (now : Z) (tokenStr : Tok) (m : Manager) : Manager * result tErr Claims :=
  match parse k now tokenStr with
  | Err e => (m, Err e)
  | Ok c => match checkRevoked now c m with (m, Some e) => (m, Err e) | (m, None) => (m, Ok c) end
  end.
Definition Verify (now : Z) (tokenStr : Tok) (m : Manager) := verify (sessionKey m) now tokenStr m.
Definition VerifyRefresh (now : Z) (tokenStr : Tok) (m : Manager) := verify (refreshKey m) now tokenStr m.

(** The two halves of [Refresh], which gives the lock back between them. *)
Definition reissue (now : Z) (c : Claims) (newVars : option (gmap string string)) (m : Manager) : result tErr Tok :=
  let vars := match newVars with Some v => v | None => Vars c end in
  match signSession (UserID c) (Username c) (TokenID c) vars now (sessTTL m) m with Some s => Ok s | None => Err ErrSign end.
Definition Refresh (now : Z) (refreshToken : Tok) (newVars : option (gmap string string)) (m : Manager) : Manager * result tErr Tok :=
  match VerifyRefresh now refreshToken m with
  | (m, Err e) => (m, Err e)
  | (m, Ok c) => (m, reissue now c newVars m)
  end.

Definition Revoke (now : Z) (tokenID : string) (m : Manager) : Manager := with_revoked (<[tokenID := unix (now + refreshTTL m)]> (revoked m)) m.
Definition RevokeAll (now : Z) (userID : string) (m : Manager) : Manager :=
  MkManager (sessionKey m) (refreshKey m) (sessTTL m) (refreshTTL m) (revoked m) (<[userID := unix now]> (kickedAt m)).
Definition gc (now : Z) (m : Manager) : Manager := with_revoked (filter (fun '(_, e) => ~ e <= unix now) (revoked m)) m.

(** * Histories *)

Inductive op :=
| OVerify (s : Tok) | OVerifyRefresh (s : Tok) | ORefresh (s : Tok) (vars : option (gmap string string))
| OIssue (fresh userID username : string) (vars : gmap string string) (tokenID : string)
| ORevoke (tokenID : string) | ORevokeAll (userID : string) | OGc.
Inductive answer := AClaims (r : result tErr Claims) | AToken (r : result tErr Tok) | APair (r : result tErr (Tok * Tok)) | ANone.

Definition exec (now : Z) (o : op) (m : Manager) : Manager * answer :=
  match o with
  | OVerify s => let '(m, r) := Verify now s m in (m, AClaims r)
  | OVerifyRefresh s => let '(m, r) := VerifyRefresh now s m in (m, AClaims r)
  | ORefresh s vars => let '(m, r) := Refresh now s vars m in (m, AToken r)
  | OIssue fresh u n vars t => (m, APair (Issue fresh now u n vars t m))
  | ORevoke t => (Revoke now t m, ANone)
  | ORevokeAll u => (RevokeAll now u m, ANone)
  | OGc => (gc now m, ANone)
  end.

(** ** The specification: when each was last revoked, and nothing forgotten *)

Record book := MkBook { revocations : gmap string Z; kicks : gmap string Z }.
Definition is_revoked (now ttl : Z) (c : Claims) (b : book) : bool := match revocations b !! TokenID c with Some r => unix now <? unix (r + ttl) | None => false end.
Definition is_kicked (c : Claims) (b : book) : bool := match IssuedAt c, kicks b !! UserID c with Some i, Some k => i <=? unix k | _, _ => false end.
Definition judge (k : key) (now : Z) (s : Tok) (ttl : Z) (b : book) : result tErr Claims :=
  match parse k now s with
  | Err e => Err e
  | Ok c => if is_revoked now ttl c b then Err ErrRevoked else if is_kicked c b then Err ErrKicked else Ok c
  end.

(** [m0] gives the keys and the lives of the tokens. *)
Definition spec (m0 : Manager) (now : Z) (o : op) (b : book) : book * answer :=
  match o with
  | OVerify s => (b, AClaims (judge (sessionKey m0) now s (refreshTTL m0) b))
  | OVerifyRefresh s => (b, AClaims (judge (refreshKey m0) now s (refreshTTL m0) b))
  | ORefresh s vars => (b, AToken (match judge (refreshKey m0) now s (refreshTTL m0) b with Ok c => reissue now c vars m0 | Err e => Err e end))
  | OIssue fresh u n vars t => (b, APair (Issue fresh now u n vars t m0))
  | ORevoke t => (MkBook (<[t := now]> (revocations b)) (kicks b), ANone)
  | ORevokeAll u => (MkBook (revocations b) (<[u := now]> (kicks b)), ANone)
  | OGc => (b, ANone)
  end.

Definition same_config (m0 m : Manager) : Prop := sessionKey m = sessionKey m0 /\ refreshKey m = refreshKey m0 /\ sessTTL m = sessTTL m0 /\ refreshTTL m = refreshTTL m0.
Definition kept (t ttl : Z) (r : option Z) (e : option Z) : Prop :=
  match r with Some r => e = Some (unix (r + ttl)) \/ e = None /\ unix (r + ttl) <= unix t | None => e = None end.
Record keeps (m0 : Manager) (t : Z) (m : Manager) (b : book) : Prop := {
  k_config : same_config m0 m;
  k_kicks : kickedAt m = unix <$> kicks b;
  k_revoked : forall i, kept t (refreshTTL m0) (revocations b !! i) (revoked m !! i)
}.

Lemma unix_mono a b : a <= b -> unix a <= unix b.
Proof. intros Hab. apply Z.div_le_mono; [by vm_compute|done]. Qed.
Lemma token_kept_later t t' ttl r e : t <= t' -> kept t ttl r e -> kept t' ttl r e.
Proof. intros Ht. pose proof (unix_mono t t' Ht). unfold kept. destruct r; [|done]. intros [?|[? ?]]; [by left|right; split; [done|lia]]. Qed.
Lemma keeps_later m0 t t' m b : t <= t' -> keeps m0 t m b -> keeps m0 t' m b.
Proof. intros Ht []. split; [done|done|]. intros i. by eapply token_kept_later. Qed.
Lemma kicked_same c m b : kickedAt m = unix <$> kicks b -> check_kicked c m = if is_kicked c b then Some ErrKicked else None.
Proof. intros E. unfold check_kicked, is_kicked. rewrite E, lookup_fmap. destruct (IssuedAt c), (kicks b !! UserID c); try done. Qed.

Lemma verify_judge m0 k now s m b : keeps m0 now m b -> (verify k now s m).2 = judge k now s (refreshTTL m0) b /\ keeps m0 now (verify k now s m).1 b.
Proof.
  intros Hk. pose proof Hk as [Hc Hkick Hrev]. unfold verify, judge. destruct (parse k now s) as [c|e]; [|done]. unfold checkRevoked, is_revoked. specialize (Hrev (TokenID c)) as Hr.
  pose proof (kicked_same c m b Hkick) as Ek. unfold kept in Hr. destruct (revoked m !! TokenID c) as [e|] eqn:Ee.
  - destruct (revocations b !! TokenID c) as [r|]; [|done]. destruct Hr as [[= ->]|[? _]]; [|done]. destruct (Z.ltb_spec (unix now) (unix (r + refreshTTL m0))) as [Hlt|Hge]; [done|].
    assert (keeps m0 now (with_revoked (delete (TokenID c) (revoked m)) m) b) as Hk'.
    { split; [done|done|]. intros i. cbn. destruct (decide (i = TokenID c)) as [->|Hi]; [|rewrite lookup_delete_ne by done; apply Hrev]. rewrite lookup_delete_eq. specialize (Hrev (TokenID c)). rewrite Ee in Hrev.
      destruct (revocations b !! TokenID c) as [r'|]; [|done]. destruct Hrev as [[= Er]|[? _]]; [|done]. right. split; [done|]. lia. }
    change (check_kicked c (with_revoked (delete (TokenID c) (revoked m)) m)) with (check_kicked c m). rewrite Ek. by destruct (is_kicked c b).
  - assert ((match revocations b !! TokenID c with Some r => unix now <? unix (r + refreshTTL m0) | None => false end) = false) as ->.
    { destruct (revocations b !! TokenID c) as [r|]; [|done]. destruct Hr as [?|[_ Hr]]; [done|]. by apply Z.ltb_ge. }
    rewrite Ek. by destruct (is_kicked c b).
Qed.

Lemma reissue_same m0 m now c vars : same_config m0 m -> reissue now c vars m = reissue now c vars m0.
Proof. intros (E1 & E2 & E3 & E4). unfold reissue, signSession. by rewrite E1, E3. Qed.
Lemma Issue_same m0 m fresh now u n vars t : same_config m0 m -> Issue fresh now u n vars t m = Issue fresh now u n vars t m0.
Proof. intros (E1 & E2 & E3 & E4). unfold Issue, signSession, signRefresh. by rewrite E1, E2, E3, E4. Qed.

Lemma token_exec_spec m0 now o m b : keeps m0 now m b -> (exec now o m).2 = (spec m0 now o b).2 /\ keeps m0 now (exec now o m).1 (spec m0 now o b).1.
Proof.
  intros Hk. pose proof Hk as [(E1 & E2 & E3 & E4) Hkick Hrev]. destruct o; cbn [exec spec].
  - unfold Verify. rewrite E1. destruct (verify_judge m0 (sessionKey m0) now s m b Hk) as [Hr Hk']. destruct (verify _ _ _ _). cbn in *. by subst.
  - unfold VerifyRefresh. rewrite E2. destruct (verify_judge m0 (refreshKey m0) now s m b Hk) as [Hr Hk']. destruct (verify _ _ _ _). cbn in *. by subst.
  - unfold Refresh, VerifyRefresh. rewrite E2. destruct (verify_judge m0 (refreshKey m0) now s m b Hk) as [Hr Hk']. destruct (verify _ _ _ _) as [m' [c|e]]; cbn in *; rewrite <- Hr; [|done].
    split; [|done]. f_equal. apply reissue_same. by destruct Hk'.
  - split; [|done]. cbn [snd]. f_equal. by apply Issue_same.
  - split; [done|]. split; [done|done|]. intros i. cbn. destruct (decide (i = tokenID)) as [->|Hi]; [rewrite !lookup_insert_eq; left; by rewrite E4|]. rewrite !lookup_insert_ne by done. apply Hrev.
  - split; [done|]. split; [done|cbn; by rewrite fmap_insert, Hkick|done].
  - split; [done|]. split; [done|done|]. intros i. cbn. specialize (Hrev i). rewrite map_lookup_filter. destruct (revoked m !! i) as [e|]; cbn; [|done]. destruct (revocations b !! i) as [r|]; [|done].
    destruct Hrev as [[= ->]|[? _]]; [|done]. destruct (decide (~ unix (r + refreshTTL m0) <= unix now)); [by rewrite option_guard_True by done; left|]. rewrite option_guard_False by done. right. split; [done|lia].
Qed.

Lemma New_keeps rand1 rand2 opts t : keeps (New rand1 rand2 opts) t (New rand1 rand2 opts) (MkBook ∅ ∅).
Proof. split; [done|cbn; by rewrite fmap_empty|]. intros i. cbn. by rewrite !lookup_empty. Qed.

(** Whatever the calls, and whenever the collection runs, a manager answers as the book of the last revocations does:
    a token is expired, or revoked while the life of a refresh token has not passed since, or kicked when issued no
    later than the second its user was, or else good. *)
Theorem token_refines rand1 rand2 opts ops t : 0 <= t -> timely (fun _ => True) t ops ->
  play exec ops (New rand1 rand2 opts) = play (spec (New rand1 rand2 opts)) ops (MkBook ∅ ∅).
Proof.
  intros Ht Ho. apply (play_simulates (fun _ => True) exec (spec (New rand1 rand2 opts)) (keeps (New rand1 rand2 opts))) with (t := t); [|done|done|apply New_keeps].
  intros u now o m b Hu _ _ Hk. apply token_exec_spec. eapply keeps_later; [|exact Hk]. lia.
Qed.

(** ** What the book keeps *)

Definition run_book (m0 : Manager) (ops : list (Z * op)) (b : book) : book := foldl (fun b o => (spec m0 o.1 o.2 b).1) b ops.
Definition run (ops : list (Z * op)) (m : Manager) : Manager := foldl (fun m o => (exec o.1 o.2 m).1) m ops.
Lemma run_keeps m0 ops : forall t m b, timely (fun _ => True) t ops -> keeps m0 t m b -> forall now, (forall o, o ∈ ops -> o.1 <= now) -> t <= now -> keeps m0 now (run ops m) (run_book m0 ops b).
Proof.
  induction ops as [|[u o] ops IH]; intros t m b Ho Hk now Hall Hnow; [by eapply keeps_later|]. cbn [timely] in Ho. destruct Ho as ((Hu & _) & _ & Ho). cbn [run run_book foldl fst snd].
  destruct (token_exec_spec m0 u o m b) as [_ Hk']; [by eapply keeps_later|]. eapply (IH u); [done|exact Hk'| |].
  - intros o' Hin. apply Hall. by right.
  - exact (Hall (u, o) ltac:(left)).
Qed.
(** Later revocations do not take earlier ones back. *)
Lemma book_grows m0 ops : forall t b, timely (fun _ => True) t ops ->
  (forall i r, revocations b !! i = Some r -> r <= t -> exists r', revocations (run_book m0 ops b) !! i = Some r' /\ r <= r') /\
  (forall u k, kicks b !! u = Some k -> k <= t -> exists k', kicks (run_book m0 ops b) !! u = Some k' /\ k <= k').
Proof.
  induction ops as [|[u o] ops IH]; intros t b Ho; [split; intros i r E _; exists r; split; (done || lia)|]. cbn [timely] in Ho. destruct Ho as ((Hu & _) & _ & Ho). cbn [run_book foldl fst snd].
  set (b1 := (spec m0 u o b).1). destruct (IH u b1 Ho) as [H1 H2]. fold (run_book m0 ops b1). split.
  - intros i r E Hr. assert (exists r1, revocations b1 !! i = Some r1 /\ r <= r1 <= u) as (r1 & E1 & Hr1).
    { unfold b1. destruct o; cbn [spec fst revocations]; try (exists r; split; [done|lia]). destruct (decide (tokenID = i)) as [->|Hi]; [exists u; rewrite lookup_insert_eq; split; [done|lia]|]. rewrite lookup_insert_ne by done. exists r. split; [done|lia]. }
    destruct (H1 i r1 E1) as (r' & E' & Hr'); [lia|]. exists r'. split; [done|lia].
  - intros w k E Hk. assert (exists k1, kicks b1 !! w = Some k1 /\ k <= k1 <= u) as (k1 & E1 & Hk1).
    { unfold b1. destruct o; cbn [spec fst kicks]; try (exists k; split; [done|lia]). destruct (decide (userID = w)) as [->|Hw]; [exists u; rewrite lookup_insert_eq; split; [done|lia]|]. rewrite lookup_insert_ne by done. exists k. split; [done|lia]. }
    destruct (H2 w k1 E1) as (k' & E' & Hk'); [lia|]. exists k'. split; [done|lia].
Qed.

Lemma timely_app t ops u o ops' : timely (fun _ : op => True) t (ops ++ (u, o) :: ops') -> timely (fun _ => True) t ops /\ (t <= u /\ forall p, p ∈ ops -> p.1 <= u) /\ timely (fun _ => True) u ops'.
Proof.
  revert t. induction ops as [|[v p] ops IH]; intros t Ht; cbn [app timely] in *.
  - destruct Ht as (? & _ & ?). split; [done|]. split; [split; [lia|]; intros p Hp; by apply not_elem_of_nil in Hp|done].
  - destruct Ht as (Hv & _ & Ht). destruct (IH v Ht) as (H1 & (H2 & H3) & H4). split; [done|]. split; [|done]. split; [lia|]. intros q [->|Hq]%elem_of_cons; [done|by apply H3].
Qed.

Lemma judge_out k now s ttl b c : (forall c', ParseWithClaims k now s = Ok c' -> c' = c /\ now < ExpiresAt c * second) ->
  (exists r, revocations b !! TokenID c = Some r /\ ExpiresAt c <= unix (r + ttl)) \/ (exists i k', IssuedAt c = Some i /\ kicks b !! UserID c = Some k' /\ i <= unix k') ->
  is_ok (judge k now s ttl b) = false.
Proof.
  intros Hp Hout. unfold judge, parse. destruct (ParseWithClaims k now s) as [c'|[|]]; [|done..]. destruct (Hp c' eq_refl) as [-> Hlt]. assert (unix now < ExpiresAt c) as Hu by (apply Z.div_lt_upper_bound; unfold second in *; lia).
  destruct Hout as [(r & Er & Hr)|(i & k' & Ei & Ek & Hi)].
  - unfold is_revoked. rewrite Er. by rewrite (proj2 (Z.ltb_lt _ _)) by lia.
  - unfold is_kicked. rewrite Ei, Ek. rewrite (proj2 (Z.leb_le _ _)) by done. by destruct (is_revoked now ttl c b).
Qed.

(** A token of a session: it carries the identifiers, the second of its issue, and ends within the life of a refresh token. *)
Definition token_of (m0 : Manager) (t0 : Z) (userID tokenID : string) (s : Tok) : Prop := exists k c, SignedString k c = Some s /\
  TokenID c = tokenID /\ UserID c = userID /\ IssuedAt c = Some (unix t0) /\ ExpiresAt c <= unix (t0 + refreshTTL m0).

Context `{!JwtLaws Tok}.

Lemma parse_only k k' c s now c' : SignedString k c = Some s -> ParseWithClaims k' now s = Ok c' -> c' = c /\ now < ExpiresAt c * second.
Proof.
  intros Es Ep. destruct (decide (k' = k)) as [->|Hk]; [|by rewrite (parse_other k' k c s now Es Hk) in Ep]. rewrite (parse_signed k c s now Es) in Ep.
  destruct (Z.ltb_spec now (ExpiresAt c * second)); [by injection Ep as <-|done].
Qed.

(** Whoever issues, at once or by renewal, makes a token of the session. *)
Lemma issue_tokens m0 m fresh t0 userID username vars tokenID : same_config m0 m -> sessTTL m0 <= refreshTTL m0 -> exists s1 s2,
  Issue fresh t0 userID username vars tokenID m = Ok (s1, s2) /\
  let i := if bool_decide (tokenID = "") then fresh else tokenID in token_of m0 t0 userID i s1 /\ token_of m0 t0 userID i s2.
Proof.
  intros (E1 & E2 & E3 & E4) Hl. unfold Issue, signSession, signRefresh. rewrite E1, E2, E3, E4. set (i := if bool_decide (tokenID = "") then fresh else tokenID).
  destruct (sign_ok (sessionKey m0) (MkClaims i userID username vars (Some (unix t0)) (unix (t0 + sessTTL m0)))) as [s1 H1]. rewrite H1.
  destruct (sign_ok (refreshKey m0) (MkClaims i userID username vars (Some (unix t0)) (unix (t0 + refreshTTL m0)))) as [s2 H2]. rewrite H2. exists s1, s2. split; [done|].
  split; eexists _, _; (split; [eassumption|]); repeat (split; [done|]); cbn; apply unix_mono; lia.
Qed.
Lemma renewed_token m0 m now c vars s : same_config m0 m -> sessTTL m0 <= refreshTTL m0 -> reissue now c vars m = Ok s -> token_of m0 now (UserID c) (TokenID c) s.
Proof.
  intros (E1 & E2 & E3 & E4) Hl. unfold reissue, signSession. destruct (SignedString _ _) as [s'|] eqn:Es; [|done]. intros [= <-]. eexists _, _. split; [exact Es|]. repeat (split; [done|]). cbn. rewrite E3. apply unix_mono. lia.
Qed.

(** A revocation or a kick is for good: however the manager goes on, no token issued before to that session, or to
    that user, is ever verified again, refreshed or used to renew. *)
Theorem out_stays_out rand1 rand2 opts ops1 at_ what ops2 t0 userID tokenID s now vars : let m0 := New rand1 rand2 opts in
  timely (fun _ => True) 0 (ops1 ++ (at_, what) :: ops2) -> (forall o, o ∈ ops1 ++ (at_, what) :: ops2 -> o.1 <= now) ->
  token_of m0 t0 userID tokenID s -> t0 <= at_ -> what = ORevoke tokenID \/ what = ORevokeAll userID ->
  let m := run (ops1 ++ (at_, what) :: ops2) m0 in
  is_ok (Verify now s m).2 = false /\ is_ok (VerifyRefresh now s m).2 = false /\ is_ok (Refresh now s vars m).2 = false.
Proof.
  intros m0 Ho Hall (k0 & c & Es & Et & Eu & Ei & Ee) Ht Hw m. assert (0 <= now) as Hn. { destruct (timely_app 0 _ _ _ _ Ho) as (_ & (H0 & _) & _). pose proof (Hall (at_, what)) as Hx. cbn in Hx. assert (at_ <= now); [|lia]. apply Hx. apply elem_of_app. right. left. }
  pose proof (run_keeps m0 _ 0 m0 (MkBook ∅ ∅) Ho (New_keeps rand1 rand2 opts 0) now Hall Hn) as Hk. fold m in Hk. set (b := run_book m0 _ (MkBook ∅ ∅)) in Hk.
  assert ((exists r, revocations b !! TokenID c = Some r /\ ExpiresAt c <= unix (r + refreshTTL m0)) \/ (exists i k', IssuedAt c = Some i /\ kicks b !! UserID c = Some k' /\ i <= unix k')) as Hout.
  { unfold b, run_book. rewrite foldl_app. cbn [foldl fst snd]. set (b1 := foldl _ (MkBook ∅ ∅) ops1). destruct (timely_app 0 _ _ _ _ Ho) as (_ & _ & Ho2).
    destruct (book_grows m0 ops2 at_ (spec m0 at_ what b1).1 Ho2) as [H1 H2]. fold (run_book m0 ops2 (spec m0 at_ what b1).1). rewrite Et, Eu. destruct Hw as [-> | ->]; [left|right].
    - destruct (H1 tokenID at_) as (r & Er & Hr); [cbn; by rewrite lookup_insert_eq|lia|]. exists r. split; [done|]. etrans; [exact Ee|]. apply unix_mono. lia.
    - destruct (H2 userID at_) as (k' & Ek & Hk'); [cbn; by rewrite lookup_insert_eq|lia|]. exists (unix t0), k'. split; [done|]. split; [done|]. apply unix_mono. lia. }
  assert (forall k, is_ok (verify k now s m).2 = false) as Hv.
  { intros k. destruct (verify_judge m0 k now s m b Hk) as [-> _]. apply (judge_out k now s (refreshTTL m0) b c); [|exact Hout]. intros c' Ep. by eapply parse_only. }
  split; [apply Hv|]. split; [apply Hv|]. unfold Refresh. pose proof (Hv (refreshKey m)) as Hr. unfold VerifyRefresh. destruct (verify _ _ _ _) as [m' [c'|e]]; done.
Qed.

(** With two keys a pair of tokens does what it is for and nothing else: until it expires, is revoked or its user kicked,
    the one verifies, with the claims of its issue, and the other renews it, with the same identifiers and the
    variables of the issue or new ones; neither is taken for the other. *)
Theorem pair_works rand1 rand2 opts ops t0 now fresh userID username vars tokenID : let m0 := New rand1 rand2 opts in sessionKey m0 <> refreshKey m0 ->
  timely (fun _ => True) 0 ops -> (forall o, o ∈ ops -> o.1 <= now) -> 0 <= now -> let m := run ops m0 in
  exists s1 s2, Issue fresh t0 userID username vars tokenID m = Ok (s1, s2) /\
    (Verify now s2 m).2 = Err ErrInvalidToken /\ (VerifyRefresh now s1 m).2 = Err ErrInvalidToken /\
    let i := if bool_decide (tokenID = "") then fresh else tokenID in
    (is_revoked now (refreshTTL m0) (MkClaims i userID username vars (Some (unix t0)) 0) (run_book m0 ops (MkBook ∅ ∅)) = false ->
     is_kicked (MkClaims i userID username vars (Some (unix t0)) 0) (run_book m0 ops (MkBook ∅ ∅)) = false ->
     (now < unix (t0 + sessTTL m0) * second -> (Verify now s1 m).2 = Ok (MkClaims i userID username vars (Some (unix t0)) (unix (t0 + sessTTL m0)))) /\
     (now < unix (t0 + refreshTTL m0) * second -> forall new, exists s3, (Refresh now s2 new m).2 = Ok s3 /\
        SignedString (sessionKey m0) (MkClaims i userID username (default vars new) (Some (unix now)) (unix (now + sessTTL m0))) = Some s3)).
Proof.
  intros m0 Hkeys Ho Hall Hn m. pose proof (run_keeps m0 _ 0 m0 (MkBook ∅ ∅) Ho (New_keeps rand1 rand2 opts 0) now Hall Hn) as Hk. fold m in Hk. set (b := run_book m0 ops (MkBook ∅ ∅)) in *.
  destruct (k_config _ _ _ _ Hk) as (E1 & E2 & E3 & E4). unfold Issue, signSession, signRefresh. rewrite E1, E2, E3, E4. set (i := if bool_decide (tokenID = "") then fresh else tokenID).
  set (c1 := MkClaims i userID username vars (Some (unix t0)) (unix (t0 + sessTTL m0))). set (c2 := MkClaims i userID username vars (Some (unix t0)) (unix (t0 + refreshTTL m0))).
  destruct (sign_ok (sessionKey m0) c1) as [s1 H1]. destruct (sign_ok (refreshKey m0) c2) as [s2 H2]. rewrite H1, H2. exists s1, s2. split; [done|]. unfold Verify, VerifyRefresh. rewrite E1, E2.
  destruct (verify_judge m0 (sessionKey m0) now s2 m b Hk) as [-> _]. destruct (verify_judge m0 (refreshKey m0) now s1 m b Hk) as [-> _]. destruct (verify_judge m0 (sessionKey m0) now s1 m b Hk) as [-> _].
  unfold judge at 1 2, parse. rewrite (parse_other (sessionKey m0) (refreshKey m0) c2 s2 now H2 Hkeys), (parse_other (refreshKey m0) (sessionKey m0) c1 s1 now H1 (not_eq_sym Hkeys)).
  split; [done|]. split; [done|]. intros Hr Hkk. split.
  - intros Hlt. unfold judge, parse. rewrite (parse_signed _ c1 s1 now H1). cbn [ExpiresAt c1]. rewrite (proj2 (Z.ltb_lt _ _)) by done. change (is_revoked now (refreshTTL m0) c1 b) with (is_revoked now (refreshTTL m0) (MkClaims i userID username vars (Some (unix t0)) 0) b).
    change (is_kicked c1 b) with (is_kicked (MkClaims i userID username vars (Some (unix t0)) 0) b). by rewrite Hr, Hkk.
  - intros Hlt new. unfold Refresh, VerifyRefresh. rewrite E2. destruct (verify_judge m0 (refreshKey m0) now s2 m b Hk) as [Ej Hk']. unfold judge, parse in Ej. rewrite (parse_signed _ c2 s2 now H2) in Ej. cbn [ExpiresAt c2] in Ej. rewrite (proj2 (Z.ltb_lt _ _)) in Ej by done.
    change (is_revoked now (refreshTTL m0) c2 b) with (is_revoked now (refreshTTL m0) (MkClaims i userID username vars (Some (unix t0)) 0) b) in Ej.
    change (is_kicked c2 b) with (is_kicked (MkClaims i userID username vars (Some (unix t0)) 0) b) in Ej. rewrite Hr, Hkk in Ej. destruct (verify _ _ _ _) as [m' x]. cbn [snd] in *. subst x. destruct (k_config _ _ _ _ Hk') as (F1 & _ & F3 & _). cbn [fst] in *.
    unfold reissue, signSession. rewrite F1, F3. destruct (sign_ok (sessionKey m0) (MkClaims i userID username (default vars new) (Some (unix now)) (unix (now + sessTTL m0)))) as [s3 H3].
    exists s3. split; [|done]. replace (match new with Some v => v | None => Vars c2 end) with (default vars new) by by destruct new. cbn [UserID Username TokenID c2]. by rewrite H3.
Qed.
End manager.

(** * A concrete format *)

Section examples.
Definition tok : Type := key * Claims.
Instance plain : Jwt tok := {
  SignedString k c := Some (k, c);
  ParseWithClaims k now s := if decide (s.1 = k) then if now <? ExpiresAt s.2 * second then Ok s.2 else Err TokenExpired else Err OtherError
}.
Instance plain_laws : JwtLaws tok.
Proof.
  split; cbn.
  - by eexists.
  - intros k c s now [= <-]. cbn. by rewrite decide_True.
  - intros k k' c s now [= <-] Hk. cbn. by rewrite decide_False by congruence.
Qed.

Definition h (n : Z) : Z := n * 3600 * second.
Definition m0 : Manager := New [1] [2] [].
Definition s0 : tok := ([1], MkClaims "t" "u" "n" ∅ (Some (unix (h 1))) (unix (h 2))).
Definition r0 : tok := ([2], MkClaims "t" "u" "n" ∅ (Some (unix (h 1))) (unix (h 169))).

Lemma token_refines_witness : play exec [(h 1, OVerify s0); (h 1, ORevoke "t"); (h 3, OGc); (h 4, ORefresh r0 None)] m0 =
  [AClaims (Ok s0.2); ANone; ANone; AToken (Err ErrRevoked)].
Proof. unfold m0. rewrite (token_refines [1] [2] [] _ 0); [vm_compute; reflexivity|lia|]. cbn [timely]. split_and!; try exact Logic.I; by vm_compute. Defined.

Lemma out_stays_out_witness : is_ok (Verify (h 1 + 5) s0 (run [(h 1, OGc); (h 1 + 3, ORevokeAll "u"); (h 1 + 4, OGc)] m0)).2 = false.
Proof.
  refine (proj1 (out_stays_out [1] [2] [] [(h 1, OGc)] (h 1 + 3) (ORevokeAll "u") [(h 1 + 4, OGc)] (h 1) "u" "t" s0 (h 1 + 5) None _ _ _ _ _)).
  - cbn [app timely]. split_and!; try exact Logic.I; by vm_compute.
  - intros o Ho. repeat (apply elem_of_cons in Ho as [->|Ho]; [by vm_compute|]). by apply not_elem_of_nil in Ho.
  - exists [1], s0.2. split; [reflexivity|]. split; [reflexivity|]. split; [reflexivity|]. split; [reflexivity|]. by vm_compute.
  - by vm_compute.
  - by right.
Defined.

Lemma pair_works_witness : exists s1 s2 : tok, Issue "f" (h 1) "u" "n" ∅ "" m0 = Ok (s1, s2) /\ (Verify (h 1 + 1) s1 m0).2 = Ok (MkClaims "f" "u" "n" ∅ (Some (unix (h 1))) (unix (h 2))).
Proof.
  destruct (pair_works [1] [2] [] [] (h 1) (h 1 + 1) "f" "u" "n" ∅ "") as (s1 & s2 & E & _ & _ & Hw); [done|done|intros o Ho; by apply not_elem_of_nil in Ho|by vm_compute|].
  exists s1, s2. split; [exact E|]. destruct Hw as [Hv _]; [reflexivity|reflexivity|]. apply Hv. by vm_compute.
Defined.

(** With sessions that live longer than refresh tokens a revocation is forgotten before its sessions end. *)
Example long_session_revives : let m0 := New [1] [2] [WithSessionTTL (h 10); WithRefreshTTL (h 2)] in let s := ([1], MkClaims "t" "u" "n" ∅ (Some (unix (h 1))) (unix (h 11))) : tok in
  Issue "f" (h 1) "u" "n" ∅ "t" m0 = Ok (s, ([2], MkClaims "t" "u" "n" ∅ (Some (unix (h 1))) (unix (h 3)))) /\
  is_ok (Verify (h 2) s (Revoke (h 1) "t" m0)).2 = false /\ is_ok (Verify (h 4) s (Revoke (h 1) "t" m0)).2 = true.
Proof. vm_compute. split; [reflexivity|]. split; reflexivity. Qed.

(** A renewal that has verified its token when the user is kicked issues a session that the kick does not reach. *)
Example refresh_race : match VerifyRefresh (h 5) r0 m0 with
  | (m, Ok c) => let m := RevokeAll (h 5) "u" m in
      match reissue (h 5 + second) c None m with Ok s => is_ok (Verify (h 5 + 2 * second) s m).2 = true /\ is_ok (VerifyRefresh (h 5 + 2 * second) r0 m).2 = false | Err _ => False end
  | _ => False end.
Proof. vm_compute. split; reflexivity. Qed.

(** A token issued after a kick but in the same second is kicked. *)
Example same_second : match Issue "f" (h 5 + 7) "u" "n" ∅ "t" (RevokeAll (h 5) "u" m0) with Ok (s, _) => (Verify (h 5 + 8) s (RevokeAll (h 5) "u" m0)).2 = Err ErrKicked | Err _ => False end.
Proof. vm_compute. reflexivity. Qed.

(** With one key for both a refresh token is taken for a session, for as long as it lives. *)
Example one_key : let m0 := New [1] [2] [WithSessionKey [9]; WithRefreshKey [9]] in
  match Issue "f" (h 1) "u" "n" ∅ "t" m0 with Ok (_, r) => is_ok (Verify (h 100) r m0).2 = true | Err _ => False end.
Proof. vm_compute. reflexivity. Qed.
End examples.
