(* ===== verification/Authz.v ===== *)
(** Authorization ([pkg/api/authz]): an interface that decides, the grants by role that implement it, and the guards of
    requests that are proved against the interface alone. *)
From Stdlib Require Import ZArith Lia Bool Ascii.
From stdpp Require Import base strings list gmap.
From S2P Require Import Prelude.

Open Scope string_scope.

Record Subject := MkSubject { ID : string; Roles : list string; Attrs : gmap string string }.
Definition HasRole (role : string) (s : Subject) : bool := existsb (String.eqb role) (Roles s).

(** An enforcer permits, or refuses with an error. *)
Inductive aErr := ErrDenied | ErrOther (msg : string).
Class Enforcer (E : Type) := { Authorize : E -> Subject -> string -> string -> option aErr }.

(** * Grants by role *)

Record grant := MkGrant { action : string; resource : string }.
Record RBAC := MkRBAC { grants : gmap string (list grant) }.
Definition NewRBAC : RBAC := MkRBAC ∅.
Definition Grant (role act res : string) (r : RBAC) : RBAC :=
  MkRBAC (<[role := (default [] (grants r !! role) ++ [MkGrant act res])%list]> (grants r)).

Definition matchAction (pattern a : string) : bool := String.eqb pattern "*" || String.eqb pattern a.

(** [strings.HasSuffix] and [strings.TrimSuffix]. *)
Definition HasSuffix (s suffix : string) : bool :=
  let n := String.length s in let k := String.length suffix in
  (k <=? n)%nat && String.eqb (String.substring (n - k) k s) suffix.
Definition TrimSuffix (s suffix : string) : string :=
  if HasSuffix s suffix then String.substring 0 (String.length s - String.length suffix) s else s.
Definition matchResource (pattern res : string) : bool :=
  if String.eqb pattern "*" || String.eqb pattern res then true
  else if HasSuffix pattern "/*" then String.prefix (TrimSuffix pattern "*") res
  else false.

Fixpoint grants_loop (gs : list grant) (act res : string) : bool :=
  match gs with
  | [] => false
  | g :: gs => if matchAction (action g) act && matchResource (resource g) res then true else grants_loop gs act res
  end.
Fixpoint roles_loop (r : RBAC) (roles : list string) (act res : string) : bool :=
  match roles with
  | [] => false
  | role :: roles => if grants_loop (default [] (grants r !! role)) act res then true else roles_loop r roles act res
  end.
#[export] Instance RBAC_Enforcer : Enforcer RBAC := {
  Authorize r sub act res := if roles_loop r (Roles sub) act res then None else Some ErrDenied
}.

(** ** Strings *)

Lemma str_cons c s t : String c s +:+ t = String c (s +:+ t).
Proof. done. Qed.
Lemma substring_app_l s t : String.substring 0 (String.length s) (s +:+ t) = s.
Proof. induction s as [|c s IH]; [by destruct t|]. rewrite str_cons. cbn. by rewrite IH. Qed.
Lemma substring_all s : String.substring 0 (String.length s) s = s.
Proof. induction s as [|c s IH]; [done|]. cbn. by rewrite IH. Qed.
Lemma substring_app_r s t : String.substring (String.length s) (String.length t) (s +:+ t) = t.
Proof. induction s as [|c s IH]; [apply substring_all|]. rewrite str_cons. cbn. exact IH. Qed.
Lemma substring_split s : forall n k, String.length s = (n + k)%nat -> s = String.substring 0 n s +:+ String.substring n k s.
Proof.
  induction s as [|c s IH]; intros n k Hn; [by destruct n, k|]. destruct n as [|n].
  - assert (k = String.length (String c s)) as -> by (cbn in *; lia). by rewrite substring_all.
  - cbn [String.substring]. rewrite str_cons. f_equal. apply IH. cbn in Hn. lia.
Qed.
Lemma str_length_app s t : String.length (s +:+ t) = (String.length s + String.length t)%nat.
Proof. induction s as [|c s IH]; [done|]. rewrite str_cons. cbn. by rewrite IH. Qed.
Lemma HasSuffix_app s t : HasSuffix (s +:+ t) t = true.
Proof.
  unfold HasSuffix. rewrite str_length_app. replace (String.length s + String.length t - String.length t)%nat with (String.length s) by lia. rewrite substring_app_r, String.eqb_refl.
  rewrite andb_true_r. apply Nat.leb_le. lia.
Qed.
Lemma HasSuffix_inv s t : HasSuffix s t = true -> exists u, s = u +:+ t.
Proof.
  unfold HasSuffix. intros [Hk%Nat.leb_le He%String.eqb_eq]%andb_true_iff. exists (String.substring 0 (String.length s - String.length t) s). etrans; [apply (substring_split s (String.length s - String.length t) (String.length t)); lia|]. by rewrite He.
Qed.
Lemma TrimSuffix_app s t : TrimSuffix (s +:+ t) t = s.
Proof. unfold TrimSuffix. rewrite HasSuffix_app, str_length_app. replace (String.length s + String.length t - String.length t)%nat with (String.length s) by lia. apply substring_app_l. Qed.
Lemma prefix_app s t : String.prefix s t = true <-> exists u, t = s +:+ u.
Proof.
  revert t. induction s as [|c s IH]; intros t; [split; [intros _; by exists t|by destruct t]|]. destruct t as [|d t]; [split; [done|by intros []]|]. cbn [String.prefix]. setoid_rewrite str_cons. destruct (Ascii.ascii_dec c d) as [->|Hn].
  - rewrite IH. split; intros [u E]; exists u; [by rewrite E|by injection E].
  - split; [done|]. intros [u [= -> _]]. done.
Qed.
Lemma str_app_assoc s t u : (s +:+ t) +:+ u = s +:+ (t +:+ u).
Proof. induction s as [|c s IH]; [done|]. by rewrite !str_cons, IH. Qed.

(** ** What a grant covers *)

(** The resource itself, everything below a path that ends in a star, or all. *)
Definition covers (pattern res : string) : Prop := pattern = "*" \/ pattern = res \/ exists base rest, pattern = base +:+ "/*" /\ res = base +:+ "/" +:+ rest.
Lemma matchResource_covers pattern res : matchResource pattern res = true <-> covers pattern res.
Proof.
  unfold matchResource, covers. destruct (String.eqb_spec pattern "*") as [->|H1]; [by split; [left|]|]. destruct (String.eqb_spec pattern res) as [->|H2]; [cbn; by split; [right; left|]|]. cbn [orb].
  destruct (HasSuffix pattern "/*") eqn:Es.
  - apply HasSuffix_inv in Es as [base ->]. assert (base +:+ "/*" = (base +:+ "/") +:+ "*") as E by by rewrite str_app_assoc. rewrite E, TrimSuffix_app, prefix_app. split.
    + intros [u ->]. right; right. exists base, u. by rewrite !str_app_assoc.
    + intros [?|[?|(b & r & Hb & ->)]]; [congruence|congruence|]. rewrite <- E in Hb. exists r.
      assert (base = b) as ->. { pose proof (TrimSuffix_app base "/*") as T1. rewrite Hb, TrimSuffix_app in T1. done. } by rewrite str_app_assoc.
  - split; [done|]. intros [?|[?|(b & r & -> & _)]]; [done|done|]. by rewrite HasSuffix_app in Es.
Qed.
Lemma matchAction_spec pattern a : matchAction pattern a = true <-> pattern = "*" \/ pattern = a.
Proof. unfold matchAction. by rewrite orb_true_iff, !String.eqb_eq. Qed.

(** An authorizer after a series of grants. *)
Definition granted (gs : list (string * grant)) : RBAC := foldl (fun r g => Grant g.1 (action g.2) (resource g.2) r) NewRBAC gs.
Lemma granted_in gs role g : g ∈ default [] (grants (granted gs) !! role) <-> (role, g) ∈ gs.
Proof.
  induction gs as [|[role' g'] gs IH] using rev_ind; [cbn; rewrite lookup_empty; split; intros Hin; by apply not_elem_of_nil in Hin|].
  unfold granted in *. rewrite foldl_app. cbn [foldl fst snd]. set (r := foldl _ NewRBAC gs) in *. unfold Grant. cbn [grants]. rewrite elem_of_app, list_elem_of_singleton, <- IH. destruct g' as [a' b'].
  destruct (decide (role' = role)) as [->|Hn].
  - rewrite lookup_insert_eq. cbn. rewrite elem_of_app, list_elem_of_singleton. split; (intros [?| E]; [by left|right]); congruence.
  - rewrite lookup_insert_ne by done. split; [by left|]. intros [?|[= -> _]]; done.
Qed.
Lemma grants_loop_spec gs act res : grants_loop gs act res = true <-> exists g, g ∈ gs /\ (action g = "*" \/ action g = act) /\ covers (resource g) res.
Proof.
  induction gs as [|g gs IH]; cbn; [split; [done|intros (g & Hin & _); by apply not_elem_of_nil in Hin]|]. destruct (matchAction (action g) act && matchResource (resource g) res) eqn:E.
  - split; [intros _|done]. apply andb_true_iff in E as [E1%matchAction_spec E2%matchResource_covers]. exists g. split; [left|done].
  - rewrite IH. split; intros (g' & Hin & H1 & H2); exists g'; [split; [by right|done]|]. apply elem_of_cons in Hin as [->|Hin]; [|done]. exfalso. apply matchAction_spec in H1. apply matchResource_covers in H2. by rewrite H1, H2 in E.
Qed.
Lemma roles_loop_spec r roles act res : roles_loop r roles act res = true <-> exists role, role ∈ roles /\ grants_loop (default [] (grants r !! role)) act res = true.
Proof.
  induction roles as [|role roles IH]; cbn; [split; [done|intros (? & Hin & _); by apply not_elem_of_nil in Hin]|]. destruct (grants_loop _ act res) eqn:E.
  - split; [intros _|done]. exists role. split; [left|done].
  - rewrite IH. split; intros (role' & Hin & Hg); exists role'; [split; [by right|done]|]. apply elem_of_cons in Hin as [->|Hin]; [congruence|done].
Qed.

(** A subject may do what one of its roles was granted, by name or by star, for the resource itself, all below a path or
    all; anything else is denied, whatever the order of the grants. *)
Theorem rbac_decides gs sub act res : match Authorize (granted gs) sub act res with
  | None => exists role g, role ∈ Roles sub /\ (role, g) ∈ gs /\ (action g = "*" \/ action g = act) /\ covers (resource g) res
  | Some e => e = ErrDenied /\ forall role g, role ∈ Roles sub -> (role, g) ∈ gs -> ~ ((action g = "*" \/ action g = act) /\ covers (resource g) res)
  end.
Proof.
  cbn [Authorize RBAC_Enforcer]. destruct (roles_loop (granted gs) (Roles sub) act res) eqn:E.
  - apply roles_loop_spec in E as (role & Hr & (g & Hg & H1 & H2)%grants_loop_spec). exists role, g. split; [done|]. split; [by apply granted_in|done].
  - split; [done|]. intros role g Hr Hg Hc. assert (roles_loop (granted gs) (Roles sub) act res = true); [|congruence]. apply roles_loop_spec. exists role. split; [done|].
    apply grants_loop_spec. exists g. split; [by apply granted_in|done].
Qed.

(** * Guards *)

Record Request := MkRequest { Method : string; Path : string; rSubject : option Subject }.
(** The context of a request holds the subject that authentication left. *)
Definition SubjectFromContext (r : Request) : option Subject := rSubject r.
Definition ContextWithSubject (s : Subject) (r : Request) : Request := MkRequest (Method r) (Path r) (Some s).

Definition to_lower (c : ascii) : ascii := let n := nat_of_ascii c in if ((65 <=? n) && (n <=? 90))%nat then ascii_of_nat (n + 32) else c.
Fixpoint ToLower (s : string) : string := match s with EmptyString => EmptyString | String c s => String (to_lower c) (ToLower s) end.
Definition MethodAction (method : string) : string :=
  if String.eqb method "GET" || String.eqb method "HEAD" then "read"
  else if String.eqb method "POST" then "create"
  else if String.eqb method "PUT" || String.eqb method "PATCH" then "update"
  else if String.eqb method "DELETE" then "delete"
  else ToLower method.
Definition MethodResourceMapper (r : Request) : string * string := (MethodAction (Method r), Path r).

(** [strings.TrimPrefix] and [strings.Cut] at a slash. *)
Definition trim_slash (s : string) : string := match s with String c s' => if Ascii.eqb c "/" then s' else s | EmptyString => s end.
Fixpoint cut_slash (s : string) : option (string * string) :=
  match s with
  | EmptyString => None
  | String c s => if Ascii.eqb c "/" then Some ("", s) else match cut_slash s with Some (a, b) => Some (String c a, b) | None => None end
  end.
Definition defaultMethodMapper (full : string) : string * string :=
  let full := trim_slash full in match cut_slash full with None => (full, "") | Some (svc, method) => (method, svc) end.

Section guards.
Context {E : Type} `{Enforcer E} {A : Type}.

Inductive response := Status (code : Z) (text : string) | Served (a : A).
Definition HTTP (e : E) (mapper : option (Request -> string * string)) (next : Request -> A) (r : Request) : response :=
  let mapper := default MethodResourceMapper mapper in
  match SubjectFromContext r with
  | None => Status 401%Z "unauthorized"
  | Some sub =>
      let '(act, res) := mapper r in
      match Authorize e sub act res with Some _ => Status 403%Z "forbidden" | None => Served (next r) end
  end.

Inductive code := Unauthenticated | PermissionDenied.
Definition UnaryServerInterceptor (e : E) (mapper : option (string -> string * string)) (sub : option Subject) (FullMethod : string) (handler : A) : result code A :=
  let mapper := default defaultMethodMapper mapper in
  match sub with
  | None => Err Unauthenticated
  | Some sub =>
      let '(act, res) := mapper FullMethod in
      match Authorize e sub act res with Some _ => Err PermissionDenied | None => Ok handler end
  end.

(** Behind any enforcer a handler is reached exactly by a call that carries a subject which the enforcer permits what
    the call maps to; a call without a subject is not authenticated, and any other is forbidden. *)
Theorem guards_reach (e : E) mapper next r mapper' m a :
  (HTTP e mapper next r = Served a <-> a = next r /\ exists s, SubjectFromContext r = Some s /\ Authorize e s (default MethodResourceMapper mapper r).1 (default MethodResourceMapper mapper r).2 = None) /\
  (forall c t, HTTP e mapper next r = Status c t -> c = 401%Z /\ SubjectFromContext r = None \/ c = 403%Z /\ exists s err, SubjectFromContext r = Some s /\ Authorize e s (default MethodResourceMapper mapper r).1 (default MethodResourceMapper mapper r).2 = Some err) /\
  (forall sub, is_ok (UnaryServerInterceptor e mapper' sub m a) = true <-> exists s, sub = Some s /\ Authorize e s (default defaultMethodMapper mapper' m).1 (default defaultMethodMapper mapper' m).2 = None) /\
  (UnaryServerInterceptor e mapper' None m a = Err Unauthenticated).
Proof.
  unfold HTTP, UnaryServerInterceptor. destruct (default MethodResourceMapper mapper r) as [act res]. destruct (default defaultMethodMapper mapper' m) as [act' res']. cbn [fst snd]. split; [|split; [|split; [|done]]].
  - destruct (SubjectFromContext r) as [s|]; [|split; [done|by intros (_ & ? & ? & _)]]. destruct (Authorize e s act res) eqn:Ea; (split; [|intros (-> & s' & [= <-] & Hs); (done || by rewrite Hs in Ea)]); [done|]. intros [= <-]. eauto.
  - intros c t. destruct (SubjectFromContext r) as [s|]; [|intros [= <- _]; by left]. destruct (Authorize e s act res) as [err|] eqn:Ea; [|done]. intros [= <- _]. right. split; [done|]. by exists s, err.
  - intros [s|]; [|split; [done|by intros (? & ? & _)]]. destruct (Authorize e s act' res') eqn:Ea; (split; [|intros (s' & [= <-] & Hs); (done || by rewrite Hs in Ea)]); [done|]. intros _. eauto.
Qed.
End guards.

(** * Boundaries *)

(** The default mapping of a path that is not cleaned: a grant below a path covers what leads out of it again. *)
Example dots_lead_out : HTTP (granted [("editor", MkGrant "read" "/docs/*")]) None (fun r => Path r) (MkRequest "GET" "/docs/../admin" (Some (MkSubject "u" ["editor"] ∅))) = Served "/docs/../admin".
Proof. vm_compute. reflexivity. Qed.
(** The words of the methods are those of the grants: a grant by HTTP method is never used. *)
Example mapped_methods : MethodAction "GET" = "read" /\ MethodAction "PURGE" = "purge" /\ defaultMethodMapper "/user.User/Delete" = ("Delete", "user.User").
Proof. split_and!; reflexivity. Qed.
