(* ===== verification/Dlock.v ===== *)
(** Locks and elections in memory ([pkg/store/dlock/memory.go]): goroutines that compete for keys, interleaved at their
    attempts, and the candidates that hold a key while they lead. *)
From Stdlib Require Import ZArith Lia Bool.
From stdpp Require Import base numbers strings list gmap sets relations.
From S2P Require Import Prelude.

(** [locks]: whether the mutex of a key is locked. [handles]: the locks given out, with their key and whether their
    [once] has been used. *)
Record Memory := MkMemory { locks : gmap string bool; handles : list (string * bool) }.
Definition NewMemory : Memory := MkMemory ∅ [].

Definition mutexFor (key : string) (m : Memory) : Memory :=
  match locks m !! key with Some _ => m | None => MkMemory (<[key := false]> (locks m)) (handles m) end.
(** An attempt at the mutex: the answer is the handle. *)
Definition attempt (key : string) (m : Memory) : Memory * option nat :=
  if bool_decide (locks m !! key = Some true) then (m, None)
  else (MkMemory (<[key := true]> (locks m)) (handles m ++ [(key, false)]), Some (length (handles m))).
Definition TryLock (key : string) (m : Memory) : Memory * option nat := attempt key (mutexFor key m).

Definition unlocked_panic : string := "fatal error: sync: unlock of unlocked mutex".
Definition Unlock (h : nat) (m : Memory) : go Memory :=
  match handles m !! h with
  | Some (key, false) =>
      if bool_decide (locks m !! key = Some true) then Ret (MkMemory (<[key := false]> (locks m)) (<[h := (key, true)]> (handles m)))
      else Panic unlocked_panic
  | _ => Ret m
  end.

(** [Lock]: an attempt, and then one at each tick until the context is cancelled; the events that arrive are a list. *)
Inductive event := Tick | Cancelled.
Fixpoint lock_loop (key : string) (m : Memory) (evs : list (event * (Memory -> Memory))) : option (Memory * option nat) :=
  match evs with
  | [] => None
  | (Cancelled, others) :: _ => Some (others m, None)
  | (Tick, others) :: evs => match attempt key (others m) with (m, Some h) => Some (m, Some h) | (m, None) => lock_loop key m evs end
  end.
Definition Lock (key : string) (m : Memory) (evs : list (event * (Memory -> Memory))) : option (Memory * option nat) :=
  match TryLock key m with (m, Some h) => Some (m, Some h) | (m, None) => lock_loop key m evs end.

(** * One holder *)

Definition holds (key : string) (m : Memory) (h : nat) : Prop := handles m !! h = Some (key, false).
Record exclusive (m : Memory) : Prop := {
  x_locked : forall key, locks m !! key = Some true <-> exists h, holds key m h;
  x_one : forall key h h', holds key m h -> holds key m h' -> h = h'
}.

Lemma exclusive_new : exclusive NewMemory.
Proof. split; [intros key; cbn; rewrite lookup_empty; split; [done|intros (h & Hh); done]|intros key h h' Hh; done]. Qed.
Lemma mutexFor_exclusive key m : exclusive m -> exclusive (mutexFor key m).
Proof.
  intros [Hl Ho]. unfold mutexFor. destruct (locks m !! key) as [b|] eqn:E; [done|]. split; [|done]. intros key'. cbn. rewrite <- (Hl key'). destruct (decide (key' = key)) as [->|Hn]; [rewrite lookup_insert_eq, E; split; done|by rewrite lookup_insert_ne].
Qed.
Lemma attempt_spec key m : exclusive m -> exclusive (attempt key m).1 /\ match (attempt key m).2 with
  | Some h => h = length (handles m) /\ handles (attempt key m).1 = handles m ++ [(key, false)] /\ forall h', ~ holds key m h'
  | None => (attempt key m).1 = m /\ exists h', holds key m h' end.
Proof.
  intros [Hl Ho]. unfold attempt. destruct (bool_decide_reflect (locks m !! key = Some true)) as [E|E]; cbn [fst snd]; [split; [done|]; split; [done|]; by apply Hl|].
  assert (forall h', ~ holds key m h') as Hno by (intros h' Hh; apply E, Hl; by exists h'). split; [|done].
  assert (forall key' h, holds key' (MkMemory (<[key := true]> (locks m)) (handles m ++ [(key, false)])) h <-> holds key' m h \/ key' = key /\ h = length (handles m)) as Hh.
  { intros key' h. unfold holds. cbn. rewrite lookup_app. destruct (handles m !! h) as [x|] eqn:Eh.
    - split; [by left|]. intros [?|[_ ->]]; [done|]. by rewrite lookup_ge_None_2 in Eh.
    - apply lookup_ge_None in Eh. rewrite list_lookup_singleton_Some. split; [intros [? [= ->]]; right; split; [done|lia]|]. intros [?|[-> ->]]; [done|]. split; [lia|done]. }
  split.
  - intros key'. cbn [locks]. setoid_rewrite Hh. destruct (decide (key' = key)) as [->|Hn]; [rewrite lookup_insert_eq; split; [intros _; exists (length (handles m)); by right|done]|].
    rewrite lookup_insert_ne by done. rewrite (Hl key'). split; intros [h Hx]; exists h; [by left|]. by destruct Hx as [?|[? _]].
  - intros key' h h' [H1|[-> ->]]%Hh [H2|[E2 ->]]%Hh; [by eapply Ho|subst; by apply Hno in H1|by apply Hno in H2|done].
Qed.
Lemma Unlock_spec h m : exclusive m -> exists m', Unlock h m = Ret m' /\ exclusive m' /\
  forall h' key, holds key m' h' <-> holds key m h' /\ h' <> h.
Proof.
  intros Hx. pose proof Hx as [Hl Ho]. unfold Unlock. destruct (handles m !! h) as [[key [|]]|] eqn:Eh.
  - exists m. split; [done|]. split; [done|]. intros h' key'. split; [|by intros []]. intros Hh. split; [done|]. intros ->. unfold holds in Hh. congruence.
  - assert (locks m !! key = Some true) as El by (apply Hl; by exists h). rewrite bool_decide_true by done. eexists. split; [done|].
    assert (forall h' key', holds key' (MkMemory (<[key := false]> (locks m)) (<[h := (key, true)]> (handles m))) h' <-> holds key' m h' /\ h' <> h) as Hh.
    { intros h' key'. unfold holds. cbn. pose proof (lookup_lt_Some _ _ _ Eh). destruct (decide (h' = h)) as [->|Hn]; [rewrite list_lookup_insert_eq by done; naive_solver|]. rewrite list_lookup_insert_ne by done. naive_solver. }
    split; [|exact Hh]. split.
    + intros key'. cbn [locks]. setoid_rewrite Hh. destruct (decide (key' = key)) as [->|Hn].
      * rewrite lookup_insert_eq. split; [done|]. intros (h' & H1 & H2). by destruct (H2 (Ho key h' h H1 Eh)).
      * rewrite lookup_insert_ne by done. rewrite (Hl key'). split; intros [h' H1]; exists h'; [split; [done|]; intros ->; unfold holds in H1; congruence|by destruct H1].
    + intros key' h1 h2 [H1 _]%Hh [H2 _]%Hh. by eapply Ho.
  - exists m. split; [done|]. split; [done|]. intros h' key'. split; [|by intros []]. intros Hh. split; [done|]. intros ->. unfold holds in Hh. congruence.
Qed.

(** Calls of any goroutines in any order. *)
Inductive lop := LTry (key : string) | LAttempt (key : string) | LUnlock (h : nat).
Definition lexec (o : lop) (m : Memory) : go (Memory * option nat) :=
  match o with
  | LTry key => Ret (TryLock key m)
  | LAttempt key => Ret (attempt key m)
  | LUnlock h => m ← Unlock h m; Ret (m, None)
  end.
Fixpoint lrun (ops : list lop) (m : Memory) : go (Memory * list (option nat)) :=
  match ops with [] => Ret (m, []) | o :: ops => '(m, a) ← lexec o m; '(m, l) ← lrun ops m; Ret (m, a :: l) end.

Lemma handles_mutexFor key m : handles (mutexFor key m) = handles m.
Proof. unfold mutexFor. by destruct (locks m !! key). Qed.
Lemma lrun_exclusive ops : forall m, exclusive m -> exists m' l, lrun ops m = Ret (m', l) /\ exclusive m'.
Proof.
  induction ops as [|o ops IH]; intros m Hx; [by exists m, []|]. assert (exists m1 a, lexec o m = Ret (m1, a) /\ exclusive m1) as (m1 & a & E & Hx1).
  { destruct o as [key|key|h]; cbn [lexec].
    - destruct (attempt_spec key (mutexFor key m) (mutexFor_exclusive key m Hx)) as [H1 _]. unfold TryLock. destruct (attempt key (mutexFor key m)) as [m1 a]. by exists m1, a.
    - destruct (attempt_spec key m Hx) as [H1 _]. destruct (attempt key m) as [m1 a]. by exists m1, a.
    - destruct (Unlock_spec h m Hx) as (m1 & -> & H1 & _). by exists m1, None. }
  cbn [lrun]. rewrite E. cbn [mbind go_bind]. destruct (IH m1 Hx1) as (m2 & l & -> & Hx2). by exists m2, (a :: l).
Qed.

(** C30: However goroutines try, wait and unlock, also more than once, no unlock fails, every key has one holder at most,
    and an attempt succeeds exactly when it has none; unlocking ends one holder's hold and no other's. *)
Theorem locks_exclude ops : exists m l, lrun ops NewMemory = Ret (m, l) /\
  (forall key h h', holds key m h -> holds key m h' -> h = h') /\
  (forall key, (exists h, (TryLock key m).2 = Some h /\ holds key (TryLock key m).1 h) <-> forall h, ~ holds key m h) /\
  (forall h, exists m', Unlock h m = Ret m' /\ forall key h', holds key m' h' <-> holds key m h' /\ h' <> h).
Proof.
  destruct (lrun_exclusive ops NewMemory exclusive_new) as (m & l & E & Hx). exists m, l. split; [done|]. split; [apply Hx|]. split.
  - intros key. pose proof (attempt_spec key (mutexFor key m) (mutexFor_exclusive key m Hx)) as [_ Ha]. unfold TryLock. assert (forall h, holds key (mutexFor key m) h <-> holds key m h) as Hk by (intros h; unfold holds; by rewrite handles_mutexFor).
    destruct (attempt key (mutexFor key m)) as [m1 [h|]]; cbn [fst snd] in *.
    + destruct Ha as (-> & Eh & Hno). split; [intros _ h' Hh; apply (Hno h'); by apply Hk|]. intros _. eexists. split; [done|]. unfold holds. rewrite Eh. by apply list_lookup_middle.
    + destruct Ha as (_ & h' & Hh). split; [by intros (? & ? & _)|]. intros Hno. destruct (Hno h'). by apply Hk.
  - intros h. destruct (Unlock_spec h m Hx) as (m' & E' & _ & Hh). exists m'. split; [done|]. intros key h'. apply Hh.
Qed.

(** The context is only looked at between attempts: a lock that is free is given out although the context is cancelled, and
    a tick that has come as well as the cancellation can win. *)
Example cancelled_still_locks : fmap snd (Lock "k" NewMemory [(Cancelled, fun m => m)]) = Some (Some 0%nat).
Proof. reflexivity. Qed.
Example tick_wins : fmap snd (Lock "k" (TryLock "k" NewMemory).1 [(Tick, fun m => match Unlock 0 m with Ret m => m | Panic _ => m end); (Cancelled, fun m => m)]) = Some (Some 1%nat).
Proof. reflexivity. Qed.

(** * Elections *)

(** Where a call of [Run] is: before the check of the context, the creation of the mutex, the first attempt, between
    ticks, in [onElected], before the unlock, at the check after it, returned, or ended by a panic of [onElected]. *)
Inductive phase := PCheck | PMutex | PTry | PWaiting | PLeading (h : nat) | PUnlock (h : nat) | PAgain | PReturned | PPanicked.
Record candidate := MkCandidate { ckey : string; cdone : bool; cphase : phase }.
Definition at_phase (p : phase) (c : candidate) : candidate := MkCandidate (ckey c) (cdone c) p.
(** What happens to a candidate: its context is cancelled, it goes on, the select takes the cancellation, or [onElected]
    panics. *)
Inductive action := Cancel | GoOn | TakeDone | OnElectedPanics.
Definition won (a : Memory * option nat) (c : candidate) : Memory * candidate :=
  (a.1, at_phase (match a.2 with Some h => PLeading h | None => PWaiting end) c).
Definition Run (a : action) (c : candidate) (m : Memory) : go (Memory * candidate) :=
  match a, cphase c with
  | Cancel, _ => Ret (m, MkCandidate (ckey c) true (cphase c))
  | GoOn, PCheck => Ret (m, at_phase (if cdone c then PReturned else PMutex) c)
  | GoOn, PMutex => Ret (mutexFor (ckey c) m, at_phase PTry c)
  | GoOn, PTry | GoOn, PWaiting => Ret (won (attempt (ckey c) m) c)
  | TakeDone, PWaiting => Ret (m, at_phase (if cdone c then PReturned else PWaiting) c)
  | GoOn, PLeading h => Ret (m, at_phase (PUnlock h) c)
  | OnElectedPanics, PLeading h => Ret (m, at_phase PPanicked c)
  | GoOn, PUnlock h => m ← Unlock h m; Ret (m, at_phase PAgain c)
  | GoOn, PAgain => Ret (m, at_phase (if cdone c then PReturned else PCheck) c)
  | _, _ => Ret (m, c)
  end.
Definition election : Type := Memory * list candidate.
Definition elect (st : election) (e : nat * action) : go election :=
  match st.2 !! e.1 with
  | Some c => '(m, c) ← Run e.2 c st.1; Ret (m, <[e.1 := c]> st.2)
  | None => Ret st
  end.
Fixpoint elections (st : election) (es : list (nat * action)) : go election :=
  match es with [] => Ret st | e :: es => st ← elect st e; elections st es end.
Definition start (keys : list string) : election := (NewMemory, (fun key => MkCandidate key false PCheck) <$> keys).

(** The handle a candidate sits on. *)
Definition seat (c : candidate) : option nat := match cphase c with PLeading h | PUnlock h => Some h | _ => None end.
Record seated (st : election) : Prop := {
  s_exclusive : exclusive st.1;
  s_held : forall i c h, st.2 !! i = Some c -> seat c = Some h -> holds (ckey c) st.1 h;
  s_apart : forall i j c d h, st.2 !! i = Some c -> st.2 !! j = Some d -> seat c = Some h -> seat d = Some h -> i = j
}.
(** Without panics every lock is some candidate's. *)
Definition accounted (st : election) : Prop :=
  forall key h, holds key st.1 h -> exists i c, st.2 !! i = Some c /\ ckey c = key /\ seat c = Some h.

Lemma seated_start keys : seated (start keys) /\ accounted (start keys).
Proof.
  assert (forall i c, (start keys).2 !! i = Some c -> seat c = None) as Hn by (intros i c; unfold start; cbn [snd]; rewrite list_lookup_fmap; intros (k & _ & ->)%fmap_Some; done).
  split; [split; [apply exclusive_new| |]|by intros key h Hh]; intros; by erewrite Hn in * by done.
Qed.

(** A change of one candidate's seat along with the locks. *)
Lemma seated_change m m' cs i c c' : seated (m, cs) -> cs !! i = Some c -> ckey c' = ckey c -> exclusive m' ->
  (forall h, seat c' = Some h -> holds (ckey c) m' h /\ (seat c = Some h \/ forall key, ~ holds key m h)) ->
  (forall key h, holds key m h -> seat c <> Some h -> holds key m' h) -> seated (m', <[i := c']> cs).
Proof.
  intros [Hx Hh Ha] Hi Hk Hx' Hs Hm. cbn [fst snd] in *.
  assert (forall j d h, cs !! j = Some d -> i <> j -> seat d = Some h -> seat c' <> Some h /\ seat c <> Some h) as Hap.
  { intros j d h Hd Hne Hsd. assert (seat c <> Some h) as Hc by (intros Hc; by apply Hne, (Ha i j c d h)). split; [|done]. intros Hc'. destruct (Hs h Hc') as [_ [?|Hno]]; [done|]. by eapply Hno, Hh. }
  split; cbn [fst snd]; [done| |].
  - intros j d h [(<- & <- & _)|[Hne Hd]]%list_lookup_insert_Some Hsd; [rewrite Hk; by apply Hs|]. apply Hm; [by eapply Hh|]. by eapply Hap.
  - intros j k d e h [(<- & <- & _)|[Hne Hd]]%list_lookup_insert_Some [(<- & <- & _)|[Hne' He]]%list_lookup_insert_Some H1 H2; [done| | |by eapply Ha].
    + by destruct (Hap k e h He Hne' H2).
    + by destruct (Hap j d h Hd Hne H1).
Qed.
Lemma accounted_change m m' cs i c c' : accounted (m, cs) -> cs !! i = Some c -> ckey c' = ckey c ->
  (forall key h, holds key m' h -> (holds key m h /\ (seat c = Some h -> seat c' = Some h)) \/ (key = ckey c /\ seat c' = Some h)) ->
  accounted (m', <[i := c']> cs).
Proof.
  intros Hacc Hi Hk Hm key h Hh. cbn [fst snd] in *. pose proof (lookup_lt_Some _ _ _ Hi) as Hlt. destruct (Hm key h Hh) as [[Hh1 Hc]|[-> Hc]]; [|exists i, c'; by rewrite list_lookup_insert_eq].
  destruct (Hacc key h Hh1) as (j & d & Hd & Hkd & Hsd). cbn in Hd. destruct (decide (j = i)) as [->|Hne].
  - replace d with c in * by congruence. exists i, c'. rewrite list_lookup_insert_eq by done. split; [done|]. split; [congruence|by apply Hc].
  - exists j, d. by rewrite list_lookup_insert_ne.
Qed.
(** A step that leaves the holds and the seat alone, and one that gives the seat up without its lock. *)
Lemma seat_kept m m' cs i c c' : seated (m, cs) -> cs !! i = Some c -> ckey c' = ckey c -> exclusive m' ->
  (forall key h, holds key m' h <-> holds key m h) -> seat c' = seat c ->
  seated (m', <[i := c']> cs) /\ (accounted (m, cs) -> accounted (m', <[i := c']> cs)).
Proof.
  intros Hs Hi Hk Hx Hh Hc. split.
  - apply (seated_change m m' cs i c c'); try done; [|intros; by apply Hh]. intros h E. rewrite Hc in E. split; [apply Hh; by apply (s_held _ Hs i c h)|by left].
  - intros Hacc. apply (accounted_change m m' cs i c c'); try done. intros key h E. left. split; [by apply Hh|congruence].
Qed.
Lemma seat_won m cs i c : seated (m, cs) -> cs !! i = Some c -> seat c = None ->
  let r := won (attempt (ckey c) m) c in
  seated (r.1, <[i := r.2]> cs) /\ (accounted (m, cs) -> accounted (r.1, <[i := r.2]> cs)).
Proof.
  intros Hs Hi Hc. destruct (attempt_spec (ckey c) m (s_exclusive _ Hs)) as [Hx Ha]. unfold won. destruct (attempt (ckey c) m) as [m' [h|]]; cbn [fst snd] in *.
  - destruct Ha as (-> & Eh & _).
    assert (forall key h, holds key m' h <-> holds key m h \/ (key = ckey c /\ h = length (handles m))) as Hh.
    { intros key h. unfold holds. rewrite Eh, lookup_app. destruct (handles m !! h) as [x|] eqn:El; [split; [by left|]; intros [?|[_ ->]]; [done|]; by rewrite lookup_ge_None_2 in El|].
      apply lookup_ge_None in El. rewrite list_lookup_singleton_Some. split; [intros [? [= ->]]; right; split; [done|lia]|]. intros [?|[-> ->]]; [done|]. split; [lia|done]. }
    split; [apply (seated_change m m' cs i c); try done|intros Hacc; apply (accounted_change m m' cs i c); try done].
    + intros h [= <-]. split; [apply Hh; by right|right]. intros key Hk. apply lookup_lt_Some in Hk. lia.
    + intros key h Hk _. apply Hh. by left.
    + intros key h [Hk|[-> ->]]%Hh; [left; split; [done|congruence]|by right].
  - destruct Ha as [-> _]. by apply (seat_kept m m cs i c).
Qed.
Lemma seat_freed m cs i c h : seated (m, cs) -> cs !! i = Some c -> seat c = Some h -> exists m', Unlock h m = Ret m' /\
  seated (m', <[i := at_phase PAgain c]> cs) /\ (accounted (m, cs) -> accounted (m', <[i := at_phase PAgain c]> cs)).
Proof.
  intros Hs Hi Hc. destruct (Unlock_spec h m (s_exclusive _ Hs)) as (m' & E & Hx & Hh). exists m'. split; [done|]. split.
  - apply (seated_change m m' cs i c); try done. intros key h' Hk Hn. apply Hh. split; [done|congruence].
  - intros Hacc. apply (accounted_change m m' cs i c); try done. intros key h' [Hk Hn]%Hh. left. split; [done|congruence].
Qed.
Lemma elect_seated st e : seated st -> exists st', elect st e = Ret st' /\ seated st' /\ (e.2 <> OnElectedPanics -> accounted st -> accounted st').
Proof.
  intros Hs. destruct st as [m cs], e as [i a]. unfold elect. cbn [fst snd]. destruct (cs !! i) as [c|] eqn:Hi; [|by exists (m, cs)].
  assert (exists m' c', Run a c m = Ret (m', c') /\ seated (m', <[i := c']> cs) /\ (a <> OnElectedPanics -> accounted (m, cs) -> accounted (m', <[i := c']> cs))) as (m' & c' & -> & H1 & H2); [|cbn; by exists (m', <[i := c']> cs)].
  assert (forall m' c', exclusive m' -> handles m' = handles m -> ckey c' = ckey c -> seat c' = seat c ->
    seated (m', <[i := c']> cs) /\ (a <> OnElectedPanics -> accounted (m, cs) -> accounted (m', <[i := c']> cs))) as Hsame.
  { intros m' c' Hx Eh Hk Hc. destruct (seat_kept m m' cs i c c' Hs Hi Hk Hx) as [H1 H2]; [intros key h; unfold holds; by rewrite Eh|done|]. by split; [|intros _]. }
  pose proof (s_exclusive _ Hs) as Hx. cbn in Hx. destruct c as [key d p]. unfold Run. cbn [ckey cdone cphase].
  destruct a; [eexists _, _; split; [done|]; by apply Hsame|destruct p|destruct p|destruct p];
    try (eexists _, _; split; [done|]; apply Hsame; try done; by destruct d).
  - eexists _, _. split; [done|]. apply Hsame; [by apply mutexFor_exclusive|apply handles_mutexFor|done|done].
  - destruct (seat_won m cs i _ Hs Hi eq_refl) as [H1 H2]. eexists _, _. split; [apply (f_equal Ret), surjective_pairing|]. by split; [|intros _].
  - destruct (seat_won m cs i _ Hs Hi eq_refl) as [H1 H2]. eexists _, _. split; [apply (f_equal Ret), surjective_pairing|]. by split; [|intros _].
  - destruct (seat_freed m cs i _ h Hs Hi eq_refl) as (m' & E & H1 & H2). cbn [mbind]. rewrite E. eexists _, _. split; [done|]. by split; [|intros _].
  - eexists _, _. split; [done|]. split; [|done]. by apply (seated_change m m cs i _ _ Hs Hi).
Qed.
Lemma elections_seated es : forall st, seated st -> exists st', elections st es = Ret st' /\ seated st' /\
  (Forall (fun e => e.2 <> OnElectedPanics) es -> accounted st -> accounted st').
Proof.
  induction es as [|e es IH]; intros st Hs; [by exists st|]. destruct (elect_seated st e Hs) as (st1 & E1 & Hs1 & Ha1). destruct (IH st1 Hs1) as (st2 & E2 & Hs2 & Ha2).
  exists st2. cbn [elections mbind go_bind]. rewrite E1. cbn. split; [done|]. split; [done|]. intros [He Hes]%Forall_cons Ha. by apply Ha2, Ha1.
Qed.

Definition leads (i : nat) (key : string) (st : election) : Prop := exists c h, st.2 !! i = Some c /\ ckey c = key /\ cphase c = PLeading h.

(** However candidates campaign, are cancelled, return or panic while they lead, [Run] never fails on an unlock and
    no two of them lead for one key; and while no [onElected] has panicked a candidate that waits takes the lead at its
    next tick, unless another is still in its seat. *)
Theorem one_leader keys es : exists st, elections (start keys) es = Ret st /\
  (forall i j key, leads i key st -> leads j key st -> i = j) /\
  (Forall (fun e => e.2 <> OnElectedPanics) es -> forall i c, st.2 !! i = Some c -> cphase c = PWaiting ->
    (exists st', elect st (i, GoOn) = Ret st' /\ leads i (ckey c) st') \/
    exists j d h, st.2 !! j = Some d /\ ckey d = ckey c /\ seat d = Some h).
Proof.
  destruct (seated_start keys) as [Hs0 Ha0]. destruct (elections_seated es _ Hs0) as (st & E & Hs & Ha). exists st. split; [done|]. split.
  - intros i j key (c & h & Hi & Hk & Hp) (d & h' & Hj & Hk' & Hp'). assert (seat c = Some h /\ seat d = Some h') as [Hc Hd] by (unfold seat; by rewrite Hp, Hp').
    pose proof (s_held _ Hs _ _ _ Hi Hc) as H1. pose proof (s_held _ Hs _ _ _ Hj Hd) as H2. rewrite Hk in H1. rewrite Hk' in H2. assert (h = h') as <- by (by eapply (x_one _ (s_exclusive _ Hs))). by eapply (s_apart _ Hs).
  - intros Hes i c Hi Hp. specialize (Ha Hes Ha0). destruct st as [m cs]. cbn [fst snd] in *. destruct (attempt_spec (ckey c) m (s_exclusive _ Hs)) as [_ Hw].
    destruct (attempt (ckey c) m) as [m' [h|]] eqn:Ea; cbn [fst snd] in Hw.
    + left. unfold elect. cbn [fst snd]. rewrite Hi. unfold Run. rewrite Hp. cbn [mbind go_bind]. rewrite Ea. eexists. split; [done|]. unfold leads, won. cbn [fst snd].
      eexists _, h. rewrite list_lookup_insert_eq by by eapply lookup_lt_Some. done.
    + right. destruct Hw as [_ [h Hh]]. destruct (Ha _ _ Hh) as (j & d & Hj & Hk & Hd). by exists j, d, h.
Qed.

(** A panic of [onElected] that its caller recovers leaves the key locked: the unlock is not deferred. *)
Example panic_locks_out : match elections (start ["k"; "k"]) [(0, GoOn); (0, GoOn); (0, GoOn); (0, OnElectedPanics); (1, GoOn); (1, GoOn); (1, GoOn); (1, GoOn)]%nat with
  | Ret st => cphase <$> st.2 = [PPanicked; PWaiting] /\ locks st.1 !! "k" = Some true
  | Panic _ => False
  end.
Proof. vm_compute. by split. Qed.
