(* ===== verification/Fieldmask.v ===== *)
(** Field masks ([pkg/fieldmask/fieldmask.go]): which fields of which entity have changed since they were last sent, on
    the bitmaps of [Bitmap]. *)
From Stdlib Require Import ZArith Lia Bool Sorted.
From stdpp Require Import base numbers strings list gmap sets sorting.
From S2P Require Import Prelude Bitmap.

Open Scope Z_scope.

Section tracker.
Context {K : Type} `{Countable K}.

(** An entry of [dirty] is a pointer to a bitmap that nothing else points to. *)
Record Tracker := MkTracker { dirty : gmap K Bitmap; version : gmap K Z }.
Definition NewTracker : Tracker := MkTracker ∅ ∅.

Definition version_of (key : K) (t : Tracker) : Z := default 0 (version t !! key).
Definition bump (key : K) (t : Tracker) : Tracker := MkTracker (dirty t) (<[key := wrapu64 (version_of key t + 1)]> (version t)).
Definition put (key : K) (bm : Bitmap) (t : Tracker) : Tracker := MkTracker (<[key := bm]> (dirty t)) (version t).

Definition SetField (key : K) (field : Z) (t : Tracker) : Tracker :=
  let bm := match dirty t !! key with Some bm => bm | None => Bitmap.New (Z.max (wrap64 (field + 1)) 64) end in
  let t := put key bm t in
  if negb (Test field bm) then bump key (put key (Set_ field bm) t) else t.

Definition max_loop (fields : list Z) : Z := foldl (fun m f => if m <? f then f else m) 0 fields.
Fixpoint set_loop (fields : list Z) (bm : Bitmap) (changed : bool) : Bitmap * bool :=
  match fields with
  | [] => (bm, changed)
  | f :: fields => if negb (Test f bm) then set_loop fields (Set_ f bm) true else set_loop fields bm changed
  end.
Definition SetFields (key : K) (fields : list Z) (t : Tracker) : Tracker :=
  match fields with
  | [] => t
  | _ =>
      let bm := match dirty t !! key with Some bm => bm | None => Bitmap.New (Z.max (wrap64 (max_loop fields + 1)) 64) end in
      let '(bm, changed) := set_loop fields bm false in
      let t := put key bm t in if changed : bool then bump key t else t
  end.

Definition IsDirty (key : K) (t : Tracker) : bool := match dirty t !! key with Some bm => 0 <? Count bm | None => false end.
Definition IsFieldDirty (key : K) (field : Z) (t : Tracker) : bool := match dirty t !! key with Some bm => Test field bm | None => false end.
Definition Version (key : K) (t : Tracker) : Z := version_of key t.

Record Patch := MkPatch { Key : K; Fields : list Z; pVersion : Z }.

(** The loop of [Flush]; a map range visits the keys in some order. *)
Fixpoint flush_loop (order : list K) (t : Tracker) : list Patch :=
  match order with
  | [] => []
  | key :: order =>
      match dirty t !! key with
      | None => flush_loop order t
      | Some bm =>
          let fields := Slice bm in
          if bool_decide (fields = []) then flush_loop order t
          else MkPatch key fields (version_of key t) :: flush_loop order (put key (Reset bm) t)
      end
  end.
Definition Flush (order : list K) (t : Tracker) : Tracker * list Patch :=
  if bool_decide (dirty t = ∅) then (t, []) else (MkTracker ∅ (version t), flush_loop order t).

Definition FlushKey (key : K) (t : Tracker) : Tracker * option Patch :=
  match dirty t !! key with
  | None => (t, None)
  | Some bm =>
      let fields := Slice bm in
      if bool_decide (fields = []) then (t, None)
      else (MkTracker (delete key (dirty t)) (version t), Some (MkPatch key fields (version_of key t)))
  end.
Definition Remove (key : K) (t : Tracker) : Tracker := MkTracker (delete key (dirty t)) (delete key (version t)).
Definition Len (t : Tracker) : Z := Z.of_nat (size (dirty t)).

(** * What a tracker keeps *)

(** Per entity the set of the fields that have changed, and the number of changes. *)
Record masks := MkMasks { changed : gmap K (gset Z); count : gmap K Z }.
Definition ascending (s : gset Z) : list Z := merge_sort Z.le (elements s).
Definition nonneg (l : list Z) : gset Z := list_to_set (filter (fun f => 0 <= f) l).
Definition fields_of (key : K) (m : masks) : gset Z := default ∅ (changed m !! key).
Definition count_of (key : K) (m : masks) : Z := default 0 (count m !! key).
Definition mark (key : K) (l : list Z) (m : masks) : masks :=
  MkMasks (<[key := fields_of key m ∪ nonneg l]> (changed m))
    (if bool_decide (Forall (fun f => f ∈ fields_of key m) l) then count m else <[key := wrapu64 (count_of key m + 1)]> (count m)).
Definition patch (key : K) (m : masks) : option Patch :=
  if bool_decide (fields_of key m = ∅) then None else Some (MkPatch key (ascending (fields_of key m)) (count_of key m)).

Inductive fop := FSet (key : K) (field : Z) | FSetAll (key : K) (fields : list Z) | FDirty (key : K) | FFieldDirty (key : K) (field : Z)
  | FVersion (key : K) | FFlush (order : list K) | FFlushKey (key : K) | FRemove (key : K) | FLen.
Inductive fans := FUnit | FBool (b : bool) | FNum (n : Z) | FPatches (l : list Patch).
Definition fexec (o : fop) (t : Tracker) : Tracker * fans :=
  match o with
  | FSet key f => (SetField key f t, FUnit)
  | FSetAll key l => (SetFields key l t, FUnit)
  | FDirty key => (t, FBool (IsDirty key t))
  | FFieldDirty key f => (t, FBool (IsFieldDirty key f t))
  | FVersion key => (t, FNum (Version key t))
  | FFlush order => let '(t, l) := Flush order t in (t, FPatches l)
  | FFlushKey key => let '(t, p) := FlushKey key t in (t, FPatches (match p with Some p => [p] | None => [] end))
  | FRemove key => (Remove key t, FUnit)
  | FLen => (t, FNum (Len t))
  end.
Definition mexec (o : fop) (m : masks) : masks * fans :=
  match o with
  | FSet key f => (mark key [f] m, FUnit)
  | FSetAll key l => (if bool_decide (l = []) then m else mark key l m, FUnit)
  | FDirty key => (m, FBool (bool_decide (fields_of key m <> ∅)))
  | FFieldDirty key f => (m, FBool (bool_decide (f ∈ fields_of key m)))
  | FVersion key => (m, FNum (count_of key m))
  | FFlush order => (MkMasks ∅ (count m), FPatches (omap (fun key => patch key m) order))
  | FFlushKey key => (match patch key m with Some _ => MkMasks (delete key (changed m)) (count m) | None => m end, FPatches (option_list (patch key m)))
  | FRemove key => (MkMasks (delete key (changed m)) (delete key (count m)), FUnit)
  | FLen => (m, FNum (Z.of_nat (size (changed m))))
  end.
(** The order of a range is one of the keys of the map. *)
Definition fallowed (o : fop) (t : Tracker) : Prop := match o with FFlush order => order ≡ₚ elements (dom (dirty t)) | _ => True end.

Definition same_bits (b : Bitmap) (s : gset Z) : Prop := Bitmap.wf b /\ forall i, bit b i = true <-> i ∈ s.
Record tracks (t : Tracker) (m : masks) : Prop := {
  t_dirty : forall key, option_Forall2 same_bits (dirty t !! key) (changed m !! key);
  t_version : version t = count m
}.

Lemma same_new n : same_bits (Bitmap.New n) ∅.
Proof. split; [apply Forall_replicate; unfold uint64; lia|]. intros i. rewrite New_bit. set_solver. Qed.
Lemma same_marked f b s : same_bits b s -> same_bits (Set_ f b) (s ∪ nonneg [f]).
Proof.
  intros [Hw Hb]. split; [by apply Set_wf|]. intros i. rewrite Set_bit, orb_true_iff, andb_true_iff, Z.leb_le, bool_decide_eq_true, Hb. unfold nonneg. rewrite elem_of_union, elem_of_list_to_set, list_elem_of_filter, list_elem_of_singleton.
  naive_solver.
Qed.
Lemma same_test f b s : same_bits b s -> Test f b = bool_decide (f ∈ s).
Proof. intros [_ Hb]. rewrite Test_bit. apply eq_true_iff_eq. by rewrite Hb, bool_decide_eq_true. Qed.
Lemma lt_sorted l : StronglySorted Z.lt l -> StronglySorted Z.le l /\ NoDup l.
Proof.
  induction 1 as [|x l Hs [IH Hn] Hx]; [split; constructor|]. rewrite Forall_forall in Hx. split; constructor; [done| | |done].
  - apply Forall_forall. intros y Hy. specialize (Hx y Hy). lia.
  - intros Hy. specialize (Hx x Hy). lia.
Qed.
Lemma same_slice b s : same_bits b s -> Slice b = ascending s.
Proof.
  intros [Hw Hb]. destruct (lt_sorted _ (slice_sorted b 0 Hw)) as [Hs Hn]. apply (StronglySorted_unique Z.le); [done|apply (StronglySorted_merge_sort Z.le)|].
  unfold ascending. rewrite merge_sort_Permutation. apply NoDup_Permutation; [done|apply NoDup_elements|]. intros i. by rewrite elem_Slice, Hb, elem_of_elements.
Qed.
Lemma ascending_nil s : ascending s = [] <-> s = ∅.
Proof.
  unfold ascending. split; intros E; [|by subst]. apply leibniz_equiv, elements_empty_iff, Permutation_nil_r. by rewrite <- E, merge_sort_Permutation.
Qed.
Lemma tracks_fields t m key : tracks t m -> dirty t !! key = None /\ changed m !! key = None /\ fields_of key m = ∅ \/
  exists b, dirty t !! key = Some b /\ changed m !! key = Some (fields_of key m) /\ same_bits b (fields_of key m).
Proof. intros [Hd _]. specialize (Hd key). unfold fields_of. destruct (dirty t !! key), (changed m !! key); inversion Hd; subst; [right; eauto|by left]. Qed.
Lemma tracks_count t m key : tracks t m -> version_of key t = count_of key m.
Proof. intros [_ Hv]. unfold version_of, count_of. by rewrite Hv. Qed.
Lemma tracks_put t m key b s : tracks t m -> same_bits b s -> tracks (put key b t) (MkMasks (<[key := s]> (changed m)) (count m)).
Proof.
  intros [Hd Hv] Hs. split; [|done]. intros key'. cbn. destruct (decide (key' = key)) as [->|Hn]; [rewrite !lookup_insert_eq; by constructor|by rewrite !lookup_insert_ne].
Qed.
Lemma tracks_bump t m key : tracks t m -> tracks (bump key t) (MkMasks (changed m) (<[key := wrapu64 (count_of key m + 1)]> (count m))).
Proof. intros Ht. split; [apply (t_dirty _ _ Ht)|]. cbn. by rewrite (tracks_count t m key Ht), (t_version _ _ Ht). Qed.
Lemma tracks_bitmap t m key n : tracks t m -> same_bits (match dirty t !! key with Some b => b | None => Bitmap.New n end) (fields_of key m).
Proof. intros Ht. destruct (tracks_fields t m key Ht) as [(-> & _ & ->)|(b & -> & _ & Hb)]; [apply same_new|done]. Qed.

Lemma marks_loop_spec l : forall b s c, same_bits b s -> same_bits (set_loop l b c).1 (s ∪ nonneg l) /\
  (set_loop l b c).2 = c || negb (bool_decide (Forall (fun f => f ∈ s) l)).
Proof.
  induction l as [|f l IH]; intros b s c Hb.
  - cbn [set_loop fst snd]. rewrite bool_decide_true by constructor. split; [|by rewrite orb_false_r]. replace (s ∪ nonneg []) with s by (unfold nonneg; set_solver). done.
  - cbn [set_loop]. rewrite (same_test f b s Hb). assert (s ∪ nonneg (f :: l) = (s ∪ nonneg [f]) ∪ nonneg l) as E.
    { apply set_eq. intros i. unfold nonneg. rewrite !elem_of_union, !elem_of_list_to_set, !list_elem_of_filter, elem_of_cons, list_elem_of_singleton. naive_solver. }
    destruct (bool_decide_reflect (f ∈ s)) as [Hf|Hf]; cbn [negb].
    + destruct (IH b s c Hb) as [H1 H2]. rewrite E. replace (s ∪ nonneg [f]) with s; [split; [done|]|].
      * rewrite H2. do 2 f_equal. apply bool_decide_ext. rewrite Forall_cons. naive_solver.
      * apply set_eq. intros i. unfold nonneg. rewrite elem_of_union, elem_of_list_to_set, list_elem_of_filter, list_elem_of_singleton. naive_solver.
    + destruct (IH _ _ true (same_marked f b s Hb)) as [H1 H2]. rewrite E. split; [done|]. rewrite H2. cbn. rewrite bool_decide_false; [by rewrite orb_true_r|]. by intros [? _]%Forall_cons.
Qed.
Lemma tracks_mark t m key l n : tracks t m -> let r := set_loop l (match dirty t !! key with Some b => b | None => Bitmap.New n end) false in
  tracks (if r.2 then bump key (put key r.1 t) else put key r.1 t) (mark key l m).
Proof.
  intros Ht r. destruct (marks_loop_spec l _ _ false (tracks_bitmap t m key n Ht)) as [H1 H2]. fold r in H1, H2. cbn [orb] in H2. pose proof (tracks_put t m key _ _ Ht H1) as Hp. unfold mark.
  rewrite H2. destruct (bool_decide_reflect (Forall (fun f => f ∈ fields_of key m) l)); cbn [negb]; [done|]. by apply (tracks_bump _ _ key) in Hp.
Qed.
Lemma SetField_loop key f t : SetField key f t = (let r := set_loop [f] (match dirty t !! key with Some b => b | None => Bitmap.New (Z.max (wrap64 (f + 1)) 64) end) false in
  if r.2 then bump key (put key r.1 t) else put key r.1 t).
Proof. unfold SetField. cbn [set_loop]. destruct (negb _); cbn [fst snd]; [|done]. unfold bump, put, version_of. cbn. by rewrite insert_insert_eq. Qed.

Definition patch_at (t : Tracker) (key : K) : option Patch :=
  match dirty t !! key with
  | Some b => if bool_decide (Slice b = []) then None else Some (MkPatch key (Slice b) (version_of key t)) | None => None end.
Lemma patch_slice t m key : tracks t m -> patch_at t key = patch key m.
Proof.
  intros Ht. unfold patch, patch_at. destruct (tracks_fields t m key Ht) as [(-> & _ & ->)|(b & -> & _ & Hb)]; [done|]. rewrite (same_slice b _ Hb), (tracks_count t m key Ht).
  by rewrite (bool_decide_ext _ _ (ascending_nil _)).
Qed.
Lemma omap_ext_in {A B} (f g : A -> option B) (l : list A) : (forall x, x ∈ l -> f x = g x) -> omap f l = omap g l.
Proof. induction l as [|x l IH]; intros Hf; [done|]. cbn. rewrite (Hf x) by left. destruct (g x); [f_equal|]; apply IH; intros; apply Hf; by right. Qed.
Lemma flush_loop_patches order : forall t, NoDup order -> flush_loop order t = omap (patch_at t) order.
Proof.
  induction order as [|key order IH]; intros t Hn; [done|]. apply NoDup_cons in Hn as [Hni Hn]. cbn. unfold patch_at at 1. destruct (dirty t !! key) as [b|] eqn:E; [|by apply IH].
  destruct (bool_decide_reflect (Slice b = [])); [by apply IH|]. f_equal. rewrite (IH _ Hn). apply omap_ext_in. intros x Hx. unfold patch_at. cbn. by rewrite lookup_insert_ne by congruence.
Qed.
Lemma tracks_dom t m : tracks t m -> dom (dirty t) = dom (changed m).
Proof. intros Ht. apply set_eq. intros key. rewrite !elem_of_dom. destruct (tracks_fields t m key Ht) as [(-> & -> & _)|(b & -> & -> & _)]; [done|by split]. Qed.
Lemma tracks_delete t m key : tracks t m -> tracks (MkTracker (delete key (dirty t)) (version t)) (MkMasks (delete key (changed m)) (count m)).
Proof.
  intros [Hd Hv]. split; [|done]. intros key'. cbn. destruct (decide (key' = key)) as [->|Hn]; [rewrite !lookup_delete_eq; constructor|by rewrite !lookup_delete_ne].
Qed.

Lemma fexec_tracks o t m : tracks t m -> fallowed o t -> tracks (fexec o t).1 (mexec o m).1 /\ (fexec o t).2 = (mexec o m).2.
Proof.
  intros Ht Ho. destruct o as [key f|key l|key|key f|key|order|key|key|]; cbn [fexec mexec fst snd fallowed] in *.
  - split; [|done]. rewrite SetField_loop. by apply tracks_mark.
  - split; [|done]. unfold SetFields. destruct l as [|f l]; [done|]. rewrite bool_decide_false by done. pose proof (tracks_mark t m key (f :: l) (Z.max (wrap64 (max_loop (f :: l) + 1)) 64) Ht) as Hm.
    destruct (set_loop (f :: l) _ false) as [b c]. by destruct c.
  - split; [done|]. f_equal. unfold IsDirty. destruct (tracks_fields t m key Ht) as [(-> & _ & ->)|(b & -> & _ & Hb)]; [done|]. unfold Count. rewrite (Count_slice b 0) by apply Hb. change (slice_from 0 b) with (Slice b). rewrite (same_slice b _ Hb).
    apply eq_true_iff_eq. rewrite Z.ltb_lt, bool_decide_eq_true, <- ascending_nil. destruct (ascending _); cbn [length]; [split; [lia|done]|split; [done|lia]].
  - split; [done|]. f_equal. unfold IsFieldDirty. destruct (tracks_fields t m key Ht) as [(-> & _ & ->)|(b & -> & _ & Hb)]; [done|by apply same_test].
  - split; [done|]. f_equal. by apply tracks_count.
  - unfold Flush. destruct (bool_decide_reflect (dirty t = ∅)) as [E|E]; cbn [fst snd].
    + rewrite E in Ho. rewrite dom_empty_L, elements_empty in Ho. apply Permutation_nil_r in Ho as ->. split; [|done]. split; [|apply (t_version _ _ Ht)]. intros key. rewrite E. cbn. rewrite !lookup_empty. constructor.
    + split; [split; [intros key; cbn; rewrite !lookup_empty; constructor|apply (t_version _ _ Ht)]|]. f_equal. rewrite flush_loop_patches by (rewrite Ho; apply NoDup_elements).
      apply omap_ext_in. intros key _. by apply patch_slice.
  - unfold FlushKey. rewrite <- (patch_slice t m key Ht). unfold patch_at. destruct (tracks_fields t m key Ht) as [(-> & _ & _)|(b & -> & _ & Hb)]; [done|].
    destruct (bool_decide_reflect (Slice b = [])); [done|]. split; [by apply tracks_delete|done].
  - split; [|done]. destruct (tracks_delete t m key Ht) as [Hd _]. split; [apply Hd|]. cbn. by rewrite (t_version _ _ Ht).
  - split; [done|]. f_equal. unfold Len. by rewrite <- !(size_dom (D := gset K)), (tracks_dom t m Ht).
Qed.

Fixpoint fruns (ops : list fop) (t : Tracker) (P : Tracker -> Prop) : Prop :=
  match ops with [] => P t | o :: ops => fallowed o t /\ fruns ops (fexec o t).1 P end.
Fixpoint fanswers (ops : list fop) (t : Tracker) : list fans :=
  match ops with [] => [] | o :: ops => (fexec o t).2 :: fanswers ops (fexec o t).1 end.
Fixpoint manswers (ops : list fop) (m : masks) : list fans :=
  match ops with [] => [] | o :: ops => (mexec o m).2 :: manswers ops (mexec o m).1 end.
Lemma fanswers_tracks ops : forall t m, tracks t m -> fruns ops t (fun _ => True) -> fanswers ops t = manswers ops m.
Proof. induction ops as [|o ops IH]; intros t m Ht Hr; [done|]. destruct Hr as [Ho Hr]. destruct (fexec_tracks o t m Ht Ho) as [H1 H2]. cbn. rewrite H2. f_equal. by apply IH. Qed.
Lemma tracks_new : tracks NewTracker (MkMasks ∅ ∅).
Proof. split; [|done]. intros key. cbn. rewrite !lookup_empty. constructor. Qed.
End tracker.

(** In whatever order the map is ranged, a tracker answers as the sets of the fields changed since the last flush do: a
    patch lists exactly these, ascending and once, with the number of the changes, wrapped, that were no repetition. *)
Theorem fieldmask_refines {K} `{Countable K} (ops : list (@fop K)) : fruns ops NewTracker (fun _ => True) ->
  fanswers ops NewTracker = manswers ops (MkMasks ∅ ∅).
Proof. apply fanswers_tracks, tracks_new. Qed.
Lemma fieldmask_refines_witness :
  fanswers [FSet 1 5; FSetAll 1 [70; 5]; FSet 2 3; FFlush [2; 1]; FFlushKey 1; FVersion 1] (NewTracker (K := Z)) =
  [FUnit; FUnit; FUnit; FPatches [MkPatch 2 [3] 1; MkPatch 1 [5; 70] 2]; FPatches []; FNum 2].
Proof. etrans; [apply fieldmask_refines; cbn [fruns]; split_and!; try exact I; vm_compute; apply Permutation_swap || reflexivity|vm_compute; reflexivity]. Defined.

(** A change of a field of negative number is never sent; yet it counts as one each time, and its entity as one with
    changed fields. *)
Example negative_fields : fanswers [FSet 1 (-1); FSet 1 (-1); FLen; FDirty 1; FVersion 1; FFlush [1]] (NewTracker (K := Z)) =
  [FUnit; FUnit; FNum 1; FBool false; FNum 2; FPatches []].
Proof. vm_compute. reflexivity. Qed.
